(* ===== verification/_CoqProject ===== *)
-Q . S2P
Prelude.v
StateM.v
Presence.v
Sessions.v
Protocol.v
RateLimit.v
Hub.v
HubInv.v
HubWorld.v
HubSpec.v
Json.v
SchemaTypes.v
Jobs.v
JobsSpec.v
Workers.v
Metered.v
ServerRateLimit.v
Query.v
SqlBuilder.v
SqlLex.v
DebugText.v
SqlSpec.v
MemoryStore.v
Aggregate.v
Cache.v
CacheSpec.v
Validation.v
Workflow.v
Dispatcher.v
Retention.v
History.v
HistorySpec.v
DataClient.v
DataClientSpec.v
ClientCoherence.v
Registry.v
Driver.v
Provisioner.v
ProvisionerSpec.v
FleetSpec.v
Migrations.v
MigrationsSpec.v
Scan.v
SchemaDsl.v
SchemaDslSpec.v
Auth.v
AuthSpec.v
DataApi.v
TenantSql.v
Tenancy.v
TableWorld.v
GraphQl.v
JobRoutes.v
CrudRoutes.v
Handlers.v
Rls.v
Relay.v
RelaySpec.v
Projectors.v
ProjectorsSpec.v
Media.v
MediaSpec.v
PgStore.v
PgStoreSpec.v
InterfaceParser.v
InterfaceSpec.v
CliMigrate.v
CliMigrateSpec.v
MigrateDdl.v
CliMigrateRuns.v
AuditLog.v
AuditSpec.v
PlatformGraphql.v
OAuth.v
Codegen.v
CodegenSpec.v
SdlSpec.v
TypeGen.v
TypeGenSpec.v
ResolverGen.v
