(* ===== verification/Prelude.v ===== *)
(** * Atomo: a verification library for the Rust crates under [src/crates]

    Atomo turns a schema into a running backend: a server that stores models in
    PostgreSQL, a durable job queue for external workers, metered commands, an event
    log, GraphQL and media, a realtime relay, projections, a control plane for a fleet of
    such servers, and the parsers and generators of the schema language.  This library
    models the parts that carry the program's own logic and proves what makes them
    correct.  The definitions that model code are executable.

    ** The realtime relay ([atomo_realtime/src], [atomo_realtime_server/src/main.rs])

    One worker task owns all the state and handles one command at a time; connections
    are handles that enqueue commands and receivers of frames.
    - [Presence] ([presence.rs]): who is in which channel; a refinement to a flat
      membership table.
    - [Sessions] ([sessions.rs]): coordinator sessions, with the panics of [leave] as
      [None]; the history theorem shows they cannot happen.
    - [Protocol] ([protocol.rs], [client.rs]): frames and their decoding, and delivery into
      a bounded channel; the channel is tokio's and appears as its observable outcomes
      (accepted, full, closed).
    - [RateLimit] ([rate_limit.rs]): the join limiter on IEEE-754 doubles, by the Standard
      Library's executable [SpecFloat], which is exact where the limiter counts.
    - [StateM], [Hub] ([hub.rs]): the worker's handlers in a small state and panic monad
      with its Hoare triples.  A delivery to a closed receiver reaps that client, which
      notifies others and can reap again: [on_disconnect] takes as fuel one more than the
      number of clients, and [HubInv] proves that this is always enough.
    - [HubInv], [HubWorld], [HubSpec]: the invariant of the worker and that every handler
      keeps it; the life of connections as a step relation ([hub_reachable]); what each
      handler delivers and to whom.  [HubWorld.HubWorldExamples] holds a defect of the
      source: a re-election announced while members are being reaped can leave clients
      with a coordinator that is gone.
    - [Relay], [RelaySpec] ([atomo_realtime_server/src/main.rs],
      [atomo_server/src/realtime.rs]): the sockets as a state machine that drives the hub;
      what the hub is told of a client is, in order, what came in on its socket.

    ** The server's tables ([atomo_server/src])

    - [Jobs], [JobsSpec] ([jobs.rs], the store): the [jobs] table as a map, each statement
      of the store as one atomic step (a PostgreSQL statement), the rows locked by
      concurrent leases as an argument; histories of operations, leases, retries.
    - [Workers] ([jobs.rs], identities and tokens): the capability grammar, the token table.
    - [Metered] ([metered.rs]): single-use tokens and the windowed budget ledger, with
      transactions, their visibility and the advisory lock as a step relation.
    - [ServerRateLimit] ([rate_limit.rs]): the fixed-window limiter per address.
    - [MemoryStore] ([atomo_core/src/errors.rs], [events/], [event_store/memory.rs]) and
      [Aggregate] ([aggregate.rs]): the store in memory discharges the interface
      [MemoryStore.EventStore], against which the aggregate repository is proved.
    - [PgStore], [PgStoreSpec] ([event_store/postgres.rs]): appends as transactions whose
      statements interleave; snapshots, which answer like those in memory.
    - [Auth], [AuthSpec] ([auth.rs], [platform_models.rs]): users, sessions, tokens, each
      statement a numbered step that may fail; requests interleave in halves.
    - [PlatformGraphql] ([platform_graphql.rs]), [OAuth] ([oauth.rs]): accounts through the
      API and through other providers.
    - [Retention], [AuditLog], [AuditSpec] ([audit.rs]): the audit log, what its listener
      stores and what its maintenance deletes.
    - [Media], [MediaSpec] ([storage.rs], [media.rs]): storage as a class with laws, uploads
      with what waits between their statements, commits, byte ranges, collection.
    - [Rls] ([rls.rs]): the policies.  PostgreSQL's part is stated of the statements as they
      read: the predicates of [USING] and [WITH CHECK] are parsed off the policy's text.
    - [Dispatcher] ([action_dispatcher.rs]): from an event to jobs of the queue of [Jobs],
      once per event and action.

    ** The data layer ([atomo/src])

    - [Json], [SchemaTypes] ([atomo_schema/src/types.rs], [events.rs]): [serde_json] values
      and the string functions of the standard library; the schema's data, the access
      decision, the conditions of action bindings; events of models and subscriptions.
    - [Query], [SqlBuilder] ([query/]): the query builders and the generator of SQL
      statements.  [SqlLex] is a lexer for the SQL that is emitted, the specification
      side; [SqlSpec] proves that every statement reads back as intended.
    - [Cache], [CacheSpec] ([cache.rs]): the read cache's locked state; fills,
      invalidations and the database as a step relation, in which a strong read never
      sees a value older than the last completed invalidation, within its bounds.
    - [Validation] ([validation.rs]): field rules, full and partial validation.
    - [Workflow] ([workflow.rs]): steps with their retries (a loop of exactly the retries
      left, so no fuel is needed), conditions, triggers and listeners; the outcomes of an
      execution as a relation that the execution decides.
    - [History], [HistorySpec] ([history.rs], [event_store.rs]): the persisted event table
      with its coverage record, maintenance and replay.  A batch is written in chunks that
      keep the parameter limit; the equivalence with writing one by one is a theorem.
    - [DataClient], [DataClientSpec] ([client.rs], [hooks.rs]): every read and write of the
      client with cache, hooks, validation, access rules and transactions.  PostgreSQL is
      a class of operations over an abstract database; a statement may fail.
    - [DebugText], [ClientCoherence]: the cache's key is formatted as in the code, by what
      Rust prints of its parts; that it tells queries apart is proved, and with it that a
      client with a strong cache is equivalent to one without.
    - [DataApi], [TenantSql], [Tenancy], [TableWorld]: the client as its callers see it and
      the tenant contract they rely on, for any database that does what SQL says of the
      statements as they are read off their text.
    - [GraphQl] ([graphql.rs]), [JobRoutes], [CrudRoutes], [Handlers] ([atomo_server/src]):
      the resolvers and routes over that interface.
    - [Migrations], [MigrationsSpec] ([schema.rs]): the plan of a migration, its text, and
      what it does to the catalog of a database.
    - [Projectors], [ProjectorsSpec] ([atomo_projectors/src]): read tables that follow the
      events, and their rebuilds.

    ** The control plane ([atomo_control_plane/src])

    - [Registry] ([error.rs], [registry.rs]): the machine as a class (programs, files,
      environment, clock, PostgreSQL administration), the monad of computations that keep
      what they did when they fail, the projects by id and the audit log.
    - [Driver] ([driver.rs], [docker.rs], [secrets.rs], [extensions.rs]): the contract of a
      driver as a class with laws ([DriverLaws]); the Docker driver satisfies them, given
      what the docker command documents ([DockerLaws]).
    - [Provisioner] ([caddy.rs], [provisioner.rs], [reconciler.rs], [api.rs]): the gateway's
      configuration, the life cycle of a project, one pass of the reconciler, the API's
      handlers, for any lawful driver.
    - [ProvisionerSpec], [FleetSpec] (and [ops.rs]): what each operation may touch; the
      meaning of a routing configuration; isolation, routing, convergence; backup, guarded
      restore, the health of the fleet.

    ** Schema language, generators, command line ([atomo_schema/src], [atomo_cli/src])

    - [Scan], [SchemaDsl], [SchemaDslSpec] ([schema_dsl_parser.rs]): the scanners and the
      parser of the builder language; regular expressions are a class with laws.  Loops by
      a cursor take the length of the text as fuel, and the parser is proved to end.
    - [InterfaceParser], [InterfaceSpec] ([typescript_parser.rs], [dsl_parser.rs]): schemas
      written as interfaces; no model is lost silently.
    - [CliMigrate], [CliMigrateSpec], [MigrateDdl], [CliMigrateRuns] ([commands/migrate.rs]):
      the comparison of models and tables, the file it writes, reading and running it.
      [MigrateDdl] reads the statements: what a database does with them is stated of their
      text, with the names PostgreSQL gives to types.
    - [Codegen], [CodegenSpec], [SdlSpec] ([codegen.rs], [operation_definitions.rs]): the
      TypeScript client and the GraphQL documents as text, read back by readers.
    - [TypeGen], [TypeGenSpec] ([hasura_v2_type_generator.rs]): the Rust types as text, and
      which conversions from a row are well typed.
    - [ResolverGen] ([hasura_v2_resolver_generator.rs]): what a generated resolver does when
      it runs, against the meaning of the filter it is given.

    ** What the theorems show

    Invariants over all histories (the hub, jobs, the ledger, projections, media), the
    functional effect of each operation on every branch, refinements (the repository over
    any lawful store, the client to the tenant contract, the relay to conversations),
    equivalences (cached and uncached clients, stores of snapshots, byte ranges and their
    standard), round trips (event replay, tokens, generated texts), safety (injection,
    access, row-level security, complete replays), liveness (convergence of the reconciler
    and of migrations, termination of the parsers), and defects where the code does not do
    what it says.  What other programs do is stated as the laws of a class, of what they
    are handed, and every such class has an instance.

    ** Conventions

    Integers are [Z]; operations that saturate or wrap in the source do so here.  Hash
    maps iterate in an unspecified order, so every iteration goes through the class
    [HashOrder] below and theorems hold for all orders.  Clocks, fresh identifiers and
    random numbers are arguments.  SHA-256, IP parsing and other foreign code are
    parameters of the sections that use them.  Strings are bytes; changes of case are those
    of ASCII, where the source also changes other letters.

    ** Not modelled

    The generator of hooks, the server's start-up, health pages and metrics, the registries
    of models and their descriptions, the declarations of content and of configuration, the
    calls to AI services, and the rest of the command line: glue, data without behaviour, or
    the outside world.  Within what is modelled: a commit that fails is one that did not
    happen, never one whose answer was lost; the faults of a transaction of the data client
    are an argument, per event and step; enqueuing a job fails for a duplicate key only; the
    operations on media but uploads are one step each; [sqlx::QueryBuilder] is as it is
    documented.  The manifest lists every part with its reason.

    ** What could come next

    The generator of hooks; operations on media as interleaved statements;
    commits whose answer is lost, and what callers that try again then do. *)

From stdpp Require Export base tactics option list gmap strings sorting fin_maps.
From Stdlib Require Export ZArith Lia.
From Stdlib Require Import SpecFloat.

#[global] Open Scope Z_scope.
#[export] Set Warnings "-clear-no-such-hyp".

(** ** Machine integers *)

Definition u32_max : Z := 2 ^ 32 - 1.
Definition u64_max : Z := 2 ^ 64 - 1.
Definition i64_max : Z := 2 ^ 63 - 1.
Definition i64_min : Z := - 2 ^ 63.

(** Wrap-around of the unsigned types in a release build. *)
Definition wrap_u32 (z : Z) : Z := z mod 2 ^ 32.
Definition wrap_u64 (z : Z) : Z := z mod 2 ^ 64.

(** [u64::saturating_mul], [u64::saturating_sub], [i64::saturating_add]. *)
Definition u64_saturating_mul (a b : Z) : Z := Z.min (a * b) u64_max.
Definition u64_saturating_add (a b : Z) : Z := Z.min (a + b) u64_max.
Definition u64_saturating_sub (a b : Z) : Z := Z.max (a - b) 0.
Definition i64_saturating_add (a b : Z) : Z :=
  Z.max i64_min (Z.min (a + b) i64_max).

Lemma wrap_u32_small z : 0 <= z <= u32_max -> wrap_u32 z = z.
Proof. unfold wrap_u32, u32_max. intros. apply Z.mod_small. lia. Qed.

Lemma wrap_u64_small z : 0 <= z <= u64_max -> wrap_u64 z = z.
Proof. unfold wrap_u64, u64_max. intros. apply Z.mod_small. lia. Qed.

Lemma wrap_u32_range z : 0 <= wrap_u32 z <= u32_max.
Proof. unfold wrap_u32, u32_max. pose proof (Z.mod_pos_bound z (2 ^ 32)). lia. Qed.

(** ** IEEE-754 binary64, the [f64] of Rust, by the Standard Library's
    executable specification (no axioms, no rounding shortcuts) *)
Module F64.
Definition t := spec_float.
Definition prec : Z := 53.
Definition emax : Z := 1024.
Definition of_Z (z : Z) : t := binary_normalize prec emax z 0 false.
Definition add (x y : t) : t := SFadd prec emax x y.
Definition sub (x y : t) : t := SFsub prec emax x y.
Definition mul (x y : t) : t := SFmul prec emax x y.
Definition div (x y : t) : t := SFdiv prec emax x y.
Definition ltb (x y : t) : bool := SFltb x y.
Definition leb (x y : t) : bool := SFleb x y.
Definition eqb (x y : t) : bool := SFeqb x y.
Definition is_nan (x : t) : bool := match x with S754_nan => true | _ => false end.
(** [f64::min]: a NaN operand yields the other operand. *)
Definition min (x y : t) : t :=
  if is_nan x then y else if is_nan y then x else if ltb x y then x else y.
End F64.

(** ** Iteration order of hash maps and hash sets

    [std::collections::HashMap] and [HashSet] iterate in an unspecified order.
    Every iteration of the model goes through [horder], so a theorem holds for
    every order; a witness picks one. *)
Class HashOrder : Type := {
  horder : forall {A : Type}, list A -> list A;
  horder_perm : forall {A : Type} (l : list A), horder l ≡ₚ l
}.

(** The order of the underlying enumeration, used by closed examples. *)
Definition enum_order : HashOrder :=
  {| horder := fun A l => l; horder_perm := fun A l => Permutation_refl l |}.

(** Another legitimate order, used to exhibit order-independence. *)
Definition rev_order : HashOrder :=
  {| horder := fun A l => reverse l;
     horder_perm := fun A l => reverse_Permutation l |}.

Section HashIter.
Context `{Countable K} {ho : HashOrder}.

Definition hkeys {V} (m : gmap K V) : list K := horder (map_to_list m).*1.
Definition hvalues {V} (m : gmap K V) : list V := horder (map_to_list m).*2.
Definition hpairs {V} (m : gmap K V) : list (K * V) := horder (map_to_list m).
Definition helements (s : gset K) : list K := horder (elements s).

Lemma elem_of_horder {A} (x : A) (l : list A) : x ∈ horder l <-> x ∈ l.
Proof. by rewrite horder_perm. Qed.

Lemma elem_of_hkeys {V} (m : gmap K V) k : k ∈ hkeys m <-> is_Some (m !! k).
Proof.
  unfold hkeys. rewrite elem_of_horder, list_elem_of_fmap. split.
  - intros ([k' v] & -> & Hin%elem_of_map_to_list). by eexists.
  - intros [v Hv]. exists (k, v). split; [done|]. by apply elem_of_map_to_list.
Qed.

Lemma elem_of_hvalues {V} (m : gmap K V) v :
  v ∈ hvalues m <-> exists k, m !! k = Some v.
Proof.
  unfold hvalues. rewrite elem_of_horder, list_elem_of_fmap. split.
  - intros ([k' v'] & -> & Hin%elem_of_map_to_list). by eexists.
  - intros [k Hv]. exists (k, v). split; [done|]. by apply elem_of_map_to_list.
Qed.

Lemma elem_of_hpairs {V} (m : gmap K V) k v :
  (k, v) ∈ hpairs m <-> m !! k = Some v.
Proof. unfold hpairs. rewrite elem_of_horder. apply elem_of_map_to_list. Qed.

Lemma elem_of_helements (s : gset K) x : x ∈ helements s <-> x ∈ s.
Proof. unfold helements. rewrite elem_of_horder. apply elem_of_elements. Qed.

Lemma NoDup_hkeys {V} (m : gmap K V) : NoDup (hkeys m).
Proof. unfold hkeys. rewrite horder_perm. apply NoDup_fst_map_to_list. Qed.

Lemma NoDup_helements (s : gset K) : NoDup (helements s).
Proof. unfold helements. rewrite horder_perm. apply NoDup_elements. Qed.

Lemma length_hkeys {V} (m : gmap K V) : length (hkeys m) = size m.
Proof. unfold hkeys. by rewrite horder_perm, length_fmap, length_map_to_list. Qed.
End HashIter.

(** ** Sorting: Rust's [sort] and [sort_by_key] are stable merge sorts *)

(** Strings compare as byte sequences. *)
Definition sort_strings (l : list string) : list string := merge_sort String.le l.

Lemma elem_of_sort_strings x l : x ∈ sort_strings l <-> x ∈ l.
Proof. unfold sort_strings. by rewrite merge_sort_Permutation. Qed.

Lemma sort_strings_perm l1 l2 : l1 ≡ₚ l2 -> sort_strings l1 = sort_strings l2.
Proof.
  intros Hp. unfold sort_strings. apply (StronglySorted_unique String.le).
  - apply StronglySorted_merge_sort; apply _.
  - apply StronglySorted_merge_sort; apply _.
  - by rewrite !merge_sort_Permutation.
Qed.

(** ** Lists *)

Lemma filter_all {A} (P : A -> Prop) `{forall x, Decision (P x)} (l : list A) :
  (forall x, x ∈ l -> P x) -> filter P l = l.
Proof.
  induction l as [|x l IH]; intros Hp; [done|]. rewrite filter_cons, decide_True.
  - f_equal. apply IH. intros y Hy. apply Hp. by right.
  - apply Hp. left.
Qed.

(** [filter_map] where the function never fails is a [map]. *)
Section OmapTotal.
Context {A B : Type} (f : A -> option B).

Lemma omap_total_lookup (l : list A) k :
  (forall x, x ∈ l -> is_Some (f x)) -> omap f l !! k = l !! k ≫= f.
Proof.
  revert k. induction l as [|x l IH]; intros k Hf; [done|].
  destruct (Hf x) as [y Hy]; [left|]. simpl. rewrite Hy.
  destruct k as [|k]; simpl; [done|]. apply IH. intros z Hz. apply Hf. by right.
Qed.

Lemma omap_total_length (l : list A) :
  (forall x, x ∈ l -> is_Some (f x)) -> length (omap f l) = length l.
Proof.
  induction l as [|x l IH]; intros Hf; [done|]. simpl.
  destruct (Hf x) as [y ->]; [left|]. simpl. f_equal. apply IH. intros z Hz. apply Hf. by right.
Qed.
End OmapTotal.

(** A map updated at the keys of a list of pairs. *)
Section FoldInsert.
Context `{Countable K} {A B : Type}.

Lemma foldr_insert_in (f : K * A -> B) (l : list (K * A)) (m : gmap K B) p :
  NoDup l.*1 -> p ∈ l -> foldr (fun q m => <[q.1 := f q]> m) m l !! p.1 = Some (f p).
Proof.
  induction l as [|q l IH]; intros Hnd Hp; [by apply not_elem_of_nil in Hp|].
  apply NoDup_cons in Hnd as [Hq Hnd]. simpl.
  apply elem_of_cons in Hp as [->|Hp]; [apply lookup_insert_eq|].
  rewrite lookup_insert_ne; [by apply IH|]. intros Heq. apply Hq. rewrite Heq.
  apply list_elem_of_fmap. by exists p.
Qed.

Lemma foldr_insert_notin (f : K * A -> B) (l : list (K * A)) (m : gmap K B) k :
  k ∉ l.*1 -> foldr (fun q m => <[q.1 := f q]> m) m l !! k = m !! k.
Proof.
  induction l as [|q l IH]; intros Hk; [done|]. simpl.
  apply not_elem_of_cons in Hk as [Hne Hk]. rewrite lookup_insert_ne by done. by apply IH.
Qed.

Lemma foldr_insert_None (f : K * A -> B) (l : list (K * A)) (m : gmap K B) k :
  (forall p, p ∈ l -> is_Some (m !! p.1)) ->
  foldr (fun q m => <[q.1 := f q]> m) m l !! k = None <-> m !! k = None.
Proof.
  intros Hl. induction l as [|q l IH]; [done|]. simpl.
  rewrite lookup_insert_None, IH by (intros p Hp; apply Hl; by right).
  split; [tauto|]. intros Hk. split; [done|]. intros <-.
  destruct (Hl q) as [x Hx]; [left|congruence].
Qed.
End FoldInsert.

(** ** Strings: [+:+] does not reduce by [simpl] *)

Lemma str_app_nil (s : string) : EmptyString +:+ s = s.
Proof. done. Qed.

Lemma str_app_cons a (s t : string) : String a s +:+ t = String a (s +:+ t).
Proof. done. Qed.

Lemma str_app_empty_r (s : string) : s +:+ EmptyString = s.
Proof. induction s as [|a s IH]; [done|]. by rewrite str_app_cons, IH. Qed.

Lemma str_app_assoc (s t u : string) : (s +:+ t) +:+ u = s +:+ t +:+ u.
Proof. induction s as [|a s IH]; [done|]. by rewrite !str_app_cons, IH. Qed.

Lemma concat_cons (s : string) (l : list string) : String.concat EmptyString (s :: l) = s +:+ String.concat EmptyString l.
Proof. destruct l; cbn [String.concat]; [by rewrite str_app_empty_r|by rewrite str_app_nil]. Qed.

(** ** Automation shared by the components *)

Create HintDb atomo discriminated.
#[export] Hint Constants Opaque : atomo.
#[export] Hint Resolve wrap_u32_range NoDup_hkeys NoDup_helements : atomo.

(** Open every existential and conjunction of the context. *)
Ltac split_hyps :=
  repeat match goal with
  | H : exists x, _ |- _ => let y := fresh x in destruct H as [y H]
  | H : _ /\ _ |- _ => destruct H
  end.

(** Case analysis on the [match] or [if] that blocks the goal. *)
Ltac case_goal :=
  match goal with
  | |- context [if ?b then _ else _] => destruct b eqn:?
  | |- context [match ?x with _ => _ end] => destruct x eqn:?
  end.
