(* ===== verification/StateM.v ===== *)
(** * State monad with panics and fuel, and its total-correctness triples

    Handlers that mutate a shared state and may panic (an out-of-range index, a
    missing map entry) or that recurse through each other are written in the
    monad [M S]: a function of the state that is [Done] with a value and a new
    state, [Panic]s, or runs out of the fuel given to it.  [triple P m Q] is
    TOTAL correctness: from a state of [P] the computation is [Done], so a proof
    of a triple rules out panics and shows that the fuel was enough.  Then the
    monad of computations that keep what they did when they fail. *)

From S2P Require Import Prelude.

Inductive outcome (A : Type) : Type :=
  | Done (a : A)
  | Panic
  | OutOfFuel.
Arguments Done {A} a.
Arguments Panic {A}.
Arguments OutOfFuel {A}.

Definition M (S A : Type) : Type := S -> outcome (A * S).

#[global] Instance M_ret (S : Type) : MRet (M S) := fun A a s => Done (a, s).
#[global] Instance M_bind (S : Type) : MBind (M S) := fun A B k m s =>
  match m s with
  | Done (a, s') => k a s'
  | Panic => Panic
  | OutOfFuel => OutOfFuel
  end.

Definition gets {S A} (f : S -> A) : M S A := fun s => Done (f s, s).
Definition modify {S} (f : S -> S) : M S unit := fun s => Done (tt, f s).
Definition panic {S A} : M S A := fun _ => Panic.
Definition no_fuel {S A} : M S A := fun _ => OutOfFuel.
(** Read a value and update the state in one step ([get_mut]-style operations). *)
Definition update {S A} (f : S -> A * S) : M S A := fun s => Done (f s).
(** An operation of a component that may panic, e.g. an index out of range. *)
Definition update_opt {S A} (f : S -> option (A * S)) : M S A := fun s =>
  match f s with Some r => Done r | None => Panic end.

(** [for x in l { body(x) }] *)
Fixpoint for_each {S A} (l : list A) (body : A -> M S unit) : M S unit :=
  match l with
  | [] => mret tt
  | x :: rest => body x ;; for_each rest body
  end.

Lemma bind_done {S A B} (m : M S A) (k : A -> M S B) (s s' : S) (a : A) :
  m s = Done (a, s') -> (m ≫= k) s = k a s'.
Proof. intros Heq. unfold mbind, M_bind. by rewrite Heq. Qed.

Lemma for_each_step {S A} (x : A) (l : list A) (body : A -> M S unit) (s s' : S) :
  body x s = Done (tt, s') -> for_each (x :: l) body s = for_each l body s'.
Proof. intros Heq. simpl. unfold mbind, M_bind. by rewrite Heq. Qed.

(** ** Triples *)

Section Triples.
Context {S : Type}.

Definition triple {A} (P : S -> Prop) (m : M S A) (Q : A -> S -> Prop) : Prop :=
  forall s, P s -> exists a s', m s = Done (a, s') /\ Q a s'.

Lemma triple_ret {A} (a : A) (P : S -> Prop) (Q : A -> S -> Prop) :
  (forall s, P s -> Q a s) -> triple P (mret a) Q.
Proof. intros H s Hs. exists a, s. split; [done|]. by apply H. Qed.

Lemma triple_bind {A B} (m : M S A) (k : A -> M S B) P R Q :
  triple P m R -> (forall a, triple (R a) (k a) Q) -> triple P (m ≫= k) Q.
Proof.
  intros Hm Hk s Hs. destruct (Hm s Hs) as (a & s' & Heq & HR).
  destruct (Hk a s' HR) as (b & s'' & Heq' & HQ).
  exists b, s''. split; [|done]. unfold mbind, M_bind. by rewrite Heq.
Qed.

Lemma triple_gets {A} (f : S -> A) (P : S -> Prop) (Q : A -> S -> Prop) :
  (forall s, P s -> Q (f s) s) -> triple P (gets f) Q.
Proof. intros H s Hs. exists (f s), s. split; [done|]. by apply H. Qed.

Lemma triple_modify (f : S -> S) (P : S -> Prop) (Q : unit -> S -> Prop) :
  (forall s, P s -> Q tt (f s)) -> triple P (modify f) Q.
Proof. intros H s Hs. exists tt, (f s). split; [done|]. by apply H. Qed.

Lemma triple_update {A} (f : S -> A * S) (P : S -> Prop) (Q : A -> S -> Prop) :
  (forall s, P s -> Q (f s).1 (f s).2) -> triple P (update f) Q.
Proof.
  intros H s Hs. exists (f s).1, (f s).2. split; [|by apply H].
  unfold update. by destruct (f s).
Qed.

Lemma triple_update_opt {A} (f : S -> option (A * S)) P (Q : A -> S -> Prop) :
  (forall s, P s -> exists a s', f s = Some (a, s') /\ Q a s') ->
  triple P (update_opt f) Q.
Proof.
  intros H s Hs. destruct (H s Hs) as (a & s' & Heq & HQ). exists a, s'.
  split; [|done]. unfold update_opt. by rewrite Heq.
Qed.

Lemma triple_conseq {A} (P P' : S -> Prop) (m : M S A) (Q Q' : A -> S -> Prop) :
  triple P' m Q' -> (forall s, P s -> P' s) -> (forall a s, Q' a s -> Q a s) ->
  triple P m Q.
Proof.
  intros Ht HP HQ s Hs. destruct (Ht s (HP s Hs)) as (a & s' & Heq & H).
  exists a, s'. split; [exact Heq|]. exact (HQ a s' H).
Qed.

Lemma triple_pre {A} (P P' : S -> Prop) (m : M S A) (Q : A -> S -> Prop) :
  triple P' m Q -> (forall s, P s -> P' s) -> triple P m Q.
Proof. intros. by eapply triple_conseq. Qed.

(** Two first steps taken together. *)
Lemma triple_bind_then {A B} (m1 : M S A) (m2 : A -> M S unit) (k : A -> M S B) P R Q :
  triple P (a ← m1; m2 a ;; mret a) R -> (forall a, triple (R a) (k a) Q) ->
  triple P (a ← m1; m2 a ;; k a) Q.
Proof.
  intros Hm Hk s Hs. destruct (Hm s Hs) as (a & s' & Heq & HR). revert Heq.
  unfold mbind, M_bind. destruct (m1 s) as [[a1 s1]| |]; try done.
  destruct (m2 a1 s1) as [[[] s2]| |]; try done. intros [= <- <-]. by apply Hk.
Qed.

(** A triple only depends on what the computation does. *)
Lemma triple_ext {A} (m m' : M S A) (P : S -> Prop) (Q : A -> S -> Prop) :
  (forall s, m s = m' s) -> triple P m Q -> triple P m' Q.
Proof. intros Heq H s Hs. rewrite <- Heq. by apply H. Qed.

(** Introduce the initial state as a logical variable. *)
Lemma triple_state {A} (P : S -> Prop) (m : M S A) (Q : A -> S -> Prop) :
  (forall s0, P s0 -> triple (fun s => s = s0) m Q) -> triple P m Q.
Proof. intros H s Hs. exact (H s Hs s eq_refl). Qed.

(** Loop rule: [I rest s] holds before each iteration over the rest of the list. *)
Lemma triple_for_each {A} (I : list A -> S -> Prop) (l : list A)
    (body : A -> M S unit) :
  (forall x rest, triple (I (x :: rest)) (body x) (fun _ => I rest)) ->
  triple (I l) (for_each l body) (fun _ => I []).
Proof.
  intros Hbody. induction l as [|x rest IH]; simpl.
  - by apply triple_ret.
  - eapply triple_bind; [apply Hbody|]. intros ?. exact IH.
Qed.

(** Loop rule for an invariant that does not depend on the position. *)
Lemma triple_for_each_inv {A} (I : S -> Prop) (l : list A)
    (body : A -> M S unit) :
  (forall x, x ∈ l -> triple I (body x) (fun _ => I)) ->
  triple I (for_each l body) (fun _ => I).
Proof.
  induction l as [|x rest IH]; simpl; intros Hbody.
  - by apply triple_ret.
  - eapply triple_bind; [apply Hbody; set_solver|].
    intros ?. apply IH. intros y Hy. apply Hbody. set_solver.
Qed.
End Triples.

(** Run a computation, keeping only the final state. *)
Definition exec {S A} (m : M S A) (s : S) : option S :=
  match m s with Done (_, s') => Some s' | _ => None end.

Lemma triple_exec {S A} (P : S -> Prop) (m : M S A) (Q : S -> Prop) s :
  triple P m (fun _ => Q) -> P s -> exists s', exec m s = Some s' /\ Q s'.
Proof.
  intros Ht Hs. destruct (Ht s Hs) as (a & s' & Heq & HQ).
  exists s'. unfold exec. by rewrite Heq.
Qed.

(** * Fallible computations over a state

    [Comp S E A] is a function of a state that yields a value or an error and the state
    that is left either way: the handlers and resolvers of the server, which return
    [Result] and keep what they did before failing.  [ensures P m Q] is a triple: started
    where [P] holds, [m] ends with [Q] of its outcome and the state. *)

Definition Comp (S E A : Type) : Type := S -> (A + E) * S.

#[global] Instance Comp_ret (S E : Type) : MRet (Comp S E) := fun A a s => (inl a, s).
#[global] Instance Comp_bind (S E : Type) : MBind (Comp S E) := fun A B k m s =>
  match m s with
  | (inl a, s') => k a s'
  | (inr e, s') => (inr e, s')
  end.

Section Comp.
Context {S E : Type}.

Definition throw {A} (e : E) : Comp S E A := fun s => (inr e, s).
(** A value computed beforehand: [r?] *)
Definition of_sum {A} (r : A + E) : Comp S E A := fun s => (r, s).
Definition of_option {A} (o : option A) (e : E) : Comp S E A :=
  match o with Some a => mret a | None => throw e end.
(** [if let Some(e) = guard { return Err(e) }] *)
Definition check (o : option E) : Comp S E unit :=
  match o with None => mret tt | Some e => throw e end.
Definition asks {A} (f : S -> A) : Comp S E A := fun s => (inl (f s), s).
(** A step that cannot fail *)
Definition step {A} (f : S -> A * S) : Comp S E A := fun s => let '(a, s') := f s in (inl a, s').
(** [m.map_err(f)] *)
Definition with_error {E' A} (f : E' -> E) (m : Comp S E' A) : Comp S E A := fun s =>
  match m s with (inl a, s') => (inl a, s') | (inr e, s') => (inr (f e), s') end.
(** The outcome as a value *)
Definition try {E' A} (m : Comp S E' A) : Comp S E (A + E') := fun s =>
  let '(r, s') := m s in (inl r, s').

(** [for x in l { .. ?; out.push(..) }] *)
Fixpoint collect {A B} (f : A -> Comp S E B) (l : list A) : Comp S E (list B) :=
  match l with
  | [] => mret []
  | x :: rest => b ← f x; bs ← collect f rest; mret (b :: bs)
  end.
End Comp.

(** A computation on a part of the state *)
Definition on {S T E A} (get : S -> T) (put : T -> S -> S) (m : Comp T E A) : Comp S E A := fun s =>
  let '(r, t) := m (get s) in (r, put t s).

(** ** Triples *)

Section Ensures.
Context {S E : Type}.

Definition ensures {A} (P : S -> Prop) (m : Comp S E A) (Q : S -> A + E -> S -> Prop) : Prop :=
  forall s, P s -> Q s (m s).1 (m s).2.

(** Success and failure separately *)
Definition ok {A} (Q : S -> A -> S -> Prop) (R : S -> S -> Prop) (s : S) (r : A + E) (s' : S) : Prop :=
  match r with inl a => Q s a s' | inr _ => R s s' end.

Lemma bind_inl {A B} (m : Comp S E A) (k : A -> Comp S E B) s b s' :
  (m ≫= k) s = (inl b, s') <-> exists a s1, m s = (inl a, s1) /\ k a s1 = (inl b, s').
Proof.
  unfold mbind, Comp_bind. destruct (m s) as [[a|e] s1].
  - split; [eauto|]. by intros (? & ? & [= <- <-] & ?).
  - split; [done|]. intros (? & ? & ? & ?). done.
Qed.
Lemma bind_inr {A B} (m : Comp S E A) (k : A -> Comp S E B) s e s' :
  (m ≫= k) s = (inr e, s') <->
    m s = (inr e, s') \/ exists a s1, m s = (inl a, s1) /\ k a s1 = (inr e, s').
Proof.
  unfold mbind, Comp_bind. destruct (m s) as [[a|e1] s1].
  - split; [intros; right; eauto|]. intros [?|(? & ? & [= <- <-] & ?)]; done.
  - split; [intros [= -> ->]; by left|]. intros [[= -> ->]|(? & ? & ? & ?)]; done.
Qed.

(** ** Relations kept, whether it succeeds or fails *)

Definition keeping {A} (R : S -> S -> Prop) (m : Comp S E A) : Prop := forall s, R s (m s).2.

Context (R : S -> S -> Prop) `{!Reflexive R} `{!Transitive R}.

Lemma keeping_ret {A} (a : A) : keeping R (mret a : Comp S E A).
Proof. intros s. cbn. reflexivity. Qed.
Lemma keeping_throw {A} e : keeping R (throw e : Comp S E A).
Proof. intros s. cbn. reflexivity. Qed.
Lemma keeping_of_sum {A} r : keeping R (of_sum r : Comp S E A).
Proof. intros s. cbn. reflexivity. Qed.
Lemma keeping_of_option {A} o e : keeping R (of_option o e : Comp S E A).
Proof. destruct o; [apply keeping_ret|apply keeping_throw]. Qed.
Lemma keeping_check o : keeping R (check o : Comp S E unit).
Proof. destruct o; [apply keeping_throw|apply keeping_ret]. Qed.
Lemma keeping_asks {A} (f : S -> A) : keeping R (asks f : Comp S E A).
Proof. intros s. cbn. reflexivity. Qed.
Lemma keeping_bind {A B} (m : Comp S E A) (k : A -> Comp S E B) :
  keeping R m -> (forall a, keeping R (k a)) -> keeping R (m ≫= k).
Proof.
  intros Hm Hk s. unfold mbind, Comp_bind. pose proof (Hm s) as H1.
  destruct (m s) as [[a|e] s1]; cbn in *; [|done]. etrans; [exact H1|apply Hk].
Qed.
Lemma keeping_collect {A B} (f : A -> Comp S E B) l : (forall x, keeping R (f x)) -> keeping R (collect f l).
Proof.
  intros Hf. induction l as [|x l IH]; [apply keeping_ret|].
  cbn [collect]. apply keeping_bind; [done|]. intros b. apply keeping_bind; [done|]. intros bs. apply keeping_ret.
Qed.
End Ensures.

Lemma keeping_with_error {S E E' A} (R : S -> S -> Prop) (f : E' -> E) (m : Comp S E' A) :
  keeping R m -> keeping R (with_error f m).
Proof. intros Hm s. pose proof (Hm s). unfold with_error. by destruct (m s) as [[a|e] s1]. Qed.
Lemma keeping_try {S E E' A} (R : S -> S -> Prop) (m : Comp S E' A) :
  keeping R m -> keeping R (try m : Comp S E _).
Proof. intros Hm s. pose proof (Hm s). unfold try. by destruct (m s). Qed.

Create HintDb keeping discriminated.
#[export] Hint Resolve keeping_ret keeping_throw keeping_of_sum keeping_of_option keeping_check keeping_asks
  keeping_bind keeping_collect keeping_with_error keeping_try : keeping.

(** Invert a computation known to have succeeded. *)
Ltac inv_ok := repeat match goal with
  | H : (_ ≫= _) _ = (inl _, _) |- _ => apply bind_inl in H as (? & ? & ? & ?)
  | H : mret _ _ = (inl _, _) |- _ => unfold mret, Comp_ret in H
  | H : throw _ _ = (inl _, _) |- _ => discriminate H
  | H : of_option ?o _ _ = (inl _, _) |- _ => destruct o eqn:?; cbn [of_option] in H
  | H : check ?o _ = (inl _, _) |- _ => destruct o eqn:?; cbn [check] in H
  | H : of_sum _ _ = (inl _, _) |- _ => unfold of_sum in H
  | H : (inl _, _) = (inl _, _) |- _ => injection H; clear H; intros; subst
  | H : (inr _, _) = (inl _, _) |- _ => discriminate H
  end.
