(* ===== verification/Presence.v ===== *)
(** * Channel membership ([crates/atomo_realtime/src/presence.rs])

    [Presence] maps a channel to its members (client id to principal id).  The
    file proves that it refines a flat table of memberships, that empty channels
    are pruned, and that a snapshot is the sorted, duplicate-free list of the
    principals of a channel whatever the hash order. *)

From S2P Require Import Prelude.

Definition ClientId : Type := Z.
Definition ChannelName : Type := string.

(** One participant in a channel. *)
Record Member : Type := mkMember { m_client_id : Z; m_principal_id : string }.

Record Presence : Type := mkPresence {
  channels : gmap string (gmap Z string)
}.

Definition presence_new : Presence := mkPresence ∅.

(** [entry(channel).or_default().insert(client_id, principal_id).is_none()] *)
Definition join (p : Presence) (channel : string) (client_id : Z)
    (principal_id : string) : bool * Presence :=
  let members := default ∅ (channels p !! channel) in
  (bool_decide (members !! client_id = None),
   mkPresence (<[channel := <[client_id := principal_id]> members]> (channels p))).

Definition leave (p : Presence) (channel : string) (client_id : Z) : bool * Presence :=
  match channels p !! channel with
  | None => (false, p)
  | Some members =>
      let removed := bool_decide (is_Some (members !! client_id)) in
      let members' := delete client_id members in
      (removed,
       if bool_decide (members' = ∅)
       then mkPresence (delete channel (channels p))
       else mkPresence (<[channel := members']> (channels p)))
  end.

Definition subscribers `{HashOrder} (p : Presence) (channel : string) : list Z :=
  match channels p !! channel with
  | Some m => hkeys m
  | None => []
  end.

Definition snapshot `{HashOrder} (p : Presence) (channel : string) : list string :=
  match channels p !! channel with
  | None => []
  | Some members =>
      let set : gset string := list_to_set (hvalues members) in
      sort_strings (helements set)
  end.

Definition channel_count (p : Presence) : nat := size (channels p).

(** ** Abstract view: the membership table *)

(** The principal under which a client is in a channel, if it is. *)
Definition view (p : Presence) (channel : string) (client_id : Z) : option string :=
  channels p !! channel ≫= fun m => m !! client_id.

(** No channel is kept without members. *)
Definition presence_wf (p : Presence) : Prop :=
  forall channel m, channels p !! channel = Some m -> m ≠ ∅.

Section Lemmas.
Implicit Types (p : Presence) (ch : string) (id : Z).

Lemma presence_wf_new : presence_wf presence_new.
Proof. intros ch m. simpl. by rewrite lookup_empty. Qed.

Lemma view_new ch id : view presence_new ch id = None.
Proof. unfold view. simpl. by rewrite lookup_empty. Qed.

Lemma view_default p ch id :
  view p ch id = default ∅ (channels p !! ch) !! id.
Proof. unfold view. by destruct (channels p !! ch) as [m|]. Qed.

Lemma join_fst p ch id who : (join p ch id who).1 = bool_decide (view p ch id = None).
Proof. unfold join. simpl. by rewrite view_default. Qed.

Lemma join_view p ch id who ch' id' :
  view (join p ch id who).2 ch' id' =
    if decide (ch' = ch ∧ id' = id) then Some who else view p ch' id'.
Proof.
  unfold view, join. simpl. rewrite lookup_insert.
  destruct (decide (ch = ch')) as [->|Hch]; simpl.
  - rewrite lookup_insert. destruct (decide (id = id')) as [->|Hid].
    + by rewrite decide_True.
    + rewrite decide_False by (intros [? ?]; congruence).
      by destruct (channels p !! ch').
  - by rewrite decide_False by (intros [? ?]; congruence).
Qed.

Lemma presence_join_wf p ch id who : presence_wf p -> presence_wf (join p ch id who).2.
Proof.
  intros Hwf ch' m. unfold join. simpl.
  rewrite lookup_insert_Some. intros [[? <-]|[? Hm]]; [|by eapply Hwf].
  apply insert_non_empty.
Qed.

Lemma leave_fst p ch id : (leave p ch id).1 = bool_decide (is_Some (view p ch id)).
Proof.
  unfold leave, view. destruct (channels p !! ch) as [m|]; simpl; done.
Qed.

Lemma leave_view p ch id ch' id' :
  view (leave p ch id).2 ch' id' =
    if decide (ch' = ch ∧ id' = id) then None else view p ch' id'.
Proof.
  unfold view, leave. destruct (channels p !! ch) as [m|] eqn:Hch; simpl.
  - destruct (bool_decide_reflect (delete id m = ∅)) as [Hemp|Hne]; simpl.
    + rewrite lookup_delete. destruct (decide (ch = ch')) as [->|Hne]; simpl.
      * destruct (decide (id' = id)) as [->|Hid]; [by rewrite decide_True|].
        rewrite decide_False by (intros [? ?]; congruence). rewrite Hch. simpl.
        by rewrite <- (lookup_delete_ne m id id'), Hemp, lookup_empty by done.
      * by rewrite decide_False by (intros [? ?]; congruence).
    + rewrite lookup_insert. destruct (decide (ch = ch')) as [->|Hne']; simpl.
      * rewrite lookup_delete. destruct (decide (id = id')) as [->|Hid].
        { by rewrite decide_True. }
        rewrite decide_False by (intros [? ?]; congruence). by rewrite Hch.
      * by rewrite decide_False by (intros [? ?]; congruence).
  - destruct (decide (ch' = ch ∧ id' = id)) as [[-> ->]|]; [by rewrite Hch|done].
Qed.

Lemma presence_leave_wf p ch id : presence_wf p -> presence_wf (leave p ch id).2.
Proof.
  intros Hwf ch' m. unfold leave. destruct (channels p !! ch) as [mm|]; simpl;
    [|by apply Hwf].
  destruct (bool_decide_reflect (delete id mm = ∅)); simpl.
  - rewrite lookup_delete_Some. intros [? Hm]. by eapply Hwf.
  - rewrite lookup_insert_Some. intros [[? <-]|[? Hm]]; [done|by eapply Hwf].
Qed.

Lemma elem_of_subscribers `{HashOrder} p ch id :
  id ∈ subscribers p ch <-> is_Some (view p ch id).
Proof.
  unfold subscribers, view. destruct (channels p !! ch) as [m|]; simpl.
  - apply elem_of_hkeys.
  - split; [set_solver|]. by intros [? ?].
Qed.

Lemma NoDup_subscribers `{HashOrder} p ch : NoDup (subscribers p ch).
Proof.
  unfold subscribers. destruct (channels p !! ch); [apply NoDup_hkeys|constructor].
Qed.

Lemma elem_of_snapshot `{HashOrder} p ch who :
  who ∈ snapshot p ch <-> exists id, view p ch id = Some who.
Proof.
  unfold snapshot, view. destruct (channels p !! ch) as [m|]; simpl.
  - rewrite elem_of_sort_strings, elem_of_helements, elem_of_list_to_set.
    apply elem_of_hvalues.
  - split; [set_solver|]. by intros [? ?].
Qed.
End Lemmas.

#[global] Arguments join : simpl never.
#[global] Arguments leave : simpl never.

#[export] Hint Resolve presence_wf_new presence_join_wf presence_leave_wf NoDup_subscribers : atomo.

(** ** Refinement: any history of joins and leaves *)

Inductive PresenceOp : Type :=
  | OpJoin (channel : string) (client_id : Z) (principal_id : string)
  | OpLeave (channel : string) (client_id : Z).

(** The implementation, with the answers it gives along the way. *)
Fixpoint run_ops (p : Presence) (ops : list PresenceOp) : list bool * Presence :=
  match ops with
  | [] => ([], p)
  | op :: rest =>
      let r := match op with
               | OpJoin ch id who => join p ch id who
               | OpLeave ch id => leave p ch id
               end in
      let r' := run_ops r.2 rest in
      (r.1 :: r'.1, r'.2)
  end.

(** The specification: one table keyed by (channel, client); an operation answers
    whether it changed who is present. *)
Definition spec_op (t : gmap (string * Z) string) (op : PresenceOp)
    : bool * gmap (string * Z) string :=
  match op with
  | OpJoin ch id who => (bool_decide (t !! (ch, id) = None), <[(ch, id) := who]> t)
  | OpLeave ch id => (bool_decide (is_Some (t !! (ch, id))), delete (ch, id) t)
  end.

Fixpoint spec_ops (t : gmap (string * Z) string) (ops : list PresenceOp)
    : list bool * gmap (string * Z) string :=
  match ops with
  | [] => ([], t)
  | op :: rest =>
      let r := spec_op t op in
      let r' := spec_ops r.2 rest in
      (r.1 :: r'.1, r'.2)
  end.

Definition represents (p : Presence) (t : gmap (string * Z) string) : Prop :=
  presence_wf p /\ forall ch id, view p ch id = t !! (ch, id).

Lemma represents_step p t op :
  represents p t ->
  let r := match op with
           | OpJoin ch id who => join p ch id who
           | OpLeave ch id => leave p ch id
           end in
  r.1 = (spec_op t op).1 /\ represents r.2 (spec_op t op).2.
Proof.
  intros [Hwf Hv]. destruct op as [ch id who|ch id]; cbv zeta; cbn [spec_op].
  - rewrite join_fst, Hv. cbn [fst snd]. split; [done|]. split; [by apply presence_join_wf|].
    intros ch' id'. rewrite join_view, lookup_insert, Hv.
    repeat case_decide; simplify_eq; intuition congruence.
  - rewrite leave_fst, Hv. cbn [fst snd]. split; [done|]. split; [by apply presence_leave_wf|].
    intros ch' id'. rewrite leave_view, lookup_delete, Hv.
    repeat case_decide; simplify_eq; intuition congruence.
Qed.

Lemma run_ops_represents ops p t :
  represents p t ->
  (run_ops p ops).1 = (spec_ops t ops).1 /\
  represents (run_ops p ops).2 (spec_ops t ops).2.
Proof.
  revert p t. induction ops as [|op rest IH]; intros p t Hr; [done|]; simpl.
  destruct (represents_step p t op Hr) as [Ha Hb].
  destruct (IH _ _ Hb) as [IHa IHb]. split; [by f_equal|done].
Qed.

Lemma represents_new : represents presence_new ∅.
Proof. split; [apply presence_wf_new|]. intros. by rewrite view_new, lookup_empty. Qed.

(** the presence tracker refines a flat membership table.  For every sequence
    of joins and leaves from an empty tracker, each call answers exactly whether
    the membership was new (a join) or existed (a leave), and the final memberships
    are those of the table.  No empty channel is left behind: the channel gauge
    counts exactly the channels that have a member. *)
Theorem presence_refines_table (ops : list PresenceOp) :
  let p : Presence := (run_ops presence_new ops).2 in
  (run_ops presence_new ops).1 = (spec_ops ∅ ops).1 /\
  represents p (spec_ops ∅ ops).2 /\
  exists chs : gset string, channel_count p = size chs /\
    forall ch, ch ∈ chs <-> exists id, is_Some (view p ch id).
Proof.
  intros p. destruct (run_ops_represents ops _ _ represents_new) as [Ha Hr].
  split; [done|]. split; [done|]. destruct Hr as [Hwf _].
  exists (dom (channels p)). unfold channel_count. rewrite size_dom. split; [done|].
  intros ch. rewrite elem_of_dom. unfold view. split.
  - intros [m Hm]. rewrite Hm. simpl.
    destruct (map_choose m) as (id & who & Hid); [by eapply Hwf|].
    exists id. by rewrite Hid.
  - intros [id Hs]. destruct (channels p !! ch); [done|]. by destruct Hs.
Qed.

(** a channel's snapshot is determined by its membership alone: it is strictly
    sorted (hence without duplicates, even when a principal holds several
    connections), lists exactly the principals present, and does not depend on the
    iteration order of the hash maps. *)
Theorem snapshot_canonical (ho1 ho2 : HashOrder) (p : Presence) (ch : string) :
  StronglySorted String.le (@snapshot ho1 p ch) /\
  NoDup (@snapshot ho1 p ch) /\
  (forall who, who ∈ @snapshot ho1 p ch <-> exists id, view p ch id = Some who) /\
  @snapshot ho1 p ch = @snapshot ho2 p ch.
Proof.
  assert (Hsort : forall ho, StronglySorted String.le (@snapshot ho p ch)).
  { intros ho. unfold snapshot. destruct (channels p !! ch); [|constructor].
    apply StronglySorted_merge_sort; apply _. }
  assert (Hnd : forall ho, NoDup (@snapshot ho p ch)).
  { intros ho. unfold snapshot. destruct (channels p !! ch); [|constructor].
    unfold sort_strings. rewrite merge_sort_Permutation. apply NoDup_helements. }
  split_and!; [done..|apply elem_of_snapshot|].
  apply (StronglySorted_unique String.le); [done..|].
  apply NoDup_Permutation; [done..|]. intros who. by rewrite !elem_of_snapshot.
Qed.
