(* ===== verification/Sessions.v ===== *)
(** * Coordinator sessions ([crates/atomo_realtime/src/sessions.rs])

    A session has one coordinator through which the others relay.  The file proves
    the well-formedness invariant of the bookkeeping (the coordinator is a member,
    [order] lists exactly the members in slot order, slots are unique and below
    [next_slot]), that no operation can panic from a well-formed state, and the
    role and roster contracts of [join] and [leave]. *)

From S2P Require Import Prelude.

Inductive CoordinatorLeavePolicy : Type := Reelect | Close.

Record SessionMember : Type := mkSessionMember {
  client_id : Z;
  principal_id : string;
  slot : Z  (* u32 *)
}.

Record Session : Type := mkSession {
  order : list Z;
  members : gmap Z SessionMember;
  coordinator : Z;
  next_slot : Z  (* u32 *)
}.

#[export] Instance SessionMember_eq_dec : EqDecision SessionMember.
Proof. solve_decision. Defined.

(** [v.sort_by_key(|m| m.slot)] *)
Definition slot_le (a b : SessionMember) : Prop := slot a <= slot b.
#[export] Instance slot_le_dec : RelDecision slot_le.
Proof. intros a b. unfold slot_le. apply _. Defined.

Definition session_roster `{HashOrder} (s : Session) : list SessionMember :=
  merge_sort slot_le (hvalues (members s)).

Record JoinOutcome : Type := mkJoinOutcome {
  jo_slot : Z;
  jo_is_coordinator : bool;
  jo_roster : list SessionMember
}.

Inductive CoordinatorChange : Type :=
  | NoChange
  | Reelected (m : SessionMember)
  | Closed.

#[export] Instance CoordinatorChange_eq_dec : EqDecision CoordinatorChange.
Proof. solve_decision. Defined.

Record LeaveOutcome : Type := mkLeaveOutcome {
  lo_member : SessionMember;
  lo_change : CoordinatorChange;
  lo_remaining : list SessionMember;
  lo_removed : bool
}.

Record Sessions : Type := mkSessions { smap : gmap string Session }.

Definition sessions_new : Sessions := mkSessions ∅.

Section Ops.
Context {ho : HashOrder}.

Definition join (ss : Sessions) (name : string) (cid : Z) (pid : string)
    : JoinOutcome * Sessions :=
  (* entry(name).or_insert_with(..) *)
  let session := default (mkSession [] ∅ cid 0) (smap ss !! name) in
  match members session !! cid with
  | Some m =>
      (mkJoinOutcome (slot m) (bool_decide (coordinator session = cid))
         (session_roster session),
       mkSessions (<[name := session]> (smap ss)))
  | None =>
      let sl := next_slot session in
      let session' :=
        mkSession (order session ++ [cid])
          (<[cid := mkSessionMember cid pid sl]> (members session))
          (coordinator session) (wrap_u32 (sl + 1)) in
      (mkJoinOutcome sl (bool_decide (coordinator session' = cid))
         (session_roster session'),
       mkSessions (<[name := session']> (smap ss)))
  end.

(** [leave] returns [None] of the OUTER option when the code would panic
    ([session.order[0]] on an empty order, [session.members[&new_id]] on a
    missing member), and the inner option is the code's own. *)
Definition leave (ss : Sessions) (name : string) (cid : Z)
    (policy : CoordinatorLeavePolicy) : option (option LeaveOutcome * Sessions) :=
  match smap ss !! name with
  | None => Some (None, ss)
  | Some session =>
      match members session !! cid with
      | None => Some (None, ss)
      | Some member =>
          let members' := delete cid (members session) in
          let order' := filter (fun c => c <> cid) (order session) in
          let session1 :=
            mkSession order' members' (coordinator session) (next_slot session) in
          let was_coordinator := bool_decide (coordinator session = cid) in
          if bool_decide (members' = ∅) then
            Some (Some (mkLeaveOutcome member NoChange [] true),
                  mkSessions (delete name (smap ss)))
          else if negb was_coordinator then
            Some (Some (mkLeaveOutcome member NoChange (session_roster session1) false),
                  mkSessions (<[name := session1]> (smap ss)))
          else match policy with
          | Reelect =>
              match order' with
              | [] => None
              | new_id :: _ =>
                  match members' !! new_id with
                  | None => None
                  | Some new_member =>
                      let session2 :=
                        mkSession order' members' new_id (next_slot session) in
                      Some (Some (mkLeaveOutcome member (Reelected new_member)
                                    (session_roster session2) false),
                            mkSessions (<[name := session2]> (smap ss)))
                  end
              end
          | Close =>
              Some (Some (mkLeaveOutcome member Closed (session_roster session1) true),
                    mkSessions (delete name (smap ss)))
          end
      end
  end.

Definition coordinator_of (ss : Sessions) (name : string) : option Z :=
  coordinator <$> smap ss !! name.

Definition is_coordinator (ss : Sessions) (name : string) (cid : Z) : bool :=
  match smap ss !! name with
  | Some s => bool_decide (coordinator s = cid)
  | None => false
  end.

Definition member (ss : Sessions) (name : string) (cid : Z) : option SessionMember :=
  smap ss !! name ≫= fun s => members s !! cid.

Definition roster (ss : Sessions) (name : string) : list SessionMember :=
  match smap ss !! name with
  | Some s => session_roster s
  | None => []
  end.

Definition count (ss : Sessions) : nat := size (smap ss).
End Ops.

#[global] Arguments join : simpl never.
#[global] Arguments leave : simpl never.

(** ** Invariants *)

Record session_wf (s : Session) : Prop := {
  swf_nonempty : members s <> ∅;
  swf_nodup : NoDup (order s);
  swf_order : forall id, id ∈ order s <-> is_Some (members s !! id);
  swf_coord : is_Some (members s !! coordinator s);
  swf_ids : forall id m, members s !! id = Some m -> client_id m = id
}.

Definition sessions_wf (ss : Sessions) : Prop :=
  forall name s, smap ss !! name = Some s -> session_wf s.

(** [a] joined before [b] and holds the smaller slot. *)
Definition slot_before (ms : gmap Z SessionMember) (a b : Z) : Prop :=
  forall ma mb, ms !! a = Some ma -> ms !! b = Some mb -> slot ma < slot mb.

(** Slots follow the join order and stay below [next_slot], which has not wrapped. *)
Record slots_wf (s : Session) : Prop := {
  slw_sorted : StronglySorted (slot_before (members s)) (order s);
  slw_below : forall id m, members s !! id = Some m -> 0 <= slot m < next_slot s;
  slw_bound : next_slot s <= u32_max;
  slw_nonneg : 0 <= next_slot s
}.

Section SessionLemmas.
Context {ho : HashOrder}.
Implicit Types (s : Session) (id : Z).

#[export] Instance slot_le_trans : Transitive slot_le.
Proof. intros a b c. unfold slot_le. lia. Qed.
#[export] Instance slot_le_total : Total slot_le.
Proof. intros a b. unfold slot_le. lia. Qed.

Lemma elem_of_session_roster s m :
  m ∈ session_roster s <-> exists id, members s !! id = Some m.
Proof. unfold session_roster. by rewrite merge_sort_Permutation, elem_of_hvalues. Qed.

Lemma session_roster_sorted s : StronglySorted slot_le (session_roster s).
Proof. apply StronglySorted_merge_sort; apply _. Qed.

Lemma session_roster_NoDup s : session_wf s -> NoDup (session_roster s).
Proof.
  intros Hwf. unfold session_roster, hvalues.
  rewrite merge_sort_Permutation, horder_perm.
  apply (NoDup_fmap_1 client_id).
  rewrite <- list_fmap_compose.
  rewrite (list_fmap_ext _ fst).
  - apply NoDup_fst_map_to_list.
  - intros i [id m] Hin. simpl.
    apply (swf_ids s Hwf). apply elem_of_map_to_list.
    by eapply list_elem_of_lookup_2.
Qed.

(** The order of a roster is forced when slots are unique. *)
Lemma slots_unique s id1 id2 m1 m2 :
  session_wf s -> slots_wf s ->
  members s !! id1 = Some m1 -> members s !! id2 = Some m2 ->
  slot m1 = slot m2 -> id1 = id2.
Proof.
  intros Hwf Hsl H1 H2 Heq.
  assert (Hi1 : id1 ∈ order s) by (apply (swf_order s Hwf); eauto).
  assert (Hi2 : id2 ∈ order s) by (apply (swf_order s Hwf); eauto).
  pose proof (slw_sorted s Hsl) as Hsort.
  destruct (decide (id1 = id2)) as [|Hne]; [done|exfalso].
  apply list_elem_of_split in Hi1 as (l1 & l2 & Ho). rewrite Ho in Hsort, Hi2.
  apply elem_of_app in Hi2 as [Hi2|Hi2].
  - assert (Hlt : slot_before (members s) id2 id1).
    { eapply StronglySorted_app_1_elem_of; [exact Hsort|done|left]. }
    specialize (Hlt m2 m1 H2 H1). lia.
  - apply elem_of_cons in Hi2 as [->|Hi2]; [done|].
    assert (Hlt : slot_before (members s) id1 id2).
    { apply StronglySorted_app_1_r in Hsort. inversion Hsort as [|? ? _ Hall]; subst.
      rewrite Forall_forall in Hall. by apply Hall. }
    specialize (Hlt m1 m2 H1 H2). lia.
Qed.

Lemma sessions_wf_new : sessions_wf sessions_new.
Proof. intros n s. simpl. by rewrite lookup_empty. Qed.

Lemma session_wf_join s cid pid nxt :
  (session_wf s \/ (s = mkSession [] ∅ cid 0)) -> members s !! cid = None ->
  session_wf (mkSession (order s ++ [cid])
                (<[cid := mkSessionMember cid pid (next_slot s)]> (members s))
                (coordinator s) nxt).
Proof.
  intros Hs Hnone. split; simpl.
  - apply insert_non_empty.
  - apply NoDup_app. split_and!.
    + destruct Hs as [Hs| ->]; [apply (swf_nodup s Hs)|constructor].
    + intros x Hx. assert (x <> cid); [|set_solver]. intros ->.
      destruct Hs as [Hs| ->]; [|set_solver].
      apply (swf_order s Hs) in Hx as [? ?]. congruence.
    + apply NoDup_singleton.
  - intros id. rewrite elem_of_app, list_elem_of_singleton, lookup_insert.
    case_decide as Hd; [subst; split; eauto|].
    destruct Hs as [Hs| ->]; simpl.
    + rewrite (swf_order s Hs). naive_solver.
    + rewrite lookup_empty. split; [set_solver|]. intros [? ?]; congruence.
  - rewrite lookup_insert. case_decide; [eauto|].
    destruct Hs as [Hs| ->]; [apply (swf_coord s Hs)|done].
  - intros id m. rewrite lookup_insert. case_decide; [naive_solver|].
    destruct Hs as [Hs| ->]; [apply (swf_ids s Hs)|]. simpl. by rewrite lookup_empty.
Qed.

(** Removing a member that is not the last one. *)
Lemma session_wf_remove s cid coord :
  session_wf s -> delete cid (members s) <> ∅ ->
  is_Some (delete cid (members s) !! coord) ->
  session_wf (mkSession (filter (fun c => c <> cid) (order s))
                (delete cid (members s)) coord (next_slot s)).
Proof.
  intros Hwf Hne Hc. split; simpl; [done|..|done|].
  - apply NoDup_filter, (swf_nodup s Hwf).
  - intros id. rewrite list_elem_of_filter, (swf_order s Hwf).
    rewrite lookup_delete_is_Some. naive_solver.
  - intros id m. rewrite lookup_delete_Some. intros [_ Hm]. by apply (swf_ids s Hwf).
Qed.
End SessionLemmas.

(** ** [join] *)

Section Join.
Context {ho : HashOrder}.
Implicit Types (ss : Sessions) (n : string) (cid : Z) (pid : string).

Lemma join_wf ss n cid pid : sessions_wf ss -> sessions_wf (join ss n cid pid).2.
Proof.
  intros Hwf n' s. unfold join.
  destruct (smap ss !! n) as [s0|] eqn:Hn; simpl.
  - destruct (members s0 !! cid) as [m|] eqn:Hm; simpl;
      rewrite lookup_insert_Some; intros [[? <-]|[? Hs]];
      try (by eapply Hwf); apply session_wf_join; eauto.
  - rewrite lookup_empty. simpl.
    rewrite lookup_insert_Some; intros [[? <-]|[? Hs]]; [|by eapply Hwf].
    exact (session_wf_join (mkSession [] ∅ cid 0) cid pid _
             (or_intror eq_refl) (lookup_empty _)).
Qed.

Lemma join_member ss n cid pid n' cid' :
  member (join ss n cid pid).2 n' cid' =
    if decide (n' = n /\ cid' = cid)
    then Some (default (mkSessionMember cid pid (jo_slot (join ss n cid pid).1))
                 (member ss n cid))
    else member ss n' cid'.
Proof.
  unfold member, join.
  destruct (smap ss !! n) as [s0|] eqn:Hn; simpl.
  - destruct (members s0 !! cid) as [m|] eqn:Hm; simpl; rewrite lookup_insert;
      (destruct (decide (n = n')) as [<-|Hne]; simpl;
       [|by rewrite decide_False by (intros [? ?]; congruence)]).
    + case_decide as Hd; [destruct Hd as [_ ->]; done|by rewrite Hn].
    + rewrite lookup_insert. case_decide as Hd; subst.
      * by rewrite decide_True.
      * rewrite decide_False by (intros [? ?]; congruence). by rewrite Hn.
  - rewrite lookup_empty. simpl. rewrite lookup_insert.
    destruct (decide (n = n')) as [<-|Hne]; simpl;
      [|by rewrite decide_False by (intros [? ?]; congruence)].
    rewrite lookup_insert. case_decide as Hd; subst.
    + by rewrite decide_True.
    + rewrite decide_False by (intros [? ?]; congruence).
      by rewrite Hn, lookup_empty.
Qed.

(** The outcome tells the joiner its slot, its role and the roster after the join. *)
Lemma join_outcome ss n cid pid :
  let r := join ss n cid pid in
  (exists m, member r.2 n cid = Some m /\ jo_slot r.1 = slot m) /\
  jo_is_coordinator r.1 = is_coordinator r.2 n cid /\
  jo_roster r.1 = roster r.2 n.
Proof.
  cbv zeta. split; [|split].
  - rewrite join_member, decide_True by done. eexists. split; [done|].
    unfold member, join. destruct (smap ss !! n) as [s0|]; simpl; [|done].
    by destruct (members s0 !! cid).
  - unfold join, is_coordinator.
    destruct (members _ !! cid); simpl; by rewrite lookup_insert_eq.
  - unfold join, roster.
    destruct (members _ !! cid); simpl; by rewrite lookup_insert_eq.
Qed.

Lemma join_coordinator ss n cid pid n' :
  coordinator_of (join ss n cid pid).2 n' =
    if decide (n' = n) then Some (default cid (coordinator_of ss n))
    else coordinator_of ss n'.
Proof.
  unfold coordinator_of, join.
  destruct (smap ss !! n) as [s0|] eqn:Hn; simpl; destruct (_ !! cid); simpl;
    rewrite lookup_insert; case_decide; subst; case_decide; try congruence; done.
Qed.
End Join.

(** ** [leave] *)

Section Leave.
Context {ho : HashOrder}.
Implicit Types (ss : Sessions) (n : string) (cid : Z) (pol : CoordinatorLeavePolicy).

(** From a well-formed state the re-election neither indexes an empty [order] nor
    misses a member. *)
Lemma reelect_defined s cid :
  session_wf s -> delete cid (members s) <> ∅ ->
  exists new_id rest new_member,
    filter (fun c => c <> cid) (order s) = new_id :: rest /\
    delete cid (members s) !! new_id = Some new_member.
Proof.
  intros Hwf Hne.
  assert (Hall : forall x, x ∈ filter (fun c => c <> cid) (order s) ->
                   is_Some (delete cid (members s) !! x)).
  { intros x [Hx Hin]%list_elem_of_filter.
    rewrite lookup_delete_ne by done. by apply (swf_order s Hwf). }
  destruct (filter (fun c => c <> cid) (order s)) as [|x rest] eqn:Hf.
  - exfalso. apply Hne, map_empty. intros id.
    destruct (delete cid (members s) !! id) as [m|] eqn:Hm; [exfalso|done].
    apply lookup_delete_Some in Hm as [Hd Hm].
    assert (Hin : id ∈ filter (fun c => c <> cid) (order s)).
    { apply list_elem_of_filter. split; [done|]. apply (swf_order s Hwf). eauto. }
    rewrite Hf in Hin. set_solver.
  - destruct (Hall x) as [m Hm]; [left|]. by exists x, rest, m.
Qed.

Lemma leave_total ss n cid pol :
  sessions_wf ss -> exists r, leave ss n cid pol = Some r.
Proof.
  intros Hwf. unfold leave.
  destruct (smap ss !! n) as [s|] eqn:Hn; [|eauto].
  destruct (members s !! cid) as [m|] eqn:Hm; [|eauto].
  destruct (bool_decide_reflect (delete cid (members s) = ∅)) as [|Hne]; [eauto|].
  destruct (negb _); [eauto|]. destruct pol; [|eauto].
  destruct (reelect_defined s cid (Hwf n s Hn) Hne) as (x & rest & nm & -> & ->).
  eauto.
Qed.

Lemma leave_none_state ss n cid pol ss' :
  leave ss n cid pol = Some (None, ss') -> ss' = ss /\ member ss n cid = None.
Proof.
  unfold leave, member. destruct (smap ss !! n) as [s|]; simpl; [|naive_solver].
  destruct (members s !! cid); [|naive_solver].
  destruct (bool_decide _); [done|]. destruct (negb _); [done|].
  destruct pol; [|done]. destruct (filter _ _); [done|]. by destruct (_ !! z).
Qed.

Lemma leave_wf ss n cid pol o ss' :
  sessions_wf ss -> leave ss n cid pol = Some (o, ss') -> sessions_wf ss'.
Proof.
  intros Hwf. unfold leave.
  destruct (smap ss !! n) as [s|] eqn:Hn; [|naive_solver].
  destruct (members s !! cid) as [m|] eqn:Hm; [|naive_solver].
  pose proof (Hwf n s Hn) as Hs.
  destruct (bool_decide_reflect (delete cid (members s) = ∅)) as [|Hne].
  { intros [= <- <-] n' s'. simpl. rewrite lookup_delete_Some. intros [? ?].
    by eapply Hwf. }
  assert (Hins : forall c,
    is_Some (delete cid (members s) !! c) ->
    sessions_wf (mkSessions (<[n := mkSession (filter (fun c => c <> cid) (order s))
      (delete cid (members s)) c (next_slot s)]> (smap ss)))).
  { intros c Hc n' s'. simpl. rewrite lookup_insert_Some.
    intros [[? <-]|[? ?]]; [by apply session_wf_remove|by eapply Hwf]. }
  destruct (bool_decide_reflect (coordinator s = cid)) as [Hc|Hc]; simpl.
  - destruct pol.
    + destruct (reelect_defined s cid Hs Hne) as (x & rest & nm & Hf & Hx).
      rewrite Hf, Hx. intros [= <- <-]. rewrite <- Hf. apply Hins. eauto.
    + intros [= <- <-] n' s'. simpl. rewrite lookup_delete_Some. intros [? ?].
      by eapply Hwf.
  - intros [= <- <-]. apply Hins.
    rewrite lookup_delete_ne by done. apply (swf_coord s Hs).
Qed.

(** Membership after a successful leave: the leaver is out; under [Close] by the
    coordinator the whole session is; nobody else is affected. *)
Lemma leave_member ss n cid pol o ss' n' cid' :
  leave ss n cid pol = Some (Some o, ss') ->
  member ss' n' cid' =
    if decide (n' = n /\ (cid' = cid \/ lo_change o = Closed)) then None
    else member ss n' cid'.
Proof.
  unfold leave, member.
  destruct (smap ss !! n) as [s|] eqn:Hn; [|done].
  destruct (members s !! cid) as [m|] eqn:Hm; [|done].
  assert (Hins : forall s1 : Session, members s1 = delete cid (members s) ->
    forall ch, ch <> Closed ->
    (<[n := s1]> (smap ss) !! n' ≫= (fun s => members s !! cid')) =
    if decide (n' = n /\ (cid' = cid \/ ch = Closed)) then None
    else smap ss !! n' ≫= (fun s => members s !! cid')).
  { intros s1 Hs1 ch Hch. rewrite lookup_insert.
    destruct (decide (n = n')) as [<-|Hne]; simpl.
    - rewrite Hs1, lookup_delete, Hn. simpl.
      repeat case_decide; simplify_eq; try done; exfalso; intuition congruence.
    - by rewrite decide_False by (intros [? ?]; congruence). }
  destruct (bool_decide_reflect (delete cid (members s) = ∅)) as [Hemp|Hne].
  { intros [= <- <-]. simpl. rewrite lookup_delete.
    destruct (decide (n = n')) as [<-|Hne]; simpl.
    - rewrite Hn. simpl. destruct (decide _) as [Hd|Hd]; [reflexivity|].
      rewrite <- (lookup_delete_ne _ cid) by intuition. by rewrite Hemp.
    - by rewrite decide_False by (intros [? ?]; congruence). }
  destruct (negb _); [by intros [= <- <-]; apply Hins|].
  destruct pol.
  - destruct (filter _ _) as [|x rest]; [done|].
    destruct (_ !! x) as [nm|]; [|done]. intros [= <- <-]. by apply Hins.
  - intros [= <- <-]. simpl. rewrite lookup_delete.
    destruct (decide (n = n')) as [<-|Hne']; simpl;
      [by rewrite decide_True by auto|by rewrite decide_False by (intros [? ?]; congruence)].
Qed.

Lemma member_client_id ss n id m :
  sessions_wf ss -> member ss n id = Some m -> client_id m = id.
Proof.
  unfold member. destruct (smap ss !! n) as [s|] eqn:Hn; [|done]. simpl.
  intros Hwf Hm. by eapply swf_ids; [by eapply Hwf|].
Qed.

(** A closing leave reports exactly the members it evicts besides the leaver. *)
Lemma leave_closed_remaining ss n cid pol o ss' :
  sessions_wf ss -> leave ss n cid pol = Some (Some o, ss') -> lo_change o = Closed ->
  forall m, m ∈ lo_remaining o <-> exists id, id <> cid /\ member ss n id = Some m.
Proof.
  intros Hwf. unfold leave, member.
  destruct (smap ss !! n) as [s|]; [|done]. simpl.
  destruct (members s !! cid) as [mm|]; [|done].
  destruct (bool_decide _); [by intros [= <- <-]|].
  destruct (negb _); [by intros [= <- <-]|]. destruct pol.
  - destruct (filter _ _); [done|]. destruct (_ !! z); [|done]. by intros [= <- <-].
  - intros [= <- <-] _ m. simpl. rewrite elem_of_session_roster. simpl.
    setoid_rewrite lookup_delete_Some. naive_solver.
Qed.
End Leave.

(** ** Slots *)

Lemma StronglySorted_filter {A} (R : A -> A -> Prop) (P : A -> Prop)
    `{forall x, Decision (P x)} (l : list A) :
  StronglySorted R l -> StronglySorted R (filter P l).
Proof.
  induction 1 as [|x l Hs IH Hall]; [constructor|].
  rewrite filter_cons. case_decide; [|done]. constructor; [done|].
  rewrite Forall_forall in *. intros y [_ Hy]%list_elem_of_filter. auto.
Qed.

Lemma StronglySorted_snoc {A} (R : A -> A -> Prop) (l : list A) (x : A) :
  StronglySorted R l -> Forall (fun y => R y x) l -> StronglySorted R (l ++ [x]).
Proof.
  induction 1 as [|y l Hs IH Hall]; simpl; intros Hx; [repeat constructor|].
  apply Forall_cons in Hx as [Hyx Hx]. constructor; [by apply IH|].
  apply Forall_app. split; [done|]. by constructor.
Qed.

Lemma StronglySorted_impl_in {A} (R1 R2 : A -> A -> Prop) (l : list A) :
  (forall a b, a ∈ l -> b ∈ l -> R1 a b -> R2 a b) ->
  StronglySorted R1 l -> StronglySorted R2 l.
Proof.
  intros Himp. induction 1 as [|x l Hs IH Hall]; [constructor|]. constructor.
  - apply IH. intros a b Ha Hb. apply Himp; set_solver.
  - rewrite Forall_forall in *. intros y Hy. apply Himp; [left|by right|auto].
Qed.

(** A session's members, roles and slots after [k] joins in total. *)
Definition slots_inv (k : Z) (ss : Sessions) : Prop :=
  forall n s, smap ss !! n = Some s ->
    session_wf s /\ slots_wf s /\ next_slot s <= k.

Section Slots.
Context {ho : HashOrder}.

Lemma slots_wf_join s cid pid :
  (session_wf s \/ s = mkSession [] ∅ cid 0) -> slots_wf s ->
  members s !! cid = None -> next_slot s < u32_max ->
  slots_wf (mkSession (order s ++ [cid])
    (<[cid := mkSessionMember cid pid (next_slot s)]> (members s))
    (coordinator s) (wrap_u32 (next_slot s + 1))).
Proof.
  intros Hs [Hsort Hbelow Hb Hnn] Hnone Hlt.
  assert (Hno : forall x, x ∈ order s -> x <> cid).
  { intros x Hx ->. destruct Hs as [Hs| ->]; [|set_solver].
    apply (swf_order s Hs) in Hx as [? ?]. congruence. }
  rewrite wrap_u32_small by lia. split; simpl; [..|lia|lia].
  - apply StronglySorted_snoc.
    + eapply StronglySorted_impl_in; [|exact Hsort].
      intros a b Ha Hb' Hab ma mb. rewrite !lookup_insert_ne by (symmetry; auto).
      apply Hab.
    + apply Forall_forall. intros x Hx ma mb.
      rewrite lookup_insert_ne by (symmetry; auto). rewrite lookup_insert_eq.
      intros Hma [= <-]. simpl. by apply Hbelow in Hma as [_ ?].
  - intros id m. rewrite lookup_insert. case_decide; [intros [= <-]; simpl; lia|].
    intros Hm. apply Hbelow in Hm. lia.
Qed.

Lemma slots_wf_remove s cid coord :
  slots_wf s ->
  slots_wf (mkSession (filter (fun c => c <> cid) (order s))
              (delete cid (members s)) coord (next_slot s)).
Proof.
  intros [Hsort Hbelow Hb Hnn]. split; simpl; [..|done|done].
  - eapply StronglySorted_impl_in; [|by apply StronglySorted_filter].
    intros a b _ _ Hab ma mb [_ Ha]%lookup_delete_Some [_ Hbb]%lookup_delete_Some.
    by apply Hab.
  - intros id m [_ Hm]%lookup_delete_Some. by apply Hbelow in Hm.
Qed.

Lemma slots_inv_join k ss n cid pid :
  slots_inv k ss -> 0 <= k < u32_max -> slots_inv (k + 1) (join ss n cid pid).2.
Proof.
  intros Hinv Hk n' s Hs.
  assert (Hwf : sessions_wf ss) by (intros ? ? ?; by eapply Hinv).
  split; [by eapply (join_wf ss n cid pid)|]. revert Hs. unfold join.
  destruct (smap ss !! n) as [s0|] eqn:Hn; simpl.
  - destruct (Hinv n s0 Hn) as (Hw0 & Hs0 & Hk0).
    destruct (members s0 !! cid) as [m|] eqn:Hm; simpl;
      rewrite lookup_insert_Some; intros [[? <-]|[? Hs]];
      try (destruct (Hinv n' s Hs) as (_ & ? & ?)); try (split; [done|lia]).
    split; [apply slots_wf_join; auto; lia|]. simpl.
    pose proof (slw_nonneg s0 Hs0). rewrite wrap_u32_small; unfold u32_max in *; lia.
  - rewrite lookup_empty. simpl.
    rewrite lookup_insert_Some; intros [[? <-]|[? Hs]].
    + split; [|simpl; rewrite wrap_u32_small; unfold u32_max in *; lia].
      apply (slots_wf_join (mkSession [] ∅ cid 0)); [by right|split|done|].
      * constructor.
      * intros id m. simpl. by rewrite lookup_empty.
      * done.
      * done.
      * done.
    + destruct (Hinv n' s Hs) as (_ & ? & ?). split; [done|lia].
Qed.

Lemma slots_inv_leave k ss n cid pol o ss' :
  slots_inv k ss -> leave ss n cid pol = Some (o, ss') -> slots_inv k ss'.
Proof.
  intros Hinv Hl n' s Hs.
  assert (Hwf : sessions_wf ss) by (intros ? ? ?; by eapply Hinv).
  split; [by eapply leave_wf|]. revert Hl Hs. unfold leave.
  destruct (smap ss !! n) as [s0|] eqn:Hn;
    [|intros [= <- <-] Hs; by destruct (Hinv n' s Hs)].
  destruct (Hinv n s0 Hn) as (Hw0 & Hs0 & Hk0).
  assert (Hins : forall c,
    <[n := mkSession (filter (fun c => c <> cid) (order s0))
      (delete cid (members s0)) c (next_slot s0)]> (smap ss) !! n' = Some s ->
    slots_wf s /\ next_slot s <= k).
  { intros c. rewrite lookup_insert_Some. intros [[_ <-]|[_ Hs]].
    - split; [by apply slots_wf_remove|done].
    - by destruct (Hinv n' s Hs). }
  assert (Hdel : delete n (smap ss) !! n' = Some s ->
    slots_wf s /\ next_slot s <= k).
  { intros [_ Hs]%lookup_delete_Some. by destruct (Hinv n' s Hs). }
  destruct (members s0 !! cid); [|intros [= <- <-] Hs; by destruct (Hinv n' s Hs)].
  destruct (bool_decide _); [by intros [= <- <-]|].
  destruct (negb _); [intros [= <- <-]; apply Hins|].
  destruct pol; [|by intros [= <- <-]].
  destruct (filter _ _) as [|x rest] eqn:Hf; [done|].
  destruct (_ !! x); [|done]. intros [= <- <-]. apply Hins.
Qed.
End Slots.

(** ** Histories *)

Inductive SessionOp : Type :=
  | OpJoin (name : string) (cid : Z) (pid : string)
  | OpLeave (name : string) (cid : Z) (policy : CoordinatorLeavePolicy).

(** [None]: some operation panicked. *)
Fixpoint run_ops `{HashOrder} (ss : Sessions) (ops : list SessionOp) : option Sessions :=
  match ops with
  | [] => Some ss
  | OpJoin n cid pid :: rest => run_ops (join ss n cid pid).2 rest
  | OpLeave n cid pol :: rest =>
      match leave ss n cid pol with
      | Some (_, ss') => run_ops ss' rest
      | None => None
      end
  end.

Section Theorems.
Context {ho : HashOrder}.

(** any history of fewer than 2^32 session operations runs without a panic
    (no index into an empty join order, no missing member) and ends in a state
    where, in every session, the coordinator is a member, the join order lists
    exactly the members without repetition, and the slots grow along the join
    order below [next_slot], so they are pairwise distinct. *)
Theorem sessions_history_safe (ops : list SessionOp) :
  Z.of_nat (length ops) <= u32_max ->
  exists ss, run_ops sessions_new ops = Some ss /\
    slots_inv (Z.of_nat (length ops)) ss.
Proof.
  intros Hlen.
  assert (Hgen : forall ops k ss, slots_inv k ss -> 0 <= k ->
    k + Z.of_nat (length ops) <= u32_max ->
    exists ss', run_ops ss ops = Some ss' /\
      slots_inv (k + Z.of_nat (length ops)) ss').
  { clear ops Hlen. induction ops as [|op rest IH]; intros k ss Hinv Hk Hb.
    { exists ss. rewrite Z.add_0_r. done. }
    rewrite length_cons, Nat2Z.inj_succ in Hb.
    rewrite length_cons, Nat2Z.inj_succ.
    replace (k + Z.succ (Z.of_nat (length rest)))
      with (k + 1 + Z.of_nat (length rest)) by lia.
    destruct op as [n cid pid|n cid pol]; simpl.
    - apply IH; [apply slots_inv_join; [done|lia]|lia|lia].
    - assert (Hwf : sessions_wf ss) by (intros ? ? ?; by eapply Hinv).
      destruct (leave_total ss n cid pol Hwf) as [[o ss'] Hl]. rewrite Hl.
      apply IH; [|lia|lia]. intros n' s Hs.
      destruct (slots_inv_leave k ss n cid pol o ss' Hinv Hl n' s Hs) as (? & ? & ?).
      split_and!; [done..|lia]. }
  destruct (Hgen ops 0 sessions_new) as (ss & Hr & Hi); [|lia|lia|by exists ss].
  intros n s. simpl. by rewrite lookup_empty.
Qed.

(** the contract of [leave] on every branch.  From a well-formed state it
    never panics; a non-member leaves no trace; otherwise the leaver is reported
    and out, and: a non-coordinator's (or the last member's) departure changes no
    role; under [Reelect] the reported successor is a remaining member and is the
    coordinator from then on; under [Close] the whole session is gone and the
    others are the ones to notify. *)
Theorem leave_contract (ss : Sessions) (n : string) (cid : Z)
    (pol : CoordinatorLeavePolicy) :
  sessions_wf ss ->
  exists o ss', leave ss n cid pol = Some (o, ss') /\ sessions_wf ss' /\
  match o with
  | None => ss' = ss /\ member ss n cid = None
  | Some o =>
      member ss n cid = Some (lo_member o) /\ member ss' n cid = None /\
      lo_removed o = bool_decide (smap ss' !! n = None) /\
      match lo_change o with
      | NoChange =>
          lo_remaining o = roster ss' n /\
          (smap ss' !! n = None \/
           coordinator_of ss' n = coordinator_of ss n /\
           coordinator_of ss n <> Some cid)
      | Reelected m =>
          pol = Reelect /\ coordinator_of ss n = Some cid /\
          coordinator_of ss' n = Some (client_id m) /\
          member ss' n (client_id m) = Some m /\
          lo_remaining o = roster ss' n
      | Closed =>
          pol = Close /\ coordinator_of ss n = Some cid /\
          smap ss' !! n = None /\
          forall m, m ∈ lo_remaining o <->
            exists id, id <> cid /\ member ss n id = Some m
      end
  end.
Proof.
  intros Hwf. destruct (leave_total ss n cid pol Hwf) as [[o ss'] Hl].
  exists o, ss'. split; [done|]. split; [by eapply leave_wf|].
  destruct o as [o|]; [|by eapply leave_none_state].
  assert (Hout : member ss' n cid = None).
  { rewrite (leave_member _ _ _ _ _ _ n cid Hl). by rewrite decide_True by auto. }
  revert Hl Hout. unfold leave, member, coordinator_of, roster.
  destruct (smap ss !! n) as [s|] eqn:Hn; [|done].
  destruct (members s !! cid) as [m|] eqn:Hm; [|done].
  pose proof (Hwf n s Hn) as Hs. simpl.
  destruct (bool_decide_reflect (delete cid (members s) = ∅)) as [|Hne].
  { intros [= <- <-] ?. simpl. rewrite lookup_delete_eq. split_and!; try done. by left. }
  destruct (bool_decide_reflect (coordinator s = cid)) as [Hc|Hc]; simpl.
  2: { intros [= <- <-] ?. simpl. rewrite lookup_insert_eq. simpl.
       split_and!; try done; [apply lookup_delete_eq|].
       right. split; [done|congruence]. }
  destruct pol.
  - destruct (reelect_defined s cid Hs Hne) as (x & rest & nm & Hf & Hx).
    rewrite Hf, Hx. intros [= <- <-] ?. simpl. rewrite lookup_insert_eq. simpl.
    assert (client_id nm = x) as ->.
    { apply lookup_delete_Some in Hx as [_ Hx]. by eapply swf_ids. }
    split_and!; try done; [apply lookup_delete_eq|by f_equal].
  - intros [= <- <-] ?. simpl. rewrite lookup_delete_eq.
    split_and!; try done; [by f_equal|]. intros m'.
    rewrite elem_of_session_roster. simpl. setoid_rewrite lookup_delete_Some.
    naive_solver.
Qed.

(** re-election promotes the longest-standing member: when slots follow the
    join order, the successor's slot is the least among the remaining members. *)
Theorem reelection_promotes_oldest (ss ss' : Sessions) (n : string) (cid : Z)
    (pol : CoordinatorLeavePolicy) (o : LeaveOutcome) (m : SessionMember) (k : Z) :
  slots_inv k ss ->
  leave ss n cid pol = Some (Some o, ss') ->
  lo_change o = Reelected m ->
  forall id m', member ss' n id = Some m' -> slot m <= slot m'.
Proof.
  intros Hinv Hl Hch id m'.
  rewrite (leave_member _ _ _ _ _ _ n id Hl). revert Hl. unfold leave, member.
  destruct (smap ss !! n) as [s|] eqn:Hn; [|done].
  destruct (Hinv n s Hn) as (Hs & Hsl & _).
  destruct (members s !! cid) as [mm|] eqn:Hm; [|done].
  destruct (bool_decide _); [by intros [= <- <-]|].
  destruct (negb _); [by intros [= <- <-]|]. destruct pol; [|by intros [= <- <-]].
  destruct (filter _ _) as [|x rest] eqn:Hf; [done|].
  destruct (_ !! x) as [nm|] eqn:Hx; [|done]. intros [= <- <-].
  simpl in Hch. injection Hch as ->. simpl.
  destruct (decide _) as [|Hnd]; [done|]. intros Hm'.
  assert (Hid : id <> cid) by (intros ->; apply Hnd; auto).
  assert (Hin : id ∈ x :: rest).
  { rewrite <- Hf. apply list_elem_of_filter. split; [done|].
    apply (swf_order s Hs). eauto. }
  apply elem_of_cons in Hin as [->|Hin].
  { rewrite lookup_delete_ne in Hx by done. simplify_eq. lia. }
  pose proof (StronglySorted_filter _ (fun c => c <> cid) _ (slw_sorted s Hsl)) as Hsort.
  rewrite Hf in Hsort. inversion Hsort as [|? ? _ Hall]; subst.
  rewrite Forall_forall in Hall. apply lookup_delete_Some in Hx as [_ Hx].
  pose proof (Hall id Hin m m' Hx Hm'). lia.
Qed.

(** a seat is stable: while a client stays in a session, no operation on any
    session changes its member record (slot included); re-joining returns the
    slot already held. *)
Theorem slot_stable (ss ss' : Sessions) (op : SessionOp) (n : string) (id : Z)
    (m m' : SessionMember) :
  run_ops ss [op] = Some ss' ->
  member ss n id = Some m -> member ss' n id = Some m' ->
  m' = m /\
  match op with
  | OpJoin n' id' pid =>
      n' = n -> id' = id -> jo_slot (join ss n' id' pid).1 = slot m
  | OpLeave _ _ _ => True
  end.
Proof.
  destruct op as [n' id' pid|n' id' pol]; simpl.
  - intros [= <-] Hm. rewrite join_member. intros Hm'. split.
    + case_decide as Hd; [|congruence]. destruct Hd as [-> ->].
      rewrite Hm in Hm'. simpl in Hm'. congruence.
    + intros -> ->. destruct (join_outcome ss n id pid) as ((m2 & Hm2 & ->) & _).
      rewrite join_member, decide_True in Hm2 by done.
      rewrite Hm in Hm2. simpl in Hm2. congruence.
  - destruct (leave ss n' id' pol) as [[[o|] ss2]|] eqn:Hl; [|..|done];
      intros [= <-] Hm Hm'; (split; [|done]).
    + rewrite (leave_member _ _ _ _ _ _ n id Hl) in Hm'.
      case_decide; [done|congruence].
    + apply leave_none_state in Hl as [-> _]. congruence.
Qed.
End Theorems.

(** ** Closed examples *)

Module SessionExamples.
#[local] Existing Instance enum_order.

Definition ops0 : list SessionOp :=
  [OpJoin "s" 7 "alice"; OpJoin "s" 3 "bob"; OpJoin "s" 5 "carol"].

Definition sess0 : Sessions := default sessions_new (run_ops sessions_new ops0).

Lemma sess0_inv : slots_inv 3 sess0.
Proof.
  apply (slots_inv_join 2 (default sessions_new (run_ops sessions_new (take 2 ops0))));
    [|unfold u32_max; lia].
  apply (slots_inv_join 1 (default sessions_new (run_ops sessions_new (take 1 ops0))));
    [|unfold u32_max; lia].
  apply (slots_inv_join 0 sessions_new); [|unfold u32_max; lia].
  intros n s. simpl. by rewrite lookup_empty.
Qed.

Lemma sessions_history_safe_witness :
  exists ss, run_ops sessions_new ops0 = Some ss /\ slots_inv 3 ss.
Proof.
  exact (sessions_history_safe ops0 ltac:(unfold u32_max; simpl; lia)).
Defined.

Lemma leave_contract_witness :
  exists o ss', leave sess0 "s" 7 Reelect = Some (o, ss') /\
    coordinator_of ss' "s" = Some 3.
Proof.
  destruct (leave_contract sess0 "s" 7 Reelect) as (o & ss' & Heq & _).
  - intros n s Hs. exact (proj1 (sess0_inv n s Hs)).
  - exists o, ss'. split; [exact Heq|]. vm_compute in Heq. injection Heq as _ <-.
    reflexivity.
Defined.

Lemma reelection_promotes_oldest_witness :
  exists o ss' m, leave sess0 "s" 7 Reelect = Some (Some o, ss') /\
    lo_change o = Reelected m /\
    forall id m', member ss' "s" id = Some m' -> slot m <= slot m'.
Proof.
  destruct (leave sess0 "s" 7 Reelect) as [[[o|] ss']|] eqn:Hl;
    [|vm_compute in Hl; discriminate Hl..].
  destruct (lo_change o) as [|m|] eqn:Hm;
    [vm_compute in Hl; injection Hl as <- _; discriminate Hm| |
     vm_compute in Hl; injection Hl as <- _; discriminate Hm].
  exists o, ss', m. split; [reflexivity|]. split; [exact Hm|].
  exact (reelection_promotes_oldest sess0 ss' "s" 7 Reelect o m 3 sess0_inv Hl Hm).
Defined.

Lemma slot_stable_witness :
  exists ss' m m', run_ops sess0 [OpLeave "s" 7 Reelect] = Some ss' /\
    member sess0 "s" 5 = Some m /\ member ss' "s" 5 = Some m' /\ m' = m.
Proof.
  destruct (run_ops sess0 [OpLeave "s" 7 Reelect]) as [ss'|] eqn:Hr.
  2: { vm_compute in Hr. discriminate Hr. }
  destruct (member sess0 "s" 5) as [m|] eqn:Hm.
  2: { vm_compute in Hm. discriminate Hm. }
  destruct (member ss' "s" 5) as [m'|] eqn:Hm'.
  2: { vm_compute in Hr. injection Hr as <-. vm_compute in Hm'. discriminate Hm'. }
  exists ss', m, m'.
  destruct (slot_stable sess0 ss' (OpLeave "s" 7 Reelect) "s" 5 m m' Hr Hm Hm') as [He _].
  exact (conj eq_refl (conj eq_refl (conj Hm' He))).
Defined.
End SessionExamples.
