(* ===== verification/Protocol.v ===== *)
(** * Wire vocabulary and delivery ([crates/atomo_realtime/src/protocol.rs], [client.rs])

    The frames exchanged with a client, the hand-written decoding of a client frame
    from its flat [Wire] shape, the commands a [ClientHandle] sends to the hub for a decoded
    frame ([hub.rs], [ClientHandle::dispatch]), and the delivery of a frame into a client's
    bounded channel. *)

From S2P Require Import Prelude.

(** [Arc<RawValue>]/[Box<RawValue>]: the raw JSON text, never inspected. *)
Definition Payload : Type := string.

Record Principal : Type := mkPrincipal {
  pr_id : string;
  pr_role : option string;
  pr_anonymous : bool
}.

(** [Principal::new] *)
Definition principal_new (id : string) (role : option string) : Principal :=
  mkPrincipal id role false.
(** [Principal::anonymous] *)
Definition principal_anonymous (id : string) : Principal :=
  mkPrincipal id None true.

Inductive ClientMsg : Type :=
  | CSubscribe (channel : string)
  | CUnsubscribe (channel : string)
  | CPublish (channel : string) (payload : Payload)
  | CPresence (channel : string)
  | CSessionJoin (session : string)
  | CSessionLeave (session : string)
  | CToCoordinator (session : string) (payload : Payload)
  | CToMembers (session : string) (payload : Payload).

(** The flat shape read by serde; absent [channel], [session] and [payload] take
    their [#[serde(default)]] values. *)
Record Wire : Type := mkWire {
  w_op : string;
  w_channel : string;
  w_session : string;
  w_payload : option Payload
}.

(** [need(p, op)] *)
Definition need (p : option Payload) (op : string) : Payload + string :=
  match p with
  | Some v => inl v
  | None => inr (op +:+ " frame requires a `payload`")%string
  end.

Definition with_payload (p : Payload + string) (k : Payload -> ClientMsg)
    : ClientMsg + string :=
  match p with inl v => inl (k v) | inr e => inr e end.

(** [ClientMsg::deserialize], after [Wire::deserialize] *)
Definition from_wire (wire : Wire) : ClientMsg + string :=
  if decide (w_op wire = "subscribe"%string) then inl (CSubscribe (w_channel wire))
  else if decide (w_op wire = "unsubscribe"%string) then inl (CUnsubscribe (w_channel wire))
  else if decide (w_op wire = "presence"%string) then inl (CPresence (w_channel wire))
  else if decide (w_op wire = "publish"%string) then
    with_payload (need (w_payload wire) "publish") (CPublish (w_channel wire))
  else if decide (w_op wire = "session_join"%string) then
    inl (CSessionJoin (w_session wire))
  else if decide (w_op wire = "session_leave"%string) then
    inl (CSessionLeave (w_session wire))
  else if decide (w_op wire = "to_coordinator"%string) then
    with_payload (need (w_payload wire) "to_coordinator") (CToCoordinator (w_session wire))
  else if decide (w_op wire = "to_members"%string) then
    with_payload (need (w_payload wire) "to_members") (CToMembers (w_session wire))
  else inr ("unknown op: " +:+ w_op wire)%string.

Record MemberInfo : Type := mkMemberInfo { mi_slot : Z; mi_id : string }.

Inductive ServerMsg : Type :=
  | SMessage (channel : string) (from : option string) (payload : Payload)
  | SJoined (channel : string) (who : string)
  | SLeft (channel : string) (who : string)
  | SPresence (channel : string) (members : list string)
  | SError (message : string)
  | SSessionStart (session : string) (slot : Z) (coordinator : bool)
      (members : list MemberInfo)
  | SMemberJoined (session : string) (slot : Z) (id : string)
  | SMemberLeft (session : string) (slot : Z) (id : string)
  | SCoordinatorChanged (session : string) (slot : Z) (id : string)
  | SSessionClosed (session : string) (reason : string)
  | SFromMember (session : string) (from : string) (slot : Z) (payload : Payload)
  | SFromCoordinator (session : string) (payload : Payload).

(** The internal messages from a connection to the hub task.  [Connect] carries the
    sending half of the client's outbound queue, of the abstract type [chan]. *)
Inductive Command (chan : Type) : Type :=
  | Connect (id : Z) (principal : Principal) (out : chan)
  | Subscribe (id : Z) (channel : string)
  | Unsubscribe (id : Z) (channel : string)
  | Publish (id : Z) (channel : string) (payload : Payload)
  | Presence (id : Z) (channel : string)
  | SessionJoin (id : Z) (session : string)
  | SessionLeave (id : Z) (session : string)
  | ToCoordinator (id : Z) (session : string) (payload : Payload)
  | ToMembers (id : Z) (session : string) (payload : Payload)
  | Disconnect (id : Z).
Arguments Connect {chan} id principal out.
Arguments Subscribe {chan} id channel.
Arguments Unsubscribe {chan} id channel.
Arguments Publish {chan} id channel payload.
Arguments Presence {chan} id channel.
Arguments SessionJoin {chan} id session.
Arguments SessionLeave {chan} id session.
Arguments ToCoordinator {chan} id session payload.
Arguments ToMembers {chan} id session payload.
Arguments Disconnect {chan} id.

(** [ClientHandle::dispatch] and [ClientHandle::disconnect] *)
Definition dispatch {chan} (id : Z) (msg : ClientMsg) : Command chan :=
  match msg with
  | CSubscribe channel => Subscribe id channel
  | CUnsubscribe channel => Unsubscribe id channel
  | CPublish channel payload => Publish id channel payload
  | CPresence channel => Presence id channel
  | CSessionJoin session => SessionJoin id session
  | CSessionLeave session => SessionLeave id session
  | CToCoordinator session payload => ToCoordinator id session payload
  | CToMembers session payload => ToMembers id session payload
  end.

Definition disconnect {chan} (id : Z) : Command chan := Disconnect id.

(** ** Decoding *)

(** The frame a client writes for a message (reference encoder for the theorem). *)
Definition encode (m : ClientMsg) : Wire :=
  match m with
  | CSubscribe c => mkWire "subscribe" c "" None
  | CUnsubscribe c => mkWire "unsubscribe" c "" None
  | CPublish c p => mkWire "publish" c "" (Some p)
  | CPresence c => mkWire "presence" c "" None
  | CSessionJoin s => mkWire "session_join" "" s None
  | CSessionLeave s => mkWire "session_leave" "" s None
  | CToCoordinator s p => mkWire "to_coordinator" "" s (Some p)
  | CToMembers s p => mkWire "to_members" "" s (Some p)
  end.

(** The operations whose frame must carry a payload. *)
Definition needs_payload (op : string) : bool :=
  bool_decide (op ∈ ["publish"; "to_coordinator"; "to_members"]%string).

Definition known_op (op : string) : bool :=
  bool_decide (op ∈ ["subscribe"; "unsubscribe"; "presence"; "publish";
    "session_join"; "session_leave"; "to_coordinator"; "to_members"]%string).

(** Case analysis on the operation of a frame, [op]. *)
Ltac by_op op :=
  repeat (let Hop := fresh in destruct (decide (op = _)) as [Hop|Hop]; [subst op|]).

Lemma from_wire_sound w m :
  from_wire w = inl m -> w_op (encode m) = w_op w /\
  (needs_payload (w_op w) = true -> w_payload (encode m) = w_payload w).
Proof.
  destruct w as [op ch se pl]. unfold from_wire, needs_payload.
  cbn [w_op w_channel w_session w_payload]. by_op op; [..|done].
  all: destruct pl; cbn; intros [= <-]; split; done.
Qed.

Lemma from_wire_total op ch se pl :
  (exists m, from_wire (mkWire op ch se pl) = inl m) <->
  known_op op = true /\ (needs_payload op = true -> pl <> None).
Proof.
  unfold from_wire, known_op, needs_payload.
  cbn [w_op w_channel w_session w_payload]. by_op op.
  9: { split; [by intros [m ?]|]. rewrite bool_decide_eq_true.
       rewrite !elem_of_cons. intros [Hin _].
       repeat (destruct Hin as [Hin|Hin]; [done|]). by apply not_elem_of_nil in Hin. }
  all: destruct pl; cbn; (split; [intros [m Hm]; try discriminate Hm; done|]);
    try (intros _; eexists; reflexivity).
  all: intros [_ Hp]; by destruct Hp.
Qed.

(** decoding inverts encoding for every message, and it accepts a frame exactly
    when its [op] is known and, for the three relaying operations, a payload is
    present; an accepted frame re-encodes to the same operation and payload. *)
Theorem from_wire_spec :
  (forall m, from_wire (encode m) = inl m) /\
  (forall w, (exists m, from_wire w = inl m) <->
     known_op (w_op w) = true /\
     (needs_payload (w_op w) = true -> w_payload w <> None)) /\
  (forall w m, from_wire w = inl m -> w_op (encode m) = w_op w /\
     (needs_payload (w_op w) = true -> w_payload (encode m) = w_payload w)).
Proof.
  split_and!.
  - by intros [].
  - intros [op ch se pl]. apply from_wire_total.
  - intros [op ch se pl] m Hm. by apply (from_wire_sound (mkWire op ch se pl)).
Qed.

(** * Outbound delivery ([crates/atomo_realtime/src/client.rs])

    A client's outbound queue is a tokio [mpsc] channel, third-party code: the class
    [Mpsc] is its sending half as the hub sees it.  A value of [chan] carries all
    that decides its future answers (the receiver drains and closes concurrently),
    so a theorem for every [Mpsc] covers every interleaving with the transport. *)

(** The answer of [Sender::try_send]. *)
Inductive TrySend : Type := SendOk | SendFull | SendClosed.

#[export] Instance TrySend_eq_dec : EqDecision TrySend.
Proof. solve_decision. Defined.

Class Mpsc : Type := {
  chan : Type;
  try_send : chan -> ServerMsg -> TrySend * chan
}.

Definition DEFAULT_OUTBOUND_CAPACITY : Z := 256.

Inductive Delivery : Type := Sent | Dropped | DeliveryClosed.

#[export] Instance Delivery_eq_dec : EqDecision Delivery.
Proof. solve_decision. Defined.

Definition try_deliver `{Mpsc} (out : chan) (msg : ServerMsg) : Delivery * chan :=
  match try_send out msg with
  | (SendOk, out') => (Sent, out')
  | (SendFull, out') => (Dropped, out')
  | (SendClosed, out') => (DeliveryClosed, out')
  end.

(** ** A concrete bounded queue, for closed examples *)

Record Queue : Type := mkQueue { q_cap : nat; q_open : bool; q_frames : list ServerMsg }.

Definition queue_send (q : Queue) (m : ServerMsg) : TrySend * Queue :=
  if negb (q_open q) then (SendClosed, q)
  else if (length (q_frames q) <? q_cap q)%nat
       then (SendOk, mkQueue (q_cap q) true (q_frames q ++ [m]))
       else (SendFull, q).

Definition queue_mpsc : Mpsc := {| chan := Queue; try_send := queue_send |}.

(** A fresh open queue of the default capacity, and one whose receiver is gone. *)
Definition open_queue : Queue := mkQueue (Z.to_nat DEFAULT_OUTBOUND_CAPACITY) true [].
Definition closed_queue : Queue := mkQueue (Z.to_nat DEFAULT_OUTBOUND_CAPACITY) false [].
