(* ===== verification/RateLimit.v ===== *)
(** * The join limiter of the realtime tier ([crates/atomo_realtime/src/rate_limit.rs])

    First the [f64] arithmetic of the limiters: it is exact on the integers they count with,
    that is, the lemmas compute the representation of an integer below 2^53 and show that
    comparison, subtraction and the addition of a zero do not round.  Then the token bucket
    over it, its bursts and its cap. *)

From S2P Require Import Prelude.
From Stdlib Require Import SpecFloat.

#[local] Abbreviation digits p := (Zpos (digits2_pos p)).

(** [p * 2^k] by appending zero bits. *)
Definition shl (p : positive) (k : nat) : positive := Nat.iter k xO p.

Lemma shl_val p k : Zpos (shl p k) = Zpos p * 2 ^ Z.of_nat k.
Proof.
  unfold shl. induction k as [|k IH]; [simpl; lia|].
  rewrite Nat2Z.inj_succ, Z.pow_succ_r by lia. simpl Nat.iter.
  rewrite Pos2Z.inj_xO. fold (Nat.iter k xO p). lia.
Qed.

Lemma shl_digits p k : digits (shl p k) = digits p + Z.of_nat k.
Proof.
  unfold shl. induction k as [|k IH]; simpl Nat.iter; [lia|].
  simpl digits2_pos. rewrite Pos2Z.inj_succ. lia.
Qed.

Lemma shl_shl p j k : shl (shl p j) k = shl p (k + j).
Proof. unfold shl. by rewrite Nat.iter_add. Qed.

Lemma digits_bounds p : 2 ^ (digits p - 1) <= Zpos p < 2 ^ digits p.
Proof.
  induction p as [p IH|p IH|]; simpl digits2_pos; [..|done];
    rewrite Pos2Z.inj_succ; replace (Z.succ (digits p) - 1) with (Z.succ (digits p - 1)) by lia;
    rewrite !Z.pow_succ_r by lia; lia.
Qed.

Lemma digits_le p n : 0 <= n -> Zpos p < 2 ^ n -> digits p <= n.
Proof.
  intros Hn Hp. destruct (digits_bounds p) as [Hl _].
  assert (Hlt : 2 ^ (digits p - 1) < 2 ^ n) by lia.
  apply Z.pow_lt_mono_r_iff in Hlt; lia.
Qed.

Lemma iter_pos_nat {A} (f : A -> A) p x : iter_pos f p x = Nat.iter (Pos.to_nat p) f x.
Proof.
  revert x. induction p as [p IH|p IH|]; intros x; cbn [iter_pos]; [..|done].
  - rewrite !IH, Pos2Nat.inj_xI. replace (S (2 * Pos.to_nat p)) with
      (Pos.to_nat p + (Pos.to_nat p + 1))%nat by lia. by rewrite !Nat.iter_add.
  - rewrite !IH, Pos2Nat.inj_xO. replace (2 * Pos.to_nat p)%nat with
      (Pos.to_nat p + Pos.to_nat p)%nat by lia. by rewrite Nat.iter_add.
Qed.

Lemma shr_shl p k :
  Nat.iter k shr_1 (Build_shr_record (Zpos (shl p k)) false false) =
    Build_shr_record (Zpos p) false false.
Proof.
  unfold shl. revert p. induction k as [|k IH]; intros p; [done|].
  rewrite Nat.iter_succ_r. simpl (Nat.iter (S k) xO p). simpl shr_1. apply IH.
Qed.

(** The representation of [p * 2^q], for [p] of at most 53 bits. *)
Definition canon (p : positive) (q : Z) : F64.t :=
  S754_finite false (shl p (Z.to_nat (53 - digits p))) (q + digits p - 53).

Lemma fexp_eq x : -1074 <= x - 53 -> fexp 53 1024 x = x - 53.
Proof. unfold fexp, emin. lia. Qed.

Lemma shr_fexp_shl p j e :
  digits p <= 53 -> 53 - digits p <= Z.of_nat j ->
  -1074 <= e + Z.of_nat j + digits p - 53 ->
  shr_fexp 53 1024 (Zpos (shl p j)) e loc_Exact =
    (Build_shr_record (Zpos (shl p (Z.to_nat (53 - digits p)))) false false,
     e + Z.of_nat j + digits p - 53).
Proof.
  intros Hd Hj He. unfold shr_fexp. cbn [Zdigits2 shr_record_of_loc].
  rewrite shl_digits, fexp_eq by lia.
  replace (digits p + Z.of_nat j + e - 53 - e) with (Z.of_nat j - (53 - digits p)) by lia.
  set (k := Z.to_nat (53 - digits p)). set (i := (j - k)%nat).
  replace (Z.of_nat j - (53 - digits p)) with (Z.of_nat i) by (subst i k; lia).
  replace j with (i + k)%nat at 1 by (subst i k; lia).
  rewrite <- shl_shl. unfold shr. destruct (Z.of_nat i) as [|q|q] eqn:Hi.
  - replace i with 0%nat by lia. f_equal. subst i k. lia.
  - rewrite iter_pos_nat. replace (Pos.to_nat q) with i by lia. rewrite shr_shl.
    f_equal. subst i k. lia.
  - lia.
Qed.

Lemma round_aux_canon p j e :
  digits p <= 53 -> 53 - digits p <= Z.of_nat j ->
  -1074 <= e + Z.of_nat j + digits p - 53 <= 971 ->
  binary_round_aux 53 1024 false (Zpos (shl p j)) e loc_Exact = canon p (e + Z.of_nat j).
Proof.
  intros Hd Hj He. unfold binary_round_aux. rewrite shr_fexp_shl by lia.
  cbn [shr_m loc_of_shr_record round_nearest_even].
  rewrite shr_fexp_shl by lia. cbn [shr_m].
  rewrite (proj2 (Z.leb_le _ _)) by lia. unfold canon. f_equal. lia.
Qed.

(** An integer scaled by a power of two is represented exactly. *)
Lemma normalize_canon p j e b :
  digits p <= 53 -> -1074 <= e + Z.of_nat j + digits p - 53 <= 971 ->
  binary_normalize 53 1024 (Zpos (shl p j)) e b = canon p (e + Z.of_nat j).
Proof.
  intros Hd He. unfold binary_normalize, binary_round, shl_align.
  rewrite shl_digits, fexp_eq by lia.
  replace (digits p + Z.of_nat j + e - 53 - e) with (Z.of_nat j - (53 - digits p)) by lia.
  destruct (Z.of_nat j - (53 - digits p)) as [|q|q] eqn:Hq.
  - apply round_aux_canon; lia.
  - apply round_aux_canon; lia.
  - replace (Pos.iter xO (shl p j) q) with (shl p (Pos.to_nat q + j)).
    2: { rewrite <- shl_shl. unfold shl at 1. by rewrite Pos2Nat.inj_iter. }
    rewrite round_aux_canon by lia. f_equal. lia.
Qed.

Lemma of_Z_canon p : Zpos p < 2 ^ 53 -> F64.of_Z (Zpos p) = canon p 0.
Proof.
  intros Hp. pose proof (digits_le p 53 ltac:(lia) Hp). unfold F64.of_Z.
  change (Zpos p) with (Zpos (shl p 0)) at 1. rewrite normalize_canon by lia. done.
Qed.

Lemma of_Z_not_nan n : 0 <= n < 2 ^ 53 -> F64.is_nan (F64.of_Z n) = false.
Proof. intros Hn. destruct n as [|p|p]; [done| |lia]. rewrite of_Z_canon by lia. done. Qed.

(** ** Exact operations on integers below 2^53 *)

Lemma of_Z_compare m n :
  0 <= m < 2 ^ 53 -> 0 <= n < 2 ^ 53 ->
  SFcompare (F64.of_Z m) (F64.of_Z n) = Some (m ?= n).
Proof.
  intros Hm Hn. destruct m as [|p|p]; [|destruct n as [|q|q]|lia].
  - destruct n as [|q|q]; [done| |lia]. by rewrite of_Z_canon by lia.
  - by rewrite of_Z_canon by lia.
  - rewrite !of_Z_canon by lia. unfold canon. cbn [SFcompare]. f_equal.
    destruct (digits_bounds p) as [Hp1 Hp2], (digits_bounds q) as [Hq1 Hq2].
    pose proof (digits_le p 53 ltac:(lia) ltac:(lia)).
    pose proof (digits_le q 53 ltac:(lia) ltac:(lia)).
    destruct (Z.compare_spec (0 + digits p - 53) (0 + digits q - 53)) as [He|He|He].
    + replace (digits q) with (digits p) by lia.
      change (Pos.compare_cont Eq ?a ?b) with (Pos.compare a b).
      rewrite (Pos2Z.inj_compare (shl p _)), !shl_val.
      symmetry. apply Zmult_compare_compat_r. apply Z.lt_gt, Z.pow_pos_nonneg; lia.
    + symmetry. apply Z.compare_lt_iff.
      assert (2 ^ digits p <= 2 ^ (digits q - 1)) by (apply Z.pow_le_mono_r; lia). lia.
    + symmetry. apply Z.compare_gt_iff.
      assert (2 ^ digits q <= 2 ^ (digits p - 1)) by (apply Z.pow_le_mono_r; lia). lia.
  - lia.
Qed.

Lemma of_Z_leb m n :
  0 <= m < 2 ^ 53 -> 0 <= n < 2 ^ 53 -> F64.leb (F64.of_Z m) (F64.of_Z n) = (m <=? n).
Proof.
  intros Hm Hn. unfold F64.leb, SFleb, Z.leb. rewrite of_Z_compare by done.
  by destruct (m ?= n).
Qed.

Lemma of_Z_ltb m n :
  0 <= m < 2 ^ 53 -> 0 <= n < 2 ^ 53 -> F64.ltb (F64.of_Z m) (F64.of_Z n) = (m <? n).
Proof.
  intros Hm Hn. unfold F64.ltb, SFltb, Z.ltb. rewrite of_Z_compare by done.
  by destruct (m ?= n).
Qed.

Lemma of_Z_min m n :
  0 <= m < 2 ^ 53 -> 0 <= n < 2 ^ 53 ->
  F64.min (F64.of_Z m) (F64.of_Z n) = F64.of_Z (Z.min m n).
Proof.
  intros Hm Hn. unfold F64.min. rewrite !of_Z_not_nan, of_Z_ltb by done.
  destruct (Z.ltb_spec m n); f_equal; lia.
Qed.

Lemma of_Z_sub_1 n :
  1 <= n < 2 ^ 53 -> F64.sub (F64.of_Z n) (F64.of_Z 1) = F64.of_Z (n - 1).
Proof.
  intros Hn. destruct n as [|p|p]; [lia| |lia].
  pose proof (digits_le p 53 ltac:(lia) ltac:(lia)).
  rewrite (of_Z_canon p) by lia.
  change (F64.of_Z 1) with (S754_finite false (shl 1 52) (-52)).
  unfold F64.sub, canon. cbn [SFsub cond_Zopp].
  replace (Z.min (0 + digits p - 53) (-52)) with (-52) by lia.
  assert (Hal : fst (shl_align (shl p (Z.to_nat (53 - digits p))) (0 + digits p - 53) (-52)) =
    shl p 52).
  { unfold shl_align. destruct (-52 - (0 + digits p - 53)) as [|q|q] eqn:Hq; [|lia|].
    - simpl fst. f_equal. lia.
    - simpl fst. rewrite Pos2Nat.inj_iter. change (shl (shl p (Z.to_nat (53 - digits p)))
        (Pos.to_nat q) = shl p 52). rewrite shl_shl. f_equal. lia. }
  rewrite Hal. change (fst (shl_align (shl 1 52) (-52) (-52))) with (shl 1 52).
  rewrite !shl_val. destruct (decide (p = 1%positive)) as [->|Hne]; [done|].
  replace (Zpos p * 2 ^ Z.of_nat 52 - 1 * 2 ^ Z.of_nat 52)
    with (Zpos (shl (p - 1) 52)) by (rewrite shl_val; lia).
  pose proof (digits_le (p - 1) 53 ltac:(lia) ltac:(lia)).
  unfold F64.prec, F64.emax. rewrite normalize_canon by lia.
  replace (Zpos p - 1) with (Zpos (p - 1)) by lia. by rewrite of_Z_canon by lia.
Qed.

Lemma of_Z_add_zero n s :
  0 <= n < 2 ^ 53 -> F64.add (F64.of_Z n) (S754_zero s) = F64.of_Z n.
Proof.
  intros Hn. destruct n as [|p|p]; [by destruct s| |lia]. by rewrite of_Z_canon by lia.
Qed.

(** [min x b] is at most [b], for a bound that is a number, whatever [x]. *)
Lemma leb_refl_of_Z n : 0 <= n < 2 ^ 53 -> F64.leb (F64.of_Z n) (F64.of_Z n) = true.
Proof. intros Hn. rewrite of_Z_leb by done. apply Z.leb_refl. Qed.

Lemma min_leb x n :
  0 <= n < 2 ^ 53 -> F64.leb (F64.min x (F64.of_Z n)) (F64.of_Z n) = true.
Proof.
  intros Hn. unfold F64.min. rewrite of_Z_not_nan by done.
  destruct (F64.is_nan x); [by apply leb_refl_of_Z|].
  destruct (F64.ltb x (F64.of_Z n)) eqn:Hx; [|by apply leb_refl_of_Z].
  unfold F64.ltb, SFltb, F64.leb, SFleb in *. by destruct (SFcompare _ _) as [[]|].
Qed.

(** * Token bucket of the realtime tier ([crates/atomo_realtime/src/rate_limit.rs])

    Tokens are binary64 floats as in the code; an [Instant] is a monotonic time in
    nanoseconds. *)

Definition Instant : Type := Z.

Record RateLimit : Type := mkRateLimit { rl_burst : Z; rl_per_sec : F64.t }.

Record RateLimiter : Type := mkRateLimiter {
  burst : F64.t;
  per_sec : F64.t;
  tokens : F64.t;
  last : Instant
}.

(** [RateLimiter::new]: start full. *)
Definition limiter_new (limit : RateLimit) (now : Instant) : RateLimiter :=
  mkRateLimiter (F64.of_Z (rl_burst limit)) (rl_per_sec limit)
    (F64.of_Z (rl_burst limit)) now.

(** [Instant::saturating_duration_since], in nanoseconds *)
Definition saturating_duration_since (now earlier : Instant) : Z := Z.max 0 (now - earlier).

(** [Duration::as_secs_f64]: whole seconds plus the sub-second part over 10^9 *)
Definition as_secs_f64 (nanos : Z) : F64.t :=
  F64.add (F64.of_Z (nanos / 10 ^ 9)) (F64.div (F64.of_Z (nanos mod 10 ^ 9)) (F64.of_Z (10 ^ 9))).

(** [RateLimiter::try_acquire] *)
Definition try_acquire (l : RateLimiter) (now : Instant) : bool * RateLimiter :=
  let elapsed := as_secs_f64 (saturating_duration_since now (last l)) in
  let toks := F64.min (F64.add (tokens l) (F64.mul elapsed (per_sec l))) (burst l) in
  if F64.leb (F64.of_Z 1) toks
  then (true, mkRateLimiter (burst l) (per_sec l) (F64.sub toks (F64.of_Z 1)) now)
  else (false, mkRateLimiter (burst l) (per_sec l) toks now).

#[global] Arguments try_acquire : simpl never.

(** ** A burst *)

(** The answers to [k] attempts at the same instant, and the bucket after them. *)
Fixpoint attempts (k : nat) (l : RateLimiter) (now : Instant) : list bool * RateLimiter :=
  match k with
  | O => ([], l)
  | S k =>
      let r := try_acquire l now in
      let r' := attempts k r.2 now in
      (r.1 :: r'.1, r'.2)
  end.

(** A refill rate that is a number (neither NaN nor infinite). *)
Definition finite_rate (x : F64.t) : Prop :=
  match x with S754_zero _ | S754_finite _ _ _ => True | _ => False end.

(** A bucket of capacity [b] that holds [n] whole tokens and was last used at [t]. *)
Definition holds (l : RateLimiter) (b n : Z) (t : Instant) : Prop :=
  burst l = F64.of_Z b /\ tokens l = F64.of_Z n /\ last l = t /\ finite_rate (per_sec l).

Lemma no_time_no_refill l t :
  last l = t -> finite_rate (per_sec l) ->
  exists s, F64.mul (as_secs_f64 (saturating_duration_since t (last l))) (per_sec l) = S754_zero s.
Proof.
  intros -> Hf. unfold saturating_duration_since. rewrite Z.sub_diag.
  change (as_secs_f64 (Z.max 0 0)) with (S754_zero false).
  destruct (per_sec l); try done; by eexists.
Qed.

(** At one instant the bucket counts down exactly. *)
Lemma try_acquire_holds l b n t :
  0 <= n <= b -> b <= u32_max -> holds l b n t ->
  (try_acquire l t).1 = (1 <=? n) /\ holds (try_acquire l t).2 b (Z.max 0 (n - 1)) t.
Proof.
  unfold u32_max. intros Hn Hb (Hbu & Hto & Hla & Hf). unfold try_acquire. cbv zeta.
  destruct (no_time_no_refill l t Hla Hf) as [s ->].
  rewrite Hto, Hbu, of_Z_add_zero, of_Z_min, Z.min_l, of_Z_leb by lia.
  destruct (Z.leb_spec 1 n); cbn [fst snd]; unfold holds; simpl; split; try done.
  - rewrite of_Z_sub_1 by lia. rewrite Z.max_r by lia. done.
  - replace (Z.max 0 (n - 1)) with n by lia. done.
Qed.

Lemma attempts_holds k l b n t :
  0 <= n <= b -> b <= u32_max -> holds l b n t ->
  (attempts k l t).1 =
    replicate (Nat.min k (Z.to_nat n)) true ++ replicate (k - Z.to_nat n) false.
Proof.
  revert l n. induction k as [|k IH]; intros l n Hn Hb Hh; [done|].
  destruct (try_acquire_holds l b n t Hn Hb Hh) as [Hr Hh'].
  cbn [attempts fst]. rewrite Hr, (IH _ (Z.max 0 (n - 1))) by (done || lia).
  destruct (Z.leb_spec 1 n).
  - replace (Z.to_nat n) with (S (Z.to_nat (Z.max 0 (n - 1)))) by lia. done.
  - replace (Z.to_nat n) with 0%nat by lia. replace (Z.to_nat (Z.max 0 (n - 1))) with 0%nat by lia.
    by rewrite !Nat.min_0_r, !Nat.sub_0_r.
Qed.

(** a fresh bucket grants a client its whole burst at once and then denies: of
    any number of attempts at one instant exactly the first [burst] succeed, although
    the balance is a float (no rounding error can give or take a token).  [burst] is
    any [u32], the refill rate any number. *)
Theorem bucket_burst (limit : RateLimit) (now : Instant) (k : nat) :
  0 <= rl_burst limit <= u32_max -> finite_rate (rl_per_sec limit) ->
  (attempts k (limiter_new limit now) now).1 =
    replicate (Nat.min k (Z.to_nat (rl_burst limit))) true ++
    replicate (k - Z.to_nat (rl_burst limit)) false.
Proof.
  intros Hb Hf. apply (attempts_holds k _ (rl_burst limit)); [lia|lia|]. by repeat split.
Qed.

Lemma bucket_burst_witness :
  (attempts 4 (limiter_new (mkRateLimit 3 (F64.of_Z 1)) 0) 0).1 = [true; true; true; false].
Proof.
  apply (bucket_burst (mkRateLimit 3 (F64.of_Z 1)) 0 4); [|vm_compute; exact I].
  split; [|unfold u32_max]; simpl; lia.
Defined.

(** idle time never accumulates more than the burst: whatever the bucket's
    history, the clock and the rate, the balance an attempt sees after the refill is
    at most the capacity, the attempt succeeds exactly when that balance is at least
    one token, and a success takes exactly one. *)
Theorem bucket_capped (l : RateLimiter) (b : Z) (now : Instant) :
  0 <= b <= u32_max -> burst l = F64.of_Z b ->
  exists balance, F64.leb balance (F64.of_Z b) = true /\
    (try_acquire l now).1 = F64.leb (F64.of_Z 1) balance /\
    tokens (try_acquire l now).2 =
      (if (try_acquire l now).1 then F64.sub balance (F64.of_Z 1) else balance) /\
    burst (try_acquire l now).2 = F64.of_Z b /\ last (try_acquire l now).2 = now.
Proof.
  unfold u32_max. intros Hb Hbu. eexists. split.
  - apply min_leb. lia.
  - unfold try_acquire. cbv zeta. rewrite Hbu.
    destruct (F64.leb (F64.of_Z 1) _) eqn:Hl; split_and!; try done; by rewrite Hl.
Qed.

Lemma bucket_capped_witness :
  exists balance, F64.leb balance (F64.of_Z 3) = true /\
    (try_acquire (limiter_new (mkRateLimit 3 (F64.of_Z 100)) 0) (10 ^ 10)).1 =
      F64.leb (F64.of_Z 1) balance.
Proof.
  destruct (bucket_capped (limiter_new (mkRateLimit 3 (F64.of_Z 100)) 0) 3 (10 ^ 10))
    as (bal & H1 & H2 & _).
  - unfold u32_max; lia.
  - reflexivity.
  - exists bal. exact (conj H1 H2).
Defined.
