(* ===== verification/Hub.v ===== *)
(** * The hub worker ([crates/atomo_realtime/src/hub.rs])

    One task owns the clients, the channel memberships and the sessions; a
    connection drives it with commands.  The handlers are written in the state
    monad of [StateM]; [on_disconnect] and [deliver] call each other (a delivery to
    a closed receiver reaps the client, which notifies others), so [on_disconnect]
    recurses on fuel and the other handlers take it as the argument [disc]. *)

From S2P Require Import Prelude StateM Presence Sessions Protocol RateLimit.

Record HubConfig : Type := mkHubConfig {
  coordinator_leave_policy : CoordinatorLeavePolicy;
  cfg_join_rate : option RateLimit
}.

(** Counters are [AtomicU64]s updated by the worker alone. *)
Record Stats : Type := mkStats {
  messages_published : Z;
  messages_delivered : Z;
  dropped_frames : Z;
  connections_opened : Z;
  connections_closed : Z;
  active_clients : Z;
  active_channels : Z;
  active_sessions : Z
}.

Definition stats_default : Stats := mkStats 0 0 0 0 0 0 0 0.

Section Hub.
Context {ho : HashOrder} {mpsc : Mpsc}.

Record ClientState : Type := mkClientState {
  out : chan;
  principal : Principal;
  subscriptions : gset string;
  cs_sessions : gset string;
  join_limiter : option RateLimiter
}.

Record Worker : Type := mkWorker {
  clients : gmap Z ClientState;
  presence : Presence.Presence;
  sessions : Sessions;
  session_policy : CoordinatorLeavePolicy;
  join_rate : option RateLimit;
  stats : Stats
}.

Definition worker_new (config : HubConfig) : Worker :=
  mkWorker ∅ presence_new sessions_new (coordinator_leave_policy config)
    (cfg_join_rate config) stats_default.

(** *** Field updates *)

Definition set_clients (f : gmap Z ClientState -> gmap Z ClientState) (w : Worker) :=
  mkWorker (f (clients w)) (presence w) (sessions w) (session_policy w)
    (join_rate w) (stats w).
Definition set_presence (p : Presence.Presence) (w : Worker) :=
  mkWorker (clients w) p (sessions w) (session_policy w) (join_rate w) (stats w).
Definition set_sessions (s : Sessions) (w : Worker) :=
  mkWorker (clients w) (presence w) s (session_policy w) (join_rate w) (stats w).
Definition set_stats (f : Stats -> Stats) (w : Worker) :=
  mkWorker (clients w) (presence w) (sessions w) (session_policy w) (join_rate w)
    (f (stats w)).

Definition set_out (c : chan) (cs : ClientState) :=
  mkClientState c (principal cs) (subscriptions cs) (cs_sessions cs) (join_limiter cs).
Definition set_subscriptions (f : gset string -> gset string) (cs : ClientState) :=
  mkClientState (out cs) (principal cs) (f (subscriptions cs)) (cs_sessions cs)
    (join_limiter cs).
Definition set_cs_sessions (f : gset string -> gset string) (cs : ClientState) :=
  mkClientState (out cs) (principal cs) (subscriptions cs) (f (cs_sessions cs))
    (join_limiter cs).
Definition set_limiter (l : option RateLimiter) (cs : ClientState) :=
  mkClientState (out cs) (principal cs) (subscriptions cs) (cs_sessions cs) l.

(** *** Counters *)

Definition inc_published (s : Stats) := mkStats (wrap_u64 (messages_published s + 1))
  (messages_delivered s) (dropped_frames s) (connections_opened s)
  (connections_closed s) (active_clients s) (active_channels s) (active_sessions s).
Definition inc_delivered (s : Stats) := mkStats (messages_published s)
  (wrap_u64 (messages_delivered s + 1)) (dropped_frames s) (connections_opened s)
  (connections_closed s) (active_clients s) (active_channels s) (active_sessions s).
Definition inc_dropped (s : Stats) := mkStats (messages_published s)
  (messages_delivered s) (wrap_u64 (dropped_frames s + 1)) (connections_opened s)
  (connections_closed s) (active_clients s) (active_channels s) (active_sessions s).
Definition inc_opened (s : Stats) := mkStats (messages_published s)
  (messages_delivered s) (dropped_frames s) (wrap_u64 (connections_opened s + 1))
  (connections_closed s) (active_clients s) (active_channels s) (active_sessions s).
Definition inc_closed (s : Stats) := mkStats (messages_published s)
  (messages_delivered s) (dropped_frames s) (connections_opened s)
  (wrap_u64 (connections_closed s + 1)) (active_clients s) (active_channels s)
  (active_sessions s).
Definition store_clients (n : Z) (s : Stats) := mkStats (messages_published s)
  (messages_delivered s) (dropped_frames s) (connections_opened s)
  (connections_closed s) n (active_channels s) (active_sessions s).
Definition store_channels (n : Z) (s : Stats) := mkStats (messages_published s)
  (messages_delivered s) (dropped_frames s) (connections_opened s)
  (connections_closed s) (active_clients s) n (active_sessions s).
Definition store_sessions (n : Z) (s : Stats) := mkStats (messages_published s)
  (messages_delivered s) (dropped_frames s) (connections_opened s)
  (connections_closed s) (active_clients s) (active_channels s) n.

Definition stat (f : Stats -> Stats) : M Worker unit := modify (set_stats f).

(** [stats.active_clients.store(clients.len() as u64)] *)
Definition store_client_gauge : M Worker unit := modify (fun w =>
  set_stats (store_clients (wrap_u64 (Z.of_nat (size (clients w))))) w).
Definition refresh_channel_gauge : M Worker unit := modify (fun w =>
  set_stats (store_channels (wrap_u64 (Z.of_nat (channel_count (presence w))))) w).
Definition refresh_session_gauge : M Worker unit := modify (fun w =>
  set_stats (store_sessions (wrap_u64 (Z.of_nat (count (sessions w))))) w).

(** *** Access to the parts of the state *)

Definition get_client (id : Z) : M Worker (option ClientState) :=
  gets (fun w => clients w !! id).
Definition principal_id_of (id : Z) : M Worker (option string) :=
  gets (fun w => (fun c => pr_id (principal c)) <$> clients w !! id).
(** [if let Some(cs) = clients.get_mut(&id) { f(cs) }] *)
Definition alter_client (id : Z) (f : ClientState -> ClientState) : M Worker unit :=
  modify (set_clients (alter f id)).
Definition presence_op {A} (f : Presence.Presence -> A * Presence.Presence) : M Worker A :=
  update (fun w => let r := f (presence w) in (r.1, set_presence r.2 w)).
Definition sessions_leave (name : string) (id : Z) : M Worker (option LeaveOutcome) :=
  update_opt (fun w =>
    match Sessions.leave (sessions w) name id (session_policy w) with
    | Some (o, ss) => Some (o, set_sessions ss w)
    | None => None
    end).
Definition sessions_join (name : string) (id : Z) (pid : string) : M Worker JoinOutcome :=
  update (fun w => let r := Sessions.join (sessions w) name id pid in
    (r.1, set_sessions r.2 w)).

(** ** Delivery, parametrised by what reaps a closed client *)

Section WithDisc.
Variable disc : Z -> M Worker unit.

Definition deliver (id : Z) (msg : ServerMsg) : M Worker unit :=
  cs ← get_client id;
  match cs with
  | None => mret tt
  | Some cs =>
      let r := try_deliver (out cs) msg in
      alter_client id (set_out r.2) ;;
      match r.1 with
      | Sent => stat inc_delivered
      | Dropped => stat inc_dropped
      | DeliveryClosed => disc id
      end
  end.

Definition broadcast_except (channel : string) (except : Z) (msg : ServerMsg)
    : M Worker unit :=
  targets ← gets (fun w => subscribers (presence w) channel);
  for_each targets (fun target =>
    if decide (target = except) then mret tt else deliver target msg).

(** Remove [id] from [channel] and, if it had been a member, tell the rest. *)
Definition leave_channel (id : Z) (channel : string) : M Worker unit :=
  pid ← principal_id_of id;
  left ← presence_op (fun p => Presence.leave p channel id);
  if left : bool then
    match pid with
    | Some who => broadcast_except channel id (SLeft channel who)
    | None => mret tt
    end
  else mret tt.

(** Remove [id] from [session], emitting the right frames per the outcome. *)
Definition leave_session (id : Z) (session : string) : M Worker unit :=
  outcome ← sessions_leave session id;
  match outcome with
  | None => mret tt
  | Some outcome =>
      alter_client id (set_cs_sessions (fun s => s ∖ {[session]})) ;;
      let left := SMemberLeft session (slot (lo_member outcome))
                    (principal_id (lo_member outcome)) in
      match lo_change outcome with
      | Closed =>
          for_each (lo_remaining outcome) (fun m =>
            alter_client (client_id m) (set_cs_sessions (fun s => s ∖ {[session]})) ;;
            deliver (client_id m) (SSessionClosed session "coordinator_left"))
      | Reelected new_coord =>
          for_each (lo_remaining outcome) (fun m =>
            deliver (client_id m) left ;;
            deliver (client_id m)
              (SCoordinatorChanged session (slot new_coord) (principal_id new_coord)))
      | NoChange =>
          for_each (lo_remaining outcome) (fun m => deliver (client_id m) left)
      end ;;
      refresh_session_gauge
  end.
End WithDisc.

(** [on_disconnect], with the depth of nested reapings as fuel. *)
Fixpoint on_disconnect (fuel : nat) (id : Z) : M Worker unit :=
  match fuel with
  | O => no_fuel
  | S fuel =>
      cs ← update (fun w => (clients w !! id, set_clients (delete id) w));
      match cs with
      | None => mret tt
      | Some cs =>
          let who := pr_id (principal cs) in
          for_each (helements (subscriptions cs)) (fun channel =>
            left ← presence_op (fun p => Presence.leave p channel id);
            if left : bool
            then broadcast_except (on_disconnect fuel) channel id (SLeft channel who)
            else mret tt) ;;
          for_each (helements (cs_sessions cs)) (fun session =>
            leave_session (on_disconnect fuel) id session) ;;
          stat inc_closed ;;
          store_client_gauge ;;
          refresh_channel_gauge
      end
  end.

(** ** Command handlers *)

Definition on_connect (now : Instant) (id : Z) (p : Principal) (c : chan)
    : M Worker unit :=
  rate ← gets join_rate;
  modify (set_clients (insert id
    (mkClientState c p ∅ ∅ ((fun limit => limiter_new limit now) <$> rate)))) ;;
  stat inc_opened ;;
  store_client_gauge.

Section Handlers.
Variable disc : Z -> M Worker unit.

(** Charge one join token. *)
Definition allow_join (now : Instant) (id : Z) : M Worker bool :=
  cs ← get_client id;
  match cs with
  | None => mret false
  | Some cs =>
      denied ← match join_limiter cs with
               | Some limiter =>
                   let r := try_acquire limiter now in
                   alter_client id (set_limiter (Some r.2)) ;;
                   mret (negb r.1)
               | None => mret false
               end;
      (if denied : bool then deliver disc id (SError "join rate limit exceeded")
       else mret tt) ;;
      mret (negb denied)
  end.

Definition on_subscribe (now : Instant) (id : Z) (channel : string) : M Worker unit :=
  allowed ← allow_join now id;
  if negb allowed then mret tt else
  pid ← principal_id_of id;
  match pid with
  | None => mret tt
  | Some principal_id =>
      newly ← presence_op (fun p => Presence.join p channel id principal_id);
      alter_client id (set_subscriptions (fun s => s ∪ {[channel]})) ;;
      members ← gets (fun w => snapshot (presence w) channel);
      deliver disc id (SPresence channel members) ;;
      (if newly : bool
       then broadcast_except disc channel id (SJoined channel principal_id)
       else mret tt) ;;
      refresh_channel_gauge
  end.

Definition on_unsubscribe (id : Z) (channel : string) : M Worker unit :=
  alter_client id (set_subscriptions (fun s => s ∖ {[channel]})) ;;
  leave_channel disc id channel ;;
  refresh_channel_gauge.

Definition on_publish (id : Z) (channel : string) (payload : Payload)
    : M Worker unit :=
  stat inc_published ;;
  from ← principal_id_of id;
  targets ← gets (fun w => subscribers (presence w) channel);
  for_each targets (fun target =>
    if decide (target = id) then mret tt
    else deliver disc target (SMessage channel from payload)).

Definition on_presence (id : Z) (channel : string) : M Worker unit :=
  members ← gets (fun w => snapshot (presence w) channel);
  deliver disc id (SPresence channel members).

Definition on_session_join (now : Instant) (id : Z) (session : string)
    : M Worker unit :=
  allowed ← allow_join now id;
  if negb allowed then mret tt else
  pid ← principal_id_of id;
  match pid with
  | None => mret tt
  | Some pid =>
      outcome ← sessions_join session id pid;
      alter_client id (set_cs_sessions (fun s => s ∪ {[session]})) ;;
      let members := (fun m => mkMemberInfo (slot m) (principal_id m))
                       <$> jo_roster outcome in
      deliver disc id
        (SSessionStart session (jo_slot outcome) (jo_is_coordinator outcome) members) ;;
      for_each (jo_roster outcome) (fun m =>
        if decide (client_id m = id) then mret tt
        else deliver disc (client_id m)
               (SMemberJoined session (jo_slot outcome) pid)) ;;
      refresh_session_gauge
  end.

(** Member to coordinator relay. *)
Definition on_to_coordinator (id : Z) (session : string) (payload : Payload)
    : M Worker unit :=
  sender ← gets (fun w => Sessions.member (sessions w) session id);
  match sender with
  | None => mret tt
  | Some sender =>
      coord ← gets (fun w => coordinator_of (sessions w) session);
      match coord with
      | None => mret tt
      | Some coord =>
          stat inc_published ;;
          deliver disc coord
            (SFromMember session (principal_id sender) (slot sender) payload)
      end
  end.

(** Coordinator to members broadcast. *)
Definition on_to_members (id : Z) (session : string) (payload : Payload)
    : M Worker unit :=
  ok ← gets (fun w => is_coordinator (sessions w) session id);
  if negb ok then
    deliver disc id
      (SError ("not the coordinator of session '" +:+ session +:+ "'")%string)
  else
    stat inc_published ;;
    targets ← gets (fun w =>
      client_id <$> filter (fun m => client_id m <> id) (roster (sessions w) session));
    for_each targets (fun cid => deliver disc cid (SFromCoordinator session payload)).

(** One iteration of [Worker::run]. *)
Definition handle_with (now : Instant) (cmd : Command chan) : M Worker unit :=
  match cmd with
  | Connect id p c => on_connect now id p c
  | Subscribe id channel => on_subscribe now id channel
  | Unsubscribe id channel => on_unsubscribe id channel
  | Publish id channel payload => on_publish id channel payload
  | Protocol.Presence id channel => on_presence id channel
  | SessionJoin id session => on_session_join now id session
  | SessionLeave id session => leave_session disc id session
  | ToCoordinator id session payload => on_to_coordinator id session payload
  | ToMembers id session payload => on_to_members id session payload
  | Disconnect id => disc id
  end.
End Handlers.

(** The worker handles a command at time [now]; nested reapings are at most as
    deep as there are clients. *)
Definition handle (now : Instant) (cmd : Command chan) : M Worker unit :=
  fun w => handle_with (on_disconnect (S (size (clients w)))) now cmd w.

(** [Worker::run] over the commands received, each with its time. *)
Definition run (cmds : list (Instant * Command chan)) : M Worker unit :=
  for_each cmds (fun c => handle c.1 c.2).
End Hub.
