(* ===== verification/HubInv.v ===== *)
(** * The hub invariant

    The worker keeps three views of who is where: the clients' own sets, the
    presence tracker and the sessions.  [hub_wf] says they agree; the file proves
    that every command handler keeps it, does not panic and does not exhaust its
    fuel, whatever receivers close on the way.  Handlers break the agreement
    temporarily and reap other clients in the middle, so the proof carries the
    exceptions that are open at a point ([P], [S], [T], [D] below). *)

From S2P Require Import Prelude StateM Presence Sessions Protocol RateLimit Hub.

Inductive gauge : Type := GClients | GChannels | GSessions.

Section Inv.
Context {ho : HashOrder} {mpsc : Mpsc}.

(** A class of receivers that stay open, and clients known to have one. *)
Variable Alive : chan -> Prop.
Hypothesis Alive_send : forall c m, Alive c ->
  (try_send c m).1 <> SendClosed /\ Alive (try_send c m).2.
Variable K : gset Z.

Definition gauge_ok (x : gauge) (w : Worker) : Prop :=
  match x with
  | GClients => active_clients (stats w) = wrap_u64 (Z.of_nat (size (clients w)))
  | GChannels =>
      active_channels (stats w) = wrap_u64 (Z.of_nat (channel_count (presence w)))
  | GSessions => active_sessions (stats w) = wrap_u64 (Z.of_nat (count (sessions w)))
  end.

(** [cs'] is what reaping others may make of [cs]. *)
Record client_le (cs' cs : ClientState) : Prop := {
  cle_principal : principal cs' = principal cs;
  cle_subs : subscriptions cs' = subscriptions cs;
  cle_sess : cs_sessions cs' ⊆ cs_sessions cs;
  cle_lim : join_limiter cs' = join_limiter cs
}.

(** [P], [S]: memberships whose client may lack them; [T]: sessions a client may
    still list although it is no member; [D]: gauges that may be stale; [R]: the
    clients that remain are among [R], changed by at most [client_le]. *)
Record inv (P S T : gset (string * Z)) (D : gauge -> Prop) (R : gmap Z ClientState)
    (w : Worker) : Prop := {
  i_pres : presence_wf (presence w);
  i_sess : sessions_wf (sessions w);
  i_mem : forall ch id who, view (presence w) ch id = Some who ->
    (ch, id) ∈ P \/ exists cs, clients w !! id = Some cs /\
      ch ∈ subscriptions cs /\ pr_id (principal cs) = who;
  i_sub : forall ch id cs, clients w !! id = Some cs -> ch ∈ subscriptions cs ->
    view (presence w) ch id = Some (pr_id (principal cs));
  i_smem : forall s id m, member (sessions w) s id = Some m ->
    (s, id) ∈ S \/ exists cs, clients w !! id = Some cs /\
      s ∈ cs_sessions cs /\ pr_id (principal cs) = principal_id m;
  i_ssub : forall s id cs, clients w !! id = Some cs -> s ∈ cs_sessions cs ->
    (s, id) ∈ T \/ is_Some (member (sessions w) s id);
  i_T : forall s id, (s, id) ∈ T -> member (sessions w) s id = None;
  i_gauge : forall x, D x \/ gauge_ok x w;
  i_alive : forall id, id ∈ K -> exists cs, clients w !! id = Some cs /\ Alive (out cs);
  i_evo : forall id cs', clients w !! id = Some cs' ->
    exists cs, R !! id = Some cs /\ client_le cs' cs
}.

Definition all_fresh : gauge -> Prop := fun _ => False.
Definition mark (x : gauge) (D : gauge -> Prop) : gauge -> Prop := fun y => y = x \/ D y.

(** The invariant between commands. *)
Definition hub_wf (w : Worker) : Prop := inv ∅ ∅ ∅ all_fresh (clients w) w.

#[global] Instance client_le_refl : Reflexive client_le.
Proof. by split. Qed.
#[global] Instance client_le_trans : Transitive client_le.
Proof. intros a b c [? ? ? ?] [? ? ? ?]. split; try congruence. set_solver. Qed.

Section Steps.
Implicit Types (w : Worker) (id : Z) (P S T : gset (string * Z)).

Lemma inv_weaken P S T D R P' S' D' R' w :
  inv P S T D R w -> P ⊆ P' -> S ⊆ S' -> (forall x, D x -> D' x) ->
  (forall id cs, R !! id = Some cs ->
     exists cs', R' !! id = Some cs' /\ client_le cs cs') ->
  inv P' S' T D' R' w.
Proof.
  intros [] HP HS HD HR. split; try done.
  - intros ch id who Hv. destruct (i_mem0 _ _ _ Hv); [left; set_solver|by right].
  - intros s id m Hm. destruct (i_smem0 _ _ _ Hm); [left; set_solver|by right].
  - intros x. destruct (i_gauge0 x); [left; by apply HD|by right].
  - intros id cs' Hc. destruct (i_evo0 _ _ Hc) as (cs & Hr & Hle).
    destruct (HR _ _ Hr) as (cs2 & ? & ?). exists cs2. split; [done|by etrans].
Qed.

Lemma inv_refresh_R P S T D R w : inv P S T D R w -> inv P S T D (clients w) w.
Proof. intros []. split; try done. intros id cs' Hc. by exists cs'. Qed.

(** Steps that only touch counters. *)
Lemma inv_stats P S T D R f w :
  (forall x, D x \/ gauge_ok x (set_stats f w)) -> inv P S T D R w ->
  inv P S T D R (set_stats f w).
Proof. intros Hg []. by split. Qed.

(** A client's queue advances. *)
Lemma inv_set_out P S T D R w id c :
  (id ∈ K -> Alive c) -> inv P S T D R w ->
  inv P S T D R (set_clients (alter (set_out c) id) w).
Proof.
  intros Hal []. split; try done; simpl.
  - intros ch id' who Hv. destruct (i_mem0 _ _ _ Hv) as [|(cs & Hc & ? & ?)];
      [by left|right]. rewrite lookup_alter. case_decide; subst.
    + rewrite Hc. simpl. by eexists.
    + rewrite Hc. by eexists.
  - intros ch id' cs. rewrite lookup_alter_Some.
    intros [(<- & cs0 & Hc & ->)|[? Hc]]; simpl; by eauto.
  - intros s id' m Hm. destruct (i_smem0 _ _ _ Hm) as [|(cs & Hc & ? & ?)];
      [by left|right]. rewrite lookup_alter. case_decide; subst.
    + rewrite Hc. simpl. by eexists.
    + rewrite Hc. by eexists.
  - intros s id' cs. rewrite lookup_alter_Some.
    intros [(<- & cs0 & Hc & ->)|[? Hc]]; simpl; by eauto.
  - intros x. destruct (i_gauge0 x) as [|Hg]; [by left|right].
    destruct x; try done. simpl in *.
    by rewrite Hg, <- !size_dom, dom_alter_L.
  - intros id' Hid. destruct (i_alive0 _ Hid) as (cs & Hc & Ha).
    rewrite lookup_alter. case_decide; subst; rewrite Hc; simpl; eexists; (split; [done|]); simpl; auto.
  - intros id' cs'. rewrite lookup_alter_Some.
    intros [(<- & cs0 & Hc & ->)|[? Hc]]; [|by eauto].
    destruct (i_evo0 _ _ Hc) as (cs & ? & []). exists cs. by split.
Qed.

(** A client stops listing a session it is no member of. *)
Lemma inv_forget_session P S T T' D R w s id :
  (s, id) ∈ T -> T' ⊆ T -> T ⊆ T' ∪ {[(s, id)]} -> inv P S T D R w ->
  inv P S T' D R
    (set_clients (alter (set_cs_sessions (fun x => x ∖ {[s]})) id) w).
Proof.
  intros HT HT1 HT2 []. split; try done; simpl.
  - intros ch id' who Hv. destruct (i_mem0 _ _ _ Hv) as [|(cs & Hc & ? & ?)];
      [by left|right]. rewrite lookup_alter. case_decide; subst; rewrite Hc; simpl; by eexists.
  - intros ch id' cs. rewrite lookup_alter_Some.
    intros [(<- & cs0 & Hc & ->)|[? Hc]]; simpl; by eauto.
  - intros s' id' m Hm. destruct (i_smem0 _ _ _ Hm) as [|(cs & Hc & Hs & Hp)];
      [by left|right]. rewrite lookup_alter. case_decide; subst; rewrite Hc; simpl;
      eexists; split_and!; try done. simpl.
    assert (s' <> s) by (intros ->; rewrite (i_T0 _ _ HT) in Hm; done). set_solver.
  - intros s' id' cs. rewrite lookup_alter_Some.
    intros [(<- & cs0 & Hc & ->)|[? Hc]]; simpl.
    + intros [Hs Hne]%elem_of_difference.
      destruct (i_ssub0 _ _ _ Hc Hs); [left|by right]. set_solver.
    + intros Hs. destruct (i_ssub0 _ _ _ Hc Hs); [left|by right]. set_solver.
  - intros s' id' Hin. apply i_T0. set_solver.
  - intros x. destruct (i_gauge0 x) as [|Hg]; [by left|right].
    destruct x; try done. simpl in *.
    by rewrite Hg, <- !size_dom, dom_alter_L.
  - intros id' Hid. destruct (i_alive0 _ Hid) as (cs & Hc & Ha).
    rewrite lookup_alter. case_decide; subst; rewrite Hc; simpl; eexists; (split; [done|]); simpl; auto.
  - intros id' cs'. rewrite lookup_alter_Some.
    intros [(<- & cs0 & Hc & ->)|[? Hc]]; [|by eauto].
    destruct (i_evo0 _ _ Hc) as (cs & ? & []). exists cs. split; [done|].
    split; try done. simpl. set_solver.
Qed.

(** Pairs of a client with each name of a list. *)
Definition pairs (names : list string) (id : Z) : gset (string * Z) :=
  list_to_set ((fun n => (n, id)) <$> names).

Lemma elem_of_pairs names id n id' :
  (n, id') ∈ pairs names id <-> n ∈ names /\ id' = id.
Proof.
  unfold pairs. rewrite elem_of_list_to_set, list_elem_of_fmap. naive_solver.
Qed.

(** A client is removed; its memberships become exceptions. *)
Lemma inv_delete_client P S T D R w id cs :
  id ∉ K -> clients w !! id = Some cs -> inv P S T D R w ->
  inv (P ∪ pairs (helements (subscriptions cs)) id)
      (S ∪ pairs (helements (cs_sessions cs)) id) T
      (mark GClients (mark GChannels D)) (delete id R)
      (set_clients (delete id) w).
Proof.
  intros HK Hcs []. split; try done; simpl.
  - intros ch id' who Hv.
    destruct (i_mem0 _ _ _ Hv) as [|(cs' & Hc & ? & ?)]; [left; set_solver|].
    destruct (decide (id' = id)) as [->|Hne].
    + left. simplify_eq. apply elem_of_union_r, elem_of_pairs.
      by rewrite elem_of_helements.
    + right. rewrite lookup_delete_ne by done. eauto.
  - intros ch id' cs' [? ?]%lookup_delete_Some. eauto.
  - intros s id' m Hm.
    destruct (i_smem0 _ _ _ Hm) as [|(cs' & Hc & ? & ?)]; [left; set_solver|].
    destruct (decide (id' = id)) as [->|Hne].
    + left. simplify_eq. apply elem_of_union_r, elem_of_pairs.
      by rewrite elem_of_helements.
    + right. rewrite lookup_delete_ne by done. eauto.
  - intros s id' cs' [? ?]%lookup_delete_Some. eauto.
  - intros x. destruct (i_gauge0 x) as [|Hg]; [by left; do 2 right|].
    destruct x; [by left; left|by left; right; left|by right].
  - intros id' Hid. rewrite lookup_delete_ne by set_solver. eauto.
  - intros id' cs' [? Hc]%lookup_delete_Some. rewrite lookup_delete_ne by done. eauto.
Qed.

(** A client that does not list a channel leaves it. *)
Lemma inv_presence_leave P S T D R w ch id :
  (forall cs, clients w !! id = Some cs -> ch ∉ subscriptions cs) ->
  D GChannels -> inv P S T D R w ->
  inv (P ∖ {[(ch, id)]}) S T D R
    (set_presence (Presence.leave (presence w) ch id).2 w).
Proof.
  intros Hno HD []. split; try done; simpl.
  - by apply presence_leave_wf.
  - intros ch' id' who. rewrite leave_view. case_decide as Hd; [done|].
    intros Hv. destruct (i_mem0 _ _ _ Hv); [left|by right]. set_solver.
  - intros ch' id' cs Hc Hin. rewrite leave_view. case_decide as Hd; [|by eauto].
    destruct Hd as [-> ->]. by apply Hno in Hc.
  - intros x. destruct (i_gauge0 x); [by left|]. destruct x; [by right|by left|by right].
Qed.

(** A member leaves a session; under [Close] everyone else does too. *)
Lemma inv_sessions_leave P S T D R w s id pol o ss' :
  Sessions.leave (sessions w) s id pol = Some (Some o, ss') ->
  inv P S T D R w ->
  inv P (S ∖ {[(s, id)]})
    (T ∪ {[(s, id)]} ∪
     (if bool_decide (lo_change o = Closed)
      then list_to_set ((fun m => (s, client_id m)) <$> lo_remaining o) else ∅))
    (mark GSessions D) R (set_sessions ss' w).
Proof.
  intros Hl []. split; try done; simpl.
  - by eapply leave_wf.
  - intros s' id' m Hm. rewrite (leave_member _ _ _ _ _ _ _ _ Hl) in Hm.
    case_decide as Hd; [done|].
    destruct (i_smem0 _ _ _ Hm); [left|by right].
    apply elem_of_difference. split; [done|].
    rewrite elem_of_singleton. intros [= -> ->]. apply Hd. auto.
  - intros s' id' cs Hc Hin. rewrite (leave_member _ _ _ _ _ _ _ _ Hl).
    destruct (i_ssub0 _ _ _ Hc Hin) as [|[m Hm]]; [left; set_solver|].
    case_decide as Hd; [left|right; by eexists].
    destruct Hd as [-> [->|Hcl]]; [set_solver|].
    destruct (decide (id' = id)) as [->|Hne]; [set_solver|].
    apply elem_of_union_r. rewrite bool_decide_eq_true_2 by done.
    apply elem_of_list_to_set, list_elem_of_fmap. exists m.
    pose proof (member_client_id _ _ _ _ i_sess0 Hm) as Hid. split; [by rewrite Hid|].
    apply (leave_closed_remaining _ _ _ _ _ _ i_sess0 Hl Hcl). eauto.
  - intros s' id'. rewrite (leave_member _ _ _ _ _ _ _ _ Hl). rewrite !elem_of_union.
    intros [[Hin|Hin]|Hin].
    + case_decide; [done|by apply i_T0].
    + apply elem_of_singleton in Hin as [= -> ->]. by rewrite decide_True by auto.
    + destruct (bool_decide_reflect (lo_change o = Closed)) as [Hcl|]; [|set_solver].
      apply elem_of_list_to_set, list_elem_of_fmap in Hin as (m & [= -> ->] & _).
      by rewrite decide_True by auto.
  - intros x. destruct (i_gauge0 x); [by left; right|].
    destruct x; [by right..|by left; left].
Qed.

Lemma inv_refresh P S T D R w x f :
  (forall y, gauge_ok y w -> gauge_ok y (set_stats f w)) ->
  gauge_ok x (set_stats f w) ->
  inv P S T (mark x D) R w -> inv P S T D R (set_stats f w).
Proof.
  intros Hall Hx []. split; try done. intros y.
  destruct (i_gauge0 y) as [[->|Hd]|Hg]; [by right|by left|right; by apply Hall].
Qed.
End Steps.

(** ** Handlers *)

(** The invariant with a bound on the number of clients, i.e. on the depth of
    nested reapings. *)
Definition inv_n (n : nat) P S T D R (w : Worker) : Prop :=
  inv P S T D R w /\ (size (clients w) <= n)%nat.

(** What the handlers need of the procedure that reaps a client. *)
Definition disc_ok (n : nat) (disc : Z -> M Worker unit) : Prop :=
  forall P S T D R id, id ∉ K ->
    triple (fun w => inv_n n P S T D R w /\ is_Some (clients w !! id))
      (disc id) (fun _ => inv_n n P S T D (delete id R)).

Lemma inv_n_delete_R n P S T D R id w :
  inv_n n P S T D (delete id R) w -> inv_n n P S T D R w.
Proof.
  intros [Hi ?]. split; [|done]. eapply inv_weaken; [exact Hi|done..|].
  intros id' cs' [? ?]%lookup_delete_Some. eauto using client_le_refl.
Qed.

Lemma inv_n_set_stats n P S T D R f w :
  (forall y, gauge_ok y w -> gauge_ok y (set_stats f w)) ->
  inv_n n P S T D R w -> inv_n n P S T D R (set_stats f w).
Proof.
  intros Hg [Hi ?]. split; [|done]. apply inv_stats; [|done].
  intros x. destruct (i_gauge _ _ _ _ _ _ Hi x); [by left|right; by apply Hg].
Qed.

Lemma stat_ok n P S T D R f :
  (forall w y, gauge_ok y w -> gauge_ok y (set_stats f w)) ->
  triple (inv_n n P S T D R) (stat f) (fun _ => inv_n n P S T D R).
Proof. intros Hg. apply triple_modify. intros w Hw.
  apply inv_n_set_stats; [apply Hg|done]. Qed.

Lemma size_alter {V} (f : V -> V) (id : Z) (m : gmap Z V) :
  size (alter f id m) = size m.
Proof. by rewrite <- !size_dom, dom_alter_L. Qed.

Section Disc.
Context (n : nat) (disc : Z -> M Worker unit) (Hdisc : disc_ok n disc).
Implicit Types (P S T : gset (string * Z)) (id : Z).

Lemma deliver_ok P S T D R id msg :
  triple (inv_n n P S T D R) (deliver disc id msg) (fun _ => inv_n n P S T D R).
Proof.
  apply triple_state. intros w0 [Hi Hn]. unfold deliver.
  eapply (triple_bind _ _ _ (fun cs w => cs = clients w0 !! id /\ w = w0)).
  { apply triple_gets. by intros ? ->. }
  intros cs. destruct cs as [cs|]; [|apply triple_ret; by intros ? [_ ->]].
  destruct (clients w0 !! id) as [cs'|] eqn:Hc;
    [|by intros w [? _]].
  set (r := try_deliver (out cs) msg).
  eapply (triple_bind _ _ _ (fun _ w => cs = cs' /\ inv_n n P S T D R w /\ is_Some (clients w !! id))).
  { apply triple_modify. intros w [[= ->] ->]. split; [done|]. split.
    - split; [|simpl; by rewrite size_alter]. apply inv_set_out; [|done].
      intros Hid. destruct (i_alive _ _ _ _ _ _ Hi _ Hid) as (cs & Hc' & Ha).
      simplify_eq. destruct (Alive_send _ msg Ha) as [_ Ha'].
      subst r. unfold try_deliver. by destruct (try_send _ _) as [[] c].
    - simpl. rewrite lookup_alter, decide_True, Hc by done. eauto. }
  intros []. destruct r.1 eqn:Hr.
  - eapply triple_pre; [apply stat_ok; by intros ? []|]. by intros w (_ & ? & _).
  - eapply triple_pre; [apply stat_ok; by intros ? []|]. by intros w (_ & ? & _).
  - intros w (-> & Hw & Hs).
    destruct (Hdisc P S T D R id) with w as (a & w' & Heq & Hw'); [|done|].
    2: { exists a, w'. split; [done|]. by eapply inv_n_delete_R. }
    intros Hid.
    destruct (i_alive _ _ _ _ _ _ Hi _ Hid) as (cs & Hc' & Ha). simplify_eq.
    destruct (Alive_send _ msg Ha) as [Hne _].
    subst r. unfold try_deliver in Hr. by destruct (try_send _ _) as [[] c].
Qed.

Lemma deliver_each_ok {A} P S T D R (l : list A) (f : A -> M Worker unit) :
  (forall x, x ∈ l -> triple (inv_n n P S T D R) (f x) (fun _ => inv_n n P S T D R)) ->
  triple (inv_n n P S T D R) (for_each l f) (fun _ => inv_n n P S T D R).
Proof. apply triple_for_each_inv. Qed.

Lemma broadcast_ok P S T D R ch ex msg :
  triple (inv_n n P S T D R) (broadcast_except disc ch ex msg)
    (fun _ => inv_n n P S T D R).
Proof.
  unfold broadcast_except. eapply triple_bind.
  { apply (triple_gets _ _ (fun _ => inv_n n P S T D R)). done. }
  intros targets. apply deliver_each_ok. intros x _.
  case_decide; [by apply triple_ret|apply deliver_ok].
Qed.

Lemma refresh_channels_ok P S T D R :
  triple (inv_n n P S T (mark GChannels D) R) refresh_channel_gauge
    (fun _ => inv_n n P S T D R).
Proof.
  apply triple_modify. intros w [Hi Hn]. split; [|done].
  apply (inv_refresh _ _ _ _ _ _ GChannels); [by intros []|done|exact Hi].
Qed.

Lemma refresh_sessions_ok P S T D R :
  triple (inv_n n P S T (mark GSessions D) R) refresh_session_gauge
    (fun _ => inv_n n P S T D R).
Proof.
  apply triple_modify. intros w [Hi Hn]. split; [|done].
  apply (inv_refresh _ _ _ _ _ _ GSessions); [by intros []|done|exact Hi].
Qed.

Lemma store_clients_ok P S T D R :
  triple (inv_n n P S T (mark GClients D) R) store_client_gauge
    (fun _ => inv_n n P S T D R).
Proof.
  apply triple_modify. intros w [Hi Hn]. split; [|done].
  apply (inv_refresh _ _ _ _ _ _ GClients); [by intros []|done|exact Hi].
Qed.

(** The loop over the members evicted from a closed session. *)
Lemma close_loop_ok P S T D R s (l : list SessionMember) :
  triple (inv_n n P S (T ∪ list_to_set ((fun m => (s, client_id m)) <$> l)) D R)
    (for_each l (fun m =>
      alter_client (client_id m) (set_cs_sessions (fun x => x ∖ {[s]})) ;;
      deliver disc (client_id m) (SSessionClosed s "coordinator_left")))
    (fun _ => inv_n n P S T D R).
Proof.
  eapply triple_conseq;
    [apply (triple_for_each (fun rest => inv_n n P S
       (T ∪ list_to_set ((fun m => (s, client_id m)) <$> rest)) D R))|done|].
  - intros m rest. eapply (triple_bind _ _ _ (fun _ => inv_n n P S
      (T ∪ list_to_set ((fun m => (s, client_id m)) <$> rest)) D R));
      [|intros []; apply deliver_ok].
    apply triple_modify. intros w [Hi Hn]. split; [|simpl; by rewrite size_alter].
    eapply inv_forget_session; [| | |exact Hi]; simpl; set_solver.
  - intros [] w. simpl. by rewrite union_empty_r_L.
Qed.

Lemma inv_drop_S P S T D R w s id :
  member (sessions w) s id = None -> inv P S T D R w ->
  inv P (S ∖ {[(s, id)]}) T D R w.
Proof.
  intros Hno []. split; try done. intros s' id' m Hm.
  destruct (i_smem0 _ _ _ Hm); [left|by right].
  apply elem_of_difference. split; [done|]. rewrite elem_of_singleton.
  intros [= -> ->]. congruence.
Qed.

(** Sessions evicted along with a leaver. *)
Definition closed_pairs (s : string) (o : LeaveOutcome) : gset (string * Z) :=
  if bool_decide (lo_change o = Closed)
  then list_to_set ((fun m => (s, client_id m)) <$> lo_remaining o) else ∅.

Lemma sessions_leave_ok P S T D R s id :
  triple (inv_n n P S T D R) (sessions_leave s id) (fun o w =>
    match o with
    | None => inv_n n P (S ∖ {[(s, id)]}) T D R w
    | Some o => inv_n n P (S ∖ {[(s, id)]}) (T ∪ {[(s, id)]} ∪ closed_pairs s o)
                  (mark GSessions D) R w
    end).
Proof.
  apply triple_update_opt. intros w [Hi Hn].
  destruct (leave_total (sessions w) s id (session_policy w)) as [[o ss] Hl];
    [by destruct Hi|].
  rewrite Hl. exists o, (set_sessions ss w). split; [done|].
  destruct o as [o|].
  - split; [|done]. by apply (inv_sessions_leave _ _ _ _ _ _ _ _ _ _ _ Hl).
  - apply leave_none_state in Hl as [-> Hno].
    replace (set_sessions (sessions w) w) with w by by destruct w.
    split; [|done]. by apply inv_drop_S.
Qed.

Lemma leave_session_ok P S T D R id s :
  triple (inv_n n P S T D R) (leave_session disc id s)
    (fun _ => inv_n n P (S ∖ {[(s, id)]}) T D R).
Proof.
  unfold leave_session. eapply triple_bind; [apply sessions_leave_ok|].
  intros [o|]; [|by apply triple_ret].
  set (S' := S ∖ {[(s, id)]}).
  eapply (triple_bind _ _ _ (fun _ => inv_n n P S' (T ∪ closed_pairs s o)
    (mark GSessions D) R)).
  { apply triple_modify. intros w [Hi Hn]. split; [|simpl; by rewrite size_alter].
    eapply inv_forget_session; [| | |exact Hi]; set_solver. }
  intros []. eapply (triple_bind _ _ _ (fun _ => inv_n n P S' T (mark GSessions D) R));
    [|intros []; apply refresh_sessions_ok].
  unfold closed_pairs. destruct (lo_change o) as [|m|].
  - rewrite bool_decide_eq_false_2, union_empty_r_L by done.
    apply deliver_each_ok. intros x _. apply deliver_ok.
  - rewrite bool_decide_eq_false_2, union_empty_r_L by done.
    apply deliver_each_ok. intros x _.
    eapply triple_bind; [apply deliver_ok|]. intros []. apply deliver_ok.
  - rewrite bool_decide_eq_true_2 by done. apply close_loop_ok.
Qed.
End Disc.

(** The two loops of [on_disconnect], over the channels and sessions left. *)
Section Loops.
Context (n : nat) (disc : Z -> M Worker unit) (Hdisc : disc_ok n disc).

Lemma channels_loop_ok P S T D R id who (l : list string) :
  R !! id = None ->
  triple (inv_n n (P ∪ pairs l id) S T (mark GChannels D) R)
    (for_each l (fun channel =>
      left ← presence_op (fun p => Presence.leave p channel id);
      if left : bool then broadcast_except disc channel id (SLeft channel who)
      else mret tt))
    (fun _ => inv_n n P S T (mark GChannels D) R).
Proof.
  intros HR.
  eapply triple_conseq; [apply (triple_for_each (fun rest =>
    inv_n n (P ∪ pairs rest id) S T (mark GChannels D) R))|done|].
  - intros ch rest.
    eapply (triple_bind _ _ _ (fun _ =>
      inv_n n (P ∪ pairs rest id) S T (mark GChannels D) R)).
    + apply triple_update. intros w [Hi Hn]. split; [|done]. cbn [snd].
      eapply inv_weaken; [eapply (inv_presence_leave _ _ _ _ _ w ch id); [| |exact Hi]
        | |done|done|eauto using client_le_refl].
      * intros cs Hc. destruct (i_evo _ _ _ _ _ _ Hi _ _ Hc) as (? & ? & _).
        congruence.
      * by left.
      * intros [x y]. rewrite elem_of_difference, !elem_of_union, !elem_of_pairs.
        rewrite elem_of_cons, elem_of_singleton. intros [[?|[[->|?] ->]] ?]; auto.
        done.
    + intros left. destruct left; [by apply broadcast_ok|by apply triple_ret].
  - intros [] w. unfold pairs. simpl. by rewrite union_empty_r_L.
Qed.

Lemma sessions_loop_ok P S T D R id (l : list string) :
  triple (inv_n n P (S ∪ pairs l id) T D R)
    (for_each l (fun session => leave_session disc id session))
    (fun _ => inv_n n P S T D R).
Proof.
  eapply triple_conseq; [apply (triple_for_each (fun rest =>
    inv_n n P (S ∪ pairs rest id) T D R))|done|].
  - intros s rest. eapply triple_conseq; [by apply leave_session_ok|done|].
    intros [] w [Hi Hn]. split; [|done].
    eapply inv_weaken; [exact Hi|done| |done|eauto using client_le_refl].
    intros [x y]. rewrite elem_of_difference, !elem_of_union, !elem_of_pairs.
    rewrite elem_of_cons, elem_of_singleton. intros [[?|[[->|?] ->]] ?]; auto. done.
  - intros [] w. unfold pairs. simpl. by rewrite union_empty_r_L.
Qed.
End Loops.

Lemma inv_n_swap n P S T D R x y w :
  inv_n n P S T (mark x (mark y D)) R w -> inv_n n P S T (mark y (mark x D)) R w.
Proof.
  intros [Hi ?]. split; [|done].
  eapply inv_weaken; [exact Hi|done|done| |eauto using client_le_refl].
  intros z [->|[->|?]]; [right; by left|by left|right; by right].
Qed.

Lemma on_disconnect_ok n : disc_ok n (on_disconnect n).
Proof.
  induction n as [|n IH]; intros P S T D R id HK w [[Hi Hn] [cs Hc]].
  { apply Nat.le_0_r, map_size_empty_inv in Hn. by rewrite Hn, lookup_empty in Hc. }
  simpl. unfold mbind at 1, M_bind at 1, update at 1. rewrite Hc.
  cut (triple (inv_n n (P ∪ pairs (helements (subscriptions cs)) id)
        (S ∪ pairs (helements (cs_sessions cs)) id) T
        (mark GClients (mark GChannels D)) (delete id R))
      (for_each (helements (subscriptions cs)) (fun channel =>
         left ← presence_op (fun p => Presence.leave p channel id);
         if left : bool
         then broadcast_except (on_disconnect n) channel id
                (SLeft channel (pr_id (principal cs)))
         else mret tt) ;;
       for_each (helements (cs_sessions cs)) (fun session =>
         leave_session (on_disconnect n) id session) ;;
       stat inc_closed ;; store_client_gauge ;; refresh_channel_gauge)
      (fun _ => inv_n n P S T D (delete id R))).
  { intros Ht. destruct (Ht (set_clients (delete id) w)) as (a & w' & -> & [Hi' Hn']).
    - split; [by apply inv_delete_client|]. simpl.
      rewrite map_size_delete_Some by eauto. lia.
    - exists a, w'. split; [done|]. split; [done|lia]. }
  eapply (triple_bind _ _ _ (fun _ => inv_n n P
    (S ∪ pairs (helements (cs_sessions cs)) id) T
    (mark GClients (mark GChannels D)) (delete id R))).
  { eapply triple_conseq; [apply (channels_loop_ok n (on_disconnect n) IH P
      (S ∪ pairs (helements (cs_sessions cs)) id) T
      (mark GClients D) (delete id R) id)|..].
    - apply lookup_delete_eq.
    - intros w'. apply inv_n_swap.
    - intros [] w'. apply inv_n_swap. }
  intros []. eapply triple_bind; [by apply sessions_loop_ok|].
  intros []. eapply triple_bind; [apply stat_ok; by intros ? []|].
  intros []. eapply triple_bind; [apply store_clients_ok|].
  intros []. apply refresh_channels_ok.
Qed.

(** ** Updates of the commanding client's own record *)

Section Own.
Implicit Types (w : Worker) (id : Z) (P S T : gset (string * Z)).

Lemma inv_set_limiter P S T D R w id l :
  inv P S T D R w ->
  inv P S T D (clients (set_clients (alter (set_limiter l) id) w))
    (set_clients (alter (set_limiter l) id) w).
Proof.
  intros []. split; try done; simpl.
  - intros ch id' who Hv. destruct (i_mem0 _ _ _ Hv) as [|(cs & Hc & ? & ?)];
      [by left|right]. rewrite lookup_alter. case_decide; subst; rewrite Hc; simpl; by eexists.
  - intros ch id' cs. rewrite lookup_alter_Some.
    intros [(<- & cs0 & Hc & ->)|[? Hc]]; simpl; by eauto.
  - intros s id' m Hm. destruct (i_smem0 _ _ _ Hm) as [|(cs & Hc & ? & ?)];
      [by left|right]. rewrite lookup_alter. case_decide; subst; rewrite Hc; simpl; by eexists.
  - intros s id' cs. rewrite lookup_alter_Some.
    intros [(<- & cs0 & Hc & ->)|[? Hc]]; simpl; by eauto.
  - intros x. destruct (i_gauge0 x) as [|Hg]; [by left|right].
    destruct x; try done. simpl in *. by rewrite size_alter.
  - intros id' Hid. destruct (i_alive0 _ Hid) as (cs & Hc & Ha).
    rewrite lookup_alter. case_decide; subst; rewrite Hc; simpl; eexists;
      (split; [done|]); simpl; auto.
  - intros id' cs' Hc. exists cs'. split; [done|by split].
Qed.

Lemma inv_presence_join P S T D R w ch id cs :
  clients w !! id = Some cs -> inv P S T D R w ->
  inv (P ∪ {[(ch, id)]}) S T (mark GChannels D) R
    (set_presence (Presence.join (presence w) ch id (pr_id (principal cs))).2 w).
Proof.
  intros Hcs []. split; try done; cbn [set_presence presence clients sessions stats].
  - by apply presence_join_wf.
  - intros ch' id' who. rewrite join_view. case_decide as Hd.
    + destruct Hd as [-> ->]. intros _. left. set_solver.
    + intros Hv. destruct (i_mem0 _ _ _ Hv); [left; set_solver|by right].
  - intros ch' id' cs' Hc Hin. rewrite join_view. case_decide as Hd; [|by eauto].
    destruct Hd as [-> ->]. by simplify_eq.
  - intros x. destruct (i_gauge0 x); [by left; right|].
    destruct x; [by right|by left; left|by right].
Qed.

(** Change of the listed channels, made to agree with the tracker except in [P']. *)
Lemma inv_set_subscriptions P P' S T D R w id f :
  (forall cs ch, clients w !! id = Some cs -> ch ∈ f (subscriptions cs) ->
     view (presence w) ch id = Some (pr_id (principal cs))) ->
  (forall ch id', (ch, id') ∈ P -> (ch, id') ∈ P' \/
     id' = id /\ exists cs, clients w !! id = Some cs /\ ch ∈ f (subscriptions cs)) ->
  (forall cs ch, clients w !! id = Some cs -> ch ∈ subscriptions cs ->
     (ch, id) ∈ P' \/ ch ∈ f (subscriptions cs)) ->
  inv P S T D R w ->
  inv P' S T D (clients (set_clients (alter (set_subscriptions f) id) w))
    (set_clients (alter (set_subscriptions f) id) w).
Proof.
  intros Hnew HP Hold []. split; try done; simpl.
  - intros ch id' who Hv. destruct (i_mem0 _ _ _ Hv) as [Hin|(cs & Hc & Hs & Hp)].
    + destruct (HP _ _ Hin) as [|(-> & cs & Hc & Hs)]; [by left|right].
      rewrite lookup_alter, decide_True, Hc by done. eexists. split; [done|].
      split; [done|]. specialize (Hnew _ _ Hc Hs). simpl. congruence.
    + destruct (decide (id = id')) as [<-|Hne].
      * destruct (Hold _ _ Hc Hs); [by left|right].
        rewrite lookup_alter, decide_True, Hc by done. by eexists.
      * right. rewrite lookup_alter_ne by done. by eexists.
  - intros ch id' cs. rewrite lookup_alter_Some.
    intros [(<- & cs0 & Hc & ->)|[? Hc]]; simpl; by eauto.
  - intros s id' m Hm. destruct (i_smem0 _ _ _ Hm) as [|(cs & Hc & ? & ?)];
      [by left|right]. rewrite lookup_alter. case_decide; subst; rewrite Hc; simpl; by eexists.
  - intros s id' cs. rewrite lookup_alter_Some.
    intros [(<- & cs0 & Hc & ->)|[? Hc]]; simpl; by eauto.
  - intros x. destruct (i_gauge0 x) as [|Hg]; [by left|right].
    destruct x; try done. simpl in *. by rewrite size_alter.
  - intros id' Hid. destruct (i_alive0 _ Hid) as (cs & Hc & Ha).
    rewrite lookup_alter. case_decide; subst; rewrite Hc; simpl; eexists;
      (split; [done|]); simpl; auto.
  - intros id' cs' Hc. exists cs'. split; [done|by split].
Qed.

(** A client joins a session and lists it. *)
Lemma inv_session_join P S T D R w s id cs :
  clients w !! id = Some cs -> (s, id) ∉ T -> (s, id) ∉ S -> inv P S T D R w ->
  let w1 := set_sessions (Sessions.join (sessions w) s id (pr_id (principal cs))).2 w in
  let w2 := set_clients (alter (set_cs_sessions (fun x => x ∪ {[s]})) id) w1 in
  inv P S T (mark GSessions D) (clients w2) w2.
Proof.
  intros Hcs HT HS []. split; try done; simpl.
  - by apply join_wf.
  - intros ch id' who Hv. destruct (i_mem0 _ _ _ Hv) as [|(cs' & Hc & ? & ?)];
      [by left|right]. rewrite lookup_alter. case_decide; subst; rewrite Hc; simpl; by eexists.
  - intros ch id' cs'. rewrite lookup_alter_Some.
    intros [(<- & cs0 & Hc & ->)|[? Hc]]; simpl; by eauto.
  - intros s' id' m. rewrite join_member. case_decide as Hd.
    + destruct Hd as [-> ->]. intros [= <-]. right.
      rewrite lookup_alter, decide_True, Hcs by done. eexists. split; [done|]. simpl.
      split; [set_solver|]. destruct (member (sessions w) s id) as [m|] eqn:Hm; [|done].
      simpl. destruct (i_smem0 _ _ _ Hm) as [Hin|(cs' & Hc & ? & ?)];
        [by apply HS in Hin|congruence].
    + intros Hm. destruct (i_smem0 _ _ _ Hm) as [|(cs' & Hc & ? & ?)]; [by left|right].
      rewrite lookup_alter. case_decide; subst; rewrite Hc; simpl; eexists;
        split_and!; try done. simpl. set_solver.
  - intros s' id' cs'. rewrite lookup_alter_Some. rewrite join_member.
    intros [(<- & cs0 & Hc & ->)|[? Hc]]; simpl.
    + rewrite elem_of_union, elem_of_singleton. intros [Hin| ->].
      * destruct (i_ssub0 _ _ _ Hc Hin); [by left|right]. case_decide; [eauto|done].
      * right. rewrite decide_True by done. eauto.
    + intros Hin. destruct (i_ssub0 _ _ _ Hc Hin); [by left|right].
      case_decide; [eauto|done].
  - intros s' id' Hin. rewrite join_member. case_decide as Hd; [|by apply i_T0].
    destruct Hd as [-> ->]. done.
  - intros x. destruct (i_gauge0 x) as [|Hg]; [by left; right|].
    destruct x; [right; simpl in *; by rewrite size_alter|by right|by left; left].
  - intros id' Hid. destruct (i_alive0 _ Hid) as (cs' & Hc & Ha).
    rewrite lookup_alter. case_decide; subst; rewrite Hc; simpl; eexists;
      (split; [done|]); simpl; auto.
  - intros id' cs' Hc. exists cs'. split; [done|by split].
Qed.
End Own.

(** ** Command handlers *)

(** No client is new, and everyone except [id] is as in [R0] up to [client_le]. *)
Definition evo_but (id : Z) (R R0 : gmap Z ClientState) : Prop :=
  forall id' cs', R !! id' = Some cs' -> is_Some (R0 !! id') /\
    (id' <> id -> exists cs, R0 !! id' = Some cs /\ client_le cs' cs).

#[global] Instance evo_but_refl id : Reflexive (evo_but id).
Proof. intros R id' cs' Hc. split; [by eexists|]. by exists cs'. Qed.

(** The agreement, with the gauges of [D] still to refresh. *)
Definition ok_but (id : Z) (n : nat) (D : gauge -> Prop) (R0 : gmap Z ClientState)
    (w : Worker) : Prop :=
  exists R, evo_but id R R0 /\ inv_n n ∅ ∅ ∅ D R w.

Section OkBut.
Context (n : nat) (disc : Z -> M Worker unit) (Hdisc : disc_ok n disc).
Context (id : Z) (R0 : gmap Z ClientState).

Lemma evo_but_clients P S T D R w :
  evo_but id R R0 -> inv P S T D R w -> evo_but id (clients w) R0.
Proof.
  intros He Hi id' cs' Hc.
  destruct (i_evo _ _ _ _ _ _ Hi _ _ Hc) as (cs & Hr & Hle).
  destruct (He _ _ Hr) as [? Hrest]. split; [done|]. intros Hne.
  destruct (Hrest Hne) as (cs2 & ? & ?). exists cs2. split; [done|by etrans].
Qed.

Lemma evo_but_alter R f : evo_but id R R0 -> evo_but id (alter f id R) R0.
Proof.
  intros He id' cs' [(<- & cs & Hc & ->)|[? Hc]]%lookup_alter_Some.
  - split; [by eapply He|done].
  - by apply He.
Qed.

(** Lift a step that works for every reference [R]. *)
Lemma ok_but_step {A} D D' (m : M Worker A) :
  (forall R, triple (inv_n n ∅ ∅ ∅ D R) m (fun _ => inv_n n ∅ ∅ ∅ D' R)) ->
  triple (ok_but id n D R0) m (fun _ => ok_but id n D' R0).
Proof.
  intros Hm w (R & He & Hw). destruct (Hm R w Hw) as (a & w' & Heq & Hw').
  exists a, w'. split; [done|]. by exists R.
Qed.

Lemma ok_but_gets {A} D (f : Worker -> A) :
  triple (ok_but id n D R0) (gets f) (fun a w => ok_but id n D R0 w /\ a = f w).
Proof. apply triple_gets. intros w Hw. by split. Qed.

Lemma allow_join_ok now D :
  triple (ok_but id n D R0) (allow_join disc now id) (fun _ => ok_but id n D R0).
Proof.
  unfold allow_join. eapply triple_bind; [apply ok_but_gets|].
  intros [cs|]; [|apply triple_ret; by intros w [? _]].
  eapply (triple_bind _ _ _ (fun _ => ok_but id n D R0)).
  - destruct (join_limiter cs) as [l|]; [|apply triple_ret; by intros w [? _]].
    eapply (triple_bind _ _ _ (fun _ => ok_but id n D R0)); [|intros []; by apply triple_ret].
    apply triple_modify. intros w [(R & He & Hi & Hn) _].
    pose proof (inv_set_limiter _ _ _ _ _ _ id (Some (try_acquire l now).2) Hi) as Hi'.
    eexists. split; [|split; [exact Hi'|simpl; by rewrite size_alter]].
    apply evo_but_alter. by eapply evo_but_clients.
  - intros denied. eapply (triple_bind _ _ _ (fun _ => ok_but id n D R0));
      [|intros []; by apply triple_ret].
    destruct denied; [|by apply triple_ret].
    apply ok_but_step. intros R. by apply deliver_ok.
Qed.

(** Joining a channel: the tracker and the client's list change together. *)
Lemma subscribe_step D ch pid :
  triple (fun w => ok_but id n D R0 w /\
            Some pid = (fun c => pr_id (principal c)) <$> clients w !! id)
    (newly ← presence_op (fun p => Presence.join p ch id pid);
     alter_client id (set_subscriptions (fun s => s ∪ {[ch]})) ;; mret newly)
    (fun _ => ok_but id n (mark GChannels D) R0).
Proof.
  intros w [(R & He & Hi & Hn) Hp].
  destruct (clients w !! id) as [cs|] eqn:Hc; [|done]. injection Hp as ->.
  set (w1 := set_presence (Presence.join (presence w) ch id (pr_id (principal cs))).2 w).
  set (w2 := set_clients (alter (set_subscriptions (fun s => s ∪ {[ch]})) id) w1).
  assert (Hi1 : inv {[(ch, id)]} ∅ ∅ (mark GChannels D) R w1).
  { rewrite <- (union_empty_l_L {[(ch, id)]}). by apply inv_presence_join. }
  assert (Hi2 : inv ∅ ∅ ∅ (mark GChannels D) (clients w2) w2).
  { eapply inv_set_subscriptions; [| | |exact Hi1]; subst w1;
      cbn [set_presence presence clients].
    - intros cs' ch' Hc' [Hin|Hin]%elem_of_union; simplify_eq; rewrite join_view.
      + case_decide as Hd; [done|]. by eapply i_sub.
      + apply elem_of_singleton in Hin as ->. by rewrite decide_True.
    - intros ch' id' [= -> ->]%elem_of_singleton. right. split; [done|].
      exists cs. split; [done|]. set_solver.
    - intros cs' ch' Hc' Hin. right. set_solver. }
  do 2 eexists. split; [reflexivity|]. exists (clients w2).
  split; [|split; [exact Hi2|cbn; by rewrite size_alter]].
  apply evo_but_alter. by eapply evo_but_clients.
Qed.

(** Leaving a channel, likewise. *)
Lemma unsubscribe_step D ch :
  triple (ok_but id n D R0)
    (alter_client id (set_subscriptions (fun s => s ∖ {[ch]})) ;;
     pid ← principal_id_of id;
     left ← presence_op (fun p => Presence.leave p ch id);
     mret (pid, left))
    (fun _ => ok_but id n (mark GChannels D) R0).
Proof.
  intros w (R & He & Hi & Hn).
  set (w1 := set_clients (alter (set_subscriptions (fun s => s ∖ {[ch]})) id) w).
  set (w2 := set_presence (Presence.leave (presence w1) ch id).2 w1).
  assert (Hi1 : inv {[(ch, id)]} ∅ ∅ (mark GChannels D) (clients w1) w1).
  { eapply inv_weaken; [|reflexivity|reflexivity|by intros x Hx; right|by eauto using client_le_refl].
    eapply inv_set_subscriptions; [| | |exact Hi].
    - intros cs ch' Hc [Hin _]%elem_of_difference. by eapply i_sub.
    - intros ch' id'. set_solver.
    - intros cs ch' Hc Hin. destruct (decide (ch' = ch)) as [->|]; [left|right]; set_solver. }
  assert (Hi2 : inv ∅ ∅ ∅ (mark GChannels D) (clients w1) w2).
  { rewrite <- (difference_diag_L {[(ch, id)]}) at 1.
    apply inv_presence_leave; [|by left|exact Hi1].
    intros cs. cbn. rewrite lookup_alter_Some.
    intros [(_ & cs0 & _ & ->)|[? _]]; [cbn; set_solver|done]. }
  do 2 eexists. split; [reflexivity|]. exists (clients w1).
  split; [|split; [exact Hi2|cbn; by rewrite size_alter]].
  apply evo_but_alter. by eapply evo_but_clients.
Qed.

(** Joining a session, likewise. *)
Lemma session_join_step D ses pid :
  triple (fun w => ok_but id n D R0 w /\
            Some pid = (fun c => pr_id (principal c)) <$> clients w !! id)
    (outcome ← sessions_join ses id pid;
     alter_client id (set_cs_sessions (fun s => s ∪ {[ses]})) ;; mret outcome)
    (fun _ => ok_but id n (mark GSessions D) R0).
Proof.
  intros w [(R & He & Hi & Hn) Hp].
  destruct (clients w !! id) as [cs|] eqn:Hc; [|done]. injection Hp as ->.
  pose proof (inv_session_join ∅ ∅ ∅ D R w ses id cs Hc) as Hi1. cbv zeta in Hi1.
  do 2 eexists. split; [reflexivity|]. eexists. split; [|split; [apply Hi1|]].
  - apply evo_but_alter. cbn [set_sessions clients]. exact (evo_but_clients _ _ _ _ _ _ He Hi).
  - set_solver.
  - set_solver.
  - done.
  - cbn. by rewrite size_alter.
Qed.

Lemma deliver_but D msg tgt :
  triple (ok_but id n D R0) (deliver disc tgt msg) (fun _ => ok_but id n D R0).
Proof. apply ok_but_step. intros R. by apply deliver_ok. Qed.

Lemma deliver_each_but {A} D (l : list A) (f : A -> M Worker unit) :
  (forall x, x ∈ l -> f x = mret tt \/ exists tgt msg, f x = deliver disc tgt msg) ->
  triple (ok_but id n D R0) (for_each l f) (fun _ => ok_but id n D R0).
Proof.
  intros Hf. apply triple_for_each_inv. intros x Hx.
  destruct (Hf x Hx) as [->|(tgt & msg & ->)]; [by apply triple_ret|apply deliver_but].
Qed.

Lemma broadcast_but D ch ex msg :
  triple (ok_but id n D R0) (broadcast_except disc ch ex msg) (fun _ => ok_but id n D R0).
Proof. apply ok_but_step. intros R. by apply broadcast_ok. Qed.

Lemma stat_but D f :
  (forall w y, gauge_ok y w -> gauge_ok y (set_stats f w)) ->
  triple (ok_but id n D R0) (stat f) (fun _ => ok_but id n D R0).
Proof. intros Hf. apply ok_but_step. intros R. by apply stat_ok. Qed.

Lemma refresh_channels_but D :
  triple (ok_but id n (mark GChannels D) R0) refresh_channel_gauge
    (fun _ => ok_but id n D R0).
Proof. apply ok_but_step. intros R. apply refresh_channels_ok. Qed.

Lemma refresh_sessions_but D :
  triple (ok_but id n (mark GSessions D) R0) refresh_session_gauge
    (fun _ => ok_but id n D R0).
Proof. apply ok_but_step. intros R. apply refresh_sessions_ok. Qed.

Lemma gets_but {A B} D D' (f : Worker -> A) (k : A -> M Worker B) :
  (forall a, triple (ok_but id n D R0) (k a) (fun _ => ok_but id n D' R0)) ->
  triple (ok_but id n D R0) (a ← gets f; k a) (fun _ => ok_but id n D' R0).
Proof.
  intros Hk. eapply triple_bind; [apply ok_but_gets|].
  intros a. eapply triple_pre; [apply Hk|]. by intros w [? _].
Qed.

Lemma seq_but {A B} D D1 D' (m : M Worker A) (k : A -> M Worker B) :
  triple (ok_but id n D R0) m (fun _ => ok_but id n D1 R0) ->
  (forall a, triple (ok_but id n D1 R0) (k a) (fun _ => ok_but id n D' R0)) ->
  triple (ok_but id n D R0) (m ≫= k) (fun _ => ok_but id n D' R0).
Proof. intros Hm Hk. by eapply triple_bind. Qed.

Local Abbreviation keeps m := (triple (ok_but id n all_fresh R0) m (fun _ => ok_but id n all_fresh R0)).

Lemma on_subscribe_ok now ch : keeps (on_subscribe disc now id ch).
Proof.
  unfold on_subscribe. eapply seq_but; [apply allow_join_ok|]. intros allowed.
  destruct (negb allowed); [by apply triple_ret|].
  eapply triple_bind; [apply ok_but_gets|]. intros [pid|];
    [|apply triple_ret; by intros w [? _]].
  eapply triple_bind_then; [apply subscribe_step|]. intros newly. simpl.
  apply gets_but. intros snap. eapply seq_but; [apply deliver_but|]. intros [].
  eapply seq_but; [|intros []; apply refresh_channels_but].
  destruct newly; [apply broadcast_but|by apply triple_ret].
Qed.

Lemma on_unsubscribe_ok ch : keeps (on_unsubscribe disc id ch).
Proof.
  unfold on_unsubscribe, leave_channel.
  eapply (triple_ext ((alter_client id (set_subscriptions (fun s => s ∖ {[ch]})) ;;
     pid ← principal_id_of id;
     left ← presence_op (fun p => Presence.leave p ch id);
     mret (pid, left)) ≫= fun r =>
     (if r.2 : bool then match r.1 with
       | Some who => broadcast_except disc ch id (SLeft ch who)
       | None => mret tt end else mret tt) ;; refresh_channel_gauge));
    [intros s0; reflexivity|].
  eapply seq_but; [apply unsubscribe_step|]. intros [pid left]. cbn [fst snd].
  eapply seq_but; [|intros []; apply refresh_channels_but].
  destruct left; [|by apply triple_ret].
  destruct pid; [apply broadcast_but|by apply triple_ret].
Qed.

Lemma on_publish_ok ch pl : keeps (on_publish disc id ch pl).
Proof.
  unfold on_publish. eapply seq_but; [apply stat_but; by intros ? []|]. intros [].
  apply gets_but. intros from. apply gets_but. intros targets.
  apply deliver_each_but. intros x _. case_decide; eauto.
Qed.

Lemma on_presence_ok ch : keeps (on_presence disc id ch).
Proof. apply gets_but. intros snap. apply deliver_but. Qed.

Lemma on_session_join_ok now ses : keeps (on_session_join disc now id ses).
Proof.
  unfold on_session_join. eapply seq_but; [apply allow_join_ok|]. intros allowed.
  destruct (negb allowed); [by apply triple_ret|].
  eapply triple_bind; [apply ok_but_gets|]. intros [pid|];
    [|apply triple_ret; by intros w [? _]].
  eapply triple_bind_then; [apply session_join_step|]. intros o. simpl.
  eapply seq_but; [apply deliver_but|]. intros [].
  eapply seq_but; [|intros []; apply refresh_sessions_but].
  apply deliver_each_but. intros m _. case_decide; eauto.
Qed.

Lemma leave_session_but ses : keeps (leave_session disc id ses).
Proof.
  apply ok_but_step. intros R. eapply triple_conseq; [by apply leave_session_ok|done|].
  intros a w. by replace (∅ ∖ {[(ses, id)]} : gset (string * Z)) with (∅ : gset (string * Z)) by set_solver.
Qed.

Lemma on_to_coordinator_ok ses pl : keeps (on_to_coordinator disc id ses pl).
Proof.
  apply gets_but. intros [m|]; [|by apply triple_ret].
  apply gets_but. intros [c|]; [|by apply triple_ret].
  eapply seq_but; [apply stat_but; by intros ? []|]. intros []. apply deliver_but.
Qed.

Lemma on_to_members_ok ses pl : keeps (on_to_members disc id ses pl).
Proof.
  apply gets_but. intros ok. destruct (negb ok); [apply deliver_but|].
  eapply seq_but; [apply stat_but; by intros ? []|]. intros [].
  apply gets_but. intros targets. apply deliver_each_but. eauto.
Qed.
End OkBut.

Lemma inv_connect R w id p c l :
  clients w !! id = None -> inv ∅ ∅ ∅ all_fresh R w ->
  let w' := set_clients (insert id (mkClientState c p ∅ ∅ l)) w in
  inv ∅ ∅ ∅ (mark GClients all_fresh) (clients w') w'.
Proof.
  intros Hnone []. split; try done; cbn [set_clients clients presence sessions].
  - intros ch id' who Hv. destruct (i_mem0 _ _ _ Hv) as [|(cs & Hc & ? & ?)]; [set_solver|].
    right. rewrite lookup_insert_ne by congruence. eauto.
  - intros ch id' cs [[<- <-]|[? Hc]]%lookup_insert_Some; [set_solver|eauto].
  - intros s id' m Hm. destruct (i_smem0 _ _ _ Hm) as [|(cs & Hc & ? & ?)]; [set_solver|].
    right. rewrite lookup_insert_ne by congruence. eauto.
  - intros s id' cs [[<- <-]|[? Hc]]%lookup_insert_Some; [set_solver|eauto].
  - intros x. destruct (i_gauge0 x) as [[]|Hg].
    destruct x; [by left; left|by right..].
  - intros id' Hid. destruct (i_alive0 _ Hid) as (cs & Hc & ?).
    exists cs. by rewrite lookup_insert_ne by congruence.
  - intros id' cs' Hc. by exists cs'.
Qed.

Lemma on_connect_ok n now id p c R w :
  (size (clients w) < n)%nat -> clients w !! id = None ->
  inv ∅ ∅ ∅ all_fresh R w ->
  exists w', on_connect now id p c w = Done (tt, w') /\
    ok_but id n all_fresh (<[id := mkClientState c p ∅ ∅ None]> (clients w)) w'.
Proof.
  intros Hn Hnone Hi. set (R0 := <[id := _]> (clients w)).
  set (l := (fun limit => limiter_new limit now) <$> join_rate w).
  set (w1 := set_clients (insert id (mkClientState c p ∅ ∅ l)) w).
  assert (H1 : ok_but id n (mark GClients all_fresh) R0 w1).
  { exists (clients w1). split; [|split; [by eapply inv_connect|]].
    - intros id' cs'. cbn. subst R0. rewrite !lookup_insert.
      case_decide as Hd; [by subst; eauto|]. intros Hc. split; [done|].
      by exists cs'.
    - cbn. rewrite map_size_insert_None by done. lia. }
  assert (Ht : triple (ok_but id n (mark GClients all_fresh) R0)
    (stat inc_opened ;; store_client_gauge) (fun _ => ok_but id n all_fresh R0)).
  { eapply seq_but; [apply stat_but; by intros ? []|]. intros [].
    apply ok_but_step. intros R'. apply store_clients_ok. }
  destruct (Ht w1 H1)
    as ([] & w' & Heq & Hw'). by exists w'.
Qed.

(** The client a command comes from. *)
Definition cmd_id (cmd : Command chan) : Z :=
  match cmd with
  | Connect id _ _ | Subscribe id _ | Unsubscribe id _ | Publish id _ _
  | Protocol.Presence id _ | SessionJoin id _ | SessionLeave id _
  | ToCoordinator id _ _ | ToMembers id _ _ | Disconnect id => id
  end.

(** A [Connect] carries an id that no client has. *)
Definition cmd_ok (w : Worker) (cmd : Command chan) : Prop :=
  match cmd with Connect id _ _ => clients w !! id = None | _ => True end.

(** The clients, with the one that connects. *)
Definition entered (cmd : Command chan) (w : Worker) : gmap Z ClientState :=
  match cmd with
  | Connect id p c => <[id := mkClientState c p ∅ ∅ None]> (clients w)
  | _ => clients w
  end.

(** Every command, from a well-formed state: the worker neither panics nor runs
    out of fuel, and the state is well formed again. *)
Lemma handle_ok now cmd w :
  hub_wf w -> cmd_ok w cmd -> (forall id, cmd = Disconnect id -> id ∉ K) ->
  exists w', handle now cmd w = Done (tt, w') /\ hub_wf w' /\
    evo_but (cmd_id cmd) (clients w') (entered cmd w) /\
    (forall id, cmd = Disconnect id -> clients w' !! id = None).
Proof.
  intros Hw Hok HK. unfold handle. set (n := S (size (clients w))).
  assert (Hn : inv_n n ∅ ∅ ∅ all_fresh (clients w) w) by (split; [done|lia]).
  assert (Hb : ok_but (cmd_id cmd) n all_fresh (clients w) w).
  { by exists (clients w). }
  pose proof (on_disconnect_ok n) as Hd.
  assert (Hdec : (exists id, cmd = Disconnect id) \/ ~ exists id, cmd = Disconnect id)
    by (destruct cmd; (by left; eexists) || (right; by intros [? ?])).
  destruct Hdec as [[id ->]|Hnd].
  { destruct (clients w !! id) as [cs|] eqn:Hc.
    - destruct (Hd ∅ ∅ ∅ all_fresh (clients w) id (HK id eq_refl) w)
        as ([] & w' & Heq & Hi & _); [by eauto|].
      assert (He : forall id' cs', clients w' !! id' = Some cs' ->
        id' <> id /\ exists cs, clients w !! id' = Some cs /\ client_le cs' cs).
      { intros id' cs' Hc'.
        destruct (i_evo _ _ _ _ _ _ Hi _ _ Hc') as (c & [? ?]%lookup_delete_Some & ?).
        split; [done|]. by exists c. }
      exists w'. split; [done|]. split_and!.
      + by eapply inv_refresh_R.
      + intros id' cs' Hc'. apply He in Hc' as (? & cs1 & Hc1 & ?).
        split; [by eexists|]. by exists cs1.
      + intros ? [= <-]. apply eq_None_not_Some. intros [cs' Hc']. by apply He in Hc' as [? _].
    - exists w. split; [|split_and!; [done|done|congruence]].
      subst n. simpl. unfold mbind, M_bind, update. rewrite Hc.
      replace (set_clients (delete id) w) with w; [done|].
      destruct w. unfold set_clients. simpl in *. by rewrite delete_id. }
  cut (exists w', handle_with (on_disconnect n) now cmd w = Done (tt, w') /\
         ok_but (cmd_id cmd) n all_fresh (entered cmd w) w').
  { intros (w' & Heq & R & He & Hi & _). exists w'. split; [done|].
    split_and!; [by eapply inv_refresh_R|by eapply evo_but_clients|].
    intros id ->. destruct Hnd. by exists id. }
  assert (Hk : forall m, triple (ok_but (cmd_id cmd) n all_fresh (clients w)) m
      (fun _ => ok_but (cmd_id cmd) n all_fresh (clients w)) ->
    exists w', m w = Done (tt, w') /\ ok_but (cmd_id cmd) n all_fresh (clients w) w').
  { intros m Hm. destruct (Hm w Hb) as ([] & w' & ? & ?). by exists w'. }
  destruct cmd; cbn [handle_with cmd_id entered] in *.
  - eapply on_connect_ok; [lia|done|exact Hw].
  - by apply Hk, on_subscribe_ok.
  - by apply Hk, on_unsubscribe_ok.
  - by apply Hk, on_publish_ok.
  - by apply Hk, on_presence_ok.
  - by apply Hk, on_session_join_ok.
  - by apply Hk, leave_session_but.
  - by apply Hk, on_to_coordinator_ok.
  - by apply Hk, on_to_members_ok.
  - destruct Hnd. by exists id.
Qed.
End Inv.
