(* ===== verification/HubWorld.v ===== *)
(** * The hub and its connections as a transition system ([hub.rs])

    [Hub::connect] takes an id from an atomic counter and then sends [Connect];
    handles send further commands through the bounded queue; the worker takes them
    one at a time.  The theorems of this file hold in every reachable state, for
    every interleaving of connections, transports and worker. *)

From S2P Require Import Prelude StateM Presence Sessions Protocol RateLimit Hub HubInv.

Section World.
Context {ho : HashOrder} {mpsc : Mpsc}.

(** Clients, presence tracker and sessions agree, the bookkeeping of each is well
    formed, and the gauges are exact. *)
Record hub_agree (w : Worker) : Prop := {
  ha_presence_wf : presence_wf (presence w);
  ha_sessions_wf : sessions_wf (sessions w);
  ha_channels : forall ch id who, view (presence w) ch id = Some who <->
    exists cs, clients w !! id = Some cs /\ ch ∈ subscriptions cs /\
      pr_id (principal cs) = who;
  ha_sessions : forall s id, is_Some (member (sessions w) s id) <->
    exists cs, clients w !! id = Some cs /\ s ∈ cs_sessions cs;
  ha_names : forall s id m cs, member (sessions w) s id = Some m ->
    clients w !! id = Some cs -> principal_id m = pr_id (principal cs);
  ha_clients_gauge :
    active_clients (stats w) = wrap_u64 (Z.of_nat (size (clients w)));
  ha_channels_gauge :
    active_channels (stats w) = wrap_u64 (Z.of_nat (channel_count (presence w)));
  ha_sessions_gauge :
    active_sessions (stats w) = wrap_u64 (Z.of_nat (count (sessions w)))
}.

Lemma agree_of_wf Alive K w : hub_wf Alive K w -> hub_agree w.
Proof.
  intros []. split; try done.
  - intros ch id who. split.
    + intros Hv. destruct (i_mem _ _ _ Hv); [set_solver|done].
    + intros (cs & Hc & Hs & <-). by apply i_sub.
  - intros s id. split.
    + intros [m Hm]. destruct (i_smem _ _ _ Hm) as [|(cs & ? & ? & _)]; [set_solver|].
      by exists cs.
    + intros (cs & Hc & Hs). destruct (i_ssub _ _ _ Hc Hs); [set_solver|done].
  - intros s id m cs Hm Hc.
    destruct (i_smem _ _ _ Hm) as [|(cs' & ? & ? & ?)]; [set_solver|congruence].
  - by destruct (i_gauge GClients).
  - by destruct (i_gauge GChannels).
  - by destruct (i_gauge GSessions).
Qed.

Lemma wf_of_agree Alive K w :
  (forall id, id ∈ K -> exists cs, clients w !! id = Some cs /\ Alive (out cs)) ->
  hub_agree w -> hub_wf Alive K w.
Proof.
  intros HK []. split; try done.
  - intros ch id who. rewrite ha_channels0. by right.
  - intros ch id cs Hc Hs. apply ha_channels0. by exists cs.
  - intros s id m Hm. right. destruct (ha_sessions0 s id) as [Hl _].
    destruct Hl as (cs & Hc & Hs); [eauto|]. exists cs. split_and!; try done.
    symmetry. by eapply ha_names0.
  - intros s id cs Hc Hs. right. apply ha_sessions0. by exists cs.
  - intros []; by right.
  - intros id cs Hc. by exists cs.
Qed.

Lemma hub_agree_new config : hub_agree (worker_new config).
Proof.
  split; [apply presence_wf_new|apply sessions_wf_new|..|done|done|done]; simpl.
  - intros ch id who. rewrite view_new. setoid_rewrite lookup_empty.
    split; [done|]. by intros (? & ? & _).
  - intros s id. unfold member. simpl. rewrite lookup_empty. setoid_rewrite lookup_empty.
    split; [by intros [? ?]|]. by intros (? & ? & _).
  - intros s id m cs. unfold member. simpl. by rewrite lookup_empty.
Qed.

(** What one command does to the agreement. *)
Lemma handle_agree now cmd w :
  hub_agree w -> cmd_ok w cmd ->
  exists w', handle now cmd w = Done (tt, w') /\ hub_agree w' /\
    evo_but (cmd_id cmd) (clients w') (entered cmd w) /\
    (forall id, cmd = Disconnect id -> clients w' !! id = None).
Proof.
  intros Hw Hok.
  destruct (handle_ok (fun _ => False) (fun _ _ (F : False) => match F with end) ∅ now cmd w) as (w' & ? & ? & ? & ?).
  - apply wf_of_agree; [set_solver|done].
  - done.
  - set_solver.
  - exists w'. split_and!; try done. by eapply agree_of_wf.
Qed.

(** ** The world *)

Record World : Type := mkWorld {
  next_id : Z;
  allocated : gset Z;  (* ids taken by [connect] whose [Connect] is not queued yet *)
  handles : gset Z;    (* ids whose [ClientHandle] exists *)
  queue : list (Command chan);
  worker : Worker
}.

Definition COMMAND_CAPACITY : nat := 1024.

(** [Hub::with_config] *)
Definition hub_with_config (config : HubConfig) : World :=
  mkWorld 1 ∅ ∅ [] (worker_new config).

Definition send_cmd (cmd : Command chan) (w : World) : World :=
  mkWorld (next_id w) (allocated w) (handles w) (queue w ++ [cmd]) (worker w).

(** The two halves of [Hub::connect]: [next_id.fetch_add(1)], then the send, after
    which the caller holds the handle. *)
Definition connect_alloc (w : World) : World :=
  mkWorld (wrap_u64 (next_id w + 1)) (allocated w ∪ {[next_id w]}) (handles w)
    (queue w) (worker w).
Definition connect_send (id : Z) (p : Principal) (c : chan) (w : World) : World :=
  send_cmd (Connect id p c)
    (mkWorld (next_id w) (allocated w ∖ {[id]}) (handles w ∪ {[id]}) (queue w) (worker w)).

Inductive step : World -> World -> Prop :=
  | step_alloc w : step w (connect_alloc w)
  | step_connect w id p c :
      id ∈ allocated w -> (length (queue w) < COMMAND_CAPACITY)%nat ->
      step w (connect_send id p c w)
  | step_dispatch w id msg :
      id ∈ handles w -> (length (queue w) < COMMAND_CAPACITY)%nat ->
      step w (send_cmd (dispatch id msg) w)
  | step_disconnect w id :
      id ∈ handles w -> (length (queue w) < COMMAND_CAPACITY)%nat ->
      step w (send_cmd (disconnect id) w)
  | step_transport w id c :  (* a receiver drains or closes *)
      step w (mkWorld (next_id w) (allocated w) (handles w) (queue w)
                (set_clients (alter (set_out c) id) (worker w)))
  | step_worker w now cmd rest wk :
      queue w = cmd :: rest -> handle now cmd (worker w) = Done (tt, wk) ->
      step w (mkWorld (next_id w) (allocated w) (handles w) rest wk).

(** [k] steps from the fresh hub. *)
Inductive reachable (config : HubConfig) : nat -> World -> Prop :=
  | reach_new : reachable config 0 (hub_with_config config)
  | reach_step k w w' : reachable config k w -> step w w' -> reachable config (S k) w'.

(** Ids of the connections queued. *)
Definition queued_connects (q : list (Command chan)) : list Z :=
  omap (fun c => match c with Connect id _ _ => Some id | _ => None end) q.

(** Ids in use: allocated, queued or connected. *)
Definition ids_in_use (w : World) : list Z :=
  elements (allocated w) ++ queued_connects (queue w) ++ elements (dom (clients (worker w))).

Record world_ok (k : nat) (w : World) : Prop := {
  wo_hub : hub_agree (worker w);
  wo_fresh : NoDup (ids_in_use w);
  wo_below : forall id, id ∈ ids_in_use w -> id < next_id w;
  wo_next : 1 <= next_id w <= 1 + Z.of_nat k
}.

Lemma queued_connects_app q1 q2 :
  queued_connects (q1 ++ q2) = queued_connects q1 ++ queued_connects q2.
Proof. unfold queued_connects. apply omap_app. Qed.

Lemma handle_dom now cmd w w' :
  hub_agree w -> cmd_ok w cmd -> handle now cmd w = Done (tt, w') ->
  forall id, id ∈ dom (clients w') -> id ∈ dom (clients w) \/
    exists p c, cmd = Connect id p c.
Proof.
  intros Hw Hok Heq id Hid. destruct (handle_agree now cmd w Hw Hok)
    as (w2 & Heq2 & _ & He & _). rewrite Heq in Heq2. injection Heq2 as <-.
  apply elem_of_dom in Hid as [cs Hc]. destruct (He _ _ Hc) as [Hs _].
  rewrite elem_of_dom. destruct cmd; try by left.
  cbn [entered] in Hs. apply lookup_insert_is_Some in Hs as [->|[_ ?]]; [right; eauto|by left].
Qed.

Lemma agree_set_out w id c :
  hub_agree w -> hub_agree (set_clients (alter (set_out c) id) w).
Proof.
  intros Hw. eapply (agree_of_wf (fun _ => False) ∅), inv_refresh_R.
  apply inv_set_out; [set_solver|]. apply wf_of_agree; [set_solver|done].
Qed.

Lemma elem_of_queued id q :
  id ∈ queued_connects q <-> exists p c, Connect id p c ∈ q.
Proof.
  unfold queued_connects. rewrite list_elem_of_omap. split.
  - intros (cmd & Hin & Heq). destruct cmd; simplify_eq. eauto.
  - intros (p & c & Hin). eexists. by split.
Qed.

(** Commands other than [Connect] bring no id into use. *)
Lemma ids_in_use_send w cmd :
  (forall id p c, cmd <> Connect id p c) -> ids_in_use (send_cmd cmd w) = ids_in_use w.
Proof.
  intros Hc. unfold ids_in_use. simpl. rewrite queued_connects_app.
  destruct cmd; simpl; rewrite ?app_nil_r; try done. exfalso. by eapply Hc.
Qed.

(** Moving elements of a duplicate-free list to its end. *)
Lemma NoDup_move {A} (a l0 r d d' : list A) :
  NoDup (a ++ (l0 ++ r) ++ d) -> NoDup d' ->
  (forall x, x ∈ d' -> x ∈ l0 \/ x ∈ d) -> NoDup (a ++ r ++ d').
Proof.
  rewrite !NoDup_app. intros (Ha & Hx & (_ & Hl & Hr) & Hy & _) Hd Hsub.
  split_and!; try done.
  - intros x Hin. rewrite elem_of_app. intros [Hxr|Hxd]; (apply (Hx x Hin));
      rewrite !elem_of_app; [tauto|]. destruct (Hsub x Hxd); tauto.
  - intros x Hin Hxd. destruct (Hsub x Hxd) as [Hl0|Hd0].
    + by apply (Hl x Hl0).
    + apply (Hy x); [|done]. rewrite elem_of_app. tauto.
Qed.

Lemma queued_cons cmd rest :
  exists l0, queued_connects (cmd :: rest) = l0 ++ queued_connects rest /\
    forall id, (exists p c, cmd = Connect id p c) -> id ∈ l0.
Proof.
  destruct cmd; simpl;
    try (exists []; split; [done|]; by intros ? (? & ? & [=])).
  eexists [_]. split; [done|]. intros ? (? & ? & [= <- _ _]). left.
Qed.

Lemma world_ok_step k w w' :
  world_ok k w -> Z.of_nat k < u64_max - 1 -> step w w' -> world_ok (S k) w'.
Proof.
  intros [Hh Hf Hb Hn] Hk Hs.
  assert (Hn' : 1 <= next_id w <= 1 + Z.of_nat (S k)) by lia.
  destruct Hs as [w|w id p c Hid _|w id msg _ _|w id _ _|w id c|w now cmd rest wk Hq Hd].
  - split; [done|..]; simpl; rewrite ?wrap_u64_small by (unfold u64_max in *; lia).
    + unfold ids_in_use, connect_alloc. cbn [allocated queue worker].
      rewrite elements_disj_union.
      2: { intros x Hx ->%elem_of_singleton. specialize (Hb (next_id w)).
           assert (next_id w < next_id w); [apply Hb|lia].
           apply elem_of_app. left. by apply elem_of_elements. }
      rewrite elements_singleton, <- app_assoc, (app_assoc _ [_]).
      rewrite (Permutation_app_comm _ [_]), <- app_assoc. simpl.
      apply NoDup_cons. split; [|done]. intros Hin. apply Hb in Hin. lia.
    + intros id. unfold ids_in_use, connect_alloc. cbn [allocated queue worker].
      rewrite elem_of_app, elem_of_elements, elem_of_union, elem_of_singleton.
      intros Hin. cut (id = next_id w \/ id ∈ ids_in_use w).
      { intros [->|Hi%Hb]; lia. }
      unfold ids_in_use. rewrite elem_of_app, elem_of_elements. tauto.
    + lia.
  - assert (Hperm : ids_in_use (connect_send id p c w) ≡ₚ ids_in_use w).
    { unfold ids_in_use, connect_send, send_cmd. cbn [allocated queue worker].
      rewrite queued_connects_app. simpl.
      rewrite (union_difference_L {[id]} (allocated w)) at 2 by set_solver.
      rewrite elements_disj_union by set_solver. rewrite elements_singleton.
      solve_Permutation. }
    split; [done|by rewrite Hperm| |done]. intros x. rewrite Hperm. apply Hb.
  - rewrite <- (ids_in_use_send w (dispatch id msg)) in Hf, Hb by (by destruct msg).
    by split.
  - rewrite <- (ids_in_use_send w (disconnect id)) in Hf, Hb by done. by split.
  - assert (Heq : ids_in_use (mkWorld (next_id w) (allocated w) (handles w) (queue w)
                (set_clients (alter (set_out c) id) (worker w))) = ids_in_use w).
    { unfold ids_in_use. simpl. by rewrite dom_alter_L. }
    split; [by apply agree_set_out|by rewrite Heq|by rewrite Heq|done].
  - assert (Hok : cmd_ok (worker w) cmd).
    { destruct cmd; try done. simpl. apply not_elem_of_dom. intros Hin.
      unfold ids_in_use in Hf. rewrite Hq in Hf. simpl in Hf.
      apply NoDup_app in Hf as (_ & _ & Hf). apply NoDup_cons in Hf as [Hf _].
      apply Hf, elem_of_app. right. by apply elem_of_elements. }
    destruct (handle_agree now cmd (worker w) Hh Hok) as (wk' & Heq & Hag & _).
    rewrite Hd in Heq. injection Heq as <-.
    pose proof (handle_dom now cmd (worker w) wk Hh Hok Hd) as Hdom.
    destruct (queued_cons cmd rest) as (l0 & Hl0 & Hcon).
    assert (Hsub : forall x, x ∈ elements (dom (clients wk)) ->
              x ∈ l0 \/ x ∈ elements (dom (clients (worker w)))).
    { intros x. rewrite !elem_of_elements. intros Hx. destruct (Hdom x Hx); auto. }
    unfold ids_in_use in Hf, Hb. rewrite Hq, Hl0 in Hf, Hb. split; [done|..|done].
    + eapply NoDup_move; [exact Hf|apply NoDup_elements|done].
    + intros x. unfold ids_in_use. simpl. rewrite !elem_of_app. intros Hin. apply Hb.
      rewrite !elem_of_app. destruct Hin as [?|[?|Hx]]; [tauto..|].
      destruct (Hsub x Hx); tauto.
Qed.

Lemma reachable_ok config k w :
  reachable config k w -> Z.of_nat k < u64_max -> world_ok k w.
Proof.
  induction 1 as [|k w w' Hr IH Hs]; intros Hk.
  - split; simpl; [apply hub_agree_new|constructor|set_solver|lia].
  - eapply world_ok_step; [apply IH; lia|lia|done].
Qed.

(** C1: in every state the hub can reach in fewer than 2^64 - 1 steps, whatever the
    interleaving of connections, transports and worker and whichever receivers
    close: the clients' own sets, the presence tracker and the sessions agree, the
    gauges are exact, no connection id is in use twice, and the worker is never
    stuck: whatever command is next, its handler returns (no panic, and the nested
    reapings end). *)
Theorem hub_reachable_safe (config : HubConfig) (k : nat) (w : World) :
  reachable config k w -> Z.of_nat k < u64_max ->
  hub_agree (worker w) /\ NoDup (ids_in_use w) /\
  forall cmd rest now, queue w = cmd :: rest ->
    exists w', step w w' /\ queue w' = rest /\
      handle now cmd (worker w) = Done (tt, worker w').
Proof.
  intros Hr Hk. destruct (reachable_ok config k w Hr Hk) as [Hh Hf Hb Hn].
  split; [done|]. split; [done|]. intros cmd rest now Hq.
  assert (Hok : cmd_ok (worker w) cmd).
  { destruct cmd; try done. simpl. apply not_elem_of_dom. intros Hin.
    unfold ids_in_use in Hf. rewrite Hq in Hf. simpl in Hf.
    apply NoDup_app in Hf as (_ & _ & Hf). apply NoDup_cons in Hf as [Hf _].
    apply Hf, elem_of_app. right. by apply elem_of_elements. }
  destruct (handle_agree now cmd (worker w) Hh Hok) as (wk & Heq & _).
  eexists. split; [by eapply step_worker|done].
Qed.

(** C2: a command affects other clients only as far as it must.  From a state where
    the hub's records agree, it leaves them in agreement, and any other client
    whose receiver stays open is still connected, with the same principal, channels
    and rate limit and no new session, however many closed receivers are reaped on
    the way.  [Alive] is any class of queues that never answer "closed". *)
Theorem live_client_kept (Alive : chan -> Prop) (now : Instant) (cmd : Command chan)
    (w : Worker) (id : Z) (cs : ClientState) :
  (forall c m, Alive c -> (try_send c m).1 <> SendClosed /\ Alive (try_send c m).2) ->
  hub_agree w -> cmd_ok w cmd ->
  clients w !! id = Some cs -> Alive (out cs) -> cmd_id cmd <> id ->
  exists w' cs', handle now cmd w = Done (tt, w') /\ hub_agree w' /\
    clients w' !! id = Some cs' /\ Alive (out cs') /\ client_le cs' cs.
Proof.
  intros Hal Hw Hok Hc Ha Hne.
  assert (HK : forall x, x ∈ ({[id]} : gset Z) ->
    exists cs, clients w !! x = Some cs /\ Alive (out cs)).
  { intros x ->%elem_of_singleton. by exists cs. }
  destruct (handle_ok Alive Hal {[id]} now cmd w) as (w' & Heq & Hw' & He & _).
  - by apply wf_of_agree.
  - done.
  - intros x -> ->%elem_of_singleton. done.
  - destruct (i_alive _ _ _ _ _ _ _ _ Hw' id) as (cs' & Hc' & Ha'); [set_solver|].
    exists w', cs'. split; [done|]. split; [by eapply agree_of_wf|].
    split; [done|]. split; [done|].
    destruct (He id cs' Hc') as [_ Hle]. destruct Hle as (cs0 & Hc0 & Hle); [done|].
    replace cs with cs0; [done|]. destruct cmd; cbn [entered cmd_id] in *; try congruence.
    rewrite lookup_insert_ne in Hc0 by done. congruence.
Qed.

(** once a disconnect is handled the client is gone from everywhere: no record,
    no channel and no session mentions it, and the hub's records still agree. *)
Theorem disconnect_clears (now : Instant) (id : Z) (w : Worker) :
  hub_agree w ->
  exists w', handle now (Disconnect id) w = Done (tt, w') /\ hub_agree w' /\
    clients w' !! id = None /\
    (forall ch, view (presence w') ch id = None) /\
    (forall s, member (sessions w') s id = None).
Proof.
  intros Hw. destruct (handle_agree now (Disconnect id) w Hw) as (w' & Heq & Hw' & _ & Hg);
    [done|].
  specialize (Hg id eq_refl). exists w'. split_and!; try done.
  - intros ch. apply eq_None_not_Some. intros [who Hv].
    apply (ha_channels w' Hw') in Hv as (cs & ? & _). congruence.
  - intros s. apply eq_None_not_Some. intros Hm.
    apply (ha_sessions w' Hw') in Hm as (cs & ? & _). congruence.
Qed.
End World.

(** ** Closed examples, with a bounded queue and the enumeration order *)

Module HubWorldExamples.
#[local] Existing Instance enum_order.
#[local] Existing Instance queue_mpsc.

Definition config0 : HubConfig := mkHubConfig Reelect None.
Definition alice : Principal := principal_new "alice" None.
Definition bob : Principal := principal_new "bob" None.
Definition carol : Principal := principal_new "carol" None.

#[local] Instance cmd_ok_dec w cmd : Decision (cmd_ok w cmd).
Proof. destruct cmd; simpl; apply _. Defined.

(** Run commands, checking that each connection is new. *)
Fixpoint run_checked (cmds : list (Command chan)) (w : Worker) : option Worker :=
  match cmds with
  | [] => Some w
  | c :: rest =>
      if decide (cmd_ok w c) then exec (handle 0 c) w ≫= run_checked rest else None
  end.

Lemma run_checked_agree cmds w w' :
  hub_agree w -> run_checked cmds w = Some w' -> hub_agree w'.
Proof.
  revert w. induction cmds as [|c cmds IH]; intros w Hw Hr.
  - by injection Hr as <-.
  - simpl in Hr. case_decide as Hok; [|done].
    destruct (handle_agree 0 c w Hw Hok) as (w1 & Heq & Hw1 & _).
    unfold exec in Hr. rewrite Heq in Hr. by apply (IH w1).
Qed.

(** Three clients in a channel and a session. *)
Definition cmds0 : list (Command chan) :=
  [Connect 1 alice (open_queue : chan); Connect 2 bob (open_queue : chan);
   Connect 3 carol (open_queue : chan);
   Subscribe 1 "room"; Subscribe 2 "room"; Subscribe 3 "room";
   SessionJoin 1 "s"; SessionJoin 2 "s"; SessionJoin 3 "s"].

Definition hub0 : Worker := default (worker_new config0) (run_checked cmds0 (worker_new config0)).

Lemma hub0_agree : hub_agree hub0.
Proof.
  apply (run_checked_agree cmds0 (worker_new config0)); [apply hub_agree_new|].
  vm_compute. reflexivity.
Qed.

(** The same hub after the socket of client 2 has closed. *)
Definition hub1 : Worker := set_clients (alter (set_out (closed_queue : chan)) 2) hub0.

Lemma hub1_agree : hub_agree hub1.
Proof. apply agree_set_out, hub0_agree. Qed.

Lemma queue_open_stays (c : Queue) m :
  q_open c = true -> (queue_send c m).1 <> SendClosed /\ q_open (queue_send c m).2 = true.
Proof.
  intros Ho. unfold queue_send. rewrite Ho. simpl. by destruct (_ <? _)%nat.
Qed.

Definition frames (w : Worker) (id : Z) : list ServerMsg :=
  match clients w !! id with Some cs => q_frames (out cs) | None => [] end.

Definition world2 : World :=
  connect_send 1 alice (open_queue : chan) (connect_alloc (hub_with_config config0)).

Lemma hub_reachable_safe_witness : hub_agree (worker world2) /\ NoDup (ids_in_use world2).
Proof.
  assert (Hr : reachable config0 2 world2).
  { eapply reach_step; [eapply reach_step; [apply reach_new|apply step_alloc]|].
    apply step_connect; [vm_compute; reflexivity|vm_compute; lia]. }
  destruct (hub_reachable_safe config0 2 world2 Hr) as (H1 & H2 & _).
  - vm_compute. reflexivity.
  - exact (conj H1 H2).
Defined.

Lemma live_client_kept_witness :
  exists w' cs', handle 7 (Publish 1 "room" "{}") hub1 = Done (tt, w') /\
    clients w' !! 3 = Some cs' /\ clients w' !! 2 = None.
Proof.
  destruct (clients hub1 !! 3) as [cs|] eqn:Hc.
  2: { vm_compute in Hc. discriminate Hc. }
  destruct (@live_client_kept enum_order queue_mpsc (fun c : Queue => q_open c = true) 7
    (Publish 1 "room" "{}") hub1 3 cs) as (w' & cs' & Heq & _ & Hc' & _).
  - exact queue_open_stays.
  - exact hub1_agree.
  - exact I.
  - exact Hc.
  - vm_compute in Hc. injection Hc as <-. reflexivity.
  - discriminate.
  - exists w', cs'. split; [exact Heq|]. split; [exact Hc'|].
    vm_compute in Heq. injection Heq as <-. vm_compute. reflexivity.
Defined.

Lemma disconnect_clears_witness :
  exists w', handle 7 (Disconnect 1) hub0 = Done (tt, w') /\ clients w' !! 1 = None.
Proof.
  destruct (disconnect_clears 7 1 hub0 hub0_agree) as (w' & Heq & _ & Hn & _).
  exists w'. exact (conj Heq Hn).
Defined.

(** The last coordinator a client was told of. *)
Definition last_coordinator (fs : list ServerMsg) : option string :=
  head (reverse (omap (fun m =>
    match m with SCoordinatorChanged _ _ id => Some id | _ => None end) fs)).

(** Re-election and reaping interleave badly.  Client 2's socket has closed unnoticed
    when the coordinator, client 1, leaves: the loop over the remaining members
    first reaps 2, which announces the next coordinator (client 3), and then goes on
    announcing the first successor.  Client 3 ends up told that bob coordinates,
    although bob is gone and 3 itself is the coordinator. *)
Theorem stale_coordinator_announced :
  hub_agree hub1 /\
  exists w', handle 8 (SessionLeave 1 "s") hub1 = Done (tt, w') /\ hub_agree w' /\
    coordinator_of (sessions w') "s" = Some 3 /\
    clients w' !! 2 = None /\
    last_coordinator (frames w' 3) = Some "bob"%string.
Proof.
  split; [exact hub1_agree|].
  destruct (handle_agree 8 (SessionLeave 1 "s") hub1 hub1_agree I) as (w' & Heq & Hw' & _).
  exists w'. split; [done|]. split; [done|].
  vm_compute in Heq. injection Heq as <-. vm_compute. done.
Qed.
End HubWorldExamples.
