(* ===== verification/HubSpec.v ===== *)
(** * Exact effects of the hub's handlers

    What each relaying command delivers, and to whom, when no receiver involved has
    closed: every addressee gets exactly one frame and nobody else gets any. *)

From S2P Require Import Prelude StateM Presence Sessions Protocol RateLimit Hub HubInv HubWorld.

Section Spec.
Context {ho : HashOrder} {mpsc : Mpsc}.

(** The frame [msg] as received by one client. *)
Definition receive (msg : ServerMsg) (cs : ClientState) : ClientState :=
  set_out (try_send (out cs) msg).2 cs.

(** The counter a delivery bumps. *)
Definition account (r : TrySend) (s : Stats) : Stats :=
  match r with SendOk => inc_delivered s | SendFull => inc_dropped s | SendClosed => s end.

Definition push (msg : ServerMsg) (w : Worker) (id : Z) : Worker :=
  match clients w !! id with
  | None => w
  | Some cs =>
      set_stats (account (try_send (out cs) msg).1)
        (set_clients (alter (receive msg) id) w)
  end.

(** The client's receiver accepts or sheds [msg], if the client exists. *)
Definition not_closed (w : Worker) (msg : ServerMsg) (id : Z) : Prop :=
  forall cs, clients w !! id = Some cs -> (try_send (out cs) msg).1 <> SendClosed.

Lemma deliver_push disc id msg w :
  not_closed w msg id -> deliver disc id msg w = Done (tt, push msg w id).
Proof.
  intros Hn. unfold deliver, get_client, gets, mbind, M_bind, push.
  destruct (clients w !! id) as [cs|] eqn:Hc; [|done].
  specialize (Hn cs Hc). unfold try_deliver.
  assert (Hal : alter (set_out (try_send (out cs) msg).2) id (clients w) =
    alter (receive msg) id (clients w)).
  { apply alter_ext. intros x Hx. unfold receive. by simplify_eq. }
  destruct (try_send (out cs) msg) as [[] c]; [..|done]; simpl in *;
    unfold alter_client, stat, modify, set_clients; simpl; by rewrite Hal.
Qed.

Lemma push_presence msg w id : presence (push msg w id) = presence w.
Proof. unfold push. by destruct (_ !! _). Qed.
Lemma push_sessions msg w id : sessions (push msg w id) = sessions w.
Proof. unfold push. by destruct (_ !! _). Qed.
Lemma push_clients msg w id : clients (push msg w id) = alter (receive msg) id (clients w).
Proof.
  unfold push. destruct (clients w !! id) eqn:Hc; [done|].
  apply map_eq. intros j. rewrite lookup_alter. case_decide; subst; by rewrite ?Hc.
Qed.

(** One frame to each client of a list. *)
Definition push_all (msg : ServerMsg) (l : list Z) (w : Worker) : Worker :=
  foldl (push msg) w l.

Lemma push_all_presence msg l w : presence (push_all msg l w) = presence w.
Proof.
  unfold push_all. revert w. induction l as [|x l IH]; intros w; [done|]. simpl.
  by rewrite IH, push_presence.
Qed.
Lemma push_all_sessions msg l w : sessions (push_all msg l w) = sessions w.
Proof.
  unfold push_all. revert w. induction l as [|x l IH]; intros w; [done|]. simpl.
  by rewrite IH, push_sessions.
Qed.

(** Every client of a duplicate-free list receives once, the others not at all. *)
Lemma push_all_lookup msg l w id :
  NoDup l -> clients (push_all msg l w) !! id =
    if decide (id ∈ l) then receive msg <$> clients w !! id else clients w !! id.
Proof.
  unfold push_all. revert w. induction l as [|x l IH]; intros w Hnd; cbn [foldl].
  - done.
  - apply NoDup_cons in Hnd as [Hx Hnd]. rewrite IH, push_clients by done.
    rewrite lookup_alter.
    destruct (decide (id ∈ l)), (decide (x = id)), (decide (id ∈ x :: l)); subst;
      try done; set_solver.
Qed.

Lemma not_closed_push msg msg' x w id :
  id <> x -> not_closed w msg id -> not_closed (push msg' w x) msg id.
Proof.
  intros Hne Hn cs. rewrite push_clients, lookup_alter_ne by done. apply Hn.
Qed.

(** A loop of deliveries, skipping some elements. *)
Lemma for_each_push {A} disc msg (f : A -> Z) (skip : A -> Prop)
    `{forall x, Decision (skip x)} (l : list A) w :
  NoDup (f <$> filter (fun x => ~ skip x) l) ->
  (forall id, id ∈ f <$> filter (fun x => ~ skip x) l -> not_closed w msg id) ->
  for_each l (fun x => if decide (skip x) then mret tt else deliver disc (f x) msg) w =
    Done (tt, push_all msg (f <$> filter (fun x => ~ skip x) l) w).
Proof.
  revert w. induction l as [|x l IH]; intros w; [done|]. rewrite filter_cons.
  destruct (decide (skip x)) as [Hs|Hs].
  - rewrite decide_False by tauto. intros Hnd Hnc.
    rewrite (for_each_step _ _ _ _ w) by (by rewrite decide_True). by apply IH.
  - rewrite decide_True by tauto. rewrite fmap_cons. intros Hnd Hnc.
    apply NoDup_cons in Hnd as [Hx Hnd].
    rewrite (for_each_step _ _ _ _ (push msg w (f x))).
    2: { rewrite decide_False by done. apply deliver_push, Hnc. left. }
    rewrite IH; [done|done|]. intros id Hid.
    apply not_closed_push; [|apply Hnc; by right]. by intros ->.
Qed.

(** How a client's queue would answer. *)
Definition answer (msg : ServerMsg) (w : Worker) (id : Z) : option TrySend :=
  (fun cs => (try_send (out cs) msg).1) <$> clients w !! id.

Definition answers (r : TrySend) (msg : ServerMsg) (w : Worker) (l : list Z) : Z :=
  Z.of_nat (length (filter (fun id => answer msg w id = Some r) l)).

Lemma answer_push msg w x id : id <> x -> answer msg (push msg w x) id = answer msg w id.
Proof. intros Hne. unfold answer. by rewrite push_clients, lookup_alter_ne. Qed.

Lemma answers_push r msg w x l : x ∉ l -> answers r msg (push msg w x) l = answers r msg w l.
Proof.
  intros Hx. unfold answers. do 2 f_equal. induction l as [|y l IH]; [done|].
  apply not_elem_of_cons in Hx as [Hne Hx]. rewrite !filter_cons, IH by done.
  by rewrite answer_push.
Qed.

Lemma push_stats msg w x :
  messages_published (stats (push msg w x)) = messages_published (stats w) /\
  wrap_u64 (messages_delivered (stats (push msg w x))) = wrap_u64
    (messages_delivered (stats w) + if decide (answer msg w x = Some SendOk) then 1 else 0) /\
  wrap_u64 (dropped_frames (stats (push msg w x))) = wrap_u64
    (dropped_frames (stats w) + if decide (answer msg w x = Some SendFull) then 1 else 0).
Proof.
  unfold push, answer, wrap_u64. destruct (clients w !! x) as [cs|]; cbn [fmap option_fmap option_map].
  2: { do 2 (rewrite decide_False by done). by rewrite !Z.add_0_r. }
  destruct (try_send (out cs) msg) as [[] c]; cbn [fst account set_stats stats];
    repeat case_decide; simplify_eq;
    unfold inc_delivered, inc_dropped, wrap_u64;
    cbn [messages_published messages_delivered dropped_frames];
    rewrite ?Z.add_0_r, ?Z.mod_mod by lia; done.
Qed.

(** Each delivery is counted once, as sent or as shed. *)
Lemma push_all_stats msg l w :
  NoDup l ->
  messages_published (stats (push_all msg l w)) = messages_published (stats w) /\
  wrap_u64 (messages_delivered (stats (push_all msg l w))) =
    wrap_u64 (messages_delivered (stats w) + answers SendOk msg w l) /\
  wrap_u64 (dropped_frames (stats (push_all msg l w))) =
    wrap_u64 (dropped_frames (stats w) + answers SendFull msg w l).
Proof.
  unfold push_all. revert w.
  induction l as [|x l IH]; intros w Hnd; cbn [foldl].
  { unfold answers. simpl. by rewrite !Z.add_0_r. }
  apply NoDup_cons in Hnd as [Hx Hnd].
  destruct (IH (push msg w x) Hnd) as (Hp & Hd & Hs).
  destruct (push_stats msg w x) as (Hp1 & Hd1 & Hs1).
  rewrite Hp, Hp1, Hd, Hs, !answers_push by done. split; [done|].
  assert (Hplus : forall a b c, wrap_u64 a = wrap_u64 b ->
    wrap_u64 (a + c) = wrap_u64 (b + c)).
  { unfold wrap_u64. intros a b c Hab. by rewrite Zplus_mod, Hab, <- Zplus_mod. }
  rewrite (Hplus _ _ _ Hd1), (Hplus _ _ _ Hs1).
  unfold answers. rewrite !filter_cons.
  split; f_equal; repeat case_decide; try done; rewrite ?length_cons; lia.
Qed.

(** With nobody closed, every addressed client is counted sent or shed. *)
Lemma answers_total msg w l :
  (forall x, x ∈ l -> is_Some (clients w !! x) /\ not_closed w msg x) ->
  answers SendOk msg w l + answers SendFull msg w l = Z.of_nat (length l).
Proof.
  unfold answers. induction l as [|x l IH]; intros Hl; [done|].
  destruct (Hl x) as [[cs Hc] Hn]; [left|]. specialize (Hn cs Hc).
  assert (IH' := IH ltac:(intros y Hy; apply Hl; by right)).
  rewrite !filter_cons. unfold answer in *. rewrite Hc. simpl.
  destruct (try_send (out cs) msg) as [[] c]; simpl in *; try done;
    repeat case_decide; simplify_eq; rewrite ?length_cons in *; lia.
Qed.

(** The clients a broadcast on [ch] addresses. *)
Definition audience (w : Worker) (ch : string) (except : Z) : list Z :=
  filter (fun x => x <> except) (subscribers (presence w) ch).

Lemma elem_of_audience w ch ex x :
  hub_agree w -> x ∈ audience w ch ex <->
    x <> ex /\ exists cs, clients w !! x = Some cs /\ ch ∈ subscriptions cs.
Proof.
  intros Hw. unfold audience. rewrite list_elem_of_filter, elem_of_subscribers.
  unfold is_Some. setoid_rewrite (ha_channels w Hw). naive_solver.
Qed.

Lemma NoDup_audience w ch ex : NoDup (audience w ch ex).
Proof. apply NoDup_filter, NoDup_subscribers. Qed.

(** A loop over the subscribers that skips one of them. *)
Lemma skip_loop disc msg ex ch w w0 :
  (forall id, id ∈ audience w0 ch ex -> not_closed w msg id) ->
  for_each (subscribers (presence w0) ch) (fun target =>
    if decide (target = ex) then mret tt else deliver disc target msg) w =
  Done (tt, push_all msg (audience w0 ch ex) w).
Proof.
  intros Hn. pose proof (for_each_push disc msg (fun x => x) (fun x => x = ex)
    (subscribers (presence w0) ch) w) as Hl.
  rewrite list_fmap_id in Hl. apply Hl; [apply NoDup_audience|done].
Qed.

(** a publish reaches exactly the other subscribers of the channel, each with
    one copy of the frame (no self-echo, nobody outside the channel), whoever the
    publisher is; memberships and sessions do not change; the message is counted
    once as published, and every copy once, as delivered or as shed. *)
Theorem publish_fanout (now : Instant) (id : Z) (ch : string) (pl : Payload) (w : Worker) :
  hub_agree w ->
  let msg := SMessage ch ((fun cs => pr_id (principal cs)) <$> clients w !! id) pl in
  (forall x cs, x <> id -> clients w !! x = Some cs -> ch ∈ subscriptions cs ->
     (try_send (out cs) msg).1 <> SendClosed) ->
  exists w', handle now (Publish id ch pl) w = Done (tt, w') /\
    presence w' = presence w /\ sessions w' = sessions w /\
    (forall x, clients w' !! x =
      (fun cs => if decide (x <> id /\ ch ∈ subscriptions cs)
                 then receive msg cs else cs) <$> clients w !! x) /\
    messages_published (stats w') = wrap_u64 (messages_published (stats w) + 1) /\
    exists delivered shed, delivered + shed = Z.of_nat (length (audience w ch id)) /\
      wrap_u64 (messages_delivered (stats w')) =
        wrap_u64 (messages_delivered (stats w) + delivered) /\
      wrap_u64 (dropped_frames (stats w')) =
        wrap_u64 (dropped_frames (stats w) + shed).
Proof.
  intros Hw msg Hn. set (w1 := set_stats inc_published w).
  assert (Hn' : forall x, x ∈ audience w ch id -> not_closed w1 msg x).
  { intros x Hx cs Hc. apply (elem_of_audience w ch id x Hw) in Hx as (Hne & cs' & Hc' & Hs).
    cbn in Hc. simplify_eq. by eapply Hn. }
  exists (push_all msg (audience w ch id) w1). split.
  { exact (skip_loop (on_disconnect (S (size (clients w)))) msg id ch w1 w Hn'). }
  rewrite push_all_presence, push_all_sessions. split; [done|]. split; [done|].
  split; [|destruct (push_all_stats msg (audience w ch id) w1) as (Hp & Hd & Hs);
            [apply NoDup_audience|split; [done|]]].
  - intros x. rewrite push_all_lookup by apply NoDup_audience. cbn [clients set_stats w1].
    pose proof (elem_of_audience w ch id x Hw) as Ha.
    destruct (clients w !! x) as [cs|] eqn:Hc; simpl; [|by case_decide].
    f_equal. destruct (decide (x ∈ audience w ch id)) as [Hin|Hin]; case_decide as Hd; try done.
    + destruct Hd. apply Ha in Hin as (? & cs' & ? & ?). split; [done|congruence].
    + destruct Hin. apply Ha. split; [by apply Hd|]. exists cs. by destruct Hd.
  - exists (answers SendOk msg w1 (audience w ch id)), (answers SendFull msg w1 (audience w ch id)).
    split; [|done]. apply answers_total. intros x Hx. split; [|by apply Hn'].
    apply (elem_of_audience w ch id x Hw) in Hx as (_ & cs & Hc & _). by exists cs.
Qed.

(** ** Joins and their throttle *)

(** Whether the client's bucket grants a join at [now], and the bucket after it. *)
Definition admits (now : Instant) (cs : ClientState) : bool :=
  match join_limiter cs with Some l => (try_acquire l now).1 | None => true end.
Definition charge (now : Instant) (cs : ClientState) : ClientState :=
  match join_limiter cs with
  | Some l => set_limiter (Some (try_acquire l now).2) cs
  | None => cs
  end.
Definition charged (now : Instant) (id : Z) (w : Worker) : Worker :=
  set_clients (alter (charge now) id) w.

Lemma charge_out now cs : out (charge now cs) = out cs.
Proof. unfold charge. by destruct (join_limiter cs). Qed.

Lemma allow_join_spec disc now id w cs :
  clients w !! id = Some cs ->
  (admits now cs = false ->
     (try_send (out cs) (SError "join rate limit exceeded")).1 <> SendClosed) ->
  allow_join disc now id w = Done (admits now cs,
    if admits now cs then charged now id w
    else push (SError "join rate limit exceeded") (charged now id w) id).
Proof.
  intros Hc Hn. unfold allow_join. rewrite (bind_done _ _ w w (Some cs)) by (by rewrite <- Hc).
  assert (Hsame : join_limiter cs = None -> charged now id w = w).
  { intros Hl. unfold charged, set_clients. destruct w as [cl pr se po jr st]. simpl in *.
    f_equal. apply map_eq. intros j. rewrite lookup_alter. case_decide; [subst|done].
    rewrite Hc. simpl. unfold charge. by rewrite Hl. }
  assert (Hset : forall l, join_limiter cs = Some l ->
    set_clients (alter (set_limiter (Some (try_acquire l now).2)) id) w = charged now id w).
  { intros l Hl. unfold charged, set_clients. f_equal. apply alter_ext.
    intros x Hx. unfold charge. simplify_eq. by rewrite Hl. }
  unfold admits in *. destruct (join_limiter cs) as [l|] eqn:Hl.
  - assert (Hd : (alter_client id (set_limiter (Some (try_acquire l now).2)) ;;
        mret (negb (try_acquire l now).1)) w =
      Done (negb (try_acquire l now).1, charged now id w)).
    { unfold mbind, M_bind, alter_client, modify. cbn. by rewrite Hset. }
    cbv zeta. rewrite (bind_done _ _ _ _ _ Hd).
    destruct (try_acquire l now).1 eqn:Hadm; cbn [negb]; [done|].
    rewrite (bind_done _ _ _ (push (SError "join rate limit exceeded") (charged now id w) id) tt);
      [done|].
    apply deliver_push. intros cs' Hc'. unfold charged in Hc'. cbn in Hc'.
    rewrite lookup_alter, decide_True, Hc in Hc' by done.
    injection Hc' as <-. rewrite charge_out. by apply Hn.
  - by rewrite Hsame.
Qed.

(** over the rate, a join is refused whole: a throttled subscribe or session
    join changes no membership and no other client; the client itself is told so by
    one error frame and only its bucket moves. *)
Theorem join_throttled (now : Instant) (id : Z) (w : Worker) (cs : ClientState)
    (cmd : Command chan) (name : string) :
  let msg := SError "join rate limit exceeded" in
  cmd = Subscribe id name \/ cmd = SessionJoin id name ->
  clients w !! id = Some cs -> admits now cs = false ->
  (try_send (out cs) msg).1 <> SendClosed ->
  exists w', handle now cmd w = Done (tt, w') /\
    presence w' = presence w /\ sessions w' = sessions w /\
    clients w' = <[id := receive msg (charge now cs)]> (clients w).
Proof.
  intros msg Hcmd Hc Ha Hn.
  pose proof (allow_join_spec (on_disconnect (S (size (clients w)))) now id w cs Hc
    (fun _ => Hn)) as Haj. rewrite Ha in Haj.
  set (w1 := push msg (charged now id w) id) in *.
  assert (Hh : handle now cmd w = Done (tt, w1)).
  { destruct Hcmd as [-> | ->]; unfold handle, handle_with, on_subscribe, on_session_join;
      by rewrite (bind_done _ _ _ _ _ Haj). }
  exists w1. split; [exact Hh|]. subst w1. rewrite push_presence, push_sessions.
  split; [done|]. split; [done|]. rewrite push_clients. unfold charged. cbn [clients set_clients].
  apply map_eq. intros j. rewrite !lookup_alter, lookup_insert.
  destruct (decide (id = j)) as [<-|]; [|done]. by rewrite Hc, decide_True.
Qed.

(** The worker right after a granted subscription, before any frame is sent. *)
Definition subscribed (now : Instant) (id : Z) (ch who : string) (w : Worker) : Worker :=
  set_clients (alter (set_subscriptions (fun s => s ∪ {[ch]})) id)
    (set_presence (Presence.join (presence w) ch id who).2 (charged now id w)).

Lemma subscribed_lookup now id ch who w x :
  clients (subscribed now id ch who w) !! x =
    if decide (x = id)
    then (fun cs => set_subscriptions (fun s => s ∪ {[ch]}) (charge now cs)) <$> clients w !! id
    else clients w !! x.
Proof.
  unfold subscribed, charged. cbn [clients set_clients set_presence].
  rewrite !lookup_alter. destruct (decide (x = id)) as [->|Hne].
  - rewrite !decide_True by done. by destruct (clients w !! id).
  - by rewrite !decide_False by done.
Qed.

Lemma subscribed_audience now id ch who w x :
  hub_agree w -> x ∈ audience (subscribed now id ch who w) ch id <->
    x <> id /\ exists cs, clients w !! x = Some cs /\ ch ∈ subscriptions cs.
Proof.
  intros Hw. rewrite <- (elem_of_audience w ch id x Hw). unfold audience.
  rewrite !list_elem_of_filter, !elem_of_subscribers. unfold subscribed.
  cbn [presence set_clients set_presence charged]. rewrite join_view.
  split; intros [Hne Hv]; (split; [done|]).
  - by rewrite decide_False in Hv by naive_solver.
  - by rewrite decide_False by naive_solver.
Qed.

(** The frames of a granted subscription: the snapshot, then the news of a new member. *)
Definition subscribe_sent (now : Instant) (id : Z) (ch who : string) (w : Worker) : Worker :=
  let w3 := subscribed now id ch who w in
  let w4 := push (SPresence ch (snapshot (presence w3) ch)) w3 id in
  if (Presence.join (presence w) ch id who).1
  then push_all (SJoined ch who) (audience w3 ch id) w4 else w4.

Section Subscribe.
Context (now : Instant) (id : Z) (ch : string) (w : Worker) (cs : ClientState).
Hypothesis Hw : hub_agree w.
Hypothesis Hc : clients w !! id = Some cs.
Hypothesis Ha : admits now cs = true.
Let who := pr_id (principal cs).
Let p' := (Presence.join (presence w) ch id who).2.
Let snap := SPresence ch (snapshot p' ch).
Hypothesis Hn : (try_send (out cs) snap).1 <> SendClosed.
Hypothesis Hn' : forall x cx, x <> id -> clients w !! x = Some cx ->
  ch ∈ subscriptions cx -> (try_send (out cx) (SJoined ch who)).1 <> SendClosed.
Let w3 := subscribed now id ch who w.

Lemma subscribed_self :
  clients w3 !! id = Some (set_subscriptions (fun s => s ∪ {[ch]}) (charge now cs)).
Proof. subst w3. by rewrite subscribed_lookup, decide_True, Hc by done. Qed.

Lemma subscribed_other x : x <> id -> clients w3 !! x = clients w !! x.
Proof. intros Hx. subst w3. by rewrite subscribed_lookup, decide_False by done. Qed.

Lemma subscribe_run disc :
  let w5 := subscribe_sent now id ch who w in
  on_subscribe disc now id ch w = Done (tt, set_stats
    (store_channels (wrap_u64 (Z.of_nat (channel_count (presence w5))))) w5).
Proof.
  intros w5. unfold on_subscribe.
  pose proof (allow_join_spec disc now id w cs Hc) as Haj. rewrite Ha in Haj.
  rewrite (bind_done _ _ _ _ _ (Haj ltac:(done))). cbn [negb].
  rewrite (bind_done _ _ _ (charged now id w) (Some who)).
  2: { unfold principal_id_of, gets, charged. cbn.
       rewrite lookup_alter, decide_True, Hc by done.
       simpl. unfold charge. by destruct (join_limiter cs). }
  set (newly := (Presence.join (presence w) ch id who).1).
  set (w4 := push snap w3 id).
  rewrite (bind_done _ _ _ (set_presence p' (charged now id w)) newly) by done.
  rewrite (bind_done _ _ _ w3 tt) by done.
  rewrite (bind_done _ _ _ w3 (snapshot p' ch)) by done.
  rewrite (bind_done _ _ _ w4 tt).
  2: { apply deliver_push. intros cx Hcx. rewrite subscribed_self in Hcx.
       injection Hcx as <-. cbn. by rewrite charge_out. }
  rewrite (bind_done _ _ _ w5 tt); [done|]. subst w5. unfold subscribe_sent.
  fold newly w3. destruct newly; [|done].
  unfold broadcast_except. rewrite (bind_done _ _ w4 w4 (subscribers p' ch)).
  2: { unfold gets, w4. by rewrite push_presence. }
  apply (skip_loop disc (SJoined ch who) id ch w4 w3). intros x Hx cx Hcx.
  apply (subscribed_audience now id ch who w x Hw) in Hx as (Hne & cy & Hcy & Hs).
  subst w4. rewrite push_clients, lookup_alter_ne, subscribed_other in Hcx by done.
  simplify_eq. by eapply Hn'.
Qed.

Lemma subscribe_newly :
  (Presence.join (presence w) ch id who).1 = bool_decide (ch ∉ subscriptions cs).
Proof.
  rewrite join_fst. apply bool_decide_ext.
  rewrite eq_None_not_Some. unfold is_Some. setoid_rewrite (ha_channels w Hw).
  split; [intros Hx Hin; apply Hx; eauto|]. intros Hx (? & cy & Hcy & Hin & _).
  by simplify_eq.
Qed.

Lemma subscribe_sent_self :
  clients (subscribe_sent now id ch who w) !! id = Some (receive snap
    (set_subscriptions (fun s => s ∪ {[ch]}) (charge now cs))).
Proof.
  unfold subscribe_sent. fold w3. cbv zeta.
  assert (H4 : clients (push snap w3 id) !! id = Some (receive snap
    (set_subscriptions (fun s => s ∪ {[ch]}) (charge now cs)))).
  { rewrite push_clients, lookup_alter_eq. by rewrite subscribed_self. }
  destruct (Presence.join _ _ _ _).1; [|exact H4].
  rewrite push_all_lookup, decide_False; [exact H4| |apply NoDup_audience].
  intros Hin. apply (subscribed_audience now id ch who w id Hw) in Hin. tauto.
Qed.

Lemma subscribe_sent_other x :
  x <> id -> clients (subscribe_sent now id ch who w) !! x =
    (fun cx => if decide ((ch ∉ subscriptions cs) /\ ch ∈ subscriptions cx)
               then receive (SJoined ch who) cx else cx) <$> clients w !! x.
Proof.
  intros Hne. unfold subscribe_sent. fold w3. cbv zeta. rewrite subscribe_newly.
  assert (H4 : clients (push snap w3 id) !! x = clients w !! x).
  { by rewrite push_clients, lookup_alter_ne, subscribed_other by done. }
  destruct (bool_decide_reflect (ch ∉ subscriptions cs)) as [Hch|Hch].
  - rewrite push_all_lookup by apply NoDup_audience.
    change (SPresence ch (snapshot (presence w3) ch)) with snap. rewrite H4.
    pose proof (subscribed_audience now id ch who w x Hw) as Hau. fold w3 in Hau.
    destruct (clients w !! x) as [cx|] eqn:Hcx; simpl; [|by case_decide].
    f_equal. destruct (decide (x ∈ audience w3 ch id)) as [Hin|Hin];
      case_decide as Hd; try done.
    + destruct Hd. apply Hau in Hin as (? & cy & ? & ?). split; [done|congruence].
    + destruct Hin. apply Hau. split; [done|]. exists cx. by destruct Hd.
  - change (SPresence ch (snapshot (presence w3) ch)) with snap. rewrite H4.
    destruct (clients w !! x); [|done]. simpl. by rewrite decide_False by tauto.
Qed.
End Subscribe.

(** a granted subscribe.  The joiner is a member and lists the channel; it
    receives one snapshot, taken after the join, so it finds itself in it; if and
    only if the membership is new, every other subscriber receives one [Joined]
    frame; nobody else receives anything. *)
Theorem subscribe_effect (now : Instant) (id : Z) (ch : string) (w : Worker)
    (cs : ClientState) :
  hub_agree w -> clients w !! id = Some cs -> admits now cs = true ->
  let who := pr_id (principal cs) in
  let p' := (Presence.join (presence w) ch id who).2 in
  let snap := SPresence ch (snapshot p' ch) in
  (try_send (out cs) snap).1 <> SendClosed ->
  (forall x cx, x <> id -> clients w !! x = Some cx -> ch ∈ subscriptions cx ->
     (try_send (out cx) (SJoined ch who)).1 <> SendClosed) ->
  exists w', handle now (Subscribe id ch) w = Done (tt, w') /\
    presence w' = p' /\ sessions w' = sessions w /\ who ∈ snapshot p' ch /\
    clients w' !! id = Some (receive snap
      (set_subscriptions (fun s => s ∪ {[ch]}) (charge now cs))) /\
    forall x, x <> id -> clients w' !! x =
      (fun cx => if decide ((ch ∉ subscriptions cs) /\ ch ∈ subscriptions cx)
                 then receive (SJoined ch who) cx else cx) <$> clients w !! x.
Proof.
  intros Hw Hc Ha who p' snap Hn Hn'. eexists.
  split; [exact (subscribe_run now id ch w cs Hw Hc Ha Hn Hn' _)|].
  cbn [presence sessions clients set_stats]. split_and!.
  - unfold subscribe_sent. fold who. cbv zeta.
    destruct (Presence.join _ _ _ _).1; by rewrite ?push_all_presence, push_presence.
  - unfold subscribe_sent. fold who. cbv zeta.
    destruct (Presence.join _ _ _ _).1; by rewrite ?push_all_sessions, push_sessions.
  - apply elem_of_snapshot. exists id. subst p'. by rewrite join_view, decide_True.
  - by apply subscribe_sent_self.
  - by apply subscribe_sent_other.
Qed.

(** ** Sessions *)

(** Frames relayed in a session reach clients of the hub. *)
Lemma session_member_client w s id m :
  hub_agree w -> member (sessions w) s id = Some m -> is_Some (clients w !! id).
Proof.
  intros Hw Hm. destruct (ha_sessions w Hw s id) as [Hl _].
  destruct Hl as (cs & ? & _); [eauto|]. by exists cs.
Qed.

(** member to coordinator relay.  A sender that is not in the session changes
    nothing at all; a member's payload reaches the coordinator and only the
    coordinator, stamped by the hub with the member's own name and slot (a client
    cannot speak for another). *)
Theorem to_coordinator_effect (now : Instant) (id : Z) (s : string) (pl : Payload)
    (w : Worker) :
  hub_agree w ->
  match member (sessions w) s id with
  | None => handle now (ToCoordinator id s pl) w = Done (tt, w)
  | Some m =>
      exists coord cc, coordinator_of (sessions w) s = Some coord /\
        clients w !! coord = Some cc /\
        let msg := SFromMember s (principal_id m) (slot m) pl in
        ((try_send (out cc) msg).1 <> SendClosed ->
         exists w', handle now (ToCoordinator id s pl) w = Done (tt, w') /\
           presence w' = presence w /\ sessions w' = sessions w /\
           clients w' = <[coord := receive msg cc]> (clients w))
  end.
Proof.
  intros Hw. destruct (member (sessions w) s id) as [m|] eqn:Hm.
  2: { unfold handle, handle_with, on_to_coordinator.
       by rewrite (bind_done _ _ w w None) by (unfold gets; by rewrite Hm). }
  assert (Hco : exists coord, coordinator_of (sessions w) s = Some coord /\
    is_Some (member (sessions w) s coord)).
  { unfold coordinator_of, member in *. destruct (smap (sessions w) !! s) as [ss|] eqn:Hs; [|done].
    exists (coordinator ss). split; [done|]. simpl. by apply swf_coord, (ha_sessions_wf w Hw s). }
  destruct Hco as (coord & Hco & [mc Hmc]).
  destruct (session_member_client w s coord mc Hw Hmc) as [cc Hcc].
  exists coord, cc. split; [done|]. split; [done|]. intros msg Hn.
  set (w1 := set_stats inc_published w).
  exists (push msg w1 coord). rewrite push_presence, push_sessions, push_clients. split.
  { unfold handle, handle_with, on_to_coordinator.
    rewrite (bind_done _ _ w w (Some m)) by (unfold gets; by rewrite Hm).
    rewrite (bind_done _ _ w w (Some coord)) by (unfold gets; by rewrite Hco).
    rewrite (bind_done _ _ w w1 tt) by done. apply deliver_push.
    intros cs Hcs. cbn in Hcs. by simplify_eq. }
  split; [done|]. split; [done|]. apply map_eq. intros j. cbn [clients set_stats w1].
  rewrite lookup_alter, lookup_insert. by destruct (decide (coord = j)) as [<-|]; rewrite ?Hcc.
Qed.

(** The members of a session other than [id]. *)
Definition peers (w : Worker) (s : string) (id : Z) : list Z :=
  client_id <$> filter (fun m => client_id m <> id) (roster (sessions w) s).

Lemma elem_of_peers w s id x :
  hub_agree w -> x ∈ peers w s id <-> x <> id /\ is_Some (member (sessions w) s x).
Proof.
  intros Hw. unfold peers, roster, member. rewrite list_elem_of_fmap.
  setoid_rewrite list_elem_of_filter.
  destruct (smap (sessions w) !! s) as [ss|] eqn:Hs; simpl.
  - pose proof (ha_sessions_wf w Hw s ss Hs) as Hwf.
    setoid_rewrite elem_of_session_roster. split.
    + intros (m & -> & Hne & y & Hy). split; [done|]. rewrite (swf_ids ss Hwf y m Hy). eauto.
    + intros [Hne [m Hm]]. exists m. rewrite (swf_ids ss Hwf x m Hm). eauto.
  - split; [|by intros [_ [? ?]]]. intros (m & _ & _ & Hin). by apply not_elem_of_nil in Hin.
Qed.

Lemma NoDup_peers w s id : hub_agree w -> NoDup (peers w s id).
Proof.
  intros Hw. unfold peers, roster. destruct (smap (sessions w) !! s) as [ss|] eqn:Hs; [|constructor].
  pose proof (ha_sessions_wf w Hw s ss Hs) as Hwf.
  apply NoDup_fmap_2_strong; [|by apply NoDup_filter, session_roster_NoDup].
  intros x y [_ (a & Hx)%elem_of_session_roster]%list_elem_of_filter
    [_ (b & Hy)%elem_of_session_roster]%list_elem_of_filter Heq.
  rewrite (swf_ids ss Hwf a x Hx), (swf_ids ss Hwf b y Hy) in Heq. congruence.
Qed.

(** coordinator to members broadcast.  Only the coordinator's payload is
    relayed: every other member of the session gets exactly one copy and nobody
    else any; a sender that does not coordinate the session gets an error frame and
    no member gets anything. *)
Theorem to_members_effect (now : Instant) (id : Z) (s : string) (pl : Payload)
    (w : Worker) :
  hub_agree w ->
  let denied := SError ("not the coordinator of session '" +:+ s +:+ "'")%string in
  let relayed := SFromCoordinator s pl in
  let coordinates := bool_decide (coordinator_of (sessions w) s = Some id) in
  (forall x cx, clients w !! x = Some cx ->
     (try_send (out cx) (if coordinates then relayed else denied)).1 <> SendClosed) ->
  exists w', handle now (ToMembers id s pl) w = Done (tt, w') /\
    presence w' = presence w /\ sessions w' = sessions w /\
    forall x, clients w' !! x =
      if coordinates
      then (fun cx => if decide (x <> id /\ s ∈ cs_sessions cx)
                      then receive relayed cx else cx) <$> clients w !! x
      else (fun cx => if decide (x = id) then receive denied cx else cx) <$> clients w !! x.
Proof.
  intros Hw denied relayed coordinates Hn.
  assert (Hco : is_coordinator (sessions w) s id = coordinates).
  { unfold is_coordinator, coordinates, coordinator_of.
    destruct (smap (sessions w) !! s); [|done]. apply bool_decide_ext. simpl.
    split; [by intros ->|by intros [=]]. }
  unfold handle, handle_with, on_to_members. set (disc := on_disconnect _).
  rewrite (bind_done _ _ w w coordinates) by (unfold gets; by rewrite Hco).
  destruct coordinates; cbn [negb].
  - set (w1 := set_stats inc_published w). rewrite (bind_done _ _ w w1 tt) by done.
    rewrite (bind_done _ _ w1 w1 (peers w s id)) by done.
    exists (push_all relayed (peers w s id) w1).
    rewrite push_all_presence, push_all_sessions. split; [|split; [done|split; [done|]]].
    + pose proof (for_each_push disc relayed (fun x => x) (fun x => False) (peers w s id) w1) as Hl.
      rewrite list_fmap_id in Hl.
      replace (filter (fun x : Z => ~ False) (peers w s id)) with (peers w s id) in Hl
        by (symmetry; apply filter_all; intros ? ? []).
      apply Hl; [by apply NoDup_peers|]. intros x _ cx Hcx. by apply (Hn x).
    + intros x. rewrite push_all_lookup by by apply NoDup_peers. cbn [clients set_stats w1].
      pose proof (elem_of_peers w s id x Hw) as Hp. rewrite (ha_sessions w Hw) in Hp.
      destruct (clients w !! x) as [cx|] eqn:Hcx; simpl; [|by case_decide].
      f_equal. destruct (decide (x ∈ peers w s id)) as [Hin|Hin]; case_decide as Hd; try done.
      * destruct Hd. apply Hp in Hin as (? & cy & ? & ?). split; [done|congruence].
      * destruct Hin. apply Hp. destruct Hd. split; [done|]. by exists cx.
  - exists (push denied w id). rewrite push_presence, push_sessions, push_clients.
    split; [|split; [done|split; [done|]]].
    + apply deliver_push. intros cx Hcx. by apply (Hn id).
    + intros x. rewrite lookup_alter. destruct (decide (id = x)) as [<-|Hne].
      * destruct (clients w !! id); [|done]. simpl. by rewrite decide_True.
      * destruct (clients w !! x); [|done]. simpl. by rewrite decide_False by congruence.
Qed.

End Spec.

(** ** Closed examples *)

Module HubSpecExamples.
Import HubWorldExamples.
#[local] Existing Instance enum_order.
#[local] Existing Instance queue_mpsc.

Lemma hub0_queues : map_Forall (fun (_ : Z) cs => q_open (out cs) = true) (clients hub0).
Proof. apply (bool_decide_unpack _). vm_compute. exact I. Qed.

Lemma hub0_open x cs msg :
  clients hub0 !! x = Some cs -> (try_send (out cs) msg).1 <> SendClosed.
Proof. intros Hc. apply queue_open_stays. exact (hub0_queues x cs Hc). Qed.

Lemma publish_fanout_witness :
  exists w', handle 9 (Publish 1 "room" "{}") hub0 = Done (tt, w') /\
    messages_published (stats w') = 1 /\
    head (reverse (frames w' 2)) = Some (SMessage "room" (Some "alice"%string) "{}").
Proof.
  destruct (publish_fanout 9 1 "room" "{}" hub0) as (w' & Heq & _ & _ & _ & Hp & _).
  - exact hub0_agree.
  - intros x cs _ Hc _. exact (hub0_open x cs _ Hc).
  - exists w'. split; [exact Heq|]. split; [exact Hp|].
    vm_compute in Heq. injection Heq as <-. reflexivity.
Defined.

(** A hub that grants one join per client and never refills. *)
Definition config1 : HubConfig := mkHubConfig Close (Some (mkRateLimit 1 (F64.of_Z 0))).
Definition cmds1 : list (Command chan) :=
  [Connect 1 alice (open_queue : chan); Subscribe 1 "room"].
Definition hub2 : Worker :=
  default (worker_new config1) (run_checked cmds1 (worker_new config1)).

Lemma join_throttled_witness :
  exists w', handle 9 (Subscribe 1 "other") hub2 = Done (tt, w') /\ presence w' = presence hub2.
Proof.
  destruct (clients hub2 !! 1) as [cs|] eqn:Hc.
  2: { vm_compute in Hc. discriminate Hc. }
  destruct (join_throttled 9 1 hub2 cs (Subscribe 1 "other") "other") as (w' & Heq & Hp & _).
  - left. reflexivity.
  - exact Hc.
  - vm_compute in Hc. injection Hc as <-. vm_compute. reflexivity.
  - vm_compute in Hc. injection Hc as <-. vm_compute. discriminate.
  - exists w'. exact (conj Heq Hp).
Defined.

Lemma subscribe_effect_witness :
  exists w', handle 9 (Subscribe 1 "new") hub0 = Done (tt, w') /\
    view (presence w') "new" 1 = Some "alice"%string.
Proof.
  destruct (clients hub0 !! 1) as [cs|] eqn:Hc.
  2: { vm_compute in Hc. discriminate Hc. }
  destruct (subscribe_effect 9 1 "new" hub0 cs) as (w' & Heq & _).
  - exact hub0_agree.
  - exact Hc.
  - vm_compute in Hc. injection Hc as <-. vm_compute. reflexivity.
  - exact (hub0_open 1 cs _ Hc).
  - intros x cx _ Hx _. exact (hub0_open x cx _ Hx).
  - exists w'. split; [exact Heq|]. vm_compute in Heq. injection Heq as <-.
    vm_compute. reflexivity.
Defined.

Lemma to_coordinator_effect_witness :
  exists coord, coordinator_of (sessions hub0) "s" = Some coord /\ coord = 1 /\
    exists w', handle 9 (ToCoordinator 2 "s" "{}") hub0 = Done (tt, w').
Proof.
  pose proof (to_coordinator_effect 9 2 "s" "{}" hub0 hub0_agree) as Ht.
  destruct (member (sessions hub0) "s" 2) as [m|] eqn:Hm.
  2: { vm_compute in Hm. discriminate Hm. }
  destruct Ht as (coord & cc & Hco & Hcc & Hrest). exists coord. split; [exact Hco|].
  split; [vm_compute in Hco; injection Hco as <-; reflexivity|].
  destruct Hrest as (w' & Heq & _); [exact (hub0_open coord cc _ Hcc)|].
  exists w'. exact Heq.
Defined.

Lemma to_members_effect_witness :
  exists w', handle 9 (ToMembers 1 "s" "{}") hub0 = Done (tt, w') /\
    head (reverse (frames w' 3)) = Some (SFromCoordinator "s" "{}") /\
    frames w' 1 = frames hub0 1.
Proof.
  destruct (to_members_effect 9 1 "s" "{}" hub0) as (w' & Heq & _).
  - exact hub0_agree.
  - intros x cx Hx. exact (hub0_open x cx _ Hx).
  - exists w'. split; [exact Heq|]. vm_compute in Heq. injection Heq as <-.
    split; vm_compute; reflexivity.
Defined.
End HubSpecExamples.
