(* ===== verification/Json.v ===== *)
(** * JSON values ([serde_json::Value]) and the string functions the crates use on text *)

From S2P Require Import Prelude.

#[local] Set Warnings "-register-all".

(** [serde_json::Number]: a [u64], a negative [i64] or an [f64]. *)
Inductive Number : Type :=
  | PosInt (n : Z)
  | NegInt (n : Z)
  | Float (x : F64.t).

(** [serde_json::Value]; an object is its entries. *)
Inductive Value : Type :=
  | VNull
  | VBool (b : bool)
  | VNumber (n : Number)
  | VString (s : string)
  | VArray (l : list Value)
  | VObject (l : list (string * Value)).

(** [json!(n)] for an integer. *)
Definition json_int (n : Z) : Value :=
  VNumber (if decide (0 <= n) then PosInt n else NegInt n).

(** Equality of [serde_json] values: numbers by representation, objects as maps. *)
Definition number_eqb (a b : Number) : bool :=
  match a, b with
  | PosInt x, PosInt y => bool_decide (x = y)
  | NegInt x, NegInt y => bool_decide (x = y)
  | Float x, Float y => F64.eqb x y
  | _, _ => false
  end.

Fixpoint assoc {A} (k : string) (l : list (string * A)) : option A :=
  match l with
  | [] => None
  | (k', v) :: r => if decide (k' = k) then Some v else assoc k r
  end.

Fixpoint json_eqb (a b : Value) : bool :=
  match a, b with
  | VNull, VNull => true
  | VBool x, VBool y => Bool.eqb x y
  | VNumber x, VNumber y => number_eqb x y
  | VString x, VString y => bool_decide (x = y)
  | VArray l, VArray l' =>
      (fix go (l l' : list Value) : bool :=
         match l, l' with
         | [], [] => true
         | v :: r, v' :: r' => json_eqb v v' && go r r'
         | _, _ => false
         end) l l'
  | VObject l, VObject l' =>
      (length l =? length l')%nat &&
      (fix go (l : list (string * Value)) : bool :=
         match l with
         | [] => true
         | (k, v) :: r =>
             match assoc k l' with Some v' => json_eqb v v' | None => false end && go r
         end) l
  | _, _ => false
  end.

(** [serde_json::Map] is a B-tree: an object made of a map lists its keys in order. *)
Definition key_le (a b : string * Value) : Prop := String.le a.1 b.1.
#[export] Instance key_le_dec : RelDecision key_le.
Proof. intros a b. unfold key_le. apply _. Defined.

Definition object_of_map (m : gmap string Value) : Value :=
  VObject (merge_sort key_le (map_to_list m)).

(** [json!({ .. })] with string keys. *)
Definition json_object (l : list (string * Value)) : Value := object_of_map (list_to_map l).

(** The map of an object; a key that comes twice keeps its last value. *)
Definition map_of_object (v : Value) : option (gmap string Value) :=
  match v with VObject l => Some (list_to_map (reverse l)) | _ => None end.

Definition json_opt_string (o : option string) : Value :=
  match o with Some s => VString s | None => VNull end.

Definition value_as_str (v : Value) : option string :=
  match v with VString s => Some s | _ => None end.

(** ** Strings as sequences of characters *)

(** [s.split(c)]: all the pieces between occurrences of [c]. *)
Fixpoint split_on (c : Ascii.ascii) (s : string) : list string :=
  match s with
  | EmptyString => [EmptyString]
  | String a s =>
      if Ascii.eqb a c then EmptyString :: split_on c s
      else match split_on c s with
           | [] => [String a EmptyString]
           | p :: ps => String a p :: ps
           end
  end.

(** [s.split_once(c)] *)
Fixpoint split_once (c : Ascii.ascii) (s : string) : option (string * string) :=
  match s with
  | EmptyString => None
  | String a s =>
      if Ascii.eqb a c then Some (EmptyString, s)
      else match split_once c s with
           | None => None
           | Some (p, rest) => Some (String a p, rest)
           end
  end.

(** [s.splitn(n, c)]: at most [n] pieces, the last one takes the rest. *)
Fixpoint splitn (n : nat) (c : Ascii.ascii) (s : string) : list string :=
  match n with
  | O => []
  | S n' =>
      match n' with
      | O => [s]
      | S _ => match split_once c s with
               | None => [s]
               | Some (p, rest) => p :: splitn n' c rest
               end
      end
  end.

(** [u8::to_ascii_lowercase], [str::eq_ignore_ascii_case] *)
Definition ascii_lower (a : Ascii.ascii) : Ascii.ascii :=
  let n := Ascii.nat_of_ascii a in
  if ((65 <=? n) && (n <=? 90))%nat then Ascii.ascii_of_nat (n + 32) else a.

Fixpoint string_map (f : Ascii.ascii -> Ascii.ascii) (s : string) : string :=
  match s with
  | EmptyString => EmptyString
  | String a s => String (f a) (string_map f s)
  end.

Definition to_ascii_lowercase (s : string) : string := string_map ascii_lower s.

Definition eq_ignore_ascii_case (a b : string) : bool :=
  bool_decide (to_ascii_lowercase a = to_ascii_lowercase b).

(** [haystack.contains(c)] *)
Fixpoint has_char (c : Ascii.ascii) (s : string) : bool :=
  match s with
  | EmptyString => false
  | String a s => Ascii.eqb a c || has_char c s
  end.

(** [str::parse::<u64>]: an optional plus sign, then digits, within range. *)
Definition digit_value (a : Ascii.ascii) : option Z :=
  let n := Z.of_nat (Ascii.nat_of_ascii a) in
  if decide (48 <= n <= 57) then Some (n - 48) else None.

Fixpoint parse_digits (acc : Z) (s : string) : option Z :=
  match s with
  | EmptyString => Some acc
  | String a r =>
      match digit_value a with
      | Some d => let acc := acc * 10 + d in
                  if decide (acc <= u64_max) then parse_digits acc r else None
      | None => None
      end
  end.

Definition parse_u64 (s : string) : option Z :=
  match s with
  | EmptyString => None
  | String a r =>
      if Ascii.eqb a (Ascii.ascii_of_nat 43)
      then match r with EmptyString => None | _ => parse_digits 0 r end
      else parse_digits 0 s
  end.

(** [str::parse::<bool>] *)
Definition parse_bool (s : string) : option bool :=
  if decide (s = "true"%string) then Some true
  else if decide (s = "false"%string) then Some false else None.

(** ** Splitting *)

Lemma has_char_app c a b : has_char c (a +:+ b) = has_char c a || has_char c b.
Proof. induction a as [|x a IH]; [done|]. simpl. by rewrite IH, orb_assoc. Qed.

Lemma split_on_app c s t : split_on c (s +:+ String c t) = (split_on c s ++ split_on c t)%list.
Proof.
  induction s as [|a s IH]; [rewrite str_app_nil; cbn; by rewrite Ascii.eqb_refl|]. rewrite str_app_cons. cbn [split_on].
  rewrite IH. destruct (Ascii.eqb a c); [done|]. by destruct (split_on c s) as [|p ps] eqn:E; [destruct s; cbn in E; repeat case_match|].
Qed.
Lemma split_on_plain c s : has_char c s = false -> split_on c s = [s].
Proof.
  induction s as [|a s IH]; [done|]. cbn [has_char split_on]. intros [Ha Hs]%orb_false_iff. by rewrite Ha, IH.
Qed.

Lemma split_once_none c s : split_once c s = None <-> has_char c s = false.
Proof.
  induction s as [|a s IH]; simpl; [done|].
  destruct (Ascii.eqb a c); simpl; [done|]. rewrite <- IH.
  by destruct (split_once c s) as [[]|].
Qed.

Lemma split_once_some c s p r :
  split_once c s = Some (p, r) <-> s = (p +:+ String c r)%string /\ has_char c p = false.
Proof.
  revert p. induction s as [|a s IH]; intros p; simpl.
  - split; [done|]. by intros [? _]; destruct p.
  - destruct (Ascii.eqb_spec a c) as [->|Hne].
    + split.
      * by intros [= <- <-].
      * destruct p as [|b p]; simpl; intros [[=] Hp]; subst; [done|].
        by rewrite Ascii.eqb_refl in Hp.
    + destruct (split_once c s) as [[p' r']|].
      * split.
        -- intros [= <- <-]. destruct (IH p') as [H1 _]. destruct H1 as [-> Hp]; [done|].
           simpl. split; [done|]. apply orb_false_iff. split; [by apply Ascii.eqb_neq|done].
        -- intros [Hs Hp]. destruct p as [|b p]; simpl in *; [by injection Hs as <-|].
           injection Hs as <- Hs. apply orb_false_iff in Hp as [_ Hp].
           destruct (IH p) as [_ H2]. specialize (H2 (conj Hs Hp)). congruence.
      * split; [done|]. intros [Hs Hp]. destruct p as [|b p]; simpl in *;
          [by injection Hs as <-|].
        injection Hs as <- Hs. apply orb_false_iff in Hp as [_ Hp].
        destruct (IH p) as [_ H2]. specialize (H2 (conj Hs Hp)). congruence.
Qed.

(** ** Objects of maps *)

Lemma object_of_map_perm m : exists l, object_of_map m = VObject l /\ l ≡ₚ map_to_list m.
Proof. eexists. split; [done|]. apply merge_sort_Permutation. Qed.

Lemma map_of_object_of_map m : map_of_object (object_of_map m) = Some m.
Proof.
  unfold map_of_object, object_of_map. f_equal.
  set (l := merge_sort key_le (map_to_list m)).
  assert (Hp : reverse l ≡ₚ map_to_list m).
  { rewrite reverse_Permutation. apply merge_sort_Permutation. }
  etrans; [|apply list_to_map_to_list]. apply list_to_map_proper; [|done].
  rewrite Hp. apply NoDup_fst_map_to_list.
Qed.

Lemma assoc_list_to_map {A} k (l : list (string * A)) : assoc k l = (list_to_map l : gmap string A) !! k.
Proof.
  induction l as [|[k' v] l IH]; cbn; [by rewrite lookup_empty|].
  destruct (decide (k' = k)) as [->|Hne]; [by rewrite lookup_insert_eq|by rewrite lookup_insert_ne].
Qed.

(** A member of an object, if the value is one and has it. *)
Definition obj_get (k : string) (v : Value) : option Value :=
  match v with VObject l => assoc k l | _ => None end.

Lemma obj_get_map k m : obj_get k (object_of_map m) = m !! k.
Proof.
  destruct (object_of_map_perm m) as (l & -> & Hl). cbn. rewrite assoc_list_to_map.
  f_equal. etrans; [|apply list_to_map_to_list]. apply list_to_map_proper; [|done].
  rewrite Hl. apply NoDup_fst_map_to_list.
Qed.

Lemma obj_get_json k l : obj_get k (json_object l) = assoc k l.
Proof. unfold json_object. by rewrite obj_get_map, assoc_list_to_map. Qed.

(** * Operations of Rust's [str] and [Path] on ASCII text

    Trimming, searching and splitting as the standard library does them, shared by the
    components; a string is a sequence of bytes. *)

(** [str::trim] on ASCII blanks *)
Definition is_blank (a : Ascii.ascii) : bool :=
  let n := Ascii.nat_of_ascii a in ((n =? 32) || ((9 <=? n) && (n <=? 13)))%nat.
Fixpoint trim_start (s : string) : string :=
  match s with
  | EmptyString => EmptyString
  | String a r => if is_blank a then trim_start r else s
  end.
Fixpoint trim_end (s : string) : string :=
  match s with
  | EmptyString => EmptyString
  | String a r =>
      match trim_end r with
      | EmptyString => if is_blank a then EmptyString else String a EmptyString
      | r' => String a r'
      end
  end.
Definition trim (s : string) : string := trim_end (trim_start s).

(** [haystack.contains(needle)] *)
Fixpoint contains (haystack needle : string) : bool :=
  String.prefix needle haystack ||
  match haystack with
  | EmptyString => false
  | String _ r => contains r needle
  end.

(** [s.ends_with(suffix)] *)
Definition ends_with (suffix s : string) : bool :=
  (String.length suffix <=? String.length s)%nat &&
  bool_decide (String.substring (String.length s - String.length suffix) (String.length suffix) s = suffix).

(** [s.trim_end_matches(chars)] *)
Fixpoint trim_end_chars (drop : Ascii.ascii -> bool) (s : string) : string :=
  match s with
  | EmptyString => EmptyString
  | String a r =>
      match trim_end_chars drop r with
      | EmptyString => if drop a then EmptyString else String a EmptyString
      | r' => String a r'
      end
  end.

(** [s.trim_start_matches(prefix)]: every leading occurrence goes; each takes at least one
    character, so the length is fuel enough. *)
Fixpoint trim_start_matches_go (fuel : nat) (prefix s : string) : string :=
  match fuel with
  | O => s
  | S fuel =>
      if String.prefix prefix s
      then trim_start_matches_go fuel prefix (String.substring (String.length prefix) (String.length s) s)
      else s
  end.
Definition trim_start_matches (prefix s : string) : string :=
  match prefix with
  | EmptyString => s
  | _ => trim_start_matches_go (String.length s) prefix s
  end.

(** [s.rsplit(c).next()]: what follows the last occurrence, or everything. *)
Definition after_last (c : Ascii.ascii) (s : string) : string := default s (last (split_on c s)).

(** [parse::<u16>] *)
Definition parse_u16 (s : string) : option Z :=
  match parse_u64 s with Some n => if decide (n <= 65535) then Some n else None | None => None end.

(** [parse::<i64>] *)
Definition parse_i64 (s : string) : option Z :=
  match s with
  | EmptyString => None
  | String a r =>
      if Ascii.eqb a (Ascii.ascii_of_nat 45) then
        match r with
        | EmptyString => None
        | _ => match parse_digits 0 r with
               | Some n => if decide (i64_min <= - n) then Some (- n) else None
               | None => None
               end
        end
      else match parse_u64 s with
           | Some n => if decide (n <= i64_max) then Some n else None
           | None => None
           end
  end.

(** [to_uppercase] on ASCII letters *)
Definition ascii_upper (a : Ascii.ascii) : Ascii.ascii :=
  let n := Ascii.nat_of_ascii a in
  if ((97 <=? n) && (n <=? 122))%nat then Ascii.ascii_of_nat (n - 32) else a.
Definition to_ascii_uppercase (s : string) : string := string_map ascii_upper s.

(** [s.replace(from, to)] for single characters *)
Definition replace_char (from to : Ascii.ascii) (s : string) : string :=
  string_map (fun a => if Ascii.eqb a from then to else a) s.

(** ** Paths (Unix, without [.] components) *)

Definition slash : Ascii.ascii := Ascii.ascii_of_nat 47.
Definition is_slash (a : Ascii.ascii) : bool := Ascii.eqb a slash.

(** [Path::join]: an absolute path replaces. *)
Definition path_join (p q : string) : string :=
  match q with
  | String a _ =>
      if is_slash a then q
      else if bool_decide (p = EmptyString) || ends_with "/" p then p +:+ q else p +:+ "/" +:+ q
  | EmptyString => if bool_decide (p = EmptyString) || ends_with "/" p then p else p +:+ "/"
  end.

Fixpoint drop_last_component (s : string) : string :=
  match s with
  | EmptyString => EmptyString
  | String a r => if has_char slash r then String a (drop_last_component r)
                  else if is_slash a then String a EmptyString else EmptyString
  end.

(** [Path::parent]: none for the root and the empty path. *)
Definition path_parent (p : string) : option string :=
  match trim_end_chars is_slash p with
  | EmptyString => None
  | p' =>
      let up := drop_last_component p' in
      match trim_end_chars is_slash up with
      | EmptyString => Some (if bool_decide (up = EmptyString) then EmptyString else "/"%string)
      | up' => Some up'
      end
  end.

Example path_examples :
  path_parent "a/b/c.json" = Some "a/b"%string /\ path_parent "c.json" = Some EmptyString /\
  path_parent "/etc" = Some "/"%string /\ path_parent "/" = None /\ path_parent "a//b/" = Some "a"%string /\
  path_join "./atomo-schemas" "p1" = "./atomo-schemas/p1"%string /\
  path_join "./atomo-schemas" "/etc" = "/etc"%string.
Proof. vm_compute. by repeat split. Qed.

(** ** Binary digits of a positive, an injective text *)

Fixpoint bits (p : positive) : string :=
  match p with
  | xH => EmptyString
  | xO p => String (Ascii.ascii_of_nat 48) (bits p)
  | xI p => String (Ascii.ascii_of_nat 49) (bits p)
  end.
Fixpoint unbits (s : string) : positive :=
  match s with
  | EmptyString => xH
  | String a s => if decide (a = Ascii.ascii_of_nat 48) then xO (unbits s) else xI (unbits s)
  end.
Lemma unbits_bits p : unbits (bits p) = p.
Proof. induction p as [p IH|p IH|]; cbn [bits unbits]; rewrite ?IH; reflexivity. Qed.
Lemma bits_inj p q : bits p = bits q -> p = q.
Proof. intros H%(f_equal unbits). by rewrite !unbits_bits in H. Qed.
