(* ===== verification/SchemaTypes.v ===== *)
(** * The schema and its access rules ([atomo_schema/src/types.rs])

    The data a parsed schema consists of, the access decision that the resolvers and the
    data client share, and the actions a lifecycle event triggers.  Maps from names are
    finite maps; bodies of functions kept as text are strings.  Then the events
    of models and their subscriptions ([atomo/src/events.rs]). *)

From S2P Require Import Prelude Json.

(** ** Fields and models *)

Inductive FieldType : Type :=
  | FString | FNumber | FBoolean | FDate | FDateTime | FEntityId | FJson
  | FReference (model : string) | FArray (t : FieldType) | FBlocks | FFile
  | FCustom (name : string).

#[global] Instance FieldType_eq_dec : EqDecision FieldType.
Proof. solve_decision. Defined.

Inductive FieldAttribute : Type :=
  | Primary | Unique | Index | ForeignKey | TimestampAttr | Default (value : string).

#[global] Instance FieldAttribute_eq_dec : EqDecision FieldAttribute.
Proof. solve_decision. Defined.

Record Field : Type := mkField {
  f_name : string;
  f_type : FieldType;
  f_optional : bool;
  f_attributes : list FieldAttribute
}.

#[global] Instance Field_eq_dec : EqDecision Field.
Proof. solve_decision. Defined.

Inductive ModelConstraint : Type :=
  | CUnique (fields : list string)
  | CIndex (fields : list string)
  | CCheck (expr : string)
  | CUniqueWhere (fields : list string) (predicate : string)
  | CIndexWhere (fields : list string) (predicate : string).

#[global] Instance ModelConstraint_eq_dec : EqDecision ModelConstraint.
Proof. solve_decision. Defined.

Record Relationship : Type := mkRelationship {
  rl_kind : string;
  rl_model : string;
  rl_foreign_key : option string
}.

Record UiConfig : Type := mkUi { list_view : option (list string) }.

(** ** Access rules *)

Inductive QueryOperator : Type :=
  | QEquals | QNotEquals | QIn | QNotIn | QGreaterThan | QLessThan | QLike | QIsNull | QIsNotNull.

Inductive QueryValue : Type :=
  | QString (s : string)
  | QNumber (x : F64.t)
  | QBoolean (b : bool)
  | QArray (l : list string)
  | QUserProperty (path : string).

Record QueryCondition : Type := mkCondition {
  qc_field : string;
  qc_operator : QueryOperator;
  qc_value : QueryValue
}.

Inductive AccessRule : Type :=
  | RBoolean (code : string)
  | RQuery (c : QueryCondition)
  | RAnd (rules : list AccessRule)
  | ROr (rules : list AccessRule).

Record AccessControl : Type := mkAccess {
  ac_create : option AccessRule;
  ac_read : option AccessRule;
  ac_update : option AccessRule;
  ac_delete : option AccessRule
}.

Inductive AccessDecision : Type := Allow | NeedsAuth | Forbidden.

#[global] Instance AccessDecision_eq_dec : EqDecision AccessDecision.
Proof. solve_decision. Defined.

Definition pipe : Ascii.ascii := Ascii.ascii_of_nat 124.

(** [AccessRule::decide] *)
Definition rule_decide (r : AccessRule) (role : option string) : AccessDecision :=
  match r with
  | RBoolean roles =>
      if decide (roles = "public"%string) then Allow
      else if decide (roles = "authenticated"%string) then
        match role with Some _ => Allow | None => NeedsAuth end
      else
        match role with
        | Some r =>
            if existsb (fun a => eq_ignore_ascii_case a r) (split_on pipe roles)
            then Allow else Forbidden
        | None => NeedsAuth
        end
  | _ => Allow
  end.

Definition rule_for (a : AccessControl) (action : string) : option AccessRule :=
  if decide (action = "create"%string) then ac_create a
  else if decide (action = "read"%string) then ac_read a
  else if decide (action = "update"%string) then ac_update a
  else if decide (action = "delete"%string) then ac_delete a
  else None.

(** [AccessControl::decide] *)
Definition access_decide (a : AccessControl) (action : string) (role : option string)
    : AccessDecision :=
  match rule_for a action with
  | Some r => rule_decide r role
  | None => Allow
  end.

(** ** Hooks, as far as they are data *)

Inductive OperationType : Type := OpCreate | OpUpdate | OpDelete.

Record Hook : Type := mkHook {
  hk_name : string;
  hk_operation_type : option OperationType;
  hk_function_code : string;
  hk_async : bool
}.

Record FieldHook : Type := mkFieldHook {
  fh_field_name : string;
  fh_function_code : string;
  fh_async : bool
}.

Record HookDefinitions : Type := mkHooks {
  hd_before_operation : option (list Hook);
  hd_after_operation : option (list Hook);
  hd_before_change : option (list FieldHook);
  hd_after_read : option (list Hook)
}.

(** ** Lifecycle events and actions *)

Abbreviation Doc := (gmap string Value).

Inductive ActionCondition : Type :=
  | ChangedAny (fields : list string)
  | FieldEquals (field : string) (value : Value).

(** Comparing two optional values of a document. *)
Definition opt_json_eqb (a b : option Value) : bool :=
  match a, b with
  | Some x, Some y => json_eqb x y
  | None, None => true
  | _, _ => false
  end.

(** [ActionCondition::matches] *)
Definition condition_matches (c : ActionCondition) (current : Doc) (previous : option Doc)
    : bool :=
  match c with
  | ChangedAny fields =>
      match previous with
      | None => true
      | Some prev => existsb (fun f => negb (opt_json_eqb (current !! f) (prev !! f))) fields
      end
  | FieldEquals field value => opt_json_eqb (current !! field) (Some value)
  end.

Record EventActionBinding : Type := mkBinding {
  eb_action : string;
  eb_condition : option ActionCondition
}.

Record ModelEvents : Type := mkEvents {
  me_created : list EventActionBinding;
  me_updated : list EventActionBinding;
  me_deleted : list EventActionBinding
}.

Definition events_default : ModelEvents := mkEvents [] [] [].
Definition events_is_empty (e : ModelEvents) : bool :=
  match me_created e, me_updated e, me_deleted e with [], [], [] => true | _, _, _ => false end.

Record ActionInputField : Type := mkInputField {
  if_name : string;
  if_field_type : string;
  if_required : bool
}.

Inductive ActionInputDef : Type :=
  | PickFields (model : string) (fields : list string)
  | InputObject (fields : list ActionInputField).

Inductive ActionReturn : Type := ReturnModel (model : string) | ReturnVoid.

Record ActionDef : Type := mkAction {
  ad_name : string;
  ad_input : ActionInputDef;
  ad_returns : option ActionReturn;
  ad_source_model : option string
}.

Definition is_callable (a : ActionDef) : bool := bool_decide (is_Some (ad_returns a)).
Definition is_lifecycle_only (a : ActionDef) : bool := bool_decide (ad_returns a = None).

(** The fields collected into a map: a field named twice is one entry. *)
Definition build_input (a : ActionDef) (doc : Doc) : Doc :=
  match ad_input a with
  | PickFields _ fields =>
      list_to_map (omap (fun f => (fun v => (f, v)) <$> doc !! f) fields)
  | InputObject _ => doc
  end.

(** ** Models and the schema *)

Record Model : Type := mkModel {
  m_name : string;
  m_fields : gmap string Field;
  m_access : option AccessControl;
  m_hooks : option HookDefinitions;
  m_validation : gmap string string;
  m_table_name : option string;
  m_relationships : gmap string Relationship;
  m_constraints : list ModelConstraint;
  m_events : ModelEvents;
  m_ui : option UiConfig
}.

(** A model of which only name, fields and table are given. *)
Definition bare_model (name : string) (fields : gmap string Field) (table : option string) : Model :=
  mkModel name fields None None ∅ table ∅ [] events_default None.

Record BuiltinExtension : Type := mkBuiltin {
  bx_columns : gmap string string;
  bx_constraints : list ModelConstraint
}.

Record Schema : Type := mkSchema {
  sc_models : gmap string Model;
  sc_actions : gmap string ActionDef;
  sc_builtins : gmap string BuiltinExtension;
  sc_warnings : list string
}.

(** ** The decision of a rule *)

Lemma has_role_spec roles r :
  existsb (fun a => eq_ignore_ascii_case a r) (split_on pipe roles) = true <->
  exists a, a ∈ split_on pipe roles /\ to_ascii_lowercase a = to_ascii_lowercase r.
Proof.
  rewrite existsb_exists. unfold eq_ignore_ascii_case. split.
  - intros (a & Ha & He). exists a. apply bool_decide_eq_true in He.
    split; [by apply list_elem_of_In|done].
  - intros (a & Ha & He). exists a. split; [by apply list_elem_of_In|by apply bool_decide_eq_true].
Qed.

(** A caller listed among the roles of the rule, in any case. *)
Definition listed (roles r : string) : Prop :=
  exists a, a ∈ split_on pipe roles /\ to_ascii_lowercase a = to_ascii_lowercase r.

(** Who may do [action]: anyone when it has no rule, when its rule is not a role list or is
    [public]; else a caller with a role, when the rule is [authenticated] or lists it. *)
Definition permitted (a : AccessControl) (action : string) (role : option string) : Prop :=
  forall roles, rule_for a action = Some (RBoolean roles) -> roles <> "public"%string ->
    exists r, role = Some r /\ (roles = "authenticated"%string \/ listed roles r).

(** The decision is [Allow] for exactly those; the others are asked to log in if they have
    no role and refused if they have one. *)
Lemma access_decide_spec (a : AccessControl) (action : string) (role : option string) :
  (access_decide a action role = Allow <-> permitted a action role) /\
  (access_decide a action role = NeedsAuth -> role = None) /\
  (access_decide a action role = Forbidden -> is_Some role).
Proof.
  unfold permitted, access_decide. destruct (rule_for a action) as [[roles| | |]|]; simpl;
    try (split; [split; [by intros _|done]|done]).
  destruct (decide (roles = "public"%string)) as [->|Hp].
  { split; [split; [|done]|done]. intros _ roles [= <-]. done. }
  destruct (decide (roles = "authenticated"%string)) as [->|Hauth].
  { destruct role as [r|]; (split; [|split; [done|]]); [| |split|]; try done.
    - split; [|done]. intros _ roles [= <-] _. exists r. split; [done|by left].
    - intros H. by destruct (H _ eq_refl Hp) as (r & [=] & _). }
  destruct role as [r|].
  - pose proof (has_role_spec roles r) as Hr. destruct (existsb _ _).
    + split; [split; [|done]|done]. intros _ roles' [= <-] _. exists r. split; [done|].
      right. by apply Hr.
    + split; [split; [done|]|by split]. intros H.
      destruct (H _ eq_refl Hp) as (r' & [= <-] & [?|Hl]); [done|].
      by assert (false = true) by by apply Hr.
  - split; [split; [done|]|done]. intros H. by destruct (H _ eq_refl Hp) as (r & [=] & _).
Qed.

Lemma access_decide_allow a action role : permitted a action role -> access_decide a action role = Allow.
Proof. apply access_decide_spec. Qed.

Lemma access_decide_denied a action role :
  ~ permitted a action role ->
  access_decide a action role = match role with Some _ => Forbidden | None => NeedsAuth end.
Proof.
  intros Hn. destruct (access_decide_spec a action role) as (Ha & Hl & Hf).
  destruct (access_decide a action role).
  - by destruct Hn; apply Ha.
  - by rewrite Hl.
  - by destruct (Hf eq_refl) as [r ->].
Qed.

(** * Model events and their subscriptions ([atomo/src/events.rs])

    What a write to a model publishes, and the filter a subscription applies to the
    stream of events.  The broadcast channel is tokio's: a receiver sees events, or learns
    that it lagged, or that the channel is closed. *)

Inductive EventType : Type :=
  | MCreated | MUpdated | MDeleted | MRestored | MHardDeleted | MCustom.

#[global] Instance EventType_eq_dec : EqDecision EventType.
Proof. solve_decision. Defined.

(** [format!(.., event_type)] with the derived [Debug]. *)
Definition event_type_debug (t : EventType) : string :=
  match t with
  | MCreated => "Created" | MUpdated => "Updated" | MDeleted => "Deleted"
  | MRestored => "Restored" | MHardDeleted => "HardDeleted" | MCustom => "Custom"
  end.

Record ModelEvent : Type := mkModelEvent {
  ev_type : EventType;
  ev_model : string;
  ev_data : Doc;
  ev_previous : option Doc;
  ev_timestamp : string;
  ev_id : string;
  ev_actor : option string;
  ev_origin : option string
}.

(** What [rx.recv().await] yields. *)
Inductive Received : Type := REvent (ev : ModelEvent) | RLagged (n : Z) | RClosed.

(** ** [SubscriptionBuilder] *)

Record Subscription : Type := mkSubscription {
  sb_model : string;
  sb_event_types : list EventType
}.

Definition subscription_new (model : string) : Subscription := mkSubscription model [].
Definition on_create (s : Subscription) : Subscription :=
  mkSubscription (sb_model s) (sb_event_types s ++ [MCreated]).
Definition on_update (s : Subscription) : Subscription :=
  mkSubscription (sb_model s) (sb_event_types s ++ [MUpdated]).
Definition on_delete (s : Subscription) : Subscription :=
  mkSubscription (sb_model s) (sb_event_types s ++ [MDeleted]).
Definition on_all (s : Subscription) : Subscription :=
  mkSubscription (sb_model s) [MCreated; MUpdated; MDeleted; MRestored; MHardDeleted].

Definition subscribed (s : Subscription) (ev : ModelEvent) : bool :=
  bool_decide (ev_model ev = sb_model s) &&
  (match sb_event_types s with [] => true | _ => false end ||
   bool_decide (ev_type ev ∈ sb_event_types s)).

(** [ModelEventStream::next] on what the receiver yields: the event, if any, and the rest
    of the stream.  Any error of the receiver ends the stream. *)
Fixpoint stream_next (s : Subscription) (rx : list Received)
    : option (option ModelEvent * list Received) :=
  match rx with
  | [] => None   (* waiting *)
  | REvent ev :: rest => if subscribed s ev then Some (Some ev, rest) else stream_next s rest
  | _ :: rest => Some (None, rest)
  end.

(** A subscription never loses or invents an event: the next event is the first one of
    its model and types, as long as the receiver yields events. *)
Lemma stream_next_first s (evs : list ModelEvent) ev rest :
  stream_next s (REvent <$> evs) = Some (Some ev, rest) ->
  exists before after, evs = before ++ ev :: after /\ rest = REvent <$> after /\
    subscribed s ev = true /\ forall e, e ∈ before -> subscribed s e = false.
Proof.
  induction evs as [|e evs IH]; [done|]. cbn [fmap list_fmap stream_next].
  destruct (subscribed s e) eqn:He.
  - intros [= <- <-]. exists [], evs. split; [done|]. split; [done|]. split; [done|].
    by intros ? ?%not_elem_of_nil.
  - intros (b & a & -> & Hr & Hs & Hb)%IH. exists (e :: b), a. split; [done|].
    do 2 (split; [done|]). intros x [->|Hx]%elem_of_cons; [done|by apply Hb].
Qed.
