(* ===== verification/Jobs.v ===== *)
(** * Durable job queue ([crates/atomo_server/src/jobs.rs])

    Every method of [JobStore] is one SQL statement or one transaction on the [jobs]
    table; it is modelled as its effect on the table, with what the database supplies
    (the clock, fresh ids and tokens, the rows other transactions have locked) as
    arguments, and [None] for a database error, which changes nothing.  Times are in
    microseconds. *)

From S2P Require Import Prelude Json.

Definition DEFAULT_BASE_BACKOFF_SECS : Z := 5.
Definition DEFAULT_CAP_BACKOFF_SECS : Z := 3600.

(** ** Retry policy *)

Inductive FailOutcome : Type :=
  | Retry (delay_secs : Z)
  | DeadLetter.

#[export] Instance FailOutcome_eq_dec : EqDecision FailOutcome.
Proof. solve_decision. Defined.

(** [attempts : u32], the others [u64] *)
Definition backoff_secs (attempts base_secs cap_secs : Z) : Z :=
  if attempts <=? 1 then Z.min base_secs cap_secs
  else
    let shift := Z.min (attempts - 1) 20 in
    Z.min (u64_saturating_mul base_secs (wrap_u64 (Z.shiftl 1 shift))) cap_secs.

Definition decide_on_fail (attempts max_attempts : Z) (retryable : bool)
    (base_secs cap_secs : Z) : FailOutcome :=
  if negb retryable || (max_attempts <=? attempts) then DeadLetter
  else Retry (backoff_secs attempts base_secs cap_secs).

(** ** The table *)

(** The values the code writes in the [status] column. *)
Inductive JobStatus : Type := Queued | Leased | Succeeded | Dead.

#[export] Instance JobStatus_eq_dec : EqDecision JobStatus.
Proof. solve_decision. Defined.

Definition status_name (s : JobStatus) : string :=
  match s with
  | Queued => "queued" | Leased => "leased" | Succeeded => "succeeded" | Dead => "dead"
  end.

Record JobRow : Type := mkJobRow {
  j_queue : string;
  j_kind : string;
  j_status : JobStatus;
  j_payload : Value;
  j_result : option Value;
  j_error : option string;
  j_key : option string;
  j_attempts : Z;
  j_max_attempts : Z;
  j_lease_id : option string;
  j_worker_id : option string;
  j_visible_at : Z;
  j_tenant_id : option string;
  j_priority : Z;
  j_created_at : Z;
  j_updated_at : Z
}.

Inductive EventType : Type := EvCreated | EvCustom.

(** A [Job] model event: its type, the job and the other entries of [data]. *)
Record JobEvent : Type := mkJobEvent {
  e_type : EventType;
  e_id : string;
  e_extra : list (string * Value)
}.

(** The table, keyed by the primary key, and the events sent, oldest first. *)
Record JobStore : Type := mkJobStore {
  jobs : gmap string JobRow;
  sent : list JobEvent
}.

Definition emit (t : EventType) (id : string) (extra : list (string * Value))
    (st : JobStore) : JobStore :=
  mkJobStore (jobs st) (sent st ++ [mkJobEvent t id extra]).

Definition set_jobs (js : gmap string JobRow) (st : JobStore) : JobStore :=
  mkJobStore js (sent st).

Definition secs (n : Z) : Z := n * 1000000.

(** ** Enqueue *)

Record Enqueue : Type := mkEnqueue {
  q_queue : string;
  q_kind : string;
  q_payload : Value;
  q_key : option string;
  q_max_attempts : Z;
  q_priority : Z;
  q_tenant : option string
}.

Definition new_row (now : Z) (e : Enqueue) : JobRow :=
  mkJobRow (q_queue e) (q_kind e) Queued (q_payload e) None None (q_key e) 0
    (q_max_attempts e) None None now (q_tenant e) (q_priority e) now now.

(** The rows with this (queue, idempotency_key): those of the unique partial index. *)
Definition same_key (e : Enqueue) (r : JobRow) : Prop :=
  q_key e <> None /\ j_queue r = q_queue e /\ j_key r = q_key e.
#[export] Instance same_key_dec e r : Decision (same_key e r).
Proof. unfold same_key. apply _. Defined.

Definition existing `{HashOrder} (e : Enqueue) (js : gmap string JobRow) : option string :=
  head ((filter (fun p => same_key e p.2) (hpairs js)).*1).

(** [enqueue_tx]: the id and whether a row was created. *)
Definition enqueue_tx `{HashOrder} (now : Z) (id : string) (e : Enqueue)
    (js : gmap string JobRow) : option ((string * bool) * gmap string JobRow) :=
  match existing e js with
  | Some i => Some ((i, false), js)
  | None =>
      match js !! id with
      | Some _ => None  (* primary key violation *)
      | None => Some ((id, true), <[id := new_row now e]> js)
      end
  end.

Definition emit_enqueued (id queue kind : string) (st : JobStore) : JobStore :=
  emit EvCreated id [("queue"%string, VString queue); ("kind"%string, VString kind);
                     ("status"%string, VString "queued")] st.

Definition enqueue `{HashOrder} (now : Z) (id : string) (e : Enqueue) (st : JobStore)
    : option (string * JobStore) :=
  match enqueue_tx now id e (jobs st) with
  | None => None
  | Some ((i, created), js) =>
      let st' := set_jobs js st in
      Some (i, if created : bool then emit_enqueued i (q_queue e) (q_kind e) st' else st')
  end.

(** ** Lease *)

Record LeasedJob : Type := mkLeasedJob {
  l_id : string;
  l_queue : string;
  l_kind : string;
  l_payload : Value;
  l_attempts : Z;
  l_max_attempts : Z;
  l_lease_id : string
}.

(** [WHERE queue = ANY($1) AND status = 'queued' AND visible_at <= NOW()] *)
Definition eligible (queues : list string) (now : Z) (r : JobRow) : Prop :=
  j_queue r ∈ queues /\ j_status r = Queued /\ j_visible_at r <= now.
#[export] Instance eligible_dec queues now r : Decision (eligible queues now r).
Proof. unfold eligible. apply _. Defined.

(** [ORDER BY priority DESC, visible_at] *)
Definition dispatch_le (a b : string * JobRow) : Prop :=
  j_priority b.2 < j_priority a.2 \/
  (j_priority a.2 = j_priority b.2 /\ j_visible_at a.2 <= j_visible_at b.2).
#[export] Instance dispatch_le_dec : RelDecision dispatch_le.
Proof. intros a b. unfold dispatch_le. apply _. Defined.

(** The [picked] CTE: eligible rows no other transaction has locked, in dispatch
    order (rows that compare equal in any order), at most [capacity] of them. *)
Definition candidates `{HashOrder} (queues : list string) (now : Z) (locked : gset string)
    (js : gmap string JobRow) : list (string * JobRow) :=
  merge_sort dispatch_le
    (filter (fun p => (p.1 ∉ locked) /\ eligible queues now p.2) (hpairs js)).

Definition picked `{HashOrder} (queues : list string) (now : Z) (locked : gset string)
    (capacity : Z) (js : gmap string JobRow) : list (string * JobRow) :=
  take (Z.to_nat capacity) (candidates queues now locked js).

Definition leased_row (now visibility_secs : Z) (token : string) (r : JobRow) : JobRow :=
  mkJobRow (j_queue r) (j_kind r) Leased (j_payload r) (j_result r) (j_error r) (j_key r)
    (j_attempts r + 1) (j_max_attempts r) (Some token) (j_worker_id r)
    (now + secs visibility_secs) (j_tenant_id r) (j_priority r) (j_created_at r) now.

Definition lease_of (token : string) (p : string * JobRow) : LeasedJob :=
  mkLeasedJob p.1 (j_queue p.2) (j_kind p.2) (j_payload p.2) (j_attempts p.2 + 1)
    (j_max_attempts p.2) token.

Definition emit_leased (j : LeasedJob) (st : JobStore) : JobStore :=
  emit EvCustom (l_id j) [("status"%string, VString "leased");
                          ("attempts"%string, json_int (l_attempts j))] st.

(** [lease]; [tokens] gives the uuid drawn for each row.  A negative [LIMIT] and an
    [INT] overflow of [attempts] are database errors. *)
Definition lease `{HashOrder} (now : Z) (tokens : string -> string) (locked : gset string)
    (queues : list string) (capacity visibility_secs : Z) (st : JobStore)
    : option (list LeasedJob * JobStore) :=
  if decide (capacity < 0) then None else
  let ps := picked queues now locked capacity (jobs st) in
  if decide (Exists (fun p => 2 ^ 31 - 1 <= j_attempts p.2) ps) then None else
  let js := foldr (fun p m => <[p.1 := leased_row now visibility_secs (tokens p.1) p.2]> m)
              (jobs st) ps in
  (* RETURNING: in no particular order *)
  let leased := horder ((fun p => lease_of (tokens p.1) p) <$> ps) in
  Some (leased, foldl (fun s j => emit_leased j s) (set_jobs js st) leased).

(** ** Worker reports *)

(** [WHERE id = $1 AND lease_id = $2 AND status = 'leased'] *)
Definition holds_lease (js : gmap string JobRow) (id lease_id : string) : option JobRow :=
  match js !! id with
  | Some r => if decide (j_lease_id r = Some lease_id /\ j_status r = Leased)
              then Some r else None
  | None => None
  end.

Definition heartbeat (now : Z) (id lease_id : string) (visibility_secs : Z) (st : JobStore)
    : bool * JobStore :=
  match holds_lease (jobs st) id lease_id with
  | None => (false, st)
  | Some r =>
      (true, set_jobs (<[id := mkJobRow (j_queue r) (j_kind r) (j_status r) (j_payload r)
         (j_result r) (j_error r) (j_key r) (j_attempts r) (j_max_attempts r) (j_lease_id r)
         (j_worker_id r) (now + secs visibility_secs) (j_tenant_id r) (j_priority r)
         (j_created_at r) now]> (jobs st)) st)
  end.

Definition complete (now : Z) (id lease_id : string) (result : Value) (st : JobStore)
    : bool * JobStore :=
  match holds_lease (jobs st) id lease_id with
  | None => (false, st)
  | Some r =>
      (true, emit EvCustom id [("status"%string, VString "succeeded")]
         (set_jobs (<[id := mkJobRow (j_queue r) (j_kind r) Succeeded (j_payload r)
            (Some result) (j_error r) (j_key r) (j_attempts r) (j_max_attempts r) None
            (j_worker_id r) (j_visible_at r) (j_tenant_id r) (j_priority r)
            (j_created_at r) now]> (jobs st)) st))
  end.

(** [i32::max(0) as u32] *)
Definition clamp_u32 (n : Z) : Z := Z.max n 0.

(** The row after a failed attempt. *)
Definition failed_row (now : Z) (error : string) (o : FailOutcome) (r : JobRow) : JobRow :=
  mkJobRow (j_queue r) (j_kind r)
    (match o with Retry _ => Queued | DeadLetter => Dead end)
    (j_payload r) (j_result r) (Some error) (j_key r) (j_attempts r) (j_max_attempts r)
    None (j_worker_id r)
    (match o with Retry delay_secs => now + secs delay_secs | DeadLetter => j_visible_at r end)
    (j_tenant_id r) (j_priority r) (j_created_at r) now.

Definition fail (now : Z) (id lease_id error : string) (retryable : bool) (st : JobStore)
    : option FailOutcome * JobStore :=
  match holds_lease (jobs st) id lease_id with
  | None => (None, st)
  | Some r =>
      let outcome := decide_on_fail (clamp_u32 (j_attempts r)) (clamp_u32 (j_max_attempts r))
        retryable DEFAULT_BASE_BACKOFF_SECS DEFAULT_CAP_BACKOFF_SECS in
      (Some outcome,
       emit EvCustom id [("error"%string, VString error);
         ("status"%string, VString (match outcome with
                                    | Retry _ => "queued" | DeadLetter => "dead" end))]
         (set_jobs (<[id := failed_row now error outcome r]> (jobs st)) st))
  end.

(** [WHERE status = 'leased' AND visible_at < NOW()] *)
Definition expired (now : Z) (r : JobRow) : Prop :=
  j_status r = Leased /\ j_visible_at r < now.
#[export] Instance expired_dec now r : Decision (expired now r).
Proof. unfold expired. apply _. Defined.

Definition reclaimed_row (now : Z) (r : JobRow) : JobRow :=
  mkJobRow (j_queue r) (j_kind r) Queued (j_payload r) (j_result r) (j_error r) (j_key r)
    (j_attempts r) (j_max_attempts r) None None (j_visible_at r) (j_tenant_id r)
    (j_priority r) (j_created_at r) now.

Definition reclaim_expired (now : Z) (st : JobStore) : Z * JobStore :=
  (Z.of_nat (size (filter (fun p => expired now p.2) (jobs st))),
   set_jobs ((fun r => if decide (expired now r) then reclaimed_row now r else r)
               <$> jobs st) st).

(** ** Reading *)

Definition status (id : string) (st : JobStore) : option string :=
  (fun r => status_name (j_status r)) <$> jobs st !! id.

Record JobView : Type := mkJobView {
  v_id : string;
  v_queue : string;
  v_kind : string;
  v_status : string;
  v_attempts : Z;
  v_max_attempts : Z;
  v_result : option Value;
  v_error : option string;
  v_tenant_id : option string
}.

Definition get (id : string) (st : JobStore) : option JobView :=
  (fun r => mkJobView id (j_queue r) (j_kind r) (status_name (j_status r)) (j_attempts r)
     (j_max_attempts r) (j_result r) (j_error r) (j_tenant_id r)) <$> jobs st !! id.

(** [$1 IS NULL OR column = $1] *)
Definition matches (filter_value : option string) (column : string) : Prop :=
  match filter_value with Some v => column = v | None => True end.
#[export] Instance matches_dec f c : Decision (matches f c).
Proof. destruct f; simpl; apply _. Defined.

(** [ORDER BY created_at DESC] *)
Definition newest_first (a b : string * JobRow) : Prop := j_created_at b.2 <= j_created_at a.2.
#[export] Instance newest_first_dec : RelDecision newest_first.
Proof. intros a b. unfold newest_first. apply _. Defined.

(** [list_recent]: the rows of the page ([limit.clamp(1, 200)], [offset.max(0)]). *)
Definition list_recent `{HashOrder} (queue status : option string) (limit offset : Z)
    (st : JobStore) : list (string * JobRow) :=
  let rows := filter (fun p => matches queue (j_queue p.2) /\
                               matches status (status_name (j_status p.2))) (hpairs (jobs st)) in
  take (Z.to_nat (Z.max 1 (Z.min limit 200)))
    (drop (Z.to_nat (Z.max offset 0)) (merge_sort newest_first rows)).

(** [stats]: counts by status, counts by (queue, status), age of the oldest queued job
    in microseconds. *)
Definition count_status (st : JobStore) (s : JobStatus) : Z :=
  Z.of_nat (size (filter (fun p : string * JobRow => j_status p.2 = s) (jobs st))).
Definition count_queue_status (st : JobStore) (q : string) (s : JobStatus) : Z :=
  Z.of_nat (size (filter (fun p : string * JobRow => j_queue p.2 = q /\ j_status p.2 = s) (jobs st))).
Definition oldest_queued (now : Z) (st : JobStore) : option Z :=
  let times := (fun p : string * JobRow => j_visible_at p.2) <$>
    map_to_list (filter (fun p : string * JobRow => j_status p.2 = Queued) (jobs st)) in
  match times with
  | [] => None
  | t :: ts => Some (now - foldr Z.min t ts)
  end.

#[global] Arguments heartbeat : simpl never.
#[global] Arguments complete : simpl never.
#[global] Arguments fail : simpl never.
#[global] Arguments lease : simpl never.
#[global] Arguments enqueue : simpl never.
#[global] Arguments reclaim_expired : simpl never.
