(* ===== verification/JobsSpec.v ===== *)
(** * The job life cycle

    Histories of the job store: any sequence of its operations, each with the clock,
    the ids, the tokens and the locked rows it meets.  The file proves the status
    machine, the idempotence of enqueue, the rejection of stale workers, the dispatch
    order and the retry policy. *)

From S2P Require Import Prelude Json Jobs.

Inductive JobOp : Type :=
  | OEnqueue (now : Z) (id : string) (e : Enqueue)
  | OLease (now : Z) (tokens : string -> string) (locked : gset string)
      (queues : list string) (capacity visibility_secs : Z)
  | OHeartbeat (now : Z) (id lease_id : string) (visibility_secs : Z)
  | OComplete (now : Z) (id lease_id : string) (result : Value)
  | OFail (now : Z) (id lease_id error : string) (retryable : bool)
  | OReclaim (now : Z).

Section Life.
Context {ho : HashOrder}.

(** An operation that ends in a database error leaves the store as it was. *)
Definition apply_op (st : JobStore) (op : JobOp) : JobStore :=
  match op with
  | OEnqueue now id e => from_option snd st (enqueue now id e st)
  | OLease now tokens locked queues capacity vis =>
      from_option snd st (lease now tokens locked queues capacity vis st)
  | OHeartbeat now id tok vis => (heartbeat now id tok vis st).2
  | OComplete now id tok res => (complete now id tok res st).2
  | OFail now id tok err retryable => (fail now id tok err retryable st).2
  | OReclaim now => (reclaim_expired now st).2
  end.

Definition run_jobs (st : JobStore) (ops : list JobOp) : JobStore := foldl apply_op st ops.

(** The token an operation may draw for a row. *)
Definition draws (op : JobOp) (id : string) : option string :=
  match op with OLease _ tokens _ _ _ _ => Some (tokens id) | _ => None end.

(** What never changes in a row. *)
Record same_job (r r' : JobRow) : Prop := {
  sj_queue : j_queue r' = j_queue r;
  sj_kind : j_kind r' = j_kind r;
  sj_payload : j_payload r' = j_payload r;
  sj_key : j_key r' = j_key r;
  sj_max : j_max_attempts r' = j_max_attempts r;
  sj_tenant : j_tenant_id r' = j_tenant_id r;
  sj_priority : j_priority r' = j_priority r;
  sj_created : j_created_at r' = j_created_at r
}.

(** One step of a row's status machine; [tok] is the token drawn, if any. *)
Inductive transition (tok : option string) (r r' : JobRow) : Prop :=
  | tr_same : r' = r -> transition tok r r'
  | tr_held : j_status r = Leased -> j_status r' = Leased ->
      j_lease_id r' = j_lease_id r -> j_attempts r' = j_attempts r -> transition tok r r'
  | tr_lease t : tok = Some t -> j_status r = Queued -> j_status r' = Leased ->
      j_lease_id r' = Some t -> j_attempts r' = j_attempts r + 1 -> transition tok r r'
  | tr_release : j_status r = Leased -> j_status r' <> Leased ->
      j_lease_id r' = None -> j_attempts r' = j_attempts r -> transition tok r r'.

#[global] Instance same_job_refl : Reflexive same_job.
Proof. by split. Qed.
#[global] Instance same_job_trans : Transitive same_job.
Proof. intros a b c [] []. split; congruence. Qed.

Record jobs_wf (js : gmap string JobRow) : Prop := {
  jw_lease : forall id r, js !! id = Some r ->
    (is_Some (j_lease_id r) <-> j_status r = Leased);
  jw_attempts : forall id r, js !! id = Some r ->
    0 <= j_attempts r /\ (j_status r = Leased -> 1 <= j_attempts r);
  jw_unique : forall i j ri rj, js !! i = Some ri -> js !! j = Some rj ->
    j_key ri <> None -> j_queue ri = j_queue rj -> j_key ri = j_key rj -> i = j
}.

(** ** The effect of each operation on the table *)

Lemma holds_lease_spec js id tok r :
  holds_lease js id tok = Some r <->
    js !! id = Some r /\ j_lease_id r = Some tok /\ j_status r = Leased.
Proof.
  unfold holds_lease. destruct (js !! id) as [r'|]; [|naive_solver].
  case_decide; naive_solver.
Qed.

Lemma existing_spec e js i :
  existing e js = Some i -> exists r, js !! i = Some r /\ same_key e r.
Proof.
  unfold existing. intros Hh.
  assert (Hin : i ∈ (filter (fun p => same_key e p.2) (hpairs js)).*1).
  { destruct (filter _ _).*1 as [|x l] eqn:Hf; [done|]. injection Hh as ->. left. }
  apply list_elem_of_fmap in Hin as ([i' r] & -> & Hin).
  apply list_elem_of_filter in Hin as [Hk Hp]. apply elem_of_hpairs in Hp. by exists r.
Qed.

Lemma existing_none e js :
  existing e js = None -> forall i r, js !! i = Some r -> ~ same_key e r.
Proof.
  unfold existing. intros Hh i r Hr Hk.
  assert (Hin : i ∈ (filter (fun p => same_key e p.2) (hpairs js)).*1).
  { apply list_elem_of_fmap. exists (i, r). split; [done|].
    apply list_elem_of_filter. split; [done|]. by apply elem_of_hpairs. }
  destruct (filter _ _).*1; [by apply not_elem_of_nil in Hin|done].
Qed.

Lemma existing_unique e js i r :
  jobs_wf js -> js !! i = Some r -> same_key e r -> existing e js = Some i.
Proof.
  intros Hwf Hr Hk. destruct (existing e js) as [i'|] eqn:He.
  - apply existing_spec in He as (r' & Hr' & Hk'). f_equal.
    destruct Hk as (Hn & Hq & Hkey), Hk' as (_ & Hq' & Hkey').
    eapply (jw_unique js Hwf); [exact Hr'|exact Hr|congruence..].
  - exfalso. by eapply existing_none.
Qed.

(** The rows an operation inserts into the table. *)
Definition inserts (st : JobStore) (op : JobOp) (id : string) : option JobRow :=
  match op with
  | OEnqueue now id' e =>
      if decide (id = id' /\ existing e (jobs st) = None) then Some (new_row now e) else None
  | _ => None
  end.

Lemma emit_jobs t id x st : jobs (emit t id x st) = jobs st.
Proof. done. Qed.

Lemma emit_all_jobs (l : list LeasedJob) st :
  jobs (foldl (fun s j => emit_leased j s) st l) = jobs st.
Proof. revert st. induction l as [|j l IH]; intros st; [done|]. simpl. by rewrite IH. Qed.

Lemma enqueue_jobs now id e st :
  jobs (from_option snd st (enqueue now id e st)) =
    match existing e (jobs st), jobs st !! id with
    | None, None => <[id := new_row now e]> (jobs st)
    | _, _ => jobs st
    end.
Proof.
  unfold enqueue, enqueue_tx. destruct (existing e (jobs st)); [done|].
  by destruct (jobs st !! id).
Qed.

Section Lease.
Context (now : Z) (locked : gset string) (queues : list string) (js : gmap string JobRow).

Lemma elem_of_candidates p :
  p ∈ candidates queues now locked js <->
    js !! p.1 = Some p.2 /\ (p.1 ∉ locked) /\ eligible queues now p.2.
Proof.
  unfold candidates. rewrite merge_sort_Permutation, list_elem_of_filter.
  destruct p as [id r]. rewrite elem_of_hpairs. simpl. tauto.
Qed.

Lemma elem_of_picked cap p :
  p ∈ picked queues now locked cap js ->
    js !! p.1 = Some p.2 /\ (p.1 ∉ locked) /\ eligible queues now p.2.
Proof. intros Hp%subseteq_take. by apply elem_of_candidates. Qed.

Lemma NoDup_hpairs_fst : NoDup (hpairs js).*1.
Proof. unfold hpairs. rewrite horder_perm. apply NoDup_fst_map_to_list. Qed.

Lemma NoDup_candidates : NoDup (candidates queues now locked js).*1.
Proof.
  unfold candidates. rewrite merge_sort_Permutation.
  eapply sublist_NoDup; [apply NoDup_hpairs_fst|].
  apply fmap_sublist, sublist_filter.
Qed.

Lemma NoDup_picked cap : NoDup (picked queues now locked cap js).*1.
Proof.
  eapply sublist_NoDup; [apply NoDup_candidates|]. apply fmap_sublist, sublist_take.
Qed.

#[local] Instance dispatch_le_trans : Transitive dispatch_le.
Proof. intros a b c. unfold dispatch_le. lia. Qed.
#[local] Instance dispatch_le_total : Total dispatch_le.
Proof. intros a b. unfold dispatch_le. lia. Qed.

Lemma candidates_sorted : StronglySorted dispatch_le (candidates queues now locked js).
Proof. apply StronglySorted_merge_sort; apply _. Qed.

(** No candidate left behind goes before a picked one. *)
Lemma picked_first cap p q :
  p ∈ picked queues now locked cap js ->
  q ∈ candidates queues now locked js -> q ∉ picked queues now locked cap js ->
  dispatch_le p q.
Proof.
  unfold picked. intros Hp Hq Hnq. pose proof candidates_sorted as Hs.
  rewrite <- (take_drop (Z.to_nat cap) (candidates queues now locked js)) in Hs, Hq.
  apply elem_of_app in Hq as [Hq|Hq]; [done|].
  eapply StronglySorted_app_1_elem_of; [exact Hs|exact Hp|exact Hq].
Qed.
End Lease.

Lemma lease_jobs now tokens locked queues cap vis st :
  jobs (from_option snd st (lease now tokens locked queues cap vis st)) = jobs st \/
  jobs (from_option snd st (lease now tokens locked queues cap vis st)) =
    foldr (fun p m => <[p.1 := leased_row now vis (tokens p.1) p.2]> m) (jobs st)
      (picked queues now locked cap (jobs st)).
Proof.
  unfold lease. case_decide; [by left|]. case_decide; [by left|]. right.
  simpl. by rewrite emit_all_jobs.
Qed.

(** What an operation may make of a row. *)
Definition row_step (tok : option string) (r r' : JobRow) : Prop :=
  same_job r r' /\ transition tok r r' /\
  (j_status r <> Queued -> j_status r <> Leased -> r' = r).

Lemma row_step_refl tok r : row_step tok r r.
Proof. split; [done|]. split; [by apply tr_same|done]. Qed.

(** A worker report on a held lease touches that row only. *)
Lemma report_row js id' t0 r0 r' tok id r :
  holds_lease js id' t0 = Some r0 -> same_job r0 r' -> transition tok r0 r' ->
  js !! id = Some r ->
  exists r'', <[id' := r']> js !! id = Some r'' /\ row_step tok r r''.
Proof.
  intros (Hr0 & _ & Hl)%holds_lease_spec Hsame Htr Hr. rewrite lookup_insert.
  destruct (decide (id' = id)) as [->|].
  - simplify_eq. exists r'. split; [done|]. split; [done|]. split; [done|]. congruence.
  - exists r. split; [done|]. apply row_step_refl.
Qed.

Lemma failed_row_step now err o r tok :
  j_status r = Leased ->
  same_job r (failed_row now err o r) /\ transition tok r (failed_row now err o r).
Proof. intros Hl. split; [by split|]. apply tr_release; try done. by destruct o. Qed.

(** What any operation does to a row of the table. *)
Lemma op_row st op id r :
  jobs st !! id = Some r ->
  exists r', jobs (apply_op st op) !! id = Some r' /\ row_step (draws op id) r r'.
Proof.
  intros Hr.
  assert (Hid : exists r', jobs st !! id = Some r' /\ row_step (draws op id) r r').
  { exists r. split; [done|]. apply row_step_refl. }
  destruct op as [now id' e|now tokens locked queues cap vis|now id' tok vis|now id' tok res
    |now id' tok err ry|now]; cbn [apply_op].
  - rewrite enqueue_jobs. destruct (existing _ _); [done|].
    destruct (jobs st !! id') eqn:Hid'; [done|].
    rewrite lookup_insert_ne by congruence. done.
  - destruct (lease_jobs now tokens locked queues cap vis st) as [->| ->]; [done|].
    set (ps := picked _ _ _ _ _).
    destruct (decide (id ∈ ps.*1)) as [Hin|Hin].
    + apply list_elem_of_fmap in Hin as (p & -> & Hp).
      rewrite (foldr_insert_in (fun p => leased_row now vis (tokens p.1) p.2)) by
        (apply NoDup_picked || done).
      pose proof (elem_of_picked _ _ _ _ _ _ Hp) as (Hp1 & _ & _ & Hq & _).
      simplify_eq. eexists. split; [done|]. split; [by split|]. split; [|congruence].
      by eapply tr_lease.
    + by rewrite (foldr_insert_notin (fun p => leased_row now vis (tokens p.1) p.2)).
  - unfold heartbeat. destruct (holds_lease _ _ _) as [r0|] eqn:Hh; [|done].
    eapply report_row; [exact Hh|by split| |done].
    apply holds_lease_spec in Hh as (_ & _ & ?). by apply tr_held.
  - unfold complete. destruct (holds_lease _ _ _) as [r0|] eqn:Hh; [|done].
    eapply report_row; [exact Hh|by split| |done].
    apply holds_lease_spec in Hh as (_ & _ & ?). by apply tr_release.
  - unfold fail. destruct (holds_lease _ _ _) as [r0|] eqn:Hh; [|done].
    pose proof Hh as (_ & _ & Hl)%holds_lease_spec.
    set (o := decide_on_fail _ _ _ _ _).
    destruct (failed_row_step now err o r0 (draws (OFail now id' tok err ry) id) Hl).
    by eapply report_row.
  - unfold reclaim_expired. cbn [snd set_jobs jobs]. rewrite lookup_fmap, Hr.
    eexists. split; [reflexivity|].
    case_decide as Hd; [|apply row_step_refl].
    destruct Hd as [Hl _]. split; [by split|]. split; [by apply tr_release|congruence].
Qed.

(** Rows appear only by an enqueue that found no row with its key. *)
Lemma op_new_row st op id r :
  jobs st !! id = None -> jobs (apply_op st op) !! id = Some r ->
  exists now e, op = OEnqueue now id e /\ existing e (jobs st) = None /\ r = new_row now e.
Proof.
  intros Hn. destruct op as [now id' e|now tokens locked queues cap vis|now id' tok vis
    |now id' tok res|now id' tok err ry|now]; cbn [apply_op].
  - rewrite enqueue_jobs. destruct (existing e (jobs st)) eqn:He; [congruence|].
    destruct (jobs st !! id'); [congruence|].
    rewrite lookup_insert_Some. intros [[-> <-]|[_ ?]]; [|congruence]. by exists now, e.
  - destruct (lease_jobs now tokens locked queues cap vis st) as [->| ->]; [congruence|].
    assert (Hnone := proj2 (foldr_insert_None (fun p => leased_row now vis (tokens p.1) p.2)
      (picked queues now locked cap (jobs st)) (jobs st) id
      (fun p Hp => ex_intro _ _ (proj1 (elem_of_picked _ _ _ _ _ _ Hp)))) Hn).
    cbn beta in Hnone. congruence.
  - unfold heartbeat. destruct (holds_lease _ _ _) as [r0|] eqn:Hh; [|simpl; congruence].
    apply holds_lease_spec in Hh as (Hr0 & _). simpl.
    rewrite lookup_insert_ne; congruence.
  - unfold complete. destruct (holds_lease _ _ _) as [r0|] eqn:Hh; [|simpl; congruence].
    apply holds_lease_spec in Hh as (Hr0 & _). simpl.
    rewrite lookup_insert_ne; congruence.
  - unfold fail. destruct (holds_lease _ _ _) as [r0|] eqn:Hh; [|simpl; congruence].
    apply holds_lease_spec in Hh as (Hr0 & _). simpl.
    rewrite lookup_insert_ne; congruence.
  - simpl. rewrite lookup_fmap, Hn. done.
Qed.

Lemma jobs_wf_step st op : jobs_wf (jobs st) -> jobs_wf (jobs (apply_op st op)).
Proof.
  intros Hwf.
  assert (Hold : forall id r', jobs (apply_op st op) !! id = Some r' ->
    (exists r, jobs st !! id = Some r /\ row_step (draws op id) r r') \/
    (jobs st !! id = None /\ exists now e, op = OEnqueue now id e /\
       existing e (jobs st) = None /\ r' = new_row now e)).
  { intros id r' Hr'. destruct (jobs st !! id) as [r|] eqn:Hr.
    - left. destruct (op_row st op id r Hr) as (r2 & Hr2 & Hs).
      exists r. split; [done|]. congruence.
    - right. split; [done|]. by apply op_new_row. }
  split.
  - intros id r' Hr'. destruct (Hold id r' Hr') as [(r & Hr & _ & Htr & _)|(_ & now & e & _ & _ & ->)].
    + pose proof (jw_lease _ Hwf id r Hr) as Hl.
      destruct Htr as [->|Hs Hs' Hk _|t _ _ Hs' Hk _|_ Hs' Hk _]; [done|..]; rewrite Hk.
      * rewrite Hl. intuition congruence.
      * split; [done|]. by eexists.
      * split; [by intros [? ?]|done].
    + simpl. split; [by intros [? ?]|done].
  - intros id r' Hr'. destruct (Hold id r' Hr') as [(r & Hr & _ & Htr & _)|(_ & now & e & _ & _ & ->)];
      [|done].
    pose proof (jw_attempts _ Hwf id r Hr) as [Ha Hb].
    destruct Htr as [->|Hs Hs' _ Heq|t _ Hs Hs' _ Heq|Hs Hs' _ Heq]; [done|..]; rewrite Heq.
    + auto.
    + lia.
    + split; [lia|congruence].
  - intros i j ri rj Hi Hj Hn Hq Hk.
    destruct (Hold i ri Hi) as [(r1 & Hr1 & Hs1 & _)|(Hno1 & now1 & e1 & Hop1 & He1 & ->)],
      (Hold j rj Hj) as [(r2 & Hr2 & Hs2 & _)|(Hno2 & now2 & e2 & Hop2 & He2 & ->)].
    + destruct Hs1, Hs2. eapply (jw_unique _ Hwf); [exact Hr1|exact Hr2|congruence..].
    + exfalso. destruct Hs1. eapply (existing_none e2 _ He2 i r1 Hr1).
      simpl in *. split; [congruence|]. split; congruence.
    + exfalso. destruct Hs2. eapply (existing_none e1 _ He1 j r2 Hr2).
      simpl in *. split; [congruence|]. split; congruence.
    + congruence.
Qed.

Lemma run_jobs_app st ops1 ops2 : run_jobs st (ops1 ++ ops2) = run_jobs (run_jobs st ops1) ops2.
Proof. apply foldl_app. Qed.

Lemma jobs_wf_run st ops : jobs_wf (jobs st) -> jobs_wf (jobs (run_jobs st ops)).
Proof.
  revert st. induction ops as [|op ops IH]; intros st Hwf; [done|].
  apply IH. by apply jobs_wf_step.
Qed.

Definition job_store_new : JobStore := mkJobStore ∅ [].

Lemma jobs_wf_new : jobs_wf (jobs job_store_new).
Proof. split; intros *; simpl; by rewrite lookup_empty. Qed.

(** ** The life of a row through a history *)

Lemma row_history st ops id r :
  jobs st !! id = Some r ->
  exists r', jobs (run_jobs st ops) !! id = Some r' /\ same_job r r' /\
    j_attempts r <= j_attempts r' /\
    (j_status r = Succeeded \/ j_status r = Dead -> r' = r).
Proof.
  revert st r. induction ops as [|op ops IH]; intros st r Hr.
  - exists r. split; [done|]. split; [done|]. split; [lia|done].
  - destruct (op_row st op id r Hr) as (r1 & Hr1 & Hs1 & Htr & Ht).
    destruct (IH (apply_op st op) r1 Hr1) as (r2 & Hr2 & Hs2 & Ha & Ht2).
    exists r2. split; [done|]. split; [by etrans|]. split.
    + destruct Htr as [->|? ? ? Heq|? ? ? ? ? Heq|? ? ? Heq]; [done|lia..].
    + intros Hterm. assert (r1 = r) as -> by (apply Ht; destruct Hterm; congruence). auto.
Qed.

(** The token [tok] is not the current lease of [id]. *)
Definition not_held (tok id : string) (st : JobStore) : Prop :=
  forall r, jobs st !! id = Some r -> j_lease_id r <> Some tok.

Lemma not_held_step st op tok id :
  not_held tok id st -> draws op id <> Some tok -> not_held tok id (apply_op st op).
Proof.
  intros Hn Hd r' Hr'. destruct (jobs st !! id) as [r|] eqn:Hr.
  - destruct (op_row st op id r Hr) as (r2 & Hr2 & _ & Htr & _). simplify_eq.
    destruct Htr as [->|_ _ -> _|t Ht _ _ -> _|_ _ -> _]; [by apply Hn..|congruence|done].
  - destruct (op_new_row st op id r' Hr Hr') as (now & e & _ & _ & ->). done.
Qed.

Lemma not_held_run st ops tok id :
  not_held tok id st -> (forall op, op ∈ ops -> draws op id <> Some tok) ->
  not_held tok id (run_jobs st ops).
Proof.
  revert st. induction ops as [|op ops IH]; intros st Hn Hd; [done|].
  apply IH; [apply not_held_step; [done|apply Hd; left]|].
  intros op' Hop. apply Hd. by right.
Qed.

Lemma not_held_rejected st tok id :
  not_held tok id st -> holds_lease (jobs st) id tok = None.
Proof.
  intros Hn. destruct (holds_lease _ _ _) as [r|] eqn:Hh; [|done].
  apply holds_lease_spec in Hh as (Hr & Hl & _). by destruct (Hn r Hr).
Qed.

Lemma rejected_not_held st tok id :
  jobs_wf (jobs st) -> holds_lease (jobs st) id tok = None -> not_held tok id st.
Proof.
  intros Hwf Hh r Hr Hl. assert (Hs : holds_lease (jobs st) id tok = Some r); [|congruence].
  apply holds_lease_spec. split; [done|]. split; [done|].
  apply (jw_lease _ Hwf id r Hr). by eexists.
Qed.

(** ** Theorems *)

(** C3: the status machine.  In every history of the store, from an empty table: a
    row never disappears; its identity (queue, kind, payload, key, limits, tenant,
    priority) never changes; attempts never decrease; a succeeded or dead job is never
    touched again, by any worker, lease or reclaim; and at every point exactly the
    leased rows carry a lease token and no two rows share a (queue, key). *)
Theorem job_lifecycle (ops1 ops2 : list JobOp) (id : string) (r : JobRow) :
  let st1 := run_jobs job_store_new ops1 in
  let st2 := run_jobs st1 ops2 in
  jobs_wf (jobs st1) /\
  (jobs st1 !! id = Some r ->
   exists r', jobs st2 !! id = Some r' /\ same_job r r' /\ j_attempts r <= j_attempts r' /\
     (j_status r = Succeeded \/ j_status r = Dead -> r' = r)).
Proof.
  intros st1 st2. split; [apply jobs_wf_run, jobs_wf_new|]. apply row_history.
Qed.

(** enqueue is idempotent for good.  Once a job was enqueued (or found) under a
    (queue, idempotency key), then, whatever happened to it since (leased, failed,
    completed, reclaimed), enqueuing under the same queue and key returns the same
    id, creates nothing and sends no event. *)
Theorem enqueue_idempotent (ops0 ops : list JobOp) (now now' : Z) (id id' i : string)
    (e e' : Enqueue) (st1 : JobStore) :
  q_key e <> None ->
  enqueue now id e (run_jobs job_store_new ops0) = Some (i, st1) ->
  q_queue e' = q_queue e -> q_key e' = q_key e ->
  let st2 := run_jobs st1 ops in
  enqueue now' id' e' st2 = Some (i, st2).
Proof.
  intros Hk He Hq Hke st2. set (st0 := run_jobs job_store_new ops0) in *.
  assert (Hwf0 : jobs_wf (jobs st0)) by apply jobs_wf_run, jobs_wf_new.
  assert (Hst1 : st1 = apply_op st0 (OEnqueue now id e)) by (cbn [apply_op]; by rewrite He).
  assert (Hi : exists r, jobs st1 !! i = Some r /\ same_key e r).
  { unfold enqueue, enqueue_tx in He. destruct (existing e (jobs st0)) as [i'|] eqn:Hex.
    - injection He as <- <-. by apply existing_spec.
    - destruct (jobs st0 !! id); [done|]. injection He as <- <-.
      exists (new_row now e). split; [apply lookup_insert_eq|by split_and!]. }
  destruct Hi as (r & Hr & _ & Hrq & Hrk).
  destruct (row_history st1 ops i r Hr) as (r' & Hr' & [Hq' _ _ Hk' _ _ _ _] & _).
  assert (Hex : existing e' (jobs st2) = Some i).
  { eapply existing_unique; [|exact Hr'|split_and!; congruence].
    apply jobs_wf_run. rewrite Hst1. by apply jobs_wf_step. }
  unfold enqueue, enqueue_tx. rewrite Hex. unfold set_jobs. by destruct st2.
Qed.

(** no zombie worker.  A lease token that is not (or no longer) the job's current
    lease is rejected for ever, as long as no later lease draws that very token for
    the job: after any history, heartbeat, complete and fail with it answer "no" and
    change nothing, so a stalled worker cannot clobber the job after its lease was
    reclaimed, finished or given to another. *)
Theorem stale_lease_rejected (ops0 ops : list JobOp) (id tok : string) :
  let st1 := run_jobs job_store_new ops0 in
  let st2 := run_jobs st1 ops in
  holds_lease (jobs st1) id tok = None ->
  (forall op, op ∈ ops -> draws op id <> Some tok) ->
  forall now vis res err retryable,
    heartbeat now id tok vis st2 = (false, st2) /\
    complete now id tok res st2 = (false, st2) /\
    fail now id tok err retryable st2 = (None, st2).
Proof.
  intros st1 st2 Hh Hd now vis res err retryable.
  assert (Hn : holds_lease (jobs st2) id tok = None).
  { apply not_held_rejected, not_held_run; [|done]. apply rejected_not_held; [|done].
    apply jobs_wf_run, jobs_wf_new. }
  unfold heartbeat, complete, fail. by rewrite Hn.
Qed.

Lemma lease_success now tokens locked queues cap vis st leased st' :
  lease now tokens locked queues cap vis st = Some (leased, st') ->
  let ps := picked queues now locked cap (jobs st) in
  0 <= cap /\ leased ≡ₚ ((fun p => lease_of (tokens p.1) p) <$> ps) /\
  jobs st' = foldr (fun p m => <[p.1 := leased_row now vis (tokens p.1) p.2]> m) (jobs st) ps.
Proof.
  unfold lease. case_decide; [done|]. case_decide; [done|]. intros [= <- <-].
  split; [lia|]. split; [by rewrite horder_perm|]. by rewrite emit_all_jobs.
Qed.

Lemma leased_ids now tokens locked queues cap vis st leased st' :
  lease now tokens locked queues cap vis st = Some (leased, st') ->
  (l_id <$> leased) ≡ₚ (picked queues now locked cap (jobs st)).*1.
Proof.
  intros Hl. apply lease_success in Hl as (_ & Hp & _). rewrite Hp, <- list_fmap_compose.
  by replace (l_id ∘ (λ p, lease_of (tokens p.1) p)) with (fun p : string * JobRow => p.1).
Qed.

(** Each job handed out was eligible and is leased now. *)
Lemma lease_hands_out now tokens locked queues cap vis st leased st' :
  lease now tokens locked queues cap vis st = Some (leased, st') ->
  Z.of_nat (length leased) <= cap /\
  (forall j, j ∈ leased -> exists r,
     jobs st !! l_id j = Some r /\ (l_id j ∉ locked) /\ eligible queues now r /\
     jobs st' !! l_id j = Some (leased_row now vis (tokens (l_id j)) r) /\
     j = lease_of (tokens (l_id j)) (l_id j, r)).
Proof.
  intros (Hcap & Hperm & Hjs)%lease_success. split.
  { rewrite Hperm, length_fmap. unfold picked. rewrite length_take. lia. }
  intros j Hj. rewrite Hperm in Hj. apply list_elem_of_fmap in Hj as (p & -> & Hp).
  pose proof (elem_of_picked _ _ _ _ _ _ Hp) as (Hp1 & Hp2 & Hp3). exists p.2.
  split_and!; try done.
  rewrite Hjs. by apply (foldr_insert_in (fun p => leased_row now vis (tokens p.1) p.2)); [apply NoDup_picked|].
Qed.

(** what a lease hands out.  The leased jobs are distinct, at most [capacity],
    were queued, visible, in a requested queue and not locked by another transaction;
    each gets its fresh token, one more attempt and the new deadline, and every other
    row is untouched.  No job that was equally available and left behind outranks a
    leased one (higher priority first, then longer waiting), and jobs are left behind
    only when the capacity is used up. *)
Theorem lease_dispatch (now : Z) (tokens : string -> string) (locked : gset string)
    (queues : list string) (cap vis : Z) (st st' : JobStore) (leased : list LeasedJob) :
  lease now tokens locked queues cap vis st = Some (leased, st') ->
  let ids := l_id <$> leased in
  NoDup ids /\ Z.of_nat (length leased) <= cap /\
  (forall j, j ∈ leased -> exists r,
     jobs st !! l_id j = Some r /\ (l_id j ∉ locked) /\ eligible queues now r /\
     jobs st' !! l_id j = Some (leased_row now vis (tokens (l_id j)) r) /\
     j = lease_of (tokens (l_id j)) (l_id j, r)) /\
  (forall id, id ∉ ids -> jobs st' !! id = jobs st !! id) /\
  (forall id r, jobs st !! id = Some r -> (id ∉ locked) -> eligible queues now r -> id ∉ ids ->
     Z.of_nat (length leased) = cap /\
     forall id' r', id' ∈ ids -> jobs st !! id' = Some r' -> dispatch_le (id', r') (id, r)).
Proof.
  intros Hl ids. pose proof (leased_ids _ _ _ _ _ _ _ _ _ Hl) as Hids. fold ids in Hids.
  destruct (lease_hands_out _ _ _ _ _ _ _ _ _ Hl) as [Hmax Hrows].
  apply lease_success in Hl as (Hcap & Hperm & Hjs).
  set (ps := picked queues now locked cap (jobs st)) in *.
  assert (Hlen : length leased = length ps) by (by rewrite Hperm, length_fmap).
  split; [rewrite Hids; apply NoDup_picked|]. do 2 (split; [done|]). split.
  - intros id Hid. rewrite Hjs. rewrite Hids in Hid.
    by apply (foldr_insert_notin (fun p => leased_row now vis (tokens p.1) p.2)).
  - intros id r Hr Hlo Hel Hid. rewrite Hids in Hid.
    assert (Hc : (id, r) ∈ candidates queues now locked (jobs st)) by by apply elem_of_candidates.
    assert (Hnp : (id, r) ∉ ps).
    { intros Hin. apply Hid, list_elem_of_fmap. by exists (id, r). }
    split.
    + rewrite Hlen. unfold ps, picked in *. rewrite length_take.
      destruct (decide (length (candidates queues now locked (jobs st)) <= Z.to_nat cap)%nat);
        [|lia].
      rewrite take_ge in Hnp by done. done.
    + intros id' r' Hid' Hr'. rewrite Hids in Hid'.
      apply list_elem_of_fmap in Hid' as (p & -> & Hp).
      pose proof (elem_of_picked _ _ _ _ _ _ Hp) as (Hp1 & _).
      replace (p.1, r') with p by (destruct p; simpl in *; congruence).
      by eapply picked_first.
Qed.

(** crash recovery.  A job whose lease ran out is never lost: one reclaim makes it
    queued and immediately visible again, so any later lease of its queue with room
    for every available job hands it out, and the crashed worker's token is dead. *)
Theorem expired_lease_recovers (now now' cap vis : Z) (tokens : string -> string)
    (queues : list string) (st st' : JobStore) (id : string) (r : JobRow)
    (leased : list LeasedJob) :
  jobs st !! id = Some r -> expired now r -> j_queue r ∈ queues -> now <= now' ->
  let st1 := (reclaim_expired now st).2 in
  Z.of_nat (length (candidates queues now' ∅ (jobs st1))) <= cap ->
  lease now' tokens ∅ queues cap vis st1 = Some (leased, st') ->
  id ∈ l_id <$> leased /\ forall tok, holds_lease (jobs st1) id tok = None.
Proof.
  intros Hr He Hq Hle st1 Hcap Hl.
  assert (Hr1 : jobs st1 !! id = Some (reclaimed_row now r)).
  { unfold st1, reclaim_expired. cbn [snd set_jobs jobs]. rewrite lookup_fmap, Hr.
    simpl. by rewrite decide_True. }
  split.
  - rewrite (leased_ids _ _ _ _ _ _ _ _ _ Hl). apply list_elem_of_fmap.
    exists (id, reclaimed_row now r). split; [done|]. unfold picked.
    rewrite take_ge by lia. apply elem_of_candidates. split; [done|]. split; [set_solver|].
    destruct He as [_ Hv]. split_and!; [done|done|simpl; lia].
  - intros tok. apply not_held_rejected. intros r' Hr'. simplify_eq. done.
Qed.

(** ** The retry policy *)

Lemma backoff_exact attempts base cap :
  0 <= base -> 0 <= cap <= u64_max ->
  backoff_secs attempts base cap =
    Z.min (base * 2 ^ Z.min (Z.max 0 (attempts - 1)) 20) cap.
Proof.
  intros Hb Hc. unfold backoff_secs. destruct (Z.leb_spec attempts 1).
  - replace (Z.min (Z.max 0 (attempts - 1)) 20) with 0 by lia. by rewrite Z.mul_1_r.
  - replace (Z.max 0 (attempts - 1)) with (attempts - 1) by lia.
    rewrite Z.shiftl_mul_pow2 by lia. rewrite Z.mul_1_l.
    assert (2 ^ Z.min (attempts - 1) 20 <= 2 ^ 20) by (apply Z.pow_le_mono_r; lia).
    assert (0 < 2 ^ Z.min (attempts - 1) 20) by (apply Z.pow_pos_nonneg; lia).
    rewrite wrap_u64_small by (unfold u64_max; lia). unfold u64_saturating_mul. lia.
Qed.

(** the backoff is exactly [min (base * 2^min(attempts-1, 20)) cap], computed in
    [u64] without wrap-around for all inputs; it never exceeds the cap and never
    shrinks from one attempt to the next. *)
Theorem backoff_bounds (a1 a2 base cap : Z) :
  0 <= a1 <= a2 -> a2 <= u32_max -> 0 <= base <= u64_max -> 0 <= cap <= u64_max ->
  backoff_secs a1 base cap =
    Z.min (base * 2 ^ Z.min (Z.max 0 (a1 - 1)) 20) cap /\
  0 <= backoff_secs a1 base cap <= cap /\
  backoff_secs a1 base cap <= backoff_secs a2 base cap.
Proof.
  intros Ha _ Hb Hc. rewrite !backoff_exact by lia. split; [done|].
  assert (Hm : 2 ^ Z.min (Z.max 0 (a1 - 1)) 20 <= 2 ^ Z.min (Z.max 0 (a2 - 1)) 20)
    by (apply Z.pow_le_mono_r; lia).
  assert (0 < 2 ^ Z.min (Z.max 0 (a1 - 1)) 20) by (apply Z.pow_pos_nonneg; lia). nia.
Qed.

(** a failed attempt, reported with the current lease.  It dead-letters exactly
    when the error is not retryable or the attempts are used up; otherwise the job is
    queued again and no lease can see it before the backoff (5 s doubling per attempt,
    at most an hour) has passed.  Either way the error is stored and the lease ends. *)
Theorem fail_policy (ops : list JobOp) (now now' : Z) (id tok err : string)
    (retryable : bool) (r : JobRow) :
  let st := run_jobs job_store_new ops in
  holds_lease (jobs st) id tok = Some r ->
  exists o st' r', fail now id tok err retryable st = (Some o, st') /\
    jobs st' !! id = Some r' /\ j_error r' = Some err /\ j_lease_id r' = None /\
    (forall x, x <> id -> jobs st' !! x = jobs st !! x) /\
    match o with
    | DeadLetter => (retryable = false \/ j_max_attempts r <= j_attempts r) /\ j_status r' = Dead
    | Retry delay =>
        retryable = true /\ j_attempts r < j_max_attempts r /\ j_status r' = Queued /\
        delay = Z.min (5 * 2 ^ Z.min (j_attempts r - 1) 20) 3600 /\
        forall queues, eligible queues now' r' -> now + secs delay <= now'
    end.
Proof.
  intros st Hh. pose proof Hh as (Hr & Hl & Hs)%holds_lease_spec.
  assert (Hwf : jobs_wf (jobs st)) by apply jobs_wf_run, jobs_wf_new.
  pose proof (jw_attempts _ Hwf id r Hr) as [_ Ha]. specialize (Ha Hs).
  unfold fail. rewrite Hh. set (o := decide_on_fail _ _ _ _ _).
  exists o. do 2 eexists. split; [reflexivity|]. cbn [emit set_jobs jobs].
  split; [apply lookup_insert_eq|]. split; [done|]. split; [done|].
  split; [intros x Hx; by rewrite lookup_insert_ne|].
  subst o. unfold decide_on_fail, clamp_u32.
  destruct retryable; simpl; [|by split; [left|]].
  destruct (Z.leb_spec (Z.max (j_max_attempts r) 0) (Z.max (j_attempts r) 0)).
  - split; [right; lia|done].
  - rewrite backoff_exact by (unfold u64_max, DEFAULT_BASE_BACKOFF_SECS, DEFAULT_CAP_BACKOFF_SECS; lia).
    unfold DEFAULT_BASE_BACKOFF_SECS, DEFAULT_CAP_BACKOFF_SECS.
    replace (Z.max 0 (Z.max (j_attempts r) 0 - 1)) with (j_attempts r - 1) by lia.
    split; [done|]. split; [lia|]. split; [done|]. split; [done|].
    intros queues (_ & _ & Hv). exact Hv.
Qed.

(** ** Crashes are not attempts used up *)

(** One lease that runs out: taken by a worker that never reports, then reclaimed. *)
Lemma crash_cycle st id r t :
  jobs st !! id = Some r -> j_status r = Queued -> j_visible_at r <= t ->
  j_attempts r < 2 ^ 31 - 1 ->
  exists ops r', jobs (run_jobs st ops) !! id = Some r' /\ same_job r r' /\
    j_status r' = Queued /\ j_visible_at r' <= t /\ j_attempts r' = j_attempts r + 1.
Proof.
  intros Hr Hq Hv Ha.
  set (locked := dom (jobs st) ∖ {[id]}). set (queues := [j_queue r]).
  set (cap := Z.of_nat (length (candidates queues t locked (jobs st)))).
  set (ps := picked queues t locked cap (jobs st)).
  assert (Hin : (id, r) ∈ ps).
  { unfold ps, picked. rewrite take_ge by (unfold cap; lia). apply elem_of_candidates.
    split; [done|]. split; [unfold locked; set_solver|]. split_and!; [by left|done|done]. }
  assert (Honly : forall p, p ∈ ps -> p.2 = r).
  { intros p Hp. pose proof (elem_of_picked _ _ _ _ _ _ Hp) as (Hp1 & Hp2 & _).
    destruct (decide (p.1 = id)) as [Hid|Hne]; [rewrite Hid in Hp1; congruence|].
    destruct Hp2. apply elem_of_difference. split; [by apply elem_of_dom; eexists|].
    by rewrite elem_of_singleton. }
  set (lop := OLease t (fun _ => "t"%string) locked queues cap 0).
  assert (H1 : jobs (apply_op st lop) !! id = Some (leased_row t 0 "t" r)).
  { cbn [apply_op lop]. unfold lease. fold ps. rewrite decide_False by (unfold cap; lia).
    rewrite decide_False.
    2: { rewrite Exists_exists. intros (p & Hp & Hge). rewrite (Honly p Hp) in Hge. lia. }
    cbn [from_option snd]. rewrite emit_all_jobs. cbn [set_jobs jobs].
    exact (foldr_insert_in (fun p => leased_row t 0 "t" p.2) ps (jobs st) (id, r)
      (NoDup_picked _ _ _ _ _) Hin). }
  exists [lop; OReclaim (t + 1)]. eexists. cbn [run_jobs foldl].
  split.
  { unfold apply_op at 1. unfold reclaim_expired. cbn [snd set_jobs jobs].
    rewrite lookup_fmap, H1. simpl. rewrite decide_True; [done|].
    split; [done|]. simpl. unfold secs. lia. }
  split; [by split|]. simpl. split; [done|]. unfold secs. split; lia.
Qed.

(** the attempt limit binds only workers that report.  A lease that runs out
    returns the job to the queue whatever its attempts, so a job that kills its worker
    is handed out again and again: histories exist in which a job limited to one
    attempt has made any number of them and is still queued. *)
Theorem crash_loop_unbounded (n : nat) :
  Z.of_nat n < 2 ^ 31 ->
  exists ops r, jobs (run_jobs job_store_new ops) !! "job"%string = Some r /\
    j_max_attempts r = 1 /\ j_attempts r = Z.of_nat n /\ j_status r = Queued.
Proof.
  intros Hn.
  cut (exists ops r, jobs (run_jobs job_store_new ops) !! "job"%string = Some r /\
    j_max_attempts r = 1 /\ j_attempts r = Z.of_nat n /\ j_status r = Queued /\
    j_visible_at r <= 0).
  { intros (ops & r & ? & ? & ? & ? & _). by exists ops, r. }
  induction n as [|n IH].
  - set (e := mkEnqueue "q" "kind" VNull None 1 0 None).
    exists [OEnqueue 0 "job" e], (new_row 0 e). cbn [run_jobs foldl apply_op].
    rewrite enqueue_jobs.
    assert (He : existing e (jobs job_store_new) = None).
    { destruct (existing _ _) as [i|] eqn:He; [|done].
      by apply existing_spec in He as (r & Hr & _). }
    rewrite He. cbn [job_store_new jobs]. rewrite lookup_empty, lookup_insert_eq. done.
  - destruct IH as (ops & r & Hr & Hm & Ha & Hq & Hv); [lia|].
    destruct (crash_cycle _ _ _ 0 Hr Hq Hv) as (ops' & r' & Hr' & Hs & Hq' & Hv' & Ha'); [lia|].
    exists (ops ++ ops'), r'. rewrite run_jobs_app. split; [done|]. destruct Hs.
    split; [congruence|]. split; [lia|done].
Qed.
End Life.

(** ** Closed examples *)

Module JobsExamples.
#[local] Existing Instance enum_order.

Definition e1 : Enqueue := mkEnqueue "media" "resize" VNull (Some "k1"%string) 2 0 None.
Definition e2 : Enqueue := mkEnqueue "media" "resize" VNull (Some "k2"%string) 2 5 None.
Definition toks (t id : string) : string := (t +:+ id)%string.
Definition ops0 : list JobOp :=
  [OEnqueue 0 "a" e1; OEnqueue 1 "b" e2; OLease 2 (toks "t1") ∅ ["media"%string] 1 30].
Definition st0 : JobStore := run_jobs job_store_new ops0.

Lemma job_lifecycle_witness :
  exists r', jobs (run_jobs (run_jobs job_store_new [OEnqueue 0 "a" e1])
      [OLease 1 (toks "t1") ∅ ["media"%string] 1 30; OComplete 2 "a" "t1a" VNull]) !! "a"%string =
    Some r' /\ 0 <= j_attempts r' /\ j_status r' = Succeeded.
Proof.
  destruct (job_lifecycle [OEnqueue 0 "a" e1]
    [OLease 1 (toks "t1") ∅ ["media"%string] 1 30; OComplete 2 "a" "t1a" VNull] "a" (new_row 0 e1))
    as [_ Hl].
  destruct Hl as (r' & Hr & _ & Ha & _); [vm_compute; reflexivity|].
  exists r'. split; [exact Hr|]. split; [exact Ha|].
  vm_compute in Hr. injection Hr as <-. reflexivity.
Defined.

Lemma enqueue_idempotent_witness :
  enqueue 9 "c" e1 (run_jobs (run_jobs job_store_new [OEnqueue 0 "a" e1])
    [OLease 1 (toks "t1") ∅ ["media"%string] 1 30; OComplete 2 "a" "t1a" VNull]) =
  Some ("a"%string, run_jobs (run_jobs job_store_new [OEnqueue 0 "a" e1])
    [OLease 1 (toks "t1") ∅ ["media"%string] 1 30; OComplete 2 "a" "t1a" VNull]).
Proof.
  apply (enqueue_idempotent [] [OLease 1 (toks "t1") ∅ ["media"%string] 1 30;
    OComplete 2 "a" "t1a" VNull] 0 9 "a" "c" "a" e1 e1
    (run_jobs job_store_new [OEnqueue 0 "a" e1])); [discriminate|reflexivity..].
Defined.

Lemma stale_lease_rejected_witness :
  complete 99 "b" "t1b" VNull (run_jobs st0 [OReclaim (secs 60);
    OLease (secs 61) (toks "t2") ∅ ["media"%string] 2 30]) =
  (false, run_jobs st0 [OReclaim (secs 60); OLease (secs 61) (toks "t2") ∅ ["media"%string] 2 30]).
Proof.
  pose proof (stale_lease_rejected (ops0 ++ [OReclaim (secs 60)])
    [OLease (secs 61) (toks "t2") ∅ ["media"%string] 2 30] "b" "t1b") as Hs.
  refine (proj1 (proj2 (Hs _ _ 99 0 VNull ""%string true))).
  - vm_compute. reflexivity.
  - intros op ->%list_elem_of_singleton. discriminate.
Defined.

Lemma lease_dispatch_witness :
  exists leased st', lease 2 (toks "t") ∅ ["media"%string] 1 30
      (run_jobs job_store_new (take 2 ops0)) = Some (leased, st') /\
    l_id <$> leased = ["b"%string] /\ Z.of_nat (length leased) <= 1.
Proof.
  destruct (lease 2 (toks "t") ∅ ["media"%string] 1 30
    (run_jobs job_store_new (take 2 ops0))) as [[leased st']|] eqn:Hl.
  2: { vm_compute in Hl. discriminate Hl. }
  exists leased, st'. split; [reflexivity|].
  destruct (lease_dispatch _ _ _ _ _ _ _ _ _ Hl) as (_ & Hle & _).
  split; [|exact Hle]. vm_compute in Hl. injection Hl as <- _. reflexivity.
Defined.

Lemma expired_lease_recovers_witness :
  exists leased st', lease (secs 61) (toks "t2") ∅ ["media"%string] 2 30
      (reclaim_expired (secs 60) st0).2 = Some (leased, st') /\
    "b"%string ∈ l_id <$> leased.
Proof.
  destruct (lease (secs 61) (toks "t2") ∅ ["media"%string] 2 30
    (reclaim_expired (secs 60) st0).2) as [[leased st']|] eqn:Hl.
  2: { vm_compute in Hl. discriminate Hl. }
  destruct (jobs st0 !! "b"%string) as [r|] eqn:Hr.
  2: { vm_compute in Hr. discriminate Hr. }
  exists leased, st'. split; [reflexivity|].
  refine (proj1 (expired_lease_recovers (secs 60) (secs 61) 2 30 (toks "t2") ["media"%string]
    st0 st' "b" r leased Hr _ _ _ _ Hl)).
  - vm_compute in Hr. injection Hr as <-. split; vm_compute; reflexivity.
  - vm_compute in Hr. injection Hr as <-. left.
  - vm_compute. discriminate.
  - vm_compute. discriminate.
Defined.

Lemma backoff_bounds_witness : backoff_secs 3 5 3600 = 20 /\ backoff_secs 3 5 3600 <= 3600.
Proof.
  destruct (backoff_bounds 3 4 5 3600) as (H1 & H2 & _);
    [lia|unfold u32_max; lia|unfold u64_max; lia..|].
  split; [exact H1|exact (proj2 H2)].
Defined.

Lemma fail_policy_witness :
  exists o st', fail 9 "b" "t1b" "boom" true st0 = (Some o, st') /\ o = Retry 5.
Proof.
  destruct (holds_lease (jobs st0) "b" "t1b") as [r|] eqn:Hh.
  2: { vm_compute in Hh. discriminate Hh. }
  destruct (fail_policy ops0 9 0 "b" "t1b" "boom" true r Hh) as (o & st' & r' & Hf & _).
  exists o, st'. split; [exact Hf|]. vm_compute in Hf. injection Hf as <- _. reflexivity.
Defined.

Lemma crash_loop_unbounded_witness :
  exists ops r, jobs (run_jobs job_store_new ops) !! "job"%string = Some r /\
    j_max_attempts r = 1 /\ j_attempts r = 7 /\ j_status r = Queued.
Proof. exact (crash_loop_unbounded 7 ltac:(simpl; lia)). Defined.
End JobsExamples.
