(* ===== verification/Workers.v ===== *)
(** * Worker identities and tokens ([crates/atomo_server/src/jobs.rs])

    The capability checks of a [WorkerIdentity] and the token store.  SHA-256 is the
    [sha2] crate's: [digest] is a parameter. *)

From S2P Require Import Prelude Json.

#[local] Open Scope string_scope.

Record WorkerIdentity : Type := mkWorkerIdentity {
  w_id : string;
  w_name : string;
  w_queues : list string;
  w_capabilities : list string
}.

Definition may_lease (w : WorkerIdentity) (queue : string) : bool :=
  existsb (fun q => bool_decide (q = "*") || bool_decide (q = queue)) (w_queues w).

Definition colon : Ascii.ascii := Ascii.ascii_of_nat 58.
Definition comma : Ascii.ascii := Ascii.ascii_of_nat 44.

(** The closure of [may_crud], for one capability. *)
Definition grants_crud (model op c : string) : bool :=
  if decide (c = "crud:*") then true else
  match splitn 3 colon c with
  | [a; m] => bool_decide (a = "crud") && bool_decide (m = model)
  | [a; m; ops] =>
      bool_decide (a = "crud") && bool_decide (m = model) &&
      existsb (fun o => eq_ignore_ascii_case o op) (split_on comma ops)
  | _ => false
  end.

Definition may_crud (w : WorkerIdentity) (model op : string) : bool :=
  existsb (grants_crud model op) (w_capabilities w).

Definition grants_action (action c : string) : bool :=
  if decide (c = "action:*") then true else
  match splitn 2 colon c with
  | [a; k] => bool_decide (a = "action") && bool_decide (k = action)
  | _ => false
  end.

Definition may_action (w : WorkerIdentity) (action : string) : bool :=
  existsb (grants_action action) (w_capabilities w).

(** ** Tokens *)

Record TokenRow : Type := mkTokenRow {
  t_name : string;
  t_sha256 : string;
  t_queues : list string;
  t_capabilities : list string;
  t_revoked : bool;
  t_created_at : Z
}.

Record WorkerTokenInfo : Type := mkWorkerTokenInfo {
  i_id : string;
  i_name : string;
  i_queues : list string;
  i_capabilities : list string;
  i_revoked : bool;
  i_created_at : Z
}.

Definition hex_digit (n : Z) : Ascii.ascii :=
  Ascii.ascii_of_nat (Z.to_nat (if decide (n < 10) then 48 + n else 87 + n)).

(** [format!("{b:02x}")] *)
Definition hex_byte (b : Z) : string :=
  String (hex_digit (b / 16)) (String (hex_digit (b mod 16)) "").

Section Tokens.
Context {ho : HashOrder}.
Variable digest : string -> list Z.

Definition sha256_hex (s : string) : string :=
  foldr (fun b out => hex_byte b +:+ out) "" (digest s).

Definition with_hash (h : string) (tokens : gmap string TokenRow) : list (string * TokenRow) :=
  filter (fun p => t_sha256 p.2 = h) (hpairs tokens).

(** [mint]: [id] and the two uuids of the token are drawn; the primary key and the
    unique hash column make a collision a database error. *)
Definition mint (now : Z) (id u1 u2 name : string) (queues capabilities : list string)
    (tokens : gmap string TokenRow) : option ((string * string) * gmap string TokenRow) :=
  let token := "wkr_" +:+ u1 +:+ u2 in
  match tokens !! id, with_hash (sha256_hex token) tokens with
  | None, [] =>
      Some ((id, token),
        <[id := mkTokenRow name (sha256_hex token) queues capabilities false now]> tokens)
  | _, _ => None
  end.

(** [verify] *)
Definition verify (token : string) (tokens : gmap string TokenRow) : option WorkerIdentity :=
  match filter (fun p => t_revoked p.2 = false) (with_hash (sha256_hex token) tokens) with
  | p :: _ => Some (mkWorkerIdentity p.1 (t_name p.2) (t_queues p.2) (t_capabilities p.2))
  | [] => None
  end.

Definition revoke (id : string) (tokens : gmap string TokenRow) : bool * gmap string TokenRow :=
  match tokens !! id with
  | Some r =>
      if t_revoked r then (false, tokens)
      else (true, <[id := mkTokenRow (t_name r) (t_sha256 r) (t_queues r) (t_capabilities r)
                           true (t_created_at r)]> tokens)
  | None => (false, tokens)
  end.

Definition token_newest_first (a b : string * TokenRow) : Prop :=
  t_created_at b.2 <= t_created_at a.2.
#[local] Instance token_newest_first_dec : RelDecision token_newest_first.
Proof. intros a b. unfold token_newest_first. apply _. Defined.

(** [list]: metadata only *)
Definition list_tokens (tokens : gmap string TokenRow) : list WorkerTokenInfo :=
  (fun p => mkWorkerTokenInfo p.1 (t_name p.2) (t_queues p.2) (t_capabilities p.2)
     (t_revoked p.2) (t_created_at p.2)) <$> merge_sort token_newest_first (hpairs tokens).
End Tokens.

(** ** Capabilities *)

(** The pieces of a capability, by the text it was cut from. *)
Lemma splitn3_spec c :
  (has_char colon c = false /\ splitn 3 colon c = [c]) \/
  (exists a m, c = a +:+ String colon m /\ has_char colon a = false /\
     has_char colon m = false /\ splitn 3 colon c = [a; m]) \/
  (exists a m r, c = a +:+ String colon (m +:+ String colon r) /\ has_char colon a = false /\
     has_char colon m = false /\ splitn 3 colon c = [a; m; r]).
Proof.
  cbn [splitn]. destruct (split_once colon c) as [[a r]|] eqn:Hc.
  2: { left. by apply split_once_none in Hc. }
  right. apply split_once_some in Hc as [-> Ha].
  destruct (split_once colon r) as [[m r']|] eqn:Hr.
  - right. apply split_once_some in Hr as [-> Hm]. by exists a, m, r'.
  - left. apply split_once_none in Hr. by exists a, r.
Qed.

(** A text is cut in one way only. *)
Lemma cut_unique a b r1 r2 :
  a +:+ String colon r1 = b +:+ String colon r2 ->
  has_char colon a = false -> has_char colon b = false -> a = b /\ r1 = r2.
Proof.
  intros Heq Ha Hb.
  pose proof (proj2 (split_once_some colon _ a r1) (conj eq_refl Ha)) as H1.
  pose proof (proj2 (split_once_some colon _ b r2) (conj eq_refl Hb)) as H2.
  rewrite Heq, H2 in H1. by injection H1 as -> ->.
Qed.

Lemma has_char_cut a r : has_char colon (a +:+ String colon r) = true.
Proof. rewrite has_char_app. simpl. by rewrite orb_true_r. Qed.

(** Some operation of the list [ops] is [op], up to the case of ASCII letters. *)
Definition lists_op (ops op : string) : Prop :=
  exists o, o ∈ split_on comma ops /\ eq_ignore_ascii_case o op = true.

Lemma existsb_elem {A} (f : A -> bool) l : existsb f l = true <-> exists x, x ∈ l /\ f x = true.
Proof. rewrite existsb_exists. by setoid_rewrite list_elem_of_In. Qed.

Lemma grants_crud_spec model op c :
  grants_crud model op c = true <->
  c = "crud:*" \/
  (has_char colon model = false /\
   (c = "crud:" +:+ model \/
    exists ops, c = "crud:" +:+ model +:+ String colon ops /\ lists_op ops op)).
Proof.
  unfold grants_crud. case_decide as Hstar; [by split; [left|]|].
  assert (Hcrud : has_char colon "crud" = false) by done.
  destruct (splitn3_spec c) as [[Hn ->]|[(a & m & -> & Ha & Hm & ->)|(a & m & r & -> & Ha & Hm & ->)]].
  - split; [done|]. intros [?|(_ & [->|(ops & -> & _)])]; [done|..].
    + exact (False_ind _ (eq_true_false_abs _ (has_char_cut "crud" model) Hn)).
    + exact (False_ind _ (eq_true_false_abs _ (has_char_cut "crud" (model +:+ String colon ops)) Hn)).
  - rewrite andb_true_iff, !bool_decide_eq_true. split.
    + intros [-> ->]. right. split; [done|]. by left.
    + intros [?|(Hmo & [Heq|(ops & Heq & _)])]; [done|..].
      * by apply (cut_unique a "crud" m model) in Heq.
      * apply (cut_unique a "crud" m (model +:+ String colon ops)) in Heq as [_ ->]; [|done..].
        by rewrite has_char_cut in Hm.
  - rewrite !andb_true_iff, !bool_decide_eq_true, existsb_elem. split.
    + intros [[-> ->] Ho]. right. split; [done|]. right. by exists r.
    + intros [?|(Hmo & [Heq|(ops & Heq & Ho)])]; [done|..].
      * apply (cut_unique a "crud" _ model) in Heq as [_ <-]; [|done..].
        by rewrite has_char_cut in Hmo.
      * apply (cut_unique a "crud" _ (model +:+ String colon ops)) in Heq as [-> Heq]; [|done..].
        by apply (cut_unique m model r ops) in Heq as [-> ->].
Qed.

(** the capability grammar.  A worker may perform an operation on a model exactly
    when one of its capabilities is [crud:*], [crud:Model], or [crud:Model:ops] where
    the comma-separated [ops] contain the operation (ASCII case ignored); a model name
    containing a colon is granted by [crud:*] only. *)
Theorem may_crud_spec (w : WorkerIdentity) (model op : string) :
  may_crud w model op = true <->
  exists c, c ∈ w_capabilities w /\
    (c = "crud:*" \/
     (has_char colon model = false /\
      (c = "crud:" +:+ model \/
       exists ops, c = "crud:" +:+ model +:+ String colon ops /\ lists_op ops op))).
Proof.
  unfold may_crud. rewrite existsb_elem. by setoid_rewrite grants_crud_spec.
Qed.

(** ** Tokens *)

Section TokenSpec.
Context {ho : HashOrder}.
Variable digest : string -> list Z.

(** The unique index of the table. *)
Definition hashes_unique (ts : gmap string TokenRow) : Prop :=
  forall i j ri rj, ts !! i = Some ri -> ts !! j = Some rj ->
    t_sha256 ri = t_sha256 rj -> i = j.

Lemma elem_of_with_hash h ts p :
  p ∈ with_hash h ts <-> ts !! p.1 = Some p.2 /\ t_sha256 p.2 = h.
Proof.
  unfold with_hash. rewrite list_elem_of_filter. destruct p as [i r].
  rewrite elem_of_hpairs. simpl. tauto.
Qed.

Lemma verify_spec token ts w :
  hashes_unique ts ->
  verify digest token ts = Some w <->
  exists r, ts !! w_id w = Some r /\ t_sha256 r = sha256_hex digest token /\
    t_revoked r = false /\ w = mkWorkerIdentity (w_id w) (t_name r) (t_queues r) (t_capabilities r).
Proof.
  intros Hu. unfold verify. set (l := filter _ _).
  assert (Hl : forall p, p ∈ l <-> ts !! p.1 = Some p.2 /\
    t_sha256 p.2 = sha256_hex digest token /\ t_revoked p.2 = false).
  { intros p. unfold l. rewrite list_elem_of_filter, elem_of_with_hash. tauto. }
  split.
  - intros Hv. destruct l as [|p l']; [done|]. injection Hv as <-.
    destruct (Hl p) as [(H1 & H2 & H3) _]; [left|]. by exists p.2.
  - intros (r & Hr & Hh & Hrv & ->). simpl in *.
    assert (Hin : (w_id w, r) ∈ l) by by apply Hl.
    destruct l as [|p l']; [by apply not_elem_of_nil in Hin|].
    destruct (Hl p) as [(H1 & H2 & H3) _]; [left|].
    assert (p.1 = w_id w) as Hid by (eapply Hu; [exact H1|exact Hr|congruence]).
    rewrite Hid in *. simplify_eq. done.
Qed.

(** A table changed at a row that does not carry a token's hash verifies it as before. *)
Lemma verify_other token ts id r :
  hashes_unique ts -> hashes_unique (<[id := r]> ts) ->
  t_sha256 r <> sha256_hex digest token ->
  (forall r0, ts !! id = Some r0 -> t_sha256 r0 <> sha256_hex digest token) ->
  verify digest token (<[id := r]> ts) = verify digest token ts.
Proof.
  intros Hu Hu' Hr Hr0. apply option_eq. intros w. rewrite !verify_spec by done.
  split; intros (x & Hx & Hh & Hrest); exists x; (split; [|done]).
  - apply lookup_insert_Some in Hx as [[_ <-]|[_ Hx]]; [done|exact Hx].
  - rewrite lookup_insert_ne; [done|]. intros Heq. rewrite <- Heq in Hx. by apply (Hr0 x Hx).
Qed.

Lemma verify_none token ts :
  (forall i r, ts !! i = Some r -> t_sha256 r = sha256_hex digest token -> t_revoked r = true) ->
  verify digest token ts = None.
Proof.
  intros Hall. unfold verify. destruct (filter _ _) as [|p l] eqn:Hf; [done|].
  assert (Hin : p ∈ p :: l) by left. rewrite <- Hf in Hin.
  apply list_elem_of_filter in Hin as [Hrv Hin]. apply elem_of_with_hash in Hin as [H1 H2].
  specialize (Hall _ _ H1 H2). congruence.
Qed.

Lemma hashes_unique_insert ts id r :
  hashes_unique ts -> (forall i r', i <> id -> ts !! i = Some r' -> t_sha256 r' <> t_sha256 r) ->
  hashes_unique (<[id := r]> ts).
Proof.
  intros Hu Hr i j ri rj [[<- <-]|[? Hi]]%lookup_insert_Some
    [[<- <-]|[? Hj]]%lookup_insert_Some Heq; [done|..].
  - by destruct (Hr j rj).
  - by destruct (Hr i ri).
  - by eapply Hu.
Qed.

(** the life of a worker token.  A minted token verifies, at once, to exactly the
    identity it was minted with; minting changes the verification of no other token;
    revoking it makes it unusable for ever (a second revocation reports nothing left
    to revoke) and again affects no other token.  Tokens are told apart by their hash
    only, which is all the table keeps. *)
Theorem token_lifecycle (now : Z) (id id' u1 u2 name token : string)
    (queues caps : list string) (ts ts' : gmap string TokenRow) :
  hashes_unique ts ->
  mint digest now id u1 u2 name queues caps ts = Some ((id', token), ts') ->
  let ts2 := (revoke id ts').2 in
  id' = id /\ hashes_unique ts' /\
  verify digest token ts' = Some (mkWorkerIdentity id name queues caps) /\
  (revoke id ts').1 = true /\ hashes_unique ts2 /\ verify digest token ts2 = None /\
  revoke id ts2 = (false, ts2) /\
  (forall other, sha256_hex digest other <> sha256_hex digest token ->
     verify digest other ts' = verify digest other ts /\
     verify digest other ts2 = verify digest other ts).
Proof.
  intros Hu Hm. unfold mint in Hm. destruct (ts !! id) as [|] eqn:Hid; [done|].
  destruct (with_hash _ ts) eqn:Hh; [|done]. injection Hm as <- <- <-.
  set (token := "wkr_" +:+ u1 +:+ u2) in *.
  assert (Hfree : forall i r, ts !! i = Some r -> t_sha256 r <> sha256_hex digest token).
  { intros i r Hr Heq. assert (Hin : (i, r) ∈ with_hash (sha256_hex digest token) ts)
      by by apply elem_of_with_hash. rewrite Hh in Hin. by apply not_elem_of_nil in Hin. }
  set (r1 := mkTokenRow name (sha256_hex digest token) queues caps false now).
  set (r2 := mkTokenRow name (sha256_hex digest token) queues caps true now).
  assert (Hrev : revoke id (<[id := r1]> ts) = (true, <[id := r2]> (<[id := r1]> ts))).
  { unfold revoke. by rewrite lookup_insert_eq. }
  rewrite Hrev. cbn [fst snd]. rewrite insert_insert_eq.
  assert (Hu1 : forall b, hashes_unique (<[id := mkTokenRow name (sha256_hex digest token)
      queues caps b now]> ts)).
  { intros b. apply hashes_unique_insert; [done|]. intros i r' _ Hr'. by apply (Hfree i). }
  assert (Hoth : forall other b, sha256_hex digest other <> sha256_hex digest token ->
    verify digest other (<[id := mkTokenRow name (sha256_hex digest token)
      queues caps b now]> ts) = verify digest other ts).
  { intros other b Hne. apply verify_other; [done|apply Hu1|simpl; congruence|].
    intros r0 Hr0. congruence. }
  split_and!; [done|apply Hu1| |done|apply Hu1| | |].
  - apply verify_spec; [apply Hu1|]. exists r1. by rewrite lookup_insert_eq.
  - apply verify_none. intros i r [[<- <-]|[_ Hr]]%lookup_insert_Some Heq; [done|].
    by destruct (Hfree i r Hr).
  - unfold revoke. by rewrite lookup_insert_eq.
  - intros other Hne. split; by apply Hoth.
Qed.
End TokenSpec.

(** ** Closed examples *)

Module WorkersExamples.
#[local] Existing Instance enum_order.

(** A digest for closed examples: the character codes. *)
Fixpoint codes (s : string) : list Z :=
  match s with
  | EmptyString => []
  | String a s => Z.of_nat (Ascii.nat_of_ascii a) :: codes s
  end.

Lemma token_lifecycle_witness :
  exists token ts', mint codes 0 "w1" "aa" "bb" "encoder" ["media"] ["crud:Post:read"] ∅ =
      Some (("w1", token), ts') /\
    verify codes token ts' = Some (mkWorkerIdentity "w1" "encoder" ["media"] ["crud:Post:read"]).
Proof.
  destruct (mint codes 0 "w1" "aa" "bb" "encoder" ["media"] ["crud:Post:read"] ∅)
    as [[[id' token] ts']|] eqn:Hm.
  2: { vm_compute in Hm. discriminate Hm. }
  assert (Hu : hashes_unique ∅).
  { intros i j ri rj Hi. rewrite lookup_empty in Hi. discriminate Hi. }
  destruct (token_lifecycle codes 0 "w1" id' "aa" "bb" "encoder" token ["media"]
    ["crud:Post:read"] ∅ ts' Hu Hm) as (-> & _ & Hv & _).
  exists token, ts'. exact (conj eq_refl Hv).
Defined.
End WorkersExamples.
