(* ===== verification/Metered.v ===== *)
(** * Metered commands ([crates/atomo_server/src/metered.rs])

    Single-use expiring tokens and the budget ledger.  The ledger is modelled with the
    transactions of its callers: a reservation takes the scope's advisory lock, sums
    the rows visible to its transaction and inserts; the lock is held until the
    transaction commits or rolls back.  SHA-256 is a parameter; times are in
    microseconds. *)

From S2P Require Import Prelude Json Workers.

(** [advisory_key]: the first four bytes of the digest, big-endian, as an [i32]. *)
Definition be_i32 (bytes : list Z) : Z :=
  let u := foldl (fun acc b => acc * 256 + b) 0 (take 4 bytes) in
  if decide (u < 2 ^ 31) then u else u - 2 ^ 32.

Definition micros (secs : Z) : Z := secs * 1000000.

(** ** [ExpiringTokenStore] *)

Record TokenRec : Type := mkTokenRec {
  x_purpose : string;
  x_subject : string;
  x_payload : Value;
  x_expires_at : Z;
  x_consumed_at : option Z
}.

Section Tokens.
Variable digest : string -> list Z.

Definition advisory_key (scope : string) : Z := be_i32 (digest scope).

(** [mint]; [None] is the primary-key violation of a repeated token. *)
Definition mint_token (now : Z) (u1 u2 purpose subject : string) (payload : Value)
    (ttl_secs : Z) (ts : gmap string TokenRec) : option (string * gmap string TokenRec) :=
  let token := ("tok_" +:+ u1 +:+ u2)%string in
  let h := sha256_hex digest token in
  match ts !! h with
  | Some _ => None
  | None => Some (token,
      <[h := mkTokenRec purpose subject payload (now + micros ttl_secs) None]> ts)
  end.

(** [consume] *)
Definition consume (now : Z) (purpose subject token : string) (ts : gmap string TokenRec)
    : option Value * gmap string TokenRec :=
  let h := sha256_hex digest token in
  match ts !! h with
  | Some r =>
      if decide (x_purpose r = purpose /\ x_subject r = subject /\
                 x_consumed_at r = None /\ now < x_expires_at r)
      then (Some (x_payload r),
            <[h := mkTokenRec (x_purpose r) (x_subject r) (x_payload r) (x_expires_at r)
                     (Some now)]> ts)
      else (None, ts)
  | None => (None, ts)
  end.
End Tokens.

(** [purge_expired] *)
Definition purge_expired (now : Z) (ts : gmap string TokenRec) : Z * gmap string TokenRec :=
  let kept := filter (fun p => ~ x_expires_at p.2 < now) ts in
  (Z.of_nat (size ts - size kept), kept).

(** ** [BudgetLedger] *)

Record Entry : Type := mkEntry {
  en_txn : Z;  (* the transaction that inserted the row *)
  en_scope : string;
  en_amount : Z;
  en_created_at : Z
}.

Record Ledger : Type := mkLedger {
  entries : list Entry;
  committed : gset Z;
  locks : gmap Z Z  (* advisory key to the transaction that holds it *)
}.

Definition ledger_new : Ledger := mkLedger [] ∅ ∅.

(** Rows another transaction has not yet committed are invisible. *)
Definition visible (txn : Z) (l : Ledger) (e : Entry) : Prop :=
  en_txn e = txn \/ en_txn e ∈ committed l.
#[export] Instance visible_dec txn l e : Decision (visible txn l e).
Proof. unfold visible. apply _. Defined.

Definition sum_amounts (es : list Entry) : Z := foldr (fun e acc => en_amount e + acc) 0 es.

(** [WHERE scope = $1 AND created_at > NOW() - window] *)
Definition in_window (scope : string) (now window_secs : Z) (e : Entry) : Prop :=
  en_scope e = scope /\ now - micros window_secs < en_created_at e.
#[export] Instance in_window_dec s n w e : Decision (in_window s n w e).
Proof. unfold in_window. apply _. Defined.

(** [windowed_sum]; [now] is the start of the reading transaction ([NOW()]). *)
Definition windowed_sum (txn now : Z) (scope : string) (window_secs : Z) (l : Ledger) : Z :=
  sum_amounts (filter (fun e => in_window scope now window_secs e /\ visible txn l e) (entries l)).

Inductive Reserve : Type :=
  | Reserved
  | Refused
  | Blocked.  (* waits for the advisory lock *)

(** [pg_advisory_xact_lock]: [None] waits, because another transaction holds it. *)
Definition acquire (txn key : Z) (l : Ledger) : option Ledger :=
  let taken := mkLedger (entries l) (committed l) (<[key := txn]> (locks l)) in
  match locks l !! key with
  | Some holder => if decide (holder = txn) then Some taken else None
  | None => Some taken
  end.

(** [try_reserve] in transaction [txn], which started at [now]. *)
Definition try_reserve (digest : string -> list Z) (txn now : Z) (scope : string)
    (amount limit window_secs : Z) (l : Ledger) : Reserve * Ledger :=
  if decide (amount <= 0 \/ limit <= 0) then (Refused, l) else
  match acquire txn (advisory_key digest scope) l with
  | None => (Blocked, l)
  | Some l1 =>
      let used := windowed_sum txn now scope window_secs l1 in
      if decide (limit < i64_saturating_add used amount) then (Refused, l1)
      else (Reserved, mkLedger (entries l1 ++ [mkEntry txn scope amount now])
                        (committed l1) (locks l1))
  end.

(** The end of the caller's transaction releases its locks. *)
Definition release (txn : Z) (m : gmap Z Z) : gmap Z Z := filter (fun p => p.2 <> txn) m.
Definition commit (txn : Z) (l : Ledger) : Ledger :=
  mkLedger (entries l) (committed l ∪ {[txn]}) (release txn (locks l)).
Definition rollback (txn : Z) (l : Ledger) : Ledger :=
  mkLedger (filter (fun e => en_txn e <> txn) (entries l)) (committed l)
    (release txn (locks l)).

#[global] Arguments try_reserve : simpl never.
#[global] Arguments consume : simpl never.

(** ** Single use *)

Inductive TokenOp : Type :=
  | TMint (now : Z) (u1 u2 purpose subject : string) (payload : Value) (ttl_secs : Z)
  | TConsume (now : Z) (purpose subject token : string)
  | TPurge (now : Z).

Section TokenHistory.
Variable digest : string -> list Z.

(** The payloads handed out along a history, with the token presented. *)
Fixpoint run_tokens (ts : gmap string TokenRec) (ops : list TokenOp)
    : list (string * Value) * gmap string TokenRec :=
  match ops with
  | [] => ([], ts)
  | op :: rest =>
      let r := match op with
        | TMint now u1 u2 p s v ttl =>
            ([], from_option snd ts (mint_token digest now u1 u2 p s v ttl ts))
        | TConsume now p s tok =>
            let c := consume digest now p s tok ts in
            (match c.1 with Some v => [(tok, v)] | None => [] end, c.2)
        | TPurge now => ([], (purge_expired now ts).2)
        end in
      let r' := run_tokens r.2 rest in
      (r.1 ++ r'.1, r'.2)
  end.

Definition mints (h : string) (op : TokenOp) : Prop :=
  match op with
  | TMint _ u1 u2 _ _ _ _ => sha256_hex digest ("tok_" +:+ u1 +:+ u2)%string = h
  | _ => False
  end.

(** A row that can no longer be consumed. *)
Definition spent (h : string) (ts : gmap string TokenRec) : Prop :=
  forall r, ts !! h = Some r -> x_consumed_at r <> None.

(** Uses of tokens with hash [h]. *)
Definition uses (h : string) (out : list (string * Value)) : list (string * Value) :=
  filter (fun p => sha256_hex digest p.1 = h) out.

Lemma consume_spec now p s tok ts :
  (consume digest now p s tok ts = (None, ts)) \/
  (exists r, ts !! sha256_hex digest tok = Some r /\ x_consumed_at r = None /\
     now < x_expires_at r /\ x_purpose r = p /\ x_subject r = s /\
     consume digest now p s tok ts =
       (Some (x_payload r), <[sha256_hex digest tok := mkTokenRec (x_purpose r) (x_subject r)
          (x_payload r) (x_expires_at r) (Some now)]> ts)).
Proof.
  unfold consume. destruct (ts !! _) as [r|]; [|by left].
  case_decide as Hd; [|by left]. right. exists r. by destruct Hd as (-> & -> & -> & ?).
Qed.

Lemma spent_step h ts op rest :
  spent h ts -> ~ mints h op ->
  exists ts', spent h ts' /\ uses h (run_tokens ts (op :: rest)).1 = uses h (run_tokens ts' rest).1.
Proof.
  intros Hs Hm. destruct op as [now u1 u2 p s v ttl|now p s tok|now]; cbn [run_tokens].
  - eexists. split; [|reflexivity]. cbn [snd]. unfold mint_token.
    destruct (ts !! _); simpl; [done|]. intros r. rewrite lookup_insert_ne by done. apply Hs.
  - destruct (consume_spec now p s tok ts) as [->|(r & Hr & Hn & _ & _ & _ & ->)];
      [by exists ts|]. cbn [fst snd].
    destruct (decide (sha256_hex digest tok = h)) as [Heq|Hne].
    { subst h. by destruct (Hs r Hr). }
    eexists. split; [|unfold uses; simpl; rewrite filter_cons_False by done; reflexivity].
    intros r'. rewrite lookup_insert_ne by done. apply Hs.
  - eexists. split; [|reflexivity]. cbn [snd purge_expired]. intros r Hr.
    apply map_lookup_filter_Some in Hr as [Hr _]. by apply Hs.
Qed.

Lemma spent_unusable h ts ops :
  spent h ts -> (forall op, op ∈ ops -> ~ mints h op) -> uses h (run_tokens ts ops).1 = [].
Proof.
  revert ts. induction ops as [|op ops IH]; intros ts Hs Hm; [done|].
  destruct (spent_step h ts op ops Hs) as (ts' & Hs' & ->); [apply Hm; left|].
  apply IH; [done|]. intros op' Hop. apply Hm. by right.
Qed.

Lemma uses_at_most_one h ts ops :
  (forall op, op ∈ ops -> ~ mints h op) -> (length (uses h (run_tokens ts ops).1) <= 1)%nat.
Proof.
  revert ts. induction ops as [|op ops IH]; intros ts Hm; [simpl; lia|].
  assert (Hm' : forall op', op' ∈ ops -> ~ mints h op') by (intros ? ?; apply Hm; by right).
  destruct op as [now u1 u2 p s v ttl|now p s tok|now]; cbn [run_tokens]; [by apply IH| |by apply IH].
  destruct (consume_spec now p s tok ts) as [->|(r & Hr & Hn & _ & _ & _ & ->)]; [by apply IH|].
  cbn [fst snd]. unfold uses. simpl. rewrite filter_cons. case_decide as Hd; [|by apply IH].
  simpl in Hd. rewrite Hd. fold (uses h (run_tokens (<[h := mkTokenRec (x_purpose r) (x_subject r)
    (x_payload r) (x_expires_at r) (Some now)]> ts) ops).1).
  rewrite spent_unusable; [simpl; lia| |done].
  intros r'. rewrite lookup_insert_eq. by intros [= <-].
Qed.
End TokenHistory.

(** a token is good for one use.  A freshly minted token is handed back its payload
    when it is presented before its expiry for the right purpose and subject, and in
    any history of consumptions (right or wrong, of this and other tokens), purges and
    mints of other tokens it is accepted at most once. *)
Theorem token_single_use (digest : string -> list Z) (now ttl t : Z)
    (u1 u2 purpose subject token : string) (payload : Value)
    (ts ts' : gmap string TokenRec) (ops : list TokenOp) :
  mint_token digest now u1 u2 purpose subject payload ttl ts = Some (token, ts') ->
  (forall op, op ∈ ops -> ~ mints digest (sha256_hex digest token) op) ->
  (t < now + micros ttl -> (consume digest t purpose subject token ts').1 = Some payload) /\
  (now + micros ttl <= t -> (consume digest t purpose subject token ts').1 = None) /\
  (length (uses digest (sha256_hex digest token) (run_tokens digest ts' ops).1) <= 1)%nat.
Proof.
  intros Hm Hops. split; [|split; [|by apply uses_at_most_one]];
    unfold mint_token in Hm; destruct (ts !! _); try done; injection Hm as <- <-;
    intros Ht; unfold consume; rewrite lookup_insert_eq; simpl.
  - by rewrite decide_True by (split_and!; done || lia).
  - by rewrite decide_False by lia.
Qed.

(** ** The budget under concurrency *)

Lemma sum_app a b : sum_amounts (a ++ b) = sum_amounts a + sum_amounts b.
Proof. induction a as [|e a IH]; simpl; lia. Qed.

(** Fewer rows, smaller sum. *)
Lemma sum_filter_mono (P Q : Entry -> Prop) `{forall e, Decision (P e)}
    `{forall e, Decision (Q e)} es :
  Forall (fun e => 0 < en_amount e) es -> (forall e, e ∈ es -> P e -> Q e) ->
  sum_amounts (filter P es) <= sum_amounts (filter Q es).
Proof.
  induction es as [|e es IH]; intros Hpos HPQ; [done|].
  apply Forall_cons in Hpos as [He Hpos]. rewrite !filter_cons.
  assert (IH' := IH Hpos ltac:(intros x Hx; apply HPQ; by right)).
  destruct (decide (P e)) as [Hp|Hp].
  - rewrite decide_True by (apply HPQ; [left|done]). simpl. lia.
  - case_decide; simpl; lia.
Qed.

Section Budget.
Variable digest : string -> list Z.
(** The limit and the window each scope is used with. *)
Variable limit window : string -> Z.

(** A transaction runs its statements, then commits or rolls back, once. *)
Inductive ledger_step : Ledger -> Ledger -> Prop :=
  | ls_reserve l txn now scope amount :
      txn ∉ committed l ->
      ledger_step l (try_reserve digest txn now scope amount (limit scope) (window scope) l).2
  | ls_commit l txn : txn ∉ committed l -> ledger_step l (commit txn l)
  | ls_rollback l txn : txn ∉ committed l -> ledger_step l (rollback txn l).

Inductive ledger_reachable : Ledger -> Prop :=
  | lr_new : ledger_reachable ledger_new
  | lr_step l l' : ledger_reachable l -> ledger_step l l' -> ledger_reachable l'.

(** Rows of [scope] created in the window that ends at [t]. *)
Definition window_at (scope : string) (t : Z) (e : Entry) : Prop :=
  en_scope e = scope /\ t - micros (window scope) < en_created_at e /\ en_created_at e <= t.
#[local] Instance window_at_dec s t e : Decision (window_at s t e).
Proof. unfold window_at. apply _. Defined.

Definition spending (scope : string) (t : Z) (l : Ledger) : Z :=
  sum_amounts (filter (window_at scope t) (entries l)).

(** Pending rows belong to the holder of their scope's lock; nothing is overspent. *)
Record ledger_inv (l : Ledger) : Prop := {
  li_pos : Forall (fun e => 0 < en_amount e) (entries l);
  li_lock : forall e, e ∈ entries l -> en_txn e ∉ committed l ->
    locks l !! advisory_key digest (en_scope e) = Some (en_txn e);
  li_limit : forall s t, limit s < i64_max -> spending s t l <= Z.max 0 (limit s)
}.

Lemma acquire_spec txn key l l1 :
  acquire txn key l = Some l1 ->
  l1 = mkLedger (entries l) (committed l) (<[key := txn]> (locks l)) /\
  (forall holder, locks l !! key = Some holder -> holder = txn).
Proof.
  unfold acquire. destruct (locks l !! key) as [h|]; [case_decide; [|done]|];
    intros [= <-]; (split; [done|]); intros ? [=]; congruence.
Qed.

Lemma acquire_inv txn key l l1 :
  acquire txn key l = Some l1 -> ledger_inv l -> ledger_inv l1.
Proof.
  intros (-> & Hh)%acquire_spec [Hp Hl Hlim]. split; [done|..]; simpl; [|done].
  intros e He Hc. specialize (Hl e He Hc). rewrite lookup_insert. case_decide as Hk; [|done].
  rewrite Hk in Hh. by rewrite (Hh _ Hl).
Qed.

(** The holder of a scope's lock sees every row of the scope. *)
Lemma locked_sees_all txn scope l1 e :
  ledger_inv l1 -> locks l1 !! advisory_key digest scope = Some txn ->
  e ∈ entries l1 -> en_scope e = scope -> visible txn l1 e.
Proof.
  intros [_ Hl _] Hk He <-. unfold visible.
  destruct (decide (en_txn e ∈ committed l1)) as [|Hc]; [by right|left].
  specialize (Hl e He Hc). congruence.
Qed.

Lemma reserve_within txn now scope amount l1 t :
  ledger_inv l1 -> locks l1 !! advisory_key digest scope = Some txn ->
  0 < amount -> limit scope < i64_max ->
  ~ limit scope < i64_saturating_add (windowed_sum txn now scope (window scope) l1) amount ->
  spending scope t (mkLedger (entries l1 ++ [mkEntry txn scope amount now]) (committed l1)
    (locks l1)) <= Z.max 0 (limit scope).
Proof.
  intros Hi Hk Ha Hlim Hfit. pose proof Hi as [Hp Hl Hmax].
  unfold spending. cbn [entries]. rewrite filter_app, sum_app, filter_cons, filter_nil.
  destruct (decide (window_at scope t (mkEntry txn scope amount now))) as [Hin|Hin].
  2: { simpl. rewrite Z.add_0_r. by apply Hmax. }
  destruct Hin as (_ & Hlo & Hhi). simpl in *.
  assert (Hsum : sum_amounts (filter (window_at scope t) (entries l1)) <=
    windowed_sum txn now scope (window scope) l1).
  { unfold windowed_sum. apply sum_filter_mono; [done|].
    intros e He (Hs & Hlo' & Hhi'). split; [|by eapply locked_sees_all].
    split; [done|]. lia. }
  unfold i64_saturating_add, i64_min, i64_max in *. lia.
Qed.

Lemma try_reserve_inv txn now scope amount l :
  txn ∉ committed l -> ledger_inv l ->
  ledger_inv (try_reserve digest txn now scope amount (limit scope) (window scope) l).2.
Proof.
  intros Htxn Hi. unfold try_reserve. case_decide as Hpos; [done|].
  destruct (acquire _ _ _) as [l1|] eqn:Hacq; [|done].
  pose proof (acquire_inv _ _ _ _ Hacq Hi) as Hi1.
  apply acquire_spec in Hacq as [Hl1 _]. cbv zeta.
  case_decide as Hfit; [done|]. cbn [snd].
  assert (Hk : locks l1 !! advisory_key digest scope = Some txn)
    by (rewrite Hl1; apply lookup_insert_eq).
  pose proof Hi1 as [Hp Hl Hmax]. split; cbn [entries committed locks].
  - apply Forall_app. split; [done|]. constructor; [simpl; lia|constructor].
  - intros e [He|He]%elem_of_app Hc; [by apply Hl|].
    apply list_elem_of_singleton in He as ->. exact Hk.
  - intros s t Hs. destruct (decide (s = scope)) as [->|Hne].
    + apply reserve_within; (done || lia).
    + unfold spending. cbn [entries]. rewrite filter_app, sum_app, filter_cons, filter_nil.
      rewrite decide_False by (intros [? _]; simpl in *; congruence).
      simpl. rewrite Z.add_0_r. by apply Hmax.
Qed.

Lemma release_lookup txn m key holder :
  holder <> txn -> m !! key = Some holder -> release txn m !! key = Some holder.
Proof. intros Hne Hm. by apply map_lookup_filter_Some. Qed.

Lemma ledger_step_inv l l' : ledger_inv l -> ledger_step l l' -> ledger_inv l'.
Proof.
  intros Hi Hs. destruct Hs as [l txn now scope amount Htxn|l txn Htxn|l txn Htxn].
  - by apply try_reserve_inv.
  - destruct Hi as [Hp Hl Hmax]. split; [done|..|done]. simpl.
    intros e He Hc. apply release_lookup; [set_solver|]. apply Hl; [done|set_solver].
  - destruct Hi as [Hp Hl Hmax]. split; simpl.
    + apply Forall_forall. intros e [_ He]%list_elem_of_filter.
      rewrite Forall_forall in Hp. auto.
    + intros e [Hne He]%list_elem_of_filter Hc. apply release_lookup; [done|]. by apply Hl.
    + intros s t Hlim. etrans; [|by apply (Hmax s t)]. unfold spending. cbn [entries rollback].
      rewrite list_filter_filter. apply sum_filter_mono; [done|]. tauto.
Qed.

(** C4: concurrent metered commands never overspend.  Whatever transactions reserve,
    wait, commit and roll back in whatever order, and however their start times
    (the [NOW()] their rows are dated with) relate to the order in which they get the
    lock: in every reachable state, for every scope and every instant, the amounts of
    the scope's rows in the window ending there, pending ones included, stay within
    the scope's limit (limits below [i64::MAX]; there the saturating check is exact). *)
Theorem budget_never_overspent (l : Ledger) (scope : string) (t : Z) :
  ledger_reachable l -> limit scope < i64_max ->
  spending scope t l <= Z.max 0 (limit scope).
Proof.
  intros Hr. apply li_limit. induction Hr as [|l l' _ IH Hs].
  - split; simpl; [constructor|set_solver|]. intros s t0 ?. unfold spending. simpl. lia.
  - by eapply ledger_step_inv.
Qed.

(** a reservation that gets the lock is granted exactly when it fits: with every
    row of the scope in the window counted (it sees all of them), it is granted iff
    the sum plus the amount is within the limit; a refusal or a wait inserts nothing,
    and a non-positive amount or limit is refused outright. *)
Theorem reserve_exact (l : Ledger) (txn now : Z) (scope : string) (amount : Z) :
  ledger_reachable l -> txn ∉ committed l -> limit scope < i64_max ->
  let r := try_reserve digest txn now scope amount (limit scope) (window scope) l in
  let used := sum_amounts (filter (in_window scope now (window scope)) (entries l)) in
  match r.1 with
  | Reserved => 0 < amount /\ used + amount <= limit scope /\
      entries r.2 = entries l ++ [mkEntry txn scope amount now]
  | Refused => (amount <= 0 \/ limit scope <= 0 \/ limit scope < used + amount) /\
      entries r.2 = entries l
  | Blocked => r.2 = l /\ exists holder,
      locks l !! advisory_key digest scope = Some holder /\ holder <> txn
  end.
Proof.
  intros Hr Htxn Hlim. assert (Hi : ledger_inv l).
  { clear Htxn. induction Hr as [|l l' _ IH Hs]; [|by eapply ledger_step_inv].
    split; simpl; [constructor|set_solver|]. intros s t0 ?. unfold spending. simpl. lia. }
  unfold try_reserve. case_decide as Hpos; [simpl; split; [lia|done]|].
  destruct (acquire _ _ _) as [l1|] eqn:Hacq.
  2: { cbn. split; [done|]. unfold acquire in Hacq.
       destruct (locks l !! _) as [h|]; [|done]. case_decide; [done|]. by exists h. }
  pose proof (acquire_inv _ _ _ _ Hacq Hi) as Hi1.
  apply acquire_spec in Hacq as [Hl1 _]. cbv zeta.
  assert (Hk : locks l1 !! advisory_key digest scope = Some txn)
    by (rewrite Hl1; apply lookup_insert_eq).
  assert (Hused : windowed_sum txn now scope (window scope) l1 =
    sum_amounts (filter (in_window scope now (window scope)) (entries l))).
  { replace (entries l) with (entries l1) by by rewrite Hl1.
    pose proof (li_pos _ Hi1) as Hp. unfold windowed_sum. apply Z.le_antisymm;
      (apply sum_filter_mono; [done|]); [tauto|]. intros e He Hin.
    split; [done|]. eapply locked_sees_all; [exact Hi1|done|done|apply Hin]. }
  rewrite Hused. unfold i64_saturating_add, i64_max, i64_min in *.
  assert (0 <= sum_amounts (filter (in_window scope now (window scope)) (entries l))).
  { pose proof (li_pos _ Hi) as Hp. clear - Hp. induction (entries l) as [|e es IH]; [done|].
    apply Forall_cons in Hp as [? Hp]. rewrite filter_cons. case_decide; simpl;
      specialize (IH Hp); lia. }
  case_decide; cbn [fst snd entries]; rewrite ?Hl1; cbn [entries]; split_and!; try done; lia.
Qed.
End Budget.

(** ** Closed examples *)

Module MeteredExamples.
Import WorkersExamples.

Lemma token_single_use_witness :
  exists token ts', mint_token codes 0 "aa" "bb" "upload" "s1" VNull 60 ∅ = Some (token, ts') /\
    (consume codes 5 "upload" "s1" token ts').1 = Some VNull.
Proof.
  destruct (mint_token codes 0 "aa" "bb" "upload" "s1" VNull 60 ∅) as [[token ts']|] eqn:Hm.
  2: { vm_compute in Hm. discriminate Hm. }
  exists token, ts'. split; [reflexivity|].
  refine (proj1 (token_single_use codes 0 60 5 "aa" "bb" "upload" "s1" token VNull ∅ ts' []
    Hm _) _).
  - intros op Hop. apply not_elem_of_nil in Hop. destruct Hop.
  - vm_compute. reflexivity.
Defined.

Definition lim (s : string) : Z := 10.
Definition win (s : string) : Z := 3600.
(** Transaction 2 reserves 7 and commits; transaction 1, started earlier, then asks. *)
Definition ledger1 : Ledger :=
  commit 2 (try_reserve codes 2 100 "global" 7 10 3600 ledger_new).2.

Lemma ledger1_reachable : ledger_reachable codes lim win ledger1.
Proof.
  eapply lr_step; [eapply lr_step; [apply lr_new|]|apply ls_commit; vm_compute; intros [=]].
  apply (ls_reserve codes lim win ledger_new 2 100 "global" 7). vm_compute. intros [=].
Qed.

Lemma budget_never_overspent_witness : spending win "global" 200 ledger1 <= Z.max 0 10.
Proof.
  exact (budget_never_overspent codes lim win ledger1 "global" 200 ledger1_reachable
    ltac:(vm_compute; reflexivity)).
Defined.

Lemma reserve_exact_witness :
  (try_reserve codes 1 50 "global" 4 (lim "global") (win "global") ledger1).1 = Refused /\
  entries (try_reserve codes 1 50 "global" 4 (lim "global") (win "global") ledger1).2 =
    entries ledger1.
Proof.
  pose proof (reserve_exact codes lim win ledger1 1 50 "global" 4 ledger1_reachable) as Hr.
  split; [vm_compute; reflexivity|]. refine (proj2 (Hr _ _)).
  - vm_compute. intros [=].
  - vm_compute. reflexivity.
Defined.
End MeteredExamples.
