(* ===== verification/ServerRateLimit.v ===== *)
(** * Per-address rate limiter of the HTTP server
    ([crates/atomo_server/src/rate_limit.rs])

    A fixed-window counter per client address, and the middleware that chooses the
    address.  An [Instant] is a monotonic time in nanoseconds; addresses are opaque
    and the parsing of one ([IpAddr::from_str]) is a parameter. *)

From S2P Require Import Prelude Json.

#[local] Open Scope string_scope.
#[local] Open Scope Z_scope.

Record TokenBucket : Type := mkTokenBucket { b_tokens : Z; b_last_refill : Z }.

Section Limiter.
Context {IpAddr : Type} `{Countable IpAddr}.

Record RateLimiter : Type := mkLimiter {
  buckets : gmap IpAddr TokenBucket;
  max_requests : Z;  (* u32 *)
  window_secs : Z;   (* u64 *)
  trust_xff : bool
}.

Definition limiter (max window : Z) : RateLimiter := mkLimiter ∅ max window true.
Definition with_xff_trust (trust : bool) (l : RateLimiter) : RateLimiter :=
  mkLimiter (buckets l) (max_requests l) (window_secs l) trust.

(** [from_env], from the values of the three variables already parsed. *)
Definition from_env (rps window : option Z) (trust : option string) : RateLimiter :=
  with_xff_trust
    (match trust with
     | Some v => negb (bool_decide (v = "false")) && negb (bool_decide (v = "0"))
     | None => true
     end)
    (limiter (default 100 rps) (default 60 window)).

(** [Instant::duration_since(..).as_secs()] (zero when the clock went back) *)
Definition elapsed_secs (now last : Z) : Z := Z.max 0 (now - last) / 10 ^ 9.

(** [check]: [inl tt] to allow, [inr retry_after] to refuse. *)
Definition check (now : Z) (ip : IpAddr) (l : RateLimiter) : (unit + Z) * RateLimiter :=
  let bucket := default (mkTokenBucket (max_requests l) now) (buckets l !! ip) in
  let elapsed := elapsed_secs now (b_last_refill bucket) in
  let bucket1 := if decide (window_secs l <= elapsed)
                 then mkTokenBucket (max_requests l) now else bucket in
  let store b := mkLimiter (<[ip := b]> (buckets l)) (max_requests l) (window_secs l)
                   (trust_xff l) in
  if decide (0 < b_tokens bucket1)
  then (inl tt, store (mkTokenBucket (b_tokens bucket1 - 1) (b_last_refill bucket1)))
  else (inr (Z.max (u64_saturating_sub (window_secs l) elapsed) 1), store bucket1).

(** ** The middleware *)

Variable parse_ip : string -> option IpAddr.
Variable localhost : IpAddr.

(** The paths that are never limited. *)
Definition exempt (path : string) : bool :=
  String.prefix "/auth/" path || bool_decide (path = "/auth") ||
  bool_decide (path = "/health") || bool_decide (path = "/ready").

Definition comma : Ascii.ascii := Ascii.ascii_of_nat 44.

(** The client identity: the first forwarded address when trusted and parsable, else
    the peer, else localhost. *)
Definition client_ip (l : RateLimiter) (xff : option string) (peer : option IpAddr) : IpAddr :=
  let forwarded := if trust_xff l
    then match xff with
         | Some v => match split_on comma v with
                     | s :: _ => parse_ip (trim s)
                     | [] => None
                     end
         | None => None
         end
    else None in
  match forwarded with
  | Some ip => ip
  | None => default localhost peer
  end.

(** [Some retry_after] answers 429; [None] passes the request on. *)
Definition rate_limit_middleware (now : Z) (path : string) (xff : option string)
    (peer : option IpAddr) (l : RateLimiter) : option Z * RateLimiter :=
  if exempt path then (None, l)
  else match check now (client_ip l xff peer) l with
       | (inl _, l') => (None, l')
       | (inr retry_after, l') => (Some retry_after, l')
       end.

(** ** Lemmas *)

Definition allowed (r : unit + Z) : bool := match r with inl _ => true | inr _ => false end.

(** The bucket of an address as [check] will find it. *)
Definition bucket_of (now : Z) (ip : IpAddr) (l : RateLimiter) : TokenBucket :=
  default (mkTokenBucket (max_requests l) now) (buckets l !! ip).

Lemma check_other now ip ip' l :
  ip' <> ip -> buckets (check now ip l).2 !! ip' = buckets l !! ip'.
Proof.
  intros Hne. unfold check. cbv zeta.
  repeat case_decide; cbn [snd buckets]; by rewrite lookup_insert_ne.
Qed.

Lemma check_config now ip l :
  max_requests (check now ip l).2 = max_requests l /\
  window_secs (check now ip l).2 = window_secs l /\ trust_xff (check now ip l).2 = trust_xff l.
Proof. unfold check. cbv zeta. by repeat case_decide. Qed.

Lemma elapsed_nonneg now last : 0 <= elapsed_secs now last.
Proof. unfold elapsed_secs. apply Z.div_pos; lia. Qed.

Lemma elapsed_add now last n :
  0 <= now - last -> 0 <= n ->
  elapsed_secs (now + n * 10 ^ 9) last = elapsed_secs now last + n.
Proof.
  intros H1 H2. unfold elapsed_secs. rewrite !Z.max_r by lia.
  replace (now + n * 10 ^ 9 - last) with (now - last + n * 10 ^ 9) by lia.
  by rewrite Z.div_add.
Qed.

(** A refusal leaves the bucket empty, inside its window. *)
Lemma check_refused now ip l retry l' :
  check now ip l = (inr retry, l') ->
  let b := bucket_of now ip l in
  (b_tokens b <= 0 /\ elapsed_secs now (b_last_refill b) < window_secs l /\
   buckets l' !! ip = Some b /\
   retry = Z.max (u64_saturating_sub (window_secs l) (elapsed_secs now (b_last_refill b))) 1) \/
  max_requests l <= 0.
Proof.
  unfold check. fold (bucket_of now ip l). cbv zeta.
  destruct (decide (window_secs l <= _)) as [Hw|Hw]; case_decide as Ht; [done| |done|];
    intros [= <- <-].
  - right. simpl in Ht. lia.
  - left. split; [lia|]. split; [lia|]. split; [apply lookup_insert_eq|done].
Qed.
End Limiter.

(** the answer to a refused client is honest: the retry time is at least one
    second and at most the window, and a request made that many seconds after the
    refused one is allowed (if the server allows any request at all and nobody used
    the address in between). *)
Theorem retry_after_sound `{Countable IpAddr} (l l' : @RateLimiter IpAddr _ _)
    (now : Z) (ip : IpAddr) (retry : Z) :
  0 < max_requests l -> 0 <= window_secs l <= u64_max ->
  (forall b, buckets l !! ip = Some b -> b_last_refill b <= now) ->
  check now ip l = (inr retry, l') ->
  1 <= retry <= Z.max 1 (window_secs l) /\
  allowed (check (now + retry * 10 ^ 9) ip l').1 = true.
Proof.
  intros Hmax Hw Hlast Hc. pose proof (check_config now ip l) as (Hm & Hwin & _).
  rewrite Hc in Hm, Hwin. cbn [snd] in Hm, Hwin.
  destruct (check_refused now ip l retry l' Hc) as [(Ht & He & Hb & ->)|?]; [|lia].
  set (b := bucket_of now ip l) in *.
  pose proof (elapsed_nonneg now (b_last_refill b)) as Hpos.
  assert (Hlb : b_last_refill b <= now).
  { unfold b, bucket_of. destruct (buckets l !! ip) as [b'|] eqn:Hb'; simpl; [by apply Hlast|lia]. }
  set (e := elapsed_secs now (b_last_refill b)) in *.
  assert (Hr : u64_saturating_sub (window_secs l) e = window_secs l - e)
    by (unfold u64_saturating_sub; lia).
  rewrite Hr. split; [lia|].
  unfold check. rewrite Hb. cbv zeta.
  change (default _ (Some b)) with b.
  rewrite elapsed_add by lia. fold e. rewrite Hwin, Hm.
  rewrite (decide_True (P := window_secs l <= _)) by lia.
  cbn [b_tokens]. by rewrite decide_True.
Qed.

(** ** The quota of a window *)

Section Quota.
Context `{Countable IpAddr}.
Implicit Type l : @RateLimiter IpAddr _ _.

(** Requests of all addresses in order of arrival; how many of [ip] are allowed from
    [t0] on. *)
Fixpoint admitted (ip : IpAddr) (reqs : list (Z * IpAddr)) (l : RateLimiter) : Z :=
  match reqs with
  | [] => 0
  | (now, who) :: rest =>
      let r := check now who l in
      (if decide (who = ip) then if allowed r.1 then 1 else 0 else 0) + admitted ip rest r.2
  end.

(** Times grow from [t] on and stay below [t']. *)
Fixpoint ordered (t : Z) (reqs : list (Z * IpAddr)) (t' : Z) : Prop :=
  match reqs with
  | [] => True
  | (now, _) :: rest => t <= now < t' /\ ordered now rest t'
  end.

(** The requests an address may still make before [t']: its tokens, and one more
    refill if its window ends before [t']. *)
Definition potential (t' : Z) (ip : IpAddr) l : Z :=
  match buckets l !! ip with
  | Some b => Z.max 0 (b_tokens b) +
      (if decide (b_last_refill b + window_secs l * 10 ^ 9 < t') then max_requests l else 0)
  | None => max_requests l
  end.

(** Tokens never exceed the maximum. *)
Definition tokens_ok l : Prop :=
  forall ip b, buckets l !! ip = Some b -> b_tokens b <= max_requests l.

(** All the requests, for the state they leave. *)
Definition serve (reqs : list (Z * IpAddr)) l : RateLimiter :=
  foldl (fun l r => (check r.1 r.2 l).2) l reqs.

Lemma elapsed_ge now last w : 0 < w -> w <= elapsed_secs now last <-> last + w * 10 ^ 9 <= now.
Proof.
  intros Hw. unfold elapsed_secs. split.
  - intros He. pose proof (Z.mul_div_le (Z.max 0 (now - last)) (10 ^ 9) ltac:(lia)). lia.
  - intros He. apply Z.div_le_lower_bound; lia.
Qed.

(** [check] on the address itself: refill or not, then spend or not. *)
Lemma check_self now ip l :
  0 < window_secs l ->
  let b := bucket_of now ip l in
  let b1 := if decide (b_last_refill b + window_secs l * 10 ^ 9 <= now)
            then mkTokenBucket (max_requests l) now else b in
  allowed (check now ip l).1 = bool_decide (0 < b_tokens b1) /\
  buckets (check now ip l).2 !! ip =
    Some (if decide (0 < b_tokens b1)
          then mkTokenBucket (b_tokens b1 - 1) (b_last_refill b1) else b1).
Proof.
  intros Hw. cbv zeta. unfold check. fold (bucket_of now ip l). cbv zeta.
  set (b := bucket_of now ip l).
  destruct (decide (b_last_refill b + _ <= now)) as [He|He].
  - rewrite (decide_True (P := window_secs l <= _)) by (by apply elapsed_ge).
    case_decide; cbn [fst snd allowed buckets]; rewrite lookup_insert_eq;
      [by rewrite bool_decide_eq_true_2|by rewrite bool_decide_eq_false_2].
  - rewrite (decide_False (P := window_secs l <= _)) by (by rewrite elapsed_ge).
    case_decide; cbn [fst snd allowed buckets]; rewrite lookup_insert_eq;
      [by rewrite bool_decide_eq_true_2|by rewrite bool_decide_eq_false_2].
Qed.

Lemma tokens_ok_check now ip l :
  0 <= max_requests l -> 0 < window_secs l -> tokens_ok l -> tokens_ok (check now ip l).2.
Proof.
  intros Hm Hw Hok ip' b Hb. destruct (check_config now ip l) as (-> & _ & _).
  destruct (decide (ip' = ip)) as [->|Hne]; [|rewrite check_other in Hb by done; by eapply Hok].
  destruct (check_self now ip l Hw) as [_ Hs]. rewrite Hs in Hb. injection Hb as <-.
  assert (b_tokens (bucket_of now ip l) <= max_requests l).
  { unfold bucket_of. destruct (buckets l !! ip) as [b'|] eqn:Hb'; simpl; [by eapply Hok|lia]. }
  repeat case_decide; simpl in *; lia.
Qed.

Lemma serve_config reqs l :
  max_requests (serve reqs l) = max_requests l /\ window_secs (serve reqs l) = window_secs l.
Proof.
  unfold serve. revert l. induction reqs as [|r reqs IH]; intros l; [done|]. simpl.
  destruct (IH (check r.1 r.2 l).2) as [-> ->], (check_config r.1 r.2 l) as (? & ? & _). done.
Qed.

Lemma serve_tokens_ok reqs l :
  0 <= max_requests l -> 0 < window_secs l -> tokens_ok l -> tokens_ok (serve reqs l).
Proof.
  unfold serve. revert l. induction reqs as [|r reqs IH]; intros l Hm Hw Hok; [done|]. simpl.
  destruct (check_config r.1 r.2 l) as (Hm' & Hw' & _).
  apply IH; [by rewrite Hm'|by rewrite Hw'|by apply tokens_ok_check].
Qed.

(** One request costs what it is granted, within one window. *)
Lemma potential_step t t' now ip l :
  0 <= max_requests l -> 0 < window_secs l -> t' <= t + window_secs l * 10 ^ 9 ->
  t <= now < t' ->
  (if allowed (check now ip l).1 then 1 else 0) + potential t' ip (check now ip l).2 <=
    potential t' ip l.
Proof.
  intros Hm Hw Ht' Hnow. destruct (check_self now ip l Hw) as [Ha Hb].
  destruct (check_config now ip l) as (Hmax & Hwin & _).
  unfold potential at 1. rewrite Ha, Hb, Hmax, Hwin. unfold potential, bucket_of.
  destruct (buckets l !! ip) as [b|]; simpl;
    repeat (case_decide || case_bool_decide); simpl in *; lia.
Qed.

Lemma potential_other t' now ip who l :
  who <> ip -> potential t' ip (check now who l).2 = potential t' ip l.
Proof.
  intros Hne. unfold potential. rewrite check_other by done.
  by destruct (check_config now who l) as (-> & -> & _).
Qed.

Lemma admitted_bound t t' ip reqs l :
  0 <= max_requests l -> 0 < window_secs l -> t' <= t + window_secs l * 10 ^ 9 ->
  ordered t reqs t' -> admitted ip reqs l <= potential t' ip l.
Proof.
  revert t l. induction reqs as [|[now who] reqs IH]; intros t l Hm Hw Ht' Hord.
  - simpl. unfold potential. destruct (buckets l !! ip); [|lia]. case_decide; lia.
  - destruct Hord as [Hnow Hord]. cbn [admitted].
    destruct (check_config now who l) as (Hmax & Hwin & _).
    assert (IH' : admitted ip reqs (check now who l).2 <= potential t' ip (check now who l).2).
    { apply (IH now); rewrite ?Hmax, ?Hwin; (done || lia). }
    case_decide as Hd; [subst who|].
    + pose proof (potential_step t t' now ip l Hm Hw Ht' Hnow). lia.
    + rewrite potential_other in IH' by done. lia.
Qed.

(** the quota.  After any requests, in any span of time no longer than the window an
    address is granted at most twice the configured number of requests (the fixed
    window may turn once inside the span), and at most that number if it is new to
    the server; other addresses never cost it anything. *)
Theorem window_quota (max window : Z) (before reqs : list (Z * IpAddr)) (ip : IpAddr)
    (t t' : Z) :
  0 <= max <= u32_max -> 0 < window -> t' <= t + window * 10 ^ 9 -> ordered t reqs t' ->
  let l := serve before (limiter max window) in
  admitted ip reqs l <= 2 * max /\
  (~ ip ∈ before.*2 -> admitted ip reqs l <= max).
Proof.
  intros Hmax Hw Ht' Hord l.
  destruct (serve_config before (limiter max window)) as [Hm Hwin]. fold l in Hm, Hwin.
  simpl in Hm, Hwin.
  assert (Hadm : admitted ip reqs l <= potential t' ip l)
    by (apply (admitted_bound t); rewrite ?Hm, ?Hwin; (done || lia)).
  split.
  - etrans; [exact Hadm|]. unfold potential.
    assert (Hok : tokens_ok l).
    { apply serve_tokens_ok; simpl; [lia|done|]. intros i b. simpl. by rewrite lookup_empty. }
    destruct (buckets l !! ip) as [b|] eqn:Hb; [|lia]. specialize (Hok ip b Hb).
    case_decide; lia.
  - intros Hnew. etrans; [exact Hadm|]. unfold potential.
    assert (Hnone : buckets l !! ip = None); [|rewrite Hnone; lia].
    unfold l, serve. clear - Hnew. 
    assert (Hgen : forall (l0 : @RateLimiter IpAddr _ _), buckets l0 !! ip = None ->
      buckets (foldl (fun l r => (check r.1 r.2 l).2) l0 before) !! ip = None).
    { induction before as [|r before IH]; intros l0 H0; [done|]. simpl.
      apply not_elem_of_cons in Hnew as [Hne Hnew]. apply IH; [done|].
      by rewrite check_other. }
    apply Hgen. apply lookup_empty.
Qed.
End Quota.

(** ** Closed examples *)

Module ServerRateLimitExamples.

Definition lim1 : @RateLimiter Z _ _ := limiter 1 60.

Lemma retry_after_sound_witness :
  exists retry l', check (10 ^ 9) 7 (check 0 7 lim1).2 = (inr retry, l') /\ retry = 59 /\
    allowed (check (10 ^ 9 + retry * 10 ^ 9) 7 l').1 = true.
Proof.
  destruct (check (10 ^ 9) 7 (check 0 7 lim1).2) as [[u|retry] l'] eqn:Hc.
  { vm_compute in Hc. discriminate Hc. }
  exists retry, l'. split; [reflexivity|].
  split; [vm_compute in Hc; injection Hc as <- _; reflexivity|].
  refine (proj2 (retry_after_sound (check 0 7 lim1).2 l' (10 ^ 9) 7 retry _ _ _ Hc)).
  - vm_compute. reflexivity.
  - split; vm_compute; discriminate.
  - intros b Hb. vm_compute in Hb. injection Hb as <-. vm_compute. discriminate.
Defined.

Lemma window_quota_witness :
  admitted 7 [(5, 7); (6, 7); (7, 8); (8, 7)] (serve [] (limiter 1 60)) <= 2 * 1.
Proof.
  refine (proj1 (window_quota 1 60 [] [(5, 7); (6, 7); (7, 8); (8, 7)] 7 5 9 _ _ _ _)).
  - split; vm_compute; discriminate.
  - reflexivity.
  - vm_compute. discriminate.
  - simpl. lia.
Defined.
End ServerRateLimitExamples.
