(* ===== verification/Query.v ===== *)
(** * Queries: filters, sort orders and the fluent builders

    [atomo/src/query/mod.rs] and [atomo/src/query/operators.rs]: the data of a query,
    the builders that collect it and the conversions of the operator types. *)

From S2P Require Import Prelude Json.
From S2P Require Export SchemaTypes.

(** ** query/mod.rs *)

Inductive WhereOperator : Type :=
  | Equals | NotEquals | Contains | StartsWith | EndsWith
  | GreaterThan | GreaterThanOrEqual | LessThan | LessThanOrEqual
  | In | NotIn | IsNull | IsNotNull.

#[global] Instance WhereOperator_eq_dec : EqDecision WhereOperator.
Proof. solve_decision. Defined.

Record WhereClause : Type := mkWhere {
  wc_field : string;
  wc_operator : WhereOperator;
  wc_value : Value
}.

Inductive OrderDirection : Type := Asc | Desc.

Record OrderBy : Type := mkOrderBy { ob_field : string; ob_direction : OrderDirection }.

(** [FindManyQuery]; limits are [i32]. *)
Record FindManyQuery : Type := mkFindMany {
  fm_model : string;
  fm_where : list WhereClause;
  fm_order_by : list OrderBy;
  fm_limit : option Z;
  fm_offset : option Z;
  fm_include : list string
}.

Module FindMany.
Definition new (model : string) : FindManyQuery := mkFindMany model [] [] None None [].
Definition where_ (field : string) (op : WhereOperator) (v : Value) (q : FindManyQuery) :=
  mkFindMany (fm_model q) (fm_where q ++ [mkWhere field op v]) (fm_order_by q)
    (fm_limit q) (fm_offset q) (fm_include q).
Definition order_by (field : string) (d : OrderDirection) (q : FindManyQuery) :=
  mkFindMany (fm_model q) (fm_where q) (fm_order_by q ++ [mkOrderBy field d])
    (fm_limit q) (fm_offset q) (fm_include q).
Definition limit (n : Z) (q : FindManyQuery) :=
  mkFindMany (fm_model q) (fm_where q) (fm_order_by q) (Some n) (fm_offset q) (fm_include q).
Definition offset (n : Z) (q : FindManyQuery) :=
  mkFindMany (fm_model q) (fm_where q) (fm_order_by q) (fm_limit q) (Some n) (fm_include q).
Definition include (relation : string) (q : FindManyQuery) :=
  mkFindMany (fm_model q) (fm_where q) (fm_order_by q) (fm_limit q) (fm_offset q)
    (fm_include q ++ [relation]).
End FindMany.

(** [FindUniqueQuery] *)
Record FindUniqueQuery : Type := mkFindUnique {
  fu_model : string;
  fu_where : list WhereClause;
  fu_include : list string
}.

Module FindUnique.
Definition new (model : string) : FindUniqueQuery := mkFindUnique model [] [].
Definition where_ (field : string) (op : WhereOperator) (v : Value) (q : FindUniqueQuery) :=
  mkFindUnique (fu_model q) (fu_where q ++ [mkWhere field op v]) (fu_include q).
Definition include (relation : string) (q : FindUniqueQuery) :=
  mkFindUnique (fu_model q) (fu_where q) (fu_include q ++ [relation]).
End FindUnique.

(** [CreateQuery]; the data is a map from fields to values. *)
Record CreateQuery : Type := mkCreate {
  cq_model : string;
  cq_data : gmap string Value;
  cq_include : list string
}.

Module Create.
Definition new (model : string) : CreateQuery := mkCreate model ∅ [].
Definition data (field : string) (v : Value) (q : CreateQuery) :=
  mkCreate (cq_model q) (<[field := v]> (cq_data q)) (cq_include q).
Definition include (relation : string) (q : CreateQuery) :=
  mkCreate (cq_model q) (cq_data q) (cq_include q ++ [relation]).
End Create.

(** [UpdateQuery] *)
Record UpdateQuery : Type := mkUpdate {
  uq_model : string;
  uq_where : list WhereClause;
  uq_data : gmap string Value;
  uq_include : list string
}.

Module Update.
Definition new (model : string) : UpdateQuery := mkUpdate model [] ∅ [].
Definition where_ (field : string) (op : WhereOperator) (v : Value) (q : UpdateQuery) :=
  mkUpdate (uq_model q) (uq_where q ++ [mkWhere field op v]) (uq_data q) (uq_include q).
Definition data (field : string) (v : Value) (q : UpdateQuery) :=
  mkUpdate (uq_model q) (uq_where q) (<[field := v]> (uq_data q)) (uq_include q).
Definition include (relation : string) (q : UpdateQuery) :=
  mkUpdate (uq_model q) (uq_where q) (uq_data q) (uq_include q ++ [relation]).
End Update.

(** [DeleteQuery] *)
Record DeleteQuery : Type := mkDelete { dq_model : string; dq_where : list WhereClause }.

Module Delete.
Definition new (model : string) : DeleteQuery := mkDelete model [].
Definition where_ (field : string) (op : WhereOperator) (v : Value) (q : DeleteQuery) :=
  mkDelete (dq_model q) (dq_where q ++ [mkWhere field op v]).
End Delete.

(** ** query/operators.rs: the operator types and their conversion to a clause, whose
    field the builder sets *)

Inductive OperatorValue : Type :=
  | OpEquals (v : Value)
  | OpNotEquals (v : Value)
  | OpContains (s : string)
  | OpStartsWith (s : string)
  | OpEndsWith (s : string)
  | OpGreaterThan (v : Value)
  | OpLessThan (v : Value)
  | OpIn (l : list Value)
  | OpNotIn (l : list Value)
  | OpIsNull
  | OpIsNotNull.

Definition clause_of (o : OperatorValue) : WhereClause :=
  match o with
  | OpEquals v => mkWhere EmptyString Equals v
  | OpNotEquals v => mkWhere EmptyString NotEquals v
  | OpContains s => mkWhere EmptyString Contains (VString s)
  | OpStartsWith s => mkWhere EmptyString StartsWith (VString s)
  | OpEndsWith s => mkWhere EmptyString EndsWith (VString s)
  | OpGreaterThan v => mkWhere EmptyString GreaterThan v
  | OpLessThan v => mkWhere EmptyString LessThan v
  | OpIn l => mkWhere EmptyString In (VArray l)
  | OpNotIn l => mkWhere EmptyString NotIn (VArray l)
  | OpIsNull => mkWhere EmptyString IsNull VNull
  | OpIsNotNull => mkWhere EmptyString IsNotNull VNull
  end.

Definition equals_string (s : string) : OperatorValue := OpEquals (VString s).
Definition equals_i64 (n : Z) : OperatorValue := OpEquals (json_int n).
Definition equals_bool (b : bool) : OperatorValue := OpEquals (VBool b).
