(* ===== verification/SqlBuilder.v ===== *)
(** * The SQL statement generator ([atomo/src/query/sql_builder.rs])

    Every statement is a text and the list of values bound to its placeholders.
    Strings are sequences of bytes; [to_snake_case] changes the case of ASCII letters
    (identifiers of the schema language are ASCII), other bytes are kept. *)

From stdpp Require Import pretty.
From S2P Require Import Prelude Json Query.

Definition dquote : Ascii.ascii := Ascii.ascii_of_nat 34.
Definition dquote_s : string := String dquote EmptyString.

(** Every double quote of [ident] twice *)
Fixpoint replace_dquote (s : string) : string :=
  match s with
  | EmptyString => EmptyString
  | String a r => if Ascii.eqb a dquote then String dquote (String dquote (replace_dquote r))
                  else String a (replace_dquote r)
  end.

Definition quote_ident (ident : string) : string :=
  dquote_s +:+ replace_dquote ident +:+ dquote_s.

Definition is_ascii_upper (a : Ascii.ascii) : bool :=
  let n := Ascii.nat_of_ascii a in ((65 <=? n) && (n <=? 90))%nat.

Definition is_empty (s : string) : bool := match s with EmptyString => true | _ => false end.

(** The loop of [to_snake_case]; [started] says that [result] is not empty. *)
Fixpoint snake_go (started : bool) (s : string) : string :=
  match s with
  | EmptyString => EmptyString
  | String c r =>
      let tail := String (ascii_lower c) (snake_go true r) in
      if is_ascii_upper c && started then "_" +:+ tail else tail
  end.
Definition to_snake_case (s : string) : string := snake_go false s.

Definition table_name (m : Model) : string :=
  match m_table_name m with
  | Some t => t
  | None => to_snake_case (m_name m) +:+ "s"
  end.

Definition is_null (v : Value) : bool := match v with VNull => true | _ => false end.
Definition is_string (v : Value) : bool := match v with VString _ => true | _ => false end.
Definition as_array (v : Value) : option (list Value) :=
  match v with VArray l => Some l | _ => None end.

(** [vec.join(sep)] *)
Definition join (sep : string) (l : list string) : string := String.concat sep l.

(** A dollar sign and the index *)
Definition placeholder (idx : nat) : string := "$" +:+ pretty idx.

(** ** [write_value]: a null is written as such, anything else is bound *)

Definition is_datetime (m : Model) (key : string) : bool :=
  match m_fields m !! key with
  | Some f => match f_type f with FDateTime => true | _ => false end
  | None => false
  end.

Definition write_value (m : Model) (key : string) (v : Value) (params : list Value)
    : string * list Value :=
  if is_null v then ("NULL", params)
  else
    let params := params ++ [v] in
    (placeholder (length params) +:+ (if is_datetime m key then "::timestamptz" else EmptyString),
     params).

(** ** [build_where] *)

(** The members of an [In] or [NotIn] list: their texts and the values they bind. *)
Fixpoint in_members (col : string) (negated : bool) (idx : nat) (values : list Value)
    : list string * list Value * nat :=
  match values with
  | [] => ([], [], idx)
  | v :: rest =>
      let operator := if negated then "!=" else "=" in
      if is_null v then
        let '(ms, ps, idx') := in_members col negated idx rest in
        ((col +:+ " " +:+ operator +:+ " NULL") :: ms, ps, idx')
      else
        let cast := if is_string v then "::text" else EmptyString in
        let '(ms, ps, idx') := in_members col negated (S idx) rest in
        ((col +:+ cast +:+ " " +:+ operator +:+ " " +:+ placeholder idx) :: ms, v :: ps, idx')
  end.

(** One clause: its text, the values it binds and the next index. *)
Definition clause_sql (c : WhereClause) (idx : nat) : string * list Value * nat :=
  let col := quote_ident (to_snake_case (wc_field c)) in
  let v := wc_value c in
  let one (text : string) := (text, [v], S idx) in
  let cast := if is_string v then "::text" else EmptyString in
  let p := placeholder idx in
  match wc_operator c with
  | Equals => one (col +:+ cast +:+ " = " +:+ p)
  | NotEquals => one (col +:+ cast +:+ " != " +:+ p)
  | Contains => one (col +:+ " ILIKE '%' || " +:+ p +:+ " || '%'")
  | StartsWith => one (col +:+ " ILIKE " +:+ p +:+ " || '%'")
  | EndsWith => one (col +:+ " ILIKE '%' || " +:+ p)
  | GreaterThan => one (col +:+ " > " +:+ p)
  | GreaterThanOrEqual => one (col +:+ " >= " +:+ p)
  | LessThan => one (col +:+ " < " +:+ p)
  | LessThanOrEqual => one (col +:+ " <= " +:+ p)
  | In | NotIn =>
      let negated := bool_decide (wc_operator c = NotIn) in
      match as_array v with
      | None => ("FALSE", [], idx)
      | Some [] => (if negated then "TRUE" else "FALSE", [], idx)
      | Some values =>
          let '(members, ps, idx') := in_members col negated idx values in
          ("(" +:+ join (if negated then " AND " else " OR ") members +:+ ")", ps, idx')
      end
  | IsNull => (col +:+ " IS NULL", [], idx)
  | IsNotNull => (col +:+ " IS NOT NULL", [], idx)
  end.

Fixpoint where_parts (cs : list WhereClause) (idx : nat) : list string * list Value :=
  match cs with
  | [] => ([], [])
  | c :: rest =>
      let '(part, ps, idx') := clause_sql c idx in
      let '(parts, ps') := where_parts rest idx' in
      (part :: parts, ps ++ ps')
  end.

Definition build_where (cs : list WhereClause) (param_offset : nat) : string * list Value :=
  let '(parts, ps) := where_parts cs (param_offset + 1) in (join " AND " parts, ps).

(** The WHERE part, if there is one *)
Definition push_where (sql where_sql : string) : string :=
  if is_empty where_sql then sql else sql +:+ " WHERE " +:+ where_sql.

(** ** The statements *)

Definition Statement : Type := (string * list Value)%type.

(** The columns [ORDER BY] may use. *)
Definition valid_columns (m : Model) : list string :=
  ((fun p => to_snake_case (f_name p.2)) <$> map_to_list (m_fields m)) ++
  ["created_at"; "updated_at"; "deleted_at"; "tenant_id"].

Definition direction (d : OrderDirection) : string :=
  match d with Asc => "ASC" | Desc => "DESC" end.

Definition order_clauses (m : Model) (order_by : list (string * OrderDirection)) : list string :=
  (fun p => quote_ident (to_snake_case p.1) +:+ " " +:+ direction p.2) <$>
    filter (fun p => to_snake_case p.1 ∈ valid_columns m) order_by.

Definition select (m : Model) (cs : list WhereClause) (order_by : list (string * OrderDirection))
    (limit offset : option nat) : Statement :=
  let sql := "SELECT * FROM " +:+ quote_ident (table_name m) in
  let '(where_sql, params) := build_where cs 0 in
  let sql := push_where sql where_sql in
  let sql := match order_clauses m order_by with
             | [] => sql
             | clauses => sql +:+ " ORDER BY " +:+ join ", " clauses
             end in
  let sql := match limit with Some l => sql +:+ " LIMIT " +:+ pretty l | None => sql end in
  let sql := match offset with Some o => sql +:+ " OFFSET " +:+ pretty o | None => sql end in
  (sql, params).

Definition select_one (m : Model) (cs : list WhereClause) : Statement :=
  select m cs [] (Some 1%nat) None.

Definition select_active (m : Model) (cs : list WhereClause)
    (order_by : list (string * OrderDirection)) (limit offset : option nat) : Statement :=
  select m (cs ++ [mkWhere "deleted_at" IsNull VNull]) order_by limit offset.

Definition select_deleted (m : Model) (cs : list WhereClause)
    (order_by : list (string * OrderDirection)) (limit offset : option nat) : Statement :=
  select m (cs ++ [mkWhere "deleted_at" IsNotNull VNull]) order_by limit offset.

(** The loop over the entries of [data]: what is written for each and the values bound. *)
Fixpoint write_values (m : Model) (entries : list (string * Value)) (params : list Value)
    : list string * list Value :=
  match entries with
  | [] => ([], params)
  | (key, v) :: rest =>
      let '(text, params) := write_value m key v params in
      let '(texts, params) := write_values m rest params in
      (text :: texts, params)
  end.

Definition column (key : string) : string := quote_ident (to_snake_case key).

Section Statements.
Context {ho : HashOrder}.

Definition insert (m : Model) (data : gmap string Value) : Statement :=
  let entries := hpairs data in
  let columns := (fun p => column p.1) <$> entries in
  let '(placeholders, params) := write_values m entries [] in
  ("INSERT INTO " +:+ quote_ident (table_name m) +:+ " (" +:+ join ", " columns +:+
   ") VALUES (" +:+ join ", " placeholders +:+ ") RETURNING *", params).

(** One tuple of placeholders per record, the columns in the fixed order [cols]. *)
Fixpoint write_rows (m : Model) (cols : list string) (records : list (gmap string Value))
    (params : list Value) : list string * list Value :=
  match records with
  | [] => ([], params)
  | r :: rest =>
      let entries := (fun c => (c, default VNull (r !! c))) <$> cols in
      let '(placeholders, params) := write_values m entries params in
      let '(tuples, params) := write_rows m cols rest params in
      (("(" +:+ join ", " placeholders +:+ ")") :: tuples, params)
  end.

Definition insert_many (m : Model) (records : list (gmap string Value)) : option Statement :=
  match records with
  | [] => None
  | first :: _ =>
      let cols := sort_strings (hkeys first) in
      let ncols := length cols in
      if decide (ncols = 0%nat) then None
      else if decide (Forall (fun r : gmap string Value => size r = ncols /\ Forall (fun c => is_Some (r !! c)) cols) records)
      then if decide (u64_saturating_mul (Z.of_nat (length records)) (Z.of_nat ncols) <= 60000) then
             let '(tuples, params) := write_rows m cols records [] in
             Some ("INSERT INTO " +:+ quote_ident (table_name m) +:+ " (" +:+
                   join ", " (column <$> cols) +:+ ") VALUES " +:+ join ", " tuples +:+
                   " RETURNING *", params)
           else None
      else None
  end.

Definition update (m : Model) (cs : list WhereClause) (data : gmap string Value) : Statement :=
  let entries := hpairs data in
  let '(texts, params) := write_values m entries [] in
  let set_clauses := zip_with (fun p t => column p.1 +:+ " = " +:+ t) entries texts in
  let sql := "UPDATE " +:+ quote_ident (table_name m) +:+ " SET " +:+ join ", " set_clauses in
  let '(where_sql, where_params) := build_where cs (length params) in
  (push_where sql where_sql +:+ " RETURNING *", params ++ where_params).
End Statements.

Definition returning_id : string := " RETURNING " +:+ dquote_s +:+ "id" +:+ dquote_s.

Definition delete (m : Model) (cs : list WhereClause) : Statement :=
  let '(where_sql, params) := build_where cs 0 in
  (push_where ("DELETE FROM " +:+ quote_ident (table_name m)) where_sql +:+ returning_id, params).

Definition soft_delete (m : Model) (cs : list WhereClause) : Statement :=
  let sql := "UPDATE " +:+ quote_ident (table_name m) +:+ " SET " +:+ dquote_s +:+ "deleted_at" +:+
             dquote_s +:+ " = NOW()" in
  let '(where_sql, params) := build_where cs 0 in
  (push_where sql where_sql +:+ returning_id, params).

Definition restore (m : Model) (cs : list WhereClause) : Statement :=
  let sql := "UPDATE " +:+ quote_ident (table_name m) +:+ " SET " +:+ dquote_s +:+ "deleted_at" +:+
             dquote_s +:+ " = NULL" in
  let '(where_sql, params) := build_where cs 0 in
  (push_where sql where_sql +:+ returning_id, params).
