(* ===== verification/SqlLex.v ===== *)
(** * A lexer for the statements the crates emit

    The specification of what PostgreSQL reads in a generated text: quoted identifiers
    with their doubled quotes, string literals, numbered placeholders, words, numbers
    and a few symbols.  Everything else (comments, backslashes, semicolons, prefixed
    strings, dollar quoting, unterminated quotes) is a lexical error, so a text that
    lexes contains none of it. *)

From stdpp Require Import pretty.
From S2P Require Import Prelude.

Inductive token : Type :=
  | TWord (s : string)      (* a keyword, bare name or type *)
  | TIdent (s : string)     (* a quoted identifier, decoded *)
  | TStr (s : string)       (* a string literal, decoded *)
  | TParam (digits : string)
  | TNum (digits : string)
  | TSym (a : Ascii.ascii).

#[global] Instance token_eq_dec : EqDecision token.
Proof. solve_decision. Defined.

Inductive lstate : Type :=
  | LStart
  | LWord (acc : string)
  | LNum (acc : string)
  | LParam (acc : string)
  | LIdent (acc : string)      (* inside a quoted identifier *)
  | LIdentQ (acc : string)     (* after a quote that may close it *)
  | LStr (acc : string)
  | LStrQ (acc : string)
  | LErr.

Definition char_code (a : Ascii.ascii) : nat := Ascii.nat_of_ascii a.
Definition between (lo hi : nat) (a : Ascii.ascii) : bool :=
  ((lo <=? char_code a) && (char_code a <=? hi))%nat.
Definition is_digit (a : Ascii.ascii) : bool := between 48 57 a.
Definition is_letter (a : Ascii.ascii) : bool :=
  between 65 90 a || between 97 122 a || (char_code a =? 95)%nat.
(** The blank and the controls for tabs and ends of line *)
Definition is_space (a : Ascii.ascii) : bool := (char_code a =? 32)%nat || between 9 13 a.
Definition is_dquote (a : Ascii.ascii) : bool := (char_code a =? 34)%nat.
Definition is_squote (a : Ascii.ascii) : bool := (char_code a =? 39)%nat.
Definition is_dollar (a : Ascii.ascii) : bool := (char_code a =? 36)%nat.
(** [( ) , = ! < > * | :] *)
Definition is_symbol (a : Ascii.ascii) : bool :=
  existsb (Nat.eqb (char_code a)) [40; 41; 44; 61; 33; 60; 62; 42; 124; 58]%nat.

Definition snoc (s : string) (a : Ascii.ascii) : string := s +:+ String a EmptyString.

Definition start (c : Ascii.ascii) : list token * lstate :=
  if is_space c then ([], LStart)
  else if is_dquote c then ([], LIdent EmptyString)
  else if is_squote c then ([], LStr EmptyString)
  else if is_dollar c then ([], LParam EmptyString)
  else if is_digit c then ([], LNum (String c EmptyString))
  else if is_letter c then ([], LWord (String c EmptyString))
  else if is_symbol c then ([TSym c], LStart)
  else ([], LErr).

(** What may follow a word, a number or a placeholder. *)
Definition is_delim (c : Ascii.ascii) : bool := is_space c || is_symbol c.

Definition finish_token (t : token) (c : Ascii.ascii) : list token * lstate :=
  if is_delim c then (t :: (start c).1, (start c).2) else ([], LErr).

Definition step (st : lstate) (c : Ascii.ascii) : list token * lstate :=
  match st with
  | LStart => start c
  | LWord acc => if is_letter c || is_digit c then ([], LWord (snoc acc c))
                 else finish_token (TWord acc) c
  | LNum acc => if is_digit c then ([], LNum (snoc acc c)) else finish_token (TNum acc) c
  | LParam acc =>
      if is_digit c then ([], LParam (snoc acc c))
      else match acc with
           | EmptyString => ([], LErr)
           | _ => finish_token (TParam acc) c
           end
  | LIdent acc => if is_dquote c then ([], LIdentQ acc) else ([], LIdent (snoc acc c))
  | LIdentQ acc => if is_dquote c then ([], LIdent (snoc acc c)) else finish_token (TIdent acc) c
  | LStr acc => if is_squote c then ([], LStrQ acc) else ([], LStr (snoc acc c))
  | LStrQ acc => if is_squote c then ([], LStr (snoc acc c)) else finish_token (TStr acc) c
  | LErr => ([], LErr)
  end.

Fixpoint run (st : lstate) (s : string) : list token * lstate :=
  match s with
  | EmptyString => ([], st)
  | String c r =>
      let '(ts, st) := step st c in
      let '(ts', st) := run st r in
      (ts ++ ts', st)
  end.

(** The token a state has read so far, if the text may end there. *)
Definition flush (st : lstate) : option (list token) :=
  match st with
  | LStart => Some []
  | LWord acc => Some [TWord acc]
  | LNum acc => Some [TNum acc]
  | LParam EmptyString => None
  | LParam acc => Some [TParam acc]
  | LIdentQ acc => Some [TIdent acc]
  | LStrQ acc => Some [TStr acc]
  | LIdent _ | LStr _ | LErr => None
  end.

Definition lex (s : string) : option (list token) :=
  let '(ts, st) := run LStart s in (fun ts' => ts ++ ts') <$> flush st.

(** ** Composition *)

Lemma run_app st s1 s2 :
  run st (s1 +:+ s2) =
  ((run st s1).1 ++ (run (run st s1).2 s2).1, (run (run st s1).2 s2).2).
Proof.
  revert st. induction s1 as [|c s1 IH]; intros st.
  { rewrite str_app_nil. simpl. by destruct (run st s2). }
  rewrite str_app_cons. simpl. destruct (step st c) as [t st1]. rewrite IH. destruct (run st1 s1) as [t1 st2]. simpl.
  by rewrite app_assoc.
Qed.

(** Texts that begin with a delimiter (or are empty) never change the token before. *)
Definition starts_delim (s : string) : Prop :=
  match s with EmptyString => True | String c _ => is_delim c = true end.

Lemma delim_classes c : is_delim c = true ->
  is_letter c = false /\ is_digit c = false /\ is_dquote c = false /\ is_squote c = false.
Proof. destruct c as [[] [] [] [] [] [] [] []]; vm_compute; try discriminate; auto. Qed.

Lemma flush_delim st ts s :
  flush st = Some ts -> starts_delim s ->
  (fun ts' => (run st s).1 ++ ts') <$> flush (run st s).2 =
  (fun ts' => ts ++ ts') <$> lex s.
Proof.
  intros Hf Hs. destruct s as [|c s]; [simpl; rewrite Hf; simpl; by rewrite app_nil_r|].
  assert (Hstep : step st c = (ts ++ (start c).1, (start c).2)).
  { apply delim_classes in Hs as H. destruct H as (Hl & Hd & Hdq & Hsq). simpl in Hs.
    destruct st as [|acc|acc|acc|acc|acc|acc|acc|]; simpl in Hf |- *; try discriminate Hf;
      rewrite ?Hl, ?Hd, ?Hdq, ?Hsq; unfold finish_token; simpl; rewrite ?Hs.
    4: destruct acc; [discriminate Hf|].
    all: injection Hf as <-; simpl; try done; by destruct (start c). }
  unfold lex. cbn [run step]. rewrite Hstep. destruct (start c) as [t st1].
  cbn [fst snd]. destruct (run st1 s) as [t1 st2]. cbn [fst snd].
  destruct (flush st2); simpl; [|done]. by rewrite !app_assoc.
Qed.

(** [lexes s ts]: the text reads as these tokens. *)
Definition lexes (s : string) (ts : list token) : Prop := lex s = Some ts.

Lemma lexes_app s1 s2 t1 t2 :
  lexes s1 t1 -> lexes s2 t2 -> starts_delim s2 -> lexes (s1 +:+ s2) (t1 ++ t2).
Proof.
  unfold lexes. intros H1 H2 Hd. unfold lex in H1 |- *. rewrite run_app.
  revert H1. destruct (run LStart s1) as [ts st]. cbn [fst snd].
  destruct (flush st) as [ts'|] eqn:Hf; [|discriminate]. intros [= <-].
  pose proof (flush_delim st ts' s2 Hf Hd) as H. rewrite H2 in H.
  revert H. cbn [fst snd]. destruct (flush (run st s2).2) as [t|]; [|discriminate].
  simpl. intros [= H]. by rewrite <-!app_assoc, H.
Qed.

(** A text that ends in a delimiter may be followed by anything. *)
Definition ends_delim (s : string) (ts : list token) : Prop := run LStart s = (ts, LStart).

Lemma lexes_after s1 s2 t1 t2 :
  ends_delim s1 t1 -> lexes s2 t2 -> lexes (s1 +:+ s2) (t1 ++ t2).
Proof.
  unfold ends_delim, lexes, lex. rewrite run_app. intros ->. cbn [fst snd].
  destruct (run LStart s2) as [t st]. cbn [fst snd]. destruct (flush st); [|discriminate].
  simpl. intros [= <-]. by rewrite app_assoc.
Qed.

Lemma lexes_empty : lexes EmptyString [].
Proof. done. Qed.

Lemma starts_delim_app s1 s2 :
  s1 <> EmptyString -> starts_delim s1 -> starts_delim (s1 +:+ s2).
Proof. by destruct s1. Qed.

(** ** Decimal numbers *)

Fixpoint all_digits (s : string) : bool :=
  match s with EmptyString => true | String c r => is_digit c && all_digits r end.

Lemma pretty_char_digit n : (n < 10)%N -> is_digit (pretty_N_char n) = true.
Proof.
  intros Hn. assert (Hc : exists k, (k < 10)%nat /\ n = N.of_nat k) by (exists (N.to_nat n); lia).
  destruct Hc as (k & Hk & ->). do 10 (destruct k; [done|]). lia.
Qed.

Lemma pretty_go_digits n s : all_digits s = true -> all_digits (pretty_N_go n s) = true.
Proof.
  revert s. induction (N.lt_wf_0 n) as [n _ IH]. intros s Hs.
  destruct (decide (0 < n)%N) as [Hn|Hn].
  - rewrite pretty_N_go_step by done. apply IH; [by apply N.div_lt|]. simpl.
    rewrite Hs, andb_true_r. apply pretty_char_digit. by apply N.mod_lt.
  - assert (n = 0%N) as -> by lia. by rewrite pretty_N_go_0.
Qed.

Lemma pretty_go_ne n s : (0 < n)%N \/ s <> EmptyString -> pretty_N_go n s <> EmptyString.
Proof.
  revert s. induction (N.lt_wf_0 n) as [n _ IH]. intros s Hs.
  destruct (decide (0 < n)%N) as [Hn|Hn].
  - rewrite pretty_N_go_step by done. apply IH; [by apply N.div_lt|]. by right.
  - assert (n = 0%N) as -> by lia. rewrite pretty_N_go_0. destruct Hs; [lia|done].
Qed.

Lemma pretty_nat_spec (n : nat) :
  all_digits (pretty n) = true /\ pretty n <> EmptyString.
Proof.
  unfold pretty, pretty_nat. unfold pretty, pretty_N. case_decide as Hn; [done|]. split.
  - by apply pretty_go_digits.
  - apply pretty_go_ne. left. lia.
Qed.

Lemma snoc_assoc acc c s : snoc acc c +:+ s = acc +:+ String c s.
Proof. unfold snoc. by rewrite str_app_assoc. Qed.

Lemma digit_start c : is_digit c = true -> start c = ([], LNum (String c EmptyString)).
Proof. destruct c as [[] [] [] [] [] [] [] []]; vm_compute; try discriminate; auto. Qed.

Lemma run_num acc s : all_digits s = true -> run (LNum acc) s = ([], LNum (acc +:+ s)).
Proof.
  revert acc. induction s as [|c s IH]; intros acc Hs; [simpl; by rewrite str_app_empty_r|].
  simpl in Hs. apply andb_true_iff in Hs as [Hc Hs]. simpl. rewrite Hc, IH by done.
  by rewrite snoc_assoc.
Qed.

Lemma run_param acc s : all_digits s = true -> run (LParam acc) s = ([], LParam (acc +:+ s)).
Proof.
  revert acc. induction s as [|c s IH]; intros acc Hs; [simpl; by rewrite str_app_empty_r|].
  simpl in Hs. apply andb_true_iff in Hs as [Hc Hs]. simpl. rewrite Hc, IH by done.
  by rewrite snoc_assoc.
Qed.

Lemma lexes_number (n : nat) : lexes (pretty n) [TNum (pretty n)].
Proof.
  destruct (pretty_nat_spec n) as [Hd Hne]. revert Hd Hne.
  generalize (pretty n : string). intros [|c s] Hd Hne; [done|].
  simpl in Hd. apply andb_true_iff in Hd as [Hc Hs].
  unfold lexes, lex. simpl. rewrite digit_start by done.
  by rewrite run_num.
Qed.

Lemma lexes_param (n : nat) : lexes ("$" +:+ pretty n) [TParam (pretty n)].
Proof.
  destruct (pretty_nat_spec n) as [Hd Hne]. revert Hd Hne.
  generalize (pretty n : string). intros s Hd Hne.
  unfold lexes, lex. simpl. rewrite run_param by done. simpl. by destruct s.
Qed.

(** ** Joined texts *)

(** The separator's tokens between the parts'. *)
Fixpoint intersperse (sep : list token) (l : list (list token)) : list token :=
  match l with
  | [] => []
  | [t] => t
  | t :: rest => t ++ sep ++ intersperse sep rest
  end.

Lemma lexes_join sep tsep parts toks :
  ends_delim sep tsep -> starts_delim sep -> sep <> EmptyString ->
  Forall2 lexes parts toks -> lexes (String.concat sep parts) (intersperse tsep toks).
Proof.
  intros He Hs Hne HF. induction HF as [|p t ps ts Hp HF IH]; [done|].
  destruct HF as [|p' t' ps ts Hp' HF]; [done|]. simpl in IH |- *.
  apply lexes_app; [done| |by apply starts_delim_app]. by apply lexes_after.
Qed.

(** ** Statements of a script *)

Definition statement_end : Ascii.ascii := Ascii.ascii_of_nat 59.
(** The text of a statement before the semicolon that ends it *)
Fixpoint before_semicolon (s : string) : option string :=
  match s with
  | EmptyString => None
  | String a EmptyString => if decide (a = statement_end) then Some EmptyString else None
  | String a r => String a <$> before_semicolon r
  end.
Lemma before_semicolon_app s : before_semicolon (s +:+ String statement_end EmptyString) = Some s.
Proof. induction s as [|a s IH]; [done|]. rewrite str_app_cons. cbn [before_semicolon]. rewrite IH. by destruct s. Qed.
Definition words (l : list string) : list token := TWord <$> l.
