(* ===== verification/DebugText.v ===== *)
(** * Debug texts

    What [{:?}] prints of the data that the cache's keys are made of: strings, options,
    lists and pairs as the standard library prints them, and the types of [query/mod.rs]
    that derive [Debug].  Such a text tells its value, and tells where it ends.  The text of
    a JSON value is serde_json's, an instance of the class that its users take. *)

From stdpp Require Import pretty.
From S2P Require Import Prelude Json SqlLex Query SqlBuilder.

#[local] Open Scope string_scope.

(** ** Texts and the quotes in them *)

Inductive Place : Type := Outside | AfterColon | Inside | Escaped | Nowhere.
#[global] Instance Place_eq_dec : EqDecision Place.
Proof. solve_decision. Defined.

Definition backslash : Ascii.ascii := Ascii.ascii_of_nat 92.
Definition colon_char : Ascii.ascii := Ascii.ascii_of_nat 58.
Definition blank : Ascii.ascii := Ascii.ascii_of_nat 32.
Definition bracket : Ascii.ascii := Ascii.ascii_of_nat 91.
Definition close_bracket : Ascii.ascii := Ascii.ascii_of_nat 93.
Definition step_place (p : Place) (a : Ascii.ascii) : Place :=
  match p with
  | Outside => if decide (a = dquote) then Inside else if decide (a = colon_char) then AfterColon
               else if decide (a = backslash) then Nowhere else Outside
  | AfterColon => if decide (a = blank \/ a = bracket) then Outside else Nowhere
  | Inside => if decide (a = dquote) then Outside else if decide (a = backslash) then Escaped else Inside
  | Escaped => Inside
  | Nowhere => Nowhere
  end.
Fixpoint place (p : Place) (s : string) : Place :=
  match s with EmptyString => p | String a r => place (step_place p a) r end.
(** Quotes come in pairs, and a colon between them is followed by a blank or a bracket. *)
Definition quiet (s : string) : Prop := place Outside s = Outside.
#[global] Instance quiet_dec s : Decision (quiet s).
Proof. unfold quiet. apply _. Defined.

Lemma place_app p s t : place p (s +:+ t) = place (place p s) t.
Proof. revert p. induction s as [|a s IH]; intros p; [done|]. rewrite str_app_cons. cbn [place]. apply IH. Qed.
Lemma quiet_app s t : quiet s -> quiet t -> quiet (s +:+ t).
Proof. unfold quiet. intros Hs Ht. by rewrite place_app, Hs. Qed.
Lemma place_nowhere s : place Nowhere s = Nowhere.
Proof. by induction s. Qed.

(** A text read from inside a string has its quotes the other way round. *)
Lemma place_flipped s p q :
  (p = Inside /\ (q = Outside \/ q = AfterColon)) \/ (q = Inside /\ (p = Outside \/ p = AfterColon)) ->
  place p s = Outside -> place q s = Outside -> False.
Proof.
  revert p q. induction s as [|a s IH]; intros p q Hpq; cbn [place]; [naive_solver|].
  intros Hp Hq. apply (IH (step_place p a) (step_place q a)); [|done..]. revert Hp Hq.
  destruct Hpq as [[-> [->| ->]]|[-> [->| ->]]]; unfold step_place; repeat case_decide; subst; rewrite ?place_nowhere; try done; try tauto; naive_solver.
Qed.

(** ** The class *)

Class Debug (A : Type) : Type := {
  debug : A -> string;
  debug_delimited a b s t : debug a +:+ s = debug b +:+ t -> a = b /\ s = t;
  debug_quiet a : quiet (debug a);
  debug_first a : exists c r, debug a = String c r /\ c <> close_bracket
}.

(** *** Strings *)

Definition hex_digit (n : nat) : Ascii.ascii := Ascii.ascii_of_nat (if (n <? 10)%nat then 48 + n else 87 + n).
Definition hex (n : nat) : string :=
  (if (n <? 16)%nat then "" else String (hex_digit (n / 16)) "") +:+ String (hex_digit (n mod 16)) "".
(** [char::escape_debug] in a string; characters outside ASCII are taken to be printable. *)
Definition escape_char (a : Ascii.ascii) : string :=
  let n := Ascii.nat_of_ascii a in
  if (n =? 0)%nat then "\0" else if (n =? 9)%nat then "\t" else if (n =? 10)%nat then "\n" else if (n =? 13)%nat then "\r"
  else if (n =? 34)%nat then String backslash dquote_s else if (n =? 92)%nat then "\\"
  else if ((n <? 32) || (n =? 127))%nat then "\u{" +:+ hex n +:+ "}"
  else String a "".
Fixpoint escape (s : string) : string :=
  match s with EmptyString => "" | String a r => escape_char a +:+ escape r end.
Definition debug_string (s : string) : string := dquote_s +:+ escape s +:+ dquote_s.

Lemma str_app_inv p q s t : p +:+ s = q +:+ t -> String.prefix p q = true \/ String.prefix q p = true.
Proof.
  revert q. induction p as [|a p IH]; intros [|b q]; [by left|by left|by right|].
  rewrite !str_app_cons. intros [= <- H]. cbn [String.prefix]. destruct (Ascii.ascii_dec a a); [by apply IH|done].
Qed.
Lemma str_app_cancel p s t : p +:+ s = p +:+ t -> s = t.
Proof. induction p as [|a p IH]; [done|]. rewrite !str_app_cons. intros [= H]. by apply IH. Qed.
Definition all_chars : list Ascii.ascii := Ascii.ascii_of_nat <$> seq 0 256.
Lemma in_all_chars a : a ∈ all_chars.
Proof.
  apply list_elem_of_fmap. exists (Ascii.nat_of_ascii a). split; [by rewrite Ascii.ascii_nat_embedding|].
  apply elem_of_seq. pose proof (Ascii.nat_ascii_bounded a). lia.
Qed.
Definition escapes_apart (a b : Ascii.ascii) : bool := Ascii.eqb a b || negb (String.prefix (escape_char a) (escape_char b)).
Lemma escapes_apart_all : forallb (fun a => forallb (escapes_apart a) all_chars) all_chars = true.
Proof. vm_compute. reflexivity. Qed.
Lemma escape_apart a b : a <> b -> String.prefix (escape_char a) (escape_char b) = false.
Proof.
  intros Hab. pose proof escapes_apart_all as H. rewrite forallb_forall in H.
  specialize (H a (proj1 (list_elem_of_In _ _) (in_all_chars a))). rewrite forallb_forall in H.
  specialize (H b (proj1 (list_elem_of_In _ _) (in_all_chars b))). unfold escapes_apart in H.
  apply orb_prop in H as [H|H]; [by apply Ascii.eqb_eq in H|]. by apply negb_true_iff.
Qed.
Lemma escape_char_delimited a b s t : escape_char a +:+ s = escape_char b +:+ t -> a = b /\ s = t.
Proof.
  intros H. destruct (decide (a = b)) as [<-|Hab]; [split; [done|by eapply str_app_cancel]|].
  destruct (str_app_inv _ _ _ _ H) as [Hp|Hp]; by rewrite escape_apart in Hp.
Qed.
Lemma escape_char_first a : exists c r, escape_char a = String c r /\ c <> dquote.
Proof. destruct a as [[] [] [] [] [] [] [] []]; vm_compute; by eexists _, _. Qed.
Lemma escape_quiet a : place Inside (escape_char a) = Inside.
Proof. destruct a as [[] [] [] [] [] [] [] []]; by vm_compute. Qed.

Lemma escape_delimited a b s t : escape a +:+ String dquote s = escape b +:+ String dquote t -> a = b /\ s = t.
Proof.
  revert b. induction a as [|x a IH]; intros [|y b]; cbn [escape]; rewrite ?str_app_assoc, ?str_app_nil.
  - by intros [= ->].
  - destruct (escape_char_first y) as (c & r & -> & Hc). rewrite str_app_cons. intros [= E _]. by destruct Hc.
  - destruct (escape_char_first x) as (c & r & -> & Hc). rewrite str_app_cons. intros [= E _]. by destruct Hc.
  - intros [-> H]%escape_char_delimited. by destruct (IH _ H) as [-> ->].
Qed.
#[global, program] Instance debug_str : Debug string := {| debug := debug_string |}.
Next Obligation.
  intros a b s t. unfold debug_string, dquote_s. rewrite !str_app_assoc, !str_app_cons, !str_app_nil. intros [= H]. by apply escape_delimited.
Qed.
Next Obligation.
  intros a. unfold quiet, debug_string. rewrite !place_app. change (place Outside dquote_s) with Inside.
  assert (place Inside (escape a) = Inside) as ->; [|done].
  induction a as [|x a IH]; [done|]. cbn [escape]. by rewrite place_app, escape_quiet.
Qed.
Next Obligation. intros a. unfold debug_string, dquote_s. rewrite str_app_cons. by eexists _, _. Qed.

(** *** Options, lists and pairs *)

Section Compound.
Context {A B : Type} {dA : Debug A} {dB : Debug B}.

Definition debug_option (o : option A) : string := match o with Some a => "Some(" +:+ debug a +:+ ")" | None => "None" end.
Definition debug_pair (p : A * B) : string := "(" +:+ debug p.1 +:+ ", " +:+ debug p.2 +:+ ")".
Definition debug_list (l : list A) : string := "[" +:+ String.concat ", " (debug <$> l) +:+ "]".

#[global, program] Instance debug_opt : Debug (option A) := {| debug := debug_option |}.
Next Obligation.
  intros [a|] [b|] s t; unfold debug_option; rewrite ?str_app_assoc; intros H; [|discriminate H..|].
  - apply str_app_cancel, debug_delimited in H as [-> H]. by apply str_app_cancel in H as ->.
  - by apply str_app_cancel in H as ->.
Qed.
Next Obligation. intros [a|]; [|done]. unfold debug_option. apply quiet_app; [done|]. by apply quiet_app; [apply debug_quiet|]. Qed.
Next Obligation. intros [a|]; by eexists _, _. Qed.

#[global, program] Instance debug_prod : Debug (A * B) := {| debug := debug_pair |}.
Next Obligation.
  intros [a b] [a' b'] s t. unfold debug_pair. cbn [fst snd]. intros H.
  rewrite !str_app_assoc in H. apply str_app_cancel, debug_delimited in H as [-> H].
  apply str_app_cancel, debug_delimited in H as [-> H]. by apply str_app_cancel in H as ->.
Qed.
Next Obligation.
  intros [a b]. unfold debug_pair. apply quiet_app; [done|]. apply quiet_app; [apply debug_quiet|].
  apply quiet_app; [done|]. by apply quiet_app; [apply debug_quiet|].
Qed.
Next Obligation. intros [a b]. by eexists _, _. Qed.

(** The elements behind the first, each after a comma, up to the bracket *)
Definition debug_rest (l : list A) : string := String.concat "" ((fun a => ", " +:+ debug a) <$> l).
Lemma debug_list_cons a l : debug_list (a :: l) = "[" +:+ debug a +:+ debug_rest l +:+ "]".
Proof.
  unfold debug_list. cbn [fmap list_fmap]. f_equal. rewrite <-str_app_assoc. f_equal. revert a. induction l as [|b l IH]; intros a.
  - cbn. by rewrite str_app_empty_r.
  - change (String.concat ", " (debug a :: (debug <$> b :: l))) with (debug a +:+ ", " +:+ String.concat ", " (debug <$> b :: l)).
    cbn [fmap list_fmap] in *. rewrite IH. f_equal. unfold debug_rest. cbn [fmap list_fmap].
    destruct l; cbn; by rewrite ?str_app_empty_r, ?str_app_assoc.
Qed.
Lemma debug_rest_delimited l l' s t : debug_rest l +:+ String close_bracket s = debug_rest l' +:+ String close_bracket t -> l = l' /\ s = t.
Proof.
  assert (Hcons : forall a l, debug_rest (a :: l) = ", " +:+ debug a +:+ debug_rest l).
  { intros a k. unfold debug_rest. destruct k; cbn; by rewrite ?str_app_empty_r. }
  revert l'. induction l as [|a l IH]; intros [|b l']; rewrite ?Hcons; change (debug_rest []) with ""; rewrite ?str_app_assoc.
  - by intros [= ->].
  - discriminate.
  - discriminate.
  - intros H. apply str_app_cancel, debug_delimited in H as [-> H]. by destruct (IH _ H) as [-> ->].
Qed.
#[global, program] Instance debug_vec : Debug (list A) := {| debug := debug_list |}.
Next Obligation.
  intros [|a l] [|b l'] s t; rewrite ?debug_list_cons; intros H.
  - unfold debug_list in H. rewrite !str_app_assoc in H. split; [done|]. by repeat (apply str_app_cancel in H).
  - destruct (debug_first b) as (c & r & E & Hc). rewrite E in H. unfold debug_list in H. cbn in H.
    rewrite ?str_app_assoc, ?str_app_cons, ?str_app_nil in H. by injection H as H _.
  - destruct (debug_first a) as (c & r & E & Hc). rewrite E in H. unfold debug_list in H. cbn in H.
    rewrite ?str_app_assoc, ?str_app_cons, ?str_app_nil in H. by injection H as H _.
  - rewrite !str_app_assoc in H. apply str_app_cancel, debug_delimited in H as [-> H].
    rewrite !str_app_cons, !str_app_nil in H. by apply debug_rest_delimited in H as [-> ->].
Qed.
Next Obligation.
  intros [|a l]; [done|]. rewrite debug_list_cons. apply quiet_app; [done|]. apply quiet_app; [apply debug_quiet|].
  apply quiet_app; [|done]. unfold debug_rest. induction l as [|b l IH]; [done|]. cbn [fmap list_fmap].
  assert (String.concat "" ((", " +:+ debug b) :: ((fun a => ", " +:+ debug a) <$> l)) = ", " +:+ debug b +:+ debug_rest l) as ->
    by (unfold debug_rest; destruct l; cbn; by rewrite ?str_app_empty_r, ?str_app_assoc).
  apply quiet_app; [done|]. by apply quiet_app; [apply debug_quiet|].
Qed.
Next Obligation. intros l. by eexists _, _. Qed.
End Compound.

(** *** Limits *)

Lemma digits_until p q s t : all_digits p = true -> all_digits q = true -> p +:+ ")" +:+ s = q +:+ ")" +:+ t -> p = q /\ s = t.
Proof.
  revert q. induction p as [|a p IH]; intros [|b q] Hp Hq; rewrite ?str_app_cons, ?str_app_nil.
  - by intros [= ->].
  - intros [= <- _]. by vm_compute in Hq.
  - intros [= -> _]. by vm_compute in Hp.
  - cbn [all_digits] in Hp, Hq. apply andb_prop in Hp as [_ Hp], Hq as [_ Hq]. intros [= <- H].
    by destruct (IH q Hp Hq H) as [-> ->].
Qed.
Lemma digits_quiet s : all_digits s = true -> quiet s.
Proof.
  unfold quiet. induction s as [|a s IH]; [done|]. cbn [all_digits place]. intros [Ha Hs]%andb_prop.
  assert (step_place Outside a = Outside) as ->; [|by apply IH].
  destruct a as [[] [] [] [] [] [] [] []]; try done; by vm_compute in Ha.
Qed.
Definition debug_limit (o : option nat) : string := match o with Some n => "Some(" +:+ pretty n +:+ ")" | None => "None" end.
#[global, program] Instance debug_usize : Debug (option nat) := {| debug := debug_limit |}.
Next Obligation.
  intros [n|] [k|] s t; unfold debug_limit; rewrite ?str_app_assoc; intros H; [|discriminate H..|by apply str_app_cancel in H as ->].
  apply str_app_cancel, digits_until in H as [H ->]; [|apply pretty_nat_spec..]. by apply (inj pretty) in H as ->.
Qed.
Next Obligation. intros [n|]; [|done]. unfold debug_limit. apply quiet_app; [done|]. apply quiet_app; [|done]. apply digits_quiet, pretty_nat_spec. Qed.
Next Obligation. intros [n|]; by eexists _, _. Qed.

(** ** The derived texts of [query/mod.rs] *)

Definition debug_direction (d : OrderDirection) : string := match d with Asc => "Asc" | Desc => "Desc" end.
#[global, program] Instance debug_order : Debug OrderDirection := {| debug := debug_direction |}.
Next Obligation. intros [] [] s t; unfold debug_direction; intros H; try discriminate H; by apply str_app_cancel in H as ->. Qed.
Next Obligation. by intros []. Qed.
Next Obligation. intros []; by eexists _, _. Qed.

Definition debug_operator (o : WhereOperator) : string :=
  match o with
  | Equals => "Equals" | NotEquals => "NotEquals" | Contains => "Contains" | StartsWith => "StartsWith"
  | EndsWith => "EndsWith" | GreaterThan => "GreaterThan" | GreaterThanOrEqual => "GreaterThanOrEqual"
  | LessThan => "LessThan" | LessThanOrEqual => "LessThanOrEqual" | In => "In" | NotIn => "NotIn"
  | IsNull => "IsNull" | IsNotNull => "IsNotNull"
  end.
Lemma operator_delimited o o' s t : debug_operator o +:+ ", " +:+ s = debug_operator o' +:+ ", " +:+ t -> o = o' /\ s = t.
Proof.
  intros H. enough (o = o') as <- by (split; [done|]; by do 2 (apply str_app_cancel in H)).
  destruct o, o'; try done; exfalso; unfold debug_operator in H; discriminate H.
Qed.

(** serde_json's [Debug] is given. *)
Section Clauses.
Context {dv : Debug Value}.

Definition debug_clause (c : WhereClause) : string :=
  "WhereClause { field: " +:+ debug (wc_field c) +:+ ", operator: " +:+ debug_operator (wc_operator c) +:+ ", " +:+
  "value: " +:+ debug (wc_value c) +:+ " }".
#[global, program] Instance debug_where : Debug WhereClause := {| debug := debug_clause |}.
Next Obligation.
  intros [f o v] [f' o' v'] s t. unfold debug_clause. cbn [wc_field wc_operator wc_value]. rewrite !str_app_assoc. intros H.
  apply str_app_cancel, debug_delimited in H as [-> H]. apply str_app_cancel, operator_delimited in H as [-> H].
  apply str_app_cancel, debug_delimited in H as [-> H]. by apply str_app_cancel in H as ->.
Qed.
Next Obligation.
  intros [f o v]. unfold debug_clause. cbn [wc_field wc_operator wc_value].
  repeat (apply quiet_app; [first [apply debug_quiet|by destruct o|done]|]). done.
Qed.
Next Obligation. intros c. by eexists _, _. Qed.
End Clauses.

Example debug_texts :
  debug [(String dquote "a", Desc)] = "[(" +:+ dquote_s +:+ "\" +:+ dquote_s +:+ "a" +:+ dquote_s +:+ ", Desc)]" /\
  debug [Some 5%nat; None] = "[Some(5), None]" /\ debug_string (String (Ascii.ascii_of_nat 27) "") = dquote_s +:+ "\u{1b}" +:+ dquote_s.
Proof. by vm_compute. Qed.

(** ** A text for values that has the laws *)

(** Each value by a letter and its parts. *)
Module TaggedText.
Definition int_text (z : Z) : string := (if decide (z < 0) then "-" else "+") +:+ pretty (Z.abs_nat z) +:+ ")".
Lemma int_delimited z z' s t : int_text z +:+ s = int_text z' +:+ t -> z = z' /\ s = t.
Proof.
  unfold int_text. rewrite !str_app_assoc. intros H.
  assert (Hs : (if decide (z < 0) then "-" else "+") = (if decide (z' < 0) then "-" else "+")).
  { destruct (decide (z < 0)), (decide (z' < 0)); try done; discriminate H. }
  rewrite Hs in H. apply str_app_cancel, digits_until in H as [H ->]; [|apply pretty_nat_spec..].
  apply (inj pretty) in H. split; [|done]. destruct (decide (z < 0)), (decide (z' < 0)); try discriminate Hs; lia.
Qed.
Definition number_text (n : Number) : string :=
  match n with
  | PosInt z => "P" +:+ int_text z
  | NegInt z => "M" +:+ int_text z
  | Float (SpecFloat.S754_zero b) => if b then "Y" else "Z"
  | Float (SpecFloat.S754_infinity b) => if b then "I" else "J"
  | Float SpecFloat.S754_nan => "X"
  | Float (SpecFloat.S754_finite b m e) => (if b then "G" else "H") +:+ int_text (Zpos m) +:+ int_text e
  end.
Lemma number_delimited n n' s t : number_text n +:+ s = number_text n' +:+ t -> n = n' /\ s = t.
Proof.
  destruct n as [z|z|[[]|[]| |[] m e]], n' as [z'|z'|[[]|[]| |[] m' e']]; unfold number_text; rewrite ?str_app_assoc; intros H;
    try discriminate H; apply str_app_cancel in H; try (by subst); apply int_delimited in H as [E H]; try (by subst);
    apply int_delimited in H as [-> ->]; by injection E as ->.
Qed.
Fixpoint value_text (v : Value) : string :=
  match v with
  | VNull => "N"
  | VBool b => if b then "T" else "F"
  | VNumber n => number_text n
  | VString s => "S" +:+ debug_string s
  | VArray l => "A" +:+ String.concat "" (map (fun v => "," +:+ value_text v) l) +:+ "."
  | VObject l => "O" +:+ String.concat "" (map (fun p => "," +:+ debug_string p.1 +:+ value_text p.2) l) +:+ "."
  end.

Lemma value_forall_ind (P : Value -> Prop) :
  P VNull -> (forall b, P (VBool b)) -> (forall n, P (VNumber n)) -> (forall s, P (VString s)) ->
  (forall l, Forall P l -> P (VArray l)) -> (forall l, Forall (fun p => P p.2) l -> P (VObject l)) -> forall v, P v.
Proof.
  intros Hn Hb Hm Hs Ha Ho. fix IH 1. intros [|b|n|s|l|l]; [done|apply Hb|apply Hm|apply Hs|apply Ha|apply Ho].
  - induction l as [|v l IHl]; constructor; [apply IH|exact IHl].
  - induction l as [|[k v] l IHl]; constructor; [apply IH|exact IHl].
Qed.
(** Items, each behind a comma, up to the full stop *)
Lemma items_delimited {A} (f : A -> string) (l l' : list A) s t :
  Forall (fun a => forall b s t, f a +:+ s = f b +:+ t -> a = b /\ s = t) l ->
  String.concat "" (map (fun a => "," +:+ f a) l) +:+ "." +:+ s = String.concat "" (map (fun a => "," +:+ f a) l') +:+ "." +:+ t ->
  l = l' /\ s = t.
Proof.
  intros HF. revert l'. induction HF as [|a l Ha HF IH]; intros [|b l']; cbn [map]; rewrite ?concat_cons; rewrite ?str_app_assoc; intros H.
  - cbn [String.concat] in H. rewrite !str_app_nil in H. by apply str_app_cancel in H as ->.
  - discriminate H.
  - discriminate H.
  - apply str_app_cancel, Ha in H as [-> H]. by destruct (IH _ H) as [-> ->].
Qed.
Lemma value_delimited v v' s t : value_text v +:+ s = value_text v' +:+ t -> v = v' /\ s = t.
Proof.
  revert v' s t. induction v as [|b|n|x|l IH|l IH] using value_forall_ind; intros v' s t.
  all: destruct v' as [|b'|n'|x'|l'|l']; cbn [value_text]; intros H;
    try (destruct b; discriminate H); try (destruct b'; discriminate H); try discriminate H;
    try (destruct n as [|?|[[]|[]| |[] ? ?]]; discriminate H); try (destruct n' as [|?|[[]|[]| |[] ? ?]]; discriminate H);
    try (destruct b, n' as [|?|[[]|[]| |[] ? ?]]; discriminate H); try (destruct b', n as [|?|[[]|[]| |[] ? ?]]; discriminate H);
    rewrite ?str_app_assoc in H.
  - by apply str_app_cancel in H as ->.
  - destruct b, b'; try discriminate H; by apply str_app_cancel in H as ->.
  - by apply number_delimited in H as [-> ->].
  - apply str_app_cancel in H. change (debug_string ?x) with (debug x) in H. by apply debug_delimited in H as [-> ->].
  - apply str_app_cancel, items_delimited in H as [-> ->]; done.
  - apply str_app_cancel in H.
    apply (items_delimited (fun p => debug_string p.1 +:+ value_text p.2)) in H as [-> ->]; [done|].
    eapply Forall_impl; [exact IH|]. intros [k v] Hv [k' v'] s' t'. cbn [fst snd] in *. rewrite !str_app_assoc. intros H'.
    change (debug k +:+ (value_text v +:+ s') = debug k' +:+ (value_text v' +:+ t')) in H'.
    apply debug_delimited in H' as [-> H']. by apply Hv in H' as [-> ->].
Qed.
Lemma digits_text_quiet z : quiet (int_text z).
Proof.
  unfold int_text. apply quiet_app; [by case_decide|]. apply quiet_app; [|done]. apply digits_quiet, pretty_nat_spec.
Qed.
Lemma items_quiet {A} (f : A -> string) l : Forall (fun a => quiet (f a)) l -> quiet (String.concat "" (map (fun a => "," +:+ f a) l)).
Proof.
  induction 1 as [|a l Ha HF IH]; [done|]. cbn [map]. rewrite concat_cons. apply quiet_app; [|done]. by apply quiet_app.
Qed.
Lemma value_quiet v : quiet (value_text v).
Proof.
  induction v as [|[]|n|x|l IH|l IH] using value_forall_ind; try done; cbn [value_text].
  - destruct n as [z|z|[[]|[]| |[] m e]]; try done; try (apply quiet_app; [done|]; apply digits_text_quiet).
    all: apply quiet_app; [done|]; apply quiet_app; apply digits_text_quiet.
  - apply quiet_app; [done|exact (debug_quiet x)].
  - apply quiet_app; [done|]. apply quiet_app; [|done]. by apply items_quiet.
  - apply quiet_app; [done|]. apply quiet_app; [|done]. apply (items_quiet (fun p => debug_string p.1 +:+ value_text p.2)).
    eapply Forall_impl; [exact IH|]. intros p Hp. apply quiet_app; [exact (debug_quiet p.1)|done].
Qed.
Definition tagged : Debug Value.
Proof.
  refine {| debug := value_text; debug_delimited := value_delimited; debug_quiet := value_quiet |}.
  intros [|[]|[z|z|[[]|[]| |[] m e]]|x|l|l]; by eexists _, _.
Defined.
End TaggedText.
