(* ===== verification/SqlSpec.v ===== *)
(** * What the generated statements say

    Every text of [SqlBuilder] is read back by the lexer of [SqlLex]: identifiers come
    back exactly as they went in, whatever characters they hold; the placeholders are
    numbered from one without gap, as many as there are bound values; every other token
    is one of a fixed set of keywords and symbols.  No value is ever part of a text. *)

From stdpp Require Import pretty.
From S2P Require Import Prelude Json SqlLex Query SqlBuilder.

(** ** Identifiers *)

Lemma run_ident_quote acc r :
  run (LIdent acc) (String dquote (String dquote r)) = run (LIdent (snoc acc dquote)) r.
Proof. simpl. by destruct (run _ r). Qed.

Lemma run_ident_char acc c r :
  Ascii.eqb c dquote = false -> run (LIdent acc) (String c r) = run (LIdent (snoc acc c)) r.
Proof.
  intros Hc. assert (Hq : is_dquote c = false).
  { destruct c as [[] [] [] [] [] [] [] []]; first [done|discriminate Hc]. }
  simpl. rewrite Hq. by destruct (run _ r).
Qed.

Lemma run_ident acc s :
  run (LIdent acc) (replace_dquote s +:+ dquote_s) = ([], LIdentQ (acc +:+ s)).
Proof.
  revert acc. induction s as [|c s IH]; intros acc; [by rewrite str_app_empty_r|].
  cbn [replace_dquote]. destruct (Ascii.eqb c dquote) eqn:Hc.
  - apply Ascii.eqb_eq in Hc as ->.
    by rewrite !str_app_cons, run_ident_quote, IH, snoc_assoc.
  - by rewrite str_app_cons, run_ident_char, IH, snoc_assoc.
Qed.

(** Quoting is undone by the reader, for every identifier. *)
Lemma lexes_ident s : lexes (quote_ident s) [TIdent s].
Proof.
  assert (Hr : run LStart (quote_ident s) =
               run (LIdent EmptyString) (replace_dquote s +:+ dquote_s)).
  { unfold quote_ident, dquote_s at 1. rewrite str_app_cons, str_app_nil. simpl.
    by destruct (run _ _). }
  unfold lexes, lex. by rewrite Hr, run_ident.
Qed.

(** ** The tokens of a filter *)

Definition sym (c : string) : token :=
  match c with String a _ => TSym a | EmptyString => TSym (Ascii.ascii_of_nat 0) end.
Definition bound (idx : nat) : token := TParam (pretty idx).
Definition cast_tokens (v : Value) : list token :=
  if is_string v then [sym ":"; sym ":"; TWord "text"] else [].

(** The values a clause binds, in order. *)
Definition clause_params (c : WhereClause) : list Value :=
  match wc_operator c with
  | In | NotIn =>
      match as_array (wc_value c) with
      | Some vs => filter (fun v => is_null v = false) vs
      | None => []
      end
  | IsNull | IsNotNull => []
  | _ => [wc_value c]
  end.

(** The members of a set filter; nulls take no placeholder. *)
Fixpoint member_tokens (col : string) (op : list token) (idx : nat) (vs : list Value)
    : list (list token) :=
  match vs with
  | [] => []
  | v :: rest =>
      if is_null v then ([TIdent col] ++ op ++ [TWord "NULL"]) :: member_tokens col op idx rest
      else ([TIdent col] ++ cast_tokens v ++ op ++ [bound idx]) ::
           member_tokens col op (S idx) rest
  end.

Definition clause_tokens (c : WhereClause) (idx : nat) : list token :=
  let col := to_snake_case (wc_field c) in
  let v := wc_value c in
  match wc_operator c with
  | Equals => [TIdent col] ++ cast_tokens v ++ [sym "="; bound idx]
  | NotEquals => [TIdent col] ++ cast_tokens v ++ [sym "!"; sym "="; bound idx]
  | Contains => [TIdent col; TWord "ILIKE"; TStr "%"; sym "|"; sym "|"; bound idx;
                 sym "|"; sym "|"; TStr "%"]
  | StartsWith => [TIdent col; TWord "ILIKE"; bound idx; sym "|"; sym "|"; TStr "%"]
  | EndsWith => [TIdent col; TWord "ILIKE"; TStr "%"; sym "|"; sym "|"; bound idx]
  | GreaterThan => [TIdent col; sym ">"; bound idx]
  | GreaterThanOrEqual => [TIdent col; sym ">"; sym "="; bound idx]
  | LessThan => [TIdent col; sym "<"; bound idx]
  | LessThanOrEqual => [TIdent col; sym "<"; sym "="; bound idx]
  | In =>
      match as_array v with
      | None | Some [] => [TWord "FALSE"]
      | Some vs => [sym "("] ++
          intersperse [TWord "OR"] (member_tokens col [sym "="] idx vs) ++ [sym ")"]
      end
  | NotIn =>
      match as_array v with
      | None => [TWord "FALSE"]
      | Some [] => [TWord "TRUE"]
      | Some vs => [sym "("] ++
          intersperse [TWord "AND"] (member_tokens col [sym "!"; sym "="] idx vs) ++ [sym ")"]
      end
  | IsNull => [TIdent col; TWord "IS"; TWord "NULL"]
  | IsNotNull => [TIdent col; TWord "IS"; TWord "NOT"; TWord "NULL"]
  end.

Fixpoint where_tokens (cs : list WhereClause) (idx : nat) : list (list token) :=
  match cs with
  | [] => []
  | c :: rest => clause_tokens c idx :: where_tokens rest (idx + length (clause_params c))
  end.

(** ** Reading a text piece by piece *)

Lemma lexes_eq s ts ts' : lexes s ts -> ts = ts' -> lexes s ts'.
Proof. by intros ? <-. Qed.

Lemma lexes_placeholder idx : lexes (placeholder idx) [bound idx].
Proof. apply lexes_param. Qed.

(** Split a concatenation at its first piece. *)
Ltac lex_pieces :=
  first
    [ apply lexes_ident | apply lexes_placeholder | apply lexes_number | eassumption
    | eapply lexes_app; [solve [lex_pieces]|lex_pieces|reflexivity]
    | eapply lexes_after; [reflexivity|lex_pieces]
    | reflexivity ].

Ltac lex_text := eapply lexes_eq; [lex_pieces|try reflexivity].

Lemma in_members_spec col (negated : bool) idx vs :
  let op := if negated then [sym "!"; sym "="] else [sym "="] in
  let '(ms, ps, idx') := in_members (quote_ident col) negated idx vs in
  Forall2 lexes ms (member_tokens col op idx vs) /\
  ps = filter (fun v => is_null v = false) vs /\ idx' = (idx + length ps)%nat /\
  length ms = length vs.
Proof.
  cbv zeta. revert idx. induction vs as [|v vs IH]; intros idx; simpl.
  { split; [constructor|]. split; [done|]. split; [simpl; lia|done]. }
  destruct (is_null v) eqn:Hn.
  - specialize (IH idx). destruct (in_members _ _ idx vs) as [[ms ps] i].
    destruct IH as (IH & -> & -> & Hlen). rewrite filter_cons, decide_False by congruence.
    split; [|split; [done|split; [done|by rewrite <-Hlen]]].
    constructor; [|done]. destruct negated; lex_text.
  - specialize (IH (S idx)). destruct (in_members _ _ (S idx) vs) as [[ms ps] i].
    destruct IH as (IH & -> & -> & Hlen). rewrite filter_cons, decide_True by done.
    split; [|split; [done|split; [simpl; lia|by rewrite <-Hlen]]].
    constructor; [|done]. unfold cast_tokens.
    destruct negated, (is_string v); lex_text.
Qed.

Lemma ends_delim_open : ends_delim "(" [sym "("].
Proof. done. Qed.

Lemma lexes_parens s ts :
  lexes s ts -> lexes ("(" +:+ s +:+ ")") ([sym "("] ++ ts ++ [sym ")"]).
Proof.
  intros Hs. eapply lexes_after; [done|]. by eapply lexes_app; [exact Hs|reflexivity|].
Qed.

Lemma clause_sql_spec c idx :
  let '(part, ps, idx') := clause_sql c idx in
  lexes part (clause_tokens c idx) /\ ps = clause_params c /\
  idx' = (idx + length ps)%nat /\ part <> EmptyString.
Proof.
  unfold clause_sql, clause_tokens, clause_params, cast_tokens.
  destruct (wc_operator c) eqn:Hop; cbv zeta;
    try (split; [destruct (is_string (wc_value c)); lex_text|];
         split; [done|split; [simpl; lia|done]]).
  all: destruct (as_array (wc_value c)) as [[|v vs]|];
    try (split; [done|]; split; [done|]; split; [simpl; lia|done]).
  - pose proof (in_members_spec (to_snake_case (wc_field c)) false idx (v :: vs)) as H.
    rewrite bool_decide_eq_false_2 by done.
    destruct (in_members _ false idx (v :: vs)) as [[ms ps] i]. destruct H as (H & -> & -> & _).
    split; [|done]. apply lexes_parens. by apply lexes_join.
  - pose proof (in_members_spec (to_snake_case (wc_field c)) true idx (v :: vs)) as H.
    rewrite bool_decide_eq_true_2 by done.
    destruct (in_members _ true idx (v :: vs)) as [[ms ps] i]. destruct H as (H & -> & -> & _).
    split; [|done]. apply lexes_parens. by apply lexes_join.
Qed.

Lemma where_parts_spec cs idx :
  let '(parts, ps) := where_parts cs idx in
  Forall2 lexes parts (where_tokens cs idx) /\ ps = cs ≫= clause_params /\
  Forall (fun p => p <> EmptyString) parts.
Proof.
  revert idx. induction cs as [|c cs IH]; intros idx; simpl.
  { split; [constructor|]. split; [done|constructor]. }
  pose proof (clause_sql_spec c idx) as Hc. destruct (clause_sql c idx) as [[part ps] idx'].
  destruct Hc as (Hl & -> & -> & Hne). specialize (IH (idx + length (clause_params c))%nat).
  destruct (where_parts cs _) as [parts ps']. destruct IH as (IH & -> & Hnes).
  split; [by constructor|]. split; [done|by constructor].
Qed.

(** ** Fragments: a text, the identifiers and the placeholders it mentions *)

Definition idents (ts : list token) : list string :=
  omap (fun t => match t with TIdent s => Some s | _ => None end) ts.
Definition params_of (ts : list token) : list string :=
  omap (fun t => match t with TParam s => Some s | _ => None end) ts.

Definition keywords : list string :=
  ["SELECT"; "FROM"; "WHERE"; "AND"; "OR"; "ORDER"; "BY"; "ASC"; "DESC"; "LIMIT"; "OFFSET";
   "INSERT"; "INTO"; "VALUES"; "RETURNING"; "UPDATE"; "SET"; "DELETE"; "NULL"; "IS"; "NOT";
   "ILIKE"; "TRUE"; "FALSE"; "NOW"; "text"; "timestamptz"].

(** Nothing but keywords, the wildcard literal, quoted identifiers, placeholders, numbers
    and symbols. *)
Definition fixed (t : token) : Prop :=
  match t with
  | TWord w => w ∈ keywords
  | TStr s => s = "%"%string
  | _ => True
  end.
#[global] Instance fixed_dec t : Decision (fixed t).
Proof. destruct t; simpl; apply _. Defined.

Definition reads (ts : list token) (ids ps : list string) : Prop :=
  idents ts = ids /\ params_of ts = ps /\ Forall fixed ts.

Definition fragment (s : string) (ids ps : list string) : Prop :=
  exists ts, lexes s ts /\ reads ts ids ps.

Lemma reads_app t1 t2 i1 i2 p1 p2 :
  reads t1 i1 p1 -> reads t2 i2 p2 -> reads (t1 ++ t2) (i1 ++ i2) (p1 ++ p2).
Proof.
  intros (<- & <- & H1) (<- & <- & H2). unfold reads, idents, params_of.
  rewrite !omap_app. split; [done|]. split; [done|]. by apply Forall_app.
Qed.

Lemma reads_closed ts ids ps :
  idents ts = ids -> params_of ts = ps -> bool_decide (Forall fixed ts) = true ->
  reads ts ids ps.
Proof. intros ? ? H%bool_decide_eq_true. done. Qed.

Lemma frag_app s1 s2 i1 i2 p1 p2 :
  fragment s1 i1 p1 -> fragment s2 i2 p2 -> starts_delim s2 ->
  fragment (s1 +:+ s2) (i1 ++ i2) (p1 ++ p2).
Proof.
  intros (t1 & H1 & R1) (t2 & H2 & R2) Hd. exists (t1 ++ t2).
  split; [by apply lexes_app|by apply reads_app].
Qed.

Lemma frag_after s1 s2 t1 i2 p2 :
  ends_delim s1 t1 -> reads t1 [] [] -> fragment s2 i2 p2 -> fragment (s1 +:+ s2) i2 p2.
Proof.
  intros H1 R1 (t2 & H2 & R2). exists (t1 ++ t2).
  split; [by apply lexes_after|]. apply (reads_app t1 t2 [] i2 [] p2 R1 R2).
Qed.

Lemma frag_ident s : fragment (quote_ident s) [s] [].
Proof. exists [TIdent s]. split; [apply lexes_ident|by apply reads_closed]. Qed.

Lemma frag_number (n : nat) : fragment (pretty n) [] [].
Proof. exists [TNum (pretty n)]. split; [apply lexes_number|by apply reads_closed]. Qed.

Lemma frag_placeholder idx : fragment (placeholder idx) [] [pretty idx].
Proof. exists [bound idx]. split; [apply lexes_placeholder|by apply reads_closed]. Qed.

Lemma frag_literal s ts : lexes s ts -> reads ts [] [] -> fragment s [] [].
Proof. by exists ts. Qed.

Lemma frag_eq s i i' p p' : fragment s i p -> i = i' -> p = p' -> fragment s i' p'.
Proof. by intros ? <- <-. Qed.

(** Parts joined by a separator. *)
Lemma reads_intersperse sep toks (ips : list (list string * list string)) :
  reads sep [] [] -> Forall2 (fun ts ip => reads ts ip.1 ip.2) toks ips ->
  reads (intersperse sep toks) (mjoin ips.*1) (mjoin ips.*2).
Proof.
  intros Hsep HF. induction HF as [|t ip toks ips Ht HF IH]; [by apply reads_closed|].
  destruct HF as [|t' ip' toks ips Ht' HF].
  - cbn. by rewrite !app_nil_r.
  - change (intersperse sep (t :: t' :: toks)) with (t ++ sep ++ intersperse sep (t' :: toks)).
    change (mjoin (ip :: ip' :: ips).*1) with (ip.1 ++ [] ++ mjoin (ip' :: ips).*1).
    change (mjoin (ip :: ip' :: ips).*2) with (ip.2 ++ [] ++ mjoin (ip' :: ips).*2).
    apply reads_app; [done|]. by apply reads_app.
Qed.

Lemma frag_join sep tsep parts (ips : list (list string * list string)) :
  ends_delim sep tsep -> starts_delim sep -> sep <> EmptyString -> reads tsep [] [] ->
  Forall2 (fun s ip => fragment s ip.1 ip.2) parts ips ->
  fragment (join sep parts) (mjoin ips.*1) (mjoin ips.*2).
Proof.
  intros He Hs Hne Hr HF.
  assert (HT : exists toks, Forall2 lexes parts toks /\
                            Forall2 (fun ts ip => reads ts ip.1 ip.2) toks ips).
  { induction HF as [|s ip parts ips (ts & Hl & Hrd) HF (toks & H1 & H2)].
    - by exists [].
    - exists (ts :: toks). split; by constructor. }
  destruct HT as (toks & H1 & H2). exists (intersperse tsep toks).
  split; [by apply lexes_join|by apply reads_intersperse].
Qed.

(** ** The filter as a fragment *)

Definition clause_idents (c : WhereClause) : list string :=
  let col := to_snake_case (wc_field c) in
  match wc_operator c with
  | In | NotIn =>
      match as_array (wc_value c) with
      | Some vs => replicate (length vs) col
      | None => []
      end
  | _ => [col]
  end.

(** Placeholder numbers [idx], [idx + 1], ..., one per value. *)
Definition slots {A} (idx : nat) (vs : list A) : list string := pretty <$> seq idx (length vs).

Lemma slots_app {A} idx (vs vs' : list A) :
  slots idx (vs ++ vs') = slots idx vs ++ slots (idx + length vs) vs'.
Proof. unfold slots. by rewrite length_app, seq_app, fmap_app. Qed.

Lemma reads_cast v : reads (cast_tokens v) [] [].
Proof. unfold cast_tokens. destruct (is_string v); by apply reads_closed. Qed.

Lemma reads_members col op idx vs :
  reads op [] [] ->
  exists ips, Forall2 (fun ts ip => reads ts ip.1 ip.2) (member_tokens col op idx vs) ips /\
    mjoin ips.*1 = replicate (length vs) col /\
    mjoin ips.*2 = slots idx (filter (fun v => is_null v = false) vs).
Proof.
  intros Hop. revert idx. induction vs as [|v vs IH]; intros idx; [by exists []|].
  cbn [member_tokens]. rewrite filter_cons. destruct (is_null v) eqn:Hn.
  - destruct (IH idx) as (ips & HF & H1 & H2). exists (([col], []) :: ips).
    rewrite decide_False by congruence. split; [|split; [by cbn; f_equal|done]].
    constructor; [|done]. apply (reads_app _ _ [col] [] [] []); [by apply reads_closed|].
    apply (reads_app _ _ [] [] [] []); [done|by apply reads_closed].
  - destruct (IH (S idx)) as (ips & HF & H1 & H2). exists (([col], [pretty idx]) :: ips).
    rewrite decide_True by done. split; [|split; [by cbn; f_equal|by cbn; f_equal]].
    constructor; [|done]. apply (reads_app _ _ [col] [] [] [pretty idx]); [by apply reads_closed|].
    apply (reads_app _ _ [] [] [] [pretty idx]); [apply reads_cast|].
    apply (reads_app _ _ [] [] [] [pretty idx]); [done|by apply reads_closed].
Qed.

Lemma reads_clause c idx :
  reads (clause_tokens c idx) (clause_idents c) (slots idx (clause_params c)).
Proof.
  unfold clause_tokens, clause_idents, clause_params, cast_tokens, slots.
  destruct (wc_operator c); try (destruct (is_string (wc_value c)); by apply reads_closed).
  all: destruct (as_array (wc_value c)) as [[|v vs]|]; try by apply reads_closed.
  1: destruct (reads_members (to_snake_case (wc_field c)) [sym "="] idx (v :: vs))
      as (ips & HF & <- & H2); [by apply reads_closed|].
  2: destruct (reads_members (to_snake_case (wc_field c)) [sym "!"; sym "="] idx (v :: vs))
      as (ips & HF & <- & H2); [by apply reads_closed|].
  all: fold (slots idx (filter (fun v => is_null v = false) (v :: vs))); rewrite <-H2.
  all: rewrite <-(app_nil_r (mjoin ips.*1)), <-(app_nil_r (mjoin ips.*2)).
  all: apply (reads_app [sym "("] _ [] _ [] _); [by apply reads_closed|].
  all: apply reads_app; [|by apply reads_closed].
  all: apply reads_intersperse; [by apply reads_closed|done].
Qed.

Lemma reads_where cs idx :
  exists ips, Forall2 (fun ts ip => reads ts ip.1 ip.2) (where_tokens cs idx) ips /\
    mjoin ips.*1 = cs ≫= clause_idents /\ mjoin ips.*2 = slots idx (cs ≫= clause_params).
Proof.
  revert idx. induction cs as [|c cs IH]; intros idx; [by exists []|].
  destruct (IH (idx + length (clause_params c))%nat) as (ips & HF & H1 & H2).
  exists ((clause_idents c, slots idx (clause_params c)) :: ips).
  split; [constructor; [apply reads_clause|done]|].
  split; [by cbn; f_equal|]. rewrite bind_cons, slots_app, <-H2. done.
Qed.

Lemma build_where_fragment cs off :
  fragment (build_where cs off).1 (cs ≫= clause_idents) (slots (off + 1) (cs ≫= clause_params)) /\
  (build_where cs off).2 = cs ≫= clause_params /\
  (is_empty (build_where cs off).1 = true <-> cs = []).
Proof.
  unfold build_where. pose proof (where_parts_spec cs (off + 1)) as H.
  destruct (where_parts cs (off + 1)) as [parts ps] eqn:Hp. destruct H as (HF & -> & Hne).
  destruct (reads_where cs (off + 1)) as (ips & HR & H1 & H2). cbn [fst snd].
  split; [|split; [done|]].
  - rewrite <-H1, <-H2. exists (intersperse [TWord "AND"] (where_tokens cs (off + 1))).
    split; [by apply lexes_join|].
    apply reads_intersperse; [by apply reads_closed|done].
  - destruct cs as [|c cs]; [simpl in Hp; injection Hp as <-; done|].
    split; [|done]. inversion HF as [|p t ps' ts' Hp1 HF' E1 E2]; subst.
    inversion Hne; subst. intros He. destruct ps' as [|p2 ps']; simpl in He;
    destruct p; simpl in He; done.
Qed.

(** ** The pieces of the statements *)

Definition nonnull (vs : list Value) : list Value := filter (fun v => is_null v = false) vs.

Fixpoint value_slots (vs : list Value) (idx : nat) : list (list string) :=
  match vs with
  | [] => []
  | v :: rest => if is_null v then [] :: value_slots rest idx
                 else [pretty idx] :: value_slots rest (S idx)
  end.

Lemma value_slots_join vs idx : mjoin (value_slots vs idx) = slots idx (nonnull vs).
Proof.
  revert idx. induction vs as [|v vs IH]; intros idx; [done|].
  cbn [value_slots]. unfold nonnull. rewrite filter_cons. destruct (is_null v) eqn:Hn.
  - rewrite decide_False by congruence. apply IH.
  - rewrite decide_True by done. cbn. f_equal. apply IH.
Qed.

Lemma write_values_spec m entries params :
  let '(texts, params') := write_values m entries params in
  params' = params ++ nonnull entries.*2 /\
  Forall2 (fun s ps => fragment s [] ps) texts (value_slots entries.*2 (length params + 1)) /\
  length texts = length entries.
Proof.
  revert params. induction entries as [|[k v] entries IH]; intros params.
  { cbn. rewrite app_nil_r. split; [done|]. split; [constructor|done]. }
  cbn [write_values fmap list_fmap fst snd value_slots]. unfold write_value, nonnull.
  rewrite filter_cons. destruct (is_null v) eqn:Hn.
  - specialize (IH params). destruct (write_values m entries params) as [texts params'].
    destruct IH as (-> & HF & Hlen). rewrite decide_False by congruence.
    split; [done|]. split; [|by cbn; f_equal]. constructor; [|done].
    by apply (frag_literal _ [TWord "NULL"]); [|apply reads_closed].
  - specialize (IH (params ++ [v])). cbv zeta.
    destruct (write_values m entries (params ++ [v])) as [texts params'].
    destruct IH as (-> & HF & Hlen). rewrite decide_True by done.
    rewrite length_app in HF |- *. cbn [length] in HF |- *.
    replace (length params + 1 + 1)%nat with (S (length params + 1)) in HF by lia.
    split; [by rewrite <-app_assoc|]. split; [|by cbn; f_equal]. constructor; [|done].
    rewrite <-(app_nil_r [pretty _]). apply (frag_app _ _ [] [] _ []).
    + apply frag_placeholder.
    + destruct (is_datetime m k); [|by apply (frag_literal _ []); [|apply reads_closed]].
      by apply (frag_literal _ [sym ":"; sym ":"; TWord "timestamptz"]); [|apply reads_closed].
    + by destruct (is_datetime m k).
Qed.

Lemma forall2_pairs {A} (f : A -> list string) (g : A -> list string) (h : A -> string) l :
  (forall x, fragment (h x) (f x) (g x)) ->
  Forall2 (fun s ip => fragment s ip.1 ip.2) (h <$> l) ((fun x => (f x, g x)) <$> l).
Proof. intros Hf. induction l; constructor; [apply Hf|done]. Qed.

Lemma mjoin_nil {A B} (l : list A) : mjoin ((fun _ => ([] : list B)) <$> l) = [].
Proof. induction l; [done|]. by cbn. Qed.

Lemma mjoin_single {A B} (f : A -> B) (l : list A) : mjoin ((fun x => [f x]) <$> l) = f <$> l.
Proof. induction l as [|x l IH]; [done|]. cbn. by f_equal. Qed.

Lemma comma_reads : reads [sym ","] [] [].
Proof. by apply reads_closed. Qed.

(** A list of columns. *)
Lemma columns_fragment {A} (f : A -> string) (l : list A) :
  fragment (join ", " ((fun x => quote_ident (f x)) <$> l)) (f <$> l) [].
Proof.
  pose proof (frag_join ", " [sym ","] _ _ eq_refl eq_refl ltac:(done)
    comma_reads
    (forall2_pairs (fun x => [f x]) (fun _ => []) (fun x => quote_ident (f x)) l
       (fun x => frag_ident (f x)))) as H.
  rewrite <-!list_fmap_compose in H. unfold compose in H. cbn [fst snd] in H.
  by rewrite mjoin_nil, mjoin_single in H.
Qed.

(** A list of written values. *)
Lemma values_fragment m entries params :
  fragment (join ", " (write_values m entries params).1) []
    (slots (length params + 1) (nonnull entries.*2)).
Proof.
  pose proof (write_values_spec m entries params) as H.
  destruct (write_values m entries params) as [texts params']. destruct H as (_ & HF & _).
  cbn [fst]. rewrite <-value_slots_join.
  assert (HP : Forall2 (fun s ip => fragment s ip.1 ip.2) texts
    ((fun ps => ([], ps)) <$> value_slots entries.*2 (length params + 1))).
  { apply Forall2_fmap_r. by eapply Forall2_impl; [exact HF|]. }
  pose proof (frag_join ", " [sym ","] _ _ eq_refl eq_refl ltac:(done)
    comma_reads HP) as H.
  rewrite <-!list_fmap_compose in H. unfold compose in H. cbn [fst snd] in H.
  by rewrite mjoin_nil, list_fmap_id in H.
Qed.

(** Appending the WHERE part and a literal tail. *)
Lemma push_where_fragment sql ids ps cs off :
  fragment sql ids ps ->
  fragment (push_where sql (build_where cs off).1) (ids ++ (cs ≫= clause_idents))
    (ps ++ slots (off + 1) (cs ≫= clause_params)).
Proof.
  intros Hs. destruct (build_where_fragment cs off) as (Hw & _ & He). unfold push_where.
  destruct (is_empty (build_where cs off).1) eqn:E.
  - rewrite (proj1 He eq_refl). cbn. unfold slots. by rewrite !app_nil_r.
  - apply frag_app; [done| |done].
    by apply (frag_after _ _ [TWord "WHERE"]); [|apply reads_closed|].
Qed.

Lemma tail_fragment sql tail ids ids' ps ts :
  fragment sql ids ps -> lexes tail ts -> starts_delim tail -> reads ts ids' [] ->
  fragment (sql +:+ tail) (ids ++ ids') ps.
Proof.
  intros Hs Ht Hd Hr. rewrite <-(app_nil_r ps). apply frag_app; [done| |done]. by exists ts.
Qed.

(** ** The statements *)

(** The text lexes, mentions exactly the identifiers [ids] in this order, numbers its
    placeholders from one without gap, one per value of [vs], and binds exactly [vs]. *)
Definition well_bound (q : Statement) (ids : list string) (vs : list Value) : Prop :=
  fragment q.1 ids (slots 1 vs) /\ q.2 = vs.

Definition where_idents (cs : list WhereClause) : list string := cs ≫= clause_idents.
Definition where_params (cs : list WhereClause) : list Value := cs ≫= clause_params.

Definition order_idents (m : Model) (order_by : list (string * OrderDirection)) : list string :=
  (fun p => to_snake_case p.1) <$>
    filter (fun p => to_snake_case p.1 ∈ valid_columns m) order_by.

Lemma order_fragment m order_by :
  fragment (join ", " (order_clauses m order_by)) (order_idents m order_by) [].
Proof.
  unfold order_clauses, order_idents.
  pose proof (frag_join ", " [sym ","] _ _ eq_refl eq_refl ltac:(done) comma_reads
    (forall2_pairs (fun p : string * OrderDirection => [to_snake_case p.1]) (fun _ => [])
       (fun p => quote_ident (to_snake_case p.1) +:+ " " +:+ direction p.2)
       (filter (fun p => to_snake_case p.1 ∈ valid_columns m) order_by)
       (fun p => ltac:(
          apply (frag_app _ _ [_] [] [] []); [apply frag_ident| |done];
          destruct (p.2); cbn [direction];
          [apply (frag_literal _ [TWord "ASC"])|apply (frag_literal _ [TWord "DESC"])];
          [done|by apply reads_closed|done|by apply reads_closed])))) as H.
  rewrite <-!list_fmap_compose in H. unfold compose in H. cbn [fst snd] in H.
  by rewrite mjoin_nil, mjoin_single in H.
Qed.

Lemma select_bound m cs order_by limit offset :
  well_bound (select m cs order_by limit offset)
    (table_name m :: where_idents cs ++ order_idents m order_by) (where_params cs).
Proof.
  unfold select. destruct (build_where_fragment cs 0) as (_ & Hp & _).
  assert (Hsel : fragment ("SELECT * FROM " +:+ quote_ident (table_name m)) [table_name m] []).
  { apply (frag_after _ _ [TWord "SELECT"; sym "*"; TWord "FROM"]);
      [done|by apply reads_closed|apply frag_ident]. }
  apply (push_where_fragment _ _ _ cs 0) in Hsel. cbn [app Nat.add] in Hsel.
  destruct (build_where cs 0) as [w ps]. cbn [fst snd] in *. split; [|done]. cbn [fst].
  fold (where_idents cs) (where_params cs) in Hsel.
  set (s1 := push_where _ w) in *.
  set (s2 := match order_clauses m order_by with [] => s1 | _ => _ end).
  assert (H2 : fragment s2 (table_name m :: where_idents cs ++ order_idents m order_by)
                 (slots 1 (where_params cs))).
  { pose proof (order_fragment m order_by) as Ho. unfold s2.
    destruct (order_clauses m order_by) as [|c l] eqn:Eo.
    - unfold order_clauses, order_idents in *. apply fmap_nil_inv in Eo. rewrite Eo.
      by rewrite app_nil_r.
    - rewrite <-(app_nil_r (slots _ _)).
      apply (frag_app _ _ (table_name m :: where_idents cs) (order_idents m order_by)); [done| |done].
      by apply (frag_after _ _ [TWord "ORDER"; TWord "BY"]); [|apply reads_closed|]. }
  clearbody s2. clear Hsel s1.
  assert (Htail : forall kw tok (n : option nat) s ids qs, fragment s ids qs ->
    ends_delim kw [tok] -> starts_delim kw -> kw <> EmptyString -> reads [tok] [] [] ->
    fragment (match n with Some l => s +:+ kw +:+ pretty l | None => s end) ids qs).
  { intros kw tok n s ids qs Hs Hk Hd Hne Hr. destruct n as [l|]; [|done].
    rewrite <-(app_nil_r ids), <-(app_nil_r qs). apply frag_app; [done| |].
    - by apply (frag_after _ _ [tok]); [| |apply frag_number].
    - by apply starts_delim_app. }
  apply (Htail " OFFSET "%string (TWord "OFFSET")); [|done..|by apply reads_closed].
  apply (Htail " LIMIT "%string (TWord "LIMIT")); [done..|by apply reads_closed].
Qed.

Lemma returning_fragment q ids ps :
  fragment q ids ps -> fragment (q +:+ returning_id) (ids ++ ["id"%string]) ps.
Proof.
  intros Hq. by apply (tail_fragment _ _ _ _ _ [TWord "RETURNING"; TIdent "id"]);
    [| | |apply reads_closed].
Qed.

(** The statements that change the rows a filter selects. *)
Lemma row_statement_bound (sql : string) ids cs :
  fragment sql ids [] ->
  fragment (push_where sql (build_where cs 0).1 +:+ returning_id)
    (ids ++ where_idents cs ++ ["id"%string]) (slots 1 (where_params cs)).
Proof.
  intros Hs. rewrite app_assoc. apply returning_fragment.
  by apply (push_where_fragment _ _ _ cs 0) in Hs.
Qed.

Lemma build_where_params cs off : (build_where cs off).2 = where_params cs.
Proof. by destruct (build_where_fragment cs off) as (_ & -> & _). Qed.

Lemma table_fragment kw ts m :
  ends_delim kw ts -> reads ts [] [] -> fragment (kw +:+ quote_ident (table_name m)) [table_name m] [].
Proof. intros Hk Hr. apply (frag_after _ _ ts); [done..|apply frag_ident]. Qed.

Lemma delete_bound m cs :
  well_bound (delete m cs) (table_name m :: where_idents cs ++ ["id"%string]) (where_params cs).
Proof.
  unfold delete. pose proof (build_where_params cs 0) as Hp.
  pose proof (row_statement_bound ("DELETE FROM " +:+ quote_ident (table_name m)) [table_name m] cs)
    as H. destruct (build_where cs 0) as [w ps]. cbn [fst snd] in *. split; [|done].
  apply H. by apply (table_fragment _ [TWord "DELETE"; TWord "FROM"]); [|apply reads_closed].
Qed.

Lemma set_deleted_fragment m tail ts :
  lexes tail ts -> starts_delim tail -> reads ts [] [] ->
  fragment ("UPDATE " +:+ quote_ident (table_name m) +:+ " SET " +:+ dquote_s +:+ "deleted_at" +:+
            dquote_s +:+ tail) [table_name m; "deleted_at"%string] [].
Proof.
  intros Ht Hd Hr. apply (frag_after _ _ [TWord "UPDATE"]); [done|by apply reads_closed|].
  apply (frag_app _ _ [table_name m] ["deleted_at"%string] [] []); [apply frag_ident| |done].
  apply (frag_after _ _ [TWord "SET"]); [done|by apply reads_closed|].
  apply (frag_app (quote_ident "deleted_at") tail ["deleted_at"%string] [] [] []);
    [apply frag_ident| |done]. by exists ts.
Qed.

Lemma soft_delete_bound m cs :
  well_bound (soft_delete m cs) (table_name m :: "deleted_at"%string :: where_idents cs ++ ["id"%string])
    (where_params cs).
Proof.
  unfold soft_delete. pose proof (build_where_params cs 0) as Hp.
  epose proof (row_statement_bound _ _ cs (set_deleted_fragment m " = NOW()"
    [sym "="; TWord "NOW"; sym "("; sym ")"] eq_refl eq_refl ltac:(by apply reads_closed))) as H.
  destruct (build_where cs 0) as [w ps]. cbn [fst snd] in *. by split.
Qed.

Lemma restore_bound m cs :
  well_bound (restore m cs) (table_name m :: "deleted_at"%string :: where_idents cs ++ ["id"%string])
    (where_params cs).
Proof.
  unfold restore. pose proof (build_where_params cs 0) as Hp.
  epose proof (row_statement_bound _ _ cs (set_deleted_fragment m " = NULL"
    [sym "="; TWord "NULL"] eq_refl eq_refl ltac:(by apply reads_closed))) as H.
  destruct (build_where cs 0) as [w ps]. cbn [fst snd] in *. by split.
Qed.

(** The columns and the tuples of an insert. *)
Lemma insert_head m (keys : list string) vals ps :
  fragment vals [] ps ->
  fragment ("INSERT INTO " +:+ quote_ident (table_name m) +:+ " (" +:+
            join ", " (column <$> keys) +:+ ") VALUES " +:+ vals +:+ " RETURNING *")
    (table_name m :: (to_snake_case <$> keys)) ps.
Proof.
  intros Hv. rewrite <-(app_nil_r (to_snake_case <$> keys)), <-(app_nil_r ps).
  apply (frag_after _ _ [TWord "INSERT"; TWord "INTO"]); [done|by apply reads_closed|].
  apply (frag_app _ _ [table_name m] (_ ++ []) [] (ps ++ [])); [apply frag_ident| |done].
  apply (frag_after _ _ [sym "("]); [done|by apply reads_closed|].
  apply (frag_app _ _ (to_snake_case <$> keys) [] [] (ps ++ [])); [apply columns_fragment| |done].
  apply (frag_after _ _ [sym ")"; TWord "VALUES"]); [done|by apply reads_closed|].
  apply (frag_app _ _ [] [] ps []); [done| |done].
  by apply (frag_literal _ [TWord "RETURNING"; sym "*"]); [|apply reads_closed].
Qed.

Lemma parens_fragment s ids ps : fragment s ids ps -> fragment ("(" +:+ s +:+ ")") ids ps.
Proof.
  intros Hs. apply (frag_after _ _ [sym "("]); [done|by apply reads_closed|].
  rewrite <-(app_nil_r ids), <-(app_nil_r ps). apply frag_app; [done| |done].
  by apply (frag_literal _ [sym ")"]); [|apply reads_closed].
Qed.

Section WithOrder.
Context {ho : HashOrder}.

Lemma insert_bound m (data : gmap string Value) :
  well_bound (insert m data) (table_name m :: (to_snake_case <$> (hpairs data).*1))
    (nonnull (hpairs data).*2).
Proof.
  unfold insert. pose proof (values_fragment m (hpairs data) []) as Hv.
  pose proof (write_values_spec m (hpairs data) []) as Hs.
  destruct (write_values m (hpairs data) []) as [texts ps]. destruct Hs as (-> & _ & _).
  split; [|done]. cbn [fst snd length Nat.add] in Hv |- *.
  apply parens_fragment in Hv. apply (insert_head m (hpairs data).*1) in Hv.
  rewrite <-list_fmap_compose in Hv. unfold compose in Hv.
  by rewrite !str_app_assoc in Hv.
Qed.

Lemma set_fragment m entries params :
  fragment (join ", " (zip_with (fun (p : string * Value) t => column p.1 +:+ " = " +:+ t) entries
                         (write_values m entries params).1))
    (to_snake_case <$> entries.*1) (slots (length params + 1) (nonnull entries.*2)).
Proof.
  pose proof (write_values_spec m entries params) as H.
  destruct (write_values m entries params) as [texts params']. destruct H as (_ & HF & _).
  cbn [fst]. rewrite <-value_slots_join. revert texts HF.
  generalize (length params + 1)%nat as k. intros k texts HF.
  assert (HP : Forall2 (fun s ip => fragment s ip.1 ip.2)
     (zip_with (fun (p : string * Value) t => column p.1 +:+ " = " +:+ t) entries texts)
     (zip ((fun p => [to_snake_case p.1]) <$> entries) (value_slots entries.*2 k)) /\
     length (value_slots entries.*2 k) = length entries).
  { revert k texts HF. induction entries as [|[key v] entries IH]; intros k texts HF;
      [split; [constructor|done]|].
    cbn [fmap list_fmap fst snd value_slots] in HF |- *.
    destruct (is_null v); inversion HF as [|t ps ts pss Ht HF']; subst;
      destruct (IH _ _ HF') as [IH1 IH2]; (split; [|cbn; by f_equal]);
      (constructor; [|done]); cbn [fst snd];
      (apply (frag_app _ _ [to_snake_case key] [] []); [apply frag_ident| |done]);
      (by apply (frag_after _ _ [sym "="]); [|apply reads_closed|]). }
  destruct HP as [HP Hlen].
  pose proof (frag_join ", " [sym ","] _ _ eq_refl eq_refl ltac:(done) comma_reads HP) as H.
  rewrite fst_zip in H by (rewrite length_fmap; lia).
  rewrite snd_zip in H by (rewrite length_fmap; lia).
  rewrite mjoin_single in H. by rewrite <-list_fmap_compose.
Qed.

Lemma update_bound m cs (data : gmap string Value) :
  well_bound (update m cs data)
    (table_name m :: (to_snake_case <$> (hpairs data).*1) ++ where_idents cs)
    (nonnull (hpairs data).*2 ++ where_params cs).
Proof.
  unfold update. pose proof (set_fragment m (hpairs data) []) as Hv.
  pose proof (write_values_spec m (hpairs data) []) as Hs.
  destruct (write_values m (hpairs data) []) as [texts ps]. destruct Hs as (-> & _ & _).
  cbn [fst snd length Nat.add app] in Hv |- *.
  set (sets := join ", " _) in *. set (k := nonnull (hpairs data).*2) in *.
  assert (Hh : fragment ("UPDATE " +:+ quote_ident (table_name m) +:+ " SET " +:+ sets)
    (table_name m :: (to_snake_case <$> (hpairs data).*1)) (slots 1 k)).
  { apply (frag_after _ _ [TWord "UPDATE"]); [done|by apply reads_closed|].
    apply (frag_app _ _ [table_name m] _ [] _); [apply frag_ident| |done].
    by apply (frag_after _ _ [TWord "SET"]); [|apply reads_closed|]. }
  apply (push_where_fragment _ _ _ cs (length k)) in Hh.
  pose proof (build_where_params cs (length k)) as Hp.
  destruct (build_where cs (length k)) as [w wps]. cbn [fst snd] in *. subst wps.
  split; [|done]. cbn [fst]. rewrite slots_app, Nat.add_comm.
  rewrite <-(app_nil_r ((_ : list string) ++ where_idents cs)).
  apply (tail_fragment _ _ (_ :: _) _ _ [TWord "RETURNING"; sym "*"]); [done..|by apply reads_closed].
Qed.
End WithOrder.

(** ** The batch insert *)

(** A record's values in the order of the columns. *)
Definition row_values (cols : list string) (r : gmap string Value) : list Value :=
  (fun c => default VNull (r !! c)) <$> cols.

Lemma nonnull_app l l' : nonnull (l ++ l') = nonnull l ++ nonnull l'.
Proof. apply filter_app. Qed.

Lemma write_rows_spec m cols records params :
  let '(tuples, params') := write_rows m cols records params in
  params' = params ++ nonnull (records ≫= row_values cols) /\
  exists ips, Forall2 (fun s ip => fragment s ip.1 ip.2) tuples ips /\
    mjoin ips.*1 = [] /\
    mjoin ips.*2 = slots (length params + 1) (nonnull (records ≫= row_values cols)).
Proof.
  revert params. induction records as [|r records IH]; intros params.
  { cbn. rewrite app_nil_r. split; [done|]. exists []. split; [constructor|done]. }
  cbn [write_rows]. set (entries := (fun c => (c, default VNull (r !! c))) <$> cols).
  assert (He : entries.*2 = row_values cols r).
  { unfold entries, row_values. by rewrite <-list_fmap_compose. }
  pose proof (write_values_spec m entries params) as Hs.
  pose proof (values_fragment m entries params) as Hv.
  destruct (write_values m entries params) as [texts ps] eqn:E. destruct Hs as (-> & _ & _).
  rewrite He in Hv |- *. specialize (IH (params ++ nonnull (row_values cols r))).
  destruct (write_rows m cols records _) as [tuples ps'].
  destruct IH as (-> & ips & HF & H1 & H2). rewrite bind_cons, nonnull_app.
  split; [by rewrite app_assoc|].
  exists (([], slots (length params + 1) (nonnull (row_values cols r))) :: ips).
  split; [constructor; [by apply parens_fragment|done]|]. split; [done|].
  rewrite slots_app. rewrite length_app in H2.
  replace (length params + 1 + length (nonnull (row_values cols r)))%nat
    with (length params + length (nonnull (row_values cols r)) + 1)%nat by lia.
  rewrite <-H2. done.
Qed.

Lemma nonnull_length l : (length (nonnull l) <= length l)%nat.
Proof. apply length_filter. Qed.

Lemma rows_length cols records :
  length (records ≫= row_values cols) = (length records * length cols)%nat.
Proof.
  induction records as [|r records IH]; [done|].
  rewrite bind_cons, length_app, IH. unfold row_values. by rewrite length_fmap.
Qed.

(** Every record has exactly these columns. *)
Definition homogeneous (cols : list string) (records : list (gmap string Value)) : Prop :=
  Forall (fun r : gmap string Value => forall c, is_Some (r !! c) <-> c ∈ cols) records.

Lemma homogeneous_check cols (r : gmap string Value) :
  NoDup cols -> size r = length cols /\ Forall (fun c => is_Some (r !! c)) cols <->
  (forall c, is_Some (r !! c) <-> c ∈ cols).
Proof.
  intros Hnd. rewrite <-(size_list_to_set (C := gset string) cols Hnd), <-size_dom.
  rewrite Forall_forall. split.
  - intros [Hsz Hall] c. split; [|apply Hall].
    assert (Hsub : list_to_set cols ⊆ dom r).
    { intros x Hx%elem_of_list_to_set. by apply elem_of_dom, Hall. }
    apply set_subseteq_size_equiv in Hsub; [|lia].
    intros Hc%elem_of_dom. rewrite <-Hsub in Hc. by apply elem_of_list_to_set in Hc.
  - intros Hiff. split; [|intros c; apply Hiff].
    apply set_size_proper. intros x. by rewrite elem_of_dom, elem_of_list_to_set.
Qed.

Section Batch.
Context {ho : HashOrder}.

Lemma insert_many_cases m (records : list (gmap string Value)) :
  match insert_many m records with
  | Some q => exists cols, cols <> [] /\ homogeneous cols records /\
      Z.of_nat (length records * length cols) <= 60000 /\
      well_bound q (table_name m :: (to_snake_case <$> cols))
        (nonnull (records ≫= row_values cols))
  | None => forall cols, cols <> [] -> NoDup cols -> homogeneous cols records ->
      records = [] \/ 60000 < Z.of_nat (length records * length cols)
  end.
Proof.
  destruct records as [|first rest]; [by intros; left|].
  unfold insert_many. set (records := first :: rest). set (cols := sort_strings (hkeys first)).
  assert (Hnd : NoDup cols).
  { unfold cols, sort_strings. rewrite merge_sort_Permutation. apply NoDup_hkeys. }
  assert (Hperm : forall cols', NoDup cols' -> homogeneous cols' records -> cols' ≡ₚ cols).
  { intros cols' Hnd' Hh. apply NoDup_Permutation; [done..|]. intros c.
    unfold cols. rewrite elem_of_sort_strings, elem_of_hkeys. symmetry.
    apply Forall_cons in Hh as [Hf _]. apply Hf. }
  cbv zeta. destruct (decide (length cols = 0%nat)) as [Hz|Hz].
  { intros cols' Hne Hnd' Hh. destruct Hne. apply Permutation_nil_r.
    rewrite (Hperm _ Hnd' Hh). by rewrite (nil_length_inv _ Hz). }
  destruct (decide (Forall _ records)) as [Hhom|Hhom].
  2: { intros cols' Hne Hnd' Hh. destruct Hhom. eapply Forall_impl; [exact Hh|].
       intros r Hr. apply homogeneous_check; [done|]. intros c.
       etrans; [apply Hr|]. by rewrite (Hperm cols' Hnd' Hh). }
  unfold u64_saturating_mul. destruct (decide _) as [Hle|Hle].
  2: { intros cols' Hne Hnd' Hh. right. rewrite (Hperm _ Hnd' Hh). unfold u64_max in Hle. lia. }
  pose proof (write_rows_spec m cols records []) as Hw.
  destruct (write_rows m cols records []) as [tuples ps]. destruct Hw as (-> & ips & HF & H1 & H2).
  exists cols. split; [by intros ->|]. split.
  { eapply Forall_impl; [exact Hhom|]. intros r Hr c. by apply homogeneous_check. }
  split; [unfold u64_max in Hle; lia|]. split; [|done]. cbn [fst].
  pose proof (frag_join ", " [sym ","] _ _ eq_refl eq_refl ltac:(done) comma_reads HF) as H.
  rewrite H1, H2 in H. by apply (insert_head m cols) in H.
Qed.
End Batch.

(** ** The properties *)

(** C5: no statement can be broken out of.  For every model, filter, sort order and
    data, the text reads back as a statement whose quoted identifiers are exactly the
    table and the snake-cased columns, in order and whatever characters they hold; all
    its other tokens are from a fixed set; its placeholders are [$1], [$2], ... in order,
    one for each bound value; and the bound values are exactly the given ones.  No value
    reaches the text. *)
Theorem statements_injection_safe `{HashOrder} (m : Model) (cs : list WhereClause)
    (order_by : list (string * OrderDirection)) (limit offset : option nat)
    (data : gmap string Value) :
  let t := table_name m in
  let ids := where_idents cs in
  let ps := where_params cs in
  let sorted := order_idents m order_by in
  well_bound (select m cs order_by limit offset) (t :: ids ++ sorted) ps /\
  well_bound (select_one m cs) (t :: ids) ps /\
  well_bound (select_active m cs order_by limit offset)
    (t :: (ids ++ ["deleted_at"%string]) ++ sorted) ps /\
  well_bound (select_deleted m cs order_by limit offset)
    (t :: (ids ++ ["deleted_at"%string]) ++ sorted) ps /\
  well_bound (insert m data) (t :: (to_snake_case <$> (hpairs data).*1)) (nonnull (hpairs data).*2) /\
  well_bound (update m cs data) (t :: (to_snake_case <$> (hpairs data).*1) ++ ids)
    (nonnull (hpairs data).*2 ++ ps) /\
  well_bound (delete m cs) (t :: ids ++ ["id"%string]) ps /\
  well_bound (soft_delete m cs) (t :: "deleted_at"%string :: ids ++ ["id"%string]) ps /\
  well_bound (restore m cs) (t :: "deleted_at"%string :: ids ++ ["id"%string]) ps.
Proof.
  intros t ids ps sorted.
  assert (Hext : forall op, clause_params (mkWhere "deleted_at" op VNull) = [] ->
    clause_idents (mkWhere "deleted_at" op VNull) = ["deleted_at"%string] ->
    well_bound (select m (cs ++ [mkWhere "deleted_at" op VNull]) order_by limit offset)
      (t :: (ids ++ ["deleted_at"%string]) ++ sorted) ps).
  { intros op Hp Hi. pose proof (select_bound m (cs ++ [mkWhere "deleted_at" op VNull])
      order_by limit offset) as Hs. unfold where_idents, where_params in Hs.
    rewrite !bind_app, !bind_singleton, Hp, Hi, app_nil_r in Hs. exact Hs. }
  split; [apply select_bound|]. split.
  { pose proof (select_bound m cs [] (Some 1%nat) None) as Hs. by rewrite app_nil_r in Hs. }
  split; [by apply Hext|]. split; [by apply Hext|]. split; [apply insert_bound|].
  split; [apply update_bound|]. split; [apply delete_bound|].
  split; [apply soft_delete_bound|apply restore_bound].
Qed.

(** a filter says what it means.  At any placeholder offset the text of a filter is
    the conjunction of its clauses' conditions, each on its own column with the operator's
    symbol; strings are compared as text; set filters become one comparison per member,
    an empty [In] or a malformed set is FALSE and an empty [NotIn] TRUE; each bound value
    sits at the placeholder of its condition. *)
Theorem where_reads_as (cs : list WhereClause) (off : nat) :
  lex (build_where cs off).1 = Some (intersperse [TWord "AND"] (where_tokens cs (off + 1))) /\
  (build_where cs off).2 = cs ≫= clause_params.
Proof.
  unfold build_where. pose proof (where_parts_spec cs (off + 1)) as H.
  destruct (where_parts cs (off + 1)) as [parts ps]. destruct H as (HF & -> & _).
  split; [|done]. by apply lexes_join.
Qed.

(** the batch insert is used exactly when it can be.  It is produced iff there is a
    record, all records have the same non-empty set of columns and the batch stays within
    60000 parameters; it then binds every record's values, record by record in the fixed
    column order, nulls written in place, and never more than the limit. *)
Theorem insert_many_spec `{HashOrder} (m : Model) (records : list (gmap string Value)) :
  match insert_many m records with
  | Some q => exists cols, cols <> [] /\ homogeneous cols records /\
      well_bound q (table_name m :: (to_snake_case <$> cols))
        (nonnull (records ≫= row_values cols)) /\
      Z.of_nat (length q.2) <= 60000
  | None => ~ exists cols, records <> [] /\ cols <> [] /\ NoDup cols /\
      homogeneous cols records /\ Z.of_nat (length records * length cols) <= 60000
  end.
Proof.
  pose proof (insert_many_cases m records) as Hc. destruct (insert_many m records) as [q|].
  - destruct Hc as (cols & Hne & Hh & Hlen & Hb). exists cols. do 3 (split; [done|]).
    destruct Hb as [_ ->]. pose proof (nonnull_length (records ≫= row_values cols)) as Hl.
    rewrite rows_length in Hl. lia.
  - intros (cols & Hr & Hne & Hnd & Hh & Hlen). destruct (Hc cols Hne Hnd Hh); [done|lia].
Qed.

(** ** Examples *)
Module SqlExamples.
#[local] Existing Instance enum_order.
Definition deal : Model := bare_model "Deal" ∅ (Some "deal"%string).

(** A hostile field name stays one identifier. *)
Example hostile_field :
  lex (delete deal [mkWhere (String dquote "; DROP TABLE deal --") Equals (VBool true)]).1 =
  Some [TWord "DELETE"; TWord "FROM"; TIdent "deal"; TWord "WHERE";
        TIdent (String dquote "; _d_r_o_p _t_a_b_l_e deal --"); sym "="; bound 1;
        TWord "RETURNING"; TIdent "id"].
Proof. vm_compute. reflexivity. Qed.

(** Writing no field at all generates an empty column list, which is not valid SQL. *)
Example insert_nothing :
  insert deal ∅ = ("INSERT INTO " +:+ quote_ident "deal" +:+ " () VALUES () RETURNING *", [])%string.
Proof. reflexivity. Qed.
End SqlExamples.
