(* ===== verification/MemoryStore.v ===== *)
(** * Events, errors, and the event store in memory

    First the core crate ([atomo_core/src/errors.rs], [events/mod.rs], [events/envelope.rs]
    and the trait of [events/event_store.rs]): identifiers are their numeric values,
    timestamps are nanoseconds since the epoch, and the class [EventStore] states what a store
    promises to its clients.  Then the stores in memory
    ([atomo_server/src/event_store/memory.rs]), which keep the promise; [Aggregate] is proved
    against it. *)

From S2P Require Import Prelude Json.

Definition EntityId : Type := Z.
Definition StreamId : Type := Z.
Definition Timestamp : Type := Z.

(** ** errors.rs *)

Inductive AtomoError : Type :=
  | Validation (message : string)
  | NotFound (entity id : string)
  | Conflict (message : string)
  | Unauthorized (message : string)
  | Forbidden (message : string)
  | Internal (message : string)
  | Database (cause : string)
  | ConcurrencyConflict (expected actual : Z)
  | Domain (message : string)
  | EventStoreError (message : string)
  | Serialization (cause : string)
  | AuthenticationFailed (message : string)
  | SessionExpired
  | RateLimitExceeded (message : string).

Definition is_client_error (e : AtomoError) : bool :=
  match e with
  | Validation _ | NotFound _ _ | Conflict _ | Unauthorized _ | Forbidden _ | Domain _
  | AuthenticationFailed _ | SessionExpired | RateLimitExceeded _ => true
  | _ => false
  end.

Definition is_server_error (e : AtomoError) : bool :=
  match e with
  | Internal _ | Database _ | EventStoreError _ | Serialization _ => true
  | _ => false
  end.

Definition status_code (e : AtomoError) : Z :=
  match e with
  | Validation _ => 400
  | NotFound _ _ => 404
  | Conflict _ => 409
  | ConcurrencyConflict _ _ => 409
  | Unauthorized _ => 401
  | Forbidden _ => 403
  | AuthenticationFailed _ => 401
  | SessionExpired => 401
  | Domain _ => 400
  | RateLimitExceeded _ => 429
  | Internal _ => 500
  | Database _ => 500
  | EventStoreError _ => 500
  | Serialization _ => 500
  end.

(** Every error is a client error, a server error or a version conflict, and its status
    is in the matching range: a conflict alone answers 409 while being neither. *)
Lemma error_classes e :
  (is_server_error e = true <-> status_code e = 500) /\
  (400 <= status_code e < 500 <->
   is_client_error e = true \/ exists expected actual, e = ConcurrencyConflict expected actual).
Proof.
  destruct e; simpl; (split; [split; first [done|lia]|]);
    split; intros; try lia; try (by left); try (by right; do 2 eexists);
    match goal with H : _ \/ _ |- _ => destruct H as [|(? & ? & ?)]; done end.
Qed.

(** ** events/mod.rs *)

Record EventMetadata : Type := mkMetadata {
  md_user_id : option EntityId;
  md_ip_address : option string;
  md_user_agent : option string;
  md_correlation_id : option string;
  md_causation_id : option string;
  md_context : gmap string Value
}.

Definition metadata_default : EventMetadata := mkMetadata None None None None None ∅.
Definition with_user (user_id : EntityId) : EventMetadata :=
  mkMetadata (Some user_id) None None None None ∅.
Definition with_correlation (id : string) (m : EventMetadata) : EventMetadata :=
  mkMetadata (md_user_id m) (md_ip_address m) (md_user_agent m) (Some id) (md_causation_id m)
    (md_context m).
Definition with_causation (id : string) (m : EventMetadata) : EventMetadata :=
  mkMetadata (md_user_id m) (md_ip_address m) (md_user_agent m) (md_correlation_id m) (Some id)
    (md_context m).
Definition with_context (key : string) (v : Value) (m : EventMetadata) : EventMetadata :=
  mkMetadata (md_user_id m) (md_ip_address m) (md_user_agent m) (md_correlation_id m)
    (md_causation_id m) (<[key := v]> (md_context m)).

Inductive EventType : Type :=
  | Created | Updated | Deleted | Restored | HardDeleted | StateChanged | Integration
  | Custom (name : string).

#[global] Instance EventType_eq_dec : EqDecision EventType.
Proof. solve_decision. Defined.

Definition is_lifecycle_event (t : EventType) : bool :=
  match t with Created | Updated | Deleted | Restored | HardDeleted => true | _ => false end.
Definition is_state_transition (t : EventType) : bool :=
  match t with StateChanged => true | _ => false end.
Definition is_integration_event (t : EventType) : bool :=
  match t with Integration => true | _ => false end.

(** The trait [DomainEvent]. *)
Class DomainEvent (E : Type) : Type := {
  de_stream_id : E -> StreamId;
  de_event_type : E -> EventType;
  de_metadata : E -> EventMetadata;
  de_payload : E -> Value;
  de_aggregate_id : E -> EntityId;
  de_aggregate_version : E -> Z
}.

(** The trait [Snapshot]. *)
Class Snapshot (S : Type) : Type := {
  sn_aggregate_id : S -> EntityId;
  sn_version : S -> Z
}.

(** ** events/envelope.rs *)

Record EventEnvelope : Type := mkEnvelope {
  event_id : EntityId;
  stream_id : StreamId;
  stream_version : Z;
  global_sequence : Z;
  event_type : EventType;
  metadata : EventMetadata;
  payload : Value;
  recorded_at : Timestamp
}.

(** [fresh] is the new event id, [now] the clock. *)
Definition from_domain_event `{DomainEvent E} (fresh : EntityId) (now : Timestamp) (e : E)
    (version sequence : Z) : EventEnvelope :=
  mkEnvelope fresh (de_stream_id e) version sequence (de_event_type e) (de_metadata e)
    (de_payload e) now.

Definition was_caused_by_user (e : EventEnvelope) (user_id : EntityId) : bool :=
  bool_decide (md_user_id (metadata e) = Some user_id).
Definition is_correlated_with (e : EventEnvelope) (id : string) : bool :=
  match md_correlation_id (metadata e) with Some c => bool_decide (c = id) | None => false end.

(** An envelope with the numbers the store assigns. *)
Definition restamp (version sequence : Z) (e : EventEnvelope) : EventEnvelope :=
  mkEnvelope (event_id e) (stream_id e) version sequence (event_type e) (metadata e)
    (payload e) (recorded_at e).

(** Consecutive numbers for a batch. *)
Fixpoint stamp (version sequence : Z) (es : list EventEnvelope) : list EventEnvelope :=
  match es with
  | [] => []
  | e :: rest => restamp version sequence e :: stamp (version + 1) (sequence + 1) rest
  end.

Lemma stamp_length v g es : length (stamp v g es) = length es.
Proof. revert v g. induction es as [|e es IH]; intros v g; [done|]. simpl. by f_equal. Qed.

Lemma stamp_lookup v g es i :
  stamp v g es !! i =
  (fun e => restamp (v + Z.of_nat i) (g + Z.of_nat i) e) <$> es !! i.
Proof.
  revert v g i. induction es as [|e es IH]; intros v g [|i]; try done.
  - simpl. by rewrite !Z.add_0_r.
  - simpl. rewrite IH. destruct (es !! i); [|done]. simpl. do 2 f_equal; lia.
Qed.

(** ** The trait [EventStore]: the operations a client uses, and what they promise *)

Class EventStore (Store : Type) : Type := {
  (** The representation invariant every operation keeps. *)
  store_ok : Store -> Prop;
  (** [append_events]; [fresh] are the ids the store may draw. *)
  append_events : (nat -> EntityId) -> StreamId -> option Z -> list EventEnvelope -> Store ->
    (unit + AtomoError) * Store;
  (** [read_stream] *)
  read_stream : StreamId -> option Z -> option nat -> Store -> list EventEnvelope;
  (** [get_stream_version] *)
  get_stream_version : StreamId -> Store -> option Z
}.

Definition current_version `{EventStore Store} (sid : StreamId) (s : Store) : Z :=
  default 0 (get_stream_version sid s).
Definition history `{EventStore Store} (sid : StreamId) (s : Store) : list EventEnvelope :=
  read_stream sid None None s.

Class EventStoreLaws (Store : Type) `{EventStore Store} : Prop := {
  (** Optimistic concurrency: a wrong expectation is refused and changes nothing. *)
  append_conflict fresh sid expected es s :
    current_version sid s <> expected ->
    append_events fresh sid (Some expected) es s =
      (inr (ConcurrencyConflict expected (current_version sid s)), s);
  (** Otherwise the batch is appended to its stream, numbered from the current version,
      and no other stream changes. *)
  append_accepted fresh sid expected es s :
    store_ok s -> expected = None \/ expected = Some (current_version sid s) ->
    exists s' g, append_events fresh sid expected es s = (inl tt, s') /\ store_ok s' /\
      history sid s' = history sid s ++ stamp (current_version sid s + 1) g es /\
      current_version sid s' = current_version sid s + Z.of_nat (length es) /\
      forall sid', sid' <> sid ->
        history sid' s' = history sid' s /\ current_version sid' s' = current_version sid' s
}.

(** * The in-memory event store ([atomo_server/src/event_store/memory.rs])

    The five shared structures behind their locks are the fields of one state: every
    operation takes all the locks it needs before it touches anything, so operations are
    atomic.  Ids drawn by [EntityId::new] are arguments. *)

Record InMemoryEventStore : Type := mkStore {
  ms_events : list EventEnvelope;
  ms_stream_versions : gmap StreamId Z;
  ms_stream_events : gmap StreamId (list nat);
  ms_aggregate_events : gmap EntityId (list nat);
  ms_global_sequence : Z
}.

Definition store_new : InMemoryEventStore := mkStore [] ∅ ∅ ∅ 0.
Definition event_count (s : InMemoryEventStore) : nat := length (ms_events s).
Definition clear (s : InMemoryEventStore) : InMemoryEventStore := mkStore [] ∅ ∅ ∅ 0.

(** [map.entry(k).or_default().push(idx)] *)
Definition push_index (k : Z) (idx : nat) (m : gmap Z (list nat)) : gmap Z (list nat) :=
  <[k := default [] (m !! k) ++ [idx]]> m.

(** The loop that indexes a batch by stream and by the user of its metadata. *)
Fixpoint index_events (fresh : nat -> EntityId) (sid : StreamId) (start i : nat)
    (es : list EventEnvelope) (by_stream by_aggregate : gmap Z (list nat))
    : gmap Z (list nat) * gmap Z (list nat) :=
  match es with
  | [] => (by_stream, by_aggregate)
  | e :: rest =>
      let aggregate_id := default (fresh i) (md_user_id (metadata e)) in
      index_events fresh sid start (S i) rest
        (push_index sid (start + i) by_stream)
        (push_index aggregate_id (start + i) by_aggregate)
  end.

Definition append (fresh : nat -> EntityId) (sid : StreamId) (expected_version : option Z)
    (es : list EventEnvelope) (s : InMemoryEventStore)
    : (unit + AtomoError) * InMemoryEventStore :=
  let current := default 0 (ms_stream_versions s !! sid) in
  let store :=
    let next := current + 1 in
    let es := stamp next (ms_global_sequence s + 1) es in
    let '(by_stream, by_aggregate) :=
      index_events fresh sid (length (ms_events s)) 0 es (ms_stream_events s)
        (ms_aggregate_events s) in
    mkStore (ms_events s ++ es)
      (<[sid := next + Z.of_nat (length es) - 1]> (ms_stream_versions s))
      by_stream by_aggregate (ms_global_sequence s + Z.of_nat (length es)) in
  match expected_version with
  | Some expected =>
      if decide (current <> expected) then (inr (ConcurrencyConflict expected current), s)
      else (inl tt, store)
  | None => (inl tt, store)
  end.

(** [.take(max_count.unwrap_or(usize::MAX))] *)
Definition take_max {A} (max_count : option nat) (l : list A) : list A :=
  match max_count with Some n => take n l | None => l end.

(** The events behind a list of indices, from a version on. *)
Definition events_at (s : InMemoryEventStore) (indices : list nat) : list EventEnvelope :=
  omap (fun idx => ms_events s !! idx) indices.

Definition read (sid : StreamId) (from_version : option Z) (max_count : option nat)
    (s : InMemoryEventStore) : list EventEnvelope :=
  let indices := default [] (ms_stream_events s !! sid) in
  take_max max_count
    (filter (fun e => default 1 from_version <= stream_version e) (events_at s indices)).

Definition read_events_by_type (t : EventType) (from_timestamp : option Timestamp)
    (max_count : option nat) (s : InMemoryEventStore) : list EventEnvelope :=
  take_max max_count
    (filter (fun e => event_type e = t /\ default 0 from_timestamp <= recorded_at e) (ms_events s)).

Definition read_aggregate_events (aggregate_id : EntityId) (from_version : option Z)
    (s : InMemoryEventStore) : list EventEnvelope :=
  let indices := default [] (ms_aggregate_events s !! aggregate_id) in
  filter (fun e => default 1 from_version <= stream_version e) (events_at s indices).

Definition read_events_from_sequence (from_sequence : Z) (max_count : option nat)
    (s : InMemoryEventStore) : list EventEnvelope :=
  take_max max_count (filter (fun e => from_sequence <= global_sequence e) (ms_events s)).

Definition stream_version_of (sid : StreamId) (s : InMemoryEventStore) : option Z :=
  ms_stream_versions s !! sid.
Definition get_latest_sequence (s : InMemoryEventStore) : Z := ms_global_sequence s.
Definition stream_exists (sid : StreamId) (s : InMemoryEventStore) : bool :=
  bool_decide (is_Some (ms_stream_versions s !! sid)).

Definition delete_stream (sid : StreamId) (s : InMemoryEventStore) : InMemoryEventStore :=
  mkStore (ms_events s) (delete sid (ms_stream_versions s)) (delete sid (ms_stream_events s))
    (ms_aggregate_events s) (ms_global_sequence s).

(** ** The invariant *)

(** Position [i] of the log carries the sequence number [i + 1]. *)
Definition log_numbered (s : InMemoryEventStore) : Prop :=
  ms_global_sequence s = Z.of_nat (length (ms_events s)) /\
  forall i e, ms_events s !! i = Some e -> global_sequence e = Z.of_nat i + 1.

(** A stream's indices exist and carry the versions [1, 2, ...] in order; its recorded
    version is their number. *)
Record stream_numbered (s : InMemoryEventStore) (sid : StreamId) : Prop := {
  sn_event k idx : default [] (ms_stream_events s !! sid) !! k = Some idx ->
    exists e, ms_events s !! idx = Some e /\ stream_version e = Z.of_nat k + 1;
  sn_count : default 0 (ms_stream_versions s !! sid) =
    Z.of_nat (length (default [] (ms_stream_events s !! sid)))
}.

Definition memory_ok (s : InMemoryEventStore) : Prop :=
  log_numbered s /\ forall sid, stream_numbered s sid.

Lemma memory_ok_new : memory_ok store_new.
Proof.
  split; [split; [done|by intros i e Hi]|]. intros sid.
  split; [|done]. intros k idx. unfold store_new. cbn [ms_stream_events].
  rewrite lookup_empty. by intros Hk.
Qed.

(** What indexing a batch does to the stream index. *)
Lemma index_events_stream fresh sid start i es bs ba :
  (index_events fresh sid start i es bs ba).1 =
  match es with
  | [] => bs
  | _ => <[sid := default [] (bs !! sid) ++ seq (start + i) (length es)]> bs
  end.
Proof.
  revert i bs ba. induction es as [|e es IH]; intros i bs ba; [done|].
  cbn [index_events]. rewrite IH. unfold push_index. destruct es as [|e' es]; [done|].
  rewrite lookup_insert_eq, insert_insert_eq. cbn [default from_option].
  unfold id. rewrite <-app_assoc. cbn [length seq]. by rewrite Nat.add_succ_r.
Qed.

Lemma index_events_lookup fresh sid start i es bs ba sid' :
  default [] ((index_events fresh sid start i es bs ba).1 !! sid') =
  default [] (bs !! sid') ++ (if decide (sid' = sid) then seq (start + i) (length es) else []).
Proof.
  rewrite index_events_stream. destruct es as [|e es].
  { cbn [length seq]. destruct (decide (sid' = sid)); by rewrite app_nil_r. }
  case_decide as Hs; [subst|].
  - by rewrite lookup_insert_eq.
  - by rewrite lookup_insert_ne, app_nil_r by done.
Qed.

(** ** Appending *)

(** The state an accepted append leaves. *)
Definition appended (fresh : nat -> EntityId) (sid : StreamId) (es : list EventEnvelope)
    (s : InMemoryEventStore) : InMemoryEventStore :=
  (append fresh sid None es s).2.

Definition version (sid : StreamId) (s : InMemoryEventStore) : Z :=
  default 0 (ms_stream_versions s !! sid).
Definition indices (sid : StreamId) (s : InMemoryEventStore) : list nat :=
  default [] (ms_stream_events s !! sid).

Lemma append_conflicts fresh sid expected es s :
  version sid s <> expected ->
  append fresh sid (Some expected) es s = (inr (ConcurrencyConflict expected (version sid s)), s).
Proof. intros Hne. unfold append. by rewrite decide_True. Qed.

Lemma append_accepts fresh sid expected es s :
  expected = None \/ expected = Some (version sid s) ->
  append fresh sid expected es s = (inl tt, appended fresh sid es s).
Proof.
  unfold appended, append. intros [->| ->]; [done|]. unfold version.
  by rewrite decide_False by (intros Hne; by apply Hne).
Qed.

Lemma appended_fields fresh sid es s :
  let s' := appended fresh sid es s in
  ms_events s' = ms_events s ++ stamp (version sid s + 1) (ms_global_sequence s + 1) es /\
  ms_global_sequence s' = ms_global_sequence s + Z.of_nat (length es) /\
  version sid s' = version sid s + Z.of_nat (length es) /\
  indices sid s' = indices sid s ++ seq (length (ms_events s)) (length es) /\
  forall sid', sid' <> sid -> version sid' s' = version sid' s /\ indices sid' s' = indices sid' s.
Proof.
  cbv zeta. unfold appended, append, version, indices.
  set (st := stamp _ _ es).
  pose proof (index_events_lookup fresh sid (length (ms_events s)) 0 st (ms_stream_events s)
    (ms_aggregate_events s)) as Hi.
  destruct (index_events _ _ _ _ _ _ _) as [bs ba]. cbn [fst snd] in *.
  cbn [ms_events ms_global_sequence ms_stream_versions ms_stream_events].
  assert (Hlen : length st = length es) by apply stamp_length. rewrite Hlen in *.
  split; [done|]. split; [done|]. split; [rewrite lookup_insert_eq; cbn; lia|].
  split; [rewrite Hi, decide_True by done; by rewrite Nat.add_0_r|].
  intros sid' Hne. rewrite lookup_insert_ne by done. split; [done|].
  rewrite Hi, decide_False by done. by rewrite app_nil_r.
Qed.

Lemma appended_ok fresh sid es s : memory_ok s -> memory_ok (appended fresh sid es s).
Proof.
  intros [[Hg Hlog] Hst]. destruct (appended_fields fresh sid es s) as (He & Hgs & Hv & Hi & Ho).
  set (s' := appended fresh sid es s) in *. split; [split|].
  - rewrite Hgs, He, length_app, stamp_length, Hg. lia.
  - intros i e. rewrite He, lookup_app_Some, stamp_lookup. intros [Hl|[Hle Hl]]; [by apply Hlog|].
    destruct (es !! _) as [e0|]; [|done]. injection Hl as <-. simpl. lia.
  - intros sid'. destruct (Hst sid') as [Hev Hcnt]. fold (indices sid' s) (version sid' s) in *.
    destruct (decide (sid' = sid)) as [->|Hne].
    2: { destruct (Ho sid' Hne) as [Hv' Hi']. split; fold (indices sid' s') (version sid' s').
         - rewrite Hi', He. intros k idx Hk. destruct (Hev k idx Hk) as (e & Hl & Hver).
           exists e. split; [by apply lookup_app_l_Some|done].
         - by rewrite Hv', Hi'. }
    split; fold (indices sid s') (version sid s').
    + rewrite Hi, He. intros k idx. rewrite lookup_app_Some. intros [Hk|[Hle Hk]].
      * destruct (Hev k idx Hk) as (e & Hl & Hver). exists e.
        split; [by apply lookup_app_l_Some|done].
      * apply lookup_seq in Hk as [-> Hlt].
        destruct (lookup_lt_is_Some_2 es (k - length (indices sid s))) as [e0 He0]; [lia|].
        eexists. split.
        -- rewrite lookup_app_r by lia. rewrite stamp_lookup.
           replace (length (ms_events s) + (k - length (indices sid s)) - length (ms_events s))%nat
             with (k - length (indices sid s))%nat by lia. by rewrite He0.
        -- simpl. lia.
    + rewrite Hv, Hi, length_app, length_seq. lia.
Qed.

Lemma delete_ok sid s : memory_ok s -> memory_ok (delete_stream sid s).
Proof.
  intros [Hlog Hst]. split; [done|]. intros sid'. destruct (Hst sid') as [Hev Hcnt].
  unfold delete_stream. split; cbn [ms_events ms_stream_events ms_stream_versions];
    (destruct (decide (sid' = sid)) as [->|Hne];
      [rewrite lookup_delete_eq|rewrite !lookup_delete_ne by done]); [done|done| |done].
  by rewrite lookup_delete_eq.
Qed.

(** ** Reading *)

Lemma index_valid sid s idx :
  memory_ok s -> idx ∈ indices sid s -> is_Some (ms_events s !! idx).
Proof.
  intros [_ Hst] Hin. apply list_elem_of_lookup in Hin as [k Hk].
  destruct (Hst sid) as [Hev _]. destruct (Hev k idx Hk) as (e & -> & _). by eexists.
Qed.

(** The k-th event of a stream has version [k + 1]. *)
Lemma events_at_lookup sid s k e :
  memory_ok s -> events_at s (indices sid s) !! k = Some e -> stream_version e = Z.of_nat k + 1.
Proof.
  intros Hok. unfold events_at. rewrite omap_total_lookup by (intros; by eapply index_valid).
  destruct (indices sid s !! k) as [idx|] eqn:Hk; [|done]. simpl. intros He.
  destruct Hok as [_ Hst]. destruct (Hst sid) as [Hev _].
  destruct (Hev k idx Hk) as (e' & He' & Hv). congruence.
Qed.

Lemma events_at_length sid s :
  memory_ok s -> Z.of_nat (length (events_at s (indices sid s))) = version sid s.
Proof.
  intros Hok. unfold events_at. rewrite omap_total_length by (intros; by eapply index_valid).
  destruct Hok as [_ Hst]. destruct (Hst sid) as [_ Hc]. symmetry. exact Hc.
Qed.

(** A list whose k-th element has version [z + k]: filtering from a version on drops a
    prefix. *)
Lemma filter_versions (l : list EventEnvelope) z from :
  (forall k e, l !! k = Some e -> stream_version e = z + Z.of_nat k) ->
  filter (fun e => from <= stream_version e) l = drop (Z.to_nat (from - z)) l.
Proof.
  revert z. induction l as [|e l IH]; intros z Hl; [by destruct (Z.to_nat _)|].
  pose proof (Hl 0%nat e eq_refl) as He. rewrite filter_cons.
  rewrite (IH (z + 1)) by (intros k e' Hk; rewrite (Hl (S k) e' Hk); lia).
  case_decide as Hd.
  - replace (Z.to_nat (from - (z + 1))) with 0%nat by lia.
    by replace (Z.to_nat (from - z)) with 0%nat by lia.
  - by replace (Z.to_nat (from - z)) with (S (Z.to_nat (from - (z + 1)))) by lia.
Qed.

(** A read is a slice of the stream. *)
Lemma read_slice sid from max s :
  memory_ok s ->
  read sid from max s =
    take_max max (drop (Z.to_nat (default 1 from - 1)) (events_at s (indices sid s))).
Proof.
  intros Hok. unfold read. fold (indices sid s). f_equal. apply filter_versions.
  intros k e Hk. rewrite (events_at_lookup sid s k e Hok Hk). lia.
Qed.

Lemma read_all sid s : memory_ok s -> read sid None None s = events_at s (indices sid s).
Proof. intros Hok. by rewrite read_slice. Qed.

Lemma omap_seq_app {A} (l l' : list A) :
  omap (fun idx => (l ++ l') !! idx) (seq (length l) (length l')) = l'.
Proof.
  revert l. induction l' as [|x l' IH]; intros l; [done|]. cbn [length seq].
  simpl. rewrite lookup_app_r by lia. rewrite Nat.sub_diag. simpl. f_equal.
  specialize (IH (l ++ [x])). rewrite length_app, <-app_assoc in IH. simpl in IH.
  by rewrite Nat.add_1_r in IH.
Qed.

Lemma events_at_prefix s s' l es :
  ms_events s' = ms_events s ++ es -> (forall idx, idx ∈ l -> is_Some (ms_events s !! idx)) ->
  events_at s' l = events_at s l.
Proof.
  intros He. unfold events_at. rewrite He. induction l as [|idx l IH]; intros Hl; [done|].
  simpl. destruct (Hl idx) as [e Hidx]; [left|]. rewrite (lookup_app_l_Some _ _ _ _ Hidx), Hidx.
  f_equal. apply IH. intros i Hi. apply Hl. by right.
Qed.

Lemma appended_read fresh sid es s :
  memory_ok s ->
  read sid None None (appended fresh sid es s) =
    read sid None None s ++ stamp (version sid s + 1) (ms_global_sequence s + 1) es /\
  forall sid', sid' <> sid -> read sid' None None (appended fresh sid es s) = read sid' None None s.
Proof.
  intros Hok. pose proof (appended_ok fresh sid es s Hok) as Hok'.
  destruct (appended_fields fresh sid es s) as (He & _ & _ & Hi & Ho). split.
  - rewrite !read_all by done. rewrite Hi. unfold events_at at 1. rewrite omap_app.
    fold (events_at (appended fresh sid es s) (indices sid s)). f_equal.
    + eapply events_at_prefix; [exact He|]. intros idx. by apply index_valid.
    + rewrite He. rewrite <-(stamp_length (version sid s + 1) (ms_global_sequence s + 1) es).
      apply omap_seq_app.
  - intros sid' Hne. destruct (Ho sid' Hne) as [_ Hi']. rewrite !read_all, Hi' by done.
    eapply events_at_prefix; [exact He|]. intros idx. by apply index_valid.
Qed.

(** ** The store implements the interface *)

#[export] Instance memory_store : EventStore InMemoryEventStore := {
  store_ok := memory_ok;
  append_events := append;
  read_stream := read;
  get_stream_version := stream_version_of
}.

#[export] Instance memory_store_laws : EventStoreLaws InMemoryEventStore.
Proof.
  split.
  - intros. by apply append_conflicts.
  - intros fresh sid expected es s Hok Hexp. exists (appended fresh sid es s), (ms_global_sequence s + 1).
    destruct (appended_fields fresh sid es s) as (_ & _ & Hv & _ & Ho).
    destruct (appended_read fresh sid es s Hok) as [Hr Hr'].
    split; [by apply append_accepts|]. split; [by apply appended_ok|].
    split; [exact Hr|]. split; [exact Hv|]. intros sid' Hne.
    split; [by apply Hr'|]. by apply Ho.
Qed.

(** ** Snapshots *)

Section Snapshots.
Context `{Snapshot Snap}.

Definition snapshots_new : gmap EntityId (list Snap) := ∅.

Definition save_snapshot (snapshot : Snap) (ss : gmap EntityId (list Snap)) : gmap EntityId (list Snap) :=
  <[sn_aggregate_id snapshot := default [] (ss !! sn_aggregate_id snapshot) ++ [snapshot]]> ss.

(** The latest saved. *)
Definition load_snapshot (aggregate_id : EntityId) (ss : gmap EntityId (list Snap)) : option Snap :=
  match ss !! aggregate_id with Some l => last l | None => None end.

(** [Iterator::max_by_key]: the last of the greatest. *)
Definition max_step (acc : option Snap) (s : Snap) : option Snap :=
  match acc with
  | Some m => if decide (sn_version m <= sn_version s) then Some s else acc
  | None => Some s
  end.

Definition load_snapshot_at_version (aggregate_id : EntityId) (v : Z) (ss : gmap EntityId (list Snap))
    : option Snap :=
  match ss !! aggregate_id with
  | Some l => foldl max_step None (filter (fun s => sn_version s <= v) l)
  | None => None
  end.

Definition version_le (a b : Snap) : Prop := sn_version a <= sn_version b.
#[local] Instance version_le_dec : RelDecision version_le.
Proof. intros a b. unfold version_le. apply _. Defined.
#[local] Instance version_le_trans : Transitive version_le.
Proof. unfold version_le. intros a b c ? ?. lia. Qed.
#[local] Instance version_le_total : Total version_le.
Proof. unfold version_le. intros a b. lia. Qed.

Definition cleanup_snapshots (aggregate_id : EntityId) (keep_count : nat) (ss : gmap EntityId (list Snap))
    : gmap EntityId (list Snap) :=
  match ss !! aggregate_id with
  | Some l =>
      if decide (keep_count < length l)%nat then
        let sorted := merge_sort version_le l in
        <[aggregate_id := drop (length sorted - keep_count) sorted]> ss
      else ss
  | None => ss
  end.

Lemma max_step_spec l acc :
  match foldl max_step acc l with
  | Some m => (acc = Some m \/ m ∈ l) /\ (forall s, s ∈ l -> sn_version s <= sn_version m) /\
              (forall a, acc = Some a -> sn_version a <= sn_version m)
  | None => acc = None /\ l = []
  end.
Proof.
  revert acc. induction l as [|s l IH]; intros acc; simpl.
  { destruct acc as [a|]; [|done]. split; [by left|]. split; [by intros s ?%not_elem_of_nil|].
    intros ? [= ->]. lia. }
  specialize (IH (max_step acc s)). destruct (foldl max_step (max_step acc s) l) as [m|].
  2: { destruct IH as [IH _]. unfold max_step in IH. destruct acc; [by case_decide|done]. }
  destruct IH as (Hin & Hmax & Hacc).
  assert (Hs : sn_version s <= sn_version m /\ forall a, acc = Some a -> sn_version a <= sn_version m).
  { unfold max_step in Hacc. destruct acc as [a|]; [case_decide|].
    - specialize (Hacc s eq_refl). split; [done|]. intros ? [= <-]. lia.
    - specialize (Hacc a eq_refl). split; [lia|]. by intros ? [= <-].
    - by split; [apply Hacc|]. }
  destruct Hs as [Hs Ha]. split; [|split; [|done]].
  - destruct Hin as [Hin|Hin]; [|right; by right].
    unfold max_step in Hin. destruct acc as [a|]; [case_decide|]; injection Hin as ->;
      [right; left|by left|right; left].
  - intros s' [->|Hs']%elem_of_cons; [done|by apply Hmax].
Qed.

(** Cleaning up keeps the newest snapshots and no lookup of a kept version changes. *)
Lemma cleanup_spec aggregate_id keep_count ss l :
  ss !! aggregate_id = Some l ->
  exists dropped kept, cleanup_snapshots aggregate_id keep_count ss !! aggregate_id = Some kept /\
    dropped ++ kept ≡ₚ l /\ length kept = Nat.min keep_count (length l) /\
    forall d k, d ∈ dropped -> k ∈ kept -> sn_version d <= sn_version k.
Proof.
  intros Hl. unfold cleanup_snapshots. rewrite Hl. case_decide as Hk.
  - exists (take (length (merge_sort version_le l) - keep_count) (merge_sort version_le l)),
      (drop (length (merge_sort version_le l) - keep_count) (merge_sort version_le l)).
    cbv zeta. rewrite lookup_insert_eq. split; [done|].
    split; [rewrite take_drop; apply merge_sort_Permutation|]. split.
    { rewrite length_drop. rewrite (Permutation_length (merge_sort_Permutation version_le l)). lia. }
    intros d k Hd Hkk. pose proof (StronglySorted_merge_sort version_le l) as HS.
    rewrite <-(take_drop (length (merge_sort version_le l) - keep_count)) in HS.
    eapply StronglySorted_app_1_elem_of in HS; [exact HS|exact Hd|exact Hkk].
  - exists [], l. split; [done|]. split; [done|]. split; [lia|]. by intros d k ?%not_elem_of_nil.
Qed.
End Snapshots.

(** ** Histories of the store *)

Inductive StoreOp : Type :=
  | OAppend (fresh : nat -> EntityId) (sid : StreamId) (expected : option Z)
      (es : list EventEnvelope)
  | ODelete (sid : StreamId)
  | OClear.

Definition apply_op (s : InMemoryEventStore) (op : StoreOp) : InMemoryEventStore :=
  match op with
  | OAppend fresh sid expected es => (append fresh sid expected es s).2
  | ODelete sid => delete_stream sid s
  | OClear => clear s
  end.

Definition run_store (ops : list StoreOp) : InMemoryEventStore := foldl apply_op store_new ops.

Lemma apply_op_ok s op : memory_ok s -> memory_ok (apply_op s op).
Proof.
  intros Hok. destruct op as [fresh sid expected es|sid|]; simpl.
  - destruct expected as [x|]; [|by apply appended_ok].
    destruct (decide (version sid s = x)) as [<-|Hne].
    + rewrite append_accepts by (by right). by apply appended_ok.
    + by rewrite append_conflicts.
  - by apply delete_ok.
  - apply memory_ok_new.
Qed.

Lemma run_store_ok ops : memory_ok (run_store ops).
Proof.
  unfold run_store. generalize memory_ok_new. generalize store_new.
  induction ops as [|op ops IH]; intros s Hok; [done|]. by apply IH, apply_op_ok.
Qed.

(** the log never lies.  After any history of appends, deletions and resets the
    events carry the global numbers 1, 2, ... in order, so reading from a sequence number
    misses nothing and repeats nothing; and each stream's events carry the versions
    1, 2, ... up to the stream's version, so any read of it is the requested slice. *)
Theorem memory_store_numbered (ops : list StoreOp) (sid : StreamId) (from : option Z)
    (from_sequence : Z) (max : option nat) :
  let s := run_store ops in
  get_latest_sequence s = Z.of_nat (event_count s) /\
  (forall i e, ms_events s !! i = Some e -> global_sequence e = Z.of_nat i + 1) /\
  read_events_from_sequence from_sequence max s =
    take_max max (drop (Z.to_nat (from_sequence - 1)) (ms_events s)) /\
  (forall k e, read sid None None s !! k = Some e -> stream_version e = Z.of_nat k + 1) /\
  Z.of_nat (length (read sid None None s)) = default 0 (stream_version_of sid s) /\
  read sid from max s =
    take_max max (drop (Z.to_nat (default 1 from - 1)) (read sid None None s)).
Proof.
  intros s. pose proof (run_store_ok ops) as Hok. fold s in Hok. rewrite (read_all sid s Hok).
  pose proof Hok as [[Hg Hlog] _].
  split; [done|]. split; [exact Hlog|]. split.
  { unfold read_events_from_sequence. f_equal.
    assert (Hf : forall l z, (forall k e, l !! k = Some e -> global_sequence e = z + Z.of_nat k) ->
      filter (fun e => from_sequence <= global_sequence e) l = drop (Z.to_nat (from_sequence - z)) l).
    { induction l as [|e l IH]; intros z Hl; [by destruct (Z.to_nat _)|].
      pose proof (Hl 0%nat e eq_refl) as He. rewrite filter_cons.
      rewrite (IH (z + 1)) by (intros k e' Hk; rewrite (Hl (S k) e' Hk); lia).
      case_decide.
      - replace (Z.to_nat (from_sequence - (z + 1))) with 0%nat by lia.
        by replace (Z.to_nat (from_sequence - z)) with 0%nat by lia.
      - by replace (Z.to_nat (from_sequence - z))
          with (S (Z.to_nat (from_sequence - (z + 1)))) by lia. }
    apply Hf. intros k e Hk. rewrite (Hlog k e Hk). lia. }
  split; [by intros k e; apply events_at_lookup|].
  split; [by apply events_at_length|]. by apply read_slice.
Qed.

(** appending is optimistic and exact.  After any history, a batch whose expected
    version is not the stream's is refused with both versions and changes nothing; any
    other batch is appended whole: its stream grows by exactly these events, numbered
    from the current version, the log grows by them, and every other stream stays. *)
Theorem append_exact (ops : list StoreOp) (fresh : nat -> EntityId) (sid : StreamId)
    (expected : option Z) (es : list EventEnvelope) :
  let s := run_store ops in
  let current := default 0 (stream_version_of sid s) in
  match append fresh sid expected es s with
  | (inr e, s') => exists x, expected = Some x /\ x <> current /\
      e = ConcurrencyConflict x current /\ s' = s
  | (inl _, s') => (expected = None \/ expected = Some current) /\
      stream_version_of sid s' = Some (current + Z.of_nat (length es)) /\
      read sid None None s' =
        read sid None None s ++ stamp (current + 1) (get_latest_sequence s + 1) es /\
      ms_events s' = ms_events s ++ stamp (current + 1) (get_latest_sequence s + 1) es /\
      forall sid', sid' <> sid -> read sid' None None s' = read sid' None None s /\
        stream_version_of sid' s' = stream_version_of sid' s
  end.
Proof.
  intros s current. pose proof (run_store_ok ops) as Hok. fold s in Hok.
  assert (Hacc : expected = None \/ expected = Some current ->
    append fresh sid expected es s = (inl tt, appended fresh sid es s)) by apply append_accepts.
  assert (Hcase : (expected = None \/ expected = Some current) \/
                  exists x, expected = Some x /\ x <> current).
  { destruct expected as [x|]; [|by left; left].
    destruct (decide (x = current)) as [->|]; [left; by right|right; by exists x]. }
  destruct Hcase as [Ho|(x & -> & Hx)].
  - rewrite (Hacc Ho). split; [done|]. destruct (appended_read fresh sid es s Hok) as [Hr Hr'].
    destruct (appended_fields fresh sid es s) as (He & _).
    assert (Hv : forall sid', stream_version_of sid' (appended fresh sid es s) =
      if decide (sid' = sid) then Some (current + Z.of_nat (length es)) else stream_version_of sid' s).
    { intros sid'. unfold stream_version_of, appended, append, current, stream_version_of.
      destruct (index_events _ _ _ _ _ _ _). cbn [snd ms_stream_versions].
      rewrite stamp_length. case_decide as Hd; [subst; rewrite lookup_insert_eq; f_equal; lia|].
      by rewrite lookup_insert_ne. }
    split; [by rewrite Hv, decide_True|]. split; [exact Hr|]. split; [exact He|].
    intros sid' Hne. split; [by apply Hr'|]. by rewrite Hv, decide_False.
  - rewrite append_conflicts by (by intros <-). by exists x.
Qed.

(** a defect.  The store answers [read_aggregate_events], documented as the events
    of an aggregate, from the user recorded in the metadata: an event of any aggregate
    caused by a user is found under the user's id, and under no other id, the aggregate's
    own included. *)
Theorem aggregate_index_is_user_index (fresh : nat -> EntityId) (sid : StreamId)
    (e : EventEnvelope) (user aggregate : EntityId) :
  md_user_id (metadata e) = Some user -> aggregate <> user ->
  let s := (append fresh sid None [e] store_new).2 in
  read_aggregate_events user None s = [restamp 1 1 e] /\
  read_aggregate_events aggregate None s = [] /\
  read sid None None s = [restamp 1 1 e].
Proof.
  intros Hu Hne s. unfold s, append. cbn [stamp index_events metadata restamp store_new
    ms_stream_versions ms_stream_events ms_aggregate_events ms_events ms_global_sequence
    default from_option length].
  rewrite Hu, lookup_empty. cbn [default from_option snd id].
  unfold read_aggregate_events, read, push_index, events_at.
  cbn [ms_aggregate_events ms_events ms_stream_events].
  rewrite !lookup_empty, !lookup_insert_eq, lookup_insert_ne, lookup_empty by done.
  done.
Qed.

(** cleaning up snapshots keeps the newest [keep_count] and nothing else: the store
    splits into kept and dropped snapshots, no kept one is older than a dropped one, and
    a lookup at a version returns a snapshot of at most that version, the newest kept,
    exactly when there is one. *)
Theorem cleanup_keeps_newest `{Snapshot Snap} (aggregate_id : EntityId) (keep_count : nat)
    (v : Z) (ss : gmap EntityId (list Snap)) (l : list Snap) :
  ss !! aggregate_id = Some l ->
  let ss' := cleanup_snapshots aggregate_id keep_count ss in
  exists dropped kept, ss' !! aggregate_id = Some kept /\ dropped ++ kept ≡ₚ l /\
    length kept = Nat.min keep_count (length l) /\
    (forall d k, d ∈ dropped -> k ∈ kept -> sn_version d <= sn_version k) /\
    match load_snapshot_at_version aggregate_id v ss' with
    | Some m => m ∈ kept /\ sn_version m <= v /\
        (forall k, k ∈ kept -> sn_version k <= v -> sn_version k <= sn_version m)
    | None => forall k, k ∈ kept -> v < sn_version k
    end.
Proof.
  intros Hl ss'. destruct (cleanup_spec aggregate_id keep_count ss l Hl)
    as (dropped & kept & Hk & Hperm & Hlen & Hord).
  exists dropped, kept. do 4 (split; [done|]). unfold load_snapshot_at_version.
  unfold ss'. rewrite Hk.
  pose proof (max_step_spec (filter (fun s => sn_version s <= v) kept) None) as Hm.
  destruct (foldl _ _ _) as [m|].
  - destruct Hm as ([?|Hin] & Hmax & _); [done|]. apply list_elem_of_filter in Hin as [Hv Hin].
    split; [done|]. split; [done|]. intros k Hkk Hkv. apply Hmax. by apply list_elem_of_filter.
  - destruct Hm as [_ Hnil]. intros k Hkk. destruct (decide (v < sn_version k)); [done|].
    assert (Hbad : k ∈ filter (fun s => sn_version s <= v) kept)
      by (apply list_elem_of_filter; split; [lia|done]).
    rewrite Hnil in Hbad. by apply not_elem_of_nil in Hbad.
Qed.

(** ** Witnesses *)
Module MemoryStoreExamples.

Definition env (user : option EntityId) : EventEnvelope :=
  mkEnvelope 11 7 0 0 Updated (mkMetadata user None None None None ∅) VNull 0.

Lemma aggregate_index_is_user_index_witness :
  read_aggregate_events 42 None (append (fun _ => 0) 7 None [env (Some 5)] store_new).2 = [] /\
  read_aggregate_events 5 None (append (fun _ => 0) 7 None [env (Some 5)] store_new).2 =
    [restamp 1 1 (env (Some 5))].
Proof.
  destruct (aggregate_index_is_user_index (fun _ => 0) 7 (env (Some 5)) 5 42) as (H1 & H2 & _);
    [reflexivity|lia|]. split; [exact H2|exact H1].
Defined.

#[local] Instance z_snapshot : Snapshot Z := {| sn_aggregate_id := fun _ => 1; sn_version := fun z => z |}.

Lemma cleanup_keeps_newest_witness :
  exists kept, cleanup_snapshots 1 2 {[1 := [5; 3; 9; 4]]} !! 1 = Some kept /\ length kept = 2%nat.
Proof.
  destruct (cleanup_keeps_newest 1 2 6 {[1 := [5; 3; 9; 4]]} [5; 3; 9; 4])
    as (dropped & kept & Hk & _ & Hlen & _); [reflexivity|].
  exists kept. split; [exact Hk|exact Hlen].
Defined.
End MemoryStoreExamples.
