(* ===== verification/Aggregate.v ===== *)
(** * Event-sourced aggregates and their repository ([atomo_server/src/aggregate.rs])

    The traits [Aggregate] and [DomainEvent] are classes, so a type's own [apply] is a
    parameter; a method on [&mut self] that fails returns the state it left behind.  The
    repository is written and proved against the [EventStore] interface.  [load] and
    [exists] are [todo!()] in the source and have no model. *)

From S2P Require Import Prelude Json MemoryStore.

Class Aggregate (T E : Type) : Type := {
  ag_apply : E -> T -> (unit + AtomoError) * T;
  ag_set_version : Z -> T -> T;
  ag_is_valid : T -> bool
}.

Section AggregateBase.
Context `{DomainEvent E} `{Aggregate T E}.

Record AggregateBase : Type := mkAggregate {
  ab_data : T;
  ab_version : Z;
  ab_uncommitted : list E;
  ab_stream_id : StreamId
}.

Definition aggregate_new (data : T) (sid : StreamId) : AggregateBase := mkAggregate data 0 [] sid.

(** [AggregateRoot::apply_event]: a historical event brings its own version. *)
Definition apply_event (e : E) (a : AggregateBase) : (unit + AtomoError) * AggregateBase :=
  match ag_apply e (ab_data a) with
  | (inl _, data) =>
      let v := de_aggregate_version e in
      (inl tt, mkAggregate (ag_set_version v data) v (ab_uncommitted a) (ab_stream_id a))
  | (inr err, data) =>
      (inr err, mkAggregate data (ab_version a) (ab_uncommitted a) (ab_stream_id a))
  end.

Definition mark_events_as_committed (a : AggregateBase) : AggregateBase :=
  mkAggregate (ab_data a) (ab_version a) [] (ab_stream_id a).

Fixpoint replay (es : list E) (a : AggregateBase) : AggregateBase + AtomoError :=
  match es with
  | [] => inl a
  | e :: rest =>
      match apply_event e a with
      | (inl _, a) => replay rest a
      | (inr err, _) => inr err
      end
  end.

Definition from_events (initial_state : T) (sid : StreamId) (es : list E)
    : AggregateBase + AtomoError :=
  match replay es (aggregate_new initial_state sid) with
  | inl a => inl (mark_events_as_committed a)
  | inr err => inr err
  end.

(** The loop of [apply_command]: an event that does not apply stops it where it stands. *)
Fixpoint apply_new_events (es : list E) (a : AggregateBase)
    : (unit + AtomoError) * AggregateBase :=
  match es with
  | [] => (inl tt, a)
  | e :: rest =>
      match ag_apply e (ab_data a) with
      | (inr err, data) =>
          (inr err, mkAggregate data (ab_version a) (ab_uncommitted a) (ab_stream_id a))
      | (inl _, data) =>
          let v := ab_version a + 1 in
          apply_new_events rest
            (mkAggregate (ag_set_version v data) v (ab_uncommitted a ++ [e]) (ab_stream_id a))
      end
  end.

Definition invalid_state : AtomoError := Domain "Aggregate is in invalid state".

(** The handler may change the data and returns the events of the command. *)
Definition apply_command {C : Type} (command : C) (handler : C -> T -> (list E + AtomoError) * T)
    (a : AggregateBase) : (unit + AtomoError) * AggregateBase :=
  if negb (ag_is_valid (ab_data a)) then (inr invalid_state, a)
  else
    match handler command (ab_data a) with
    | (inr err, data) =>
        (inr err, mkAggregate data (ab_version a) (ab_uncommitted a) (ab_stream_id a))
    | (inl es, data) =>
        apply_new_events es
          (mkAggregate data (ab_version a) (ab_uncommitted a) (ab_stream_id a))
    end.

(** [fresh] are the ids of the envelopes and [now] their clock. *)
Definition uncommitted_envelopes (fresh : nat -> EntityId) (now : Timestamp) (a : AggregateBase)
    : list EventEnvelope :=
  imap (fun i e => from_domain_event (fresh i) now e
          (ab_version a - Z.of_nat (length (ab_uncommitted a)) + Z.of_nat i + 1) 0)
    (ab_uncommitted a).

(** ** The repository, over any event store *)

Definition save `{EventStore Store} (fresh fresh' : nat -> EntityId) (now : Timestamp)
    (a : AggregateBase) (s : Store) : (unit + AtomoError) * AggregateBase * Store :=
  match ab_uncommitted a with
  | [] => (inl tt, a, s)
  | _ =>
      let envelopes := uncommitted_envelopes fresh now a in
      match append_events fresh' (ab_stream_id a)
              (Some (ab_version a - Z.of_nat (length envelopes))) envelopes s with
      | (inl _, s') => (inl tt, mark_events_as_committed a, s')
      | (inr err, s') => (inr err, a, s')
      end
  end.

(** ** Lemmas *)

(** The version of the stored stream this aggregate was built on. *)
Definition base_version (a : AggregateBase) : Z :=
  ab_version a - Z.of_nat (length (ab_uncommitted a)).

Lemma envelopes_length fresh now a :
  length (uncommitted_envelopes fresh now a) = length (ab_uncommitted a).
Proof. unfold uncommitted_envelopes. apply length_imap. Qed.

(** The numbers the aggregate gives its envelopes are those the store assigns. *)
Lemma envelopes_versions fresh now a k e :
  uncommitted_envelopes fresh now a !! k = Some e ->
  stream_version e = base_version a + Z.of_nat k + 1.
Proof.
  unfold uncommitted_envelopes. rewrite list_lookup_imap.
  destruct (ab_uncommitted a !! k) as [ev|]; [|done]. intros [= <-]. simpl. unfold base_version. lia.
Qed.

Lemma apply_new_events_version es a a' :
  apply_new_events es a = (inl tt, a') ->
  ab_version a' = ab_version a + Z.of_nat (length es) /\
  ab_uncommitted a' = ab_uncommitted a ++ es /\ ab_stream_id a' = ab_stream_id a.
Proof.
  revert a. induction es as [|e es IH]; intros a; simpl.
  { intros [= <-]. rewrite app_nil_r. split; [lia|done]. }
  destruct (ag_apply e (ab_data a)) as [[[]|err] data]; [|done].
  intros Ha. apply IH in Ha as (Hv & Hu & Hs). simpl in *.
  rewrite Hv, Hu, <-app_assoc. split; [lia|done].
Qed.

(** Replaying the events of a successful command performs the same data changes when the
    events carry the versions the command gave them. *)
Lemma apply_new_events_replay es a a' b :
  apply_new_events es a = (inl tt, a') ->
  (forall k e, es !! k = Some e -> de_aggregate_version e = ab_version a + Z.of_nat k + 1) ->
  ab_data b = ab_data a -> ab_version b = ab_version a ->
  exists b', replay es b = inl b' /\ ab_data b' = ab_data a' /\ ab_version b' = ab_version a' /\
    ab_stream_id b' = ab_stream_id b.
Proof.
  revert a b. induction es as [|e es IH]; intros a b; simpl.
  { intros [= <-] _ Hd Hv. by exists b. }
  intros Ha Hvs Hd Hv. unfold apply_event. rewrite Hd.
  destruct (ag_apply e (ab_data a)) as [[[]|err] data]; [|done].
  assert (He : de_aggregate_version e = ab_version a + 1)
    by (rewrite (Hvs 0%nat e eq_refl); lia).
  eapply IH in Ha as (b' & Hr & Hd' & Hv' & Hs').
  - exists b'. split; [exact Hr|]. by split; [|split].
  - intros k e' Hk. simpl. rewrite (Hvs (S k) e' Hk). lia.
  - simpl. by rewrite He.
  - simpl. by rewrite He.
Qed.
End AggregateBase.
#[global] Arguments AggregateBase : clear implicits.

(** A command whose later event does not apply fails and keeps the events before it, data,
    version and pending list: the next save stores that prefix. *)
Lemma failed_command_keeps_prefix `{DomainEvent E} `{Aggregate T E} (es1 es2 : list E) (e : E)
    (a a1 : AggregateBase E T) (err : AtomoError) (data : T) :
  apply_new_events es1 a = (inl tt, a1) -> ag_apply e (ab_data a1) = (inr err, data) ->
  exists a2, apply_new_events (es1 ++ e :: es2) a = (inr err, a2) /\
    ab_uncommitted a2 = ab_uncommitted a ++ es1 /\
    ab_version a2 = ab_version a + Z.of_nat (length es1).
Proof.
  revert a. induction es1 as [|e1 es1 IH]; intros a; simpl.
  - intros [= <-] ->. eexists. split; [done|]. simpl. rewrite app_nil_r. split; [done|lia].
  - destruct (ag_apply e1 (ab_data a)) as [[[]|?] d]; [|done]. intros Ha He.
    destruct (IH _ Ha He) as (a2 & -> & Hu & Hv). exists a2. simpl in *.
    rewrite Hu, Hv, <-app_assoc. split; [done|]. split; [done|lia].
Qed.

(** C7: a new aggregate is the events of its first command.  If a command on a new aggregate
    succeeds, its handler leaves the data it is handed alone (the code would let it change
    them) and its events are numbered from one, then rebuilding an aggregate from those
    events gives exactly the aggregate the command left, as if saved: same data, same
    version, same stream, nothing pending. *)
Theorem replay_reconstructs `{DomainEvent E} `{Aggregate T E} {C : Type} (data : T)
    (sid : StreamId) (command : C) (handler : C -> T -> (list E + AtomoError) * T) (es : list E)
    (a : AggregateBase E T) :
  handler command data = (inl es, data) ->
  apply_command command handler (aggregate_new data sid) = (inl tt, a) ->
  (forall k e, es !! k = Some e -> de_aggregate_version e = Z.of_nat k + 1) ->
  from_events data sid es = inl (mark_events_as_committed a) /\ ab_uncommitted a = es.
Proof.
  intros Hh Hc Hv. unfold apply_command in Hc. cbn [aggregate_new ab_data] in Hc.
  destruct (negb _); [done|]. rewrite Hh in Hc.
  change (apply_new_events es (aggregate_new data sid : AggregateBase E T) = (inl tt, a)) in Hc.
  pose proof (apply_new_events_version es _ a Hc) as (_ & Hu & Hs).
  destruct (apply_new_events_replay es _ a (aggregate_new data sid) Hc)
    as (b & Hr & Hd & Hbv & Hbs); [|done|done|].
  { intros k e Hk. simpl. rewrite (Hv k e Hk). lia. }
  split; [|exact Hu]. unfold from_events. rewrite Hr. f_equal.
  unfold mark_events_as_committed. rewrite Hd, Hbv, Hbs. by rewrite Hs.
Qed.

(** C6: no update is lost.  Over any event store that keeps its promise: when two
    aggregates were built on the same version of the same stream and both have pending
    events, the first save stores exactly its events with the versions the aggregate gave
    them and clears them, and the second is refused with a version conflict and changes
    neither the store nor the aggregate, which keeps its events. *)
Theorem save_no_lost_update `{DomainEvent E} `{Aggregate T E} `{EventStoreLaws Store}
    (fresh1 fresh1' fresh2 fresh2' : nat -> EntityId) (now1 now2 : Timestamp)
    (a b : AggregateBase E T) (s : Store) :
  store_ok s -> ab_stream_id b = ab_stream_id a ->
  base_version a = current_version (ab_stream_id a) s ->
  base_version b = current_version (ab_stream_id a) s ->
  ab_uncommitted a <> [] -> ab_uncommitted b <> [] ->
  exists s' g, save fresh1 fresh1' now1 a s = (inl tt, mark_events_as_committed a, s') /\
    store_ok s' /\
    history (ab_stream_id a) s' = history (ab_stream_id a) s ++
      stamp (base_version a + 1) g (uncommitted_envelopes fresh1 now1 a) /\
    current_version (ab_stream_id a) s' = ab_version a /\
    save fresh2 fresh2' now2 b s' =
      (inr (ConcurrencyConflict (base_version b) (ab_version a)), b, s').
Proof.
  intros Hok Hsid Ha Hb Hna Hnb.
  assert (Hexp : forall fresh now (c : AggregateBase E T),
    ab_version c - Z.of_nat (length (uncommitted_envelopes fresh now c)) = base_version c)
    by (intros; by rewrite envelopes_length).
  destruct (append_accepted fresh1' (ab_stream_id a) (Some (base_version a))
    (uncommitted_envelopes fresh1 now1 a) s Hok) as (s' & g & Happ & Hok' & Hh & Hv & _).
  { right. by rewrite Ha. }
  rewrite envelopes_length in Hv.
  assert (Hcur : current_version (ab_stream_id a) s' = ab_version a).
  { rewrite Hv, <-Ha. unfold base_version. lia. }
  exists s', g. split.
  { unfold save. rewrite Hexp, Happ. by destruct (ab_uncommitted a). }
  split; [done|]. split; [by rewrite Ha|]. split; [done|].
  unfold save. rewrite Hexp, Hsid, append_conflict.
  - rewrite Hcur. by destruct (ab_uncommitted b).
  - rewrite Hcur, Hb, <-Ha. unfold base_version.
    destruct (ab_uncommitted a); [done|]. simpl. lia.
Qed.

(** ** Witnesses: a counter whose events add to it, in the in-memory store *)
Module AggregateExamples.

Record Added : Type := mkAdded { ad_version : Z; ad_amount : Z }.
#[local] Instance added_event : DomainEvent Added := {|
  de_stream_id := fun _ => 7; de_event_type := fun _ => Updated;
  de_metadata := fun _ => metadata_default; de_payload := fun e => json_int (ad_amount e);
  de_aggregate_id := fun _ => 1; de_aggregate_version := ad_version |}.
#[local] Instance counter : Aggregate (Z * Z) Added := {|
  ag_apply := fun e d => (inl tt, (d.1 + ad_amount e, d.2));
  ag_set_version := fun v d => (d.1, v);
  ag_is_valid := fun _ => true |}.

Definition add (n : Z) (d : Z * Z) : (list Added + AtomoError) * (Z * Z) :=
  (inl [mkAdded 1 n; mkAdded 2 n], d).

Lemma replay_reconstructs_witness :
  from_events (0, 0) 7 [mkAdded 1 3; mkAdded 2 3] =
  inl (mkAggregate (6, 2) 2 [] 7).
Proof.
  refine (proj1 (replay_reconstructs (0, 0) 7 3 add [mkAdded 1 3; mkAdded 2 3]
    (mkAggregate (6, 2) 2 [mkAdded 1 3; mkAdded 2 3] 7) _ _ _)); [reflexivity|reflexivity|].
  intros [|[|k]] e; simpl; intros Hk; try discriminate Hk; injection Hk as <-; reflexivity.
Defined.

Definition a1 : AggregateBase Added (Z * Z) := mkAggregate (6, 2) 2 [mkAdded 1 3; mkAdded 2 3] 7.
Definition b1 : AggregateBase Added (Z * Z) := mkAggregate (5, 1) 1 [mkAdded 1 5] 7.
Definition ids (n : nat) : EntityId := Z.of_nat n.

Lemma save_no_lost_update_witness :
  exists s', (save ids ids 0 a1 store_new).2 = s' /\
    save ids ids 0 b1 s' = (inr (ConcurrencyConflict 0 2), b1, s').
Proof.
  destruct (save_no_lost_update ids ids ids ids 0 0 a1 b1 store_new)
    as (s' & g & Hs & _ & _ & _ & Hc); [apply memory_ok_new|reflexivity..|discriminate|discriminate|].
  exists s'. split; [by rewrite Hs|]. exact Hc.
Defined.
End AggregateExamples.
