(* ===== verification/Cache.v ===== *)
(** * The bounded read cache ([atomo/src/cache.rs])

    The state behind the lock and the generation counter beside it.  The generation is an
    atomic that writers advance without the lock, so an operation that reads it takes the
    value it read as an argument where another task may have advanced it since.  Clocks
    are nanoseconds; the serialized length of a value is a parameter.  The maintenance
    task is [reclaim] at any time; its start-once flag and the striped fill locks only
    schedule work and are left out. *)

From S2P Require Import Prelude Json.

Inductive CacheMode : Type := Strong | Eventual.
#[global] Instance CacheMode_eq_dec : EqDecision CacheMode.
Proof. solve_decision. Defined.

Record CachePolicyOverride : Type := mkPolicy {
  po_enabled : option bool;
  po_ttl_secs : option Z;
  po_tti_secs : option Z;
  po_refresh_after_secs : option Z;
  po_max_entry_bytes : option Z;
  po_max_entries : option Z;
  po_max_bytes : option Z
}.
Definition policy_default : CachePolicyOverride := mkPolicy None None None None None None None.

Record CacheConfig : Type := mkConfig {
  enabled : bool;
  mode : CacheMode;
  ttl_secs : Z;
  tti_secs : option Z;
  cleanup_interval_secs : Z;
  max_entries : Z;
  max_bytes : Z;
  max_entry_bytes : Z;
  refresh_after_secs : option Z;
  multi_instance : bool;
  models : gmap string CachePolicyOverride
}.

Definition config_default : CacheConfig :=
  mkConfig true Strong 60 None 30 10000 (64 * 1024 * 1024) (1024 * 1024) None false ∅.

Definition validate (c : CacheConfig) : unit + string :=
  if decide (1 <= cleanup_interval_secs c <= 86400) then inl tt
  else inr "cache cleanup_interval_secs must be in 1..=86400"%string.

(** ** Configuration from the environment *)

Inductive ConfigError : Type :=
  | NotBool (key : string)       (* the variable must be true or false *)
  | NotInteger (key : string)    (* the variable must be a nonnegative integer *)
  | BadModels (cause : string)
  | BadMode (value : string)
  | BadInterval.

Section FromEnv.
Variable env : string -> option string.
(** [serde_json::from_str] on the overrides, its unknown fields refused. *)
Variable parse_models : string -> gmap string CachePolicyOverride + string.

Definition env_key (name : string) : string := "ATOMO_CACHE_" +:+ name.

(** A variable that overrides a field, if it is set. *)
Definition env_bool (name : string) (current : bool) : bool + ConfigError :=
  match env (env_key name) with
  | None => inl current
  | Some raw => match parse_bool raw with
                | Some b => inl b | None => inr (NotBool (env_key name)) end
  end.
Definition env_int (name : string) (current : option Z) : option Z + ConfigError :=
  match env (env_key name) with
  | None => inl current
  | Some raw => match parse_u64 raw with
                | Some n => inl (Some n) | None => inr (NotInteger (env_key name)) end
  end.

Definition bind_err {A B} (x : A + ConfigError) (k : A -> B + ConfigError) : B + ConfigError :=
  match x with inl a => k a | inr e => inr e end.
Notation "x <-- e ; k" := (bind_err e (fun x => k)) (at level 100, e at next level, right associativity).

Definition config_from_env : CacheConfig + ConfigError :=
  let d := config_default in
  en <-- env_bool "ENABLED" (enabled d);
  mi <-- env_bool "MULTI_INSTANCE" (multi_instance d);
  ttl <-- env_int "TTL_SECS" (Some (ttl_secs d));
  tti <-- env_int "TTI_SECS" (tti_secs d);
  ci <-- env_int "CLEANUP_INTERVAL_SECS" (Some (cleanup_interval_secs d));
  me <-- env_int "MAX_ENTRIES" (Some (max_entries d));
  mb <-- env_int "MAX_BYTES" (Some (max_bytes d));
  meb <-- env_int "MAX_ENTRY_BYTES" (Some (max_entry_bytes d));
  ra <-- env_int "REFRESH_AFTER_SECS" (refresh_after_secs d);
  ms <-- match env (env_key "MODELS") with
         | None => inl (models d)
         | Some raw => match parse_models raw with inl m => inl m | inr e => inr (BadModels e) end
         end;
  md <-- match env (env_key "MODE") with
         | None => inl (mode d)
         | Some raw => if decide (raw = "strong"%string) then inl Strong
                       else if decide (raw = "eventual"%string) then inl Eventual
                       else inr (BadMode raw)
         end;
  let c := mkConfig en md (default 0 ttl) tti (default 0 ci) (default 0 me) (default 0 mb)
             (default 0 meb) ra mi ms in
  match validate c with inl _ => inl c | inr _ => inr BadInterval end.
End FromEnv.

(** ** Entries and metrics *)

Record CacheEntry : Type := mkEntry {
  e_generation : Z;
  e_data : Value;
  e_inserted : Z;
  e_accessed : Z;
  e_bytes : Z;
  e_ttl : Z;
  e_tti : option Z;
  e_refresh : option Z
}.

(** [Instant::duration_since] saturates at zero. *)
Definition since (now before : Z) : Z := Z.max 0 (now - before).

Definition expired (now : Z) (e : CacheEntry) : bool :=
  bool_decide (e_ttl e <= since now (e_inserted e)) ||
  match e_tti e with
  | Some tti => bool_decide (tti <= since now (e_accessed e))
  | None => false
  end.

Record CacheMetrics : Type := mkMetrics {
  relational_bypasses : Z;
  hits : Z;
  misses : Z;
  expired_count : Z;
  evicted : Z;
  skipped : Z;
  stale_fills_rejected : Z;
  invalidations : Z;
  m_entries : Z;
  estimated_bytes : Z
}.
Definition metrics_default : CacheMetrics := mkMetrics 0 0 0 0 0 0 0 0 0 0.

Record State : Type := mkState { entries : gmap string CacheEntry; metrics : CacheMetrics }.

Record ReadCache : Type := mkCache { generation : Z; state : State; config : CacheConfig }.

Definition secs (n : Z) : Z := n * 10 ^ 9.

(** Updates of the counters. *)
Definition count (hit miss exp evict skip stale inval byp : Z) (m : CacheMetrics) : CacheMetrics :=
  mkMetrics (relational_bypasses m + byp) (hits m + hit) (misses m + miss)
    (expired_count m + exp) (evicted m + evict) (skipped m + skip)
    (stale_fills_rejected m + stale) (invalidations m + inval) (m_entries m) (estimated_bytes m).
Definition inc_hit := count 1 0 0 0 0 0 0 0.
Definition inc_miss := count 0 1 0 0 0 0 0 0.
Definition inc_expired := count 0 0 1 0 0 0 0 0.
Definition inc_evicted := count 0 0 0 1 0 0 0 0.
Definition inc_skipped := count 0 0 0 0 1 0 0 0.
Definition inc_stale := count 0 0 0 0 0 1 0 0.
Definition inc_invalidations := count 0 0 0 0 0 0 1 0.
Definition inc_bypass := count 0 0 0 0 0 0 0 1.
(** The gauges. *)
Definition set_gauges (n bytes : Z) (m : CacheMetrics) : CacheMetrics :=
  mkMetrics (relational_bypasses m) (hits m) (misses m) (expired_count m) (evicted m) (skipped m)
    (stale_fills_rejected m) (invalidations m) n bytes.

Definition tally (f : CacheMetrics -> CacheMetrics) (st : State) : State :=
  mkState (entries st) (f (metrics st)).
Definition with_state (st : State) (c : ReadCache) : ReadCache :=
  mkCache (generation c) st (config c).

Definition state_new : State := mkState ∅ metrics_default.

(** [with_config]: an invalid configuration bypasses the cache. *)
Definition with_config (c : CacheConfig) : ReadCache :=
  let c := match validate c with
           | inl _ => c
           | inr _ => mkConfig false (mode c) (ttl_secs c) (tti_secs c) 30 (max_entries c)
                        (max_bytes c) (max_entry_bytes c) (refresh_after_secs c)
                        (multi_instance c) (models c)
           end in
  mkCache 0 state_new c.

Definition with_mode (ttl : Z) (m : CacheMode) : ReadCache :=
  with_config (mkConfig true m ttl None 30 10000 (64 * 1024 * 1024) (1024 * 1024) None false ∅).

(** [ReadCache::from_env]: an invalid environment bypasses the cache. *)
Definition from_env (env : string -> option string)
    (parse_models : string -> gmap string CachePolicyOverride + string) (default_ttl_secs : Z)
    : ReadCache :=
  let c := match config_from_env env parse_models with
           | inl c => c
           | inr _ => mkConfig false Strong default_ttl_secs None 30 10000 (64 * 1024 * 1024)
                        (1024 * 1024) None false ∅
           end in
  let c := match env (env_key "TTL_SECS") with
           | Some _ => c
           | None => mkConfig (enabled c) (mode c) default_ttl_secs (tti_secs c)
                       (cleanup_interval_secs c) (max_entries c) (max_bytes c)
                       (max_entry_bytes c) (refresh_after_secs c) (multi_instance c) (models c)
           end in
  with_config c.

(** ** Policies *)

Definition colon : Ascii.ascii := Ascii.ascii_of_nat 58.
(** [key.split(':').next().unwrap_or(key)] *)
Definition model_of (key : string) : string := default key (head (split_on colon key)).

Definition policy (c : CacheConfig) (key : string) : CachePolicyOverride :=
  default policy_default (models c !! model_of key).

Definition enabled_for (c : CacheConfig) (key : string) : bool :=
  enabled c && negb (multi_instance c) && default true (po_enabled (policy c key)).

(** ** The operations on the locked state *)

Definition remove (key : string) (st : State) : State :=
  match entries st !! key with
  | Some old =>
      let es := delete key (entries st) in
      mkState es (set_gauges (Z.of_nat (size es)) (estimated_bytes (metrics st) - e_bytes old)
                    (metrics st))
  | None => mkState (entries st) (set_gauges (Z.of_nat (size (entries st)))
                      (estimated_bytes (metrics st)) (metrics st))
  end.

Section Cache.
Context {ho : HashOrder}.
Variable value_len : Value -> option Z.   (* the length of [serde_json::to_vec] *)

Definition reclaim (now : Z) (st : State) : State :=
  let keys := (filter (fun p => expired now p.2 = true) (hpairs (entries st))).*1 in
  foldl (fun st key => tally inc_expired (remove key st)) st keys.

(** [min_by_key(|e| e.accessed)]: the first of the least. *)
Definition older (acc : option (string * CacheEntry)) (p : string * CacheEntry)
    : option (string * CacheEntry) :=
  match acc with
  | Some m => if decide (e_accessed p.2 < e_accessed m.2) then Some p else acc
  | None => Some p
  end.
Definition oldest (l : list (string * CacheEntry)) : option string :=
  fst <$> foldl older None l.

(** The eviction loop of the whole cache; [fuel] bounds its turns. *)
Fixpoint evict_global (fuel : nat) (c : CacheConfig) (bytes : Z) (st : State) : State :=
  match fuel with
  | O => st
  | S fuel =>
      if decide (max_entries c <= Z.of_nat (size (entries st)) \/
                 max_bytes c < u64_saturating_add (estimated_bytes (metrics st)) bytes)
      then match oldest (hpairs (entries st)) with
           | None => st
           | Some old => evict_global fuel c bytes (tally inc_evicted (remove old st))
           end
      else st
  end.

Definition sum_bytes (l : list (string * CacheEntry)) : Z :=
  foldr (fun p acc => e_bytes p.2 + acc) 0 l.

Definition model_entries (prefix : string) (st : State) : list (string * CacheEntry) :=
  filter (fun p => String.prefix prefix p.1 = true) (hpairs (entries st)).

(** The eviction loop of one model. *)
Fixpoint evict_model (fuel : nat) (c : CacheConfig) (p : CachePolicyOverride) (prefix : string)
    (bytes : Z) (st : State) : State :=
  match fuel with
  | O => st
  | S fuel =>
      let l := model_entries prefix st in
      if decide (Z.of_nat (length l) < default (max_entries c) (po_max_entries p) /\
                 u64_saturating_add (sum_bytes l) bytes <= default (max_bytes c) (po_max_bytes p))
      then st
      else match oldest l with
           | None => st
           | Some old => evict_model fuel c p prefix bytes (tally inc_evicted (remove old st))
           end
  end.

Definition entry_bytes (key : string) (v : Value) : Z :=
  match value_len v with
  | Some n => u64_saturating_add (u64_saturating_add n (Z.of_nat (String.length key))) 128
  | None => u64_max
  end.

(** The value may be kept at all. *)
Definition admissible (c : CacheConfig) (key : string) (bytes : Z) : bool :=
  let p := policy c key in
  negb (negb (enabled_for c key) || bool_decide (max_entries c = 0) ||
        bool_decide (po_max_entries p = Some 0) ||
        bool_decide (Z.min (default (max_bytes c) (po_max_bytes p)) (max_bytes c) < bytes) ||
        bool_decide (Z.min (default (max_entry_bytes c) (po_max_entry_bytes p))
                       (max_entry_bytes c) < bytes)).

(** [set_if_generation]; [loaded] is the generation it compares with, [now] the clock of
    its reclaim and [now'] that of the new entry. *)
Definition set_if_generation (now now' : Z) (loaded : Z) (key : string) (v : Value) (gen : Z)
    (rc : ReadCache) : ReadCache :=
  let c := config rc in
  let st := state rc in
  if decide (gen <> loaded) then with_state (tally inc_stale st) rc
  else
    let p := policy c key in
    let bytes := entry_bytes key v in
    if negb (admissible c key bytes) then with_state (tally inc_skipped st) rc
    else
      let st := remove key (reclaim now st) in
      let st := evict_global (size (entries st)) c bytes st in
      let st := evict_model (size (entries st)) c p (model_of key +:+ String colon EmptyString)
                  bytes st in
      let e := mkEntry gen v now' now' bytes (secs (default (ttl_secs c) (po_ttl_secs p)))
                 (secs <$> match po_tti_secs p with Some t => Some t | None => tti_secs c end)
                 (secs <$> match po_refresh_after_secs p with
                           | Some r => Some r | None => refresh_after_secs c end) in
      let es := <[key := e]> (entries st) in
      with_state (mkState es (set_gauges (Z.of_nat (size es))
                                (estimated_bytes (metrics st) + bytes) (metrics st))) rc.

(** [set]: the generation is loaded just before. *)
Definition set (now now' loaded : Z) (key : string) (v : Value) (rc : ReadCache) : ReadCache :=
  set_if_generation now now' loaded key v (generation rc) rc.

Definition get (now : Z) (key : string) (rc : ReadCache) : option Value * ReadCache :=
  let c := config rc in
  let st := state rc in
  if negb (enabled_for c key) then (None, with_state (tally inc_skipped st) rc)
  else
    let st :=
      match entries st !! key with
      | Some e =>
          if expired now e || (bool_decide (mode c = Strong) &&
                               bool_decide (e_generation e <> generation rc))
          then tally inc_expired (remove key st) else st
      | None => st
      end in
    let miss := (None, with_state (tally inc_miss st) rc) in
    match entries st !! key with
    | Some e =>
        let due := match e_refresh e with
                   | Some r => bool_decide (r <= since now (e_inserted e))
                   | None => false
                   end in
        if due then miss
        else
          let e' := mkEntry (e_generation e) (e_data e) (e_inserted e) now (e_bytes e) (e_ttl e)
                      (e_tti e) (e_refresh e) in
          (Some (e_data e),
           with_state (tally inc_hit (mkState (<[key := e']> (entries st)) (metrics st))) rc)
    | None => miss
    end.

(** [invalidate_model] and [invalidate] advance the generation first, then take the lock. *)
Definition advance (rc : ReadCache) : ReadCache :=
  mkCache (wrap_u64 (generation rc + 1)) (state rc) (config rc).
Definition invalidate_model_locked (rc : ReadCache) : ReadCache :=
  let st := tally inc_invalidations (state rc) in
  match mode (config rc) with
  | Strong => with_state (mkState ∅ (set_gauges 0 0 (metrics st))) rc
  | Eventual => with_state st rc
  end.
Definition invalidate_model (model : string) (rc : ReadCache) : ReadCache :=
  invalidate_model_locked (advance rc).
Definition invalidate (key : string) (rc : ReadCache) : ReadCache :=
  with_state (remove key (state (advance rc))) (advance rc).
Definition evict_expired (now : Z) (rc : ReadCache) : ReadCache :=
  with_state (reclaim now (state rc)) rc.
Definition record_relational_bypass (rc : ReadCache) : ReadCache :=
  with_state (tally inc_bypass (state rc)) rc.
End Cache.

Definition cache_key (model query_hash : string) : string :=
  model +:+ String colon EmptyString +:+ query_hash.

(** [status().consistency] *)
Definition consistency (rc : ReadCache) : string :=
  if multi_instance (config rc) then "bypass"
  else match mode (config rc) with
       | Strong => "process-local-write-invalidation"
       | Eventual => "ttl-bounded-eventual"
       end.
Definition effective_enabled (rc : ReadCache) : bool :=
  enabled (config rc) && negb (multi_instance (config rc)).
