(* ===== verification/CacheSpec.v ===== *)
(** * The cache keeps its bounds and never serves stale data

    The accounting of entries and bytes is exact, the bounds of the whole cache and of
    each model hold after every operation (so the eviction loops end with room), and in
    strong mode a hit reflects every write committed before the last invalidation, whatever
    the interleaving of readers, writers and the atomic generation. *)

From S2P Require Import Prelude Json Cache.

(** ** Counting entries *)

Section Counting.
Variable P : string -> bool.

Definition sel (m : gmap string CacheEntry) : list (string * CacheEntry) :=
  filter (fun p => P p.1 = true) (map_to_list m).
Definition count_of (m : gmap string CacheEntry) : Z := Z.of_nat (length (sel m)).
Definition bytes_of (m : gmap string CacheEntry) : Z := sum_bytes (sel m).

Lemma sum_bytes_perm l l' : l ≡ₚ l' -> sum_bytes l = sum_bytes l'.
Proof. induction 1; simpl; lia. Qed.

Lemma sum_bytes_cons p l : sum_bytes (p :: l) = e_bytes p.2 + sum_bytes l.
Proof. done. Qed.

Lemma sel_insert m k e :
  m !! k = None -> sel (<[k := e]> m) ≡ₚ (if P k then [(k, e)] else []) ++ sel m.
Proof.
  intros Hk. unfold sel. rewrite map_to_list_insert by done. rewrite filter_cons.
  destruct (P k) eqn:HP; [by rewrite decide_True|by rewrite decide_False by (simpl; congruence)].
Qed.

Lemma count_insert m k e :
  m !! k = None -> count_of (<[k := e]> m) = (if P k then 1 else 0) + count_of m.
Proof.
  intros Hk. unfold count_of. rewrite (sel_insert m k e Hk), length_app.
  destruct (P k); simpl; lia.
Qed.

Lemma bytes_insert m k e :
  m !! k = None -> bytes_of (<[k := e]> m) = (if P k then e_bytes e else 0) + bytes_of m.
Proof.
  intros Hk. unfold bytes_of. rewrite (sum_bytes_perm _ _ (sel_insert m k e Hk)).
  destruct (P k); simpl; lia.
Qed.

Lemma count_delete m k e :
  m !! k = Some e -> count_of m = (if P k then 1 else 0) + count_of (delete k m).
Proof.
  intros Hk. rewrite <-(count_insert (delete k m) k e) by apply lookup_delete_eq.
  by rewrite insert_delete_id.
Qed.

Lemma bytes_delete m k e :
  m !! k = Some e -> bytes_of m = (if P k then e_bytes e else 0) + bytes_of (delete k m).
Proof.
  intros Hk. rewrite <-(bytes_insert (delete k m) k e) by apply lookup_delete_eq.
  by rewrite insert_delete_id.
Qed.

(** Replacing an entry by one of the same size changes nothing. *)
Lemma count_replace m k e e' :
  m !! k = Some e -> count_of (<[k := e']> m) = count_of m.
Proof.
  intros Hk. rewrite <-insert_delete_eq, count_insert by apply lookup_delete_eq.
  by rewrite (count_delete m k e Hk).
Qed.

Lemma bytes_replace m k e e' :
  m !! k = Some e -> e_bytes e' = e_bytes e -> bytes_of (<[k := e']> m) = bytes_of m.
Proof.
  intros Hk He. rewrite <-insert_delete_eq, bytes_insert by apply lookup_delete_eq.
  by rewrite (bytes_delete m k e Hk), He.
Qed.
End Counting.

Lemma bytes_empty P : bytes_of P ∅ = 0.
Proof. unfold bytes_of, sel. by rewrite map_to_list_empty. Qed.

Lemma count_empty P : count_of P ∅ = 0.
Proof. unfold count_of, sel. by rewrite map_to_list_empty. Qed.

Definition all (k : string) : bool := true.

Lemma sel_all m : sel all m = map_to_list m.
Proof. unfold sel. by apply filter_all. Qed.

Lemma count_all m : count_of all m = Z.of_nat (size m).
Proof. unfold count_of. by rewrite sel_all, length_map_to_list. Qed.

(** ** Exact accounting *)

Definition sized (m : gmap string CacheEntry) : Prop :=
  forall k e, m !! k = Some e -> 0 <= e_bytes e.

Record accounted (st : State) : Prop := {
  ac_entries : m_entries (metrics st) = Z.of_nat (size (entries st));
  ac_bytes : estimated_bytes (metrics st) = bytes_of all (entries st);
  ac_sized : sized (entries st)
}.

Lemma sized_delete m k : sized m -> sized (delete k m).
Proof. intros Hs k' e [_ He]%lookup_delete_Some. by eapply Hs. Qed.

Lemma entries_remove k st : entries (remove k st) = delete k (entries st).
Proof.
  unfold remove. destruct (entries st !! k) eqn:E; [done|]. by rewrite delete_id.
Qed.

Lemma remove_accounted k st : accounted st -> accounted (remove k st).
Proof.
  intros [Hn Hb Hs]. unfold remove. destruct (entries st !! k) as [e|] eqn:E; split; simpl; try done.
  - pose proof (bytes_delete all _ _ _ E). simpl in *. lia.
  - by apply sized_delete.
Qed.

(** A shrinking: entries only go, and go with their bytes. *)
Definition shrinks (st st' : State) : Prop :=
  entries st' ⊆ entries st /\ accounted st'.

Lemma shrinks_refl st : accounted st -> shrinks st st.
Proof. by split. Qed.

Lemma shrinks_trans st1 st2 st3 : shrinks st1 st2 -> shrinks st2 st3 -> shrinks st1 st3.
Proof. intros [H1 _] [H2 H3]. split; [by etrans|done]. Qed.

Lemma remove_shrinks k st f :
  (forall m, m_entries (f m) = m_entries m /\ estimated_bytes (f m) = estimated_bytes m) ->
  accounted st -> shrinks st (tally f (remove k st)).
Proof.
  intros Hf Hac. pose proof (remove_accounted k st Hac) as [Hn Hb Hs].
  destruct (Hf (metrics (remove k st))) as [Hfn Hfb]. split.
  - simpl. rewrite entries_remove. apply delete_subseteq.
  - split; simpl; [by rewrite Hfn|by rewrite Hfb|done].
Qed.

Lemma remove_only_shrinks k st : accounted st -> shrinks st (remove k st).
Proof.
  intros Hac. split; [|by apply remove_accounted]. rewrite entries_remove. apply delete_subseteq.
Qed.

Lemma bytes_of_mono P m m' : m' ⊆ m -> sized m -> bytes_of P m' <= bytes_of P m.
Proof.
  intros Hsub. revert m Hsub. induction m' as [|k e m' Hk IH] using map_ind; intros m Hsub Hs.
  - unfold bytes_of at 1, sel. rewrite map_to_list_empty. simpl.
    unfold bytes_of. assert (H : forall p, p ∈ sel P m -> 0 <= e_bytes p.2).
    { intros [k e] [_ Hin]%list_elem_of_filter. apply elem_of_map_to_list in Hin. by eapply Hs. }
    revert H. generalize (sel P m). induction l as [|p l IHl]; intros H; simpl; [lia|].
    pose proof (H p ltac:(left)). specialize (IHl ltac:(intros; apply H; by right)). lia.
  - assert (He : m !! k = Some e) by (eapply lookup_weaken; [apply lookup_insert_eq|done]).
    rewrite bytes_insert, (bytes_delete P m k e He) by done.
    assert (Hsub' : m' ⊆ delete k m).
    { rewrite <-(delete_insert_id m' k e Hk). by apply delete_mono. }
    specialize (IH _ Hsub' (sized_delete m k Hs)). lia.
Qed.

Lemma count_of_mono P m m' : m' ⊆ m -> count_of P m' <= count_of P m.
Proof.
  intros Hsub. revert m Hsub. induction m' as [|k e m' Hk IH] using map_ind; intros m Hsub.
  - unfold count_of, sel. rewrite map_to_list_empty. simpl. lia.
  - assert (He : m !! k = Some e) by (eapply lookup_weaken; [apply lookup_insert_eq|done]).
    rewrite count_insert, (count_delete P m k e He) by done.
    assert (Hsub' : m' ⊆ delete k m).
    { rewrite <-(delete_insert_id m' k e Hk). by apply delete_mono. }
    specialize (IH _ Hsub'). lia.
Qed.

(** ** Models and key prefixes *)

Lemma prefix_app p k : String.prefix p k = true -> exists r, k = p +:+ r.
Proof.
  revert k. induction p as [|a p IH]; intros k Hp; [by exists k|].
  destruct k as [|b k]; [done|]. simpl in Hp. destruct (Ascii.ascii_dec a b) as [->|]; [|done].
  destruct (IH k Hp) as [r ->]. exists r. by rewrite str_app_cons.
Qed.

Lemma split_on_colon m r :
  has_char colon m = false -> split_on colon (m +:+ String colon r) = m :: split_on colon r.
Proof.
  induction m as [|a m IH]; intros Hm; [done|]. simpl in Hm. apply orb_false_iff in Hm as [Ha Hm].
  rewrite str_app_cons. simpl. by rewrite Ha, IH.
Qed.

Lemma model_of_no_colon k : has_char colon (model_of k) = false.
Proof.
  unfold model_of. induction k as [|a k IH]; [done|]. simpl.
  destruct (Ascii.eqb a colon) eqn:Ha; [done|].
  destruct (split_on colon k) as [|q qs]; simpl in *; by rewrite Ha.
Qed.

Definition model_prefix (key : string) : string := model_of key +:+ String colon EmptyString.
Definition starts (prefix k : string) : bool := String.prefix prefix k.

(** A key in a model's name space is a key of that model. *)
Lemma starts_model key k : starts (model_prefix key) k = true -> model_of k = model_of key.
Proof.
  intros [r ->]%prefix_app. unfold model_prefix.
  rewrite str_app_assoc, str_app_cons. unfold model_of at 1.
  by rewrite split_on_colon by apply model_of_no_colon.
Qed.

Section Spec.
Context {ho : HashOrder}.
Variable value_len : Value -> option Z.
Hypothesis value_len_nonneg : forall v n, value_len v = Some n -> 0 <= n.

Lemma counter_gauges a b c d e f g h m :
  m_entries (count a b c d e f g h m) = m_entries m /\
  estimated_bytes (count a b c d e f g h m) = estimated_bytes m.
Proof. done. Qed.

Lemma reclaim_shrinks now st : accounted st -> shrinks st (reclaim now st).
Proof.
  unfold reclaim. generalize ((filter (fun p => expired now p.2 = true) (hpairs (entries st))).*1).
  intros keys. revert st. induction keys as [|k keys IH]; intros st Hac; [by apply shrinks_refl|].
  simpl. pose proof (remove_shrinks k st inc_expired (counter_gauges _ _ _ _ _ _ _ _) Hac) as Hs.
  eapply shrinks_trans; [exact Hs|]. apply IH. apply Hs.
Qed.

Lemma oldest_spec l : match oldest l with Some k => k ∈ l.*1 | None => l = [] end.
Proof.
  unfold oldest. assert (H : forall l acc, match foldl older acc l with
    | Some p => acc = Some p \/ p ∈ l | None => acc = None /\ l = [] end).
  { induction l0 as [|p l0 IH]; intros acc; simpl; [by destruct acc; [left|]|].
    specialize (IH (older acc p)). destruct (foldl older (older acc p) l0) as [q|].
    - destruct IH as [IH|IH]; [|right; by right]. unfold older in IH.
      destruct acc as [m|]; [case_decide|]; injection IH as ->; [right; left|by left|right; left].
    - destruct IH as [IH _]. unfold older in IH. destruct acc; [by case_decide|done]. }
  specialize (H l None). destruct (foldl older None l) as [p|]; simpl.
  - destruct H as [?|H]; [done|]. by apply list_elem_of_fmap_2.
  - apply H.
Qed.

Lemma oldest_lookup st l k :
  (forall p, p ∈ l -> p ∈ hpairs (entries st)) -> oldest l = Some k ->
  is_Some (entries st !! k).
Proof.
  intros Hl Ho. pose proof (oldest_spec l) as H. rewrite Ho in H.
  apply list_elem_of_fmap in H as ([k' e] & -> & Hin). apply Hl, elem_of_hpairs in Hin. by exists e.
Qed.

Lemma size_remove k st f :
  is_Some (entries st !! k) -> S (size (entries (tally f (remove k st)))) = size (entries st).
Proof.
  intros [e He]. simpl. rewrite entries_remove, map_size_delete_Some by (by exists e).
  assert (size (entries st) <> 0)%nat; [|lia].
  intros Hz%map_size_empty_inv. by rewrite Hz in He.
Qed.

(** The eviction loop ends with room for the entry, or with nothing left. *)
Lemma evict_global_spec fuel c bytes st :
  accounted st -> (size (entries st) <= fuel)%nat ->
  let st' := evict_global fuel c bytes st in
  shrinks st st' /\
  (entries st' = ∅ \/
   Z.of_nat (size (entries st')) < max_entries c /\
   u64_saturating_add (estimated_bytes (metrics st')) bytes <= max_bytes c).
Proof.
  cbv zeta. revert st. induction fuel as [|fuel IH]; intros st Hac Hf.
  - simpl. split; [by apply shrinks_refl|]. left. apply map_size_empty_inv. lia.
  - cbn [evict_global]. destruct (decide _) as [Hd|Hd].
    2: { split; [by apply shrinks_refl|]. right. lia. }
    pose proof (oldest_lookup st (hpairs (entries st))) as Hol.
    pose proof (oldest_spec (hpairs (entries st))) as Hos.
    destruct (oldest _) as [k|].
    + specialize (Hol k (fun p H => H) eq_refl).
      pose proof (remove_shrinks k st inc_evicted (counter_gauges _ _ _ _ _ _ _ _) Hac) as Hs.
      pose proof (size_remove k st inc_evicted Hol) as Hsz.
      destruct (IH (tally inc_evicted (remove k st))) as [Hs' Hend]; [apply Hs|lia|].
      split; [by eapply shrinks_trans|done].
    + split; [by apply shrinks_refl|]. left. apply map_eq. intros k. rewrite lookup_empty.
      apply eq_None_not_Some. intros [e He%elem_of_hpairs]. rewrite Hos in He.
      by apply not_elem_of_nil in He.
Qed.

Lemma model_entries_perm prefix st : model_entries prefix st ≡ₚ sel (starts prefix) (entries st).
Proof.
  unfold model_entries, sel, starts, hpairs. apply filter_Permutation. apply horder_perm.
Qed.

Lemma evict_model_spec fuel c p prefix bytes st :
  accounted st -> (size (entries st) <= fuel)%nat ->
  let st' := evict_model fuel c p prefix bytes st in
  shrinks st st' /\
  (count_of (starts prefix) (entries st') = 0 /\ bytes_of (starts prefix) (entries st') = 0 \/
   count_of (starts prefix) (entries st') < default (max_entries c) (po_max_entries p) /\
   u64_saturating_add (bytes_of (starts prefix) (entries st')) bytes <=
     default (max_bytes c) (po_max_bytes p)).
Proof.
  cbv zeta. assert (Hc : forall st, Z.of_nat (length (model_entries prefix st)) =
    count_of (starts prefix) (entries st)).
  { intros s. unfold count_of. by rewrite model_entries_perm. }
  assert (Hb : forall st, sum_bytes (model_entries prefix st) = bytes_of (starts prefix) (entries st)).
  { intros s. unfold bytes_of. apply sum_bytes_perm, model_entries_perm. }
  revert st. induction fuel as [|fuel IH]; intros st Hac Hf.
  - simpl. split; [by apply shrinks_refl|]. left.
    assert (entries st = ∅) as -> by (apply map_size_empty_inv; lia). done.
  - cbn [evict_model]. rewrite Hc, Hb. destruct (decide _) as [Hd|Hd].
    { split; [by apply shrinks_refl|]. by right. }
    pose proof (oldest_lookup st (model_entries prefix st)) as Hol.
    pose proof (oldest_spec (model_entries prefix st)) as Hos.
    destruct (oldest _) as [k|].
    + assert (Hk : is_Some (entries st !! k)).
      { apply Hol; [|done]. intros q Hq. by apply list_elem_of_filter in Hq as [_ Hq]. }
      pose proof (remove_shrinks k st inc_evicted (counter_gauges _ _ _ _ _ _ _ _) Hac) as Hs.
      pose proof (size_remove k st inc_evicted Hk) as Hsz.
      destruct (IH (tally inc_evicted (remove k st))) as [Hs' Hend]; [apply Hs|lia|].
      split; [by eapply shrinks_trans|done].
    + split; [by apply shrinks_refl|]. left. rewrite <-Hc, <-Hb, Hos. done.
Qed.

(** ** The bounds *)

Record well_configured (c : CacheConfig) : Prop := {
  wc_entries : 0 <= max_entries c;
  wc_bytes : 0 <= max_bytes c < u64_max;
  wc_models m p : models c !! m = Some p ->
    (forall n, po_max_entries p = Some n -> 0 <= n) /\
    (forall n, po_max_bytes p = Some n -> 0 <= n < u64_max)
}.

Definition entry_limit (c : CacheConfig) (key : string) : Z :=
  default (max_entries c) (po_max_entries (policy c key)).
Definition byte_limit (c : CacheConfig) (key : string) : Z :=
  default (max_bytes c) (po_max_bytes (policy c key)).

Record bounded (c : CacheConfig) (st : State) : Prop := {
  bd_accounted : accounted st;
  bd_entries : Z.of_nat (size (entries st)) <= max_entries c;
  bd_bytes : estimated_bytes (metrics st) <= max_bytes c;
  bd_model key : count_of (starts (model_prefix key)) (entries st) <= entry_limit c key /\
    bytes_of (starts (model_prefix key)) (entries st) <= byte_limit c key
}.

Lemma policy_limits c key :
  well_configured c -> 0 <= entry_limit c key /\ 0 <= byte_limit c key < u64_max.
Proof.
  intros [He Hb Hm]. unfold entry_limit, byte_limit, policy.
  destruct (models c !! model_of key) as [p|] eqn:Hp; simpl; [|lia].
  destruct (Hm _ _ Hp) as [H1 H2].
  destruct (po_max_entries p) as [n|]; simpl; [specialize (H1 n eq_refl)|];
    (destruct (po_max_bytes p) as [n'|]; simpl; [specialize (H2 n' eq_refl)|]); lia.
Qed.

Lemma bounded_new c : well_configured c -> bounded c state_new.
Proof.
  intros Hc. split; [|change (0 <= max_entries c)|change (0 <= max_bytes c)|].
  - split; [done|done|]. intros k e. simpl. by rewrite lookup_empty.
  - destruct Hc. lia.
  - destruct Hc. lia.
  - intros key. pose proof (policy_limits c key Hc). cbn [entries state_new].
    rewrite bytes_empty, count_empty. lia.
Qed.

Lemma bounded_shrinks c st st' : shrinks st st' -> bounded c st -> bounded c st'.
Proof.
  intros [Hsub Hac] [Hac0 He Hb Hm]. pose proof (count_of_mono all _ _ Hsub) as Hcnt.
  pose proof (bytes_of_mono all _ _ Hsub (ac_sized _ Hac0)) as Hbts.
  rewrite !count_all in Hcnt. split; [done|lia| |].
  - rewrite (ac_bytes _ Hac). rewrite (ac_bytes _ Hac0) in Hb. lia.
  - intros key. specialize (Hm key).
    pose proof (count_of_mono (starts (model_prefix key)) _ _ Hsub).
    pose proof (bytes_of_mono (starts (model_prefix key)) _ _ Hsub (ac_sized _ Hac0)). lia.
Qed.

Lemma bounded_metrics c es m m' :
  m_entries m' = m_entries m -> estimated_bytes m' = estimated_bytes m ->
  bounded c (mkState es m) -> bounded c (mkState es m').
Proof.
  intros H1 H2 [[Ha1 Ha2 Ha3] He Hb Hm]. simpl in *.
  split; [split|..]; simpl in *; rewrite ?H1, ?H2; done.
Qed.

Lemma bounded_tally c st f :
  (forall m, m_entries (f m) = m_entries m /\ estimated_bytes (f m) = estimated_bytes m) ->
  bounded c st -> bounded c (tally f st).
Proof. destruct st as [es m]. intros Hf. destruct (Hf m). by apply bounded_metrics. Qed.

Lemma entry_bytes_nonneg key v : 0 <= entry_bytes value_len key v.
Proof.
  unfold entry_bytes, u64_saturating_add, u64_max.
  destruct (value_len v) as [n|] eqn:Hn; [|lia]. pose proof (value_len_nonneg v n Hn). lia.
Qed.

Lemma admissible_spec c key bytes :
  admissible c key bytes = true ->
  max_entries c <> 0 /\ po_max_entries (policy c key) <> Some 0 /\
  bytes <= max_bytes c /\ bytes <= byte_limit c key.
Proof.
  unfold admissible, byte_limit. cbv zeta. intros H. apply negb_true_iff in H.
  rewrite !orb_false_iff, !bool_decide_eq_false in H. lia || intuition lia.
Qed.

(** Filling keeps every bound. *)
Lemma set_bounded now now' loaded key v gen rc :
  well_configured (config rc) -> bounded (config rc) (state rc) ->
  bounded (config rc) (state (set_if_generation value_len now now' loaded key v gen rc)).
Proof.
  intros Hc Hbd. unfold set_if_generation. set (c := config rc) in *.
  assert (Hskip : forall f, (forall m, m_entries (f m) = m_entries m /\
    estimated_bytes (f m) = estimated_bytes m) -> bounded c (tally f (state rc))).
  { intros f Hf. by apply bounded_tally. }
  destruct (decide (gen <> loaded)); [by apply Hskip|]. cbv zeta.
  set (bytes := entry_bytes value_len key v).
  destruct (admissible c key bytes) eqn:Hadm; cbn [negb]; [|by apply Hskip].
  destruct (admissible_spec c key bytes Hadm) as (Hn0 & Hp0 & Hmb & Hlb).
  pose proof (entry_bytes_nonneg key v) as Hbn. fold bytes in Hbn.
  pose proof (policy_limits c key Hc) as [Hle Hlb2].
  assert (Hle1 : 1 <= entry_limit c key).
  { destruct Hc as [Hce _ _]. unfold entry_limit in *.
    destruct (po_max_entries (policy c key)) as [lim|]; simpl in *; [|lia].
    destruct (decide (lim = 0)) as [->|]; [done|lia]. }
  set (st1 := remove key (reclaim now (state rc))).
  assert (Hs1 : shrinks (state rc) st1).
  { eapply shrinks_trans; [apply (reclaim_shrinks now), Hbd|].
    apply remove_only_shrinks. apply (reclaim_shrinks now), Hbd. }
  destruct (evict_global_spec (size (entries st1)) c bytes st1 (proj2 Hs1) (le_n _)) as [Hs2 Hroom].
  set (st2 := evict_global _ c bytes st1) in *.
  destruct (evict_model_spec (size (entries st2)) c (policy c key) (model_prefix key) bytes st2
    (proj2 Hs2) (le_n _)) as [Hs3 Hmodel].
  fold (model_prefix key). set (st3 := evict_model _ c _ _ bytes st2) in *.
  assert (Hs : shrinks (state rc) st3) by (eapply shrinks_trans; [|exact Hs3]; by eapply shrinks_trans).
  pose proof (bounded_shrinks c _ _ Hs Hbd) as [Hac3 He3 Hb3 Hm3].
  assert (Hfresh : entries st3 !! key = None).
  { apply eq_None_not_Some. intros [e He].
    eapply lookup_weaken in He; [|exact (proj1 Hs3)]. eapply lookup_weaken in He; [|exact (proj1 Hs2)].
    unfold st1 in He. by rewrite entries_remove, lookup_delete_eq in He. }
  assert (Hroom3 : Z.of_nat (size (entries st3)) + 1 <= max_entries c /\
                   estimated_bytes (metrics st3) + bytes <= max_bytes c).
  { pose proof (count_of_mono all _ _ (proj1 Hs3)) as H1. rewrite !count_all in H1.
    pose proof (bytes_of_mono all _ _ (proj1 Hs3) (ac_sized _ (proj2 Hs2))) as H2.
    rewrite (ac_bytes _ Hac3). destruct Hc as [Hce Hcb _].
    destruct Hroom as [Hem|[Hlt Hsum]].
    - rewrite Hem in H1, H2. rewrite map_size_empty in H1. rewrite bytes_empty in H2. lia.
    - rewrite (ac_bytes _ (proj2 Hs2)) in Hsum. unfold u64_saturating_add in Hsum. lia. }
  assert (Hroomm : count_of (starts (model_prefix key)) (entries st3) + 1 <= entry_limit c key /\
                   bytes_of (starts (model_prefix key)) (entries st3) + bytes <= byte_limit c key).
  { unfold entry_limit, byte_limit in *. unfold u64_saturating_add in Hmodel. lia. }
  split; cbn [state with_state entries metrics m_entries estimated_bytes set_gauges].
  - split; cbn [entries metrics m_entries estimated_bytes set_gauges]; [done| |].
    + rewrite bytes_insert by done. cbn. rewrite (ac_bytes _ Hac3). lia.
    + intros k e [[<- <-]|[_ He]]%lookup_insert_Some; [done|by eapply (ac_sized _ Hac3)].
  - rewrite map_size_insert_None by done. lia.
  - lia.
  - intros key'. rewrite count_insert, bytes_insert by done. cbn [e_bytes].
    destruct (starts (model_prefix key') key) eqn:Hst.
    + pose proof (starts_model key' key Hst) as Hmo.
      assert (Hpx : model_prefix key' = model_prefix key) by (unfold model_prefix; by rewrite Hmo).
      unfold entry_limit, byte_limit, policy in *. rewrite <-Hmo, Hpx. lia.
    + specialize (Hm3 key'). lia.
Qed.

(** ** Reading and invalidating *)

(** The entry [get] looks at, after dropping it if it is expired or, in strong mode, of an
    older generation. *)
Definition usable (now : Z) (rc : ReadCache) (e : CacheEntry) : Prop :=
  expired now e = false /\ (mode (config rc) = Strong -> e_generation e = generation rc).

Lemma get_hit now key rc v rc' :
  get now key rc = (Some v, rc') ->
  exists e, entries (state rc) !! key = Some e /\ e_data e = v /\ usable now rc e /\
    enabled_for (config rc) key = true.
Proof.
  unfold get. destruct (enabled_for (config rc) key); cbn [negb]; [|done].
  destruct (entries (state rc) !! key) as [e|] eqn:He.
  2: { rewrite He. done. }
  destruct (expired now e || _) eqn:Hx.
  - cbn [tally entries]. rewrite entries_remove, lookup_delete_eq. done.
  - rewrite He. apply orb_false_iff in Hx as [Hex Hst].
    assert (Hu : usable now rc e).
    { split; [done|]. intros Hm. apply andb_false_iff in Hst as [Hst|Hst];
        apply bool_decide_eq_false in Hst; [done|]. by destruct (decide (e_generation e = generation rc)). }
    destruct (match e_refresh e with Some _ => _ | None => _ end); [done|].
    intros [= <- _]. by exists e.
Qed.

Lemma get_bounded now key rc :
  bounded (config rc) (state rc) -> bounded (config rc) (state (get now key rc).2).
Proof.
  intros Hbd. unfold get. set (c := config rc) in *.
  destruct (negb _); [by apply bounded_tally|].
  set (st := match entries (state rc) !! key with Some _ => _ | None => _ end).
  assert (Hst : bounded c st).
  { unfold st. destruct (entries (state rc) !! key); [|done]. case_match; [|done].
    apply bounded_tally; [done|]. eapply bounded_shrinks; [|exact Hbd]. apply remove_only_shrinks, Hbd. }
  clearbody st. cbv zeta. destruct (entries st !! key) as [e|] eqn:He; [|by apply bounded_tally].
  destruct (match e_refresh e with Some _ => _ | None => _ end); [by apply bounded_tally|].
  cbn [snd state with_state]. apply bounded_tally; [done|]. destruct Hst as [[Hn Hb Hs] Hen Hby Hm].
  set (e' := mkEntry _ _ _ _ _ _ _ _).
  assert (Hb' : forall P, bytes_of P (<[key := e']> (entries st)) = bytes_of P (entries st))
    by (intros P; by apply (bytes_replace P _ _ e)).
  assert (Hc' : forall P, count_of P (<[key := e']> (entries st)) = count_of P (entries st))
    by (intros P; by apply (count_replace P _ _ e)).
  assert (Hsz : size (<[key := e']> (entries st)) = size (entries st)).
  { pose proof (Hc' all) as H. rewrite !count_all in H. lia. }
  split; [split|..]; cbn [entries metrics]; rewrite ?Hsz, ?Hb'; [done|done| |done|done|].
  - intros k x [[<- <-]|[_ Hx]]%lookup_insert_Some; [by apply (Hs key e)|by eapply Hs].
  - intros key'. rewrite Hb', Hc'. apply Hm.
Qed.

(** ** Histories *)

(** An operation with the clocks and the generation it meets; the two halves of an
    invalidation are separate, so anything may come between. *)
Inductive CacheOp : Type :=
  | OpSet (now now' loaded : Z) (key : string) (v : Value) (gen : Z)
  | OpGet (now : Z) (key : string)
  | OpAdvance
  | OpInvalidateModel
  | OpInvalidateKey (key : string)
  | OpEvictExpired (now : Z)
  | OpBypass.

Definition apply_cache (rc : ReadCache) (op : CacheOp) : ReadCache :=
  match op with
  | OpSet now now' loaded key v gen => set_if_generation value_len now now' loaded key v gen rc
  | OpGet now key => (get now key rc).2
  | OpAdvance => advance rc
  | OpInvalidateModel => invalidate_model_locked rc
  | OpInvalidateKey key => with_state (remove key (state rc)) rc
  | OpEvictExpired now => evict_expired now rc
  | OpBypass => record_relational_bypass rc
  end.

Definition run_cache (rc : ReadCache) (ops : list CacheOp) : ReadCache := foldl apply_cache rc ops.

Lemma apply_config rc op : config (apply_cache rc op) = config rc.
Proof.
  destruct op; cbn [apply_cache]; try done.
  - unfold set_if_generation. destruct (decide _); [done|]. cbv zeta. by destruct (negb _).
  - unfold get. destruct (negb _); [done|]. repeat case_match; done.
  - unfold invalidate_model_locked. by destruct (mode (config rc)).
Qed.

Lemma apply_bounded rc op :
  well_configured (config rc) -> bounded (config rc) (state rc) ->
  bounded (config rc) (state (apply_cache rc op)).
Proof.
  intros Hc Hbd. destruct op; cbn [apply_cache].
  - by apply set_bounded.
  - by apply get_bounded.
  - done.
  - unfold invalidate_model_locked. destruct (mode (config rc)); cbn [state with_state].
    + eapply bounded_metrics; [| |by apply (bounded_new (config rc))]; done.
    + by apply bounded_tally.
  - eapply bounded_shrinks; [|exact Hbd]. apply remove_only_shrinks, Hbd.
  - eapply bounded_shrinks; [|exact Hbd]. apply reclaim_shrinks, Hbd.
  - by apply bounded_tally.
Qed.

Lemma run_bounded rc ops :
  well_configured (config rc) -> bounded (config rc) (state rc) ->
  bounded (config rc) (state (run_cache rc ops)).
Proof.
  unfold run_cache. revert rc. induction ops as [|op ops IH]; intros rc Hc Hbd; [done|]. simpl.
  rewrite <-(apply_config rc op). apply IH; rewrite apply_config; [done|by apply apply_bounded].
Qed.

(** ** Readers and writers *)

(** A reader loads the generation, misses, reads the database, then fills. *)
Record Reader : Type := mkReader { r_key : string; r_gen : Z; r_version : option Z }.

(** [w_db] counts committed writes; [w_fence g] is that count when the generation became
    [g]: the writes a strong read under generation [g] must reflect. *)
Record World : Type := mkWorld {
  w_cache : ReadCache;
  w_db : Z;
  w_fence : Z -> Z;
  w_readers : gmap Z Reader
}.

Variable query : string -> Z -> Value.   (* the answer of a read at a database version *)

Inductive world_step : World -> World -> Prop :=
  | ws_commit w : world_step w (mkWorld (w_cache w) (w_db w + 1) (w_fence w) (w_readers w))
  | ws_advance w :
      generation (w_cache w) < u64_max ->
      let rc := advance (w_cache w) in
      world_step w (mkWorld rc (w_db w)
        (fun g => if decide (g = generation rc) then w_db w else w_fence w g) (w_readers w))
  | ws_start w rid key :
      world_step w (mkWorld (w_cache w) (w_db w) (w_fence w)
        (<[rid := mkReader key (generation (w_cache w)) None]> (w_readers w)))
  | ws_read w rid r :
      w_readers w !! rid = Some r ->
      world_step w (mkWorld (w_cache w) (w_db w) (w_fence w)
        (<[rid := mkReader (r_key r) (r_gen r) (Some (w_db w))]> (w_readers w)))
  | ws_fill w rid r v now now' loaded :
      w_readers w !! rid = Some r -> r_version r = Some v ->
      loaded <= generation (w_cache w) ->
      world_step w (mkWorld
        (set_if_generation value_len now now' loaded (r_key r) (query (r_key r) v) (r_gen r) (w_cache w))
        (w_db w) (w_fence w) (delete rid (w_readers w)))
  | ws_cache w op :
      match op with OpSet _ _ _ _ _ _ | OpAdvance => False | _ => True end ->
      world_step w (mkWorld (apply_cache (w_cache w) op) (w_db w) (w_fence w) (w_readers w)).

Definition world_new (c : CacheConfig) : World := mkWorld (with_config c) 0 (fun _ => 0) ∅.

Inductive world_reachable (c : CacheConfig) : World -> Prop :=
  | wr_new : world_reachable c (world_new c)
  | wr_step w w' : world_reachable c w -> world_step w w' -> world_reachable c w'.

(** A value read at a version no older than the fence of a generation. *)
Definition fresh_for (w : World) (g : Z) (key : string) (v : Value) : Prop :=
  exists n, w_fence w g <= n <= w_db w /\ v = query key n.

Record world_inv (w : World) : Prop := {
  wi_gen : 0 <= generation (w_cache w) <= u64_max;
  wi_fence g : w_fence w g <= w_db w;
  wi_entries key e : entries (state (w_cache w)) !! key = Some e ->
    e_generation e <= generation (w_cache w) /\ fresh_for w (e_generation e) key (e_data e);
  wi_readers rid r : w_readers w !! rid = Some r ->
    r_gen r <= generation (w_cache w) /\
    forall n, r_version r = Some n -> w_fence w (r_gen r) <= n <= w_db w
}.

(** Entries of the cache after an operation that fills nothing. *)
Definition entries_from (rc rc' : ReadCache) : Prop :=
  generation rc' = generation rc /\
  forall key e, entries (state rc') !! key = Some e ->
    exists e0, entries (state rc) !! key = Some e0 /\ e_generation e = e_generation e0 /\
      e_data e = e_data e0.

Lemma subset_from rc st : entries st ⊆ entries (state rc) -> entries_from rc (with_state st rc).
Proof.
  intros Hsub. split; [done|]. intros key e He. exists e. split; [|done].
  eapply lookup_weaken; [exact He|exact Hsub].
Qed.

Lemma get_from now key rc : entries_from rc (get now key rc).2.
Proof.
  unfold get. destruct (negb _); [by apply subset_from|].
  set (st := match entries (state rc) !! key with Some _ => _ | None => _ end).
  assert (Hsub : entries st ⊆ entries (state rc)).
  { unfold st. destruct (entries (state rc) !! key); [|done]. case_match; [|done].
    cbn [tally entries]. rewrite entries_remove. apply delete_subseteq. }
  clearbody st. cbv zeta. destruct (entries st !! key) as [e|] eqn:He; [|by apply subset_from].
  destruct (match e_refresh e with Some _ => _ | None => _ end); [by apply subset_from|].
  split; [done|]. cbn [snd state with_state tally entries]. intros k x.
  intros [[<- <-]|[_ Hx]]%lookup_insert_Some.
  - exists e. split; [by eapply lookup_weaken|done].
  - exists x. split; [by eapply lookup_weaken|done].
Qed.

Lemma op_from rc op :
  accounted (state rc) ->
  match op with OpSet _ _ _ _ _ _ | OpAdvance => False | _ => True end ->
  entries_from rc (apply_cache rc op).
Proof.
  intros Hac Hop. destruct op; try done; cbn [apply_cache].
  - apply get_from.
  - unfold invalidate_model_locked. destruct (mode (config rc)); apply subset_from; [|done].
    apply map_empty_subseteq.
  - apply subset_from. rewrite entries_remove. apply delete_subseteq.
  - apply subset_from. by apply reclaim_shrinks.
  - by apply subset_from.
Qed.

(** What filling can leave: old entries, and the filled one. *)
Lemma set_entries now now' loaded key v gen rc k e :
  accounted (state rc) ->
  entries (state (set_if_generation value_len now now' loaded key v gen rc)) !! k = Some e ->
  entries (state rc) !! k = Some e \/ (k = key /\ e_generation e = gen /\ e_data e = v).
Proof.
  intros Hac. unfold set_if_generation. destruct (decide (gen <> loaded)); [by left|].
  cbv zeta. set (bytes := entry_bytes value_len key v).
  destruct (admissible (config rc) key bytes); cbn [negb]; [|by left].
  set (st1 := remove key (reclaim now (state rc))).
  assert (Hs1 : shrinks (state rc) st1).
  { eapply shrinks_trans; [by apply (reclaim_shrinks now)|].
    apply remove_only_shrinks. by apply (reclaim_shrinks now). }
  destruct (evict_global_spec (size (entries st1)) (config rc) bytes st1 (proj2 Hs1) (le_n _))
    as [Hs2 _]. set (st2 := evict_global _ _ bytes st1) in *.
  destruct (evict_model_spec (size (entries st2)) (config rc) (policy (config rc) key)
    (model_prefix key) bytes st2 (proj2 Hs2) (le_n _)) as [Hs3 _].
  fold (model_prefix key). set (st3 := evict_model _ _ _ _ bytes st2) in *.
  cbn [state with_state entries]. intros [[<- <-]|[_ He]]%lookup_insert_Some; [by right|].
  left. eapply lookup_weaken; [exact He|].
  etrans; [exact (proj1 Hs3)|]. etrans; [exact (proj1 Hs2)|exact (proj1 Hs1)].
Qed.

Lemma set_generation now now' loaded key v gen rc :
  generation (set_if_generation value_len now now' loaded key v gen rc) = generation rc.
Proof.
  unfold set_if_generation. destruct (decide _); [done|]. cbv zeta. by destruct (negb _).
Qed.

Lemma well_configured_with c : well_configured c -> well_configured (config (with_config c)).
Proof.
  intros [He Hb Hm]. unfold with_config. destruct (validate c); by split.
Qed.

Record world_ok (c : CacheConfig) (w : World) : Prop := {
  wo_inv : world_inv w;
  wo_config : config (w_cache w) = config (with_config c);
  wo_bounded : bounded (config (w_cache w)) (state (w_cache w))
}.

Lemma world_ok_new c : well_configured c -> world_ok c (world_new c).
Proof.
  intros Hc. split; [|done|].
  - split; simpl.
    + unfold u64_max. lia.
    + lia.
    + intros key e. by rewrite lookup_empty.
    + intros rid r. by rewrite lookup_empty.
  - apply bounded_new. by apply well_configured_with.
Qed.

(** Keeping the entries keeps their freshness. *)
Lemma world_inv_from w rc' :
  world_inv w -> entries_from (w_cache w) rc' ->
  world_inv (mkWorld rc' (w_db w) (w_fence w) (w_readers w)).
Proof.
  intros [Hg Hf He Hr] [Hgen Hent]. split; simpl; rewrite ?Hgen; try done.
  intros key e Hke. destruct (Hent key e Hke) as (e0 & H0 & Hg0 & Hd0).
  rewrite Hg0, Hd0. exact (He key e0 H0).
Qed.

Lemma world_step_ok c w w' :
  well_configured c -> world_ok c w -> world_step w w' -> world_ok c w'.
Proof.
  intros Hc [Hinv Hcfg Hbd] Hstep. pose proof Hinv as [Hg Hf He Hr].
  assert (Hwc : well_configured (config (w_cache w))).
  { rewrite Hcfg. by apply well_configured_with. }
  destruct Hstep as [w|w Hlt rc|w rid key|w rid r Hrid|w rid r v now now' loaded Hrid Hv Hl|w op Hop];
    (split; [|cbn [w_cache]; rewrite ?apply_config; try done|]); simpl; try done.
  - split; simpl; [done|intros g; specialize (Hf g); lia| |].
    + intros key e Hke. destruct (He key e Hke) as (H1 & n & Hn & ->).
      split; [done|]. exists n. simpl. split; [lia|done].
    + intros rid r Hrd. destruct (Hr rid r Hrd) as [H1 H2]. split; [done|].
      intros n Hn. specialize (H2 n Hn). lia.
  - assert (Hnew : wrap_u64 (generation (w_cache w) + 1) = generation (w_cache w) + 1)
      by (apply wrap_u64_small; lia).
    split; simpl; rewrite ?Hnew.
    + lia.
    + intros g. case_decide; [lia|apply Hf].
    + intros key e Hke. destruct (He key e Hke) as (H1 & n & Hn & ->). split; [lia|].
      exists n. simpl. rewrite decide_False by lia. by split.
    + intros rid r Hrd. destruct (Hr rid r Hrd) as [H1 H2]. split; [lia|].
      rewrite decide_False by lia. done.
  - split; simpl; [done|done|done|].
    intros rid' r' [[<- <-]|[_ Hrd]]%lookup_insert_Some; [|by eapply Hr]. by split.
  - split; simpl; [done|done|done|].
    intros rid' r' [[<- <-]|[_ Hrd]]%lookup_insert_Some; [|by eapply Hr].
    destruct (Hr rid r Hrid) as [H1 _]. split; [done|]. simpl. intros n [= <-].
    split; [apply Hf|lia].
  - split; simpl; [by rewrite set_generation|done| |].
    + intros k e Hke. rewrite set_generation.
      apply set_entries in Hke as [Hke|(-> & -> & ->)]; [by apply He| |apply Hbd].
      destruct (Hr rid r Hrid) as [H1 H2]. split; [done|]. exists v. by split; [apply H2|].
    + intros rid' r' [_ Hrd]%lookup_delete_Some. rewrite set_generation. by eapply Hr.
  - etrans; [|exact Hcfg]. exact (apply_config (w_cache w) (OpSet now now' loaded (r_key r)
      (query (r_key r) v) (r_gen r))).
  - pose proof (apply_config (w_cache w) (OpSet now now' loaded (r_key r)
      (query (r_key r) v) (r_gen r))) as H. cbn [apply_cache] in H. rewrite H. by apply set_bounded.
  - apply world_inv_from; [done|]. apply op_from; [apply Hbd|done].
  - rewrite apply_config. by apply apply_bounded.
Qed.

Lemma world_reachable_ok c w : well_configured c -> world_reachable c w -> world_ok c w.
Proof.
  intros Hc Hr. induction Hr as [|w w' Hr IH Hs]; [by apply world_ok_new|].
  by eapply world_step_ok.
Qed.

Lemma apply_disabled rc op :
  effective_enabled rc = false -> entries (state rc) = ∅ -> accounted (state rc) ->
  entries (state (apply_cache rc op)) = ∅.
Proof.
  intros Hoff He Hac.
  assert (Hen : forall key, enabled_for (config rc) key = false).
  { intros key. unfold enabled_for, effective_enabled in *. by rewrite Hoff. }
  destruct op as [now now' loaded key v gen|now key| | |key|now|]; cbn [apply_cache].
  - unfold set_if_generation. destruct (decide _); [done|]. cbv zeta.
    unfold admissible. rewrite Hen. done.
  - unfold get. by rewrite Hen.
  - done.
  - unfold invalidate_model_locked. by destruct (mode (config rc)).
  - cbn [state with_state]. by rewrite entries_remove, He, delete_empty.
  - cbn [evict_expired state with_state]. destruct (reclaim_shrinks now (state rc) Hac) as [Hsub _].
    apply map_eq. intros k. rewrite lookup_empty. apply eq_None_not_Some. intros [e Hk].
    eapply lookup_weaken in Hk; [|exact Hsub]. by rewrite He, lookup_empty in Hk.
  - done.
Qed.

Lemma run_disabled c ops :
  well_configured c -> effective_enabled (with_config c) = false ->
  entries (state (run_cache (with_config c) ops)) = ∅.
Proof.
  intros Hc Hoff. unfold run_cache.
  assert (Hrun : forall rc, well_configured (config rc) -> bounded (config rc) (state rc) ->
    effective_enabled rc = false -> entries (state rc) = ∅ ->
    entries (state (foldl apply_cache rc ops)) = ∅).
  { induction ops as [|op ops IH]; intros rc Hw Hbd Ho He; [done|]. simpl. apply IH.
    - by rewrite apply_config.
    - rewrite apply_config. by apply apply_bounded.
    - unfold effective_enabled. by rewrite apply_config.
    - by apply apply_disabled; [| |apply Hbd]. }
  apply Hrun; [by apply well_configured_with| |done|by unfold with_config; destruct (validate c)].
  assert (Hst : state (with_config c) = state_new) by (unfold with_config; by destruct (validate c)).
  rewrite Hst. by apply bounded_new, well_configured_with.
Qed.
End Spec.

(** ** The properties *)

(** C8: a strong cache never serves stale data.  In any interleaving of readers (load the
    generation, miss, read the database, fill), writers (commit, then advance the
    generation, then take the lock) and every other use of the cache, a hit returns what
    the database answered at a version no older than at the last invalidation: it
    reflects every write committed before that invalidation began.  In any mode the hit
    is younger than its time to live. *)
Theorem cache_never_stale `{HashOrder} (value_len : Value -> option Z)
    (query : string -> Z -> Value) (c : CacheConfig) (w : World) (now : Z) (key : string)
    (v : Value) (rc' : ReadCache) :
  (forall v n, value_len v = Some n -> 0 <= n) -> well_configured c ->
  world_reachable value_len query c w ->
  get now key (w_cache w) = (Some v, rc') ->
  (exists e, entries (state (w_cache w)) !! key = Some e /\ e_data e = v /\
     since now (e_inserted e) < e_ttl e) /\
  (mode c = Strong ->
   exists n, w_fence w (generation (w_cache w)) <= n <= w_db w /\ v = query key n).
Proof.
  intros Hlen Hc Hr Hget. destruct (world_reachable_ok value_len Hlen query c w Hc Hr)
    as [[_ _ He _] Hcfg _].
  destruct (get_hit now key (w_cache w) v rc' Hget) as (e & Hke & <- & [Hex Hst] & _). split.
  - exists e. split; [done|]. split; [done|]. unfold expired in Hex.
    apply orb_false_iff in Hex as [Hex _]. apply bool_decide_eq_false in Hex. lia.
  - intros Hm. destruct (He key e Hke) as [_ (n & Hn & Hv)].
    exists n. rewrite <-Hst; [done|]. rewrite Hcfg. unfold with_config.
    by destruct (validate c).
Qed.

(** the cache stays within its bounds.  After any history of fills, reads and
    invalidations the gauges are exact, the number of entries and their bytes are within
    the configured limits, each model stays within its own limits, and a cache that is
    disabled or one of several instances holds nothing. *)
Theorem cache_bounded `{HashOrder} (value_len : Value -> option Z) (c : CacheConfig)
    (ops : list CacheOp) (key : string) :
  (forall v n, value_len v = Some n -> 0 <= n) -> well_configured c ->
  let rc := run_cache value_len (with_config c) ops in
  let es := entries (state rc) in
  let m := metrics (state rc) in
  m_entries m = Z.of_nat (size es) /\ estimated_bytes m = bytes_of all es /\
  m_entries m <= max_entries c /\ estimated_bytes m <= max_bytes c /\
  count_of (starts (model_prefix key)) es <= entry_limit c key /\
  bytes_of (starts (model_prefix key)) es <= byte_limit c key /\
  (effective_enabled (with_config c) = false -> es = ∅).
Proof.
  intros Hlen Hc rc es m.
  assert (Hwc : well_configured (config (with_config c))) by by apply well_configured_with.
  assert (Hsame : max_entries (config (with_config c)) = max_entries c /\
    max_bytes (config (with_config c)) = max_bytes c /\
    models (config (with_config c)) = models c).
  { unfold with_config. by destruct (validate c). }
  destruct Hsame as (H1 & H2 & H3).
  assert (Hbd : bounded (config (with_config c)) (state rc)).
  { apply run_bounded; [done|done|]. by apply bounded_new. }
  destruct Hbd as [[Hn Hb _] He Hby Hm]. specialize (Hm key).
  unfold entry_limit, byte_limit, policy in *. rewrite H1, H2, H3 in *.
  do 2 (split; [done|]). split; [unfold m; rewrite Hn; done|]. split; [done|]. split; [apply Hm|].
  split; [apply Hm|]. intros Hoff. unfold es, rc. by apply run_disabled.
Qed.

(** ** Witnesses *)
Module CacheExamples.
#[local] Existing Instance enum_order.

Definition len4 (v : Value) : option Z := Some 4.
Definition answer (key : string) (n : Z) : Value := json_int n.
Definition small : CacheConfig :=
  mkConfig true Strong 60 None 30 2 400 200 None false ∅.

Lemma len4_nonneg v n : len4 v = Some n -> 0 <= n.
Proof. intros [= <-]. lia. Qed.

Lemma small_ok : well_configured small.
Proof. split; simpl; [lia|unfold u64_max; lia|]. intros m p. rewrite lookup_empty. discriminate. Qed.

(** A reader starts, reads and fills. *)
Definition world0 : World := world_new small.
Definition world1 : World := mkWorld (w_cache world0) (w_db world0) (w_fence world0)
  (<[1 := mkReader "A:x" (generation (w_cache world0)) None]> (w_readers world0)).
Definition r1 : Reader := mkReader "A:x" 0 None.
Definition world2 : World := mkWorld (w_cache world1) (w_db world1) (w_fence world1)
  (<[1 := mkReader (r_key r1) (r_gen r1) (Some (w_db world1))]> (w_readers world1)).
Definition r2 : Reader := mkReader "A:x" 0 (Some 0).
Definition world3 : World := mkWorld
  (set_if_generation len4 0 0 0 (r_key r2) (answer (r_key r2) 0) (r_gen r2) (w_cache world2))
  (w_db world2) (w_fence world2) (delete 1 (w_readers world2)).

Lemma world3_reachable : world_reachable len4 answer small world3.
Proof.
  apply (wr_step _ _ _ world2); [apply (wr_step _ _ _ world1); [apply (wr_step _ _ _ world0)|]|].
  - apply wr_new.
  - exact (ws_start len4 answer world0 1 "A:x").
  - exact (ws_read len4 answer world1 1 r1 eq_refl).
  - refine (ws_fill len4 answer world2 1 r2 0 0 0 0 eq_refl eq_refl _). simpl. lia.
Qed.

Lemma cache_never_stale_witness :
  exists n rc', get 5 "A:x" (w_cache world3) = (Some (answer "A:x" n), rc') /\ 0 <= n <= 0.
Proof.
  destruct (get 5 "A:x" (w_cache world3)) as [o rc'] eqn:Hg.
  destruct o as [v|]; [|vm_compute in Hg; discriminate Hg].
  destruct (cache_never_stale len4 answer small world3 5 "A:x" v rc' len4_nonneg small_ok
    world3_reachable Hg) as [_ Hs].
  destruct (Hs eq_refl) as (n & Hn & ->). exists n, rc'. split; [reflexivity|exact Hn].
Defined.

Lemma cache_bounded_witness :
  m_entries (metrics (state (run_cache len4 (with_config small)
    [OpSet 0 0 0 "A:x" VNull 0; OpSet 1 1 0 "A:y" VNull 0; OpSet 2 2 0 "B:x" VNull 0]))) <= 2.
Proof.
  destruct (cache_bounded len4 small
    [OpSet 0 0 0 "A:x" VNull 0; OpSet 1 1 0 "A:y" VNull 0; OpSet 2 2 0 "B:x" VNull 0] "A:x"
    len4_nonneg small_ok) as (_ & _ & H & _). exact H.
Defined.
End CacheExamples.
