(* ===== verification/Validation.v ===== *)
(** * Field validation ([atomo/src/validation.rs])

    Rules are strings such as [required|min:1|max:255], checked against the JSON value of
    a field; the rules of a model are a hash map.  A string's length is its number of
    bytes, as [str::len] counts. *)

From stdpp Require Import pretty.
From S2P Require Import Prelude Json.

Record ValidationError : Type := mkError { ve_field : string; ve_message : string; ve_code : string }.

Definition pipe : Ascii.ascii := Ascii.ascii_of_nat 124.
Definition colon : Ascii.ascii := Ascii.ascii_of_nat 58.
Definition comma : Ascii.ascii := Ascii.ascii_of_nat 44.
Definition at_sign : Ascii.ascii := Ascii.ascii_of_nat 64.
Definition dot : Ascii.ascii := Ascii.ascii_of_nat 46.

Definition is_empty (s : string) : bool := match s with EmptyString => true | _ => false end.

(** [Number::as_f64] *)
Definition as_f64 (n : Number) : F64.t :=
  match n with PosInt z => F64.of_Z z | NegInt z => F64.of_Z z | Float x => x end.

(** ** [str::parse::<f64>] accepts: a sign, then a decimal number with an optional
    fraction and exponent, or an infinity or NaN by name *)

Definition is_digit (a : Ascii.ascii) : bool :=
  match digit_value a with Some _ => true | None => false end.

(** The leading digits: whether there are any, and the rest. *)
Fixpoint skip_digits (s : string) : bool * string :=
  match s with
  | String a r => if is_digit a then (true, (skip_digits r).2) else (false, s)
  | EmptyString => (false, s)
  end.

Definition skip_sign (s : string) : string :=
  match s with
  | String a r => if Ascii.eqb a (Ascii.ascii_of_nat 43) || Ascii.eqb a (Ascii.ascii_of_nat 45)
                  then r else s
  | EmptyString => s
  end.

Definition skip_fraction (s : string) : bool * string :=
  match s with
  | String a r => if Ascii.eqb a dot then skip_digits r else (false, s)
  | EmptyString => (false, s)
  end.

(** Nothing, or [e] with an optional sign and at least one digit to the end. *)
Definition exponent_ok (s : string) : bool :=
  match s with
  | EmptyString => true
  | String a r =>
      if Ascii.eqb (ascii_lower a) (Ascii.ascii_of_nat 101) then
        let '(some, rest) := skip_digits (skip_sign r) in some && is_empty rest
      else false
  end.

Definition is_f64 (s : string) : bool :=
  let s := skip_sign s in
  let lower := to_ascii_lowercase s in
  if bool_decide (lower = "inf"%string) || bool_decide (lower = "infinity"%string) ||
     bool_decide (lower = "nan"%string) then true
  else
    let '(int, rest) := skip_digits s in
    let '(frac, rest) := skip_fraction rest in
    (int || frac) && exponent_ok rest.

(** ** Checking one rule *)

Definition fail (field text code : string) : option ValidationError :=
  Some (mkError field (field +:+ text) code).

Definition bound_text (n : Z) : string := pretty n.

Definition check_min (field : string) (value : option Value) (min : Z) : option ValidationError :=
  match value with
  | Some (VString s) =>
      if decide (Z.of_nat (String.length s) < min)
      then fail field (" must be at least " +:+ bound_text min +:+ " characters") "min_length"
      else None
  | Some (VNumber n) =>
      if F64.ltb (as_f64 n) (F64.of_Z min)
      then fail field (" must be at least " +:+ bound_text min) "min_value" else None
  | _ => None
  end.

Definition check_max (field : string) (value : option Value) (max : Z) : option ValidationError :=
  match value with
  | Some (VString s) =>
      if decide (max < Z.of_nat (String.length s))
      then fail field (" must be at most " +:+ bound_text max +:+ " characters") "max_length"
      else None
  | Some (VNumber n) =>
      if F64.ltb (F64.of_Z max) (as_f64 n)
      then fail field (" must be at most " +:+ bound_text max) "max_value" else None
  | _ => None
  end.

(** The rule's name and parameter. *)
Definition rule_parts (rule : string) : string * option string :=
  match split_once colon rule with
  | Some (name, param) => (name, Some param)
  | None => (rule, None)
  end.

Definition check_rule (field : string) (value : option Value) (rule : string)
    : option ValidationError :=
  let '(rule_name, param) := rule_parts rule in
  if decide (rule_name = "required"%string) then
    let missing := match value with
                   | None | Some VNull => true
                   | Some (VString s) => is_empty s
                   | _ => false
                   end in
    if missing then fail field " is required" "required" else None
  else if decide (rule_name = "email"%string) then
    match value with
    | Some (VString s) =>
        if negb (is_empty s) && (negb (has_char at_sign s) || negb (has_char dot s))
        then fail field " must be a valid email" "email" else None
    | _ => None
    end
  else if decide (rule_name = "min"%string) then
    match param ≫= parse_u64 with
    | Some min => check_min field value min
    | None => None
    end
  else if decide (rule_name = "max"%string) then
    match param ≫= parse_u64 with
    | Some max => check_max field value max
    | None => None
    end
  else if decide (rule_name = "numeric"%string) then
    match value with
    | None | Some (VNumber _) | Some VNull => None
    | Some (VString s) => if is_f64 s then None else fail field " must be numeric" "numeric"
    | Some _ => fail field " must be numeric" "numeric"
    end
  else if decide (rule_name = "url"%string) then
    match value with
    | Some (VString s) =>
        if is_empty s || String.prefix "http://" s || String.prefix "https://" s then None
        else fail field " must be a valid URL" "url"
    | _ => None
    end
  else if decide (rule_name = "in"%string) then
    match value, param with
    | Some (VString s), Some opts =>
        if existsb (fun o => bool_decide (o = s)) (split_on comma opts) then None
        else fail field (" must be one of: " +:+ opts) "in"
    | _, _ => None
    end
  else None.

Section Validate.
Context {ho : HashOrder}.

Definition field_errors (data : gmap string Value) (p : string * string) : list ValidationError :=
  omap (check_rule p.1 (data !! p.1)) (split_on pipe p.2).

Definition validate (data : gmap string Value) (rules : gmap string string)
    : list ValidationError :=
  hpairs rules ≫= field_errors data.

Definition validate_partial (data : gmap string Value) (rules : gmap string string)
    : list ValidationError :=
  hpairs rules ≫= fun p =>
    match data !! p.1 with
    | None => []
    | Some _ => field_errors data p
    end.

(** ** Lemmas *)

(** Every rule of every field holds. *)
Definition all_hold (data : gmap string Value) (rules : gmap string string) : Prop :=
  forall field rule_str rule, rules !! field = Some rule_str -> rule ∈ split_on pipe rule_str ->
    check_rule field (data !! field) rule = None.

Lemma omap_nil {A B} (f : A -> option B) l : omap f l = [] <-> forall x, x ∈ l -> f x = None.
Proof.
  induction l as [|x l IH]; simpl.
  - split; [|done]. intros _ x Hx. by apply not_elem_of_nil in Hx.
  - split.
    + intros H y Hy. destruct (f x) eqn:Hf; [done|].
      apply elem_of_cons in Hy as [->|Hy]; [done|]. by apply IH.
    + intros H. rewrite (H x) by left. apply IH. intros y Hy. apply H. by right.
Qed.

Lemma bind_nil {A B} (f : A -> list B) l : l ≫= f = [] <-> forall x, x ∈ l -> f x = [].
Proof.
  induction l as [|x l IH]; simpl.
  - split; [|done]. intros _ x Hx. by apply not_elem_of_nil in Hx.
  - split.
    + intros H y Hy. apply app_eq_nil in H as [H1 H2].
      apply elem_of_cons in Hy as [->|Hy]; [done|]. by apply IH.
    + intros H. rewrite (H x) by left. apply IH. intros y Hy. apply H. by right.
Qed.

Lemma validate_nil data rules : validate data rules = [] <-> all_hold data rules.
Proof.
  unfold validate, all_hold. rewrite bind_nil. split.
  - intros H field rs rule Hr Hin. specialize (H (field, rs)).
    rewrite elem_of_hpairs in H. specialize (H Hr). unfold field_errors in H.
    rewrite omap_nil in H. by apply H.
  - intros H [field rs] Hp%elem_of_hpairs. unfold field_errors. rewrite omap_nil.
    intros rule Hin. by eapply H.
Qed.

Lemma validate_partial_nil data rules :
  validate_partial data rules = [] <->
  forall field rule_str rule, rules !! field = Some rule_str -> is_Some (data !! field) ->
    rule ∈ split_on pipe rule_str -> check_rule field (data !! field) rule = None.
Proof.
  unfold validate_partial. rewrite bind_nil. split.
  - intros H field rs rule Hr [v Hv] Hin. specialize (H (field, rs)).
    rewrite elem_of_hpairs in H. specialize (H Hr). cbn [fst snd] in H. rewrite Hv in H.
    unfold field_errors in H. rewrite omap_nil in H. by apply H.
  - intros H [field rs] Hp%elem_of_hpairs. cbn [fst]. destruct (data !! field) as [v|] eqn:Hv; [|done].
    unfold field_errors. rewrite omap_nil. intros rule Hin. cbn [fst].
    eapply H; [exact Hp|by exists v|exact Hin].
Qed.
End Validate.

Lemma map_to_list_filter {A} (P : string * A -> Prop) `{forall p, Decision (P p)}
    (m : gmap string A) :
  map_to_list (filter P m) ≡ₚ filter P (map_to_list m).
Proof.
  apply NoDup_Permutation.
  - apply NoDup_map_to_list.
  - apply NoDup_filter, NoDup_map_to_list.
  - intros [k v]. rewrite elem_of_map_to_list, map_lookup_filter_Some, list_elem_of_filter,
      elem_of_map_to_list. tauto.
Qed.

(** a validated record stays valid under validated patches.  A partial update is
    checked against exactly the rules of the fields it sets, and if the stored record
    satisfied its rules and the patch passes, the record after the patch satisfies every
    rule: create-time and update-time validation agree. *)
Theorem partial_update_sound `{HashOrder} (record patch : gmap string Value)
    (rules : gmap string string) :
  validate_partial patch rules ≡ₚ
    validate patch (filter (fun p => is_Some (patch !! p.1)) rules) /\
  (validate record rules = [] -> validate_partial patch rules = [] ->
   validate (patch ∪ record) rules = []).
Proof.
  split.
  - unfold validate_partial, validate.
    etrans; [apply bind_Permutation, horder_perm|].
    etrans; [|apply bind_Permutation; symmetry; apply horder_perm].
    etrans; [|apply bind_Permutation; symmetry; apply map_to_list_filter].
    induction (map_to_list rules) as [|[field rs] l IH]; [done|]. rewrite filter_cons. simpl.
    destruct (patch !! field) as [v|] eqn:Hv.
    + rewrite decide_True by (by exists v). simpl. by rewrite IH.
    + rewrite decide_False by (intros [v ?]; congruence). done.
  - rewrite !validate_nil, validate_partial_nil. intros Hrec Hpatch field rs rule Hr Hin.
    destruct (patch !! field) as [v|] eqn:Hv.
    + rewrite (lookup_union_Some_l _ _ _ _ Hv). rewrite <-Hv. eapply Hpatch; [exact Hr| |exact Hin].
      by exists v.
    + rewrite lookup_union_r by done. by eapply Hrec.
Qed.

Module ValidationExamples.
#[local] Existing Instance enum_order.
Definition rules : gmap string string :=
  {["title" := "required|min:1|max:255"%string; "value" := "numeric|min:0"%string]}.

Lemma partial_update_sound_witness :
  validate ({["value" := VNumber (PosInt 100)]} ∪ {["title" := VString "t"]}) rules = [].
Proof.
  apply (partial_update_sound {["title" := VString "t"]} {["value" := VNumber (PosInt 100)]} rules);
    vm_compute; reflexivity.
Defined.

(** The tests of the source. *)
Example rule_tests :
  check_rule "f" (Some (VString "not-an-email")) "email" <> None /\
  check_rule "f" (Some (VString "ftp://x.com")) "url" <> None /\
  check_rule "f" (Some (VString "bogus")) "in:lead,won,lost" <> None /\
  check_rule "f" (Some (VString "won")) "in:lead,won,lost" = None /\
  check_rule "f" (Some (VNumber (PosInt 5))) "min:10" <> None /\
  check_rule "f" (Some (VString "abcd")) "max:3" <> None /\
  check_rule "f" (Some (VString "-1.5e3")) "numeric" = None /\
  check_rule "f" (Some (VString "abc")) "numeric" <> None.
Proof. repeat split; discriminate. Qed.
End ValidationExamples.
