(* ===== verification/Workflow.v ===== *)
(** * The workflow engine ([atomo/src/workflow.rs])

    Definitions, their registry, the execution of a workflow's steps with conditions and
    failure policies, and the triggers.  What a step does outside the engine (GraphQL
    mutations, jobs, HTTP, time) goes through executors over an abstract world [W]; cron
    expressions are the [cron] crate's. *)

From S2P Require Import Prelude Json.

Abbreviation Ctx := (gmap string Value).

Inductive WorkflowTrigger : Type :=
  | OnEvent (model event_type : string)
  | Manual
  | Schedule (cron : string).

Inductive StepAction : Type :=
  | Mutation (query : string) (variables : Ctx)
  | Job (queue kind : string) (payload : Value) (idempotency_key : option string)
  | Http (method url : string) (body : option Value)
  | Delay (seconds : Z)
  | SetVariable (key : string) (value : Value).

Record Condition : Type := mkCondition { c_field : string; c_operator : string; c_value : Value }.

Inductive FailurePolicy : Type :=
  | Stop
  | Continue
  | Retry (max_attempts : nat).

Record WorkflowStep : Type := mkStep {
  s_name : string;
  s_action : StepAction;
  s_condition : option Condition;
  s_on_failure : FailurePolicy
}.

Record Workflow : Type := mkWorkflow {
  wf_name : string;
  wf_trigger : WorkflowTrigger;
  wf_steps : list WorkflowStep
}.

Inductive ExecutionStatus : Type := Running | Completed | Failed | Paused.

Record WorkflowExecution : Type := mkExecution {
  x_workflow_name : string;
  x_status : ExecutionStatus;
  x_current_step : nat;
  x_context : Ctx;
  x_errors : list string
}.

(** ** Conditions *)

Definition value_f64 (v : Value) : F64.t :=
  match v with
  | VNumber (PosInt z) | VNumber (NegInt z) => F64.of_Z z
  | VNumber (Float x) => x
  | _ => F64.of_Z 0
  end.
Definition as_str (v : Value) : string := match v with VString s => s | _ => EmptyString end.

Definition evaluate_condition (cond : Condition) (context : Ctx) : bool :=
  let val := default VNull (context !! c_field cond) in
  let op := c_operator cond in
  if decide (op = "eq"%string) then json_eqb val (c_value cond)
  else if decide (op = "neq"%string) then negb (json_eqb val (c_value cond))
  else if decide (op = "gt"%string) then F64.ltb (value_f64 (c_value cond)) (value_f64 val)
  else if decide (op = "lt"%string) then F64.ltb (value_f64 val) (value_f64 (c_value cond))
  else if decide (op = "contains"%string) then contains (as_str val) (as_str (c_value cond))
  else true.

(** ** Steps *)

Section Engine.
Context {W : Type} {ho : HashOrder}.

(** The executors the server injects, the HTTP client (the status of the response or a
    transport error) and the timer. *)
Record Executors : Type := mkExecutors {
  ex_mutation : option (string -> Ctx -> W -> (unit + string) * W);
  ex_job : option (string -> string -> Value -> option string -> W -> (string + string) * W);
  ex_http : string -> string -> option Value -> W -> (Z + string) * W;
  ex_sleep : Z -> W -> W
}.
Variable ex : Executors.

Definition no_mutation_executor : string :=
  "workflow Mutation step: no executor configured (server must inject one)".
Definition no_job_executor : string :=
  "workflow Job step: no executor configured (server must inject one)".
Variable http_failed : string -> Z -> string.   (* the text of a failed HTTP step *)

Definition is_success (status : Z) : bool := bool_decide (200 <= status < 300).

Definition execute_step (action : StepAction) (context : Ctx) (w : W)
    : (unit + string) * Ctx * W :=
  match action with
  | Delay seconds => (inl tt, context, ex_sleep ex seconds w)
  | SetVariable key value => (inl tt, <[key := value]> context, w)
  | Http method url body =>
      match ex_http ex method url body w with
      | (inr e, w') => (inr e, context, w')
      | (inl status, w') =>
          let context := <["http_status"%string := json_int status]> context in
          if is_success status then (inl tt, context, w')
          else (inr (http_failed url status), context, w')
      end
  | Mutation query variables =>
      match ex_mutation ex with
      | Some run => let '(r, w') := run query variables w in (r, context, w')
      | None => (inr no_mutation_executor, context, w)
      end
  | Job queue kind payload key =>
      match ex_job ex with
      | Some enqueue =>
          match enqueue queue kind payload key w with
          | (inl id, w') => (inl tt, <["job_id"%string := VString id]> context, w')
          | (inr e, w') => (inr e, context, w')
          end
      | None => (inr no_job_executor, context, w)
      end
  end.

(** [for _ in 0..max_attempts]: until one succeeds. *)
Fixpoint retry (n : nat) (action : StepAction) (context : Ctx) (w : W) : bool * Ctx * W :=
  match n with
  | O => (false, context, w)
  | S n =>
      match execute_step action context w with
      | (inl _, context, w) => (true, context, w)
      | (inr _, context, w) => retry n action context w
      end
  end.

Definition step_error (s : WorkflowStep) (e : string) : string :=
  "Step '" +:+ s_name s +:+ "': " +:+ e.

(** The loop over the steps from index [i] on. *)
Fixpoint run_steps (name : string) (i : nat) (last : nat) (steps : list WorkflowStep)
    (context : Ctx) (errors : list string) (w : W) : WorkflowExecution * W :=
  match steps with
  | [] => (mkExecution name Completed last context errors, w)
  | s :: rest =>
      let holds := match s_condition s with
                   | Some cond => evaluate_condition cond context
                   | None => true
                   end in
      if negb holds then run_steps name (S i) i rest context errors w
      else
        match execute_step (s_action s) context w with
        | (inl _, context, w) => run_steps name (S i) i rest context errors w
        | (inr e, context, w) =>
            let errors := errors ++ [step_error s e] in
            match s_on_failure s with
            | Stop => (mkExecution name Failed i context errors, w)
            | Continue => run_steps name (S i) i rest context errors w
            | Retry n =>
                match retry n (s_action s) context w with
                | (true, context, w) => run_steps name (S i) i rest context errors w
                | (false, context, w) => (mkExecution name Failed i context errors, w)
                end
            end
        end
  end.

(** ** The engine: the registry of workflows *)

Abbreviation Registry := (gmap string Workflow).

Definition register (wf : Workflow) (r : Registry) : Registry := <[wf_name wf := wf]> r.
Definition remove (name : string) (r : Registry) : bool * Registry :=
  (bool_decide (is_Some (r !! name)), delete name r).
Definition list_workflows (r : Registry) : list string := hkeys r.
Definition get (name : string) (r : Registry) : option Workflow := r !! name.

(** [None] is the error that no such workflow is registered. *)
Definition execute (name : string) (initial_context : Ctx) (r : Registry) (w : W)
    : option (WorkflowExecution * W) :=
  match r !! name with
  | None => None
  | Some wf => Some (run_steps name 0 0 (wf_steps wf) initial_context [] w)
  end.

Definition triggered_by (model event_type : string) (wf : Workflow) : bool :=
  match wf_trigger wf with
  | OnEvent m e => bool_decide (m = model) && bool_decide (e = event_type)
  | _ => false
  end.
Definition find_by_trigger (model event_type : string) (r : Registry) : list Workflow :=
  filter (fun wf => triggered_by model event_type wf = true) (hvalues r).

(** The event listener on one event: every matching workflow, in turn. *)
Definition on_event (model event_type : string) (data : Ctx) (r : Registry) (w : W) : W :=
  foldl (fun w wf => match execute (wf_name wf) data r w with Some (_, w) => w | None => w end)
    w (find_by_trigger model event_type r).

(** ** Schedules: [parse] and [next_after] are the [cron] crate's *)
Variable schedule : Type.
Variable parse : string -> schedule + string.
Variable next_after : schedule -> Z -> option Z.

Definition cron_should_fire (cron_expr : string) (last_tick now : Z) : bool + string :=
  match parse cron_expr with
  | inr e => inr e
  | inl s => inl (match next_after s last_tick with
                  | Some next => bool_decide (next <= now)
                  | None => false
                  end)
  end.

Definition scheduled (r : Registry) : list (string * string) :=
  omap (fun wf => match wf_trigger wf with Schedule c => Some (wf_name wf, c) | _ => None end)
    (hvalues r).

(** One tick of the scheduler. *)
Definition scheduler_tick (last_tick now : Z) (r : Registry) (w : W) : W :=
  foldl (fun w p => match cron_should_fire p.2 last_tick now with
                    | inl true => match execute p.1 ∅ r w with Some (_, w) => w | None => w end
                    | _ => w
                    end) w (scheduled r).

(** Loading the persisted definitions: rows that do not decode are skipped. *)
Definition init (decode : Value -> option Workflow) (rows : list Value) (r : Registry) : Registry :=
  foldl (fun r def => match decode def with Some wf => register wf r | None => r end) r rows.

(** ** What an execution means *)

Inductive StepEnd : Type := Skipped | Done | Ignored | Recovered | Fatal.

(** [k] consecutive failures. *)
Inductive fails (action : StepAction) : nat -> Ctx -> W -> Ctx -> W -> Prop :=
  | fails_0 c w : fails action 0 c w c w
  | fails_S k c w e c1 w1 c2 w2 :
      execute_step action c w = (inr e, c1, w1) -> fails action k c1 w1 c2 w2 ->
      fails action (S k) c w c2 w2.

Definition applies (s : WorkflowStep) (c : Ctx) : Prop :=
  match s_condition s with Some cond => evaluate_condition cond c = true | None => True end.

(** How a step ends, by its condition, its action and its policy, and the error it logs. *)
Inductive ends (s : WorkflowStep) (c : Ctx) (w : W) : StepEnd -> list string -> Ctx -> W -> Prop :=
  | end_skipped : ~ applies s c -> ends s c w Skipped [] c w
  | end_done c' w' :
      applies s c -> execute_step (s_action s) c w = (inl tt, c', w') -> ends s c w Done [] c' w'
  | end_ignored e c' w' :
      applies s c -> execute_step (s_action s) c w = (inr e, c', w') ->
      s_on_failure s = Continue -> ends s c w Ignored [step_error s e] c' w'
  | end_stopped e c' w' :
      applies s c -> execute_step (s_action s) c w = (inr e, c', w') ->
      s_on_failure s = Stop -> ends s c w Fatal [step_error s e] c' w'
  | end_recovered n k e c1 w1 c2 w2 c3 w3 :
      applies s c -> execute_step (s_action s) c w = (inr e, c1, w1) ->
      s_on_failure s = Retry n -> (k < n)%nat -> fails (s_action s) k c1 w1 c2 w2 ->
      execute_step (s_action s) c2 w2 = (inl tt, c3, w3) ->
      ends s c w Recovered [step_error s e] c3 w3
  | end_exhausted n e c1 w1 c2 w2 :
      applies s c -> execute_step (s_action s) c w = (inr e, c1, w1) ->
      s_on_failure s = Retry n -> fails (s_action s) n c1 w1 c2 w2 ->
      ends s c w Fatal [step_error s e] c2 w2.

(** Steps that end one after the other, none fatally. *)
Inductive survives : list WorkflowStep -> Ctx -> W -> list string -> Ctx -> W -> Prop :=
  | survives_nil c w : survives [] c w [] c w
  | survives_cons s rest c w o errs c1 w1 errs' c2 w2 :
      ends s c w o errs c1 w1 -> o <> Fatal -> survives rest c1 w1 errs' c2 w2 ->
      survives (s :: rest) c w (errs ++ errs') c2 w2.

Lemma retry_spec n action c w :
  match retry n action c w with
  | (true, c', w') => exists k c1 w1, (k < n)%nat /\ fails action k c w c1 w1 /\
      execute_step action c1 w1 = (inl tt, c', w')
  | (false, c', w') => fails action n c w c' w'
  end.
Proof.
  revert c w. induction n as [|n IH]; intros c w; simpl; [constructor|].
  destruct (execute_step action c w) as [[[[]|e] c1] w1] eqn:He.
  - exists 0%nat, c, w. split; [lia|]. split; [constructor|done].
  - specialize (IH c1 w1). destruct (retry n action c1 w1) as [[[] c2] w2].
    + destruct IH as (k & c3 & w3 & Hk & Hf & Hs). exists (S k), c3, w3.
      split; [lia|]. split; [by econstructor|done].
    + by econstructor.
Qed.

#[local] Instance StepEnd_eq_dec : EqDecision StepEnd.
Proof. solve_decision. Defined.

(** A step's end decides whether the loop goes on. *)
Lemma run_step name i last s rest c errs w :
  exists o es c' w', ends s c w o es c' w' /\
    run_steps name i last (s :: rest) c errs w =
    (if decide (o = Fatal) then (mkExecution name Failed i c' (errs ++ es), w')
     else run_steps name (S i) i rest c' (errs ++ es) w').
Proof.
  cbn [run_steps]. destruct (match s_condition s with Some _ => _ | None => _ end) eqn:Hc.
  2: { exists Skipped, [], c, w. rewrite app_nil_r. split; [|done]. constructor.
       unfold applies. destruct (s_condition s); [by rewrite Hc|done]. }
  assert (Ha : applies s c) by (unfold applies; by destruct (s_condition s)).
  destruct (execute_step (s_action s) c w) as [[[[]|e] c1] w1] eqn:He; cbn [negb].
  { exists Done, [], c1, w1. rewrite app_nil_r. split; [by constructor|done]. }
  destruct (s_on_failure s) as [| |n] eqn:Hp.
  - exists Fatal, [step_error s e], c1, w1. split; [by constructor|done].
  - exists Ignored, [step_error s e], c1, w1. split; [by constructor|done].
  - pose proof (retry_spec n (s_action s) c1 w1) as Hr.
    destruct (retry n (s_action s) c1 w1) as [[[] c2] w2].
    + destruct Hr as (k & c3 & w3 & Hk & Hf & Hs).
      exists Recovered, [step_error s e], c2, w2. split; [by eapply end_recovered|done].
    + exists Fatal, [step_error s e], c2, w2. split; [by eapply end_exhausted|done].
Qed.

(** What an execution of the steps from the [i]th on may report: it ran to the end, and the
    current step is the last one, or it ended fatally at the current step. *)
Inductive outcome (i last : nat) (steps : list WorkflowStep) (c : Ctx) (w : W)
    : ExecutionStatus -> nat -> list string -> Ctx -> W -> Prop :=
  | ran_through es c' w' :
      survives steps c w es c' w' ->
      outcome i last steps c w Completed (match steps with [] => last | _ :: rest => (i + length rest)%nat end) es c' w'
  | stopped_at pre s post es1 es2 c1 w1 c' w' :
      steps = pre ++ s :: post -> survives pre c w es1 c1 w1 -> ends s c1 w1 Fatal es2 c' w' ->
      outcome i last steps c w Failed (i + length pre)%nat (es1 ++ es2) c' w'.

Lemma outcome_step i last s rest c w o es c1 w1 st cur es' c' w' :
  ends s c w o es c1 w1 -> o <> Fatal -> outcome (S i) i rest c1 w1 st cur es' c' w' ->
  outcome i last (s :: rest) c w st cur (es ++ es') c' w'.
Proof.
  intros He Ho H. destruct H as [es2 c2 w2 Hs|pre s' post e1 e2 c2 w2 c3 w3 -> Hs Hf].
  - replace (match rest with [] => i | _ :: rest => (S i + length rest)%nat end) with (i + length rest)%nat
      by (destruct rest; cbn; lia).
    apply (ran_through i last (s :: rest)). by eapply survives_cons.
  - replace (S i + length pre)%nat with (i + length (s :: pre))%nat by (cbn; lia). rewrite app_assoc.
    eapply stopped_at; [reflexivity|by eapply survives_cons|done].
Qed.

Lemma run_steps_sound name i last steps c errs w :
  exists st cur es c' w', outcome i last steps c w st cur es c' w' /\
    run_steps name i last steps c errs w = (mkExecution name st cur c' (errs ++ es), w').
Proof.
  revert i last c errs w. induction steps as [|s rest IH]; intros i last c errs w.
  { exists Completed, last, [], c, w. rewrite app_nil_r. split; [|done].
    apply (ran_through i last [] c w [] c w). constructor. }
  destruct (run_step name i last s rest c errs w) as (o & es & c' & w' & He & ->).
  destruct (decide (o = Fatal)) as [->|Ho].
  { exists Failed, (i + 0)%nat, es, c', w'. split; [|by rewrite Nat.add_0_r].
    apply (stopped_at i last _ c w [] s rest [] es c w c' w'); [done|constructor|done]. }
  destruct (IH (S i) i c' (errs ++ es) w') as (st & cur & es' & c2 & w2 & Hout & ->).
  exists st, cur, (es ++ es'), c2, w2. rewrite app_assoc. split; [by eapply outcome_step|done].
Qed.

(** ** A step ends in one way *)

Lemma retry_fails n action c w c' w' : fails action n c w c' w' -> retry n action c w = (false, c', w').
Proof. induction 1 as [|k c w e c1 w1 c2 w2 He Hf IH]; [done|]. simpl. by rewrite He. Qed.
Lemma retry_succeeds n k action c w c1 w1 c2 w2 :
  fails action k c w c1 w1 -> (k < n)%nat -> execute_step action c1 w1 = (inl tt, c2, w2) ->
  retry n action c w = (true, c2, w2).
Proof.
  intros Hf. revert n. induction Hf as [c w|k c w e ca wa cb wb He Hf IH]; intros [|n] Hn Hs; try lia; simpl.
  - by rewrite Hs.
  - rewrite He. apply IH; [lia|done].
Qed.
Lemma ends_det s c w o1 es1 c1 w1 o2 es2 c2 w2 :
  ends s c w o1 es1 c1 w1 -> ends s c w o2 es2 c2 w2 -> (o1, es1, c1, w1) = (o2, es2, c2, w2).
Proof.
  intros H1 H2. destruct H1, H2; simplify_eq; try done;
    repeat match goal with
    | H : fails _ ?k _ _ _ _, L : (?k < ?n)%nat, E : execute_step _ _ _ = (inl tt, _, _) |- _ =>
        pose proof (retry_succeeds n k _ _ _ _ _ _ _ H L E); clear L
    end;
    repeat match goal with H : fails _ ?n _ _ _ _ |- _ => apply retry_fails in H end; congruence.
Qed.
Lemma survives_det steps c w es1 c1 w1 es2 c2 w2 :
  survives steps c w es1 c1 w1 -> survives steps c w es2 c2 w2 -> (es1, c1, w1) = (es2, c2, w2).
Proof.
  intros H. revert es2 c2 w2. induction H as [|s rest c w o e ca wa e' cb wb He Ho Hs IH]; intros es2 c2 w2 H2; inversion H2; subst; [done|].
  assert (Hd := ends_det _ _ _ _ _ _ _ _ _ _ _ He ltac:(eassumption)). simplify_eq.
  by assert (Hi := IH _ _ _ ltac:(eassumption)); simplify_eq.
Qed.
(** A step that ended fatally was not survived. *)
Lemma survives_fatal pre s post c w es1 c1 w1 es2 c2 w2 es c' w' :
  survives pre c w es1 c1 w1 -> ends s c1 w1 Fatal es2 c2 w2 -> survives (pre ++ s :: post) c w es c' w' -> False.
Proof.
  intros H. revert es c' w'. induction H as [c w|p rest c w o e ca wa e' cb wb He Ho Hs IH]; intros es c' w' Hf H2;
    inversion H2; subst.
  - assert (Hd := ends_det _ _ _ _ _ _ _ _ _ _ _ Hf ltac:(eassumption)). by simplify_eq.
  - assert (Hd := ends_det _ _ _ _ _ _ _ _ _ _ _ He ltac:(eassumption)). simplify_eq. by eapply IH.
Qed.
Lemma fatal_det pre s post pre' s' post' c w es1 c1 w1 es2 c2 w2 es1' c1' w1' es2' c2' w2' :
  pre ++ s :: post = pre' ++ s' :: post' ->
  survives pre c w es1 c1 w1 -> ends s c1 w1 Fatal es2 c2 w2 ->
  survives pre' c w es1' c1' w1' -> ends s' c1' w1' Fatal es2' c2' w2' ->
  (length pre, es1, es2, c2, w2) = (length pre', es1', es2', c2', w2').
Proof.
  intros E H. revert pre' es1' E. induction H as [c w|p rest c w o e ca wa e' cb wb He Ho Hs IH]; intros pre' es1' E Hf H2 Hf';
    inversion H2; subst; cbn in E; simplify_eq.
  - assert (Hd := ends_det _ _ _ _ _ _ _ _ _ _ _ Hf Hf'). by simplify_eq.
  - assert (Hd := ends_det _ _ _ _ _ _ _ _ _ _ _ Hf ltac:(eassumption)). by simplify_eq.
  - assert (Hd := ends_det _ _ _ _ _ _ _ _ _ _ _ He Hf'). by simplify_eq.
  - assert (Hd := ends_det _ _ _ _ _ _ _ _ _ _ _ He ltac:(eassumption)). simplify_eq.
    assert (Hr := IH _ _ ltac:(eassumption) Hf ltac:(eassumption) Hf'). cbn. congruence.
Qed.
(** Reports of one execution agree. *)
Lemma outcome_det i last steps c w st1 n1 es1 c1 w1 st2 n2 es2 c2 w2 :
  outcome i last steps c w st1 n1 es1 c1 w1 -> outcome i last steps c w st2 n2 es2 c2 w2 ->
  (st1, n1, es1, c1, w1) = (st2, n2, es2, c2, w2).
Proof.
  intros H1 H2. destruct H1 as [? ? ? H1|? ? ? ? ? ? ? ? ? -> H1 F1], H2 as [? ? ? H2|? ? ? ? ? ? ? ? ? E H2 F2]; subst.
  - pose proof (survives_det _ _ _ _ _ _ _ _ _ H1 H2). congruence.
  - destruct (survives_fatal _ _ _ _ _ _ _ _ _ _ _ _ _ _ H2 F2 H1).
  - destruct (survives_fatal _ _ _ _ _ _ _ _ _ _ _ _ _ _ H1 F1 H2).
  - pose proof (fatal_det _ _ _ _ _ _ _ _ _ _ _ _ _ _ _ _ _ _ _ _ E H1 F1 H2 F2). congruence.
Qed.

Lemma survives_errors steps c w es c' w' :
  survives steps c w es c' w' -> (length es <= length steps)%nat.
Proof.
  induction 1 as [|s rest c w o errs c1 w1 errs' c2 w2 He Ho Hs IH]; [done|].
  rewrite length_app. simpl. enough (length errs <= 1)%nat by lia. destruct He; simpl; lia.
Qed.

Lemma outcome_errors i last steps c w st cur es c' w' :
  outcome i last steps c w st cur es c' w' -> (length es <= length steps)%nat.
Proof.
  destruct 1 as [es c' w' Hs|pre s post e1 e2 c1 w1 c' w' -> Hs Hf]; [by eapply survives_errors|].
  apply survives_errors in Hs. rewrite !length_app. cbn. enough (length e2 <= 1)%nat by lia. destruct Hf; cbn; lia.
Qed.

(** C9: what an execution reports is what happened, and nothing else can be reported.  An
    execution of a registered workflow is completed just when every step in order was
    skipped by its condition, succeeded, failed under [Continue], or succeeded at one of at
    most [max_attempts] retries, and then the current step is the last one.  It is failed
    just when the step it names was reached that way and its action failed under [Stop] or
    failed the first time and every retry, and nothing after it ran.  The errors are those
    of the failed first attempts, in order, at most one per step; the context and the world
    are the ones these steps left.  Only a name that is not registered is refused. *)
Theorem execute_outcome (name : string) (context : Ctx) (r : Registry) (w : W) :
  (execute name context r w = None <-> r !! name = None) /\
  forall x w', execute name context r w = Some (x, w') <->
    exists wf, r !! name = Some wf /\ x_workflow_name x = name /\ (length (x_errors x) <= length (wf_steps wf))%nat /\
      outcome 0 0 (wf_steps wf) context w (x_status x) (x_current_step x) (x_errors x) (x_context x) w'.
Proof.
  unfold execute. destruct (r !! name) as [wf|]; [|split; [done|split; [done|by intros (wf & [=] & _)]]].
  split; [done|]. intros x w'. destruct (run_steps_sound name 0 0 (wf_steps wf) context [] w) as (st & cur & es & c' & w1 & Hout & ->).
  split.
  - intros [= <- <-]. exists wf. split_and!; [done|done|by eapply outcome_errors|done].
  - intros (wf' & [= <-] & Hn & _ & Hx). pose proof (outcome_det _ _ _ _ _ _ _ _ _ _ _ _ _ _ _ Hx Hout) as Hd.
    destruct x; cbn in *. by simplify_eq.
Qed.
End Engine.

(** ** A run, evaluated *)

Module WorkflowExamples.
(** A service that answers its third call only; the world counts the calls. *)
Definition ex : @Executors nat :=
  mkExecutors None None (fun _ _ _ n => (inl (if decide (n = 2%nat) then 200 else 503), S n)) (fun _ n => n).
Definition http_failed (url : string) (status : Z) : string := "HTTP failed: " +:+ url.
Definition call : StepAction := Http "POST" "https://hook" None.
Definition notify (attempts : nat) : Workflow :=
  mkWorkflow "notify" Manual
    [mkStep "set" (SetVariable "kind" (VString "post")) None Stop;
     mkStep "skipped" call (Some (mkCondition "kind" "neq" (VString "post"))) Stop;
     mkStep "call" call None (Retry attempts)].
Definition registry (attempts : nat) : gmap string Workflow := {["notify" := notify attempts]}.

Lemma execute_outcome_witness :
  (exists c, outcome ex http_failed 0 0 (wf_steps (notify 2)) ∅ 0%nat Completed 2 ["Step 'call': HTTP failed: https://hook"] c 3%nat) /\
  (exists c, outcome ex http_failed 0 0 (wf_steps (notify 1)) ∅ 0%nat Failed 2 ["Step 'call': HTTP failed: https://hook"] c 2%nat).
Proof.
  split.
  - destruct (execute ex http_failed "notify" ∅ (registry 2) 0%nat) as [[x w]|] eqn:E; [|by vm_compute in E].
    destruct (proj1 (proj2 (execute_outcome ex http_failed "notify" ∅ (registry 2) 0%nat) x w) E) as (wf & Hwf & _ & _ & H).
    vm_compute in Hwf. injection Hwf as <-. vm_compute in E. injection E as <- <-. by eexists.
  - destruct (execute ex http_failed "notify" ∅ (registry 1) 0%nat) as [[x w]|] eqn:E; [|by vm_compute in E].
    destruct (proj1 (proj2 (execute_outcome ex http_failed "notify" ∅ (registry 1) 0%nat) x w) E) as (wf & Hwf & _ & _ & H).
    vm_compute in Hwf. injection Hwf as <-. vm_compute in E. injection E as <- <-. by eexists.
Defined.
End WorkflowExamples.
