(* ===== verification/Dispatcher.v ===== *)
(** * The action dispatcher ([atomo_server/src/action_dispatcher.rs])

    It listens to model events and enqueues a job for every lifecycle binding of the
    schema that matches.  The job store is [Jobs]; what the database supplies to each
    enqueue (clock, fresh id) is an argument. *)

From S2P Require Import Prelude Json SchemaTypes Jobs JobsSpec.

Definition ACTION_QUEUE : string := "actions".

(** Does this binding fire?  An action is not started by the event it caused itself. *)
Definition binding_fires (ev : ModelEvent) (b : EventActionBinding) : bool :=
  match ev_origin ev with
  | Some origin => negb (bool_decide (origin = eb_action b))
  | None => true
  end &&
  match eb_condition b with
  | None => true
  | Some cond => condition_matches cond (ev_data ev) (ev_previous ev)
  end.

Definition matching_bindings (sc : Schema) (ev : ModelEvent) : option (list EventActionBinding) :=
  match sc_models sc !! ev_model ev with
  | None => None
  | Some model =>
      let events := m_events model in
      match ev_type ev with
      | MCreated => Some (filter (fun b => binding_fires ev b = true) (me_created events))
      | MUpdated => Some (filter (fun b => binding_fires ev b = true) (me_updated events))
      | MDeleted | MHardDeleted =>
          Some (filter (fun b => binding_fires ev b = true) (me_deleted events))
      | _ => None
      end
  end.

Definition build_job_payload (ev : ModelEvent) (action_name : string) (input : Doc) : Value :=
  json_object [
    ("action"%string, VString action_name);
    ("model"%string, VString (ev_model ev));
    ("event"%string, VString (to_ascii_lowercase (event_type_debug (ev_type ev))));
    ("eventId"%string, VString (ev_id ev));
    ("input"%string, object_of_map input);
    ("actor"%string, json_opt_string (ev_actor ev));
    ("timestamp"%string, VString (ev_timestamp ev));
    ("origin"%string, json_opt_string (ev_origin ev))].

Definition idempotency_key (ev : ModelEvent) (action : string) : string :=
  ev_id ev +:+ ":" +:+ action.

(** The job a binding asks for. *)
Definition action_job (sc : Schema) (ev : ModelEvent) (b : EventActionBinding) : Enqueue :=
  let input := match sc_actions sc !! eb_action b with
               | Some def => build_input def (ev_data ev)
               | None => ev_data ev
               end in
  mkEnqueue ACTION_QUEUE (eb_action b) (build_job_payload ev (eb_action b) input)
    (Some (idempotency_key ev (eb_action b))) 5 0
    (ev_data ev !! "tenant_id"%string ≫= value_as_str).

Section Dispatch.
Context {ho : HashOrder}.
Variable sc : Schema.

(** What the database gives the [i]-th enqueue of a run. *)
Variable now : nat -> Z.
Variable fresh : nat -> string.

(** The loop over the bindings of one event; a failed enqueue is logged and skipped. *)
Fixpoint enqueue_bindings (ev : ModelEvent) (bs : list EventActionBinding) (i : nat)
    (st : JobStore) : JobStore * nat :=
  match bs with
  | [] => (st, i)
  | b :: rest =>
      enqueue_bindings ev rest (S i)
        (from_option snd st (enqueue (now i) (fresh i) (action_job sc ev b) st))
  end.

Definition dispatch (ev : ModelEvent) (i : nat) (st : JobStore) : JobStore * nat :=
  match matching_bindings sc ev with
  | Some bs => enqueue_bindings ev bs i st
  | None => (st, i)
  end.

(** The background task: [while let Ok(ev) = rx.recv().await]. *)
Fixpoint run_dispatcher (rx : list Received) (i : nat) (st : JobStore) : JobStore * nat :=
  match rx with
  | REvent ev :: rest => let '(st, i) := dispatch ev i st in run_dispatcher rest i st
  | _ => (st, i)
  end.

(** ** Lemmas *)

Lemma idempotency_key_inj ev a b : idempotency_key ev a = idempotency_key ev b -> a = b.
Proof.
  unfold idempotency_key. induction (ev_id ev) as [|c s IH]; rewrite ?str_app_nil.
  - rewrite !str_app_cons, !str_app_nil. by intros [= ?].
  - rewrite !str_app_cons. intros [= H]. by apply IH.
Qed.

(** The row of an action, by its key. *)
Definition action_row (ev : ModelEvent) (action : string) (r : JobRow) : Prop :=
  j_queue r = ACTION_QUEUE /\ j_key r = Some (idempotency_key ev action).

Lemma same_key_action ev b r : same_key (action_job sc ev b) r <-> action_row ev (eb_action b) r.
Proof. unfold same_key, action_row. simpl. naive_solver. Qed.

(** One enqueue of the loop: the table grows by at most the new row, and then holds a row
    for the action. *)
Lemma enqueue_action t id ev b st :
  let st' := from_option snd st (enqueue t id (action_job sc ev b) st) in
  jobs st !! id = None ->
  (jobs st' = jobs st \/
   ((forall i r, jobs st !! i = Some r -> ~ action_row ev (eb_action b) r) /\
    jobs st' = <[id := new_row t (action_job sc ev b)]> (jobs st))) /\
  exists i r, jobs st' !! i = Some r /\ action_row ev (eb_action b) r.
Proof.
  intros st' Hid. unfold st'. rewrite enqueue_jobs, Hid.
  destruct (existing (action_job sc ev b) (jobs st)) as [i|] eqn:He.
  - apply existing_spec in He as (r & Hr & Hk%same_key_action). split; [by left|by exists i, r].
  - split.
    + right. split; [|done]. intros i r Hr Ha%same_key_action. by eapply existing_none.
    + eexists id, _. rewrite lookup_insert_eq. split; [done|]. by apply same_key_action.
Qed.

(** Every action of the bindings that has no row yet gets one, nothing else changes. *)
Record dispatched (ev : ModelEvent) (bs : list EventActionBinding) (js js' : gmap string JobRow)
    : Prop := {
  dp_kept : js ⊆ js';
  dp_new i r : js' !! i = Some r -> js !! i = None ->
    exists t b, b ∈ bs /\ r = new_row t (action_job sc ev b) /\
      (forall j s, js !! j = Some s -> ~ action_row ev (eb_action b) s);
  dp_all b : b ∈ bs -> exists i r, js' !! i = Some r /\ action_row ev (eb_action b) r
}.

Lemma enqueue_bindings_spec ev bs i st :
  (forall k, (i <= k)%nat -> jobs st !! fresh k = None) -> Inj (=) (=) fresh ->
  let st' := (enqueue_bindings ev bs i st).1 in
  dispatched ev bs (jobs st) (jobs st') /\
  (enqueue_bindings ev bs i st).2 = (i + length bs)%nat /\
  (forall k, (i + length bs <= k)%nat -> jobs st' !! fresh k = None).
Proof.
  intros Hfresh Hinj. revert i st Hfresh. induction bs as [|b bs IH]; intros i st Hfresh.
  { cbn [enqueue_bindings fst snd length]. rewrite Nat.add_0_r. split; [|done]. split; [done| |].
    - intros j r H1 H2. congruence.
    - by intros b ?%not_elem_of_nil. }
  cbn [enqueue_bindings length]. rewrite Nat.add_succ_r.
  destruct (enqueue_action (now i) (fresh i) ev b st (Hfresh i (le_n _))) as [Hch Hrow].
  set (st1 := from_option snd st _) in *.
  assert (Hf1 : forall k, (S i <= k)%nat -> jobs st1 !! fresh k = None).
  { intros k Hk. destruct Hch as [->|[_ ->]]; [apply Hfresh; lia|].
    rewrite lookup_insert_ne; [apply Hfresh; lia|]. intros He%Hinj. lia. }
  destruct (IH (S i) st1 Hf1) as ([Hk Hn Ha] & Hi & Hf). split; [|done].
  assert (Hsub : jobs st ⊆ jobs st1).
  { destruct Hch as [->|[_ ->]]; [done|]. apply insert_subseteq, Hfresh. lia. }
  split.
  - by etrans.
  - intros j r Hj Hno. destruct (jobs st1 !! j) as [r1|] eqn:H1.
    + assert (r1 = r) as -> by (eapply lookup_weaken in H1; [|exact Hk]; congruence).
      destruct Hch as [Heq|[Hnew Heq]]; rewrite Heq in H1; [congruence|].
      apply lookup_insert_Some in H1 as [[<- <-]|[_ H1]]; [|congruence].
      exists (now i), b. split; [left|]. done.
    + destruct (Hn j r Hj H1) as (t & b' & Hb & -> & Hold). exists t, b'.
      split; [by right|]. split; [done|]. intros j' s Hs. eapply Hold, lookup_weaken; done.
  - intros b' [->|Hb]%elem_of_cons; [|by apply Ha].
    destruct Hrow as (j & r & Hj & Hr). exists j, r. split; [by eapply lookup_weaken|done].
Qed.

(** Enqueuing again for actions that all have their row changes nothing. *)
Lemma enqueue_bindings_again ev bs i st :
  (forall b, b ∈ bs -> exists j r, jobs st !! j = Some r /\ action_row ev (eb_action b) r) ->
  (enqueue_bindings ev bs i st).1 = st.
Proof.
  revert i. induction bs as [|b bs IH]; intros i Hall; [done|]. cbn [enqueue_bindings].
  assert (Hsame : from_option snd st (enqueue (now i) (fresh i) (action_job sc ev b) st) = st).
  { destruct (Hall b) as (j & r & Hj & Hr%same_key_action); [left|].
    unfold enqueue, enqueue_tx. destruct (existing _ _) eqn:He.
    - by destruct st.
    - exfalso. by eapply existing_none. }
  rewrite Hsame. apply IH. intros b' Hb. apply Hall. by right.
Qed.

Lemma binding_fires_origin ev b : binding_fires ev b = true -> ev_origin ev <> Some (eb_action b).
Proof.
  unfold binding_fires. intros [Ho _]%andb_true_iff. destruct (ev_origin ev) as [o|]; [|done].
  apply negb_true_iff, bool_decide_eq_false in Ho. congruence.
Qed.

Lemma matching_fires ev bs b :
  matching_bindings sc ev = Some bs -> b ∈ bs -> binding_fires ev b = true.
Proof.
  unfold matching_bindings. destruct (sc_models sc !! ev_model ev); [|done].
  destruct (ev_type ev); try done; intros [= <-] [Hb _]%list_elem_of_filter; done.
Qed.
End Dispatch.

(** C12: lifecycle actions are dispatched once.  Dispatching an event keeps every job of
    the table; every job it adds is queued for a binding of the event's model that fires,
    with the payload and tenant of the event, and its action is not the one that caused
    the event; afterwards every such binding's action has exactly one job for this event;
    and delivering the same event again, at any later time, changes nothing at all, not
    even the events sent. *)
Theorem dispatch_once `{HashOrder} (sc : Schema) (now now' : nat -> Z)
    (fresh fresh' : nat -> string) (ev : ModelEvent) (bs : list EventActionBinding)
    (i i' : nat) (st : JobStore) :
  jobs_wf (jobs st) -> Inj (=) (=) fresh -> (forall k, jobs st !! fresh k = None) ->
  matching_bindings sc ev = Some bs ->
  let st' := (dispatch sc now fresh ev i st).1 in
  jobs st ⊆ jobs st' /\
  (forall id r, jobs st' !! id = Some r -> jobs st !! id = None ->
     exists t b, b ∈ bs /\ r = new_row t (action_job sc ev b) /\ ev_origin ev <> Some (j_kind r)) /\
  (forall b, b ∈ bs -> exists id r, jobs st' !! id = Some r /\ action_row ev (eb_action b) r /\
     forall id' r', jobs st' !! id' = Some r' -> action_row ev (eb_action b) r' -> id' = id) /\
  (dispatch sc now' fresh' ev i' st').1 = st'.
Proof.
  intros Hwf Hinj Hfresh Hbs. cbv zeta. unfold dispatch. rewrite Hbs.
  set (st' := (enqueue_bindings sc now fresh ev bs i st).1).
  destruct (enqueue_bindings_spec sc now fresh ev bs i st (fun k _ => Hfresh k) Hinj)
    as ([Hk Hn Ha] & _ & _). fold st' in Hk, Hn, Ha.
  assert (Hwf' : jobs_wf (jobs st')).
  { unfold st'. clear -Hwf. revert i st Hwf. induction bs as [|b bs IH]; intros i st Hwf; [done|].
    cbn [enqueue_bindings]. apply IH.
    exact (jobs_wf_step st (OEnqueue (now i) (fresh i) (action_job sc ev b)) Hwf). }
  split; [done|]. split; [|split].
  - intros id r Hr Hno. destruct (Hn id r Hr Hno) as (t & b & Hb & -> & _).
    exists t, b. split; [done|]. split; [done|]. cbn [new_row j_kind action_job q_kind].
    by eapply binding_fires_origin, matching_fires.
  - intros b Hb. destruct (Ha b Hb) as (id & r & Hr & Hq & Hkey). exists id, r.
    split; [done|]. split; [done|]. intros id' r' Hr' (Hq' & Hkey').
    eapply (jw_unique _ Hwf'); [exact Hr'|exact Hr|congruence..].
  - by apply enqueue_bindings_again.
Qed.

(** A dispatcher that lags stops for good.  Once its receiver reports that it missed
    events, the task ends: no event that arrives afterwards starts an action, although
    the receiver could go on. *)
Lemma lagged_dispatcher_stops `{HashOrder} (sc : Schema) (now : nat -> Z)
    (fresh : nat -> string) (before : list ModelEvent) (n : Z) (after : list Received) (i : nat)
    (st : JobStore) :
  run_dispatcher sc now fresh ((REvent <$> before) ++ RLagged n :: after) i st =
  run_dispatcher sc now fresh (REvent <$> before) i st.
Proof.
  revert i st. induction before as [|ev before IH]; intros i st; [done|].
  cbn [fmap list_fmap app run_dispatcher]. destruct (dispatch _ _ _ ev i st) as [st1 i1]. apply IH.
Qed.

(** ** Examples *)
Module DispatcherExamples.
#[local] Existing Instance enum_order.

Definition post : Model :=
  mkModel "Post" ∅ None None ∅ None ∅ []
    (mkEvents [mkBinding "processPost" None] [mkBinding "onStatus" (Some (ChangedAny ["status"%string]))] [])
    None.
Definition schema1 : Schema :=
  mkSchema {[ "Post"%string := post ]}
    {[ "processPost"%string := mkAction "processPost" (PickFields "Post" ["id"%string]) None None ]} ∅ [].
Definition created (origin : option string) : ModelEvent :=
  mkModelEvent MCreated "Post"
    {[ "id"%string := VString "p1"; "title"%string := VString "Hello";
       "tenant_id"%string := VString "acme" ]}
    None "t0" "e1" (Some "ann"%string) origin.

Fixpoint bars (n : nat) : string :=
  match n with O => EmptyString | S n => String pipe (bars n) end.
Lemma bars_length n : String.length (bars n) = n.
Proof. induction n as [|n IH]; [done|]. simpl. by rewrite IH. Qed.
#[local] Instance bars_inj : Inj (=) (=) bars.
Proof. intros a b Hab. by rewrite <-(bars_length a), Hab, bars_length. Qed.

(** The payload carries the picked field only, and the tenant goes to the job. *)
Example dispatched_job :
  (fun r => (j_payload r, j_tenant_id r)) <$>
    jobs (dispatch schema1 (fun _ => 7) bars (created None) 1 job_store_new).1 !! bars 1 =
  Some (VObject [("action", VString "processPost"); ("actor", VString "ann");
    ("event", VString "created"); ("eventId", VString "e1");
    ("input", VObject [("id", VString "p1")]); ("model", VString "Post");
    ("origin", VNull); ("timestamp", VString "t0")]%string, Some "acme"%string).
Proof. vm_compute. reflexivity. Qed.

(** The event an action caused does not start it again. *)
Example own_event_skipped :
  size (jobs (dispatch schema1 (fun _ => 7) bars (created (Some "processPost"%string)) 1
    job_store_new).1) = 0%nat.
Proof. vm_compute. reflexivity. Qed.

Lemma dispatch_once_witness :
  let st := (dispatch schema1 (fun _ => 7) bars (created None) 1 job_store_new).1 in
  size (jobs st) = 1%nat /\ (dispatch schema1 (fun _ => 9) bars (created None) 5 st).1 = st.
Proof.
  split; [vm_compute; reflexivity|].
  destruct (dispatch_once schema1 (fun _ => 7) (fun _ => 9) bars bars (created None)
    [mkBinding "processPost" None] 1 5 job_store_new jobs_wf_new bars_inj
    (fun k => lookup_empty _)) as (_ & _ & _ & H); [vm_compute; reflexivity|exact H].
Defined.
End DispatcherExamples.
