(* ===== verification/Retention.v ===== *)
(** * Retention by age and size

    The statement that trims a log, as the event log ([atomo/src/event_store.rs]) and the
    audit log ([atomo_server/src/audit.rs]) share it: rows are ranked from the newest with
    a running sum of their sizes, those too old or past the byte budget are overdue, and at
    most a batch of them is deleted, the oldest first.  The rows' fields, their bytes_of
    order and the sizes the database reports are arguments. *)

From S2P Require Import Prelude.

Section Retention.
Context {R : Type} (created_at bytes : R -> Z) (le : relation R) `{!RelDecision le}.

(** [SUM(pg_column_size(a)) OVER (ORDER BY created_at DESC, id DESC)]: the rows from the
    newest, each with the bytes kept up to it. *)
Fixpoint ranked (kept : Z) (rows : list R) : list (R * Z) :=
  match rows with
  | [] => []
  | r :: rest => let kept := kept + bytes r in (r, kept) :: ranked kept rest
  end.

(** The [WHERE] of the victims; the clock and the column are in microseconds. *)
Definition over_limit (age max_bytes : option Z) (now : Z) (x : R * Z) : bool :=
  match age with
  | Some age => bool_decide (age * 1000000 < now - created_at x.1)
  | None => false
  end ||
  match max_bytes with Some b => bool_decide (b < x.2) | None => false end.

Definition newest_first (rows : list R) : list R := reverse (merge_sort le rows).

(** [ORDER BY created_at, id] *)
Definition overdue (age max_bytes : option Z) (now : Z) (rows : list R) : list R :=
  merge_sort le
    (filter (fun x => over_limit age max_bytes now x = true) (ranked 0 (newest_first rows))).*1.

(** [LIMIT] *)
Definition victims (age max_bytes : option Z) (now limit : Z) (rows : list R) : list R :=
  take (Z.to_nat limit) (overdue age max_bytes now rows).

Lemma ranked_fst kept rows : (ranked kept rows).*1 = rows.
Proof. revert kept. induction rows as [|r rows IH]; intros kept; [done|]. simpl. by rewrite IH. Qed.

Lemma elem_of_overdue age max_bytes now rows r :
  r ∈ overdue age max_bytes now rows -> r ∈ rows.
Proof.
  unfold overdue. rewrite merge_sort_Permutation.
  intros (x & -> & [_ Hx]%list_elem_of_filter)%list_elem_of_fmap.
  assert (Hin : x.1 ∈ newest_first rows).
  { rewrite <-(ranked_fst 0). apply list_elem_of_fmap. by exists x. }
  unfold newest_first in Hin. by rewrite reverse_Permutation, merge_sort_Permutation in Hin.
Qed.
Lemma NoDup_overdue age max_bytes now rows : NoDup rows -> NoDup (overdue age max_bytes now rows).
Proof.
  intros Hn. unfold overdue. rewrite merge_sort_Permutation.
  eapply sublist_NoDup; [|apply fmap_sublist, sublist_filter]. rewrite ranked_fst.
  unfold newest_first. by rewrite reverse_Permutation, merge_sort_Permutation.
Qed.
Lemma elem_of_victims age max_bytes now limit rows r :
  r ∈ victims age max_bytes now limit rows -> r ∈ rows.
Proof. intros Hr%subseteq_take. by eapply elem_of_overdue. Qed.
Lemma length_victims age max_bytes now limit rows :
  0 <= limit -> Z.of_nat (length (victims age max_bytes now limit rows)) <= limit.
Proof. intros. unfold victims. rewrite length_take. lia. Qed.

Lemma overdue_unlimited now rows : overdue None None now rows = [].
Proof.
  unfold overdue, over_limit. cbn [orb].
  replace (filter _ _) with (@nil (R * Z)); [done|].
  induction (ranked 0 (newest_first rows)) as [|x l IH]; [done|].
  by rewrite filter_cons_False.
Qed.

(** ** What is overdue

    The bytes of a row and of those above it decide with its age. *)

Definition bytes_of (rows : list R) : Z := foldr (fun r n => bytes r + n) 0 rows.
Definition bytes_since (rows : list R) (r : R) : Z := bytes_of (filter (le r) rows).
Definition past_limits (age max_bytes : option Z) (now : Z) (rows : list R) (r : R) : Prop :=
  (exists a, age = Some a /\ a * 1000000 < now - created_at r) \/
  (exists b, max_bytes = Some b /\ b < bytes_since rows r).

Lemma bytes_of_app l k : bytes_of (l ++ k) = bytes_of l + bytes_of k.
Proof. induction l as [|r l IH]; [done|]. cbn [app bytes_of foldr]. fold (bytes_of (l ++ k)) (bytes_of l). lia. Qed.
Lemma bytes_of_perm l k : l ≡ₚ k -> bytes_of l = bytes_of k.
Proof. induction 1; cbn [bytes_of foldr] in *; unfold bytes_of in *; lia. Qed.

Lemma over_limit_true age max_bytes now r b :
  over_limit age max_bytes now (r, b) = true <->
  (exists a, age = Some a /\ a * 1000000 < now - created_at r) \/ (exists m, max_bytes = Some m /\ m < b).
Proof.
  unfold over_limit. rewrite orb_true_iff. cbn [fst snd].
  destruct age, max_bytes; rewrite ?bool_decide_eq_true; naive_solver.
Qed.

Lemma elem_of_ranked kept l r b :
  (r, b) ∈ ranked kept l <-> exists l1 l2, l = l1 ++ r :: l2 /\ b = kept + bytes_of l1 + bytes r.
Proof.
  revert kept. induction l as [|x l IH]; intros kept; cbn [ranked].
  { split; [by intros ?%not_elem_of_nil|]. intros ([|] & ? & ? & _); done. }
  rewrite elem_of_cons, IH. split.
  - intros [[= -> ->]|(l1 & l2 & -> & ->)].
    + exists [], l. split; [done|]. cbn. lia.
    + exists (x :: l1), l2. split; [done|]. cbn [bytes_of foldr]. fold (bytes_of l1). lia.
  - intros ([|y l1] & l2 & [= -> ->] & ->).
    + left. f_equal. cbn. lia.
    + right. exists l1, l2. split; [done|]. cbn [bytes_of foldr]. fold (bytes_of l1). lia.
Qed.

(** ** What is overdue is the oldest *)

Context `{!Transitive le, !Total le}.
Hypothesis le_created : forall a b, le a b -> created_at a <= created_at b.
Hypothesis bytes_pos : forall r, 0 <= bytes r.

(** Rows equal in the order are the same row: the second key is unique. *)
Definition keyed (rows : list R) : Prop :=
  forall a b, a ∈ rows -> b ∈ rows -> le a b -> le b a -> a = b.

Lemma keyed_sub rows rest : (forall r, r ∈ rest -> r ∈ rows) -> keyed rows -> keyed rest.
Proof. intros Hs Hk a b Ha Hb. apply Hk; by apply Hs. Qed.
Lemma keyed_perm rows rest : rest ≡ₚ rows -> keyed rows -> keyed rest.
Proof. intros Hp. apply keyed_sub. intros r. by rewrite Hp. Qed.

Lemma sorted_unique rows rest :
  keyed rows -> StronglySorted le rows -> StronglySorted le rest -> rows ≡ₚ rest -> rows = rest.
Proof.
  intros Hk Hs Hr Hp. apply (StronglySorted_unique_strong le); try done.
  intros x y Hx Hy. apply Hk; [done|by rewrite Hp].
Qed.
Lemma merge_sort_id rows : keyed rows -> StronglySorted le rows -> merge_sort le rows = rows.
Proof.
  intros Hk Hs. symmetry. apply sorted_unique; [done|done|by apply (StronglySorted_merge_sort le)|].
  by rewrite merge_sort_Permutation.
Qed.
Lemma merge_sort_perm rows rest : keyed rows -> rows ≡ₚ rest -> merge_sort le rows = merge_sort le rest.
Proof.
  intros Hk Hp. apply sorted_unique; [|by apply (StronglySorted_merge_sort le)..|].
  - by eapply keyed_perm; [apply merge_sort_Permutation|].
  - by rewrite !merge_sort_Permutation.
Qed.
Lemma overdue_perm age max_bytes now rows rest :
  keyed rows -> rows ≡ₚ rest ->
  overdue age max_bytes now rows = overdue age max_bytes now rest.
Proof. intros Hk Hp. unfold overdue, newest_first. by rewrite (merge_sort_perm rows rest). Qed.

Section Limits.
Variables (age max_bytes : option Z) (now : Z).

Abbreviation over := (fun x : R * Z => over_limit age max_bytes now x = true).

Lemma ranked_over kept b r l :
  over (r, b) -> b <= kept -> (forall x, x ∈ l -> le x r) -> Forall over (ranked kept l).
Proof.
  intros Ho. revert kept. induction l as [|x l IH]; intros kept Hk Hl; [constructor|].
  cbn [ranked]. pose proof (bytes_pos x) as Hp.
  assert (Hx : created_at x <= created_at r) by (apply le_created, Hl; left).
  constructor; [|apply IH; [lia|intros y Hy; apply Hl; by right]].
  cbn beta in Ho |- *. unfold over_limit in Ho |- *. cbn [fst snd] in *.
  apply orb_true_iff in Ho as [Ho|Ho]; apply orb_true_iff.
  - left. destruct age; [|done]. apply bool_decide_eq_true in Ho. apply bool_decide_eq_true. lia.
  - right. destruct max_bytes; [|done]. apply bool_decide_eq_true in Ho. apply bool_decide_eq_true. lia.
Qed.

(** How many of the rows, from the newest, are within the limits. *)
Fixpoint spared (kept : Z) (rows : list R) : nat :=
  match rows with
  | [] => 0
  | r :: rest =>
      if decide (over (r, kept + bytes r)) then 0 else S (spared (kept + bytes r) rest)
  end.

Definition newest_sorted (rows : list R) : Prop := StronglySorted (flip le) rows.

Lemma over_suffix kept rows :
  newest_sorted rows -> (filter over (ranked kept rows)).*1 = drop (spared kept rows) rows.
Proof.
  revert kept. induction rows as [|r rows IH]; intros kept Hs; [done|].
  apply StronglySorted_inv in Hs as [Hs Hr]. rewrite List.Forall_forall in Hr.
  cbn [ranked spared]. case_decide as Ho.
  - rewrite filter_all; [|].
    + cbn [fmap list_fmap fst drop]. f_equal. apply ranked_fst.
    + apply Forall_forall. constructor; [done|].
      eapply ranked_over; [exact Ho|reflexivity|].
      intros x Hx. by apply Hr, list_elem_of_In.
  - rewrite filter_cons_False by done. cbn [drop]. by apply IH.
Qed.

Lemma spared_take kept rows n :
  (spared kept rows <= n)%nat -> spared kept (take n rows) = spared kept rows.
Proof.
  revert kept n. induction rows as [|r rows IH]; intros kept n Hn; [by destruct n|].
  cbn [spared] in Hn |- *. case_decide as Ho.
  - destruct n; [done|]. cbn [take spared]. by rewrite decide_True.
  - destruct n; [lia|]. cbn [take spared]. rewrite decide_False by done. f_equal. apply IH. lia.
Qed.
Lemma spared_le kept rows : (spared kept rows <= length rows)%nat.
Proof.
  revert kept. induction rows as [|r rows IH]; intros kept; [done|].
  cbn [spared length]. case_decide; [lia|]. specialize (IH (kept + bytes r)). lia.
Qed.
End Limits.

Lemma sorted_drop n (l : list R) : StronglySorted le l -> StronglySorted le (drop n l).
Proof. intros Hs. apply (StronglySorted_app_1_r le (take n l)). by rewrite take_drop. Qed.
Lemma sorted_take n (l : list R) : StronglySorted le l -> StronglySorted le (take n l).
Proof. intros Hs. apply (StronglySorted_app_1_l le _ (drop n l)). by rewrite take_drop. Qed.
Lemma sorted_reverse (l : list R) : StronglySorted le l -> newest_sorted (reverse l).
Proof.
  unfold newest_sorted. induction l as [|x l IH]; intros Hs; [constructor|].
  apply StronglySorted_inv in Hs as [Hs Hx]. rewrite reverse_cons.
  apply StronglySorted_app_2; [|by apply IH|by repeat constructor].
  intros y z Hy Hz. apply list_elem_of_singleton in Hz as ->. rewrite elem_of_reverse in Hy.
  rewrite List.Forall_forall in Hx. by apply Hx, list_elem_of_In.
Qed.

Lemma bytes_since_at rows r l1 l2 :
  keyed rows -> NoDup rows -> newest_first rows = l1 ++ r :: l2 ->
  bytes_since rows r = 0 + bytes_of l1 + bytes r.
Proof.
  intros Hk Hn Heq. assert (Hp : newest_first rows ≡ₚ rows).
  { unfold newest_first. by rewrite reverse_Permutation, merge_sort_Permutation. }
  assert (Hs : newest_sorted (newest_first rows)).
  { apply sorted_reverse. by apply (StronglySorted_merge_sort le). }
  unfold bytes_since. rewrite <-(bytes_of_perm _ _ (filter_Permutation _ _ _ Hp)).
  rewrite Heq in Hp, Hs |- *. rewrite filter_app, filter_all.
  2:{ intros x Hx. by apply (StronglySorted_app_1_elem_of _ _ _ _ _ Hs Hx); left. }
  rewrite filter_cons_True by (by destruct (total le r r)). rewrite bytes_of_app. cbn [bytes_of foldr].
  replace (filter (le r) l2) with (@nil R); [cbn; lia|]. symmetry. apply elem_of_nil_inv.
  intros y [Hry Hy]%list_elem_of_filter. apply StronglySorted_app_1_r, StronglySorted_inv in Hs as [_ Hyr].
  rewrite List.Forall_forall in Hyr. specialize (Hyr y). unfold flip in Hyr.
  assert (y = r) as ->.
  { apply Hk; [rewrite <-Hp; apply elem_of_app; right; by right|rewrite <-Hp; apply elem_of_app; right; left| |done].
    by apply Hyr, list_elem_of_In. }
  rewrite <-Hp in Hn. apply NoDup_app in Hn as (_ & _ & [Hn _]%NoDup_cons). done.
Qed.

Lemma elem_of_overdue_iff age max_bytes now rows r :
  keyed rows -> NoDup rows ->
  r ∈ overdue age max_bytes now rows <-> r ∈ rows /\ past_limits age max_bytes now rows r.
Proof.
  intros Hk Hn. assert (Hp : newest_first rows ≡ₚ rows).
  { unfold newest_first. by rewrite reverse_Permutation, merge_sort_Permutation. }
  assert (Hs : newest_sorted (newest_first rows)).
  { apply sorted_reverse. by apply (StronglySorted_merge_sort le). }
  unfold overdue. rewrite merge_sort_Permutation, list_elem_of_fmap. split.
  - intros ((x & b) & -> & [Ho (l1 & l2 & Heq & ->)%elem_of_ranked]%list_elem_of_filter). cbn [fst].
    split; [rewrite <-Hp, Heq; apply elem_of_app; right; left|].
    rewrite over_limit_true in Ho. unfold past_limits. by rewrite (bytes_since_at rows x l1 l2).
  - intros [Hr Hpast]. rewrite <-Hp in Hr. apply list_elem_of_split in Hr as (l1 & l2 & Heq).
    exists (r, 0 + bytes_of l1 + bytes r). split; [done|]. apply list_elem_of_filter.
    rewrite over_limit_true, elem_of_ranked. split; [|by exists l1, l2].
    unfold past_limits in Hpast. by rewrite (bytes_since_at rows r l1 l2) in Hpast.
Qed.

Section Batches.
Variables (age max_bytes : option Z) (now : Z).

(** The rows past the limits are the oldest ones. *)
Definition overdue_count (sorted : list R) : nat :=
  length sorted - spared age max_bytes now 0 (reverse sorted).

Lemma overdue_oldest rows :
  keyed rows ->
  overdue age max_bytes now rows = take (overdue_count (merge_sort le rows)) (merge_sort le rows).
Proof.
  intros Hk. unfold overdue, newest_first, overdue_count. set (M := merge_sort le rows).
  assert (HM : StronglySorted le M) by by apply (StronglySorted_merge_sort le).
  assert (Hd := over_suffix age max_bytes now 0 (reverse M) (sorted_reverse M HM)).
  rewrite Hd. set (k := spared _ _ _ _ _) in *.
  rewrite <-(reverse_involutive (drop k (reverse M))).
  replace (reverse (drop k (reverse M))) with (take (length M - k) M).
  2:{ by rewrite reverse_drop, length_reverse, reverse_involutive. }
  assert (Ht : StronglySorted le (take (length M - k) M)).
  { by apply sorted_take. }
  rewrite (merge_sort_perm _ (take (length M - k) M)), merge_sort_id; try done.
  - eapply (keyed_sub rows); [|done]. intros r Hr%subseteq_take. unfold M in Hr.
    by rewrite merge_sort_Permutation in Hr.
  - eapply (keyed_sub rows); [|done]. intros r Hr. rewrite elem_of_reverse in Hr.
    apply subseteq_take in Hr. unfold M in Hr. by rewrite merge_sort_Permutation in Hr.
  - apply reverse_Permutation.
Qed.

(** The rows of a batch are older than all others. *)
Lemma overdue_before rows n x y :
  keyed rows -> x ∈ take n (overdue age max_bytes now rows) -> y ∈ rows ->
  y ∉ take n (overdue age max_bytes now rows) -> le x y.
Proof.
  intros Hk. rewrite overdue_oldest, take_take by done. set (i := (_ `min` _)%nat).
  set (M := merge_sort le rows).
  assert (HM : StronglySorted le M) by by apply (StronglySorted_merge_sort le).
  intros Hx Hr Hny. assert (Hy : y ∈ M) by (unfold M; by rewrite merge_sort_Permutation).
  rewrite <-(take_drop i M) in Hy, HM. apply elem_of_app in Hy as [Hy|Hy]; [done|].
  by apply (StronglySorted_app_1_elem_of _ _ _ _ _ HM).
Qed.

(** Deleting a batch of the overdue rows leaves the others overdue, and no more. *)
Lemma overdue_rest rows rest n :
  keyed rows -> rest ++ take n (overdue age max_bytes now rows) ≡ₚ rows ->
  overdue age max_bytes now rest = drop n (overdue age max_bytes now rows).
Proof.
  intros Hk Hp. assert (Hkr : keyed rest).
  { eapply (keyed_sub rows); [|done]. intros r Hr. rewrite <-Hp. apply elem_of_app. by left. }
  rewrite (overdue_oldest rows), (overdue_oldest rest) by done.
  rewrite (overdue_oldest rows) in Hp by done. set (M := merge_sort le rows) in *.
  set (j := overdue_count M) in *. rewrite take_take in Hp. set (i := (n `min` j)%nat) in *.
  assert (HM : StronglySorted le M) by by apply (StronglySorted_merge_sort le).
  assert (Hm : merge_sort le rest = drop i M).
  { rewrite (merge_sort_perm rest (drop i M)), merge_sort_id; [done| |by apply sorted_drop|done|].
    - eapply (keyed_sub rows); [|done]. intros r Hr. rewrite <-(merge_sort_Permutation le).
      fold M. rewrite <-(take_drop i M). apply elem_of_app. by right.
    - apply (Permutation_app_inv_r (take i M)). rewrite Hp, <-(merge_sort_Permutation le rows). fold M.
      rewrite Permutation_app_comm. by rewrite take_drop. }
  rewrite Hm. assert (Hc : overdue_count (drop i M) = (j - i)%nat).
  { unfold overdue_count, j, overdue_count. rewrite length_drop.
    replace (reverse (drop i M)) with (take (length M - i) (reverse M)).
    2:{ by rewrite reverse_drop. }
    pose proof (spared_le age max_bytes now 0 (reverse M)) as Hle. rewrite length_reverse in Hle.
    rewrite spared_take; [lia|]. unfold i, j, overdue_count. lia. }
  rewrite Hc. unfold i. destruct (decide (n <= j)%nat).
  - rewrite Nat.min_l by done. by rewrite skipn_firstn_comm.
  - rewrite Nat.min_r by lia. rewrite Nat.sub_diag. symmetry. apply drop_ge. rewrite length_take. lia.
Qed.
End Batches.
End Retention.
