(* ===== verification/History.v ===== *)
(** * Model history: policies and the event log ([atomo/src/history.rs], [atomo/src/event_store.rs])

    The tables [event_log] and [model_history_coverage] as a state; every statement of the
    store runs under the lifecycle advisory lock, so an operation is one step.  The clock
    (microseconds), the row ids PostgreSQL draws and the row sizes it reports are arguments. *)

From S2P Require Import Prelude Json SchemaTypes.
From S2P Require Retention.

(** ** Policies *)

Inductive HistoryMode : Type := Full | Off | Retained.

#[global] Instance HistoryMode_eq_dec : EqDecision HistoryMode.
Proof. solve_decision. Defined.

Inductive AuditMode : Type := AuditFull | AuditMetadata | AuditOff.

Record HistoryPolicy : Type := mkPolicy {
  hp_mode : HistoryMode;
  hp_max_age_secs : option Z;
  hp_max_bytes : option Z
}.
Definition policy_default : HistoryPolicy := mkPolicy Full None None.

Record AuditPolicy : Type := mkAuditPolicy {
  ap_mode : AuditMode;
  ap_max_age_secs : option Z;
  ap_max_bytes : option Z
}.

Record HistoryConfig : Type := mkHistoryConfig {
  hc_default : HistoryPolicy;
  hc_models : gmap string HistoryPolicy;
  hc_interval_secs : Z;
  hc_batch_size : Z
}.
Definition history_config_default : HistoryConfig := mkHistoryConfig policy_default ∅ 60 1000.

Record AuditConfig : Type := mkAuditConfig {
  au_default : AuditPolicy;
  au_models : gmap string AuditPolicy;
  au_interval_secs : Z;
  au_batch_size : Z
}.
Definition audit_config_default : AuditConfig :=
  mkAuditConfig (mkAuditPolicy AuditFull None None) ∅ 60 1000.

Inductive ConfigFault : Type :=
  | BadLimits | BadWorker | LimitsNeedRetained | RetainedNeedsLimit | UnknownModel (m : string).

Definition bad_limit (o : option Z) : bool :=
  match o with Some v => bool_decide (v = 0) || bool_decide (i64_max < v) | None => false end.

Definition validate_limits (age bytes : option Z) : option ConfigFault :=
  if bad_limit age || bad_limit bytes then Some BadLimits else None.

Definition validate_worker (interval batch : Z) : option ConfigFault :=
  if bool_decide (interval = 0) || bool_decide (86400 < interval) ||
     bool_decide (batch = 0) || bool_decide (10000 < batch)
  then Some BadWorker else None.

Definition validate_policy (p : HistoryPolicy) : option ConfigFault :=
  match validate_limits (hp_max_age_secs p) (hp_max_bytes p) with
  | Some e => Some e
  | None =>
      let limited := bool_decide (is_Some (hp_max_age_secs p)) || bool_decide (is_Some (hp_max_bytes p)) in
      if decide (hp_mode p = Retained) then
        if limited then None else Some RetainedNeedsLimit
      else if limited then Some LimitsNeedRetained else None
  end.

(** The first fault of a list of checks. *)
Fixpoint first_fault (l : list (option ConfigFault)) : option ConfigFault :=
  match l with
  | [] => None
  | Some e :: _ => Some e
  | None :: rest => first_fault rest
  end.

Section Config.
Context {ho : HashOrder}.

Definition history_validate (c : HistoryConfig) : option ConfigFault :=
  match validate_worker (hc_interval_secs c) (hc_batch_size c) with
  | Some e => Some e
  | None => first_fault (validate_policy <$> hc_default c :: hvalues (hc_models c))
  end.

Definition validate_models (c : HistoryConfig) (sc : Schema) : option ConfigFault :=
  match history_validate c with
  | Some e => Some e
  | None => first_fault
      ((fun m => if decide (is_Some (sc_models sc !! m)) then None else Some (UnknownModel m)) <$>
        hkeys (hc_models c))
  end.

Definition audit_validate (c : AuditConfig) : option ConfigFault :=
  match validate_worker (au_interval_secs c) (au_batch_size c) with
  | Some e => Some e
  | None => first_fault
      ((fun p => validate_limits (ap_max_age_secs p) (ap_max_bytes p)) <$>
        au_default c :: hvalues (au_models c))
  end.
End Config.

Definition policy (c : HistoryConfig) (model : string) : HistoryPolicy :=
  default (hc_default c) (hc_models c !! model).
Definition audit_policy (c : AuditConfig) (model : string) : AuditPolicy :=
  default (au_default c) (au_models c !! model).

Definition mode_name (m : HistoryMode) : string :=
  match m with Full => "full" | Off => "off" | Retained => "retained" end.

(** ** The tables *)

(** A row of [model_history_coverage]. *)
Record Coverage : Type := mkCoverage {
  cv_mode : string;
  cv_complete : bool;
  cv_first_gap : option Z;
  cv_retained_after : option Z;
  cv_removed : Z
}.

(** A row of [event_log]; the event's origin is not a column. *)
Record LogRow : Type := mkLogRow { lr_id : Z; lr_created_at : Z; lr_event : ModelEvent }.

Record EventLog : Type := mkLog {
  lg_rows : list LogRow;
  lg_coverage : gmap string Coverage;
  lg_cursor : Z
}.
Definition log_new : EventLog := mkLog [] ∅ 0.

Definition set_rows (rows : list LogRow) (l : EventLog) : EventLog :=
  mkLog rows (lg_coverage l) (lg_cursor l).
Definition set_coverage (model : string) (c : Coverage) (l : EventLog) : EventLog :=
  mkLog (lg_rows l) (<[model := c]> (lg_coverage l)) (lg_cursor l).

(** [initialize_models], one model *)
Definition initialize_model (cfg : HistoryConfig) (model : string) (l : EventLog) : EventLog :=
  let m := mode_name (hp_mode (policy cfg model)) in
  set_coverage model
    (match lg_coverage l !! model with
     | Some c => mkCoverage m (cv_complete c) (cv_first_gap c) (cv_retained_after c) (cv_removed c)
     | None => mkCoverage m true None None 0
     end) l.
Definition initialize_models (cfg : HistoryConfig) (models : list string) (l : EventLog) : EventLog :=
  foldl (fun l m => initialize_model cfg m l) l models.

(** ** Persisting events *)

Definition strip_origin (e : ModelEvent) : ModelEvent :=
  mkModelEvent (ev_type e) (ev_model e) (ev_data e) (ev_previous e) (ev_timestamp e) (ev_id e)
    (ev_actor e) None.

(** [ON CONFLICT (event_id) DO NOTHING] *)
Definition has_event (id : string) (rows : list LogRow) : bool :=
  existsb (fun r => bool_decide (ev_id (lr_event r) = id)) rows.

Definition insert_event (uid : string -> Z) (now : Z) (e : ModelEvent) (l : EventLog) : EventLog :=
  if has_event (ev_id e) (lg_rows l) then l
  else set_rows (lg_rows l ++ [mkLogRow (uid (ev_id e)) now (strip_origin e)]) l.

(** The statement that records a skipped write; a row that already tells of a gap stays. *)
Definition mark_gap (now : Z) (model : string) (l : EventLog) : EventLog :=
  match lg_coverage l !! model with
  | None => set_coverage model (mkCoverage "off" false (Some now) None 0) l
  | Some c =>
      if negb (cv_complete c) && bool_decide (is_Some (cv_first_gap c)) then l
      else set_coverage model
             (mkCoverage (cv_mode c) false (Some (default now (cv_first_gap c)))
                (cv_retained_after c) (cv_removed c)) l
  end.

Definition persist_in (cfg : HistoryConfig) (uid : string -> Z) (now : Z) (e : ModelEvent)
    (l : EventLog) : EventLog :=
  if decide (hp_mode (policy cfg (ev_model e)) = Off) then mark_gap now (ev_model e) l
  else insert_event uid now e l.

Definition CHUNK : nat := 4000.

(** [slice.chunks(n)] *)
Fixpoint chunks_go {A} (fuel n : nat) (l : list A) : list (list A) :=
  match fuel, l with
  | S fuel, _ :: _ => take n l :: chunks_go fuel n (drop n l)
  | _, _ => []
  end.
Definition chunks {A} (n : nat) (l : list A) : list (list A) := chunks_go (length l) n l.

(** The number of bind parameters of the statement of one chunk. *)
Definition chunk_params (chunk : list ModelEvent) : Z := 7 * Z.of_nat (length chunk).

(** One multi-row insert: a row whose id is taken, by the table or an earlier row, is skipped. *)
Definition insert_chunk (uid : string -> Z) (now : Z) (chunk : list ModelEvent) (l : EventLog)
    : EventLog :=
  foldl (fun l e => insert_event uid now e l) l chunk.

(** The first loop of [persist_many_in]: a model whose history is off is marked once. *)
Fixpoint split_events (cfg : HistoryConfig) (uid : string -> Z) (now : Z) (es : list ModelEvent)
    (stored : list ModelEvent) (skipped : gset string) (l : EventLog)
    : list ModelEvent * EventLog :=
  match es with
  | [] => (stored, l)
  | e :: rest =>
      if decide (hp_mode (policy cfg (ev_model e)) = Off) then
        if decide (ev_model e ∈ skipped) then split_events cfg uid now rest stored skipped l
        else split_events cfg uid now rest stored ({[ ev_model e ]} ∪ skipped)
               (persist_in cfg uid now e l)
      else split_events cfg uid now rest (stored ++ [e]) skipped l
  end.

Definition persist_many_in (cfg : HistoryConfig) (uid : string -> Z) (now : Z)
    (es : list ModelEvent) (l : EventLog) : EventLog :=
  let '(stored, l) := split_events cfg uid now es [] ∅ l in
  foldl (fun l chunk => insert_chunk uid now chunk l) l (chunks CHUNK stored).

(** ** Reading *)

(** [From<EventRow> for ModelEvent]: the text of the type is decoded, anything unknown is
    a creation. *)
Definition decode_event_type (s : string) : EventType :=
  if decide (s = "Created"%string) then MCreated
  else if decide (s = "Updated"%string) then MUpdated
  else if decide (s = "Deleted"%string) then MDeleted
  else if decide (s = "Restored"%string) then MRestored
  else if decide (s = "HardDeleted"%string) then MHardDeleted
  else MCreated.

Definition read_row (r : LogRow) : ModelEvent :=
  let e := lr_event r in
  mkModelEvent (decode_event_type (event_type_debug (ev_type e))) (ev_model e) (ev_data e)
    (ev_previous e) (ev_timestamp e) (ev_id e) (ev_actor e) None.

Definition ts_le (a b : LogRow) : Prop :=
  String.le (ev_timestamp (lr_event a)) (ev_timestamp (lr_event b)).
#[export] Instance ts_le_dec : RelDecision ts_le.
Proof. intros a b. unfold ts_le. apply _. Defined.

Definition since_ok (since : option string) (r : LogRow) : bool :=
  match since with Some ts => bool_decide (String.le ts (ev_timestamp (lr_event r))) | None => true end.

Section Reads.
Context {ho : HashOrder}.

(** [ORDER BY timestamp]: rows with equal timestamps come in any order. *)
Definition replay (cfg : HistoryConfig) (model : string) (since : option string) (l : EventLog)
    : option (list ModelEvent) :=
  let unavailable := match lg_coverage l !! model with
                     | Some c => negb (bool_decide (cv_mode c = "full"%string)) || negb (cv_complete c)
                     | None => false
                     end in
  if bool_decide (hp_mode (policy cfg model) <> Full) || unavailable then None
  else Some (read_row <$> merge_sort ts_le
    (horder (filter (fun r => ev_model (lr_event r) = model /\ since_ok since r = true) (lg_rows l)))).

(** [data->>'id' = $2]; the id of a record is a string. *)
Definition entity_history (model entity_id : string) (l : EventLog) : list ModelEvent :=
  read_row <$> merge_sort ts_le
    (horder (filter (fun r => ev_model (lr_event r) = model /\
       ev_data (lr_event r) !! "id"%string ≫= value_as_str = Some entity_id) (lg_rows l))).
End Reads.

(** ** Maintenance *)

(** [ORDER BY created_at, id] *)
Definition row_le (a b : LogRow) : Prop :=
  lr_created_at a < lr_created_at b \/
  (lr_created_at a = lr_created_at b /\ lr_id a <= lr_id b).
#[export] Instance row_le_dec : RelDecision row_le.
Proof. intros a b. unfold row_le. apply _. Defined.

Section Maintain.
Variable row_bytes : LogRow -> Z.   (* [pg_column_size] *)

Definition victims (p : HistoryPolicy) (now : Z) (limit : Z) (model : string)
    (rows : list LogRow) : list LogRow :=
  Retention.victims lr_created_at row_bytes row_le (hp_max_age_secs p) (hp_max_bytes p) now limit
    (filter (fun r => ev_model (lr_event r) = model) rows).

Definition max_opt (a b : option Z) : option Z :=
  match a, b with
  | Some x, Some y => Some (Z.max x y)
  | Some x, None => Some x
  | None, o => o
  end.

Definition record_removal (now : Z) (model : string) (deleted : list LogRow) (l : EventLog)
    : EventLog :=
  let newest := foldr (fun r acc => max_opt (Some (lr_created_at r)) acc) None deleted in
  let n := Z.of_nat (length deleted) in
  set_coverage model
    (match lg_coverage l !! model with
     | None => mkCoverage "retained" false (Some now) newest n
     | Some c => mkCoverage (cv_mode c) false (Some (default now (cv_first_gap c)))
                   (max_opt (cv_retained_after c) newest) (cv_removed c + n)
     end) l.

(** The deletion of one model's batch. *)
Definition maintain_model (cfg : HistoryConfig) (now : Z) (remaining : Z) (model : string)
    (l : EventLog) : Z * EventLog :=
  let dead := victims (policy cfg model) now remaining model (lg_rows l) in
  let l' := set_rows (filter (fun r => lr_id r ∉ lr_id <$> dead) (lg_rows l)) l in
  (Z.of_nat (length dead), match dead with [] => l' | _ => record_removal now model dead l' end).

Fixpoint maintain_models (cfg : HistoryConfig) (now : Z) (models : list string) (remaining : Z)
    (removed : Z) (l : EventLog) : Z * EventLog :=
  match models with
  | [] => (removed, l)
  | m :: rest =>
      if decide (remaining = 0) then (removed, l)
      else if decide (hp_mode (policy cfg m) = Retained) then
        let '(n, l) := maintain_model cfg now remaining m l in
        maintain_models cfg now rest (remaining - n) (removed + n) l
      else maintain_models cfg now rest remaining removed l
  end.

(** [SELECT DISTINCT model_name .. ORDER BY model_name] *)
Definition logged_models (rows : list LogRow) : list string :=
  sort_strings (remove_dups ((fun r => ev_model (lr_event r)) <$> rows)).

Definition rotate_left {A} (n : nat) (l : list A) : list A := drop n l ++ take n l.

Definition any_retained (cfg : HistoryConfig) : bool :=
  bool_decide (hp_mode (hc_default cfg) = Retained) ||
  existsb (fun p => bool_decide (hp_mode p.2 = Retained)) (map_to_list (hc_models cfg)).

Definition maintain (cfg : HistoryConfig) (now : Z) (l : EventLog) : Z * EventLog :=
  if negb (any_retained cfg) then (0, l)
  else
    let ms := logged_models (lg_rows l) in
    match ms with
    | [] => (0, l)
    | _ =>
        let start := Z.to_nat (lg_cursor l mod Z.of_nat (length ms)) in
        maintain_models cfg now (rotate_left start ms) (hc_batch_size cfg) 0
          (mkLog (lg_rows l) (lg_coverage l) (wrap_u64 (lg_cursor l + 1)))
    end.
End Maintain.
