(* ===== verification/HistorySpec.v ===== *)
(** * Model history: bulk writes and complete replays

    Persisting in bulk is persisting one by one, within the database's parameter limit;
    and a replay that is granted is complete: over any history of deployments with any
    policies, skipped writes and retention, it returns exactly the model's events. *)

From S2P Require Import Prelude Json SchemaTypes History.
From S2P Require Retention.

(** ** Chunks *)

Lemma chunks_go_concat {A} (fuel n : nat) (l : list A) :
  (0 < n)%nat -> (length l <= fuel)%nat -> concat (chunks_go fuel n l) = l.
Proof.
  intros Hn. revert l. induction fuel as [|fuel IH]; intros [|x l] Hl; try done; [simpl in Hl; lia|].
  cbn [chunks_go concat]. rewrite IH; [apply take_drop|]. rewrite length_drop. simpl in *. lia.
Qed.

Lemma chunks_concat {A} (n : nat) (l : list A) : (0 < n)%nat -> concat (chunks n l) = l.
Proof. intros Hn. by apply chunks_go_concat. Qed.

Lemma chunks_go_size {A} (fuel n : nat) (l c : list A) :
  c ∈ chunks_go fuel n l -> (length c <= n)%nat.
Proof.
  revert l. induction fuel as [|fuel IH]; intros [|x l]; try by intros ?%not_elem_of_nil.
  intros [->|Hc]%elem_of_cons; [rewrite length_take; lia|by eapply IH].
Qed.

Lemma foldl_concat {A B} (f : B -> A -> B) (b : B) (ls : list (list A)) :
  foldl (fun b l => foldl f b l) b ls = foldl f b (concat ls).
Proof.
  revert b. induction ls as [|l ls IH]; intros b; [done|]. simpl. by rewrite IH, foldl_app.
Qed.

(** ** Bulk persistence *)

Section Persist.
Variable uid : string -> Z.

Definition marked (m : string) (l : EventLog) : Prop :=
  exists c, lg_coverage l !! m = Some c /\ cv_complete c = false /\ is_Some (cv_first_gap c).

Lemma mark_gap_marked now m l : marked m l -> mark_gap now m l = l.
Proof.
  intros (c & Hc & Hf & Hg). unfold mark_gap. rewrite Hc, Hf. by rewrite bool_decide_true.
Qed.

Lemma marked_mark_gap now m l : marked m (mark_gap now m l).
Proof.
  unfold mark_gap, marked. destruct (lg_coverage l !! m) as [c|] eqn:Hc.
  - destruct (negb (cv_complete c) && _) eqn:Hb.
    + apply andb_true_iff in Hb as [Hb%negb_true_iff Hg%bool_decide_eq_true]. by exists c.
    + cbn [set_coverage lg_coverage]. rewrite lookup_insert_eq. by eexists.
  - cbn [set_coverage lg_coverage]. rewrite lookup_insert_eq. by eexists.
Qed.

Lemma marked_keep now m m' l : marked m l -> marked m (mark_gap now m' l).
Proof.
  intros Hm. destruct (decide (m = m')) as [->|Hne]; [apply marked_mark_gap|].
  destruct Hm as (c & Hc & H). exists c. split; [|done]. unfold mark_gap.
  destruct (lg_coverage l !! m') as [c'|]; [destruct (negb _ && _); [done|]|];
    cbn [set_coverage lg_coverage]; by rewrite lookup_insert_ne.
Qed.

Lemma mark_gap_insert now m e l t :
  mark_gap now m (insert_event uid t e l) = insert_event uid t e (mark_gap now m l).
Proof.
  unfold insert_event, mark_gap.
  destruct (has_event (ev_id e) (lg_rows l)) eqn:He;
    cbn [lg_coverage set_rows lg_rows]; (destruct (lg_coverage l !! m) as [c|];
    [destruct (negb (cv_complete c) && _)|]); cbn [lg_rows set_coverage]; by rewrite He.
Qed.

Lemma mark_gap_inserts now m t es l :
  mark_gap now m (insert_chunk uid t es l) = insert_chunk uid t es (mark_gap now m l).
Proof.
  unfold insert_chunk. revert l. induction es as [|e es IH]; intros l; [done|]. simpl.
  by rewrite IH, mark_gap_insert.
Qed.

Lemma marked_inserts m t es l : marked m l -> marked m (insert_chunk uid t es l).
Proof.
  unfold insert_chunk. revert l. induction es as [|e es IH]; intros l Hm; [done|]. simpl.
  apply IH. destruct Hm as (c & Hc & H). exists c. split; [|done]. unfold insert_event.
  by destruct (has_event _ _).
Qed.

Lemma persist_off cfg now e l :
  hp_mode (policy cfg (ev_model e)) = Off -> persist_in cfg uid now e l = mark_gap now (ev_model e) l.
Proof. intros He. unfold persist_in. by rewrite decide_True. Qed.

Lemma persist_on cfg now e l :
  hp_mode (policy cfg (ev_model e)) <> Off -> persist_in cfg uid now e l = insert_event uid now e l.
Proof. intros He. unfold persist_in. by rewrite decide_False. Qed.

Lemma split_events_spec cfg now es stored skipped l :
  (forall m, m ∈ skipped -> marked m l) ->
  let '(stored', l') := split_events cfg uid now es stored skipped l in
  insert_chunk uid now stored' l' =
  foldl (fun l e => persist_in cfg uid now e l) (insert_chunk uid now stored l) es.
Proof.
  revert stored skipped l. induction es as [|e es IH]; intros stored skipped l Hsk; [done|].
  cbn [split_events foldl].
  destruct (decide (hp_mode (policy cfg (ev_model e)) = Off)) as [Hoff|Hon].
  - case_decide as Hin.
    + rewrite persist_off, mark_gap_marked by (try apply marked_inserts, Hsk; done). by apply IH.
    + rewrite !persist_off, mark_gap_inserts by done.
      apply IH. intros m [->%elem_of_singleton|Hm]%elem_of_union; [apply marked_mark_gap|].
      by apply marked_keep, Hsk.
  - specialize (IH (stored ++ [e]) skipped l Hsk).
    destruct (split_events _ _ _ es (stored ++ [e]) skipped l) as [stored' l'].
    rewrite IH, persist_on by done. f_equal. unfold insert_chunk. by rewrite foldl_app.
Qed.

Lemma persist_many_each cfg now es l :
  persist_many_in cfg uid now es l = foldl (fun l e => persist_in cfg uid now e l) l es.
Proof.
  unfold persist_many_in. pose proof (split_events_spec cfg now es [] ∅ l) as H.
  destruct (split_events cfg uid now es [] ∅ l) as [stored l'].
  rewrite (foldl_concat (fun l e => insert_event uid now e l)), chunks_concat
    by (unfold CHUNK; lia). apply H. by intros m ?%not_elem_of_empty.
Qed.
End Persist.

(** a bulk write records what single writes would.  Persisting a batch, split by policy
    and inserted in chunks, leaves the log and its coverage exactly as persisting its events
    one by one in order; and no statement of it binds more than 65535 parameters. *)
Theorem bulk_persist_equiv (cfg : HistoryConfig) (uid : string -> Z) (now : Z)
    (es : list ModelEvent) (l : EventLog) :
  persist_many_in cfg uid now es l = foldl (fun l e => persist_in cfg uid now e l) l es /\
  forall chunk, chunk ∈ chunks CHUNK (split_events cfg uid now es [] ∅ l).1 ->
    chunk_params chunk <= 65535.
Proof.
  split; [apply persist_many_each|]. intros chunk Hc%chunks_go_size.
  unfold chunk_params, CHUNK in *. lia.
Qed.

(** ** Histories *)

Inductive LogOp : Type :=
  | LInit (cfg : HistoryConfig) (models : list string)
  | LPersist (cfg : HistoryConfig) (now : Z) (e : ModelEvent)
  | LPersistMany (cfg : HistoryConfig) (now : Z) (es : list ModelEvent)
  | LMaintain (cfg : HistoryConfig) (now : Z) (row_bytes : LogRow -> Z).

Definition offered (op : LogOp) : list ModelEvent :=
  match op with LPersist _ _ e => [e] | LPersistMany _ _ es => es | _ => [] end.

Section Life.
Context {ho : HashOrder}.
Variable uid : string -> Z.
Context {uid_inj : Inj (=) (=) uid}.

Definition apply_log (l : EventLog) (op : LogOp) : EventLog :=
  match op with
  | LInit cfg models => initialize_models cfg models l
  | LPersist cfg now e => persist_in cfg uid now e l
  | LPersistMany cfg now es => persist_many_in cfg uid now es l
  | LMaintain cfg now bytes => (maintain bytes cfg now l).2
  end.

Definition run_log (ops : list LogOp) : EventLog := foldl apply_log log_new ops.

(** No write of the model was skipped and no event of it removed, as far as the coverage
    table knows. *)
Definition covered (m : string) (l : EventLog) : Prop :=
  match lg_coverage l !! m with Some c => cv_complete c = true | None => True end.

(** [seen]: the events handed to the log so far. *)
Record log_ok (seen : list ModelEvent) (l : EventLog) : Prop := {
  lo_from r : r ∈ lg_rows l -> exists e, e ∈ seen /\ lr_event r = strip_origin e;
  lo_ids : NoDup ((fun r => ev_id (lr_event r)) <$> lg_rows l);
  lo_uid r : r ∈ lg_rows l -> lr_id r = uid (ev_id (lr_event r));
  lo_complete e : e ∈ seen -> covered (ev_model e) l ->
    exists r, r ∈ lg_rows l /\ lr_event r = strip_origin e
}.

Definition same_ids (seen : list ModelEvent) : Prop :=
  forall e e', e ∈ seen -> e' ∈ seen -> ev_id e = ev_id e' -> e = e'.

Lemma has_event_spec id rows :
  has_event id rows = true <-> exists r, r ∈ rows /\ ev_id (lr_event r) = id.
Proof.
  unfold has_event. rewrite existsb_exists. split; intros (r & Hr & H); exists r.
  - apply bool_decide_eq_true in H. by apply list_elem_of_In in Hr.
  - split; [by apply list_elem_of_In|by apply bool_decide_eq_true].
Qed.

Lemma insert_event_ok seen now e l :
  same_ids (seen ++ [e]) -> log_ok seen l -> log_ok (seen ++ [e]) (insert_event uid now e l).
Proof.
  intros Hs [Hf Hn Hu Hc]. unfold insert_event. destruct (has_event (ev_id e) (lg_rows l)) eqn:He.
  - apply has_event_spec in He as (r & Hr & Hid). destruct (Hf r Hr) as (e' & He' & Hre).
    assert (e' = e) as <-.
    { apply Hs; [apply elem_of_app; by left|apply elem_of_app; right; left|].
      rewrite <-Hid, Hre. done. }
    split; [|done|done|].
    + intros r' Hr'. destruct (Hf r' Hr') as (x & Hx & ?). exists x. rewrite elem_of_app. auto.
    + intros x [Hx|Hx%list_elem_of_singleton]%elem_of_app Hcov; [by apply Hc|]. subst x. by exists r.
  - assert (Hnot : forall r, r ∈ lg_rows l -> ev_id (lr_event r) <> ev_id e).
    { intros r Hr Heq. assert (has_event (ev_id e) (lg_rows l) = true); [|congruence].
      apply has_event_spec. by exists r. }
    split; cbn [set_rows lg_rows].
    + intros r [Hr| ->%list_elem_of_singleton]%elem_of_app.
      * destruct (Hf r Hr) as (x & Hx & ?). exists x. rewrite elem_of_app. auto.
      * exists e. rewrite elem_of_app. split; [right; left|done].
    + rewrite fmap_app. apply NoDup_app. split; [done|]. split; [|apply NoDup_singleton].
      intros id (r & -> & Hr)%list_elem_of_fmap Heq%list_elem_of_singleton. by apply (Hnot r Hr).
    + intros r [Hr| ->%list_elem_of_singleton]%elem_of_app; [by apply Hu|done].
    + intros x [Hx| ->%list_elem_of_singleton]%elem_of_app Hcov.
      * destruct (Hc x Hx Hcov) as (r & Hr & ?). exists r. rewrite elem_of_app. auto.
      * eexists. rewrite elem_of_app. split; [right; left|done].
Qed.

(** The events already seen do not lose coverage they did not have. *)
Lemma mark_gap_ok seen now e l :
  log_ok seen l -> log_ok (seen ++ [e]) (mark_gap now (ev_model e) l).
Proof.
  intros [Hf Hn Hu Hc].
  assert (Hrows : lg_rows (mark_gap now (ev_model e) l) = lg_rows l).
  { unfold mark_gap. destruct (lg_coverage l !! ev_model e); [by destruct (negb _ && _)|done]. }
  split; rewrite ?Hrows; try done.
  - intros r Hr. destruct (Hf r Hr) as (x & Hx & ?). exists x. rewrite elem_of_app. auto.
  - intros x Hx Hcov.
    assert (Hne : ev_model x <> ev_model e).
    { intros Heq. unfold covered in Hcov. rewrite Heq in Hcov.
      destruct (marked_mark_gap now (ev_model e) l) as (c & Hcc & Hff & _).
      rewrite Hcc in Hcov. congruence. }
    apply elem_of_app in Hx as [Hx| ->%list_elem_of_singleton]; [|done]. apply Hc; [done|].
    revert Hcov. unfold covered, mark_gap.
    destruct (lg_coverage l !! ev_model e) as [c|]; [destruct (negb _ && _); [done|]|];
      cbn [set_coverage lg_coverage]; by rewrite lookup_insert_ne.
Qed.

Lemma persist_ok cfg now e seen l :
  same_ids (seen ++ [e]) -> log_ok seen l -> log_ok (seen ++ [e]) (persist_in cfg uid now e l).
Proof.
  intros Hs Hl. unfold persist_in. case_decide; [by apply mark_gap_ok|by apply insert_event_ok].
Qed.

Lemma persists_ok cfg now es seen l :
  same_ids (seen ++ es) -> log_ok seen l ->
  log_ok (seen ++ es) (foldl (fun l e => persist_in cfg uid now e l) l es).
Proof.
  revert seen l. induction es as [|e es IH]; intros seen l Hs Hl; [by rewrite app_nil_r|].
  simpl. replace (seen ++ e :: es) with ((seen ++ [e]) ++ es) in * by by rewrite <-app_assoc.
  apply IH; [done|]. apply persist_ok; [|done]. intros x y Hx Hy.
  apply Hs; rewrite elem_of_app; by left.
Qed.

(** Initializing keeps what the coverage says. *)
Lemma initialize_covered cfg models l m : covered m (initialize_models cfg models l) <-> covered m l.
Proof.
  unfold initialize_models. revert l. induction models as [|x ms IH]; intros l; [done|]. simpl.
  rewrite IH. unfold covered, initialize_model. cbn [set_coverage lg_coverage].
  destruct (decide (x = m)) as [->|Hne]; [|by rewrite lookup_insert_ne].
  rewrite lookup_insert_eq. by destruct (lg_coverage l !! m).
Qed.

Lemma initialize_rows cfg models l : lg_rows (initialize_models cfg models l) = lg_rows l.
Proof.
  unfold initialize_models. revert l. induction models as [|x ms IH]; intros l; [done|]. simpl.
  by rewrite IH.
Qed.

(** ** Retention *)

Lemma victims_of_model row_bytes p now limit m rows r :
  r ∈ victims row_bytes p now limit m rows -> r ∈ rows /\ ev_model (lr_event r) = m.
Proof. by intros [? ?]%Retention.elem_of_victims%list_elem_of_filter. Qed.

Lemma covered_removal now m m' dead l :
  covered m (record_removal now m' dead l) -> m <> m' /\ covered m l.
Proof.
  unfold covered, record_removal. cbn [set_coverage lg_coverage].
  destruct (decide (m = m')) as [->|Hne].
  - rewrite lookup_insert_eq. by destruct (lg_coverage l !! m').
  - by rewrite lookup_insert_ne.
Qed.

(** A removed batch takes rows of its model only, and the coverage tells. *)
Lemma maintain_model_ok row_bytes cfg now remaining m seen l :
  log_ok seen l -> log_ok seen (maintain_model row_bytes cfg now remaining m l).2.
Proof.
  intros [Hf Hn Hu Hc]. unfold maintain_model.
  set (dead := victims _ _ _ _ _ _). set (keep := filter _ (lg_rows l)).
  assert (Hkeep : forall r, r ∈ keep -> r ∈ lg_rows l) by (by intros r [_ Hr]%list_elem_of_filter).
  assert (Hrows : lg_rows (match dead with [] => set_rows keep l
    | _ => record_removal now m dead (set_rows keep l) end) = keep) by by destruct dead.
  cbn [snd]. split; rewrite ?Hrows.
  - intros r Hr. apply Hf. by apply Hkeep.
  - eapply sublist_NoDup; [exact Hn|]. apply fmap_sublist, sublist_filter.
  - intros r Hr. apply Hu. by apply Hkeep.
  - intros e He Hcov.
    assert (Hcl : covered (ev_model e) l /\ (dead <> [] -> ev_model e <> m)).
    { destruct dead as [|d ds] eqn:Hd; [done|].
      apply covered_removal in Hcov as [Hne Hcov]. done. }
    destruct Hcl as [Hcl Hne]. destruct (Hc e He Hcl) as (r & Hr & Hre). exists r.
    split; [|done]. apply list_elem_of_filter. split; [|done].
    intros (d & Hid & Hd)%list_elem_of_fmap.
    destruct (victims_of_model _ _ _ _ _ _ _ Hd) as [Hdr Hdm].
    rewrite (Hu r Hr), (Hu d Hdr) in Hid. apply uid_inj in Hid.
    assert (r = d) as ->.
    { clear -Hn Hr Hdr Hid. induction (lg_rows l) as [|x rows IH]; [by apply not_elem_of_nil in Hr|].
      cbn [fmap list_fmap] in Hn. apply NoDup_cons in Hn as [Hx Hn].
      apply elem_of_cons in Hr as [->|Hr], Hdr as [->|Hdr]; try done.
      - exfalso. apply Hx. apply list_elem_of_fmap. by exists d.
      - exfalso. apply Hx. apply list_elem_of_fmap. by exists r.
      - by apply IH. }
    rewrite Hre in Hdm. apply Hne; [|exact Hdm]. intros Hnil. rewrite Hnil in Hd.
    by apply not_elem_of_nil in Hd.
Qed.

Lemma maintain_models_ok row_bytes cfg now models remaining removed seen l :
  log_ok seen l -> log_ok seen (maintain_models row_bytes cfg now models remaining removed l).2.
Proof.
  revert remaining removed l. induction models as [|m ms IH]; intros remaining removed l Hl; [done|].
  cbn [maintain_models]. case_decide; [done|]. case_decide; [|by apply IH].
  pose proof (maintain_model_ok row_bytes cfg now remaining m seen l Hl) as Hm.
  destruct (maintain_model _ _ _ _ _ l) as [n l']. by apply IH.
Qed.

Lemma apply_log_ok op seen l :
  same_ids (seen ++ offered op) -> log_ok seen l -> log_ok (seen ++ offered op) (apply_log l op).
Proof.
  intros Hs Hl. destruct op as [cfg models|cfg now e|cfg now es|cfg now bytes]; cbn [offered apply_log] in *.
  - rewrite app_nil_r. destruct Hl as [Hf Hn Hu Hc].
    split; rewrite ?initialize_rows; try done. intros e He Hcov. apply Hc; [done|].
    by apply initialize_covered in Hcov.
  - by apply persist_ok.
  - rewrite persist_many_each. by apply persists_ok.
  - rewrite app_nil_r. unfold maintain. destruct (negb _); [done|].
    assert (Hl' : log_ok seen (mkLog (lg_rows l) (lg_coverage l) (wrap_u64 (lg_cursor l + 1))))
      by (destruct Hl; by split).
    destruct (logged_models _); [done|]. by apply maintain_models_ok.
Qed.

Lemma run_log_ok ops : same_ids (ops ≫= offered) -> log_ok (ops ≫= offered) (run_log ops).
Proof.
  unfold run_log.
  enough (H : forall seen l, same_ids (seen ++ (ops ≫= offered)) -> log_ok seen l ->
    log_ok (seen ++ (ops ≫= offered)) (foldl apply_log l ops)).
  { intros Hs. apply (H []); [done|]. split; try by intros ? ?%not_elem_of_nil. constructor. }
  induction ops as [|op ops IH]; intros seen l Hs Hl; [by rewrite app_nil_r|].
  cbn [mbind list_bind foldl] in *. rewrite app_assoc in *. apply IH; [done|].
  apply apply_log_ok; [|done]. intros x y Hx Hy. apply Hs; rewrite elem_of_app; by left.
Qed.
End Life.

(** The types a write of the data client gives its events. *)
Definition crud_event (e : ModelEvent) : Prop := ev_type e <> MCustom.

Lemma read_row_exact r e :
  crud_event e -> lr_event r = strip_origin e -> read_row r = strip_origin e.
Proof.
  intros He Hr. unfold read_row. rewrite Hr. unfold strip_origin. cbn.
  f_equal. unfold crud_event in He. destruct (ev_type e); done.
Qed.

#[local] Instance ts_le_total : Total ts_le.
Proof. intros a b. unfold ts_le. apply (total String.le). Qed.

(** Reading the rows keeps their order. *)
Lemma read_sorted rows :
  Sorted ts_le rows ->
  Sorted (fun a b => String.le (ev_timestamp a) (ev_timestamp b)) (read_row <$> rows).
Proof.
  induction 1 as [|r rows Hs IH Hhd]; [constructor|]. constructor; [done|].
  destruct Hhd as [|b rows Hrb]; constructor. exact Hrb.
Qed.

(** C13: a replay that is granted is complete.  Take any history of the log from its
    creation: initializations and writes under any policies, changed from one deployment
    to the next, bulk writes and retention runs.  If a replay of a model is granted at the
    end, it returns exactly the events ever written to that model from the given time on,
    as they were written except for their origin, each once, in order of their timestamps:
    no write that a policy skipped and no event that retention removed is missing. *)
Theorem granted_replay_complete `{HashOrder} (uid : string -> Z) (ops : list LogOp)
    (cfg : HistoryConfig) (model : string) (since : option string) (evs : list ModelEvent) :
  Inj (=) (=) uid -> same_ids (ops ≫= offered) -> (forall e, e ∈ ops ≫= offered -> crud_event e) ->
  replay cfg model since (run_log uid ops) = Some evs ->
  (forall e, e ∈ evs <-> exists o, o ∈ ops ≫= offered /\ ev_model o = model /\
     e = strip_origin o /\ forall ts, since = Some ts -> String.le ts (ev_timestamp o)) /\
  NoDup (ev_id <$> evs) /\
  Sorted (fun a b => String.le (ev_timestamp a) (ev_timestamp b)) evs.
Proof.
  intros Hinj Hs Hcrud. pose proof (run_log_ok uid ops Hs) as [Hf Hn _ Hc].
  set (l := run_log uid ops) in *. unfold replay.
  destruct (bool_decide (hp_mode _ <> Full) || _) eqn:Hgr; [done|]. intros [= <-].
  apply orb_false_iff in Hgr as [_ Hcov].
  assert (Hcm : covered model l).
  { unfold covered. destruct (lg_coverage l !! model) as [c|]; [|done].
    apply orb_false_iff in Hcov as [_ Hcov]. by apply negb_false_iff in Hcov. }
  set (sel := filter _ (lg_rows l)).
  assert (Hperm : merge_sort ts_le (horder sel) ≡ₚ sel) by by rewrite merge_sort_Permutation, horder_perm.
  assert (Hrow : forall r, r ∈ lg_rows l -> exists o, o ∈ ops ≫= offered /\
    lr_event r = strip_origin o /\ read_row r = strip_origin o).
  { intros r Hr. destruct (Hf r Hr) as (o & Ho & Hro). exists o. split; [done|]. split; [done|].
    apply read_row_exact; [by apply Hcrud|done]. }
  assert (Hsince : forall r o, lr_event r = strip_origin o ->
    since_ok since r = true <-> forall ts, since = Some ts -> String.le ts (ev_timestamp o)).
  { intros r o Hro. unfold since_ok. rewrite Hro. destruct since as [ts|]; [|done].
    rewrite bool_decide_eq_true. split; [by intros ? ? [= <-]|intros Hts; by apply Hts]. }
  split; [|split].
  - intros e. rewrite list_elem_of_fmap. setoid_rewrite Hperm. split.
    + intros (r & -> & [[Hm Hts] Hr]%list_elem_of_filter).
      destruct (Hrow r Hr) as (o & Ho & Hro & ->). exists o. rewrite Hro in Hm.
      do 3 (split; [done|]). by apply (Hsince r).
    + intros (o & Ho & Hm & -> & Hts). destruct (Hc o Ho) as (r & Hr & Hro); [by rewrite Hm|].
      exists r. split; [symmetry; by apply read_row_exact; [apply Hcrud|]|].
      apply list_elem_of_filter. split; [|done]. rewrite Hro. split; [done|]. by apply (Hsince r o).
  - assert (Hids : ev_id <$> (read_row <$> merge_sort ts_le (horder sel)) =
      (fun r => ev_id (lr_event r)) <$> merge_sort ts_le (horder sel)).
    { rewrite <-list_fmap_compose. done. }
    rewrite Hids, Hperm. eapply sublist_NoDup; [exact Hn|]. apply fmap_sublist, sublist_filter.
  - apply read_sorted, Sorted_merge_sort, _.
Qed.

(** ** Witnesses *)
Module HistoryExamples.
#[local] Existing Instance enum_order.

Definition uid1 (s : string) : Z := Zpos (encode s).
#[local] Instance uid1_inj : Inj (=) (=) uid1.
Proof. intros a b [= H]. by apply (inj encode). Qed.

Definition note (t : EventType) (id at_ : string) : ModelEvent :=
  mkModelEvent t "Note" {[ "id"%string := VString "n1" ]} None at_ id None (Some "act"%string).
Definition cfg_full : HistoryConfig := history_config_default.
Definition cfg_off : HistoryConfig :=
  mkHistoryConfig policy_default {[ "Note"%string := mkPolicy Off None None ]} 60 1000.
Definition ops1 : list LogOp :=
  [LInit cfg_full ["Note"%string]; LPersist cfg_full 1 (note MCreated "e1" "t2");
   LPersistMany cfg_full 2 [note MUpdated "e2" "t1"; note MDeleted "e3" "t3"]].

(** One skipped write makes the replay unavailable for good. *)
Example skipped_write_refuses :
  replay cfg_full "Note" None
    (run_log uid1 (ops1 ++ [LPersist cfg_off 3 (note MUpdated "e4" "t4"); LInit cfg_full ["Note"%string]]))
  = None.
Proof. vm_compute. reflexivity. Qed.

Definition evs1 : list ModelEvent :=
  strip_origin <$> [note MUpdated "e2" "t1"; note MCreated "e1" "t2"; note MDeleted "e3" "t3"].

Lemma ops1_ids : same_ids (ops1 ≫= offered).
Proof.
  intros e e' He He'. unfold ops1 in He, He'. cbn in He, He'.
  repeat (apply elem_of_cons in He as [->|He]); try by apply not_elem_of_nil in He.
  all: repeat (apply elem_of_cons in He' as [->|He']); try by apply not_elem_of_nil in He'.
  all: done.
Qed.

Lemma ops1_crud e : e ∈ ops1 ≫= offered -> crud_event e.
Proof.
  intros He. unfold ops1 in He. cbn in He.
  repeat (apply elem_of_cons in He as [->|He]); try by apply not_elem_of_nil in He.
  all: done.
Qed.

Lemma granted_replay_complete_witness :
  replay cfg_full "Note" None (run_log uid1 ops1) = Some evs1 /\ NoDup (ev_id <$> evs1).
Proof.
  assert (H : replay cfg_full "Note" None (run_log uid1 ops1) = Some evs1) by (vm_compute; reflexivity).
  split; [exact H|].
  destruct (granted_replay_complete uid1 ops1 cfg_full "Note" None evs1 uid1_inj ops1_ids ops1_crud H)
    as (_ & Hn & _). exact Hn.
Defined.
End HistoryExamples.
