(* ===== verification/DataClient.v ===== *)
(** * The data client ([atomo/src/client.rs], [atomo/src/hooks.rs])

    Reads through the cache, and writes that change rows and append their events in one
    transaction.  PostgreSQL and sqlx are parameters: what a statement does to the tables
    and the rows it yields, the getters of a row, and the step at which a transaction may
    fail.  The event log is [History], the cache [Cache]; task-local values (tenant,
    origin) are arguments. *)

From S2P Require Import Prelude Json SchemaTypes Query SqlBuilder DebugText History.
From S2P Require Cache Validation.

(** ** Hooks *)

Record HookContext : Type := mkHookContext {
  hx_model : string;
  hx_operation : string;
  hx_data : Doc;
  hx_user : option string
}.

Inductive HookResult : Type := HContinue (data : Doc) | HAbort (message : string).

(** The trait [HookRunner]; [H] is whatever its implementation changes. *)
Class HookRunner (H : Type) : Type := {
  run_before : string -> HookContext -> H -> (HookResult + string) * H;
  run_after : string -> HookContext -> H -> (unit + string) * H
}.

Definition noop_hooks : HookRunner unit := {|
  run_before := fun _ ctx h => (inl (HContinue (hx_data ctx)), h);
  run_after := fun _ _ h => (inl tt, h)
|}.

(** ** Tenants and filters *)

Definition scope_by_tenant (cs : list WhereClause) (tenant_id : option string) : list WhereClause :=
  match tenant_id with
  | Some tid => cs ++ [mkWhere "tenant_id" Equals (VString tid)]
  | None => cs
  end.

(** What goes wrong; the text of the messages is the source's. *)
Inductive ClientError : Type :=
  | ModelNotFound (model : string)
  | InvalidFilter
  | AccessDenied (action model : string)
  | AuthRequired (action model : string)
  | HookAborted (message : string)
  | HookFailed (cause : string)
  | ValidationFailed (message : string)
  | RowNotFound
  | DbError (cause : string).

Definition clause_ok (c : WhereClause) : bool :=
  match wc_operator c with
  | In | NotIn => bool_decide (is_Some (as_array (wc_value c)))
  | _ => true
  end.

Definition validate_where_clauses (cs : list WhereClause) : option ClientError :=
  if forallb clause_ok cs then None else Some InvalidFilter.

(** [build_args]: how a value is bound.  An integer beyond [i64] is bound as a float. *)
Inductive Arg : Type :=
  | AText (s : string) | AInt (n : Z) | AFloat (x : F64.t) | ABool (b : bool) | ANull
  | AJson (v : Value).

Definition build_arg (v : Value) : Arg :=
  match v with
  | VString s => AText s
  | VNumber (PosInt n) => if decide (n <= i64_max) then AInt n else AFloat (F64.of_Z n)
  | VNumber (NegInt n) => AInt n
  | VNumber (Float x) => AFloat x
  | VBool b => ABool b
  | VNull => ANull
  | v => AJson v
  end.
Definition build_args (ps : list Value) : list Arg := build_arg <$> ps.

Definition capitalize (s : string) : string :=
  match s with
  | EmptyString => EmptyString
  | String a r =>
      let n := Ascii.nat_of_ascii a in
      String (if ((97 <=? n) && (n <=? 122))%nat then Ascii.ascii_of_nat (n - 32) else a) r
  end.

(** [related_model.ends_with('s')], and without it *)
Fixpoint strip_s (s : string) : option string :=
  match s with
  | EmptyString => None
  | String a EmptyString => if Ascii.eqb a (Ascii.ascii_of_nat 115) then Some EmptyString else None
  | String a r => String a <$> strip_s r
  end.

(** ** Rows *)

(** A column of a row: its name and the name of its type; the value is sqlx's. *)
Record Column {Cell : Type} : Type := mkColumn { col_name : string; col_type : string; col_cell : Cell }.
#[global] Arguments Column : clear implicits.
#[global] Arguments mkColumn {Cell}.

Section Rows.
Context {Cell : Type}.

(** [row.try_get::<Option<T>, _>]: [None] is an error, [Some None] a null. *)
Record Getters : Type := mkGetters {
  get_string : Column Cell -> option (option string);
  get_i64 : Column Cell -> option (option Z);
  get_f64 : Column Cell -> option (option F64.t);
  get_bool : Column Cell -> option (option bool);
  get_uuid : Column Cell -> option (option string);        (* hyphenated *)
  get_timestamptz : Column Cell -> option (option string);  (* RFC 3339 *)
  get_json : Column Cell -> option (option Value)
}.
Variable g : Getters.

(** [.ok().flatten().map(..).unwrap_or(Null)] *)
Definition cell_or_null {A} (r : option (option A)) (f : A -> Value) : Value :=
  match r with Some (Some a) => f a | _ => VNull end.

(** [serde_json::Number::from_f64] refuses infinities and NaN. *)
Definition json_f64 (x : F64.t) : Value :=
  match x with
  | SpecFloat.S754_zero _ | SpecFloat.S754_finite _ _ _ => VNumber (Float x)
  | _ => VNull
  end.

Definition cell_value (c : Column Cell) : Value :=
  let t := col_type c in
  if decide (t ∈ ["TEXT"; "VARCHAR"; "CHAR"; "NAME"; "BPCHAR"]%string) then cell_or_null (get_string g c) VString
  else if decide (t ∈ ["INT2"; "INT4"; "INT8"]%string) then cell_or_null (get_i64 g c) json_int
  else if decide (t ∈ ["FLOAT4"; "FLOAT8"]%string) then cell_or_null (get_f64 g c) json_f64
  else if decide (t = "BOOL"%string) then cell_or_null (get_bool g c) VBool
  else if decide (t = "UUID"%string) then cell_or_null (get_uuid g c) VString
  else if decide (t ∈ ["TIMESTAMPTZ"; "TIMESTAMP"]%string) then cell_or_null (get_timestamptz g c) VString
  else if decide (t ∈ ["JSONB"; "JSON"]%string) then cell_or_null (get_json g c) id
  else cell_or_null (get_string g c) VString.

(** A name that comes twice keeps its last value. *)
Definition row_to_map (row : list (Column Cell)) : Doc :=
  foldl (fun m c => <[col_name c := cell_value c]> m) ∅ row.

(** [row.try_get::<i64, _>("count").unwrap_or(0)] *)
Definition count_of_row (row : list (Column Cell)) : Z :=
  match filter (fun c => col_name c = "count"%string) row with
  | c :: _ => match get_i64 g c with Some (Some n) => n | _ => 0 end
  | [] => 0
  end.
End Rows.
#[global] Arguments Getters : clear implicits.

(** ** The client *)

Record Db {D : Type} : Type := mkDb { tables : D; log : EventLog }.
#[global] Arguments Db : clear implicits.
#[global] Arguments mkDb {D}.

(** [cl_ticks] counts readings of the clock by the cache, [cl_serial] the events made. *)
Record Client {D H : Type} : Type := mkClient {
  cl_db : Db D;
  cl_cache : Cache.ReadCache;
  cl_sent : list ModelEvent;
  cl_hooks : H;
  cl_ticks : nat;
  cl_serial : nat
}.
#[global] Arguments Client : clear implicits.
#[global] Arguments mkClient {D H}.

(** The steps of a transaction that may fail besides its statements. *)
Inductive TxStep : Type := TxBegin | TxLock | TxBind | TxPersist | TxCommit.

(** What a cached read asks for, and the tenant it asks for it under. *)
Inductive CacheQuery : Type :=
  | QMany (model : string) (cs : list WhereClause) (order_by : list (string * OrderDirection))
      (limit offset : option nat) (tenant : option string)
  | QUnique (model : string) (cs : list WhereClause) (tenant : option string)
  | QCount (model : string) (cs : list WhereClause) (tenant : option string).

Definition query_model (q : CacheQuery) : string :=
  match q with QMany m _ _ _ _ _ | QUnique m _ _ | QCount m _ _ => m end.
(** What is formatted behind the model; a cached read has no includes. *)
Definition query_text {dv : Debug Value} (q : CacheQuery) : string :=
  let include : list string := [] in
  match q with
  | QMany _ cs order_by limit offset tenant =>
      "many:" +:+ debug cs +:+ "|" +:+ debug order_by +:+ "|" +:+ debug limit +:+ "|" +:+ debug offset +:+ "|" +:+
      debug include +:+ "|" +:+ debug tenant
  | QUnique _ cs tenant => "unique:" +:+ debug cs +:+ debug include +:+ debug tenant
  | QCount _ cs tenant => "count:" +:+ debug cs +:+ debug tenant
  end.
Definition key_of {dv : Debug Value} (q : CacheQuery) : string := Cache.cache_key (query_model q) (query_text q).

Section DataClient.
Context {ho : HashOrder} {D H Cell : Type} {hr : HookRunner H} {dv : Debug Value}.

Variable schema : Schema.
Variable cfg : HistoryConfig.
Variable rls_enabled : bool.
Variable getters : Getters Cell.

(** What PostgreSQL does with a statement under a bound tenant: its rows or an error; a
    failed statement leaves the tables as they are. *)
Variable exec : option string -> string * list Arg -> D -> (list (list (Column Cell)) * D) + string.

(** The transaction of the [n]-th event fails at this step. *)
Variable fault : nat -> TxStep -> option string.

Variable value_len : Value -> option Z.             (* [serde_json::to_vec(v).len()] *)
Variable clock : nat -> Z.                          (* [Instant::now] *)
Variable event_time : nat -> string.                (* [Utc::now().to_rfc3339()] *)
Variable event_uuid : nat -> string.                (* [Uuid::new_v4] *)
Variable db_now : nat -> Z.                         (* [NOW()] in a transaction *)
Variable row_uuid : string -> Z.                    (* the id drawn for a row of the log *)

(** The request's task-locals. *)
Variable current_tenant : option string.
Variable current_origin : option string.

(** The tenant bound in a transaction, when row-level security is on. *)
Definition bound_tenant : option string := if rls_enabled then current_tenant else None.

Definition find_model (name : string) : Model + ClientError :=
  match sc_models schema !! name with Some m => inl m | None => inr (ModelNotFound name) end.

Definition set_db (db : Db D) (c : Client D H) : Client D H :=
  mkClient db (cl_cache c) (cl_sent c) (cl_hooks c) (cl_ticks c) (cl_serial c).
Definition set_cache (rc : Cache.ReadCache) (c : Client D H) : Client D H :=
  mkClient (cl_db c) rc (cl_sent c) (cl_hooks c) (cl_ticks c) (cl_serial c).
Definition set_hooks (h : H) (c : Client D H) : Client D H :=
  mkClient (cl_db c) (cl_cache c) (cl_sent c) h (cl_ticks c) (cl_serial c).
(** The clock is read. *)
Definition tick (c : Client D H) : Client D H :=
  mkClient (cl_db c) (cl_cache c) (cl_sent c) (cl_hooks c) (S (cl_ticks c)) (cl_serial c).

(** *** Reading *)

Definition statement_of (q : Statement) : string * list Arg := (q.1, build_args q.2).

(** [fetch_all_scoped]; reads run on a snapshot and change nothing. *)
Definition fetch_all (q : Statement) (d : D) : list (list (Column Cell)) + ClientError :=
  match exec bound_tenant (statement_of q) d with
  | inl (rows, _) => inl rows
  | inr e => inr (DbError e)
  end.

(** The read of the database behind each cached query. *)
Definition read_many (name : string) (cs : list WhereClause)
    (order_by : list (string * OrderDirection)) (limit offset : option nat) (d : D)
    : list Doc + ClientError :=
  match find_model name with
  | inr e => inr e
  | inl m =>
      match fetch_all (select_active m cs order_by limit offset) d with
      | inl rows => inl (row_to_map getters <$> rows)
      | inr e => inr e
      end
  end.

Definition read_unique (name : string) (cs : list WhereClause) (d : D)
    : option Doc + ClientError :=
  match find_model name with
  | inr e => inr e
  | inl m =>
      match fetch_all (select_one m (cs ++ [mkWhere "deleted_at" IsNull VNull])) d with
      | inl rows => inl (row_to_map getters <$> head rows)
      | inr e => inr e
      end
  end.

Definition count_statement (m : Model) (cs : list WhereClause) : Statement :=
  let '(where_sql, params) := build_where cs 0 in
  (push_where ("SELECT COUNT(*) as count FROM " +:+ quote_ident (table_name m)) where_sql, params).

(** [fetch_one] *)
Definition first_row {A} (rows : list A) : A + ClientError :=
  match rows with r :: _ => inl r | [] => inr RowNotFound end.

Definition read_count (name : string) (cs : list WhereClause) (d : D) : Z + ClientError :=
  match find_model name with
  | inr e => inr e
  | inl m =>
      match fetch_all (count_statement m (cs ++ [mkWhere "deleted_at" IsNull VNull])) d with
      | inl rows =>
          match first_row rows with
          | inl row => inl (count_of_row getters row)
          | inr e => inr e
          end
      | inr e => inr e
      end
  end.

(** [to_value] and [from_value] of what is cached. *)
Definition encode_many (l : list Doc) : Value := VArray (object_of_map <$> l).
Definition decode_many (v : Value) : option (list Doc) :=
  match v with VArray l => mapM map_of_object l | _ => None end.
Definition encode_unique (o : option Doc) : Value :=
  match o with Some d => object_of_map d | None => VNull end.
Definition decode_unique (v : Value) : option (option Doc) :=
  match v with
  | VNull => Some None
  | VObject _ => Some <$> map_of_object v
  | _ => None
  end.
Definition decode_count (v : Value) : option Z :=
  match v with
  | VNumber (PosInt n) => if decide (n <= i64_max) then Some n else None
  | VNumber (NegInt n) => Some n
  | _ => None
  end.

(** The read-through pattern of the three cached reads. *)
Definition cached_read {A} (q : CacheQuery) (encode : A -> Value) (decode : Value -> option A)
    (read : D -> A + ClientError) (c : Client D H) : (A + ClientError) * Client D H :=
  let generation := Cache.generation (cl_cache c) in
  let '(hit, rc) := Cache.get (clock (cl_ticks c)) (key_of q) (cl_cache c) in
  let c := tick (set_cache rc c) in
  match hit ≫= decode with
  | Some a => (inl a, c)
  | None =>
      match read (tables (cl_db c)) with
      | inr e => (inr e, c)
      | inl a =>
          let rc := Cache.set_if_generation value_len (clock (cl_ticks c)) (clock (S (cl_ticks c)))
                      (Cache.generation (cl_cache c)) (key_of q) (encode a) generation (cl_cache c) in
          (inl a, tick (tick (set_cache rc c)))
      end
  end.

Definition bypass (c : Client D H) : Client D H :=
  set_cache (Cache.record_relational_bypass (cl_cache c)) c.

(** A read without includes. *)
Definition find_many_plain (name : string) (cs : list WhereClause)
    (order_by : list (string * OrderDirection)) (limit offset : option nat) (c : Client D H)
    : (list Doc + ClientError) * Client D H :=
  match validate_where_clauses cs with
  | Some e => (inr e, c)
  | None => cached_read (QMany name cs order_by limit offset current_tenant) encode_many decode_many
              (read_many name cs order_by limit offset) c
  end.

Definition find_unique_plain (name : string) (cs : list WhereClause) (c : Client D H)
    : (option Doc + ClientError) * Client D H :=
  match validate_where_clauses cs with
  | Some e => (inr e, c)
  | None => cached_read (QUnique name cs current_tenant) encode_unique decode_unique
              (read_unique name cs) c
  end.

Definition count (name : string) (cs : list WhereClause) (c : Client D H)
    : (Z + ClientError) * Client D H :=
  match validate_where_clauses cs with
  | Some e => (inr e, c)
  | None => cached_read (QCount name cs current_tenant) json_int decode_count (read_count name cs) c
  end.

(** *** Relationships *)

Definition by_field (field id : string) : list WhereClause := [mkWhere field Equals (VString id)].

(** [record.get(&fk_snake).or_else(|| record.get(&fk))] *)
Definition either_key (record : Doc) (a b : string) : option Value :=
  match record !! a with Some v => Some v | None => record !! b end.

(** The record that [belongsTo] refers to, inserted when it is found; errors are ignored. *)
Definition include_one (rel_name model id : string) (record : Doc) (c : Client D H)
    : Doc * Client D H :=
  match find_unique_plain model (by_field "id" id) c with
  | (inl (Some related), c) => (<[rel_name := object_of_map related]> record, c)
  | (_, c) => (record, c)
  end.

Definition include_all (rel_name model fk id : string) (record : Doc) (c : Client D H)
    : Doc * Client D H :=
  match find_many_plain model (by_field fk id) [] None None c with
  | (inl related, c) => (<[rel_name := encode_many related]> record, c)
  | (inr _, c) => (record, c)
  end.

Definition resolve_include (model : Model) (model_name rel_name : string) (record : Doc)
    (c : Client D H) : Doc * Client D H :=
  match m_relationships model !! rel_name with
  | Some rel =>
      if decide (rl_kind rel = "belongsTo"%string) then
        let fk := default (rel_name +:+ "Id") (rl_foreign_key rel) in
        match either_key record (to_snake_case fk) fk with
        | Some (VString id) => include_one rel_name (rl_model rel) id record c
        | _ => (record, c)
        end
      else
        match record !! "id"%string with
        | Some (VString id) =>
            let fk := match rl_foreign_key rel with
                      | Some f => to_snake_case f
                      | None => to_snake_case model_name +:+ "_id"
                      end in
            include_all rel_name (rl_model rel) fk id record c
        | _ => (record, c)
        end
  | None =>
      (* by convention *)
      let fk := rel_name +:+ "Id" in
      match either_key record (to_snake_case fk) fk with
      | Some (VString id) => include_one rel_name (capitalize rel_name) id record c
      | Some _ => (record, c)
      | None =>
          match record !! "id"%string with
          | Some (VString id) =>
              let related := capitalize rel_name in
              let singular := default related (strip_s related) in
              let target := if decide (is_Some (sc_models schema !! singular)) then singular else related in
              include_all rel_name target (to_snake_case model_name +:+ "_id") id record c
          | _ => (record, c)
          end
      end
  end.

Fixpoint resolve_includes_loop (model : Model) (model_name : string) (includes : list string)
    (record : Doc) (c : Client D H) : Doc * Client D H :=
  match includes with
  | [] => (record, c)
  | rel :: rest =>
      let '(record, c) := resolve_include model model_name rel record c in
      resolve_includes_loop model model_name rest record c
  end.

Definition resolve_includes (model_name : string) (includes : list string) (record : Doc)
    (c : Client D H) : Doc * Client D H :=
  match sc_models schema !! model_name with
  | None => (record, c)
  | Some m => resolve_includes_loop m model_name includes record c
  end.

Fixpoint resolve_each (model_name : string) (includes : list string) (records : list Doc)
    (c : Client D H) : list Doc * Client D H :=
  match records with
  | [] => ([], c)
  | r :: rest =>
      let '(r, c) := resolve_includes model_name includes r c in
      let '(rest, c) := resolve_each model_name includes rest c in
      (r :: rest, c)
  end.

Definition find_many (name : string) (cs : list WhereClause)
    (order_by : list (string * OrderDirection)) (limit offset : option nat)
    (includes : list string) (c : Client D H) : (list Doc + ClientError) * Client D H :=
  match includes with
  | [] => find_many_plain name cs order_by limit offset c
  | _ =>
      match validate_where_clauses cs with
      | Some e => (inr e, c)
      | None =>
          let c := bypass c in
          match read_many name cs order_by limit offset (tables (cl_db c)) with
          | inr e => (inr e, c)
          | inl records =>
              let '(records, c) := resolve_each name includes records c in (inl records, c)
          end
      end
  end.

Definition find_unique (name : string) (cs : list WhereClause) (includes : list string)
    (c : Client D H) : (option Doc + ClientError) * Client D H :=
  match includes with
  | [] => find_unique_plain name cs c
  | _ =>
      match validate_where_clauses cs with
      | Some e => (inr e, c)
      | None =>
          let c := bypass c in
          match read_unique name cs (tables (cl_db c)) with
          | inr e => (inr e, c)
          | inl None => (inl None, c)
          | inl (Some record) =>
              let '(record, c) := resolve_includes name includes record c in (inl (Some record), c)
          end
      end
  end.

(** The trash view is never cached. *)
Definition find_deleted (name : string) (cs : list WhereClause)
    (order_by : list (string * OrderDirection)) (limit offset : option nat) (c : Client D H)
    : list Doc + ClientError :=
  match validate_where_clauses cs with
  | Some e => inr e
  | None =>
      match find_model name with
      | inr e => inr e
      | inl m =>
          match fetch_all (select_deleted m cs order_by limit offset) (tables (cl_db c)) with
          | inl rows => inl (row_to_map getters <$> rows)
          | inr e => inr e
          end
      end
  end.

Definition count_deleted (name : string) (cs : list WhereClause) (c : Client D H)
    : Z + ClientError :=
  match validate_where_clauses cs with
  | Some e => inr e
  | None =>
      match find_model name with
      | inr e => inr e
      | inl m =>
          match fetch_all (count_statement m (cs ++ [mkWhere "deleted_at" IsNotNull VNull]))
                  (tables (cl_db c)) with
          | inl rows => match first_row rows with
                        | inl row => inl (count_of_row getters row) | inr e => inr e end
          | inr e => inr e
          end
      end
  end.

(** *** Writing *)

Definition mk_event (t : EventType) (model : string) (data : Doc) (actor : option string) (n : nat)
    : ModelEvent :=
  mkModelEvent t model data None (event_time n) (event_uuid n) actor current_origin.

(** One event per row, in order. *)
Definition mk_events (t : EventType) (model : string) (actor : option string) (serial : nat)
    (rows : list Doc) : list ModelEvent :=
  imap (fun i data => mk_event t model data actor (serial + i)) rows.

(** The data of a deletion event: the id alone. *)
Definition only_id (record : Doc) : Doc :=
  match record !! "id"%string with Some id => {[ "id"%string := id ]} | None => ∅ end.

(** What the statements of a transaction do: the rows of each write, or the first error. *)
Fixpoint exec_all (qs : list Statement) (d : D) : (list (list (Column Cell)) * D) + ClientError :=
  match qs with
  | [] => inl ([], d)
  | q :: rest =>
      match exec bound_tenant (statement_of q) d with
      | inr e => inr (DbError e)
      | inl (rows, d) =>
          match first_row rows with
          | inr e => inr e
          | inl row =>
              match exec_all rest d with
              | inl (out, d) => inl (row :: out, d)
              | inr e => inr e
              end
          end
      end
  end.

(** A statement of which every row is taken. *)
Definition exec_one (q : Statement) (d : D) : (list (list (Column Cell)) * D) + ClientError :=
  match exec bound_tenant (statement_of q) d with
  | inl r => inl r
  | inr e => inr (DbError e)
  end.

(** Begin, lock, bind the tenant, run the statements, append the events, commit.  Anything
    that fails rolls back everything. *)
Definition transaction (serial : nat)
    (run : D -> (list (list (Column Cell)) * D) + ClientError)
    (events : list Doc -> list ModelEvent) (db : Db D)
    : (list Doc * list ModelEvent * Db D) + ClientError :=
  let step s := fault serial s in
  match step TxBegin, step TxLock with
  | Some e, _ | _, Some e => inr (DbError e)
  | None, None =>
      match (match bound_tenant with Some _ => step TxBind | None => None end) with
      | Some e => inr (DbError e)
      | None =>
          match run (tables db) with
          | inr e => inr e
          | inl (rows, d) =>
              let records := row_to_map getters <$> rows in
              let evs := events records in
              match step TxPersist, step TxCommit with
              | Some e, _ | _, Some e => inr (DbError e)
              | None, None =>
                  inl (records, evs,
                       mkDb d (persist_many_in cfg row_uuid (db_now serial) evs (log db)))
              end
          end
      end
  end.

(** After the commit: the cache is invalidated and the events are broadcast. *)
Definition committed (model : string) (db : Db D) (evs : list ModelEvent) (c : Client D H)
    : Client D H :=
  mkClient db (Cache.invalidate_model model (cl_cache c)) (cl_sent c ++ evs) (cl_hooks c)
    (cl_ticks c) (cl_serial c + length evs).

Definition after_hook (name : string) (ctx : HookContext) (c : Client D H) : Client D H :=
  set_hooks (run_after name ctx (cl_hooks c)).2 c.

(** The before-hook: the data to go on with, or the error. *)
Definition before_hook (name : string) (ctx : HookContext) (c : Client D H)
    : (Doc + ClientError) * Client D H :=
  let '(r, h) := run_before name ctx (cl_hooks c) in
  (match r with
   | inl (HContinue d) => inl d
   | inl (HAbort msg) => inr (HookAborted msg)
   | inr e => inr (HookFailed e)
   end, set_hooks h c).

Definition first_error (errors : list Validation.ValidationError) : option ClientError :=
  match errors with
  | e :: _ => Some (ValidationFailed (Validation.ve_message e))
  | [] => None
  end.

Definition check_full (m : Model) (data : Doc) : option ClientError :=
  if decide (m_validation m = ∅) then None
  else first_error (Validation.validate data (m_validation m)).
Definition check_partial (m : Model) (data : Doc) : option ClientError :=
  if decide (m_validation m = ∅) then None
  else first_error (Validation.validate_partial data (m_validation m)).

(** [persist_in] for the single event of [create] is [persist_many_in] of one. *)
Definition create (name : string) (data : Doc) (actor : option string) (c : Client D H)
    : (Doc + ClientError) * Client D H :=
  match find_model name with
  | inr e => (inr e, c)
  | inl m =>
      let ctx := mkHookContext name "create" data None in
      match before_hook "before_create" ctx c with
      | (inr e, c) => (inr e, c)
      | (inl data, c) =>
          match check_full m data with
          | Some e => (inr e, c)
          | None =>
              match transaction (cl_serial c) (exec_all [insert m data])
                      (mk_events MCreated name actor (cl_serial c)) (cl_db c) with
              | inr e => (inr e, c)
              | inl (records, evs, db) =>
                  let c := committed name db evs c in
                  let c := after_hook "after_create" ctx c in
                  (match records with r :: _ => inl r | [] => inr RowNotFound end, c)
              end
          end
      end
  end.

(** Hook and validation of every record, before the transaction. *)
Fixpoint prepare (m : Model) (name : string) (records : list Doc) (c : Client D H)
    : (list Doc + ClientError) * Client D H :=
  match records with
  | [] => (inl [], c)
  | data :: rest =>
      match before_hook "before_create" (mkHookContext name "create" data None) c with
      | (inr e, c) => (inr e, c)
      | (inl data, c) =>
          match check_full m data with
          | Some e => (inr e, c)
          | None =>
              match prepare m name rest c with
              | (inr e, c) => (inr e, c)
              | (inl ds, c) => (inl (data :: ds), c)
              end
          end
      end
  end.

Definition run_inserts (m : Model) (prepared : list Doc) (d : D)
    : (list (list (Column Cell)) * D) + ClientError :=
  match insert_many m prepared with
  | Some q => exec_one q d
  | None => exec_all (insert m <$> prepared) d
  end.

Definition create_many (name : string) (records : list Doc) (actor : option string)
    (c : Client D H) : (list Doc + ClientError) * Client D H :=
  match find_model name with
  | inr e => (inr e, c)
  | inl m =>
      match records with
      | [] => (inl [], c)
      | _ =>
          match prepare m name records c with
          | (inr e, c) => (inr e, c)
          | (inl prepared, c) =>
              match transaction (cl_serial c) (run_inserts m prepared)
                      (mk_events MCreated name actor (cl_serial c)) (cl_db c) with
              | inr e => (inr e, c)
              | inl (out, evs, db) =>
                  let c := committed name db evs c in
                  (inl out, foldl (fun c r => after_hook "after_create"
                                     (mkHookContext name "create" r None) c) c out)
              end
          end
      end
  end.

Definition update_many (name : string) (cs : list WhereClause) (data : Doc)
    (actor : option string) (c : Client D H) : (list Doc + ClientError) * Client D H :=
  match validate_where_clauses cs with
  | Some e => (inr e, c)
  | None =>
      match find_model name with
      | inr e => (inr e, c)
      | inl m =>
          let ctx := mkHookContext name "update" data None in
          match before_hook "before_update" ctx c with
          | (inr e, c) => (inr e, c)
          | (inl data, c) =>
              match check_partial m data with
              | Some e => (inr e, c)
              | None =>
                  match transaction (cl_serial c) (exec_one (update m cs data))
                          (mk_events MUpdated name actor (cl_serial c)) (cl_db c) with
                  | inr e => (inr e, c)
                  | inl (out, evs, db) =>
                      (inl out, after_hook "after_update" ctx (committed name db evs c))
                  end
              end
          end
      end
  end.

Definition delete_many (name : string) (cs : list WhereClause) (actor : option string)
    (c : Client D H) : (nat + ClientError) * Client D H :=
  match validate_where_clauses cs with
  | Some e => (inr e, c)
  | None =>
      match find_model name with
      | inr e => (inr e, c)
      | inl m =>
          let ctx := mkHookContext name "delete" ∅ None in
          match before_hook "before_delete" ctx c with
          | (inr e, c) => (inr e, c)
          | (inl _, c) =>
              match transaction (cl_serial c) (exec_one (soft_delete m cs))
                      (fun rs => mk_events MDeleted name actor (cl_serial c) (only_id <$> rs))
                      (cl_db c) with
              | inr e => (inr e, c)
              | inl (out, evs, db) =>
                  (inl (length out), after_hook "after_delete" ctx (committed name db evs c))
              end
          end
      end
  end.

(** [restore_many] and [hard_delete_many] run neither hooks nor validation. *)
Definition restore_many (name : string) (cs : list WhereClause) (actor : option string)
    (c : Client D H) : (nat + ClientError) * Client D H :=
  match validate_where_clauses cs with
  | Some e => (inr e, c)
  | None =>
      match find_model name with
      | inr e => (inr e, c)
      | inl m =>
          match transaction (cl_serial c) (exec_one (restore m cs))
                  (mk_events MRestored name actor (cl_serial c)) (cl_db c) with
          | inr e => (inr e, c)
          | inl (out, evs, db) => (inl (length out), committed name db evs c)
          end
      end
  end.

Definition hard_delete_many (name : string) (cs : list WhereClause) (actor : option string)
    (c : Client D H) : (nat + ClientError) * Client D H :=
  match validate_where_clauses cs with
  | Some e => (inr e, c)
  | None =>
      match find_model name with
      | inr e => (inr e, c)
      | inl m =>
          match transaction (cl_serial c) (exec_one (delete m cs))
                  (fun rs => mk_events MHardDeleted name actor (cl_serial c) (only_id <$> rs))
                  (cl_db c) with
          | inr e => (inr e, c)
          | inl (out, evs, db) => (inl (length out), committed name db evs c)
          end
      end
  end.

(** *** Access *)

Definition enforce_access (name action : string) (role : option string) : option ClientError :=
  match sc_models schema !! name ≫= m_access with
  | None => None
  | Some a =>
      match access_decide a action role with
      | Allow => None
      | Forbidden => Some (AccessDenied action name)
      | NeedsAuth => Some (AuthRequired action name)
      end
  end.

Definition create_checked (role : option string) (name : string) (data : Doc)
    (actor : option string) (c : Client D H) : (Doc + ClientError) * Client D H :=
  match enforce_access name "create" role with
  | Some e => (inr e, c)
  | None => create name data actor c
  end.

Definition update_many_checked (role : option string) (name : string) (cs : list WhereClause)
    (data : Doc) (actor : option string) (c : Client D H)
    : (list Doc + ClientError) * Client D H :=
  match validate_where_clauses cs with
  | Some e => (inr e, c)
  | None =>
      match enforce_access name "update" role with
      | Some e => (inr e, c)
      | None => update_many name cs data actor c
      end
  end.

Definition delete_many_checked (role : option string) (name : string) (cs : list WhereClause)
    (actor : option string) (c : Client D H) : (nat + ClientError) * Client D H :=
  match validate_where_clauses cs with
  | Some e => (inr e, c)
  | None =>
      match enforce_access name "delete" role with
      | Some e => (inr e, c)
      | None => delete_many name cs actor c
      end
  end.
End DataClient.
