(* ===== verification/DataClientSpec.v ===== *)
(** * What the data client promises

    A write changes rows, log and broadcast together or not at all; a denied caller changes
    nothing; and a client with a strong cache answers exactly like one without. *)

From S2P Require Import Prelude Json SchemaTypes Query SqlBuilder DebugText History DataClient.
From S2P Require Cache CacheSpec Validation.
From S2P Require Dispatcher.

Section Spec.
Context {ho : HashOrder} {D H Cell : Type} {hr : HookRunner H} {dv : Debug Value}.
Variable schema : Schema.
Variable cfg : HistoryConfig.
Variable rls_enabled : bool.
Variable getters : Getters Cell.
Variable exec : option string -> string * list Arg -> D -> (list (list (Column Cell)) * D) + string.
Variable fault : nat -> TxStep -> option string.
Variable value_len : Value -> option Z.
Variable clock : nat -> Z.
Variable event_time event_uuid : nat -> string.
Variable db_now : nat -> Z.
Variable row_uuid : string -> Z.
Variable current_tenant current_origin : option string.

Abbreviation tx := (transaction cfg rls_enabled getters fault db_now row_uuid current_tenant).
Abbreviation events := (mk_events event_time event_uuid current_origin).

(** ** Writes *)

Inductive Write : Type :=
  | WCreate (model : string) (data : Doc)
  | WCreateMany (model : string) (records : list Doc)
  | WUpdate (model : string) (cs : list WhereClause) (data : Doc)
  | WDelete (model : string) (cs : list WhereClause)
  | WRestore (model : string) (cs : list WhereClause)
  | WHardDelete (model : string) (cs : list WhereClause).

Definition write_model (w : Write) : string :=
  match w with
  | WCreate m _ | WCreateMany m _ | WUpdate m _ _ | WDelete m _ | WRestore m _ | WHardDelete m _ => m
  end.

Definition write_type (w : Write) : EventType :=
  match w with
  | WCreate _ _ | WCreateMany _ _ => MCreated
  | WUpdate _ _ _ => MUpdated
  | WDelete _ _ => MDeleted
  | WRestore _ _ => MRestored
  | WHardDelete _ _ => MHardDeleted
  end.

(** The data of the event of a row. *)
Definition event_data (w : Write) (row : Doc) : Doc :=
  match w with WDelete _ _ | WHardDelete _ _ => only_id row | _ => row end.

Definition outcome {A} (r : (A + ClientError) * Client D H) : option ClientError * Client D H :=
  (match r.1 with inl _ => None | inr e => Some e end, r.2).

Definition apply_write (actor : option string) (w : Write) (c : Client D H)
    : option ClientError * Client D H :=
  match w with
  | WCreate m data => outcome (create schema cfg rls_enabled getters exec fault event_time event_uuid
      db_now row_uuid current_tenant current_origin m data actor c)
  | WCreateMany m rs => outcome (create_many schema cfg rls_enabled getters exec fault event_time
      event_uuid db_now row_uuid current_tenant current_origin m rs actor c)
  | WUpdate m cs data => outcome (update_many schema cfg rls_enabled getters exec fault event_time
      event_uuid db_now row_uuid current_tenant current_origin m cs data actor c)
  | WDelete m cs => outcome (delete_many schema cfg rls_enabled getters exec fault event_time
      event_uuid db_now row_uuid current_tenant current_origin m cs actor c)
  | WRestore m cs => outcome (restore_many schema cfg rls_enabled getters exec fault event_time
      event_uuid db_now row_uuid current_tenant current_origin m cs actor c)
  | WHardDelete m cs => outcome (hard_delete_many schema cfg rls_enabled getters exec fault event_time
      event_uuid db_now row_uuid current_tenant current_origin m cs actor c)
  end.

(** What readers can observe of a client. *)
Definition same_data (c c' : Client D H) : Prop :=
  cl_db c' = cl_db c /\ cl_cache c' = cl_cache c /\ cl_sent c' = cl_sent c.

#[local] Instance same_data_refl : Reflexive same_data.
Proof. by split. Qed.
#[local] Instance same_data_trans : Transitive same_data.
Proof. intros a b c (H1 & H2 & H3) (G1 & G2 & G3). by unfold same_data; rewrite G1, G2, G3. Qed.

(** The statements of a write, on the data its before-hook returned and the validation
    accepted. *)
Inductive write_runs (c : Client D H) (m : Model)
    : Write -> (D -> (list (list (Column Cell)) * D) + ClientError) -> Prop :=
  | runs_create name data data' c1 :
      before_hook "before_create" (mkHookContext name "create" data None) c = (inl data', c1) ->
      check_full m data' = None ->
      write_runs c m (WCreate name data) (exec_all rls_enabled exec current_tenant [insert m data'])
  | runs_create_many name rs prepared c1 :
      prepare m name rs c = (inl prepared, c1) ->
      write_runs c m (WCreateMany name rs) (run_inserts rls_enabled exec current_tenant m prepared)
  | runs_update name cs data data' c1 :
      before_hook "before_update" (mkHookContext name "update" data None) c = (inl data', c1) ->
      check_partial m data' = None ->
      write_runs c m (WUpdate name cs data) (exec_one rls_enabled exec current_tenant (update m cs data'))
  | runs_delete name cs :
      write_runs c m (WDelete name cs) (exec_one rls_enabled exec current_tenant (soft_delete m cs))
  | runs_restore name cs :
      write_runs c m (WRestore name cs) (exec_one rls_enabled exec current_tenant (restore m cs))
  | runs_hard_delete name cs :
      write_runs c m (WHardDelete name cs) (exec_one rls_enabled exec current_tenant (delete m cs)).

(** A committed write: its statements took the tables to [d] yielding [rows], and for each
    row, in order, one event was appended to the log and broadcast. *)
Definition committed_write (w : Write) (actor : option string) (c c' : Client D H) : Prop :=
  exists m run rows d evs,
    sc_models schema !! write_model w = Some m /\ write_runs c m w run /\
    run (tables (cl_db c)) = inl (rows, d) /\ tables (cl_db c') = d /\
    evs = events (write_type w) (write_model w) actor (cl_serial c)
            (event_data w <$> (row_to_map getters <$> rows)) /\
    log (cl_db c') = persist_many_in cfg row_uuid (db_now (cl_serial c)) evs (log (cl_db c)) /\
    cl_sent c' = cl_sent c ++ evs /\
    cl_cache c' = Cache.invalidate_model (write_model w) (cl_cache c).

(** A transaction that commits ran its statements and appended its events. *)
Lemma transaction_spec serial run evs_of (db : Db D) records evs db' :
  tx serial run evs_of db = inl (records, evs, db') ->
  exists rows d, run (tables db) = inl (rows, d) /\ records = row_to_map getters <$> rows /\
    evs = evs_of records /\
    db' = mkDb d (persist_many_in cfg row_uuid (db_now serial) evs (log db)).
Proof.
  unfold transaction. destruct (fault serial TxBegin), (fault serial TxLock); try done.
  destruct (match bound_tenant rls_enabled current_tenant with Some _ => _ | None => _ end); [done|].
  destruct (run (tables db)) as [[rows d]|e]; [|done].
  destruct (fault serial TxPersist), (fault serial TxCommit); try done.
  intros [= <- <- <-]. by exists rows, d.
Qed.

Lemma before_hook_same name ctx (c : Client D H) : same_data c (before_hook name ctx c).2.
Proof. unfold before_hook. by destruct (run_before _ _ _) as [r h]. Qed.

Lemma before_hook_serial name ctx (c : Client D H) : cl_serial (before_hook name ctx c).2 = cl_serial c.
Proof. unfold before_hook. by destruct (run_before _ _ _) as [r h]. Qed.

Lemma prepare_same m name rs (c : Client D H) :
  same_data c (prepare m name rs c).2 /\ cl_serial (prepare m name rs c).2 = cl_serial c.
Proof.
  revert c. induction rs as [|r rs IH]; intros c; [done|]. cbn [prepare].
  set (ctx := mkHookContext _ _ _ _).
  pose proof (before_hook_same "before_create" ctx c) as Hs.
  pose proof (before_hook_serial "before_create" ctx c) as Hn.
  destruct (before_hook _ ctx c) as [[d|e] c1]; [|done].
  destruct (check_full m d); [done|]. destruct (IH c1) as [Hs1 Hn1].
  destruct (prepare m name rs c1) as [[ds|e] c2]; cbn [snd] in *;
    (split; [by etrans|by rewrite Hn1]).
Qed.

Lemma after_hook_same name ctx (c : Client D H) : same_data c (after_hook name ctx c).
Proof. done. Qed.

Lemma after_hooks_same name (out : list Doc) (c : Client D H) :
  same_data c (foldl (fun c r => after_hook "after_create" (mkHookContext name "create" r None) c) c out).
Proof.
  revert c. induction out as [|r out IH]; intros c; [done|]. cbn [foldl].
  etrans; [|apply IH]. apply after_hook_same.
Qed.

(** A single statement that succeeds yields its row. *)
Lemma exec_all_one q d rows d' :
  exec_all rls_enabled exec current_tenant [q] d = inl (rows, d') -> exists row, rows = [row].
Proof.
  cbn [exec_all]. destruct (exec _ _ _) as [[out d1]|e]; [|done].
  destruct (first_row out) as [row|e]; [|done]. intros [= <- _]. by exists row.
Qed.

(** What a write must come to. *)
Definition all_or_nothing (w : Write) (actor : option string) (c : Client D H)
    (r : option ClientError * Client D H) : Prop :=
  match r with
  | (Some _, c') => same_data c c'
  | (None, c') => committed_write w actor c c' \/ (exists model, w = WCreateMany model [] /\ same_data c c')
  end.

(** A write that ends in a transaction: an error leaves what came before it, a success only
    runs after-hooks. *)
Lemma tx_end {A} w actor m run evs_of
    (F : list Doc -> list ModelEvent -> Db D -> (A + ClientError) * Client D H) (c c1 : Client D H) :
  sc_models schema !! write_model w = Some m -> write_runs c m w run ->
  same_data c c1 -> cl_serial c1 = cl_serial c ->
  (forall rs, evs_of rs = events (write_type w) (write_model w) actor (cl_serial c1) (event_data w <$> rs)) ->
  (forall evs db rows d, run (tables (cl_db c1)) = inl (rows, d) ->
     exists a c2, F (row_to_map getters <$> rows) evs db = (inl a, c2) /\
       same_data (committed (write_model w) db evs c1) c2) ->
  all_or_nothing w actor c
    (outcome (match tx (cl_serial c1) run evs_of (cl_db c1) with
              | inr e => (inr e, c1)
              | inl (records, evs, db) => F records evs db
              end)).
Proof.
  intros Hm Hrun Hs Hn Hev Hok.
  destruct (tx (cl_serial c1) run evs_of (cl_db c1)) as [[[records evs] db]|e] eqn:Ht; [|exact Hs].
  apply transaction_spec in Ht as (rows & d & Hr & -> & -> & ->).
  edestruct (Hok (evs_of (row_to_map getters <$> rows))) as (a & c2 & Hf & Hc2); [exact Hr|]. rewrite Hf.
  left. destruct Hc2 as (G1 & G2 & G3), Hs as (Hdb & Hca & Hse).
  rewrite Hn, Hdb in *. exists m, run, rows, d. eexists.
  cbn [snd]. do 3 (split; [done|]). split; [by rewrite G1|]. split; [done|]. rewrite <- Hev.
  split; [by rewrite G1|]. split; [rewrite G3; cbn [committed cl_sent]; by rewrite Hse|].
  rewrite G2. cbn [committed cl_cache]. by rewrite Hca.
Qed.
Lemma apply_write_spec actor w c : all_or_nothing w actor c (apply_write actor w c).
Proof.
  destruct w as [name data|name rs|name cs data|name cs|name cs|name cs];
    unfold apply_write, create, create_many, update_many, delete_many, restore_many,
      hard_delete_many, find_model.
  - destruct (sc_models schema !! name) as [m|] eqn:Hm; [|done].
    set (ctx := mkHookContext _ _ _ _).
    destruct (before_hook "before_create" ctx c) as [[data'|e] c1] eqn:Hb;
      pose proof (before_hook_same "before_create" ctx c) as Hs; rewrite Hb in Hs; [|done].
    pose proof (before_hook_serial "before_create" ctx c) as Hn; rewrite Hb in Hn.
    destruct (check_full m data') eqn:Hv; [done|].
    eapply tx_end; [exact Hm|by econstructor|exact Hs|exact Hn| |].
    + intros rs. cbn [event_data]. by rewrite list_fmap_id.
    + intros evs db rows d Hr. edestruct exec_all_one as [row ->]; [exact Hr|].
      cbn [fmap list_fmap]. eexists _, _. split; [done|apply after_hook_same].
  - destruct (sc_models schema !! name) as [m|] eqn:Hm; [|done].
    destruct rs as [|r rs]; [by right; exists name|]. set (records := r :: rs).
    destruct (prepare m name records c) as [[prepared|e] c1] eqn:Hp;
      pose proof (prepare_same m name records c) as [Hs Hn]; rewrite Hp in Hs, Hn; [|done].
    eapply tx_end; [exact Hm|by econstructor|exact Hs|exact Hn| |].
    + intros rs'. cbn [event_data]. by rewrite list_fmap_id.
    + intros evs db rows d _. eexists _, _. split; [done|apply after_hooks_same].
  - destruct (validate_where_clauses cs); [done|].
    destruct (sc_models schema !! name) as [m|] eqn:Hm; [|done].
    set (ctx := mkHookContext _ _ _ _).
    destruct (before_hook "before_update" ctx c) as [[data'|e] c1] eqn:Hb;
      pose proof (before_hook_same "before_update" ctx c) as Hs; rewrite Hb in Hs; [|done].
    pose proof (before_hook_serial "before_update" ctx c) as Hn; rewrite Hb in Hn.
    destruct (check_partial m data') eqn:Hv; [done|].
    eapply tx_end; [exact Hm|by econstructor|exact Hs|exact Hn| |].
    + intros rs. cbn [event_data]. by rewrite list_fmap_id.
    + intros evs db rows d _. eexists _, _. split; [done|apply after_hook_same].
  - destruct (validate_where_clauses cs); [done|].
    destruct (sc_models schema !! name) as [m|] eqn:Hm; [|done].
    set (ctx := mkHookContext _ _ _ _).
    destruct (before_hook "before_delete" ctx c) as [[data'|e] c1] eqn:Hb;
      pose proof (before_hook_same "before_delete" ctx c) as Hs; rewrite Hb in Hs; [|done].
    pose proof (before_hook_serial "before_delete" ctx c) as Hn; rewrite Hb in Hn.
    eapply tx_end; [exact Hm|by econstructor|exact Hs|exact Hn|done|].
    intros evs db rows d _. eexists _, _. split; [done|apply after_hook_same].
  - destruct (validate_where_clauses cs); [done|].
    destruct (sc_models schema !! name) as [m|] eqn:Hm; [|done].
    eapply tx_end; [exact Hm|by econstructor|done|done| |].
    + intros rs. cbn [event_data]. by rewrite list_fmap_id.
    + intros evs db rows d _. by eexists _, _.
  - destruct (validate_where_clauses cs); [done|].
    destruct (sc_models schema !! name) as [m|] eqn:Hm; [|done].
    eapply tx_end; [exact Hm|by econstructor|done|done|done|].
    intros evs db rows d _. by eexists _, _.
Qed.
End Spec.

(** C10: a write is all or nothing.  Whatever fails (filter, model, hook, validation, any
    step of the transaction, any statement), a write that reports an error leaves the
    tables, the event log, the cache and the broadcast channel as they were; a write that
    succeeds did exactly the statements of its kind on the data that hook and validation
    let through, appended to the log and broadcast one event per returned row, in order,
    with that row's data (its id alone for deletions), the actor and the origin, and
    invalidated the cache.  A batch of no records does nothing. *)
Theorem write_all_or_nothing `{HashOrder} {D Hk Cell : Type} `{HookRunner Hk} (schema : Schema)
    (cfg : HistoryConfig) (rls_enabled : bool) (getters : Getters Cell)
    (exec : option string -> string * list Arg -> D -> (list (list (Column Cell)) * D) + string)
    (fault : nat -> TxStep -> option string) (event_time event_uuid : nat -> string)
    (db_now : nat -> Z) (row_uuid : string -> Z) (tenant origin actor : option string)
    (w : Write) (c : Client D Hk) :
  all_or_nothing schema cfg rls_enabled getters exec event_time event_uuid db_now row_uuid
    tenant origin w actor c
    (apply_write schema cfg rls_enabled getters exec fault event_time event_uuid db_now row_uuid
       tenant origin actor w c).
Proof. apply apply_write_spec. Qed.

(** only callers the model's rules permit may write.  For a model with access rules the
    checked writes of a permitted caller are the unchecked ones; a caller who is not
    permitted gets a refusal (or, without a role, is asked to log in) and the whole client
    stays as it was, its hooks not even run.  A malformed filter is refused before
    either. *)
Theorem checked_writes_permitted `{HashOrder} {D Hk Cell : Type} `{HookRunner Hk} (schema : Schema)
    (cfg : HistoryConfig) (rls_enabled : bool) (getters : Getters Cell)
    (exec : option string -> string * list Arg -> D -> (list (list (Column Cell)) * D) + string)
    (fault : nat -> TxStep -> option string) (event_time event_uuid : nat -> string)
    (db_now : nat -> Z) (row_uuid : string -> Z) (tenant origin actor role : option string)
    (name : string) (cs : list WhereClause) (data : Doc) (a : AccessControl) (c : Client D Hk) :
  sc_models schema !! name ≫= m_access = Some a ->
  let refusal action := match role with
                        | Some _ => AccessDenied action name | None => AuthRequired action name end in
  let create_checked := create_checked schema cfg rls_enabled getters exec fault event_time event_uuid
    db_now row_uuid tenant origin role name data actor in
  let update_checked := update_many_checked schema cfg rls_enabled getters exec fault event_time
    event_uuid db_now row_uuid tenant origin role name cs data actor in
  let delete_checked := delete_many_checked schema cfg rls_enabled getters exec fault event_time
    event_uuid db_now row_uuid tenant origin role name cs actor in
  (permitted a "create" role -> create_checked c = create schema cfg rls_enabled getters exec fault
     event_time event_uuid db_now row_uuid tenant origin name data actor c) /\
  (~ permitted a "create" role -> create_checked c = (inr (refusal "create"), c)) /\
  (permitted a "update" role -> update_checked c = update_many schema cfg rls_enabled getters exec
     fault event_time event_uuid db_now row_uuid tenant origin name cs data actor c) /\
  (~ permitted a "update" role ->
     update_checked c = (inr (default (refusal "update") (validate_where_clauses cs)), c)) /\
  (permitted a "delete" role -> delete_checked c = delete_many schema cfg rls_enabled getters exec
     fault event_time event_uuid db_now row_uuid tenant origin name cs actor c) /\
  (~ permitted a "delete" role ->
     delete_checked c = (inr (default (refusal "delete") (validate_where_clauses cs)), c)).
Proof.
  intros Ha refusal. unfold create_checked, update_many_checked, delete_many_checked, enforce_access.
  rewrite Ha. unfold refusal, update_many, delete_many. cbv zeta.
  repeat split; intros Hp; first [rewrite (access_decide_allow _ _ _ Hp)|rewrite (access_decide_denied _ _ _ Hp)];
    try (destruct (validate_where_clauses cs); [done|]); try done; by destruct role.
Qed.

(** The events a write sends. *)
Definition sent_by {D Hk} (c c' : Client D Hk) (ev : ModelEvent) : Prop :=
  exists evs, cl_sent c' = cl_sent c ++ evs /\ ev ∈ evs.

(** no event of the client says what a record was before.  Every event a successful
    write sends carries no previous data, so in the dispatcher each binding with
    [whenChanged] fires on it, whatever fields it names and whether or not they changed,
    unless its action caused the event; and the event of a deletion carries the record's id
    alone, so the jobs dispatched for it belong to no tenant. *)
Theorem client_events_lose_context `{HashOrder} {D Hk Cell : Type} `{HookRunner Hk} (schema : Schema)
    (cfg : HistoryConfig) (rls_enabled : bool) (getters : Getters Cell)
    (exec : option string -> string * list Arg -> D -> (list (list (Column Cell)) * D) + string)
    (fault : nat -> TxStep -> option string) (event_time event_uuid : nat -> string)
    (db_now : nat -> Z) (row_uuid : string -> Z) (tenant origin actor : option string)
    (w : Write) (c c' : Client D Hk) (ev : ModelEvent) (b : EventActionBinding) :
  apply_write schema cfg rls_enabled getters exec fault event_time event_uuid db_now row_uuid
    tenant origin actor w c = (None, c') ->
  sent_by c c' ev ->
  ev_previous ev = None /\ ev_origin ev = origin /\ ev_model ev = write_model w /\
  (forall fields, eb_condition b = Some (ChangedAny fields) ->
     Dispatcher.binding_fires ev b = negb (bool_decide (origin = Some (eb_action b)))) /\
  (match w with WDelete _ _ | WHardDelete _ _ => True | _ => False end ->
   Jobs.q_tenant (Dispatcher.action_job schema ev b) = None).
Proof.
  intros Hw (evs & Hsent & Hev).
  pose proof (apply_write_spec schema cfg rls_enabled getters exec fault event_time event_uuid db_now
    row_uuid tenant origin actor w c) as Hs. rewrite Hw in Hs. cbn [all_or_nothing] in Hs.
  destruct Hs as [(m & run & rows & d & evs' & _ & _ & _ & _ & -> & _ & Hs' & _)|(model & _ & _ & _ & Hs')].
  2: { rewrite Hs' in Hsent. rewrite <- (app_nil_r (cl_sent c)) in Hsent at 1.
       apply app_inv_head in Hsent as <-. by apply not_elem_of_nil in Hev. }
  rewrite Hs' in Hsent. apply app_inv_head in Hsent as <-.
  unfold mk_events in Hev. apply elem_of_lookup_imap in Hev as (i & data & -> & Hi).
  cbn [mk_event ev_previous ev_origin ev_model]. do 3 (split; [done|]). split.
  - intros fields Hc. unfold Dispatcher.binding_fires. rewrite Hc.
    cbn [mk_event ev_origin ev_previous condition_matches]. rewrite andb_true_r.
    destruct origin as [o|]; [|done]. f_equal. apply bool_decide_ext. naive_solver.
  - intros Hdel. cbn [Dispatcher.action_job Jobs.q_tenant mk_event ev_data].
    apply list_elem_of_lookup_2, list_elem_of_fmap in Hi as (row & -> & _). unfold event_data, only_id.
    destruct w; try done; destruct (row !! "id"%string); rewrite ?lookup_singleton_ne, ?lookup_empty; done.
Qed.

(** sqlx reads a [String] only from a text column. *)
Definition text_columns {Cell} (g : Getters Cell) : Prop :=
  forall c : Column Cell, col_type c ∉ ["TEXT"; "VARCHAR"; "CHAR"; "NAME"; "BPCHAR"; "UNKNOWN"]%string ->
    get_string g c = None.

(** A [DATE] column, the type of a [date] field, always reads as null. *)
Lemma date_reads_null {Cell} (g : Getters Cell) (c : Column Cell) :
  text_columns g -> col_type c = "DATE"%string -> cell_value g c = VNull.
Proof.
  intros Hg Ht. unfold cell_value. rewrite Ht. cbn [bool_decide]. vm_compute (decide _).
  rewrite (Hg c); [done|]. rewrite Ht. by apply (bool_decide_unpack _).
Qed.

(** ** A table of notes *)
Module NoteDb.
#[local] Existing Instance enum_order.
#[local] Existing Instance noop_hooks.

Definition note_schema : Schema :=
  mkSchema {[ "Note"%string := bare_model "Note" ∅ None ]} ∅ ∅ [].

(** Cells are values. *)
Definition value_getters : Getters Value := mkGetters
  (fun c : Column Value => match col_cell c with VString s => Some (Some s) | VNull => Some None | _ => None end)
  (fun c => match col_cell c with VNumber (PosInt n) => Some (Some n) | _ => None end)
  (fun _ => None) (fun _ => None) (fun _ => None) (fun _ => None) (fun _ => None).

(** The tables are the number of notes; the database knows two statements. *)
Definition note_exec (_ : option string) (q : string * list Arg) (d : nat)
    : (list (list (Column Value)) * nat) + string :=
  if String.prefix "INSERT" q.1 then inl ([[mkColumn "id" "TEXT" (VString "n")]], S d)
  else if String.prefix "SELECT COUNT" q.1 then
    inl ([[mkColumn "count" "INT8" (json_int (Z.of_nat d))]], d)
  else inr "syntax error"%string.

Definition no_fault (_ : nat) (_ : TxStep) : option string := None.

(** Readers may look; only the role [editor] may create. *)
Definition guarded : Schema :=
  mkSchema {[ "Note"%string := mkModel "Note" ∅
    (Some (mkAccess (Some (RBoolean "editor")) None None None)) None ∅ None ∅ [] events_default None ]}
    ∅ ∅ [].

Definition client0 : Client nat unit :=
  mkClient (mkDb 0%nat log_new) (Cache.with_config Cache.config_default) [] tt 0 0.

Lemma checked_writes_permitted_witness :
  create_checked guarded history_config_default false value_getters note_exec no_fault
    (fun _ => "t"%string) (fun _ => "u"%string) (fun _ => 0) (fun _ => 0) None None (Some "viewer"%string)
    "Note" ∅ None client0 = (inr (AccessDenied "create" "Note"), client0).
Proof.
  destruct (checked_writes_permitted guarded history_config_default false value_getters note_exec no_fault
    (fun _ => "t"%string) (fun _ => "u"%string) (fun _ => 0) (fun _ => 0) None None None
    (Some "viewer"%string) "Note" [] ∅ (mkAccess (Some (RBoolean "editor")) None None None) client0 eq_refl)
    as (_ & H & _).
  apply H. intros Hp. destruct (Hp "editor"%string eq_refl ltac:(discriminate)) as (r & [= <-] & [Hl|(x & Hx & Hl)]).
  - discriminate Hl.
  - vm_compute in Hx. apply list_elem_of_singleton in Hx as ->. discriminate Hl.
Defined.

(** A note is created; the event says nothing of before. *)
Lemma client_events_lose_context_witness :
  exists c' ev,
    apply_write note_schema history_config_default false value_getters note_exec no_fault
      (fun _ => "t"%string) (fun _ => "u"%string) (fun _ => 0) (fun _ => 0) None None None
      (WCreate "Note" ∅) client0 = (None, c') /\ sent_by client0 c' ev /\
    Dispatcher.binding_fires ev (mkBinding "act" (Some (ChangedAny ["title"%string]))) = true.
Proof.
  eexists _, _. split; [vm_compute; reflexivity|]. split.
  - eexists. split; [reflexivity|]. left.
  - eapply (client_events_lose_context note_schema history_config_default false value_getters note_exec
      no_fault (fun _ => "t"%string) (fun _ => "u"%string) (fun _ => 0) (fun _ => 0) None None None
      (WCreate "Note" ∅) client0); [vm_compute; reflexivity|eexists; split; [reflexivity|left]|reflexivity].
Defined.
End NoteDb.
