(* ===== verification/ClientCoherence.v ===== *)
(** * A client with a cache answers like one without

    Reads and writes of [DataClient], in sequence, each under its own tenant and origin:
    with the cache in strong mode every answer is the database's. *)

From S2P Require Import Prelude Json SchemaTypes Query SqlBuilder DebugText History DataClient DataClientSpec.
From S2P Require Cache CacheSpec.

(** ** Cache keys *)

Section Keys.
Context {dv : Debug Value}.

Lemma kind_quiet {A} {dA : Debug A} (kind : string) (l : list A) s :
  place Outside kind = AfterColon -> quiet s -> quiet (kind +:+ debug l +:+ s).
Proof.
  unfold quiet. intros Hk Hs. rewrite !place_app, Hk. assert (place AfterColon (debug l) = Outside) as ->; [|done].
  exact (debug_quiet l).
Qed.
Lemma query_text_quiet q : quiet (query_text q).
Proof.
  destruct q as [m cs ob l o t|m cs t|m cs t]; cbn [query_text]; apply kind_quiet; try done;
    repeat (apply quiet_app; [first [apply debug_quiet|done]|]); apply debug_quiet.
Qed.
Lemma query_text_starts q : place AfterColon (query_text q) = Nowhere.
Proof. by destruct q; apply place_nowhere. Qed.
Lemma debug_ends {A} {dA : Debug A} (a b : A) : debug a = debug b -> a = b.
Proof. intros H. apply (debug_delimited a b EmptyString EmptyString). by rewrite !str_app_empty_r. Qed.
Lemma query_text_tells q q' : query_model q = query_model q' -> query_text q = query_text q' -> q = q'.
Proof.
  destruct q as [m cs ob l o t|m cs t|m cs t], q' as [m' cs' ob' l' o' t'|m' cs' t'|m' cs' t']; cbn [query_model query_text];
    intros <- H; try discriminate H; repeat (apply str_app_cancel in H; apply debug_delimited in H as [<- H]).
  - do 3 apply str_app_cancel in H. by apply debug_ends in H as <-.
  - apply str_app_cancel in H. by apply debug_ends in H as <-.
  - by apply debug_ends in H as <-.
Qed.

(** Two texts split at a colon *)
Lemma split_at (c : Ascii.ascii) a b x y : a +:+ String c x = b +:+ String c y ->
  (a = b /\ x = y) \/ (exists r, x = r +:+ String c y) \/ (exists r, y = r +:+ String c x).
Proof.
  revert b. induction a as [|k a IH]; intros [|k' b]; rewrite ?str_app_cons, ?str_app_nil.
  - intros [= ->]. by left.
  - intros [= <- ->]. right. left. by exists b.
  - intros [= -> <-]. right. right. by exists a.
  - intros [= <- H]. destruct (IH b H) as [[-> ->]|?]; [by left|by right].
Qed.
(** No text of a query ends in a colon and another one. *)
Lemma text_no_suffix q q' r : query_text q <> r +:+ String colon_char (query_text q').
Proof.
  intros H. pose proof (query_text_quiet q) as Hq. pose proof (query_text_quiet q') as Hq'. rewrite H in Hq.
  unfold quiet in *. rewrite place_app in Hq.
  cbn [place] in Hq. destruct (place Outside r) eqn:Hr.
  - change (step_place Outside colon_char) with AfterColon in Hq. by rewrite query_text_starts in Hq.
  - change (step_place AfterColon colon_char) with Nowhere in Hq. by rewrite place_nowhere in Hq.
  - change (step_place Inside colon_char) with Inside in Hq. eapply (place_flipped _ Inside Outside); [left; split; [done|by left]|done..].
  - change (step_place Escaped colon_char) with Inside in Hq. eapply (place_flipped _ Inside Outside); [left; split; [done|by left]|done..].
  - change (step_place Nowhere colon_char) with Nowhere in Hq. by rewrite place_nowhere in Hq.
Qed.
(** A key tells the query: the model, what it asks for and the tenant. *)
Lemma key_tells q q' : key_of q = key_of q' -> q = q'.
Proof.
  unfold key_of, Cache.cache_key. change (String Cache.colon EmptyString) with (String colon_char EmptyString).
  rewrite !str_app_cons, !str_app_nil. intros H. apply split_at in H as [[Hm Ht]|[[r H]|[r H]]].
  - by apply query_text_tells.
  - by apply text_no_suffix in H.
  - by apply text_no_suffix in H.
Qed.
End Keys.

Section Coherence.
Context {ho : HashOrder} {D H Cell : Type} {hr : HookRunner H} {dv : Debug Value}.
Variable schema : Schema.
Variable cfg : HistoryConfig.
Variable rls_enabled : bool.
Variable getters : Getters Cell.
Variable exec : option string -> string * list Arg -> D -> (list (list (Column Cell)) * D) + string.
Variable fault : nat -> TxStep -> option string.
Variable value_len : Value -> option Z.
Variable clock : nat -> Z.
Variable event_time event_uuid : nat -> string.
Variable db_now : nat -> Z.
Variable row_uuid : string -> Z.

(** ** Requests *)

Inductive Request : Type :=
  | ReadMany (model : string) (cs : list WhereClause) (order_by : list (string * OrderDirection))
      (limit offset : option nat)
  | ReadUnique (model : string) (cs : list WhereClause)
  | ReadCount (model : string) (cs : list WhereClause)
  | DoWrite (actor : option string) (w : Write).

(** A request with its task-local tenant and origin. *)
Record ClientOp : Type := mkOp { op_tenant : option string; op_origin : option string; op_request : Request }.

Inductive Answer : Type :=
  | AMany (r : list Doc + ClientError)
  | AUnique (r : option Doc + ClientError)
  | ACount (r : Z + ClientError)
  | AWritten (r : option ClientError).

Definition serve (op : ClientOp) (c : Client D H) : Answer * Client D H :=
  match op_request op with
  | ReadMany m cs ob l o =>
      let '(r, c) := find_many_plain schema rls_enabled getters exec value_len clock
                       (op_tenant op) m cs ob l o c in (AMany r, c)
  | ReadUnique m cs =>
      let '(r, c) := find_unique_plain schema rls_enabled getters exec value_len clock
                       (op_tenant op) m cs c in (AUnique r, c)
  | ReadCount m cs =>
      let '(r, c) := count schema rls_enabled getters exec value_len clock
                       (op_tenant op) m cs c in (ACount r, c)
  | DoWrite actor w =>
      let '(r, c) := apply_write schema cfg rls_enabled getters exec fault event_time event_uuid
                       db_now row_uuid (op_tenant op) (op_origin op) actor w c in (AWritten r, c)
  end.

Fixpoint serve_all (ops : list ClientOp) (c : Client D H) : list Answer * Client D H :=
  match ops with
  | [] => ([], c)
  | op :: rest =>
      let '(a, c) := serve op c in
      let '(out, c) := serve_all rest c in (a :: out, c)
  end.

(** *** The same without a cache: every read is the database's answer *)

Definition filtered {A} (cs : list WhereClause) (r : A + ClientError) : A + ClientError :=
  match validate_where_clauses cs with Some e => inr e | None => r end.

Definition direct (op : ClientOp) (c : Client D H) : Answer * Client D H :=
  let d := tables (cl_db c) in
  match op_request op with
  | ReadMany m cs ob l o =>
      (AMany (filtered cs (read_many schema rls_enabled getters exec (op_tenant op) m cs ob l o d)), c)
  | ReadUnique m cs =>
      (AUnique (filtered cs (read_unique schema rls_enabled getters exec (op_tenant op) m cs d)), c)
  | ReadCount m cs =>
      (ACount (filtered cs (read_count schema rls_enabled getters exec (op_tenant op) m cs d)), c)
  | DoWrite actor w =>
      let '(r, c) := apply_write schema cfg rls_enabled getters exec fault event_time event_uuid
                       db_now row_uuid (op_tenant op) (op_origin op) actor w c in (AWritten r, c)
  end.

Fixpoint direct_all (ops : list ClientOp) (c : Client D H) : list Answer * Client D H :=
  match ops with
  | [] => ([], c)
  | op :: rest =>
      let '(a, c) := direct op c in
      let '(out, c) := direct_all rest c in (a :: out, c)
  end.

(** ** What the database answers to a query, as it is cached *)

Definition encoded {A} (encode : A -> Value) (r : A + ClientError) : Value + ClientError :=
  match r with inl a => inl (encode a) | inr e => inr e end.

Definition truth (q : CacheQuery) (d : D) : Value + ClientError :=
  match q with
  | QMany m cs ob l o t =>
      encoded encode_many (read_many schema rls_enabled getters exec t m cs ob l o d)
  | QUnique m cs t => encoded encode_unique (read_unique schema rls_enabled getters exec t m cs d)
  | QCount m cs t => encoded json_int (read_count schema rls_enabled getters exec t m cs d)
  end.

Lemma decode_encode_many l v : decode_many (encode_many l) = Some v -> v = l.
Proof.
  unfold decode_many, encode_many. intros Hd.
  enough (mapM map_of_object (object_of_map <$> l) = Some l) as Hm by congruence.
  clear Hd v. induction l as [|d l IH]; [done|]. cbn [fmap list_fmap map mapM].
  rewrite map_of_object_of_map. cbn [mbind option_bind]. change (list_fmap _ _ object_of_map l) with (object_of_map <$> l). by rewrite IH.
Qed.

Lemma decode_encode_unique o v : decode_unique (encode_unique o) = Some v -> v = o.
Proof.
  destruct o as [d|]; cbn [encode_unique]; [|by intros [= <-]].
  pose proof (map_of_object_of_map d) as Hd.
  destruct (object_of_map_perm d) as (l & Hl & _). unfold decode_unique. rewrite Hl in *.
  rewrite Hd. by intros [= <-].
Qed.

Lemma decode_encode_count n v : decode_count (json_int n) = Some v -> v = n.
Proof.
  unfold json_int. case_decide; cbn [decode_count]; [case_decide; [|done]|]; by intros [= <-].
Qed.

(** ** Clients with the same data behave alike *)

Definition sim (c c' : Client D H) : Prop :=
  cl_db c' = cl_db c /\ cl_sent c' = cl_sent c /\ cl_hooks c' = cl_hooks c /\ cl_serial c' = cl_serial c.

Lemma before_hook_sim name ctx (c c' : Client D H) :
  sim c c' -> (before_hook name ctx c').1 = (before_hook name ctx c).1 /\
    sim (before_hook name ctx c).2 (before_hook name ctx c').2.
Proof.
  intros (H1 & H2 & H3 & H4). unfold before_hook. rewrite H3.
  destruct (run_before name ctx (cl_hooks c)) as [r h]. by split.
Qed.

Lemma after_hook_sim name ctx (c c' : Client D H) :
  sim c c' -> sim (after_hook name ctx c) (after_hook name ctx c').
Proof. intros (H1 & H2 & H3 & H4). unfold after_hook. rewrite H3. by repeat split. Qed.

Lemma after_hooks_sim name (out : list Doc) (c c' : Client D H) :
  sim c c' ->
  sim (foldl (fun c r => after_hook "after_create" (mkHookContext name "create" r None) c) c out)
    (foldl (fun c r => after_hook "after_create" (mkHookContext name "create" r None) c) c' out).
Proof.
  revert c c'. induction out as [|r out IH]; intros c c' Hs; [done|]. cbn [foldl].
  by apply IH, after_hook_sim.
Qed.

Lemma prepare_sim m name rs (c c' : Client D H) :
  sim c c' -> (prepare m name rs c').1 = (prepare m name rs c).1 /\
    sim (prepare m name rs c).2 (prepare m name rs c').2.
Proof.
  revert c c'. induction rs as [|r rs IH]; intros c c' Hs; [done|]. cbn [prepare].
  set (ctx := mkHookContext _ _ _ _). destruct (before_hook_sim "before_create" ctx c c' Hs) as [H1 H2].
  destruct (before_hook _ ctx c) as [[d|e] c1], (before_hook _ ctx c') as [r' c1'];
    cbn [fst snd] in *; subst r'; [|done].
  destruct (check_full m d); [done|]. destruct (IH c1 c1' H2) as [H3 H4].
  destruct (prepare m name rs c1) as [[ds|e] c2], (prepare m name rs c1') as [r' c2'];
    cbn [fst snd] in *; by subst r'.
Qed.

Lemma committed_sim name db evs (c c' : Client D H) :
  sim c c' -> sim (committed name db evs c) (committed name db evs c').
Proof. intros (H1 & H2 & H3 & H4). unfold sim. cbn. by rewrite H2, H3, H4. Qed.

(** The writes, which end in a transaction on the same database with the same serial. *)
Definition alike {A} (r r' : A * Client D H) : Prop := r'.1 = r.1 /\ sim r.2 r'.2.

Lemma outcome_alike {A} (r r' : (A + ClientError) * Client D H) :
  alike r r' -> alike (outcome r) (outcome r').
Proof. intros [H1 H2]. split; [|done]. unfold outcome. cbn [fst]. by rewrite H1. Qed.

(** Both run the same transaction: an error leaves them alike, and so must what follows a
    success. *)
Ltac same_tx Hs :=
  let H1 := fresh in let H4 := fresh in
  pose proof Hs as (H1 & _ & _ & H4); rewrite H1, H4; clear H1 H4;
  destruct (transaction _ _ _ _ _ _ _ _ _ _ _) as [[[rs' evs] db]|e]; [split; [done|]|by split];
  cbn [snd].

Lemma apply_write_sim tenant origin actor w (c c' : Client D H) :
  sim c c' ->
  alike
    (apply_write schema cfg rls_enabled getters exec fault event_time event_uuid db_now row_uuid
       tenant origin actor w c)
    (apply_write schema cfg rls_enabled getters exec fault event_time event_uuid db_now row_uuid
       tenant origin actor w c').
Proof.
  intros Hs. destruct w as [name data|name rs|name cs data|name cs|name cs|name cs];
    cbn [apply_write]; apply outcome_alike;
    unfold create, create_many, update_many, delete_many, restore_many, hard_delete_many, find_model;
    try (destruct (validate_where_clauses cs); [done|]);
    (destruct (sc_models schema !! name) as [m|]; [|done]).
  - set (ctx := mkHookContext _ _ _ _).
    destruct (before_hook_sim "before_create" ctx c c' Hs) as [H1 H2].
    destruct (before_hook "before_create" ctx c) as [[d|e] c1],
      (before_hook "before_create" ctx c') as [r' c1']; cbn [fst snd] in *; subst r'; [|done].
    destruct (check_full m d); [done|].
    same_tx H2. by apply after_hook_sim, committed_sim.
  - destruct rs as [|r rs]; [done|]. destruct (prepare_sim m name (r :: rs) c c' Hs) as [H1 H2].
    destruct (prepare m name (r :: rs) c) as [[ds|e] c1], (prepare m name (r :: rs) c') as [r' c1'];
      cbn [fst snd] in *; subst r'; [|done].
    same_tx H2. by apply after_hooks_sim, committed_sim.
  - set (ctx := mkHookContext _ _ _ _).
    destruct (before_hook_sim "before_update" ctx c c' Hs) as [H1 H2].
    destruct (before_hook "before_update" ctx c) as [[d|e] c1],
      (before_hook "before_update" ctx c') as [r' c1']; cbn [fst snd] in *; subst r'; [|done].
    destruct (check_partial m d); [done|].
    same_tx H2. by apply after_hook_sim, committed_sim.
  - set (ctx := mkHookContext _ _ _ _).
    destruct (before_hook_sim "before_delete" ctx c c' Hs) as [H1 H2].
    destruct (before_hook "before_delete" ctx c) as [[d|e] c1],
      (before_hook "before_delete" ctx c') as [r' c1']; cbn [fst snd] in *; subst r'; [|done].
    same_tx H2. by apply after_hook_sim, committed_sim.
  - same_tx Hs. by apply committed_sim.
  - same_tx Hs. by apply committed_sim.
Qed.
(** ** The cache agrees with the database *)

Hypothesis value_len_nonneg : forall v n, value_len v = Some n -> 0 <= n.
Record coherent (c : Client D H) : Prop := {
  co_mode : Cache.mode (Cache.config (cl_cache c)) = Cache.Strong;
  co_config : CacheSpec.well_configured (Cache.config (cl_cache c));
  co_bounded : CacheSpec.bounded (Cache.config (cl_cache c)) (Cache.state (cl_cache c));
  co_true q e : Cache.entries (Cache.state (cl_cache c)) !! key_of q = Some e ->
    truth q (tables (cl_db c)) = inl (Cache.e_data e)
}.

(** An operation of the cache keeps the agreement if each entry it leaves is true. *)
Lemma coherent_cache (op : CacheSpec.CacheOp) (c c' : Client D H) :
  coherent c -> cl_db c' = cl_db c -> cl_cache c' = CacheSpec.apply_cache value_len (cl_cache c) op ->
  (forall q e,
     Cache.entries (Cache.state (cl_cache c')) !! key_of q = Some e ->
     (exists e0, Cache.entries (Cache.state (cl_cache c)) !! key_of q = Some e0 /\
        Cache.e_data e = Cache.e_data e0) \/
     truth q (tables (cl_db c)) = inl (Cache.e_data e)) ->
  coherent c'.
Proof.
  intros [Hm Hw Hb Ht] Hdb Hc Hent. split.
  - by rewrite Hc, CacheSpec.apply_config.
  - by rewrite Hc, CacheSpec.apply_config.
  - rewrite Hc, CacheSpec.apply_config. by apply CacheSpec.apply_bounded.
  - intros q e He. rewrite Hdb. destruct (Hent q e He) as [(e0 & H0 & ->)|?]; [|done].
    by apply Ht.
Qed.

Lemma cached_read_spec {A} q (encode : A -> Value) decode (read : D -> A + ClientError) (c : Client D H) :
  (forall d, truth q d = encoded encode (read d)) ->
  (forall a b, decode (encode a) = Some b -> b = a) -> coherent c ->
  let r := cached_read value_len clock q encode decode read c in
  r.1 = read (tables (cl_db c)) /\ coherent r.2 /\ sim c r.2.
Proof.
  intros Htruth Hdec Hco. cbv zeta. unfold cached_read.
  set (now := clock (cl_ticks c)). set (key := key_of q).
  destruct (Cache.get now key (cl_cache c)) as [hit rc] eqn:Hget.
  set (c1 := tick (set_cache rc c)).
  assert (Hrc : rc = CacheSpec.apply_cache value_len (cl_cache c) (CacheSpec.OpGet now key))
    by (cbn [CacheSpec.apply_cache]; by rewrite Hget).
  assert (Hco1 : coherent c1).
  { apply (coherent_cache (CacheSpec.OpGet now key) c); [done|done|exact Hrc|].
    intros q' e He. left. pose proof (CacheSpec.get_from now key (cl_cache c)) as [_ Hfrom].
    rewrite Hget in Hfrom. destruct (Hfrom _ _ He) as (e0 & H0 & _ & Hd). by exists e0. }
  assert (Hs1 : sim c c1) by by repeat split.
  destruct (hit ≫= decode) as [a|] eqn:Hhit.
  - destruct hit as [v|]; [|done]. cbn [mbind option_bind] in Hhit.
    destruct (CacheSpec.get_hit _ _ _ _ _ Hget) as (e & He & Hv & _).
    pose proof (co_true c Hco q e He) as Ht. rewrite Htruth, Hv in Ht.
    destruct (read (tables (cl_db c))) as [a0|] eqn:Hr; [|done]. injection Ht as Ht.
    rewrite <- Ht in Hhit. by rewrite (Hdec _ _ Hhit).
  - change (cl_db c1) with (cl_db c). destruct (read (tables (cl_db c))) as [a|e] eqn:Hr; [|done].
    split; [done|]. split; [|by repeat split].
    apply (coherent_cache (CacheSpec.OpSet (clock (cl_ticks c1)) (clock (S (cl_ticks c1)))
      (Cache.generation (cl_cache c1)) key (encode a) (Cache.generation (cl_cache c))) c1);
      [done|done|done|].
    intros q' e He. apply CacheSpec.set_entries in He as [He|(Hk & _ & Hd)]; [| |apply Hco1].
    + left. by exists e.
    + right. apply key_tells in Hk as ->. rewrite Hd, Htruth.
      change (tables (cl_db c1)) with (tables (cl_db c)). by rewrite Hr.
Qed.

(** A write empties the cache if it changed anything. *)
Lemma write_coherent tenant origin actor w (c : Client D H) :
  coherent c ->
  coherent (apply_write schema cfg rls_enabled getters exec fault event_time event_uuid db_now
    row_uuid tenant origin actor w c).2.
Proof.
  intros Hco. pose proof (apply_write_spec schema cfg rls_enabled getters exec fault event_time
    event_uuid db_now row_uuid tenant origin actor w c) as Hw.
  destruct (apply_write _ _ _ _ _ _ _ _ _ _ _ _ _ _ _) as [r c']. cbn [snd].
  assert (Hsame : same_data c c' -> coherent c').
  { intros (Hdb & Hca & _). destruct Hco as [Hm Hwc Hb Ht]. split; rewrite ?Hca, ?Hdb; done. }
  destruct r as [e|]; cbn [all_or_nothing] in Hw; [by apply Hsame|].
  destruct Hw as [(m & run & rows & d & evs & _ & _ & _ & _ & _ & _ & _ & Hca)|(model & _ & Hs)];
    [|by apply Hsame].
  destruct Hco as [Hm Hwc Hb _]. pose proof (CacheSpec.apply_bounded value_len value_len_nonneg
    (Cache.advance (cl_cache c)) CacheSpec.OpInvalidateModel Hwc Hb) as Hb'.
  cbn [CacheSpec.apply_cache] in Hb'. unfold Cache.invalidate_model in Hca.
  assert (He : Cache.entries (Cache.state (cl_cache c')) = ∅ /\
    Cache.config (cl_cache c') = Cache.config (cl_cache c)).
  { rewrite Hca. unfold Cache.invalidate_model_locked. cbn [Cache.config Cache.advance]. by rewrite Hm. }
  destruct He as [He Hcf]. split.
  - by rewrite Hcf.
  - by rewrite Hcf.
  - rewrite Hcf, Hca. exact Hb'.
  - intros q e. by rewrite He, lookup_empty.
Qed.

Lemma sim_trans_read (c c' c1 : Client D H) : sim c c' -> sim c c1 -> sim c1 c'.
Proof.
  intros (E1 & E2 & E3 & E4) (F1 & F2 & F3 & F4). unfold sim. by rewrite E1, E2, E3, E4, F1, F2, F3, F4.
Qed.

(** A coherent client serves a request as the specification does on the same data. *)
Lemma serve_spec op (c c' : Client D H) :
  coherent c -> sim c c' ->
  (serve op c).1 = (direct op c').1 /\ sim (serve op c).2 (direct op c').2 /\ coherent (serve op c).2.
Proof.
  destruct op as [t o req]. intros Hc Hs. unfold serve, direct, filtered.
  cbn [op_request op_tenant op_origin].
  assert (Hdb : cl_db c' = cl_db c) by apply Hs.
  destruct req as [m cs ob l off|m cs|m cs|actor w].
  - unfold find_many_plain. destruct (validate_where_clauses cs); [done|].
    destruct (cached_read_spec (QMany m cs ob l off t) encode_many decode_many
      (read_many schema rls_enabled getters exec t m cs ob l off) c) as (H1 & H2 & H3);
      [done|intros; by apply decode_encode_many|done|].
    destruct (cached_read _ _ _ _ _ _ c) as [r c1]. cbn [fst snd] in *. rewrite H1, Hdb.
    split; [done|]. split; [by apply (sim_trans_read c)|done].
  - unfold find_unique_plain. destruct (validate_where_clauses cs); [done|].
    destruct (cached_read_spec (QUnique m cs t) encode_unique decode_unique
      (read_unique schema rls_enabled getters exec t m cs) c) as (H1 & H2 & H3);
      [done|intros; by apply decode_encode_unique|done|].
    destruct (cached_read _ _ _ _ _ _ c) as [r c1]. cbn [fst snd] in *. rewrite H1, Hdb.
    split; [done|]. split; [by apply (sim_trans_read c)|done].
  - unfold count. destruct (validate_where_clauses cs); [done|].
    destruct (cached_read_spec (QCount m cs t) json_int decode_count
      (read_count schema rls_enabled getters exec t m cs) c) as (H1 & H2 & H3);
      [done|intros; by apply decode_encode_count|done|].
    destruct (cached_read _ _ _ _ _ _ c) as [r c1]. cbn [fst snd] in *. rewrite H1, Hdb.
    split; [done|]. split; [by apply (sim_trans_read c)|done].
  - pose proof (apply_write_sim t o actor w c c' Hs) as [H1 H2].
    pose proof (write_coherent t o actor w c Hc) as H3.
    destruct (apply_write _ _ _ _ _ _ _ _ _ _ _ _ _ _ c), (apply_write _ _ _ _ _ _ _ _ _ _ _ _ _ _ c');
      cbn [fst snd] in *. by rewrite H1.
Qed.

Lemma serve_all_spec ops (c c' : Client D H) :
  coherent c -> sim c c' ->
  (serve_all ops c).1 = (direct_all ops c').1 /\ sim (serve_all ops c).2 (direct_all ops c').2.
Proof.
  revert c c'. induction ops as [|op ops IH]; intros c c' Hc Hs; [done|]. cbn [serve_all direct_all].
  destruct (serve_spec op c c') as (H1 & H2 & H3); [done|done|].
  destruct (serve op c) as [a c1], (direct op c') as [a' c1']. cbn [fst snd] in *. subst a'.
  destruct (IH c1 c1') as [H5 H6]; [done|done|].
  destruct (serve_all ops c1), (direct_all ops c1'); cbn [fst snd] in *. by subst.
Qed.
End Coherence.

(** A client that starts on a database, its cache empty. *)
Definition client_start {D Hk} (db : Db D) (h : Hk) (cc : Cache.CacheConfig) : Client D Hk :=
  mkClient db (Cache.with_config cc) [] h 0 0.

Lemma start_coherent `{HashOrder} {D Hk Cell : Type} `{Debug Value} (schema : Schema) (rls_enabled : bool)
    (getters : Getters Cell) (exec : option string -> string * list Arg -> D -> (list (list (Column Cell)) * D) + string)
    (db : Db D) (h : Hk) (cc : Cache.CacheConfig) :
  CacheSpec.well_configured cc -> Cache.mode cc = Cache.Strong -> coherent schema rls_enabled getters exec (client_start db h cc).
Proof.
  intros Hwc Hm.
  assert (Hmode : Cache.mode (Cache.config (Cache.with_config cc)) = Cache.Strong /\
    Cache.state (Cache.with_config cc) = Cache.state_new)
    by (unfold Cache.with_config; by destruct (Cache.validate cc)).
  destruct Hmode as [Hmode Hst]. pose proof (CacheSpec.well_configured_with cc Hwc) as Hwc'. unfold client_start.
  split; cbn [cl_cache]; [done|done| |].
  - rewrite Hst. by apply CacheSpec.bounded_new.
  - intros q e. rewrite Hst. cbn. by rewrite lookup_empty.
Qed.

(** C11: a client with a cache in strong mode answers like one without.  For any sequence of
    reads and writes, each under its own tenant and origin, with hooks and failing
    transactions, whatever the clock, the time to live, the limits and the evictions: every
    answer is the one the database gives at that moment, and the tables, the log and the
    broadcast events end up the same.  The cache key, as it is formatted from the model, the
    filters, the order, the page and the tenant, tells the queries apart. *)
Theorem cached_client_equiv `{HashOrder} {D Hk Cell : Type} `{HookRunner Hk} `{Debug Value} (schema : Schema)
    (cfg : HistoryConfig) (rls_enabled : bool) (getters : Getters Cell)
    (exec : option string -> string * list Arg -> D -> (list (list (Column Cell)) * D) + string)
    (fault : nat -> TxStep -> option string) (value_len : Value -> option Z) (clock : nat -> Z)
    (event_time event_uuid : nat -> string) (db_now : nat -> Z) (row_uuid : string -> Z)
    (cc : Cache.CacheConfig) (db : Db D) (h : Hk) (ops : list ClientOp) :
  (forall v n, value_len v = Some n -> 0 <= n) ->
  CacheSpec.well_configured cc -> Cache.mode cc = Cache.Strong ->
  let c := client_start db h cc in
  let '(answers, c1) := serve_all schema cfg rls_enabled getters exec fault value_len clock event_time
      event_uuid db_now row_uuid ops c in
  let '(expected, c2) := direct_all schema cfg rls_enabled getters exec fault event_time event_uuid
      db_now row_uuid ops c in
  answers = expected /\ cl_db c1 = cl_db c2 /\ cl_sent c1 = cl_sent c2.
Proof.
  intros Hlen Hwc Hm c.
  destruct (serve_all_spec schema cfg rls_enabled getters exec fault value_len clock event_time
    event_uuid db_now row_uuid Hlen) with (ops := ops) (c := c) (c' := c) as [H3 H4].
  - by apply start_coherent.
  - done.
  - destruct (serve_all _ _ _ _ _ _ _ _ _ _ _ _ _ _), (direct_all _ _ _ _ _ _ _ _ _ _ _ _).
    cbn [fst snd] in *. destruct H4 as (E1 & E2 & _). by rewrite E1, E2.
Qed.

(** ** A table of notes *)
Module ClientExamples.
#[local] Existing Instance enum_order.
#[local] Existing Instance noop_hooks.
Import NoteDb.

Definition one (_ : Value) : option Z := Some 1.
#[local] Existing Instance TaggedText.tagged.

Definition requests : list ClientOp :=
  [mkOp None None (ReadCount "Note" []); mkOp None None (DoWrite None (WCreate "Note" ∅));
   mkOp None None (ReadCount "Note" []); mkOp None None (DoWrite (Some "ann"%string) (WRestore "Note" []));
   mkOp None None (ReadCount "Note" [])].

Definition served : list Answer * Client nat unit :=
  serve_all note_schema history_config_default false value_getters note_exec no_fault one Z.of_nat
    (fun _ => "t"%string) (fun _ => "u"%string) (fun _ => 0) (fun _ => 0) requests
    (client_start (mkDb 0%nat log_new) tt Cache.config_default).

(** The last count is a hit; the failed write in between left the cache alone. *)
Example served_answers :
  served.1 = [ACount (inl 0); AWritten None; ACount (inl 1);
              AWritten (Some (DbError "syntax error")); ACount (inl 1)] /\
  Cache.hits (Cache.metrics (Cache.state (cl_cache served.2))) = 1.
Proof. vm_compute. by split. Qed.

Lemma default_ok : CacheSpec.well_configured Cache.config_default.
Proof. split; cbn; [lia|unfold u64_max; lia|]. intros m p. rewrite lookup_empty. discriminate. Qed.

Lemma cached_client_equiv_witness :
  served.1 = (direct_all note_schema history_config_default false value_getters note_exec no_fault
    (fun _ => "t"%string) (fun _ => "u"%string) (fun _ => 0) (fun _ => 0) requests
    (client_start (mkDb 0%nat log_new) tt Cache.config_default)).1.
Proof.
  assert (Hl : forall v n, one v = Some n -> 0 <= n) by (intros v n [= <-]; lia).
  pose proof (cached_client_equiv note_schema history_config_default false value_getters note_exec
    no_fault one Z.of_nat (fun _ => "t"%string) (fun _ => "u"%string) (fun _ => 0) (fun _ => 0)
    Cache.config_default (mkDb 0%nat log_new) tt requests Hl default_ok eq_refl) as H.
  cbv zeta in H. unfold served. destruct (serve_all _ _ _ _ _ _ _ _ _ _ _ _ _ _) as [a c1].
  destruct (direct_all _ _ _ _ _ _ _ _ _ _ _ _) as [a' c2]. exact (proj1 H).
Defined.
End ClientExamples.
