(* ===== verification/Registry.v ===== *)
(** * The control plane's errors, its machine, and the registry of projects
    ([atomo_control_plane/src/error.rs], [registry.rs])

    The control plane works by running programs ([docker], [git], [aws], [pg_dump],
    [caddy], [curl]), touching files and connecting to PostgreSQL.  What those do is the
    machine's: the class [Host] names the calls, over a world [F] of its own.  Computations
    that may fail and keep what they did are written in the monad [E].  The registry holds the
    projects by id and the audit log. *)

From S2P Require Import Prelude Json.

Inductive ControlPlaneError : Type :=
  | EDatabase (cause : string)
  | EDriver (cause : string)
  | ESecret (cause : string)
  | EGateway (cause : string)
  | ENotFound (id : string)
  | EInvalidState (cause : string)
  | EIo (cause : string)
  | ESerde (cause : string)
  | EOther (cause : string).

Definition unimplemented (what : string) : ControlPlaneError :=
  EOther ("not implemented yet: " +:+ what).

(** ** Errors that keep the state *)

Definition E (S A : Type) : Type := S -> (A + ControlPlaneError) * S.

#[global] Instance E_ret (S : Type) : MRet (E S) := fun A a s => (inl a, s).
#[global] Instance E_bind (S : Type) : MBind (E S) := fun A B k m s =>
  match m s with
  | (inl a, s') => k a s'
  | (inr e, s') => (inr e, s')
  end.

Definition fail {S A} (e : ControlPlaneError) : E S A := fun s => (inr e, s).
Definition reads {S A} (f : S -> A) : E S A := fun s => (inl (f s), s).
(** The outcome as a value: [match m { Ok(a) => .., Err(e) => .. }] *)
Definition attempt {S A} (m : E S A) : E S (A + ControlPlaneError) := fun s =>
  let '(r, s') := m s in (inl r, s').
(** [m.map_err(f)] *)
Definition map_err {S A} (f : ControlPlaneError -> ControlPlaneError) (m : E S A) : E S A := fun s =>
  match m s with (inl a, s') => (inl a, s') | (inr e, s') => (inr (f e), s') end.

Lemma E_bind_inl {S A B} (m : E S A) (k : A -> E S B) s a s' :
  m s = (inl a, s') -> (m ≫= k) s = k a s'.
Proof. intros Heq. unfold mbind, E_bind. by rewrite Heq. Qed.

Lemma E_bind_inv {S A B} (m : E S A) (k : A -> E S B) s b s' :
  (m ≫= k) s = (inl b, s') -> exists a s1, m s = (inl a, s1) /\ k a s1 = (inl b, s').
Proof. unfold mbind, E_bind. destruct (m s) as [[a|e] s1]; [|done]. intros Hk. by exists a, s1. Qed.

(** ** The machine *)

(** What a program that was started left behind. *)
Record Output : Type := mkOutput { out_ok : bool; out_stdout : string; out_stderr : string }.

Class Host (F : Type) : Type := {
  run_program : string -> list string -> F -> (Output + string) * F;   (* [Command::output] *)
  path_exists : string -> F -> bool;
  create_dir_all : string -> F -> (unit + string) * F;
  write_file : string -> string -> F -> (unit + string) * F;
  copy_file : string -> string -> F -> (unit + string) * F;
  remove_file : string -> F -> (unit + string) * F;
  env_var : string -> F -> option string;
  temp_dir : F -> string;
  pg_exec : string -> string -> F -> (unit + string) * F;              (* url, statement *)
  tcp_probe : string -> F -> option bool * F;  (* [None]: no answer in time *)
  new_uuid : F -> string * F;
  utc_now : F -> string * F                                             (* RFC 3339 *)
}.

Section Host.
Context {F : Type} {host : Host F}.

(** A call whose error becomes [ControlPlaneError] by [From]. *)
Definition io {A} (m : F -> (A + string) * F) : E F A := fun f =>
  match m f with (inl a, f') => (inl a, f') | (inr e, f') => (inr (EIo e), f') end.
Definition total {A} (m : F -> A * F) : E F A := fun f => let '(a, f') := m f in (inl a, f').

(** A program that must succeed, else [wrap (what failed: stderr)]; its trimmed output. *)
Definition checked_program (wrap : string -> ControlPlaneError) (spawn : string -> ControlPlaneError)
    (what program : string) (args : list string) : E F string := fun f =>
  match run_program program args f with
  | (inr e, f') => (inr (spawn e), f')
  | (inl out, f') =>
      if out_ok out then (inl (trim (out_stdout out)), f')
      else (inr (wrap (what +:+ " failed: " +:+ trim (out_stderr out))), f')
  end.
End Host.

(** * The project registry ([atomo_control_plane/src/registry.rs])

    The table [projects] and its audit log, each method one SQL statement that may fail;
    a failed statement changes nothing.  The state [Fleet] pairs the tables with the
    machine. *)

Inductive ProjectStatus : Type := Provisioning | Running | Stopped | Failed.
#[global] Instance ProjectStatus_eq_dec : EqDecision ProjectStatus.
Proof. solve_decision. Defined.

Definition status_str (s : ProjectStatus) : string :=
  match s with
  | Provisioning => "provisioning" | Running => "running" | Stopped => "stopped" | Failed => "failed"
  end.

Definition status_parse (s : string) : ProjectStatus + ControlPlaneError :=
  if decide (s = "provisioning"%string) then inl Provisioning
  else if decide (s = "running"%string) then inl Running
  else if decide (s = "stopped"%string) then inl Stopped
  else if decide (s = "failed"%string) then inl Failed
  else inr (EInvalidState ("status=" +:+ s)).

Inductive DesiredState : Type := WantRunning | WantStopped.
#[global] Instance DesiredState_eq_dec : EqDecision DesiredState.
Proof. solve_decision. Defined.

Definition desired_str (d : DesiredState) : string :=
  match d with WantRunning => "running" | WantStopped => "stopped" end.
Definition desired_parse (s : string) : DesiredState :=
  if decide (s = "stopped"%string) then WantStopped else WantRunning.

Inductive SchemaRef : Type :=
  | Git (repo path git_ref : string)
  | Volume (path : string).

Record Project : Type := mkProject {
  p_id : string;
  p_display_name : string;
  p_hostname : option string;
  p_aliases : list string;
  p_database_url_ref : string;
  p_schema_ref : SchemaRef;
  p_schema_version : option string;
  p_upstream : option string;
  p_env : Value;
  p_status : ProjectStatus;
  p_desired_state : DesiredState;
  p_last_health : option Value;
  p_created_at : string;
  p_updated_at : string
}.

(** A row of [project_events]; nobody passes an actor. *)
Record AuditRow : Type := mkAudit {
  au_project : string; au_action : string; au_actor : option string; au_detail : Value; au_at : string
}.

Record Fleet {F : Type} : Type := mkFleet {
  fl_projects : gmap string Project;
  fl_audit : list AuditRow;
  fl_statements : nat;        (* statements issued so far *)
  fl_host : F
}.
#[global] Arguments Fleet : clear implicits.
#[global] Arguments mkFleet {F}.

(** Running a computation of the machine inside the fleet. *)
Definition on_host {F A} (m : E F A) : E (Fleet F) A := fun s =>
  let '(r, f) := m (fl_host s) in
  (r, mkFleet (fl_projects s) (fl_audit s) (fl_statements s) f).

Definition set_status (st : ProjectStatus) (p : Project) : Project :=
  mkProject (p_id p) (p_display_name p) (p_hostname p) (p_aliases p) (p_database_url_ref p)
    (p_schema_ref p) (p_schema_version p) (p_upstream p) (p_env p) st (p_desired_state p)
    (p_last_health p) (p_created_at p) (p_updated_at p).
Definition set_desired (d : DesiredState) (p : Project) : Project :=
  mkProject (p_id p) (p_display_name p) (p_hostname p) (p_aliases p) (p_database_url_ref p)
    (p_schema_ref p) (p_schema_version p) (p_upstream p) (p_env p) (p_status p) d
    (p_last_health p) (p_created_at p) (p_updated_at p).
Definition with_upstream (u : option string) (p : Project) : Project :=
  mkProject (p_id p) (p_display_name p) (p_hostname p) (p_aliases p) (p_database_url_ref p)
    (p_schema_ref p) (p_schema_version p) u (p_env p) (p_status p) (p_desired_state p)
    (p_last_health p) (p_created_at p) (p_updated_at p).
Definition with_version (v : option string) (p : Project) : Project :=
  mkProject (p_id p) (p_display_name p) (p_hostname p) (p_aliases p) (p_database_url_ref p)
    (p_schema_ref p) v (p_upstream p) (p_env p) (p_status p) (p_desired_state p)
    (p_last_health p) (p_created_at p) (p_updated_at p).
Definition with_schema_ref (r : SchemaRef) (p : Project) : Project :=
  mkProject (p_id p) (p_display_name p) (p_hostname p) (p_aliases p) (p_database_url_ref p)
    r (p_schema_version p) (p_upstream p) (p_env p) (p_status p) (p_desired_state p)
    (p_last_health p) (p_created_at p) (p_updated_at p).
Definition with_health (h : option Value) (p : Project) : Project :=
  mkProject (p_id p) (p_display_name p) (p_hostname p) (p_aliases p) (p_database_url_ref p)
    (p_schema_ref p) (p_schema_version p) (p_upstream p) (p_env p) (p_status p)
    (p_desired_state p) h (p_created_at p) (p_updated_at p).
Definition stamped (created updated : string) (p : Project) : Project :=
  mkProject (p_id p) (p_display_name p) (p_hostname p) (p_aliases p) (p_database_url_ref p)
    (p_schema_ref p) (p_schema_version p) (p_upstream p) (p_env p) (p_status p)
    (p_desired_state p) (p_last_health p) created updated.

Section Registry.
Context {ho : HashOrder} {F : Type}.

(** The [n]-th statement fails with this message, or runs at this time ([now()]). *)
Variable sql_fault : nat -> option string.
Variable sql_now : nat -> string.

Definition with_projects (ps : gmap string Project) (s : Fleet F) : Fleet F :=
  mkFleet ps (fl_audit s) (fl_statements s) (fl_host s).
Definition count_statement (s : Fleet F) : Fleet F :=
  mkFleet (fl_projects s) (fl_audit s) (S (fl_statements s)) (fl_host s).

(** One statement: [body] gets the time, the tables before it, and yields its answer and
    the tables after it, or the error of a constraint. *)
Definition sql {A} (body : string -> Fleet F -> (A * Fleet F) + string) : E (Fleet F) A := fun s =>
  let n := fl_statements s in
  let s := count_statement s in
  match sql_fault n with
  | Some e => (inr (EDatabase e), s)
  | None =>
      match body (sql_now n) s with
      | inl (a, s') => (inl a, s')
      | inr e => (inr (EDatabase e), s)
      end
  end.

Definition hostname_taken (p : Project) (ps : gmap string Project) : bool :=
  match p_hostname p with
  | None => false
  | Some h => existsb (fun q => bool_decide (p_hostname q = Some h)) (hvalues ps)
  end.

(** [INSERT]: the key is the id, hostnames are unique, the times are the column defaults. *)
Definition registry_create (p : Project) : E (Fleet F) unit :=
  sql (fun now s =>
    let ps := fl_projects s in
    if decide (is_Some (ps !! p_id p)) then inr "duplicate key value violates unique constraint"%string
    else if hostname_taken p ps then inr "duplicate key value violates unique constraint"%string
    else inl (tt, with_projects (<[p_id p := stamped now now p]> ps) s)).

Definition registry_get (id : string) : E (Fleet F) Project := fun s =>
  match sql (fun _ s => inl (fl_projects s !! id, s)) s with
  | (inl (Some p), s') => (inl p, s')
  | (inl None, s') => (inr (ENotFound id), s')
  | (inr e, s') => (inr e, s')
  end.

(** [ORDER BY id] *)
Definition by_id (p q : Project) : Prop := String.le (p_id p) (p_id q).
#[global] Instance by_id_dec p q : Decision (by_id p q).
Proof. unfold by_id. apply _. Defined.
Definition registry_list : E (Fleet F) (list Project) :=
  sql (fun _ s => inl (merge_sort by_id (hvalues (fl_projects s)), s)).

Definition resolve_by_hostname (host : string) : E (Fleet F) (option Project) :=
  sql (fun _ s => inl (head (filter (fun p => p_hostname p = Some host \/ host ∈ p_aliases p)
                               (hvalues (fl_projects s))), s)).

(** [UPDATE projects SET .., updated_at = now() WHERE id = $1]: no row, no error. *)
Definition update_row (id : string) (f : Project -> Project) : E (Fleet F) unit :=
  sql (fun now s =>
    inl (tt, with_projects (alter (fun p => let p := f p in stamped (p_created_at p) now p) id
                              (fl_projects s)) s)).

Definition update_status (id : string) (st : ProjectStatus) : E (Fleet F) unit :=
  update_row id (set_status st).
Definition set_desired_state (id : string) (d : DesiredState) : E (Fleet F) unit :=
  update_row id (set_desired d).
Definition set_upstream (id : string) (u : option string) : E (Fleet F) unit :=
  update_row id (with_upstream u).
Definition set_schema_version (id version : string) : E (Fleet F) unit :=
  update_row id (with_version (Some version)).
Definition set_last_health (id : string) (h : Value) : E (Fleet F) unit :=
  update_row id (with_health (Some h)).

Definition registry_delete (id : string) : E (Fleet F) unit :=
  sql (fun _ s => inl (tt, with_projects (delete id (fl_projects s)) s)).

Definition record_event (id action : string) (detail : Value) : E (Fleet F) unit :=
  sql (fun now s =>
    inl (tt, mkFleet (fl_projects s) (fl_audit s ++ [mkAudit id action None detail now])
               (fl_statements s) (fl_host s))).
End Registry.

Lemma status_parse_str st : status_parse (status_str st) = inl st.
Proof. by destruct st. Qed.
Lemma desired_parse_str d : desired_parse (desired_str d) = d.
Proof. by destruct d. Qed.
