(* ===== verification/Driver.v ===== *)
(** * Drivers and secret stores ([driver.rs], [docker.rs], [secrets.rs], [extensions.rs])

    The interfaces the control plane calls, as classes with their contracts, and their
    implementations over the machine: containers through the docker command line, secrets
    through the aws command line or the environment.  The Docker driver is proved to keep
    the driver's contract. *)

From stdpp Require Import pretty.
From S2P Require Import Prelude Json Registry.

Record InstanceHandle : Type := mkHandle {
  h_project_id : string; h_upstream : string; h_driver_ref : string
}.

Inductive InstanceState : Type := IRunning | IStopped | IFailed | IUnknown.
#[global] Instance InstanceState_eq_dec : EqDecision InstanceState.
Proof. solve_decision. Defined.

(** The trait [Driver] *)
Class Driver (F : Type) : Type := {
  driver_name : string;
  driver_start : Project -> gmap string string -> E F InstanceHandle;
  driver_stop : Project -> E F unit;
  driver_restart : Project -> gmap string string -> E F InstanceHandle;
  driver_state : Project -> E F InstanceState
}.

(** Its contract, for what an observer sees of each project's instance: the probe reports
    it and changes nothing; a start or restart that succeeds leaves the instance running, a
    stop leaves it stopped; and no call, failed ones included, touches another project. *)
Record DriverLaws {F : Type} (d : Driver F) (view : F -> string -> InstanceState) : Prop := {
  dl_state p f r f' : driver_state p f = (r, f') ->
    (forall id, view f' id = view f id) /\
    match r with inl st => st = view f (p_id p) | inr _ => True end;
  dl_start p env f r f' : driver_start p env f = (r, f') ->
    (forall id, id <> p_id p -> view f' id = view f id) /\
    match r with
    | inl h => view f' (p_id p) = IRunning /\ h_project_id h = p_id p | inr _ => True end;
  dl_stop p f r f' : driver_stop p f = (r, f') ->
    (forall id, id <> p_id p -> view f' id = view f id) /\
    match r with inl _ => view f' (p_id p) = IStopped | inr _ => True end;
  dl_restart p env f r f' : driver_restart p env f = (r, f') ->
    (forall id, id <> p_id p -> view f' id = view f id) /\
    match r with
    | inl h => view f' (p_id p) = IRunning /\ h_project_id h = p_id p | inr _ => True end
}.

(** The trait [SecretStore] *)
Class SecretStore (F : Type) : Type := {
  secret_get : string -> E F string;
  secret_put : string -> string -> E F string
}.

Section Machine.
Context {ho : HashOrder} {F : Type} {host : Host F}.

(** ** Secret stores *)

Definition aws (what : string) (args : list string) : E F string :=
  checked_program ESecret EIo what "aws" args.

Definition ssm_secret_store : SecretStore F := {|
  secret_get := fun reference =>
    aws ("aws ssm get-parameter " +:+ reference)
      ["ssm"; "get-parameter"; "--with-decryption"; "--name"; reference; "--query";
       "Parameter.Value"; "--output"; "text"];
  secret_put := fun reference value =>
    aws ("aws ssm put-parameter " +:+ reference)
      ["ssm"; "put-parameter"; "--type"; "SecureString"; "--overwrite"; "--name"; reference;
       "--value"; value; "--query"; "Version"; "--output"; "text"]
|}.

Definition env_secret_store : SecretStore F := {|
  secret_get := fun reference f =>
    let key := trim_start_matches "env:" reference in
    match env_var key f with
    | Some v => (inl v, f)
    | None => (inr (ESecret ("env var not set: " +:+ key)), f)
    end;
  secret_put := fun _ _ => fail (ESecret "EnvSecretStore is read-only")
|}.

(** ** The Docker driver *)

Definition container_of (id : string) : string := "atomo-" +:+ id.
Definition container_name (p : Project) : string := container_of (p_id p).

Definition colon : Ascii.ascii := Ascii.ascii_of_nat 58.
Definition port_of_upstream (u : string) : option Z := parse_u16 (after_last colon u).

Definition resolve_port (p : Project) (env : gmap string string) : Z :=
  match p_upstream p ≫= port_of_upstream with
  | Some n => n
  | None => default 3000 (env !! "PORT"%string ≫= parse_u16)
  end.

Definition docker (args : list string) : E F string :=
  checked_program EDriver (fun e => EDriver ("spawn docker failed: " +:+ e))
    ("docker " +:+ String.concat " " args) "docker" args.

Definition inspect_args (format name : string) : list string := ["inspect"; "-f"; format; name].
Definition status_format : string := "{{.State.Status}}".

(** A failing inspection means there is no such container. *)
Definition inspect_status (name : string) : E F (option string) := fun f =>
  match run_program "docker" (inspect_args status_format name) f with
  | (inr e, f') => (inr (EDriver ("spawn docker inspect failed: " +:+ e)), f')
  | (inl out, f') => (inl (if out_ok out then Some (trim (out_stdout out)) else None), f')
  end.

Definition env_args (env : gmap string string) : list string :=
  hpairs env ≫= (fun '(k, v) => ["-e"%string; k +:+ "=" +:+ v]).

Definition run_args (name : string) (rest : list string) : list string :=
  ["run"; "-d"; "--restart"; "unless-stopped"; "--name"; name]%string ++ rest.

Variable image : string.

Definition docker_start (p : Project) (env : gmap string string) : E F InstanceHandle :=
  let name := container_name p in
  let port := resolve_port p env in
  let upstream := default ("127.0.0.1:" +:+ pretty port) (p_upstream p) in
  status ← inspect_status name;
  match status with
  | Some st =>
      if decide (st = "running"%string) then
        id ← docker (inspect_args "{{.Id}}" name);
        mret (mkHandle (p_id p) upstream id)
      else
        _ ← attempt (docker ["rm"; "-f"; name]%string);
        id ← docker (run_args name (["-p"%string; pretty port +:+ ":" +:+ pretty port] ++
                       env_args env ++ [image]));
        mret (mkHandle (p_id p) upstream id)
  | None =>
      id ← docker (run_args name (["-p"%string; pretty port +:+ ":" +:+ pretty port] ++
                     env_args env ++ [image]));
      mret (mkHandle (p_id p) upstream id)
  end.

Definition docker_stop (p : Project) : E F unit :=
  let name := container_name p in
  status ← inspect_status name;
  match status with
  | Some _ => _ ← docker ["rm"; "-f"; name]%string; mret tt
  | None => mret tt
  end.

Definition instance_state (status : option string) : InstanceState :=
  match status with
  | None => IStopped
  | Some s =>
      if decide (s = "running"%string) then IRunning
      else if decide (s ∈ ["exited"; "created"; "paused"; "dead"]%string) then IStopped
      else if decide (s = "restarting"%string) then IFailed
      else IUnknown
  end.

Definition docker_driver : Driver F := {|
  driver_name := "docker";
  driver_start := docker_start;
  driver_stop := docker_stop;
  driver_restart := fun p env => docker_stop p ;; docker_start p env;
  driver_state := fun p => st ← inspect_status (container_name p); mret (instance_state st)
|}.

(** ** The docker command line, as documented *)

(** [containers] is what the daemon runs, each with its status: inspecting changes nothing
    and reports the status or that there is no such container; [rm -f] removes the
    container, [run -d --name] leaves it running; whatever they do, and even when they
    fail, they touch no other container. *)
Record DockerLaws (containers : F -> gmap string string) : Prop := {
  dk_inspect fmt name f r f' : run_program "docker" (inspect_args fmt name) f = (r, f') ->
    containers f' = containers f;
  dk_status name f out f' :
    run_program "docker" (inspect_args status_format name) f = (inl out, f') ->
    containers f !! name = if out_ok out then Some (trim (out_stdout out)) else None;
  dk_rm name f r f' : run_program "docker" ["rm"; "-f"; name]%string f = (r, f') ->
    delete name (containers f') = delete name (containers f) /\
    match r with inl out => if out_ok out then containers f' !! name = None else True | inr _ => True end;
  dk_run name rest f r f' : run_program "docker" (run_args name rest) f = (r, f') ->
    delete name (containers f') = delete name (containers f) /\
    match r with
    | inl out => if out_ok out then containers f' !! name = Some "running"%string else True
    | inr _ => True end
}.

Definition docker_view (containers : F -> gmap string string) (f : F) (id : string)
    : InstanceState := instance_state (containers f !! container_of id).

Section Lawful.
Variable containers : F -> gmap string string.
Hypothesis laws : DockerLaws containers.

Lemma container_of_inj id id' : container_of id = container_of id' -> id = id'.
Proof. unfold container_of. rewrite !str_app_cons, !str_app_nil. by intros [= ?]. Qed.

(** Only the container of [id] differs. *)
Definition only (id : string) (f f' : F) : Prop :=
  delete (container_of id) (containers f') = delete (container_of id) (containers f).

Lemma only_view id f f' : only id f f' ->
  forall id', id' <> id -> docker_view containers f' id' = docker_view containers f id'.
Proof.
  intros Ho id' Hne. unfold docker_view. f_equal.
  assert (Hc : container_of id <> container_of id') by (intros Hc%container_of_inj; congruence).
  rewrite <-(lookup_delete_ne (containers f') _ _ Hc), <-(lookup_delete_ne (containers f) _ _ Hc).
  by rewrite Ho.
Qed.

Lemma only_refl id f f' : containers f' = containers f -> only id f f'.
Proof. unfold only. by intros ->. Qed.
Lemma only_trans id f1 f2 f3 : only id f1 f2 -> only id f2 f3 -> only id f1 f3.
Proof. unfold only. by intros -> ->. Qed.

Lemma inspect_spec name f r f' : inspect_status name f = (r, f') ->
  containers f' = containers f /\
  match r with inl st => containers f !! name = st | inr _ => True end.
Proof.
  unfold inspect_status. destruct (run_program _ _ f) as [[out|e] f1] eqn:Hr; intros [= <- <-].
  - split; [by eapply dk_inspect|]. by rewrite (dk_status _ laws _ _ _ _ Hr).
  - split; [by eapply dk_inspect|done].
Qed.

Lemma docker_rm_spec id f r f' : docker ["rm"; "-f"; container_of id]%string f = (r, f') ->
  only id f f' /\ match r with inl _ => containers f' !! container_of id = None | inr _ => True end.
Proof.
  unfold docker, checked_program. destruct (run_program _ _ f) as [[out|e] f1] eqn:Hr;
    apply (dk_rm _ laws) in Hr as [Ho Hok].
  - destruct (out_ok out); intros [= <- <-]; by split.
  - by intros [= <- <-].
Qed.

Lemma docker_run_spec id rest f r f' : docker (run_args (container_of id) rest) f = (r, f') ->
  only id f f' /\
  match r with inl _ => containers f' !! container_of id = Some "running"%string | inr _ => True end.
Proof.
  unfold docker, checked_program. destruct (run_program _ _ f) as [[out|e] f1] eqn:Hr;
    apply (dk_run _ laws) in Hr as [Ho Hok].
  - destruct (out_ok out); intros [= <- <-]; by split.
  - by intros [= <- <-].
Qed.

Lemma docker_stop_spec p f r f' : docker_stop p f = (r, f') ->
  only (p_id p) f f' /\
  match r with inl _ => containers f' !! container_name p = None | inr _ => True end.
Proof.
  unfold docker_stop. unfold mbind at 1, E_bind at 1.
  destruct (inspect_status (container_name p) f) as [[st|e] f1] eqn:Hi;
    apply inspect_spec in Hi as [Hc Hst]; [|intros [= <- <-]; split; [by apply only_refl|done]].
  destruct st as [s|]; unfold mbind, E_bind, mret, E_ret.
  - destruct (docker _ f1) as [[o|e] f2] eqn:Hd; apply docker_rm_spec in Hd as [Ho Hok];
      intros [= <- <-]; (split; [eapply only_trans; [by apply only_refl|done]|done]).
  - intros [= <- <-]. split; [by apply only_refl|]. by rewrite Hc.
Qed.

Lemma docker_start_spec p env f r f' : docker_start p env f = (r, f') ->
  only (p_id p) f f' /\
  match r with
  | inl h => containers f' !! container_name p = Some "running"%string /\ h_project_id h = p_id p
  | inr _ => True end.
Proof.
  unfold docker_start. cbv zeta. unfold mbind at 1, E_bind at 1.
  destruct (inspect_status (container_name p) f) as [[st|e] f1] eqn:Hi;
    apply inspect_spec in Hi as [Hc Hst]; [|intros [= <- <-]; split; [by apply only_refl|done]].
  assert (Hrun : forall up rest g, only (p_id p) f g ->
    (id ← docker (run_args (container_name p) rest); mret (mkHandle (p_id p) up id)) g = (r, f') ->
    only (p_id p) f f' /\ match r with
      | inl h => containers f' !! container_name p = Some "running"%string /\ h_project_id h = p_id p
      | inr _ => True end).
  { intros up rest g Hg. unfold mbind, E_bind, mret, E_ret.
    destruct (docker _ g) as [[o|e] f2] eqn:Hd; apply docker_run_spec in Hd as [Ho Hok];
      intros [= <- <-]; (split; [by eapply only_trans|done]). }
  destruct st as [s|]; [destruct (decide (s = "running"%string)) as [->|Hs]|].
  - unfold mbind, E_bind, mret, E_ret, docker, checked_program.
    destruct (run_program _ _ f1) as [[out|e] f2] eqn:Hr; apply (dk_inspect _ laws) in Hr.
    + destruct (out_ok out); intros [= <- <-]; (split; [apply only_refl; congruence|]); [|done].
      split; [|done]. congruence.
    + intros [= <- <-]. split; [apply only_refl; congruence|done].
  - unfold mbind at 1, E_bind at 1, attempt. destruct (docker _ f1) as [o f2] eqn:Hd.
    apply docker_rm_spec in Hd as [Ho _]. apply Hrun.
    eapply only_trans; [by apply only_refl|done].
  - apply Hrun. by apply only_refl.
Qed.
End Lawful.
End Machine.

(** the Docker driver keeps the driver's contract.  Given the documented behaviour of
    the docker command line, a project's instance is the container named after it; the
    probe reports its state and changes nothing, a start or restart that succeeds leaves it
    running under the right project, a successful stop leaves it stopped, stopping twice
    or starting twice is harmless, and no call, failed ones included, touches the container
    of another project. *)
Theorem docker_driver_lawful `{HashOrder} {F : Type} `{Host F} (image : string)
    (containers : F -> gmap string string) :
  DockerLaws containers -> DriverLaws (docker_driver image) (docker_view containers).
Proof.
  intros laws. assert (Hstop := docker_stop_spec containers laws).
  assert (Hstart := docker_start_spec image containers laws). split; cbn.
  - intros p f r f'. unfold mbind, E_bind, mret, E_ret.
    destruct (inspect_status _ f) as [[st|e] f1] eqn:Hi; apply (inspect_spec _ laws) in Hi as [Hc Hst];
      intros [= <- <-]; (split; [intros id; unfold docker_view; by rewrite Hc|]); [|done].
    unfold docker_view. by rewrite <-Hst.
  - intros p env f r f' Hs. apply Hstart in Hs as [Ho Hr]. split; [by apply only_view|].
    destruct r as [h|e]; [|done]. destruct Hr as [Hr Hid]. split; [|done]. unfold docker_view.
    by change (container_of (p_id p)) with (container_name p); rewrite Hr.
  - intros p f r f' Hs. apply Hstop in Hs as [Ho Hr]. split; [by apply only_view|].
    destruct r as [h|e]; [|done]. unfold docker_view.
    by change (container_of (p_id p)) with (container_name p); rewrite Hr.
  - intros p env f r f'. unfold mbind, E_bind. destruct (docker_stop p f) as [[u|e] f1] eqn:Hs;
      apply Hstop in Hs as [Ho1 _].
    + intros Hs. apply Hstart in Hs as [Ho Hr].
      split; [apply only_view; by eapply only_trans|].
      destruct r as [h|e]; [|done]. destruct Hr as [Hr Hid]. split; [|done]. unfold docker_view.
      by change (container_of (p_id p)) with (container_name p); rewrite Hr.
    + intros [= <- <-]. split; [by apply only_view|done].
Qed.

(** ** Drivers for several hosts, and the identity plane, declared but not built *)

Section Extensions.
Context {F : Type}.

Definition NOMAD : string := "nomad".
Definition K8S : string := "k8s".
Definition MULTI_HOST_DRIVERS : list string := [NOMAD; K8S].

Definition unbuilt_driver (name start stop restart : string) : Driver F := {|
  driver_name := name;
  driver_start := fun _ _ => fail (unimplemented start);
  driver_stop := fun _ => fail (unimplemented stop);
  driver_restart := fun _ _ => fail (unimplemented restart);
  driver_state := fun _ => mret IUnknown
|}.

Record NomadDriver : Type := mkNomad { n_address : string; n_token : option string }.
Definition nomad_new (address : string) : NomadDriver := mkNomad address None.
Definition nomad_with_token (token : string) (d : NomadDriver) : NomadDriver :=
  mkNomad (n_address d) (Some token).
Definition nomad_driver (d : NomadDriver) : Driver F :=
  unbuilt_driver NOMAD "NomadDriver::start (Phase 5 multi-host scale-out)"
    "NomadDriver::stop (Phase 5 multi-host scale-out)"
    "NomadDriver::restart (Phase 5 multi-host scale-out)".

Record K8sDriver : Type := mkK8s { k_namespace : string; k_image : string }.
Definition k8s_driver (d : K8sDriver) : Driver F :=
  unbuilt_driver K8S "K8sDriver::start (Phase 5 multi-host scale-out)"
    "K8sDriver::stop (Phase 5 multi-host scale-out)"
    "K8sDriver::restart (Phase 5 multi-host scale-out)".

Record SsoPrincipal : Type := mkSsoPrincipal {
  sp_subject : string; sp_display_name : option string; sp_project_roles : gmap string string
}.
Definition can_access (p : SsoPrincipal) (project : string) : bool :=
  bool_decide (is_Some (sp_project_roles p !! project)).
Definition role_in (p : SsoPrincipal) (project : string) : option string := sp_project_roles p !! project.

Record SsoPlane : Type := mkSsoPlane { sso_audience : option string; sso_signing_key_ref : option string }.
Definition sso_new : SsoPlane := mkSsoPlane None None.
Definition with_audience (a : string) (s : SsoPlane) : SsoPlane := mkSsoPlane (Some a) (sso_signing_key_ref s).
Definition with_signing_key_ref (r : string) (s : SsoPlane) : SsoPlane := mkSsoPlane (sso_audience s) (Some r).
Definition sso_verify (s : SsoPlane) (token : string) : E F SsoPrincipal :=
  fail (unimplemented "SsoPlane::verify (Phase 5 shared identity / SSO plane)").

(** A driver that is not built still keeps the contract: it does nothing. *)
Lemma unbuilt_lawful name a b c (view : F -> string -> InstanceState) :
  (forall f id, view f id = IUnknown) -> DriverLaws (unbuilt_driver name a b c) view.
Proof.
  intros Hv. split; cbn; unfold fail, mret, E_ret.
  - intros p f r f' [= <- <-]. split; [done|by rewrite Hv].
  - intros p env f r f' [= <- <-]. by split.
  - intros p f r f' [= <- <-]. by split.
  - intros p env f r f' [= <- <-]. by split.
Qed.
End Extensions.

(** ** A machine with a docker daemon *)
Module DriverExamples.
#[local] Existing Instance enum_order.

(** The containers by name, each running or exited. *)
Abbreviation Daemon := (gmap string bool).
Definition status_text (up : bool) : string := if up then "running" else "exited".
Definition containers (f : Daemon) : gmap string string := status_text <$> f.

Definition docker_cli (args : list string) (f : Daemon) : (Output + string) * Daemon :=
  match args with
  | a :: b :: c :: d :: [] =>
      if decide (a = "inspect"%string) then
        match f !! d with
        | Some up => (inl (mkOutput true (if decide (c = status_format) then status_text up else "id") EmptyString), f)
        | None => (inl (mkOutput false EmptyString "no such object"), f)
        end
      else (inr "unknown"%string, f)
  | a :: b :: name :: [] =>
      if decide (a = "rm"%string) then (inl (mkOutput true name EmptyString), delete name f)
      else (inr "unknown"%string, f)
  | a :: _ :: _ :: _ :: _ :: name :: _ =>
      if decide (a = "run"%string) then
        match f !! name with
        | Some _ => (inl (mkOutput false EmptyString "name in use"), f)
        | None => (inl (mkOutput true "id" EmptyString), <[name := true]> f)
        end
      else (inr "unknown"%string, f)
  | _ => (inr "unknown"%string, f)
  end.

#[export] Instance daemon_host : Host Daemon := {|
  run_program := fun program args f =>
    if decide (program = "docker"%string) then docker_cli args f else (inr "not found"%string, f);
  path_exists := fun _ _ => true;
  create_dir_all := fun _ f => (inl tt, f);
  write_file := fun _ _ f => (inl tt, f);
  copy_file := fun _ _ f => (inl tt, f);
  remove_file := fun _ f => (inl tt, f);
  env_var := fun _ _ => Some "postgres://admin"%string;
  temp_dir := fun _ => "/tmp"%string;
  pg_exec := fun _ _ f => (inl tt, f);
  tcp_probe := fun _ f => (Some true, f);
  new_uuid := fun f => ("00000000-0000-4000-8000-000000000000"%string, f);
  utc_now := fun f => ("t"%string, f)
|}.

Lemma daemon_lawful : DockerLaws containers.
Proof.
  split.
  - intros fmt name f r f'. cbn. destruct (f !! name); by intros [= _ <-].
  - intros name f out f'. unfold containers. rewrite lookup_fmap. cbn -[lookup].
    destruct (f !! name) as [up|]; intros [= <- _]; [destruct up; vm_compute; reflexivity|done].
  - intros name f r f'. cbn. intros [= <- <-]. cbn. unfold containers. rewrite fmap_delete. split.
    + by rewrite delete_delete_eq.
    + by rewrite lookup_delete_eq.
  - intros name rest f r f'. cbn. unfold containers. destruct (f !! name) eqn:Hn; intros [= <- <-]; cbn.
    + by split.
    + rewrite fmap_insert. split; [by rewrite delete_insert_eq|by rewrite lookup_insert_eq].
Qed.

Definition blog : Project :=
  mkProject "blog" "Blog" None [] "env:DB" (Volume "schema.ts") None None (VObject []) Provisioning
    WantRunning None EmptyString EmptyString.

Definition daemon0 : Daemon := {[ "atomo-blog"%string := true; "atomo-shop"%string := true ]}.

Lemma docker_driver_lawful_witness :
  let f' := (driver_stop (Driver := docker_driver "atomo-server") blog daemon0).2 in
  docker_view containers f' "shop" = docker_view containers daemon0 "shop" /\
  docker_view containers f' "blog" = IStopped /\ docker_view containers daemon0 "blog" = IRunning.
Proof.
  pose proof (docker_driver_lawful "atomo-server" containers daemon_lawful) as laws.
  destruct (dl_stop _ _ laws blog daemon0 (inl tt) _ eq_refl) as [Hother Hblog].
  split; [exact (Hother "shop"%string ltac:(discriminate))|]. split; [exact Hblog|vm_compute; reflexivity].
Defined.
End DriverExamples.
