(* ===== verification/Provisioner.v ===== *)
(** * Gateway, provisioner, reconciler and API of the control plane
    ([caddy.rs], [provisioner.rs], [reconciler.rs], [api.rs])

    The life cycle of a project over the registry, a driver, a secret store and the
    gateway, step by step as the code takes them; an error keeps the steps before it. *)

From stdpp Require Import pretty.
From S2P Require Import Prelude Json Registry Driver.

(** ** The gateway *)

Record CaddyGateway : Type := mkGateway { config_path : string; admin_endpoint : option string }.
Definition gateway_new (path : string) : CaddyGateway := mkGateway path None.
Definition with_admin_endpoint (e : option string) (g : CaddyGateway) : CaddyGateway :=
  mkGateway (config_path g) e.

Definition non_empty (s : string) : bool := negb (bool_decide (s = EmptyString)).

(** The hosts of a project: its hostname, then its aliases. *)
Definition project_hosts (p : Project) : list string :=
  filter (fun h => non_empty h = true) (option_list (p_hostname p) ++ p_aliases p).

Definition reverse_proxy (upstream : string) : Value :=
  VArray [json_object [("handler"%string, VString "reverse_proxy");
    ("upstreams"%string, VArray [json_object [("dial"%string, VString upstream)]])]].
Definition route (matcher handle : Value) : Value :=
  json_object [("match"%string, VArray [matcher]); ("handle"%string, handle); ("terminal"%string, VBool true)].
Definition host_matcher (hosts : list string) : Value :=
  json_object [("host"%string, VArray (VString <$> hosts))].
Definition header_matcher (id : string) : Value :=
  json_object [("header"%string, json_object [("X-Atomo-Project"%string, VArray [VString id])])].

Definition project_routes (p : Project) : list Value :=
  match p_upstream p with
  | Some u =>
      if non_empty u then
        match project_hosts p with
        | [] => []
        | hosts => [route (host_matcher hosts) (reverse_proxy u)]
        end ++ [route (header_matcher (p_id p)) (reverse_proxy u)]
      else []
  | None => []
  end.
Definition routes (ps : list Project) : list Value := ps ≫= project_routes.

Definition gateway_config (ps : list Project) : Value :=
  let srv0 := json_object [("listen"%string, VArray [VString ":443"; VString ":80"]);
                           ("routes"%string, VArray (routes ps))] in
  json_object [("apps"%string, json_object [("http"%string, json_object [("servers"%string,
    json_object [("srv0"%string, srv0)])])])].

Section ControlPlane.
Context {ho : HashOrder} {F : Type} {host : Host F} {driver : Driver F} {secrets : SecretStore F}.

Variable sql_fault : nat -> option string.
Variable sql_now : nat -> string.
Variable json_text : Value -> string.         (* [Value::to_string] *)
Variable json_pretty : Value -> string.       (* [serde_json::to_string_pretty] *)
Variable gateway : CaddyGateway.

Abbreviation registry_get := (registry_get sql_fault sql_now).
Abbreviation registry_list := (registry_list sql_fault sql_now).
Abbreviation registry_create := (registry_create sql_fault sql_now).
Abbreviation registry_delete := (registry_delete sql_fault sql_now).
Abbreviation update_status := (update_status sql_fault sql_now).
Abbreviation set_upstream := (set_upstream sql_fault sql_now).
Abbreviation set_schema_version := (set_schema_version sql_fault sql_now).
Abbreviation set_last_health := (set_last_health sql_fault sql_now).
Abbreviation record_event := (record_event sql_fault sql_now).

Definition render (ps : list Project) : string := json_pretty (gateway_config ps).

(** Write the file, then reload through the admin endpoint or the [caddy] program; a
    machine without [caddy] only gets the file. *)
Definition write_config (rendered : string) : E F unit :=
  if non_empty (config_path gateway) then
    match path_parent (config_path gateway) with
    | Some parent => if non_empty parent then io (create_dir_all parent) else mret tt
    | None => mret tt
    end ;;
    io (write_file (config_path gateway) rendered)
  else mret tt.

Definition reload_caddy (rendered : string) : E F unit :=
  match admin_endpoint gateway with
  | Some admin =>
      let url := trim_end_chars is_slash admin +:+ "/load" in
      _ ← checked_program EGateway (fun e => EGateway ("spawn curl failed: " +:+ e))
            ("POST " +:+ url) "curl"
            ["-sf"; "-X"; "POST"; "-H"; "Content-Type: application/json"; "-d"; rendered; url]%string;
      mret tt
  | None =>
      if non_empty (config_path gateway) then fun f =>
        match run_program "caddy" ["reload"; "--config"; config_path gateway]%string f with
        | (inl out, f') =>
            if out_ok out then (inl tt, f')
            else (inr (EGateway ("caddy reload failed: " +:+ trim (out_stderr out))), f')
        | (inr _, f') => (inl tt, f')
        end
      else mret tt
  end.

Definition gateway_apply (ps : list Project) : E F unit :=
  let rendered := render ps in write_config rendered ;; reload_caddy rendered.

(** ** Names and paths of a project *)

Definition schema_volume_root (f : F) : string :=
  default "./atomo-schemas"%string (env_var "ATOMO_SCHEMA_VOLUME_ROOT" f).
Definition project_schema_dir (id : string) (f : F) : string := path_join (schema_volume_root f) id.
Definition materialized_schema_path (p : Project) (f : F) : string :=
  match p_schema_ref p with
  | Git _ _ _ => path_join (project_schema_dir (p_id p) f) "schema.ts"
  | Volume path => path
  end.

(** The sum of the bytes of the id, in 16 bits *)
Fixpoint byte_sum (acc : Z) (s : string) : Z :=
  match s with
  | EmptyString => acc
  | String a r => byte_sum ((acc + Z.of_nat (Ascii.nat_of_ascii a)) mod 65536) r
  end.
Definition default_port (id : string) (f : F) : Z :=
  let base := default 4000 (env_var "ATOMO_PORT_BASE" f ≫= parse_u16) in
  (base + byte_sum 0 id mod 1000) mod 65536.

Definition hyphen : Ascii.ascii := Ascii.ascii_of_nat 45.
Definition underscore : Ascii.ascii := Ascii.ascii_of_nat 95.
Definition database_name (id : string) : string := "atomo_" +:+ replace_char hyphen underscore id.
Definition jwt_secret_ref (id : string) : string := "/atomo/" +:+ id +:+ "/JWT_SECRET".

Definition dq : string := String (Ascii.ascii_of_nat 34) EmptyString.
Definition create_database_sql (id : string) : string :=
  "CREATE DATABASE " +:+ dq +:+ database_name id +:+ dq.
Definition terminate_sql (id : string) : string :=
  "SELECT pg_terminate_backend(pid) FROM pg_stat_activity WHERE datname = '" +:+ database_name id +:+
  "' AND pid <> pg_backend_pid()".
Definition drop_database_sql (id : string) : string :=
  "DROP DATABASE IF EXISTS " +:+ dq +:+ database_name id +:+ dq.

Definition admin_exec (stmt : string) : E F unit := fun f =>
  match env_var "ATOMO_ADMIN_DATABASE_URL" f with
  | None => (inr (EOther "ATOMO_ADMIN_DATABASE_URL is required for CREATE/DROP DATABASE"), f)
  | Some url =>
      match pg_exec url stmt f with
      | (inl _, f') => (inl tt, f')
      | (inr e, f') => (inr (EDatabase e), f')
      end
  end.

(** ** Materializing the schema *)

Definition git (args : list string) : E F unit :=
  _ ← checked_program EOther (fun e => EOther ("spawn git failed: " +:+ e))
        ("git " +:+ String.concat " " args) "git" args;
  mret tt.

Definition materialize_schema (p : Project) : E F unit :=
  match p_schema_ref p with
  | Volume path =>
      there ← reads (path_exists path);
      if (there : bool) then mret tt
      else fail (EOther ("schema volume path does not exist: " +:+ path))
  | Git repo path git_ref =>
      dir ← reads (project_schema_dir (p_id p));
      let checkout := path_join dir "_checkout" in
      io (create_dir_all checkout) ;;
      cloned ← reads (path_exists (path_join checkout ".git"));
      (if (cloned : bool) then mret tt
       else git ["clone"; "--no-checkout"; repo; checkout]%string) ;;
      shallow ← attempt (git ["-C"; checkout; "fetch"; "--depth"; "1"; "origin"; git_ref]%string);
      match shallow with
      | inl _ => mret tt
      | inr _ => git ["-C"; checkout; "fetch"; "origin"]%string
      end ;;
      git ["-C"; checkout; "checkout"; "--force"; git_ref]%string ;;
      dst ← reads (materialized_schema_path p);
      match path_parent dst with Some parent => io (create_dir_all parent) | None => mret tt end ;;
      map_err (fun e => EOther ("copy schema " +:+ path_join checkout path +:+ " -> " +:+ dst))
        (io (copy_file (path_join checkout path) dst))
  end.

(** ** The environment of an instance *)

Definition uuid_simple : E F string :=
  u ← total new_uuid; mret (String.string_of_list_ascii (filter (fun a => a <> hyphen) (String.list_ascii_of_string u))).

Definition instance_port (p : Project) (f : F) : Z :=
  match p_upstream p ≫= port_of_upstream with Some n => n | None => default_port (p_id p) f end.

Definition resolve_jwt (id : string) : E F string :=
  found ← attempt (secret_get (jwt_secret_ref id));
  match found with
  | inl v =>
      if non_empty v then mret v
      else a ← uuid_simple; b ← uuid_simple;
           _ ← attempt (secret_put (jwt_secret_ref id) (a +:+ b)); mret (a +:+ b)
  | inr _ =>
      a ← uuid_simple; b ← uuid_simple;
      _ ← attempt (secret_put (jwt_secret_ref id) (a +:+ b)); mret (a +:+ b)
  end.

(** The overrides of the project; they win. *)
Definition env_value (v : Value) : string := match v with VString s => s | _ => json_text v end.
Definition merge_env (overrides : Value) (env : gmap string string) : gmap string string :=
  match overrides with
  | VObject l => foldl (fun env '(k, v) => <[k := env_value v]> env) env l
  | _ => env
  end.

Definition resolve_env (p : Project) : E F (gmap string string) :=
  database_url ← secret_get (p_database_url_ref p);
  schema_path ← reads (materialized_schema_path p);
  port ← reads (instance_port p);
  jwt ← resolve_jwt (p_id p);
  let env : gmap string string := <["ATOMO_PROJECT_ID"%string := p_id p]> (<["JWT_SECRET"%string := jwt]>
    (<["PORT"%string := pretty port]> (<["HOST"%string := "0.0.0.0"%string]>
    (<["ATOMO_SCHEMA_PATH"%string := schema_path]> {[ "DATABASE_URL"%string := database_url ]})))) in
  mret (merge_env (p_env p) env).

(** ** The life cycle *)

(** The projects the gateway serves. *)
Definition served (p : Project) : bool :=
  bool_decide (p_status p = Running) && bool_decide (is_Some (p_upstream p)).
Definition running_projects : E (Fleet F) (list Project) :=
  ps ← registry_list; mret (filter (fun p => served p = true) ps).

Definition refresh_gateway : E (Fleet F) unit :=
  ps ← running_projects; on_host (gateway_apply ps).

(** The database exists afterwards, new or not. *)
Definition ensure_database (id : string) : E F unit := fun f =>
  match admin_exec (create_database_sql id) f with
  | (inr (EDatabase e), f') =>
      if contains e "already exists" then (inl tt, f') else (inr (EDatabase e), f')
  | r => r
  end.

(** Any failure of the lookup counts as a project that is not there. *)
Definition register (p : Project) : E (Fleet F) unit :=
  found ← attempt (registry_get (p_id p));
  match found with
  | inr _ => registry_create p
  | inl _ => update_status (p_id p) Provisioning
  end.

Definition assign_upstream (p : Project) : E (Fleet F) Project :=
  match p_upstream p with
  | Some _ => mret p
  | None =>
      port ← on_host (reads (default_port (p_id p)));
      let u := "127.0.0.1:" +:+ pretty (port : Z) in
      set_upstream (p_id p) (Some u) ;; mret (with_upstream (Some u) p)
  end.

Definition create (p0 : Project) : E (Fleet F) unit :=
  on_host (ensure_database (p_id p0)) ;;
  on_host (materialize_schema p0) ;;
  let p := set_status Provisioning p0 in
  register p ;;
  record_event (p_id p) "create" (json_object [("db"%string, VString (database_name (p_id p)))]) ;;
  p ← assign_upstream p;
  env ← on_host (resolve_env p);
  started ← attempt (on_host (driver_start p env));
  match started with
  | inr e => update_status (p_id p) Failed ;; fail e
  | inl h =>
      set_upstream (p_id p) (Some (h_upstream h)) ;;
      update_status (p_id p) Running ;;
      refresh_gateway
  end.

Definition start (id : string) : E (Fleet F) unit :=
  p ← registry_get id;
  env ← on_host (resolve_env p);
  h ← on_host (driver_start p env);
  set_upstream id (Some (h_upstream h)) ;;
  update_status id Running ;;
  record_event id "start" (json_object []) ;;
  refresh_gateway.

Definition stop (id : string) : E (Fleet F) unit :=
  p ← registry_get id;
  on_host (driver_stop p) ;;
  update_status id Stopped ;;
  record_event id "stop" (json_object []) ;;
  refresh_gateway.

(** The new commit is pinned in a copy of the project only. *)
Definition schema_update (id new_sha : string) : E (Fleet F) unit :=
  p ← registry_get id;
  p ← match p_schema_ref p with
      | Git repo path _ => mret (with_schema_ref (Git repo path new_sha) p)
      | Volume _ => fail (EInvalidState "schema_update requires a git schema source")
      end;
  on_host (materialize_schema p) ;;
  env ← on_host (resolve_env p);
  h ← on_host (driver_restart p env);
  set_upstream id (Some (h_upstream h)) ;;
  set_schema_version id new_sha ;;
  record_event id "schema_update" (json_object [("ref"%string, VString new_sha)]) ;;
  refresh_gateway.

Definition delete_project (id : string) (drop_database : bool) : E (Fleet F) unit :=
  p ← registry_get id;
  on_host (driver_stop p) ;;
  (if drop_database then
     _ ← attempt (on_host (admin_exec (terminate_sql id)));
     on_host (admin_exec (drop_database_sql id))
   else mret tt) ;;
  record_event id "delete" (json_object [("drop_database"%string, VBool drop_database)]) ;;
  registry_delete id ;;
  refresh_gateway.

(** ** The reconciler *)

Inductive ReconcileAction : Type := Noop | Start | Stop.

Definition decide_action (desired : DesiredState) (observed : InstanceState) : ReconcileAction :=
  match desired, observed with
  | WantRunning, IRunning => Noop
  | WantRunning, (IStopped | IFailed | IUnknown) => Start
  | WantStopped, (IRunning | IFailed) => Stop
  | WantStopped, (IStopped | IUnknown) => Noop
  end.

Definition reconcile_one (p : Project) : E (Fleet F) unit :=
  observed ← on_host (driver_state p);
  match decide_action (p_desired_state p) observed with
  | Start => start (p_id p)
  | Stop => stop (p_id p)
  | Noop => mret tt
  end.

Definition tcp_reachable (upstream : string) : E F bool :=
  r ← total (tcp_probe (trim_start_matches "https://" (trim_start_matches "http://" upstream)));
  mret (match r with Some true => true | _ => false end).

Definition health_of (p : Project) : E F Value :=
  now ← total utc_now;
  match p_upstream p with
  | Some u =>
      reachable ← tcp_reachable u;
      mret (json_object [("status"%string, VString (if (reachable : bool) then "healthy" else "unreachable"));
        ("upstream"%string, VString u); ("checked_at"%string, VString now)])
  | None =>
      mret (json_object [("status"%string, VString "unknown");
        ("reason"%string, VString "no upstream registered"); ("checked_at"%string, VString now)])
  end.

Definition probe_health (p : Project) : E (Fleet F) unit :=
  h ← on_host (health_of p);
  _ ← attempt (set_last_health (p_id p) h); mret tt.

(** Each project of the list as it was read; its failures are logged. *)
Fixpoint reconcile_all (ps : list Project) : E (Fleet F) unit :=
  match ps with
  | [] => mret tt
  | p :: rest => _ ← attempt (reconcile_one p); probe_health p ;; reconcile_all rest
  end.

Definition tick : E (Fleet F) unit := ps ← registry_list; reconcile_all ps.

(** ** The HTTP API *)

Definition status_of_error (e : ControlPlaneError) : Z :=
  match e with ENotFound _ => 404 | EInvalidState _ => 409 | _ => 500 end.

Record CreateProject : Type := mkCreate {
  cr_id : string; cr_display_name : string; cr_hostname : option string; cr_aliases : list string;
  cr_database_url_ref : string; cr_schema_ref : SchemaRef; cr_schema_version : option string;
  cr_upstream : option string; cr_env : Value; cr_desired_state : DesiredState
}.
Definition default_env : Value := VObject [].
Definition default_desired_state : DesiredState := WantRunning.

Definition into_project (now : string) (c : CreateProject) : Project :=
  mkProject (cr_id c) (cr_display_name c) (cr_hostname c) (cr_aliases c) (cr_database_url_ref c)
    (cr_schema_ref c) (cr_schema_version c) (cr_upstream c) (cr_env c) Provisioning
    (cr_desired_state c) None now now.

Inductive ApiRequest : Type :=
  | Healthz | ListProjects | CreateProjectReq (c : CreateProject) | GetProject (id : string)
  | StartProject (id : string) | StopProject (id : string) | SchemaUpdate (id git_ref : string)
  | DeleteProject (id : string) (drop_database : bool) | ProjectHealth (id : string).

Inductive ApiBody : Type :=
  | BOk | BProjects (ps : list Project) | BProject (p : Project) | BAccepted (id action : string)
  | BHealth (v : Value) | BError (e : ControlPlaneError).

(** Status and body of an answer *)
Definition answered (ok : Z) (m : E (Fleet F) ApiBody) (s : Fleet F) : (Z * ApiBody) * Fleet F :=
  match m s with
  | (inl b, s') => ((ok, b), s')
  | (inr e, s') => ((status_of_error e, BError e), s')
  end.

Definition handle (r : ApiRequest) : Fleet F -> (Z * ApiBody) * Fleet F :=
  match r with
  | Healthz => fun s => ((200, BOk), s)
  | ListProjects => answered 200 (ps ← registry_list; mret (BProjects ps))
  | CreateProjectReq c => answered 201 (
      now ← on_host (total utc_now);
      let p := into_project now c in
      create p ;;
      got ← attempt (registry_get (p_id p));
      mret (BProject (match got with inl q => q | inr _ => p end)))
  | GetProject id => answered 200 (p ← registry_get id; mret (BProject p))
  | StartProject id => answered 202 (start id ;; mret (BAccepted id "start"))
  | StopProject id => answered 202 (stop id ;; mret (BAccepted id "stop"))
  | SchemaUpdate id r => answered 202 (schema_update id r ;; mret (BAccepted id "schema_update"))
  | DeleteProject id d => answered 202 (delete_project id d ;; mret (BAccepted id "delete"))
  | ProjectHealth id => answered 200 (p ← registry_get id; mret (BHealth (default VNull (p_last_health p))))
  end.
End ControlPlane.
