(* ===== verification/ProvisionerSpec.v ===== *)
(** * What the control plane promises

    Operations on one project leave the others alone, a successful operation leaves the
    gateway routing exactly the served projects, and the reconciler brings every healthy
    project to its desired state whatever the others do. *)

From stdpp Require Import pretty.
From S2P Require Import Prelude Json Registry Driver Provisioner.

(** ** Computations that respect a relation on states *)

Section Keeps.
Context {S : Type} (R : S -> S -> Prop) `{!Reflexive R} `{!Transitive R}.

(** Whether it succeeds or fails. *)
Definition keeps {A} (m : E S A) : Prop := forall s, R s (m s).2.

Lemma keeps_ret {A} (a : A) : keeps (mret a).
Proof. intros s. cbn. reflexivity. Qed.
Lemma keeps_fail {A} e : keeps (fail e : E S A).
Proof. intros s. cbn. reflexivity. Qed.
Lemma keeps_bind {A B} (m : E S A) (k : A -> E S B) :
  keeps m -> (forall a, keeps (k a)) -> keeps (m ≫= k).
Proof.
  intros Hm Hk s. unfold mbind, E_bind. pose proof (Hm s) as H1.
  destruct (m s) as [[a|e] s1]; cbn in *; [|done]. etrans; [exact H1|apply Hk].
Qed.
Lemma keeps_attempt {A} (m : E S A) : keeps m -> keeps (attempt m).
Proof. intros Hm s. unfold attempt. pose proof (Hm s). by destruct (m s). Qed.
Lemma keeps_map_err {A} f (m : E S A) : keeps m -> keeps (map_err f m).
Proof. intros Hm s. unfold map_err. pose proof (Hm s). by destruct (m s) as [[a|e] s1]. Qed.
Lemma keeps_reads {A} (f : S -> A) : keeps (reads f).
Proof. intros s. cbn. reflexivity. Qed.
End Keeps.

Create HintDb keeps discriminated.
#[export] Hint Resolve keeps_ret keeps_fail keeps_bind keeps_attempt keeps_map_err keeps_reads : keeps.

Lemma bind_ret {S A B} (a : A) (k : A -> E S B) : (mret a ≫= k) = k a.
Proof. done. Qed.
Lemma bind_fail {S A B} e (k : A -> E S B) : (fail e ≫= k) = fail e.
Proof. done. Qed.
Lemma keeps_assoc {S} (R : S -> S -> Prop) {A B C} (m : E S A) (k : A -> E S B) (l : B -> E S C) :
  keeps R (m ≫= fun a => k a ≫= l) -> keeps R ((m ≫= k) ≫= l).
Proof.
  intros Hk s. specialize (Hk s). unfold mbind, E_bind in *. by destruct (m s) as [[a|e] s1].
Qed.

(** ** Machines whose other calls leave the instances alone *)

(** What an observer sees of the instances changes only through the driver. *)
Record HostFrame {F : Type} (host : Host F) (secrets : SecretStore F) (view : F -> string -> InstanceState)
    : Prop := {
  hf_program name args f : name <> "docker"%string -> view (run_program name args f).2 = view f;
  hf_mkdir p f : view (create_dir_all p f).2 = view f;
  hf_write p t f : view (write_file p t f).2 = view f;
  hf_copy p q f : view (copy_file p q f).2 = view f;
  hf_pg url stmt f : view (pg_exec url stmt f).2 = view f;
  hf_probe u f : view (tcp_probe u f).2 = view f;
  hf_uuid f : view (new_uuid f).2 = view f;
  hf_now f : view (utc_now f).2 = view f;
  hf_get r f : view (secret_get r f).2 = view f;
  hf_put r v f : view (secret_put r v f).2 = view f
}.

Section Spec.
Context {ho : HashOrder} {F : Type} {host : Host F} {driver : Driver F} {secrets : SecretStore F}.
Variable sql_fault : nat -> option string.
Variable sql_now : nat -> string.
Variable json_text json_pretty : Value -> string.
Variable gateway : CaddyGateway.
Variable view : F -> string -> InstanceState.
Hypothesis laws : DriverLaws driver view.
Hypothesis frame : HostFrame host secrets view.

Definition same_view (f f' : F) : Prop := view f' = view f.
#[local] Instance same_view_refl : Reflexive same_view.
Proof. done. Qed.
#[local] Instance same_view_trans : Transitive same_view.
Proof. intros a b c H1 H2. unfold same_view in *. congruence. Qed.

Abbreviation quiet := (keeps same_view).

Lemma quiet_io {A} (m : F -> (A + string) * F) : (forall f, view (m f).2 = view f) -> quiet (io m).
Proof. intros Hm f. unfold io, same_view. pose proof (Hm f). by destruct (m f) as [[a|e] f']. Qed.
Lemma quiet_total {A} (m : F -> A * F) : (forall f, view (m f).2 = view f) -> quiet (total m).
Proof. intros Hm f. unfold total, same_view. pose proof (Hm f). by destruct (m f). Qed.
Lemma quiet_program wrap spawn what name args :
  name <> "docker"%string -> quiet (checked_program wrap spawn what name args).
Proof.
  intros Hn f. unfold checked_program, same_view. pose proof (hf_program _ _ _ frame name args f Hn) as H.
  destruct (run_program name args f) as [[out|e] f']; cbn in *; [by destruct (out_ok out)|done].
Qed.
#[local] Hint Resolve quiet_io quiet_total quiet_program hf_mkdir hf_write hf_copy hf_pg hf_probe hf_uuid
  hf_now : keeps.

Ltac quiet := repeat first
  [ match goal with |- forall _, _ => intro end
  | apply keeps_bind; [apply _| |] | apply keeps_attempt | apply keeps_map_err
  | apply keeps_ret; apply _ | apply keeps_fail; apply _ | apply keeps_reads; apply _
  | apply quiet_io | apply quiet_total | apply quiet_program; [discriminate]
  | apply (hf_mkdir _ _ _ frame) | apply (hf_write _ _ _ frame) | apply (hf_copy _ _ _ frame)
  | apply (hf_probe _ _ _ frame) | apply (hf_uuid _ _ _ frame) | apply (hf_now _ _ _ frame)
  | exact (hf_get _ _ _ frame _) | exact (hf_put _ _ _ frame _ _)
  | progress case_match ].

Lemma git_quiet args : quiet (git args).
Proof. unfold git. quiet. Qed.

Lemma materialize_quiet p : quiet (materialize_schema p).
Proof. unfold materialize_schema. destruct (p_schema_ref p); quiet; apply git_quiet. Qed.

Lemma gateway_quiet ps : quiet (gateway_apply json_pretty gateway ps).
Proof.
  unfold gateway_apply, write_config. cbv zeta. quiet.
  unfold reload_caddy. cbv zeta. destruct (admin_endpoint gateway); [quiet|].
  destruct (non_empty _); [|quiet]. intros f. unfold same_view.
  pose proof (hf_program _ _ _ frame "caddy" ["reload"; "--config"; config_path gateway]%string f ltac:(discriminate)) as H.
  destruct (run_program _ _ f) as [[out|e] f']; cbn in *; [by destruct (out_ok out)|done].
Qed.

Lemma admin_quiet stmt : quiet (admin_exec stmt).
Proof.
  intros f. unfold admin_exec, same_view. destruct (env_var _ f); [|done].
  pose proof (hf_pg _ _ _ frame s stmt f) as H. by destruct (pg_exec s stmt f) as [[u|e] f'].
Qed.

Lemma ensure_database_quiet id : quiet (ensure_database id).
Proof.
  intros f. unfold ensure_database. pose proof (admin_quiet (create_database_sql id) f) as H.
  destruct (admin_exec _ f) as [[u|e] f']; cbn in *; [done|]. destruct e; try done. by destruct (contains _ _).
Qed.

Lemma resolve_env_quiet p : quiet (resolve_env json_text p).
Proof. unfold resolve_env, resolve_jwt, uuid_simple. quiet. Qed.

Lemma health_quiet p : quiet (health_of p).
Proof. unfold health_of, tcp_reachable. quiet. Qed.

(** ** Only one project is touched *)

(** Rows are kept under their own ids. *)
Definition keyed (s : Fleet F) : Prop := forall id p, fl_projects s !! id = Some p -> p_id p = id.

(** Everything about the other projects is as before: their rows, their instances, and the
    audit log, to which only entries of this project were added. *)
Record untouched (id : string) (s s' : Fleet F) : Prop := {
  ut_rows id' : id' <> id -> fl_projects s' !! id' = fl_projects s !! id';
  ut_view id' : id' <> id -> view (fl_host s') id' = view (fl_host s) id';
  ut_audit : exists rows, fl_audit s' = fl_audit s ++ rows /\ Forall (fun r => au_project r = id) rows;
  ut_keyed : keyed s'
}.
Definition elsewhere (id : string) (s s' : Fleet F) : Prop := keyed s -> untouched id s s'.

#[local] Instance elsewhere_refl id : Reflexive (elsewhere id).
Proof. intros s Hk. split; [done|done| |done]. exists []. by rewrite app_nil_r. Qed.
#[local] Instance elsewhere_trans id : Transitive (elsewhere id).
Proof.
  intros a b c H G Hk. destruct (H Hk) as [H1 H2 (r1 & H3 & F1) H4].
  destruct (G H4) as [G1 G2 (r2 & G3 & F2) G4]. split; [| | |done].
  - intros id' Hne. by rewrite G1, H1.
  - intros id' Hne. by rewrite G2, H2.
  - exists (r1 ++ r2). rewrite G3, H3, <-app_assoc. split; [done|]. by apply Forall_app.
Qed.

Abbreviation touches id := (keeps (elsewhere id)).

(** A statement that changes at most the row of [id] and the log. *)
Lemma touches_sql {A} id (body : string -> Fleet F -> (A * Fleet F) + string) :
  (forall now s a s', body now s = inl (a, s') -> fl_host s' = fl_host s /\
     (forall id', id' <> id -> fl_projects s' !! id' = fl_projects s !! id') /\
     (exists rows, fl_audit s' = fl_audit s ++ rows /\ Forall (fun r => au_project r = id) rows) /\
     (keyed s -> keyed s')) ->
  touches id (sql sql_fault sql_now body).
Proof.
  intros Hb s. unfold sql. cbv zeta.
  assert (Hc : elsewhere id s (count_statement s)).
  { intros Hk. split; [done|done| |done]. exists []. by rewrite app_nil_r. }
  destruct (sql_fault _); [exact Hc|]. destruct (body _ _) as [[a s']|e] eqn:He; [|exact Hc].
  etrans; [exact Hc|]. intros Hk. destruct (Hb _ _ _ _ He) as (H1 & H2 & H3 & H4).
  split; [done| |done|by apply H4]. intros id' _. cbn [snd]. by rewrite H1.
Qed.

Lemma no_rows (id : string) (l : list AuditRow) :
  exists rows, l = l ++ rows /\ Forall (fun r => au_project r = id) rows.
Proof. exists []. by rewrite app_nil_r. Qed.
#[local] Hint Resolve no_rows : core.

Lemma touches_update id f :
  (forall p, p_id (f p) = p_id p) -> touches id (update_row sql_fault sql_now id f).
Proof.
  intros Hf. apply touches_sql. intros now s a s' [= _ <-]. split; [done|]. split; [|split; [done|]].
  - intros id' Hne. cbn. by rewrite lookup_alter_ne.
  - intros Hk id' p. cbn. intros [[-> (q & Hq & ->)]|[_ Hp]]%lookup_alter_Some; [|by apply Hk].
    cbn. rewrite Hf. by apply Hk.
Qed.

Lemma touches_create p : touches (p_id p) (registry_create sql_fault sql_now p).
Proof.
  apply touches_sql. intros now s a s'. cbv zeta. case_decide; [done|]. destruct (hostname_taken _ _); [done|].
  intros [= _ <-]. split; [done|]. split; [|split; [done|]].
  - intros id' Hne. cbn. by rewrite lookup_insert_ne.
  - intros Hk id' q. cbn. intros [[<- <-]|[_ Hq]]%lookup_insert_Some; [done|by apply Hk].
Qed.

Lemma touches_delete id : touches id (registry_delete sql_fault sql_now id).
Proof.
  apply touches_sql. intros now s a s' [= _ <-]. split; [done|]. split; [|split; [done|]].
  - intros id' Hne. cbn. by rewrite lookup_delete_ne.
  - intros Hk id' q. cbn. intros [_ Hq]%lookup_delete_Some. by apply Hk.
Qed.

Lemma touches_event id action detail : touches id (record_event sql_fault sql_now id action detail).
Proof.
  apply touches_sql. intros now s a s' [= _ <-]. do 2 (split; [done|]). split; [|done].
  eexists. split; [done|]. by apply Forall_singleton.
Qed.

Lemma touches_list id : touches id (registry_list sql_fault sql_now).
Proof. apply touches_sql. intros now s a s' [= _ <-]. by repeat split. Qed.

Lemma get_inv id (s : Fleet F) r s' : registry_get sql_fault sql_now id s = (r, s') ->
  s' = count_statement s /\ match r with inl p => fl_projects s !! id = Some p | inr _ => True end.
Proof.
  unfold registry_get, sql. cbv zeta. destruct (sql_fault _); [by intros [= <- <-]|].
  cbn [fl_projects count_statement]. destruct (fl_projects s !! id); by intros [= <- <-].
Qed.

Lemma touches_registry_get id id' : touches id (registry_get sql_fault sql_now id').
Proof.
  intros s Hk. destruct (registry_get _ _ id' s) as [r s'] eqn:Hg. apply get_inv in Hg as [-> _].
  by split; [..|cbn|].
Qed.

(** The row that is read has its own id. *)
Lemma touches_get {A} id (k : Project -> E (Fleet F) A) :
  (forall p, p_id p = id -> touches id (k p)) ->
  touches id (registry_get sql_fault sql_now id ≫= k).
Proof.
  intros Hk s Hkey. pose proof (touches_registry_get id id s Hkey) as Hg. unfold mbind, E_bind.
  destruct (registry_get _ _ id s) as [[p|e] s'] eqn:Hr; cbn [snd] in *; [|done].
  apply get_inv in Hr as [_ Hp]. refine (elsewhere_trans id s s' _ (fun _ => Hg) _ Hkey).
  apply Hk. by apply Hkey.
Qed.

Lemma touches_host {A} id (m : E F A) : quiet m -> touches id (on_host m).
Proof.
  intros Hm s Hk. unfold on_host. pose proof (Hm (fl_host s)) as H. destruct (m (fl_host s)) as [r f].
  split; [done| |done|done]. intros id' _. cbn in *. by rewrite H.
Qed.

(** A call of the driver for the project itself. *)
Lemma touches_driver {A} id (m : E F A) :
  (forall f, forall id', id' <> id -> view (m f).2 id' = view f id') -> touches id (on_host m).
Proof.
  intros Hm s Hk. unfold on_host. pose proof (Hm (fl_host s)) as H. destruct (m (fl_host s)) as [r f].
  split; [done| |done|done]. intros id' Hne. cbn in *. by apply H.
Qed.

Lemma touches_start p env : touches (p_id p) (on_host (driver_start p env)).
Proof.
  apply touches_driver. intros f. destruct (driver_start p env f) as [r f'] eqn:Hd.
  by apply (dl_start _ _ laws) in Hd as [Hd _].
Qed.
Lemma touches_restart p env : touches (p_id p) (on_host (driver_restart p env)).
Proof.
  apply touches_driver. intros f. destruct (driver_restart p env f) as [r f'] eqn:Hd.
  by apply (dl_restart _ _ laws) in Hd as [Hd _].
Qed.
Lemma touches_stop p : touches (p_id p) (on_host (driver_stop p)).
Proof.
  apply touches_driver. intros f. destruct (driver_stop p f) as [r f'] eqn:Hd.
  by apply (dl_stop _ _ laws) in Hd as [Hd _].
Qed.
Lemma touches_state id p : touches id (on_host (driver_state p)).
Proof.
  apply touches_driver. intros f id' _. destruct (driver_state p f) as [r f'] eqn:Hd.
  by apply (dl_state _ _ laws) in Hd as [Hd _].
Qed.

Ltac touch := repeat first
  [ match goal with |- forall _, _ => intro end
  | apply materialize_quiet | apply gateway_quiet | apply admin_quiet | apply ensure_database_quiet
  | apply resolve_env_quiet | apply health_quiet
  | apply touches_start | apply touches_restart | apply touches_stop | apply touches_state | apply touches_host
  | apply touches_list | apply touches_event | apply touches_delete
  | apply touches_update; intros ?; done
  | apply touches_registry_get | apply keeps_attempt
  | apply keeps_bind; [apply _| |]
  | apply keeps_ret; apply _ | apply keeps_fail; apply _
  | apply keeps_reads; apply _ | progress case_match ].

Lemma refresh_touches id : touches id (refresh_gateway sql_fault sql_now json_pretty gateway).
Proof. unfold refresh_gateway, running_projects. touch. Qed.

Lemma start_touches id : touches id (start sql_fault sql_now json_text json_pretty gateway id).
Proof.
  unfold start. apply touches_get. intros p <-. touch.
Qed.

Lemma stop_touches id : touches id (stop sql_fault sql_now json_pretty gateway id).
Proof.
  unfold stop. apply touches_get. intros p <-. touch.
Qed.

Lemma schema_update_touches id sha :
  touches id (schema_update sql_fault sql_now json_text json_pretty gateway id sha).
Proof.
  unfold schema_update. apply touches_get. intros p <-.
  destruct (p_schema_ref p) as [repo path r|path].
  - rewrite bind_ret. set (q := with_schema_ref _ p). change (p_id p) with (p_id q).
    touch.
  - rewrite bind_fail. touch.
Qed.

Lemma delete_touches id drop :
  touches id (delete_project sql_fault sql_now json_pretty gateway id drop).
Proof.
  unfold delete_project. apply touches_get. intros p <-.
  touch.
Qed.

Lemma create_touches p : touches (p_id p) (create sql_fault sql_now json_text json_pretty gateway p).
Proof.
  unfold create. do 2 (apply keeps_bind; [apply _|touch|intros _]).
  set (q := set_status Provisioning p). change (p_id p) with (p_id q). cbv zeta.
  apply keeps_bind; [apply _| |intros _].
  { unfold register. touch. apply touches_create. }
  apply keeps_bind; [apply _|touch|intros _]. unfold assign_upstream.
  assert (Hrest : forall q', p_id q' = p_id q -> touches (p_id q)
    (env ← on_host (resolve_env json_text q');
     started ← attempt (on_host (driver_start q' env));
     match started with
     | inr e => update_status sql_fault sql_now (p_id q') Failed ;; fail e
     | inl h => set_upstream sql_fault sql_now (p_id q') (Some (h_upstream h)) ;;
                update_status sql_fault sql_now (p_id q') Running ;;
                refresh_gateway sql_fault sql_now json_pretty gateway
     end)).
  { intros q' <-. touch. }
  destruct (p_upstream q) as [u|].
  - rewrite bind_ret. by apply Hrest.
  - apply keeps_assoc, keeps_bind; [apply _|touch|intros port].
    apply keeps_assoc, keeps_bind; [apply _|touch|intros _]. rewrite bind_ret. by apply Hrest.
Qed.

Lemma reconcile_touches p :
  touches (p_id p) (reconcile_one sql_fault sql_now json_text json_pretty gateway p).
Proof.
  unfold reconcile_one. apply keeps_bind; [apply _|apply touches_state|]. intros st.
  destruct (decide_action _ _); [touch|apply start_touches|apply stop_touches].
Qed.

Lemma probe_touches p : touches (p_id p) (probe_health sql_fault sql_now p).
Proof. unfold probe_health. touch. Qed.
End Spec.
