(* ===== verification/FleetSpec.v ===== *)
(** * The fleet: isolation, routing, convergence, backups

    The properties of the control plane, over the lemmas of [ProvisionerSpec]; and the
    operations on the whole fleet ([atomo_control_plane/src/ops.rs]): backup, guarded restore,
    health. *)

From stdpp Require Import pretty.
From S2P Require Import Prelude Json Registry Driver Provisioner ProvisionerSpec.

(** ** What a routing configuration means *)

Section Caddy.
(** Does a pattern of the configuration match a host or a header value?  (Caddy decides.) *)
Variable caddy_match : string -> string -> bool.

Definition any_match (patterns : option Value) (s : string) : bool :=
  match patterns with
  | Some (VArray l) => existsb (fun v => match v with VString p => caddy_match p s | _ => false end) l
  | _ => false
  end.

(** A matcher of the kinds the gateway writes. *)
Definition matcher_accepts (host : string) (project : option string) (m : Value) : bool :=
  any_match (obj_get "host" m) host ||
  match project with
  | Some id => any_match (obj_get "header" m ≫= obj_get "X-Atomo-Project") id
  | None => false
  end.

Definition route_accepts (host : string) (project : option string) (r : Value) : bool :=
  match obj_get "match" r with
  | Some (VArray ms) => existsb (matcher_accepts host project) ms
  | _ => false
  end.

Definition route_dial (r : Value) : option string :=
  match obj_get "handle" r with
  | Some (VArray [h]) =>
      match obj_get "upstreams" h with
      | Some (VArray [u]) => match obj_get "dial" u with Some (VString d) => Some d | _ => None end
      | _ => None
      end
  | _ => None
  end.

Fixpoint obj_path (keys : list string) (v : Value) : option Value :=
  match keys with
  | [] => Some v
  | k :: rest => match obj_get k v with Some v' => obj_path rest v' | None => None end
  end.

Definition config_routes (cfg : Value) : list Value :=
  match obj_path ["apps"; "http"; "servers"; "srv0"; "routes"]%string cfg with
  | Some (VArray l) => l
  | _ => []
  end.

(** Every route is terminal: the first that accepts takes the request. *)
Definition caddy_target (cfg : Value) (host : string) (project : option string) : option string :=
  head (filter (fun r => route_accepts host project r = true) (config_routes cfg)) ≫= route_dial.

(** The specification: the first project that claims the request. *)
Definition claims (host : string) (project : option string) (p : Project) : bool :=
  match p_upstream p with Some u => non_empty u | None => false end &&
  (existsb (fun h => caddy_match h host) (project_hosts p) ||
   match project with Some id => caddy_match (p_id p) id | None => false end).

Lemma any_match_strings l s :
  any_match (Some (VArray (VString <$> l))) s = existsb (fun p => caddy_match p s) l.
Proof. cbn. induction l as [|p l IH]; cbn; [done|]. by rewrite <-IH. Qed.

Ltac known := repeat first [rewrite decide_True by done | rewrite decide_False by done].

(** Read one member of an object the gateway made. *)
Ltac member :=
  rewrite obj_get_json; cbn [assoc];
  known;
  cbn -[obj_get json_object any_match routes].

Lemma route_accepts_host hosts u host project :
  route_accepts host project (route (host_matcher hosts) (reverse_proxy u)) =
  existsb (fun h => caddy_match h host) hosts.
Proof.
  unfold route_accepts, route. member. unfold matcher_accepts, host_matcher. member.
  rewrite any_match_strings, orb_false_r. destruct project; [member|]; cbn; by rewrite ?orb_false_r.
Qed.

Lemma route_accepts_header id u host project :
  route_accepts host project (route (header_matcher id) (reverse_proxy u)) =
  match project with Some p => caddy_match id p | None => false end.
Proof.
  unfold route_accepts, route. member. unfold matcher_accepts, header_matcher. member.
  destruct project as [p|]; [|done]. member. member. cbn. by rewrite !orb_false_r.
Qed.

Lemma route_dial_route m u : route_dial (route m (reverse_proxy u)) = Some u.
Proof. unfold route_dial, route. member. unfold reverse_proxy. member. by member. Qed.

Lemma config_routes_gateway ps : config_routes (gateway_config ps) = routes ps.
Proof. unfold config_routes, gateway_config. cbv zeta. cbn [obj_path]. by do 5 member. Qed.

(** The routes of one project, first match first. *)
Lemma project_routes_target p host project :
  head (filter (fun r => route_accepts host project r = true) (project_routes p)) ≫= route_dial =
  if claims host project p then p_upstream p else None.
Proof.
  unfold project_routes, claims. destruct (p_upstream p) as [u|]; [|done].
  destruct (non_empty u); [|done]. cbn [andb].
  destruct (project_hosts p) as [|h hs] eqn:Hh.
  - cbn [app existsb orb]. rewrite filter_cons, route_accepts_header.
    destruct project as [id|]; [destruct (caddy_match (p_id p) id)|];
      known; cbn; by rewrite ?route_dial_route.
  - rewrite <-Hh. cbn [app]. rewrite !filter_cons, route_accepts_host, route_accepts_header, Hh.
    destruct (existsb _ _); known; cbn [orb].
    + cbn. by rewrite route_dial_route.
    + destruct project as [id|]; [destruct (caddy_match (p_id p) id)|];
      known; cbn; by rewrite ?route_dial_route.
Qed.

Lemma gateway_target ps host project :
  caddy_target (gateway_config ps) host project =
  head (filter (fun p => claims host project p = true) ps) ≫= p_upstream.
Proof.
  unfold caddy_target. rewrite config_routes_gateway. unfold routes.
  induction ps as [|p ps IH]; [done|]. cbn [mbind list_bind]. rewrite filter_app, filter_cons.
  pose proof (project_routes_target p host project) as Hp.
  destruct (claims host project p) eqn:Hc; known.
  - unfold claims in Hc. destruct (p_upstream p) as [u|] eqn:Hu; [|done].
    destruct (filter _ (project_routes p)) as [|r rs]; [done|].
    change (route_dial r = p_upstream p). by rewrite Hu.
  - destruct (filter _ (project_routes p)) as [|r rs] eqn:Hf; [done|]. exfalso.
    assert (Hr : r ∈ project_routes p) by (eapply list_elem_of_filter; rewrite Hf; left).
    unfold project_routes in Hr. destruct (p_upstream p) as [u|]; [|by apply not_elem_of_nil in Hr].
    destruct (non_empty u); [|by apply not_elem_of_nil in Hr].
    apply elem_of_app in Hr as [Hr|Hr%list_elem_of_singleton].
    + destruct (project_hosts p); [by apply not_elem_of_nil in Hr|].
      apply list_elem_of_singleton in Hr as ->. cbn in Hp. by rewrite route_dial_route in Hp.
    + subst r. cbn in Hp. by rewrite route_dial_route in Hp.
Qed.
End Caddy.

Section Fleet.
Context {ho : HashOrder} {F : Type} {host : Host F} {driver : Driver F} {secrets : SecretStore F}.
Variable sql_fault : nat -> option string.
Variable sql_now : nat -> string.
Variable json_text json_pretty : Value -> string.
Variable gateway : CaddyGateway.

Abbreviation refresh := (refresh_gateway sql_fault sql_now json_pretty gateway).
Abbreviation start := (start sql_fault sql_now json_text json_pretty gateway).
Abbreviation stop := (stop sql_fault sql_now json_pretty gateway).
Abbreviation create := (create sql_fault sql_now json_text json_pretty gateway).
Abbreviation schema_update := (schema_update sql_fault sql_now json_text json_pretty gateway).
Abbreviation delete_project := (delete_project sql_fault sql_now json_pretty gateway).
Abbreviation reconcile_one := (reconcile_one sql_fault sql_now json_text json_pretty gateway).
Abbreviation reconcile_all := (reconcile_all sql_fault sql_now json_text json_pretty gateway).
Abbreviation tick := (tick sql_fault sql_now json_text json_pretty gateway).
Abbreviation handle := (handle sql_fault sql_now json_text json_pretty gateway).

(** An instance that is to run runs; one that is to stop does not run and does not fail. *)
Definition settled (want : DesiredState) (v : InstanceState) : Prop :=
  match want with
  | WantRunning => v = IRunning
  | WantStopped => v = IStopped \/ v = IUnknown
  end.

(** ** What successful statements did *)

Lemma sql_inv {A} (body : string -> Fleet F -> (A * Fleet F) + string) s a s' :
  sql sql_fault sql_now body s = (inl a, s') ->
  body (sql_now (fl_statements s)) (count_statement s) = inl (a, s').
Proof.
  unfold sql. cbv zeta. destruct (sql_fault _); [done|].
  destruct (body _ _) as [[a1 s1]|e]; [|done]. by intros [= -> ->].
Qed.

Lemma list_inv (s : Fleet F) ps s' : registry_list sql_fault sql_now s = (inl ps, s') ->
  ps = merge_sort by_id (hvalues (fl_projects s)) /\ s' = count_statement s.
Proof. intros Hs%sql_inv. by injection Hs as <- <-. Qed.

Lemma update_inv id f (s : Fleet F) s' : update_row sql_fault sql_now id f s = (inl tt, s') ->
  fl_host s' = fl_host s /\
  fl_projects s' = alter (fun p => let p := f p in
    stamped (p_created_at p) (sql_now (fl_statements s)) p) id (fl_projects s).
Proof. intros Hs%sql_inv. by injection Hs as <-. Qed.

Lemma event_inv id a d (s : Fleet F) s' : record_event sql_fault sql_now id a d s = (inl tt, s') ->
  fl_host s' = fl_host s /\ fl_projects s' = fl_projects s.
Proof. intros Hs%sql_inv. by injection Hs as <-. Qed.

Lemma host_inv {A} (m : E F A) s a s' : on_host m s = (inl a, s') ->
  fl_projects s' = fl_projects s /\ m (fl_host s) = (inl a, fl_host s').
Proof. unfold on_host. destruct (m (fl_host s)) as [r f]. by intros [= -> <-]. Qed.

(** ** The gateway after a successful operation *)

Definition served_projects (ps : gmap string Project) : list Project :=
  filter (fun p => served p = true) (merge_sort by_id (hvalues ps)).

(** The machine just wrote and loaded the routes of the served projects. *)
Definition routed (s : Fleet F) : Prop :=
  exists f, gateway_apply json_pretty gateway (served_projects (fl_projects s)) f = (inl tt, fl_host s).

Lemma refresh_routed s s' : refresh s = (inl tt, s') -> routed s' /\ fl_projects s' = fl_projects s.
Proof.
  unfold refresh_gateway, running_projects.
  intros (ps & s1 & (l & s2 & Hl & Hps)%E_bind_inv & Hg)%E_bind_inv.
  apply list_inv in Hl as [-> ->]. injection Hps as <- <-.
  apply host_inv in Hg as [Hp Hg]. cbn in Hp. split; [|done].
  eexists. rewrite Hp. exact Hg.
Qed.

(** Peel the successful steps of a computation. *)
Ltac steps H :=
  repeat match type of H with (_ ≫= _) _ = _ => apply E_bind_inv in H as (? & ? & ? & H) end.

Lemma start_routed id s s' : start id s = (inl tt, s') -> routed s'.
Proof. unfold start. intros Hs. steps Hs. by apply refresh_routed in Hs as [Hs _]. Qed.
Lemma stop_routed id s s' : stop id s = (inl tt, s') -> routed s'.
Proof. unfold stop. intros Hs. steps Hs. by apply refresh_routed in Hs as [Hs _]. Qed.
Lemma schema_update_routed id r s s' : schema_update id r s = (inl tt, s') -> routed s'.
Proof. unfold schema_update. intros Hs. steps Hs. by apply refresh_routed in Hs as [Hs _]. Qed.
Lemma delete_routed id d s s' : delete_project id d s = (inl tt, s') -> routed s'.
Proof. unfold delete_project. intros Hs. steps Hs. by apply refresh_routed in Hs as [Hs _]. Qed.
Lemma create_routed p s s' : create p s = (inl tt, s') -> routed s'.
Proof.
  unfold create. intros Hs. steps Hs.
  match type of Hs with (match ?r with _ => _ end) _ = _ => destruct r as [h|e] end; steps Hs;
    [|discriminate Hs]. by apply refresh_routed in Hs as [Hs _].
Qed.

(** The requests that change the fleet, and the project they are about. *)
Definition target (r : ApiRequest) : option string :=
  match r with
  | Healthz | ListProjects | GetProject _ | ProjectHealth _ => None
  | CreateProjectReq c => Some (cr_id c)
  | StartProject id | StopProject id | SchemaUpdate id _ | DeleteProject id _ => Some id
  end.

Lemma answered_inv ok m (s : Fleet F) code b s' :
  answered ok m s = ((code, b), s') -> code < 400 -> m s = (inl b, s').
Proof.
  unfold answered. destruct (m s) as [[b1|e] s1]; intros [= <- <- <-]; [done|].
  intros Hc. exfalso. by destruct e; cbn in Hc; lia.
Qed.

Lemma bind_tt_inv {A} (m : E (Fleet F) unit) (k : E (Fleet F) A) s b s' :
  (m ;; k) s = (inl b, s') -> exists s1, m s = (inl tt, s1) /\ k s1 = (inl b, s').
Proof. intros ([] & s1 & H1 & H2)%E_bind_inv. by exists s1. Qed.

Lemma routed_same s s' : fl_projects s' = fl_projects s -> fl_host s' = fl_host s -> routed s -> routed s'.
Proof. unfold routed. by intros -> ->. Qed.

Lemma attempt_get_inv id (s : Fleet F) r s' :
  attempt (registry_get sql_fault sql_now id) s = (r, s') ->
  fl_projects s' = fl_projects s /\ fl_host s' = fl_host s.
Proof.
  unfold attempt. destruct (registry_get _ _ id s) as [q s1] eqn:Hg. apply get_inv in Hg as [-> _].
  by intros [= _ <-].
Qed.

Lemma handle_routed r s code b s' :
  handle r s = ((code, b), s') -> code < 400 -> is_Some (target r) -> routed s'.
Proof.
  intros Hh Hc [id Ht].
  destruct r as [| |c|id'|id'|id'|id' sha|id' d|id']; try done; cbn [handle] in Hh;
    apply answered_inv in Hh; try done.
  - apply E_bind_inv in Hh as (now & s1 & _ & Hh). apply bind_tt_inv in Hh as (s2 & Hcr & Hh).
    apply E_bind_inv in Hh as (got & s3 & Hg & [= _ <-]). apply attempt_get_inv in Hg as [H1 H2].
    apply (routed_same s2); [done..|]. by eapply create_routed.
  - apply bind_tt_inv in Hh as (s1 & Hs & [= _ <-]). by eapply start_routed.
  - apply bind_tt_inv in Hh as (s1 & Hs & [= _ <-]). by eapply stop_routed.
  - apply bind_tt_inv in Hh as (s1 & Hs & [= _ <-]). by eapply schema_update_routed.
  - apply bind_tt_inv in Hh as (s1 & Hs & [= _ <-]). by eapply delete_routed.
Qed.

(** ** One project at a time *)

Variable view : F -> string -> InstanceState.
Hypothesis laws : DriverLaws driver view.
Hypothesis frame : HostFrame host secrets view.

Abbreviation elsewhere := (elsewhere view).
Abbreviation untouched := (untouched view).

Lemma answered_keeps (R : Fleet F -> Fleet F -> Prop) ok m : keeps R m -> forall s, R s (answered ok m s).2.
Proof. intros Hm s. unfold answered. pose proof (Hm s). by destruct (m s) as [[b|e] s']. Qed.

(** A request touches at most the project it is about, whether it succeeds or fails. *)
Lemma handle_touches r id s : default id (target r) = id -> elsewhere id s (handle r s).2.
Proof.
  intros Ht. pose proof (elsewhere_refl view id) as Hrefl. pose proof (elsewhere_trans view id) as Htr.
  assert (Hret : forall A (a : A), keeps (elsewhere id) (mret a)) by (intros; apply keeps_ret; apply _).
  destruct r as [| |c|id'|id'|id'|id' sha|id' d|id']; cbn in Ht; subst; cbn [handle];
    try (apply answered_keeps).
  - cbn [snd]. apply Hrefl.
  - apply keeps_bind; [apply _|apply touches_list|intros; apply Hret].
  - apply keeps_bind; [apply _| |intros now].
    { apply touches_host, quiet_total, frame. }
    apply keeps_bind; [apply _|exact (create_touches _ _ _ _ _ view laws frame (into_project now c))|intros _].
    apply keeps_bind; [apply _|apply keeps_attempt, touches_registry_get|intros; apply Hret].
  - apply keeps_bind; [apply _|apply touches_registry_get|intros; apply Hret].
  - apply keeps_bind; [apply _|by apply start_touches|intros; apply Hret].
  - apply keeps_bind; [apply _|by apply stop_touches|intros; apply Hret].
  - apply keeps_bind; [apply _|by apply schema_update_touches|intros; apply Hret].
  - apply keeps_bind; [apply _|by apply delete_touches|intros; apply Hret].
  - apply keeps_bind; [apply _|apply touches_registry_get|intros; apply Hret].
Qed.

(** ** Convergence *)

(** The project's instance is where its desired state wants it. *)
Definition converged (p : Project) (s : Fleet F) : Prop :=
  settled (p_desired_state p) (view (fl_host s) (p_id p)).

Definition same_instances (s s' : Fleet F) : Prop := view (fl_host s') = view (fl_host s).
#[local] Instance same_instances_refl : Reflexive same_instances.
Proof. done. Qed.
#[local] Instance same_instances_trans : Transitive same_instances.
Proof. intros a b c H1 H2. unfold same_instances in *. congruence. Qed.

Lemma host_quiet {A} (m : E F A) : keeps (same_view view) m -> keeps same_instances (on_host m).
Proof.
  intros Hm s. unfold on_host, same_instances. pose proof (Hm (fl_host s)). by destruct (m (fl_host s)).
Qed.

Lemma refresh_quiet s s' : refresh s = (inl tt, s') -> view (fl_host s') = view (fl_host s).
Proof.
  unfold refresh_gateway, running_projects. intros Hr. steps Hr.
  match goal with H : (_ ≫= _) s = _ |- _ => apply E_bind_inv in H as (? & ? & Hl & [= <- <-]) end.
  apply list_inv in Hl as [_ ->].
  match type of Hr with on_host ?m _ = _ => pose proof (host_quiet m) as Hq end.
  specialize (Hq ltac:(by apply gateway_quiet) (count_statement s)). by rewrite Hr in Hq.
Qed.

Lemma env_quiet p s env s' : on_host (resolve_env json_text p) s = (inl env, s') ->
  view (fl_host s') = view (fl_host s).
Proof.
  intros He. pose proof (host_quiet (resolve_env json_text p)
    ltac:(by apply resolve_env_quiet) s) as Hq. by rewrite He in Hq.
Qed.

Lemma start_running id (s s' : Fleet F) : keyed s -> start id s = (inl tt, s') -> view (fl_host s') id = IRunning.
Proof.
  intros Hk Hs. unfold start in Hs. apply E_bind_inv in Hs as (p & s1 & Hg & Hs).
  apply get_inv in Hg as [-> Hp]. pose proof (Hk _ _ Hp) as <-.
  apply E_bind_inv in Hs as (env & s2 & _ & Hs). apply E_bind_inv in Hs as (h & s3 & Hd & Hs).
  apply host_inv in Hd as [_ Hd]. apply (dl_start _ _ laws) in Hd as [_ [Hv _]].
  apply bind_tt_inv in Hs as (s4 & [H4 _]%update_inv & Hs).
  apply bind_tt_inv in Hs as (s5 & [H5 _]%update_inv & Hs).
  apply bind_tt_inv in Hs as (s6 & [H6 _]%event_inv & Hs). apply refresh_quiet in Hs.
  by rewrite Hs, H6, H5, H4.
Qed.

Lemma stop_stopped id (s s' : Fleet F) : keyed s -> stop id s = (inl tt, s') ->
  view (fl_host s') id = IStopped /\
  exists p t, fl_projects s !! id = Some p /\
    fl_projects s' !! id = Some (stamped (p_created_at p) t (set_status Stopped p)).
Proof.
  intros Hk Hs. unfold stop in Hs. apply E_bind_inv in Hs as (p & s1 & Hg & Hs).
  apply get_inv in Hg as [-> Hp]. pose proof (Hk _ _ Hp) as <-.
  apply bind_tt_inv in Hs as (s3 & Hd & Hs).
  apply host_inv in Hd as [P3 Hd]. apply (dl_stop _ _ laws) in Hd as [_ Hv].
  apply bind_tt_inv in Hs as (s5 & [H5 P5]%update_inv & Hs).
  apply bind_tt_inv in Hs as (s6 & [H6 P6]%event_inv & Hs).
  pose proof (refresh_routed _ _ Hs) as [_ P7]. apply refresh_quiet in Hs.
  split; [by rewrite Hs, H6, H5|]. exists p. eexists. split; [done|].
  rewrite P7, P6, P5, P3. cbn. by rewrite lookup_alter_eq, Hp.
Qed.

Lemma reconcile_converges p (s s' : Fleet F) :
  keyed s -> reconcile_one p s = (inl tt, s') -> converged p s'.
Proof.
  intros Hk Hr. unfold reconcile_one in Hr. apply E_bind_inv in Hr as (st & s1 & Hd & Hr).
  pose proof Hd as Hd'. apply host_inv in Hd as [P1 Hd]. apply (dl_state _ _ laws) in Hd as [Hv Hst].
  assert (Hk1 : keyed s1) by (intros id q; rewrite P1; apply Hk). unfold converged.
  destruct (decide_action (p_desired_state p) st) eqn:Ha.
  - injection Hr as <-. rewrite Hv, <-Hst. destruct (p_desired_state p), st; try done; cbn; tauto.
  - apply start_running in Hr; [|done]. rewrite Hr. by destruct (p_desired_state p), st.
  - apply stop_stopped in Hr as [Hr _]; [|done]. rewrite Hr.
    destruct (p_desired_state p), st; try done; cbn; tauto.
Qed.

(** Rows that exist go on existing: only a deletion removes one. *)
Definition rows_kept (s s' : Fleet F) : Prop :=
  forall id, is_Some (fl_projects s !! id) -> is_Some (fl_projects s' !! id).
#[local] Instance rows_kept_refl : Reflexive rows_kept.
Proof. by intros s id. Qed.
#[local] Instance rows_kept_trans : Transitive rows_kept.
Proof. intros a b c H1 H2 id Hi. auto. Qed.

Lemma kept_sql {A} (body : string -> Fleet F -> (A * Fleet F) + string) :
  (forall now s a s', body now s = inl (a, s') -> rows_kept s s') ->
  keeps rows_kept (sql sql_fault sql_now body).
Proof.
  intros Hb s. unfold sql. cbv zeta. destruct (sql_fault _); [by intros id Hi|].
  destruct (body _ _) as [[a s']|e] eqn:He; [|by intros id Hi]. by apply Hb in He.
Qed.
Lemma kept_update id f : keeps rows_kept (update_row sql_fault sql_now id f).
Proof.
  apply kept_sql. intros now s a s' [= _ <-] id' [p Hp]. cbn.
  destruct (decide (id = id')) as [->|Hne].
  - rewrite lookup_alter_eq, Hp. by eexists.
  - rewrite lookup_alter_ne by done. by exists p.
Qed.
Lemma kept_event id a d : keeps rows_kept (record_event sql_fault sql_now id a d : E (Fleet F) unit).
Proof. apply kept_sql. intros now s u s' [= _ <-] id' Hi. exact Hi. Qed.
Lemma kept_list : keeps rows_kept (registry_list sql_fault sql_now : E (Fleet F) _).
Proof. apply kept_sql. intros now s u s' [= _ <-] id' Hi. exact Hi. Qed.
Lemma kept_get id : keeps rows_kept (registry_get sql_fault sql_now id : E (Fleet F) _).
Proof. intros s. destruct (registry_get _ _ id s) as [r s'] eqn:Hg. apply get_inv in Hg as [-> _]. by intros id' Hi. Qed.
Lemma kept_host {A} (m : E F A) : keeps rows_kept (on_host m).
Proof. intros s id Hi. unfold on_host. by destruct (m (fl_host s)). Qed.

Ltac kept := repeat first
  [ match goal with |- forall _, _ => intro end
  | apply kept_update | apply kept_event | apply kept_list | apply kept_get | apply kept_host
  | apply keeps_attempt | apply keeps_bind; [apply _| |] | apply keeps_ret; apply _ | progress case_match ].

Lemma kept_reconcile p : keeps rows_kept (reconcile_one p).
Proof. unfold reconcile_one, Provisioner.start, Provisioner.stop, refresh_gateway, running_projects. kept. Qed.
Lemma kept_probe p : keeps rows_kept (probe_health sql_fault sql_now p).
Proof. unfold probe_health. kept. Qed.

(** Reconciling this project always succeeds, as long as it is registered. *)
Definition healthy (p : Project) : Prop :=
  forall s, keyed s -> is_Some (fl_projects s !! p_id p) -> exists s', reconcile_one p s = (inl tt, s').

Lemma keyed_after id s s' : elsewhere id s s' -> keyed s -> keyed s'.
Proof. intros He Hk. by destruct (He Hk). Qed.

Lemma attempt_snd {S A} (m : E S A) s : (attempt m s).2 = (m s).2.
Proof. unfold attempt. by destruct (m s). Qed.

Lemma reconcile_all_cons p ps s :
  (reconcile_all (p :: ps) s).2 =
  (reconcile_all ps (probe_health sql_fault sql_now p (reconcile_one p s).2).2).2.
Proof.
  cbn [Provisioner.reconcile_all]. unfold mbind, E_bind, attempt.
  destruct (reconcile_one p s) as [r s1]. cbn [snd].
  assert (Hp : forall s, exists s', probe_health sql_fault sql_now p s = (inl tt, s')).
  { intros s0. unfold probe_health, mbind, E_bind, attempt, on_host, mret, E_ret.
    assert (Hh : exists v f, health_of p (fl_host s0) = (inl v, f)).
    { unfold health_of, tcp_reachable, mbind, E_bind, total, mret, E_ret.
      destruct (utc_now _) as [t f]. destruct (p_upstream p); [|by eexists _, _].
      destruct (tcp_probe _ f) as [[[]|] f']; by eexists _, _. }
    destruct Hh as (v & f & ->). destruct (set_last_health _ _ _ _ _) as [r' s']. by eexists. }
  destruct (Hp s1) as [s2 ->]. done.
Qed.

Lemma probe_quiet p s : view (fl_host (probe_health sql_fault sql_now p s).2) = view (fl_host s).
Proof.
  assert (Hk : keeps same_instances (probe_health sql_fault sql_now p)); [|exact (Hk s)].
  unfold probe_health. apply keeps_bind; [apply _|by apply host_quiet, health_quiet|intros v].
  apply keeps_bind; [apply _|apply keeps_attempt|intros; apply keeps_ret; apply _].
  intros s0. unfold set_last_health, update_row, sql, same_instances. cbv zeta. by destruct (sql_fault _).
Qed.

Lemma reconcile_all_touches ps id s :
  ~ id ∈ p_id <$> ps -> keyed s ->
  view (fl_host (reconcile_all ps s).2) id = view (fl_host s) id.
Proof.
  revert s. induction ps as [|p ps IH]; intros s Hid Hk; [done|]. rewrite reconcile_all_cons.
  cbn [fmap list_fmap] in Hid. apply not_elem_of_cons in Hid as [Hne Hid].
  pose proof (reconcile_touches sql_fault sql_now json_text json_pretty gateway view laws frame p s Hk) as [_ Hv _ Hk1].
  pose proof (probe_touches sql_fault sql_now view frame p _ Hk1) as [_ Hv2 _ Hk2].
  by rewrite IH, Hv2, Hv.
Qed.

Lemma reconcile_all_converges ps p s :
  keyed s -> p ∈ ps -> NoDup (p_id <$> ps) -> is_Some (fl_projects s !! p_id p) -> healthy p ->
  converged p (reconcile_all ps s).2.
Proof.
  revert s. induction ps as [|q ps IH]; intros s Hk Hin Hnd Hrow Hh; [by apply not_elem_of_nil in Hin|].
  cbn [fmap list_fmap] in Hnd. apply NoDup_cons in Hnd as [Hq Hnd]. rewrite reconcile_all_cons.
  pose proof (reconcile_touches sql_fault sql_now json_text json_pretty gateway view laws frame q s Hk) as [_ _ _ Hk1].
  pose proof (probe_touches sql_fault sql_now view frame q _ Hk1) as [_ _ _ Hk2].
  apply elem_of_cons in Hin as [->|Hin].
  - unfold converged. rewrite reconcile_all_touches by done. rewrite probe_quiet.
    destruct (Hh s Hk Hrow) as [s' Hs]. rewrite Hs. by apply (reconcile_converges q s).
  - apply IH; [done|done|done| |done]. apply (kept_probe q), (kept_reconcile q), Hrow.
Qed.

Lemma listed_once (ps : gmap string Project) (s : Fleet F) :
  keyed s -> fl_projects s = ps ->
  NoDup (p_id <$> merge_sort by_id (hvalues ps)) /\
  forall id p, ps !! id = Some p -> p ∈ merge_sort by_id (hvalues ps) /\ p_id p = id.
Proof.
  intros Hk <-. split.
  - assert (Hp : p_id <$> merge_sort by_id (hvalues (fl_projects s)) ≡ₚ (map_to_list (fl_projects s)).*1).
    { rewrite merge_sort_Permutation. unfold hvalues. rewrite horder_perm, <-list_fmap_compose.
      apply (reflexive_eq (R := (≡ₚ))). apply list_fmap_ext. intros i [k p] Hi. cbn.
      apply Hk. apply elem_of_map_to_list. by eapply list_elem_of_lookup_2. }
    rewrite Hp. apply NoDup_fst_map_to_list.
  - intros id p Hp. split; [|by apply Hk]. rewrite merge_sort_Permutation.
    apply elem_of_hvalues. by exists id.
Qed.

Lemma tick_spec id p s r s' :
  keyed s -> fl_projects s !! id = Some p -> healthy p ->
  sql_fault (fl_statements s) = None -> tick s = (r, s') -> converged p s'.
Proof.
  intros Hk Hp Hh Hf Ht. pose proof (Hk _ _ Hp) as Hid.
  destruct (listed_once _ s Hk eq_refl) as [Hnd Hin]. destruct (Hin id p Hp) as [Hl _].
  unfold Provisioner.tick, mbind, E_bind, registry_list, sql in Ht. cbv zeta in Ht. rewrite Hf in Ht.
  cbn [fl_projects count_statement] in Ht.
  assert (Hs' : s' = (reconcile_all (merge_sort by_id (hvalues (fl_projects s))) (count_statement s)).2)
    by by rewrite Ht. rewrite Hs'.
  apply reconcile_all_converges; [exact Hk|done|done| |done]. cbn. rewrite Hid. by exists p.
Qed.
End Fleet.

(** ** Names that distinct projects share *)

Lemma replace_char_app a b s t :
  replace_char a b (s +:+ t) = replace_char a b s +:+ replace_char a b t.
Proof.
  induction s as [|c s IH]; [by rewrite str_app_nil|]. rewrite str_app_cons.
  unfold replace_char in *. cbn [string_map]. by rewrite IH, str_app_cons.
Qed.

Lemma byte_sum_mod acc s : 0 <= acc < 65536 -> 0 <= byte_sum acc s < 65536.
Proof.
  revert acc. induction s as [|a s IH]; intros acc Ha; [done|]. cbn [byte_sum]. apply IH.
  apply Z.mod_pos_bound. lia.
Qed.

Definition byte_of (a : Ascii.ascii) : Z := Z.of_nat (Ascii.nat_of_ascii a).
Lemma byte_sum_total acc s :
  0 <= acc < 65536 ->
  byte_sum acc s = (acc + foldr (fun a n => byte_of a + n) 0 (String.list_ascii_of_string s)) mod 65536.
Proof.
  revert acc. induction s as [|a s IH]; intros acc Ha; cbn [byte_sum String.list_ascii_of_string foldr].
  - rewrite Z.mod_small; lia.
  - rewrite IH by (apply Z.mod_pos_bound; lia). rewrite Zplus_mod_idemp_l. f_equal. unfold byte_of. lia.
Qed.

Lemma byte_sum_perm s t :
  String.list_ascii_of_string s ≡ₚ String.list_ascii_of_string t -> byte_sum 0 s = byte_sum 0 t.
Proof.
  intros Hp. rewrite !byte_sum_total by lia. do 2 f_equal.
  induction Hp; cbn [foldr]; [done|lia|lia|congruence].
Qed.

(** ** The properties *)

(** a request is about one project.  Whatever it does and wherever it fails, every
    other project keeps its row and its instance, entries of the audit log are only added
    and only for the project of the request, and the registry stays keyed by id. *)
Theorem requests_isolated `{HashOrder} {F : Type} `{Host F} `{Driver F} `{SecretStore F}
    (sql_fault : nat -> option string) (sql_now : nat -> string) (json_text json_pretty : Value -> string)
    (gateway : CaddyGateway) (view : F -> string -> InstanceState) (r : ApiRequest) (s : Fleet F) (id : string) :
  DriverLaws _ view -> HostFrame _ _ view -> keyed s -> target r <> Some id ->
  let s' := (handle sql_fault sql_now json_text json_pretty gateway r s).2 in
  fl_projects s' !! id = fl_projects s !! id /\
  view (fl_host s') id = view (fl_host s) id /\
  (exists rows, fl_audit s' = fl_audit s ++ rows /\ Forall (fun a => au_project a <> id) rows) /\
  keyed s'.
Proof.
  intros laws frame Hk Ht. cbv zeta.
  (* an id the request is about, different from [id] *)
  set (id0 := default (String slash id) (target r)).
  assert (Hne : id <> id0).
  { unfold id0. destruct (target r) as [t|]; cbn; [congruence|]. intros He.
    assert (Hl : String.length id = String.length (String slash id)) by by rewrite <-He.
    cbn in Hl. lia. }
  pose proof (handle_touches sql_fault sql_now json_text json_pretty gateway view laws frame r) as Htouch.
  destruct (target r) as [t|] eqn:Hr.
  - destruct (Htouch id0 s eq_refl Hk) as [Hrow Hv (rows & Ha & Hf) Hk'].
    split; [by apply Hrow|]. split; [by apply Hv|]. split; [|done]. exists rows. split; [done|].
    eapply Forall_impl; [exact Hf|]. intros a Ha0 He. apply Hne. etrans; [symmetry; exact He|exact Ha0].
  - destruct (Htouch id0 s eq_refl Hk) as [Hrow Hv (rows & Ha & Hf) Hk'].
    split; [by apply Hrow|]. split; [by apply Hv|]. split; [|done]. exists rows. split; [done|].
    eapply Forall_impl; [exact Hf|]. intros a Ha0 He. apply Hne. etrans; [symmetry; exact He|exact Ha0].
Qed.

(** the gateway follows the registry.  After a request that changed the fleet and
    succeeded, the last thing the machine did was to write and load a configuration; for
    whatever host and project header a request comes in, that configuration sends it to the
    upstream of the first project, by id, that is running with an upstream and claims the
    host (by hostname or alias) or the header, and nowhere when there is none. *)
Theorem gateway_follows_registry `{HashOrder} {F : Type} `{Host F} `{Driver F} `{SecretStore F}
    (sql_fault : nat -> option string) (sql_now : nat -> string) (json_text json_pretty : Value -> string)
    (gateway : CaddyGateway) (r : ApiRequest) (s s' : Fleet F) (code : Z) (b : ApiBody) :
  is_Some (target r) ->
  handle sql_fault sql_now json_text json_pretty gateway r s = ((code, b), s') -> code < 400 ->
  exists cfg f,
    (write_config gateway (json_pretty cfg) ;; reload_caddy gateway (json_pretty cfg)) f = (inl tt, fl_host s') /\
    forall caddy_match host project,
      caddy_target caddy_match cfg host project =
      head (filter (fun p => claims caddy_match host project p = true) (served_projects (fl_projects s')))
        ≫= p_upstream.
Proof.
  intros Ht Hh Hc. eapply handle_routed in Hh as [f Hf]; [|done|done].
  exists (gateway_config (served_projects (fl_projects s'))), f. split; [exact Hf|].
  intros caddy_match host project. apply gateway_target.
Qed.

(** C14: the reconciler converges, project by project.  After one pass, whatever failed for
    the others, every project whose reconciliation works is where its desired state wants
    it: a second look finds nothing left to do. *)
Theorem tick_converges `{HashOrder} {F : Type} `{Host F} `{Driver F} `{SecretStore F}
    (sql_fault : nat -> option string) (sql_now : nat -> string) (json_text json_pretty : Value -> string)
    (gateway : CaddyGateway) (view : F -> string -> InstanceState) (s : Fleet F) (id : string) (p : Project) :
  DriverLaws _ view -> HostFrame _ _ view -> keyed s -> fl_projects s !! id = Some p ->
  healthy sql_fault sql_now json_text json_pretty gateway p -> sql_fault (fl_statements s) = None ->
  settled (p_desired_state p)
    (view (fl_host (tick sql_fault sql_now json_text json_pretty gateway s).2) id).
Proof.
  intros laws frame Hk Hp Hh Hf. destruct (tick _ _ _ _ _ s) as [r s'] eqn:Ht.
  pose proof (tick_spec _ _ _ _ _ view laws frame id p s r s' Hk Hp Hh Hf Ht) as Hc.
  unfold converged in Hc. by rewrite (Hk _ _ Hp) in Hc.
Qed.

(** stopping a project does not last.  A stop that succeeds leaves the instance stopped
    and the row marked so, but the desired state is still what it was: for a project that
    is to run, the next pass of the reconciler starts it again. *)
Theorem stop_is_undone `{HashOrder} {F : Type} `{Host F} `{Driver F} `{SecretStore F}
    (sql_fault : nat -> option string) (sql_now : nat -> string) (json_text json_pretty : Value -> string)
    (gateway : CaddyGateway) (view : F -> string -> InstanceState) (s s1 : Fleet F) (id : string) (p : Project) :
  DriverLaws _ view -> HostFrame _ _ view -> keyed s ->
  fl_projects s !! id = Some p -> p_desired_state p = WantRunning ->
  stop sql_fault sql_now json_pretty gateway id s = (inl tt, s1) ->
  view (fl_host s1) id = IStopped /\
  exists q, fl_projects s1 !! id = Some q /\ p_status q = Stopped /\ p_desired_state q = WantRunning /\
    (healthy sql_fault sql_now json_text json_pretty gateway q -> sql_fault (fl_statements s1) = None ->
     view (fl_host (tick sql_fault sql_now json_text json_pretty gateway s1).2) id = IRunning).
Proof.
  intros laws frame Hk Hp Hd Hs.
  destruct (stop_stopped _ _ _ _ view laws frame id s s1 Hk Hs) as [Hv (p' & t & Hp' & Hq)].
  rewrite Hp in Hp'. injection Hp' as <-. split; [exact Hv|]. eexists. split; [exact Hq|].
  split; [done|]. split; [done|]. intros Hh Hf.
  pose proof (stop_touches sql_fault sql_now json_pretty gateway view laws frame id s Hk) as [_ _ _ Hk1].
  rewrite Hs in Hk1. cbn [snd] in Hk1. destruct (tick _ _ _ _ _ s1) as [r s'] eqn:Ht.
  pose proof (tick_spec _ _ _ _ _ view laws frame id _ s1 r s' Hk1 Hq Hh Hf Ht) as Hc.
  unfold converged in Hc. cbn in Hc. rewrite Hd, (Hk _ _ Hp) in Hc. cbn [snd].
  exact Hc.
Qed.

(** distinct projects may share a database and a port.  The database of a project is
    named after its id with hyphens made underscores, so ids that differ only there share
    one, and dropping one project's database is the very statement that drops the other's;
    the default port depends on the sum of the id's bytes, so ids that are permutations of
    each other collide. *)
Theorem ids_share_resources {F : Type} `{Host F} (s t : string) (u v : string) (f : F) :
  database_name (s +:+ "-" +:+ t) = database_name (s +:+ "_" +:+ t) /\
  drop_database_sql (s +:+ "-" +:+ t) = drop_database_sql (s +:+ "_" +:+ t) /\
  (String.list_ascii_of_string u ≡ₚ String.list_ascii_of_string v -> default_port u f = default_port v f).
Proof.
  assert (Hdb : database_name (s +:+ "-" +:+ t) = database_name (s +:+ "_" +:+ t)).
  { unfold database_name. f_equal. rewrite !replace_char_app. by f_equal. }
  split; [done|]. split; [unfold drop_database_sql; by rewrite Hdb|].
  intros Hp. unfold default_port. by rewrite (byte_sum_perm u v Hp).
Qed.

(** ** A machine that runs everything it is told to *)
Module FleetExamples.
#[local] Existing Instance enum_order.

(** The ids of the running instances. *)
Abbreviation Ids := (gset string).
#[local] Instance ids_host : Host Ids := {|
  run_program := fun _ _ f => (inl (mkOutput true EmptyString EmptyString), f);
  path_exists := fun _ _ => true;
  create_dir_all := fun _ f => (inl tt, f);
  write_file := fun _ _ f => (inl tt, f);
  copy_file := fun _ _ f => (inl tt, f);
  remove_file := fun _ f => (inl tt, f);
  env_var := fun _ _ => None;
  temp_dir := fun _ => "/tmp"%string;
  pg_exec := fun _ _ f => (inl tt, f);
  tcp_probe := fun _ f => (Some true, f);
  new_uuid := fun f => ("0-0"%string, f);
  utc_now := fun f => ("t"%string, f)
|}.
#[local] Instance ids_driver : Driver Ids := {|
  driver_name := "ids";
  driver_start := fun p _ f => (inl (mkHandle (p_id p) "127.0.0.1:4001" "ref"), {[p_id p]} ∪ f);
  driver_stop := fun p f => (inl tt, f ∖ {[p_id p]});
  driver_restart := fun p _ f => (inl (mkHandle (p_id p) "127.0.0.1:4001" "ref"), {[p_id p]} ∪ f);
  driver_state := fun p f => (inl (if decide (p_id p ∈ f) then IRunning else IStopped), f)
|}.
#[local] Instance ids_secrets : SecretStore Ids := {|
  secret_get := fun _ f => (inl "secret"%string, f);
  secret_put := fun _ _ f => (inl "1"%string, f)
|}.
Definition ids_view (f : Ids) (id : string) : InstanceState := if decide (id ∈ f) then IRunning else IStopped.

Lemma ids_laws : DriverLaws ids_driver ids_view.
Proof.
  unfold ids_view. split; cbn.
  - by intros p f r f' [= <- <-].
  - intros p env f r f' [= <- <-]. split; [|split; [rewrite decide_True by set_solver; done|done]].
    intros id Hne. apply decide_ext. set_solver.
  - intros p f r f' [= <- <-]. split; [|rewrite decide_False by set_solver; done].
    intros id Hne. apply decide_ext. set_solver.
  - intros p env f r f' [= <- <-]. split; [|split; [rewrite decide_True by set_solver; done|done]].
    intros id Hne. apply decide_ext. set_solver.
Qed.
Lemma ids_frame : HostFrame ids_host ids_secrets ids_view.
Proof. by split. Qed.

Definition never (_ : nat) : option string := None.
Definition at_t (_ : nat) : string := "t".
Definition text (_ : Value) : string := "{}".
Definition quiet_gateway : CaddyGateway := gateway_new EmptyString.

Definition site (id host : string) (want : DesiredState) : Project :=
  mkProject id id (Some host) [] "env:DB" (Volume "schema.ts") None None (VObject []) Provisioning
    want None "t" "t".
Definition fleet0 : Fleet Ids :=
  mkFleet {[ "blog"%string := site "blog" "blog.example.com" WantRunning ]} [] 0 ∅.

Lemma fleet0_keyed : keyed fleet0.
Proof. intros id p. cbn. by intros [<- <-]%lookup_singleton_Some. Qed.

(** Nothing fails on this machine. *)
Lemma all_healthy p : healthy never at_t text text quiet_gateway p.
Proof.
  intros s Hk [q Hq]. unfold reconcile_one, mbind, E_bind, on_host. cbn [driver_state ids_driver].
  set (st := if decide _ then _ else _).
  destruct (decide_action (p_desired_state p) st).
  - by eexists.
  - unfold Provisioner.start, registry_get, sql, mbind, E_bind. cbn. rewrite Hq. cbn. by eexists.
  - unfold Provisioner.stop, registry_get, sql, mbind, E_bind. cbn. rewrite Hq. cbn. by eexists.
Qed.

Lemma requests_isolated_witness :
  fl_projects (handle never at_t text text quiet_gateway (StopProject "shop") fleet0).2 !! "blog"%string =
  Some (site "blog" "blog.example.com" WantRunning).
Proof.
  destruct (requests_isolated never at_t text text quiet_gateway ids_view (StopProject "shop") fleet0 "blog"
    ids_laws ids_frame fleet0_keyed ltac:(discriminate)) as (H & _). rewrite H. reflexivity.
Defined.

Lemma gateway_follows_registry_witness :
  exists cfg, forall m, m "blog.example.com"%string "blog.example.com"%string = true ->
    caddy_target m cfg "blog.example.com" None = Some "127.0.0.1:4001"%string.
Proof.
  destruct (handle never at_t text text quiet_gateway (StartProject "blog") fleet0) as [[code b] s'] eqn:Hh.
  assert (Hs : code = 202 /\ served_projects (fl_projects s') =
    [set_status Running (with_upstream (Some "127.0.0.1:4001"%string) (site "blog" "blog.example.com" WantRunning))]).
  { vm_compute in Hh. injection Hh as <- _ <-. vm_compute. split; reflexivity. }
  destruct Hs as [-> Hs].
  destruct (gateway_follows_registry never at_t text text quiet_gateway (StartProject "blog") fleet0 s' 202 b
    ltac:(by eexists) Hh ltac:(lia)) as (cfg & f & _ & Hc).
  exists cfg. intros m Hm. rewrite Hc, Hs, filter_cons.
  match goal with |- context [claims m ?h ?pr ?p] => assert (Hcl : claims m h pr p = true) end.
  { unfold claims. cbn -[project_hosts].
    match goal with |- context [project_hosts ?p] =>
      assert (Hh' : project_hosts p = ["blog.example.com"%string]) by (vm_compute; reflexivity) end.
    rewrite Hh'. cbn. rewrite Hm. reflexivity. }
  rewrite decide_True by exact Hcl. reflexivity.
Defined.

Lemma tick_converges_witness :
  ids_view (fl_host (tick never at_t text text quiet_gateway fleet0).2) "blog" = IRunning.
Proof.
  pose proof (tick_converges never at_t text text quiet_gateway ids_view fleet0 "blog"
    (site "blog" "blog.example.com" WantRunning) ids_laws ids_frame fleet0_keyed eq_refl (all_healthy _) eq_refl) as H.
  exact H.
Defined.

Lemma stop_is_undone_witness :
  exists s1, stop never at_t text quiet_gateway "blog" fleet0 = (inl tt, s1) /\
    ids_view (fl_host s1) "blog" = IStopped /\
    ids_view (fl_host (tick never at_t text text quiet_gateway s1).2) "blog" = IRunning.
Proof.
  eexists. split; [vm_compute; reflexivity|].
  match goal with |- ids_view (fl_host ?s) _ = _ /\ _ => set (s1 := s) end.
  destruct (stop_is_undone never at_t text text quiet_gateway ids_view fleet0 s1 "blog"
    (site "blog" "blog.example.com" WantRunning) ids_laws ids_frame fleet0_keyed eq_refl eq_refl
    ltac:(vm_compute; reflexivity)) as (H & q & _ & _ & _ & Ht).
  split; [exact H|]. exact (Ht (all_healthy q) eq_refl).
Defined.

Lemma ids_share_resources_witness :
  database_name "my-shop" = database_name "my_shop" /\ default_port "ab" ∅ = default_port "ba" ∅.
Proof.
  destruct (ids_share_resources "my" "shop" "ab" "ba" (∅ : Ids)) as (H1 & _ & H2).
  split; [exact H1|]. apply H2. apply perm_swap.
Defined.
End FleetExamples.

(** * Backups, restores and fleet health ([atomo_control_plane/src/ops.rs])

    Each works on one project's database through [pg_dump], [pg_restore], [psql] and
    [aws]; a restore is refused unless the operator allowed it. *)

Inductive BackupDest : Type := LocalDir (dir : string) | S3Bucket (bucket : string).

Definition blank (s : string) : bool := bool_decide (trim s = EmptyString).

(** Characters that may go into a path or an object key *)
Definition safe_char (a : Ascii.ascii) : bool :=
  let n := Ascii.nat_of_ascii a in
  ((48 <=? n) && (n <=? 57) || (65 <=? n) && (n <=? 90) || (97 <=? n) && (n <=? 122) ||
   (n =? 45) || (n =? 95))%nat.
Definition underscore : Ascii.ascii := Ascii.ascii_of_nat 95.
Definition sanitize (s : string) : string := string_map (fun a => if safe_char a then a else underscore) s.
Definition artifact_name (project_id stamp : string) : string :=
  "atomo-" +:+ sanitize project_id +:+ "-" +:+ stamp +:+ ".dump".

Section Ops.
Context {F : Type} {host : Host F}.
Variable dump_stamp : string -> string.   (* a time as YYYYMMDDTHHMMSSZ *)

Definition dest_from_env (f : F) : BackupDest :=
  match env_var "ATOMO_BACKUP_S3_BUCKET" f with
  | Some bucket =>
      if blank bucket then
        LocalDir (match env_var "ATOMO_BACKUP_DIR" f with
                  | Some d => if blank d then "./backups" else d | None => "./backups" end)
      else S3Bucket (trim bucket)
  | None =>
      LocalDir (match env_var "ATOMO_BACKUP_DIR" f with
                | Some d => if blank d then "./backups" else d | None => "./backups" end)
  end.

Definition tool (what program : string) (args : list string) : E F unit :=
  _ ← checked_program EDriver EIo what program args; mret tt.

Definition run_pg_dump (database_url out_path : string) : E F unit :=
  tool "pg_dump" "pg_dump"
    ["--format=custom"; "--no-owner"; "--no-privileges"; "--file"; out_path; database_url]%string.

(** The staged file is removed whether the upload succeeds or not, but not when the
    program cannot be started. *)
Definition upload (tmp s3_uri : string) : E F unit := fun f =>
  match run_program "aws" ["s3"; "cp"; tmp; s3_uri]%string f with
  | (inr e, f') => (inr (EIo e), f')
  | (inl out, f') =>
      let '(_, f'') := remove_file tmp f' in
      if out_ok out then (inl tt, f'')
      else (inr (EDriver ("aws s3 cp -> " +:+ s3_uri +:+ " failed: " +:+ trim (out_stderr out))), f'')
  end.

Definition is_separator (a : Ascii.ascii) : bool := is_slash a || Ascii.eqb a (Ascii.ascii_of_nat 92).

Definition backup_project_with (p : Project) (database_url : string) (dest : BackupDest) : E F string :=
  if blank database_url then fail (EDriver ("backup " +:+ p_id p +:+ ": empty DATABASE_URL"))
  else
    now ← total utc_now;
    let name := artifact_name (p_id p) (dump_stamp now) in
    match dest with
    | LocalDir dir =>
        io (create_dir_all dir) ;;
        let path := trim_end_chars is_separator dir +:+ "/" +:+ name in
        run_pg_dump database_url path ;; mret path
    | S3Bucket bucket =>
        tmp ← reads (fun f => path_join (temp_dir f) name);
        run_pg_dump database_url tmp ;;
        let s3_uri := "s3://" +:+ trim_end_chars is_slash bucket +:+ "/" +:+ name in
        upload tmp s3_uri ;; mret s3_uri
    end.

Definition backup_project (p : Project) : E F string :=
  database_url ← @secret_get F env_secret_store (p_database_url_ref p);
  dest ← reads dest_from_env;
  backup_project_with p database_url dest.

Definition env_truthy (key : string) (f : F) : bool :=
  match env_var key f with
  | Some v => bool_decide (to_ascii_lowercase (trim v) ∈ ["1"; "true"; "yes"; "on"]%string)
  | None => false
  end.

Definition restore_project_with (p : Project) (database_url artifact : string) : E F unit :=
  if blank database_url then fail (EDriver ("restore " +:+ p_id p +:+ ": empty DATABASE_URL"))
  else if ends_with ".sql" (to_ascii_lowercase artifact) then
    tool ("psql restore of " +:+ artifact) "psql" ["--dbname"; database_url; "--file"; artifact]%string
  else
    tool ("pg_restore restore of " +:+ artifact) "pg_restore"
      ["--clean"; "--if-exists"; "--no-owner"; "--no-privileges"; "--dbname"; database_url; artifact]%string.

Definition restore_project (p : Project) (artifact : string) : E F unit :=
  allowed ← reads (env_truthy "ATOMO_RESTORE_ALLOW");
  if (allowed : bool) then
    database_url ← @secret_get F env_secret_store (p_database_url_ref p);
    restore_project_with p database_url artifact
  else fail (EInvalidState ("restore " +:+ p_id p +:+ " refused: set ATOMO_RESTORE_ALLOW=1 (restores are destructive)")).

Definition probe_upstream (upstream : option string) : E F string :=
  match upstream with
  | None => mret "unconfigured"%string
  | Some addr =>
      r ← total (tcp_probe addr);
      mret (match r with Some true => "up" | Some false => "down" | None => "timeout" end)%string
  end.

Fixpoint fleet_entries (ps : list Project) : E F (list Value) :=
  match ps with
  | [] => mret []
  | p :: rest =>
      status ← probe_upstream (p_upstream p);
      entries ← fleet_entries rest;
      mret (json_object [("id"%string, VString (p_id p)); ("status"%string, VString status);
              ("upstream"%string, json_opt_string (p_upstream p));
              ("last_health"%string, default VNull (p_last_health p))] :: entries)
  end.
Definition fleet_health (ps : list Project) : E F Value :=
  entries ← fleet_entries ps; mret (VArray entries).

(** The name of an artifact is one path component, whatever the project is called. *)
Lemma sanitize_safe s a : a ∈ String.list_ascii_of_string (sanitize s) -> safe_char a = true.
Proof.
  unfold sanitize. induction s as [|c s IH]; cbn; [by intros ?%not_elem_of_nil|].
  intros [->|Ha]%elem_of_cons; [|by apply IH]. by destruct (safe_char c) eqn:Hc.
Qed.

Lemma restore_guarded p artifact f :
  env_truthy "ATOMO_RESTORE_ALLOW" f = false ->
  exists e, restore_project p artifact f = (inr (EInvalidState e), f).
Proof. intros Hf. unfold restore_project, mbind, E_bind, reads. rewrite Hf. by eexists. Qed.

(** Whatever cannot be reached gets its own entry. *)
Lemma fleet_health_total ps f :
  exists l f', fleet_health ps f = (inl (VArray l), f') /\ length l = length ps.
Proof.
  unfold fleet_health, mbind, E_bind. 
  assert (H : exists l f', fleet_entries ps f = (inl l, f') /\ length l = length ps).
  { revert f. induction ps as [|p ps IH]; intros f; [by eexists [], f|]. cbn [fleet_entries].
    unfold mbind, E_bind.
    assert (Hp : exists st f', probe_upstream (p_upstream p) f = (inl st, f')).
    { unfold probe_upstream, mbind, E_bind, total, mret, E_ret.
      destruct (p_upstream p); [|by eexists _, _]. destruct (tcp_probe _ f). by eexists _, _. }
    destruct Hp as (st & f1 & ->). destruct (IH f1) as (l & f2 & -> & Hl).
    eexists _, _. split; [done|]. cbn. by rewrite Hl. }
  destruct H as (l & f' & -> & Hl). by eexists _, _.
Qed.
End Ops.
