(* ===== verification/Migrations.v ===== *)
(** * Schema migrations ([atomo/src/schema.rs])

    The statements that bring a database to a schema: every [format!] of the source is a
    constructor of [Ddl] or [ColumnDef], [ddl_text] is the text it makes, and the plan is
    the order in which the source pushes them.  Maps iterate in any order ([HashOrder]). *)

From stdpp Require Import pretty.
From S2P Require Import Prelude Json SchemaTypes Query SqlBuilder.

(** ** The statements *)

Inductive ColumnDef : Type :=
  | PrimaryColumn (name : string)
  | FieldColumn (name type default : string) (not_null : bool)
  | StampColumn (name : string)
  | PlainColumn (name type : string).

Definition cd_name (c : ColumnDef) : string :=
  match c with PrimaryColumn n | FieldColumn n _ _ _ | StampColumn n | PlainColumn n _ => n end.

Inductive Ddl : Type :=
  | CreateTable (table : string) (columns : list ColumnDef)
  | AddColumn (table column type default : string) (not_null : bool)
  | AddRequired (table column type : string)
  | CreateIndex (unique : bool) (name table : string) (columns : list string)
      (predicate : option string)
  | AddForeignKey (table name column target : string)
  | AddCheck (table name expr : string).

Definition newline : string := String (Ascii.ascii_of_nat 10) EmptyString.
Definition not_null_text (b : bool) : string := if b then " NOT NULL" else "".

Definition column_text (c : ColumnDef) : string :=
  match c with
  | PrimaryColumn n => "  " +:+ quote_ident n +:+ " TEXT PRIMARY KEY DEFAULT gen_random_uuid()::text"
  | FieldColumn n ty default nn => "  " +:+ quote_ident n +:+ " " +:+ ty +:+ default +:+ not_null_text nn
  | StampColumn n => "  " +:+ quote_ident n +:+ " TIMESTAMPTZ NOT NULL DEFAULT NOW()"
  | PlainColumn n ty => "  " +:+ quote_ident n +:+ " " +:+ ty
  end.

(** A constraint is added unless the database knows one of its name. *)
Definition guarded (name statement : string) : string :=
  "DO $$ BEGIN IF NOT EXISTS (SELECT 1 FROM pg_constraint WHERE conname = '" +:+ name +:+
  "') THEN " +:+ statement +:+ " END IF; END $$;".

Definition ddl_text (d : Ddl) : string :=
  match d with
  | CreateTable t cols =>
      "CREATE TABLE IF NOT EXISTS " +:+ quote_ident t +:+ " (" +:+ newline +:+
      join ("," +:+ newline) (column_text <$> cols) +:+ newline +:+ ");"
  | AddColumn t c ty default nn =>
      "ALTER TABLE " +:+ quote_ident t +:+ " ADD COLUMN IF NOT EXISTS " +:+ quote_ident c +:+ " " +:+
      ty +:+ default +:+ not_null_text nn +:+ ";"
  | AddRequired t c ty =>
      "DO $$ BEGIN IF NOT EXISTS (SELECT 1 FROM information_schema.columns WHERE table_schema = current_schema() AND table_name = '" +:+
      t +:+ "' AND column_name = '" +:+ c +:+ "') THEN IF EXISTS (SELECT 1 FROM " +:+ quote_ident t +:+
      " LIMIT 1) THEN RAISE EXCEPTION 'atomo: cannot add required column " +:+ t +:+ "." +:+ c +:+
      " with no default to a populated table; declare a .default(...) on the field, or write an explicit backfill migration (add it nullable, backfill, then SET NOT NULL)'; ELSE ALTER TABLE " +:+
      quote_ident t +:+ " ADD COLUMN " +:+ quote_ident c +:+ " " +:+ ty +:+
      " NOT NULL; END IF; END IF; END $$;"
  | CreateIndex unique name t cols predicate =>
      (if unique then "CREATE UNIQUE INDEX IF NOT EXISTS " else "CREATE INDEX IF NOT EXISTS ") +:+
      quote_ident name +:+ " ON " +:+ quote_ident t +:+ " (" +:+ join ", " (quote_ident <$> cols) +:+ ")" +:+
      match predicate with Some p => " WHERE " +:+ p | None => "" end +:+ ";"
  | AddForeignKey t name c target =>
      guarded name ("ALTER TABLE " +:+ quote_ident t +:+ " ADD CONSTRAINT " +:+ quote_ident name +:+
        " FOREIGN KEY (" +:+ quote_ident c +:+ ") REFERENCES " +:+ quote_ident target +:+ "(" +:+
        quote_ident "id" +:+ ");")
  | AddCheck t name expr =>
      guarded name ("ALTER TABLE " +:+ quote_ident t +:+ " ADD CONSTRAINT " +:+ quote_ident name +:+
        " CHECK (" +:+ expr +:+ ");")
  end.

(** ** Columns *)

Definition field_type_to_sql (t : FieldType) : string :=
  match t with
  | FString | FFile => "TEXT"
  | FNumber => "BIGINT"
  | FBoolean => "BOOLEAN"
  | FDate => "DATE"
  | FDateTime => "TIMESTAMPTZ"
  | FEntityId => "TEXT"
  | FJson => "JSONB"
  | FReference _ => "TEXT"
  | FArray _ | FBlocks | FCustom _ => "JSONB"
  end.

Definition squote : Ascii.ascii := Ascii.ascii_of_nat 39.

(** Every single quote twice *)
Fixpoint double_squotes (s : string) : string :=
  match s with
  | EmptyString => EmptyString
  | String a r => if Ascii.eqb a squote then String squote (String squote (double_squotes r))
                  else String a (double_squotes r)
  end.

Definition default_literal (value : string) (t : FieldType) : string :=
  match t with
  | FNumber | FBoolean => value
  | _ => "'" +:+ double_squotes value +:+ "'"
  end.

Definition declared_default (f : Field) : option string :=
  head (omap (fun a => match a with Default v => Some v | _ => None end) (f_attributes f)).

(** The clause, or nothing. *)
Definition column_default_clause (f : Field) : string :=
  match declared_default f with
  | Some v => " DEFAULT " +:+ default_literal v (f_type f)
  | None =>
      let col := to_snake_case (f_name f) in
      match f_type f with
      | FDateTime =>
          if bool_decide (col = "created_at"%string) || bool_decide (col = "updated_at"%string)
          then " DEFAULT NOW()" else ""
      | FArray _ | FBlocks => " DEFAULT '[]'::jsonb"
      | _ => ""
      end
  end.

Definition is_primary (f : Field) : bool :=
  bool_decide (f_name f = "id"%string) || bool_decide (Primary ∈ f_attributes f).

Definition field_column (f : Field) : ColumnDef :=
  let col := to_snake_case (f_name f) in
  if is_primary f then PrimaryColumn col
  else FieldColumn col (field_type_to_sql (f_type f)) (column_default_clause f) (negb (f_optional f)).

(** ** Constraints *)

(** [name_table_col1_col2] *)
Definition index_name (prefix table : string) (cols : list string) : string :=
  prefix +:+ "_" +:+ table +:+ "_" +:+ join "_" cols.

Definition constraint_ddl (table : string) (n : nat) (c : ModelConstraint) : Ddl :=
  match c with
  | CUnique cols =>
      let snake := to_snake_case <$> cols in CreateIndex true (index_name "uq" table snake) table snake None
  | CIndex cols =>
      let snake := to_snake_case <$> cols in CreateIndex false (index_name "idx" table snake) table snake None
  | CUniqueWhere cols p =>
      let snake := to_snake_case <$> cols in CreateIndex true (index_name "uq" table snake) table snake (Some p)
  | CIndexWhere cols p =>
      let snake := to_snake_case <$> cols in CreateIndex false (index_name "idx" table snake) table snake (Some p)
  | CCheck expr => AddCheck table ("chk_" +:+ table +:+ "_" +:+ pretty n) expr
  end.

Definition push_constraint_migrations (table : string) (cs : list ModelConstraint) : list Ddl :=
  imap (constraint_ddl table) cs.

(** ** Validation rules as checks *)

Definition rule_pipe : Ascii.ascii := Ascii.ascii_of_nat 124.
Definition rule_colon : Ascii.ascii := Ascii.ascii_of_nat 58.

Definition rule_name_param (rule : string) : string * option string :=
  match split_once rule_colon rule with Some (n, p) => (n, Some p) | None => (rule, None) end.

Definition bound_expr (is_number : bool) (col op : string) (n : Z) : string :=
  if is_number then col +:+ " " +:+ op +:+ " " +:+ pretty n
  else "length(" +:+ col +:+ ") " +:+ op +:+ " " +:+ pretty n.

(** Rules enforced elsewhere, unknown rules and bounds that do not parse give no check. *)
Definition rule_expr (is_number : bool) (col : string) (rule : string) : option string :=
  let '(name, param) := rule_name_param rule in
  if decide (name = "email"%string) then Some (col +:+ " ~ '^[^@]+@[^@]+\.[^@]+$'")
  else if decide (name = "url"%string) then Some (col +:+ " ~ '^https?://'")
  else if decide (name = "min"%string) then bound_expr is_number col ">=" <$> (param ≫= parse_i64)
  else if decide (name = "max"%string) then bound_expr is_number col "<=" <$> (param ≫= parse_i64)
  else None.

Definition validation_checks (table field_name : string) (f : Field) (rules : string) : list Ddl :=
  let col_raw := to_snake_case field_name in
  let col := quote_ident col_raw in
  let is_number := bool_decide (f_type f = FNumber) in
  omap (fun rule =>
    (fun expr =>
       AddCheck table ("chk_" +:+ table +:+ "_" +:+ col_raw +:+ "_" +:+ (rule_name_param rule).1)
         (if f_optional f then col +:+ " IS NULL OR (" +:+ expr +:+ ")" else expr))
    <$> rule_expr is_number col rule) (split_on rule_pipe rules).

(** ** The plan of a schema *)

Section Plan.
Context {ho : HashOrder}.

Definition declared (m : Model) : list string := (fun f => to_snake_case (f_name f)) <$> hvalues (m_fields m).

(** The columns every table has unless the model declares them *)
Definition platform_columns (m : Model) : list ColumnDef :=
  filter (fun c => cd_name c ∉ declared m)
    [StampColumn "created_at"; StampColumn "updated_at"; PlainColumn "deleted_at" "TIMESTAMPTZ";
     PlainColumn "tenant_id" "TEXT"].

Definition create_table (m : Model) : Ddl :=
  CreateTable (table_name m) ((field_column <$> hvalues (m_fields m)) ++ platform_columns m).

(** A field of a table that may exist already *)
Definition forward_field (table : string) (f : Field) : option Ddl :=
  let col := to_snake_case (f_name f) in
  let ty := field_type_to_sql (f_type f) in
  let default := column_default_clause f in
  if is_primary f then None
  else if f_optional f || negb (bool_decide (default = EmptyString))
       then Some (AddColumn table col ty default (negb (f_optional f)))
       else Some (AddRequired table col ty).

(** The columns with an annotation, primary keys apart *)
Definition annotated (a : FieldAttribute) (m : Model) : list string :=
  (fun f => to_snake_case (f_name f)) <$>
  filter (fun f => is_primary f = false /\ a ∈ f_attributes f) (hvalues (m_fields m)).

Definition model_plan (m : Model) : list Ddl :=
  let table := table_name m in
  [create_table m] ++
  omap (forward_field table) (hvalues (m_fields m)) ++
  [AddColumn table "deleted_at" "TIMESTAMPTZ" "" false; AddColumn table "tenant_id" "TEXT" "" false] ++
  ((fun c => CreateIndex true ("uq_" +:+ table +:+ "_" +:+ c) table [c] None) <$> annotated Unique m) ++
  ((fun c => CreateIndex false ("idx_" +:+ table +:+ "_" +:+ c) table [c] None) <$> annotated Index m) ++
  push_constraint_migrations table (m_constraints m).

(** [table_of]: the table of the model with a name, the last one collected if several
    entries of the schema bear it. *)
Definition table_of (s : Schema) : gmap string string :=
  list_to_map (reverse ((fun m => (m_name m, table_name m)) <$> hvalues (sc_models s))).

Definition foreign_key_plan (s : Schema) (m : Model) : list Ddl :=
  omap (fun '(rel_name, rel) =>
    if decide (rl_kind rel = "belongsTo"%string) then
      let fk_col := to_snake_case (default (rel_name +:+ "Id") (rl_foreign_key rel)) in
      match table_of s !! rl_model rel with
      | Some target =>
          if decide (fk_col ∈ to_snake_case <$> hkeys (m_fields m))
          then Some (AddForeignKey (table_name m) ("fk_" +:+ table_name m +:+ "_" +:+ fk_col) fk_col target)
          else None
      | None => None
      end
    else None) (hpairs (m_relationships m)).

Definition check_plan (m : Model) : list Ddl :=
  hpairs (m_validation m) ≫= (fun '(field_name, rules) =>
    match m_fields m !! field_name with
    | Some f => validation_checks (table_name m) field_name f rules
    | None => []
    end).

(** All tables first, then the foreign keys between them, then the checks. *)
Definition migration_plan (s : Schema) : list Ddl :=
  (hvalues (sc_models s) ≫= model_plan) ++
  (hvalues (sc_models s) ≫= foreign_key_plan s) ++
  (hvalues (sc_models s) ≫= check_plan).

Definition generate_migrations (s : Schema) : list string := ddl_text <$> migration_plan s.

(** ** Extensions of built-in tables *)

Definition EXTENDABLE_BUILTINS : list string := ["users"]%string.

Definition key_before {A} (a b : string * A) : Prop := String.le a.1 b.1.
#[export] Instance key_before_dec {A} : RelDecision (@key_before A).
Proof. intros a b. unfold key_before. apply _. Defined.
Definition sorted_pairs {A} (m : gmap string A) : list (string * A) := merge_sort key_before (hpairs m).

Definition extension_column (table : string) (p : string * string) : Ddl + string :=
  let ty := trim p.2 in
  if contains (to_ascii_uppercase ty) "NOT NULL" then
    inr ("builtins." +:+ table +:+ "." +:+ p.1 +:+
         ": extension columns must be nullable (drop NOT NULL)")
  else inl (AddColumn table (to_snake_case p.1) ty "" false).

Fixpoint try_map {A B} (f : A -> B + string) (l : list A) : list B + string :=
  match l with
  | [] => inl []
  | x :: r => match f x with
              | inr e => inr e
              | inl y => match try_map f r with inl ys => inl (y :: ys) | inr e => inr e end
              end
  end.

Definition extension_plan (p : string * BuiltinExtension) : list Ddl + string :=
  let '(table, ext) := p in
  if decide (table ∈ EXTENDABLE_BUILTINS) then
    match try_map (extension_column table) (sorted_pairs (bx_columns ext)) with
    | inl cols => inl (cols ++ push_constraint_migrations table (bx_constraints ext))
    | inr e => inr e
    end
  else inr ("builtins." +:+ table +:+ ": not an extendable built-in table (allowed: " +:+
            join ", " EXTENDABLE_BUILTINS +:+ ")").

Definition builtin_extension_plan (s : Schema) : list Ddl + string :=
  match try_map extension_plan (sorted_pairs (sc_builtins s)) with
  | inl ls => inl (concat ls)
  | inr e => inr e
  end.

Definition generate_builtin_extension_migrations (s : Schema) : list string + string :=
  match builtin_extension_plan s with inl l => inl (ddl_text <$> l) | inr e => inr e end.

(** ** Running the statements, and the drift check

    [exec] is the database: the outcome of one statement. *)
Section Run.
Context {D E : Type} (exec : Ddl -> D -> D + E).

Fixpoint run_ddl (l : list Ddl) (d : D) : D + E :=
  match l with
  | [] => inl d
  | s :: r => match exec s d with inl d' => run_ddl r d' | inr e => inr e end
  end.

(** In a transaction: the first failure undoes everything. *)
Definition migrate (s : Schema) (d : D) : (unit + E) * D :=
  match run_ddl (migration_plan s) d with
  | inl d' => (inl tt, d')
  | inr e => (inr e, d)
  end.

(** One statement after the other; those before a failure stay. *)
Fixpoint run_each (l : list Ddl) (d : D) : (unit + E) * D :=
  match l with
  | [] => (inl tt, d)
  | s :: r => match exec s d with inl d' => run_each r d' | inr e => (inr e, d) end
  end.

Definition apply_extensions (s : Schema) (d : D) : (unit + (string + E)) * D :=
  match builtin_extension_plan s with
  | inr e => (inr (inl e), d)
  | inl l => match run_each l d with
             | (inl _, d') => (inl tt, d')
             | (inr e, d') => (inr (inr e), d')
             end
  end.
End Run.

(** The columns a table that exists lacks; [existing] are the columns the database lists,
    [None] when the query fails. *)
Definition check_column_drift (existing : string -> option (list string)) (s : Schema)
    : list (string * string) :=
  hvalues (sc_models s) ≫= (fun m =>
    match existing (table_name m) with
    | None | Some [] => []
    | Some cols => (pair (table_name m)) <$> filter (fun c => c ∉ cols) (declared m)
    end).
End Plan.
