(* ===== verification/MigrationsSpec.v ===== *)
(** * What a migration does to a database

    The catalog of a database (its tables with their columns, the names of its indexes and
    constraints), the documented effect of each statement on it as the laws of a class, and
    the properties of a migration over every database that keeps them: it reaches the
    schema, it adds only, it can be run again. *)

From S2P Require Import Prelude Json SchemaTypes Query SqlBuilder Migrations.

(** ** The catalog *)

Record Column : Type := mkCol { col_type : string; col_not_null : bool }.

Record Catalog : Type := mkCatalog {
  c_tables : gmap string (gmap string Column);
  c_indexes : gset string;
  c_constraints : gset string
}.

(** Identifiers are cut to 63 bytes. *)
Definition pg_name (s : string) : string := String.substring 0 63 s.

Definition column_at (c : Catalog) (t col : string) : option Column := c_tables c !! t ≫= lookup col.
Definition table_exists (c : Catalog) (t : string) : Prop := is_Some (c_tables c !! t).
Definition has_table (c : Catalog) (t : string) : bool :=
  match c_tables c !! t with Some _ => true | None => false end.
(** Tables and indexes share their names. *)
Definition relation_exists (c : Catalog) (n : string) : Prop := table_exists c n \/ n ∈ c_indexes c.

Definition column_info (c : ColumnDef) : Column :=
  match c with
  | PrimaryColumn _ => mkCol "TEXT" true
  | FieldColumn _ ty _ nn => mkCol ty nn
  | StampColumn _ => mkCol "TIMESTAMPTZ" true
  | PlainColumn _ ty => mkCol ty false
  end.
Definition columns_of (cols : list ColumnDef) : gmap string Column :=
  list_to_map ((fun c => (pg_name (cd_name c), column_info c)) <$> cols).

(** What the statement asks for is there: [IF NOT EXISTS] and the guards find it.  The
    guards compare names as they are written, not as they are stored. *)
Definition asked (s : Ddl) (c : Catalog) : Prop :=
  match s with
  | CreateTable t _ => relation_exists c (pg_name t)
  | AddColumn t col _ _ _ => is_Some (column_at c (pg_name t) (pg_name col))
  | AddRequired t col _ => is_Some (column_at c t col)
  | CreateIndex _ name _ _ _ => relation_exists c (pg_name name)
  | AddForeignKey _ name _ _ | AddCheck _ name _ => name ∈ c_constraints c
  end.

#[global] Instance asked_dec s c : Decision (asked s c).
Proof. destruct s; simpl; unfold relation_exists, table_exists; apply _. Defined.

Definition adds_column (t col : string) (i : Column) (c c' : Catalog) : Prop :=
  exists cols, c_tables c !! pg_name t = Some cols /\
    c' = mkCatalog (<[pg_name t := <[pg_name col := i]> cols]> (c_tables c)) (c_indexes c) (c_constraints c).

(** What a statement that finds nothing of the kind does when it succeeds.  A new table
    comes with the index and the constraint of its primary key. *)
Definition enacted (s : Ddl) (c c' : Catalog) : Prop :=
  match s with
  | CreateTable t cols =>
      c_tables c' = <[pg_name t := columns_of cols]> (c_tables c) /\
      c_indexes c ⊆ c_indexes c' /\ c_constraints c ⊆ c_constraints c'
  | AddColumn t col ty _ nn => adds_column t col (mkCol ty nn) c c'
  | AddRequired t col ty => adds_column t col (mkCol ty true) c c'
  | CreateIndex _ name _ _ _ =>
      c' = mkCatalog (c_tables c) ({[pg_name name]} ∪ c_indexes c) (c_constraints c)
  | AddForeignKey _ name _ _ | AddCheck _ name _ =>
      c' = mkCatalog (c_tables c) (c_indexes c) ({[pg_name name]} ∪ c_constraints c)
  end.

(** A database: its outcome for a statement, its catalog, and which tables hold rows. *)
Class Database (D : Type) : Type := {
  exec : Ddl -> D -> D + string;
  parses : Ddl -> Prop;
  catalog : D -> Catalog;
  populated : D -> string -> bool
}.
#[global] Hint Mode Database ! : typeclass_instances.

Class PgLaws (D : Type) `{Database D} : Prop := {
  pg_syntax s (d d' : D) : exec s d = inl d' -> parses (D := D) s;
  pg_skip s (d : D) : parses (D := D) s -> asked s (catalog d) -> exec s d = inl d;
  pg_enacts s (d d' : D) : ~ asked s (catalog d) -> exec s d = inl d' ->
    enacted s (catalog d) (catalog d') /\ populated d' = populated d;
  pg_refuses t col ty (d : D) : ~ asked (AddRequired t col ty) (catalog d) ->
    populated d (pg_name t) = true -> exists e, exec (AddRequired t col ty) d = inr e
}.

(** ** Names *)

Definition fits (n : string) : Prop := (String.length n <= 63)%nat.
Definition ddl_fits (s : Ddl) : Prop :=
  match s with
  | CreateTable t cols => fits t /\ Forall (fun c => fits (cd_name c)) cols
  | AddColumn t col _ _ _ | AddRequired t col _ => fits t /\ fits col
  | CreateIndex _ _ t _ _ => fits t
  | AddForeignKey t name _ _ | AddCheck t name _ => fits t /\ fits name
  end.

#[global] Instance ddl_fits_dec s : Decision (ddl_fits s).
Proof. destruct s; simpl; unfold fits; apply _. Defined.

Lemma substring_all n s : (String.length s <= n)%nat -> String.substring 0 n s = s.
Proof.
  revert s. induction n as [|n IH]; intros [|a s] Hl; simpl in *; try done; [lia|].
  f_equal. apply IH. lia.
Qed.
Lemma pg_name_fits n : fits n -> pg_name n = n.
Proof. apply substring_all. Qed.

(** ** Catalogs only grow *)

Definition grows (c c' : Catalog) : Prop :=
  (forall t col i, column_at c t col = Some i -> column_at c' t col = Some i) /\
  (forall t, table_exists c t -> table_exists c' t) /\
  c_indexes c ⊆ c_indexes c' /\ c_constraints c ⊆ c_constraints c'.

#[global] Instance grows_preorder : PreOrder grows.
Proof.
  split; [intros c; unfold grows; by split_and!|]. intros a b c (A1 & A2 & A3 & A4) (B1 & B2 & B3 & B4).
  unfold grows. split_and!; [eauto..|set_solver|set_solver].
Qed.

Lemma adds_column_grows t col i c c' :
  column_at c (pg_name t) (pg_name col) = None -> adds_column t col i c c' -> grows c c'.
Proof.
  intros Hn (cols & Ht & ->). unfold grows, column_at, table_exists in *. simpl. rewrite Ht in Hn. simpl in Hn.
  split_and!; [| |done|done].
  - intros t' col' i' Hl. destruct (decide (t' = pg_name t)) as [->|Hne].
    + rewrite lookup_insert_eq. rewrite Ht in Hl. simpl in *. rewrite lookup_insert_ne; congruence.
    + by rewrite lookup_insert_ne.
  - intros t' Ht'. destruct (decide (t' = pg_name t)) as [->|Hne].
    + by rewrite lookup_insert_eq.
    + by rewrite lookup_insert_ne.
Qed.

Lemma adds_column_there t col i c c' :
  adds_column t col i c c' -> column_at c' (pg_name t) (pg_name col) = Some i.
Proof. intros (cols & Ht & ->). unfold column_at. simpl. by rewrite lookup_insert_eq; simpl; rewrite lookup_insert_eq. Qed.

Lemma enacted_grows s c c' : ddl_fits s -> ~ asked s c -> enacted s c c' -> grows c c'.
Proof.
  destruct s as [t cols|t col ty df nn|t col ty|u n t cols p|t n col tg|t n e]; simpl; intros Hf Ha He.
  - destruct He as (Ht & Hi & Hc). unfold grows, column_at, table_exists. rewrite Ht.
    assert (Hn : c_tables c !! pg_name t = None).
    { apply eq_None_not_Some. intros Hs. apply Ha. by left. }
    split_and!; [| |done|done].
    + intros t' col i. destruct (decide (t' = pg_name t)) as [->|Hne]; [by rewrite Hn|by rewrite lookup_insert_ne].
    + intros t' Hs. destruct (decide (t' = pg_name t)) as [->|Hne]; [by rewrite lookup_insert_eq|by rewrite lookup_insert_ne].
  - eapply adds_column_grows; [|done]. by apply eq_None_not_Some.
  - destruct Hf as [Ht Hc]. eapply adds_column_grows; [|done]. apply eq_None_not_Some.
    by rewrite !pg_name_fits.
  - subst c'. unfold grows. split_and!; simpl; [done|done|set_solver|done].
  - subst c'. unfold grows. split_and!; simpl; [done|done|done|set_solver].
  - subst c'. unfold grows. split_and!; simpl; [done|done|done|set_solver].
Qed.

Lemma asked_grows s c c' : grows c c' -> asked s c -> asked s c'.
Proof.
  intros (G1 & G2 & G3 & G4).
  destruct s; simpl; unfold relation_exists; [intros [?|?]; [left; auto|right; set_solver]| | |
    intros [?|?]; [left; auto|right; set_solver]|set_solver..].
  - intros [i Hi]. exists i. auto.
  - intros [i Hi]. exists i. auto.
Qed.

Lemma enacted_asked s c c' : ddl_fits s -> enacted s c c' -> asked s c'.
Proof.
  destruct s as [t cols|t col ty df nn|t col ty|u n t cols p|t n col tg|t n e]; simpl; intros Hf He.
  - destruct He as (Ht & _). left. unfold table_exists. by rewrite Ht, lookup_insert_eq.
  - eexists. by eapply adds_column_there.
  - destruct Hf as [Ht Hc]. apply adds_column_there in He. rewrite !pg_name_fits in He by done. by eexists.
  - subst c'. right. simpl. set_solver.
  - subst c'. simpl. destruct Hf as [_ Hf]. rewrite (pg_name_fits _ Hf). set_solver.
  - subst c'. simpl. destruct Hf as [_ Hf]. rewrite (pg_name_fits _ Hf). set_solver.
Qed.

(** ** Running statements *)

(** The column a statement gives a table; [ex] says that the table exists. *)
Definition gives (ex : bool) (s : Ddl) (t col : string) : option Column :=
  match s with
  | CreateTable t' cols => if decide (pg_name t' = t) then if ex then None else columns_of cols !! col else None
  | AddColumn t' c ty _ nn =>
      if decide (pg_name t' = t /\ pg_name c = col) then Some (mkCol ty nn) else None
  | AddRequired t' c ty =>
      if decide (pg_name t' = t /\ pg_name c = col) then Some (mkCol ty true) else None
  | _ => None
  end.
Definition creates (s : Ddl) (t : string) : bool :=
  match s with CreateTable t' _ => bool_decide (pg_name t' = t) | _ => false end.

(** The first statement to give the column decides it. *)
Fixpoint first_given (ex : bool) (l : list Ddl) (t col : string) : option (Ddl * Column) :=
  match l with
  | [] => None
  | s :: r => match gives ex s t col with
              | Some i => Some (s, i)
              | None => first_given (ex || creates s t) r t col
              end
  end.

Section Database.
Context {D : Type} `{Database D} {laws : PgLaws D}.

(** A step that succeeds left the database alone or did what the statement says. *)
Lemma exec_inv s (d d' : D) :
  exec s d = inl d' ->
  parses (D := D) s /\
  ((asked s (catalog d) /\ d' = d) \/
   (~ asked s (catalog d) /\ enacted s (catalog d) (catalog d') /\ populated d' = populated d)).
Proof.
  intros He. pose proof (pg_syntax _ _ _ He) as Hp. split; [done|].
  destruct (decide (asked s (catalog d))) as [Ha|Ha].
  - left. split; [done|]. rewrite (pg_skip s d Hp Ha) in He. congruence.
  - right. split; [done|]. by apply pg_enacts.
Qed.

Lemma run_cons s l (d d' : D) :
  run_ddl exec (s :: l) d = inl d' -> exists d1, exec s d = inl d1 /\ run_ddl exec l d1 = inl d'.
Proof. simpl. destruct (exec s d) as [d1|e]; [|done]. by exists d1. Qed.

Lemma exec_grows s (d d' : D) :
  ddl_fits s -> exec s d = inl d' -> grows (catalog d) (catalog d') /\ populated d' = populated d.
Proof.
  intros Hf He. destruct (exec_inv s d d' He) as [_ [[_ ->]|(Ha & Hen & Hp)]]; [done|].
  split; [by eapply enacted_grows|done].
Qed.

Lemma run_grows l (d d' : D) :
  Forall ddl_fits l -> run_ddl exec l d = inl d' ->
  grows (catalog d) (catalog d') /\ populated d' = populated d.
Proof.
  intros Hf. revert d. induction Hf as [|s l Hs Hl IH]; intros d Hr; [by injection Hr as <-|].
  apply run_cons in Hr as (d1 & He & Hr). apply exec_grows in He as [G P]; [|done].
  destruct (IH d1 Hr) as [G' P']. split; [by etrans|congruence].
Qed.

(** Afterwards everything that was asked for is there. *)
Lemma run_asked l (d d' : D) :
  Forall ddl_fits l -> run_ddl exec l d = inl d' ->
  Forall (fun s => parses (D := D) s /\ asked s (catalog d')) l.
Proof.
  intros Hf. revert d. induction Hf as [|s l Hs Hl IH]; intros d Hr; [done|].
  apply run_cons in Hr as (d1 & He & Hr). constructor; [|by eapply IH].
  destruct (exec_inv s d d1 He) as [Hp Hc]. split; [done|].
  eapply asked_grows; [by eapply run_grows|].
  destruct Hc as [[Ha ->]|(Ha & Hen & _)]; [done|by eapply enacted_asked].
Qed.

Lemma run_nothing l (d : D) :
  Forall (fun s => parses (D := D) s /\ asked s (catalog d)) l -> run_ddl exec l d = inl d.
Proof. induction 1 as [|s l [Hp Ha] Hl IH]; [done|]. simpl. by rewrite (pg_skip s d Hp Ha). Qed.

(** A table whose name an index took is never made. *)
Lemma enacted_no_table s t c c' :
  t ∈ c_indexes c -> c_tables c !! t = None -> ~ asked s c -> enacted s c c' ->
  t ∈ c_indexes c' /\ c_tables c' !! t = None.
Proof.
  intros Hi Hn Ha He. destruct s as [t' cols|t' col ty df nn|t' col ty|u n t' cols p|t' n col tg|t' n e];
    simpl in *.
  - destruct He as (Ht & Hidx & _). split; [set_solver|]. rewrite Ht. rewrite lookup_insert_ne; [done|].
    intros <-. apply Ha. by right.
  - destruct He as (cols & Ht & ->). split; [done|]. simpl. rewrite lookup_insert_ne; [done|congruence].
  - destruct He as (cols & Ht & ->). split; [done|]. simpl. rewrite lookup_insert_ne; [done|congruence].
  - subst c'. simpl. split; [set_solver|done].
  - by subst c'.
  - by subst c'.
Qed.

Lemma run_no_table l t (d d' : D) :
  t ∈ c_indexes (catalog d) -> c_tables (catalog d) !! t = None -> run_ddl exec l d = inl d' ->
  c_tables (catalog d') !! t = None.
Proof.
  revert d. induction l as [|s l IH]; intros d Hi Hn Hr; [by injection Hr as <-|].
  apply run_cons in Hr as (d1 & He & Hr). destruct (exec_inv s d d1 He) as [_ [[_ ->]|(Ha & Hen & _)]].
  - by eapply IH.
  - destruct (enacted_no_table s t _ _ Hi Hn Ha Hen) as [Hi' Hn']. by eapply IH.
Qed.

Lemma adds_column_at t col i c c' t' col' :
  adds_column t col i c c' ->
  column_at c' t' col' = (if decide (pg_name t = t' /\ pg_name col = col') then Some i else column_at c t' col') /\
  has_table c' t' = has_table c t'.
Proof.
  intros (cols & Ht & ->). unfold column_at, has_table. simpl.
  destruct (decide (pg_name t = t')) as [<-|Hne].
  - rewrite lookup_insert_eq, Ht. simpl. split; [|done].
    destruct (decide (pg_name col = col')) as [<-|Hne].
    + by rewrite lookup_insert_eq, decide_True.
    + rewrite lookup_insert_ne, decide_False by tauto. done.
  - rewrite lookup_insert_ne by done. rewrite decide_False by tauto. done.
Qed.

Lemma step_column s t col (d d1 : D) :
  ddl_fits s -> exec s d = inl d1 -> column_at (catalog d) t col = None ->
  let ex := has_table (catalog d) t in
  (t ∈ c_indexes (catalog d1) /\ c_tables (catalog d1) !! t = None) \/
  (column_at (catalog d1) t col = gives ex s t col /\
   has_table (catalog d1) t = ex || creates s t).
Proof.
  intros Hf He Hn ex. destruct (exec_inv s d d1 He) as [_ [[Ha ->]|(Ha & Hen & _)]].
  - (* it was there *)
    destruct s as [t' cols|t' c ty df nn|t' c ty|u n t' cols p|t' n c tg|t' n e]; simpl in *;
      rewrite ?orb_false_r; try (by right).
    + destruct (decide (pg_name t' = t)) as [<-|Hne].
      * rewrite (bool_decide_eq_true_2 (pg_name t' = pg_name t')) by done. unfold ex.
        unfold has_table in *. destruct (c_tables (catalog d) !! pg_name t') as [cs|] eqn:Ht; [by right|].
        left. destruct Ha as [Ha|Ha]; [|done]. unfold table_exists in Ha. rewrite Ht in Ha. by destruct Ha.
      * right. rewrite bool_decide_eq_false_2 by done. by rewrite orb_false_r.
    + right. split; [|done]. rewrite decide_False; [done|]. intros [<- <-]. rewrite Hn in Ha. by destruct Ha.
    + right. split; [|done]. destruct Hf as [Ht Hc]. rewrite !pg_name_fits by done.
      rewrite decide_False; [done|]. intros [<- <-]. rewrite Hn in Ha. by destruct Ha.
  - right. destruct s as [t' cols|t' c ty df nn|t' c ty|u n t' cols p|t' n c tg|t' n e]; simpl in *;
      rewrite ?orb_false_r.
    + destruct Hen as (Ht & _). unfold column_at, ex, has_table. rewrite Ht.
      destruct (decide (pg_name t' = t)) as [<-|Hne].
      * rewrite lookup_insert_eq. simpl. destruct (c_tables (catalog d) !! pg_name t') eqn:Hx.
        { exfalso. apply Ha. left. unfold table_exists. rewrite Hx. by eexists. }
        by rewrite bool_decide_eq_true_2.
      * rewrite lookup_insert_ne by done. split; [exact Hn|].
        by rewrite (bool_decide_eq_false_2 (pg_name t' = t)), orb_false_r.
    + apply (adds_column_at _ _ _ _ _ t col) in Hen as [-> Hx]. rewrite Hn. by split.
    + apply (adds_column_at _ _ _ _ _ t col) in Hen as [-> Hx]. rewrite Hn. by split.
    + by rewrite Hen.
    + by rewrite Hen.
    + by rewrite Hen.
Qed.

(** A column that was not there is what the first statement to give it says. *)
Lemma run_first l t col (d d' : D) :
  Forall ddl_fits l -> run_ddl exec l d = inl d' -> column_at (catalog d) t col = None ->
  table_exists (catalog d') t ->
  column_at (catalog d') t col = snd <$> first_given (has_table (catalog d) t) l t col.
Proof.
  intros Hf. revert d. induction Hf as [|s l Hs Hl IH]; intros d Hr Hn Ht; [by injection Hr as <-|].
  apply run_cons in Hr as (d1 & He & Hr).
  destruct (step_column s t col d d1 Hs He Hn) as [[Hi Hnt]|[Hc Hx]].
  - exfalso. destruct Ht as [cs Hcs]. by rewrite (run_no_table l t d1 d') in Hcs.
  - simpl. destruct (gives _ s t col) as [i|] eqn:Hg.
    + destruct (run_grows l d1 d' Hl Hr) as [(Hgr & _) _]. by apply Hgr.
    + rewrite (IH d1 Hr Hc Ht). by rewrite Hx.
Qed.

(** That statement is executed, on a table with the rows it had. *)
Lemma run_first_executes l t col s i (d d' : D) :
  Forall ddl_fits l -> run_ddl exec l d = inl d' -> column_at (catalog d) t col = None ->
  table_exists (catalog d') t ->
  first_given (has_table (catalog d) t) l t col = Some (s, i) ->
  exists (d1 d2 : D), exec s d1 = inl d2 /\ column_at (catalog d1) t col = None /\ populated d1 = populated d.
Proof.
  intros Hf. revert d. induction Hf as [|s' l Hs Hl IH]; intros d Hr Hn Ht; [done|].
  apply run_cons in Hr as (d1 & He & Hr).
  destruct (step_column s' t col d d1 Hs He Hn) as [[Hi Hnt]|[Hc Hx]].
  - exfalso. destruct Ht as [cs Hcs]. by rewrite (run_no_table l t d1 d') in Hcs.
  - simpl. destruct (gives _ s' t col) as [i'|] eqn:Hg.
    + intros [= <- <-]. by exists d, d1.
    + rewrite <-Hx. intros Hfg. destruct (IH d1 Hr Hc Ht Hfg) as (d2 & d3 & H1 & H2 & H3).
      exists d2, d3. split_and!; [done|done|]. rewrite H3. by apply (exec_grows s').
Qed.
End Database.

(** ** The plan of a schema *)

Definition ddl_table (s : Ddl) : string :=
  match s with
  | CreateTable t _ | AddColumn t _ _ _ _ | AddRequired t _ _ | CreateIndex _ _ t _ _
  | AddForeignKey t _ _ _ | AddCheck t _ _ => t
  end.

Lemma first_given_skip l1 l2 ex t col :
  Forall (fun s => pg_name (ddl_table s) <> t) l1 ->
  first_given ex (l1 ++ l2) t col = first_given ex l2 t col.
Proof.
  induction 1 as [|s l1 Hs Hl IH]; [done|]. simpl.
  assert (Hg : gives ex s t col = None).
  { destruct s; simpl in *; try done; [by rewrite decide_False|rewrite decide_False by tauto; done..]. }
  assert (Hc : creates s t = false) by (destruct s; simpl in *; try done; by rewrite bool_decide_eq_false_2).
  by rewrite Hg, Hc, orb_false_r, IH.
Qed.

Lemma first_given_none l ex t col :
  Forall (fun s => forall b, gives b s t col = None) l -> first_given ex l t col = None.
Proof. intros Hl. revert ex. induction Hl as [|s l Hs Hl IH]; intros ex; simpl; [done|]. by rewrite Hs, IH. Qed.

(** No two entries of a list made distinct by a function agree on it. *)
Lemma NoDup_fmap_eq {A B} (g : A -> B) l x y :
  NoDup (g <$> l) -> x ∈ l -> y ∈ l -> g x = g y -> x = y.
Proof.
  induction l as [|a l IH]; simpl; intros Hnd Hx Hy Hg; [by apply not_elem_of_nil in Hx|].
  apply NoDup_cons in Hnd as [Ha Hnd].
  apply elem_of_cons in Hx as [->|Hx]; apply elem_of_cons in Hy as [->|Hy]; [done| | |by apply IH].
  - destruct Ha. rewrite Hg. by apply list_elem_of_fmap_2.
  - destruct Ha. rewrite <-Hg. by apply list_elem_of_fmap_2.
Qed.

Section Schema.
Context {ho : HashOrder}.

Lemma model_plan_table m : Forall (fun s => ddl_table s = table_name m) (model_plan m).
Proof.
  unfold model_plan. rewrite !Forall_app. split_and!; [by repeat constructor|..].
  - apply Forall_forall. intros s (f & _ & Hf)%list_elem_of_omap. revert Hf. unfold forward_field.
    destruct (is_primary f); [done|]. by case_match; intros [= <-].
  - by repeat constructor.
  - apply Forall_fmap, Forall_true. done.
  - apply Forall_fmap, Forall_true. done.
  - unfold push_constraint_migrations. apply Forall_forall. intros s Hs.
    apply elem_of_lookup_imap in Hs as (i & c & -> & _). by destruct c.
Qed.

(** The tables of the schema are distinct, and so are the columns of each. *)
Record WellNamed (s : Schema) : Prop := {
  wn_tables : NoDup (table_name <$> hvalues (sc_models s));
  wn_columns m : m ∈ hvalues (sc_models s) -> NoDup (declared m);
  wn_fits : Forall ddl_fits (migration_plan s)
}.

Definition field_info (f : Field) : Column := column_info (field_column f).
Definition field_col (f : Field) : string := to_snake_case (f_name f).

Section Model.
Variable s : Schema.
Variable m : Model.
Context (wn : WellNamed s) (Hm : m ∈ hvalues (sc_models s)).

Lemma in_plan d : d ∈ model_plan m -> d ∈ migration_plan s.
Proof.
  intros Hd. unfold migration_plan. apply elem_of_app. left. apply list_elem_of_bind. by exists m.
Qed.

Lemma plan_fits d : d ∈ model_plan m -> ddl_fits d.
Proof. intros Hd. pose proof (wn_fits s wn) as Hf. rewrite Forall_forall in Hf. by apply Hf, in_plan. Qed.

Lemma table_fits : pg_name (table_name m) = table_name m.
Proof.
  apply pg_name_fits. assert (Hf : ddl_fits (create_table m)) by (apply plan_fits; left). apply Hf.
Qed.

Lemma col_fits f : f ∈ hvalues (m_fields m) -> pg_name (field_col f) = field_col f.
Proof.
  intros Hin. apply pg_name_fits. assert (Hf : ddl_fits (create_table m)) by (apply plan_fits; left).
  destruct Hf as [_ Hf]. rewrite Forall_app, Forall_fmap in Hf. destruct Hf as [Hf _].
  rewrite Forall_forall in Hf. specialize (Hf f Hin). revert Hf. unfold compose, field_column, field_col.
  by destruct (is_primary f).
Qed.

Lemma field_column_name f : cd_name (field_column f) = field_col f.
Proof. unfold field_column. by destruct (is_primary f). Qed.

Lemma same_col f g :
  f ∈ hvalues (m_fields m) -> g ∈ hvalues (m_fields m) -> field_col f = field_col g -> f = g.
Proof. intros Hf Hg He. by apply (NoDup_fmap_eq _ _ f g (wn_columns s wn m Hm)). Qed.

(** A new table has every declared column as declared. *)
Lemma created_column f :
  f ∈ hvalues (m_fields m) ->
  columns_of ((field_column <$> hvalues (m_fields m)) ++ platform_columns m) !! field_col f
  = Some (field_info f).
Proof.
  intros Hf. unfold columns_of. apply elem_of_list_to_map_1'.
  - intros y (c & Heq & Hc)%list_elem_of_fmap. injection Heq as Hn ->.
    apply elem_of_app in Hc as [(g & -> & Hg)%list_elem_of_fmap|Hc].
    + rewrite field_column_name, col_fits in Hn by done. by rewrite (same_col g f).
    + exfalso. apply list_elem_of_filter in Hc as [Hd Hc]. apply Hd.
      assert (Hcn : pg_name (cd_name c) = cd_name c).
      { repeat (apply elem_of_cons in Hc as [->|Hc]; [reflexivity|]). by apply not_elem_of_nil in Hc. }
      rewrite <-Hcn, <-Hn. unfold declared. by apply (list_elem_of_fmap_2 field_col).
  - apply list_elem_of_fmap. exists (field_column f). rewrite field_column_name, col_fits by done.
    split; [done|]. apply elem_of_app. left. by apply list_elem_of_fmap_2.
Qed.

(** What a field's own statement gives. *)
Lemma forward_gives ex f d :
  f ∈ hvalues (m_fields m) -> forward_field (table_name m) f = Some d ->
  gives ex d (table_name m) (field_col f) = Some (field_info f) /\
  forall g, g ∈ hvalues (m_fields m) -> f <> g -> gives ex d (table_name m) (field_col g) = None.
Proof.
  intros Hf. unfold forward_field, field_info, field_column.
  destruct (is_primary f) eqn:Hp; [done|].
  assert (Hne : forall g, g ∈ hvalues (m_fields m) -> f <> g -> pg_name (field_col f) <> field_col g).
  { intros g Hg Hd. rewrite col_fits by done. intros He. by apply Hd, same_col. }
  destruct (f_optional f || _) eqn:Ho; intros [= <-]; simpl.
  - rewrite decide_True by (split; [apply table_fits|by apply col_fits]). split; [done|].
    intros g Hg Hd. rewrite decide_False; [done|]. intros [_ He]. by apply (Hne g).
  - rewrite decide_True by (split; [apply table_fits|by apply col_fits]).
    apply orb_false_elim in Ho as [-> _]. split; [done|].
    intros g Hg Hd. rewrite decide_False; [done|]. intros [_ He]. by apply (Hne g).
Qed.

Lemma forward_is f : is_primary f = false -> exists d, forward_field (table_name m) f = Some d.
Proof. intros Hp. unfold forward_field. rewrite Hp. by case_match; eexists. Qed.

Lemma forward_first fs f ex rest (d0 : Ddl) :
  (forall g, g ∈ fs -> g ∈ hvalues (m_fields m)) -> f ∈ fs -> forward_field (table_name m) f = Some d0 ->
  first_given ex (omap (forward_field (table_name m)) fs ++ rest) (table_name m) (field_col f)
  = Some (d0, field_info f).
Proof.
  revert ex. induction fs as [|g fs IH]; intros ex Hin Hf Hp; [by apply not_elem_of_nil in Hf|].
  assert (Hg : g ∈ hvalues (m_fields m)) by (apply Hin; left).
  assert (Hfm : f ∈ hvalues (m_fields m)) by by apply Hin.
  assert (Hrest : forall h, h ∈ fs -> h ∈ hvalues (m_fields m)) by (intros; apply Hin; by right).
  simpl. destruct (forward_field (table_name m) g) as [d|] eqn:Hd.
  - simpl. destruct (forward_gives ex g d Hg Hd) as [Hgiv Hoth].
    destruct (decide (g = f)) as [->|Hne]; [rewrite Hgiv; congruence|].
    rewrite Hoth by done. apply IH; [done| |done].
    by apply elem_of_cons in Hf as [->|Hf].
  - destruct (decide (g = f)) as [->|Hne].
    + congruence.
    + apply IH; [done| |done]. by apply elem_of_cons in Hf as [->|Hf].
Qed.

(** The plan gives a declared column as declared; a primary key only with its table. *)
Lemma plan_gives f (ex : bool) (d0 : Ddl) :
  f ∈ hvalues (m_fields m) ->
  (if ex then forward_field (table_name m) f else Some (create_table m)) = Some d0 ->
  first_given ex (migration_plan s) (table_name m) (field_col f) = Some (d0, field_info f).
Proof.
  intros Hf Hex. pose proof Hm as Hin. apply list_elem_of_split in Hin as (A & B & HAB).
  assert (Hother : forall m', m' ∈ A -> table_name m' <> table_name m).
  { intros m' Hm' He. pose proof (wn_tables s wn) as Hnd. rewrite HAB, fmap_app in Hnd.
    apply NoDup_app in Hnd as (_ & Hdis & _). apply (Hdis (table_name m')).
    - by apply list_elem_of_fmap_2.
    - rewrite He. left. }
  unfold migration_plan. rewrite HAB, bind_app, bind_cons, <-!app_assoc.
  rewrite first_given_skip.
  2: { apply Forall_forall. intros d (m' & Hd & Hm')%list_elem_of_bind.
       pose proof (model_plan_table m') as Ht. rewrite Forall_forall in Ht. rewrite (Ht d Hd).
       assert (Hd' : ddl_fits (create_table m')).
       { pose proof (wn_fits s wn) as Hfit. rewrite Forall_forall in Hfit. apply Hfit.
         unfold migration_plan. apply elem_of_app. left. apply list_elem_of_bind. exists m'.
         split; [left|]. rewrite HAB. apply elem_of_app. by left. }
       rewrite pg_name_fits by apply Hd'. by apply Hother. }
  unfold model_plan, create_table. rewrite <-!app_assoc. cbn [app first_given creates gives].
  rewrite bool_decide_eq_true_2 by apply table_fits. rewrite orb_true_r.
  rewrite decide_True by apply table_fits.
  destruct ex; [by apply forward_first|]. injection Hex as <-. by rewrite created_column.
Qed.
End Model.
End Schema.

(** ** The properties *)

(** C15: a successful migration reaches the schema.  It only adds: tables, columns with their
    types, indexes, constraints and rows that were there stay.  Every model has its table
    with the tenant and deletion columns; a declared column that was not there has the type
    and nullability its field asks for.  A primary key that is missing from a table that
    exists is the one thing it does not add.  A migration that fails changes nothing. *)
Theorem migration_reaches_schema `{HashOrder} {D : Type} `{Database D} (s : Schema) (d d' : D)
    (r : unit + string) :
  PgLaws D -> WellNamed s -> migrate exec s d = (r, d') ->
  match r with
  | inr _ => d' = d
  | inl _ =>
      grows (catalog d) (catalog d') /\ populated d' = populated d /\
      forall m, m ∈ hvalues (sc_models s) ->
        is_Some (column_at (catalog d') (table_name m) "tenant_id") /\
        is_Some (column_at (catalog d') (table_name m) "deleted_at") /\
        forall f, f ∈ hvalues (m_fields m) ->
          column_at (catalog d) (table_name m) (field_col f) = None ->
          is_primary f = false \/ has_table (catalog d) (table_name m) = false ->
          column_at (catalog d') (table_name m) (field_col f) =
            Some (if is_primary f then mkCol "TEXT" true
                  else mkCol (field_type_to_sql (f_type f)) (negb (f_optional f)))
  end.
Proof.
  intros laws wn. unfold migrate. destruct (run_ddl exec (migration_plan s) d) as [d1|e] eqn:Hr;
    intros [= <- <-]; [|done].
  pose proof (wn_fits s wn) as Hf. destruct (run_grows _ _ _ Hf Hr) as [G P]. split_and!; [done|done|].
  intros m Hm. pose proof (run_asked _ _ _ Hf Hr) as Ha. rewrite Forall_forall in Ha.
  assert (Hadd : forall col ty, AddColumn (table_name m) col ty "" false ∈ model_plan m -> fits col ->
            is_Some (column_at (catalog d1) (table_name m) col)).
  { intros col ty Hc Hcf. destruct (Ha _ (in_plan s m Hm _ Hc)) as [_ Hs].
    simpl in Hs. by rewrite (table_fits s m wn Hm), pg_name_fits in Hs. }
  assert (Htenant : is_Some (column_at (catalog d1) (table_name m) "tenant_id")).
  { eapply Hadd; [unfold model_plan; rewrite !elem_of_app; right; right; left; right; left|].
    unfold fits. simpl. lia. }
  split_and!; [done| |].
  { eapply Hadd; [unfold model_plan; rewrite !elem_of_app; right; right; left; left|].
    unfold fits. simpl. lia. }
  intros f Hfm Hn Hex.
  assert (Ht : table_exists (catalog d1) (table_name m)).
  { destruct Htenant as [i Hi]. unfold column_at in Hi.
    unfold table_exists. destruct (c_tables _ !! _); [by eexists|done]. }
  rewrite (run_first _ _ _ _ _ Hf Hr Hn Ht).
  assert (Hd : exists d0, (if has_table (catalog d) (table_name m)
                           then forward_field (table_name m) f else Some (create_table m)) = Some d0).
  { destruct (has_table _ _); [|by eexists]. destruct Hex as [Hp|]; [by apply forward_is|done]. }
  destruct Hd as [d0 Hd]. rewrite (plan_gives s m wn Hm f _ d0 Hfm Hd). simpl.
  unfold field_info, field_column. by destruct (is_primary f).
Qed.

(** a migration can be repeated.  Once it has succeeded, running it again at any later
    time, whatever rows, tables, columns, indexes and constraints were added meanwhile, does
    nothing and succeeds. *)
Theorem migration_repeatable `{HashOrder} {D : Type} `{Database D} (s : Schema) (d d' later : D) :
  PgLaws D -> WellNamed s -> migrate exec s d = (inl tt, d') ->
  grows (catalog d') (catalog later) -> migrate exec s later = (inl tt, later).
Proof.
  intros laws wn. unfold migrate. destruct (run_ddl exec (migration_plan s) d) as [d1|e] eqn:Hr;
    intros [= <-] G.
  pose proof (run_asked _ _ _ (wn_fits s wn) Hr) as Ha. rewrite run_nothing; [done|].
  eapply Forall_impl; [exact Ha|]. intros x [Hp Hx]. split; [done|]. by eapply asked_grows.
Qed.

(** a required field without a default cannot be added to a table that holds rows: the
    migration fails and leaves the database as it was. *)
Theorem required_column_refused `{HashOrder} {D : Type} `{Database D} (s : Schema) (d : D)
    (m : Model) (f : Field) :
  PgLaws D -> WellNamed s -> m ∈ hvalues (sc_models s) -> f ∈ hvalues (m_fields m) ->
  is_primary f = false -> f_optional f = false -> column_default_clause f = EmptyString ->
  has_table (catalog d) (table_name m) = true -> populated d (table_name m) = true ->
  column_at (catalog d) (table_name m) (field_col f) = None ->
  exists e, migrate exec s d = (inr e, d).
Proof.
  intros laws wn Hm Hf Hp Ho Hdef Ht Hpop Hn. unfold migrate.
  destruct (run_ddl exec (migration_plan s) d) as [d1|e] eqn:Hr; [exfalso|by exists e].
  pose proof (wn_fits s wn) as Hfit.
  assert (Hs : forward_field (table_name m) f =
               Some (AddRequired (table_name m) (field_col f) (field_type_to_sql (f_type f)))).
  { unfold forward_field. by rewrite Hp, Ho, Hdef. }
  assert (Hg := plan_gives s m wn Hm f true _ Hf Hs). rewrite <-Ht in Hg.
  assert (Ht1 : table_exists (catalog d1) (table_name m)).
  { destruct (run_grows _ _ _ Hfit Hr) as [(_ & Hg2 & _) _]. apply Hg2. unfold table_exists.
    unfold has_table in Ht. by destruct (c_tables (catalog d) !! table_name m). }
  destruct (run_first_executes _ _ _ _ _ _ _ Hfit Hr Hn Ht1 Hg) as (d2 & d3 & He & Hn2 & Hpop2).
  destruct (pg_refuses (table_name m) (field_col f) (field_type_to_sql (f_type f)) d2) as [e He'].
  - simpl. rewrite Hn2. by intros [? ?].
  - rewrite (table_fits s m wn Hm). by rewrite Hpop2.
  - congruence.
Qed.

(** ** A database, a schema, and two defects *)
Module MigrationExamples.
#[local] Existing Instance enum_order.

(** A catalog and the names of the tables that hold rows. *)
Abbreviation Db := (Catalog * gset string)%type.

Definition grow_column (t col : string) (i : Column) (d : Db) : Db + string :=
  match c_tables d.1 !! pg_name t with
  | Some cols => inl (mkCatalog (<[pg_name t := <[pg_name col := i]> cols]> (c_tables d.1))
                        (c_indexes d.1) (c_constraints d.1), d.2)
  | None => inr "relation does not exist"%string
  end.
Definition grow_constraint (name : string) (d : Db) : Db + string :=
  if decide (pg_name name ∈ c_constraints d.1) then inr "constraint already exists"%string
  else inl (mkCatalog (c_tables d.1) (c_indexes d.1) ({[pg_name name]} ∪ c_constraints d.1), d.2).

Definition execute (s : Ddl) (d : Db) : Db + string :=
  if decide (asked s d.1) then inl d else
  match s with
  | CreateTable t cols =>
      inl (mkCatalog (<[pg_name t := columns_of cols]> (c_tables d.1)) (c_indexes d.1) (c_constraints d.1), d.2)
  | AddColumn t col ty _ nn => grow_column t col (mkCol ty nn) d
  | AddRequired t col ty =>
      if decide (pg_name t ∈ d.2) then inr "cannot add required column"%string
      else grow_column t col (mkCol ty true) d
  | CreateIndex _ name _ _ _ =>
      inl (mkCatalog (c_tables d.1) ({[pg_name name]} ∪ c_indexes d.1) (c_constraints d.1), d.2)
  | AddForeignKey _ name _ _ | AddCheck _ name _ => grow_constraint name d
  end.

#[export] Instance db_database : Database Db := {|
  exec := execute;
  parses := fun _ => True;
  catalog := fst;
  populated := fun d t => bool_decide (t ∈ d.2)
|}.

Lemma grow_column_spec t col i (d d' : Db) :
  grow_column t col i d = inl d' -> adds_column t col i d.1 d'.1 /\ d'.2 = d.2.
Proof. unfold grow_column. destruct (c_tables d.1 !! _) eqn:Ht; intros [= <-]. split; [by eexists|done]. Qed.

#[export] Instance db_lawful : PgLaws Db.
Proof.
  split; simpl.
  - done.
  - intros s d _ Ha. unfold execute. by rewrite decide_True.
  - intros s d d' Ha. unfold execute. rewrite decide_False by done. destruct s; simpl in *.
    + by intros [= <-].
    + intros [Hg ->]%grow_column_spec. by split.
    + destruct (decide _); [done|]. intros [Hg ->]%grow_column_spec. by split.
    + by intros [= <-].
    + unfold grow_constraint. destruct (decide _); [done|]. by intros [= <-].
    + unfold grow_constraint. destruct (decide _); [done|]. by intros [= <-].
  - intros t col ty d Ha Hp. unfold execute. rewrite decide_False by done.
    apply bool_decide_eq_true in Hp. rewrite decide_True by done. by eexists.
Qed.

Definition field (name : string) (ty : FieldType) (optional : bool) (a : list FieldAttribute) : string * Field :=
  (name, mkField name ty optional a).
Definition note : Model :=
  mkModel "Note" (list_to_map [field "id" FEntityId false []; field "title" FString false [Unique];
                               field "viewCount" FNumber true []; field "ownerId" FString true []])
    None None {[ "title"%string := "required|min:3"%string ]} (Some "notes"%string)
    {[ "owner"%string := mkRelationship "belongsTo" "Person" None ]} [CIndex ["ownerId"; "viewCount"]%string]
    events_default None.
Definition person : Model :=
  bare_model "Person" (list_to_map [field "id" FEntityId false []; field "name" FString false []]) (Some "people"%string).
Definition schema : Schema := mkSchema {[ "Note"%string := note; "Person"%string := person ]} ∅ ∅ [].

Definition empty : Db := (mkCatalog ∅ ∅ ∅, ∅).
(** People without names, some of them there. *)
Definition people : Db :=
  (mkCatalog {[ "people"%string := {[ "id"%string := mkCol "TEXT" true ]} ]} ∅ ∅, {[ "people"%string ]}).

Definition finished (o : (unit + string) * Db) : Db := o.2.

Lemma schema_named : WellNamed schema.
Proof.
  split.
  - apply (bool_decide_unpack _). vm_compute. exact I.
  - intros m Hm. assert (H : Forall (fun m => NoDup (declared m)) (hvalues (sc_models schema))).
    { apply (bool_decide_unpack _). vm_compute. exact I. }
    rewrite Forall_forall in H. by apply H.
  - apply (bool_decide_unpack _). vm_compute. exact I.
Qed.

Lemma migration_reaches_schema_witness :
  exists d, migrate exec schema empty = (inl tt, d) /\
    column_at d.1 "notes" "view_count" = Some (mkCol "BIGINT" false).
Proof.
  destruct (migrate exec schema empty) as [r d] eqn:Hm.
  pose proof (migration_reaches_schema schema empty d r db_lawful schema_named Hm) as H.
  assert (Hr : (migrate exec schema empty).1 = inl tt) by (vm_compute; reflexivity).
  rewrite Hm in Hr. simpl in Hr. subst r.
  exists d. split; [done|]. destruct H as (_ & _ & H).
  destruct (H note) as (_ & _ & Hf); [apply elem_of_hvalues; exists "Note"%string; reflexivity|].
  refine (Hf (mkField "viewCount" FNumber true []) _ eq_refl (or_introl eq_refl)).
  apply elem_of_hvalues. exists "viewCount"%string. reflexivity.
Defined.

Lemma migration_repeatable_witness :
  migrate exec schema (finished (migrate exec schema empty)) = (inl tt, finished (migrate exec schema empty)).
Proof.
  apply (migration_repeatable schema empty (finished (migrate exec schema empty)));
    [exact db_lawful|exact schema_named|vm_compute; reflexivity|reflexivity].
Defined.

Lemma required_column_refused_witness : exists e, migrate exec schema people = (inr e, people).
Proof.
  apply (required_column_refused schema people person (mkField "name" FString false []));
    [exact db_lawful|exact schema_named|apply elem_of_hvalues; exists "Person"%string; reflexivity
    |apply elem_of_hvalues; exists "name"%string; reflexivity|reflexivity..].
Defined.

(** Timestamps are not added to a table that lacks them, only the deletion and tenant
    columns are; the list views order by the creation time. *)
Definition old_people : Db :=
  (mkCatalog {[ "people"%string := {[ "id"%string := mkCol "TEXT" true; "name"%string := mkCol "TEXT" true ]} ]} ∅ ∅, ∅).
Example timestamps_not_forwarded :
  (migrate exec schema old_people).1 = inl tt /\
  column_at (finished (migrate exec schema old_people)).1 "people" "deleted_at" = Some (mkCol "TIMESTAMPTZ" false) /\
  column_at (finished (migrate exec schema old_people)).1 "people" "created_at" = None.
Proof. by vm_compute. Qed.

(** A guard looks for the name as it is written, the database keeps its first 63 bytes: a
    check with a longer name is added once, and every later start fails. *)
Definition wordy : Schema :=
  mkSchema {[ "Note"%string :=
    mkModel "Note" (list_to_map [field "id" FEntityId false [];
      field "aRatherLongWindedDescriptionOfTheThingInQuestion" FString false []]) None None
      {[ "aRatherLongWindedDescriptionOfTheThingInQuestion"%string := "min:3"%string ]}
      (Some "some_quite_long_table_name"%string) ∅ [] events_default None ]} ∅ ∅ [].
Example long_names_fail_on_restart :
  (migrate exec wordy empty).1 = inl tt /\
  (migrate exec wordy (finished (migrate exec wordy empty))).1 = inr "constraint already exists"%string.
Proof. by vm_compute. Qed.

(** The names of two constraints can be the same: the second is then taken for there. *)
Example check_names_collide :
  constraint_ddl "notes" 0 (CUnique ["title"]) = CreateIndex true "uq_notes_title" "notes" ["title"%string] None /\
  constraint_ddl "notes" 1 (CUniqueWhere ["title"] "deleted_at IS NULL") =
    CreateIndex true "uq_notes_title" "notes" ["title"%string] (Some "deleted_at IS NULL"%string) /\
  validation_checks "a" "bC" (mkField "bC" FString false []) "min:3" =
    [AddCheck "a" "chk_a_b_c_min" ("length(" +:+ quote_ident "b_c" +:+ ") >= 3")] /\
  validation_checks "a_b" "c" (mkField "c" FString false []) "min:5" =
    [AddCheck "a_b" "chk_a_b_c_min" ("length(" +:+ quote_ident "c" +:+ ") >= 5")].
Proof. by vm_compute. Qed.
End MigrationExamples.
