(* ===== verification/Scan.v ===== *)
(** * The byte scanners of the schema parsers ([schema_dsl_parser.rs])

    The parsers walk over bytes with an index, counting brackets and skipping quoted
    strings.  The nested loops are written as one automaton that reads a byte at a time;
    the index they end with is returned with it, also where it runs past the end, which is
    where a slice of the source panics.  The grammar of balanced text is the reference.
    Then the regular expressions of the [regex] crate as a class with laws, and a small
    engine that keeps them. *)

From S2P Require Import Prelude Json.

(** ** Slices *)

Definition byte_at (s : string) (i : nat) : option Ascii.ascii := String.get i s.
(** A byte 10xxxxxx continues a character. *)
Definition is_continuation (a : Ascii.ascii) : bool :=
  let n := Ascii.nat_of_ascii a in ((128 <=? n) && (n <? 192))%nat.
Definition is_char_boundary (s : string) (i : nat) : bool :=
  match byte_at s i with
  | Some a => negb (is_continuation a)
  | None => Nat.eqb i (String.length s)
  end.

(** The string without its first [n] bytes *)
Fixpoint drop_bytes (n : nat) (s : string) : string :=
  match n, s with
  | O, _ => s
  | S n, String _ r => drop_bytes n r
  | S _, EmptyString => EmptyString
  end.
Fixpoint take_bytes (n : nat) (s : string) : string :=
  match n, s with
  | S n, String a r => String a (take_bytes n r)
  | _, _ => EmptyString
  end.

(** [&s[a..b]], a panic when it does not fit *)
Definition slice (s : string) (a b : nat) : option string :=
  if (a <=? b)%nat && (b <=? String.length s)%nat && is_char_boundary s a && is_char_boundary s b
  then Some (take_bytes (b - a) (drop_bytes a s)) else None.
(** [&s[a..]] *)
Definition slice_from (s : string) (a : nat) : option string := slice s a (String.length s).

(** ** Brackets and strings *)

Definition backslash : Ascii.ascii := Ascii.ascii_of_nat 92.
Definition squote_c : Ascii.ascii := Ascii.ascii_of_nat 39.
Definition dquote_c : Ascii.ascii := Ascii.ascii_of_nat 34.
Definition backquote : Ascii.ascii := Ascii.ascii_of_nat 96.
Definition two_quotes (a : Ascii.ascii) : bool := Ascii.eqb a squote_c || Ascii.eqb a dquote_c.
Definition three_quotes (a : Ascii.ascii) : bool := two_quotes a || Ascii.eqb a backquote.
Definition no_quotes (a : Ascii.ascii) : bool := false.

(** In code, in a string that ends with [q], after a backslash in it *)
Inductive mode : Type := Code | Quoted (q : Ascii.ascii) | Escaped (q : Ascii.ascii).

(** What the index counts beyond the end of the text, when it ends in a mode *)
Definition overrun (m : mode) : nat := match m with Code => 0 | Quoted _ => 1 | Escaped _ => 2 end.

Section Scan.
Variable opening closing : Ascii.ascii.
Variable is_quote : Ascii.ascii -> bool.

(** The mode and depth after a byte *)
Definition step (m : mode) (depth : nat) (a : Ascii.ascii) : mode * nat :=
  match m with
  | Code =>
      if Ascii.eqb a opening then (Code, S depth)
      else if Ascii.eqb a closing then (Code, pred depth)
      else if is_quote a then (Quoted a, depth)
      else (Code, depth)
  | Quoted q =>
      if Ascii.eqb a q then (Code, depth)
      else if Ascii.eqb a backslash then (Escaped q, depth)
      else (Quoted q, depth)
  | Escaped q => (Quoted q, depth)
  end.

(** From index [i] on, until the depth is zero: the last index and depth. *)
Fixpoint scan (m : mode) (depth i : nat) (s : string) : nat * nat :=
  match depth with
  | O => (i, O)
  | _ =>
      match s with
      | EmptyString => ((i + overrun m)%nat, depth)
      | String a r => let '(m', d) := step m depth a in scan m' d (S i) r
      end
  end.

(** What lies before the bracket that closes the one before [start] *)
Definition balanced_body (content : string) (start : nat) : option (option string) :=
  let '(i, depth) := scan Code 1 start (drop_bytes start content) in
  match depth with
  | O => Some <$> slice content start (i - 1)
  | _ => Some None
  end.

(** ** The grammar of balanced text *)

Inductive InString (q : Ascii.ascii) : string -> Prop :=
  | in_nil : InString q EmptyString
  | in_char a s : a <> q -> a <> backslash -> InString q s -> InString q (String a s)
  | in_escape a s : backslash <> q -> InString q s -> InString q (String backslash (String a s)).

Inductive Balanced : string -> Prop :=
  | bal_nil : Balanced EmptyString
  | bal_char a s : a <> opening -> a <> closing -> is_quote a = false -> Balanced s -> Balanced (String a s)
  | bal_string q b s : q <> opening -> q <> closing -> is_quote q = true -> InString q b -> Balanced s ->
      Balanced (String q (b +:+ String q s))
  | bal_group b s : Balanced b -> Balanced s -> Balanced (String opening (b +:+ String closing s)).
End Scan.

(** ** A chain of method calls *)

Inductive chain_mode : Type :=
  | CDots | CName | CSpace | CArgs (m : mode) (depth : nat).

Definition is_alnum (a : Ascii.ascii) : bool :=
  let n := Ascii.nat_of_ascii a in
  ((48 <=? n) && (n <=? 57) || (65 <=? n) && (n <=? 90) || (97 <=? n) && (n <=? 122))%nat.
Definition is_underscore (a : Ascii.ascii) : bool := Ascii.eqb a (Ascii.ascii_of_nat 95).
(** Blank, tab, line feed, carriage return; [is_ascii_whitespace] has the form feed too. *)
Definition is_gap (a : Ascii.ascii) : bool :=
  existsb (fun n => Nat.eqb (Ascii.nat_of_ascii a) n) [32; 9; 10; 13]%nat.
Definition is_ascii_whitespace (a : Ascii.ascii) : bool :=
  is_gap a || Nat.eqb (Ascii.nat_of_ascii a) 12.
Definition paren_open : Ascii.ascii := Ascii.ascii_of_nat 40.
Definition paren_close : Ascii.ascii := Ascii.ascii_of_nat 41.
Definition full_stop : Ascii.ascii := Ascii.ascii_of_nat 46.

(** The mode after a byte, or [None] where the chain ends before it *)
Definition dots_step (a : Ascii.ascii) : option chain_mode :=
  if is_gap a then Some CDots else if Ascii.eqb a full_stop then Some CName else None.
Definition space_step (a : Ascii.ascii) : option chain_mode :=
  if is_ascii_whitespace a then Some CSpace
  else if Ascii.eqb a paren_open then Some (CArgs Code 1) else dots_step a.
Definition chain_step (c : chain_mode) (a : Ascii.ascii) : option chain_mode :=
  match c with
  | CDots => dots_step a
  | CName => if is_alnum a || is_underscore a then Some CName else space_step a
  | CSpace => space_step a
  | CArgs _ O => dots_step a
  | CArgs m depth => let '(m', d) := step paren_open paren_close two_quotes m depth a in Some (CArgs m' d)
  end.

Fixpoint chain_end (c : chain_mode) (i : nat) (s : string) : nat :=
  match s with
  | EmptyString => match c with CArgs m (S _) => i + overrun m | _ => i end
  | String a r => match chain_step c a with Some c' => chain_end c' (S i) r | None => i end
  end.

Definition take_chain (s : string) : option string := slice s 0 (chain_end CDots 0 s).

(** ** Strings by bytes *)

Lemma drop_bytes_app a b : drop_bytes (String.length a) (a +:+ b) = b.
Proof. induction a as [|x a IH]; [by rewrite str_app_nil; destruct b|]. rewrite str_app_cons. exact IH. Qed.

Lemma take_bytes_app a b : take_bytes (String.length a) (a +:+ b) = a.
Proof. induction a as [|x a IH]; [by destruct b|]. rewrite str_app_cons. simpl. by rewrite IH. Qed.

Lemma drop_bytes_nil n : drop_bytes n EmptyString = EmptyString.
Proof. by destruct n. Qed.

Lemma drop_bytes_split n s :
  (n <= String.length s)%nat -> exists p, s = p +:+ drop_bytes n s /\ String.length p = n.
Proof.
  revert s. induction n as [|n IH]; intros s Hl; [by exists EmptyString|].
  destruct s as [|a s]; simpl in *; [lia|]. destruct (IH s) as (p & Hp & Hn); [lia|].
  exists (String a p). rewrite str_app_cons. simpl. split; [by rewrite <-Hp|by rewrite Hn].
Qed.

Lemma byte_at_app a x b : byte_at (a +:+ String x b) (String.length a) = Some x.
Proof. induction a as [|y a IH]; [done|]. rewrite str_app_cons. exact IH. Qed.

Lemma byte_at_end s : byte_at s (String.length s) = None.
Proof. induction s as [|a s IH]; [done|]. exact IH. Qed.

Lemma str_length_app a b : String.length (a +:+ b) = (String.length a + String.length b)%nat.
Proof. induction a as [|x a IH]; [done|]. rewrite str_app_cons. simpl. by rewrite IH. Qed.

Lemma ends_with_app t s : ends_with t (s +:+ t) = true.
Proof.
  unfold ends_with. rewrite str_length_app, Nat.add_sub.
  rewrite (proj2 (Nat.leb_le _ _)) by lia. apply bool_decide_eq_true_2.
  induction s as [|a s IH]; [|by rewrite str_app_cons].
  rewrite str_app_nil. cbn. induction t as [|a t IH]; [done|]. cbn. by f_equal.
Qed.

Lemma slice_middle p b x rest :
  is_char_boundary (p +:+ b +:+ String x rest) (String.length p) = true -> is_continuation x = false ->
  slice (p +:+ b +:+ String x rest) (String.length p) (String.length p + String.length b) = Some b.
Proof.
  intros Hs Hx. unfold slice. rewrite Hs.
  assert (He : is_char_boundary (p +:+ b +:+ String x rest) (String.length p + String.length b) = true).
  { unfold is_char_boundary. rewrite <-str_length_app, <-str_app_assoc, byte_at_app. by rewrite Hx. }
  rewrite He, drop_bytes_app. replace (_ + _ - _)%nat with (String.length b) by lia.
  rewrite take_bytes_app, !str_length_app. simpl.
  rewrite (proj2 (Nat.leb_le _ _)), (proj2 (Nat.leb_le _ _)); [done|lia|lia].
Qed.

(** ** The scanner follows the grammar *)

Section Grammar.
Variable opening closing : Ascii.ascii.
Variable is_quote : Ascii.ascii -> bool.
Context (Hoc : opening <> closing).
Context (Hoq : is_quote opening = false) (Hcq : is_quote closing = false).

Abbreviation scan := (scan opening closing is_quote).
Abbreviation Balanced := (Balanced opening closing is_quote).

Ltac byte_eq := repeat first
  [ rewrite Ascii.eqb_refl
  | match goal with |- context [Ascii.eqb ?a ?b] => rewrite (proj2 (Ascii.eqb_neq a b)) by congruence end ].

Ltac lengths := f_equal; cbn [String.length]; rewrite ?str_length_app; cbn [String.length]; lia.
Ltac go_scan := cbn [Scan.scan step].

Lemma scan_string q b d i s :
  InString q b ->
  scan (Quoted q) (S d) i (b +:+ String q s) = scan Code (S d) (S (i + String.length b)) s.
Proof.
  intros Hb. revert i. induction Hb as [|a b Ha Hbs Hb IH|a b Hq Hb IH]; intros i.
  - rewrite str_app_nil. go_scan. byte_eq. by rewrite Nat.add_0_r.
  - rewrite str_app_cons. go_scan. byte_eq. rewrite IH. simpl. by rewrite Nat.add_succ_r.
  - rewrite !str_app_cons. go_scan. byte_eq. cbn [step]. rewrite IH. lengths.
Qed.

Lemma scan_balanced b d i s :
  Balanced b -> scan Code (S d) i (b +:+ s) = scan Code (S d) (i + String.length b) s.
Proof.
  intros Hb. revert d i s. induction Hb as [|a b Ho Hc Hq Hb IH|q b r Ho Hc Hq Hin Hr IH|b r Hb IHb Hr IHr];
    intros d i s.
  - by rewrite str_app_nil, Nat.add_0_r.
  - rewrite str_app_cons. go_scan. byte_eq. rewrite Hq. rewrite IH. lengths.
  - rewrite str_app_cons, str_app_assoc, str_app_cons. go_scan. byte_eq. rewrite Hq.
    rewrite scan_string by done. rewrite IH. lengths.
  - rewrite str_app_cons, str_app_assoc, str_app_cons. go_scan. byte_eq.
    rewrite IHb. go_scan. byte_eq. simpl. rewrite IHr. lengths.
Qed.

(** A string that is left was closed. *)
Lemma scan_string_inv q d i s j :
  (scan (Quoted q) (S d) i s = (j, O) -> exists b r, s = b +:+ String q r /\ InString q b /\
     scan Code (S d) (S (i + String.length b)) r = (j, O)) /\
  (scan (Escaped q) (S d) i s = (j, O) -> exists a b r, s = String a (b +:+ String q r) /\ InString q b /\
     scan Code (S d) (S (S (i + String.length b))) r = (j, O)).
Proof.
  revert i. induction s as [|a s IH]; intros i; [by split; simpl|]. split; simpl.
  - destruct (Ascii.eqb_spec a q) as [->|Hq].
    + intros Hs. exists EmptyString, s. rewrite str_app_nil. split; [done|]. split; [constructor|].
      simpl. by rewrite Nat.add_0_r.
    + destruct (Ascii.eqb_spec a backslash) as [->|Hb].
      * intros Hs. destruct (IH (S i)) as [_ H]. destruct (H Hs) as (a & b & r & -> & Hin & Hr).
        exists (String backslash (String a b)), r. rewrite !str_app_cons. split; [done|].
        split; [by constructor|]. rewrite <-Hr. lengths.
      * intros Hs. destruct (IH (S i)) as [H _]. destruct (H Hs) as (b & r & -> & Hin & Hr).
        exists (String a b), r. rewrite str_app_cons. split; [done|]. split; [by constructor|].
        rewrite <-Hr. lengths.
  - intros Hs. destruct (IH (S i)) as [H _]. destruct (H Hs) as (b & r & -> & Hin & Hr).
    exists a, b, r. by split.
Qed.

Lemma scan_inv n d i s j :
  (String.length s <= n)%nat -> scan Code (S d) i s = (j, O) ->
  exists b r, s = b +:+ String closing r /\ Balanced b /\
    scan Code d (S (i + String.length b)) r = (j, O).
Proof.
  revert d i s. induction n as [|n IH]; intros d i s Hl; (destruct s as [|a s]; [done|]); simpl in Hl; [lia|].
  simpl. destruct (Ascii.eqb_spec a opening) as [->|Ho].
  - intros Hs. apply IH in Hs as (b1 & r1 & -> & Hb1 & Hs); [|lia].
    rewrite str_length_app in Hl. simpl in Hl. apply IH in Hs as (b2 & r2 & -> & Hb2 & Hs); [|lia].
    exists (String opening (b1 +:+ String closing b2)), r2.
    rewrite str_app_cons, str_app_assoc, str_app_cons. split; [done|]. split; [by constructor|].
    rewrite <-Hs. lengths.
  - destruct (Ascii.eqb_spec a closing) as [->|Hc].
    + intros Hs. exists EmptyString, s. rewrite str_app_nil. split; [done|]. split; [constructor|].
      simpl. by rewrite Nat.add_0_r.
    + destruct (is_quote a) eqn:Hq; intros Hs.
      * apply scan_string_inv in Hs as (b1 & r1 & -> & Hin & Hs). rewrite str_length_app in Hl. simpl in Hl.
        apply IH in Hs as (b2 & r2 & -> & Hb2 & Hs); [|lia].
        exists (String a (b1 +:+ String a b2)), r2.
        rewrite str_app_cons, str_app_assoc, str_app_cons. split; [done|]. split; [by constructor|].
        rewrite <-Hs. lengths.
      * apply IH in Hs as (b & r & -> & Hb & Hs); [|lia].
        exists (String a b), r. rewrite str_app_cons. split; [done|]. split; [by constructor|].
        rewrite <-Hs. lengths.
Qed.

Lemma scan_zero m i s : scan m 0 i s = (i, O).
Proof. by destruct s. Qed.

(** The scanner finds exactly the balanced text before a closing bracket. *)
Lemma balanced_body_iff content start body :
  (start <= String.length content)%nat -> is_char_boundary content start = true ->
  is_continuation closing = false ->
  balanced_body opening closing is_quote content start = Some (Some body) <->
  exists rest, drop_bytes start content = body +:+ String closing rest /\ Balanced body.
Proof.
  intros Hl Hst Hx. destruct (drop_bytes_split start content Hl) as (p & Hp & <-).
  unfold balanced_body. set (s := drop_bytes _ _) in *.
  assert (Hslice : forall b r, s = b +:+ String closing r ->
    slice content (String.length p) (S (String.length p + String.length b) - 1) = Some b).
  { intros b r Hs. rewrite Hp, Hs. replace (S _ - 1)%nat with (String.length p + String.length b)%nat by lia.
    apply slice_middle; [by rewrite <-Hs, <-Hp|done]. }
  split.
  - destruct (scan Code 1 (String.length p) s) as [j d] eqn:Hs. destruct d as [|d]; [|done].
    apply (scan_inv (String.length s)) in Hs as (b & r & Hb & Hbal & Hs); [|done].
    rewrite scan_zero in Hs. injection Hs as <-. rewrite (Hslice b r Hb). intros [= <-]. by exists r.
  - intros (r & Hr & Hbal). rewrite Hr, scan_balanced by done. simpl.
    rewrite (proj2 (Ascii.eqb_neq closing opening)), Ascii.eqb_refl by congruence. rewrite scan_zero.
    by rewrite (Hslice body r Hr).
Qed.
End Grammar.

(** ** Chains *)

(** [.name(args)] again and again, blanks between *)
Inductive Chain : string -> Prop :=
  | chain_nil : Chain EmptyString
  | chain_gap a s : is_gap a = true -> Chain s -> Chain (String a s)
  | chain_call name spaces args s :
      Forall (fun a => is_alnum a = true \/ is_underscore a = true) (String.list_ascii_of_string name) ->
      Forall (fun a => is_ascii_whitespace a = true) (String.list_ascii_of_string spaces) ->
      Balanced paren_open paren_close two_quotes args -> Chain s ->
      Chain (String full_stop (name +:+ spaces +:+ String paren_open (args +:+ String paren_close s))).

(** What may follow a chain *)
Definition ends_chain (rest : string) : Prop :=
  match rest with
  | EmptyString => True
  | String a _ => dots_step a = None /\ is_continuation a = false
  end.

(** The arguments are scanned as by [scan]. *)
Lemma chain_args m d i s :
  chain_end (CArgs m (S d)) i s =
  match scan paren_open paren_close two_quotes m (S d) i s with
  | (j, O) => chain_end CDots j (drop_bytes (j - i) s)
  | (j, _) => j
  end.
Proof.
  revert m d i. induction s as [|a s IH]; intros m d i; [done|].
  cbn [chain_end chain_step scan]. destruct (step _ _ _ m (S d) a) as [m' d'] eqn:Hstep.
  destruct d' as [|d'].
  - rewrite scan_zero. replace (S i - i)%nat with 1%nat by lia. cbn [drop_bytes].
    by destruct s.
  - rewrite IH. destruct (scan _ _ _ m' (S d') (S i) s) as [j e] eqn:Hs. destruct e; [|done].
    assert (Hj : (S i < j)%nat).
    { clear -Hs. revert m' d' i Hs. induction s as [|b s IHs]; intros m' d' i; cbn [scan]; [done|].
      destruct (step _ _ _ m' (S d') b) as [m2 d2]. destruct d2.
      - rewrite scan_zero. intros [= <-]. lia.
      - intros Hs. apply IHs in Hs. lia. }
    by replace (j - i)%nat with (S (j - S i))%nat by lia.
Qed.

Lemma chain_end_step c i a s c' : chain_step c a = Some c' -> chain_end c i (String a s) = chain_end c' (S i) s.
Proof. intros Hc. cbn [chain_end]. by rewrite Hc. Qed.

Lemma chain_name name i s :
  Forall (fun a => is_alnum a = true \/ is_underscore a = true) (String.list_ascii_of_string name) ->
  chain_end CName i (name +:+ s) = chain_end CName (i + String.length name) s.
Proof.
  revert i. induction name as [|a name IH]; intros i Hn; [by rewrite str_app_nil, Nat.add_0_r|].
  apply Forall_cons in Hn as [Ha Hn]. rewrite str_app_cons, (chain_end_step _ _ _ _ CName).
  - rewrite IH by done. f_equal. cbn [String.length]. lia.
  - cbn. by destruct Ha as [->| ->]; rewrite ?orb_true_r.
Qed.

Lemma chain_space spaces i s :
  Forall (fun a => is_ascii_whitespace a = true) (String.list_ascii_of_string spaces) ->
  chain_end CSpace i (spaces +:+ s) = chain_end CSpace (i + String.length spaces) s.
Proof.
  revert i. induction spaces as [|a spaces IH]; intros i Hn; [by rewrite str_app_nil, Nat.add_0_r|].
  apply Forall_cons in Hn as [Ha Hn]. rewrite str_app_cons, (chain_end_step _ _ _ _ CSpace).
  - rewrite IH by done. f_equal. cbn [String.length]. lia.
  - cbn. unfold space_step. by rewrite Ha.
Qed.

(** A name is followed by a space or by what may follow a space. *)
Lemma chain_name_space i a s :
  is_alnum a || is_underscore a = false -> chain_end CName i (String a s) = chain_end CSpace i (String a s).
Proof. intros Ha. cbn [chain_end chain_step]. by rewrite Ha. Qed.

Lemma whitespace_no_name a : is_ascii_whitespace a = true -> is_alnum a || is_underscore a = false.
Proof.
  unfold is_ascii_whitespace, is_gap, is_alnum, is_underscore. simpl. intros Ha.
  repeat (apply orb_true_iff in Ha as [Ha|Ha]; [|]); try discriminate;
    apply Nat.eqb_eq in Ha; rewrite Ha;
    destruct (Ascii.eqb_spec a (Ascii.ascii_of_nat 95)) as [->|]; try done; vm_compute in Ha; discriminate.
Qed.

Lemma chain_prefix c i rest :
  Chain c -> ends_chain rest -> chain_end CDots i (c +:+ rest) = (i + String.length c)%nat.
Proof.
  intros Hc Hr. revert i. induction Hc as [|a s Ha Hs IH|name spaces args s Hn Hsp Hargs Hs IH]; intros i.
  - rewrite str_app_nil, Nat.add_0_r. destruct rest as [|a rest]; [done|]. cbn [chain_end chain_step].
    by destruct Hr as [-> _].
  - rewrite str_app_cons, (chain_end_step _ _ _ _ CDots); [|cbn; unfold dots_step; by rewrite Ha].
    rewrite IH. cbn [String.length]. lia.
  - rewrite str_app_cons, (chain_end_step _ _ _ _ CName) by done.
    rewrite !str_app_assoc, str_app_cons, str_app_assoc, str_app_cons, chain_name by done.
    set (tail := String paren_open _).
    assert (Hspace : forall k, chain_end CName k (spaces +:+ tail) = chain_end CSpace k (spaces +:+ tail)).
    { intros k. destruct spaces as [|b sp]; [by rewrite str_app_nil; apply chain_name_space|].
      rewrite str_app_cons. apply chain_name_space, whitespace_no_name.
      by apply Forall_cons in Hsp as [? _]. }
    rewrite Hspace, chain_space by done. unfold tail.
    rewrite (chain_end_step _ _ _ _ (CArgs Code 1)) by done. rewrite chain_args.
    rewrite scan_balanced by done. set (k := (S (S i + String.length name + String.length spaces))%nat).
    cbn [scan step]. rewrite (proj2 (Ascii.eqb_neq paren_close paren_open)), Ascii.eqb_refl by done.
    cbn [pred]. rewrite scan_zero.
    replace (S (k + String.length args) - k)%nat with (String.length (args +:+ String paren_close EmptyString))
      by (rewrite str_length_app; cbn [String.length]; lia).
    replace (args +:+ String paren_close (s +:+ rest))
      with ((args +:+ String paren_close EmptyString) +:+ s +:+ rest)
      by (by rewrite str_app_assoc, str_app_cons, str_app_nil).
    rewrite drop_bytes_app, IH. cbn [String.length]. rewrite !str_length_app. cbn [String.length].
    rewrite str_length_app. cbn [String.length]. unfold k. lia.
Qed.

(** A chain is taken whole, wherever it ends. *)
Lemma take_chain_whole c rest :
  is_char_boundary (c +:+ rest) 0 = true ->
  Chain c -> ends_chain rest -> take_chain (c +:+ rest) = Some c.
Proof.
  intros Hb Hc Hr. unfold take_chain. rewrite (chain_prefix c 0 rest Hc Hr). cbn [Nat.add].
  destruct rest as [|a rest].
  - rewrite str_app_empty_r in *. unfold slice. rewrite Hb, Nat.leb_refl. cbn.
    rewrite Nat.sub_0_r. unfold is_char_boundary at 1. rewrite byte_at_end, Nat.eqb_refl.
    by rewrite <-(str_app_empty_r c) at 2; rewrite take_bytes_app.
  - apply (slice_middle EmptyString c a rest); [by rewrite str_app_nil|apply Hr].
Qed.

(** * Regular expressions, an outside crate

    The parsers search with the [regex] crate.  The class [Regex] names its searches, by the
    text of the pattern, and [RegexLaws] what they promise about positions.  The module
    [Engine] is a small backtracking matcher for the patterns that occur, an instance on
    which the examples run. *)

(** A match: where it starts and ends, and the texts of its groups from the first on *)
Record Captures : Type := mkCaptures {
  c_start : nat;
  c_end : nat;
  c_groups : list (option string)
}.

Class Regex : Type := {
  captures_at : string -> string -> nat -> option Captures;    (* pattern, text, first position *)
  captures_iter : string -> string -> list Captures            (* successive matches *)
}.

Section Searches.
Context {rx : Regex}.
Definition captures (pattern text : string) : option Captures := captures_at pattern text 0.
Definition is_match (pattern text : string) : bool :=
  match captures pattern text with Some _ => true | None => false end.
(** [cap.get(k)]; [&cap[k]] where the group takes part in every match of the pattern *)
Definition group (k : nat) (c : Captures) : option string := mjoin (c_groups c !! pred k).
Definition cap (k : nat) (c : Captures) : string := default EmptyString (group k c).
End Searches.

Class RegexLaws `{Regex} : Prop := {
  captures_at_bounds p s k c :
    captures_at p s k = Some c -> (k <= c_start c /\ c_start c <= c_end c /\ c_end c <= String.length s)%nat
}.

(** ** A matcher *)
Module Engine.

Inductive re : Type :=
  | Eps | Chr (p : Ascii.ascii -> bool) | Boundary | First
  | Seq (a b : re) | Alt (a b : re) | Star (a : re) | Opt (a : re) | Group (k : nat) (a : re).

Definition chr (n : nat) : Ascii.ascii := Ascii.ascii_of_nat n.
Definition is_word (a : Ascii.ascii) : bool := is_alnum a || is_underscore a.
Definition is_number (a : Ascii.ascii) : bool := match digit_value a with Some _ => true | None => false end.
Definition any (a : Ascii.ascii) : bool := negb (Ascii.eqb a (chr 10)).

(** [\s] [\w] [\d] [\n] [\x22] and a character by itself; with what remains *)
Definition escape (s : string) : option ((Ascii.ascii -> bool) * string) :=
  match s with
  | String a r =>
      if Ascii.eqb a (chr 115) then Some (is_blank, r)
      else if Ascii.eqb a (chr 119) then Some (is_word, r)
      else if Ascii.eqb a (chr 100) then Some (is_number, r)
      else if Ascii.eqb a (chr 110) then Some (Ascii.eqb (chr 10), r)
      else if Ascii.eqb a (chr 120) then Some (Ascii.eqb dquote_c, drop_bytes 2 r)
      else Some (Ascii.eqb a, r)
  | EmptyString => None
  end.

Definition between (a x b : Ascii.ascii) : bool :=
  ((Ascii.nat_of_ascii a <=? Ascii.nat_of_ascii x) && (Ascii.nat_of_ascii x <=? Ascii.nat_of_ascii b))%nat.
(** The members of a class up to its bracket: characters, escapes and ranges *)
Fixpoint members (fuel : nat) (s : string) : (Ascii.ascii -> bool) * string :=
  match fuel, s with
  | S fuel, String a r =>
      if Ascii.eqb a (chr 93) then (fun _ => false, r)
      else if Ascii.eqb a backslash then
        match escape r with
        | Some (p, r) => let '(q, r) := members fuel r in (fun x => p x || q x, r)
        | None => (fun _ => false, EmptyString)
        end
      else match r with
           | String h (String b r') =>
               if Ascii.eqb h (chr 45) && negb (Ascii.eqb b (chr 93)) then
                 let '(q, r) := members fuel r' in (fun x => between a x b || q x, r)
               else let '(q, r) := members fuel r in (fun x => Ascii.eqb a x || q x, r)
           | _ => let '(q, r) := members fuel r in (fun x => Ascii.eqb a x || q x, r)
           end
  | _, _ => (fun _ => false, s)
  end.
Definition class (s : string) : (Ascii.ascii -> bool) * string :=
  match s with
  | String a r =>
      if Ascii.eqb a (chr 94) then
        let '(p, r) := members (String.length r) r in (fun x => negb (p x), r)
      else members (String.length s) s
  | EmptyString => (fun _ => false, s)
  end.

(** Repetition signs after an atom *)
Definition repeated (a : re) (s : string) : re * string :=
  match s with
  | String x r =>
      if Ascii.eqb x (chr 42) then (Star a, r)
      else if Ascii.eqb x (chr 43) then (Seq a (Star a), r)
      else if Ascii.eqb x (chr 63) then (Opt a, r)
      else (a, s)
  | EmptyString => (a, s)
  end.

(** Alternatives up to a bracket; [k] is the next group's number. *)
Fixpoint parse (fuel k : nat) (s : string) : re * nat * string :=
  match fuel with
  | O => (Eps, k, s)
  | S fuel =>
      match s with
      | EmptyString => (Eps, k, s)
      | String a r =>
          if Ascii.eqb a paren_close then (Eps, k, s)
          else if Ascii.eqb a (chr 124) then
            let '(e, k, r) := parse fuel k r in (Alt Eps e, k, r)
          else
            let '(atom, k, r) :=
              if Ascii.eqb a paren_open then
                if String.prefix "?:" r then
                  let '(e, k, r) := parse fuel k (drop_bytes 2 r) in (e, k, drop_bytes 1 r)
                else let '(e, k', r) := parse fuel (S k) r in (Group k e, k', drop_bytes 1 r)
              else if Ascii.eqb a (chr 91) then let '(p, r) := class r in (Chr p, k, r)
              else if Ascii.eqb a (chr 94) then (First, k, r)
              else if Ascii.eqb a full_stop then (Chr any, k, r)
              else if Ascii.eqb a backslash then
                if String.prefix "b" r then (Boundary, k, drop_bytes 1 r)
                else match escape r with Some (p, r) => (Chr p, k, r) | None => (Eps, k, r) end
              else (Chr (Ascii.eqb a), k, r) in
            let '(atom, r) := repeated atom r in
            let '(rest, k, r) := parse fuel k r in
            (match rest with Alt Eps e => Alt atom e | Alt x e => Alt (Seq atom x) e | _ => Seq atom rest end, k, r)
      end
  end.
Definition compile (p : string) : re * nat :=
  let '(e, k, _) := parse (String.length p) 1 p in (e, pred k).

(** Groups as found so far *)
Abbreviation Groups := (list (nat * string)).

Definition at_boundary (prev : option Ascii.ascii) (s : string) : bool :=
  let left := match prev with Some a => is_word a | None => false end in
  let right := match s with String a _ => is_word a | EmptyString => false end in
  xorb left right.

(** The first way to match, longest repetitions first; [next] is the rest of the pattern. *)
Fixpoint run (fuel : nat) (e : re) (prev : option Ascii.ascii) (pos : nat) (s : string) (gs : Groups)
    (next : option Ascii.ascii -> nat -> string -> Groups -> option (nat * Groups))
    : option (nat * Groups) :=
  match fuel with
  | O => None
  | S fuel =>
      match e with
      | Eps => next prev pos s gs
      | Chr p => match s with
                 | String a r => if p a then next (Some a) (S pos) r gs else None
                 | EmptyString => None
                 end
      | Boundary => if at_boundary prev s then next prev pos s gs else None
      | First => if Nat.eqb pos 0 then next prev pos s gs else None
      | Seq a b => run fuel a prev pos s gs (fun prev pos s gs => run fuel b prev pos s gs next)
      | Alt a b => match run fuel a prev pos s gs next with
                   | Some r => Some r
                   | None => run fuel b prev pos s gs next
                   end
      | Opt a => match run fuel a prev pos s gs next with
                 | Some r => Some r
                 | None => next prev pos s gs
                 end
      | Star a => match run fuel a prev pos s gs (fun prev' pos' s' gs' =>
                          if Nat.eqb pos' pos then None else run fuel (Star a) prev' pos' s' gs' next) with
                  | Some r => Some r
                  | None => next prev pos s gs
                  end
      | Group k a => run fuel a prev pos s gs (fun prev' pos' s' gs' =>
                       next prev' pos' s' ((k, take_bytes (pos' - pos) s) :: gs'))
      end
  end.

Definition lookup_group (gs : Groups) (k : nat) : option string :=
  head (omap (fun '(i, t) => if Nat.eqb i k then Some t else None) gs).

(** From each position on, the first that matches; positions are checked. *)
Fixpoint search (e : re) (groups : nat) (prev : option Ascii.ascii) (pos : nat) (s : string) : option Captures :=
  match run (20 + 3 * String.length s + 100) e prev pos s [] (fun _ pos _ gs => Some (pos, gs)) with
  | Some (stop, gs) => Some (mkCaptures pos stop (lookup_group gs <$> seq 1 groups))
  | None => match s with
            | EmptyString => None
            | String a r => search e groups (Some a) (S pos) r
            end
  end.

Definition find_at (p s : string) (k : nat) : option Captures :=
  let '(e, groups) := compile p in
  let prev := match k with O => None | S k' => byte_at s k' end in
  match search e groups prev k (drop_bytes k s) with
  | Some c => if (k <=? c_start c)%nat && (c_start c <=? c_end c)%nat && (c_end c <=? String.length s)%nat
              then Some c else None
  | None => None
  end.
Fixpoint find_all (fuel : nat) (p s : string) (k : nat) : list Captures :=
  match fuel with
  | O => []
  | S fuel => match find_at p s k with
              | Some c => c :: find_all fuel p s (if Nat.eqb (c_end c) k then S k else c_end c)
              | None => []
              end
  end.

#[export] Instance engine : Regex := {|
  captures_at := find_at;
  captures_iter := fun p s => find_all (S (String.length s)) p s 0
|}.

#[export] Instance engine_laws : RegexLaws.
Proof.
  split. intros p s k c. cbn. unfold find_at. destruct (compile p) as [e groups].
  destruct (search _ _ _ _ _) as [c'|]; [|done].
  destruct (_ && _ && _) eqn:Hb; [|done]. intros [= <-].
  rewrite !andb_true_iff, !Nat.leb_le in Hb. lia.
Qed.

Example find_model :
  captures (rx := engine) "export\s+const\s+(\w+)\s*=\s*model\s*\(\s*['\x22]([^'\x22]+)['\x22]"
    "  export const Post = model('posts', {"
  = Some (mkCaptures 2 35 [Some "Post"%string; Some "posts"%string]).
Proof. vm_compute. reflexivity. Qed.
Example find_words :
  (cap 1) <$> captures_iter (Regex := engine) "(\w+)\s*:" "a: 1, bc : 2" = ["a"; "bc"]%string.
Proof. vm_compute. reflexivity. Qed.
Example find_boundary :
  is_match (rx := engine) "\b(authenticated|sameTenant|owner)\s*\(" "allow.any([allow.owner('x')])" = true.
Proof. vm_compute. reflexivity. Qed.
Example find_role :
  (cap 1) <$> captures_iter (Regex := engine) "role\s*\(\s*\[?([^)\]]*)\]?\s*\)" "any([role(['a','b']), role('c')])"
  = ["'a','b'"; "'c'"]%string.
Proof. vm_compute. reflexivity. Qed.
End Engine.
