(* ===== verification/SchemaDsl.v ===== *)
(** * The parser of the schema builder language ([atomo_schema/src/schema_dsl_parser.rs])

    A schema is written as calls: [model('posts', ...)] with blocks of fields, access rules,
    events and constraints, and [action('name')] with a chain of methods.  The parser finds
    the calls by regular expressions and the extent of their blocks by the scanners of
    [Scan].  A slice out of range panics; a loop by a moving cursor takes fuel, and running
    out of it is an outcome of its own. *)

From stdpp Require Import pretty.
From S2P Require Import Prelude Json SchemaTypes Scan.

(** ** Outcomes *)

Inductive Outcome (A : Type) : Type := Returns (a : A) | Panics | Diverges.
Arguments Returns {A} a.
Arguments Panics {A}.
Arguments Diverges {A}.

#[global] Instance outcome_ret : MRet Outcome := @Returns.
#[global] Instance outcome_bind : MBind Outcome := fun A B k m =>
  match m with Returns a => k a | Panics => Panics | Diverges => Diverges end.

Definition or_panic {A} (o : option A) : Outcome A :=
  match o with Some a => Returns a | None => Panics end.

(** ** Shared with the parser of interfaces ([typescript_parser.rs]) *)

Definition brace_open : Ascii.ascii := Ascii.ascii_of_nat 123.
Definition brace_close : Ascii.ascii := Ascii.ascii_of_nat 125.
Definition bracket_open : Ascii.ascii := Ascii.ascii_of_nat 91.
Definition bracket_close : Ascii.ascii := Ascii.ascii_of_nat 93.
Definition comma_c : Ascii.ascii := Ascii.ascii_of_nat 44.

(** Braces opened less braces closed *)
Fixpoint brace_depth (s : string) : Z :=
  match s with
  | EmptyString => 0
  | String a r => (if Ascii.eqb a brace_open then 1 else if Ascii.eqb a brace_close then -1 else 0) + brace_depth r
  end.

Fixpoint last_char (s : string) : option Ascii.ascii :=
  match s with
  | EmptyString => None
  | String a EmptyString => Some a
  | String _ r => last_char r
  end.

Definition camel_to_snake_simple (s : string) : string :=
  foldr (fun a r => let n := Ascii.nat_of_ascii a in
           if ((65 <=? n) && (n <=? 90))%nat then "_" +:+ String (ascii_lower a) r else String a r)
    EmptyString (String.list_ascii_of_string s).

Definition PG_RESERVED : list string :=
  ["all"; "analyse"; "analyze"; "and"; "any"; "array"; "as"; "asc"; "asymmetric"; "both"; "case"; "cast";
   "check"; "collate"; "column"; "constraint"; "create"; "current_catalog"; "current_date"; "current_role";
   "current_time"; "current_timestamp"; "current_user"; "default"; "deferrable"; "desc"; "distinct"; "do";
   "else"; "end"; "except"; "false"; "fetch"; "for"; "foreign"; "from"; "grant"; "group"; "having"; "in";
   "initially"; "intersect"; "into"; "lateral"; "leading"; "limit"; "localtime"; "localtimestamp"; "not";
   "null"; "offset"; "on"; "only"; "or"; "order"; "placing"; "primary"; "references"; "returning"; "select";
   "session_user"; "some"; "symmetric"; "table"; "then"; "to"; "trailing"; "true"; "union"; "unique"; "user";
   "using"; "variadic"; "when"; "where"; "window"; "with"]%string.

Section Parser.
Context {ho : HashOrder} {rx : Regex}.

(** A key is a word before a colon, after a brace, a comma or nothing, outside of braces. *)
Definition is_key (block : string) (c : Captures) : bool :=
  let before := take_bytes (c_start c) block in
  match last_char (trim_end before) with
  | None => true
  | Some a => Ascii.eqb a brace_open || Ascii.eqb a comma_c
  end && bool_decide (brace_depth before = 0).
Definition top_level_keys (block : string) : list string :=
  cap 1 <$> filter (fun c => is_key block c = true) (captures_iter "(\w+)\s*:" block).

Definition reserved (name : string) : bool := bool_decide (name ∈ PG_RESERVED).

Definition reserved_identifier_warnings (models : gmap string Model) : list string :=
  sort_strings (hkeys models) ≫= (fun name =>
    match models !! name with
    | None => []
    | Some m =>
        let table := default (camel_to_snake_simple (m_name m) +:+ "s") (m_table_name m) in
        (if reserved table then ["model '" +:+ name +:+ "' maps to table '" +:+ table +:+
                                 "' which is a PostgreSQL reserved word"] else []) ++
        omap (fun f => let col := camel_to_snake_simple f in
                if reserved col then Some ("model '" +:+ name +:+ "' field '" +:+ f +:+ "' maps to column '" +:+
                                           col +:+ "' which is a PostgreSQL reserved word") else None)
          (sort_strings (hkeys (m_fields m)))
    end).

(** ** Searching in a chain or an argument *)

Definition quoted_pattern : string := "['\x22]([^'\x22]+)['\x22]".
(** The strings of a text, in order *)
Definition string_items (text : string) : list string := cap 1 <$> captures_iter quoted_pattern text.

Definition extract_chain_string (chain method : string) : option string :=
  cap 1 <$> captures ("\." +:+ method +:+ "\s*\(\s*['\x22]([^'\x22]+)['\x22]\s*\)") chain.

Definition extract_chain_array (chain method : string) : option (list string) :=
  match captures ("\." +:+ method +:+ "\s*\(\s*\[([^\]]*)\]\s*\)") chain with
  | None => None
  | Some c => match string_items (cap 1 c) with [] => None | items => Some items end
  end.

Definition extract_chain_number (chain method : string) : option Z :=
  captures ("\." +:+ method +:+ "\s*\(\s*(-?\d+)\s*\)") chain ≫= (fun c => parse_i64 (cap 1 c)).

(** ** Balanced extents *)

Definition balanced_brace_body (content : string) (start : nat) : Outcome (option string) :=
  or_panic (balanced_body brace_open brace_close three_quotes content start).

(** The argument up to the bracket, trimmed, and the position behind it *)
Definition extract_paren_arg (content : string) (start : nat) : Outcome (option string * nat) :=
  let '(i, _) := scan paren_open paren_close two_quotes Code 1 start (drop_bytes start content) in
  raw ← or_panic (slice content start (i - 1));
  let raw := trim raw in
  mret (if bool_decide (raw = EmptyString) then None else Some raw, i).

(** The patterns' keys are words, which escaping leaves as they are. *)
Definition dsl_sub_block (body key : string) : Outcome (option string) :=
  match captures ("\b" +:+ key +:+ "\s*:\s*\{") body with
  | None => mret None
  | Some m => balanced_brace_body body (c_end m)
  end.

Definition dsl_sub_array (body key : string) : Outcome (option string) :=
  match captures ("\b" +:+ key +:+ "\s*:\s*\[") body with
  | None => mret None
  | Some m => or_panic (balanced_body bracket_open bracket_close three_quotes body (c_end m))
  end.

(** ** Actions *)

Definition parse_action (content : string) (c : Captures) : Outcome ActionDef :=
  after ← or_panic (slice_from content (c_end c));
  chain ← or_panic (take_chain after);
  let from := extract_chain_string chain "from" in
  let input := match extract_chain_array chain "input" with
               | Some fields => PickFields (default EmptyString from) fields
               | None => InputObject []
               end in
  mret (mkAction (cap 2 c) input None from).

Definition parse_action_defs (content : string) : Outcome (list ActionDef) :=
  mapM (parse_action content)
    (captures_iter "export\s+const\s+(\w+)\s*=\s*action\s*\(\s*['\x22]([^'\x22]+)['\x22]\s*\)" content).

(** ** Models *)

(** Names by table; the last declaration of a table counts. *)
Definition parse_model_names (content : string) : gmap string string :=
  foldl (fun map c => <[cap 2 c := cap 1 c]> map) ∅
    (captures_iter "export\s+const\s+(\w+)\s*=\s*model\s*\(\s*['\x22]([^'\x22]+)['\x22]" content).

Definition parse_model_blocks (content : string) : Outcome (list (string * string * string)) :=
  blocks ← mapM (fun c => body ← balanced_brace_body content (c_end c);
                          mret ((fun b => (cap 1 c, cap 2 c, b)) <$> (body : option string)))
    (captures_iter "export\s+const\s+(\w+)\s*=\s*model\s*\(\s*['\x22]([^'\x22]+)['\x22]\s*,\s*\{" content);
  mret (omap id blocks).

(** *** Fields *)

Record RawField : Type := mkRaw { rf_name : string; rf_base : string; rf_arg : option string; rf_chain : string }.

Definition parse_fields_block (body : string) : Outcome (list RawField) :=
  match captures "fields\s*:\s*\{" body with
  | None => mret []
  | Some m =>
      inner ← balanced_brace_body body (c_end m);
      match inner with
      | None => mret []
      | Some inner =>
          mapM (fun c =>
              '(arg, after) ← extract_paren_arg inner (c_end c);
              rest ← or_panic (slice_from inner after);
              chain ← or_panic (take_chain rest);
              mret (mkRaw (cap 1 c) (cap 2 c) arg chain))
            (captures_iter
               "(\w+)\s*:\s*(text|email|url|number|select|datetime|relation|boolean|json|file)\s*\(" inner)
      end
  end.

Definition trim_quotes (s : string) : string :=
  trim_end_chars two_quotes
    ((fix go s := match s with
                  | String a r => if two_quotes a then go r else s
                  | EmptyString => EmptyString
                  end) s).

Definition base_to_field_type (base : string) (arg : option string) : FieldType * option string :=
  if decide (base ∈ ["text"; "email"; "url"; "select"]%string) then (FString, None)
  else if decide (base = "number"%string) then (FNumber, None)
  else if decide (base = "boolean"%string) then (FBoolean, None)
  else if decide (base = "datetime"%string) then (FDateTime, None)
  else if decide (base = "json"%string) then (FJson, None)
  else if decide (base = "file"%string) then (FFile, None)
  else if decide (base = "relation"%string) then (FString, trim_quotes <$> arg)
  else (FCustom base, None).

Definition capitalize (s : string) : string :=
  match s with EmptyString => EmptyString | String a r => String (ascii_upper a) r end.

Definition has_call (chain call : string) : bool := contains chain call.

Definition field_optional (f : RawField) : bool :=
  let is_optional := has_call (rf_chain f) ".optional()" in
  let is_required := has_call (rf_chain f) ".required()" in
  let optional := if has_call (rf_chain f) ".id()" then false
                  else if is_required then false else is_optional || negb is_required in
  let optional := if bool_decide (rf_base f = "relation"%string) && negb is_required then true else optional in
  if bool_decide (rf_base f = "datetime"%string) && negb is_optional then false else optional.

Definition field_attributes (f : RawField) : list FieldAttribute :=
  (if has_call (rf_chain f) ".id()" then [Primary] else []) ++
  (if has_call (rf_chain f) ".defaultNow()" || has_call (rf_chain f) ".autoUpdate()"
   then [TimestampAttr] else []) ++
  match extract_chain_string (rf_chain f) "default" with Some d => [Default d] | None => [] end.

Definition field_rules (f : RawField) : list string :=
  (if has_call (rf_chain f) ".required()" then ["required"%string] else []) ++
  (if bool_decide (rf_base f = "email"%string) then ["email"%string] else []) ++
  (if bool_decide (rf_base f = "url"%string) then ["url"%string] else []) ++
  match extract_chain_number (rf_chain f) "min" with Some n => ["min:" +:+ pretty n] | None => [] end ++
  match extract_chain_number (rf_chain f) "max" with Some n => ["max:" +:+ pretty n] | None => [] end ++
  (if bool_decide (rf_base f = "select"%string) then
     match string_items <$> rf_arg f with
     | None | Some [] => []
     | Some values => ["in:" +:+ String.concat "," values]
     end
   else []).

Definition strip_suffix (suffix s : string) : option string :=
  if ends_with suffix s then Some (take_bytes (String.length s - String.length suffix) s) else None.

(** Fields, validation rules and relationships by name *)
Record Resolved : Type := mkResolved {
  rs_fields : gmap string Field;
  rs_validation : gmap string string;
  rs_relationships : gmap string Relationship
}.

Definition resolve_field (table_to_model : gmap string string) (r : Resolved) (f : RawField) : Resolved :=
  let '(ty, target) := base_to_field_type (rf_base f) (rf_arg f) in
  mkResolved
    (<[rf_name f := mkField (rf_name f) ty (field_optional f) (field_attributes f)]> (rs_fields r))
    match field_rules f with
    | [] => rs_validation r
    | rules => <[rf_name f := String.concat "|" rules]> (rs_validation r)
    end
    match target with
    | None => rs_relationships r
    | Some t =>
        <[default (rf_name f) (strip_suffix "Id" (rf_name f)) :=
            mkRelationship "belongsTo" (default (capitalize t) (table_to_model !! t)) (Some (rf_name f))]>
          (rs_relationships r)
    end.

Definition resolve_fields (raw : list RawField) (table_to_model : gmap string string) : Resolved :=
  foldl (resolve_field table_to_model) (mkResolved ∅ ∅ ∅) raw.

(** *** Access rules *)

(** The rule of an operation: public, any principal, or the roles it mentions. *)
Definition parse_rule (inner op : string) : option AccessRule :=
  match captures (op +:+ "\s*:\s*(allow\s*\.[^\n]+)") inner ≫= group 1 with
  | None => None
  | Some expr =>
      if is_match "\bpublic\s*\(\s*\)" expr then Some (RBoolean "public")
      else if is_match "\b(authenticated|sameTenant|owner)\s*\(" expr then Some (RBoolean "authenticated")
      else match captures_iter "role\s*\(\s*\[?([^)\]]*)\]?\s*\)" expr ≫= (fun c => string_items (cap 1 c)) with
           | [] => None
           | roles => Some (RBoolean (String.concat "|" roles))
           end
  end.

Definition access_of (inner : string) : option AccessControl :=
  let create := parse_rule inner "create" in
  let read := parse_rule inner "read" in
  let update := parse_rule inner "update" in
  let delete := parse_rule inner "delete" in
  match create, read, update, delete with
  | None, None, None, None => None
  | _, _, _, _ => Some (mkAccess create read update delete)
  end.

Definition parse_access_block (body : string) : Outcome (option AccessControl) :=
  match captures "access\s*:\s*\{" body with
  | None => mret None
  | Some m =>
      inner ← balanced_brace_body body (c_end m);
      mret ((inner : option string) ≫= access_of)
  end.

(** *** Events *)

(** The pieces between commas outside of brackets *)
Fixpoint split_commas (depth : nat) (s : string) : string * list string :=
  match s with
  | EmptyString => (EmptyString, [])
  | String a r =>
      if Ascii.eqb a comma_c && Nat.eqb depth 0 then
        let '(piece, rest) := split_commas depth r in (EmptyString, piece :: rest)
      else
        let depth := if existsb (Ascii.eqb a) [paren_open; bracket_open; brace_open] then S depth
                     else if existsb (Ascii.eqb a) [paren_close; bracket_close; brace_close] then pred depth
                     else depth in
        let '(piece, rest) := split_commas depth r in (String a piece, rest)
  end.
Definition split_top_level_commas (s : string) : list string :=
  let '(piece, rest) := split_commas 0 s in piece :: rest.

Definition parse_condition (entry : string) : option ActionCondition :=
  match captures "\.whenChanged\s*\(([^)]*)\)" entry with
  | Some c => match string_items (cap 1 c) with [] => None | fields => Some (ChangedAny fields) end
  | None =>
      match captures "\.when\s*\(([^)]*)\)" entry with
      | Some c => match string_items (cap 1 c) with
                  | field :: value :: _ => Some (FieldEquals field (VString value))
                  | _ => None
                  end
      | None => None
      end
  end.

Definition parse_event_entry (entry : string) : option EventActionBinding :=
  let trimmed := trim entry in
  if bool_decide (trimmed = EmptyString) then None else
  match captures "^(\w+)" trimmed with
  | None => None
  | Some c =>
      if bool_decide (cap 1 c ∈ ["true"; "false"; "null"; "undefined"]%string) then None
      else Some (mkBinding (cap 1 c) (parse_condition trimmed))
  end.

(** The closing bracket is not required: the text up to the last byte is taken. *)
Definition parse_event_list (on_block event_kind : string) : Outcome (list EventActionBinding) :=
  match captures (event_kind +:+ "\s*:\s*\[") on_block with
  | None => mret []
  | Some m =>
      let '(i, _) := scan bracket_open bracket_close no_quotes Code 1 (c_end m) (drop_bytes (c_end m) on_block) in
      inner ← or_panic (slice on_block (c_end m) (i - 1));
      mret (omap parse_event_entry (split_top_level_commas inner))
  end.

Definition parse_on_block (body : string) : Outcome ModelEvents :=
  match captures "\bon\s*:\s*\{" body with
  | None => mret events_default
  | Some m =>
      inner ← balanced_brace_body body (c_end m);
      match inner with
      | None => mret events_default
      | Some inner =>
          created ← parse_event_list inner "created";
          updated ← parse_event_list inner "updated";
          deleted ← parse_event_list inner "deleted";
          mret (mkEvents created updated deleted)
      end
  end.

(** *** Constraints *)

(** The text without its enclosing quotes, if it has them *)
Definition constraint_sql_string (arg : string) : option string :=
  let arg := trim arg in
  match arg with
  | EmptyString => None
  | String quote r =>
      if two_quotes quote && bool_decide (last_char arg = Some quote) && (2 <=? String.length arg)%nat
      then Some (take_bytes (String.length arg - 2) r) else None
  end.

(** Where the chain has a [where] call: its predicate *)
Definition where_predicate (chain : string) : Outcome (option string) :=
  match captures "\.where\s*\(" chain with
  | None => mret None
  | Some m => '(arg, _) ← extract_paren_arg chain (c_end m);
              mret ((arg : option string) ≫= constraint_sql_string)
  end.

Definition no_constraint (model text : string) : string :=
  "model '" +:+ model +:+ "': unrecognized constraint '" +:+ text +:+ "' — ignored".

(** What lies between entries, unless it is blank or a comma *)
Definition gap_warning (model gap : string) : list string :=
  let gap := trim gap in
  if bool_decide (gap = EmptyString) || bool_decide (gap = ","%string) then [] else [no_constraint model gap].

(** One entry: its constraint or a warning *)
Definition constraint_entry (model kind : string) (arg : option string) (chain : string)
    : Outcome (list ModelConstraint * list string) :=
  if decide (kind = "check"%string) then
    mret (match arg with
          | Some expr => [CCheck (default expr (constraint_sql_string expr))]
          | None => []
          end, [])
  else
    match string_items <$> arg with
    | None | Some [] =>
        mret ([], ["model '" +:+ model +:+ "': " +:+ kind +:+ "() constraint has no fields — ignored"])
    | Some fields =>
        predicate ← where_predicate chain;
        mret ([if decide (kind = "unique"%string)
               then match (predicate : option string) with Some p => CUniqueWhere fields p | None => CUnique fields end
               else match predicate with Some p => CIndexWhere fields p | None => CIndex fields end], [])
    end.

Definition entry_pattern : string := "(unique|index|check)\s*\(".

(** The entries from the cursor on; it moves behind the entry that was read. *)
Fixpoint constraint_entries (fuel : nat) (model inner : string) (cursor : nat)
    : Outcome (list ModelConstraint * list string) :=
  match captures_at entry_pattern inner cursor with
  | None =>
      tail ← or_panic (slice_from inner cursor);
      mret ([], gap_warning model tail)
  | Some c =>
      match fuel with
      | O => Diverges
      | S fuel =>
          gap ← or_panic (slice inner cursor (c_start c));
          '(arg, after) ← extract_paren_arg inner (c_end c);
          rest ← or_panic (slice_from inner after);
          chain ← or_panic (take_chain rest);
          '(cs, ws) ← constraint_entry model (cap 1 c) arg chain;
          '(cs', ws') ← constraint_entries fuel model inner (after + String.length chain);
          mret (cs ++ cs', gap_warning model gap ++ ws ++ ws')
      end
  end.

Definition parse_constraints_block (model body : string) : Outcome (list ModelConstraint * list string) :=
  inner ← dsl_sub_array body "constraints";
  match inner with
  | None => mret ([], [])
  | Some inner => constraint_entries (S (String.length inner)) model inner 0
  end.

(** ** Diagnostics *)

Definition fields_block_diagnostics (model body : string) (parsed : gset string) : Outcome (list string) :=
  inner ← dsl_sub_block body "fields";
  mret match inner with
       | None => []
       | Some inner =>
           (fun key => "model '" +:+ model +:+ "': field '" +:+ key +:+ "' uses an unrecognized builder — dropped")
             <$> filter (fun key => key ∉ parsed) (top_level_keys inner)
       end.

Definition rule_named (access : option AccessControl) (key : string) : option (option AccessRule) :=
  if decide (key = "create"%string) then Some (access ≫= ac_create)
  else if decide (key = "read"%string) then Some (access ≫= ac_read)
  else if decide (key = "update"%string) then Some (access ≫= ac_update)
  else if decide (key = "delete"%string) then Some (access ≫= ac_delete)
  else None.

Definition ungated (model key : string) : string :=
  "model '" +:+ model +:+ "': access." +:+ key +:+ " expression not recognized — operation left ungated".

Definition access_block_diagnostics (model body : string) (access : option AccessControl)
    : Outcome (list string) :=
  inner ← dsl_sub_block body "access";
  mret match inner with
       | None => []
       | Some inner =>
           omap (fun key => match rule_named access key with
                            | None => Some ("model '" +:+ model +:+ "': unrecognized access key '" +:+ key +:+ "' — ignored")
                            | Some None => Some (ungated model key)
                            | Some (Some _) => None
                            end) (top_level_keys inner)
       end.

Definition on_block_diagnostics (model body : string) : Outcome (list string) :=
  inner ← dsl_sub_block body "on";
  mret match inner with
       | None => []
       | Some inner =>
           (fun key => "model '" +:+ model +:+ "': unrecognized event kind 'on." +:+ key +:+
                       "' — ignored (known: created, updated, deleted)")
             <$> filter (fun key => key ∉ ["created"; "updated"; "deleted"]%string) (top_level_keys inner)
       end.

Definition model_option_diagnostics (model body : string) : list string :=
  (fun key => "model '" +:+ model +:+ "': unrecognized option key '" +:+ key +:+ "' — ignored")
    <$> filter (fun key => key ∉ ["fields"; "access"; "on"; "constraints"]%string) (top_level_keys body).

(** ** The whole schema *)

Definition dq_s : string := String dquote_c EmptyString.
Definition is_builder_dsl (content : string) : bool :=
  contains content "from '@atomo/schema'" || contains content ("from " +:+ dq_s +:+ "@atomo/schema" +:+ dq_s) ||
  contains content "from '@atomo-cc/schema'" || contains content ("from " +:+ dq_s +:+ "@atomo-cc/schema" +:+ dq_s).

Definition parse_block (table_to_model : gmap string string) (block : string * string * string)
    : Outcome (Model * list string) :=
  let '(name, table, body) := block in
  fields ← parse_fields_block body;
  access ← parse_access_block body;
  events ← parse_on_block body;
  '(constraints, constraint_warnings) ← parse_constraints_block name body;
  let r := resolve_fields fields table_to_model in
  fw ← fields_block_diagnostics name body (dom (rs_fields r));
  aw ← access_block_diagnostics name body access;
  ow ← on_block_diagnostics name body;
  mret (mkModel name (rs_fields r) access None (rs_validation r) (Some table) (rs_relationships r)
          constraints events None,
        constraint_warnings ++ fw ++ aw ++ ow ++ model_option_diagnostics name body).

(** Actions name models by their tables. *)
Definition resolve_action (table_to_model : gmap string string) (a : ActionDef) : ActionDef :=
  mkAction (ad_name a)
    match ad_input a with
    | PickFields model fields => PickFields (default model (table_to_model !! model)) fields
    | i => i
    end
    (ad_returns a)
    match ad_source_model a ≫= (fun t => table_to_model !! t) with
    | Some m => Some m
    | None => ad_source_model a
    end.

Definition parse_builder_dsl (content : string) : Outcome Schema :=
  actions ← parse_action_defs content;
  let table_to_model := parse_model_names content in
  blocks ← parse_model_blocks content;
  parsed ← mapM (parse_block table_to_model) blocks;
  let models := foldl (fun map '(m, _) => <[m_name m := m]> map) ∅ parsed in
  let action_defs := foldl (fun map a => <[ad_name a := resolve_action table_to_model a]> map) ∅ actions in
  mret (mkSchema models action_defs ∅ ((parsed ≫= snd) ++ reserved_identifier_warnings models)).
End Parser.
