(* ===== verification/SchemaDslSpec.v ===== *)
(** * The builder language: termination, extents, access rules

    The parser returns or panics on every text, it never loops; the extent of a block is
    exactly the balanced text of the grammar; no operation named in an access block is left
    open without a warning.  The examples run the parser on the schema of its tests. *)

From S2P Require Import Prelude Json SchemaTypes Scan SchemaDsl.

(** ** Every text has an outcome *)

(** The computation returns or panics. *)
Definition ends {A} (m : Outcome A) : Prop := m <> Diverges.

Lemma ends_ret {A} (a : A) : ends (mret a).
Proof. done. Qed.
Lemma ends_or_panic {A} (o : option A) : ends (or_panic o).
Proof. by destruct o. Qed.
Lemma ends_bind {A B} (m : Outcome A) (k : A -> Outcome B) :
  ends m -> (forall a, m = Returns a -> ends (k a)) -> ends (m ≫= k).
Proof. destruct m; intros Hm Hk; [by apply Hk|done|done]. Qed.
Lemma ends_mapM {A B} (f : A -> Outcome B) l : (forall a, ends (f a)) -> ends (mapM f l).
Proof.
  intros Hf. induction l as [|a l IH]; [done|]. cbn.
  apply ends_bind; [apply Hf|intros b _]. apply ends_bind; [exact IH|intros; apply ends_ret].
Qed.

Lemma bind_returns {A B} (m : Outcome A) (k : A -> Outcome B) b :
  (m ≫= k) = Returns b -> exists a, m = Returns a /\ k a = Returns b.
Proof. destruct m as [a| |]; [|done|done]. intros Hk. by exists a. Qed.

Lemma or_panic_returns {A} (o : option A) a : or_panic o = Returns a -> o = Some a.
Proof. destruct o; [|done]. by intros [= ->]. Qed.

(** Split a computation that ends, hypothesis by hypothesis. *)
Create HintDb ends discriminated.
#[export] Hint Resolve ends_ret ends_or_panic : ends.
Ltac ending := repeat first
  [ progress intros
  | progress cbv zeta
  | apply ends_ret | apply ends_or_panic
  | solve [auto 1 with ends]
  | apply ends_mapM
  | apply ends_bind
  | case_match ].

Lemma take_bytes_length n s : (String.length (take_bytes n s) <= n)%nat.
Proof. revert s. induction n as [|n IH]; intros [|a s]; simpl; try lia. specialize (IH s). lia. Qed.

Lemma drop_bytes_length n s : String.length (drop_bytes n s) = (String.length s - n)%nat.
Proof. revert s. induction n as [|n IH]; intros [|a s]; simpl; by rewrite ?IH. Qed.

Lemma slice_length s a b r :
  slice s a b = Some r -> (a <= b)%nat /\ (b <= String.length s)%nat /\ (String.length r <= b - a)%nat.
Proof.
  unfold slice. destruct (_ && _ && _ && _) eqn:Hb; [|done]. intros [= <-].
  rewrite !andb_true_iff, !Nat.leb_le in Hb. pose proof (take_bytes_length (b - a) (drop_bytes a s)). lia.
Qed.

Lemma scan_forward opening closing q m d i s : (i <= (scan opening closing q m d i s).1)%nat.
Proof.
  revert m d i. induction s as [|a s IH]; intros m d i; destruct d as [|d]; cbn [scan]; try (cbn; lia).
  destruct (step _ _ _ m (S d) a) as [m' d']. specialize (IH m' d' (S i)). lia.
Qed.

Section Termination.
Context {ho : HashOrder} {rx : Regex}.

Lemma ends_balanced content start : ends (balanced_brace_body content start).
Proof. apply ends_or_panic. Qed.
Lemma ends_paren content start : ends (extract_paren_arg content start).
Proof. unfold extract_paren_arg. ending. Qed.
Lemma ends_sub_block body key : ends (dsl_sub_block body key).
Proof. unfold dsl_sub_block. case_match; [apply ends_balanced|done]. Qed.
Lemma ends_sub_array body key : ends (dsl_sub_array body key).
Proof. unfold dsl_sub_array. case_match; [apply ends_or_panic|done]. Qed.
Hint Resolve ends_balanced ends_paren ends_sub_block ends_sub_array : ends.

Lemma ends_actions content : ends (parse_action_defs content).
Proof. unfold parse_action_defs, parse_action. ending. Qed.
Lemma ends_model_blocks content : ends (parse_model_blocks content).
Proof. unfold parse_model_blocks. ending. Qed.
Lemma ends_fields body : ends (parse_fields_block body).
Proof. unfold parse_fields_block. ending. Qed.
Lemma ends_access body : ends (parse_access_block body).
Proof. unfold parse_access_block. ending. Qed.
Lemma ends_events on kind : ends (parse_event_list on kind).
Proof. unfold parse_event_list. ending. Qed.
Hint Resolve ends_events : ends.
Lemma ends_on body : ends (parse_on_block body).
Proof. unfold parse_on_block. ending. Qed.
Lemma ends_entry model kind arg chain : ends (constraint_entry model kind arg chain).
Proof. unfold constraint_entry, where_predicate. ending. Qed.

(** What an entry reads lies behind it. *)
Lemma paren_behind content start arg after :
  (start <= String.length content)%nat -> (start = 0%nat -> content <> EmptyString) ->
  extract_paren_arg content start = Returns (arg, after) -> (start < after)%nat.
Proof.
  intros Hs He. unfold extract_paren_arg.
  destruct (scan _ _ _ Code 1 start (drop_bytes start content)) as [i d] eqn:Hscan. intros Hr.
  apply bind_returns in Hr as (raw & Hraw & [= _ <-]). apply or_panic_returns, slice_length in Hraw as (Hle & _ & _).
  destruct (Nat.eq_dec start 0) as [->|Hne].
  - destruct content as [|a content]; [by destruct (He eq_refl)|].
    change (drop_bytes 0 (String a content)) with (String a content) in Hscan.
    cbn [scan] in Hscan. destruct (step _ _ _ Code 1 a) as [m' d'].
    pose proof (scan_forward paren_open paren_close two_quotes m' d' 1 content) as Hf. rewrite Hscan in Hf. cbn in Hf. lia.
  - pose proof (scan_forward paren_open paren_close two_quotes Code 1 start (drop_bytes start content)) as Hf.
    rewrite Hscan in Hf. cbn in Hf. lia.
Qed.

Lemma ends_entries `{!RegexLaws} fuel model inner cursor :
  captures_at entry_pattern EmptyString 0 = None ->
  (cursor <= String.length inner)%nat -> (String.length inner - cursor < fuel)%nat ->
  ends (constraint_entries fuel model inner cursor).
Proof.
  intros Hnone. revert cursor. induction fuel as [|fuel IH]; intros cursor Hc Hf; [lia|].
  cbn [constraint_entries]. destruct (captures_at entry_pattern inner cursor) as [c|] eqn:Hm; [|ending].
  pose proof (captures_at_bounds _ _ _ _ Hm) as Hb.
  apply ends_bind; [apply ends_or_panic|intros gap _].
  apply ends_bind; [apply ends_paren|intros [arg after] Harg].
  apply paren_behind in Harg; [|lia|].
  2: { intros H0 ->. assert (cursor = 0%nat) as -> by lia. congruence. }
  apply ends_bind; [apply ends_or_panic|intros rest Hrest].
  apply ends_bind; [apply ends_or_panic|intros chain Hchain].
  apply ends_bind; [apply ends_entry|intros [cs ws] _].
  apply or_panic_returns, slice_length in Hrest. apply or_panic_returns, slice_length in Hchain.
  apply ends_bind; [apply IH; lia|]. intros [cs' ws'] _. apply ends_ret.
Qed.
End Termination.

(** ** Blocks *)

Section Access.
Context {ho : HashOrder} {rx : Regex}.

Lemma mapM_returns {A B} (f : A -> Outcome B) l k x :
  mapM f l = Returns k -> x ∈ l -> exists y, f x = Returns y /\ y ∈ k.
Proof.
  revert k. induction l as [|a l IH]; intros k Hk Hx; [by apply not_elem_of_nil in Hx|].
  cbn in Hk. apply bind_returns in Hk as (b & Hb & Hk). apply bind_returns in Hk as (k' & Hk' & [= <-]).
  apply elem_of_cons in Hx as [->|Hx]; [exists b; split; [done|left]|].
  destruct (IH k' Hk' Hx) as (y & Hy & Hin). exists y. split; [done|by right].
Qed.

Lemma mapM_keys {A B K} (f : A -> Outcome B) (ka : A -> K) (kb : B -> K) l k :
  (forall x y, f x = Returns y -> kb y = ka x) -> mapM f l = Returns k -> kb <$> k = ka <$> l.
Proof.
  intros Hf. revert k. induction l as [|a l IH]; intros k Hk; [by injection Hk as <-|].
  cbn in Hk. apply bind_returns in Hk as (b & Hb & Hk). apply bind_returns in Hk as (k' & Hk' & [= <-]).
  cbn. by rewrite (Hf a b Hb), (IH k' Hk').
Qed.

(** Inserting one after the other: a name that comes once has its value. *)
Lemma foldl_insert_notin (l : list (Model * list string)) (m0 : gmap string Model) n :
  n ∉ (fun p => m_name p.1) <$> l ->
  foldl (fun map '(m, _) => <[m_name m := m]> map) m0 l !! n = m0 !! n.
Proof.
  revert m0. induction l as [|[m w] l IH]; intros m0 Hn; [done|]. cbn in *.
  apply not_elem_of_cons in Hn as [Hne Hn]. rewrite IH by done. by rewrite lookup_insert_ne.
Qed.
Lemma foldl_insert_once (l : list (Model * list string)) (m0 : gmap string Model) m w :
  NoDup ((fun p => m_name p.1) <$> l) -> (m, w) ∈ l ->
  foldl (fun map '(m, _) => <[m_name m := m]> map) m0 l !! m_name m = Some m.
Proof.
  revert m0. induction l as [|[m1 w1] l IH]; intros m0 Hnd Hin; [by apply not_elem_of_nil in Hin|].
  cbn in *. apply NoDup_cons in Hnd as [Hn Hnd]. apply elem_of_cons in Hin as [[= <- <-]|Hin].
  - rewrite foldl_insert_notin by done. by rewrite lookup_insert_eq.
  - by apply IH.
Qed.

Lemma parse_block_name t n tb b m w : parse_block t (n, tb, b) = Returns (m, w) -> m_name m = n.
Proof.
  unfold parse_block. intros Hp. apply bind_returns in Hp as (f & _ & Hp).
  apply bind_returns in Hp as (a & _ & Hp). apply bind_returns in Hp as (e & _ & Hp).
  apply bind_returns in Hp as ([cs cw] & _ & Hp). cbv zeta in Hp.
  apply bind_returns in Hp as (fw & _ & Hp). apply bind_returns in Hp as (aw & _ & Hp).
  apply bind_returns in Hp as (ow & _ & Hp). by injection Hp as <- _.
Qed.

Lemma parse_block_keys t x y : parse_block t x = Returns y -> m_name y.1 = x.1.1.
Proof. destruct x as [[n tb] b], y as [m w]. apply parse_block_name. Qed.

(** The access rules of a block and what its diagnostics say of them *)
Lemma parse_block_access t n tb b m w inner key :
  parse_block t (n, tb, b) = Returns (m, w) -> dsl_sub_block b "access" = Returns (Some inner) ->
  key ∈ top_level_keys inner ->
  match rule_named (m_access m) key with
  | Some (Some _) => True
  | Some None => ungated n key ∈ w
  | None => ("model '" +:+ n +:+ "': unrecognized access key '" +:+ key +:+ "' — ignored") ∈ w
  end.
Proof.
  unfold parse_block. intros Hp Hb Hk. apply bind_returns in Hp as (f & _ & Hp).
  apply bind_returns in Hp as (a & _ & Hp). apply bind_returns in Hp as (e & _ & Hp).
  apply bind_returns in Hp as ([cs cw] & _ & Hp). cbv zeta in Hp.
  apply bind_returns in Hp as (fw & _ & Hp). apply bind_returns in Hp as (aw & Haw & Hp).
  apply bind_returns in Hp as (ow & _ & Hp). injection Hp as <- <-. cbn.
  unfold access_block_diagnostics in Haw. rewrite Hb in Haw. injection Haw as <-.
  destruct (rule_named a key) as [[r|]|] eqn:Hr; [done| |];
    rewrite !elem_of_app; right; right; left; apply list_elem_of_omap; exists key; rewrite Hr; by split.
Qed.
End Access.

(** ** The properties *)

(** C16: the parser ends on every text: it returns a schema or panics, whatever the text and the
    order of hash maps, for any regular expression engine that reports matches within the
    text, from the position asked for, and finds no constraint in nothing. *)
Theorem parse_ends `{HashOrder} `{Regex} (content : string) :
  RegexLaws -> captures_at entry_pattern EmptyString 0 = None ->
  parse_builder_dsl content <> Diverges.
Proof.
  intros laws Hnone. change (ends (parse_builder_dsl content)). unfold parse_builder_dsl.
  apply ends_bind; [apply ends_actions|intros actions _]. cbv zeta.
  apply ends_bind; [apply ends_model_blocks|intros blocks _].
  apply ends_bind; [|intros; apply ends_ret]. apply ends_mapM. intros [[n t] b]. unfold parse_block.
  apply ends_bind; [apply ends_fields|intros f _]. apply ends_bind; [apply ends_access|intros a _].
  apply ends_bind; [apply ends_on|intros e _].
  apply ends_bind; [|intros [cs cw] _].
  { unfold parse_constraints_block. apply ends_bind; [apply ends_sub_array|intros [inner|] _; [|done]].
    apply ends_entries; [done|lia|lia]. }
  cbv zeta. unfold fields_block_diagnostics, access_block_diagnostics, on_block_diagnostics.
  repeat (apply ends_bind; [|intros ? _]); try apply ends_ret; apply ends_sub_block.
Qed.

(** a block is what the grammar says.  From a position in a text behind an opening brace, the
    extent found is the balanced text before the closing brace, braces in strings not
    counted; when there is none, nothing is found. *)
Theorem block_extent (content : string) (start : nat) (body : string) :
  (start <= String.length content)%nat -> is_char_boundary content start = true ->
  balanced_brace_body content start = Returns (Some body) <->
  exists rest, drop_bytes start content = body +:+ String brace_close rest /\
    Balanced brace_open brace_close three_quotes body.
Proof.
  intros Hs Hb. rewrite <-balanced_body_iff by done. unfold balanced_brace_body, or_panic.
  destruct (balanced_body _ _ _ _ _); [|done]. split; congruence.
Qed.

(** no operation is left open in silence.  In a text that parses, whose models have distinct
    names, every key of a model's access block has its rule in the schema, or the schema's
    warnings name it. *)
Theorem access_keys_accounted `{HashOrder} `{Regex} (content : string) (s : Schema)
    (blocks : list (string * string * string)) (name table body inner key : string) :
  parse_builder_dsl content = Returns s -> parse_model_blocks content = Returns blocks ->
  NoDup ((fun b => b.1.1) <$> blocks) -> (name, table, body) ∈ blocks ->
  dsl_sub_block body "access" = Returns (Some inner) -> key ∈ top_level_keys inner ->
  (exists m r, sc_models s !! name = Some m /\ rule_named (m_access m) key = Some (Some r)) \/
  ungated name key ∈ sc_warnings s \/
  ("model '" +:+ name +:+ "': unrecognized access key '" +:+ key +:+ "' — ignored") ∈ sc_warnings s.
Proof.
  intros Hp Hbl Hnd Hin Hsub Hk. unfold parse_builder_dsl in Hp.
  apply bind_returns in Hp as (actions & _ & Hp). cbv zeta in Hp. rewrite Hbl in Hp.
  apply bind_returns in Hp as (bl & [= <-] & Hp). apply bind_returns in Hp as (parsed & Hparsed & [= <-]).
  destruct (mapM_returns _ _ _ _ Hparsed Hin) as ([m w] & Hblock & Hmw).
  pose proof (parse_block_access _ _ _ _ _ _ _ _ Hblock Hsub Hk) as Hacc.
  assert (Hw : forall x, x ∈ w -> x ∈ (parsed ≫= snd) ++ reserved_identifier_warnings
             (foldl (fun map '(m, _) => <[m_name m := m]> map) ∅ parsed)).
  { intros x Hx. apply elem_of_app. left. apply list_elem_of_bind. by exists (m, w). }
  destruct (rule_named (m_access m) key) as [[r|]|] eqn:Hr; [left|right; left; by apply Hw|right; right; by apply Hw].
  exists m, r. split; [|done]. cbn. rewrite <-(parse_block_name _ _ _ _ _ _ Hblock).
  eapply foldl_insert_once; [|exact Hmw].
  rewrite (mapM_keys _ (fun b => b.1.1) (fun p => m_name p.1) _ _ (parse_block_keys _) Hparsed). done.
Qed.

(** ** A schema, by the engine *)
Module DslExamples.
Import Engine.
#[local] Existing Instance enum_order.

Definition crm : string := "
import { model, text, email, url, number, select, datetime, relation, allow, action } from '@atomo/schema'

export const onNewContact = action('onNewContact')
  .from('contacts')
  .input(['id', 'name', 'email'])

export const onStageChange = action('onStageChange')
  .from('contacts')
  .input(['id', 'stage'])

export const onDealStatusChange = action('onDealStatusChange')
  .from('deals')
  .input(['id', 'contactId', 'status', 'value'])

export const Company = model('companies', {
  fields: {
    id: text().id(),
    name: text().required().min(1),
    industry: text().optional(),
    website: url().optional(),
    createdAt: datetime().defaultNow(),
    updatedAt: datetime().autoUpdate(),
  },
  access: {
    create: allow.role(['sales', 'admin']),
    read: allow.authenticated(),
    update: allow.role(['sales', 'admin']),
    delete: allow.role('admin'),
  },
})

export const Contact = model('contacts', {
  fields: {
    id: text().id(),
    name: text().required().min(1).max(100),
    email: email().required(),
    phone: text().optional(),
    stage: select(['lead', 'qualified', 'customer']).default('lead'),
    companyId: relation('companies').optional(),
    createdAt: datetime().defaultNow(),
    updatedAt: datetime().autoUpdate(),
  },
  access: {
    create: allow.role(['sales', 'admin']),
    read: allow.authenticated(),
    update: allow.role(['sales', 'admin']),
    delete: allow.role('admin'),
  },
  on: {
    created: [onNewContact],
    updated: [onStageChange.whenChanged('stage')],
  },
})

export const Deal = model('deals', {
  fields: {
    id: text().id(),
    title: text().required().min(1).max(160),
    value: number().min(0),
    status: select(['open', 'won', 'lost']).default('open'),
    contactId: relation('contacts').required(),
    createdAt: datetime().defaultNow(),
    updatedAt: datetime().autoUpdate(),
  },
  access: {
    create: allow.role(['sales', 'admin']),
    read: allow.authenticated(),
    update: allow.role(['sales', 'admin']),
    delete: allow.role('admin'),
  },
  on: {
    updated: [onDealStatusChange.whenChanged('status')],
  },
})

export const Activity = model('activities', {
  fields: {
    id: text().id(),
    contactId: relation('contacts').required(),
    dealId: relation('deals').optional(),
    type: select(['call', 'email', 'meeting']).required(),
    notes: text().optional(),
    createdAt: datetime().defaultNow(),
    updatedAt: datetime().autoUpdate(),
  },
  access: {
    create: allow.role(['sales', 'admin']),
    read: allow.authenticated(),
    update: allow.role(['sales', 'admin']),
    delete: allow.role('admin'),
  },
})
".

(** The test's schema as its tests expect it *)
Example crm_models :
  match parse_builder_dsl crm with
  | Returns s =>
      (m_table_name <$> sc_models s !! "Deal"%string, m_validation <$> sc_models s !! "Deal"%string,
       m_events <$> sc_models s !! "Contact"%string, sc_warnings s)
  | _ => (None, None, None, [])
  end
  = (Some (Some "deals"%string),
     Some (list_to_map [("title", "required|min:1|max:160"); ("value", "min:0"); ("status", "in:open,won,lost");
                        ("contactId", "required")]%string),
     Some (mkEvents [mkBinding "onNewContact" None]
             [mkBinding "onStageChange" (Some (ChangedAny ["stage"%string]))] []), []).
Proof. vm_compute. reflexivity. Qed.

(** An access block on one line *)
Definition one_line : string :=
  "export const Post = model('posts', { fields: { id: text().id() }, access: { read: allow.role('admin'), create: allow.public() } })".
(** A key that ends in the name of an operation *)
Definition thread : string :=
  "export const Post = model('posts', { fields: { id: text().id() }, access: {
    thread: allow.public(),
    read: allow.role('admin')
  } })".

(** The schema was parsed, the model is there and has access rules such that [P]. *)
Definition access_of_model (name : string) (o : Outcome Schema) (P : AccessControl -> list string -> Prop) : Prop :=
  match o with
  | Returns s => match sc_models s !! name ≫= m_access with Some a => P a (sc_warnings s) | None => False end
  | _ => False
  end.

(** the rule of an operation is read to the end of the line.  In an access block on one
    line the rules that follow are taken for part of it: where only administrators may read
    and anyone may create, anyone may read, and nothing warns of it. *)
Theorem one_line_access_opens :
  access_of_model "Post" (parse_builder_dsl one_line) (fun a warnings =>
    access_decide a "read" None = Allow /\ warnings = []).
Proof. vm_compute. by split. Qed.

(** The rule of a key that ends in [read] is taken for the rule of [read]. *)
Example other_key_opens :
  access_of_model "Post" (parse_builder_dsl thread) (fun a warnings =>
    ac_read a = Some (RBoolean "public") /\ warnings = ["model 'Post': unrecognized access key 'thread' — ignored"%string]).
Proof. vm_compute. by split. Qed.

(** Unfinished texts make the parser panic. *)
Example unfinished_panics :
  parse_builder_dsl "export const a = action('a').from('posts).input(['id'])" = Panics /\
  parse_builder_dsl "export const P = model('p', {fields:{name:text(}})" = Panics /\
  parse_builder_dsl "export const P = model('p', {on:{created:[}})" = Panics.
Proof. vm_compute. by split_and!. Qed.

Lemma parse_ends_witness : parse_builder_dsl one_line <> Diverges.
Proof. apply parse_ends; [exact engine_laws|vm_compute; reflexivity]. Defined.

Lemma block_extent_witness : balanced_brace_body "{ a: { b: '}' } } c" 1 = Returns (Some " a: { b: '}' } "%string).
Proof.
  apply (block_extent "{ a: { b: '}' } } c" 1 " a: { b: '}' } "); [vm_compute; lia|reflexivity|].
  exists " c"%string. split; [reflexivity|].
  repeat (apply bal_char; [discriminate..|reflexivity|]).
  apply (bal_group _ _ _ " b: '}' " " "); repeat (apply bal_char; [discriminate..|reflexivity|]); try apply bal_nil.
  apply (bal_string _ _ _ squote_c "}" " "); [discriminate..|reflexivity| |].
  - apply in_char; [discriminate..|]. apply in_nil.
  - repeat (apply bal_char; [discriminate..|reflexivity|]). apply bal_nil.
Defined.

Lemma access_keys_accounted_witness :
  exists s, parse_builder_dsl thread = Returns s /\
    ((exists m r, sc_models s !! "Post"%string = Some m /\ rule_named (m_access m) "thread" = Some (Some r)) \/
     ungated "Post" "thread" ∈ sc_warnings s \/
     ("model '" +:+ "Post" +:+ "': unrecognized access key '" +:+ "thread" +:+ "' — ignored") ∈ sc_warnings s).
Proof.
  eexists. split; [vm_compute; reflexivity|].
  eapply (access_keys_accounted thread _ _ "Post" "posts" _ _ "thread");
    [vm_compute; reflexivity|vm_compute; reflexivity|apply (bool_decide_unpack _); vm_compute; exact I
    |left|vm_compute; reflexivity|apply (bool_decide_unpack _); vm_compute; exact I].
Defined.
End DslExamples.
