(* ===== verification/Auth.v ===== *)
(** * Authentication ([atomo_server/src/auth.rs], [platform_models.rs])

    Users, sessions, tokens.  The tables [users] and [sessions] are maps by id; each SQL
    statement is one step, numbered, which may fail and reads the database's clock; what
    ran before a failure stays.  Signing and password hashing are the class [AuthEnv]'s. *)

From S2P Require Import Prelude StateM Json.

(** ** Roles *)

Inductive UserRole : Type := Admin | Manager | Sales | Support | Viewer.
#[global] Instance UserRole_eq_dec : EqDecision UserRole.
Proof. solve_decision. Defined.

Definition can_access (self required_role : UserRole) : bool :=
  match self, required_role with
  | Admin, _ => true
  | Manager, (Manager | Sales | Support | Viewer) => true
  | Sales, (Sales | Viewer) => true
  | Support, (Support | Viewer) => true
  | Viewer, Viewer => true
  | _, _ => false
  end.

Definition manageable_roles (r : UserRole) : list UserRole :=
  match r with
  | Admin => [Admin; Manager; Sales; Support; Viewer]
  | Manager => [Sales; Support; Viewer]
  | Sales | Support => [Viewer]
  | Viewer => []
  end.

Definition bar : Ascii.ascii := Ascii.ascii_of_nat 124.
Definition has_permission (r : UserRole) (access_pattern : string) : bool :=
  let roles := split_on bar access_pattern in
  let has s := bool_decide (s ∈ roles) in
  match r with
  | Admin => true
  | Manager => has "manager"%string || has "sales"%string || has "support"%string
  | Sales => has "sales"%string
  | Support => has "support"%string
  | Viewer => has "viewer"%string
  end.

Definition role_str (r : UserRole) : string :=
  match r with
  | Admin => "admin" | Manager => "manager" | Sales => "sales" | Support => "support" | Viewer => "viewer"
  end.

(** An unknown role is a viewer. *)
Definition role_from (s : string) : UserRole :=
  let l := to_ascii_lowercase s in
  if decide (l = "admin"%string) then Admin
  else if decide (l = "manager"%string) then Manager
  else if decide (l = "sales"%string) then Sales
  else if decide (l = "support"%string) then Support
  else Viewer.

(** ** Tables *)

Record User : Type := mkUser {
  us_id : string; us_email : string; us_hash : string; us_first : string; us_last : string;
  us_role : string; us_active : bool; us_tenant : option string;
  us_last_login : option Z; us_created : Z; us_updated : Z
}.
Record Session : Type := mkSession {
  ss_id : string; ss_user : string; ss_token : string; ss_expires : Z; ss_revoked : bool; ss_created : Z
}.

(** The tables, the statements run and the random values drawn so far *)
Record AuthDb : Type := mkAuth {
  a_users : gmap string User;
  a_sessions : gmap string Session;
  a_statements : nat;
  a_drawn : nat
}.
Definition with_users (u : gmap string User) (s : AuthDb) : AuthDb :=
  mkAuth u (a_sessions s) (a_statements s) (a_drawn s).
Definition with_sessions (t : gmap string Session) (s : AuthDb) : AuthDb :=
  mkAuth (a_users s) t (a_statements s) (a_drawn s).

Inductive AuthError : Type := DbError (unique_violation : bool) | Refused (message : string).

Record Claims : Type := mkClaims {
  cl_sub : string; cl_email : string; cl_role : string; cl_exp : Z; cl_iat : Z; cl_jti : string
}.
Record RealtimeClaims : Type := mkRtClaims { rt_sub : string; rt_sid : option string; rt_exp : Z; rt_iat : Z }.

(** Everything outside: signing with the server's secret, hashing, randomness, faults of the
    database and its clock in milliseconds, the environment. *)
Class AuthEnv : Type := {
  encode : Claims -> string;
  encode_realtime : RealtimeClaims -> string;
  decode : Z -> string -> option Claims;                 (* at a time: signature, fields, expiry *)
  argon2_hash : string -> nat -> option string;          (* password, salt *)
  argon2_verify : string -> string -> option bool;       (* [None]: the hash does not parse *)
  bcrypt_verify : string -> string -> option bool;
  parse_id : string -> option string;                    (* [EntityId::from_string], printed *)
  new_id : nat -> string;                                (* [EntityId::new] *)
  new_uuid : nat -> string;
  fault : nat -> bool;
  db_now : nat -> Z;
  to_lowercase : string -> string;                       (* Unicode's tables *)
  env_var : string -> option string
}.

(** ** Computations *)

Definition Op (A : Type) : Type := AuthDb -> (A + AuthError) * AuthDb.
#[global] Instance op_ret : MRet Op := fun A a s => (inl a, s).
#[global] Instance op_bind : MBind Op := fun A B k m s =>
  match m s with (inl a, s') => k a s' | (inr e, s') => (inr e, s') end.

Definition refuse {A} (message : string) : Op A := fun s => (inr (Refused message), s).
Definition or_refuse {A} (o : option A) (message : string) : Op A :=
  match o with Some a => mret a | None => refuse message end.
(** The outcome as a value *)
Definition outcome {A} (m : Op A) : Op (A + AuthError) := fun s => let '(r, s') := m s in (inl r, s').

Section Auth.
Context {ho : HashOrder} {env : AuthEnv}.

(** One statement *)
Definition sql {A} (f : Z -> AuthDb -> (A + AuthError) * AuthDb) : Op A := fun s =>
  let s1 := mkAuth (a_users s) (a_sessions s) (S (a_statements s)) (a_drawn s) in
  if fault (a_statements s) then (inr (DbError false), s1) else f (db_now (a_statements s)) s1.
Definition query {A} (f : Z -> AuthDb -> A) : Op A := sql (fun now s => (inl (f now s), s)).
Definition draw : Op nat := fun s =>
  (inl (a_drawn s), mkAuth (a_users s) (a_sessions s) (a_statements s) (S (a_drawn s))).

Definition user_by_email (email : string) (s : AuthDb) : option User :=
  head (filter (fun u => us_email u = email) (hvalues (a_users s))).
Definition session_by_token (p : Session -> bool) (token : string) (s : AuthDb) : option Session :=
  head (filter (fun t => ss_token t = token /\ p t = true) (hvalues (a_sessions s))).

(** ** Passwords *)

Definition parse_usize (s : string) : option nat := Z.to_nat <$> parse_u64 s.
Definition is_letter (a : Ascii.ascii) : bool :=
  let n := Ascii.nat_of_ascii (ascii_lower a) in ((97 <=? n) && (n <=? 122))%nat.
Definition is_digit (a : Ascii.ascii) : bool := match digit_value a with Some _ => true | None => false end.

Definition validate_password_policy (password : string) : option string :=
  let min_len := default 8%nat (env_var "PASSWORD_MIN_LENGTH" ≫= parse_usize) in
  let require := match env_var "PASSWORD_REQUIRE_COMPLEXITY" with
                 | Some v => bool_decide (v = "true"%string) || bool_decide (v = "1"%string)
                 | None => true
                 end in
  let chars := String.list_ascii_of_string password in
  if (String.length password <? min_len)%nat then Some "Password is too short"%string
  else if require && negb (existsb is_letter chars && existsb is_digit chars)
  then Some "Password must contain letters and numbers"%string
  else None.

Definition hash_password (password : string) : Op string :=
  salt ← draw; or_refuse (argon2_hash password salt) "Failed to hash password".

Definition argon2_prefix : string := "$argon2".
Definition verify_password (password hash : string) : Op bool :=
  if String.prefix argon2_prefix hash
  then or_refuse (argon2_verify password hash) "Invalid hash"
  else mret (default false (bcrypt_verify password hash)).

(** ** Users as the service returns them *)

Record PlatformUser : Type := mkPlatform {
  pu_id : string; pu_email : string; pu_hash : string; pu_first : option string; pu_last : option string;
  pu_role : UserRole; pu_active : bool; pu_last_login : option Z; pu_created : Z; pu_updated : Z
}.
Definition platform_user (with_hash : bool) (u : User) : Op PlatformUser :=
  id ← or_refuse (parse_id (us_id u)) "invalid id";
  mret (mkPlatform id (us_email u) (if with_hash then us_hash u else EmptyString) (Some (us_first u))
    (Some (us_last u)) (role_from (us_role u)) (us_active u) (us_last_login u) (us_created u) (us_updated u)).

(** ** The service *)

Definition authenticate (email password : string) : Op (option PlatformUser) :=
  found ← query (fun _ s => head (filter (fun u => us_email u = email /\ us_active u = true) (hvalues (a_users s))));
  match found with
  | None => mret None
  | Some u =>
      ok ← verify_password password (us_hash u);
      if (ok : bool) then
        sql (fun now s => (inl tt, with_users
          (alter (fun u => mkUser (us_id u) (us_email u) (us_hash u) (us_first u) (us_last u) (us_role u)
                    (us_active u) (us_tenant u) (Some now) (us_created u) (us_updated u)) (us_id u) (a_users s)) s)) ;;
        p ← platform_user true u; mret (Some p)
      else mret None
  end.

Definition authorize (user : PlatformUser) (action : string) : bool :=
  let pattern :=
    if decide (action = "read"%string) then Some "admin|manager|sales|support|viewer"%string
    else if decide (action = "write"%string) then Some "admin|manager|sales"%string
    else if decide (action = "delete"%string) then Some "admin|manager"%string
    else if decide (action = "admin"%string) then Some "admin"%string else None in
  match pattern with Some p => has_permission (pu_role user) p | None => false end.

Definition day : Z := 24 * 3600 * 1000.
Definition timestamp (t : Z) : Z := t / 1000.

(** A session of the user, its refresh token and end *)
Definition create_session (now : Z) (user_id : string) : Op Session :=
  n ← draw; m ← draw;
  let t := mkSession (new_id n) user_id (new_uuid m) (now + day) false now in
  sql (fun _ s => match a_sessions s !! ss_id t with
                  | Some _ => (inr (DbError true), s)
                  | None => (inl tt, with_sessions (<[ss_id t := t]> (a_sessions s)) s)
                  end) ;;
  mret t.

Definition issue_tokens (now : Z) (user_id email role : string) : Op (string * string) :=
  id ← or_refuse (parse_id user_id) "invalid id";
  session ← create_session now id;
  let claims := mkClaims user_id email role (timestamp (now + day)) (timestamp now) (ss_id session) in
  mret (encode claims, ss_token session).

(** No session: whoever has it holds until it expires. *)
Definition mint_realtime_token (now : Z) (user_id : string) (session : option string) (ttl_seconds : Z) : string :=
  encode_realtime (mkRtClaims user_id session (timestamp (now + ttl_seconds * 1000)) (timestamp now)).

(** The user of the live session a token names *)
Definition validate_session (now : Z) (token : string) : Op (option PlatformUser) :=
  match decode now token with
  | None => mret None
  | Some claims =>
      session ← query (fun dbnow s => match a_sessions s !! cl_jti claims with
                  | Some t => if bool_decide (dbnow < ss_expires t) && negb (ss_revoked t) then Some t else None
                  | None => None
                  end);
      match session with
      | None => mret None
      | Some t =>
          id ← or_refuse (parse_id (ss_user t)) "invalid id";
          user ← query (fun _ s => a_users s !! id);
          match user with
          | None => mret None
          | Some u => p ← platform_user false u; mret (Some p)
          end
      end
  end.

Record AuthUser : Type := mkAuthUser {
  au_id : string; au_email : string; au_role : UserRole; au_session : string; au_tenant : option string
}.

Definition verify_token (now : Z) (token : string) : Op AuthUser :=
  claims ← or_refuse (decode now token) "invalid token";
  user ← validate_session now token;
  match user with
  | None => refuse "Session expired or invalid"
  | Some u =>
      tenant ← query (fun _ s => a_users s !! pu_id u ≫= us_tenant);
      mret (mkAuthUser (pu_id u) (pu_email u) (pu_role u) (cl_jti claims) tenant)
  end.

(** The session a refresh token belongs to, checked *)
Definition refreshable (token : string) : Op Session :=
  found ← query (fun _ s => session_by_token (fun t => negb (ss_revoked t)) token s);
  session ← or_refuse found "Invalid refresh token";
  valid ← query (fun dbnow s => (fun t => bool_decide (dbnow < ss_expires t)) <$> session_by_token (fun _ => true) token s);
  match valid with
  | None => fun s => (inr (DbError false), s)          (* the row is gone: [fetch_one] *)
  | Some false => refuse "Refresh token expired"
  | Some true => mret session
  end.

(** New tokens for the session; the refresh token is replaced. *)
Definition rotate (now : Z) (session : Session) : Op (string * string * PlatformUser) :=
  found ← query (fun _ s => a_users s !! ss_user session);
  u ← or_refuse found "User not found";
  p ← platform_user false u;
  let claims := mkClaims (us_id u) (us_email u) (us_role u) (timestamp (now + day)) (timestamp now) (ss_id session) in
  m ← draw;
  sql (fun _ s => (inl tt, with_sessions
    (alter (fun t => mkSession (ss_id t) (ss_user t) (new_uuid m) (now + day) (ss_revoked t) (ss_created t))
       (ss_id session) (a_sessions s)) s)) ;;
  mret (encode claims, new_uuid m, p).

Definition refresh_access_token (now : Z) (token : string) : Op (string * string * PlatformUser) :=
  session ← refreshable token; rotate now session.

Definition revoke_session (id : string) : Op unit :=
  sql (fun _ s => (inl tt, with_sessions
    (alter (fun t => mkSession (ss_id t) (ss_user t) (ss_token t) (ss_expires t) true (ss_created t)) id (a_sessions s)) s)).

Definition get_user (id : string) : Op (option PlatformUser) :=
  found ← query (fun _ s => a_users s !! id);
  match found with None => mret None | Some u => p ← platform_user false u; mret (Some p) end.
Definition get_user_by_email (email : string) : Op (option PlatformUser) :=
  found ← query (fun _ s => user_by_email email s);
  match found with None => mret None | Some u => p ← platform_user false u; mret (Some p) end.

(** [INSERT INTO users]: ids and emails are unique. *)
Definition insert_user (row : Z -> User) : Op unit :=
  sql (fun dbnow s =>
    let u := row dbnow in
    if decide (is_Some (a_users s !! us_id u) \/ is_Some (user_by_email (us_email u) s))
    then (inr (DbError true), s) else (inl tt, with_users (<[us_id u := u]> (a_users s)) s)).

(** The role asked for is not used. *)
Definition create_user (now : Z) (email password first last : string) : Op PlatformUser :=
  match validate_password_policy password with
  | Some message => refuse message
  | None =>
      n ← draw;
      hash ← hash_password password;
      insert_user (fun _ => mkUser (new_id n) email hash first last "viewer" true None None now now) ;;
      mret (mkPlatform (new_id n) email hash (Some first) (Some last) Viewer true None now now)
  end.

(** Names are mandatory columns. *)
Definition update_user (now : Z) (p : PlatformUser) : Op PlatformUser :=
  sql (fun _ s =>
    match a_users s !! pu_id p with
    | None => (inl tt, s)
    | Some u =>
        match pu_first p, pu_last p with
        | Some first, Some last =>
            if existsb (fun v => bool_decide (us_email v = pu_email p) && negb (bool_decide (us_id v = us_id u)))
                 (hvalues (a_users s))
            then (inr (DbError true), s)
            else (inl tt, with_users (<[pu_id p := mkUser (us_id u) (pu_email p) (us_hash u) first last
                     (role_str (pu_role p)) (pu_active p) (us_tenant u) (us_last_login u) (us_created u) now]> (a_users s)) s)
        | _, _ => (inr (DbError false), s)
        end
    end) ;;
  mret (mkPlatform (pu_id p) (pu_email p) (pu_hash p) (pu_first p) (pu_last p) (pu_role p) (pu_active p)
          (pu_last_login p) (pu_created p) now).

(** ** Registration policy *)

Inductive TenantProvisioning : Type := NoTenant | PerUser | Fixed (tenant : string).

Definition tenant_from_env : TenantProvisioning :=
  let v := trim (default EmptyString (env_var "ATOMO_SELF_REGISTRATION_TENANT")) in
  if decide (v ∈ [EmptyString; "none"%string]) then NoTenant
  else if decide (v ∈ ["per-user"; "self"]%string) then PerUser
  else Fixed v.
Definition tenant_id_for (t : TenantProvisioning) (user_id : string) : option string :=
  match t with NoTenant => None | PerUser => Some user_id | Fixed tenant => Some tenant end.

Record RegistrationConfig : Type := mkRegistration {
  rg_enabled : bool; rg_role : string; rg_tenant : TenantProvisioning
}.
Definition registration_new (enabled : bool) : RegistrationConfig :=
  let role := match trim <$> env_var "ATOMO_SELF_REGISTRATION_ROLE" with
              | Some v => if bool_decide (v = EmptyString) then "viewer"%string else v
              | None => "viewer"%string
              end in
  mkRegistration enabled role tenant_from_env.
Definition registration_disabled : RegistrationConfig := mkRegistration false "viewer" NoTenant.

(** ** Handlers: a response or a status *)

Record UserInfo : Type := mkInfo {
  ui_id : string; ui_email : string; ui_role : string; ui_first : string; ui_last : string; ui_tenant : option string
}.
Record LoginResponse : Type := mkLogin { lr_token : string; lr_refresh : option string; lr_user : UserInfo }.

Definition Reply (A : Type) : Type := AuthDb -> (A + Z) * AuthDb.
(** [m.await.map_err(|_| status)?] and the rest *)
Definition then_or {A B} (m : Op A) (status : AuthError -> Z) (k : A -> Reply B) : Reply B := fun s =>
  match m s with (inl a, s') => k a s' | (inr e, s') => (inr (status e), s') end.
Definition answer {B} (b : B) : Reply B := fun s => (inl b, s).
Definition reject {B} (status : Z) : Reply B := fun s => (inr status, s).
Definition internal (e : AuthError) : Z := 500.

Definition login (now : Z) (email password : string) : Reply LoginResponse :=
  then_or (authenticate email password) internal (fun found =>
  match found with
  | None => reject 401
  | Some user =>
      then_or (issue_tokens now (pu_id user) (pu_email user) (role_str (pu_role user))) internal (fun '(token, refresh) =>
      then_or (found ← query (fun _ s => a_users s !! pu_id user); or_refuse found "no row") internal (fun u =>
      answer (mkLogin token (Some refresh)
        (mkInfo (pu_id user) (pu_email user) (role_str (pu_role user)) (us_first u) (us_last u) (us_tenant u)))))
  end).

Record RegisterRequest : Type := mkRegister {
  rq_email : string; rq_password : string; rq_first : option string; rq_last : option string
}.
Definition at_char : Ascii.ascii := Ascii.ascii_of_nat 64.

Definition register (now : Z) (config : RegistrationConfig) (req : RegisterRequest) : Reply LoginResponse :=
  let email := to_lowercase (trim (rq_email req)) in
  if bool_decide (email = EmptyString) || negb (has_char at_char email) || (254 <? String.length email)%nat
  then reject 400 else
  match validate_password_policy (rq_password req) with
  | Some _ => reject 400
  | None =>
      then_or draw internal (fun n =>
      let id := new_id n in
      then_or (hash_password (rq_password req)) internal (fun hash =>
      let first := default EmptyString (rq_first req) in
      let last := default EmptyString (rq_last req) in
      let tenant := tenant_id_for (rg_tenant config) id in
      then_or (insert_user (fun dbnow => mkUser id email hash first last (rg_role config) true tenant None dbnow dbnow))
        (fun e => match e with DbError true => 409 | _ => 500 end) (fun _ =>
      then_or (issue_tokens now id email (rg_role config)) internal (fun '(token, refresh) =>
      answer (mkLogin token (Some refresh) (mkInfo id email (rg_role config) first last tenant))))))
  end.

(** [auth_middleware]: the user of a bearer token *)
Definition bearer (header : option string) : option string :=
  match header with
  | Some h => if String.prefix "Bearer " h then Some (String.substring 7 (String.length h - 7) h) else None
  | None => None
  end.
Definition auth_middleware {B} (now : Z) (header : option string) (next : AuthUser -> Reply B) : Reply B :=
  match bearer header with
  | None => reject 401
  | Some token => then_or (verify_token now token) (fun _ => 401) next
  end.
Definition optional_auth_middleware {B} (now : Z) (header : option string) (next : option AuthUser -> Reply B) : Reply B :=
  match bearer header with
  | None => next None
  | Some token => then_or (outcome (verify_token now token)) internal
                    (fun r => next (match r with inl u => Some u | inr _ => None end))
  end.

Definition logout (user : AuthUser) : Reply unit :=
  match parse_id (au_session user) with
  | None => reject 500
  | Some id => then_or (revoke_session id) internal (fun _ => answer tt)
  end.
Definition me (user : AuthUser) : UserInfo :=
  mkInfo (au_id user) (au_email user) (role_str (au_role user)) EmptyString EmptyString (au_tenant user).
Definition refresh (now : Z) (token : string) : Reply LoginResponse :=
  then_or (refresh_access_token now token) (fun _ => 401) (fun '(token, new_refresh, user) =>
  then_or (outcome (query (fun _ s => a_users s !! pu_id user ≫= us_tenant))) internal (fun tenant =>
  answer (mkLogin token (Some new_refresh)
    (mkInfo (pu_id user) (pu_email user) (role_str (pu_role user)) (default EmptyString (pu_first user))
       (default EmptyString (pu_last user)) (match tenant with inl t => t | inr _ => None end))))).
End Auth.

(** * Responses and the credentials of a request

    What the server's route files share: a response, a handler as a computation that may
    answer early, and the two user middlewares of [atomo_server/src/auth.rs] in front of a
    handler of a larger state. *)

Inductive Body : Type := NoBody | TextBody (s : string) | JsonBody (v : Value).
Record Response : Type := mkResponse { rs_status : Z; rs_headers : list (string * string); rs_body : Body }.

Definition empty_response (status : Z) : Response := mkResponse status [] NoBody.
Definition text_response (status : Z) (s : string) : Response := mkResponse status [] (TextBody s).
Definition json_response (status : Z) (v : Value) : Response := mkResponse status [] (JsonBody v).
Definition error_json (status : Z) (message : string) : Response :=
  json_response status (json_object [("error"%string, VString message)]).

(** A handler: the response it returns, early or at its end *)
Abbreviation Handler S := (Comp S Response Response).
Definition respond {S} (h : Handler S) : S -> Response * S := fun s =>
  let '(r, s') := h s in (match r with inl x => x | inr x => x end, s').

Definition clamp (lo hi x : Z) : Z := Z.max lo (Z.min x hi).
Lemma clamp_range lo hi x : lo <= hi -> lo <= clamp lo hi x <= hi.
Proof. unfold clamp. lia. Qed.

(** ** The user of a request *)

(** A state with the users' tables *)
Class HasAuth (S : Type) : Type := { auth_of : S -> AuthDb; with_auth : AuthDb -> S -> S }.

(** [format!("{:?}", role)] *)
Definition role_debug (r : UserRole) : string :=
  match r with Admin => "Admin" | Manager => "Manager" | Sales => "Sales" | Support => "Support" | Viewer => "Viewer" end.

Section User.
Context {ho : HashOrder} {env : AuthEnv} {S : Type} {ha : HasAuth S}.

Definition reply {A} (m : Reply A) : Comp S Response A := on auth_of with_auth (with_error empty_response m).

(** [auth_middleware] and [optional_auth_middleware], then the handler *)
Definition user_required (now : Z) (authorization : option string) : Comp S Response AuthUser :=
  reply (auth_middleware now authorization answer).
Definition user_optional (now : Z) (authorization : option string) : Comp S Response (option AuthUser) :=
  reply (optional_auth_middleware now authorization answer).
End User.
