(* ===== verification/AuthSpec.v ===== *)
(** * What authentication promises

    Tokens handed out verify as their user while their session lasts; once a user has
    logged out, no history of requests, however interleaved, brings the session back.  What
    deactivating a user does not do is among the examples. *)

From S2P Require Import Prelude Json Auth.

(** What the service relies on *)
Class AuthLaws (env : AuthEnv) : Prop := {
  decode_encode now c : now <= 1000 * cl_exp c -> decode now (encode c) = Some c;
  parse_id_new n : parse_id (new_id n) = Some (new_id n);
  parse_id_idem s id : parse_id s = Some id -> parse_id id = Some id;
  new_uuid_inj m n : new_uuid m = new_uuid n -> m = n
}.

(** ** Computations that succeed *)

Lemma op_bind_inl {A B} (m : Op A) (k : A -> Op B) s b s2 :
  (m ≫= k) s = (inl b, s2) -> exists a s1, m s = (inl a, s1) /\ k a s1 = (inl b, s2).
Proof. unfold mbind, op_bind. destruct (m s) as [[a|e] s1]; [eauto|done]. Qed.
Lemma then_inl {A B} (m : Op A) f (k : A -> Reply B) s b s2 :
  then_or m f k s = (inl b, s2) -> exists a s1, m s = (inl a, s1) /\ k a s1 = (inl b, s2).
Proof. unfold then_or. destruct (m s) as [[a|e] s1]; [eauto|done]. Qed.
Lemma or_refuse_inl {A} (o : option A) msg s a s1 :
  or_refuse o msg s = (inl a, s1) -> o = Some a /\ s1 = s.
Proof. destruct o; cbn; [|done]. unfold mret, op_ret. intros [=]. by subst. Qed.

Section Spec.
Context {ho : HashOrder} {env : AuthEnv}.

(** The state one statement later *)
Definition counted (s : AuthDb) : AuthDb := mkAuth (a_users s) (a_sessions s) (S (a_statements s)) (a_drawn s).

Lemma sql_inl {A} (f : Z -> AuthDb -> (A + AuthError) * AuthDb) s a s1 :
  sql f s = (inl a, s1) -> f (db_now (a_statements s)) (counted s) = (inl a, s1).
Proof. unfold sql. by destruct (fault _). Qed.
Lemma query_inl {A} (f : Z -> AuthDb -> A) s a s1 :
  query f s = (inl a, s1) -> a = f (db_now (a_statements s)) (counted s) /\ s1 = counted s.
Proof. intros H%sql_inl. by inversion H. Qed.
Lemma query_ok {A} (f : Z -> AuthDb -> A) s :
  fault (a_statements s) = false -> query f s = (inl (f (db_now (a_statements s)) (counted s)), counted s).
Proof. intros H. unfold query, sql. by rewrite H. Qed.
Lemma draw_inl s n s1 :
  draw s = (inl n, s1) -> n = a_drawn s /\ s1 = mkAuth (a_users s) (a_sessions s) (a_statements s) (S n).
Proof. intros [=]. by subst. Qed.

(** ** The invariant of the tables *)

Record Wf (s : AuthDb) : Prop := {
  wf_user id u : a_users s !! id = Some u -> us_id u = id /\ parse_id id = Some id;
  wf_session id t : a_sessions s !! id = Some t ->
    ss_id t = id /\ parse_id id = Some id /\ exists m, (m < a_drawn s)%nat /\ ss_token t = new_uuid m;
  wf_token id1 id2 t1 t2 : a_sessions s !! id1 = Some t1 -> a_sessions s !! id2 = Some t2 ->
    ss_token t1 = ss_token t2 -> id1 = id2
}.

(** Sessions stay, their user with them, and revoked ones stay revoked. *)
Definition kept (s s' : AuthDb) : Prop :=
  (a_drawn s <= a_drawn s')%nat /\ (a_statements s <= a_statements s')%nat /\
  forall id t, a_sessions s !! id = Some t -> exists t', a_sessions s' !! id = Some t' /\
    ss_user t' = ss_user t /\ (ss_revoked t = true -> ss_revoked t' = true).
#[global] Instance kept_refl : Reflexive kept.
Proof. intros s. split_and!; [done..|]. eauto 6. Qed.
#[global] Instance kept_trans : Transitive kept.
Proof.
  intros s1 s2 s3 (L1 & M1 & H1) (L2 & M2 & H2). split_and!; [lia..|]. intros id t Ht.
  destruct (H1 id t Ht) as (t2 & Ht2 & U2 & R2). destruct (H2 id t2 Ht2) as (t3 & Ht3 & U3 & R3).
  exists t3. split_and!; [done|congruence|tauto].
Qed.

Lemma kept_same s s' :
  (a_drawn s <= a_drawn s')%nat -> (a_statements s <= a_statements s')%nat -> a_sessions s' = a_sessions s -> kept s s'.
Proof. intros L M E. split_and!; [done..|]. rewrite E. eauto 6. Qed.

(** Whatever the outcome *)
Definition good {A E} (m : AuthDb -> (A + E) * AuthDb) : Prop := forall s, Wf s -> Wf (m s).2 /\ kept s (m s).2.

Lemma good_ret {A} (a : A) : good (mret a : Op A).
Proof. intros s H. by split. Qed.
Lemma good_refuse {A} msg : good (refuse msg : Op A).
Proof. intros s H. by split. Qed.
Lemma good_or_refuse {A} (o : option A) msg : good (or_refuse o msg).
Proof. destruct o; [apply good_ret|apply good_refuse]. Qed.
Lemma good_bind {A B} (m : Op A) (k : A -> Op B) : good m -> (forall a, good (k a)) -> good (m ≫= k).
Proof.
  intros Hm Hk s W. unfold mbind, op_bind. destruct (Hm s W) as [W1 K1].
  destruct (m s) as [[a|e] s1]; [|done]. destruct (Hk a s1 W1) as [W2 K2]. split; [done|by etrans].
Qed.
Lemma good_then {A B} (m : Op A) f (k : A -> Reply B) : good m -> (forall a, good (k a)) -> good (then_or m f k).
Proof.
  intros Hm Hk s W. unfold then_or. destruct (Hm s W) as [W1 K1].
  destruct (m s) as [[a|e] s1]; [|done]. destruct (Hk a s1 W1) as [W2 K2]. split; [done|by etrans].
Qed.
Lemma good_outcome {A} (m : Op A) : good m -> good (outcome m).
Proof. intros Hm s W. unfold outcome. specialize (Hm s W). by destruct (m s). Qed.
Lemma good_answer {B} (b : B) : good (answer b).
Proof. intros s H. by split. Qed.
Lemma good_reject {B} z : good (reject z : Reply B).
Proof. intros s H. by split. Qed.
Lemma good_counted s : Wf s -> Wf (counted s) /\ kept s (counted s).
Proof. intros []. split; [by constructor|apply kept_same; cbn; [lia|lia|done]]. Qed.
Lemma good_sql {A} (f : Z -> AuthDb -> (A + AuthError) * AuthDb) : (forall z, good (f z)) -> good (sql f).
Proof.
  intros Hf s W. unfold sql. destruct (good_counted s W) as [W1 K1].
  destruct (fault _); [done|]. destruct (Hf (db_now (a_statements s)) _ W1) as [W2 K2]. split; [done|by etrans].
Qed.
Lemma good_query {A} (f : Z -> AuthDb -> A) : good (query f).
Proof. apply good_sql. intros z s W. by split. Qed.
Lemma good_draw : good draw.
Proof.
  intros s [WU WS WT]. split; [|apply kept_same; cbn; [lia|lia|done]].
  constructor; cbn; [done| |done].
  intros id t Ht. destruct (WS id t Ht) as (? & ? & m & ? & ?). split_and!; [done..|exists m; split; [lia|done]].
Qed.

(** Changing rows in place *)
Lemma good_users (f : User -> User) id :
  (forall u, us_id (f u) = us_id u) ->
  good (fun s => (inl tt : unit + AuthError, with_users (alter f id (a_users s)) s)).
Proof.
  intros Hf s [WU WS WT]. split; [|by apply kept_same]. constructor; cbn; [|done|done].
  intros id' u. rewrite lookup_alter_Some.
  intros [(<- & u0 & Hu0 & ->)|[? Hu]]; [|by apply WU]. rewrite Hf. by apply WU.
Qed.

(** A row's new token is its old one or fresh. *)
Lemma good_sessions `{!AuthLaws env} s s1 (f : Session -> Session) id :
  Wf s -> a_users s1 = a_users s -> a_sessions s1 = a_sessions s ->
  (a_drawn s <= a_drawn s1)%nat -> (a_statements s <= a_statements s1)%nat ->
  (forall t, ss_id (f t) = ss_id t /\ ss_user (f t) = ss_user t /\ (ss_revoked t = true -> ss_revoked (f t) = true)) ->
  (forall t, ss_token (f t) = ss_token t \/
     exists m, (a_drawn s <= m < a_drawn s1)%nat /\ ss_token (f t) = new_uuid m) ->
  Wf (with_sessions (alter f id (a_sessions s1)) s1) /\ kept s (with_sessions (alter f id (a_sessions s1)) s1).
Proof.
  intros [WU WS WT] EU ES L M Hf Ht. rewrite ES. split.
  - constructor; cbn.
    + by rewrite EU.
    + intros id' t. rewrite lookup_alter_Some. intros [(<- & t0 & H0 & ->)|[_ H0]].
      * destruct (WS _ _ H0) as (I & P & m & Lm & Em). destruct (Hf t0) as (I' & _).
        split_and!; [congruence|done|]. destruct (Ht t0) as [->|(m' & ? & ->)]; [exists m|exists m']; split; [lia|done|lia|done].
      * destruct (WS _ _ H0) as (I & P & m & Lm & Em). split_and!; [done..|exists m; split; [lia|done]].
    + assert (forall t t' id', id <> id' -> a_sessions s !! id = Some t -> a_sessions s !! id' = Some t' ->
               ss_token (f t) <> ss_token t') as Hne.
      { intros t t' id' Hid H1 H2 E. destruct (Ht t) as [Es|(m & Lm & Em)].
        - apply Hid, (WT _ _ _ _ H1 H2). congruence.
        - destruct (WS _ _ H2) as (_ & _ & m' & Lm' & Em'). rewrite Em, Em' in E. apply new_uuid_inj in E. lia. }
      intros id1 id2 t1 t2. rewrite !lookup_alter_Some.
      intros [(<- & t & H1 & ->)|[N1 H1]] [(E2 & t' & H2 & ->)|[N2 H2]] E; [done| | |eauto].
      * by apply Hne with (t' := t2) (id' := id2) in E.
      * subst id2. symmetry in E. by apply Hne with (t' := t1) (id' := id1) in E.
  - split_and!; [cbn; lia..|]. intros id' t H1. cbn. destruct (decide (id = id')) as [<-|N].
    + exists (f t). rewrite lookup_alter_eq, H1. split; [done|]. apply Hf.
    + exists t. by rewrite lookup_alter_ne.
Qed.

Context `{!AuthLaws env}.

Lemma good_hash password : good (hash_password password).
Proof. apply good_bind; [apply good_draw|intros; apply good_or_refuse]. Qed.
Lemma good_verify_password password hash : good (verify_password password hash).
Proof. unfold verify_password. destruct (String.prefix _ _); [apply good_or_refuse|apply good_ret]. Qed.
Lemma good_platform_user b u : good (platform_user b u).
Proof. apply good_bind; [apply good_or_refuse|intros; apply good_ret]. Qed.

Lemma good_insert_user row :
  (forall z, us_id (row z) = us_id (row 0) /\ parse_id (us_id (row 0)) = Some (us_id (row 0))) -> good (insert_user row).
Proof.
  intros Hp. apply good_sql. intros z s W. cbn. destruct (decide _) as [|N]; [by split|].
  split; [|by apply kept_same]. destruct W as [WU WS WT]. constructor; cbn; [|done|done].
  intros id u. destruct (Hp z) as [E P]. rewrite lookup_insert_Some. intros [[<- <-]|[_ H]]; [|by apply WU].
  by rewrite E.
Qed.

Lemma good_create_session now user_id : good (create_session now user_id).
Proof.
  intros s W. unfold create_session, sql, mbind, op_bind, draw. cbn.
  set (s1 := mkAuth (a_users s) (a_sessions s) (S (a_statements s)) (S (S (a_drawn s)))).
  assert (Wf s1 /\ kept s s1) as [W1 K1].
  { destruct (good_draw _ W) as [W2 K2]. destruct (good_draw _ W2) as [W3 K3].
    destruct (good_counted _ W3) as [W4 K4]. cbn in *. split; [done|]. by repeat (etrans; [eassumption|]). }
  destruct (fault _); [done|]. cbn. destruct (a_sessions s !! new_id (a_drawn s)) as [t|] eqn:E; [done|]. cbn. split.
  - destruct W as [WU WS WT]. constructor; cbn; [done| |].
    + intros id t. rewrite lookup_insert_Some. intros [[<- <-]|[_ H]].
      * cbn. split_and!; [done|apply parse_id_new|]. exists (S (a_drawn s)). split; [lia|done].
      * apply (wf_session _ W1 _ _ H).
    + assert (forall id t, a_sessions s !! id = Some t -> new_uuid (S (a_drawn s)) <> ss_token t) as Hne.
      { intros id t H Eq. destruct (WS _ _ H) as (_ & _ & m & L & Em). rewrite Em in Eq. apply new_uuid_inj in Eq. lia. }
      intros id1 id2 t1 t2. rewrite !lookup_insert_Some.
      intros [[<- <-]|[N1 H1]] [[<- <-]|[N2 H2]] Eq; cbn in Eq; [done| | |by eapply WT].
      * by destruct (Hne _ _ H2 Eq).
      * by destruct (Hne _ _ H1 (eq_sym Eq)).
  - etrans; [exact K1|]. split_and!; [done..|]. intros id t H. cbn. exists t. split_and!; [|done..].
    rewrite lookup_insert_ne; [done|]. intros <-. cbn in H. congruence.
Qed.

Create HintDb good discriminated.
#[local] Hint Resolve good_ret good_refuse good_or_refuse good_bind good_then good_outcome good_answer good_reject
  good_query good_draw good_hash good_verify_password good_platform_user good_create_session : good.
#[local] Hint Extern 2 (good (match ?x with _ => _ end)) => destruct x : good.
Ltac good := repeat (intros; first [solve [eauto 3 with good] | apply good_bind | apply good_then | apply good_outcome
  | match goal with |- good (match ?x with _ => _ end) => destruct x end ]).

Lemma good_authenticate email password : good (authenticate email password).
Proof.
  unfold authenticate. good. apply good_sql. intros z. by apply good_users.
Qed.
Lemma good_issue now user_id email role : good (issue_tokens now user_id email role).
Proof. unfold issue_tokens. good. Qed.
Lemma good_validate now token : good (validate_session now token).
Proof. unfold validate_session. good. Qed.
Lemma good_verify now token : good (verify_token now token).
Proof. unfold verify_token. good. apply good_validate. Qed.
Lemma good_refreshable token : good (refreshable token).
Proof. unfold refreshable. good. intros s W. by split. Qed.
Lemma good_rotate now session : good (rotate now session).
Proof.
  unfold rotate. apply good_bind; [good|]. intros found. apply good_bind; [good|]. intros u.
  apply good_bind; [good|]. intros p s W. unfold mbind, op_bind, draw, sql. cbn. destruct (fault _).
  - destruct (good_draw s W) as [W1 K1]. destruct (good_counted _ W1) as [W2 K2]. split; [done|]. by etrans.
  - cbn. apply (good_sessions s (mkAuth (a_users s) (a_sessions s) (S (a_statements s)) (S (a_drawn s)))); try (cbn; done || lia).
    + intros t. right. exists (a_drawn s). cbn. split; [lia|done].
Qed.
Lemma good_revoke id : good (revoke_session id).
Proof.
  apply good_sql. intros z s W. cbn. apply good_sessions; try done. intros t. by left.
Qed.
Lemma good_create_user now email password first last : good (create_user now email password first last).
Proof.
  unfold create_user. good. apply good_insert_user. intros z. split; [done|apply parse_id_new].
Qed.
Lemma good_update_user now p : good (update_user now p).
Proof.
  unfold update_user. apply good_bind; [|good]. apply good_sql. intros z s W. cbn.
  destruct (a_users s !! pu_id p) as [u|] eqn:E; [|by split].
  destruct (pu_first p), (pu_last p); try by split. destruct (existsb _ _); [by split|].
  split; [|by apply kept_same]. destruct W as [WU WS WT]. constructor; cbn; [|done|done].
  intros id v. rewrite lookup_insert_Some. intros [[<- <-]|[_ H]]; [exact (WU _ _ E)|exact (WU _ _ H)].
Qed.

#[local] Hint Resolve good_authenticate good_issue good_validate good_verify good_refreshable good_rotate good_revoke : good.

Lemma good_login now email password : good (login now email password).
Proof. unfold login. good. Qed.
Lemma good_register now config req : good (register now config req).
Proof.
  unfold register. good. apply good_insert_user. intros z. split; [done|apply parse_id_new].
Qed.
Lemma good_logout user : good (logout user).
Proof. unfold logout. good. Qed.
Lemma good_refresh now token : good (refresh now token).
Proof. unfold refresh, refresh_access_token. good. Qed.

(** ** Histories *)

(** Requests, and the halves of a refresh that others may come between: the second works on
    whatever session row the first had read. *)
Inductive AuthStep : Type :=
| DoLogin (now : Z) (email password : string)
| DoRegister (now : Z) (config : RegistrationConfig) (req : RegisterRequest)
| DoVerify (now : Z) (token : string)
| DoRefresh (now : Z) (token : string)
| DoRefreshable (token : string)
| DoRotate (now : Z) (session : Session)
| DoLogout (user : AuthUser)
| DoIssue (now : Z) (user_id email role : string)
| DoCreateUser (now : Z) (email password first last : string)
| DoUpdateUser (now : Z) (user : PlatformUser).
Definition auth_step (c : AuthStep) (s : AuthDb) : AuthDb :=
  match c with
  | DoLogin now email password => (login now email password s).2
  | DoRegister now config req => (register now config req s).2
  | DoVerify now token => (verify_token now token s).2
  | DoRefresh now token => (refresh now token s).2
  | DoRefreshable token => (refreshable token s).2
  | DoRotate now session => (rotate now session s).2
  | DoLogout user => (logout user s).2
  | DoIssue now user_id email role => (issue_tokens now user_id email role s).2
  | DoCreateUser now email password first last => (create_user now email password first last s).2
  | DoUpdateUser now user => (update_user now user s).2
  end.
Definition auth_run (l : list AuthStep) (s : AuthDb) : AuthDb := foldl (fun s c => auth_step c s) s l.
Definition auth_init : AuthDb := mkAuth ∅ ∅ 0 0.

Lemma auth_run_good l s : Wf s -> Wf (auth_run l s) /\ kept s (auth_run l s).
Proof.
  induction l as [|c l IH] in s |- *; intros W; [by split|]. cbn.
  assert (Wf (auth_step c s) /\ kept s (auth_step c s)) as [W1 K1].
  { destruct c; cbn; (apply good_login || apply good_register || apply good_verify || apply good_refresh
      || apply good_refreshable || apply good_rotate || apply good_logout || apply good_issue
      || apply good_create_user || apply good_update_user); done. }
  destruct (IH _ W1) as [W2 K2]. split; [done|by etrans].
Qed.
Lemma wf_init : Wf auth_init.
Proof. constructor; cbn; intros *; rewrite ?lookup_empty; done. Qed.

(** ** Revoked sessions *)

Definition refused {A} (m : Op A) (s : AuthDb) : Prop := exists e, (m s).1 = inr e.
Definition revoked (id : string) (s : AuthDb) : Prop :=
  exists t, a_sessions s !! id = Some t /\ ss_revoked t = true.

Lemma revoked_kept id s s' : kept s s' -> revoked id s -> revoked id s'.
Proof. intros (_ & _ & K) (t & H & R). destruct (K _ _ H) as (t' & ? & ? & ?). exists t'. auto. Qed.

Lemma verify_refused now token c s :
  revoked (cl_jti c) s -> decode now token = Some c -> refused (verify_token now token) s.
Proof.
  intros (t & H & R) D. unfold refused, verify_token, validate_session, mbind, op_bind, query, sql.
  rewrite D. cbn. rewrite H, R. cbn. destruct (fault _); [eauto|]. rewrite andb_false_r. cbn. eauto.
Qed.
Lemma refresh_refused now id t s :
  Wf s -> a_sessions s !! id = Some t -> ss_revoked t = true -> refused (refresh_access_token now (ss_token t)) s.
Proof.
  intros W H R. unfold refused, refresh_access_token, refreshable, mbind, op_bind, query, sql.
  destruct (fault _); [eauto|]. cbn. unfold session_by_token. cbn.
  destruct (filter _ _) as [|t' l] eqn:E; [cbn; eauto|]. exfalso.
  assert (t' ∈ t' :: l) as Hin by left. rewrite <- E in Hin.
  apply list_elem_of_filter in Hin as [[Tok P] Hin]. apply elem_of_hvalues in Hin as [id' H'].
  assert (id' = id) as -> by (by apply (wf_token _ W _ _ _ _ H' H)).
  rewrite H in H'. injection H' as <-. by rewrite R in P.
Qed.

Ltac inv_op := repeat match goal with
  | H : (_ ≫= _) _ = (inl _, _) |- _ => apply op_bind_inl in H as (? & ? & ? & ?)
  | H : then_or _ _ _ _ = (inl _, _) |- _ => apply then_inl in H as (? & ? & ? & ?)
  | H : or_refuse _ _ _ = (inl _, _) |- _ => apply or_refuse_inl in H as [? ->]
  | H : query _ _ = (inl _, _) |- _ => apply query_inl in H as [-> ->]
  | H : draw _ = (inl _, _) |- _ => apply draw_inl in H as [-> ->]
  | H : mret _ _ = (inl _, _) |- _ => unfold mret, op_ret in H
  | H : refuse _ _ = (inl _, _) |- _ => done
  | p : (string * string)%type |- _ => destruct p
  | H : (inl _, _) = (inl _, _) |- _ => injection H; clear H; intros; subst
  end.

Lemma verified_session now token s user s' :
  verify_token now token s = (inl user, s') -> is_Some (a_sessions s !! au_session user).
Proof.
  unfold verify_token, validate_session. intros H. inv_op. rename H0 into Hq, H1 into Hu. rewrite H in Hq.
  destruct x1; [|done]. inv_op. cbn in *. destruct (a_sessions s !! cl_jti x); [done|].
  unfold mret, op_ret in *. done.
Qed.
Lemma logout_revokes user s s' :
  Wf s -> logout user s = (inl tt, s') -> is_Some (a_sessions s !! au_session user) -> revoked (au_session user) s'.
Proof.
  intros W H [t Ht]. destruct (wf_session _ W _ _ Ht) as (_ & P & _). unfold logout in H. rewrite P in H.
  inv_op. unfold answer in *. inv_op. apply sql_inl in H. cbn in H. inv_op. unfold revoked. cbn. rewrite lookup_alter_eq, Ht. cbn. eauto.
Qed.

(** Logging out is for good, for every token of the session that was or will be handed out. *)
(** C17: whoever a token verified as and who then logged out with success has ended that
    session: after any further history of requests, however they interleave, no token that
    names the session verifies and the refresh token it has is refused. *)
Theorem logout_is_final l0 l1 l2 now token user s1 s2 s3 :
  verify_token now token (auth_run l0 auth_init) = (inl user, s1) ->
  logout user (auth_run l1 s1) = (inl tt, s2) -> auth_run l2 s2 = s3 ->
  revoked (au_session user) s3 /\
  (forall now' token' c, decode now' token' = Some c -> cl_jti c = au_session user ->
     refused (verify_token now' token') s3) /\
  (forall now' t, a_sessions s3 !! au_session user = Some t -> refused (refresh_access_token now' (ss_token t)) s3).
Proof.
  intros Hv Hl <-.
  destruct (auth_run_good l0 _ wf_init) as [W0 _].
  destruct (good_verify now token _ W0) as [W1 K1]. rewrite Hv in W1, K1. cbn in W1, K1.
  destruct (auth_run_good l1 _ W1) as [W2 K2].
  destruct (good_logout user _ W2) as [W3 _]. rewrite Hl in W3. cbn in W3.
  destruct (auth_run_good l2 _ W3) as [W4 K4].
  assert (revoked (au_session user) (auth_run l2 s2)) as Hr.
  { apply (revoked_kept _ _ _ K4). apply (logout_revokes _ _ _ W2 Hl).
    destruct (verified_session _ _ _ _ _ Hv) as [t Ht]. destruct K1 as (_ & _ & K1), K2 as (_ & _ & K2).
    destruct (K1 _ _ Ht) as (t1 & Ht1 & _). destruct (K2 _ _ Ht1) as (t2 & Ht2 & _). by exists t2. }
  split; [done|]. split.
  - intros now' token' c D E. apply (verify_refused _ _ c); [by rewrite E|done].
  - intros now' t Ht. destruct Hr as (t' & Ht' & R). rewrite Ht in Ht'. injection Ht' as <-.
    by apply (refresh_refused _ (au_session user)).
Qed.

(** ** Tokens handed out *)

(** What the service has recorded about a token it returned *)
Definition live_token (now : Z) (r : LoginResponse) (s : AuthDb) : Prop :=
  exists c t u, lr_token r = encode c /\ cl_exp c = timestamp (now + day) /\
    a_sessions s !! cl_jti c = Some t /\ ss_revoked t = false /\ ss_expires t = now + day /\ ss_user t = us_id u /\
    a_users s !! us_id u = Some u /\ ui_id (lr_user r) = us_id u /\ ui_email (lr_user r) = us_email u /\
    role_from (ui_role (lr_user r)) = role_from (us_role u) /\ ui_tenant (lr_user r) = us_tenant u.

Lemma issue_inl now user_id email role s tok s' :
  parse_id user_id = Some user_id ->
  issue_tokens now user_id email role s = (inl tok, s') ->
  a_users s' = a_users s /\ exists c t, tok.1 = encode c /\ cl_exp c = timestamp (now + day) /\
    a_sessions s' !! cl_jti c = Some t /\ ss_revoked t = false /\ ss_expires t = now + day /\ ss_user t = user_id.
Proof.
  intros P H. unfold issue_tokens, create_session in H. inv_op. rewrite P in H. injection H as <-.
  match goal with H : sql _ _ = _ |- _ => apply sql_inl in H; cbn in H end. destruct (a_sessions s !! _); [done|]. inv_op. cbn. split; [done|].
  eexists (mkClaims _ _ _ _ _ _), _. cbn. rewrite lookup_insert_eq. split_and!; done.
Qed.

Lemma role_from_str r : role_from (role_str r) = r.
Proof. by destruct r. Qed.
Lemma in_users (P : User -> Prop) `{!forall u, Decision (P u)} s u :
  Wf s -> head (filter P (hvalues (a_users s))) = Some u -> P u /\ a_users s !! us_id u = Some u /\ parse_id (us_id u) = Some (us_id u).
Proof.
  intros W Hh. assert (u ∈ filter P (hvalues (a_users s))) as Hin.
  { destruct (filter _ _); [done|]. injection Hh as ->. left. }
  apply list_elem_of_filter in Hin as [HP Hin]. apply elem_of_hvalues in Hin as [id Hid].
  destruct (wf_user _ W _ _ Hid) as [<- Hp]. done.
Qed.
Lemma verify_password_inl password hash s b s' : verify_password password hash s = (inl b, s') -> s' = s.
Proof. unfold verify_password. destruct (String.prefix _ _); intros H; by inv_op. Qed.
Lemma platform_user_inl b u s p s' :
  parse_id (us_id u) = Some (us_id u) -> platform_user b u s = (inl p, s') ->
  s' = s /\ pu_id p = us_id u /\ pu_email p = us_email u /\ pu_role p = role_from (us_role u).
Proof. intros P H. unfold platform_user in H. inv_op. rewrite P in *. by simplify_eq/=. Qed.

Lemma authenticate_inl email password s p s' :
  Wf s -> authenticate email password s = (inl (Some p), s') ->
  exists u, a_users s' !! us_id u = Some u /\ parse_id (us_id u) = Some (us_id u) /\ us_active u = true /\
    pu_id p = us_id u /\ pu_email p = us_email u /\ pu_role p = role_from (us_role u).
Proof.
  intros W H. unfold authenticate in H. inv_op.
  destruct (head _) as [u|] eqn:E; [|done].
  apply (in_users _ (counted s)) in E as ([Ee Ea] & Eu & P); [|apply good_counted, W].
  inv_op. apply verify_password_inl in H as ->. destruct x; [|done]. inv_op.
  match goal with H : platform_user _ _ _ = _ |- _ => apply platform_user_inl in H as (-> & I & M & R); [|done] end.
  match goal with H : sql _ _ = _ |- _ => apply sql_inl in H; cbn in H end. inv_op.
  eexists (mkUser _ _ _ _ _ _ _ _ _ _ _). cbn in *. rewrite lookup_alter_eq, Eu. cbn. split_and!; done.
Qed.
Lemma login_live now email password s r s' :
  Wf s -> login now email password s = (inl r, s') -> live_token now r s'.
Proof.
  intros W H. unfold login in H. inv_op. destruct x as [p|]; [|done].
  apply authenticate_inl in H as (u & Hu & P & _ & I & M & R); [|done]. inv_op.
  match goal with H : issue_tokens _ _ _ _ _ = _ |- _ =>
    apply issue_inl in H as (EU & c & t & Et & Ex & Ht & Rv & Exp & Us); [|by rewrite I] end.
  unfold answer in *. inv_op. cbn in *. exists c, t, u. cbn. rewrite EU, I in *. simplify_eq.
  split_and!; try done. by rewrite R, role_from_str.
Qed.
Lemma insert_user_inl row s x s' :
  insert_user row s = (inl x, s') ->
  a_users s' !! us_id (row (db_now (a_statements s))) = Some (row (db_now (a_statements s))).
Proof.
  intros H%sql_inl. cbn in H. destruct (decide _); [done|]. inv_op. cbn. by rewrite lookup_insert_eq.
Qed.
Lemma register_live now config req s r s' :
  Wf s -> register now config req s = (inl r, s') -> live_token now r s'.
Proof.
  intros W H. unfold register in H. destruct (_ || _); [done|]. destruct (validate_password_policy _); [done|].
  inv_op. unfold hash_password in *. inv_op.
  match goal with H : insert_user _ _ = _ |- _ => apply insert_user_inl in H; rename H into Hu end.
  match goal with H : issue_tokens _ _ _ _ _ = _ |- _ =>
    apply issue_inl in H as (EU & c & t & Et & Ex & Ht & Rv & Exp & Us); [|apply parse_id_new] end.
  unfold answer in *. inv_op. cbn in *. rewrite <- EU in Hu.
  match type of Hu with _ = Some ?u => exists c, t, u end. split_and!; done.
Qed.
Lemma refreshable_inl token s t s' :
  Wf s -> refreshable token s = (inl t, s') ->
  s' = counted (counted s) /\ a_sessions s !! ss_id t = Some t /\ ss_revoked t = false.
Proof.
  intros W H. unfold refreshable in H. inv_op.
  match goal with H : session_by_token _ _ _ = Some _ |- _ => rename H into Hs end.
  unfold session_by_token in Hs. cbn in Hs.
  match type of Hs with _ = Some ?y => rename y into x0 end.
  assert (a_sessions s !! ss_id x0 = Some x0 /\ ss_revoked x0 = false) as [Hx R].
  { destruct (filter _ _) as [|y l] eqn:E in Hs; [done|]. injection Hs as ->.
    assert (x0 ∈ x0 :: l) as Hin by left. rewrite <- E in Hin.
    apply list_elem_of_filter in Hin as [[_ N] Hin]. apply elem_of_hvalues in Hin as [id Hid].
    destruct (wf_session _ W _ _ Hid) as [-> _]. split; [done|]. by apply negb_true_iff. }
  destruct (_ <$> _) as [[]|]; [|done..]. inv_op. done.
Qed.
Lemma refresh_live now token s r s' :
  (forall i, (a_statements s <= i)%nat -> fault i = false) ->
  Wf s -> refresh now token s = (inl r, s') -> live_token now r s'.
Proof.
  intros NF W H. unfold refresh, refresh_access_token, rotate in H. inv_op.
  match goal with H : refreshable _ _ = _ |- _ => apply refreshable_inl in H as (-> & Ht & R); [|done] end.
  cbn in *. rename x1 into t, x5 into u, x7 into p. destruct (wf_user _ W _ _ H2) as [Iu P]. rewrite <- Iu in H2, P.
  apply platform_user_inl in H3 as (-> & I & M & Ro); [|done].
  apply sql_inl in H5. cbn in H5. inv_op. cbn in *. unfold answer in *. inv_op.
  unfold outcome in H0. rewrite query_ok in H0; [|apply NF; cbn; lia]. injection H0 as <- <-.
  exists (mkClaims (us_id u) (us_email u) (us_role u) (timestamp (now + day)) (timestamp now) (ss_id t)).
  eexists (mkSession _ _ _ _ _ _), u. cbn. rewrite lookup_alter_eq, Ht, I, H2. cbn. split_and!; try done.
  by rewrite Ro, role_from_str.
Qed.

Lemma verify_live now now' r s :
  live_token now r s -> (forall i, (a_statements s <= i)%nat -> fault i = false) ->
  Wf s -> now' <= 1000 * timestamp (now + day) -> db_now (a_statements s) < now + day ->
  exists sid, (verify_token now' (lr_token r) s).1 = inl (mkAuthUser (ui_id (lr_user r)) (ui_email (lr_user r))
    (role_from (ui_role (lr_user r))) sid (ui_tenant (lr_user r))).
Proof.
  intros (c & t & u & Et & Ex & Ht & Rv & Exp & Us & Hu & -> & -> & -> & ->) NF W L D.
  destruct (wf_user _ W _ _ Hu) as [_ P]. exists (cl_jti c).
  unfold verify_token, validate_session, mbind, op_bind. rewrite Et, decode_encode by lia. cbn.
  rewrite query_ok by (apply NF; lia). cbn. rewrite Ht, Rv, Exp, bool_decide_eq_true_2 by done. cbn.
  rewrite Us, P. cbn. rewrite query_ok by (apply NF; cbn; lia). cbn. rewrite Hu.
  unfold platform_user, mbind, op_bind. rewrite P. cbn. rewrite query_ok by (apply NF; cbn; lia). cbn. by rewrite Hu.
Qed.
(** C18: after any history of requests, the token that a login, a registration or a refresh
    hands out is good: in the state the request left, before anything else happens to the
    session or the account, it verifies until it expires as exactly the user that the
    response shows, with id, address, role and tenant.  From the request on no statement
    fails for a fault of the database. *)
Theorem tokens_verify l now m r s' now' :
  let s := auth_run l auth_init in
  (exists email password, m = login now email password) \/ (exists config req, m = register now config req) \/
    (exists token, m = refresh now token) ->
  (forall i, (a_statements s <= i)%nat -> fault i = false) ->
  m s = (inl r, s') -> now' <= 1000 * timestamp (now + day) -> db_now (a_statements s') < now + day ->
  exists sid, (verify_token now' (lr_token r) s').1 = inl (mkAuthUser (ui_id (lr_user r)) (ui_email (lr_user r))
    (role_from (ui_role (lr_user r))) sid (ui_tenant (lr_user r))).
Proof.
  intros s Hm NF H L D. destruct (auth_run_good l _ wf_init) as [W _]. fold s in W.
  assert (good m) as Hg.
  { destruct Hm as [(? & ? & ->)|[(? & ? & ->)|(? & ->)]]; [apply good_login|apply good_register|apply good_refresh]. }
  destruct (Hg s W) as [W' (_ & M & _)]. rewrite H in W', M. cbn in W', M.
  apply (verify_live now); [|intros i Hi; apply NF; lia|done..].
  destruct Hm as [(? & ? & ->)|[(? & ? & ->)|(? & ->)]].
  - exact (login_live _ _ _ _ _ _ W H).
  - exact (register_live _ _ _ _ _ _ W H).
  - exact (refresh_live _ _ _ _ _ NF W H).
Qed.
End Spec.

(** ** A concrete server *)

Module AuthExamples.
#[local] Existing Instance enum_order.

(** Signing writes the claims' code in bits. *)
Definition claims_code (c : Claims) : positive :=
  countable.encode (cl_sub c, cl_email c, cl_role c, cl_exp c, cl_iat c, cl_jti c).
Definition claims_of (p : positive) : option Claims :=
  (fun '(sub, email, role, exp, iat, jti) => mkClaims sub email role exp iat jti) <$>
    countable.decode (A := string * string * string * Z * Z * string) p.

Definition env : AuthEnv := {|
  encode c := bits (claims_code c);
  encode_realtime c := EmptyString;
  decode now t := claims_of (unbits t) ≫= fun c => if bool_decide (now <= 1000 * cl_exp c) then Some c else None;
  argon2_hash p n := Some ("$argon2" +:+ p);
  argon2_verify p h := Some (bool_decide (h = "$argon2" +:+ p));
  bcrypt_verify p h := None;
  parse_id s := if String.prefix "id" s then Some s else None;
  new_id n := "id" +:+ bits (Pos.of_succ_nat n);
  new_uuid n := bits (Pos.of_succ_nat n);
  fault n := false;
  db_now n := Z.of_nat n;
  to_lowercase := to_ascii_lowercase;
  env_var v := None
|}.
#[local] Existing Instance env.
#[local] Instance env_laws : AuthLaws env.
Proof.
  split; cbn.
  - intros now c L. rewrite unbits_bits. unfold claims_of, claims_code. rewrite countable.decode_encode. cbn.
    rewrite bool_decide_eq_true_2; [by destruct c|done].
  - intros n. by destruct (bits (Pos.of_succ_nat n)).
  - intros s id. destruct (String.prefix "id" s) eqn:E; [|done]. intros [= <-]. by rewrite E.
  - intros m n E%(f_equal unbits). rewrite !unbits_bits in E. lia.
Qed.

(** Ann registers; what she gets *)
Definition ann : RegisterRequest := mkRegister "Ann@x.io" "secret12" None None.
Definition ann_joins : AuthStep := DoRegister 0 registration_disabled ann.
Definition joined : AuthDb := auth_step ann_joins auth_init.
Definition response : LoginResponse :=
  match (register 0 registration_disabled ann auth_init).1 with
  | inl r => r | inr _ => mkLogin "" None (mkInfo "" "" "" "" "" None)
  end.
Definition ann_user : AuthUser :=
  match (verify_token 5 (lr_token response) joined).1 with inl u => u | inr _ => mkAuthUser "" "" Viewer "" None end.
Definition logged_out : AuthDb := (logout ann_user (verify_token 5 (lr_token response) joined).2).2.

Lemma logout_is_final_witness :
  (verify_token 5 (lr_token response) joined).1 = inl ann_user /\
  revoked (au_session ann_user) (auth_run [DoLogin 9 "ann@x.io" "secret12"] logged_out) /\
  refused (verify_token 9 (lr_token response)) (auth_run [DoLogin 9 "ann@x.io" "secret12"] logged_out).
Proof.
  assert (verify_token 5 (lr_token response) (auth_run [ann_joins] auth_init) =
            (inl ann_user, (verify_token 5 (lr_token response) joined).2)) as Hv by (vm_compute; reflexivity).
  assert (logout ann_user (auth_run [] (verify_token 5 (lr_token response) joined).2) = (inl tt, logged_out)) as Hl
    by (vm_compute; reflexivity).
  destruct (logout_is_final [ann_joins] [] [DoLogin 9 "ann@x.io" "secret12"] 5 (lr_token response) ann_user _ logged_out _
              Hv Hl eq_refl) as (R & V & _).
  split; [vm_compute; reflexivity|]. split; [exact R|].
  destruct (decode 9 (lr_token response)) as [c|] eqn:D; [|vm_compute in D; discriminate].
  apply (V 9 _ c D). vm_compute in D. injection D as <-. vm_compute. reflexivity.
Defined.

Lemma tokens_verify_witness :
  exists sid, (verify_token 5 (lr_token response) joined).1 = inl (mkAuthUser (ui_id (lr_user response)) "ann@x.io" Viewer sid None).
Proof.
  apply (tokens_verify [] 0 (register 0 registration_disabled ann) response joined 5).
  - right. left. by exists registration_disabled, ann.
  - done.
  - vm_compute. reflexivity.
  - vm_compute. discriminate.
  - vm_compute. reflexivity.
Defined.

Definition is_inl {A B} (r : A + B) : bool := match r with inl _ => true | inr _ => false end.
Definition refresh_of (r : LoginResponse) : string := default EmptyString (lr_refresh r).

(** A user deactivated can no longer log in, but keeps access: tokens verify and refresh. *)
Definition deactivated : AuthDb :=
  match (get_user (au_id ann_user) joined).1 with
  | inl (Some p) => (update_user 7 (mkPlatform (pu_id p) (pu_email p) (pu_hash p) (pu_first p) (pu_last p) (pu_role p) false
                                 (pu_last_login p) (pu_created p) (pu_updated p)) joined).2
  | _ => joined
  end.
Example deactivated_keeps_access :
  (us_active <$> a_users deactivated !! au_id ann_user) = Some false /\
  (login 9 "ann@x.io" "secret12" deactivated).1 = inr 401 /\
  is_inl (verify_token 9 (lr_token response) deactivated).1 = true /\
  is_inl (refresh 9 (refresh_of response) deactivated).1 = true.
Proof. vm_compute. done. Qed.

(** The address is stored in lower case and compared as typed. *)
Example capitals_lock_out :
  (login 9 "Ann@x.io" "secret12" joined).1 = inr 401 /\ is_inl (login 9 "ann@x.io" "secret12" joined).1 = true.
Proof. vm_compute. done. Qed.

(** Two refreshes with one token both succeed when their halves interleave. *)
Example refresh_token_reused :
  match refreshable (refresh_of response) joined with
  | (inl session, s1) =>
      is_inl (refresh 9 (refresh_of response) s1).1 &&
      is_inl (rotate 9 session (refresh 9 (refresh_of response) s1).2).1
  | _ => false
  end = true.
Proof. vm_compute. done. Qed.

(** A user whose id the database generated cannot log in. *)
Example generated_id_locked_out :
  (login 9 "bob@x.io" "secret12"
     (mkAuth {["0b5c" := mkUser "0b5c" "bob@x.io" "$argon2secret12" "" "" "viewer" true None None 0 0]} ∅ 0 0)).1 = inr 500.
Proof. vm_compute. done. Qed.
End AuthExamples.
