(* ===== verification/DataApi.v ===== *)
(** * The data interface of the server ([atomo/src/client.rs] as its callers see it)

    GraphQL resolvers and the worker API use the data client through a few methods, always
    without includes.  [DataApi] names them; the client of [DataClient] is an instance.  A
    caller's task-locals (tenant and origin) are the [Scope] of a call. *)

From S2P Require Import Prelude Json StateM SchemaTypes Query SqlBuilder DebugText History DataClient.
From S2P Require Cache.

Record Scope : Type := mkScope { so_tenant : option string; so_origin : option string }.
Definition no_scope : Scope := mkScope None None.

Class DataApi (W : Type) : Type := {
  api_schema : Schema;
  api_find_many : Scope -> string -> list WhereClause -> list (string * OrderDirection) ->
    option nat -> option nat -> Comp W ClientError (list Doc);
  api_find_unique : Scope -> string -> list WhereClause -> Comp W ClientError (option Doc);
  api_count : Scope -> string -> list WhereClause -> Comp W ClientError Z;
  api_find_deleted : Scope -> string -> list WhereClause -> list (string * OrderDirection) ->
    option nat -> option nat -> Comp W ClientError (list Doc);
  api_count_deleted : Scope -> string -> list WhereClause -> Comp W ClientError Z;
  api_create : Scope -> option string -> string -> Doc -> option string -> Comp W ClientError Doc;
  api_update : Scope -> option string -> string -> list WhereClause -> Doc -> option string ->
    Comp W ClientError (list Doc);
  api_delete : Scope -> option string -> string -> list WhereClause -> option string -> Comp W ClientError nat;
  api_restore : Scope -> string -> list WhereClause -> option string -> Comp W ClientError nat;
  api_hard_delete : Scope -> string -> list WhereClause -> option string -> Comp W ClientError nat
}.

(** [AtomoClient::enforce_access] *)
Definition api_enforce {W} `{!DataApi W} (name action : string) (role : option string) : option ClientError :=
  enforce_access api_schema name action role.

(** ** The client *)

(** What a client is given besides its state *)
Record ClientEnv {D H Cell : Type} : Type := mkClientEnv {
  ce_schema : Schema;
  ce_config : HistoryConfig;
  ce_rls : bool;
  ce_getters : Getters Cell;
  ce_exec : option string -> string * list Arg -> D -> (list (list (Column Cell)) * D) + string;
  ce_fault : nat -> TxStep -> option string;
  ce_value_len : Value -> option Z;
  ce_clock : nat -> Z;
  ce_event_time : nat -> string;
  ce_event_uuid : nat -> string;
  ce_db_now : nat -> Z;
  ce_row_uuid : string -> Z;
  ce_debug : Debug Value
}.
#[global] Arguments ClientEnv : clear implicits.

Section Instance.
Context {ho : HashOrder} {D H Cell : Type} {hr : HookRunner H} (ce : ClientEnv D H Cell).
#[local] Instance env_debug : Debug Value := ce_debug ce.

#[local] Abbreviation reading f t := (f (ce_schema ce) (ce_rls ce) (ce_getters ce) (ce_exec ce) (ce_value_len ce)
  (ce_clock ce) t).
#[local] Abbreviation writing f so := (f (ce_schema ce) (ce_config ce) (ce_rls ce) (ce_getters ce) (ce_exec ce)
  (ce_fault ce) (ce_event_time ce) (ce_event_uuid ce) (ce_db_now ce) (ce_row_uuid ce) (so_tenant so) (so_origin so)).

Definition client_api : DataApi (Client D H) := {|
  api_schema := ce_schema ce;
  api_find_many so name cs ob l o := reading find_many_plain (so_tenant so) name cs ob l o;
  api_find_unique so name cs := reading find_unique_plain (so_tenant so) name cs;
  api_count so name cs := reading count (so_tenant so) name cs;
  api_find_deleted so name cs ob l o c :=
    (find_deleted (ce_schema ce) (ce_rls ce) (ce_getters ce) (ce_exec ce) (so_tenant so) name cs ob l o c, c);
  api_count_deleted so name cs c :=
    (count_deleted (ce_schema ce) (ce_rls ce) (ce_getters ce) (ce_exec ce) (so_tenant so) name cs c, c);
  api_create so role name data actor := writing create_checked so role name data actor;
  api_update so role name cs data actor := writing update_many_checked so role name cs data actor;
  api_delete so role name cs actor := writing delete_many_checked so role name cs actor;
  api_restore so name cs actor := writing restore_many so name cs actor;
  api_hard_delete so name cs actor := writing hard_delete_many so name cs actor
|}.
End Instance.

(** ** Access rules *)

(** The checked mutations refuse what the model's access rules do not permit, and change
    nothing then. *)
Record Enforcing {W : Type} (api : DataApi W) : Prop := {
  ef_create so role name data actor w e : api_enforce name "create" role = Some e ->
    api_create so role name data actor w = (inr e, w);
  ef_update so role name cs data actor w e : api_enforce name "update" role = Some e ->
    exists e', api_update so role name cs data actor w = (inr e', w);
  ef_delete so role name cs actor w e : api_enforce name "delete" role = Some e ->
    exists e', api_delete so role name cs actor w = (inr e', w)
}.

Lemma client_enforcing {ho : HashOrder} {D H Cell : Type} {hr : HookRunner H} (ce : ClientEnv D H Cell) :
  Enforcing (client_api ce).
Proof.
  split; unfold api_enforce; cbn [api_schema api_create api_update api_delete client_api]; intros * He;
    unfold create_checked, update_many_checked, delete_many_checked; rewrite He; [done|..];
    destruct (validate_where_clauses cs); by eexists.
Qed.
