(* ===== verification/TenantSql.v ===== *)
(** * What SQL says of a tenant

    A filter that names a tenant is read off the tokens of a statement, by a reader that
    knows nothing of the generator: the conditions that [WHERE] joins by [AND].  [SqlTenancy]
    states what PostgreSQL documents of statements so read; the statements of [SqlBuilder]
    are then shown to read so whenever a clause names the tenant. *)

From stdpp Require Import pretty.
From S2P Require Import Prelude Json SchemaTypes Query SqlLex SqlBuilder SqlSpec DebugText History DataClient.

Definition TENANT : string := "tenant_id".
Definition tenant_clause (t : string) : WhereClause := mkWhere TENANT Equals (VString t).

Definition owned (t : string) (r : Doc) : Prop := r !! TENANT ≫= value_as_str = Some t.
#[global] Instance owned_dec t r : Decision (owned t r).
Proof. unfold owned. apply _. Defined.

(** Data that writes the tenant's column under some name *)
Definition sets_tenant (data : Doc) : Prop := exists k, is_Some (data !! k) /\ to_snake_case k = TENANT.

Lemma scoped_clause cs t : tenant_clause t ∈ scope_by_tenant cs (Some t).
Proof. apply elem_of_app. right. left. Qed.

#[local] Open Scope string_scope.

(** ** Reading conditions *)

(** What ends a list of conditions *)
Definition terminators : list token := TWord <$> ["ORDER"; "LIMIT"; "OFFSET"; "RETURNING"].
(** The conditions joined by [AND] outside parentheses; [None]: they are not so joined. *)
Fixpoint conjuncts (depth : nat) (acc : list token) (ts : list token) : option (list (list token)) :=
  match ts with
  | [] => match depth with O => Some [acc] | S _ => None end
  | t :: rest =>
      if decide (t = sym "(") then conjuncts (S depth) (acc ++ [t])%list rest
      else if decide (t = sym ")") then match depth with O => None | S d => conjuncts d (acc ++ [t])%list rest end
      else match depth with
           | S _ => conjuncts depth (acc ++ [t])%list rest
           | O => if decide (t = TWord "AND") then cons acc <$> conjuncts 0 [] rest
                  else if decide (t = TWord "OR") then None
                  else if decide (t ∈ terminators) then Some [acc]
                  else conjuncts 0 (acc ++ [t])%list rest
           end
  end.
Fixpoint after_where (ts : list token) : option (list token) :=
  match ts with
  | [] => None
  | t :: rest => if decide (t = TWord "WHERE") then Some rest else after_where rest
  end.

(** The tokens of the statements in question: no [UNION], [JOIN], [CASE] or [BETWEEN] *)
Definition known_words : list string := (keywords ++ ["COUNT"; "as"; "count"])%list.
Definition known (t : token) : Prop := match t with TWord w => w ∈ known_words | _ => True end.
#[global] Instance known_dec t : Decision (known t).
Proof. destruct t; apply _. Defined.

(** The statement keeps to rows of the tenant that the [k]-th argument names. *)
Definition tenant_condition (k : nat) : list token := [TIdent TENANT; sym ":"; sym ":"; TWord "text"; sym "="; bound (S k)].
Definition names_tenant (t : string) (ts : list token) (args : list Arg) : Prop :=
  Forall known ts /\
  exists rest conds k, after_where ts = Some rest /\ conjuncts 0 [] rest = Some conds /\
    tenant_condition k ∈ conds /\ args !! k = Some (AText t).

(** ** What PostgreSQL documents *)

(** What a statement writes into a column *)
Inductive Written : list token -> Prop :=
  | written_null : Written [TWord "NULL"]
  | written_now : Written [TWord "NOW"; sym "("; sym ")"]
  | written_value k : Written [bound k]
  | written_time k : Written [bound k; sym ":"; sym ":"; TWord "timestamptz"].
Definition assignments (cols : list string) (values : list (list token)) : list token :=
  intersperse [sym ","] (zip_with (fun c v => TIdent c :: sym "=" :: v) cols values).
Definition insert_tokens (table : string) (cols : list string) (values : list (list token)) : list token :=
  ([TWord "INSERT"; TWord "INTO"; TIdent table; sym "("] ++ intersperse [sym ","] ((fun c => [TIdent c]) <$> cols) ++
   [sym ")"; TWord "VALUES"; sym "("] ++ intersperse [sym ","] values ++ [sym ")"; TWord "RETURNING"; sym "*"])%list.

Section Sql.
Context {D Cell : Type}.
Variable getters : Getters Cell.
Variable exec : option string -> string * list Arg -> D -> (list (list (Column Cell)) * D) + string.
Variable rows : D -> string -> list Doc.
Variable t : string.

Definition others (d : D) (table : string) : list Doc := filter (fun r => ~ owned t r) (rows d table).
Definition others_same (d d' : D) : Prop := forall table, others d' table ≡ₚ others d table.
Definition others_kept (d d' : D) : Prop := forall table, others d table ⊆+ others d' table.

(** Of a statement that succeeds: it reads and changes only the rows its conditions hold of;
    an insert adds one row with the values written; an update writes the columns it names. *)
Record SqlTenancy : Prop := {
  sq_select b sql args ts table rest d out d' : lexes sql ts ->
    ts = ([TWord "SELECT"; sym "*"; TWord "FROM"; TIdent table] ++ rest)%list -> names_tenant t ts args ->
    exec b (sql, args) d = inl (out, d') -> Forall (owned t) (row_to_map getters <$> out);
  sq_count b sql args ts table rest d row out d' : lexes sql ts ->
    ts = ([TWord "SELECT"; TWord "COUNT"; sym "("; sym "*"; sym ")"; TWord "as"; TWord "count"; TWord "FROM"; TIdent table] ++ rest)%list ->
    names_tenant t ts args -> exec b (sql, args) d = inl (row :: out, d') ->
    exists hits, hits ⊆+ rows d table /\ Forall (owned t) hits /\ count_of_row getters row = Z.of_nat (length hits);
  sq_insert b sql args table cols values d out d' : lexes sql (insert_tokens table cols values) ->
    Forall Written values -> exec b (sql, args) d = inl (out, d') ->
    others_kept d d' /\
    forall i k, cols !! i = Some TENANT -> values !! i = Some [bound (S k)] -> args !! k = Some (AText t) ->
      others_same d d' /\ Forall (owned t) (row_to_map getters <$> out);
  sq_update b sql args ts table cols values rest d out d' : lexes sql ts ->
    ts = ([TWord "UPDATE"; TIdent table; TWord "SET"] ++ assignments cols values ++ TWord "WHERE" :: rest)%list ->
    length cols = length values -> Forall Written values -> names_tenant t ts args ->
    exec b (sql, args) d = inl (out, d') ->
    others_kept d d' /\
    (TENANT ∉ cols -> others_same d d' /\
       (forall ts0, ts = (ts0 ++ [TWord "RETURNING"; sym "*"])%list -> Forall (owned t) (row_to_map getters <$> out)));
  sq_delete b sql args ts table rest d out d' : lexes sql ts ->
    ts = ([TWord "DELETE"; TWord "FROM"; TIdent table] ++ rest)%list -> names_tenant t ts args ->
    exec b (sql, args) d = inl (out, d') -> others_same d d'
}.
End Sql.

(** ** The filters of the generator *)

(** Tokens that stay in one condition *)
Definition solid (p : list token) : Prop := forall acc rest, conjuncts 0 acc (p ++ rest)%list = conjuncts 0 (acc ++ p)%list rest.
Lemma solid_nil : solid [].
Proof. intros acc rest. by rewrite app_nil_r. Qed.
Lemma solid_tokens_app p q : solid p -> solid q -> solid (p ++ q)%list.
Proof. intros Hp Hq acc rest. by rewrite <-app_assoc, Hp, Hq, app_assoc. Qed.
Definition breaks (t : token) : bool :=
  bool_decide (t ∈ [sym "("; sym ")"; TWord "AND"; TWord "OR"]) || bool_decide (t ∈ terminators).
Lemma solid_plain p : forallb (fun t => negb (breaks t)) p = true -> solid p.
Proof.
  induction p as [|t p IH]; intros H; [apply solid_nil|]. cbn [forallb] in H. apply andb_prop in H as [Ht Hp].
  unfold breaks in Ht. apply negb_true_iff, orb_false_iff in Ht as [H1%bool_decide_eq_false H2%bool_decide_eq_false].
  intros acc rest. cbn [app conjuncts]. rewrite !decide_False by set_solver. rewrite IH by done. by rewrite <-app_assoc.
Qed.
Definition paren (t : token) : Prop := t = sym "(" \/ t = sym ")".
Lemma inside_parens p acc rest d : Forall (fun t => ~ paren t) p ->
  conjuncts (S d) acc (p ++ rest)%list = conjuncts (S d) (acc ++ p)%list rest.
Proof.
  intros Hp. revert acc. induction Hp as [|t p Ht Hp IH]; intros acc; [by rewrite app_nil_r|].
  unfold paren in Ht. cbn [app conjuncts]. rewrite !decide_False by tauto. by rewrite IH, <-app_assoc.
Qed.
Lemma solid_group p : Forall (fun t => ~ paren t) p -> solid ([sym "("] ++ p ++ [sym ")"])%list.
Proof.
  intros Hp acc rest. rewrite <-!app_assoc. cbn [app]. cbn [conjuncts]. rewrite decide_True by done.
  rewrite inside_parens by done. cbn [conjuncts]. rewrite decide_False, decide_True by done. by rewrite <-!app_assoc.
Qed.

Lemma no_parens_intersperse sep l : Forall (fun t => ~ paren t) sep -> Forall (Forall (fun t => ~ paren t)) l ->
  Forall (fun t => ~ paren t) (intersperse sep l).
Proof.
  intros Hs. induction 1 as [|p l Hp Hl IH]; [constructor|]. cbn [intersperse]. destruct l; [done|].
  apply Forall_app. split; [done|]. apply Forall_app. by split.
Qed.
Ltac no_parens := repeat constructor; unfold paren; naive_solver.
Lemma members_no_parens col op idx vs : Forall (fun t => ~ paren t) op -> Forall (Forall (fun t => ~ paren t)) (member_tokens col op idx vs).
Proof.
  intros Hop. revert idx. induction vs as [|v vs IH]; intros idx; [constructor|]. cbn [member_tokens].
  destruct (is_null v); (constructor; [|apply IH]); unfold cast_tokens.
  - apply Forall_app. split; [no_parens|]. apply Forall_app. split; [done|no_parens].
  - apply Forall_app. split; [no_parens|]. apply Forall_app. split; [destruct (is_string v); no_parens|].
    apply Forall_app. split; [done|no_parens].
Qed.
Lemma solid_clause c idx : solid (clause_tokens c idx).
Proof.
  unfold clause_tokens, cast_tokens.
  destruct (wc_operator c); try (destruct (is_string (wc_value c)); by apply solid_plain); try (by apply solid_plain).
  - destruct (as_array (wc_value c)) as [[|v vs]|]; try (by apply solid_plain). apply solid_group, no_parens_intersperse; [no_parens|].
    apply members_no_parens. no_parens.
  - destruct (as_array (wc_value c)) as [[|v vs]|]; try (by apply solid_plain). apply solid_group, no_parens_intersperse; [no_parens|].
    apply members_no_parens. no_parens.
Qed.

Definition terminated (ts : list token) : Prop := match ts with [] => True | t :: _ => t ∈ terminators end.
Lemma conjuncts_end acc tail : terminated tail -> conjuncts 0 acc tail = Some [acc].
Proof.
  destruct tail as [|t tail]; [done|]. cbn [terminated conjuncts]. intros Ht.
  assert (Hn : t <> sym "(" /\ t <> sym ")" /\ t <> TWord "AND" /\ t <> TWord "OR").
  { unfold terminators in Ht. cbn in Ht. repeat (apply elem_of_cons in Ht as [->|Ht]; [done|]). by apply not_elem_of_nil in Ht. }
  destruct Hn as (? & ? & ? & ?). rewrite !decide_False by done. by rewrite decide_True.
Qed.
Lemma conjuncts_read c cs idx tail : terminated tail ->
  conjuncts 0 [] (intersperse [TWord "AND"] (where_tokens (c :: cs) idx) ++ tail)%list = Some (where_tokens (c :: cs) idx).
Proof.
  intros Ht. revert c idx. induction cs as [|c' cs IH]; intros c idx.
  - cbn [where_tokens intersperse]. rewrite solid_clause, app_nil_l. by apply conjuncts_end.
  - change (where_tokens (c :: c' :: cs) idx) with (clause_tokens c idx :: where_tokens (c' :: cs) (idx + length (clause_params c))).
    change (intersperse [TWord "AND"] (clause_tokens c idx :: where_tokens (c' :: cs) (idx + length (clause_params c))))
      with (clause_tokens c idx ++ [TWord "AND"] ++ intersperse [TWord "AND"] (where_tokens (c' :: cs) (idx + length (clause_params c))))%list.
    rewrite <-!app_assoc, solid_clause, app_nil_l. cbn [app conjuncts]. rewrite !decide_False by done. rewrite decide_True by done.
    by rewrite IH.
Qed.
(** A clause that names the tenant is one of the conditions, its value bound where it says. *)
Lemma tenant_where t cs idx : tenant_clause t ∈ cs ->
  exists j, tenant_condition (idx + j) ∈ where_tokens cs (S idx) /\ where_params cs !! j = Some (VString t).
Proof.
  revert idx. induction cs as [|c cs IH]; intros idx; [by intros ?%elem_of_nil|]. intros [<-|Hin]%elem_of_cons.
  - exists 0%nat. rewrite Nat.add_0_r. split; [left|done].
  - destruct (IH (idx + length (clause_params c))%nat Hin) as (j & Hj & Hp). exists (length (clause_params c) + j)%nat. cbn [where_tokens]. split.
    + right. by rewrite Nat.add_assoc.
    + unfold where_params. rewrite bind_cons, lookup_app_r by lia. by replace (length (clause_params c) + j - length (clause_params c))%nat with j by lia.
Qed.

Lemma lexes_unique s ts ts' : lexes s ts -> lexes s ts' -> ts = ts'.
Proof. unfold lexes. congruence. Qed.
Lemma fixed_known ts : Forall fixed ts -> Forall known ts.
Proof.
  intros Hf. eapply Forall_impl; [exact Hf|]. intros [] Ht; try done. cbn in *. change (s ∈ (keywords ++ ["COUNT"; "as"; "count"])%list). apply elem_of_app. by left.
Qed.
Lemma fragment_known s ids ps ts : fragment s ids ps -> lexes s ts -> Forall known ts.
Proof. intros (ts' & Hl & _ & _ & Hf) Hs. rewrite (lexes_unique _ _ _ Hs Hl). by apply fixed_known. Qed.

(** A generated filter behind the head of a statement *)
Lemma where_names t sql head tail cs off ps args :
  lexes sql head -> TWord "WHERE" ∉ head -> Forall known head -> terminated tail -> Forall known tail ->
  tenant_clause t ∈ cs -> length ps = off -> args = build_args (ps ++ where_params cs)%list ->
  exists w rest, (build_where cs off).1 = w /\ is_empty w = false /\
    lexes (sql +:+ " WHERE " +:+ w) (head ++ TWord "WHERE" :: rest)%list /\
    names_tenant t (head ++ TWord "WHERE" :: rest ++ tail)%list args.
Proof.
  intros Hl Hw Hk Ht Hkt Hin Hoff ->. destruct (where_reads_as cs off) as [Hlex _]. destruct (build_where_fragment cs off) as (Hf & _ & He).
  destruct (build_where cs off) as [w ps']. cbn [fst snd] in *. exists w, (intersperse [TWord "AND"] (where_tokens cs (off + 1))).
  split; [done|]. split; [|split].
  - destruct (is_empty w); [|done]. destruct cs; [by apply not_elem_of_nil in Hin|]. discriminate (proj1 He eq_refl).
  - apply lexes_app; [done| |done]. by apply (lexes_after " WHERE " w [TWord "WHERE"]).
  - destruct (tenant_where t cs off Hin) as (j & Hj & Hp). split.
    { apply Forall_app. split; [done|]. constructor; [by (apply (bool_decide_unpack (known (TWord "WHERE"))); vm_compute)|]. apply Forall_app. split; [|done]. by eapply fragment_known. }
    exists (intersperse [TWord "AND"] (where_tokens cs (off + 1)) ++ tail)%list, (where_tokens cs (off + 1)), (off + j)%nat.
    split_and!.
    + clear -Hw. induction head as [|x head IH]; cbn [app after_where]; [by rewrite decide_True|].
      rewrite decide_False by set_solver. apply IH. set_solver.
    + destruct cs as [|c cs]; [by apply not_elem_of_nil in Hin|]. by apply conjuncts_read.
    + by rewrite Nat.add_1_r.
    + unfold build_args. rewrite list_lookup_fmap, lookup_app_r by lia.
      replace (off + j - length ps)%nat with j by lia. by rewrite Hp.
Qed.

(** ** The generated statements *)

(** A text that may end a statement *)
Definition tail_reads (s : string) : Prop := starts_delim s /\ exists ts, lexes s ts /\ terminated ts /\ Forall known ts.
Lemma tail_nil : tail_reads "".
Proof. split; [done|]. by exists []. Qed.
Lemma tail_app s s' : tail_reads s -> tail_reads s' -> tail_reads (s +:+ s').
Proof.
  intros [Hd (ts & Hl & Ht & Hk)] [Hd' (ts' & Hl' & Ht' & Hk')]. split.
  - destruct s; [done|]. exact Hd.
  - exists (ts ++ ts')%list. split; [by apply lexes_app|]. split; [by destruct ts|by apply Forall_app].
Qed.
Lemma tail_keyword kw w s ids ps ts : ends_delim kw (TWord w :: ts) -> starts_delim kw -> kw <> "" -> TWord w ∈ terminators ->
  Forall known (TWord w :: ts) -> fragment s ids ps -> tail_reads (kw +:+ s).
Proof.
  intros He Hd Hne Ht Hk Hf. split; [by apply starts_delim_app|]. destruct Hf as (ts' & Hl & Hf).
  exists ((TWord w :: ts) ++ ts')%list. split; [by apply lexes_after|]. split; [done|]. apply Forall_app. split; [done|].
  eapply fragment_known; [|exact Hl]. by exists ts'.
Qed.
Ltac closed_known := apply (bool_decide_unpack _); vm_compute; exact I.

Definition order_part (m : Model) (ob : list (string * OrderDirection)) : string :=
  match order_clauses m ob with [] => "" | clauses => " ORDER BY " +:+ join ", " clauses end.
Definition number_part (kw : string) (n : option nat) : string := match n with Some n => kw +:+ pretty n | None => "" end.
Lemma order_part_reads m ob : tail_reads (order_part m ob).
Proof.
  unfold order_part. pose proof (order_fragment m ob) as Hf. destruct (order_clauses m ob); [apply tail_nil|].
  eapply (tail_keyword " ORDER BY " "ORDER" _ _ _ [TWord "BY"]); [done..|closed_known|closed_known|exact Hf].
Qed.
Lemma limit_part_reads n : tail_reads (number_part " LIMIT " n).
Proof.
  destruct n; [|apply tail_nil].
  eapply (tail_keyword " LIMIT " "LIMIT" _ _ _ []); [done..|closed_known|closed_known|apply frag_number].
Qed.
Lemma offset_part_reads n : tail_reads (number_part " OFFSET " n).
Proof.
  destruct n; [|apply tail_nil].
  eapply (tail_keyword " OFFSET " "OFFSET" _ _ _ []); [done..|closed_known|closed_known|apply frag_number].
Qed.

(** A statement from its head, its filter and its tail *)
Lemma statement_names t sql head tail cs off ps :
  lexes sql head -> TWord "WHERE" ∉ head -> Forall known head -> tail_reads tail -> tenant_clause t ∈ cs -> length ps = off ->
  exists rest, lexes (push_where sql (build_where cs off).1 +:+ tail) (head ++ TWord "WHERE" :: rest)%list /\
    names_tenant t (head ++ TWord "WHERE" :: rest)%list (build_args (ps ++ where_params cs)%list) /\
    forall ts, lexes tail ts -> exists r, rest = (r ++ ts)%list.
Proof.
  intros Hl Hw Hk [Hd (ts & Hts & Ht & Hkt)] Hin Hoff.
  destruct (where_names t sql head ts cs off ps _ Hl Hw Hk Ht Hkt Hin Hoff eq_refl) as (w & rest & -> & He & Hlw & Hn).
  exists (rest ++ ts)%list. unfold push_where. rewrite He. split; [|split].
  - pose proof (lexes_app _ _ _ _ Hlw Hts Hd) as H. by rewrite <-app_assoc in H.
  - exact Hn.
  - intros ts' Hts'. rewrite (lexes_unique _ _ _ Hts' Hts). by exists rest.
Qed.

Lemma select_text m cs ob l o :
  select m cs ob l o =
  (push_where ("SELECT * FROM " +:+ quote_ident (table_name m)) (build_where cs 0).1 +:+
     (order_part m ob +:+ number_part " LIMIT " l +:+ number_part " OFFSET " o), where_params cs).
Proof.
  unfold select. rewrite <-(build_where_params cs 0). destruct (build_where cs 0) as [w ps]. cbn [fst snd]. f_equal.
  unfold order_part, number_part. destruct (order_clauses m ob), l, o; by rewrite ?str_app_assoc, ?str_app_nil, ?str_app_empty_r.
Qed.
Lemma select_named t m cs ob l o : tenant_clause t ∈ cs ->
  exists rest, let ts := ([TWord "SELECT"; sym "*"; TWord "FROM"; TIdent (table_name m)] ++ rest)%list in
    lexes (select m cs ob l o).1 ts /\ names_tenant t ts (build_args (select m cs ob l o).2).
Proof.
  intros Hin. rewrite select_text. cbn [fst snd].
  destruct (statement_names t ("SELECT * FROM " +:+ quote_ident (table_name m)) [TWord "SELECT"; sym "*"; TWord "FROM"; TIdent (table_name m)]
    (order_part m ob +:+ number_part " LIMIT " l +:+ number_part " OFFSET " o) cs 0 []) as (rest & H1 & H2 & _);
    [|set_solver|repeat constructor; closed_known| |done|done|by eexists].
  - by apply (lexes_after _ _ [TWord "SELECT"; sym "*"; TWord "FROM"]), lexes_ident.
  - apply tail_app; [apply order_part_reads|]. apply tail_app; [apply limit_part_reads|apply offset_part_reads].
Qed.
Lemma count_named t m cs : tenant_clause t ∈ cs ->
  exists rest, let ts := ([TWord "SELECT"; TWord "COUNT"; sym "("; sym "*"; sym ")"; TWord "as"; TWord "count"; TWord "FROM"; TIdent (table_name m)] ++ rest)%list in
    lexes (count_statement m cs).1 ts /\ names_tenant t ts (build_args (count_statement m cs).2).
Proof.
  intros Hin.
  destruct (statement_names t ("SELECT COUNT(*) as count FROM " +:+ quote_ident (table_name m))
    [TWord "SELECT"; TWord "COUNT"; sym "("; sym "*"; sym ")"; TWord "as"; TWord "count"; TWord "FROM"; TIdent (table_name m)]
    "" cs 0 []) as (rest & H1 & H2 & _); [|set_solver|repeat constructor; closed_known|apply tail_nil|done|done|].
  - by apply (lexes_after _ _ [TWord "SELECT"; TWord "COUNT"; sym "("; sym "*"; sym ")"; TWord "as"; TWord "count"; TWord "FROM"]), lexes_ident.
  - exists (TWord "WHERE" :: rest). unfold count_statement. rewrite str_app_empty_r in H1. rewrite <-(build_where_params cs 0) in H2.
    destruct (build_where cs 0). done.
Qed.
Lemma delete_named t m cs : tenant_clause t ∈ cs ->
  exists rest, let ts := ([TWord "DELETE"; TWord "FROM"; TIdent (table_name m)] ++ rest)%list in
    lexes (delete m cs).1 ts /\ names_tenant t ts (build_args (delete m cs).2).
Proof.
  intros Hin.
  destruct (statement_names t ("DELETE FROM " +:+ quote_ident (table_name m)) [TWord "DELETE"; TWord "FROM"; TIdent (table_name m)]
    returning_id cs 0 []) as (rest & H1 & H2 & _); [|set_solver|repeat constructor; closed_known| |done|done|].
  - by apply (lexes_after _ _ [TWord "DELETE"; TWord "FROM"]), lexes_ident.
  - split; [done|]. exists [TWord "RETURNING"; TIdent "id"]. split; [done|]. split; [closed_known|repeat constructor; closed_known].
  - exists (TWord "WHERE" :: rest). unfold delete. rewrite <-(build_where_params cs 0) in H2. destruct (build_where cs 0). done.
Qed.

(** *** What is written *)

Definition value_tokens (m : Model) (p : string * Value) (idx : nat) : list token :=
  if is_null p.2 then [TWord "NULL"]
  else bound idx :: (if is_datetime m p.1 then [sym ":"; sym ":"; TWord "timestamptz"] else []).
Fixpoint values_tokens (m : Model) (entries : list (string * Value)) (idx : nat) : list (list token) :=
  match entries with
  | [] => []
  | p :: rest => value_tokens m p idx :: values_tokens m rest (if is_null p.2 then idx else S idx)
  end.
Lemma values_written m entries idx : Forall Written (values_tokens m entries idx).
Proof.
  revert idx. induction entries as [|p entries IH]; intros idx; constructor; [|apply IH].
  unfold value_tokens. destruct (is_null p.2); [constructor|]. destruct (is_datetime m p.1); constructor.
Qed.
Lemma values_length m entries idx : length (values_tokens m entries idx) = length entries.
Proof. revert idx. induction entries as [|p entries IH]; intros idx; [done|]. cbn. by rewrite IH. Qed.
Lemma write_values_lex m entries params : Forall2 lexes (write_values m entries params).1 (values_tokens m entries (length params + 1)).
Proof.
  revert params. induction entries as [|[k v] entries IH]; intros params; [constructor|].
  cbn [write_values values_tokens]. unfold write_value, value_tokens. cbn [fst snd]. destruct (is_null v).
  - specialize (IH params). destruct (write_values m entries params). by constructor.
  - specialize (IH (params ++ [v])%list). cbv zeta. destruct (write_values m entries _) as [texts ps]. rewrite length_app in IH |- *.
    cbn [length fst] in IH |- *. constructor; [|by replace (S (length params + 1)) with (length params + 1 + 1)%nat by lia].
    destruct (is_datetime m k); [|rewrite str_app_empty_r; apply lexes_placeholder].
    by apply (lexes_app _ _ [bound _]); [apply lexes_placeholder|reflexivity|].
Qed.
(** A value that is not null and no time is bound by itself. *)
Lemma value_bound m entries idx i k v :
  entries !! i = Some (k, v) -> is_null v = false -> is_datetime m k = false ->
  exists j, values_tokens m entries (S idx) !! i = Some [bound (S (idx + j))] /\ nonnull entries.*2 !! j = Some v.
Proof.
  intros Hi Hn Hd. revert idx i Hi. induction entries as [|[k' v'] entries IH]; intros idx [|i] Hi; try done.
  - injection Hi as -> ->. exists 0%nat. rewrite Nat.add_0_r. cbn [values_tokens lookup list_lookup]. unfold value_tokens. cbn [fst snd].
    rewrite Hn, Hd. split; [done|]. unfold nonnull. by rewrite fmap_cons, filter_cons, decide_True.
  - cbn [values_tokens lookup list_lookup fst snd] in Hi |- *. unfold nonnull. rewrite fmap_cons, filter_cons. cbn [snd].
    destruct (is_null v') eqn:E.
    + rewrite decide_False by congruence. by apply IH.
    + rewrite decide_True by done. destruct (IH (S idx) i Hi) as (j & H1 & H2). exists (S j).
      split; [|done]. by rewrite <-Nat.add_succ_comm.
Qed.
Lemma column_known cols : Forall known ((fun c => TIdent c) <$> cols).
Proof. by apply Forall_fmap, Forall_true. Qed.
Lemma written_known v : Written v -> Forall known v /\ TWord "WHERE" ∉ v.
Proof. intros []; split; try set_solver; repeat constructor; closed_known. Qed.
Lemma assignments_known cols values : Forall Written values -> Forall known (assignments cols values) /\ TWord "WHERE" ∉ assignments cols values.
Proof.
  unfold assignments. intros Hv. revert cols. induction Hv as [|v values [Hv Hw]%written_known Hvs IH]; intros [|c cols];
    try (split; [constructor|apply not_elem_of_nil]).
  cbn [zip_with intersperse]. destruct (IH cols) as [IHk IHw].
  destruct (zip_with (fun c v => TIdent c :: sym "=" :: v) cols values) as [|x l] eqn:Hz.
  - split; [by repeat constructor|set_solver].
  - split; [|set_solver]. apply Forall_app. split; [by repeat constructor|]. by repeat constructor.
Qed.
Lemma assignments_lex {A} (f : A -> string) (l : list A) texts values : Forall2 lexes texts values ->
  lexes (join ", " (zip_with (fun x t => quote_ident (f x) +:+ " = " +:+ t) l texts)) (assignments (f <$> l) values).
Proof.
  intros HF. unfold assignments, join. apply lexes_join; [done..|]. revert l.
  induction HF as [|s v texts values Hs HF IH]; intros [|x l]; try constructor; [|apply IH].
  apply (lexes_app _ _ [TIdent (f x)]); [apply lexes_ident| |done]. by apply (lexes_after " = " s [sym "="]).
Qed.
Lemma returning_reads s ts : s = " RETURNING *" /\ ts = [TWord "RETURNING"; sym "*"] \/ s = returning_id /\ ts = [TWord "RETURNING"; TIdent "id"] ->
  lexes s ts /\ tail_reads s.
Proof.
  intros [[-> ->]|[-> ->]]; (split; [done|]); (split; [done|]); eexists; (split; [reflexivity|]); (split; [closed_known|repeat constructor; closed_known]).
Qed.

(** An update of some columns under a filter *)
Lemma update_reads t table sets cols values cs ps tail ttail :
  lexes sets (assignments cols values) -> Forall Written values -> tenant_clause t ∈ cs ->
  lexes tail ttail /\ tail_reads tail ->
  exists rest, let ts := ([TWord "UPDATE"; TIdent table; TWord "SET"] ++ assignments cols values ++ TWord "WHERE" :: rest)%list in
    lexes (push_where ("UPDATE " +:+ quote_ident table +:+ " SET " +:+ sets) (build_where cs (length ps)).1 +:+ tail) ts /\
    names_tenant t ts (build_args (ps ++ where_params cs)%list) /\ exists ts0, ts = (ts0 ++ ttail)%list.
Proof.
  intros Hs Hv Hin [Htl Htr]. destruct (assignments_known cols values Hv) as [Hk Hw].
  destruct (statement_names t ("UPDATE " +:+ quote_ident table +:+ " SET " +:+ sets)
    ([TWord "UPDATE"; TIdent table; TWord "SET"] ++ assignments cols values)%list tail cs (length ps) ps) as (rest & H1 & H2 & H3); [|set_solver| |done|done|done|].
  - apply (lexes_after "UPDATE " _ [TWord "UPDATE"]); [done|].
    apply (lexes_app _ _ [TIdent table] ([TWord "SET"] ++ _)%list); [apply lexes_ident| |done]. by apply (lexes_after " SET ").
  - apply Forall_app. split; [repeat constructor; closed_known|done].
  - exists rest. cbv zeta. rewrite app_assoc. split; [done|]. split; [done|]. destruct (H3 _ Htl) as [r ->].
    eexists. exact (app_assoc _ (TWord "WHERE" :: r) ttail).
Qed.
Section WithOrder.
Context {ho : HashOrder}.

Lemma update_named t m cs (data : gmap string Value) : tenant_clause t ∈ cs ->
  exists values rest, let cols := to_snake_case <$> (hpairs data).*1 in
    let ts := ([TWord "UPDATE"; TIdent (table_name m); TWord "SET"] ++ assignments cols values ++ TWord "WHERE" :: rest)%list in
    lexes (update m cs data).1 ts /\ length cols = length values /\ Forall Written values /\
    names_tenant t ts (build_args (update m cs data).2) /\ exists ts0, ts = (ts0 ++ [TWord "RETURNING"; sym "*"])%list.
Proof.
  intros Hin. unfold update. pose proof (write_values_lex m (hpairs data) []) as Hl.
  destruct (write_values m (hpairs data) []) as [texts ps]. cbn [fst length Nat.add] in Hl.
  pose proof (assignments_lex (fun p : string * Value => to_snake_case p.1) (hpairs data) _ _ Hl) as Hs.
  destruct (update_reads t (table_name m) _ _ _ cs ps _ _ Hs (values_written m (hpairs data) 1) Hin (returning_reads _ _ (or_introl (conj eq_refl eq_refl))))
    as (rest & H1 & H2 & H3).
  rewrite <-(build_where_params cs (length ps)) in H2. unfold column. destruct (build_where cs (length ps)) as [w wps]. cbn [fst snd] in *.
  assert (Hc : (fun p : string * Value => to_snake_case p.1) <$> hpairs data = to_snake_case <$> (hpairs data).*1)
    by (rewrite <-list_fmap_compose; done). rewrite Hc in *.
  exists (values_tokens m (hpairs data) 1), rest. cbv zeta. split_and!; try done; [|by apply values_written].
  by rewrite !length_fmap, values_length.
Qed.
Lemma marked_named t m cs sets v : tenant_clause t ∈ cs -> lexes sets (assignments ["deleted_at"] [v]) -> Written v ->
  exists rest, let ts := ([TWord "UPDATE"; TIdent (table_name m); TWord "SET"] ++ assignments ["deleted_at"] [v] ++ TWord "WHERE" :: rest)%list in
    lexes (push_where ("UPDATE " +:+ quote_ident (table_name m) +:+ " SET " +:+ sets) (build_where cs 0).1 +:+ returning_id) ts /\
    names_tenant t ts (build_args (where_params cs)).
Proof.
  intros Hin Hs Hv. destruct (update_reads t (table_name m) sets ["deleted_at"] [v] cs [] _ _ Hs ltac:(by repeat constructor) Hin
    (returning_reads _ _ (or_intror (conj eq_refl eq_refl)))) as (rest & H1 & H2 & _). by exists rest.
Qed.
Lemma soft_delete_named t m cs : tenant_clause t ∈ cs ->
  exists rest, let ts := ([TWord "UPDATE"; TIdent (table_name m); TWord "SET"] ++ assignments ["deleted_at"] [[TWord "NOW"; sym "("; sym ")"]] ++ TWord "WHERE" :: rest)%list in
    lexes (soft_delete m cs).1 ts /\ names_tenant t ts (build_args (soft_delete m cs).2).
Proof.
  intros Hin. destruct (marked_named t m cs (quote_ident "deleted_at" +:+ " = NOW()") [TWord "NOW"; sym "("; sym ")"] Hin) as (rest & H1 & H2);
    [by vm_compute|constructor|]. exists rest. unfold soft_delete. rewrite <-(build_where_params cs 0) in H2.
  destruct (build_where cs 0) as [w ps]. cbn [fst snd] in *. done.
Qed.
Lemma restore_named t m cs : tenant_clause t ∈ cs ->
  exists rest, let ts := ([TWord "UPDATE"; TIdent (table_name m); TWord "SET"] ++ assignments ["deleted_at"] [[TWord "NULL"]] ++ TWord "WHERE" :: rest)%list in
    lexes (restore m cs).1 ts /\ names_tenant t ts (build_args (restore m cs).2).
Proof.
  intros Hin. destruct (marked_named t m cs (quote_ident "deleted_at" +:+ " = NULL") [TWord "NULL"] Hin) as (rest & H1 & H2);
    [by vm_compute|constructor|]. exists rest. unfold restore. rewrite <-(build_where_params cs 0) in H2.
  destruct (build_where cs 0) as [w ps]. cbn [fst snd] in *. done.
Qed.
Lemma insert_reads m (data : gmap string Value) :
  lexes (insert m data).1 (insert_tokens (table_name m) (to_snake_case <$> (hpairs data).*1) (values_tokens m (hpairs data) 1)) /\
  (insert m data).2 = nonnull (hpairs data).*2.
Proof.
  unfold insert, insert_tokens. pose proof (write_values_lex m (hpairs data) []) as Hl. pose proof (write_values_spec m (hpairs data) []) as Hp.
  destruct (write_values m (hpairs data) []) as [texts ps]. destruct Hp as [-> _]. cbn [fst snd length Nat.add app] in *. split; [|done].
  apply (lexes_after "INSERT INTO " _ [TWord "INSERT"; TWord "INTO"]); [done|].
  apply (lexes_app _ _ [TIdent (table_name m)] ([sym "("] ++ _)%list); [apply lexes_ident| |done].
  apply (lexes_after " (" _ [sym "("]); [done|]. apply lexes_app; [| |done].
  - apply lexes_join; [done..|]. clear Hl. induction (hpairs data) as [|p l IH]; cbn; [constructor|]. constructor; [apply lexes_ident|exact IH].
  - apply (lexes_after ") VALUES (" _ [sym ")"; TWord "VALUES"; sym "("]); [done|].
    apply lexes_app; [by apply lexes_join| |done]. done.
Qed.
End WithOrder.
