(* ===== verification/Tenancy.v ===== *)
(** * Tenant confinement as a contract of the data interface

    [Confined]: what a [DataApi] promises to a caller whose filters name a tenant: reads
    return rows of that tenant, writes leave every other row as it is.  [client_confined]:
    the data client keeps it, given what SQL says about a filter on [tenant_id]. *)

From S2P Require Import Prelude Json StateM SchemaTypes Query SqlBuilder History DataClient DataApi.
From S2P Require Import SqlLex SqlSpec DebugText DataClientSpec ClientCoherence.
From S2P Require Export TenantSql.
From S2P Require Cache CacheSpec.

(** ** The contract *)

Section Contract.
Context {W : Type} (api : DataApi W) (t : string).
Context (inv : W -> Prop) (rows : W -> string -> list Doc).

(** The rows of a table that are not the tenant's *)
Definition foreign (w : W) (table : string) : list Doc := filter (fun r => ~ owned t r) (rows w table).
Definition foreign_same (w w' : W) : Prop := forall table, foreign w' table ≡ₚ foreign w table.
Definition foreign_kept (w w' : W) : Prop := forall table, foreign w table ⊆+ foreign w' table.

(** A number of rows of the tenant *)
Definition counts_owned (w : W) (n : Z) : Prop :=
  exists table hits, hits ⊆+ rows w table /\ Forall (owned t) hits /\ n = Z.of_nat (length hits).

Definition read_post {A} (good : W -> A -> Prop) (w : W) (r : A + ClientError) (w' : W) : Prop :=
  inv w' /\ rows w' = rows w /\ match r with inl a => good w a | inr _ => True end.
Definition write_post {A} (good : A -> Prop) (w : W) (r : A + ClientError) (w' : W) : Prop :=
  inv w' /\ foreign_same w w' /\ match r with inl a => good a | inr _ => True end.

Record Confined : Prop := {
  cf_find_many so name cs ob l o : tenant_clause t ∈ cs ->
    ensures inv (api_find_many so name cs ob l o) (read_post (fun _ => Forall (owned t)));
  cf_find_unique so name cs : tenant_clause t ∈ cs ->
    ensures inv (api_find_unique so name cs) (read_post (fun _ o => forall r, o = Some r -> owned t r));
  cf_count so name cs : tenant_clause t ∈ cs -> ensures inv (api_count so name cs) (read_post counts_owned);
  cf_find_deleted so name cs ob l o : tenant_clause t ∈ cs ->
    ensures inv (api_find_deleted so name cs ob l o) (read_post (fun _ => Forall (owned t)));
  cf_count_deleted so name cs : tenant_clause t ∈ cs ->
    ensures inv (api_count_deleted so name cs) (read_post counts_owned);
  cf_create so role name data actor : data !! TENANT = Some (VString t) ->
    ensures inv (api_create so role name data actor) (write_post (owned t));
  cf_create_any so role name data actor :
    ensures inv (api_create so role name data actor) (fun w _ w' => inv w' /\ foreign_kept w w');
  cf_update so role name cs data actor : tenant_clause t ∈ cs -> ~ sets_tenant data ->
    ensures inv (api_update so role name cs data actor) (write_post (Forall (owned t)));
  cf_update_moving so role name cs data actor : tenant_clause t ∈ cs ->
    ensures inv (api_update so role name cs data actor) (fun w _ w' => inv w' /\ foreign_kept w w');
  cf_delete so role name cs actor : tenant_clause t ∈ cs ->
    ensures inv (api_delete so role name cs actor) (write_post (fun _ => True));
  cf_restore so name cs actor : tenant_clause t ∈ cs ->
    ensures inv (api_restore so name cs actor) (write_post (fun _ => True));
  cf_hard_delete so name cs actor : tenant_clause t ∈ cs ->
    ensures inv (api_hard_delete so name cs actor) (write_post (fun _ => True))
}.

#[global] Instance foreign_same_refl : Reflexive foreign_same.
Proof. by intros w table. Qed.
#[global] Instance foreign_same_trans : Transitive foreign_same.
Proof. intros w1 w2 w3 H1 H2 table. by rewrite (H2 table), (H1 table). Qed.
#[global] Instance foreign_kept_refl : Reflexive foreign_kept.
Proof. by intros w table. Qed.
#[global] Instance foreign_kept_trans : Transitive foreign_kept.
Proof. intros w1 w2 w3 H1 H2 table. etrans; [apply H1|apply H2]. Qed.
Lemma foreign_same_kept w w' : foreign_same w w' -> foreign_kept w w'.
Proof. intros H table. by rewrite (H table). Qed.
Lemma rows_foreign_same w w' : rows w' = rows w -> foreign_same w w'.
Proof. intros H table. unfold foreign. by rewrite H. Qed.
End Contract.

(** ** Computations over the interface *)

Section Confinement.
Context {W E : Type} (t : string) (inv : W -> Prop) (rows : W -> string -> list Doc).

(** From a state of [P] every outcome leaves the foreign rows; a value is [good]. *)
Definition conf {A} (P : W -> Prop) (m : Comp W E A) (good : A -> W -> Prop) : Prop :=
  ensures (fun w => inv w /\ P w) m
    (fun w r w' => inv w' /\ foreign_same t rows w w' /\ match r with inl a => good a w' | inr _ => True end).
(** Every outcome leaves the rows of others among the rows. *)
Definition spares {A} (m : Comp W E A) : Prop := ensures inv m (fun w _ w' => inv w' /\ foreign_kept t rows w w').
#[local] Abbreviation any := (fun _ : W => True).

Lemma conf_ret {A} (P : W -> Prop) (a : A) (good : A -> W -> Prop) :
  (forall w, P w -> good a w) -> conf P (mret a) good.
Proof. intros Hg w [Hi Hp]. cbn. split_and!; [done|reflexivity|by apply Hg]. Qed.
Lemma conf_throw {A} P e (good : A -> W -> Prop) : conf P (throw e) good.
Proof. intros w [Hi Hp]. cbn. by split_and!. Qed.
Lemma conf_bind {A B} P (m : Comp W E A) (k : A -> Comp W E B) G good :
  conf P m G -> (forall a, conf (G a) (k a) good) -> conf P (m ≫= k) good.
Proof.
  intros Hm Hk w Hw. specialize (Hm w Hw). unfold mbind, Comp_bind. destruct (m w) as [[a|e] w1]; cbn in *.
  - destruct Hm as (Hi & Hs & Hg). destruct (Hk a w1 (conj Hi Hg)) as (Hi2 & Hs2 & Hg2).
    split_and!; [done|by etrans|done].
  - tauto.
Qed.
Lemma conf_weaken {A} (P P' : W -> Prop) (m : Comp W E A) (G G' : A -> W -> Prop) :
  conf P m G -> (forall w, P' w -> P w) -> (forall a w, G a w -> G' a w) -> conf P' m G'.
Proof.
  intros Hm HP HG w [Hi Hp]. destruct (Hm w (conj Hi (HP w Hp))) as (H1 & H2 & H3). split_and!; [done..|].
  destruct (m w).1; [by apply HG|done].
Qed.
Lemma conf_check P o : conf P (check o) (fun _ => P).
Proof. destruct o; [apply conf_throw|by apply conf_ret]. Qed.
Lemma conf_sum {A} P (r : A + E) : conf P (of_sum r) (fun _ => P).
Proof. destruct r; [by apply conf_ret|apply conf_throw]. Qed.
Lemma conf_map {A B} P (m : Comp W E A) (f : A -> B) (G : A -> W -> Prop) (G' : B -> W -> Prop) :
  conf P m G -> (forall a w, G a w -> G' (f a) w) -> conf P (a ← m; mret (f a)) G'.
Proof. intros Hm HG. eapply conf_bind; [exact Hm|]. intros a. apply conf_ret. intros w. apply HG. Qed.
Lemma conf_then {A B} (m : Comp W E A) (k : A -> Comp W E B) (G : A -> Prop) good :
  conf any m (fun a _ => G a) -> (forall a, G a -> conf any (k a) good) -> conf any (m ≫= k) good.
Proof. intros Hm Hk. eapply conf_bind; [exact Hm|]. intros a w [Hi Ha]. exact (Hk a Ha w (conj Hi I)). Qed.

(** A call of the interface, its error translated *)
Lemma conf_read {A} (f : ClientError -> E) (m : Comp W ClientError A) (good : W -> A -> Prop) :
  ensures inv m (read_post inv rows good) -> (forall a w w', rows w' = rows w -> good w a -> good w' a) ->
  conf any (with_error f m) (fun a w => good w a).
Proof.
  intros Hm Hr w [Hi _]. destruct (Hm w Hi) as (H1 & H2 & H3). unfold with_error.
  destruct (m w) as [[a|e] w1]; cbn in *; split_and!; try done; try by apply rows_foreign_same. by eapply Hr.
Qed.
Lemma conf_write {A} (f : ClientError -> E) (m : Comp W ClientError A) (good : A -> Prop) :
  ensures inv m (write_post t inv rows good) -> conf any (with_error f m) (fun a _ => good a).
Proof.
  intros Hm w [Hi _]. destruct (Hm w Hi) as (H1 & H2 & H3). unfold with_error.
  by destruct (m w) as [[a|e] w1].
Qed.

Lemma conf_spares {A} (m : Comp W E A) good : conf any m good -> spares m.
Proof. intros Hm w Hi. destruct (Hm w (conj Hi I)) as (H1 & H2 & _). split; [done|by apply foreign_same_kept]. Qed.
Lemma spares_bind {A B} (m : Comp W E A) (k : A -> Comp W E B) : spares m -> (forall a, spares (k a)) -> spares (m ≫= k).
Proof.
  intros Hm Hk w Hi. destruct (Hm w Hi) as [H1 H2]. unfold mbind, Comp_bind. destruct (m w) as [[a|e] w1]; [|done].
  destruct (Hk a w1 H1) as [H3 H4]. split; [done|by etrans].
Qed.
Lemma spares_ret {A} (a : A) : spares (mret a).
Proof. by intros w Hi. Qed.
Lemma spares_check o : spares (check o).
Proof. by destruct o. Qed.
Lemma spares_sum {A} (r : A + E) : spares (of_sum r).
Proof. by intros w Hi. Qed.
Lemma spares_call {A} (f : ClientError -> E) (m : Comp W ClientError A) :
  ensures inv m (fun w _ w' => inv w' /\ foreign_kept t rows w w') -> spares (with_error f m).
Proof. intros Hm w Hi. destruct (Hm w Hi). unfold with_error. by destruct (m w) as [[]]. Qed.
End Confinement.

(** ** The generated statements keep to the tenant *)

Section Statements.
Context {ho : HashOrder} {D Cell : Type}.
Variable getters : Getters Cell.
Variable exec : option string -> string * list Arg -> D -> (list (list (Column Cell)) * D) + string.
Variable rows : D -> string -> list Doc.
Variable t : string.
Hypothesis sql : SqlTenancy getters exec rows t.
#[local] Abbreviation run b q := (exec b (statement_of q)).

Lemma select_confined b m cs ob l o d out d' : tenant_clause t ∈ cs -> run b (select m cs ob l o) d = inl (out, d') ->
  Forall (owned t) (row_to_map getters <$> out).
Proof. intros Hin E. destruct (select_named t m cs ob l o Hin) as (rest & Hl & Hn). by eapply (sq_select _ _ _ _ sql). Qed.
Lemma count_confined b m cs d row out d' : tenant_clause t ∈ cs -> run b (count_statement m cs) d = inl (row :: out, d') ->
  exists table hits, hits ⊆+ rows d table /\ Forall (owned t) hits /\ count_of_row getters row = Z.of_nat (length hits).
Proof.
  intros Hin E. destruct (count_named t m cs Hin) as (rest & Hl & Hn).
  destruct (sq_count _ _ _ _ sql _ _ _ _ _ _ _ _ _ _ Hl eq_refl Hn E) as (hits & H). by exists (table_name m), hits.
Qed.
Lemma insert_kept b m data d out d' : run b (insert m data) d = inl (out, d') -> others_kept rows t d d'.
Proof.
  intros E. destruct (insert_reads m data) as [Hl _].
  apply (sq_insert _ _ _ _ sql _ _ _ _ _ _ _ _ _ Hl (values_written _ _ _) E).
Qed.
Lemma insert_confined b m data d out d' : is_datetime m TENANT = false -> data !! TENANT = Some (VString t) ->
  run b (insert m data) d = inl (out, d') -> others_same rows t d d' /\ Forall (owned t) (row_to_map getters <$> out).
Proof.
  intros Hd Ht E. destruct (insert_reads m data) as [Hl Hp].
  destruct (sq_insert _ _ _ _ sql _ _ _ _ _ _ _ _ _ Hl (values_written _ _ _) E) as [_ Ho].
  assert (Hin : (TENANT, VString t) ∈ hpairs data) by by apply elem_of_hpairs. apply list_elem_of_lookup in Hin as [i Hi].
  destruct (value_bound m _ 0 i _ _ Hi eq_refl Hd) as (j & Hv & Hj). apply (Ho i j); [|exact Hv|].
  - rewrite !list_lookup_fmap, Hi. done.
  - cbn [statement_of snd]. unfold build_args. rewrite Hp, list_lookup_fmap. by rewrite Hj.
Qed.
Lemma update_confined b m cs data d out d' : tenant_clause t ∈ cs -> run b (update m cs data) d = inl (out, d') ->
  others_kept rows t d d' /\
  (~ sets_tenant data -> others_same rows t d d' /\ Forall (owned t) (row_to_map getters <$> out)).
Proof.
  intros Hin E. destruct (update_named t m cs data Hin) as (values & rest & Hl & Hlen & Hw & Hn & ts0 & Hret).
  destruct (sq_update _ _ _ _ sql _ _ _ _ _ _ _ _ _ _ _ Hl eq_refl Hlen Hw Hn E) as [Hk Ho]. split; [done|].
  intros Hs. destruct Ho as [H1 H2]; [|split; [done|by eapply H2]].
  intros (k & Hk1 & Hk2)%list_elem_of_fmap. apply Hs. exists k. split; [|done].
  apply list_elem_of_fmap in Hk2 as ([k' v] & -> & Hin'). apply elem_of_hpairs in Hin'. by eexists.
Qed.
Lemma remove_confined b m cs q d out d' : tenant_clause t ∈ cs -> q ∈ [delete m cs; soft_delete m cs; restore m cs] ->
  run b q d = inl (out, d') -> others_same rows t d d'.
Proof.
  intros Hin Hq E. repeat (apply elem_of_cons in Hq as [->|Hq]); [..|by apply not_elem_of_nil in Hq].
  - destruct (delete_named t m cs Hin) as (rest & Hl & Hn). by eapply (sq_delete _ _ _ _ sql).
  - destruct (soft_delete_named t m cs Hin) as (rest & Hl & Hn).
    destruct (sq_update _ _ _ _ sql _ _ _ _ _ ["deleted_at"%string] [_] _ _ _ _ Hl eq_refl eq_refl ltac:(by repeat constructor) Hn E) as [_ Ho].
    apply Ho. set_solver.
  - destruct (restore_named t m cs Hin) as (rest & Hl & Hn).
    destruct (sq_update _ _ _ _ sql _ _ _ _ _ ["deleted_at"%string] [_] _ _ _ _ Hl eq_refl eq_refl ltac:(by repeat constructor) Hn E) as [_ Ho].
    apply Ho. set_solver.
Qed.
End Statements.

(** ** The client keeps the contract *)

Section Client.
Context {ho : HashOrder} {D H Cell : Type} {hr : HookRunner H} (ce : ClientEnv D H Cell).
Variable rows : D -> string -> list Doc.
Variable t : string.

(** Hooks leave the tenant of the data alone. *)
Definition hooks_keep_tenant : Prop := forall name ctx h d h',
  run_before name ctx h = (inl (HContinue d), h') ->
  d !! TENANT = hx_data ctx !! TENANT /\ (sets_tenant d -> sets_tenant (hx_data ctx)).

Hypothesis lens : forall v n, ce_value_len ce v = Some n -> 0 <= n.
Hypothesis hooks : hooks_keep_tenant.
Hypothesis sql : SqlTenancy (ce_getters ce) (ce_exec ce) rows t.
(** The tenant's column holds no time. *)
Hypothesis plain : forall name m, sc_models (ce_schema ce) !! name = Some m -> is_datetime m TENANT = false.
#[local] Instance client_debug : Debug Value := ce_debug ce.

Definition client_inv (c : Client D H) : Prop :=
  coherent (ce_schema ce) (ce_rls ce) (ce_getters ce) (ce_exec ce) c.
Definition client_rows (c : Client D H) : string -> list Doc := rows (tables (cl_db c)).

#[local] Abbreviation api := (client_api ce).
#[local] Abbreviation readp := (read_post t client_inv client_rows).
#[local] Abbreviation writep := (write_post t client_inv client_rows).

Lemma cached_ensures {A} q (encode : A -> Value) decode (read : D -> A + ClientError) (good : _ -> A -> Prop) :
  (forall d, truth (ce_schema ce) (ce_rls ce) (ce_getters ce) (ce_exec ce) q d = encoded encode (read d)) ->
  (forall a b, decode (encode a) = Some b -> b = a) ->
  (forall c a, read (tables (cl_db c)) = inl a -> good c a) ->
  ensures client_inv (cached_read (ce_value_len ce) (ce_clock ce) q encode decode read)
    (read_post client_inv client_rows good).
Proof.
  intros Ht Hd Hg c Hc.
  destruct (cached_read_spec (ce_schema ce) (ce_rls ce) (ce_getters ce) (ce_exec ce) (ce_value_len ce) (ce_clock ce)
    lens q encode decode read c Ht Hd Hc) as (R & C & S).
  split; [exact C|]. destruct S as (S & _). split; [by unfold client_rows; rewrite S|].
  rewrite R. destruct (read _) as [a|] eqn:E; [by apply Hg|done].
Qed.
Lemma same_read {A} (good : Client D H -> A -> Prop) (r : A + ClientError) c :
  client_inv c -> (forall a, r = inl a -> good c a) -> read_post client_inv client_rows good c r c.
Proof. intros Hc Hg. split; [done|]. split; [done|]. destruct r; [by apply Hg|done]. Qed.

Lemma read_many_owned tn name cs ob l o d docs :
  tenant_clause t ∈ cs -> read_many (ce_schema ce) (ce_rls ce) (ce_getters ce) (ce_exec ce) tn name cs ob l o d = inl docs ->
  Forall (owned t) docs.
Proof.
  intros Hin. unfold read_many, fetch_all. destruct (find_model _ name) as [m|]; [|done].
  destruct (ce_exec ce _ _ d) as [[out d']|] eqn:E; [|done]. intros [= <-].
  eapply (select_confined _ _ _ _ sql); [|exact E]. apply elem_of_app. by left.
Qed.
Lemma read_unique_owned tn name cs d r :
  tenant_clause t ∈ cs -> read_unique (ce_schema ce) (ce_rls ce) (ce_getters ce) (ce_exec ce) tn name cs d = inl (Some r) ->
  owned t r.
Proof.
  intros Hin. unfold read_unique, fetch_all. destruct (find_model _ name) as [m|]; [|done].
  destruct (ce_exec ce _ _ d) as [[out d']|] eqn:E; [|done]. destruct out as [|row out]; [done|]. intros [= <-].
  assert (Forall (owned t) (row_to_map (ce_getters ce) <$> row :: out)) as HF; [|by inversion HF].
  eapply (select_confined _ _ _ _ sql); [|exact E]. apply elem_of_app. by left.
Qed.
Lemma read_count_owned tn name cs c n :
  tenant_clause t ∈ cs -> read_count (ce_schema ce) (ce_rls ce) (ce_getters ce) (ce_exec ce) tn name cs (tables (cl_db c)) = inl n ->
  counts_owned t client_rows c n.
Proof.
  intros Hin. unfold read_count, fetch_all. destruct (find_model _ name) as [m|]; [|done].
  destruct (ce_exec ce _ _ _) as [[out d']|] eqn:E; [|done]. destruct out as [|row out]; [done|]. intros [= <-].
  destruct (count_confined _ _ _ _ sql _ _ _ _ _ _ _ (proj2 (elem_of_app _ _ _) (or_introl Hin)) E) as (tb & hits & Hs & Hf & ->).
  by exists tb, hits.
Qed.

#[local] Abbreviation writing f so := (f (ce_schema ce) (ce_config ce) (ce_rls ce) (ce_getters ce) (ce_exec ce)
  (ce_fault ce) (ce_event_time ce) (ce_event_uuid ce) (ce_db_now ce) (ce_row_uuid ce) (so_tenant so) (so_origin so)).
#[local] Abbreviation run_one q so := (exec_one (ce_rls ce) (ce_exec ce) (so_tenant so) q).

(** What was done when a write succeeds: one statement *)
Definition wrote (so : Scope) (q : Statement) (out : list Doc) (c c' : Client D H) : Prop :=
  exists rws, run_one q so (tables (cl_db c)) = inl (rws, tables (cl_db c')) /\ out = row_to_map (ce_getters ce) <$> rws.

Lemma tx_end_inl {A} so serial q evs_of (db : Db D) (c : Client D H)
    (F : list Doc -> list ModelEvent -> Db D -> (A + ClientError) * Client D H) a c' :
  match transaction (ce_config ce) (ce_rls ce) (ce_getters ce) (ce_fault ce) (ce_db_now ce) (ce_row_uuid ce)
          (so_tenant so) serial (run_one q so) evs_of db with
  | inr e => (inr e, c)
  | inl (records, evs, db') => F records evs db'
  end = (inl a, c') ->
  exists rws evs db', run_one q so (tables db) = inl (rws, tables db') /\
    F (row_to_map (ce_getters ce) <$> rws) evs db' = (inl a, c').
Proof.
  destruct (transaction _ _ _ _ _ _ _ _ _ _ _) as [[[records evs] db']|e] eqn:Htx; [|done].
  apply transaction_spec in Htx as (rws & d & Hr & -> & _ & ->). intros HF. by exists rws, evs, (mkDb d (persist_many_in (ce_config ce) (ce_row_uuid ce) (ce_db_now ce serial) evs (log db))).
Qed.

Lemma after_hook_db name ctx (c : Client D H) : cl_db (after_hook name ctx c) = cl_db c.
Proof. by destruct (after_hook_same name ctx c). Qed.
Lemma before_hook_db name ctx (c c' : Client D H) r : before_hook name ctx c = (r, c') -> cl_db c' = cl_db c.
Proof. intros E. pose proof (before_hook_same name ctx c) as (Hd & _). by rewrite E in Hd. Qed.
Lemma before_hook_keeps name ctx (c c' : Client D H) data :
  before_hook name ctx c = (inl data, c') ->
  data !! TENANT = hx_data ctx !! TENANT /\ (sets_tenant data -> sets_tenant (hx_data ctx)).
Proof.
  unfold before_hook. destruct (run_before name ctx (cl_hooks c)) as [r h] eqn:E.
  destruct r as [[d|msg]|e]; intros [= <- _]. by eapply hooks.
Qed.

Lemma update_wrote so name cs data actor c out c' :
  writing update_many so name cs data actor c = (inl out, c') ->
  exists m data', (sets_tenant data' -> sets_tenant data) /\ wrote so (update m cs data') out c c'.
Proof.
  unfold update_many. destruct (validate_where_clauses cs); [done|]. destruct (find_model _ name) as [m|]; [|done].
  destruct (before_hook _ _ c) as [[data'|e] c1] eqn:Hb; [|done].
  pose proof (before_hook_db _ _ _ _ _ Hb) as Hdb. apply before_hook_keeps in Hb as [_ Hk]. cbn in Hk.
  destruct (check_partial m data'); [done|]. intros (rws & evs & db' & Hr & [= <- <-])%tx_end_inl. rewrite Hdb in Hr.
  exists m, data'. split; [done|]. exists rws. by rewrite after_hook_db.
Qed.
Lemma delete_wrote so name cs actor c n c' :
  writing delete_many so name cs actor c = (inl n, c') ->
  exists m out, wrote so (soft_delete m cs) out c c'.
Proof.
  unfold delete_many. destruct (validate_where_clauses cs); [done|]. destruct (find_model _ name) as [m|]; [|done].
  destruct (before_hook _ _ c) as [[data'|e] c1] eqn:Hb; [|done]. pose proof (before_hook_db _ _ _ _ _ Hb) as Hdb.
  intros (rws & evs & db' & Hr & [= <- <-])%tx_end_inl. rewrite Hdb in Hr.
  exists m. eexists. exists rws. by rewrite after_hook_db.
Qed.
Lemma restore_wrote so name cs actor c n c' :
  writing restore_many so name cs actor c = (inl n, c') -> exists m out, wrote so (restore m cs) out c c'.
Proof.
  unfold restore_many. destruct (validate_where_clauses cs); [done|]. destruct (find_model _ name) as [m|]; [|done].
  intros (rws & evs & db' & Hr & [= <- <-])%tx_end_inl. exists m. eexists. by exists rws.
Qed.
Lemma hard_delete_wrote so name cs actor c n c' :
  writing hard_delete_many so name cs actor c = (inl n, c') -> exists m out, wrote so (delete m cs) out c c'.
Proof.
  unfold hard_delete_many. destruct (validate_where_clauses cs); [done|]. destruct (find_model _ name) as [m|]; [|done].
  intros (rws & evs & db' & Hr & [= <- <-])%tx_end_inl. exists m. eexists. by exists rws.
Qed.
Lemma create_wrote so name data actor c r c' :
  writing create so name data actor c = (inl r, c') ->
  exists m data' rws d', sc_models (ce_schema ce) !! name = Some m /\ data' !! TENANT = data !! TENANT /\
    ce_exec ce (bound_tenant (ce_rls ce) (so_tenant so)) (statement_of (insert m data')) (tables (cl_db c)) = inl (rws, d') /\
    tables (cl_db c') = d' /\ r ∈ row_to_map (ce_getters ce) <$> rws.
Proof.
  unfold create, find_model. destruct (sc_models _ !! name) as [m|] eqn:Hm; [|done].
  destruct (before_hook _ _ c) as [[data'|e] c1] eqn:Hb; [|done]. pose proof (before_hook_db _ _ _ _ _ Hb) as Hdb.
  apply before_hook_keeps in Hb as [Hk _]. cbn in Hk. destruct (check_full m data'); [done|].
  destruct (transaction _ _ _ _ _ _ _ _ _ _ _) as [[[records evs] db']|e] eqn:Htx; [|done].
  apply transaction_spec in Htx as (rws & d & Hr & -> & _ & ->). rewrite Hdb in Hr. cbn [exec_all] in Hr.
  destruct (ce_exec ce _ _ _) as [[out d1]|] eqn:E; [|done]. destruct out as [|row out]; [done|]. cbn in Hr.
  injection Hr as <- <-. cbn. intros [= <- <-]. exists m, data', (row :: out), d1. rewrite after_hook_db.
  split_and!; [done|done|exact E|done|cbn; left].
Qed.

(** A write, succeeded or failed, keeps the invariant; a failed one the rows. *)
Lemma write_ensures {A} so actor w (m : Comp (Client D H) ClientError A) (good : A -> Prop) :
  (forall c, (m c).2 = (writing apply_write so actor w c).2) ->
  (forall c e, (m c).1 = inr e -> (writing apply_write so actor w c).1 = Some e) ->
  (forall c a c', m c = (inl a, c') -> foreign_same t client_rows c c' /\ good a) ->
  ensures client_inv m (writep good).
Proof.
  intros H2 H1 Hok c Hc. split.
  - rewrite H2. by apply (write_coherent _ _ _ _ _ _ (ce_value_len ce) _ _ _ _ lens).
  - destruct (m c) as [[a|e] c'] eqn:E; cbn.
    + by apply Hok in E.
    + split; [|done]. specialize (H1 c e). rewrite E in H1. specialize (H1 eq_refl).
      pose proof (apply_write_spec (ce_schema ce) (ce_config ce) (ce_rls ce) (ce_getters ce) (ce_exec ce) (ce_fault ce)
        (ce_event_time ce) (ce_event_uuid ce) (ce_db_now ce) (ce_row_uuid ce) (so_tenant so) (so_origin so) actor w c) as Hs.
      pose proof (H2 c) as E2. rewrite E in E2. cbn in E2.
      destruct (apply_write _ _ _ _ _ _ _ _ _ _ _ _ _ _ c) as [r c1]. cbn in *. subst r c1.
      destruct Hs as (Hdb & _). apply rows_foreign_same. unfold client_rows. by rewrite Hdb.
Qed.
Lemma denied_ensures {A} (e : ClientError) (good : A -> Prop) : ensures client_inv (throw e) (writep good).
Proof. intros c Hc. cbn. by split; [|split]. Qed.

Lemma read_ok {A} (m : Client D H -> A + ClientError) (good : Client D H -> A -> Prop) :
  (forall c a, m c = inl a -> good c a) -> ensures client_inv (fun c => (m c, c)) (read_post client_inv client_rows good).
Proof. intros Hg c Hc. cbn. apply same_read; [done|]. intros a. apply Hg. Qed.

Lemma owned_same so q out c c' cs m :
  tenant_clause t ∈ cs -> q ∈ [delete m cs; soft_delete m cs; restore m cs] -> wrote so q out c c' ->
  foreign_same t client_rows c c'.
Proof.
  intros Hin Hq (rws & Hr & _). unfold exec_one in Hr.
  destruct (ce_exec ce _ _ _) as [[x d]|] eqn:E; [|done]. injection Hr as -> ->.
  intros table. exact (remove_confined _ _ _ _ sql _ _ _ _ _ _ _ Hin Hq E table).
Qed.

Lemma outcome_fst {A} (r : (A + ClientError) * Client D H) e : r.1 = inr e -> (outcome r).1 = Some e.
Proof. unfold outcome. by intros ->. Qed.

(** Permitted by the access rules or refused, on valid filters or refused *)
Lemma checked_ensures {A} (g1 g2 : option ClientError) (m : Comp (Client D H) ClientError A) (good : A -> Prop) :
  ensures client_inv m (writep good) ->
  ensures client_inv (fun c => match g1 with Some e => (inr e, c) | None =>
                               match g2 with Some e => (inr e, c) | None => m c end end) (writep good).
Proof. intros Hm c Hc. destruct g1; [by apply denied_ensures|]. destruct g2; [by apply denied_ensures|]. by apply Hm. Qed.

Lemma update_ensures so name cs data actor :
  tenant_clause t ∈ cs -> ~ sets_tenant data ->
  ensures client_inv (writing update_many so name cs data actor) (writep (Forall (owned t))).
Proof.
  intros Hin Hn. apply (write_ensures so actor (WUpdate name cs data)); [done|intros; by apply outcome_fst|].
  intros c out c' (m & data' & Hs & rws & Hr & ->)%update_wrote. unfold exec_one in Hr.
  destruct (ce_exec ce _ _ _) as [[x d]|] eqn:E; [|done]. injection Hr as -> ->.
  destruct (update_confined _ _ _ _ sql _ _ _ _ _ _ _ Hin E) as (_ & Ho). apply Ho. tauto.
Qed.
(** The same for rows that stay *)
Lemma write_kept {A} so actor w (m : Comp (Client D H) ClientError A) :
  (forall c, writing apply_write so actor w c = outcome (m c)) ->
  (forall c a c', m c = (inl a, c') -> foreign_kept t client_rows c c') ->
  ensures client_inv m (fun w _ w' => client_inv w' /\ foreign_kept t client_rows w w').
Proof.
  intros Hm Hok c Hc. pose proof (write_coherent (ce_schema ce) (ce_config ce) (ce_rls ce) (ce_getters ce) (ce_exec ce)
    (ce_fault ce) (ce_value_len ce) (ce_event_time ce) (ce_event_uuid ce) (ce_db_now ce) (ce_row_uuid ce)
    lens (so_tenant so) (so_origin so) actor w c Hc) as Hco.
  pose proof (apply_write_spec (ce_schema ce) (ce_config ce) (ce_rls ce) (ce_getters ce) (ce_exec ce) (ce_fault ce)
    (ce_event_time ce) (ce_event_uuid ce) (ce_db_now ce) (ce_row_uuid ce) (so_tenant so) (so_origin so) actor w c) as Hs.
  rewrite Hm in Hs, Hco. unfold outcome in Hs, Hco.
  destruct (m c) as [[a|e] c'] eqn:E; cbn in *; (split; [exact Hco|]); [by eapply Hok|].
  destruct Hs as (Hdb & _). intros table. unfold foreign, client_rows. by rewrite Hdb.
Qed.
Lemma update_moving so name cs data actor :
  tenant_clause t ∈ cs ->
  ensures client_inv (writing update_many so name cs data actor)
    (fun w _ w' => client_inv w' /\ foreign_kept t client_rows w w').
Proof.
  intros Hin. apply (write_kept so actor (WUpdate name cs data)); [done|].
  intros c out c' (m & data' & _ & rws & Hr & _)%update_wrote. unfold exec_one in Hr.
  destruct (ce_exec ce _ _ _) as [[x d]|] eqn:Ex; [|done]. injection Hr as -> ->.
  intros table. exact (proj1 (update_confined _ _ _ _ sql _ _ _ _ _ _ _ Hin Ex) table).
Qed.
Lemma create_ensures so name data actor :
  data !! TENANT = Some (VString t) -> ensures client_inv (writing create so name data actor) (writep (owned t)).
Proof.
  intros Ht. apply (write_ensures so actor (WCreate name data)); [done|intros; by apply outcome_fst|].
  intros c r c' (m & data' & rws & d' & Hm & Hk & E & Hd & Hin)%create_wrote. rewrite Ht in Hk.
  destruct (insert_confined _ _ _ _ sql _ _ _ _ _ _ (plain _ _ Hm) Hk E) as [Hs Hf]. rewrite <- Hd in Hs. split; [exact Hs|].
  rewrite Forall_forall in Hf. by apply Hf.
Qed.

Lemma create_kept so name data actor :
  ensures client_inv (writing create so name data actor)
    (fun w _ w' => client_inv w' /\ foreign_kept t client_rows w w').
Proof.
  apply (write_kept so actor (WCreate name data)); [done|].
  intros c r c' (m & data' & rws & d' & _ & _ & E & <- & _)%create_wrote.
  exact (insert_kept _ _ _ _ sql _ _ _ _ _ _ E).
Qed.

Lemma client_keeps_contract : Confined api t client_inv client_rows.
Proof.
  split; cbn [api_find_many api_find_unique api_count api_find_deleted api_count_deleted api_create api_update
              api_delete api_restore api_hard_delete client_api].
  - intros so name cs ob l o Hin c Hc. unfold find_many_plain. destruct (validate_where_clauses cs); [by apply same_read|].
    apply cached_ensures; [done|intros; by apply decode_encode_many| |done].
    intros c' a Ha. by eapply read_many_owned.
  - intros so name cs Hin c Hc. unfold find_unique_plain. destruct (validate_where_clauses cs); [by apply same_read|].
    apply cached_ensures; [done|intros; by apply decode_encode_unique| |done].
    intros c' a Ha r ->. by eapply read_unique_owned.
  - intros so name cs Hin c Hc. unfold count. destruct (validate_where_clauses cs); [by apply same_read|].
    apply cached_ensures; [done|intros; by apply decode_encode_count| |done].
    intros c' a Ha. by eapply read_count_owned.
  - intros so name cs ob l o Hin. apply read_ok. intros c docs. unfold find_deleted, fetch_all.
    destruct (validate_where_clauses cs); [done|]. destruct (find_model _ name) as [m|]; [|done].
    destruct (ce_exec ce _ _ _) as [[out d']|] eqn:E; [|done]. intros [= <-].
    eapply (select_confined _ _ _ _ sql); [|exact E]. apply elem_of_app. by left.
  - intros so name cs Hin. apply read_ok. intros c n. unfold count_deleted, fetch_all.
    destruct (validate_where_clauses cs); [done|]. destruct (find_model _ name) as [m|]; [|done].
    destruct (ce_exec ce _ _ _) as [[out d']|] eqn:E; [|done]. destruct out as [|row out]; [done|]. intros [= <-].
    destruct (count_confined _ _ _ _ sql _ _ _ _ _ _ _ (proj2 (elem_of_app _ _ _) (or_introl Hin)) E) as (tb & hits & Hs & Hf & ->).
    by exists tb, hits.
  - intros so role name data actor Ht c Hc. unfold create_checked.
    destruct (enforce_access _ _ _ _); [by apply denied_ensures|by apply create_ensures].
  - intros so role name data actor c Hc. unfold create_checked. destruct (enforce_access _ _ _ _); [done|by apply create_kept].
  - intros so role name cs data actor Hin Hn. by apply checked_ensures, update_ensures.
  - intros so role name cs data actor Hin c Hc. unfold update_many_checked.
    destruct (validate_where_clauses cs); [done|]. destruct (enforce_access _ _ _ _); [done|]. by apply update_moving.
  - intros so role name cs actor Hin. apply checked_ensures.
    apply (write_ensures so actor (WDelete name cs)); [done|intros; by apply outcome_fst|].
    intros c n c' (m & out & Hw)%delete_wrote. split; [|done].
    refine (owned_same so (soft_delete m cs) out c c' cs m Hin _ Hw). right. left.
  - intros so name cs actor Hin. apply (write_ensures so actor (WRestore name cs)); [done|intros; by apply outcome_fst|].
    intros c n c' (m & out & Hw)%restore_wrote. split; [|done].
    refine (owned_same so (restore m cs) out c c' cs m Hin _ Hw). right. right. left.
  - intros so name cs actor Hin. apply (write_ensures so actor (WHardDelete name cs)); [done|intros; by apply outcome_fst|].
    intros c n c' (m & out & Hw)%hard_delete_wrote. split; [|done].
    refine (owned_same so (delete m cs) out c c' cs m Hin _ Hw). left.
Qed.
End Client.

(** C19: the data client keeps the tenant contract of its callers.  Over a database that does
    what SQL says of the statements it reads, with a tenant column that holds no time and
    hooks that leave that column alone, from any client whose cache agrees with the database
    (as an empty one does, and every call keeps it) and however a call ends: a read whose
    filters name the tenant returns rows of the tenant and counts its rows, a write whose
    filters name it (or a create whose data does) leaves the rows of all others the same.
    What a statement says is read off its text, and the cache key tells tenants apart. *)
Theorem client_confined {ho : HashOrder} {D H Cell : Type} {hr : HookRunner H} (ce : ClientEnv D H Cell)
    (rows : D -> string -> list Doc) (t : string) :
  (forall v n, ce_value_len ce v = Some n -> 0 <= n) ->
  hooks_keep_tenant (H := H) ->
  (forall name m, sc_models (ce_schema ce) !! name = Some m -> is_datetime m TENANT = false) ->
  SqlTenancy (ce_getters ce) (ce_exec ce) rows t ->
  Confined (client_api ce) t (client_inv ce) (client_rows rows) /\
  forall db h cc, CacheSpec.well_configured cc -> Cache.mode cc = Cache.Strong -> client_inv ce (client_start db h cc).
Proof.
  intros Hl Hh Hp Hs. split; [by apply client_keeps_contract|]. intros db h cc Hw Hm. by apply start_coherent.
Qed.

(** ** A database of two tenants *)

(** The rows of [acme] can be read, added and removed, those of others only be there. *)
Module AcmeDb.
#[local] Existing Instance enum_order.
#[local] Existing Instance noop_hooks.
Import NoteDb.
#[local] Open Scope string_scope.

Definition acme : string := "acme".
Definition acme_row : list (Column Value) := [mkColumn TENANT "TEXT" (VString acme)].
Definition acme_rows (d : list string) : list (list (Column Value)) := (fun _ => acme_row) <$> filter (.= acme) d.
Definition count_row (d : list string) : list (Column Value) :=
  [mkColumn "count" "INT8" (json_int (Z.of_nat (length (filter (.= acme) d))))].

Definition word (t : option token) : string := match t with Some (TWord w) => w | _ => "" end.
Definition acme_exec (_ : option string) (q : string * list Arg) (d : list string)
    : (list (list (Column Value)) * list string) + string :=
  match lex q.1, q.2 with
  | Some ts, [AText s] =>
      if decide (s = acme) then
        let w := word (ts !! 0%nat) in
        if decide (w = "SELECT") then inl (if decide (word (ts !! 1%nat) = "COUNT") then [count_row d] else acme_rows d, d)
        else if decide (w = "INSERT") then inl ([acme_row], (d ++ [acme])%list)
        else if decide (w = "DELETE") then inl (acme_rows d, filter (fun s => s <> acme) d)
        else inl (acme_rows d, d)
      else inr "permission denied"
  | _, _ => inr "permission denied"
  end.

Definition row_of (s : string) : Doc := {[TENANT := VString s]}.
Definition db_rows (d : list string) (_ : string) : list Doc := row_of <$> d.
Definition acme_env : ClientEnv (list string) unit Value := @mkClientEnv (list string) unit Value note_schema history_config_default false
  value_getters acme_exec no_fault (fun _ => Some 1) Z.of_nat (fun _ => "t") (fun _ => "u") (fun _ => 0) (fun _ => 0)
  TaggedText.tagged.

Lemma rows_acme d : Forall (owned acme) (row_to_map value_getters <$> acme_rows d).
Proof. apply Forall_fmap, Forall_fmap, Forall_true. done. Qed.
Lemma others_acme d table : others db_rows acme d table = row_of <$> filter (fun s => s <> acme) d.
Proof.
  unfold others, db_rows. induction d as [|s d IH]; [done|]. rewrite fmap_cons, !filter_cons, IH.
  assert (owned acme (row_of s) <-> s = acme) as Ho.
  { unfold owned, row_of. rewrite lookup_singleton_eq. cbn. split; congruence. }
  destruct (decide (s <> acme)), (decide (~ owned acme (row_of s))); tauto || done.
Qed.
Lemma counted d : exists hits, hits ⊆+ db_rows d "notes" /\ Forall (owned acme) hits /\
  count_of_row value_getters (count_row d) = Z.of_nat (length hits).
Proof.
  exists (row_of <$> filter (.= acme) d). split; [|split].
  - apply fmap_submseteq, sublist_submseteq, sublist_filter.
  - apply Forall_fmap, Forall_forall. intros s [-> _]%list_elem_of_filter. done.
  - rewrite length_fmap. unfold count_row. generalize (length (filter (.= acme) d)). intros n. unfold json_int.
    rewrite decide_True by lia. by destruct n.
Qed.

(** A statement is answered only if [acme] is what it binds, and then by its first words. *)
Lemma answered b sql args ts d r : lexes sql ts -> acme_exec b (sql, args) d = inl r -> args = [AText acme] /\
  r = (let w := word (ts !! 0%nat) in
       if decide (w = "SELECT") then (if decide (word (ts !! 1%nat) = "COUNT") then [count_row d] else acme_rows d, d)
       else if decide (w = "INSERT") then ([acme_row], (d ++ [acme])%list)
       else if decide (w = "DELETE") then (acme_rows d, filter (fun s => s <> acme) d)
       else (acme_rows d, d)).
Proof.
  unfold lexes, acme_exec. cbn [fst snd]. intros ->. destruct args as [|[] [|? ?]]; try done. destruct (decide (s = acme)) as [->|]; [|done].
  cbv zeta. repeat case_decide; by intros [= <-].
Qed.
Lemma bound_acme (args : list Arg) k t : args = [AText acme] -> args !! k = Some (AText t) -> t = acme.
Proof. intros ->. destruct k as [|k]; [by intros [= <-]|done]. Qed.
Lemma acme_lawful t : SqlTenancy value_getters acme_exec db_rows t.
Proof.
  split.
  - intros b sql args ts table rest d out d' Hl -> (_ & ? & ? & k & _ & _ & _ & Hk) E. apply (answered _ _ _ _ _ _ Hl) in E as [Ha E].
    rewrite (bound_acme _ _ _ Ha Hk). injection E as -> _. apply rows_acme.
  - intros b sql args ts table rest d row out d' Hl -> (_ & ? & ? & k & _ & _ & _ & Hk) E. apply (answered _ _ _ _ _ _ Hl) in E as [Ha E].
    rewrite (bound_acme _ _ _ Ha Hk). injection E as -> _ _. apply counted.
  - intros b sql args table cols values d out d' Hl _ E. apply (answered _ _ _ _ _ _ Hl) in E as [Ha E]. injection E as -> ->. split.
    { intros u. unfold others, db_rows. rewrite fmap_app, filter_app. by apply submseteq_inserts_r. }
    intros i k _ _ Hk. rewrite (bound_acme _ _ _ Ha Hk). split; [|by repeat constructor]. intros u.
    by rewrite !others_acme, filter_app, filter_cons, decide_False, filter_nil, app_nil_r by tauto.
  - intros b sql args ts table cols values rest d out d' Hl -> _ _ (_ & ? & ? & k & _ & _ & _ & Hk) E.
    apply (answered _ _ _ _ _ _ Hl) in E as [Ha E]. rewrite (bound_acme _ _ _ Ha Hk). injection E as -> ->.
    split; [done|]. intros _. split; [done|]. intros _ _. apply rows_acme.
  - intros b sql args ts table rest d out d' Hl -> (_ & ? & ? & k & _ & _ & _ & Hk) E u.
    apply (answered _ _ _ _ _ _ Hl) in E as [Ha E]. rewrite (bound_acme _ _ _ Ha Hk). injection E as -> ->.
    by rewrite !others_acme, list_filter_filter_l.
Qed.

Lemma acme_hooks : hooks_keep_tenant (H := unit).
Proof. intros name ctx h d h'. cbn. by intros [= <- _]. Qed.
Lemma acme_plain name m : sc_models note_schema !! name = Some m -> is_datetime m TENANT = false.
Proof. cbn. intros [_ <-]%lookup_singleton_Some. done. Qed.

Definition acme_client (d : list string) : Client (list string) unit := client_start (mkDb d log_new) tt Cache.config_default.

Lemma client_confined_witness :
  Confined (client_api acme_env) acme (client_inv acme_env) (client_rows db_rows) /\
  client_inv acme_env (acme_client ["acme"; "globex"; "acme"]) /\
  ((api_count (DataApi := client_api acme_env) no_scope "Note" (scope_by_tenant [] (Some acme))
      (acme_client ["acme"; "globex"; "acme"])).1 = inl 2).
Proof.
  destruct (client_confined acme_env db_rows acme) as [H1 H2].
  - intros v n [= <-]. lia.
  - apply acme_hooks.
  - apply acme_plain.
  - apply acme_lawful.
  - split; [exact H1|]. split; [apply H2; [apply ClientExamples.default_ok|done]|vm_compute; reflexivity].
Defined.
End AcmeDb.
