(* ===== verification/TableWorld.v ===== *)
(** * A data interface over a list of rows

    The smallest [DataApi] that keeps its contract: one table held in memory, filtered by
    equality.  The examples and witnesses about the handlers run on it. *)

From S2P Require Import Prelude Json StateM SchemaTypes Query SqlBuilder DataClient DataApi Tenancy.

(** ** Filters *)

Definition row_matches (r : Doc) (c : WhereClause) : bool :=
  match wc_operator c, value_as_str (wc_value c) with
  | Equals, Some s => bool_decide ((r !! wc_field c) ≫= value_as_str = Some s)
  | _, _ => false
  end.
Definition row_selected (cs : list WhereClause) (r : Doc) : bool := forallb (row_matches r) cs.

Lemma selected_owned t cs r : tenant_clause t ∈ cs -> row_selected cs r = true -> owned t r.
Proof.
  intros Hin Hs. unfold row_selected in Hs. rewrite forallb_forall in Hs.
  specialize (Hs _ (proj1 (list_elem_of_In _ _) Hin)). unfold row_matches in Hs. cbn in Hs. apply bool_decide_eq_true in Hs.
  exact Hs.
Qed.

(** The columns an input document writes *)
Definition columns_of (data : Doc) : Doc := list_to_map ((fun p => (to_snake_case p.1, p.2)) <$> map_to_list data).

Lemma columns_tenant data : ~ sets_tenant data -> columns_of data !! TENANT = None.
Proof.
  intros Hn. apply not_elem_of_list_to_map. rewrite <- list_fmap_compose. intros ((k & v) & E & Hin)%list_elem_of_fmap.
  apply elem_of_map_to_list in Hin. apply Hn. exists k. split; [by exists v|done].
Qed.

(** ** The interface *)

Section Table.
Variable sc : Schema.

Definition selected (cs : list WhereClause) (w : list Doc) : list Doc := filter (row_selected cs) w.
Definition page {A} (l o : option nat) (rs : list A) : list A :=
  let rs := drop (default 0%nat o) rs in match l with Some n => take n rs | None => rs end.
Definition written (cs : list WhereClause) (data : Doc) (r : Doc) : Doc :=
  if row_selected cs r then columns_of data ∪ r else r.

Definition refused {A} (name action : string) (role : option string) (m : Comp (list Doc) ClientError A)
    : Comp (list Doc) ClientError A :=
  match enforce_access sc name action role with Some e => throw e | None => m end.
Definition table_api : DataApi (list Doc) := {|
  api_schema := sc;
  api_find_many _ _ cs _ l o := asks (fun w => page l o (selected cs w));
  api_find_unique _ _ cs := asks (fun w => head (selected cs w));
  api_count _ _ cs := asks (fun w => Z.of_nat (length (selected cs w)));
  api_find_deleted _ _ _ _ _ _ := mret [];
  api_count_deleted _ _ _ := mret 0;
  api_create _ role name data _ := refused name "create" role (step (fun w => (data, w ++ [data])));
  api_update _ role name cs data _ := refused name "update" role
    (step (fun w => ((fun r => columns_of data ∪ r) <$> selected cs w, written cs data <$> w)));
  api_delete _ role name cs _ := refused name "delete" role
    (step (fun w => (length (selected cs w), filter (fun r => row_selected cs r = false) w)));
  api_restore _ _ _ _ := mret 0%nat;
  api_hard_delete _ _ cs _ :=
    step (fun w => (length (selected cs w), filter (fun r => row_selected cs r = false) w))
|}.

(** ** Its contract *)

Variable t : string.
Definition table_rows (w : list Doc) (_ : string) : list Doc := w.
#[local] Abbreviation readp := (read_post (fun _ => True) table_rows).
#[local] Abbreviation writep := (write_post t (fun _ => True) table_rows).

Lemma selected_all cs w : tenant_clause t ∈ cs -> Forall (owned t) (selected cs w).
Proof.
  intros Hin. apply Forall_forall. intros r [Hs _]%list_elem_of_filter. eapply selected_owned; [done|]. by apply Is_true_true.
Qed.
Lemma page_all {A} (P : A -> Prop) l o rs : Forall P rs -> Forall P (page l o rs).
Proof.
  intros HF. unfold page. destruct l; [apply Forall_take|]; by apply Forall_drop.
Qed.
Lemma written_selected cs data r : row_selected cs r = true -> written cs data r = columns_of data ∪ r.
Proof. unfold written. by intros ->. Qed.
Lemma written_other cs data r : row_selected cs r = false -> written cs data r = r.
Proof. unfold written. by intros ->. Qed.
Lemma written_foreign cs data (w : list Doc) :
  tenant_clause t ∈ cs -> filter (fun r => ~ owned t r) w ⊆+ filter (fun r => ~ owned t r) (written cs data <$> w).
Proof.
  intros Hin. induction w as [|r w IH]; [done|]. rewrite fmap_cons, !filter_cons.
  destruct (row_selected cs r) eqn:E.
  - rewrite (decide_False (P := ~ owned t r)) by (pose proof (selected_owned _ _ _ Hin E); tauto).
    destruct (decide _); [by apply submseteq_cons|done].
  - rewrite (written_other _ _ _ E). destruct (decide _); [by apply submseteq_skip|done].
Qed.
Lemma written_same cs data (w : list Doc) :
  tenant_clause t ∈ cs -> ~ sets_tenant data ->
  filter (fun r => ~ owned t r) (written cs data <$> w) = filter (fun r => ~ owned t r) w.
Proof.
  intros Hin Hn. induction w as [|r w IH]; [done|]. rewrite fmap_cons, !filter_cons, IH.
  destruct (row_selected cs r) eqn:E; [|by rewrite (written_other _ _ _ E)]. rewrite (written_selected _ _ _ E). pose proof (selected_owned _ _ _ Hin E) as Ho.
  rewrite !decide_False; [done|tauto|]. intros H. apply H. unfold owned. rewrite lookup_union_r by by apply columns_tenant.
  exact Ho.
Qed.
Lemma removed_same cs (w : list Doc) :
  tenant_clause t ∈ cs ->
  filter (fun r => ~ owned t r) (filter (fun r => row_selected cs r = false) w) = filter (fun r => ~ owned t r) w.
Proof.
  intros Hin. induction w as [|r w IH]; [done|]. rewrite !filter_cons. destruct (decide (row_selected cs r = false)) as [E|E].
  - rewrite filter_cons, IH. done.
  - rewrite IH, decide_False; [done|]. intros H. apply H. eapply selected_owned; [done|]. by destruct (row_selected cs r).
Qed.

Lemma refused_ensures {A} name action role (m : Comp (list Doc) ClientError A) good :
  ensures (fun _ => True) m (writep good) -> ensures (fun _ => True) (refused name action role m) (writep good).
Proof. intros Hm. unfold refused. destruct (enforce_access _ _ _ _); [by intros w _; split|done]. Qed.

Lemma removal_ensures cs : tenant_clause t ∈ cs ->
  ensures (fun _ => True) (step (fun w => (length (selected cs w), filter (fun r => row_selected cs r = false) w)) : Comp _ ClientError _)
    (writep (fun _ => True)).
Proof.
  intros Hin w _. cbn. split; [done|]. split; [|done]. intros tb. unfold foreign, table_rows. by rewrite removed_same.
Qed.

Lemma table_confined : Confined table_api t (fun _ => True) table_rows.
Proof.
  split; cbn -[selected page written].
  - intros _ _ cs _ l o Hin w _. cbn. split; [done|]. split; [done|]. by apply page_all, selected_all.
  - intros _ _ cs Hin w _. split; [done|]. split; [done|]. cbn. intros r Hr.
    pose proof (selected_all cs w Hin) as HF. destruct (selected cs w) as [|x l]; [done|]. injection Hr as ->. by inversion HF.
  - intros _ _ cs Hin w _. split; [done|]. split; [done|]. cbn. exists EmptyString, (selected cs w).
    split; [|split; [by apply selected_all|done]]. apply sublist_submseteq, sublist_filter.
  - intros. intros w _. cbn. split_and!; [done|done|constructor].
  - intros. intros w _. split; [done|]. split; [done|]. cbn. exists EmptyString, []. split; [|done]. apply submseteq_nil_l.
  - intros _ role name data _ Ht. apply refused_ensures. intros w _. split; [done|].
    assert (owned t data) as Ho by (unfold owned; by rewrite Ht). cbn. split; [|done].
    intros tb. unfold foreign, table_rows. rewrite filter_app, filter_cons, decide_False by tauto. by rewrite filter_nil, app_nil_r.
  - intros _ role name data _ w _. unfold refused. destruct (enforce_access _ _ _ _); [done|]. split; [done|].
    intros tb. unfold foreign, table_rows. cbn. rewrite filter_app. by apply submseteq_inserts_r.
  - intros _ role name cs data _ Hin Hn. apply refused_ensures. intros w _. cbn -[selected written]. split; [done|]. split.
    { intros tb. unfold foreign, table_rows. by rewrite written_same. }
    apply Forall_fmap. eapply Forall_impl; [by apply selected_all|]. intros r Ho. cbn. unfold owned.
    rewrite lookup_union_r by by apply columns_tenant. exact Ho.
  - intros _ role name cs data _ Hin w _. unfold refused. destruct (enforce_access _ _ _ _); [done|]. split; [done|].
    intros tb. by apply written_foreign.
  - intros _ role name cs _ Hin. by apply refused_ensures, removal_ensures.
  - intros. intros w _. by repeat split.
  - intros _ _ cs _ Hin. by apply removal_ensures.
Qed.

Lemma table_enforcing : Enforcing table_api.
Proof.
  split; intros * He; unfold api_enforce in He; cbn [api_schema api_create api_update api_delete table_api] in *; unfold refused;
    rewrite He; [done|by eexists..].
Qed.
End Table.
