(* ===== verification/GraphQl.v ===== *)
(** * The GraphQL resolvers ([atomo/src/graphql.rs])

    Queries, mutations and the subscription of the service schema over a [DataApi]; the
    context data of a request (role, user, tenant) is a record.  Parsing and executing
    GraphQL documents is the [async-graphql] crate's and not modelled. *)

From S2P Require Import Prelude StateM Json SchemaTypes Query SqlBuilder DataClient DataApi Tenancy TableWorld.
From S2P Require Validation.

(** ** The context of a request *)

Record GqlCtx : Type := mkCtx {
  cx_role : option string;      (* [UserRoleCtx] *)
  cx_user : option string;      (* [UserIdCtx] *)
  cx_tenant : option string;    (* [TenantCtx] *)
  cx_scope : Scope              (* the task-locals around the execution *)
}.
Definition anonymous : GqlCtx := mkCtx None None None no_scope.

Inductive GqlError : Type :=
  | GForbidden (message : string)
  | GUnauthorized (message : string)
  | GValidation (errors : list Validation.ValidationError)
  | GClient (e : ClientError)
  | GMessage (message : string).

Definition check_access (sc : Schema) (model_name action : string) (ctx : GqlCtx) : option GqlError :=
  match sc_models sc !! model_name ≫= m_access with
  | None => None
  | Some a =>
      match access_decide a action (cx_role ctx) with
      | Allow => None
      | Forbidden => Some (GForbidden ("Access denied for '" +:+ action +:+ "' on '" +:+ model_name +:+ "'"))
      | NeedsAuth => Some (GUnauthorized "Authentication required")
      end
  end.

(** ** Arguments *)

(** Exactly one of the two *)
Definition resolve_where (id : option string) (where_ : option Value) : Value + GqlError :=
  match id, where_ with
  | Some id, None => inl (json_object [("id"%string, VString id)])
  | None, Some w => inl w
  | Some _, Some _ => inr (GMessage "Provide either `id` or `where`, not both")
  | None, None => inr (GMessage "Either `id` or `where` must be provided")
  end.

Definition underscore : Ascii.ascii := Ascii.ascii_of_nat 95.
Definition ascii_upper (a : Ascii.ascii) : Ascii.ascii :=
  let n := Ascii.nat_of_ascii a in if ((97 <=? n) && (n <=? 122))%nat then Ascii.ascii_of_nat (n - 32) else a.

(** Of ASCII names *)
Fixpoint snake_to_camel_go (upper_next : bool) (s : string) : string :=
  match s with
  | EmptyString => EmptyString
  | String c r =>
      if Ascii.eqb c underscore then snake_to_camel_go true r
      else if upper_next then String (ascii_upper c) (snake_to_camel_go false r)
      else String c (snake_to_camel_go false r)
  end.
Definition snake_to_camel (s : string) : string := snake_to_camel_go false s.

Section Keys.
Context {ho : HashOrder}.

(** [into_iter().map(..).collect()]: of keys that coincide the last one is kept. *)
Definition map_keys (f : string -> string) (m : Doc) : Doc :=
  foldl (fun acc p => <[f p.1 := p.2]> acc) ∅ (hpairs m).

Definition camel_keys (record : Doc) : Doc := map_keys snake_to_camel record.

(** The schema's name of a key, whichever case it came in *)
Definition canonical_key (m : Model) (k : string) : string :=
  if decide (is_Some (m_fields m !! k)) then k
  else match filter (fun f => to_snake_case f = to_snake_case k) (hkeys (m_fields m)) with
       | f :: _ => f
       | [] => k
       end.
Definition normalize_input_keys (data : Doc) (sc : Schema) (model_name : string) : Doc :=
  match sc_models sc !! model_name with
  | None => data
  | Some m => map_keys (canonical_key m) data
  end.
End Keys.

Definition operator_of (op : string) (val : Value) : option WhereOperator :=
  if decide (op ∈ ["equals"; "eq"]%string) then Some Equals
  else if decide (op ∈ ["not"; "neq"]%string) then Some NotEquals
  else if decide (op ∈ ["contains"; "like"]%string) then Some Contains
  else if decide (op = "startsWith"%string) then Some StartsWith
  else if decide (op = "endsWith"%string) then Some EndsWith
  else if decide (op = "gt"%string) then Some GreaterThan
  else if decide (op = "gte"%string) then Some GreaterThanOrEqual
  else if decide (op = "lt"%string) then Some LessThan
  else if decide (op = "lte"%string) then Some LessThanOrEqual
  else if decide (op = "in"%string) then Some In
  else if decide (op = "notIn"%string) then Some NotIn
  else if decide (op = "isNull"%string) then
    Some (match val with VBool false => IsNotNull | _ => IsNull end)
  else None.

(** Unknown operators are skipped. *)
Definition parse_condition (field : string) (condition : Value) : list WhereClause :=
  match condition with
  | VObject ops =>
      omap (fun p => (fun op => mkWhere field op p.2) <$> operator_of p.1 p.2) ops
  | v => [mkWhere field Equals v]
  end.
Definition parse_where (where_json : Value) : list WhereClause :=
  match where_json with
  | VObject fields => fields ≫= fun p => parse_condition p.1 p.2
  | _ => []
  end.

Definition parse_direction (dir : Value) : OrderDirection :=
  if decide (to_ascii_lowercase (default "asc"%string (value_as_str dir)) = "desc"%string) then Desc else Asc.
Definition parse_order_by (order_json : Value) : list (string * OrderDirection) :=
  match order_json with
  | VObject fields => (fun p => (p.1, parse_direction p.2)) <$> fields
  | VArray items =>
      omap (fun item =>
        match item with
        | VObject obj =>
            Some (default EmptyString (assoc "field" obj ≫= value_as_str),
                  parse_direction (default VNull (assoc "direction" obj)))
        | _ => None
        end) items
  | _ => []
  end.

(** [l as usize] of an [i32], and back *)
Definition as_usize (l : Z) : nat := Z.to_nat (wrap_u64 l).
Definition as_i32 (n : Z) : Z := let m := wrap_u32 n in if m <? 2 ^ 31 then m else m - 2 ^ 32.

Record PageInfo : Type := mkPage {
  pg_total : Z; pg_next : bool; pg_previous : bool; pg_size : Z; pg_offset : Z
}.
Record PaginatedRecords : Type := mkPaginated { pr_data : list Doc; pr_page : PageInfo }.

Definition page_info (total_count lim off : Z) : PageInfo :=
  mkPage total_count (bool_decide (wrap_u64 (wrap_u64 off + wrap_u64 lim) < wrap_u64 total_count))
    (bool_decide (0 < wrap_u64 off)) (as_i32 lim) (as_i32 off).

(** ** Queries *)

Section Resolvers.
Context {ho : HashOrder} {W : Type} {api : DataApi W}.

Definition Gql (A : Type) : Type := Comp W GqlError A.
Definition client {A} (m : Comp W ClientError A) : Gql A := with_error GClient m.
Definition guard (model action : string) (ctx : GqlCtx) : Gql unit :=
  check (check_access api_schema model action ctx).

(** The filter of a request, narrowed to its tenant *)
Definition scoped (ctx : GqlCtx) (where_json : Value) : list WhereClause :=
  scope_by_tenant (parse_where where_json) (cx_tenant ctx).
Definition scoped_opt (ctx : GqlCtx) (where_ : option Value) : list WhereClause :=
  scope_by_tenant (default [] (parse_where <$> where_)) (cx_tenant ctx).
Definition orders (order_by : option Value) : list (string * OrderDirection) :=
  default [] (parse_order_by <$> order_by).

Definition records (ctx : GqlCtx) (model : string) (where_ order_by : option Value) (limit offset : option Z)
    : Gql (list Doc) :=
  guard model "read" ctx ;;
  result ← client (api_find_many (cx_scope ctx) model (scoped_opt ctx where_) (orders order_by)
                     (as_usize <$> limit) (as_usize <$> offset));
  mret (camel_keys <$> result).

(** A count that fails is taken for none. *)
Definition count_or_zero (m : Comp W ClientError Z) : Gql Z :=
  r ← try m; mret (match r with inl n => n | inr _ => 0 end).

Definition deleted_records (ctx : GqlCtx) (model : string) (where_ order_by : option Value)
    (limit offset : option Z) : Gql PaginatedRecords :=
  guard model "read" ctx ;;
  let lim := default 20 limit in
  let off := default 0 offset in
  let cs := scoped_opt ctx where_ in
  data ← client (api_find_deleted (cx_scope ctx) model cs (orders order_by) (Some (as_usize lim)) (Some (as_usize off)));
  total_count ← count_or_zero (api_count_deleted (cx_scope ctx) model cs);
  mret (mkPaginated (camel_keys <$> data) (page_info total_count lim off)).

Definition record (ctx : GqlCtx) (model id : string) : Gql (option Doc) :=
  guard model "read" ctx ;;
  result ← client (api_find_unique (cx_scope ctx) model (scope_by_tenant (by_field "id" id) (cx_tenant ctx)));
  mret (camel_keys <$> result).

Definition paginated_records (ctx : GqlCtx) (model : string) (where_ order_by : option Value)
    (limit offset : option Z) : Gql PaginatedRecords :=
  guard model "read" ctx ;;
  let lim := default 20 limit in
  let off := default 0 offset in
  let cs := scoped_opt ctx where_ in
  data ← client (api_find_many (cx_scope ctx) model cs (orders order_by) (Some (as_usize lim)) (Some (as_usize off)));
  total_count ← count_or_zero (api_count (cx_scope ctx) model cs);
  mret (mkPaginated (camel_keys <$> data) (page_info total_count lim off)).

(** ** Mutations *)

(** Without rules of its own a model requires its mandatory fields. *)
Definition create_rules (m : Model) : gmap string string :=
  if decide (m_validation m = ∅) then
    (fun _ => "required"%string) <$>
      filter (fun p : string * Field => f_optional p.2 = false /\
                f_name p.2 ∉ ["id"; "createdAt"; "updatedAt"]%string) (m_fields m)
  else m_validation m.
Definition create_errors (model : string) (data : Doc) : option GqlError :=
  match sc_models api_schema !! model with
  | None => None
  | Some m => match Validation.validate data (create_rules m) with [] => None | es => Some (GValidation es) end
  end.

Definition create (ctx : GqlCtx) (model : string) (data : Doc) : Gql Doc :=
  guard model "create" ctx ;;
  let data := normalize_input_keys data api_schema model in
  let data := match cx_tenant ctx with Some t => <["tenant_id"%string := VString t]> data | None => data end in
  check (create_errors model data) ;;
  result ← client (api_create (cx_scope ctx) (cx_role ctx) model data (cx_user ctx));
  mret (camel_keys result).

Definition update (ctx : GqlCtx) (model : string) (id : option string) (where_ : option Value) (data : Doc)
    : Gql (option Doc) :=
  guard model "update" ctx ;;
  let data := normalize_input_keys data api_schema model in
  w ← of_sum (resolve_where id where_);
  results ← client (api_update (cx_scope ctx) (cx_role ctx) model (scoped ctx w) data (cx_user ctx));
  mret (camel_keys <$> head results).

(** One entry of a bulk update *)
Definition update_entry (ctx : GqlCtx) (model : string) (entry : string * Value) : Gql (list Doc) :=
  let cs := scoped ctx (json_object [("id"%string, VString entry.1)]) in
  data ← of_option (map_of_object entry.2) (GMessage "Each update's `data` must be a JSON object");
  let data := normalize_input_keys data api_schema model in
  results ← client (api_update (cx_scope ctx) (cx_role ctx) model cs data (cx_user ctx));
  mret (option_list (camel_keys <$> head results)).
Definition update_many (ctx : GqlCtx) (model : string) (updates : list (string * Value)) : Gql (list Doc) :=
  guard model "update" ctx ;;
  out ← collect (update_entry ctx model) updates;
  mret (mjoin out).

(** [count as i32] *)
Definition delete (ctx : GqlCtx) (model : string) (id : option string) (where_ : option Value) : Gql Z :=
  guard model "delete" ctx ;;
  w ← of_sum (resolve_where id where_);
  n ← client (api_delete (cx_scope ctx) (cx_role ctx) model (scoped ctx w) (cx_user ctx));
  mret (as_i32 (Z.of_nat n)).
Definition restore (ctx : GqlCtx) (model : string) (id : option string) (where_ : option Value) : Gql Z :=
  guard model "delete" ctx ;;
  w ← of_sum (resolve_where id where_);
  n ← client (api_restore (cx_scope ctx) model (scoped ctx w) (cx_user ctx));
  mret (as_i32 (Z.of_nat n)).
Definition hard_delete (ctx : GqlCtx) (model : string) (id : option string) (where_ : option Value) : Gql Z :=
  guard model "delete" ctx ;;
  w ← of_sum (resolve_where id where_);
  n ← client (api_hard_delete (cx_scope ctx) model (scoped ctx w) (cx_user ctx));
  mret (as_i32 (Z.of_nat n)).

(** ** Subscription *)

Definition subscription_denied (model : string) (ctx : GqlCtx) : option GqlError :=
  match sc_models api_schema !! model ≫= m_access with
  | None => None
  | Some a =>
      match access_decide a "read" (cx_role ctx) with
      | Allow => None
      | Forbidden => Some (GForbidden ("Subscription denied: read access to '" +:+ model +:+ "'"))
      | NeedsAuth => Some (GUnauthorized "Authentication required to subscribe")
      end
  end.

(** What the subscriber is sent of one item of the stream; lag is skipped. *)
Definition stream_item (tenant : option string) (model : string) (r : Received) : option ModelEvent :=
  match r with
  | REvent e =>
      if bool_decide (ev_model e = model) &&
         match tenant with
         | Some tid => bool_decide ((ev_data e !! "tenant_id"%string) ≫= value_as_str = Some tid)
         | None => true
         end
      then Some (mkModelEvent (ev_type e) (ev_model e) (camel_keys (ev_data e)) (camel_keys <$> ev_previous e)
                   (ev_timestamp e) (ev_id e) (ev_actor e) (ev_origin e))
      else None
  | _ => None
  end.
Definition model_changes (ctx : GqlCtx) (model : string) (rx : list Received) : list ModelEvent + GqlError :=
  match subscription_denied model ctx with
  | Some e => inr e
  | None => inl (omap (stream_item (cx_tenant ctx) model) rx)
  end.
End Resolvers.

(** * What the resolvers promise: tenants, access, arguments

    A request that carries a tenant sees and changes that tenant's rows only, for any
    lawful data interface; what is not promised (requests without a tenant, updates that set
    the tenant, bulk updates) is among the examples, on a table held in memory. *)

(** ** Requests *)

Inductive GqlOp : Type :=
  | ORecords (model : string) (where_ order_by : option Value) (limit offset : option Z)
  | ODeletedRecords (model : string) (where_ order_by : option Value) (limit offset : option Z)
  | ORecord (model id : string)
  | OPaginated (model : string) (where_ order_by : option Value) (limit offset : option Z)
  | OCreate (model : string) (data : Doc)
  | OUpdate (model : string) (id : option string) (where_ : option Value) (data : Doc)
  | OUpdateMany (model : string) (updates : list (string * Value))
  | ODelete (model : string) (id : option string) (where_ : option Value)
  | ORestore (model : string) (id : option string) (where_ : option Value)
  | OHardDelete (model : string) (id : option string) (where_ : option Value).

Inductive GqlReply : Type :=
  | RRecords (docs : list Doc) | RPage (page : PaginatedRecords) | RRecord (doc : option Doc) | RCount (n : Z).

Section Spec.
Context {ho : HashOrder} {W : Type} {api : DataApi W}.

Definition resolve (ctx : GqlCtx) (op : GqlOp) : Gql (W := W) GqlReply :=
  match op with
  | ORecords m w ob l o => r ← records ctx m w ob l o; mret (RRecords r)
  | ODeletedRecords m w ob l o => r ← deleted_records ctx m w ob l o; mret (RPage r)
  | ORecord m id => r ← record ctx m id; mret (RRecord r)
  | OPaginated m w ob l o => r ← paginated_records ctx m w ob l o; mret (RPage r)
  | OCreate m data => r ← create ctx m data; mret (RRecord (Some r))
  | OUpdate m id w data => r ← update ctx m id w data; mret (RRecord r)
  | OUpdateMany m us => r ← update_many ctx m us; mret (RRecords r)
  | ODelete m id w => r ← delete ctx m id w; mret (RCount r)
  | ORestore m id w => r ← restore ctx m id w; mret (RCount r)
  | OHardDelete m id w => r ← hard_delete ctx m id w; mret (RCount r)
  end.

(** The update writes the tenant's column. *)
Definition entry_moves (m : string) (e : string * Value) : Prop :=
  exists data, map_of_object e.2 = Some data /\ sets_tenant (normalize_input_keys data api_schema m).
Definition moves_tenant (op : GqlOp) : Prop :=
  match op with
  | OUpdate m _ _ data => sets_tenant (normalize_input_keys data api_schema m)
  | OUpdateMany m us => Exists (entry_moves m) us
  | _ => False
  end.

(** The documents of a reply, each a row of the tenant with its keys in camel case *)
Definition shown (t : string) (docs : list Doc) : Prop :=
  exists rs, docs = camel_keys <$> rs /\ Forall (owned t) rs.
Definition reply_owned (rows : W -> string -> list Doc) (t : string) (w : W) (r : GqlReply) : Prop :=
  match r with
  | RRecords docs => shown t docs
  | RPage p => shown t (pr_data p) /\ (pg_total (pr_page p) = 0 \/ counts_owned t rows w (pg_total (pr_page p)))
  | RRecord o => shown t (option_list o)
  | RCount _ => True
  end.

Lemma shown_list t rs : Forall (owned t) rs -> shown t (camel_keys <$> rs).
Proof. by exists rs. Qed.
Lemma shown_option t (o : option Doc) : (forall r, o = Some r -> owned t r) -> shown t (option_list (camel_keys <$> o)).
Proof.
  intros Ho. exists (option_list o). destruct o as [r|]; [|done]. split; [done|]. apply Forall_singleton. by apply Ho.
Qed.
Lemma shown_app t l1 l2 : shown t l1 -> shown t l2 -> shown t (l1 ++ l2).
Proof. intros (r1 & -> & H1) (r2 & -> & H2). exists (r1 ++ r2). by rewrite fmap_app, Forall_app. Qed.
Lemma head_owned t rs : Forall (owned t) rs -> forall r, head rs = Some r -> owned t r.
Proof. intros HF r. destruct rs as [|x rs]; [done|]. intros [= ->]. by inversion HF. Qed.

(** ** Confinement *)

Context (t : string) (inv : W -> Prop) (rows : W -> string -> list Doc).
Hypothesis api_ok : Confined api t inv rows.

#[local] Abbreviation conf P m good := (conf t inv rows P m good).
#[local] Abbreviation spares m := (spares t inv rows m).
#[local] Abbreviation any := (fun _ : W => True).

Lemma conf_count (m : Comp W ClientError Z) :
  ensures inv m (read_post inv rows (counts_owned t rows)) ->
  conf any (count_or_zero m) (fun n w => n = 0 \/ counts_owned t rows w n).
Proof.
  intros Hm. unfold count_or_zero.
  apply (conf_bind _ _ _ _ _ _ (fun r w => match r with inl n => counts_owned t rows w n | inr _ => True end)).
  - intros w [Hi _]. destruct (Hm w Hi) as (H1 & H2 & H3). unfold try. destruct (m w) as [r w1]. cbn in *.
    split_and!; [done|by apply rows_foreign_same|]. destruct r as [n|]; [|done].
    destruct H3 as (tb & hits & Hs & Hf & ->). exists tb, hits. by rewrite H2.
  - intros r. apply conf_ret. intros w Hw. destruct r; [by right|by left].
Qed.

Variable ctx : GqlCtx.
Hypothesis tenant_request : cx_tenant ctx = Some t.

Lemma scoped_in w : tenant_clause t ∈ scoped ctx w.
Proof. unfold scoped. rewrite tenant_request. apply scoped_clause. Qed.
Lemma scoped_opt_in w : tenant_clause t ∈ scoped_opt ctx w.
Proof. unfold scoped_opt. rewrite tenant_request. apply scoped_clause. Qed.

(** A resolver: a guard, then the rest *)
Lemma conf_guard {A} m a (k : Gql A) good : conf any k good -> conf any (guard m a ctx ;; k) good.
Proof. intros Hk. eapply conf_bind; [apply conf_check|]. intros u. exact Hk. Qed.
Lemma conf_records m w ob l o : conf any (records ctx m w ob l o) (fun docs _ => shown t docs).
Proof.
  apply conf_guard. eapply conf_map; [apply (conf_read _ _ _ _ _ (fun _ => Forall (owned t))); [by apply (cf_find_many _ _ _ _ api_ok), scoped_opt_in|done]|].
  intros docs w' HF. by apply shown_list.
Qed.
Lemma conf_page (data : Comp W ClientError (list Doc)) (total : Comp W ClientError Z) (page : Z -> PageInfo) :
  (forall n, pg_total (page n) = n) ->
  ensures inv data (read_post inv rows (fun _ => Forall (owned t))) ->
  ensures inv total (read_post inv rows (counts_owned t rows)) ->
  conf any (docs ← client data; n ← count_or_zero total; mret (mkPaginated (camel_keys <$> docs) (page n)))
    (fun p w => reply_owned rows t w (RPage p)).
Proof.
  intros Hp Hd Ht. eapply conf_then; [by apply (conf_read _ _ _ _ _ (fun _ => Forall (owned t)))|]. intros docs HF.
  eapply conf_map; [by apply conf_count|]. intros n w' Hn. cbn. rewrite Hp. split; [by apply shown_list|done].
Qed.
Lemma conf_paginated m w ob l o :
  conf any (paginated_records ctx m w ob l o) (fun p w => reply_owned rows t w (RPage p)).
Proof.
  apply conf_guard. apply (conf_page _ _ (fun n => page_info n _ _)); [done| |].
  - by apply (cf_find_many _ _ _ _ api_ok), scoped_opt_in.
  - by apply (cf_count _ _ _ _ api_ok), scoped_opt_in.
Qed.
Lemma conf_deleted m w ob l o :
  conf any (deleted_records ctx m w ob l o) (fun p w => reply_owned rows t w (RPage p)).
Proof.
  apply conf_guard. apply (conf_page _ _ (fun n => page_info n _ _)); [done| |].
  - by apply (cf_find_deleted _ _ _ _ api_ok), scoped_opt_in.
  - by apply (cf_count_deleted _ _ _ _ api_ok), scoped_opt_in.
Qed.
Lemma conf_record m id : conf any (record ctx m id) (fun o _ => shown t (option_list o)).
Proof.
  apply conf_guard. eapply conf_map.
  { apply (conf_read _ _ _ _ _ (fun _ o => forall r, o = Some r -> owned t r)); [|done]. apply (cf_find_unique _ _ _ _ api_ok). rewrite tenant_request. apply scoped_clause. }
  intros o w' Ho. by apply shown_option.
Qed.
Lemma conf_create m data : conf any (create ctx m data) (fun r _ => shown t [r]).
Proof.
  apply conf_guard. rewrite tenant_request. eapply conf_bind; [apply conf_check|]. intros u.
  eapply conf_map; [apply conf_write, (cf_create _ _ _ _ api_ok); by rewrite lookup_insert_eq|].
  intros r w' Hr. exists [r]. split; [done|by apply Forall_singleton].
Qed.

(** Updates that do not set the tenant *)
Lemma conf_update_with m cs data :
  tenant_clause t ∈ cs -> ~ sets_tenant data ->
  conf any (client (api_update (cx_scope ctx) (cx_role ctx) m cs data (cx_user ctx)))
    (fun docs _ => shown t (option_list (camel_keys <$> head docs))).
Proof.
  intros Hin Hn. eapply conf_weaken; [by apply conf_write, (cf_update _ _ _ _ api_ok)|done|].
  intros docs w HF. apply shown_option. by apply head_owned.
Qed.
Lemma conf_update m id w data :
  ~ sets_tenant (normalize_input_keys data api_schema m) ->
  conf any (update ctx m id w data) (fun o _ => shown t (option_list o)).
Proof.
  intros Hn. apply conf_guard. eapply conf_bind; [apply conf_sum|]. intros wh.
  eapply conf_map; [apply conf_update_with; [apply scoped_in|done]|]. done.
Qed.
Lemma conf_entry m e : ~ entry_moves m e -> conf any (update_entry ctx m e) (fun docs _ => shown t docs).
Proof.
  intros Hn. unfold update_entry. destruct (map_of_object e.2) as [data|] eqn:E; [|apply conf_throw].
  cbn [of_option]. eapply (conf_then _ _ _ _ _ (.= data)); [by apply conf_ret|]. intros d ->.
  eapply conf_map; [apply conf_update_with; [apply scoped_in|]|done]. intros Hs. apply Hn. by exists data.
Qed.
Lemma conf_update_many m us :
  ~ Exists (entry_moves m) us -> conf any (update_many ctx m us) (fun docs _ => shown t docs).
Proof.
  intros Hn. apply conf_guard.
  apply (conf_map _ _ _ _ _ _ (fun ds _ => Forall (shown t) ds)).
  - induction us as [|e us IH]; [by apply conf_ret|]. cbn [collect].
    eapply conf_then; [apply conf_entry; intros He; apply Hn; by left|]. intros d Hd.
    eapply conf_map; [apply IH; intros He; apply Hn; by right|]. by constructor.
  - intros ds w HF. induction HF as [|d ds Hd HF IH]; [by exists []|]. by apply shown_app.
Qed.

(** Updates in general: the rows of others stay. *)
Lemma spares_update m cs data :
  tenant_clause t ∈ cs -> spares (client (api_update (cx_scope ctx) (cx_role ctx) m cs data (cx_user ctx))).
Proof.
  intros Hin. by apply spares_call, (cf_update_moving _ _ _ _ api_ok).
Qed.
Lemma spares_entry m e : spares (update_entry ctx m e).
Proof.
  unfold update_entry. apply spares_bind; [by destruct (map_of_object e.2)|]. intros data.
  apply spares_bind; [apply spares_update, scoped_in|intros; apply spares_ret].
Qed.
Lemma spares_update_many m us : spares (update_many ctx m us).
Proof.
  apply spares_bind; [apply spares_check|]. intros u. apply spares_bind; [|intros; apply spares_ret].
  induction us as [|e us IH]; [apply spares_ret|]. cbn [collect].
  apply spares_bind; [apply spares_entry|]. intros d. apply spares_bind; [done|]. intros; apply spares_ret.
Qed.
Lemma spares_update_one m id w data : spares (update ctx m id w data).
Proof.
  apply spares_bind; [apply spares_check|]. intros u. apply spares_bind; [apply spares_sum|]. intros wh.
  apply spares_bind; [apply spares_update, scoped_in|intros; apply spares_ret].
Qed.

Lemma conf_counted (m : Value -> Comp W ClientError nat) mo a id w :
  (forall wh, ensures inv (m wh) (write_post t inv rows (fun _ => True))) ->
  conf any (guard mo a ctx ;; wh ← of_sum (resolve_where id w); n ← client (m wh); mret (as_i32 (Z.of_nat n)))
    (fun _ _ => True).
Proof.
  intros Hm. apply conf_guard. eapply conf_bind; [apply conf_sum|]. intros wh.
  eapply conf_map; [by apply conf_write|done].
Qed.

Lemma resolve_conf op : ~ moves_tenant op -> conf any (resolve ctx op) (fun r w => reply_owned rows t w r).
Proof.
  destruct op; intros Hn; cbn [resolve].
  - eapply conf_map; [apply conf_records|done].
  - eapply conf_map; [apply conf_deleted|done].
  - eapply conf_map; [apply conf_record|done].
  - eapply conf_map; [apply conf_paginated|done].
  - eapply conf_map; [apply conf_create|done].
  - eapply conf_map; [by apply conf_update|done].
  - eapply conf_map; [by apply conf_update_many|done].
  - eapply conf_map; [apply conf_counted; intros; by apply (cf_delete _ _ _ _ api_ok), scoped_in|done].
  - eapply conf_map; [apply conf_counted; intros; by apply (cf_restore _ _ _ _ api_ok), scoped_in|done].
  - eapply conf_map; [apply conf_counted; intros; by apply (cf_hard_delete _ _ _ _ api_ok), scoped_in|done].
Qed.
Lemma resolve_spares op : spares (resolve ctx op).
Proof.
  destruct op as [| | | | |m id w data|m us| | |];
    try (eapply conf_spares, resolve_conf; by intros []); (apply spares_bind; [|intros; apply spares_ret]).
  - apply spares_update_one.
  - apply spares_update_many.
Qed.
End Spec.

(** a request with a tenant is confined to it, over any lawful data interface: whatever it
    asks for and however it ends, no row of another tenant (or of none) is changed or
    removed; unless it is an update that writes the tenant's column, the rows of others are
    the same afterwards, every document of the reply is a row of the tenant and every total
    counts rows of the tenant. *)
Theorem tenant_confined {ho : HashOrder} {W : Type} (api : DataApi W) (t : string) (inv : W -> Prop)
    (rows : W -> string -> list Doc) (ctx : GqlCtx) (op : GqlOp) (w : W) :
  Confined api t inv rows -> cx_tenant ctx = Some t -> inv w ->
  let r := (resolve ctx op w).1 in let w' := (resolve ctx op w).2 in
  inv w' /\ foreign_kept t rows w w' /\
  (~ moves_tenant op -> foreign_same t rows w w' /\
     match r with inl reply => reply_owned rows t w' reply | inr _ => True end).
Proof.
  intros Hc Ht Hi r w'. destruct (resolve_spares t inv rows Hc ctx Ht op w Hi) as [H1 H2].
  do 2 (split; [done|]). intros Hn. by destruct (resolve_conf t inv rows Hc ctx Ht op Hn w (conj Hi I)) as (_ & H3 & H4).
Qed.

(** ** On a table held in memory *)

Module TableExamples.
Existing Instance enum_order.
#[local] Open Scope string_scope.

Definition notes : Schema := mkSchema {["Note" := bare_model "Note" ∅ None]} ∅ ∅ [].
Definition note (id tenant title : string) : Doc :=
  <["id" := VString id]> (<["tenant_id" := VString tenant]> {["title" := VString title]}).
Definition two : list Doc := [note "1" "acme" "a"; note "2" "globex" "b"].
Definition of_tenant (o : option string) : GqlCtx := mkCtx (Some "Editor") (Some "u1") o no_scope.
#[local] Instance world : DataApi (list Doc) := table_api notes.
Definition titles (docs : list Doc) : list (option string) := (fun d => d !! "title" ≫= value_as_str) <$> docs.
Definition docs_of (r : GqlReply + GqlError) : list Doc := match r with inl (RRecords ds) => ds | _ => [] end.

Lemma tenant_confined_witness :
  Confined world "acme" (fun _ => True) table_rows /\
  foreign_same "acme" table_rows two (resolve (of_tenant (Some "acme")) (ODelete "Note" None (Some (VObject []))) two).2 /\
  length (resolve (of_tenant (Some "acme")) (ODelete "Note" None (Some (VObject []))) two).2 = 1%nat.
Proof.
  split; [apply table_confined|]. split; [|vm_compute; reflexivity].
  apply (tenant_confined world "acme" (fun _ => True) table_rows (of_tenant (Some "acme"))
    (ODelete "Note" None (Some (VObject []))) two (table_confined notes "acme") eq_refl I). intros [].
Defined.

(** A request whose tenant header was dropped is not narrowed to anything: it reads the
    rows of every tenant. *)
Example no_tenant_reads_all :
  titles (docs_of (resolve (of_tenant None) (ORecords "Note" None None None None) two).1) = [Some "a"; Some "b"].
Proof. vm_compute. reflexivity. Qed.

(** An update may hand a row over to another tenant. *)
Example update_moves_row :
  (fun d => d !! "tenant_id" ≫= value_as_str) <$>
    (resolve (of_tenant (Some "acme")) (OUpdate "Note" (Some "1") None {["tenantId" := VString "globex"]}) two).2 =
  [Some "globex"; Some "globex"].
Proof. vm_compute. reflexivity. Qed.

(** A bulk update that fails at its second entry has applied the first. *)
Example update_many_is_not_atomic :
  let r := resolve (of_tenant (Some "acme"))
             (OUpdateMany "Note" [("1", VObject [("title", VString "new")]); ("2", VNull)]) two in
  (exists e, r.1 = inr e) /\ titles r.2 = [Some "new"; Some "b"].
Proof. split; [by eexists|vm_compute; reflexivity]. Qed.
End TableExamples.
