(* ===== verification/JobRoutes.v ===== *)
(** * The job API ([atomo_server/src/job_routes.rs], [action_routes.rs])

    Three planes under one prefix: workers pull with a token, users enqueue and poll,
    administrators manage tokens and watch the queue.  [serve] is the router with its
    middlewares.  A statement may fail ([je_fault]); clocks and identifiers are parameters. *)

From S2P Require Import Prelude StateM Json SchemaTypes Jobs JobsSpec Workers Auth.
From S2P Require AuthSpec.

Record JobServer : Type := mkJobServer {
  js_auth : AuthDb;
  js_store : JobStore;
  js_workers : gmap string TokenRow;
  js_published : list (string * Value);     (* the progress publisher's frames *)
  js_tick : nat
}.
Definition set_store (x : JobStore) (s : JobServer) : JobServer :=
  mkJobServer (js_auth s) x (js_workers s) (js_published s) (js_tick s).
Definition set_workers (x : gmap string TokenRow) (s : JobServer) : JobServer :=
  mkJobServer (js_auth s) (js_store s) x (js_published s) (js_tick s).
#[export] Instance job_server_auth : HasAuth JobServer := {|
  auth_of := js_auth;
  with_auth a s := mkJobServer a (js_store s) (js_workers s) (js_published s) (js_tick s)
|}.

Record JobEnv : Type := mkJobEnv {
  je_now : nat -> Z;
  je_uuid : nat -> string -> string;        (* drawn for a purpose *)
  je_locked : nat -> gset string;           (* rows locked by other transactions *)
  je_fault : nat -> option string;
  je_refusal : nat -> string;               (* the text of a constraint violation *)
  je_digest : string -> list Z;
  je_rfc3339 : Z -> string;
  je_seconds : Z -> Value;                  (* microseconds as a float of seconds *)
  je_publisher : bool
}.

(** ** Statements *)

Section Routes.
Context {ho : HashOrder} {env : AuthEnv} (je : JobEnv).

Definition Db (A : Type) : Type := Comp JobServer string A.

(** One statement (or transaction): it fails as a whole or does [f]. *)
Definition statement {A} (f : nat -> JobServer -> (A + string) * JobServer) : Db A := fun s =>
  let n := js_tick s in
  let s := mkJobServer (js_auth s) (js_store s) (js_workers s) (js_published s) (S n) in
  match je_fault je n with Some e => (inr e, s) | None => f n s end.
Definition select {A} (f : nat -> JobServer -> A) : Db A := statement (fun n s => (inl (f n s), s)).
(** An operation of the store that a constraint may refuse *)
Definition change {A} (f : nat -> JobStore -> option (A * JobStore)) : Db A := statement (fun n s =>
  match f n (js_store s) with
  | Some (a, st) => (inl a, set_store st s)
  | None => (inr (je_refusal je n), s)
  end).
Definition report {A} (f : nat -> JobStore -> A * JobStore) : Db A :=
  change (fun n st => Some (f n st)).

Definition db_lease (queues : list string) (cap vis : Z) : Db (list LeasedJob) :=
  change (fun n => Jobs.lease (je_now je n) (je_uuid je n) (je_locked je n) queues cap vis).
Definition db_heartbeat (id lease_id : string) (vis : Z) : Db bool :=
  report (fun n => Jobs.heartbeat (je_now je n) id lease_id vis).
Definition db_complete (id lease_id : string) (result : Value) : Db bool :=
  report (fun n => Jobs.complete (je_now je n) id lease_id result).
Definition db_fail (id lease_id error : string) (retryable : bool) : Db (option FailOutcome) :=
  report (fun n => Jobs.fail (je_now je n) id lease_id error retryable).
Definition db_enqueue (e : Enqueue) : Db string :=
  change (fun n => Jobs.enqueue (je_now je n) (je_uuid je n "job") e).

(** *** [JobStore::list_recent] and [stats] as JSON *)

Definition recent_json (p : string * JobRow) : Value :=
  json_object [("id"%string, VString p.1); ("queue"%string, VString (j_queue p.2)); ("kind"%string, VString (j_kind p.2));
    ("status"%string, VString (status_name (j_status p.2))); ("attempts"%string, json_int (j_attempts p.2));
    ("maxAttempts"%string, json_int (j_max_attempts p.2)); ("error"%string, json_opt_string (j_error p.2));
    ("createdAt"%string, VString (je_rfc3339 je (j_created_at p.2)));
    ("updatedAt"%string, VString (je_rfc3339 je (j_updated_at p.2)))].
Definition all_statuses : list JobStatus := [Queued; Leased; Succeeded; Dead].
Definition queues_of (st : JobStore) : list string :=
  merge_sort String.le (elements (list_to_set (j_queue <$> hvalues (jobs st)) : gset string)).
(** [GROUP BY]: no row for a group without members *)
Definition status_counts (st : JobStore) : list (string * Value) :=
  omap (fun x => let n := count_status st x in
                 if decide (n = 0) then None else Some (status_name x, json_int n)) all_statuses.
Definition queue_counts (st : JobStore) : list Value :=
  queues_of st ≫= fun q => omap (fun x =>
    let n := count_queue_status st q x in
    if decide (n = 0) then None
    else Some (json_object [("queue"%string, VString q); ("status"%string, VString (status_name x)); ("count"%string, json_int n)]))
    all_statuses.
(** Three statements, each on its own snapshot *)
Definition db_stats : Db Value :=
  by_status ← select (fun _ s => status_counts (js_store s));
  by_queue ← select (fun _ s => queue_counts (js_store s));
  oldest ← select (fun n s => oldest_queued (je_now je n) (js_store s));
  mret (json_object [("byStatus"%string, json_object by_status); ("byQueue"%string, VArray by_queue);
          ("oldestQueuedSeconds"%string, match oldest with Some t => je_seconds je t | None => VNull end)]).

(** ** The worker plane *)

#[local] Abbreviation H := (Comp JobServer Response).
(** [Err(e) => 500 {error: e}] *)
Definition or_500 {A} (m : Db A) : H A := with_error (error_json 500) m.

Definition worker_auth_middleware (x_worker_token : option string) : H WorkerIdentity :=
  token ← of_option x_worker_token (error_json 401 "missing worker token");
  found ← with_error (fun _ => error_json 500 "internal server error")
            (select (fun _ s => verify (je_digest je) token (js_workers s)));
  of_option found (error_json 401 "invalid worker token").
Definition optional_worker_auth_middleware (x_worker_token : option string) : H (option WorkerIdentity) :=
  match x_worker_token with
  | None => mret None
  | Some token =>
      r ← try (select (fun _ s => verify (je_digest je) token (js_workers s)));
      mret (match r with inl found => found | inr _ => None end)
  end.

Definition default_capacity : Z := 1.
Definition default_visibility : Z := 30.
Definition default_max_attempts : Z := 5.
Definition visibility (v : option Z) : Z := clamp 1 86400 (default default_visibility v).

Definition leased_json (j : LeasedJob) : Value :=
  json_object [("id"%string, VString (l_id j)); ("queue"%string, VString (l_queue j)); ("kind"%string, VString (l_kind j));
    ("payload"%string, l_payload j); ("attempts"%string, json_int (l_attempts j));
    ("maxAttempts"%string, json_int (l_max_attempts j)); ("leaseId"%string, VString (l_lease_id j))].

Definition lease (worker : WorkerIdentity) (queues : list string) (capacity vis : option Z) : Handler JobServer :=
  check (if decide (queues = []) then Some (text_response 400 "queues must not be empty") else None) ;;
  check (match filter (fun q => may_lease worker q = false) queues with
         | bad :: _ => Some (text_response 403 ("worker not authorized for queue '" +:+ bad +:+ "'"))
         | [] => None
         end) ;;
  leased ← or_500 (db_lease queues (clamp 1 100 (default default_capacity capacity)) (visibility vis));
  mret (json_response 200 (json_object [("jobs"%string, VArray (leased_json <$> leased))])).

Definition kept_lease (held : bool) : Response :=
  if held then empty_response 204 else error_json 409 "lease lost".
Definition heartbeat (id lease_id : string) (vis : option Z) : Handler JobServer :=
  held ← or_500 (db_heartbeat id lease_id (visibility vis));
  mret (kept_lease held).
Definition complete (id lease_id : string) (result : option Value) : Handler JobServer :=
  held ← or_500 (db_complete id lease_id (default VNull result));
  mret (kept_lease held).
Definition fail (id lease_id : string) (error : option string) (retryable : option bool) : Handler JobServer :=
  outcome ← or_500 (db_fail id lease_id (default EmptyString error) (default false retryable));
  mret (match outcome with
        | Some (Retry delay_secs) =>
            json_response 200 (json_object [("outcome"%string, VString "retry"); ("delaySecs"%string, json_int delay_secs)])
        | Some DeadLetter => json_response 200 (json_object [("outcome"%string, VString "dead")])
        | None => error_json 409 "lease lost"
        end).

Definition progress_channel (id : string) : string := "job:" +:+ id.
(** [progress]: a heartbeat, then a frame on the job's channel *)
Definition progress (id lease_id : string) (vis : option Z) (percent message data : option Value) : Handler JobServer :=
  held ← or_500 (db_heartbeat id lease_id (visibility vis));
  if held : bool then
    let body := json_object [("jobId"%string, VString id); ("percent"%string, default VNull percent);
                             ("message"%string, default VNull message); ("data"%string, default VNull data)] in
    step (fun s => (tt, if je_publisher je
                        then mkJobServer (js_auth s) (js_store s) (js_workers s)
                               (js_published s ++ [(progress_channel id, body)]) (js_tick s)
                        else s)) ;;
    mret (empty_response 204)
  else mret (error_json 409 "lease lost").

(** ** The app plane *)

Definition needs_user (user : option AuthUser) : H AuthUser :=
  of_option user (error_json 401 "authentication required").

Record EnqueueReq : Type := mkEnqueueReq {
  er_queue : string; er_kind : string; er_payload : option Value; er_key : option string;
  er_max_attempts : option Z; er_priority : option Z
}.
(** What an accepted request puts in the queue *)
Definition enqueued_as (user : AuthUser) (req : EnqueueReq) : Enqueue :=
  mkEnqueue (er_queue req) (er_kind req)
    (match default VNull (er_payload req) with VNull => VObject [] | v => v end)
    (er_key req) (clamp 1 1000 (default default_max_attempts (er_max_attempts req)))
    (default 0 (er_priority req)) (au_tenant user).
Definition enqueue (user : option AuthUser) (req : EnqueueReq) : Handler JobServer :=
  user ← needs_user user;
  check (if decide (er_queue req = EmptyString \/ er_kind req = EmptyString)
         then Some (text_response 400 "queue and kind are required") else None) ;;
  id ← or_500 (db_enqueue (enqueued_as user req));
  mret (json_response 201 (json_object [("id"%string, VString id)])).

Definition not_found : Response := error_json 404 "not found".
Definition job_json (v : JobView) : Value :=
  json_object [("id"%string, VString (v_id v)); ("queue"%string, VString (v_queue v)); ("kind"%string, VString (v_kind v));
    ("status"%string, VString (v_status v)); ("attempts"%string, json_int (v_attempts v));
    ("maxAttempts"%string, json_int (v_max_attempts v)); ("result"%string, default VNull (v_result v));
    ("error"%string, json_opt_string (v_error v))].
(** Another tenant's job is not found. *)
Definition may_see (user : AuthUser) (v : JobView) : bool :=
  match v_tenant_id v with Some t => bool_decide (au_tenant user = Some t) | None => true end.
Definition get_job (user : option AuthUser) (id : string) : Handler JobServer :=
  user ← needs_user user;
  found ← or_500 (select (fun _ s => Jobs.get id (js_store s)));
  mret (match found with
        | Some v => if may_see user v then json_response 200 (job_json v) else not_found
        | None => not_found
        end).

(** ** The admin plane *)

Definition require_admin (user : option AuthUser) : option Response :=
  match user with
  | Some u => match au_role u with Admin => None | _ => Some (error_json 403 "admin access required") end
  | None => Some (error_json 401 "authentication required")
  end.

Definition job_stats (user : option AuthUser) : Handler JobServer :=
  check (require_admin user) ;;
  v ← or_500 db_stats;
  mret (json_response 200 v).
Definition recent_jobs (user : option AuthUser) (queue status limit offset : option string) : Handler JobServer :=
  check (require_admin user) ;;
  let limit := default 25 (limit ≫= parse_i64) in
  let offset := default 0 (offset ≫= parse_i64) in
  items ← or_500 (select (fun _ s => list_recent queue status limit offset (js_store s)));
  mret (json_response 200 (json_object [("jobs"%string, VArray (recent_json <$> items))])).

Definition strings_json (l : list string) : Value := VArray (VString <$> l).
Definition mint_worker (user : option AuthUser) (name : string) (queues capabilities : option (list string))
    : Handler JobServer :=
  check (require_admin user) ;;
  let queues := default [] queues in
  let capabilities := default [] capabilities in
  '(id, token) ← or_500 (statement (fun n s =>
    match mint (je_digest je) (je_now je n) (je_uuid je n "worker") (je_uuid je n "left") (je_uuid je n "right")
            name queues capabilities (js_workers s) with
    | Some (minted, ws) => (inl minted, set_workers ws s)
    | None => (inr (je_refusal je n), s)
    end));
  mret (json_response 201 (json_object [("id"%string, VString id); ("token"%string, VString token);
          ("queues"%string, strings_json queues); ("capabilities"%string, strings_json capabilities)])).
Definition worker_json (t : WorkerTokenInfo) : Value :=
  json_object [("id"%string, VString (i_id t)); ("name"%string, VString (i_name t));
    ("queues"%string, strings_json (i_queues t)); ("capabilities"%string, strings_json (i_capabilities t));
    ("isRevoked"%string, VBool (i_revoked t)); ("createdAt"%string, VString (je_rfc3339 je (i_created_at t)))].
Definition list_workers (user : option AuthUser) : Handler JobServer :=
  check (require_admin user) ;;
  tokens ← or_500 (select (fun _ s => list_tokens (js_workers s)));
  mret (json_response 200 (json_object [("workers"%string, VArray (worker_json <$> tokens))])).
Definition revoke_worker (user : option AuthUser) (id : string) : Handler JobServer :=
  check (require_admin user) ;;
  gone ← or_500 (statement (fun _ s => let '(r, ws) := revoke id (js_workers s) in (inl r, set_workers ws s)));
  mret (if gone : bool then empty_response 204 else error_json 404 "worker not found or already revoked").

(** ** [jobs_router] *)

Inductive WorkerCall : Type :=
  | CLease (queues : list string) (capacity vis : option Z)
  | CHeartbeat (id lease_id : string) (vis : option Z)
  | CComplete (id lease_id : string) (result : option Value)
  | CFail (id lease_id : string) (error : option string) (retryable : option bool)
  | CProgress (id lease_id : string) (vis : option Z) (percent message data : option Value).
Inductive UserCall : Type := CEnqueue (req : EnqueueReq) | CGet (id : string).
Inductive AdminCall : Type :=
  | CStats
  | CRecent (queue status limit offset : option string)
  | CMint (name : string) (queues capabilities : option (list string))
  | CWorkers
  | CRevoke (id : string).
Inductive JobCall : Type := ByWorker (c : WorkerCall) | ByUser (c : UserCall) | ByAdmin (c : AdminCall).
Record JobRequest : Type := mkJobRequest {
  jr_authorization : option string; jr_worker_token : option string; jr_call : JobCall
}.

Definition worker_call (w : WorkerIdentity) (c : WorkerCall) : Handler JobServer :=
  match c with
  | CLease queues cap vis => lease w queues cap vis
  | CHeartbeat id l vis => heartbeat id l vis
  | CComplete id l r => complete id l r
  | CFail id l e r => fail id l e r
  | CProgress id l vis p m d => progress id l vis p m d
  end.
Definition user_call (u : option AuthUser) (c : UserCall) : Handler JobServer :=
  match c with CEnqueue req => enqueue u req | CGet id => get_job u id end.
Definition admin_call (u : option AuthUser) (c : AdminCall) : Handler JobServer :=
  match c with
  | CStats => job_stats u
  | CRecent q st l o => recent_jobs u q st l o
  | CMint name qs cs => mint_worker u name qs cs
  | CWorkers => list_workers u
  | CRevoke id => revoke_worker u id
  end.
Definition jobs_router (now : Z) (r : JobRequest) : Handler JobServer :=
  match jr_call r with
  | ByWorker c => w ← worker_auth_middleware (jr_worker_token r); worker_call w c
  | ByUser c => u ← user_optional now (jr_authorization r); user_call u c
  | ByAdmin c => u ← user_optional now (jr_authorization r); admin_call u c
  end.
Definition serve (now : Z) (r : JobRequest) : JobServer -> Response * JobServer := respond (jobs_router now r).

(** ** [action_routes.rs] *)

Inductive ActionBody : Type := TooLarge | Bytes (empty : bool) (parsed : option Value).
(** No authentication is asked for. *)
Definition invoke_action (sc : Schema) (action_name : string) (body : ActionBody) : Handler JobServer :=
  def ← of_option (sc_actions sc !! action_name) (empty_response 404);
  check (if is_lifecycle_only def then Some (empty_response 400) else None) ;;
  input ← match body with
          | TooLarge => throw (empty_response 413)
          | Bytes true _ => mret (VObject [])
          | Bytes false parsed => of_option parsed (empty_response 400)
          end;
  let payload := json_object [("action"%string, VString action_name); ("event"%string, VString "direct"); ("input"%string, input)] in
  id ← with_error (fun _ => empty_response 500)
         (db_enqueue (mkEnqueue "actions" action_name payload None 5 0 None));
  mret (json_response 200 (json_object [("jobId"%string, VString id)])).
End Routes.

(** * The planes of the job API

    Who may do what through [JobRoutes.serve], what a worker is handed, and what one tenant
    learns of another's jobs. *)

(** The tables and the published frames are as before. *)
Definition kept (s s' : JobServer) : Prop :=
  js_store s' = js_store s /\ js_workers s' = js_workers s /\ js_published s' = js_published s.
#[export] Instance kept_refl : Reflexive kept.
Proof. by intros s. Qed.
#[export] Instance kept_trans : Transitive kept.
Proof. intros s1 s2 s3 (A1 & A2 & A3) (B1 & B2 & B3). unfold kept. by rewrite B1, B2, B3. Qed.
Definition workers_kept (s s' : JobServer) : Prop := js_workers s' = js_workers s.
#[export] Instance workers_kept_refl : Reflexive workers_kept.
Proof. by intros s. Qed.
#[export] Instance workers_kept_trans : Transitive workers_kept.
Proof. intros s1 s2 s3 H1 H2. unfold workers_kept. by rewrite H2. Qed.
Lemma kept_workers s s' : kept s s' -> workers_kept s s'.
Proof. by intros (_ & H & _). Qed.

Section Spec.
Context {ho : HashOrder} {env : AuthEnv} (je : JobEnv).

(** ** What steps keep *)

Lemma statement_keeps {A} (R : JobServer -> JobServer -> Prop) `{!Transitive R} (f : nat -> JobServer -> (A + string) * JobServer) :
  (forall s s', kept s s' -> R s s') -> (forall n s, R s (f n s).2) -> keeping R (statement je f).
Proof.
  intros HR Hf s. unfold statement. destruct (je_fault je _) as [e|]; [by apply HR|].
  trans (mkJobServer (js_auth s) (js_store s) (js_workers s) (js_published s) (S (js_tick s))); [by apply HR|apply Hf].
Qed.
Lemma select_keeps {A} (R : JobServer -> JobServer -> Prop) `{!Transitive R} (f : nat -> JobServer -> A) :
  (forall s s', kept s s' -> R s s') -> keeping R (select je f).
Proof. intros HR. apply statement_keeps; [done..|]. intros n s. by apply HR. Qed.
Lemma change_keeps_workers {A} (f : nat -> JobStore -> option (A * JobStore)) : keeping workers_kept (change je f).
Proof.
  apply statement_keeps; [apply _|apply kept_workers|]. intros n s. by destruct (f n (js_store s)) as [[a st]|].
Qed.
Lemma user_optional_spec now h s :
  exists u, (user_optional now h s).1 = inl u /\ kept s (user_optional now h s).2.
Proof.
  unfold user_optional, reply, on, with_error, optional_auth_middleware.
  destruct (bearer h) as [token|]; [|by exists None].
  unfold then_or, outcome. destruct (verify_token now token (auth_of s)) as [r a]. by eexists.
Qed.

(** Who is calling *)
Definition worker_of (r : JobRequest) (s : JobServer) : option WorkerIdentity :=
  jr_worker_token r ≫= fun tok => verify (je_digest je) tok (js_workers s).
Definition user_of (now : Z) (r : JobRequest) (s : JobServer) : option AuthUser :=
  match (user_optional now (jr_authorization r) s).1 with inl u => u | inr _ => None end.
Definition credited (now : Z) (r : JobRequest) (s : JobServer) : Prop :=
  match jr_call r with
  | ByWorker _ => is_Some (worker_of r s)
  | ByUser _ => is_Some (user_of now r s)
  | ByAdmin _ => exists u, user_of now r s = Some u /\ au_role u = Admin
  end.
Definition reading (c : JobCall) : Prop :=
  match c with
  | ByUser (CGet _) | ByAdmin (CStats | CRecent _ _ _ _ | CWorkers) => True
  | _ => False
  end.
Definition administers (c : JobCall) : Prop :=
  match c with ByAdmin (CMint _ _ _ | CRevoke _) => True | _ => False end.

(** A worker's request, past the middleware or refused by it *)
Lemma worker_call_cases now r s c :
  jr_call r = ByWorker c ->
  (serve je now r s).1.(rs_status) ∈ [401; 500] /\ kept s (serve je now r s).2 \/
  exists w s1, worker_of r s = Some w /\ kept s s1 /\ serve je now r s = respond (worker_call je w c) s1.
Proof.
  intros Hc. unfold serve, jobs_router, respond, worker_of. rewrite Hc. unfold worker_auth_middleware.
  destruct (jr_worker_token r) as [tok|]; [|left; split; [left|reflexivity]].
  unfold mbind, Comp_bind, of_option, mret, Comp_ret, with_error, select, statement. cbn.
  destruct (je_fault je _) as [e|]; [left; split; [right; left|done]|].
  destruct (verify _ _ _) as [w|] eqn:E; cbn; [|left; split; [left|done]].
  right. eexists w, _. split; [done|]. split; [|reflexivity]. done.
Qed.
Lemma user_call_cases now r s c :
  jr_call r = ByUser c ->
  exists s1, kept s s1 /\ serve je now r s = respond (user_call je (user_of now r s) c) s1.
Proof.
  intros Hc. destruct (user_optional_spec now (jr_authorization r) s) as (u & Hu & Hk).
  unfold serve, jobs_router, respond, user_of. rewrite Hc. unfold mbind, Comp_bind.
  destruct (user_optional now (jr_authorization r) s) as [x s1]. cbn in Hu, Hk |- *. subst x. by exists s1.
Qed.
Lemma admin_call_cases now r s c :
  jr_call r = ByAdmin c ->
  exists s1, kept s s1 /\ serve je now r s = respond (admin_call je (user_of now r s) c) s1.
Proof.
  intros Hc. destruct (user_optional_spec now (jr_authorization r) s) as (u & Hu & Hk).
  unfold serve, jobs_router, respond, user_of. rewrite Hc. unfold mbind, Comp_bind.
  destruct (user_optional now (jr_authorization r) s) as [x s1]. cbn in Hu, Hk |- *. subst x. by exists s1.
Qed.

(** An administrator's handler refuses everybody else. *)
Lemma admin_refused u c s :
  ~ (exists a, u = Some a /\ au_role a = Admin) ->
  (respond (admin_call je u c) s).1.(rs_status) ∈ [401; 403] /\ (respond (admin_call je u c) s).2 = s.
Proof.
  intros Hn. assert (exists x, require_admin u = Some x /\ rs_status x ∈ [401; 403]) as (x & Hx & Hs).
  { destruct u as [u|]; [|by eexists; split; [done|left]]. cbn.
    destruct (au_role u) eqn:E; [by destruct Hn; exists u|..]; (eexists; split; [done|right; left]). }
  by destruct c; cbn [admin_call]; unfold respond, job_stats, recent_jobs, mint_worker, list_workers, revoke_worker, mbind, Comp_bind;
    rewrite Hx.
Qed.

Lemma respond_keeps {S} (R : S -> S -> Prop) (h : Handler S) : keeping R h -> forall s, R s (respond h s).2.
Proof. intros Hk s. specialize (Hk s). unfold respond. by destruct (h s). Qed.

Lemma reading_keeps now r s : reading (jr_call r) -> kept s (serve je now r s).2.
Proof.
  assert (forall A (f : nat -> JobServer -> A), keeping kept (select je f)) as Hsel
    by (intros; apply select_keeps; [apply _|done]).
  intros Hr. destruct (jr_call r) as [c|c|c] eqn:Hc; [done|..].
  - destruct (user_call_cases now r s c Hc) as (s1 & Hk & ->). etrans; [exact Hk|]. apply respond_keeps.
    destruct c; [done|]. unfold user_call, get_job, needs_user, or_500. eauto 10 with keeping typeclass_instances.
  - destruct (admin_call_cases now r s c Hc) as (s1 & Hk & ->). etrans; [exact Hk|]. apply respond_keeps.
    destruct c; [..|done]; unfold admin_call, job_stats, recent_jobs, list_workers, db_stats, or_500; [..|done|];
      eauto 15 with keeping typeclass_instances.
Qed.

Lemma changes_keep_workers now r s : ~ administers (jr_call r) -> workers_kept s (serve je now r s).2.
Proof.
  assert (forall A (m : Db A), keeping workers_kept m -> keeping workers_kept (or_500 m)) as H5
    by (intros; by apply keeping_with_error).
  intros Hr. destruct (jr_call r) as [c|c|c] eqn:Hc.
  - destruct (worker_call_cases now r s c Hc) as [[_ Hk]|(w & s1 & _ & Hk & ->)]; [by apply kept_workers|].
    etrans; [by apply kept_workers|]. apply respond_keeps.
    destruct c; unfold worker_call, lease, heartbeat, complete, fail, progress, db_lease, db_heartbeat, db_complete, db_fail, report;
      try by eauto 15 using change_keeps_workers with keeping typeclass_instances.
    apply keeping_bind; [apply _|by apply H5, change_keeps_workers|]. intros [|]; [|apply keeping_ret, _].
    apply keeping_bind; [apply _| |intros; apply keeping_ret, _]. intros s2. cbn. by destruct (je_publisher je).
  - destruct (user_call_cases now r s c Hc) as (s1 & Hk & ->). etrans; [by apply kept_workers|]. apply respond_keeps.
    destruct c; unfold user_call, enqueue, get_job, needs_user, db_enqueue;
      eauto 15 using change_keeps_workers, select_keeps, kept_workers with keeping typeclass_instances.
  - assert (reading (jr_call r)) as Hread by (rewrite Hc; by destruct c; try (by destruct Hr)).
    by apply kept_workers, reading_keeps.
Qed.
Lemma uncredited_refused now r s :
  ~ credited now r s -> (serve je now r s).1.(rs_status) ∈ [401; 403; 500] /\ kept s (serve je now r s).2.
Proof.
  unfold credited. intros Hn. destruct (jr_call r) as [c|c|c] eqn:Hc.
  - destruct (worker_call_cases now r s c Hc) as [[Hs Hk]|(w & s1 & Hw & _)]; [|by destruct Hn].
    split; [|done]. set_solver.
  - destruct (user_call_cases now r s c Hc) as (s1 & Hk & ->).
    destruct (user_of now r s) as [u|]; [by destruct Hn|]. destruct c; (split; [left|exact Hk]).
  - destruct (admin_call_cases now r s c Hc) as (s1 & Hk & ->).
    destruct (admin_refused (user_of now r s) c s1 Hn) as [Hs ->]. split; [set_solver|done].
Qed.
End Spec.

(** the job API serves each plane to its own callers.  Without a live worker token, a
    signed-in user, or an administrator, as the route asks, the answer is a refusal and no
    job, worker token or published frame is touched; the reading routes never touch any; and
    worker tokens are changed only through the administrators' routes. *)
Theorem job_planes {ho : HashOrder} {env : AuthEnv} (je : JobEnv) (now : Z) (r : JobRequest) (s : JobServer) :
  let answer := (serve je now r s).1 in let s' := (serve je now r s).2 in
  (~ credited je now r s -> rs_status answer ∈ [401; 403; 500] /\ kept s s') /\
  (reading (jr_call r) -> kept s s') /\
  (~ administers (jr_call r) -> js_workers s' = js_workers s).
Proof.
  intros answer s'. split; [apply uncredited_refused|]. split; [apply reading_keeps|apply changes_keep_workers].
Qed.

(** ** Leases *)

Section Leases.
Context {ho : HashOrder} {env : AuthEnv} (je : JobEnv).

(** One statement against the store *)
Lemma change_cases {A} (f : nat -> JobStore -> option (A * JobStore)) s :
  (exists e, (change je f s).1 = inr e /\ kept s (change je f s).2) \/
  exists a st, f (js_tick s) (js_store s) = Some (a, st) /\ (change je f s).1 = inl a /\
    js_store (change je f s).2 = st.
Proof.
  unfold change, statement. destruct (je_fault je _) as [e|]; [left; by exists e|]. cbn.
  destruct (f _ _) as [[a st]|]; [right; by exists a, st|left; by eexists].
Qed.

Lemma lease_cases w queues cap vis s :
  let r := respond (lease je w queues cap vis) s in
  (rs_status r.1 <> 200 /\ kept s r.2) \/
  exists leased t, Forall (fun q => may_lease w q = true) queues /\
    r.1 = json_response 200 (json_object [("jobs"%string, VArray (leased_json <$> leased))]) /\
    Jobs.lease (je_now je t) (je_uuid je t) (je_locked je t) queues (clamp 1 100 (default default_capacity cap)) (visibility vis)
      (js_store s) = Some (leased, js_store r.2).
Proof.
  unfold respond, lease. case_decide as Hq; [by left|]. cbn [check].
  destruct (filter _ queues) as [|bad l] eqn:Hf; [|by left]. cbn [check].
  unfold mbind, Comp_bind, mret, Comp_ret, or_500, with_error, db_lease.
  destruct (change_cases (fun n => Jobs.lease (je_now je n) (je_uuid je n) (je_locked je n) queues
    (clamp 1 100 (default default_capacity cap)) (visibility vis)) s) as [(e & He & Hk)|(leased & st & Hl & Ha & Hs)];
    destruct (change _ _ s) as [x s1]; cbn in *; subst; [by left|].
  right. exists leased, (js_tick s). split; [|done]. apply Forall_forall. intros q Hin.
  destruct (may_lease w q) eqn:E; [done|]. assert (q ∈ filter (fun q => may_lease w q = false) queues) as Hb
    by by apply list_elem_of_filter. rewrite Hf in Hb. by apply not_elem_of_nil in Hb.
Qed.
End Leases.

(** a worker is handed jobs of its own queues only: a lease that is granted went to a live
    token, hands out at most a hundred jobs, each of them queued until then in a queue the
    token allows, and leased from now on under the returned lease id for at most a day; a
    lease that is not granted changes no job. *)
Theorem lease_within_capability {ho : HashOrder} {env : AuthEnv} (je : JobEnv) (now : Z) (r : JobRequest)
    (queues : list string) (cap vis : option Z) (s : JobServer) :
  jr_call r = ByWorker (CLease queues cap vis) ->
  let answer := (serve je now r s).1 in let s' := (serve je now r s).2 in
  (rs_status answer <> 200 /\ kept s s') \/
  exists w leased t, worker_of je r s = Some w /\
    rs_body answer = JsonBody (json_object [("jobs"%string, VArray (leased_json <$> leased))]) /\
    (length leased <= 100)%nat /\
    forall j, j ∈ leased -> may_lease w (l_queue j) = true /\
      exists row row', jobs (js_store s) !! l_id j = Some row /\ j_status row = Queued /\ j_queue row = l_queue j /\
        jobs (js_store s') !! l_id j = Some row' /\ j_status row' = Leased /\ j_lease_id row' = Some (l_lease_id j) /\
        je_now je t < j_visible_at row' <= je_now je t + secs 86400.
Proof.
  intros Hc answer s'. subst answer s'.
  destruct (worker_call_cases je now r s _ Hc) as [[Hs Hk]|(w & s1 & Hw & (K1 & K2 & K3) & ->)].
  { left. split; [intros E; rewrite E in Hs; set_solver|done]. }
  destruct (lease_cases je w queues cap vis s1) as [[Hs (L1 & L2 & L3)]|(leased & t & Hall & Hr & Hl)]; cbn [worker_call].
  { left. split; [done|]. unfold kept. by rewrite L1, L2, L3. }
  right. exists w, leased, t. split; [done|]. split; [by rewrite Hr|].
  destruct (lease_hands_out _ _ _ _ _ _ _ _ _ Hl) as [Hmax Hrows].
  pose proof (clamp_range 1 100 (default default_capacity cap)) as Hcap. split; [lia|].
  intros j Hj. destruct (Hrows j Hj) as (row & Hrow & _ & (Hin & Hqd & _) & Hrow' & Hjeq).
  rewrite Forall_forall in Hall. rewrite K1 in Hrow.
  assert (l_queue j = j_queue row) as Hq by by rewrite Hjeq. split; [rewrite Hq; by apply Hall|].
  exists row. eexists. split_and!; [done..|exact Hrow'|done|by rewrite Hjeq| |]; cbn;
    pose proof (clamp_range 1 86400 (default default_visibility vis)); unfold visibility, secs in *; lia.
Qed.

(** ** Tenants *)

Section Tenants.
Context {ho : HashOrder} {env : AuthEnv} (je : JobEnv).

Lemma get_job_cases u id s :
  let r := respond (get_job je (Some u) id) s in
  (exists e, r.1 = error_json 500 e) \/
  r.1 = match Jobs.get id (js_store s) with
        | Some v => if may_see u v then json_response 200 (job_json v) else not_found
        | None => not_found
        end.
Proof.
  unfold respond, get_job, or_500, select, statement. unfold mbind, Comp_bind, mret, Comp_ret, with_error. cbn.
  destruct (je_fault je _) as [e|]; [left; by exists e|]. by right.
Qed.
Lemma enqueue_cases u req s :
  let r := respond (enqueue je (Some u) req) s in
  (rs_status r.1 <> 201 /\ js_store r.2 = js_store s) \/
  exists id n, r.1 = json_response 201 (json_object [("id"%string, VString id)]) /\
    Jobs.enqueue (je_now je n) (je_uuid je n "job") (enqueued_as u req) (js_store s) = Some (id, js_store r.2).
Proof.
  unfold respond, enqueue. cbn [needs_user of_option]. unfold mbind, Comp_bind, mret, Comp_ret, or_500, with_error.
  case_decide; [by left|]. cbn -[db_enqueue enqueued_as].
  pose proof (change_cases je (fun n => Jobs.enqueue (je_now je n) (je_uuid je n "job") (enqueued_as u req)) s) as Hc.
  change (change je _ s) with (db_enqueue je (enqueued_as u req) s) in Hc.
  destruct (db_enqueue _ _ s) as [x s1], Hc as [(e & He & Hk)|(id & st & Hl & Ha & Hs)]; cbn in *; subst.
  - left. split; [done|by destruct Hk].
  - right. by eexists _, _.
Qed.
End Tenants.

Lemma enqueue_outcome `{HashOrder} now id e st i st' :
  Jobs.enqueue now id e st = Some (i, st') ->
  (jobs st !! i = None /\ jobs st' = <[i := new_row now e]> (jobs st)) \/
  (jobs st' = jobs st /\ exists row, jobs st !! i = Some row /\ same_key e row).
Proof.
  unfold Jobs.enqueue, enqueue_tx. destruct (existing e (jobs st)) as [x|] eqn:Ex.
  - intros [= <- <-]. right. split; [done|]. by apply existing_spec.
  - destruct (jobs st !! id) eqn:Hid; [done|]. intros [= <- <-]. by left.
Qed.

(** jobs are private to their tenant: a signed-in user polling a job of another tenant is
    answered exactly as for a job that does not exist, and is shown only jobs of no tenant or
    of its own; what an accepted submission creates is queued under the caller's tenant with
    one to a thousand attempts, and if it creates nothing it names a job of the same queue
    and idempotency key and changes no job. *)
Theorem tenant_jobs_private {ho : HashOrder} {env : AuthEnv} (je : JobEnv) (now : Z) (r : JobRequest) (s : JobServer)
    (u : AuthUser) :
  user_of now r s = Some u ->
  let answer := (serve je now r s).1 in let s' := (serve je now r s).2 in
  (forall id, jr_call r = ByUser (CGet id) ->
     (exists e, answer = error_json 500 e) \/
     match jobs (js_store s) !! id with
     | Some row => if decide (j_tenant_id row = None \/ j_tenant_id row = au_tenant u)
                   then rs_status answer = 200 else answer = not_found
     | None => answer = not_found
     end) /\
  (forall req, jr_call r = ByUser (CEnqueue req) -> rs_status answer = 201 ->
     exists id, rs_body answer = JsonBody (json_object [("id"%string, VString id)]) /\
       ((exists row, jobs (js_store s) !! id = None /\ jobs (js_store s') = <[id := row]> (jobs (js_store s)) /\
           j_tenant_id row = au_tenant u /\ j_status row = Queued /\ j_queue row = er_queue req /\
           1 <= j_max_attempts row <= 1000) \/
        (jobs (js_store s') = jobs (js_store s) /\
         exists row, jobs (js_store s) !! id = Some row /\ j_queue row = er_queue req /\ j_key row = er_key req))).
Proof.
  intros Hu answer s'. subst answer s'. split.
  - intros id Hc. destruct (user_call_cases je now r s _ Hc) as (s1 & (K1 & _) & ->). rewrite Hu. cbn [user_call].
    destruct (get_job_cases je u id s1) as [H5| ->]; [by left|right]. rewrite K1. unfold Jobs.get.
    destruct (jobs (js_store s) !! id) as [row|]; [|done]. cbn [fmap option_fmap option_map]. unfold may_see. cbn [v_tenant_id].
    destruct (j_tenant_id row) as [t|]; [|by rewrite decide_True by by left].
    destruct (decide (Some t = None \/ Some t = au_tenant u)) as [[?|Ht]|Hn]; [done|by rewrite bool_decide_true|].
    rewrite bool_decide_false; [done|]. intros Ht. apply Hn. by right.
  - intros req Hc H201. destruct (user_call_cases je now r s _ Hc) as (s1 & (K1 & _) & E). rewrite Hu in E. rewrite E in *.
    cbn [user_call] in *. destruct (enqueue_cases je u req s1) as [[Hn _]|(id & n & Hr & He)]; [done|].
    exists id. split; [by rewrite Hr|]. rewrite K1 in He.
    destruct (enqueue_outcome _ _ _ _ _ _ He) as [[Hf Hins]|[Hsame (row & Hrow & _ & Hq & Hk)]].
    + left. eexists. split; [done|]. split; [exact Hins|]. split_and!; [done..| |]; cbn;
        pose proof (clamp_range 1 1000 (default default_max_attempts (er_max_attempts req))); lia.
    + right. split; [done|]. by exists row.
Qed.

(** ** Two tenants and a worker *)

Module JobRoutesExamples.
#[local] Existing Instance enum_order.
#[local] Existing Instance AuthSpec.AuthExamples.env.
#[local] Open Scope string_scope.

Definition je : JobEnv := mkJobEnv (fun n => 1000 + Z.of_nat n) (fun n what => what +:+ bits (Pos.of_succ_nat n)) (fun _ => ∅)
  (fun _ => None) (fun _ => "conflict") WorkersExamples.codes (fun _ => "t") (fun _ => VNull) true.

(** A user of a role and a tenant signs up. *)
Definition sign_up (email role : string) (tenant : TenantProvisioning) (db : AuthDb) : string * AuthDb :=
  let '(r, db') := register 0 (mkRegistration true role tenant) (mkRegister email "secret12" None None) db in
  (match r with inl a => "Bearer " +:+ lr_token a | inr _ => EmptyString end, db').
Definition db0 : AuthDb := mkAuth ∅ ∅ 0 0.
Definition ann : string * AuthDb := sign_up "ann@x.io" "viewer" (Fixed "acme") db0.
Definition bob : string * AuthDb := sign_up "bob@x.io" "viewer" (Fixed "globex") ann.2.
Definition eve : string * AuthDb := sign_up "eve@x.io" "admin" NoTenant bob.2.
Definition start : JobServer := mkJobServer eve.2 job_store_new ∅ [] 0.

Definition by_user (who : string) (c : UserCall) : JobRequest := mkJobRequest (Some who) None (ByUser c).
Definition submit (key : option string) : EnqueueReq := mkEnqueueReq "media" "encode" None key None None.
Definition submitted : Response * JobServer := serve je 1 (by_user ann.1 (CEnqueue (submit (Some "k1")))) start.
Definition minted : Response * JobServer :=
  serve je 1 (mkJobRequest (Some eve.1) None (ByAdmin (CMint "encoder" (Some ["media"]) None))) submitted.2.
Definition token : string := "wkr_left0right0".
Definition lease_call (q : string) : JobRequest := mkJobRequest None (Some token) (ByWorker (CLease [q] None None)).

Definition tenant_of (s : JobServer) (id : string) : option (option string) := j_tenant_id <$> jobs (js_store s) !! id.
Definition status_of (r : Response * JobServer) : Z := rs_status r.1.

(** Ann's job is queued for her tenant; Bob, who reuses her key, gets her job's id back:
    nothing is queued for him, and polling that id tells him there is no such job. *)
Example shared_key_loses_job :
  tenant_of submitted.2 "job" = Some (Some "acme") /\
  let r := serve je 1 (by_user bob.1 (CEnqueue (submit (Some "k1")))) submitted.2 in
  rs_body r.1 = rs_body submitted.1 /\ size (jobs (js_store r.2)) = 1%nat /\
  status_of (serve je 1 (by_user bob.1 (CGet "job")) r.2) = 404.
Proof. vm_compute. done. Qed.

(** Anybody who is signed in may queue an action job with a payload of their making. *)
Example forged_action_payload :
  let req := mkEnqueueReq "actions" "publish" (Some (VObject [("actor", VString "root")])) None None None in
  status_of (serve je 1 (by_user bob.1 (CEnqueue req)) start) = 201.
Proof. vm_compute. done. Qed.

Lemma job_planes_witness :
  rs_status (serve je 1 (mkJobRequest (Some bob.1) None (ByAdmin (CMint "x" None None))) start).1 ∈ [401; 403; 500] /\
  kept start (serve je 1 (mkJobRequest (Some bob.1) None (ByAdmin (CMint "x" None None))) start).2.
Proof.
  apply (job_planes je 1 (mkJobRequest (Some bob.1) None (ByAdmin (CMint "x" None None))) start).
  intros (u & Hu & Ha). vm_compute in Hu. injection Hu as <-. discriminate Ha.
Defined.

Definition job_count (b : Body) : nat :=
  match b with JsonBody (VObject [(_, VArray l)]) => length l | _ => 0%nat end.
Lemma lease_within_capability_witness :
  exists w leased, worker_of je (lease_call "media") minted.2 = Some w /\ length leased = 1%nat /\
    Forall (fun j => may_lease w (l_queue j) = true) leased.
Proof.
  assert (job_count (rs_body (serve je 2 (lease_call "media") minted.2).1) = 1%nat) as E by (vm_compute; reflexivity).
  destruct (lease_within_capability je 2 (lease_call "media") ["media"] None None minted.2 eq_refl)
    as [[Hs _]|(w & leased & t & Hw & Hb & _ & Hall)]; [vm_compute in Hs; by destruct Hs|].
  exists w, leased. split; [exact Hw|]. rewrite Hb in E. split.
  - rewrite <- (length_fmap leased_json leased). exact E.
  - apply Forall_forall. intros j Hj. exact (proj1 (Hall j Hj)).
Defined.

Lemma tenant_jobs_private_witness :
  exists u, user_of 1 (by_user bob.1 (CGet "job")) submitted.2 = Some u /\
    ((exists e, (serve je 1 (by_user bob.1 (CGet "job")) submitted.2).1 = error_json 500 e) \/
     (serve je 1 (by_user bob.1 (CGet "job")) submitted.2).1 = not_found).
Proof.
  destruct (user_of 1 (by_user bob.1 (CGet "job")) submitted.2) as [u|] eqn:Hu; [|vm_compute in Hu; discriminate Hu].
  exists u. split; [done|].
  assert (au_tenant <$> user_of 1 (by_user bob.1 (CGet "job")) submitted.2 = Some (Some "globex")) as Ht
    by (vm_compute; reflexivity).
  destruct (tenant_jobs_private je 1 (by_user bob.1 (CGet "job")) submitted.2 u Hu) as [H _].
  rewrite Hu in Ht. injection Ht as Ht. specialize (H "job" eq_refl).
  assert (tenant_of submitted.2 "job" = Some (Some "acme")) as E by (vm_compute; reflexivity). unfold tenant_of in E.
  destruct (jobs (js_store submitted.2) !! "job") as [row|]; [|discriminate E]. injection E as E.
  destruct H as [H|H]; [by left|right]. rewrite decide_False in H; [exact H|]. rewrite E, Ht. by intros [?|?].
Defined.
End JobRoutesExamples.
