(* ===== verification/CrudRoutes.v ===== *)
(** * The workers' data API ([atomo_server/src/crud_routes.rs])

    A worker with a token calls back into the data layer on behalf of the actor of its job:
    capabilities are checked here, access rules and tenants by the data interface. *)

From S2P Require Import Prelude Json StateM Auth Workers SchemaTypes Query SqlBuilder DataClient DataApi Tenancy TableWorld.
From S2P Require GraphQl.

Record ActorSnapshot : Type := mkActor {
  an_user_id : option string; an_role : option string; an_tenant_id : option string
}.
Record CreateReq : Type := mkCreateReq { cr_data : Doc; cr_actor : option ActorSnapshot; cr_origin : option string }.
Record UpdateReq : Type := mkUpdateReq { ur_data : Doc; ur_actor : option ActorSnapshot; ur_origin : option string }.
Record DeleteReq : Type := mkDeleteReq { dr_actor : option ActorSnapshot; dr_origin : option string }.
Record FindManyParams : Type := mkFindMany {
  fm_where_json : option string; fm_limit : option Z; fm_offset : option Z; fm_actor : option string
}.

(** What an [anyhow::Error] of the client reads *)
Definition message_of (e : ClientError) : string :=
  match e with
  | ModelNotFound m => "Model '" +:+ m +:+ "' not found"
  | InvalidFilter => "INVALID_FILTER: in/notIn requires an array"
  | AccessDenied action m => "Access denied: '" +:+ action +:+ "' on '" +:+ m +:+ "' requires a permitted role"
  | AuthRequired action m => "Authentication required for '" +:+ action +:+ "' on '" +:+ m +:+ "'"
  | HookAborted msg => msg
  | HookFailed cause => cause
  | ValidationFailed msg => "validation failed: " +:+ msg
  | RowNotFound => "no rows returned by a query that expected to return at least one row"
  | DbError cause => cause
  end.
Definition error_response (e : ClientError) : Response :=
  let msg := message_of e in
  if contains msg "validation failed" then error_json 422 msg
  else if contains msg "Access denied" || contains msg "Authentication required" then error_json 403 msg
  else error_json 500 msg.

Section Routes.
Context {ho : HashOrder} {W : Type} {api : DataApi W}.
(** [serde_json::from_str] at the two types *)
Variable parse_actor : string -> option ActorSnapshot.
Variable parse_json : string -> option Value.

Definition capability_check (worker : WorkerIdentity) (model op : string) : option Response :=
  if may_crud worker model op then None
  else Some (error_json 403 ("worker lacks crud capability for " +:+ model +:+ "." +:+ op)).
Definition model_check (model : string) : option Response :=
  match sc_models api_schema !! model with
  | Some _ => None
  | None => Some (error_json 404 ("model '" +:+ model +:+ "' not found"))
  end.

#[local] Abbreviation H := (Comp W Response).
Definition crud_call {A} (m : Comp W ClientError A) : H A := with_error error_response m.
(** The guards of every route *)
Definition admitted (worker : WorkerIdentity) (model op : string) : H unit :=
  check (capability_check worker model op) ;; check (model_check model).

Definition role_of (actor : option ActorSnapshot) : option string := actor ≫= an_role.
Definition user_id_of (actor : option ActorSnapshot) : option string := actor ≫= an_user_id.
Definition tenant_id_of (actor : option ActorSnapshot) : option string := actor ≫= an_tenant_id.
Definition by_id (id : string) (actor : option ActorSnapshot) : list WhereClause :=
  scope_by_tenant (by_field "id" id) (tenant_id_of actor).
Definition scope_of (origin : option string) (actor : option ActorSnapshot) : Scope := mkScope (tenant_id_of actor) origin.

Definition record_json (r : Doc) : Value := object_of_map r.

Definition create (worker : WorkerIdentity) (model : string) (req : CreateReq) : Handler W :=
  admitted worker model "create" ;;
  let actor := cr_actor req in
  record ← crud_call (api_create (scope_of (cr_origin req) actor) (role_of actor) model (cr_data req) (user_id_of actor));
  mret (json_response 201 (record_json record)).

Definition crud_not_found : Response := error_json 404 "not found".
Definition find_by_id (worker : WorkerIdentity) (model id : string) (actor_json : option string) : Handler W :=
  admitted worker model "read" ;;
  let actor := actor_json ≫= parse_actor in
  check (error_response <$> api_enforce model "read" (role_of actor)) ;;
  found ← crud_call (api_find_unique (scope_of None actor) model (by_id id actor));
  mret (match found with Some record => json_response 200 (record_json record) | None => crud_not_found end).

Definition update (worker : WorkerIdentity) (model id : string) (req : UpdateReq) : Handler W :=
  admitted worker model "update" ;;
  let actor := ur_actor req in
  records ← crud_call (api_update (scope_of (ur_origin req) actor) (role_of actor) model (by_id id actor) (ur_data req)
                    (user_id_of actor));
  mret (match records with record :: _ => json_response 200 (record_json record) | [] => crud_not_found end).

Definition delete_one (worker : WorkerIdentity) (model id : string) (body : option DeleteReq) : Handler W :=
  admitted worker model "delete" ;;
  let actor := body ≫= dr_actor in
  count ← crud_call (api_delete (scope_of (body ≫= dr_origin) actor) (role_of actor) model (by_id id actor) (user_id_of actor));
  mret (json_response 200 (json_object [("deleted"%string, json_int (Z.of_nat count))])).

(** [limit.unwrap_or(50).min(200) as usize]: a negative limit is a huge one. *)
Definition page_limit (limit : option Z) : nat := GraphQl.as_usize (Z.min (default 50 limit) 200).
Definition page_offset (offset : option Z) : nat := GraphQl.as_usize (Z.max (default 0 offset) 0).
Definition where_of (params : FindManyParams) : list WhereClause :=
  default [] (GraphQl.parse_where <$> (fm_where_json params ≫= parse_json)).
Definition find_many (worker : WorkerIdentity) (model : string) (params : FindManyParams) : Handler W :=
  admitted worker model "read" ;;
  let actor := fm_actor params ≫= parse_actor in
  check (error_response <$> api_enforce model "read" (role_of actor)) ;;
  records ← crud_call (api_find_many (scope_of None actor) model (scope_by_tenant (where_of params) (tenant_id_of actor)) []
                    (Some (page_limit (fm_limit params))) (Some (page_offset (fm_offset params))));
  mret (json_response 200 (VArray (record_json <$> records))).

(** ** [crud_router] *)

Inductive CrudCall : Type :=
  | KCreate (model : string) (req : CreateReq)
  | KFindMany (model : string) (params : FindManyParams)
  | KFindById (model id : string) (actor : option string)
  | KUpdate (model id : string) (req : UpdateReq)
  | KDelete (model id : string) (body : option DeleteReq).

Definition crud_handler (worker : WorkerIdentity) (c : CrudCall) : Handler W :=
  match c with
  | KCreate model req => create worker model req
  | KFindMany model params => find_many worker model params
  | KFindById model id actor => find_by_id worker model id actor
  | KUpdate model id req => update worker model id req
  | KDelete model id body => delete_one worker model id body
  end.
(** Behind [worker_auth_middleware], which finds a worker or answers itself *)
Definition crud_router (auth : WorkerIdentity + Response) (c : CrudCall) : Handler W :=
  worker ← of_sum auth; crud_handler worker c.
End Routes.

(** * What the workers' data API promises

    Capabilities, models and access rules gate every call; a call on behalf of an actor with
    a tenant is confined to the tenant's rows.  Not promised: a create is not stamped with
    the actor's tenant (the examples). *)

Section Spec.
Context {ho : HashOrder} {W : Type} {api : DataApi W}.
Variable parse_actor : string -> option ActorSnapshot.
Variable parse_json : string -> option Value.

Definition model_of (c : CrudCall) : string :=
  match c with KCreate m _ | KFindMany m _ | KFindById m _ _ | KUpdate m _ _ | KDelete m _ _ => m end.
Definition op_of (c : CrudCall) : string :=
  match c with
  | KCreate _ _ => "create" | KFindMany _ _ | KFindById _ _ _ => "read" | KUpdate _ _ _ => "update" | KDelete _ _ _ => "delete"
  end.
Definition actor_of (c : CrudCall) : option ActorSnapshot :=
  match c with
  | KCreate _ r => cr_actor r
  | KFindMany _ p => fm_actor p ≫= parse_actor
  | KFindById _ _ a => a ≫= parse_actor
  | KUpdate _ _ r => ur_actor r
  | KDelete _ _ b => b ≫= dr_actor
  end.
#[local] Abbreviation serve auth c := (respond (crud_router parse_actor parse_json auth c)).

Lemma error_response_status e : rs_status (error_response e) ∈ [403; 422; 500].
Proof. unfold error_response. destruct (contains _ _); [set_solver|]. destruct (_ || _); set_solver. Qed.

(** A call that is let in, or a refusal that changes nothing *)
Definition gated (w : WorkerIdentity) (c : CrudCall) : Prop :=
  may_crud w (model_of c) (op_of c) = true /\ is_Some (sc_models api_schema !! model_of c) /\
  api_enforce (model_of c) (op_of c) (role_of (actor_of c)) = None.

Lemma admitted_spec w model op s :
  (admitted w model op s = (inl tt, s) /\ may_crud w model op = true /\ is_Some (sc_models api_schema !! model)) \/
  exists r, admitted w model op s = (inr r, s) /\ rs_status r ∈ [403; 404].
Proof.
  unfold admitted, capability_check, model_check, mbind, Comp_bind.
  destruct (may_crud w model op); [|right; eexists; split; [done|left]]. cbn.
  destruct (sc_models api_schema !! model) as [m|]; [left; by eauto|right; eexists; split; [done|right; left]].
Qed.

Lemma ungated_refused (ef : Enforcing api) w c s :
  ~ gated w c -> rs_status (serve (inl w) c s).1 ∈ [403; 404; 422; 500] /\ (serve (inl w) c s).2 = s.
Proof.
  intros Hn. change (serve (inl w) c) with (respond (crud_handler parse_actor parse_json w c)). unfold respond, crud_handler.
  assert (forall r, rs_status r ∈ [403; 404] -> rs_status r ∈ [403; 404; 422; 500]) as H1 by set_solver.
  assert (forall e, rs_status (error_response e) ∈ [403; 404; 422; 500]) as H2
    by (intros e; pose proof (error_response_status e); set_solver).
  destruct (admitted_spec w (model_of c) (op_of c) s) as [(Ha & Hc & Hm)|(r & Ha & Hr)].
  2: { destruct c; cbn in Ha; unfold create, find_many, find_by_id, update, delete_one, mbind, Comp_bind; rewrite Ha; by split; [apply H1|]. }
  destruct (api_enforce (model_of c) (op_of c) (role_of (actor_of c))) as [e|] eqn:He; [|by destruct Hn].
  destruct c; cbn [model_of op_of actor_of] in Ha, He; unfold create, find_many, find_by_id, update, delete_one, mbind, Comp_bind; rewrite Ha;
    unfold crud_call, with_error; unfold mbind in He; cbn -[role_of api_enforce].
  - rewrite (ef_create _ ef _ _ _ _ _ _ _ He). cbn. by split; [apply H2|].
  - rewrite He. cbn. by split; [apply H2|].
  - rewrite He. cbn. by split; [apply H2|].
  - edestruct (ef_update _ ef) as (e' & ->); [exact He|]. cbn. by split; [apply H2|].
  - edestruct (ef_delete _ ef) as (e' & ->); [exact He|]. cbn. by split; [apply H2|].
Qed.

(** ** Tenants *)

Context (t : string) (inv : W -> Prop) (rows : W -> string -> list Doc).
Hypothesis api_ok : Confined api t inv rows.
#[local] Abbreviation conf P m good := (conf t inv rows P m good).
#[local] Abbreviation any := (fun _ : W => True).

(** The call may add or hand over a row: a create that does not name the tenant, an update
    that writes the tenant's column. *)
Definition crud_moves (c : CrudCall) : Prop :=
  match c with
  | KCreate _ r => cr_data r !! TENANT <> Some (VString t)
  | KUpdate _ _ r => sets_tenant (ur_data r)
  | _ => False
  end.
(** The rows a response shows *)
Definition response_shows (r : Response) : Prop :=
  exists rs, Forall (owned t) rs /\
    (rs_body r = JsonBody (VArray (record_json <$> rs)) \/ (exists d, rs = [d] /\ rs_body r = JsonBody (record_json d)) \/
     (rs = [] /\ (r = crud_not_found \/ exists n, r = json_response 200 (json_object [("deleted"%string, json_int n)])))).

Lemma shows_list rs st : Forall (owned t) rs -> response_shows (json_response st (VArray (record_json <$> rs))).
Proof. intros HF. exists rs. split; [done|by left]. Qed.
Lemma shows_one d st : owned t d -> response_shows (json_response st (record_json d)).
Proof. intros Ho. exists [d]. split; [by apply Forall_singleton|]. right. left. by exists d. Qed.
Lemma shows_none : response_shows crud_not_found.
Proof. exists []. split; [done|]. right. right. by split; [|left]. Qed.

Lemma conf_admitted {A} w m op (k : Comp W Response A) good : conf any k good -> conf any (admitted w m op ;; k) good.
Proof.
  intros Hk. eapply conf_bind; [unfold admitted; eapply conf_bind; [apply conf_check|intros u; apply conf_check]|].
  intros u. exact Hk.
Qed.

Lemma scoped_by_id id a : tenant_id_of a = Some t -> tenant_clause t ∈ by_id id a.
Proof. unfold by_id. intros ->. apply scoped_clause. Qed.

Lemma call_confined w c :
  tenant_id_of (actor_of c) = Some t -> ~ crud_moves c ->
  conf any (crud_router parse_actor parse_json (inl w) c) (fun r _ => response_shows r).
Proof.
  intros Ht Hn. change (conf any (crud_handler parse_actor parse_json w c) (fun r _ => response_shows r)).
  destruct c; cbn [actor_of crud_moves] in Ht, Hn; apply conf_admitted.
  - eapply conf_map; [apply conf_write, (cf_create _ _ _ _ api_ok)|].
    { destruct (cr_data req !! TENANT) as [[]|] eqn:E; try (by destruct Hn). f_equal. destruct (decide (s = t)); [by subst|].
      destruct Hn. congruence. }
    intros r w' Ho. by apply shows_one.
  - eapply conf_bind; [apply conf_check|]. intros u.
    eapply conf_map; [apply (conf_read _ _ _ _ _ (fun _ => Forall (owned t)))|]; [|done|].
    { apply (cf_find_many _ _ _ _ api_ok). rewrite Ht. apply scoped_clause. }
    intros rs w' HF. by apply shows_list.
  - eapply conf_bind; [apply conf_check|]. intros u.
    eapply conf_map; [apply (conf_read _ _ _ _ _ (fun _ o => forall r, o = Some r -> owned t r))|]; [|done|].
    { by apply (cf_find_unique _ _ _ _ api_ok), scoped_by_id. }
    intros [r|] w' Ho; [by apply shows_one, Ho|apply shows_none].
  - eapply conf_map; [apply conf_write, (cf_update _ _ _ _ api_ok); [by apply scoped_by_id|done]|].
    intros [|r rs] w' HF; [apply shows_none|]. apply shows_one. by inversion HF.
  - eapply conf_map; [by apply conf_write, (cf_delete _ _ _ _ api_ok), scoped_by_id|].
    intros n w' _. exists []. split; [done|]. right. right. split; [done|]. right. by eexists.
Qed.
Lemma call_spares w c :
  tenant_id_of (actor_of c) = Some t -> spares t inv rows (crud_router parse_actor parse_json (inl w) c).
Proof.
  intros Ht. assert (~ crud_moves c -> spares t inv rows (crud_router parse_actor parse_json (inl w) c)) as Hc
    by (intros Hn; by eapply conf_spares, call_confined).
  destruct c; try (apply Hc; by intros []); cbn [actor_of] in Ht;
    (apply spares_bind; [apply spares_ret|]); intros x; unfold crud_handler, create, update, admitted;
    repeat (apply spares_bind; [|intros ?; try apply spares_ret]); try apply spares_check;
    apply spares_call; [apply (cf_create_any _ _ _ _ api_ok)|by apply (cf_update_moving _ _ _ _ api_ok), scoped_by_id].
Qed.
End Spec.

(** every call of the workers' data API is gated: unless the worker's token grants the
    operation on the model, the model exists and the actor's role is permitted by the model's
    access rules, the call is refused and changes nothing, over any data interface that
    enforces the access rules. *)
Theorem crud_gated {ho : HashOrder} {W : Type} (api : DataApi W) (parse_actor : string -> option ActorSnapshot)
    (parse_json : string -> option Value) (w : WorkerIdentity) (c : CrudCall) (s : W) :
  Enforcing api -> ~ gated parse_actor w c ->
  let r := respond (crud_router parse_actor parse_json (inl w) c) s in
  rs_status r.1 ∈ [403; 404; 422; 500] /\ r.2 = s.
Proof. intros ef Hn. by apply ungated_refused. Qed.

(** a call on behalf of an actor with a tenant is confined to the tenant, over any lawful
    data interface: whatever it asks for, no row of another tenant is changed or removed;
    unless it creates a row without naming the tenant or updates the tenant's column, the
    rows of others are the same afterwards and every record of the answer is the tenant's. *)
Theorem worker_calls_confined {ho : HashOrder} {W : Type} (api : DataApi W) (parse_actor : string -> option ActorSnapshot)
    (parse_json : string -> option Value) (t : string) (inv : W -> Prop) (rows : W -> string -> list Doc)
    (w : WorkerIdentity) (c : CrudCall) (s : W) :
  Confined api t inv rows -> tenant_id_of (actor_of parse_actor c) = Some t -> inv s ->
  let r := crud_router parse_actor parse_json (inl w) c s in
  inv r.2 /\ foreign_kept t rows s r.2 /\
  (~ crud_moves t c -> foreign_same t rows s r.2 /\ match r.1 with inl answer => response_shows t answer | inr _ => True end).
Proof.
  intros Hc Ht Hi r. destruct (call_spares parse_actor parse_json t inv rows Hc w c Ht s Hi) as [H1 H2].
  do 2 (split; [done|]). intros Hn.
  by destruct (call_confined parse_actor parse_json t inv rows Hc w c Ht Hn s (conj Hi I)) as (_ & H3 & H4).
Qed.

(** ** On a table held in memory *)

Module CrudExamples.
#[local] Existing Instance enum_order.
#[local] Open Scope string_scope.

Definition notes : Schema := mkSchema {["Note" := bare_model "Note" ∅ None]} ∅ ∅ [].
Definition note (id tenant : string) : Doc := <["id" := VString id]> {["tenant_id" := VString tenant]}.
Definition two : list Doc := [note "1" "acme"; note "2" "globex"].
#[local] Instance world : DataApi (list Doc) := table_api notes.

Definition worker : WorkerIdentity := mkWorkerIdentity "w" "encoder" ["media"] ["crud:Note:read,create"].
Definition acme : ActorSnapshot := mkActor (Some "u1") (Some "Viewer") (Some "acme").
(** Only one text parses. *)
Definition parse (s : string) : option ActorSnapshot := if decide (s = "acme") then Some acme else None.
Definition no_json (_ : string) : option Value := None.
Definition call (c : CrudCall) : Response * list Doc := respond (crud_router parse no_json (inl worker) c) two.

Lemma crud_gated_witness :
  rs_status (call (KDelete "Note" "1" None)).1 ∈ [403; 404; 422; 500] /\ (call (KDelete "Note" "1" None)).2 = two.
Proof.
  apply (crud_gated world parse no_json worker (KDelete "Note" "1" None) two (table_enforcing notes)).
  intros (Hm & _). vm_compute in Hm. discriminate Hm.
Defined.

Lemma worker_calls_confined_witness :
  foreign_same "acme" table_rows two (crud_router parse no_json (inl worker) (KFindById "Note" "2" (Some "acme")) two).2 /\
  rs_status (call (KFindById "Note" "2" (Some "acme"))).1 = 404.
Proof.
  split; [|vm_compute; reflexivity].
  destruct (worker_calls_confined world parse no_json "acme" (fun _ => True) table_rows worker
    (KFindById "Note" "2" (Some "acme")) two (table_confined notes "acme") eq_refl I) as (_ & _ & H).
  exact (proj1 (H (fun f => f))).
Defined.

(** An actor that does not parse is nobody: the read is not scoped to any tenant. *)
Example garbled_actor_reads_all : rs_status (call (KFindById "Note" "2" (Some "acm"))).1 = 200.
Proof. vm_compute. reflexivity. Qed.

(** What an actor of a tenant creates has no tenant: the actor cannot read it back. *)
Example created_out_of_sight :
  let made := call (KCreate "Note" (mkCreateReq {["id" := VString "3"]} (Some acme) None)) in
  rs_status made.1 = 201 /\ length made.2 = 3%nat /\
  rs_status (respond (crud_router parse no_json (inl worker) (KFindById "Note" "3" (Some "acme"))) made.2).1 = 404.
Proof. vm_compute. done. Qed.
(** Nor is it kept from naming another tenant. *)
Example created_for_another :
  let made := call (KCreate "Note" (mkCreateReq (note "3" "globex") (Some acme) None)) in
  rs_status made.1 = 201 /\ length (filter (owned "globex") made.2) = 2%nat.
Proof. vm_compute. done. Qed.
End CrudExamples.
