(* ===== verification/Handlers.v ===== *)
(** * HTTP handlers ([atomo_server/src/handlers.rs], [public_read_redirects.rs])

    How a request becomes the context of a GraphQL execution (HTTP and WebSocket), the
    anonymous reads with their redirects, the workflow routes, and the table of routes with
    what guards each. *)

From S2P Require Import Prelude Json StateM Auth SchemaTypes Query SqlBuilder DataClient DataApi Tenancy TableWorld GraphQl.
From S2P Require Workflow.

(** ** Who is asking *)

(** A user bound to a tenant may only use its own. *)
Definition tenant_header_allowed (user_tenant : option string) (header_tenant : string) : bool :=
  match user_tenant with None => true | Some ut => bool_decide (ut = header_tenant) end.

(** The part of [graphql_handler] before the execution: a header that is not allowed is
    dropped, and the tenant bound for row-level security is the same. *)
Definition graphql_context (auth_user : option AuthUser) (x_tenant_id : option string) : GqlCtx :=
  let user_tenant := auth_user ≫= au_tenant in
  let allowed := x_tenant_id ≫= fun tid =>
    if bool_decide (is_Some auth_user) && tenant_header_allowed user_tenant tid then Some tid else None in
  mkCtx (role_debug ∘ au_role <$> auth_user) (au_id <$> auth_user) allowed (mkScope allowed None).

(** [on_connection_init] of [graphql_ws_handler] *)
Definition ws_token (value : Value) : option string :=
  let field := match obj_get "authorization" value with
               | Some v => Some v
               | None => match obj_get "Authorization" value with Some v => Some v | None => obj_get "token" value end
               end in
  (fun s => if String.prefix "Bearer " s then String.substring 7 (String.length s - 7) s else s) <$> (field ≫= value_as_str).
Definition ws_connection_init `{HashOrder} {env : AuthEnv} (now : Z) (value : Value) : Comp AuthDb string GqlCtx :=
  token ← of_option (ws_token value) "WebSocket auth required: missing token in connection_init"%string;
  user ← with_error (fun _ => "WebSocket auth failed: invalid or expired token"%string) (verify_token now token);
  mret (mkCtx (Some (role_debug (au_role user))) (Some (au_id user)) (obj_get "tenant" value ≫= value_as_str) no_scope).

(** ** Redirects of public reads *)

Record Redirect : Type := mkRedirect { rd_to_slug : string; rd_permanent : bool }.
Abbreviation RedirectTable := (gmap (string * string) Redirect).   (* by model and slug *)

Section Redirects.
Context {ho : HashOrder}.

Record RedirectStore : Type := mkRedirects { rs_table : RedirectTable; rs_tick : nat }.
Variable fault : nat -> bool.
Definition rd_statement {A} (f : RedirectTable -> A * RedirectTable) : Comp RedirectStore unit A := fun s =>
  let s1 := mkRedirects (rs_table s) (S (rs_tick s)) in
  if fault (rs_tick s) then (inr tt, s1)
  else let '(a, t) := f (rs_table s1) in (inl a, mkRedirects t (rs_tick s1)).

Definition lookup_redirect (model from_slug : string) : Comp RedirectStore unit (option Redirect) :=
  rd_statement (fun t => (t !! (model, from_slug), t)).
Definition upsert (model from_slug to_slug : string) (permanent : bool) : Comp RedirectStore unit unit :=
  rd_statement (fun t => (tt, <[(model, from_slug) := mkRedirect to_slug permanent]> t)).
Definition remove (model from_slug : string) : Comp RedirectStore unit bool :=
  rd_statement (fun t => (bool_decide (is_Some (t !! (model, from_slug))), base.delete (model, from_slug) t)).
(** [ORDER BY from_slug] *)
Definition slug_le (a b : string * Redirect) : Prop := String.le a.1 b.1.
#[local] Instance slug_le_dec : RelDecision slug_le.
Proof. intros a b. unfold slug_le. apply _. Defined.
Definition redirects_of (model : string) (t : RedirectTable) : list (string * Redirect) :=
  merge_sort slug_le (omap (fun p => if decide (p.1.1 = model) then Some (p.1.2, p.2) else None) (map_to_list t)).
Definition list_all (model : string) : Comp RedirectStore unit (list (string * Redirect)) :=
  rd_statement (fun t => (redirects_of model t, t)).

(** The management routes; who may call them is the router's concern. *)
Definition or_status {A} (status : Z) (m : Comp RedirectStore unit A) : Comp RedirectStore Response A :=
  with_error (fun _ => empty_response status) m.
Definition create_redirect (model from_slug to_slug : string) (permanent : option bool) : Handler RedirectStore :=
  or_status 500 (upsert model from_slug to_slug (default true permanent)) ;;
  mret (empty_response 201).
Definition delete_redirect (model slug : string) : Handler RedirectStore :=
  removed ← or_status 500 (remove model slug);
  mret (empty_response (if removed : bool then 204 else 404)).
Definition redirect_json (model : string) (p : string * Redirect) : Value :=
  json_object [("from_model"%string, VString model); ("from_slug"%string, VString p.1);
    ("to_slug"%string, VString (rd_to_slug p.2)); ("permanent"%string, VBool (rd_permanent p.2))].
Definition list_redirects (model : string) : Handler RedirectStore :=
  items ← or_status 500 (list_all model);
  mret (json_response 200 (json_object [("redirects"%string, VArray (redirect_json model <$> items))])).
End Redirects.

(** ** Public reads *)

Definition comma_char : Ascii.ascii := Ascii.ascii_of_nat 44.
Definition colon_char : Ascii.ascii := Ascii.ascii_of_nat 58.
Definition nonempty (s : string) : bool := bool_decide (s <> EmptyString).

Definition model_in_public_read_allowlist (config model : string) : bool :=
  bool_decide (model ∈ filter (fun v => nonempty v) (trim <$> split_on comma_char config)).
Definition parse_public_read_filters (config : string) : list (string * string) :=
  omap (fun pair => split_once colon_char (trim pair) ≫= fun '(field, value) =>
    if nonempty (trim field) then Some (trim field, trim value) else None) (split_on comma_char config).
Definition parse_public_read_fields (config : string) : list string :=
  filter (fun f => nonempty f) (trim <$> split_on comma_char config).

Definition equals_json (v : string) : Value := VObject [("equals"%string, VString v)].
(** The operator's filters go last and replace what the client asked for. *)
Definition build_public_where (fixed : list (string * string)) (allowed_fields : list string)
    (params : gmap string string) : gmap string Value :=
  let asked := foldl (fun m f => match params !! f with Some v => <[f := equals_json v]> m | None => m end) ∅ allowed_fields in
  foldl (fun m p => <[p.1 := equals_json p.2]> m) asked fixed.

Definition parse_i32 (s : string) : option Z :=
  parse_i64 s ≫= fun n => if decide (- 2 ^ 31 <= n < 2 ^ 31) then Some n else None.

(** What a public read is given besides the data *)
Record PublicConfig : Type := mkPublic {
  pc_models : list string;                      (* [PublicReadModels] *)
  pc_env : string -> option string;
  pc_encode : string -> string;                 (* [urlencoding::encode] *)
  pc_fault : nat -> bool                        (* of the redirect store *)
}.

Section Public.
Context {ho : HashOrder} {W : Type} {api : DataApi W} (pc : PublicConfig).

Definition model_declares_public_read (model : string) : bool :=
  match ((sc_models api_schema !! model) ≫= m_access) ≫= ac_read with
  | Some (RBoolean code) => bool_decide (code = "public"%string)
  | _ => false
  end.
Definition public_read_fixed_filters (model : string) : list (string * string) :=
  parse_public_read_filters (default EmptyString (pc_env pc ("ATOMO_PUBLIC_READ_FILTER_" +:+ model))).
Definition public_read_query_fields (model : string) : list string :=
  parse_public_read_fields (default EmptyString (pc_env pc ("ATOMO_PUBLIC_READ_FIELDS_" +:+ model))).
Definition public_limit (params : gmap string string) : Z :=
  clamp 1 100 (default 100 ((params !! "limit"%string) ≫= parse_i32)).
Definition public_where (model : string) (params : gmap string string) : Value :=
  object_of_map (build_public_where (public_read_fixed_filters model) (public_read_query_fields model) params).

Definition join_query (l : list string) : string :=
  match l with [] => EmptyString | x :: r => foldl (fun acc y => acc +:+ "&" +:+ y) x r end.
Definition redirect_location (model : string) (params : gmap string string) (to_slug : string) : string :=
  let target := <["slug"%string := to_slug]> params in
  "/public/records/" +:+ model +:+ "?" +:+
    join_query ((fun p => p.1 +:+ "=" +:+ pc_encode pc p.2) <$> hpairs target).

(** The state: the data and the redirects *)
Definition PublicState : Type := (W * RedirectStore)%type.
Definition on_data {A} (m : Comp W GqlError A) : Comp PublicState GqlError A := on fst (fun w s => (w, s.2)) m.
Definition on_redirects {A} (m : Comp RedirectStore unit A) : Comp PublicState unit A := on snd (fun r s => (s.1, r)) m.

Definition redirect_response (model : string) (params : gmap string string) (r : Redirect) : Response :=
  mkResponse (if rd_permanent r then 301 else 302)
    [("location"%string, redirect_location model params (rd_to_slug r))] NoBody.
Definition public_records (model : string) (params : gmap string string) : Handler PublicState :=
  check (if bool_decide (model ∈ pc_models pc) && model_declares_public_read model then None else Some (empty_response 404)) ;;
  items ← with_error (fun _ => empty_response 403)
            (on_data (records anonymous model (Some (public_where model params)) None (Some (public_limit params)) None));
  let shown := json_response 200 (json_object [("items"%string, VArray (object_of_map <$> items))]) in
  match items, params !! "slug"%string with
  | [], Some slug =>
      found ← try (on_redirects (lookup_redirect (pc_fault pc) model slug));
      mret (match found with inl (Some r) => redirect_response model params r | _ => shown end)
  | _, _ => mret shown
  end.
End Public.

(** ** Workflows *)

Section Workflows.
Context {ho : HashOrder} {W : Type} (ex : Workflow.Executors (W := W)) (http_failed : string -> Z -> string).

Record EngineState : Type := mkEngine {
  en_registry : gmap string Workflow.Workflow;
  en_persisted : gmap string Workflow.Workflow;   (* the table's definitions *)
  en_world : W;
  en_statements : nat
}.
Variable fault : nat -> bool.
(** A statement of the engine's table; its failure is ignored by the routes. *)
Definition persist_step (f : gmap string Workflow.Workflow -> gmap string Workflow.Workflow) (s : EngineState) : EngineState :=
  mkEngine (en_registry s) (if fault (en_statements s) then en_persisted s else f (en_persisted s)) (en_world s)
    (S (en_statements s)).
Definition set_registry (r : gmap string Workflow.Workflow) (s : EngineState) : EngineState :=
  mkEngine r (en_persisted s) (en_world s) (en_statements s).

Definition register_workflow (w : Workflow.Workflow) : Handler EngineState :=
  step (fun s => (tt, persist_step (fun t => <[Workflow.wf_name w := w]> t)
                        (set_registry (Workflow.register w (en_registry s)) s))) ;;
  mret (json_response 200 (json_object [("registered"%string, VString (Workflow.wf_name w))])).
Definition delete_workflow (name : string) : Handler EngineState :=
  removed ← step (fun s => let '(gone, r) := Workflow.remove name (en_registry s) in (gone, set_registry r s));
  if removed : bool then
    step (fun s => (tt, persist_step (base.delete name) s)) ;;
    mret (json_response 200 (json_object [("removed"%string, VString name)]))
  else mret (empty_response 404).
Definition get_workflow (name : string) : Comp EngineState Response Workflow.Workflow :=
  found ← asks (fun s => Workflow.get name (en_registry s));
  of_option found (empty_response 404).
Definition list_workflows : Comp EngineState Response (list string) :=
  asks (fun s => Workflow.list_workflows (en_registry s)).
Definition status_debug (s : Workflow.ExecutionStatus) : string :=
  match s with Workflow.Running => "Running" | Workflow.Completed => "Completed" | Workflow.Failed => "Failed" | Workflow.Paused => "Paused" end.
Definition run_workflow (name : string) (context : gmap string Value) : Handler EngineState :=
  done ← step (fun s =>
    match Workflow.execute ex http_failed name context (en_registry s) (en_world s) with
    | Some (exec, w) => (Some exec, mkEngine (en_registry s) (en_persisted s) w (en_statements s))
    | None => (None, s)
    end);
  exec ← of_option done (empty_response 404);
  mret (json_response 200 (json_object
    [("workflow"%string, VString (Workflow.x_workflow_name exec)); ("status"%string, VString (status_debug (Workflow.x_status exec)));
     ("steps_run"%string, json_int (Z.of_nat (Workflow.x_current_step exec) + 1));
     ("errors"%string, VArray (VString <$> Workflow.x_errors exec))])).
End Workflows.

(** * What anonymous readers are shown, and whose tenant a request has *)

(** ** The tenant of a request *)

(** It is the header's, if there is a user who is not bound to another one. *)
Lemma graphql_context_tenant user header t :
  cx_tenant (graphql_context user header) = Some t <->
    header = Some t /\ exists u, user = Some u /\ (au_tenant u = None \/ au_tenant u = Some t).
Proof.
  unfold graphql_context. cbn. destruct header as [h|]; cbn; [|split; [done|by intros [? _]]].
  destruct user as [u|]; cbn; [|split; [done|by intros [_ (? & ? & _)]]]. unfold tenant_header_allowed.
  destruct (au_tenant u) as [b|] eqn:Eb; [case_bool_decide as E|]; split.
  - intros [= <-]. split; [done|]. exists u. split; [done|]. right. by rewrite Eb, E.
  - by intros [[= ->] _].
  - done.
  - intros [[= ->] (u' & [= <-] & [?|Hu])]; congruence.
  - intros [= <-]. split; [done|]. exists u. split; [done|]. by left.
  - by intros [[= ->] _].
Qed.
Lemma graphql_context_scope user header : so_tenant (cx_scope (graphql_context user header)) = cx_tenant (graphql_context user header).
Proof. done. Qed.

(** ** The filter of a public read *)

Section Where.
Lemma equals_condition f v : parse_condition f (equals_json v) = [mkWhere f Equals (VString v)].
Proof. done. Qed.
Lemma parse_where_map m c : c ∈ parse_where (object_of_map m) <-> exists f v, m !! f = Some v /\ c ∈ parse_condition f v.
Proof.
  unfold parse_where, object_of_map. rewrite list_elem_of_bind. split.
  - intros ([f v] & Hc & Hin). rewrite merge_sort_Permutation in Hin. apply elem_of_map_to_list in Hin. by exists f, v.
  - intros (f & v & Hm & Hc). exists (f, v). split; [done|]. rewrite merge_sort_Permutation. by apply elem_of_map_to_list.
Qed.

(** The last of the pairs of a field *)
Definition forced (fixed : list (string * string)) (f : string) : option string := assoc f (reverse fixed).
Lemma forced_snoc fixed f v g : forced (fixed ++ [(f, v)]) g = if decide (f = g) then Some v else forced fixed g.
Proof. unfold forced. rewrite reverse_snoc. cbn. done. Qed.

Lemma asked_lookup (params : gmap string string) allowed f :
  foldl (fun m f => match params !! f with Some v => <[f := equals_json v]> m | None => m end) (∅ : gmap string Value) allowed !! f =
    if decide (f ∈ allowed) then equals_json <$> (params !! f) else None.
Proof.
  induction allowed as [|g l IH] using rev_ind; [done|]. rewrite foldl_snoc.
  destruct (params !! g) as [v|] eqn:Eg.
  - destruct (decide (g = f)) as [->|Hne].
    + rewrite lookup_insert_eq, decide_True by set_solver. by rewrite Eg.
    + rewrite lookup_insert_ne, IH by done. destruct (decide (f ∈ l)), (decide (f ∈ l ++ [g])); set_solver.
  - rewrite IH. destruct (decide (f ∈ l)) as [Hl|Hl], (decide (f ∈ l ++ [g])) as [Hg|Hg]; try done; [set_solver|].
    assert (f = g) as -> by set_solver. by rewrite Eg.
Qed.
Lemma public_lookup fixed allowed params f :
  build_public_where fixed allowed params !! f =
    match forced fixed f with
    | Some v => Some (equals_json v)
    | None => if decide (f ∈ allowed) then equals_json <$> (params !! f) else None
    end.
Proof.
  unfold build_public_where. induction fixed as [|[g v] l IH] using rev_ind; [cbn [foldl]; by rewrite asked_lookup|].
  rewrite foldl_snoc, forced_snoc. cbn [fst snd]. destruct (decide (g = f)) as [->|Hne]; [by rewrite lookup_insert_eq|].
  by rewrite lookup_insert_ne.
Qed.

(** The clauses a public read is narrowed to *)
Definition public_clause (fixed : list (string * string)) (allowed : list string) (params : gmap string string)
    (c : WhereClause) : Prop :=
  wc_operator c = Equals /\ exists v, wc_value c = VString v /\
    (forced fixed (wc_field c) = Some v \/
     (forced fixed (wc_field c) = None /\ wc_field c ∈ allowed /\ params !! wc_field c = Some v)).
Lemma public_clauses_spec fixed allowed params c :
  c ∈ parse_where (object_of_map (build_public_where fixed allowed params)) <-> public_clause fixed allowed params c.
Proof.
  rewrite parse_where_map. unfold public_clause. split.
  - intros (f & x & Hm & Hc). rewrite public_lookup in Hm. destruct (forced fixed f) as [v|] eqn:Ef.
    + injection Hm as <-. rewrite equals_condition in Hc. apply list_elem_of_singleton in Hc as ->. cbn. rewrite Ef. eauto.
    + destruct (decide (f ∈ allowed)); [|done]. destruct (params !! f) as [v|] eqn:Ep; [|done]. injection Hm as <-.
      rewrite equals_condition in Hc. apply list_elem_of_singleton in Hc as ->. cbn. rewrite Ef, Ep. eauto 8.
  - intros (Ho & v & Hv & Hf). exists (wc_field c), (equals_json v). rewrite public_lookup, equals_condition.
    split; [|apply list_elem_of_singleton; destruct c; cbn in *; congruence].
    destruct Hf as [->|(-> & Hin & ->)]; [done|]. by rewrite decide_True.
Qed.
End Where.

Section Public.
Context {ho : HashOrder} {W : Type} {api : DataApi W} (pc : PublicConfig).
Definition approved (model : string) : Prop := model ∈ pc_models pc /\ model_declares_public_read model = true.
Definition public_clauses (model : string) (params : gmap string string) : list WhereClause :=
  parse_where (public_where pc model params).

Lemma public_unlisted model params s :
  ~ approved model -> respond (public_records pc model params) s = (empty_response 404, s).
Proof.
  intros Hn. unfold respond, public_records, mbind, Comp_bind.
  assert (bool_decide (model ∈ pc_models pc) && model_declares_public_read model = false) as ->; [|done].
  unfold approved in Hn. case_bool_decide; [|done]. destruct (model_declares_public_read model); [tauto|done].
Qed.

(** What an approved read does *)
Lemma public_cases model params w rd :
  let r := respond (public_records pc model params) (w, rd) in
  let read := api_find_many no_scope model (public_clauses model params) [] (Some (as_usize (public_limit params))) None w in
  rs_table r.2.2 = rs_table rd /\
  ((rs_status r.1 = 200 /\ exists docs, read = (inl docs, r.2.1) /\
      rs_body r.1 = JsonBody (json_object [("items"%string, VArray (object_of_map <$> (camel_keys <$> docs)))])) \/
   (rs_status r.1 ∈ [301; 302] /\ read = (inl [], r.2.1) /\ exists slug to, (params !! "slug"%string) = Some slug /\
      rs_table rd !! (model, slug) = Some to /\ r.1 = redirect_response pc model params to) \/
   (rs_status r.1 ∈ [403; 404] /\ rs_body r.1 = NoBody)).
Proof.
  unfold respond, public_records. unfold mbind, Comp_bind.
  destruct (bool_decide _ && _) eqn:Ha; [|cbn; split; [done|]; right; right; split; [set_solver|done]].
  cbn [check]. unfold mret, Comp_ret, with_error, on_data, on, records, guard, mbind, Comp_bind.
  destruct (check_access _ _ _ _) eqn:Hg; cbn [check throw fst snd]; [split; [done|]; right; right; split; [set_solver|done]|].
  unfold mret, Comp_ret, client, with_error. cbn [cx_scope anonymous cx_tenant].
  change (scoped_opt anonymous (Some (public_where pc model params))) with
    (scope_by_tenant (parse_where (public_where pc model params)) None).
  change (scope_by_tenant (parse_where (public_where pc model params)) None) with (public_clauses model params).
  unfold orders. cbn [fmap option_fmap option_map default from_option id].
  destruct (api_find_many _ _ _ _ _ _ w) as [[docs|e] w1] eqn:E; cbn -[public_clauses];
    [|split; [done|]; right; right; split; [set_solver|done]].
  destruct docs as [|d docs]; cbn [fmap list_fmap]; [|split; [done|]; left; split; [done|]; by exists (d :: docs)].
  destruct (params !! "slug"%string) as [slug|] eqn:Es; [|split; [done|]; left; split; [done|]; by exists []].
  unfold try, on_redirects, on, lookup_redirect, rd_statement. cbn. destruct (pc_fault pc _); cbn.
  - split; [done|]. left. split; [done|]. by exists [].
  - destruct (rs_table rd !! (model, slug)) as [to|] eqn:Er; cbn; (split; [done|]).
    + right. left. split; [destruct (rd_permanent to); set_solver|]. split; [done|]. by exists slug, to.
    + left. split; [done|]. by exists [].
Qed.
End Public.

(** anonymous reads are as narrow as the operator made them.  A model that is not both listed
    and declared public is not found and nothing is read.  A list of items is the answer of
    one read of at most a hundred rows, narrowed by exactly the operator's fixed filters and,
    for the fields the operator opened and did not fix, what the client asked for: no query
    can widen or replace a fixed filter.  A redirect is one an operator stored for that slug,
    given only when nothing was found, and reading never changes the redirects. *)
Theorem public_read_confined {ho : HashOrder} {W : Type} (api : DataApi W) (pc : PublicConfig) (model : string)
    (params : gmap string string) (w : W) (rd : RedirectStore) :
  let r := respond (public_records pc model params) (w, rd) in
  let limit := as_usize (public_limit params) in
  let read := api_find_many no_scope model (public_clauses pc model params) [] (Some limit) None w in
  (forall c, c ∈ public_clauses pc model params <->
     public_clause (public_read_fixed_filters pc model) (public_read_query_fields pc model) params c) /\
  (1 <= limit <= 100)%nat /\
  (~ approved pc model -> r = (empty_response 404, (w, rd))) /\
  rs_table r.2.2 = rs_table rd /\
  ((rs_status r.1 = 200 /\ exists docs, read = (inl docs, r.2.1) /\
      rs_body r.1 = JsonBody (json_object [("items"%string, VArray (object_of_map <$> (camel_keys <$> docs)))])) \/
   (rs_status r.1 ∈ [301; 302] /\ read = (inl [], r.2.1) /\ exists slug to, (params !! "slug"%string) = Some slug /\
      rs_table rd !! (model, slug) = Some to /\ r.1 = redirect_response pc model params to) \/
   (rs_status r.1 ∈ [403; 404] /\ rs_body r.1 = NoBody)).
Proof.
  intros r limit read. split; [intros c; apply public_clauses_spec|]. split.
  { subst limit. unfold as_usize, public_limit, wrap_u64.
    pose proof (clamp_range 1 100 (default 100 ((params !! "limit"%string) ≫= parse_i32))). rewrite Z.mod_small by lia. lia. }
  split; [apply public_unlisted|]. apply public_cases.
Qed.

(** ** A site with one public model *)

Module SiteExamples.
#[local] Existing Instance enum_order.
#[local] Open Scope string_scope.

Definition article : Model :=
  mkModel "Article" ∅ (Some (mkAccess None (Some (RBoolean "public")) None None)) None ∅ None ∅ [] events_default None.
Definition site : Schema := mkSchema {["Article" := article; "Note" := bare_model "Note" ∅ None]} ∅ ∅ [].
#[local] Instance world : DataApi (list Doc) := table_api site.
Definition doc (slug status : string) : Doc := <["slug" := VString slug]> {["status" := VString status]}.
Definition docs : list Doc := [doc "a" "published"; doc "b" "draft"; doc "c" "published"].

Definition env (name : string) : option string :=
  if decide (name = "ATOMO_PUBLIC_READ_FILTER_Article") then Some "status:published"
  else if decide (name = "ATOMO_PUBLIC_READ_FIELDS_Article") then Some "slug, status" else None.
Definition pc : PublicConfig := mkPublic ["Article"] env (fun s => s) (fun _ => false).
Definition rd : RedirectStore := mkRedirects {[("Article", "old") := mkRedirect "a" true]} 0.
Definition get (model : string) (params : gmap string string) : Response := (respond (public_records pc model params) (docs, rd)).1.
Definition items (r : Response) : nat :=
  match rs_body r with JsonBody (VObject [(_, VArray l)]) => length l | _ => 0%nat end.

(** Asking for drafts is asking for published articles; an old slug is redirected. *)
Example reads :
  items (get "Article" ∅) = 2%nat /\ items (get "Article" {["status" := "draft"]}) = 2%nat /\
  items (get "Article" {["slug" := "b"]}) = 0%nat /\ rs_status (get "Note" ∅) = 404 /\
  rs_headers (get "Article" {["slug" := "old"]}) = [("location", "/public/records/Article?slug=a")].
Proof. vm_compute. done. Qed.

Lemma public_read_confined_witness :
  respond (public_records pc "Note" ∅) (docs, rd) = (empty_response 404, (docs, rd)).
Proof.
  destruct (public_read_confined world pc "Note" ∅ docs rd) as (_ & _ & H & _). apply H.
  intros [Hin _]. apply list_elem_of_singleton in Hin. discriminate Hin.
Defined.

(** A user bound to a tenant who sends no header, or another tenant's, is not narrowed. *)
Definition ann : AuthUser := mkAuthUser "u1" "ann@x.io" Viewer "s1" (Some "acme").
Example header_is_the_scope :
  cx_tenant (graphql_context (Some ann) (Some "acme")) = Some "acme" /\
  cx_tenant (graphql_context (Some ann) (Some "globex")) = None /\
  TableExamples.titles (TableExamples.docs_of
    (resolve (api := TableExamples.world) (graphql_context (Some ann) (Some "globex")) (ORecords "Note" None None None None)
       TableExamples.two).1) = [Some "a"; Some "b"].
Proof. vm_compute. done. Qed.
End SiteExamples.
