(* ===== verification/Rls.v ===== *)
(** * Row-level security ([atomo_server/src/rls.rs])

    The statements that put a tenant policy on a table, their installation at boot in one
    transaction, the check of the connection's role, and the binding of a request's tenant.
    What the statements do is PostgreSQL's: [PolicyDb] states the documented part of it. *)

From S2P Require Import Prelude Json SqlBuilder SqlLex SqlSpec SchemaTypes.

Definition TENANT_SETTING : string := "atomo.tenant_id".
Definition POLICY_NAME : string := "atomo_tenant_isolation".

Definition rls_enabled (env : string -> option string) : bool :=
  match env "ATOMO_ENABLE_RLS"%string with Some v => bool_decide (v = "true"%string \/ v = "1"%string) | None => false end.

Definition tenant_predicate : string :=
  "tenant_id IS NULL OR tenant_id = current_setting('" +:+ TENANT_SETTING +:+ "', true)".
Definition enable_rls (table : string) : string := "ALTER TABLE " +:+ quote_ident table +:+ " ENABLE ROW LEVEL SECURITY;".
Definition force_rls (table : string) : string := "ALTER TABLE " +:+ quote_ident table +:+ " FORCE ROW LEVEL SECURITY;".
Definition drop_policy (table : string) : string :=
  "DROP POLICY IF EXISTS " +:+ quote_ident POLICY_NAME +:+ " ON " +:+ quote_ident table +:+ ";".
Definition create_policy (table : string) : string :=
  "CREATE POLICY " +:+ quote_ident POLICY_NAME +:+ " ON " +:+ quote_ident table +:+
  " USING (" +:+ tenant_predicate +:+ ") WITH CHECK (" +:+ tenant_predicate +:+ ");".
Definition policy_statements_for (table : string) : list string :=
  [enable_rls table; force_rls table; drop_policy table; create_policy table].

(** [check_connection_role]: the row of the current role, or a query error *)
Definition role_message (role why : string) : string :=
  "ATOMO_ENABLE_RLS is on but database role '" +:+ role +:+ "' has " +:+ why +:+
  " — row-level security is silently inert for this connection. Connect as a non-superuser, non-BYPASSRLS role, or set ATOMO_RLS_ALLOW_BYPASS_ROLE=true to proceed anyway.".
Definition check_connection_role (row : (string * bool * bool) + string) (allow_bypass : bool) : option string :=
  match row with
  | inr e => Some e
  | inl (role, rolsuper, rolbypassrls) =>
      if negb rolsuper && negb rolbypassrls then None
      else if allow_bypass then None
      else Some (role_message role (match rolsuper, rolbypassrls with
                                    | true, true => "SUPERUSER and BYPASSRLS"
                                    | true, false => "SUPERUSER"
                                    | _, _ => "BYPASSRLS"
                                    end))
  end.

(** ** Installation *)

Section Install.
Context {D : Type}.
Variable exec : string -> D -> D + string.
Variable begin commit : option string.    (* a failure of the transaction's ends *)

Fixpoint run_all (stmts : list string) (d : D) : D + string :=
  match stmts with
  | [] => inl d
  | s :: rest => match exec s d with inl d' => run_all rest d' | inr e => inr e end
  end.
Fixpoint install_all (tables : list string) (d : D) : D + string :=
  match tables with
  | [] => inl d
  | t :: rest =>
      match run_all (policy_statements_for t) d with
      | inl d' => install_all rest d'
      | inr e => inr ("RLS policy installation failed for table '" +:+ t +:+ "'; refusing startup")
      end
  end.
(** A failed transaction is dropped, which rolls it back. *)
Definition ensure_rls_policies (table_names : list string) (enabled : bool) (d : D) : (unit + string) * D :=
  if negb enabled then (inl tt, d) else
  match begin with
  | Some _ => (inr "begin RLS policy installation"%string, d)
  | None =>
      match install_all (merge_sort String.le table_names) d with
      | inr e => (inr e, d)
      | inl d' => match commit with Some _ => (inr "commit RLS policy installation"%string, d) | None => (inl tt, d') end
      end
  end.
End Install.

(** [bind_tenant]: the transaction's settings *)
Definition bind_tenant (tenant_id : option string) (settings : gmap string string) : gmap string string :=
  match tenant_id with Some tid => <[TENANT_SETTING := tid]> settings | None => settings end.

(** The tables policies are put on ([Server::run]): real entities only *)
Definition rls_tables `{HashOrder} (sc : Schema) : list string :=
  table_name <$> filter (fun m => m_fields m !! "_enum_type"%string = None /\ is_Some (m_fields m !! "id"%string)) (hvalues (sc_models sc)).

(** ** What the statements say *)

#[local] Open Scope string_scope.

(** The predicate of a policy, over the columns of a row and the settings of the transaction *)
Inductive Operand : Type :=
  | Column (name : string)
  | Setting (name : string).            (* [current_setting(name, true)] *)
Inductive Predicate : Type :=
  | IsNull (o : Operand)
  | Equal (a b : Operand)
  | Or (p q : Predicate).

(** *** Read off the tokens *)

Definition read_operand (ts : list token) : option (Operand * list token) :=
  match ts with
  | TWord f :: TSym o :: TStr name :: TSym c :: TWord missing_ok :: TSym e :: rest =>
      if decide (f = "current_setting" /\ TSym o = sym "(" /\ TSym c = sym "," /\ missing_ok = "true" /\ TSym e = sym ")")
      then Some (Setting name, rest) else None
  | TWord c :: rest => Some (Column c, rest)
  | _ => None
  end.
Definition read_test (ts : list token) : option (Predicate * list token) :=
  '(a, rest) ← read_operand ts;
  match rest with
  | TWord is_ :: TWord null :: rest => if decide (is_ = "IS" /\ null = "NULL") then Some (IsNull a, rest) else None
  | TSym e :: rest => if decide (TSym e = sym "=") then '(b, rest) ← read_operand rest; Some (Equal a b, rest) else None
  | _ => None
  end.
Fixpoint read_predicate (fuel : nat) (ts : list token) : option (Predicate * list token) :=
  match fuel with
  | O => None
  | S fuel =>
      '(p, rest) ← read_test ts;
      match rest with
      | TWord w :: more => if decide (w = "OR") then '(q, rest) ← read_predicate fuel more; Some (Or p q, rest) else Some (p, rest)
      | _ => Some (p, rest)
      end
  end.
(** A predicate in parentheses *)
Definition read_group (ts : list token) : option (Predicate * list token) :=
  match ts with
  | TSym o :: rest =>
      if decide (TSym o = sym "(") then
        '(p, rest) ← read_predicate (length rest) rest;
        match rest with TSym e :: rest => if decide (TSym e = sym ")") then Some (p, rest) else None | _ => None end
      else None
  | _ => None
  end.

(** The statements that change a table's security; [WITH CHECK] may be left out. *)
Inductive Ddl : Type :=
  | Enable (t : string) | Force (t : string) | Drop (p t : string)
  | Create (p t : string) (seen : Predicate) (accepted : option Predicate).
Definition read_tokens (ts : list token) : option Ddl :=
  match ts with
  | TWord "ALTER" :: TWord "TABLE" :: TIdent t :: rest =>
      if decide (rest = words ["ENABLE"; "ROW"; "LEVEL"; "SECURITY"]) then Some (Enable t)
      else if decide (rest = words ["FORCE"; "ROW"; "LEVEL"; "SECURITY"]) then Some (Force t) else None
  | [TWord "DROP"; TWord "POLICY"; TWord "IF"; TWord "EXISTS"; TIdent p; TWord "ON"; TIdent t] => Some (Drop p t)
  | TWord "CREATE" :: TWord "POLICY" :: TIdent p :: TWord "ON" :: TIdent t :: TWord "USING" :: rest =>
      '(seen, rest) ← read_group rest;
      match rest with
      | [] => Some (Create p t seen None)
      | TWord "WITH" :: TWord "CHECK" :: rest =>
          '(accepted, rest) ← read_group rest; match rest with [] => Some (Create p t seen (Some accepted)) | _ => None end
      | _ => None
      end
  | _ => None
  end.
Definition read_ddl (s : string) : option Ddl := t ← before_semicolon s; ts ← lex t; read_tokens ts.

(** *** What it means to a row *)

Abbreviation Row := (string -> option string).
Definition operand_value (settings : gmap string string) (row : Row) (o : Operand) : option string :=
  match o with Column c => row c | Setting n => settings !! n end.
(** SQL's three values; a comparison with null is unknown. *)
Fixpoint truth_of (settings : gmap string string) (row : Row) (p : Predicate) : option bool :=
  match p with
  | IsNull o => Some (bool_decide (operand_value settings row o = None))
  | Equal a b => x ← operand_value settings row a; y ← operand_value settings row b; Some (bool_decide (x = y))
  | Or p q =>
      match truth_of settings row p, truth_of settings row q with
      | Some true, _ | _, Some true => Some true
      | Some false, Some false => Some false
      | _, _ => None
      end
  end.

(** *** What PostgreSQL documents *)

(** Without [WITH CHECK] the other predicate serves for both. *)
Record Policy : Type := mkPolicy { po_using : Predicate; po_check : Predicate }.

(** A database with tables, each with its flags and its permissive policies by name *)
Record PolicyDb (D : Type) : Type := mkPolicyDb {
  pd_enabled : D -> string -> bool;
  pd_forced : D -> string -> bool;
  pd_policies : D -> string -> gmap string Policy
}.
Arguments pd_enabled {D}. Arguments pd_forced {D}. Arguments pd_policies {D}.

(** The state of one table, and what a statement makes of it *)
Abbreviation TableState := (bool * bool * gmap string Policy)%type.
Definition on_table {D} (db : PolicyDb D) (d : D) (t : string) : TableState :=
  (pd_enabled db d t, pd_forced db d t, pd_policies db d t).
Definition ddl_table (c : Ddl) : string := match c with Enable t | Force t | Drop _ t | Create _ t _ _ => t end.
Definition ddl_effect (c : Ddl) (x : TableState) : TableState :=
  match c with
  | Enable _ => (true, x.1.2, x.2)
  | Force _ => (x.1.1, true, x.2)
  | Drop p _ => (x.1, base.delete p x.2)
  | Create p _ seen accepted => (x.1, <[p := mkPolicy seen (default seen accepted)]> x.2)
  end.
(** A statement that succeeds does what it says to its table, and nothing to others. *)
Definition PostgresPolicies {D : Type} (db : PolicyDb D) (exec : string -> D -> D + string) : Prop :=
  forall s c d d', read_ddl s = Some c -> exec s d = inl d' ->
    forall t, on_table db d' t = if decide (t = ddl_table c) then ddl_effect c (on_table db d t) else on_table db d t.

(** Permissive policies are alternatives: a row is seen, and one that is written is accepted,
    if one of them says so; where security is not in force for everybody, always. *)
Definition permitted {D} (part : Policy -> Predicate) (db : PolicyDb D) (d : D) (t : string) (settings : gmap string string) (row : Row)
    : Prop :=
  if pd_enabled db d t && pd_forced db d t
  then exists n p, pd_policies db d t !! n = Some p /\ truth_of settings row (part p) = Some true else True.
Definition visible {D} : PolicyDb D -> D -> string -> gmap string string -> Row -> Prop := permitted po_using.
Definition writable {D} : PolicyDb D -> D -> string -> gmap string string -> Row -> Prop := permitted po_check.

(** ** The policy statements, read *)

Lemma read_lexes s ts c : lexes s ts -> read_tokens ts = Some c -> read_ddl (s +:+ ";") = Some c.
Proof. unfold read_ddl, lexes. intros Hl Hr. change ";" with (String statement_end EmptyString). by rewrite before_semicolon_app; cbn; rewrite Hl. Qed.

(** What the policy lets through *)
Definition isolating (p : Predicate) : Prop := forall settings row,
  truth_of settings row p = Some true <-> row "tenant_id" = None \/ exists t, row "tenant_id" = Some t /\ settings !! TENANT_SETTING = Some t.

Lemma reads_enable t : read_ddl (enable_rls t) = Some (Enable t).
Proof.
  unfold enable_rls. change " ENABLE ROW LEVEL SECURITY;" with (" ENABLE ROW LEVEL SECURITY" +:+ ";").
  rewrite <-(str_app_assoc (quote_ident t)), <-(str_app_assoc "ALTER TABLE ").
  apply (read_lexes _ ([TWord "ALTER"; TWord "TABLE"] ++ [TIdent t] ++ words ["ENABLE"; "ROW"; "LEVEL"; "SECURITY"])); [|done].
  apply lexes_after; [done|]. by apply lexes_app; [apply lexes_ident|reflexivity|].
Qed.
Lemma reads_force t : read_ddl (force_rls t) = Some (Force t).
Proof.
  unfold force_rls. change " FORCE ROW LEVEL SECURITY;" with (" FORCE ROW LEVEL SECURITY" +:+ ";").
  rewrite <-(str_app_assoc (quote_ident t)), <-(str_app_assoc "ALTER TABLE ").
  apply (read_lexes _ ([TWord "ALTER"; TWord "TABLE"] ++ [TIdent t] ++ words ["FORCE"; "ROW"; "LEVEL"; "SECURITY"])); [|done].
  apply lexes_after; [done|]. by apply lexes_app; [apply lexes_ident|reflexivity|].
Qed.
Lemma reads_drop t : read_ddl (drop_policy t) = Some (Drop POLICY_NAME t).
Proof.
  unfold drop_policy. rewrite <-!str_app_assoc.
  apply (read_lexes _ (words ["DROP"; "POLICY"; "IF"; "EXISTS"] ++ [TIdent POLICY_NAME] ++ [TWord "ON"] ++ [TIdent t])); [|done].
  rewrite !str_app_assoc. apply lexes_after; [done|]. apply lexes_app; [apply lexes_ident| |done].
  apply lexes_after; [done|apply lexes_ident].
Qed.
(** The policy's text reads as a policy whose two predicates let through the rows without a
    tenant and those of the tenant in the setting. *)
Lemma reads_create t : exists seen accepted,
  read_ddl (create_policy t) = Some (Create POLICY_NAME t seen accepted) /\ isolating seen /\ isolating (default seen accepted).
Proof.
  pose (tail := " USING (" +:+ tenant_predicate +:+ ") WITH CHECK (" +:+ tenant_predicate +:+ ")").
  destruct (lex tail) as [ts|] eqn:Hts; [|by vm_compute in Hts]. vm_compute in Hts. injection Hts as Hts.
  assert (Hr : exists p, read_tokens ([TWord "CREATE"; TWord "POLICY"; TIdent POLICY_NAME; TWord "ON"; TIdent t] ++ ts)%list =
      Some (Create POLICY_NAME t p (Some p)) /\ isolating p).
  { eexists. split; [rewrite <-Hts; vm_compute; reflexivity|]. intros settings row. cbn [truth_of operand_value].
    destruct (row "tenant_id") as [x|]; cbn; [|naive_solver].
    change (settings !! "atomo.tenant_id") with (settings !! TENANT_SETTING). destruct (settings !! TENANT_SETTING) as [y|]; cbn; [|naive_solver].
    case_bool_decide; naive_solver. }
  destruct Hr as (p & Hr & Hp). exists p, (Some p). split; [|done].
  assert (create_policy t = ("CREATE POLICY " +:+ quote_ident POLICY_NAME +:+ " ON " +:+ quote_ident t +:+ tail) +:+ ";") as ->
    by (unfold create_policy, tail; by rewrite !str_app_assoc).
  eapply read_lexes; [|exact Hr].
  apply (lexes_after "CREATE POLICY " _ [TWord "CREATE"; TWord "POLICY"]); [done|].
  apply (lexes_app (quote_ident POLICY_NAME) _ [TIdent POLICY_NAME]); [apply lexes_ident| |done].
  apply (lexes_after " ON " _ [TWord "ON"]); [done|].
  apply (lexes_app (quote_ident t) _ [TIdent t]); [apply lexes_ident| |done]. rewrite <-Hts. by vm_compute.
Qed.

Section Spec.
Context {D : Type} (db : PolicyDb D) (exec : string -> D -> D + string).
Hypothesis pg : PostgresPolicies db exec.

(** The table has the policy in force. *)
Definition guarded (d : D) (t : string) : Prop :=
  pd_enabled db d t = true /\ pd_forced db d t = true /\
  exists p, pd_policies db d t !! POLICY_NAME = Some p /\ isolating (po_using p) /\ isolating (po_check p).
(** As before but for the policy *)
Definition policies_same (d d' : D) (t : string) : Prop :=
  base.delete POLICY_NAME (pd_policies db d' t) = base.delete POLICY_NAME (pd_policies db d t).

Lemma statements_guard t d d' : run_all exec (policy_statements_for t) d = inl d' ->
  guarded d' t /\ policies_same d d' t /\ (forall u, u <> t -> on_table db d' u = on_table db d u).
Proof.
  unfold policy_statements_for. cbn [run_all].
  destruct (exec (enable_rls t) d) as [d1|] eqn:E1; [|done]. destruct (exec (force_rls t) d1) as [d2|] eqn:E2; [|done].
  destruct (exec (drop_policy t) d2) as [d3|] eqn:E3; [|done]. destruct (exec (create_policy t) d3) as [d4|] eqn:E4; [|done].
  intros [= <-]. destruct (reads_create t) as (seen & accepted & Hc & Hu & Hk).
  pose proof (pg _ _ _ _ (reads_enable t) E1) as H1. pose proof (pg _ _ _ _ (reads_force t) E2) as H2.
  pose proof (pg _ _ _ _ (reads_drop t) E3) as H3. pose proof (pg _ _ _ _ Hc E4) as H4. cbn [ddl_table] in *.
  assert (Ht : on_table db d4 t =
    (true, true, <[POLICY_NAME := mkPolicy seen (default seen accepted)]> (base.delete POLICY_NAME (pd_policies db d t)))).
  { rewrite H4, decide_True, H3, decide_True, H2, decide_True, H1, decide_True by done. reflexivity. }
  unfold on_table in Ht. injection Ht as He Hf Hp. split; [|split].
  - unfold guarded. rewrite Hp. split_and!; [done|done|]. eexists. rewrite lookup_insert_eq. by split_and!.
  - unfold policies_same. by rewrite Hp, delete_insert_eq, delete_delete_eq.
  - intros u Hne. by rewrite H4, decide_False, H3, decide_False, H2, decide_False, H1, decide_False by done.
Qed.

Lemma install_guards tables d d' : install_all exec tables d = inl d' ->
  (forall t, t ∈ tables -> guarded d' t) /\ (forall t, policies_same d d' t) /\
  (forall t, t ∉ tables -> on_table db d' t = on_table db d t).
Proof.
  revert d. induction tables as [|t rest IH]; intros d; cbn [install_all].
  { intros [= <-]. split_and!; [|done|done]. by intros t Ht%elem_of_nil. }
  destruct (run_all exec _ d) as [d1|] eqn:E; [|done]. intros Hr. apply statements_guard in E as (Hg & Hp & Ho).
  destruct (IH d1 Hr) as (Hi & Hs & Hn). split_and!.
  - intros u [->|Hu]%elem_of_cons; [|by apply Hi]. destruct (decide (t ∈ rest)) as [Hin|Hin]; [by apply Hi|].
    apply Hn in Hin. unfold guarded in *. unfold on_table in Hin. injection Hin as -> -> ->. done.
  - intros u. unfold policies_same in *. rewrite Hs. destruct (decide (u = t)) as [->|Hne]; [done|].
    specialize (Ho u Hne). unfold on_table in Ho. by injection Ho as _ _ ->.
  - intros u Hu. apply not_elem_of_cons in Hu as [Hne Hu]. by rewrite Hn, Ho.
Qed.

(** With no other policy on the table, both parts permit just these rows. *)
Lemma guarded_permits (part : Policy -> Predicate) d d' t bound settings row :
  guarded d' t -> policies_same d d' t -> base.delete POLICY_NAME (pd_policies db d t) = ∅ -> settings !! TENANT_SETTING = None ->
  (part = po_using \/ part = po_check) ->
  permitted part db d' t (bind_tenant bound settings) row <->
  row "tenant_id" = None \/ (is_Some (row "tenant_id") /\ row "tenant_id" = bound).
Proof.
  intros (He & Hf & p & Hpol & Hu & Hk) Hp Hno Hset Hpart. unfold permitted. rewrite He, Hf. cbn [andb].
  assert (Hiso : isolating (part p)) by (by destruct Hpart as [->| ->]). specialize (Hiso (bind_tenant bound settings) row).
  assert (Hone : truth_of (bind_tenant bound settings) row (part p) = Some true <->
            (row "tenant_id" = None \/ (is_Some (row "tenant_id") /\ row "tenant_id" = bound))).
  { rewrite Hiso. unfold bind_tenant. generalize (row "tenant_id"); intros x. destruct bound as [b|].
    - rewrite lookup_insert_eq. unfold is_Some. naive_solver.
    - rewrite Hset. unfold is_Some. naive_solver. }
  rewrite <-Hone. split; [|intros H; by exists POLICY_NAME, p].
  intros (n & q & Hn & H). destruct (decide (n = POLICY_NAME)) as [->|Hne].
  - rewrite Hpol in Hn. by injection Hn as <-.
  - unfold policies_same in Hp. rewrite Hno in Hp.
    assert (base.delete POLICY_NAME (pd_policies db d' t) !! n = Some q) as Hd by by rewrite lookup_delete_ne.
    by rewrite Hp, lookup_empty in Hd.
Qed.
End Spec.


(** ** A database that reads the statements *)

Module RlsExamples.
Abbreviation Tables := (gmap string TableState).
Definition exec (s : string) (d : Tables) : Tables + string :=
  match read_ddl s with
  | Some c => match d !! ddl_table c with Some x => inl (<[ddl_table c := ddl_effect c x]> d) | None => inr "no such table" end
  | None => inr "syntax error"
  end.
Definition state_of (d : Tables) (t : string) : TableState := default (false, false, ∅) (d !! t).
Definition db : PolicyDb Tables :=
  mkPolicyDb Tables (fun d t => (state_of d t).1.1) (fun d t => (state_of d t).1.2) (fun d t => (state_of d t).2).
Lemma exec_laws : PostgresPolicies db exec.
Proof.
  intros s c d d' Hr E t. unfold exec in E. rewrite Hr in E. destruct (d !! ddl_table c) as [x|] eqn:Hx; [|done]. injection E as <-.
  assert (Hon : forall d, on_table db d t = state_of d t) by (intros e; unfold on_table; cbn; by destruct (state_of e t) as [[]]).
  rewrite !Hon. unfold state_of. case_decide as Ht; [subst t; by rewrite lookup_insert_eq, Hx|by rewrite lookup_insert_ne].
Qed.

Definition fresh : Tables := {["note" := (false, false, ∅)]}.
Definition row_of (tenant : option string) : Row := fun c => if decide (c = "tenant_id") then tenant else Some "x".
(** A policy without [WITH CHECK] has one predicate for both. *)
Example one_predicate :
  read_ddl ("CREATE POLICY " +:+ quote_ident "p" +:+ " ON " +:+ quote_ident "t" +:+ " USING (tenant_id IS NULL);") =
    Some (Create "p" "t" (IsNull (Column "tenant_id")) None).
Proof. by vm_compute. Qed.
End RlsExamples.
