(* ===== verification/Relay.v ===== *)
(** * The WebSocket transports of the realtime tier

    [atomo_server/src/realtime.rs] mounts the hub in the server and mints tokens for the
    standalone relay, [atomo_realtime_server/src/main.rs].  Both pump frames between a
    socket and the hub; the relay verifies tokens without a database, joins the session a
    token names and caps the connections of an address.  A connection is a state machine;
    [relay_step] says what one event does, its interleaving with everything else is the
    order of the events. *)

From stdpp Require Import pretty.
From S2P Require Import Prelude Json StateM Presence Sessions Protocol RateLimit Hub HubInv HubWorld.
From S2P Require Import StateM Auth.

#[local] Open Scope string_scope.
#[local] Open Scope Z_scope.

(** ** The relay's settings ([main]) *)

Definition env_flag (v : option string) : bool :=
  match v with Some v => bool_decide (v = "true" \/ v = "1") | None => false end.
Definition parse_u32 (s : string) : option Z :=
  parse_u64 s ≫= fun n => if decide (n <= u32_max) then Some n else None.

Record RelayConfig : Type := mkRelayConfig {
  rc_host : string; rc_port : Z; rc_secret : string; rc_allow_anon : bool; rc_hub : HubConfig; rc_max_conn : Z
}.
(** [parse_f64] is the standard library's decimal conversion. *)
Definition relay_config (env : string -> option string) (parse_f64 : string -> option F64.t) : RelayConfig + string :=
  let secret :=
    match env "JWT_SECRET" with
    | Some s => inl s
    | None => if decide (env "ATOMO_ENV" = Some "production") then inr "JWT_SECRET must be set in production"
              else inl "dev-insecure-secret"
    end in
  let env_u32 key d := default d (env key ≫= parse_u32) in
  let policy := if decide (env "ATOMO_REALTIME_COORDINATOR_POLICY" = Some "close") then Close else Reelect in
  match secret with
  | inr e => inr e
  | inl s =>
      inl (mkRelayConfig (default "0.0.0.0" (env "HOST")) (default 9100 (env "PORT" ≫= parse_u16)) s
             (env_flag (env "ATOMO_REALTIME_ALLOW_ANON"))
             (mkHubConfig policy (Some (mkRateLimit (env_u32 "ATOMO_REALTIME_JOIN_BURST" 20)
                (default (F64.of_Z 10) (env "ATOMO_REALTIME_JOIN_PER_SEC" ≫= parse_f64)))))
             (env_u32 "ATOMO_REALTIME_MAX_CONN_PER_IP" 64))
  end.

(** ** Metrics *)

Definition newline : string := String (Ascii.ascii_of_nat 10) EmptyString.
Definition metric (m : string * string * string * Z) : string :=
  let '(name, kind, help, value) := m in
  "# HELP atomo_realtime_" +:+ name +:+ " " +:+ help +:+ newline +:+
  "# TYPE atomo_realtime_" +:+ name +:+ " " +:+ kind +:+ newline +:+
  "atomo_realtime_" +:+ name +:+ " " +:+ pretty value +:+ newline.
Definition prometheus_text (s : Stats) : string :=
  foldl (fun out m => out +:+ metric m) EmptyString
   [("active_clients", "gauge", "Currently connected clients", active_clients s);
    ("active_channels", "gauge", "Channels with members", active_channels s);
    ("active_sessions", "gauge", "Live coordinator sessions", active_sessions s);
    ("messages_published_total", "counter", "Frames accepted for fan-out", messages_published s);
    ("messages_delivered_total", "counter", "Frames delivered to clients", messages_delivered s);
    ("dropped_frames_total", "counter", "Frames shed to slow clients", dropped_frames s);
    ("connections_opened_total", "counter", "Connections opened", connections_opened s);
    ("connections_closed_total", "counter", "Connections closed", connections_closed s)].

(** ** Who connects *)

(** The server's own route: a session in the database stands behind the token. *)
Definition realtime_principal {ho : HashOrder} {env : AuthEnv} (now : Z) (token : option string) (uuid : string)
    : Comp AuthDb (Z * string) Principal :=
  match token with
  | Some token =>
      user ← with_error (fun _ => (401, "realtime auth failed: invalid or expired token")) (verify_token now token);
      mret (principal_new (au_id user) (Some (role_debug (au_role user))))
  | None =>
      if env_flag (env_var "ATOMO_REALTIME_ALLOW_ANON") then mret (principal_anonymous ("anon:" +:+ uuid))
      else throw (401, "realtime auth required: pass ?token=<jwt> (or enable ATOMO_REALTIME_ALLOW_ANON)")
  end.

(** [mint_realtime_token], the handler *)
Definition mint_token {ho : HashOrder} {env : AuthEnv} (now : Z) (authorization session : option string)
    (ttl_seconds : option Z) : Comp AuthDb (Z * string) string :=
  token ← of_option (bearer authorization) (401, "missing bearer token");
  user ← with_error (fun _ => (401, "invalid or expired token")) (verify_token now token);
  let ttl := clamp 1 86400 (default 3600 ttl_seconds) in
  mret (mint_realtime_token now (au_id user) session ttl).

(** ** The connection limiter *)

Section Relay.
Context {ho : HashOrder} {mpsc : Mpsc} {IpAddr : Type} `{Countable IpAddr}.

Record ConnLimiter : Type := mkConnLimiter { inner : gmap IpAddr Z; max : Z }.
Definition conn_limiter_new (max : Z) : ConnLimiter := mkConnLimiter ∅ max.

Definition try_acquire (ip : IpAddr) (l : ConnLimiter) : bool * ConnLimiter :=
  if decide (max l = 0) then (true, l) else
  let count := default 0 (inner l !! ip) in
  if decide (max l <= count) then (false, mkConnLimiter (<[ip := count]> (inner l)) (max l))
  else (true, mkConnLimiter (<[ip := count + 1]> (inner l)) (max l)).

(** [None]: the count would fall below zero, which is a panic or a wrap. *)
Definition release (ip : IpAddr) (l : ConnLimiter) : option ConnLimiter :=
  if decide (max l = 0) then Some l else
  match inner l !! ip with
  | None => Some l
  | Some count =>
      if decide (count = 0) then None
      else if decide (count - 1 = 0) then Some (mkConnLimiter (delete ip (inner l)) (max l))
      else Some (mkConnLimiter (<[ip := count - 1]> (inner l)) (max l))
  end.

(** ** [ws_handler] and [pump] *)

(** Where a connection is.  Each state but the first two belongs to [pump]; [id] is the
    hub's client. *)
Inductive Conn : Type :=
  | Checking (token : option string)                            (* slot taken, token not looked at *)
  | Upgrading (who : Principal) (session : option string)       (* answered 101 *)
  | Connecting (id : Z) (who : Principal) (session : option string)
  | Joining (id : Z) (session : string)
  | Running (id : Z)
  | Dispatching (id : Z) (msg : ClientMsg)
  | Closing (id : Z)
  | Releasing (id : Z).

(** What the socket yields: a text frame, decoded or not, and how the error frame went *)
Inductive Inbound : Type :=
  | InText (frame : ClientMsg + string) (reply_sent : bool)
  | InOther
  | InEnd.                                                      (* close, end of stream, error *)
Definition bad_frame (e : string) : ServerMsg := SError ("bad frame: " +:+ e).

Definition on_inbound (id : Z) (e : Inbound) : Conn :=
  match e with
  | InText (inl msg) _ => Dispatching id msg
  | InText (inr _) sent => if sent then Running id else Closing id
  | InOther => Running id
  | InEnd => Closing id
  end.
(** A frame of the hub, and how writing it went; [None]: the hub dropped the queue *)
Definition on_outbound (id : Z) (o : option bool) : Conn :=
  match o with Some true => Running id | _ => Closing id end.

Record Server : Type := mkServer {
  s_limiter : ConnLimiter;
  s_anon : Z;                                 (* [ANON_COUNTER] *)
  s_conns : gmap nat (IpAddr * Conn);         (* the tasks, by a number of their own *)
  s_hub : World;
  s_lost : list IpAddr;                       (* slots of upgrades that failed *)
  s_sent : list (Command chan)                (* everything sent to the hub, oldest first *)
}.
Definition server_new (cfg : RelayConfig) : Server :=
  mkServer (conn_limiter_new (rc_max_conn cfg)) 1 ∅ (hub_with_config (rc_hub cfg)) [] [].

Definition with_limiter l s := mkServer l (s_anon s) (s_conns s) (s_hub s) (s_lost s) (s_sent s).
Definition with_conn n (c : option (IpAddr * Conn)) s :=
  mkServer (s_limiter s) (s_anon s) (partial_alter (fun _ => c) n (s_conns s)) (s_hub s) (s_lost s) (s_sent s).
Definition with_hub h s := mkServer (s_limiter s) (s_anon s) (s_conns s) h (s_lost s) (s_sent s).
Definition with_anon k s := mkServer (s_limiter s) k (s_conns s) (s_hub s) (s_lost s) (s_sent s).
Definition lose ip s := mkServer (s_limiter s) (s_anon s) (s_conns s) (s_hub s) (ip :: s_lost s) (s_sent s).
Definition log cmd s := mkServer (s_limiter s) (s_anon s) (s_conns s) (s_hub s) (s_lost s) (s_sent s ++ [cmd]).

(** [verify]: signature and expiry at a time, the library's; the claims [sub] and [sid] *)
Variable verify : Z -> string -> option (string * option string).

(** The second half of [ws_handler] *)
Definition relay_principal (cfg : RelayConfig) (now : Z) (token : option string) (anon : Z)
    : (Principal * option string * Z) + (Z * string) :=
  match token with
  | Some token =>
      match verify now token with
      | Some (sub, sid) => inl (principal_new sub None, sid, anon)
      | None => inr (401, "realtime auth failed: invalid or expired token")
      end
  | None =>
      if rc_allow_anon cfg
      then inl (principal_anonymous ("anon:" +:+ pretty anon), None, wrap_u64 (anon + 1))
      else inr (401, "realtime auth required: pass ?token=<jwt>")
  end.

(** ** Steps *)

Inductive Event : Type :=
  | ERequest (n : nat) (ip : IpAddr) (token : option string)
  | EVerdict (n : nat) (now : Z)
  | EUpgrade (n : nat) (done : bool)          (* the client completes the upgrade, or is gone *)
  | EConnect (n : nat) (c : chan)
  | ESend (n : nat)                           (* the command the task waits with is queued *)
  | EInbound (n : nat) (e : Inbound)
  | EOutbound (n : nat) (o : option bool)
  | ERelease (n : nat)
  | EWorker (now : Instant)                   (* the hub handles its next command *)
  | ETransport (id : Z) (c : chan).           (* a receiver drains or closes *)

Definition has_room (w : World) : bool := (length (queue w) <? COMMAND_CAPACITY)%nat.
(** The task [n] sends [cmd] and goes on as [next]. *)
Definition send_as (n : nat) (ip : IpAddr) (cmd : Command chan) (next : Conn) (s : Server) : option Server :=
  if has_room (s_hub s) then Some (with_conn n (Some (ip, next)) (log cmd (with_hub (send_cmd cmd (s_hub s)) s))) else None.

(** [None]: the event does not apply. *)
Definition relay_step (cfg : RelayConfig) (e : Event) (s : Server) : option Server :=
  match e with
  | ERequest n ip token =>
      if decide (s_conns s !! n = None) then
        let '(granted, l) := try_acquire ip (s_limiter s) in
        Some (if granted then with_conn n (Some (ip, Checking token)) (with_limiter l s) else with_limiter l s)
      else None
  | EVerdict n now =>
      match s_conns s !! n with
      | Some (ip, Checking token) =>
          match relay_principal cfg now token (s_anon s) with
          | inl (who, session, anon) => Some (with_conn n (Some (ip, Upgrading who session)) (with_anon anon s))
          | inr _ => (fun l => with_conn n None (with_limiter l s)) <$> release ip (s_limiter s)
          end
      | _ => None
      end
  | EUpgrade n ok =>
      match s_conns s !! n with
      | Some (ip, Upgrading who session) =>
          Some (if (ok : bool)
                then with_conn n (Some (ip, Connecting (next_id (s_hub s)) who session)) (with_hub (connect_alloc (s_hub s)) s)
                else lose ip (with_conn n None s))
      | _ => None
      end
  | EConnect n c =>
      match s_conns s !! n with
      | Some (ip, Connecting id who session) =>
          if has_room (s_hub s) then
            Some (with_conn n (Some (ip, match session with Some x => Joining id x | None => Running id end))
                    (log (Connect id who c) (with_hub (connect_send id who c (s_hub s)) s)))
          else None
      | _ => None
      end
  | ESend n =>
      match s_conns s !! n with
      | Some (ip, Joining id session) => send_as n ip (dispatch id (CSessionJoin session)) (Running id) s
      | Some (ip, Dispatching id msg) => send_as n ip (dispatch id msg) (Running id) s
      | Some (ip, Closing id) => send_as n ip (disconnect id) (Releasing id) s
      | _ => None
      end
  | EInbound n i =>
      match s_conns s !! n with
      | Some (ip, Running id) => Some (with_conn n (Some (ip, on_inbound id i)) s)
      | _ => None
      end
  | EOutbound n o =>
      match s_conns s !! n with
      | Some (ip, Running id) => Some (with_conn n (Some (ip, on_outbound id o)) s)
      | _ => None
      end
  | ERelease n =>
      match s_conns s !! n with
      | Some (ip, Releasing _) => (fun l => with_conn n None (with_limiter l s)) <$> release ip (s_limiter s)
      | _ => None
      end
  | EWorker now =>
      match queue (s_hub s) with
      | cmd :: rest =>
          match handle now cmd (worker (s_hub s)) with
          | Done (_, wk) => Some (with_hub (mkWorld (next_id (s_hub s)) (allocated (s_hub s)) (handles (s_hub s)) rest wk) s)
          | _ => None
          end
      | [] => None
      end
  | ETransport id c =>
      Some (with_hub (mkWorld (next_id (s_hub s)) (allocated (s_hub s)) (handles (s_hub s)) (queue (s_hub s))
                        (set_clients (alter (set_out c) id) (worker (s_hub s)))) s)
  end.

Fixpoint relay_run (cfg : RelayConfig) (es : list Event) (s : Server) : option Server :=
  match es with
  | [] => Some s
  | e :: rest => match relay_step cfg e s with Some s' => relay_run cfg rest s' | None => None end
  end.
End Relay.
