(* ===== verification/RelaySpec.v ===== *)
(** * What the relay guarantees

    Slots are exact in every state the events can lead to, and what each connection sends to
    the hub is one conversation of a verified client. *)

From S2P Require Import Prelude Json StateM Presence Sessions Protocol RateLimit Hub HubInv HubWorld.
From S2P Require Import StateM Auth AuthSpec Relay.

Section RelaySpec.
Context {ho : HashOrder} {mpsc : Mpsc} {IpAddr : Type} `{Countable IpAddr}.
Variable verify : Z -> string -> option (string * option string).
Variable cfg : RelayConfig.
#[local] Abbreviation Server := (Server (IpAddr := IpAddr)).
#[local] Abbreviation ConnLimiter := (ConnLimiter (IpAddr := IpAddr)).
#[local] Abbreviation Event := (Event (IpAddr := IpAddr)).
#[local] Abbreviation step := (relay_step verify cfg).
#[local] Abbreviation run := (relay_run verify cfg).

(** ** Slots *)

(** Connections of an address, and its slots that nobody will release *)
Definition held (ip : IpAddr) (m : gmap nat (IpAddr * Conn)) : nat := size (filter (fun p => p.2.1 = ip) m).
Definition lost (ip : IpAddr) (l : list IpAddr) : nat := length (filter (fun x => x = ip) l).
Definition slots (ip : IpAddr) (s : Server) : Z := Z.of_nat (held ip (s_conns s) + lost ip (s_lost s)).

Lemma held_new ip ip' c n m : m !! n = None ->
  held ip (<[n := (ip', c)]> m) = (held ip m + if decide (ip' = ip) then 1 else 0)%nat.
Proof.
  intros Hn. unfold held. case_decide as E.
  - rewrite map_filter_insert_True by done. rewrite map_size_insert_None; [lia|]. apply map_lookup_filter_None. by left.
  - rewrite map_filter_insert_False by done. rewrite delete_id by done. lia.
Qed.
Lemma held_gone ip ip' c n m : m !! n = Some (ip', c) ->
  held ip m = (held ip (delete n m) + if decide (ip' = ip) then 1 else 0)%nat.
Proof.
  intros Hn. rewrite <- (insert_delete_id m n (ip', c)) at 1 by done. apply held_new, lookup_delete_eq.
Qed.
Lemma held_same ip ip' c c' n m : m !! n = Some (ip', c) -> held ip (<[n := (ip', c')]> m) = held ip m.
Proof.
  intros Hn. rewrite (held_gone ip ip' c n m Hn), <- insert_delete_eq. apply held_new, lookup_delete_eq.
Qed.

Record slots_exact (l : ConnLimiter) (used : IpAddr -> Z) : Prop := {
  se_max : max l = rc_max_conn cfg;
  se_count : max l <> 0 -> forall ip, default 0 (inner l !! ip) = used ip /\ used ip <= max l /\ inner l !! ip <> Some 0
}.
Lemma slots_exact_ext l used used' : (forall ip, used ip = used' ip) -> slots_exact l used -> slots_exact l used'.
Proof. intros He [Hm Hc]. split; [done|]. intros H0 ip. rewrite <- He. by apply Hc. Qed.

Lemma acquire_exact ip l used : 0 <= max l -> slots_exact l used -> (forall x, 0 <= used x) ->
  let r := try_acquire ip l in
  slots_exact r.2 (if r.1 then fun x => used x + (if decide (ip = x) then 1 else 0) else used).
Proof.
  intros H0 [Hm Hc] Hu. unfold try_acquire. case_decide as E; [split; [done|]; cbn; congruence|].
  specialize (Hc E). destruct (Hc ip) as (Hi & Hle & Hz). case_decide as L; cbn; (split; [done|]); cbn; intros _ x.
  - destruct (decide (ip = x)) as [<-|Hne]; [|rewrite lookup_insert_ne by done; apply Hc].
    rewrite lookup_insert_eq, Hi. cbn. split_and!; try done. intros [= Hx]. lia.
  - destruct (decide (ip = x)) as [<-|Hne]; [|rewrite lookup_insert_ne, Z.add_0_r by done; apply Hc].
    rewrite lookup_insert_eq, Hi. cbn. specialize (Hu ip). split_and!; try lia. intros [= Hx]. lia.
Qed.
Lemma release_exact ip l used : slots_exact l (fun x => used x + (if decide (ip = x) then 1 else 0)) ->
  (forall x, 0 <= used x) -> exists l', release ip l = Some l' /\ slots_exact l' used.
Proof.
  intros [Hm Hc] Hu. unfold release. case_decide as E; [exists l; split; [done|split; [done|]; congruence]|].
  specialize (Hc E). destruct (Hc ip) as (Hi & Hle & Hz). rewrite decide_True in Hi, Hle by done. specialize (Hu ip) as Hp.
  destruct (inner l !! ip) as [k|] eqn:El; cbn in Hi; [|lia]. rewrite decide_False by lia.
  case_decide as E1; (eexists; split; [done|]; split; [done|]; cbn; intros _ x).
  - destruct (decide (ip = x)) as [<-|Hne]; [rewrite lookup_delete_eq; cbn; split_and!; [lia..|done]|].
    rewrite lookup_delete_ne by done. specialize (Hc x). rewrite decide_False, Z.add_0_r in Hc by done. done.
  - destruct (decide (ip = x)) as [<-|Hne]; [rewrite lookup_insert_eq; cbn; split_and!; try lia; intros [= ?]; lia|].
    rewrite lookup_insert_ne by done. specialize (Hc x). rewrite decide_False, Z.add_0_r in Hc by done. done.
Qed.

Lemma slots_new ip ip' c n (s : Server) : s_conns s !! n = None ->
  slots ip (with_conn n (Some (ip', c)) s) = slots ip s + (if decide (ip' = ip) then 1 else 0).
Proof.
  intros Hn. unfold slots. cbn [with_conn s_conns s_lost]. change (partial_alter _ n (s_conns s)) with (<[n := (ip', c)]> (s_conns s)).
  rewrite held_new by done. case_decide; lia.
Qed.
Lemma slots_same ip ip' c c' n (s : Server) : s_conns s !! n = Some (ip', c) ->
  slots ip (with_conn n (Some (ip', c')) s) = slots ip s.
Proof.
  intros Hn. unfold slots. cbn [with_conn s_conns s_lost]. change (partial_alter _ n (s_conns s)) with (<[n := (ip', c')]> (s_conns s)).
  by rewrite (held_same ip ip' c) by done.
Qed.
Lemma slots_gone ip ip' c n (s : Server) : s_conns s !! n = Some (ip', c) ->
  slots ip s = slots ip (with_conn n None s) + (if decide (ip' = ip) then 1 else 0).
Proof.
  intros Hn. unfold slots. cbn [with_conn s_conns s_lost]. change (partial_alter _ n (s_conns s)) with (delete n (s_conns s)).
  rewrite (held_gone ip ip' c n _ Hn). case_decide; lia.
Qed.
Lemma slots_lose ip ip' (s : Server) : slots ip (lose ip' s) = slots ip s + (if decide (ip' = ip) then 1 else 0).
Proof.
  unfold slots, lost. cbn [lose s_conns s_lost]. rewrite filter_cons. case_decide; cbn [length]; lia.
Qed.
Lemma slots_nonneg ip (s : Server) : 0 <= slots ip s.
Proof. unfold slots. lia. Qed.

(** The slots are as they should be. *)
Definition slots_ok (s : Server) : Prop := slots_exact (s_limiter s) (fun ip => slots ip s).

Lemma release_ok n ip c (s : Server) : s_conns s !! n = Some (ip, c) -> slots_ok s ->
  exists l, release ip (s_limiter s) = Some l /\ slots_ok (with_conn n None (with_limiter l s)).
Proof.
  intros Hn Hs. apply (slots_exact_ext _ _ (fun x => slots x (with_conn n None s) + (if decide (ip = x) then 1 else 0))) in Hs.
  - apply release_exact in Hs as (l & Hl & Hs); [|intros; apply slots_nonneg]. by exists l.
  - intros x. by apply (slots_gone x ip c).
Qed.

Lemma slots_step e (s s' : Server) : 0 <= rc_max_conn cfg -> step e s = Some s' -> slots_ok s -> slots_ok s'.
Proof.
  intros H0 Hs Hok. pose proof (se_max _ _ Hok) as Hm.
  destruct e as [n ip tk|n now|n fin|n c|n|n i|n o|n|now|id c]; cbn [relay_step] in Hs.
  - case_decide as Hn; [|done]. pose proof (acquire_exact ip (s_limiter s) _ ltac:(lia) Hok (fun x => slots_nonneg x s)) as Ha.
    destruct (try_acquire ip (s_limiter s)) as [[|] l]; cbn in Ha; injection Hs as <-; [|done].
    eapply slots_exact_ext; [|exact Ha]. intros x. symmetry. by apply (slots_new x ip _ n (with_limiter l s)).
  - destruct (s_conns s !! n) as [[ip [tk| | | | | | |]]|] eqn:Hn; try done.
    destruct (relay_principal _ _ _ _ _) as [[[who se] k]|e].
    + injection Hs as <-. eapply slots_exact_ext; [|exact Hok]. intros x. symmetry. by apply (slots_same x ip (Checking tk) _ n (with_anon k s)).
    + destruct (release_ok n ip _ s Hn Hok) as (l & Hl & Hk). rewrite Hl in Hs. by injection Hs as <-.
  - destruct (s_conns s !! n) as [[ip [|who se| | | | | |]]|] eqn:Hn; try done. destruct fin; injection Hs as <-.
    + eapply slots_exact_ext; [|exact Hok]. intros x. symmetry. by eapply (slots_same x ip _ _ n (with_hub _ s)).
    + eapply slots_exact_ext; [|exact Hok]. intros x. rewrite slots_lose. by eapply slots_gone.
  - destruct (s_conns s !! n) as [[ip [| |id who se| | | | |]]|] eqn:Hn; try done. destruct (has_room _); [|done]. injection Hs as <-.
    eapply slots_exact_ext; [|exact Hok]. intros x. symmetry. by eapply (slots_same x ip _ _ n (log _ (with_hub _ s))).
  - destruct (s_conns s !! n) as [[ip c]|] eqn:Hn; [|done].
    destruct c; try done; unfold send_as in Hs; (destruct (has_room _); [|done]); injection Hs as <-;
      (eapply slots_exact_ext; [|exact Hok]; intros x; symmetry; by eapply (slots_same x ip _ _ n (log _ (with_hub _ s)))).
  - destruct (s_conns s !! n) as [[ip [| | | |id| | |]]|] eqn:Hn; try done. injection Hs as <-.
    eapply slots_exact_ext; [|exact Hok]. intros x. symmetry. by eapply slots_same.
  - destruct (s_conns s !! n) as [[ip [| | | |id| | |]]|] eqn:Hn; try done. injection Hs as <-.
    eapply slots_exact_ext; [|exact Hok]. intros x. symmetry. by eapply slots_same.
  - destruct (s_conns s !! n) as [[ip [| | | | | | |id]]|] eqn:Hn; try done.
    destruct (release_ok n ip _ s Hn Hok) as (l & Hl & Hk). rewrite Hl in Hs. by injection Hs as <-.
  - destruct (queue (s_hub s)) as [|cmd rest]; [done|]. destruct (handle now cmd (worker (s_hub s))) as [[u wk]| |]; [|done..].
    by injection Hs as <-.
  - by injection Hs as <-.
Qed.

(** What holds initially and is kept by steps holds after a run. *)
Lemma run_invariant (P : Server -> Prop) es (s s' : Server) :
  (forall e s s', step e s = Some s' -> P s -> P s') -> run es s = Some s' -> P s -> P s'.
Proof.
  intros Hk. revert s. induction es as [|e es IH]; intros s; cbn [relay_run]; [by intros [= <-]|].
  destruct (step e s) as [s1|] eqn:E; [|done]. intros Hr Hs. eapply IH; [done|]. by eapply Hk.
Qed.
Lemma slots_run es (s : Server) : 0 <= rc_max_conn cfg -> run es (server_new cfg) = Some s -> slots_ok s.
Proof.
  intros H0 Hr. eapply (run_invariant slots_ok); [|exact Hr|].
  - intros e s1 s2 Hs Ho. by eapply slots_step.
  - split; [done|]. cbn. intros Hm ip. unfold slots, held, lost. cbn. rewrite lookup_empty, map_filter_empty, map_size_empty.
    cbn. split_and!; [done|lia|done].
Qed.

(** ** Conversations *)

Definition sent_by (id : Z) (s : Server) : list (Command chan) := filter (fun cmd => cmd_id cmd = id) (s_sent s).

(** *** What the sockets did *)

(** A visit, told by the events alone: the token presented, the time and the counter of
    anonymous visitors when it was looked at, the channel opened and the messages that came in *)
Record Visit : Type := mkVisit {
  v_token : option string; v_now : Z; v_anon : Z; v_chan : option chan; v_heard : list ClientMsg
}.
(** By task: the token, the look at it, the hub's client; by client: the visit *)
Record Account : Type := mkAccount {
  ac_token : gmap nat (option string); ac_verdict : gmap nat (Z * Z); ac_client : gmap nat Z; ac_visit : gmap Z Visit
}.
Definition account_new : Account := mkAccount ∅ ∅ ∅ ∅.
Definition opened (c : chan) (v : Visit) : Visit := mkVisit (v_token v) (v_now v) (v_anon v) (Some c) (v_heard v).
Definition hear (msg : ClientMsg) (v : Visit) : Visit :=
  mkVisit (v_token v) (v_now v) (v_anon v) (v_chan v) (v_heard v ++ [msg]).
Definition note (n : nat) (f : Visit -> Visit) (a : Account) : Account :=
  match ac_client a !! n with
  | Some id => mkAccount (ac_token a) (ac_verdict a) (ac_client a) (alter f id (ac_visit a))
  | None => a
  end.
Definition account_step (e : Event) (s : Server) (a : Account) : Account :=
  match e with
  | ERequest n _ token => mkAccount (<[n := token]> (ac_token a)) (ac_verdict a) (ac_client a) (ac_visit a)
  | EVerdict n now => mkAccount (ac_token a) (<[n := (now, s_anon s)]> (ac_verdict a)) (ac_client a) (ac_visit a)
  | EUpgrade n true =>
      match ac_token a !! n, ac_verdict a !! n with
      | Some token, Some (now, anon) =>
          let id := next_id (s_hub s) in
          mkAccount (ac_token a) (ac_verdict a) (<[n := id]> (ac_client a)) (<[id := mkVisit token now anon None []]> (ac_visit a))
      | _, _ => a
      end
  | EConnect n c => note n (opened c) a
  | EInbound n (InText (inl msg) _) => note n (hear msg) a
  | _ => a
  end.
Fixpoint account (es : list Event) (s : Server) (a : Account) : Account :=
  match es with
  | [] => a
  | e :: rest => match step e s with Some s' => account rest s' (account_step e s a) | None => a end
  end.

(** *** What the hub was told *)

(** The principal the visitor's token stands for, with the session it names *)
Definition let_in (v : Visit) (who : Principal) (session : option string) : Prop :=
  exists anon', relay_principal verify cfg (v_now v) (v_token v) (v_anon v) = inl (who, session, anon').
Definition joins (session : option string) : list ClientMsg := CSessionJoin <$> option_list session.
(** Connected, on the visit's channel and as its principal; put into the session its token
    names; then told what its socket said, in order, all but the [pending] messages *)
Definition saying (id : Z) (v : Visit) (pending : list ClientMsg) (l : list (Command chan)) : Prop :=
  exists who session c msgs, let_in v who session /\ v_chan v = Some c /\ msgs ++ pending = joins session ++ v_heard v /\
    l = Connect id who c :: (dispatch id <$> msgs).
Definition finished (id : Z) (v : Visit) (l : list (Command chan)) : Prop :=
  exists l0, saying id v [] l0 /\ l = l0 ++ [disconnect id].

Definition client_of (c : Conn) : option Z :=
  match c with
  | Checking _ | Upgrading _ _ => None
  | Connecting id _ _ | Joining id _ | Running id | Dispatching id _ | Closing id | Releasing id => Some id
  end.
Definition told (s : Server) (v : Visit) (c : Conn) : Prop :=
  match c with
  | Checking _ | Upgrading _ _ => True
  | Connecting id who session => let_in v who session /\ v_heard v = [] /\ sent_by id s = [] /\ id ∈ allocated (s_hub s)
  | Joining id x => saying id v [CSessionJoin x] (sent_by id s) /\ id ∈ handles (s_hub s)
  | Running id | Closing id => saying id v [] (sent_by id s) /\ id ∈ handles (s_hub s)
  | Dispatching id msg => saying id v [msg] (sent_by id s) /\ id ∈ handles (s_hub s)
  | Releasing id => finished id v (sent_by id s) /\ id ∈ handles (s_hub s)
  end.
Definition said (s : Server) (a : Account) (n : nat) (c : Conn) : Prop :=
  match c with
  | Checking token => ac_token a !! n = Some token
  | Upgrading who session => exists token now anon,
      ac_token a !! n = Some token /\ ac_verdict a !! n = Some (now, anon) /\ let_in (mkVisit token now anon None []) who session
  | _ => exists id v, client_of c = Some id /\ ac_client a !! n = Some id /\ ac_visit a !! id = Some v /\ told s v c
  end.

Definition task_client (o : option (IpAddr * Conn)) : option Z := o ≫= client_of ∘ snd.
(** Nothing was sent, and there was nothing to send, or all of it was. *)
Definition ended (id : Z) (s : Server) (a : Account) : Prop :=
  (sent_by id s = [] /\ ac_visit a !! id = None) \/ exists v, ac_visit a !! id = Some v /\ finished id v (sent_by id s).

Record talk_ok (s : Server) (a : Account) : Prop := {
  to_said n ip c : s_conns s !! n = Some (ip, c) -> said s a n c;
  to_distinct n n' id : task_client (s_conns s !! n) = Some id -> task_client (s_conns s !! n') = Some id -> n = n';
  to_ended id : (forall n, task_client (s_conns s !! n) <> Some id) -> ended id s a;
  to_below n id : task_client (s_conns s !! n) = Some id -> id < next_id (s_hub s);
  to_sent id : sent_by id s <> [] -> id < next_id (s_hub s)
}.

Lemma said_client s a n c id : said s a n c -> client_of c = Some id ->
  ac_client a !! n = Some id /\ exists v, ac_visit a !! id = Some v /\ told s v c.
Proof.
  intros Hs Hc. assert (exists id v, client_of c = Some id /\ ac_client a !! n = Some id /\ ac_visit a !! id = Some v /\ told s v c)
    as (id' & v & E & Hn & Hv & Ht) by (by destruct c).
  rewrite Hc in E. injection E as <-. split; [done|by exists v].
Qed.
Lemma client_said s a n c id v : client_of c = Some id -> ac_client a !! n = Some id -> ac_visit a !! id = Some v ->
  told s v c -> said s a n c.
Proof. intros Hc Ha Hv Ht. destruct c; try done; by exists id, v. Qed.

(** The account of a task, its client's visit included, is as before. *)
Definition told_same (a a' : Account) (n : nat) : Prop :=
  ac_token a' !! n = ac_token a !! n /\ ac_verdict a' !! n = ac_verdict a !! n /\ ac_client a' !! n = ac_client a !! n.

Lemma told_frame (s s' : Server) v c :
  (forall id, client_of c = Some id -> sent_by id s' = sent_by id s) ->
  (forall id, client_of c = Some id -> id ∈ allocated (s_hub s) -> id ∈ allocated (s_hub s')) ->
  handles (s_hub s) ⊆ handles (s_hub s') -> told s v c -> told s' v c.
Proof.
  intros Hl Ha Hh. destruct c; cbn [told client_of] in *; try done; rewrite (Hl _ eq_refl); naive_solver set_solver.
Qed.
Lemma said_frame (s s' : Server) a a' n c :
  told_same a a' n -> (forall id, client_of c = Some id -> ac_visit a' !! id = ac_visit a !! id) ->
  (forall id, client_of c = Some id -> sent_by id s' = sent_by id s) ->
  (forall id, client_of c = Some id -> id ∈ allocated (s_hub s) -> id ∈ allocated (s_hub s')) ->
  handles (s_hub s) ⊆ handles (s_hub s') -> said s a n c -> said s' a' n c.
Proof.
  intros (E1 & E2 & E3) Hv Hl Ha Hh Hs. destruct (client_of c) as [id|] eqn:Hc.
  - destruct (said_client _ _ _ _ _ Hs Hc) as (Hn & v & Hid & Ht). apply (client_said _ _ _ _ id v); [done|congruence|by rewrite Hv|].
    apply (told_frame s s'); [| |done|done]; intros id'; rewrite Hc; auto.
  - destruct c; try done; cbn [said] in *; by rewrite E1, ?E2.
Qed.

Lemma sent_by_app id (s s' : Server) cmds : s_sent s' = s_sent s ++ cmds ->
  sent_by id s' = sent_by id s ++ filter (fun cmd => cmd_id cmd = id) cmds.
Proof. intros E. unfold sent_by. by rewrite E, filter_app. Qed.

(** One task changes, and may send commands of its own client. *)
Lemma talk_change n o cmds (s s' : Server) (a a' : Account) :
  talk_ok s a ->
  s_conns s' = partial_alter (fun _ => o) n (s_conns s) ->
  s_sent s' = s_sent s ++ cmds -> (forall cmd, cmd ∈ cmds -> task_client o = Some (cmd_id cmd)) ->
  next_id (s_hub s) <= next_id (s_hub s') ->
  handles (s_hub s) ⊆ handles (s_hub s') ->
  (forall id, task_client o <> Some id -> id ∈ allocated (s_hub s) -> id ∈ allocated (s_hub s')) ->
  (forall n', n' <> n -> told_same a a' n') ->
  (forall id, task_client o <> Some id -> ac_visit a' !! id = ac_visit a !! id) ->
  (forall ip c, o = Some (ip, c) -> said s' a' n c) ->
  (task_client o = task_client (s_conns s !! n) \/
   task_client (s_conns s !! n) = None /\ task_client o = Some (next_id (s_hub s)) /\ next_id (s_hub s) < next_id (s_hub s') \/
   task_client o = None /\ forall id, task_client (s_conns s !! n) = Some id -> ended id s a) ->
  talk_ok s' a'.
Proof.
  intros [Hs Hd He Hb Hf] Ec El Hc Hn Hh Ha Hact Hvis Hsay Ho.
  assert (forall id, task_client o <> Some id -> sent_by id s' = sent_by id s) as Hsame.
  { intros id Hne. rewrite (sent_by_app id s s' cmds El). 
    enough (filter (fun cmd => cmd_id cmd = id) cmds = []) as -> by apply app_nil_r.
    clear El. induction cmds as [|cmd rest IH]; [done|]. rewrite filter_cons_False; [apply IH; set_solver|].
    intros <-. apply Hne, Hc. left. }
  assert (forall id, task_client o = Some id -> task_client (s_conns s !! n) = Some id \/
            id = next_id (s_hub s) /\ next_id (s_hub s) < next_id (s_hub s')) as Hnew.
  { intros id Hid. destruct Ho as [<-|[(_ & E & L)|(E & _)]]; [by left|right|congruence]. split; [congruence|lia]. }
  assert (s_conns s' !! n = o) as Hat by (rewrite Ec; apply lookup_partial_alter_eq).
  assert (forall n', n' <> n -> s_conns s' !! n' = s_conns s !! n') as Hother
    by (intros n' Hne; rewrite Ec; by apply lookup_partial_alter_ne).
  assert (forall n' id, n' <> n -> task_client (s_conns s !! n') = Some id -> task_client o <> Some id) as Hapart.
  { intros n' id Hne Hn' Hid. destruct (Hnew id Hid) as [E|[-> _]]; [by apply Hne, (Hd _ _ id)|].
    apply Hb in Hn'. lia. }
  split.
  - intros n' ip c Hn'. destruct (decide (n' = n)) as [->|Hne]; [rewrite Hat in Hn'; by eapply Hsay|].
    rewrite Hother in Hn' by done. apply (said_frame s s' a a'); [by apply Hact| | | |done|by eapply Hs];
      intros id Hid; [apply Hvis|apply Hsame|apply Ha]; apply (Hapart n' id Hne); rewrite Hn'; exact Hid.
  - intros n1 n2 id. destruct (decide (n1 = n)) as [->|H1], (decide (n2 = n)) as [->|H2];
      rewrite ?Hat, ?Hother by done; intros E1 E2; [done|exfalso; by eapply Hapart..|by eapply Hd].
  - intros id Hno. assert (task_client o <> Some id) as Hno' by (rewrite <- Hat; apply Hno).
    unfold ended. rewrite Hsame, Hvis by done. change (ended id s a).
    destruct (decide (task_client (s_conns s !! n) = Some id)) as [E|E].
    + destruct Ho as [Ho|[(Ho & _)|(_ & Ho)]]; [congruence..|]. by apply Ho.
    + apply He. intros n'. destruct (decide (n' = n)) as [->|Hne]; [done|]. rewrite <- Hother by done. apply Hno.
  - intros n' id. destruct (decide (n' = n)) as [->|Hne]; rewrite ?Hat, ?Hother by done; intros E; [|apply Hb in E; lia].
    destruct (Hnew id E) as [E'|[-> L]]; [apply Hb in E'; lia|lia].
  - intros id Hid. destruct (decide (task_client o = Some id)) as [E|E].
    + destruct (Hnew id E) as [E'|[-> L]]; [apply Hb in E'; lia|lia].
    + rewrite Hsame in Hid by done. apply Hf in Hid. lia.
Qed.

(** ** The hub behind the relay *)

Record hub_ok (k : nat) (s : Server) : Prop := {
  ho_reach : exists k', (k' <= k)%nat /\ reachable (rc_hub cfg) k' (s_hub s);
  ho_queue : exists handled, s_sent s = handled ++ queue (s_hub s)
}.
Lemma hub_ok_same k (s s' : Server) : s_hub s' = s_hub s -> s_sent s' = s_sent s -> hub_ok k s -> hub_ok (S k) s'.
Proof. intros E1 E2 [(k' & L & Hr) Hq]. split; rewrite ?E1, ?E2; [exists k'; split; [lia|done]|done]. Qed.
Lemma hub_ok_step k (s s' : Server) : HubWorld.step (s_hub s) (s_hub s') ->
  (exists handled, s_sent s' = handled ++ queue (s_hub s')) -> hub_ok k s -> hub_ok (S k) s'.
Proof.
  intros Hs Hq [(k' & L & Hr) _]. split; [|done]. exists (S k'). split; [lia|]. by eapply reach_step.
Qed.
Lemma has_room_lt w : has_room w = true -> (length (queue w) < COMMAND_CAPACITY)%nat.
Proof. apply Nat.ltb_lt. Qed.
Lemma fresh_id k (s : Server) : hub_ok k s -> Z.of_nat k < u64_max - 1 ->
  wrap_u64 (next_id (s_hub s) + 1) = next_id (s_hub s) + 1.
Proof.
  intros [(k' & L & Hr) _] Hk. apply reachable_ok in Hr as [_ _ _ Hn]; [|lia]. apply wrap_u64_small. lia.
Qed.

Lemma talk_same (s s' : Server) a : s_conns s' = s_conns s -> s_sent s' = s_sent s ->
  next_id (s_hub s') = next_id (s_hub s) -> handles (s_hub s') = handles (s_hub s) -> allocated (s_hub s') = allocated (s_hub s) ->
  talk_ok s a -> talk_ok s' a.
Proof.
  intros Ec El En Hh Ha [Hs Hd He Hb Hf]. assert (forall id, sent_by id s' = sent_by id s) as E by (intros id; unfold sent_by; by rewrite El).
  split; unfold ended; rewrite ?Ec, ?En; try done; [|by setoid_rewrite E|by setoid_rewrite E].
  intros n ip c Hn. apply (said_frame s s' a a); [done|done|by intros; rewrite E|by intros; rewrite Ha|by rewrite Hh|by eapply Hs].
Qed.

(** A command of the task's own client is queued. *)
Lemma send_keeps k n ip c c' id cmd (s s' : Server) a :
  talk_ok s a -> hub_ok k s -> s_conns s !! n = Some (ip, c) -> client_of c = Some id -> client_of c' = Some id ->
  cmd_id cmd = id -> id ∈ handles (s_hub s) -> (cmd = disconnect id \/ exists msg, cmd = dispatch id msg) ->
  (forall v, told s v c -> told (log cmd (with_hub (send_cmd cmd (s_hub s)) s)) v c') ->
  send_as n ip cmd c' s = Some s' -> talk_ok s' a /\ hub_ok (S k) s'.
Proof.
  intros Ht Hh Hn Hc Hc' Hid Hin Hk Hsay. unfold send_as. destruct (has_room (s_hub s)) eqn:Hr; [|done]. intros [= <-].
  destruct (said_client _ _ _ _ _ (to_said _ _ Ht _ _ _ Hn) Hc) as (Hcl & v & Hv & Hd). split.
  - eapply (talk_change n (Some (ip, c')) [cmd] s _ a a); try done.
    + intros cmd' ->%list_elem_of_singleton. cbn. congruence.
    + intros ip' c'' [= <- <-]. apply (client_said _ _ _ _ id v); [done..|]. apply Hsay in Hd.
      eapply told_frame; [..|exact Hd]; done.
    + left. by rewrite Hn; cbn; congruence.
  - eapply hub_ok_step; [| |exact Hh]; cbn.
    + apply has_room_lt in Hr. destruct Hk as [->|[msg ->]]; [by apply step_disconnect|by apply step_dispatch].
    + destruct Hh as [_ [h E]]. exists h. by rewrite E, app_assoc.
Qed.
Lemma sent_by_log id cmd w (s : Server) : cmd_id cmd = id -> sent_by id (log cmd (with_hub w s)) = sent_by id s ++ [cmd].
Proof.
  intros E. rewrite (sent_by_app id s _ [cmd]) by done. by rewrite filter_cons_True.
Qed.
Lemma cmd_id_dispatch id msg : cmd_id (dispatch id msg : Command chan) = id.
Proof. by destruct msg. Qed.
Lemma saying_more id v msg pending l : saying id v (msg :: pending) l -> saying id v pending (l ++ [dispatch id msg]).
Proof.
  intros (who & session & c & msgs & Ha & Hc & E & ->). exists who, session, c, (msgs ++ [msg]). split_and!; [done|done| |].
  - by rewrite <- app_assoc.
  - by rewrite fmap_app.
Qed.
Lemma saying_hear id v msg l : saying id v [] l -> saying id (hear msg v) [msg] l.
Proof.
  intros (who & session & c & msgs & Ha & Hc & E & ->). exists who, session, c, msgs. split_and!; [done|done| |done].
  cbn. rewrite app_nil_r in E. by rewrite E, app_assoc.
Qed.

(** Only the state of one task changes, keeping its client. *)
Lemma task_keeps k n ip c c' (s s' : Server) a a' :
  talk_ok s a -> hub_ok k s -> s_conns s !! n = Some (ip, c) -> client_of c' = client_of c ->
  s_conns s' = partial_alter (fun _ => Some (ip, c')) n (s_conns s) -> s_sent s' = s_sent s -> s_hub s' = s_hub s ->
  (forall n', n' <> n -> told_same a a' n') -> (forall id, client_of c <> Some id -> ac_visit a' !! id = ac_visit a !! id) ->
  said s' a' n c' -> talk_ok s' a' /\ hub_ok (S k) s'.
Proof.
  intros Ht Hh Hn Hc Ec El Ew Ha Hv Hsay. split; [|by apply (hub_ok_same k s)].
  eapply (talk_change n (Some (ip, c')) [] s _ a a'); rewrite ?Ew, ?El, ?app_nil_r; try done; [by intros ? ?%elem_of_nil|..].
  - intros id. cbn. rewrite Hc. apply Hv.
  - by intros ip' c'' [= <- <-].
  - left. by rewrite Hn.
Qed.

(** A task without a client, or one that has finished, goes away. *)
Lemma task_ends k n (o : option (IpAddr * Conn)) (s s' : Server) a a' :
  talk_ok s a -> hub_ok k s -> s_conns s !! n = o ->
  (forall id, task_client o = Some id -> ended id s a) ->
  s_conns s' = delete n (s_conns s) -> s_sent s' = s_sent s -> s_hub s' = s_hub s ->
  (forall n', n' <> n -> told_same a a' n') -> ac_visit a' = ac_visit a ->
  talk_ok s' a' /\ hub_ok (S k) s'.
Proof.
  intros Ht Hh Hn Hf Ec El Ew Ha Hv. split; [|by apply (hub_ok_same k s)].
  eapply (talk_change n None [] s _ a a'); rewrite ?Ew, ?El, ?Hv, ?app_nil_r; try done; [by intros ? ?%elem_of_nil|].
  right. right. split; [done|]. by rewrite Hn.
Qed.

Lemma note_others n f a n' : told_same a (note n f a) n'.
Proof. unfold told_same, note. by destruct (ac_client a !! n). Qed.
Lemma note_visit n f a id v : ac_client a !! n = Some id -> ac_visit a !! id = Some v -> ac_visit (note n f a) !! id = Some (f v).
Proof. unfold note. intros -> E. cbn. by rewrite lookup_alter_eq, E. Qed.
Lemma note_elsewhere n f a id id' : ac_client a !! n = Some id -> id' <> id -> ac_visit (note n f a) !! id' = ac_visit a !! id'.
Proof. unfold note. intros -> E. cbn. by rewrite lookup_alter_ne. Qed.

Lemma request_keeps k n ip token l (s : Server) a : s_conns s !! n = None -> talk_ok s a -> hub_ok k s ->
  let a' := account_step (ERequest n ip token) s a in
  talk_ok (with_conn n (Some (ip, Checking token)) (with_limiter l s)) a' /\ talk_ok (with_limiter l s) a'.
Proof.
  intros Hn Ht Hh a'. assert (forall n', n' <> n -> told_same a a' n') as Ha.
  { intros n' Hne. unfold told_same. cbn. by rewrite lookup_insert_ne. }
  split.
  - eapply (talk_change n (Some (ip, Checking token)) [] s _ a a'); try done; cbn.
    + by rewrite app_nil_r.
    + by intros ? ?%elem_of_nil.
    + intros ? ? [= <- <-]. cbn. by rewrite lookup_insert_eq.
    + left. by rewrite Hn.
  - eapply (talk_change n None [] s _ a a'); try done; cbn.
    + symmetry. change (base.delete n (s_conns s) = s_conns s). by apply delete_id.
    + by rewrite app_nil_r.
    + by intros ? ?%elem_of_nil.
    + left. by rewrite Hn.
Qed.

Lemma upgrade_keeps k n ip who session (s : Server) a : Z.of_nat k < u64_max - 1 ->
  talk_ok s a -> hub_ok k s -> s_conns s !! n = Some (ip, Upgrading who session) ->
  let s' := with_conn n (Some (ip, Connecting (next_id (s_hub s)) who session)) (with_hub (connect_alloc (s_hub s)) s) in
  talk_ok s' (account_step (EUpgrade n true) s a) /\ hub_ok (S k) s'.
Proof.
  intros Hk Ht Hh Hn s'. pose proof (fresh_id k s Hh Hk) as Hw. split.
  - destruct (to_said _ _ Ht n _ _ Hn) as (token & now & anon & E1 & E2 & Hl). cbn [account_step]. rewrite E1, E2.
    eapply (talk_change n (Some (ip, Connecting (next_id (s_hub s)) who session)) [] s _ a _); try done; cbn; rewrite ?Hw.
    + by rewrite app_nil_r.
    + by intros ? ?%elem_of_nil.
    + lia.
    + set_solver.
    + intros n' Hne. unfold told_same. cbn. by rewrite lookup_insert_ne.
    + intros id Hne. rewrite lookup_insert_ne; [done|congruence].
    + intros ? ? [= <- <-]. eexists _, _. split; [done|]. cbn. rewrite !lookup_insert_eq. split; [done|]. split; [done|].
      split; [exact Hl|]. split; [done|]. split; [|cbn; set_solver].
      destruct (decide (sent_by (next_id (s_hub s)) s = [])) as [E|E]; [exact E|]. apply (to_sent _ _ Ht) in E. lia.
    + right. left. rewrite Hn. split; [done|]. split; [done|]. lia.
  - eapply hub_ok_step; [apply step_alloc|by destruct Hh|done].
Qed.

Lemma connect_keeps k n ip id who session c (s : Server) a :
  talk_ok s a -> hub_ok k s -> s_conns s !! n = Some (ip, Connecting id who session) -> has_room (s_hub s) = true ->
  let s' := with_conn n (Some (ip, match session with Some x => Joining id x | None => Running id end))
              (log (Connect id who c) (with_hub (connect_send id who c (s_hub s)) s)) in
  talk_ok s' (account_step (EConnect n c) s a) /\ hub_ok (S k) s'.
Proof.
  intros Ht Hh Hn Hr s'. destruct (said_client _ _ _ _ id (to_said _ _ Ht n _ _ Hn) eq_refl) as (Hcl & v & Hv & Ha & Hno & Hl & Hin). split.
  - eapply (talk_change n _ [Connect id who c] s _ a _); try done; cbn.
    + intros cmd ->%list_elem_of_singleton. cbn. by destruct session.
    + set_solver.
    + intros id' Hne. destruct session; cbn in Hne; set_solver.
    + intros n' _. apply note_others.
    + intros id' Hne. apply (note_elsewhere _ _ _ id); [done|]. intros ->. apply Hne. by destruct session.
    + intros ? ? [= <- <-].
      assert (sent_by id s' = [Connect id who c]) as E by (change (sent_by id s') with (sent_by id (log (Connect id who c) (with_hub (connect_send id who c (s_hub s)) s)));
        rewrite sent_by_log by done; by rewrite Hl).
      apply (client_said _ _ _ _ id (opened c v)); [by destruct session|by destruct (note_others n (opened c) a n) as (_ & _ & ->)|
        by apply note_visit|].
      destruct session as [x|]; (split; [|cbn; set_solver]); (eexists who, _, c, []; split; [exact Ha|]; split; [done|]; cbn;
        rewrite Hno; split; [done|exact E]).
    + left. rewrite Hn. by destruct session.
  - eapply hub_ok_step; [|by destruct Hh as [_ [h E]]; exists h; cbn; rewrite E, app_assoc|done].
    apply step_connect; [done|by apply has_room_lt].
Qed.

Lemma inbound_keeps k n ip id i (s : Server) a : talk_ok s a -> hub_ok k s -> s_conns s !! n = Some (ip, Running id) ->
  let s' := with_conn n (Some (ip, on_inbound id i)) s in talk_ok s' (account_step (EInbound n i) s a) /\ hub_ok (S k) s'.
Proof.
  intros Ht Hh Hn s'. destruct (said_client _ _ _ _ id (to_said _ _ Ht n _ _ Hn) eq_refl) as (Hcl & v & Hv & Hs & Hin).
  destruct i as [[msg|e] sent| |]; cbn [account_step].
  - apply (task_keeps k n ip (Running id) (Dispatching id msg) s s' a); try done; [intros; apply note_others| |].
    + intros id' Hne. apply (note_elsewhere _ _ _ id); [done|]. by intros ->.
    + apply (client_said _ _ _ _ id (hear msg v)); [done|by destruct (note_others n (hear msg) a n) as (_ & _ & ->)|by apply note_visit|].
      split; [by apply saying_hear|done].
  - apply (task_keeps k n ip (Running id) (on_inbound id (InText (inr e) sent)) s s' a a); try done; [by destruct sent|].
    apply (client_said _ _ _ _ id v); [by destruct sent|done..|by destruct sent].
  - by apply (task_keeps k n ip (Running id) (Running id) s s' a a); try done; apply (client_said _ _ _ _ id v).
  - by apply (task_keeps k n ip (Running id) (Closing id) s s' a a); try done; apply (client_said _ _ _ _ id v).
Qed.

Lemma talk_step k e (s s' : Server) a : Z.of_nat k < u64_max - 1 ->
  step e s = Some s' -> talk_ok s a -> hub_ok k s -> talk_ok s' (account_step e s a) /\ hub_ok (S k) s'.
Proof.
  intros Hk Hs Ht Hh. destruct e as [n ip tk|n now|n fin|n c|n|n i|n o|n|now|id c]; cbn [relay_step] in Hs.
  - case_decide as Hn; [|done]. destruct (try_acquire _ _) as [g l]. destruct (request_keeps k n ip tk l s a Hn Ht Hh).
    destruct g; injection Hs as <-; (split; [done|by apply (hub_ok_same k s)]).
  - destruct (s_conns s !! n) as [[ip [tk| | | | | | |]]|] eqn:Hn; try done. pose proof (to_said _ _ Ht n _ _ Hn) as Htk. cbn in Htk.
    assert (forall n', n' <> n -> told_same a (account_step (EVerdict n now) s a) n') as Hoth
      by (intros n' Hne; unfold told_same; cbn; by rewrite lookup_insert_ne).
    destruct (relay_principal _ _ _ _ _) as [[[who se] k']|e] eqn:Ev.
    + injection Hs as <-. eapply (task_keeps k n ip (Checking tk) (Upgrading who se) s); try done.
      exists tk, now, (s_anon s). cbn. rewrite lookup_insert_eq. split_and!; [done|done|by exists k'].
    + destruct (release ip _); [|done]. injection Hs as <-. by apply (task_ends k n _ s _ a _ Ht Hh Hn).
  - destruct (s_conns s !! n) as [[ip [|who se| | | | | |]]|] eqn:Hn; try done. destruct fin; injection Hs as <-.
    + by apply upgrade_keeps.
    + by apply (task_ends k n _ s _ a a Ht Hh Hn).
  - destruct (s_conns s !! n) as [[ip [| |id who se| | | | |]]|] eqn:Hn; try done.
    destruct (has_room _) eqn:Hr; [|done]. injection Hs as <-. by apply connect_keeps.
  - destruct (s_conns s !! n) as [[ip c]|] eqn:Hn; [|done]. pose proof (to_said _ _ Ht n _ _ Hn) as Hd.
    destruct c as [| | |id x| |id msg|id|]; try done; destruct (said_client _ _ _ _ id Hd eq_refl) as (_ & v & _ & _ & Hin).
    + apply (send_keeps k n ip (Joining id x) (Running id) id (dispatch id (CSessionJoin x)) s s'); try done; [by right; eexists|].
      cbn [told]. intros v' [Ha Hi]. split; [|done]. rewrite sent_by_log by done. by apply saying_more.
    + apply (send_keeps k n ip (Dispatching id msg) (Running id) id (dispatch id msg) s s'); try done; [apply cmd_id_dispatch|by right; eexists|].
      cbn [told]. intros v' [Ha Hi]. split; [|done]. rewrite sent_by_log by apply cmd_id_dispatch. by apply saying_more.
    + apply (send_keeps k n ip (Closing id) (Releasing id) id (disconnect id) s s'); try done; [by left|].
      cbn [told]. intros v' [Ha Hi]. split; [|done]. eexists. split; [exact Ha|]. by rewrite sent_by_log.
  - destruct (s_conns s !! n) as [[ip [| | | |id| | |]]|] eqn:Hn; try done. injection Hs as <-. by apply inbound_keeps.
  - destruct (s_conns s !! n) as [[ip [| | | |id| | |]]|] eqn:Hn; try done. injection Hs as <-.
    destruct (said_client _ _ _ _ id (to_said _ _ Ht n _ _ Hn) eq_refl) as (Hcl & v & Hv & Hd).
    eapply (task_keeps k n ip (Running id) (on_outbound id o) s); try done; [by destruct o as [[|]|]|].
    apply (client_said _ _ _ _ id v); [by destruct o as [[|]|]|done..|by destruct o as [[|]|]].
  - destruct (s_conns s !! n) as [[ip [| | | | | | |id]]|] eqn:Hn; try done. destruct (release ip _); [|done]. injection Hs as <-.
    apply (task_ends k n _ s _ a a Ht Hh Hn); try done. intros id' [= <-].
    destruct (said_client _ _ _ _ id (to_said _ _ Ht n _ _ Hn) eq_refl) as (_ & v & Hv & Hd & _). right. by exists v.
  - destruct (queue (s_hub s)) as [|cmd rest] eqn:Eq; [done|]. destruct (handle now cmd (worker (s_hub s))) as [[[] wk]| |] eqn:Ed; [|done..].
    injection Hs as <-. split; [by apply (talk_same s)|]. eapply hub_ok_step; [by eapply step_worker|cbn|done].
    destruct Hh as [_ [h E]]. exists (h ++ [cmd]). by rewrite E, Eq, <- app_assoc.
  - injection Hs as <-. split; [by apply (talk_same s)|]. eapply hub_ok_step; [apply step_transport|by destruct Hh|done].
Qed.

Lemma talk_run es k (s s' : Server) a : Z.of_nat (k + length es) < u64_max ->
  run es s = Some s' -> talk_ok s a -> hub_ok k s -> talk_ok s' (account es s a) /\ hub_ok (k + length es) s'.
Proof.
  revert k s a. induction es as [|e es IH]; intros k s a Hk; cbn [relay_run account length].
  - intros [= <-] Ht Hh. by rewrite Nat.add_0_r.
  - destruct (step e s) as [s1|] eqn:E; [|done]. intros Hr Ht Hh. cbn [length] in Hk.
    destruct (talk_step k e s s1 a) as [Ht1 Hh1]; [lia|done..|]. rewrite <- Nat.add_succ_comm. apply (IH (S k) s1); [lia|done..].
Qed.
Lemma talk_new : talk_ok (server_new cfg) account_new /\ hub_ok 0 (server_new cfg).
Proof.
  split; split; cbn; try done.
  - intros id _. by left.
  - exists 0%nat. split; [done|]. apply reach_new.
  - by exists [].
Qed.

(** ** Failed upgrades *)

Lemma lost_step ip e (s s' : Server) : step e s = Some s' -> (lost ip (s_lost s) <= lost ip (s_lost s'))%nat.
Proof.
  destruct e as [n a tk|n now|n fin|n c|n|n i|n o|n|now|id c]; cbn [relay_step]; intros Hs;
    [case_decide; [|done]; destruct (try_acquire _ _) as [[|] ?]; by injection Hs as <-|..];
    try (destruct (s_conns s !! n) as [[a c0]|]; [|done]; destruct c0; try done).
  - destruct (relay_principal _ _ _ _ _) as [[[? ?] ?]|?]; [by injection Hs as <-|].
    destruct (release _ _); [|done]. by injection Hs as <-.
  - destruct fin; injection Hs as <-; [done|]. unfold lost; cbn [lose s_lost with_conn]. rewrite filter_cons. case_decide; cbn [length]; lia.
  - destruct (has_room _); [|done]. by injection Hs as <-.
  - unfold send_as in Hs. destruct (has_room _); [|done]. by injection Hs as <-.
  - unfold send_as in Hs. destruct (has_room _); [|done]. by injection Hs as <-.
  - unfold send_as in Hs. destruct (has_room _); [|done]. by injection Hs as <-.
  - by injection Hs as <-.
  - by injection Hs as <-.
  - destruct (release _ _); [|done]. by injection Hs as <-.
  - destruct (queue _); [done|]. destruct (handle _ _ _) as [[? ?]| |]; [|done..]. by injection Hs as <-.
  - by injection Hs as <-.
Qed.
Lemma relay_run_app es1 es2 (s s1 s2 : Server) : run es1 s = Some s1 -> run es2 s1 = Some s2 -> run (es1 ++ es2) s = Some s2.
Proof.
  revert s. induction es1 as [|e es IH]; intros s; cbn; [by intros [= ->]|]. destruct (step e s); [apply IH|done].
Qed.

(** slots are counted exactly, however requests, refusals, upgrades and closings interleave:
    the limiter holds for each address the number of its connections in any state and of its
    failed upgrades, never more than the cap; no release makes a count fall below zero, so
    none panics; and when all connections are gone, the table is empty unless upgrades
    failed. *)
Theorem relay_slots_exact (es : list Event) (s : Server) :
  0 <= rc_max_conn cfg -> run es (server_new cfg) = Some s ->
  (rc_max_conn cfg <> 0 -> forall ip, default 0 (inner (s_limiter s) !! ip) = slots ip s /\ slots ip s <= rc_max_conn cfg) /\
  (forall n ip token now, s_conns s !! n = Some (ip, Checking token) -> is_Some (step (EVerdict n now) s)) /\
  (forall n ip id, s_conns s !! n = Some (ip, Releasing id) -> is_Some (step (ERelease n) s)) /\
  (rc_max_conn cfg <> 0 -> s_conns s = ∅ -> s_lost s = [] -> inner (s_limiter s) = ∅).
Proof.
  intros H0 Hr. pose proof (slots_run es s H0 Hr) as Hok. pose proof Hok as [Hm Hc]. split_and!.
  - intros Hz ip. destruct (Hc ltac:(lia) ip) as (Hi & Hl & _). by rewrite <- Hm.
  - intros n ip tk now Hn. cbn [relay_step]. rewrite Hn. destruct (relay_principal _ _ _ _ _) as [[[? ?] ?]|?]; [done|].
    destruct (release_ok n ip _ s Hn Hok) as (l & -> & _). done.
  - intros n ip id Hn. cbn [relay_step]. rewrite Hn. destruct (release_ok n ip _ s Hn Hok) as (l & -> & _). done.
  - intros Hz Hn Hl. apply map_eq. intros ip. rewrite lookup_empty. destruct (Hc ltac:(lia) ip) as (Hi & _ & Hne).
    unfold slots, held, lost in Hi. rewrite Hn, Hl, map_filter_empty, map_size_empty in Hi.
    destruct (inner (s_limiter s) !! ip) as [k|]; [|done]. change (k = 0) in Hi. by subst.
Qed.

(** a defect: a slot is taken before the upgrade and only the socket's task gives it back, so
    an upgrade that fails keeps it for ever.  Once as many upgrades from an address have
    failed as it may have connections, every later request from it is refused, whatever
    happens in between. *)
Theorem failed_upgrades_lock_out (es later : list Event) (s s' : Server) (ip : IpAddr) :
  0 < rc_max_conn cfg -> run es (server_new cfg) = Some s -> Z.of_nat (lost ip (s_lost s)) = rc_max_conn cfg ->
  run later s = Some s' -> (try_acquire ip (s_limiter s')).1 = false.
Proof.
  intros H0 Hr Hl Hr'. assert (lost ip (s_lost s) <= lost ip (s_lost s'))%nat as Hmono.
  { apply (run_invariant (fun x => lost ip (s_lost s) <= lost ip (s_lost x))%nat later s s'); [|done..].
    intros e s1 s2 Hs Hle. etrans; [exact Hle|by eapply lost_step]. }
  destruct (slots_run (es ++ later) s' ltac:(lia) (relay_run_app _ _ _ _ _ Hr Hr')) as [Hm Hc].
  unfold try_acquire. rewrite decide_False by lia. destruct (Hc ltac:(lia) ip) as (-> & Hle & _).
  rewrite decide_True; [done|]. unfold slots. lia.
Qed.

(** C21: the relay drives the hub as the hub's theorems assume, and each client's commands are
    what its socket did, in order.  In any run the hub is in a state it can reach, and has
    been given what the relay sent, in order.  Nothing is sent for a client of whom nothing
    was heard, or its commands are: a connect on its channel as the principal its token stood
    for, a join of the session the token names, then just the messages that came in on its
    socket, none lost, repeated or another's, but for at most one it is about to pass on
    (none where it waits for the socket); and at last, everything said, one disconnect.  A
    client whose task is gone, if it was ever one, is finished like this. *)
Theorem relay_conversations (es : list Event) (s : Server) :
  Z.of_nat (length es) < u64_max -> run es (server_new cfg) = Some s ->
  let visits := ac_visit (account es (server_new cfg) account_new) in
  (exists k, (k <= length es)%nat /\ reachable (rc_hub cfg) k (s_hub s)) /\
  (exists handled, s_sent s = handled ++ queue (s_hub s)) /\
  (forall n ip id, s_conns s !! n = Some (ip, Running id) -> exists v, visits !! id = Some v /\ saying id v [] (sent_by id s)) /\
  forall id,
    match visits !! id with
    | None => sent_by id s = []
    | Some v => (sent_by id s = [] /\ v_heard v = []) \/
        (exists pending, (length pending <= 1)%nat /\ saying id v pending (sent_by id s)) \/ finished id v (sent_by id s)
    end /\
    ((forall n, task_client (s_conns s !! n) <> Some id) ->
      match visits !! id with None => sent_by id s = [] | Some v => finished id v (sent_by id s) end).
Proof.
  intros Hk Hr visits. destruct talk_new as [Ht0 Hh0]. destruct (talk_run es 0 _ s _ Hk Hr Ht0 Hh0) as [Ht [Hreach Hq]].
  split; [exact Hreach|]. split; [exact Hq|]. split.
  { intros n ip id Hn. destruct (said_client _ _ _ _ id (to_said _ _ Ht n _ _ Hn) eq_refl) as (_ & v & Hv & Hs & _). by exists v. }
  intros id. assert ((forall n, task_client (s_conns s !! n) <> Some id) ->
    match visits !! id with None => sent_by id s = [] | Some v => finished id v (sent_by id s) end) as Hend.
  { intros Hno. destruct (to_ended _ _ Ht id Hno) as [[Hs Hv]|(v & Hv & Hs)]; subst visits; by rewrite Hv. }
  split; [|exact Hend].
  destruct (decide (exists n, n ∈ dom (s_conns s) /\ task_client (s_conns s !! n) = Some id)) as [E|E].
  - destruct E as (n & _ & Hn). destruct (s_conns s !! n) as [[ip c]|] eqn:Hc; [|done].
    destruct (said_client _ _ _ _ id (to_said _ _ Ht n ip c Hc) Hn) as (_ & v & Hv & Hs). subst visits. rewrite Hv.
    destruct c; cbn in Hn, Hs; simplify_eq;
      [left; tauto|right; left; eexists [_]; split; [done|apply Hs]|right; left; exists []; split; [cbn; lia|apply Hs]|
       right; left; eexists [_]; split; [done|apply Hs]|right; left; exists []; split; [cbn; lia|apply Hs]|right; right; tauto].
  - assert (forall n, task_client (s_conns s !! n) <> Some id) as Hno.
    { intros n Hn. apply E. exists n. split; [|done]. apply elem_of_dom. by destruct (s_conns s !! n). }
    apply Hend in Hno. destruct (visits !! id); [by right; right|done].
Qed.
End RelaySpec.

(** ** From the server to the relay *)

Section Mint.
Context {ho : HashOrder} {env : AuthEnv} {mpsc : Mpsc} {IpAddr : Type} `{Countable IpAddr}.
Variable verify : Z -> string -> option (string * option string).

(** Server and relay share the secret: what one signs the other reads until it expires. *)
Definition shared_secret : Prop :=
  forall now c, now <= 1000 * rt_exp c -> verify now (encode_realtime c) = Some (rt_sub c, rt_sid c).

(** a token minted by the server is admitted by every relay with its secret, for the time
    asked for (an hour by default, at most a day), as exactly the user who asked and into
    exactly the session asked for; the server mints only for a user whose own token
    verifies. *)
Theorem minted_token_admitted (cfg : RelayConfig) (now now' anon : Z) (authorization session : option string)
    (ttl : option Z) (db db' : AuthDb) (token : string) :
  shared_secret -> mint_token now authorization session ttl db = (inl token, db') ->
  now' + 1000 <= now + 1000 * clamp 1 86400 (default 3600 ttl) ->
  exists own user, bearer authorization = Some own /\ verify_token now own db = (inl user, db') /\
    relay_principal verify cfg now' (Some token) anon = inl (principal_new (au_id user) None, session, anon).
Proof.
  intros Hs Hm Ht. unfold mint_token in Hm. inv_ok. unfold with_error in *.
  match goal with H : context [verify_token now ?t ?d] |- _ => destruct (verify_token now t d) as [[u|e] d1] eqn:E; [|discriminate H] end.
  inv_ok. eexists _, _. split; [done|]. unfold throw, mret, Comp_ret in *. simplify_eq. split; [exact E|].
  cbn [relay_principal]. unfold mint_realtime_token. rewrite Hs; [done|]. cbn [rt_exp]. unfold timestamp.
  pose proof (Z.div_mod (now + clamp 1 86400 (default 3600 ttl) * 1000) 1000 ltac:(lia)).
  pose proof (Z.mod_pos_bound (now + clamp 1 86400 (default 3600 ttl) * 1000) 1000 ltac:(lia)). lia.
Qed.
End Mint.

(** ** A relay on a bounded queue; addresses are numbers *)

Module RelayExamples.
#[local] Existing Instance enum_order.
#[local] Existing Instance queue_mpsc.

Definition verify (now : Z) (token : string) : option (string * option string) :=
  if decide (token = "ann-match"%string) then Some ("ann"%string, Some "match"%string) else None.
(** One connection per address *)
Definition env (key : string) : option string :=
  if decide (key = "ATOMO_REALTIME_MAX_CONN_PER_IP"%string) then Some "1"%string else None.
Definition cfg : RelayConfig :=
  match relay_config env (fun _ => None) with inl c => c | inr _ => mkRelayConfig "" 0 "" false (mkHubConfig Close None) 0 end.
#[local] Abbreviation run es := (relay_run verify cfg es (server_new (IpAddr := Z) cfg)).
Definition after (es : list (Event (IpAddr := Z))) : Server (IpAddr := Z) := default (server_new cfg) (run es).
Lemma after_run es : is_Some (run es) -> run es = Some (after es).
Proof. unfold after. by intros [s ->]. Qed.

Example settings : rc_max_conn cfg = 1 /\ rc_port cfg = 9100 /\ rc_allow_anon cfg = false.
Proof. vm_compute. done. Qed.
Example no_secret_in_production :
  relay_config (fun k => if decide (k = "ATOMO_ENV"%string) then Some "production"%string else None) (fun _ => None) =
    inr "JWT_SECRET must be set in production"%string.
Proof. vm_compute. done. Qed.

(** Ann connects, is put into her match, subscribes and leaves; a second connection of her
    address is refused meanwhile. *)
Definition opens : list (Event (IpAddr := Z)) :=
  [ERequest 0 7 (Some "ann-match"%string); EVerdict 0 5; EUpgrade 0 true; EConnect 0 (open_queue : chan);
   EWorker 10; ERequest 1 7 None; ESend 0; EWorker 11; EInbound 0 (InText (inl (CSubscribe "room")) true); ESend 0; EWorker 12].
Definition closes : list (Event (IpAddr := Z)) := [EOutbound 0 (Some true); EInbound 0 InEnd; ESend 0; ERelease 0; EWorker 13].

Lemma relay_slots_exact_witness : run opens = Some (after opens) /\ slots 7 (after opens) = 1 /\
  default 0 (inner (s_limiter (after opens)) !! 7) = 1 /\
  run (opens ++ closes) = Some (after (opens ++ closes)) /\ inner (s_limiter (after (opens ++ closes))) = ∅.
Proof.
  assert (run opens = Some (after opens)) as H1 by (apply after_run; vm_compute; by eexists).
  assert (run (opens ++ closes) = Some (after (opens ++ closes))) as H2 by (apply after_run; vm_compute; by eexists).
  split; [exact H1|]. destruct (relay_slots_exact verify cfg opens _ ltac:(vm_compute; discriminate) H1) as (A & _).
  destruct (A ltac:(vm_compute; discriminate) 7) as (B & _). assert (slots 7 (after opens) = 1) as E by (vm_compute; reflexivity).
  split; [exact E|]. split; [rewrite B; exact E|]. split; [exact H2|].
  destruct (relay_slots_exact verify cfg (opens ++ closes) _ ltac:(vm_compute; discriminate) H2) as (_ & _ & _ & D).
  apply D; vm_compute; [discriminate|reflexivity|reflexivity].
Defined.

(** A client that asks for the upgrade and is gone before it is done *)
Definition gives_up : list (Event (IpAddr := Z)) := [ERequest 0 7 (Some "ann-match"%string); EVerdict 0 5; EUpgrade 0 false].
Lemma failed_upgrades_lock_out_witness : s_conns (after gives_up) = ∅ /\ (try_acquire 7 (s_limiter (after gives_up))).1 = false.
Proof.
  assert (run gives_up = Some (after gives_up)) as H1 by (apply after_run; vm_compute; by eexists).
  split; [vm_compute; reflexivity|].
  exact (failed_upgrades_lock_out verify cfg gives_up [] _ _ 7 ltac:(vm_compute; reflexivity) H1 ltac:(vm_compute; reflexivity) eq_refl).
Defined.

(** Ann's conversation: connected, put into her match, subscribed, disconnected *)
Lemma relay_conversations_witness :
  sent_by 1 (after (opens ++ closes)) =
    [Connect 1 (principal_new "ann" None) (open_queue : chan); dispatch 1 (CSessionJoin "match"); dispatch 1 (CSubscribe "room");
     disconnect 1].
Proof.
  assert (run (opens ++ closes) = Some (after (opens ++ closes))) as H2 by (apply after_run; vm_compute; by eexists).
  destruct (relay_conversations verify cfg (opens ++ closes) _ ltac:(vm_compute; reflexivity) H2) as (_ & _ & _ & C).
  destruct (C 1) as (_ & E).
  assert (s_conns (after (opens ++ closes)) = ∅) as Hnone by (vm_compute; reflexivity).
  assert (forall n, task_client (s_conns (after (opens ++ closes)) !! n) <> Some 1) as Hno by (intros n; by rewrite Hnone, lookup_empty).
  specialize (E Hno).
  destruct (ac_visit _ !! 1) as [v|] eqn:Hv; [|by vm_compute in Hv]. vm_compute in Hv. injection Hv as <-.
  destruct E as (l0 & (who & session & c & msgs & [anon Hl] & Hc & Hm & ->) & ->). vm_compute in Hl. injection Hl as <- <- <-.
  cbn in Hc. injection Hc as <-. rewrite app_nil_r in Hm. by rewrite Hm.
Defined.

(** The session of a token is only where a client starts: it may join any other. *)
Example other_session_joined :
  let s := after (opens ++ [EInbound 0 (InText (inl (CSessionJoin "other")) true); ESend 0; EWorker 13]) in
  is_Some (member (sessions (worker (s_hub s))) "match" 1) /\ is_Some (member (sessions (worker (s_hub s))) "other" 1).
Proof. split; vm_compute; by eexists. Qed.

(** Signing a realtime token writes its claims' code in bits. *)
Definition rt_code (c : RealtimeClaims) : positive := countable.encode (rt_sub c, rt_sid c, rt_exp c).
Definition rt_verify (now : Z) (token : string) : option (string * option string) :=
  countable.decode (A := string * option string * Z) (unbits token) ≫= fun '(sub, sid, exp) =>
    if bool_decide (now <= 1000 * exp) then Some (sub, sid) else None.
Definition signing : AuthEnv := let e := AuthSpec.AuthExamples.env in {|
  encode := encode; encode_realtime c := bits (rt_code c); decode := decode; argon2_hash := argon2_hash;
  argon2_verify := argon2_verify; bcrypt_verify := bcrypt_verify; parse_id := parse_id; new_id := new_id;
  new_uuid := new_uuid; fault := fault; db_now := db_now; to_lowercase := to_lowercase; env_var := env_var |}.

Lemma minted_token_admitted_witness :
  let own := lr_token AuthSpec.AuthExamples.response in
  match mint_token (env := signing) 5 (Some ("Bearer " +:+ own)%string) (Some "match"%string) (Some 60) AuthSpec.AuthExamples.joined with
  | (inl token, _) => exists user, relay_principal rt_verify cfg 50000 (Some token) 1 = inl (principal_new user None, Some "match"%string, 1)
  | _ => False
  end.
Proof.
  intros own.
  assert (is_Some (match (mint_token (env := signing) 5 (Some ("Bearer " +:+ own)%string) (Some "match"%string) (Some 60)
            AuthSpec.AuthExamples.joined).1 with inl t => Some t | inr _ => None end)) as Hs by (vm_compute; by eexists).
  destruct (mint_token _ _ _ _ _) as [[token|e] db'] eqn:Hm; [|by destruct Hs].
  destruct (minted_token_admitted (env := signing) rt_verify cfg 5 50000 1 (Some ("Bearer " +:+ own)%string)
    (Some "match"%string) (Some 60) AuthSpec.AuthExamples.joined db' token) as (o & u & _ & _ & R).
  - intros now c L. cbn. unfold rt_verify, rt_code. rewrite unbits_bits, countable.decode_encode. cbn.
    by rewrite bool_decide_eq_true_2.
  - exact Hm.
  - vm_compute. discriminate.
  - by exists (au_id u).
Defined.
End RelayExamples.
