(* ===== verification/Projectors.v ===== *)
(** * Projections ([atomo_projectors/src/projection.rs], [current_state.rs], [projector_manager.rs],
    [atomo_server/src/projector_routes.rs])

    A read table per model, holding its columns as text.  Notifications refresh a row from
    the current base table; a rebuild clears every table and replays the event log.  Tables
    are maps by id, one statement is one step, which may fail; a transaction that fails
    leaves the tables as they were, and its locks make it one step for the others. *)

From S2P Require Import Prelude Json Query SchemaTypes History StateM Auth.

#[local] Open Scope string_scope.
#[local] Open Scope Z_scope.

(** ** Tables *)

(** A row of a projection: the columns that are not null *)
Abbreviation TextRow := (gmap string string).
Record ProjTable : Type := mkProjTable {
  pt_types : gmap string string;               (* column, type *)
  pt_rows : gmap string TextRow                (* by id *)
}.
(** A row of a base table: soft-deleted or not, its non-null columns cast to text *)
Record BaseRow : Type := mkBaseRow { br_deleted : bool; br_text : gmap string string }.
Record BaseTable : Type := mkBaseTable { bt_columns : gset string; bt_rows : gmap string BaseRow }.

Record ProjDb : Type := mkProjDb {
  pd_base : gmap string BaseTable;
  pd_tables : gmap string ProjTable;
  pd_log : EventLog;
  pd_has_coverage : bool;                           (* [model_history_coverage] exists *)
  pd_statements : nat                               (* statements run so far *)
}.
Definition with_tables (t : gmap string ProjTable) (d : ProjDb) : ProjDb :=
  mkProjDb (pd_base d) t (pd_log d) (pd_has_coverage d) (pd_statements d).
Definition with_base (b : gmap string BaseTable) (d : ProjDb) : ProjDb :=
  mkProjDb b (pd_tables d) (pd_log d) (pd_has_coverage d) (pd_statements d).

(** The rows of a table that are not soft-deleted *)
Definition live_rows (table : string) (d : ProjDb) : gmap string BaseRow :=
  filter (fun p => br_deleted p.2 = false) (default ∅ (bt_rows <$> pd_base d !! table)).

Section Projectors.
Context {ho : HashOrder}.
Variable json_text : Value -> string.               (* [Value::to_string] *)
Variable fault : nat -> option string.

Abbreviation P := (Comp ProjDb string).

(** One statement *)
Definition stmt {A} (f : ProjDb -> (A + string) * ProjDb) : P A := fun d =>
  let d1 := mkProjDb (pd_base d) (pd_tables d) (pd_log d) (pd_has_coverage d) (S (pd_statements d)) in
  match fault (pd_statements d) with Some e => (inr e, d1) | None => f d1 end.
Definition runs (f : ProjDb -> ProjDb) : P unit := stmt (fun d => (inl tt, f d)).
Definition reads {A} (f : ProjDb -> A) : P A := stmt (fun d => (inl (f d), d)).
(** What a failed transaction leaves *)
Definition rolled_back (d d' : ProjDb) : ProjDb :=
  mkProjDb (pd_base d) (pd_tables d) (pd_log d) (pd_has_coverage d) (pd_statements d').
(** [pool.begin()], the body, [tx.commit()] *)
Definition transaction {A} (m : P A) : P A := fun d =>
  match (runs id ;; a ← m; runs id ;; mret a) d with
  | (inl a, d') => (inl a, d')
  | (inr e, d') => (inr e, rolled_back d d')
  end.
Definition lock : P unit := runs id.

(** ** [projection.rs] *)

Definition value_to_text (v : Value) : string :=
  match v with VString s => s | VNull => EmptyString | other => json_text other end.

(** [require_complete_history_in] *)
Definition history_unavailable (model : string) : string :=
  "HISTORY_REPLAY_UNAVAILABLE: model " +:+ model +:+ " does not have complete full history; projection unchanged".
Definition require_complete_history_in (model : string) : P unit :=
  exists_ ← reads pd_has_coverage;
  if (exists_ : bool) then
    state ← reads (fun d => lg_coverage (pd_log d) !! model);
    check (match state with
           | Some c => if negb (bool_decide (cv_mode c = "full")) || negb (cv_complete c)
                       then Some (history_unavailable model) else None
           | None => None
           end)
  else mret tt.

Record TableProjection : Type := mkProjection {
  pj_name : string; pj_source_model : string; pj_table : string; pj_columns : list string
}.
Definition table_projection (source_model table_name : string) (columns : list string) : TableProjection :=
  mkProjection (table_name +:+ "_projection") source_model table_name columns.

Definition alter_table (t : string) (f : ProjTable -> ProjTable) (d : ProjDb) : ProjDb :=
  with_tables (alter f t (pd_tables d)) d.
Definition alter_rows (t : string) (f : gmap string TextRow -> gmap string TextRow) : ProjDb -> ProjDb :=
  alter_table t (fun x => mkProjTable (pt_types x) (f (pt_rows x))).
(** A statement on a table that has to exist, with its columns *)
Definition on_table {A} (t : string) (cols : list string) (f : ProjDb -> (A + string) * ProjDb) : P A :=
  stmt (fun d => match pd_tables d !! t with
                 | None => (inr "relation does not exist", d)
                 | Some x => if forallb (fun c => bool_decide (is_Some (pt_types x !! c))) cols then f d
                             else (inr "column does not exist", d)
                 end).

Definition text_row (cols : list string) (data : Doc) : TextRow :=
  list_to_map ((fun c => (c, value_to_text (default VNull (data !! c)))) <$> cols).

Definition handle_event_connection (p : TableProjection) (event_type : string) (data : Doc) : P unit :=
  if decide (event_type = "Created" \/ event_type = "Restored") then
    match filter (fun c => is_Some (data !! c)) (pj_columns p) with
    | [] => mret tt
    | cols =>
        let row := text_row cols data in
        on_table (pj_table p) cols (fun d =>
          match row !! "id" with
          | None => (inr "null value in column id violates not-null constraint", d)
          | Some id => (inl tt, alter_rows (pj_table p)
                          (fun rows => match rows !! id with Some _ => rows | None => <[id := row]> rows end) d)
          end)
    end
  else if decide (event_type = "Updated") then
    match data !! "id" with
    | Some (VString id) =>
        match filter (fun c => c <> "id" /\ is_Some (data !! c)) (pj_columns p) with
        | [] => mret tt
        | cols => on_table (pj_table p) ("id" :: cols) (fun d =>
                    (inl tt, alter_rows (pj_table p) (alter (fun old => text_row cols data ∪ old) id) d))
        end
    | _ => mret tt
    end
  else if decide (event_type = "Deleted" \/ event_type = "HardDeleted") then
    match data !! "id" with
    | Some (VString id) =>
        on_table (pj_table p) ["id"] (fun d => (inl tt, alter_rows (pj_table p) (base.delete id) d))
    | _ => mret tt
    end
  else mret tt.

(** [ORDER BY timestamp, created_at]: rows that agree on both come in any order. *)
Definition replay_le (a b : LogRow) : Prop :=
  ev_timestamp (lr_event a) <> ev_timestamp (lr_event b) /\ ts_le a b \/
  ev_timestamp (lr_event a) = ev_timestamp (lr_event b) /\ lr_created_at a <= lr_created_at b.
#[export] Instance replay_le_dec : RelDecision replay_le.
Proof. intros a b. unfold replay_le. apply _. Defined.
Definition logged (model : string) (l : EventLog) : list LogRow :=
  merge_sort replay_le (horder (filter (fun r => ev_model (lr_event r) = model) (lg_rows l))).

Fixpoint apply_events (p : TableProjection) (rows : list LogRow) : P unit :=
  match rows with
  | [] => mret tt
  | r :: rest =>
      handle_event_connection p (event_type_debug (ev_type (lr_event r))) (ev_data (lr_event r)) ;;
      apply_events p rest
  end.
Definition rebuild_in (p : TableProjection) : P unit :=
  require_complete_history_in (pj_source_model p) ;;
  rows ← reads (fun d => logged (pj_source_model p) (pd_log d));
  on_table (pj_table p) [] (fun d => (inl tt, alter_rows (pj_table p) (fun _ => ∅) d)) ;;
  apply_events p rows.
(** [TableProjection::rebuild], one projection by itself *)
Definition rebuild (p : TableProjection) : P unit :=
  transaction (lock ;; require_complete_history_in (pj_source_model p) ;; rebuild_in p).

(** ** [current_state.rs] *)

Record CurrentStateProjection : Type := mkCurrent { cs_projection : TableProjection; cs_source_table : string }.
Definition current_state (model source_table projection_table : string) (columns : list string) : CurrentStateProjection :=
  mkCurrent (table_projection model projection_table columns) source_table.

(** [values]: COALESCE(b.c::text, '') of each column; the primary key is the row's key. *)
Definition cell (id : string) (r : BaseRow) (c : string) : string :=
  if decide (c = "id") then id else default EmptyString (br_text r !! c).
Definition image (columns : list string) (id : string) (r : BaseRow) : TextRow :=
  list_to_map ((fun c => (c, cell id r c)) <$> columns).
(** [conflict]: the row that is there keeps its other columns. *)
Definition upserted (columns : list string) (id : string) (r : BaseRow) (old : option TextRow) : TextRow :=
  image columns id r ∪ default ∅ old.
Definition unchanged (columns : list string) (id : string) (r : BaseRow) (old : option TextRow) : bool :=
  match old with
  | Some row => forallb (fun c => bool_decide (row !! c = Some (cell id r c))) columns
  | None => false
  end.

Definition schema_invalid : string := "CURRENT_PROJECTION_SCHEMA_INVALID: id is required".
Definition schema_conflict (column : string) : string :=
  "CURRENT_PROJECTION_SCHEMA_CONFLICT: existing projection column " +:+ column +:+ " requires an explicit migration".
Definition no_identity : string := "CURRENT_PROJECTION_SCHEMA_CONFLICT: existing projection has no primary identity".

Fixpoint ensure_columns (t : string) (columns : list string) : P unit :=
  match columns with
  | [] => mret tt
  | c :: rest =>
      existing ← reads (fun d => pd_tables d !! t ≫= fun x => pt_types x !! c);
      match existing with
      | Some kind => check (if decide (kind = "text") then None else Some (schema_conflict c))
      | None => if decide (c = "id") then throw no_identity
                else runs (alter_table t (fun x => mkProjTable (<[c := "text"]> (pt_types x)) (pt_rows x)))
      end ;;
      ensure_columns t rest
  end.

Definition create_if_absent (t : string) (columns : list string) (d : ProjDb) : ProjDb :=
  match pd_tables d !! t with
  | Some _ => d
  | None => with_tables (<[t := mkProjTable (list_to_map ((fun c => (c, "text")) <$> columns)) ∅]> (pd_tables d)) d
  end.

(** A statement that reads the columns of the base table *)
Definition from_base {A} (c : CurrentStateProjection) (f : gmap string BaseRow -> ProjDb -> (A + string) * ProjDb) : P A :=
  let p := cs_projection c in
  on_table (pj_table p) (pj_columns p) (fun d =>
    match pd_base d !! cs_source_table c with
    | None => (inr "relation does not exist", d)
    | Some b => if forallb (fun c => bool_decide (c ∈ bt_columns b)) (pj_columns p)
                then f (live_rows (cs_source_table c) d) d else (inr "column does not exist", d)
    end).
Definition lock_source (c : CurrentStateProjection) : P unit :=
  stmt (fun d => match pd_base d !! cs_source_table c with
                 | Some _ => (inl tt, d) | None => (inr "relation does not exist", d) end).
Definition sync_rows (columns : list string) (rows : gmap string BaseRow) (old : gmap string TextRow) : gmap string TextRow :=
  map_imap (fun id r => Some (upserted columns id r (old !! id))) rows ∪ old.
Definition inserted_or_changed (columns : list string) (rows : gmap string BaseRow) (old : gmap string TextRow) : nat :=
  size (filter (fun p => unchanged columns p.1 p.2 (old !! p.1) = false) rows).

Definition initialize_and_sync (c : CurrentStateProjection) : P nat :=
  let p := cs_projection c in
  check (if decide ("id" ∈ pj_columns p) then None else Some schema_invalid) ;;
  transaction (
    lock ;; lock ;; lock_source c ;;
    runs (create_if_absent (pj_table p) (pj_columns p)) ;;
    ensure_columns (pj_table p) (pj_columns p) ;;
    lock ;;
    synced ← from_base c (fun rows d =>
      (inl (match pd_tables d !! pj_table p with
            | Some x => inserted_or_changed (pj_columns p) rows (pt_rows x) | None => 0%nat end),
       alter_rows (pj_table p) (sync_rows (pj_columns p) rows) d));
    on_table (pj_table p) ["id"] (fun d =>
      (inl tt, alter_rows (pj_table p) (filter (fun r => is_Some (live_rows (cs_source_table c) d !! r.1))) d)) ;;
    mret synced).

(** [refresh] *)
Definition refresh (c : CurrentStateProjection) (id : string) : P unit :=
  let p := cs_projection c in
  transaction (
    lock ;; lock ;; lock_source c ;;
    inserted ← from_base c (fun rows d =>
      match rows !! id with
      | Some r => (inl true, alter_rows (pj_table p)
                     (fun old => <[id := upserted (pj_columns p) id r (old !! id)]> old) d)
      | None => (inl false, d)
      end);
    if (inserted : bool) then mret tt
    else on_table (pj_table p) ["id"] (fun d => (inl tt, alter_rows (pj_table p) (base.delete id) d))).

Definition handle_event (c : CurrentStateProjection) (data : Doc) : P unit :=
  match data !! "id" ≫= value_as_str with Some id => refresh c id | None => mret tt end.

(** ** The trait and [projector_manager.rs] *)

Record Projection : Type := mkProj {
  pr_name : string;
  pr_source_model : string;
  pr_handle_event : string -> Doc -> P unit;
  pr_transactional : bool;                     (* [supports_transactional_rebuild] *)
  pr_rebuild_in : P unit
}.
(** The default methods *)
Definition default_rebuild_in : P unit := throw "PROJECTION_REBUILD_UNSUPPORTED: implement connection-bound rebuild_in first".
Definition custom (name model : string) (handle : string -> Doc -> P unit) : Projection :=
  mkProj name model handle false default_rebuild_in.
Definition of_table (p : TableProjection) : Projection :=
  mkProj (pj_name p) (pj_source_model p) (fun t data => runs id ;; handle_event_connection p t data) true (rebuild_in p).
Definition of_current (c : CurrentStateProjection) : Projection :=
  mkProj (pj_name (cs_projection c)) (pj_source_model (cs_projection c)) (fun _ data => handle_event c data) true
    (rebuild_in (cs_projection c)).

(** A projection that fails is logged and skipped. *)
Fixpoint process_event (ps : list Projection) (event_type model : string) (data : Doc) (d : ProjDb) : ProjDb :=
  match ps with
  | [] => d
  | p :: rest =>
      process_event rest event_type model data
        (if decide (pr_source_model p = model) then (pr_handle_event p event_type data d).2 else d)
  end.

Definition unsupported (name : string) : string :=
  "PROJECTION_REBUILD_UNSUPPORTED: projection " +:+ name +:+ " must implement connection-bound rebuild_in".
Fixpoint preflight (ps : list Projection) : P unit :=
  match ps with
  | [] => mret tt
  | p :: rest =>
      check (if pr_transactional p then None else Some (unsupported (pr_name p))) ;;
      require_complete_history_in (pr_source_model p) ;;
      preflight rest
  end.
Fixpoint rebuild_each (ps : list Projection) : P unit :=
  match ps with
  | [] => mret tt
  | p :: rest => pr_rebuild_in p ;; rebuild_each rest
  end.
Definition rebuild_all (ps : list Projection) : P unit := transaction (lock ;; preflight ps ;; rebuild_each ps).

(** One turn of [start_event_listener]; [None]: the channel is closed. *)
Definition listen (ps : list Projection) (r : Received) (d : ProjDb) : option ProjDb :=
  match r with
  | REvent ev => Some (process_event ps (event_type_debug (ev_type ev)) (ev_model ev) (ev_data ev) d)
  | RLagged _ => Some d
  | RClosed => None
  end.

(** ** The server's tables and routes *)

(** [server.rs]: one projection per real entity *)
Variable pluralize to_snake table_name_for : string -> string.
Definition server_projection (name : string) (m : Model) : option CurrentStateProjection :=
  if decide (is_Some (m_fields m !! "_enum_type")) then None
  else if decide (m_fields m !! "id" = None) then None
  else Some (current_state name (table_name_for name) (pluralize name +:+ "_projection")
               (to_snake <$> hkeys (m_fields m))).

Definition require_admin (user : option AuthUser) : option Response :=
  match user with
  | None => Some (json_response 401 (json_object [("code", VString "UNAUTHENTICATED")]))
  | Some u => if decide (au_role u = Admin) then None
              else Some (json_response 403 (json_object [("code", VString "FORBIDDEN")]))
  end.
Definition list_projections (ps : list Projection) (user : option AuthUser) : Response :=
  match require_admin user with
  | Some r => r
  | None => json_response 200 (json_object [("projections", VArray ((fun p =>
              json_object [("name", VString (pr_name p)); ("source_model", VString (pr_source_model p))]) <$> ps))])
  end.
Definition rebuild_error (message : string) : Response :=
  let coded status code text := json_response status (json_object [("code", VString code); ("message", VString text)]) in
  if String.prefix "HISTORY_REPLAY_UNAVAILABLE:" message
  then coded 409 "HISTORY_REPLAY_UNAVAILABLE" "Complete model history is unavailable. Projections were not rebuilt."
  else if String.prefix "PROJECTION_REBUILD_UNSUPPORTED:" message
  then coded 409 "PROJECTION_REBUILD_UNSUPPORTED"
         "A projection does not support transactional rebuild. Projections were not rebuilt."
  else coded 503 "PROJECTION_REBUILD_FAILED" "Projection rebuild is temporarily unavailable.".
Definition rebuild_projections (ps : list Projection) (user : option AuthUser) : Comp ProjDb Response Response :=
  check (require_admin user) ;;
  r ← try (rebuild_all ps);
  mret (match r with
        | inl _ => json_response 200 (json_object [("status", VString "rebuilt"); ("count", json_int (Z.of_nat (length ps)))])
        | inr message => rebuild_error message
        end).
End Projectors.
