(* ===== verification/ProjectorsSpec.v ===== *)
(** * What projections promise

    A projection shows every row whose last change it was notified of; a rebuild is all or
    nothing, and reproduces the current rows where the log tells their whole story. *)

From S2P Require Import Prelude Json Query SchemaTypes History StateM Auth Projectors.

#[local] Open Scope string_scope.
#[local] Open Scope Z_scope.

(** ** Statements and transactions *)

(** Everything but the count of statements *)
Definition same_data (d d' : ProjDb) : Prop :=
  pd_base d' = pd_base d /\ pd_tables d' = pd_tables d /\ pd_log d' = pd_log d /\ pd_has_coverage d' = pd_has_coverage d.
#[export] Instance same_data_refl : Reflexive same_data.
Proof. done. Qed.
#[export] Instance same_data_trans : Transitive same_data.
Proof. intros d1 d2 d3 (? & ? & ? & ?) (? & ? & ? & ?). split_and!; congruence. Qed.

(** Of the tables only [t] may have changed, and nothing else. *)
Definition only (t : string) (d d' : ProjDb) : Prop :=
  pd_base d' = pd_base d /\ pd_log d' = pd_log d /\ pd_has_coverage d' = pd_has_coverage d /\
  forall u, u <> t -> pd_tables d' !! u = pd_tables d !! u.
#[export] Instance only_refl t : Reflexive (only t).
Proof. done. Qed.
#[export] Instance only_trans t : Transitive (only t).
Proof.
  intros d1 d2 d3 (? & ? & ? & Ht1) (? & ? & ? & Ht2). split_and!; [congruence..|].
  intros u Hu. by rewrite Ht2, Ht1.
Qed.
Lemma only_same t d d' : same_data d d' -> only t d d'.
Proof. intros (? & Ht & ? & ?). split_and!; try done. intros u _. by rewrite Ht. Qed.
Lemma only_alter t f d : only t d (alter_table t f d).
Proof. split_and!; try done. intros u Hu. cbn. by rewrite lookup_alter_ne. Qed.

Section Spec.
Context {ho : HashOrder}.
Variable json_text : Value -> string.
Variable fault : nat -> option string.
Abbreviation P := (Comp ProjDb string).

Lemma stmt_inl {A} (f : ProjDb -> (A + string) * ProjDb) d a d' :
  stmt fault f d = (inl a, d') -> exists d1, same_data d d1 /\ f d1 = (inl a, d').
Proof. unfold stmt. destruct (fault _); [done|]. intros Hf. eexists. by split; [|exact Hf]. Qed.
Lemma on_table_inl {A} t cols (f : ProjDb -> (A + string) * ProjDb) d a d' :
  on_table fault t cols f d = (inl a, d') ->
  exists d1 x, same_data d d1 /\ pd_tables d1 !! t = Some x /\ f d1 = (inl a, d').
Proof.
  unfold on_table. intros (d1 & Hs & Hf)%stmt_inl. destruct (pd_tables d1 !! t) as [x|] eqn:E; [|done].
  destruct (forallb _ _); [|done]. by exists d1, x.
Qed.
Lemma runs_inl f d u d' : runs fault f d = (inl u, d') -> exists d1, same_data d d1 /\ d' = f d1.
Proof. intros (d1 & Hs & [= <- <-])%stmt_inl. by exists d1. Qed.

(** Relations that do not look at the count of statements *)
Section Keeping.
Context (R : ProjDb -> ProjDb -> Prop) `{!Reflexive R} `{!Transitive R}.
Hypothesis same_R : forall d d', same_data d d' -> R d d'.

Lemma keeping_stmt {A} (f : ProjDb -> (A + string) * ProjDb) :
  (forall d, R d (f d).2) -> keeping R (stmt fault f).
Proof.
  intros Hf d. unfold stmt. destruct (fault _); cbn; [by apply same_R|]. etrans; [|apply Hf]. by apply same_R.
Qed.
Lemma keeping_runs f : (forall d, R d (f d)) -> keeping R (runs fault f).
Proof. intros Hf. apply keeping_stmt. intros d. apply Hf. Qed.
Lemma keeping_reads {A} (f : ProjDb -> A) : keeping R (reads fault f).
Proof. apply keeping_stmt. intros d. reflexivity. Qed.
Lemma keeping_on_table {A} t cols (f : ProjDb -> (A + string) * ProjDb) :
  (forall d, R d (f d).2) -> keeping R (on_table fault t cols f).
Proof.
  intros Hf. apply keeping_stmt. intros d. destruct (pd_tables d !! t); [|reflexivity].
  destruct (forallb _ _); [apply Hf|reflexivity].
Qed.
Lemma keeping_from_base {A} c (f : gmap string BaseRow -> ProjDb -> (A + string) * ProjDb) :
  (forall rows d, R d (f rows d).2) -> keeping R (from_base fault c f).
Proof.
  intros Hf. apply keeping_on_table. intros d. destruct (pd_base d !! _); [|reflexivity].
  destruct (forallb _ _); [apply Hf|reflexivity].
Qed.
Lemma keeping_lock : keeping R (lock fault).
Proof. apply keeping_runs. intros d. reflexivity. Qed.
Lemma keeping_lock_source c : keeping R (lock_source fault c).
Proof. apply keeping_stmt. intros d. destruct (pd_base d !! _); reflexivity. Qed.
Lemma keeping_then {A B} (m : P A) (k : A -> P B) : keeping R m -> (forall a, keeping R (k a)) -> keeping R (m ≫= k).
Proof. by apply (keeping_bind R). Qed.
Lemma keeping_transaction {A} (m : P A) : keeping R m -> keeping R (transaction fault m).
Proof.
  intros Hm d. unfold transaction. destruct ((runs fault id ;; _) d) as [[a|e] d'] eqn:E; cbn.
  - assert (keeping R (runs fault id ;; a ← m; runs fault id ;; mret a)) as Hk.
    { apply keeping_then; [apply keeping_lock|]. intros _. apply keeping_then; [done|]. intros b.
      apply keeping_then; [apply keeping_lock|]. intros _. by apply (keeping_ret R). }
    specialize (Hk d). by rewrite E in Hk.
  - by apply same_R.
Qed.
End Keeping.

(** A transaction that succeeds did its body; one that fails changed nothing. *)
Lemma transaction_inl {A} (m : P A) d a d' : transaction fault m d = (inl a, d') ->
  exists d1 d2, same_data d d1 /\ m d1 = (inl a, d2) /\ same_data d2 d'.
Proof.
  unfold transaction. destruct ((runs fault id ;; _) d) as [[b|e] d2] eqn:E; [|done]. intros [= <- <-].
  apply bind_inl in E as (u & d1 & (d0 & Hs & ->)%runs_inl & E). apply bind_inl in E as (c & d3 & Hm & E).
  apply bind_inl in E as (v & d4 & (d5 & Hs' & ->)%runs_inl & [= -> <-]). by exists d0, d3.
Qed.
Lemma transaction_inr {A} (m : P A) d e d' : transaction fault m d = (inr e, d') -> same_data d d'.
Proof. unfold transaction. destruct ((runs fault id ;; _) d) as [[b|e'] d2]; [done|]. by intros [= -> <-]. Qed.

(** ** Refreshing a row *)

Definition row_at (t id : string) (d : ProjDb) : option TextRow := pd_tables d !! t ≫= fun x => pt_rows x !! id.
(** The projection shows the row [id] as it is. *)
Definition matches (columns : list string) (id : string) (r : option BaseRow) (row : option TextRow) : Prop :=
  match r with
  | Some r => exists shown, row = Some shown /\ forall c, c ∈ columns -> shown !! c = Some (cell id r c)
  | None => row = None
  end.
Definition shows (c : CurrentStateProjection) (id : string) (d : ProjDb) : Prop :=
  matches (pj_columns (cs_projection c)) id (live_rows (cs_source_table c) d !! id) (row_at (pj_table (cs_projection c)) id d).

Lemma columns_lookup (f : string -> string) columns c : c ∈ columns ->
  (list_to_map ((fun c => (c, f c)) <$> columns) : TextRow) !! c = Some (f c).
Proof.
  induction columns as [|x l IH]; cbn; [by intros ?%elem_of_nil|]. intros Hc.
  destruct (decide (x = c)) as [->|Hne]; [apply lookup_insert_eq|]. rewrite lookup_insert_ne by done.
  apply IH. by apply elem_of_cons in Hc as [->|?].
Qed.
Lemma image_lookup columns id r c : c ∈ columns -> image columns id r !! c = Some (cell id r c).
Proof. apply (columns_lookup (cell id r)). Qed.
Lemma upserted_lookup columns id r old c : c ∈ columns -> upserted columns id r old !! c = Some (cell id r c).
Proof. intros Hc. unfold upserted. apply lookup_union_Some_l. by apply image_lookup. Qed.

(** Of the table [t] only the row [id] may have changed. *)
Definition only_row (t id : string) (d d' : ProjDb) : Prop :=
  only t d d' /\ forall j, j <> id -> row_at t j d' = row_at t j d.
#[export] Instance only_row_refl t id : Reflexive (only_row t id).
Proof. done. Qed.
#[export] Instance only_row_trans t id : Transitive (only_row t id).
Proof. intros d1 d2 d3 [? Hr1] [? Hr2]. split; [by etrans|]. intros j Hj. by rewrite Hr2, Hr1. Qed.
Lemma same_row_at t j d d' : same_data d d' -> row_at t j d' = row_at t j d.
Proof. intros (_ & Ht & _). unfold row_at. by rewrite Ht. Qed.
Lemma same_live t d d' : same_data d d' -> live_rows t d' = live_rows t d.
Proof. intros (Hb & _). unfold live_rows. by rewrite Hb. Qed.
Lemma only_row_same t id d d' : same_data d d' -> only_row t id d d'.
Proof. intros Hs. split; [by apply only_same|]. intros j _. by apply same_row_at. Qed.
Lemma row_at_alter t f j d : row_at t j (alter_rows t f d) = (pd_tables d !! t ≫= fun x => f (pt_rows x) !! j).
Proof. unfold row_at, alter_rows, alter_table. cbn. rewrite lookup_alter_eq. by destruct (pd_tables d !! t). Qed.
Lemma live_alter s t f d : live_rows s (alter_rows t f d) = live_rows s d.
Proof. done. Qed.
Lemma only_row_alter t id f d : (forall rows j, j <> id -> f rows !! j = rows !! j) -> only_row t id d (alter_rows t f d).
Proof.
  intros Hf. split; [apply only_alter|]. intros j Hj. rewrite row_at_alter. unfold row_at.
  destruct (pd_tables d !! t); [|done]. cbn. by apply Hf.
Qed.

Lemma refresh_keeps c id : keeping (only_row (pj_table (cs_projection c)) id) (refresh fault c id).
Proof.
  set (R := only_row _ _). assert (Reflexive R) by apply only_row_refl. assert (Transitive R) by apply only_row_trans.
  assert (forall d d', same_data d d' -> R d d') as HR by (intros; by apply only_row_same).
  unfold refresh. apply (keeping_transaction R); [done|].
  apply (keeping_then R); [by apply keeping_lock|]. intros _. apply (keeping_then R); [by apply keeping_lock|]. intros _.
  apply (keeping_then R); [by apply keeping_lock_source|]. intros _. apply (keeping_then R).
  - apply (keeping_from_base R); [done|]. intros rows d. destruct (rows !! id); [|done].
    apply only_row_alter. intros old j Hj. by rewrite lookup_insert_ne.
  - intros [|]; [by apply (keeping_ret R)|]. apply (keeping_on_table R); [done|]. intros d.
    apply only_row_alter. intros old j Hj. by rewrite lookup_delete_ne.
Qed.
Lemma from_base_inl {A} c (f : gmap string BaseRow -> ProjDb -> (A + string) * ProjDb) d a d' :
  from_base fault c f d = (inl a, d') ->
  exists d1 x, same_data d d1 /\ pd_tables d1 !! pj_table (cs_projection c) = Some x /\
    f (live_rows (cs_source_table c) d1) d1 = (inl a, d').
Proof.
  unfold from_base. intros (d1 & x & Hs & Ht & Hf)%on_table_inl. exists d1, x. split; [done|]. split; [done|].
  destruct (pd_base d1 !! _); [|done]. by destruct (forallb _ _).
Qed.

Lemma refresh_shows c id d u d' : refresh fault c id d = (inl u, d') -> shows c id d'.
Proof.
  intros (d0 & d9 & Hs & Hm & Hs9)%transaction_inl. set (t := pj_table (cs_projection c)) in *.
  unfold shows. rewrite (same_row_at _ _ _ _ Hs9), (same_live _ _ _ Hs9). fold t.
  apply bind_inl in Hm as (u1 & d1 & (e1 & _ & ->)%runs_inl & Hm). apply bind_inl in Hm as (u2 & d2 & (e2 & _ & ->)%runs_inl & Hm).
  apply bind_inl in Hm as (u3 & d3 & _ & Hm). apply bind_inl in Hm as (inserted & d4 & Hf & Hm).
  apply from_base_inl in Hf as (d5 & x & _ & Ht & Hf). destruct (live_rows _ d5 !! id) as [r|] eqn:El.
  - injection Hf as <- <-. injection Hm as <- <-. rewrite live_alter, El, row_at_alter.
    fold t in Ht. rewrite Ht. cbn. rewrite lookup_insert_eq. eexists. split; [done|].
    intros col Hc. by apply upserted_lookup.
  - injection Hf as <- <-. apply on_table_inl in Hm as (d6 & y & Hs6 & Hy & [= <- <-]).
    rewrite live_alter, (same_live _ _ _ Hs6), El. cbn. rewrite row_at_alter. fold t in Hy. rewrite Hy. cbn. apply lookup_delete_eq.
Qed.

(** ** Synchronising a table *)

Lemma sync_rows_lookup columns rows old id r : rows !! id = Some r ->
  sync_rows columns rows old !! id = Some (upserted columns id r (old !! id)).
Proof. intros E. unfold sync_rows. apply lookup_union_Some_l. by rewrite map_lookup_imap, E. Qed.

Lemma ensure_columns_keeps t columns : keeping (only t) (ensure_columns fault t columns).
Proof.
  induction columns as [|c rest IH]; cbn [ensure_columns]; [by apply (keeping_ret (only t))|].
  apply (keeping_then (only t)); [apply (keeping_reads (only t)), only_same|]. intros [kind|].
  - apply (keeping_then (only t)); [by apply (keeping_check (only t))|done].
  - apply (keeping_then (only t)); [|done]. case_decide; [by apply (keeping_throw (only t))|].
    apply (keeping_runs (only t)); [apply only_same|]. intros d. apply only_alter.
Qed.
Lemma sync_keeps c : keeping (only (pj_table (cs_projection c))) (initialize_and_sync fault c).
Proof.
  set (t := pj_table _). unfold initialize_and_sync. fold t.
  apply (keeping_then (only t)); [by apply (keeping_check (only t))|]. intros _.
  apply (keeping_transaction (only t)); [apply only_same|].
  apply (keeping_then (only t)); [apply (keeping_lock (only t)), only_same|]. intros _.
  apply (keeping_then (only t)); [apply (keeping_lock (only t)), only_same|]. intros _.
  apply (keeping_then (only t)); [apply (keeping_lock_source (only t)), only_same|]. intros _.
  apply (keeping_then (only t)).
  { apply (keeping_runs (only t)); [apply only_same|]. intros d. unfold create_if_absent.
    destruct (pd_tables d !! t) eqn:E; [done|]. split_and!; try done. intros u Hu. cbn. by rewrite lookup_insert_ne. }
  intros _. apply (keeping_then (only t)); [apply ensure_columns_keeps|]. intros _.
  apply (keeping_then (only t)); [apply (keeping_lock (only t)), only_same|]. intros _.
  apply (keeping_then (only t)).
  { apply (keeping_from_base (only t)); [apply only_same|]. intros rows d. apply only_alter. }
  intros synced. apply (keeping_then (only t)); [|intros _; by apply (keeping_ret (only t))].
  apply (keeping_on_table (only t)); [apply only_same|]. intros d. apply only_alter.
Qed.

Lemma sync_shows c d n d' : initialize_and_sync fault c d = (inl n, d') -> forall id, shows c id d'.
Proof.
  unfold initialize_and_sync. intros (u0 & d0 & _ & Hm)%bind_inl id. apply transaction_inl in Hm as (d1 & d9 & _ & Hm & Hs9).
  set (t := pj_table (cs_projection c)) in *. unfold shows. fold t. rewrite (same_row_at _ _ _ _ Hs9), (same_live _ _ _ Hs9).
  do 6 (apply bind_inl in Hm as (? & ? & _ & Hm)). apply bind_inl in Hm as (synced & d6 & Hf & Hm).
  apply from_base_inl in Hf as (d5 & old & _ & Ht & [= _ <-]). fold t in Ht.
  apply bind_inl in Hm as (u2 & d8 & Hf & [= _ <-]). apply on_table_inl in Hf as (d7 & y & Hs7 & Hy & [= _ <-]).
  rewrite live_alter, row_at_alter. fold t in Hs7, Hy. rewrite Hy. cbn [mbind option_bind].
  rewrite (same_live _ _ _ Hs7), live_alter. destruct Hs7 as (_ & Hs7 & _). rewrite Hs7 in Hy. cbn in Hy.
  rewrite lookup_alter_eq, Ht in Hy. injection Hy as <-. cbn [pt_rows].
  set (L := live_rows (cs_source_table c) d5). destruct (L !! id) as [r|] eqn:El.
  - eexists. split.
    + apply map_lookup_filter_Some. split; [by apply sync_rows_lookup|]. cbn. by rewrite El.
    + intros col Hc. by apply upserted_lookup.
  - apply map_lookup_filter_None. right. intros row _. cbn. rewrite El. by intros [? ?].
Qed.

(** ** A history of writes, notifications and synchronisations *)

(** [None]: the row is gone. *)
Definition write (table id : string) (r : option BaseRow) (d : ProjDb) : ProjDb :=
  with_base (alter (fun b => mkBaseTable (bt_columns b) (partial_alter (fun _ => r) id (bt_rows b))) table (pd_base d)) d.

Inductive ProjStep : Type :=
  | SWrite (table id : string) (r : option BaseRow)
  | SEvent (ev : ModelEvent)
  | SSync (c : CurrentStateProjection)
  | SRebuild.

Variable cs : list CurrentStateProjection.
#[local] Abbreviation ps := (of_current json_text fault <$> cs).
Definition proj_step (st : ProjStep) (d : ProjDb) : ProjDb :=
  match st with
  | SWrite table id r => write table id r d
  | SEvent ev => default d (listen ps (REvent ev) d)
  | SSync c => (initialize_and_sync fault c d).2
  | SRebuild => (rebuild_all fault ps d).2
  end.
Definition proj_run (steps : list ProjStep) (d : ProjDb) : ProjDb := foldl (fun d st => proj_step st d) d steps.

#[local] Abbreviation table_of c := (pj_table (cs_projection c)).
#[local] Abbreviation model_of c := (pj_source_model (cs_projection c)).
Definition is_inl {A B} (r : A + B) : bool := match r with inl _ => true | inr _ => false end.
(** The notification made [c] refresh the row, with success. *)
Fixpoint refreshed (qs : list CurrentStateProjection) (c : CurrentStateProjection) (ev : ModelEvent) (d : ProjDb) : bool :=
  match qs with
  | [] => false
  | q :: rest =>
      if decide (model_of q = ev_model ev) then
        let r := handle_event fault q (ev_data ev) d in
        (bool_decide (table_of q = table_of c) && is_inl r.1) || refreshed rest c ev r.2
      else refreshed rest c ev d
  end.
(** The row has not been written, nor the table rebuilt, since [c] last took notice of it. *)
Fixpoint settled (c : CurrentStateProjection) (id : string) (steps : list ProjStep) (before : bool) (d : ProjDb) : bool :=
  match steps with
  | [] => before
  | st :: rest =>
      settled c id rest
        (match st with
         | SWrite table i _ => if decide (table = cs_source_table c /\ i = id) then false else before
         | SEvent ev => before || (bool_decide (ev_data ev !! "id" ≫= value_as_str = Some id) && refreshed cs c ev d)
         | SSync q => if decide (table_of q = table_of c) then before || is_inl (initialize_and_sync fault q d).1 else before
         | SRebuild => before && negb (is_inl (rebuild_all fault ps d).1)
         end) (proj_step st d)
  end.

Lemma live_lookup t d id : live_rows t d !! id =
  (pd_base d !! t ≫= fun b => bt_rows b !! id) ≫= fun r => if br_deleted r then None else Some r.
Proof.
  unfold live_rows. destruct (pd_base d !! t) as [b|]; cbn; [|by rewrite map_filter_empty].
  destruct (bt_rows b !! id) as [r|] eqn:E; cbn; [|apply map_lookup_filter_None; by left].
  destruct (br_deleted r) eqn:Ed; [apply map_lookup_filter_None|apply map_lookup_filter_Some; by split].
  right. intros r' Hr'. cbn. congruence.
Qed.
Lemma shows_ext c id d d' :
  live_rows (cs_source_table c) d' !! id = live_rows (cs_source_table c) d !! id ->
  row_at (table_of c) id d' = row_at (table_of c) id d -> shows c id d -> shows c id d'.
Proof. unfold shows. by intros -> ->. Qed.
Lemma shows_same c id d d' : same_data d d' -> shows c id d -> shows c id d'.
Proof. intros Hs. apply shows_ext; [by rewrite (same_live _ _ _ Hs)|by apply same_row_at]. Qed.
Lemma shows_only c id t d d' : only t d d' -> t <> table_of c -> shows c id d -> shows c id d'.
Proof.
  intros (Hb & _ & _ & Ht) Hne. apply shows_ext; [by rewrite !live_lookup, Hb|].
  unfold row_at. by rewrite Ht by congruence.
Qed.
Lemma shows_only_row c id j d d' : only_row (table_of c) j d d' -> j <> id -> shows c id d -> shows c id d'.
Proof. intros [(Hb & _) Hr] Hne. apply shows_ext; [by rewrite !live_lookup, Hb|]. by apply Hr. Qed.

Lemma handle_event_shows q c id data d : (table_of q = table_of c -> q = c) ->
  shows c id d -> shows c id (handle_event fault q data d).2.
Proof.
  intros Hq Hs. unfold handle_event. destruct (data !! "id" ≫= value_as_str) as [j|]; [|done].
  pose proof (refresh_keeps q j d) as Hk. destruct (decide (table_of q = table_of c)) as [E|E].
  - specialize (Hq E). subst q. destruct (decide (j = id)) as [->|Hne]; [|by eapply shows_only_row].
    destruct (refresh fault c id d) as [[u|e] d'] eqn:Er; cbn; [by eapply refresh_shows|].
    eapply shows_same; [by eapply transaction_inr|done].
  - eapply shows_only; [exact (proj1 Hk)|done|done].
Qed.
Lemma process_event_shows qs c id t model data d : (forall q, q ∈ qs -> table_of q = table_of c -> q = c) ->
  shows c id d -> shows c id (process_event (of_current json_text fault <$> qs) t model data d).
Proof.
  revert d. induction qs as [|q rest IH]; intros d Hq Hs; cbn; [done|]. apply IH; [set_solver|].
  case_decide; [|done]. apply handle_event_shows; [apply Hq; left|done].
Qed.
Lemma refreshed_shows qs c id ev d : (forall q, q ∈ qs -> table_of q = table_of c -> q = c) ->
  ev_data ev !! "id" ≫= value_as_str = Some id -> refreshed qs c ev d = true ->
  shows c id (process_event (of_current json_text fault <$> qs) (event_type_debug (ev_type ev)) (ev_model ev) (ev_data ev) d).
Proof.
  intros Hq Hid. revert d Hq. induction qs as [|q rest IH]; intros d Hq; cbn; [done|].
  case_decide as Em; [|apply IH; set_solver]. intros [Hr|Hr]%orb_true_iff; [|apply IH; [set_solver|done]].
  apply andb_true_iff in Hr as [E%bool_decide_eq_true Hr]. apply Hq in E as ->; [|left].
  apply process_event_shows; [set_solver|]. unfold handle_event in *. rewrite Hid in *.
  destruct (refresh fault c id d) as [[u|e] d'] eqn:Er; [|done]. by eapply refresh_shows.
Qed.
Lemma write_shows table i r c id d : ~ (table = cs_source_table c /\ i = id) -> shows c id d -> shows c id (write table i r d).
Proof.
  intros Hne. apply shows_ext; [|done]. rewrite !live_lookup. cbn.
  destruct (decide (table = cs_source_table c)) as [->|Ht]; [|by rewrite lookup_alter_ne].
  rewrite lookup_alter_eq. destruct (pd_base d !! cs_source_table c) as [b|]; [|done]. cbn.
  rewrite lookup_partial_alter_ne; [done|]. intros ->. by apply Hne.
Qed.

(** C22: projections follow the tables: in any history of writes to base rows, notifications,
    synchronisations and rebuilds, with failures anywhere, a registered projection shows a
    row exactly as it is in the base table (or does not show it, if it is deleted) whenever
    the row has not been written, nor the tables rebuilt, since the projection was last
    synchronised or notified of that row with success. *)
Theorem projections_follow (c : CurrentStateProjection) (id : string) (steps : list ProjStep) (d : ProjDb) :
  c ∈ cs -> NoDup (pj_table ∘ cs_projection <$> cs) -> (forall q, SSync q ∈ steps -> q ∈ cs) ->
  settled c id steps false d = true -> shows c id (proj_run steps d).
Proof.
  intros Hc Hnd Hsync. assert (forall q, q ∈ cs -> table_of q = table_of c -> q = c) as Hone.
  { intros q Hq E. apply list_elem_of_lookup in Hc as [i Hi]. apply list_elem_of_lookup in Hq as [j Hj].
    assert (j = i) as ->; [|congruence].
    eapply NoDup_lookup; [exact Hnd|rewrite list_lookup_fmap, Hj; done|rewrite list_lookup_fmap, Hi; cbn; by f_equal]. }
  assert (forall b, (b = true -> shows c id d) -> settled c id steps b d = true -> shows c id (proj_run steps d)) as Hgen.
  2: { apply Hgen. discriminate. }
  revert d Hsync. induction steps as [|st rest IH]; intros d Hsync b Hb; cbn [settled proj_run foldl]; [done|].
  apply IH; [set_solver|]. destruct st as [table i r|ev|q|]; cbn [proj_step listen default].
  - case_decide as E; [done|]. intros ->. apply write_shows; [done|]. by apply Hb.
  - intros [->|[Hid%bool_decide_eq_true Hr]%andb_true_iff]%orb_true_iff.
    + apply process_event_shows; [apply Hone|by apply Hb].
    + by apply refreshed_shows.
  - pose proof (sync_keeps q d) as Hk. destruct (decide (table_of q = table_of c)) as [E|E].
    + apply Hone in E as ->; [|apply Hsync; left]. destruct (initialize_and_sync fault c d) as [[n|e] d'] eqn:Ei.
      * intros _. by eapply sync_shows.
      * cbn. rewrite orb_false_r. intros ->. eapply shows_same; [|by apply Hb].
        unfold initialize_and_sync in Ei. apply bind_inr in Ei as [Ei|(u & d0 & Ec & Ei%transaction_inr)].
        -- case_decide; cbn in Ei; [done|]. by injection Ei as <- <-.
        -- case_decide; cbn in Ec; [|done]. by injection Ec as <- <-.
    + intros ->. eapply shows_only; [exact Hk|done|by apply Hb].
  - destruct (rebuild_all fault ps d) as [[u|e] d'] eqn:Er; cbn; [by rewrite andb_false_r|].
    rewrite andb_true_r. intros ->. eapply shows_same; [by eapply transaction_inr|by apply Hb].
Qed.

(** ** Rebuilding *)

#[local] Abbreviation replaying p := (handle_event_connection json_text fault p).
Lemma handle_connection_keeps p type data : keeping (only (pj_table p)) (replaying p type data).
Proof.
  set (t := pj_table p). unfold handle_event_connection. fold t.
  assert (forall cols (f : ProjDb -> (unit + string) * ProjDb), (forall d, only t d (f d).2) -> keeping (only t) (on_table fault t cols f)) as Hon.
  { intros cols f Hf. apply (keeping_on_table (only t)); [apply only_same|done]. }
  repeat case_decide; [destruct (filter _ _)|destruct (data !! "id") as [[]|]|destruct (data !! "id") as [[]|]|]; try by apply (keeping_ret (only t)).
  - apply Hon. intros d. destruct (_ !! "id"); [apply only_alter|done].
  - destruct (filter _ _); [by apply (keeping_ret (only t))|]. apply Hon. intros d. apply only_alter.
  - apply Hon. intros d. apply only_alter.
Qed.
Lemma apply_events_keeps p rows : keeping (only (pj_table p)) (apply_events json_text fault p rows).
Proof.
  induction rows as [|r rest IH]; cbn [apply_events]; [by apply (keeping_ret (only _))|].
  apply (keeping_then (only _)); [apply handle_connection_keeps|done].
Qed.
Lemma require_keeps t model : keeping (only t) (require_complete_history_in fault model).
Proof.
  apply (keeping_then (only t)); [apply (keeping_reads (only t)), only_same|]. intros [|]; [|by apply (keeping_ret (only t))].
  apply (keeping_then (only t)); [apply (keeping_reads (only t)), only_same|]. intros state. by apply (keeping_check (only t)).
Qed.
Lemma rebuild_in_keeps p : keeping (only (pj_table p)) (rebuild_in json_text fault p).
Proof.
  set (t := pj_table p). unfold rebuild_in. fold t. apply (keeping_then (only t)); [apply require_keeps|]. intros _.
  apply (keeping_then (only t)); [apply (keeping_reads (only t)), only_same|]. intros rows.
  apply (keeping_then (only t)); [|intros _; apply apply_events_keeps].
  apply (keeping_on_table (only t)); [apply only_same|]. intros d. apply only_alter.
Qed.
Lemma apply_events_app p l1 l2 d u d' : apply_events json_text fault p (l1 ++ l2) d = (inl u, d') ->
  exists d1, apply_events json_text fault p l1 d = (inl tt, d1) /\ apply_events json_text fault p l2 d1 = (inl u, d').
Proof.
  revert d. induction l1 as [|r rest IH]; intros d; cbn [apply_events app]; [by exists d|].
  intros (v & d1 & E & Hr)%bind_inl. apply IH in Hr as (d2 & E2 & E3). exists d2. split; [|done].
  unfold mbind, Comp_bind. by rewrite E.
Qed.

(** The data of an event has every column of the row. *)
Definition carries (columns : list string) (data : Doc) (id : string) (r : BaseRow) : Prop :=
  data !! "id" = Some (VString id) /\
  forall c, c ∈ columns -> exists v, data !! c = Some v /\ value_to_text json_text v = cell id r c.
(** The log tells the story of the rows that are there now. *)
Inductive recorded (columns : list string) : list LogRow -> gmap string BaseRow -> Prop :=
  | recorded_nil : recorded columns [] ∅
  | recorded_created log rows e id r :
      recorded columns log rows -> rows !! id = None -> ev_type (lr_event e) ∈ [MCreated; MRestored] ->
      carries columns (ev_data (lr_event e)) id r -> recorded columns (log ++ [e]) (<[id := r]> rows)
  | recorded_updated log rows e id r :
      recorded columns log rows -> is_Some (rows !! id) -> ev_type (lr_event e) = MUpdated ->
      carries columns (ev_data (lr_event e)) id r -> recorded columns (log ++ [e]) (<[id := r]> rows)
  | recorded_deleted log rows e id :
      recorded columns log rows -> ev_type (lr_event e) ∈ [MDeleted; MHardDeleted] ->
      ev_data (lr_event e) !! "id" = Some (VString id) -> recorded columns (log ++ [e]) (base.delete id rows).

(** The table of [p] shows exactly these rows. *)
Definition table_matches (p : TableProjection) (rows : gmap string BaseRow) (d : ProjDb) : Prop :=
  forall id, matches (pj_columns p) id (rows !! id) (row_at (pj_table p) id d).

Lemma carried_columns columns data id r : carries columns data id r -> filter (fun c => is_Some (data !! c)) columns = columns.
Proof.
  intros [_ Hc]. apply filter_all. intros c Hin. destruct (Hc c Hin) as (v & -> & _). by eexists.
Qed.
Lemma carried_lookup columns data id r cols c : carries columns data id r -> (forall c, c ∈ cols -> c ∈ columns) -> c ∈ cols ->
  text_row json_text cols data !! c = Some (cell id r c).
Proof.
  intros [_ Hc] Hsub Hin. unfold text_row. rewrite (columns_lookup (fun c => value_to_text json_text (default VNull (data !! c)))) by done.
  by destruct (Hc c (Hsub c Hin)) as (v & -> & <-).
Qed.

Lemma matches_insert columns id r (rows : gmap string BaseRow) (shown : gmap string TextRow) row :
  (forall j, matches columns j (rows !! j) (shown !! j)) -> (forall c, c ∈ columns -> row !! c = Some (cell id r c)) ->
  forall j, matches columns j (<[id := r]> rows !! j) (<[id := row]> shown !! j).
Proof.
  intros Hm Hr j. destruct (decide (j = id)) as [->|Hne]; [|by rewrite !lookup_insert_ne].
  rewrite !lookup_insert_eq. by exists row.
Qed.

(** A statement that changes the rows of its table, run with success *)
Lemma rows_changed t cols f d u d' :
  on_table fault t cols (fun d => (inl tt, alter_rows t f d)) d = (inl u, d') ->
  exists rows, forall j, row_at t j d = rows !! j /\ row_at t j d' = f rows !! j.
Proof.
  intros (d1 & x & Hs & Hx & [= _ <-])%on_table_inl. exists (pt_rows x). intros j.
  rewrite <- (same_row_at _ _ _ _ Hs), row_at_alter, Hx. split; [|done]. unfold row_at. by rewrite Hx.
Qed.

Lemma replay_created p e live id r d u d' : "id" ∈ pj_columns p -> ev_type (lr_event e) ∈ [MCreated; MRestored] ->
  carries (pj_columns p) (ev_data (lr_event e)) id r -> live !! id = None -> table_matches p live d ->
  replaying p (event_type_debug (ev_type (lr_event e))) (ev_data (lr_event e)) d = (inl u, d') ->
  table_matches p (<[id := r]> live) d'.
Proof.
  intros Hid Ht Hc Hno Hm. unfold handle_event_connection.
  rewrite decide_True by (apply list_elem_of_In in Ht as [<-|[<-|[]]]; auto).
  rewrite (carried_columns _ _ _ _ Hc). destruct (pj_columns p) as [|c0 cols0] eqn:Ecols; [by apply elem_of_nil in Hid|].
  rewrite <- Ecols in *. rewrite (carried_lookup _ _ _ _ _ _ Hc) by done. unfold cell. cbn [decide].
  rewrite decide_True by done. intros (rows & Hrows)%rows_changed j.
  destruct (Hrows j) as [_ ->]. assert (rows !! id = None) as ->.
  { destruct (Hrows id) as [<- _]. specialize (Hm id). by rewrite Hno in Hm. }
  apply matches_insert; [|intros c Hin; by apply (carried_lookup (pj_columns p))].
  intros k. destruct (Hrows k) as [<- _]. apply Hm.
Qed.
Lemma alter_at (f : TextRow -> TextRow) (m : gmap string TextRow) i x : m !! i = Some x -> alter f i m = <[i := f x]> m.
Proof.
  intros Hi. apply map_eq. intros j. destruct (decide (j = i)) as [->|Hne].
  - by rewrite lookup_alter_eq, Hi, lookup_insert_eq.
  - by rewrite lookup_alter_ne, lookup_insert_ne.
Qed.
Lemma replay_updated p e live id r d u d' : ev_type (lr_event e) = MUpdated ->
  carries (pj_columns p) (ev_data (lr_event e)) id r -> is_Some (live !! id) -> table_matches p live d ->
  replaying p (event_type_debug (ev_type (lr_event e))) (ev_data (lr_event e)) d = (inl u, d') ->
  table_matches p (<[id := r]> live) d'.
Proof.
  intros Ht Hc [r0 Hold] Hm. unfold handle_event_connection. rewrite Ht. cbn [event_type_debug].
  rewrite decide_False by (intros [|]; done). rewrite decide_True by done. rewrite (proj1 Hc).
  set (data := ev_data (lr_event e)) in *. set (cols := filter _ _).
  assert (forall c, c ∈ cols <-> c ∈ pj_columns p /\ c <> "id") as Hcols.
  { intros c. subst cols. rewrite list_elem_of_filter. split; [naive_solver|]. intros [Hin Hne]. split; [split; [done|]|done].
    destruct (proj2 Hc c Hin) as (v & -> & _). by eexists. }
  clearbody cols. pose proof (Hm id) as Hi. rewrite Hold in Hi. destruct Hi as (old & Hat & Hshown).
  assert (forall rows : gmap string TextRow, rows !! id = Some old -> (forall k, matches (pj_columns p) k (live !! k) (rows !! k)) ->
    forall j, matches (pj_columns p) j (<[id := r]> live !! j) (alter (fun o => text_row json_text cols data ∪ o) id rows !! j)) as Hgo.
  { intros rows Hrow Hall j. rewrite (alter_at _ _ _ old) by done. apply matches_insert; [done|].
    intros c Hin. destruct (decide (c = "id")) as [->|Hne].
    - rewrite lookup_union_r; [rewrite Hshown by done; by unfold cell|].
      apply not_elem_of_list_to_map_1. rewrite <- list_fmap_compose. intros (x & Ex & Hx)%list_elem_of_fmap. cbn in Ex.
      apply Hcols in Hx as [_ Hx]. congruence.
    - apply lookup_union_Some_l. apply (carried_lookup (pj_columns p) _ _ _ _ _ Hc); [by intros x []%Hcols|by apply Hcols]. }
  destruct cols as [|c0 cols'].
  - intros [= _ <-] j. destruct (decide (j = id)) as [->|Hne]; [|by rewrite lookup_insert_ne].
    rewrite lookup_insert_eq. exists old. split; [done|]. intros c Hin. rewrite Hshown by done.
    destruct (decide (c = "id")) as [->|Hne]; [by unfold cell|].
    exfalso. apply (not_elem_of_nil c). by apply Hcols.
  - intros (rows & Hrows)%rows_changed j. destruct (Hrows j) as [_ ->]. apply Hgo.
    + by destruct (Hrows id) as [<- _].
    + intros k. destruct (Hrows k) as [<- _]. apply Hm.
Qed.
Lemma replay_deleted p e live id d u d' : ev_type (lr_event e) ∈ [MDeleted; MHardDeleted] ->
  ev_data (lr_event e) !! "id" = Some (VString id) -> table_matches p live d ->
  replaying p (event_type_debug (ev_type (lr_event e))) (ev_data (lr_event e)) d = (inl u, d') ->
  table_matches p (base.delete id live) d'.
Proof.
  intros Ht Hc Hm. unfold handle_event_connection. rewrite Hc.
  assert (exists t, event_type_debug (ev_type (lr_event e)) = t /\ (t = "Deleted" \/ t = "HardDeleted")) as (t & -> & Hor)
    by (apply list_elem_of_In in Ht as [<-|[<-|[]]]; eexists; split; [done|by left|done|by right]).
  rewrite decide_False by (intros [|]; destruct Hor; congruence). rewrite decide_False by (destruct Hor; congruence).
  rewrite decide_True by done. intros (rows & Hrows)%rows_changed j. destruct (Hrows j) as [Hj ->].
  destruct (decide (j = id)) as [->|Hne]; [by rewrite !lookup_delete_eq|]. rewrite !lookup_delete_ne by done.
  rewrite <- Hj. apply Hm.
Qed.

(** Replaying a log that tells the story of some rows, from an empty table *)
Lemma replay_story p log live d u d' : "id" ∈ pj_columns p -> recorded (pj_columns p) log live -> table_matches p ∅ d ->
  apply_events json_text fault p log d = (inl u, d') -> table_matches p live d'.
Proof.
  intros Hid Hrec Hm. revert u d'. induction Hrec as [|log live e id r Hr IH Hno Ht Hc|log live e id r Hr IH Hold Ht Hc|log live e id Hr IH Ht Hc];
    intros u d'; [by intros [= _ <-]|..]; intros (d1 & Hr1 & (v & d2 & Hr2 & [= _ <-])%bind_inl)%apply_events_app; specialize (IH _ _ Hr1).
  - by eapply replay_created.
  - by eapply replay_updated.
  - by eapply replay_deleted.
Qed.

Lemma require_same model d u d' : require_complete_history_in fault model d = (inl u, d') -> same_data d d'.
Proof.
  unfold require_complete_history_in. intros (b & d1 & (d2 & Hs & [= <- <-])%stmt_inl & Hr)%bind_inl.
  destruct (pd_has_coverage d2); [|by injection Hr as _ <-].
  apply bind_inl in Hr as (st & d3 & (d4 & Hs2 & [= <- <-])%stmt_inl & Hr). etrans; [exact Hs|]. etrans; [exact Hs2|].
  destruct (lg_coverage _ !! model) as [c|]; [destruct (_ || _); [done|]|]; by injection Hr as _ <-.
Qed.
Lemma rebuild_in_matches p live d u d' : "id" ∈ pj_columns p ->
  recorded (pj_columns p) (logged (pj_source_model p) (pd_log d)) live ->
  rebuild_in json_text fault p d = (inl u, d') -> table_matches p live d'.
Proof.
  intros Hid Hrec. unfold rebuild_in. intros (u1 & d1 & Hs1%require_same & Hr)%bind_inl.
  apply bind_inl in Hr as (rows & d2 & (d3 & Hs2 & [= <- <-])%stmt_inl & Hr).
  apply bind_inl in Hr as (u2 & d4 & (rows & Hrows)%rows_changed & Hr). eapply replay_story; [done|exact Hrec| |].
  - intros id. destruct (Hrows id) as [_ ->]. by rewrite !lookup_empty.
  - destruct (same_data_trans _ _ _ Hs1 Hs2) as (_ & _ & El & _). by rewrite El in Hr.
Qed.

(** The history of a model may be replayed. *)
Definition complete (model : string) (d : ProjDb) : Prop :=
  pd_has_coverage d = true -> forall c, lg_coverage (pd_log d) !! model = Some c -> cv_mode c = "full" /\ cv_complete c = true.

Lemma require_complete model d u d' : require_complete_history_in fault model d = (inl u, d') -> complete model d.
Proof.
  unfold require_complete_history_in. intros (b & d1 & (d2 & (_ & _ & El & Ec) & [= <- <-])%stmt_inl & Hr)%bind_inl Hcov c Hc.
  rewrite Ec, Hcov in Hr. apply bind_inl in Hr as (st & d3 & (d4 & (_ & _ & El4 & _) & [= <- <-])%stmt_inl & Hr).
  rewrite El4, El, Hc in Hr. destruct (negb _) eqn:E1; [done|]. destruct (cv_complete c) eqn:E2; [|done].
  apply negb_false_iff, bool_decide_eq_true in E1. done.
Qed.
Lemma same_complete model d d' : same_data d d' -> complete model d' -> complete model d.
Proof. intros (_ & _ & El & Ec) Hc. unfold complete in *. by rewrite <- El, <- Ec. Qed.
Lemma preflight_same (qs : list Projection) d u d' : preflight fault qs d = (inl u, d') ->
  same_data d d' /\ forall q, q ∈ qs -> pr_transactional q = true /\ complete (pr_source_model q) d.
Proof.
  revert d u d'. induction qs as [|q rest IH]; intros d u d'; cbn [preflight]; [intros [= _ <-]; split; [done|set_solver]|].
  intros (u1 & d1 & Ht & Hr)%bind_inl. destruct (pr_transactional q) eqn:Eq; [|done]. injection Ht as _ <-.
  apply bind_inl in Hr as (u2 & d2 & Hq & Hr). apply IH in Hr as [Hs Hrest]. pose proof (require_same _ _ _ _ Hq) as Hs1.
  split; [by etrans|]. intros q' [->|Hin]%elem_of_cons; [split; [done|by eapply require_complete]|].
  destruct (Hrest q' Hin) as [? Hc]. split; [done|]. by eapply same_complete.
Qed.

Lemma rebuild_each_matches qs d u d' : NoDup (pj_table ∘ cs_projection <$> qs) ->
  rebuild_each (of_current json_text fault <$> qs) d = (inl u, d') ->
  pd_base d' = pd_base d /\ (forall t, t ∉ (pj_table ∘ cs_projection <$> qs) -> pd_tables d' !! t = pd_tables d !! t) /\
  forall c live, c ∈ qs -> "id" ∈ pj_columns (cs_projection c) ->
    recorded (pj_columns (cs_projection c)) (logged (model_of c) (pd_log d)) live -> table_matches (cs_projection c) live d'.
Proof.
  revert d u d'. induction qs as [|q rest IH]; intros d u d' Hnd; cbn [rebuild_each fmap list_fmap of_current pr_rebuild_in];
    [intros [= _ <-]; split_and!; [done|done|set_solver]|].
  intros (u1 & d1 & Hq & Hr)%bind_inl. apply NoDup_cons in Hnd as [Hnot Hnd]. destruct (IH _ _ _ Hnd Hr) as (Hb & Ht & Hm).
  pose proof (rebuild_in_keeps (cs_projection q) d) as Hk. rewrite Hq in Hk. cbn [snd] in Hk. destruct Hk as (Hb1 & Hl1 & _ & Ht1).
  split_and!; [by rewrite Hb|intros t [Hne Hin]%not_elem_of_cons; by rewrite Ht, Ht1|].
  intros c live [->|Hin]%elem_of_cons Hid Hrec; [|apply (Hm c live); [done|done|by rewrite Hl1]].
  pose proof (rebuild_in_matches _ _ _ _ _ Hid Hrec Hq) as Hmq. intros id. unfold row_at. rewrite Ht by done. apply Hmq.
Qed.

(** C23: rebuilding is all or nothing, and right where the log is.  If it fails, at whatever
    statement, everything is as it was; it succeeds only if every projection rebuilds in a
    transaction and the history of every model is complete; base tables and other tables are
    never touched, and every projection whose model's log tells the whole story of the rows
    there are shows exactly these rows, as refreshing each of them would. *)
Theorem rebuild_contract (d : ProjDb) : NoDup (pj_table ∘ cs_projection <$> cs) ->
  match rebuild_all fault ps d with
  | (inr _, d') => same_data d d'
  | (inl _, d') =>
      pd_base d' = pd_base d /\
      (forall t, t ∉ (pj_table ∘ cs_projection <$> cs) -> pd_tables d' !! t = pd_tables d !! t) /\
      forall c, c ∈ cs -> complete (model_of c) d /\
        ("id" ∈ pj_columns (cs_projection c) ->
         recorded (pj_columns (cs_projection c)) (logged (model_of c) (pd_log d)) (live_rows (cs_source_table c) d) ->
         forall id, shows c id d')
  end.
Proof.
  intros Hnd. destruct (rebuild_all fault ps d) as [[u|e] d'] eqn:E; [|by eapply transaction_inr].
  apply transaction_inl in E as (d1 & d9 & Hs & Hm & Hs9).
  apply bind_inl in Hm as (u1 & d2 & (d3 & Hs3 & ->)%runs_inl & Hm). apply bind_inl in Hm as (u2 & d4 & Hp & Hm).
  apply preflight_same in Hp as [Hs4 Hpre]. destruct (rebuild_each_matches _ _ _ _ Hnd Hm) as (Hb & Ht & Hall).
  assert (same_data d d4) as Hs04 by (etrans; [exact Hs|etrans; [exact Hs3|exact Hs4]]).
  pose proof Hs04 as (Hb4 & Ht4 & Hl4 & _). pose proof Hs9 as (Hb9 & Ht9 & _).
  split_and!; [congruence|intros t Hin; by rewrite Ht9, Ht, Ht4|]. intros c Hc. split.
  - apply (same_complete _ d d3); [by etrans; [exact Hs|exact Hs3]|]. by apply (Hpre (of_current json_text fault c)), list_elem_of_fmap_2.
  - intros Hid Hrec id. eapply shows_same; [exact Hs9|]. unfold shows. rewrite (live_lookup _ d9), Hb, Hb4, <- (live_lookup _ d).
    apply (Hall c); [done|done|by rewrite Hl4].
Qed.
End Spec.

(** ** One model, its table and its log *)

Module ProjectorExamples.
#[local] Existing Instance enum_order.

Definition text (v : Value) : string := "json".
Definition no_fault (n : nat) : option string := None.
Definition deals : CurrentStateProjection := current_state "Deal" "deals" "deals_projection" ["id"; "title"; "due"].
Definition row (title due : string) : BaseRow := mkBaseRow false (list_to_map [("id", "1"); ("title", title); ("due", due)]).
Definition event (t : EventType) (data : Doc) : ModelEvent := mkModelEvent t "Deal" data None "2024" "e1" None None.
Definition created (due : Value) : Doc := list_to_map [("id", VString "1"); ("title", VString "one"); ("due", due)].
Definition deal_table (rows : gmap string BaseRow) : BaseTable := mkBaseTable {["id"; "title"; "due"]} rows.
Definition db (rows : gmap string BaseRow) (log : list LogRow) : ProjDb :=
  mkProjDb {["deals" := deal_table rows]} ∅ (mkLog log ∅ 0) true 0.
Definition shown (d : ProjDb) : option (list (option string)) :=
  (fun r : TextRow => [r !! "title"; r !! "due"]) <$> row_at "deals_projection" "1" d.

(** Synchronised, then the row changes and the change is told *)
Definition steps : list ProjStep :=
  [SSync deals; SWrite "deals" "1" (Some (row "two" "")); SEvent (event MUpdated {["id" := VString "1"]})].
Lemma projections_follow_witness :
  shows deals "1" (proj_run text no_fault [deals] steps (db {["1" := row "one" ""]} [])) /\
  shown (proj_run text no_fault [deals] steps (db {["1" := row "one" ""]} [])) = Some [Some "two"; Some ""].
Proof.
  split; [|vm_compute; reflexivity]. apply (projections_follow text no_fault [deals]).
  - left.
  - apply NoDup_singleton.
  - intros q Hq. apply list_elem_of_In in Hq as [E|[E|[E|[]]]]; [injection E as <-; left|discriminate E|discriminate E].
  - vm_compute. reflexivity.
Defined.

(** The log tells of the creation. *)
Definition log_row (data : Doc) : LogRow := mkLogRow 1 5 (event MCreated data).
Definition after_rebuild (due : Value) : (unit + string) * ProjDb :=
  let d := db {["1" := row "one" "2024-01-01"]} [log_row (created due)] in
  rebuild_all no_fault (of_current text no_fault <$> [deals]) (initialize_and_sync no_fault deals d).2.
Lemma rebuild_contract_witness : shows deals "1" (after_rebuild (VString "2024-01-01")).2.
Proof.
  assert (NoDup (pj_table ∘ cs_projection <$> [deals])) as Hnd by apply NoDup_singleton.
  pose proof (rebuild_contract text no_fault [deals] (initialize_and_sync no_fault deals
    (db {["1" := row "one" "2024-01-01"]} [log_row (created (VString "2024-01-01"))])).2 Hnd) as H.
  unfold after_rebuild. destruct (rebuild_all _ _ _) as [[u|e] d'] eqn:E; [|vm_compute in E; discriminate E].
  destruct H as (_ & _ & H). destruct (H deals) as [_ Hs]; [left|]. apply Hs; [vm_compute; by left|].
  set (d0 := (initialize_and_sync _ _ _).2).
  assert (logged "Deal" (pd_log d0) = [log_row (created (VString "2024-01-01"))]) as El by (vm_compute; reflexivity).
  assert (live_rows "deals" d0 = {["1" := row "one" "2024-01-01"]}) as Er by (vm_compute; reflexivity).
  cbn [deals current_state cs_projection table_projection pj_source_model cs_source_table pj_columns]. rewrite El, Er.
  apply (recorded_created text _ [] ∅ (log_row (created (VString "2024-01-01"))) "1"); [constructor|done|left|].
  split; [done|]. intros c Hc. apply list_elem_of_In in Hc as [<-|[<-|[<-|[]]]]; eexists; split; done.
Defined.

(** Dates are null in events (the client reads them so): a rebuild loses them. *)
Example rebuild_loses_dates : shown (after_rebuild VNull).2 = Some [Some "one"; Some ""] /\
  shown (initialize_and_sync no_fault deals (db {["1" := row "one" "2024-01-01"]} [])).2 = Some [Some "one"; Some "2024-01-01"].
Proof. vm_compute. done. Qed.

(** An id that is a number is not refreshed by any notification. *)
Example numeric_id_not_refreshed :
  let d := proj_run text no_fault [deals]
             [SSync deals; SWrite "deals" "1" (Some (row "two" "")); SEvent (event MUpdated {["id" := json_int 1]})]
             (db {["1" := row "one" ""]} []) in
  shown d = Some [Some "one"; Some ""].
Proof. vm_compute. done. Qed.

Example incomplete_history_refused :
  let d := (initialize_and_sync no_fault deals (db {["1" := row "one" ""]} [])).2 in
  let gap := mkProjDb (pd_base d) (pd_tables d) (mkLog [] {["Deal" := mkCoverage "full" false (Some 3) None 0]} 0) true 0 in
  let r := rebuild_all no_fault (of_current text no_fault <$> [deals]) gap in
  r.1 = inr (history_unavailable "Deal") /\ shown r.2 = Some [Some "one"; Some ""] /\
  rs_status (rebuild_error (history_unavailable "Deal")) = 409.
Proof. vm_compute. done. Qed.

Example custom_projection_refused :
  (rebuild_all no_fault [custom "mine" "Deal" (fun _ _ => mret tt)] (db ∅ [])).1 = inr (unsupported "mine").
Proof. vm_compute. done. Qed.
End ProjectorExamples.
