(* ===== verification/Media.v ===== *)
(** * Media and their storage ([atomo_server/src/storage.rs], [media.rs])

    The trait of storage is a class; [Lawful] is what the media store relies on, and the files
    under a local directory are an instance.  The S3 backend calls Amazon's client, whose
    behaviour is another instance's business.  Then uploads and what waits between their
    statements, presigned uploads and their commit, reading with byte ranges (which are those
    of RFC 7233), deletion, collection and the routes. *)

From stdpp Require Import pretty.
From S2P Require Import Prelude StateM Json SchemaTypes Workers Query Auth.

(** Bytes are strings.  Any operation may fail; presigning is a matter of the backend. *)
Class StorageBackend (S : Type) : Type := {
  st_put : string -> string -> Comp S string unit;
  st_get : string -> Comp S string (option string);
  st_delete : string -> Comp S string unit;
  st_size : string -> Comp S string (option Z);
  st_presigned_get : string -> S -> option string;
  st_presigned_put : string -> S -> option string
}.

(** The trait's default [size] *)
Definition default_size {S} (get : string -> Comp S string (option string)) (key : string) : Comp S string (option Z) :=
  found ← get key; mret ((fun b => Z.of_nat (String.length b)) <$> found).

(** The components of a key as a path *)
Definition components (key : string) : list string :=
  filter (fun c => c <> EmptyString /\ c <> "."%string) (split_on slash key).

(** What is stored under a key; an operation touches, at most, the object its key denotes. *)
Class Lawful (S : Type) {sb : StorageBackend S} (object : S -> string -> option string) : Prop := {
  put_stores k b s s' : st_put k b s = (inl tt, s') -> object s' k = Some b;
  put_other k b k' s : components k <> components k' -> object (st_put k b s).2 k' = object s k';
  get_reads k b s : (st_get k s).1 = inl (Some b) -> object s k = Some b;
  get_keeps k k' s : object (st_get k s).2 k' = object s k';
  delete_other k k' s : components k <> components k' -> object (st_delete k s).2 k' = object s k';
  size_measures k n b s : (st_size k s).1 = inl (Some n) -> object s k = Some b -> n = Z.of_nat (String.length b);
  size_keeps k k' s : object (st_size k s).2 k' = object s k'
}.

(** ** [LocalStorage]: the files under its root, by the components of their path *)

Abbreviation Files := (gmap (list string) string).

Definition resolve (key : string) : option (list string) :=
  if bool_decide (key = EmptyString) || contains key ".." || String.prefix "/" key then None else Some (components key).
Definition invalid_key : string := "invalid storage key".

Section Local.
(** What the operating system refuses: an operation on a path, given the files there are. *)
Variable denied : string -> list string -> Files -> option string.
(** What the metadata of a path that is no file say: a directory has a size too. *)
Variable directory : list string -> Files -> option Z.
(** What a write that fails leaves of the file *)
Variable torn : list string -> Files -> option string.

Definition io {A} (f : Files -> (A + string) * Files) : Comp Files string A := f.
Definition local_put (key bytes : string) : Comp Files string unit :=
  path ← of_option (resolve key) invalid_key;
  io (fun fs => match denied "create_dir" path fs with
             | Some e => (inr e, fs)
             | None => match denied "write" path fs with
                       | Some e => (inr e, match torn path fs with Some b => <[path := b]> fs | None => fs end)
                       | None => (inl tt, <[path := bytes]> fs)
                       end
             end).
(** A file that cannot be read is not there. *)
Definition local_get (key : string) : Comp Files string (option string) :=
  path ← of_option (resolve key) invalid_key;
  io (fun fs => (inl (match denied "read" path fs with Some _ => None | None => fs !! path end), fs)).
Definition local_delete (key : string) : Comp Files string unit :=
  path ← of_option (resolve key) invalid_key;
  io (fun fs => (inl tt, match denied "remove" path fs with Some _ => fs | None => delete path fs end)).
Definition local_size (key : string) : Comp Files string (option Z) :=
  path ← of_option (resolve key) invalid_key;
  io (fun fs => (inl (match denied "metadata" path fs with
                   | Some _ => None
                   | None => match fs !! path with Some b => Some (Z.of_nat (String.length b)) | None => directory path fs end
                   end), fs)).

Definition LocalStorage : StorageBackend Files := {|
  st_put := local_put; st_get := local_get; st_delete := local_delete; st_size := local_size;
  st_presigned_get _ _ := None; st_presigned_put _ _ := None
|}.

Definition file_at (fs : Files) (key : string) : option string := resolve key ≫= fun path => fs !! path.

Lemma resolve_components k path : resolve k = Some path -> path = components k.
Proof. unfold resolve. destruct (_ || _); [done|]. by intros [= <-]. Qed.
Lemma file_at_insert fs k k' path b : resolve k = Some path -> components k <> components k' ->
  file_at (<[path := b]> fs) k' = file_at fs k'.
Proof.
  intros ->%resolve_components Hne. unfold file_at. destruct (resolve k') as [path'|] eqn:E; [|done].
  apply resolve_components in E as ->. cbn. by rewrite lookup_insert_ne.
Qed.

Lemma local_storage_lawful : @Lawful Files LocalStorage file_at.
Proof.
  split; cbn; intros; unfold local_put, local_get, local_delete, local_size, io, mbind, Comp_bind, of_option, mret, Comp_ret, throw in *;
    try (destruct (resolve k) as [path|] eqn:E; [|done]).
  - unfold file_at. rewrite E. cbn. repeat case_match; simplify_eq. apply lookup_insert_eq.
  - repeat case_match; simplify_eq; cbn; try done; by eapply file_at_insert.
  - unfold file_at. rewrite E. cbn in *. case_match; by simplify_eq.
  - done.
  - case_match; [done|]. cbn. unfold file_at. destruct (resolve k') as [path'|] eqn:E'; [|done]. cbn.
    apply resolve_components in E as ->, E' as ->. by rewrite lookup_delete_ne.
  - unfold file_at in *. rewrite E in *. cbn in *. case_match; [done|]. by simplify_option_eq.
  - done.
Qed.
End Local.

(** [storage_from_env], without the S3 feature: the directory *)
Definition storage_dir (env : string -> option string) : string := default ".atomo/media"%string (env "STORAGE_LOCAL_DIR"%string).

Example traversal_refused :
  resolve "../escape" = None /\ resolve "/etc/passwd" = None /\ resolve "t/2026/06/abc.bin" = Some ["t"; "2026"; "06"; "abc.bin"]%string.
Proof. vm_compute. done. Qed.

(** * Media ([atomo_server/src/media.rs])

    Uploads, their metadata and the routes.  A row of [media] names the object that holds
    its bytes; statements and the storage may fail separately, and what ran before a failure
    stays. *)

#[local] Open Scope string_scope.
#[local] Open Scope Z_scope.

(** ** State *)

Record MediaRow : Type := mkMediaRow {
  md_tenant : option string; md_filename : string; md_content_type : string; md_size : Z;
  md_key : string; md_checksum : option string; md_by : string; md_deleted : option Z
}.
Record MediaServer (S : Type) : Type := mkMedia {
  ms_rows : gmap string MediaRow;
  ms_storage : S;
  ms_sent : list ModelEvent;
  ms_tick : nat                          (* statements run and values drawn so far *)
}.
Arguments mkMedia {S}. Arguments ms_rows {S}. Arguments ms_storage {S}. Arguments ms_sent {S}. Arguments ms_tick {S}.

(** The settings, and everything outside *)
Record MediaEnv : Type := mkMediaEnv {
  me_max_size : Z;                       (* [STORAGE_MAX_FILE_SIZE] *)
  me_private : bool;                     (* [STORAGE_PRIVATE_READS] *)
  me_sha256 : string -> string;
  me_fault : nat -> option string;       (* of a statement *)
  me_now : nat -> Z;                     (* the database's clock *)
  me_uuid : nat -> string;
  me_month : nat -> string;              (* the clock as year/month *)
  me_time : nat -> string                (* the clock as text *)
}.

Definition DEFAULT_MAX_SIZE : Z := 10 * 1024 * 1024.
Definition max_size_from_env (env : string -> option string) : Z :=
  default DEFAULT_MAX_SIZE (env "STORAGE_MAX_FILE_SIZE" ≫= parse_u64).
Definition private_reads_from_env (env : string -> option string) : bool :=
  match env "STORAGE_PRIVATE_READS" with Some v => bool_decide (v = "true" \/ v = "1") | None => false end.

(** ** Content types *)

Definition allowed_prefixes : list string :=
  ["image/"; "video/"; "audio/"; "application/pdf"; "text/plain"; "application/json"; "application/zip"; "application/octet-stream"].
Definition content_type_allowed (ct : string) : bool :=
  if decide (ct = "image/svg+xml") then false
  else if String.prefix "text/html" ct then false
  else existsb (fun a => String.prefix a ct) allowed_prefixes.

Definition byte (n : nat) : string := String (Ascii.ascii_of_nat n) EmptyString.
Definition content_matches (ct bytes : string) : bool :=
  let starts sig := String.prefix sig bytes in
  let at_ n sig := bool_decide (String.substring n (String.length sig) bytes = sig) in
  if decide (ct = "image/png") then starts (byte 137 +:+ "PNG")
  else if decide (ct = "image/jpeg") then starts (byte 255 +:+ byte 216 +:+ byte 255)
  else if decide (ct = "image/gif") then starts "GIF8"
  else if decide (ct = "image/webp") then starts "RIFF" && at_ 8%nat "WEBP"
  else if decide (ct = "application/pdf") then starts "%PDF"
  else if decide (ct = "application/zip") then starts ("PK" +:+ byte 3 +:+ byte 4)
  else if decide (ct = "video/mp4") then at_ 4%nat "ftyp"
  else true.

(** ** Keys *)

(** [Path::extension] of a file name: what follows the last dot of the last component *)
Definition dot : Ascii.ascii := Ascii.ascii_of_nat 46.
Definition file_name (path : string) : option string :=
  match last (filter (fun c => c <> "" /\ c <> ".") (split_on slash path)) with
  | Some ".." | None => None
  | Some name => Some name
  end.
Definition extension (path : string) : option string :=
  file_name path ≫= fun name =>
    let parts := split_on dot name in
    let ext := default "" (last parts) in
    if bool_decide (length parts = 1%nat) || bool_decide (name = "." +:+ ext) then None else Some ext.
Definition storage_key (month id filename : string) (tenant_id : option string) : string :=
  default "public" tenant_id +:+ "/" +:+ month +:+ "/" +:+ id +:+
    match extension filename with Some e => "." +:+ e | None => "" end.

Example extension_examples :
  extension "photo.tar.gz" = Some "gz" /\ extension "upload" = None /\ extension ".bashrc" = None /\
  extension "../../etc/passwd.d/x.PNG" = Some "PNG" /\ extension "a." = Some "" /\ extension "a/.." = None.
Proof. vm_compute. done. Qed.

(** ** The store *)

Section Media.
Context {S : Type} {sb : StorageBackend S} (me : MediaEnv).

Definition Db (A : Type) : Type := Comp (MediaServer S) string A.
Definition tick (s : MediaServer S) : MediaServer S := mkMedia (ms_rows s) (ms_storage s) (ms_sent s) (Datatypes.S (ms_tick s)).
Definition statement {A} (f : nat -> MediaServer S -> A * MediaServer S) : Db A := fun s =>
  match me_fault me (ms_tick s) with
  | Some e => (inr e, tick s)
  | None => let '(a, s') := f (ms_tick s) (tick s) in (inl a, s')
  end.
Definition select {A} (f : MediaServer S -> A) : Db A := statement (fun _ s => (f s, s)).
Definition draw : Db nat := fun s => (inl (ms_tick s), tick s).
Definition with_rows (r : gmap string MediaRow) (s : MediaServer S) : MediaServer S := mkMedia r (ms_storage s) (ms_sent s) (ms_tick s).
Definition store {A} (m : Comp S string A) : Db A :=
  on ms_storage (fun st s => mkMedia (ms_rows s) st (ms_sent s) (ms_tick s)) m.

(** [INSERT INTO media]: the id is the primary key. *)
Definition insert_row (id : string) (row : MediaRow) : Db unit := fun s =>
  match me_fault me (ms_tick s) with
  | Some e => (inr e, tick s)
  | None => match ms_rows s !! id with
            | Some _ => (inr "duplicate key value violates unique constraint", tick s)
            | None => (inl tt, with_rows (<[id := row]> (ms_rows s)) (tick s))
            end
  end.

Definition emit (t : EventType) (id actor : string) (extra : Doc) : Db unit := fun s =>
  let n := ms_tick s in
  (inl tt, mkMedia (ms_rows s) (ms_storage s)
     (ms_sent s ++ [mkModelEvent t "Media" (<["id" := VString id]> extra) None (me_time me n) (me_uuid me n) (Some actor) None])
     (Datatypes.S n)).
Definition created_data (content_type : string) (size : Z) : Doc :=
  <["size" := json_int size]> {["contentType" := VString content_type]}.

Context {ho : HashOrder}.

(** The live row of a tenant with a checksum, if any: [LIMIT 1] takes one of them. *)
Definition same_content (checksum : string) (tenant_id : option string) (s : MediaServer S) : option string :=
  head (filter (fun p => md_checksum p.2 = Some checksum /\ md_tenant p.2 = tenant_id /\ md_deleted p.2 = None)
          (hpairs (ms_rows s))).*1.

Definition store_upload (filename content_type bytes user_id : string) (tenant_id : option string) : Db (string * string) :=
  let checksum := me_sha256 me bytes in
  found ← select (same_content checksum tenant_id);
  match found with
  | Some id => mret (id, checksum)
  | None =>
      n ← draw;
      let id := me_uuid me n in
      let key := storage_key (me_month me n) id filename tenant_id in
      store (st_put key bytes) ;;
      let size := Z.of_nat (String.length bytes) in
      inserted ← try (insert_row id (mkMediaRow tenant_id filename content_type size key (Some checksum) user_id None));
      match inserted with
      | inr e => _ ← try (store (st_delete key)) : Db (unit + string); throw e
      | inl _ => emit MCreated id user_id (created_data content_type size) ;; mret (id, checksum)
      end
  end.

(** [store_upload] in the order it awaits: what it asks the database and the storage, one at a
    time.  Between two of these other requests run. *)
Record Upload : Type := mkUpload {
  up_filename : string; up_type : string; up_bytes : string; up_user : string; up_tenant : option string
}.
Inductive Stage : Type :=
  | Looking
  | Putting
  | Inserting (n : nat)
  | Undoing (n : nat) (e : string)
  | Finished (result : (string * string) + string).
Definition up_key (q : Upload) (n : nat) : string := storage_key (me_month me n) (me_uuid me n) (up_filename q) (up_tenant q).
Definition up_row (q : Upload) (n : nat) : MediaRow :=
  mkMediaRow (up_tenant q) (up_filename q) (up_type q) (Z.of_nat (String.length (up_bytes q))) (up_key q n)
    (Some (me_sha256 me (up_bytes q))) (up_user q) None.
Definition upload_phase (q : Upload) (g : Stage) (s : MediaServer S) : Stage * MediaServer S :=
  let checksum := me_sha256 me (up_bytes q) in
  match g with
  | Looking =>
      match select (same_content checksum (up_tenant q)) s with
      | (inl (Some id), s) => (Finished (inl (id, checksum)), s)
      | (inl None, s) => (Putting, s)
      | (inr e, s) => (Finished (inr e), s)
      end
  | Putting =>
      let n := ms_tick s in
      match store (st_put (up_key q n) (up_bytes q)) (tick s) with
      | (inl _, s) => (Inserting n, s)
      | (inr e, s) => (Finished (inr e), s)
      end
  | Inserting n =>
      match insert_row (me_uuid me n) (up_row q n) s with
      | (inl _, s) =>
          (Finished (inl (me_uuid me n, checksum)),
           (emit MCreated (me_uuid me n) (up_user q) (created_data (up_type q) (md_size (up_row q n))) s).2)
      | (inr e, s) => (Undoing n e, s)
      end
  | Undoing n e => (Finished (inr e), (store (st_delete (up_key q n)) s).2)
  | Finished r => (Finished r, s)
  end.
Fixpoint upload_alone (fuel : nat) (q : Upload) (g : Stage) (s : MediaServer S) : Stage * MediaServer S :=
  match fuel with
  | O => (g, s)
  | Datatypes.S fuel => let '(g, s) := upload_phase q g s in upload_alone fuel q g s
  end.

Definition presign_upload (filename : string) (tenant_id : option string) : Db (option (string * string * string)) :=
  n ← draw;
  let id := me_uuid me n in
  let key := storage_key (me_month me n) id filename tenant_id in
  st ← asks ms_storage;
  mret ((fun url => (id, key, url)) <$> st_presigned_put key st).

Definition foreign_key : string := "storage key does not belong to this tenant".
Definition not_uploaded : string := "no object at key — upload not completed?".
Definition commit_upload (id key filename content_type : string) (checksum : option string) (user_id : string)
    (tenant_id : option string) : Db (string * bool) :=
  check (if String.prefix (default "public" tenant_id +:+ "/") key then None else Some foreign_key) ;;
  found ← store (st_size key);
  size ← of_option found not_uploaded;
  same ← match checksum with Some sum => select (same_content sum tenant_id) | None => mret None end;
  match same with
  | Some known => mret (known, true)
  | None =>
      insert_row id (mkMediaRow tenant_id filename content_type size key checksum user_id None) ;;
      emit MCreated id user_id (created_data content_type size) ;;
      mret (id, false)
  end.

Definition live_row (id : string) (s : MediaServer S) : option MediaRow :=
  match ms_rows s !! id with Some r => if decide (md_deleted r = None) then Some r else None | None => None end.
Definition media_lookup (id : string) : Db (option (string * string * option string)) :=
  select (fun s => (fun r => (md_key r, md_content_type r, md_tenant r)) <$> live_row id s).
Definition read (id : string) : Db (option (string * string * option string)) :=
  found ← media_lookup id;
  match found with
  | None => mret None
  | Some (key, ct, tenant) =>
      bytes ← store (st_get key);
      mret ((fun b => (b, ct, tenant)) <$> bytes)
  end.

Definition mark_deleted (now : Z) (r : MediaRow) : MediaRow :=
  mkMediaRow (md_tenant r) (md_filename r) (md_content_type r) (md_size r) (md_key r) (md_checksum r) (md_by r) (Some now).
Definition soft_delete (id actor : string) : Db bool :=
  key ← statement (fun n s => match live_row id s with
                              | Some r => (Some (md_key r), with_rows (<[id := mark_deleted (me_now me n) r]> (ms_rows s)) s)
                              | None => (None, s)
                              end);
  match key with
  | Some key => _ ← try (store (st_delete key)) : Db (unit + string); emit MDeleted id actor ∅ ;; mret true
  | None => mret false
  end.

(** Each of the two statements has a time of its own. *)
Definition past (n : nat) (secs : Z) (r : MediaRow) : Prop :=
  match md_deleted r with Some t => t < me_now me n - secs | None => False end.
#[export] Instance past_dec n secs r : Decision (past n secs r).
Proof. unfold past. destruct (md_deleted r); apply _. Defined.
Fixpoint delete_objects (keys : list string) : Db unit :=
  match keys with
  | [] => mret tt
  | k :: rest => _ ← try (store (st_delete k)) : Db (unit + string); delete_objects rest
  end.
Definition purge_deleted (secs : Z) : Db Z :=
  keys ← statement (fun n s => (md_key <$> (filter (fun p => past n secs p.2) (hpairs (ms_rows s))).*2, s));
  delete_objects keys ;;
  statement (fun n s => let kept := filter (fun p => ~ past n secs p.2) (ms_rows s) in
                        (Z.of_nat (size (ms_rows s)) - Z.of_nat (size kept), with_rows kept s)).

(** ** Ranges *)

Inductive RangeSpec : Type := Satisfiable (first last : Z) | Unsatisfiable | Ignore.

Definition minus : Ascii.ascii := Ascii.ascii_of_nat 45.
Definition parse_range (raw : string) (total : Z) : RangeSpec :=
  let raw := trim raw in
  if negb (String.prefix "bytes=" raw) then Ignore else
  let spec := trim (String.substring 6 (String.length raw - 6) raw) in
  if bool_decide (spec = "") || has_char (Ascii.ascii_of_nat 44) spec then Ignore else
  match split_once minus spec with
  | None => Ignore
  | Some (lo, hi) =>
      if decide (total = 0) then Unsatisfiable else
      let final := total - 1 in
      let lo := trim lo in let hi := trim hi in
      if decide (lo = "" /\ hi = "") then Ignore
      else if decide (lo = "") then
        match parse_u64 hi with
        | Some n => if decide (n = 0) then Unsatisfiable else Satisfiable (Z.max 0 (total - n)) final
        | None => Ignore
        end
      else if decide (hi = "") then
        match parse_u64 lo with
        | Some s => if decide (s <= final) then Satisfiable s final else Unsatisfiable
        | None => Ignore
        end
      else
        match parse_u64 lo, parse_u64 hi with
        | Some s, Some e => if decide (e < s) then Ignore
                            else if decide (final < s) then Unsatisfiable
                            else Satisfiable s (Z.min e final)
        | _, _ => Ignore
        end
  end.

(** A header's value: visible characters and tabs *)
Definition header_ok (s : string) : bool :=
  forallb (fun a => let n := Ascii.nat_of_ascii a in ((32 <=? n) && (n <? 127) || (n =? 9))%nat) (String.list_ascii_of_string s).
(** [Response::builder()...unwrap()]; [None]: a value is not one of a header, a panic. *)
Definition built (status : Z) (headers : list (string * string)) (body : Body) : option Response :=
  if forallb (fun h => header_ok h.2) headers then Some (mkResponse status headers body) else None.

Definition etag_of (id : string) : string := let q := byte 34 in q +:+ id +:+ q.
Definition slice (first last : Z) (bytes : string) : string :=
  String.substring (Z.to_nat first) (Z.to_nat (last - first + 1)) bytes.
Definition serve_bytes (if_none_match range : option string) (id content_type bytes : string) (private : bool) : option Response :=
  let total := Z.of_nat (String.length bytes) in
  let etag := etag_of id in
  let cache := if private then "private, max-age=3600" else "public, max-age=86400, immutable" in
  let known := match if_none_match with Some inm => bool_decide (inm = etag) || bool_decide (trim inm = "*") | None => false end in
  let whole := built 200 [("content-type", content_type); ("x-content-type-options", "nosniff"); ("accept-ranges", "bytes");
                          ("etag", etag); ("cache-control", cache)] (TextBody bytes) in
  if known then built 304 [("etag", etag); ("cache-control", cache)] NoBody else
  match range with
  | None => whole
  | Some raw =>
      match parse_range raw total with
      | Satisfiable first last =>
          built 206 [("content-type", content_type); ("x-content-type-options", "nosniff"); ("accept-ranges", "bytes");
                     ("content-range", "bytes " +:+ pretty first +:+ "-" +:+ pretty last +:+ "/" +:+ pretty total);
                     ("etag", etag); ("cache-control", cache)] (TextBody (slice first last bytes))
      | Unsatisfiable => built 416 [("content-range", "bytes */" +:+ pretty total); ("accept-ranges", "bytes")] NoBody
      | Ignore => whole
      end
  end.

(** ** Routes *)

Abbreviation H := (Comp (MediaServer S) Response).
Definition or_500 {A} (m : Db A) : H A := with_error (error_json 500) m.
Definition needs_user (user : option AuthUser) : H AuthUser :=
  of_option user (error_json 401 "authentication required").

Definition tenant_char (a : Ascii.ascii) : bool :=
  is_letter a || is_digit a || Ascii.eqb a minus || Ascii.eqb a (Ascii.ascii_of_nat 95).
(** The values of the header [x-tenant-id], those that are not text as [None] *)
Definition media_tenant (user : AuthUser) (x_tenant_id : list (option string)) : option string + Z :=
  match x_tenant_id with
  | [] => inl (au_tenant user)
  | [Some tenant] =>
      if bool_decide (tenant = "") || (128 <? String.length tenant)%nat ||
         negb (forallb tenant_char (String.list_ascii_of_string tenant)) then inr 400
      else match au_tenant user with
           | Some bound => if decide (bound = tenant) then inl (Some tenant) else inr 403
           | None => if decide (au_role user = Admin) then inl (Some tenant) else inr 403
           end
  | _ => inr 400
  end.

Definition presign (user : option AuthUser) (filename : option string) : Handler (MediaServer S) :=
  user ← needs_user user;
  signed ← or_500 (presign_upload (default "upload" filename) (au_tenant user));
  mret (match signed with
        | Some (id, key, url) => json_response 200 (json_object
            [("id", VString id); ("key", VString key); ("uploadUrl", VString url); ("method", VString "PUT")])
        | None => text_response 501 "storage backend does not support presigned uploads; use POST /media"
        end).

Record CommitReq : Type := mkCommit {
  cm_id : string; cm_key : string; cm_filename : option string; cm_content_type : option string; cm_checksum : option string
}.
Definition commit (user : option AuthUser) (req : CommitReq) : Handler (MediaServer S) :=
  user ← needs_user user;
  let ct := default "application/octet-stream" (cm_content_type req) in
  check (if content_type_allowed ct then None else Some (text_response 415 "content-type not allowed")) ;;
  done ← with_error (text_response 400) (commit_upload (cm_id req) (cm_key req) (default "upload" (cm_filename req)) ct
                       (cm_checksum req) (au_id user) (au_tenant user));
  mret (json_response 200 (json_object
    [("id", VString done.1); ("url", VString ("/media/" +:+ done.1)); ("deduped", VBool done.2)])).

Definition media_metadata (user : option AuthUser) (id : string) (x_tenant_id : list (option string)) : Handler (MediaServer S) :=
  user ← of_option user (empty_response 401);
  tenant ← of_sum (match media_tenant user x_tenant_id with
                   | inl (Some t) => inl t
                   | inl None => inr (empty_response 403)
                   | inr status => inr (empty_response status)
                   end);
  row ← with_error (fun _ => empty_response 500) (select (fun s =>
    match live_row id s with Some r => if decide (md_tenant r = Some tenant) then Some r else None | None => None end));
  mret (match row with
        | Some r => json_response 200 (json_object
            [("id", VString id); ("tenantId", VString tenant);
             ("checksum", match md_checksum r with Some c => VString c | None => VNull end);
             ("size", json_int (md_size r)); ("contentType", VString (md_content_type r))])
        | None => empty_response 404
        end).

(** The first part of a multipart body; its bytes may be unreadable. *)
Record Part : Type := mkPart { pa_filename : option string; pa_content_type : option string; pa_bytes : option string }.
Definition owner (user : option AuthUser) (worker : option WorkerIdentity) (x_tenant_id : list (option string))
    : (string * option string) + Response :=
  match user, worker with
  | Some u, _ => match media_tenant u x_tenant_id with
                 | inl tenant => inl (au_id u, tenant)
                 | inr status => inr (empty_response status)
                 end
  | None, Some w => match x_tenant_id with
                    | [] => inl ("worker:" +:+ w_id w, None)
                    | _ => inr (empty_response 403)
                    end
  | None, None => inr (error_json 401 "authentication required")
  end.
Definition upload (user : option AuthUser) (worker : option WorkerIdentity) (x_tenant_id : list (option string)) (part : option Part)
    : Handler (MediaServer S) :=
  by_ ← of_sum (owner user worker x_tenant_id);
  part ← of_option part (text_response 400 "missing file field");
  let ct := default "application/octet-stream" (pa_content_type part) in
  bytes ← of_option (pa_bytes part) (text_response 400 "could not read file");
  let size := Z.of_nat (String.length bytes) in
  check (if decide (me_max_size me < size) then Some (text_response 413 "file too large") else None) ;;
  check (if content_type_allowed ct then None else Some (text_response 415 "content-type not allowed")) ;;
  check (if content_matches ct bytes then None else Some (text_response 415 "content does not match declared type")) ;;
  stored ← with_error (fun _ => text_response 500 "upload failed")
             (store_upload (default "upload" (pa_filename part)) ct bytes by_.1 by_.2);
  mret (json_response 200 (json_object
    [("id", VString stored.1); ("url", VString ("/media/" +:+ stored.1)); ("contentType", VString ct);
     ("size", json_int size); ("checksum", VString stored.2)])).

Definition gc (user : option AuthUser) (older_than_secs : option string) : Handler (MediaServer S) :=
  user ← needs_user user;
  check (if decide (au_role user = Admin) then None else Some (error_json 403 "admin access required")) ;;
  n ← or_500 (purge_deleted (default (7 * 24 * 3600) (older_than_secs ≫= parse_u64)));
  mret (json_response 200 (json_object [("purged", json_int n)])).

Definition media_not_found : Response := error_json 404 "not found".
(** [None]: a panic *)
Definition serve_media (user : option AuthUser) (if_none_match range : option string) (id : string)
    : Comp (MediaServer S) Response (option Response) :=
  found ← or_500 (media_lookup id);
  row ← of_option found media_not_found;
  let '(key, ct, tenant) := row in
  check (if me_private me then
           match user with
           | None => Some (error_json 401 "authentication required")
           | Some u => if decide (au_tenant u = tenant) then None else Some (error_json 403 "access denied")
           end
         else None) ;;
  st ← asks ms_storage;
  match st_presigned_get key st with
  | Some url => mret (Some (mkResponse 307 [("location", url)] NoBody))
  | None =>
      bytes ← try (store (st_get key));
      mret (match bytes with
            | inl (Some b) => serve_bytes if_none_match range id ct b (me_private me)
            | _ => Some media_not_found
            end)
  end.

Definition delete_media (user : option AuthUser) (id : string) : Handler (MediaServer S) :=
  user ← needs_user user;
  deleted ← or_500 (soft_delete id (au_id user));
  mret (if (deleted : bool) then empty_response 204 else media_not_found).
End Media.

(** * Byte ranges are those of the standard

    [parse_range] against the meaning of a range in RFC 7233, and what [serve_bytes]
    answers with. *)

#[local] Open Scope string_scope.
#[local] Open Scope Z_scope.

(** ** Numbers as text *)

Definition every (p : Ascii.ascii -> bool) (s : string) : bool := forallb p (String.list_ascii_of_string s).
Definition digit (a : Ascii.ascii) : bool := match digit_value a with Some _ => true | None => false end.

Lemma every_cons p a s : every p (String a s) = p a && every p s.
Proof. done. Qed.
Lemma every_app p s t : every p (s +:+ t) = every p s && every p t.
Proof. induction s as [|a s IH]; [done|]. by rewrite str_app_cons, !every_cons, IH, andb_assoc. Qed.
Lemma every_impl (p q : Ascii.ascii -> bool) s : (forall a, p a = true -> q a = true) -> every p s = true -> every q s = true.
Proof.
  intros Hpq. induction s as [|a s IH]; [done|]. rewrite !every_cons. intros [Ha Hs]%andb_true_iff.
  apply andb_true_iff. split; [by apply Hpq|by apply IH].
Qed.

Lemma digit_char n : (n < 10)%N -> digit_value (pretty_N_char n) = Some (Z.of_N n).
Proof.
  intros Hn. assert (n = 0 \/ n = 1 \/ n = 2 \/ n = 3 \/ n = 4 \/ n = 5 \/ n = 6 \/ n = 7 \/ n = 8 \/ n = 9)%N as Hc by lia.
  repeat (destruct Hc as [->|Hc]; [done|]). by subst.
Qed.
Lemma parse_go n s : Z.of_N n <= u64_max -> parse_digits 0 (pretty_N_go n s) = parse_digits (Z.of_N n) s.
Proof.
  revert s. induction (N.lt_wf_0 n) as [n _ IH]. intros s Hn. destruct (decide (0 < n)%N) as [Hp|Hp].
  - rewrite pretty_N_go_step by done. assert (n / 10 < n)%N as Hlt by (apply N.div_lt; lia).
    rewrite IH by lia. cbn [parse_digits]. rewrite digit_char by (apply N.mod_lt; lia).
    assert (Z.of_N (n / 10) * 10 + Z.of_N (n mod 10) = Z.of_N n) as -> by (pose proof (N.div_mod n 10); lia).
    by rewrite decide_True.
  - assert (n = 0%N) as -> by lia. by rewrite pretty_N_go_0.
Qed.
Lemma go_digits n s : every digit s = true -> every digit (pretty_N_go n s) = true.
Proof.
  revert s. induction (N.lt_wf_0 n) as [n _ IH]. intros s Hs. destruct (decide (0 < n)%N) as [Hp|Hp].
  - rewrite pretty_N_go_step by done. apply IH; [by apply N.div_lt|]. rewrite every_cons, Hs, andb_true_r.
    unfold digit. by rewrite digit_char by (apply N.mod_lt; lia).
  - assert (n = 0%N) as -> by lia. by rewrite pretty_N_go_0.
Qed.
Lemma go_some n s : (0 < n)%N \/ s <> "" -> pretty_N_go n s <> "".
Proof.
  revert s. induction (N.lt_wf_0 n) as [n _ IH]. intros s Hs. destruct (decide (0 < n)%N) as [Hp|Hp].
  - rewrite pretty_N_go_step by done. apply IH; [by apply N.div_lt|]. by right.
  - assert (n = 0%N) as -> by lia. rewrite pretty_N_go_0. destruct Hs; [lia|done].
Qed.

(** A number written in decimal is read back. *)
Lemma pretty_spec z : 0 <= z <= u64_max ->
  every digit (pretty z) = true /\ pretty z <> "" /\ parse_u64 (pretty z) = Some z.
Proof.
  intros Hz. assert (pretty z = if decide (z = 0) then "0" else pretty_N_go (Z.to_N z) "") as E.
  { destruct z as [|p|p]; [done| |lia]. unfold pretty, pretty_Z, pretty, pretty_N. by rewrite !decide_False by lia. }
  rewrite E. case_decide as Hz0; [by subst|]. assert (every digit (pretty_N_go (Z.to_N z) "") = true) as Hd by by apply go_digits.
  assert (pretty_N_go (Z.to_N z) "" <> "") as Hne by (apply go_some; left; lia). split_and!; [done|done|].
  pose proof (parse_go (Z.to_N z) "" ltac:(lia)) as Hp. cbn [parse_digits] in Hp. rewrite Z2N.id in Hp by lia.
  unfold parse_u64. destruct (pretty_N_go (Z.to_N z) "") as [|a r] eqn:Eg; [done|].
  destruct (Ascii.eqb_spec a (Ascii.ascii_of_nat 43)) as [->|_]; [done|done].
Qed.

(** ** Text without blanks *)

Definition solid (s : string) : bool := every (fun a => negb (is_blank a)) s.
Lemma trim_solid s : solid s = true -> trim s = s.
Proof.
  unfold trim. intros Hs. assert (trim_start s = s) as ->.
  { destruct s as [|a r]; [done|]. unfold solid in Hs. rewrite every_cons in Hs. cbn.
    apply andb_true_iff in Hs as [Ha _]. by apply negb_true_iff in Ha as ->. }
  induction s as [|a r IH]; [done|]. unfold solid in *. rewrite every_cons in Hs. apply andb_true_iff in Hs as [Ha Hr].
  cbn [trim_end]. rewrite IH by done. apply negb_true_iff in Ha. destruct r; [by rewrite Ha|done].
Qed.
Lemma digit_solid s : every digit s = true -> solid s = true.
Proof.
  apply every_impl. intros a. unfold digit, digit_value, is_blank. case_decide as Ha; [|done]. intros _.
  apply negb_true_iff, orb_false_iff. split; [apply Nat.eqb_neq; lia|]. apply andb_false_iff. right. apply Nat.leb_gt. lia.
Qed.
Lemma digit_no_char c s : digit c = false -> every digit s = true -> has_char c s = false.
Proof.
  intros Hc. induction s as [|a s IH]; [done|]. rewrite every_cons. intros [Ha Hs]%andb_true_iff. cbn.
  rewrite IH, orb_false_r by done. destruct (Ascii.eqb_spec a c) as [->|]; [congruence|done].
Qed.
Lemma substring_whole s : String.substring 0 (String.length s) s = s.
Proof. induction s as [|a s IH]; [done|]. cbn. by rewrite IH. Qed.
Lemma strip_unit x : String.prefix "bytes=" ("bytes=" +:+ x) = true /\
  String.substring 6 (String.length ("bytes=" +:+ x) - 6) ("bytes=" +:+ x) = x.
Proof.
  rewrite !str_app_cons, str_app_nil. split; [by destruct x|]. cbn [String.length String.substring].
  rewrite Nat.sub_succ, Nat.sub_0_r || idtac. replace (_ - _)%nat with (String.length x) by lia. apply substring_whole.
Qed.

(** ** What a range asks for (RFC 7233, 2.1) *)

Inductive ByteRange : Type := Between (first last : Z) | Onwards (first : Z) | Suffix (length : Z).

Definition u64 (z : Z) : Prop := 0 <= z <= u64_max.
Definition written (r : ByteRange) : Prop :=
  match r with Between a b => u64 a /\ u64 b | Onwards a => u64 a | Suffix n => u64 n end.
Definition range_spec (r : ByteRange) : string :=
  match r with
  | Between a b => pretty a +:+ "-" +:+ pretty b
  | Onwards a => pretty a +:+ "-"
  | Suffix n => "-" +:+ pretty n
  end.
Definition range_text (r : ByteRange) : string := "bytes=" +:+ range_spec r.
(** The positions of a representation of [total] bytes that a range denotes *)
Definition requested (r : ByteRange) (total p : Z) : Prop :=
  match r with
  | Between a b => a <= p <= b
  | Onwards a => a <= p
  | Suffix n => total - n <= p
  end.

Lemma solid_app s t : solid (s +:+ t) = solid s && solid t.
Proof. apply every_app. Qed.
Lemma pretty_solid z : u64 z -> solid (pretty z) = true.
Proof. intros Hz. by apply digit_solid, pretty_spec. Qed.
Lemma pretty_no_char c z : digit c = false -> u64 z -> has_char c (pretty z) = false.
Proof. intros Hc Hz. apply digit_no_char; [done|by apply pretty_spec]. Qed.
Lemma range_solid r : written r -> solid (range_spec r) = true.
Proof. destruct r; cbn [range_spec written]; [intros [??]|intros ?..]; by rewrite ?solid_app, ?pretty_solid. Qed.
Lemma range_no_comma r : written r -> has_char (Ascii.ascii_of_nat 44) (range_spec r) = false.
Proof. destruct r; cbn [range_spec written]; [intros [??]|intros ?..]; by rewrite ?has_char_app, ?pretty_no_char. Qed.

(** The two halves of a specification *)
Definition halves (r : ByteRange) : string * string :=
  match r with Between a b => (pretty a, pretty b) | Onwards a => (pretty a, "") | Suffix n => ("", pretty n) end.
Lemma split_range r : written r -> split_once minus (range_spec r) = Some (halves r).
Proof.
  intros Hr. destruct (halves r) as [lo hi] eqn:Eh. apply (proj2 (split_once_some _ _ _ _)).
  destruct r as [a b|a|n]; cbn in Hr, Eh; injection Eh as <- <-; (split; [done|]); [destruct Hr| |done]; by apply pretty_no_char.
Qed.
Lemma halves_solid r : written r -> trim (halves r).1 = (halves r).1 /\ trim (halves r).2 = (halves r).2.
Proof. destruct r; cbn [halves written fst snd]; [intros [??]|intros ?..]; (split; [|]); try done; by apply trim_solid, pretty_solid. Qed.

Lemma pretty_ne z : u64 z -> pretty z <> "".
Proof. intros Hz. by apply pretty_spec. Qed.
Lemma pretty_parse z : u64 z -> parse_u64 (pretty z) = Some z.
Proof. intros Hz. by apply pretty_spec. Qed.

(** What [parse_range] makes of a well-written range *)
Lemma parse_range_text r total : written r ->
  parse_range (range_text r) total =
  if decide (total = 0) then Unsatisfiable else
  match r with
  | Suffix n => if decide (n = 0) then Unsatisfiable else Satisfiable (Z.max 0 (total - n)) (total - 1)
  | Onwards a => if decide (a <= total - 1) then Satisfiable a (total - 1) else Unsatisfiable
  | Between a b => if decide (b < a) then Ignore else if decide (total - 1 < a) then Unsatisfiable
                   else Satisfiable a (Z.min b (total - 1))
  end.
Proof.
  intros Hr. unfold parse_range, range_text. rewrite (trim_solid ("bytes=" +:+ _)) by (rewrite solid_app; by apply range_solid).
  destruct (strip_unit (range_spec r)) as [-> ->]. cbn [negb].
  rewrite (trim_solid (range_spec r)), range_no_comma, split_range by (done || by apply range_solid).
  assert (range_spec r <> "") as Hne.
  { intros E. pose proof (split_range r Hr) as H. by rewrite E in H. }
  rewrite bool_decide_eq_false_2 by done. cbn [orb]. destruct (halves r) as [lo hi] eqn:Eh.
  pose proof (halves_solid r Hr) as [Hlo Hhi]. rewrite Eh in Hlo, Hhi. cbn [fst snd] in Hlo, Hhi. rewrite Hlo, Hhi.
  case_decide; [done|]. destruct r as [a b|a|n]; cbn in Eh, Hr; injection Eh as <- <-.
  - destruct Hr as [Ha Hb]. pose proof (pretty_ne a Ha). pose proof (pretty_ne b Hb).
    rewrite !decide_False by naive_solver. by rewrite !pretty_parse.
  - pose proof (pretty_ne a Hr). rewrite !decide_False, decide_True by naive_solver. by rewrite pretty_parse.
  - pose proof (pretty_ne n Hr). rewrite decide_False, decide_True by naive_solver. by rewrite pretty_parse.
Qed.

(** Whatever the header, a slice that is taken is inside the bytes. *)
Lemma parse_u64_pos s z : parse_u64 s = Some z -> 0 <= z.
Proof.
  assert (forall acc s z, 0 <= acc -> parse_digits acc s = Some z -> 0 <= z) as Hd.
  { clear. intros acc s. revert acc. induction s as [|a r IH]; cbn; intros acc z Hacc; [by intros [= <-]|].
    unfold digit_value. case_decide; [|done]. case_decide; [|done]. apply IH. lia. }
  unfold parse_u64. destruct s as [|a r]; [done|]. repeat case_match; try done; by apply Hd.
Qed.
Lemma range_in_bounds raw total f l : 0 <= total -> parse_range raw total = Satisfiable f l -> 0 <= f <= l /\ l < total.
Proof.
  intros Ht. unfold parse_range. repeat (case_match || case_decide); try done; intros [= <- <-];
    repeat match goal with H : parse_u64 _ = Some _ |- _ => apply parse_u64_pos in H end; lia.
Qed.

(** ** What is served *)

Definition visible (s : string) : Prop := header_ok s = true.
Lemma visible_app s t : visible s -> visible t -> visible (s +:+ t).
Proof. unfold visible, header_ok. intros Hs Ht. pose proof (every_app) as E. unfold every in E. by rewrite E, Hs, Ht. Qed.
Lemma digit_visible s : every digit s = true -> visible s.
Proof.
  apply every_impl. intros a. unfold digit, digit_value. case_decide as Ha; [|done]. intros _.
  apply orb_true_iff. left. apply andb_true_iff. split; [apply Nat.leb_le|apply Nat.ltb_lt]; lia.
Qed.
#[export] Hint Resolve visible_app : core.
Lemma pretty_visible z : u64 z -> visible (pretty z).
Proof. intros Hz. by apply digit_visible, pretty_spec. Qed.
Lemma etag_visible id : visible id -> visible (etag_of id).
Proof. intros Hid. by apply visible_app; [|apply visible_app]. Qed.

Lemma slice_get f l bytes p : 0 <= f <= l -> String.get p (slice f l bytes) =
  if decide (Z.of_nat p <= l - f) then String.get (Z.to_nat f + p) bytes else None.
Proof.
  intros Hf. unfold slice. case_decide.
  - rewrite Nat.add_comm. apply String.substring_correct1. lia.
  - apply String.substring_correct2. lia.
Qed.

(** How a response answers a request for a range of [bytes] *)
Definition answers (bytes : string) (r : ByteRange) (resp : Response) : Prop :=
  let total := Z.of_nat (String.length bytes) in
  match rs_status resp with
  | 206 => exists f l body, resp = mkResponse 206 (rs_headers resp) (TextBody body) /\
      ("content-range", "bytes " +:+ pretty f +:+ "-" +:+ pretty l +:+ "/" +:+ pretty total) ∈ rs_headers resp /\
      (forall p, String.get p body = if decide (Z.of_nat p <= l - f) then String.get (Z.to_nat f + p) bytes else None) /\
      0 <= f <= l /\ l < total /\ forall p, 0 <= p < total -> f <= p <= l <-> requested r total p
  | 416 => rs_body resp = NoBody /\ ("content-range", "bytes */" +:+ pretty total) ∈ rs_headers resp /\
      forall p, 0 <= p < total -> ~ requested r total p
  | 200 => rs_body resp = TextBody bytes /\ exists a b, r = Between a b /\ b < a
  | _ => False
  end.

Lemma range_header_visible f l total : u64 f -> u64 l -> u64 total ->
  visible ("bytes " +:+ pretty f +:+ "-" +:+ pretty l +:+ "/" +:+ pretty total).
Proof. intros. repeat apply visible_app; try done; by apply pretty_visible. Qed.
Lemma built_visible status headers body : Forall (fun h => visible h.2) headers ->
  built status headers body = Some (mkResponse status headers body).
Proof.
  intros Hh. unfold built. assert (forallb (fun h => header_ok h.2) headers = true) as ->; [|done].
  apply forallb_forall. intros h Hin. rewrite Forall_forall in Hh. by apply Hh, list_elem_of_In.
Qed.

(** C26: A request for a range of a stored object is answered as the standard asks, for every
    object and every way to write a range whose numbers fit 64 bits: either with exactly the
    bytes at the positions the range denotes (clipped to the object, never outside it, and
    the Content-Range says which), or with 416 when it denotes none, or with the whole object
    when its end lies before its start; the response never fails to build. *)
Theorem ranges_as_requested (r : ByteRange) (id content_type bytes : string) (private : bool) :
  written r -> visible content_type -> visible id -> Z.of_nat (String.length bytes) <= u64_max ->
  exists resp, serve_bytes None (Some (range_text r)) id content_type bytes private = Some resp /\ answers bytes r resp.
Proof.
  intros Hr Hct Hid Hlen. pose proof (etag_visible id Hid) as Het. unfold serve_bytes, answers. cbn [bool_decide].
  set (total := Z.of_nat (String.length bytes)) in *. assert (visible (if private then "private, max-age=3600" else "public, max-age=86400, immutable")) as Hc by by destruct private.
  pose proof (range_in_bounds (range_text r) total) as Hb. rewrite parse_range_text in * by done.
  assert (u64 total) as Ht by (split; lia). destruct (if decide (total = 0) then _ else _) as [f l| |] eqn:E.
  - destruct (Hb f l ltac:(lia) eq_refl) as [Hf Hl]. eexists. split; [apply built_visible|].
    { repeat constructor; try done. apply range_header_visible; split; unfold u64 in *; lia. }
    cbn [rs_status]. eexists f, l, _. split; [done|]. split; [cbn [rs_headers]; set_solver|]. split; [intros p; by apply slice_get|].
    split_and!; [lia..|]. intros p Hp. case_decide; [done|]. destruct r; cbn; repeat case_decide; simplify_eq; lia.
  - eexists. split; [apply built_visible; repeat constructor; try done; apply visible_app; [done|by apply pretty_visible]|].
    cbn. split; [done|]. split; [set_solver|]. intros p Hp.
    case_decide; [lia|]. destruct r; cbn in *; repeat case_decide; simplify_eq; lia.
  - eexists. split; [apply built_visible; by repeat constructor|]. cbn. split; [done|].
    case_decide; [done|]. destruct r as [a b|a|n]; repeat case_decide; simplify_eq. by exists a, b.
Qed.
Lemma ranges_as_requested_witness :
  range_text (Suffix 2) = "bytes=-2" /\
  exists resp, serve_bytes None (Some (range_text (Suffix 2))) "a1" "text/plain" "hello" false = Some resp /\ answers "hello" (Suffix 2) resp.
Proof.
  split; [vm_compute; done|].
  apply (ranges_as_requested (Suffix 2) "a1" "text/plain" "hello" false); [split; vm_compute; done|vm_compute; done..].
Defined.
