(* ===== verification/MediaSpec.v ===== *)
(** * Stored media stays what it was

    Histories of the media store over any lawful storage, uploads interleaved at every point
    where they wait: a live row's object is there with its size and its checksum.  Where
    uploads do not overlap, a tenant has one live row per content; where they do, the last
    section shows two. *)

From stdpp Require Import pretty.
From S2P Require Import Prelude Json Query Workers StateM Auth SchemaTypes Media.

#[local] Open Scope string_scope.
#[local] Open Scope Z_scope.

(** ** Keys *)

Lemma split_on_pieces c d s x : x ∈ split_on c s -> has_char c x = false /\ (has_char d s = false -> has_char d x = false).
Proof.
  revert x. induction s as [|a s IH]; cbn [split_on has_char]; intros x; [by intros ->%list_elem_of_singleton|].
  destruct (Ascii.eqb a c) eqn:Ha.
  - intros [->|Hx]%elem_of_cons; [done|]. destruct (IH x Hx) as [H1 H2]. split; [done|]. intros [_ Hs]%orb_false_iff. auto.
  - destruct (split_on c s) as [|p ps].
    + intros ->%list_elem_of_singleton. cbn. rewrite Ha. split; [done|]. intros [Hd _]%orb_false_iff. by rewrite Hd.
    + intros [->|Hx]%elem_of_cons.
      * destruct (IH p ltac:(set_solver)) as [H1 H2]. cbn. rewrite Ha, H1. split; [done|]. intros [Hd Hs]%orb_false_iff. by rewrite Hd, H2.
      * destruct (IH x ltac:(set_solver)) as [H1 H2]. split; [done|]. intros [_ Hs]%orb_false_iff. auto.
Qed.

(** What a generated id is like: a UUID has no dot and no slash. *)
Definition plain (id : string) : Prop := id <> "" /\ has_char slash id = false /\ has_char dot id = false.

Lemma extension_plain path e : extension path = Some e -> has_char slash e = false /\ has_char dot e = false.
Proof.
  unfold extension, file_name. intros (name & Hn & He)%bind_Some.
  assert (has_char slash name = false) as Hs.
  { destruct (last _) as [n|] eqn:El; [|done]. apply last_Some in El as [l El].
    assert (n ∈ filter (fun c => c <> "" /\ c <> ".") (split_on slash path)) as [_ Hin]%list_elem_of_filter by (rewrite El; set_solver).
    apply (split_on_pieces _ slash) in Hin as [Hin _]. repeat case_match; by simplify_eq. }
  destruct (_ || _); [done|]. injection He as <-.
  destruct (last (split_on dot name)) as [p|] eqn:El; [|done]. apply last_Some in El as [l El].
  assert (p ∈ split_on dot name) as Hin by (rewrite El; set_solver).
  apply (split_on_pieces _ slash) in Hin as [H1 H2]. auto.
Qed.

Definition suffix_of (filename : string) : string := match extension filename with Some e => "." +:+ e | None => "" end.
Lemma has_char_key_tail id filename : plain id -> has_char slash (id +:+ suffix_of filename) = false.
Proof.
  intros (_ & Hs & _). rewrite has_char_app, Hs. unfold suffix_of. destruct (extension filename) as [e|] eqn:E; [|done].
  apply extension_plain in E as [E _]. rewrite has_char_app. by rewrite E.
Qed.
Lemma key_last month id filename tenant : plain id ->
  last (components (storage_key month id filename tenant)) = Some (id +:+ suffix_of filename).
Proof.
  intros Hid. pose proof (has_char_key_tail id filename Hid) as Ht. unfold components, storage_key. fold (suffix_of filename).
  assert (forall a b c : string, a +:+ "/" +:+ b +:+ "/" +:+ c = (a +:+ "/" +:+ b) +:+ String slash c) as -> by (intros a b c; by rewrite !str_app_assoc).
  rewrite split_on_app, (split_on_plain _ (id +:+ _)) by done. rewrite filter_app, filter_cons, decide_True.
  - by rewrite filter_nil, last_snoc.
  - destruct Hid as (Hne & _ & Hd). destruct id as [|a id]; [done|]. rewrite str_app_cons. split; [done|].
    intros [= -> Hr]. cbn in Hd. done.
Qed.
Lemma id_first id filename : plain id -> head (split_on dot (id +:+ suffix_of filename)) = Some id.
Proof.
  intros (_ & _ & Hd). unfold suffix_of. destruct (extension filename) as [e|].
  - change ("." +:+ e) with (String dot e). by rewrite split_on_app, split_on_plain.
  - by rewrite str_app_empty_r, split_on_plain.
Qed.
(** Keys made from different ids denote different objects. *)
Lemma keys_differ m id f t m' id' f' t' : plain id -> plain id' -> id <> id' ->
  components (storage_key m id f t) <> components (storage_key m' id' f' t').
Proof.
  intros Hp Hp' Hne E. apply (f_equal last) in E. rewrite !key_last in E by done. injection E as E.
  apply (f_equal (fun s => head (split_on dot s))) in E. rewrite !id_first in E by done. naive_solver.
Qed.

(** ** Histories *)

Section History.
Context {S : Type} {sb : StorageBackend S} (object : S -> string -> option string) {law : Lawful S object}.
Context (me : MediaEnv) {ho : HashOrder}.

Abbreviation Server := (MediaServer S).
Implicit Types (s : Server) (r : MediaRow).

Definition uuids : Prop := Inj (=) (=) (me_uuid me) /\ forall n, plain (me_uuid me n).
(** An id that was given out, with its key *)
Definition drawn s (id key : string) : Prop :=
  exists n f t, (n < ms_tick s)%nat /\ id = me_uuid me n /\ key = storage_key (me_month me n) id f t.
Definition with_storage (st : S) s : Server := mkMedia (ms_rows s) st (ms_sent s) (ms_tick s).

Inductive media_step : Server -> Server -> Prop :=
  | step_upload f ct b u t s : media_step s (store_upload me f ct b u t s).2
  | step_presign f t s : media_step s (presign_upload me f t s).2
  (* A client writes to no object of a row, *)
  | step_put st s : (forall id r, ms_rows s !! id = Some r -> object st (md_key r) = object (ms_storage s) (md_key r)) ->
      media_step s (with_storage st s)
  (* and commits an id with the key given out with it, telling truly what it wrote, if it tells. *)
  | step_commit id key f ct sum u t s b : drawn s id key -> object (ms_storage s) key = Some b -> (forall c, sum = Some c -> c = me_sha256 me b) ->
      media_step s (commit_upload me id key f ct sum u t s).2
  | step_read id s : media_step s (read me id s).2
  | step_delete id actor s : media_step s (soft_delete me id actor s).2
  | step_purge secs s : media_step s (purge_deleted me secs s).2.

Definition sound st r : Prop :=
  exists b, object st (md_key r) = Some b /\ md_size r = Z.of_nat (String.length b) /\
    (md_checksum r = None \/ md_checksum r = Some (me_sha256 me b)).
Record kept s : Prop := {
  kp_drawn id r : ms_rows s !! id = Some r -> drawn s id (md_key r);
  kp_sound id r : ms_rows s !! id = Some r -> md_deleted r = None -> sound (ms_storage s) r
}.
Record intact s : Prop := {
  it_kept : kept s;
  it_once id id' r r' c : ms_rows s !! id = Some r -> ms_rows s !! id' = Some r' -> md_deleted r = None ->
    md_deleted r' = None -> md_checksum r = Some c -> md_checksum r' = Some c -> md_tenant r = md_tenant r' -> id = id'
}.

Lemma live_row_spec s id r : live_row id s = Some r <-> ms_rows s !! id = Some r /\ md_deleted r = None.
Proof. unfold live_row. repeat (case_match || case_decide); naive_solver. Qed.

(** *** Steps that add no row *)

(** No row's object is the one of this key. *)
Definition clear s (key : string) : Prop := forall id r, ms_rows s !! id = Some r -> components key <> components (md_key r).

Context (Hu : uuids).
Section Shrink.
(** Keys of others, whose objects are left alone where they are no row's *)
Context (K : string -> Prop).

Definition shrink s s' : Prop :=
  (ms_tick s <= ms_tick s')%nat /\
  (forall id r', ms_rows s' !! id = Some r' -> exists r, ms_rows s !! id = Some r /\ md_key r = md_key r' /\
    (md_deleted r' = None -> r' = r /\ object (ms_storage s') (md_key r) = object (ms_storage s) (md_key r))) /\
  forall k, K k -> clear s k -> object (ms_storage s') k = object (ms_storage s) k.
#[local] Instance shrink_refl : Reflexive shrink.
Proof. intros s. split; [done|]. split; [|done]. intros id r Hr. by exists r. Qed.
Lemma shrink_clear s s' k : shrink s s' -> clear s k -> clear s' k.
Proof. intros (_ & H & _) Hc id r Hr. destruct (H id r Hr) as (r0 & Hr0 & <- & _). by eapply Hc. Qed.
#[local] Instance shrink_trans : Transitive shrink.
Proof.
  intros s1 s2 s3 H12 (Ht2 & H2 & K2). pose proof H12 as (Ht1 & H1 & K1). split; [lia|]. split.
  - intros id r3 Hr3. destruct (H2 id r3 Hr3) as (r2 & Hr2 & Hk2 & Hl2).
    destruct (H1 id r2 Hr2) as (r1 & Hr1 & Hk1 & Hl1). exists r1. split_and!; [done|congruence|]. intros Hd.
    destruct (Hl2 Hd) as [-> Ho2]. destruct (Hl1 Hd) as [-> Ho1]. split; [done|congruence].
  - intros k Hk Hc. rewrite K2, K1; [done..|]. by eapply shrink_clear.
Qed.

Lemma drawn_mono s s' id key : (ms_tick s <= ms_tick s')%nat -> drawn s id key -> drawn s' id key.
Proof. intros Ht (n & f & t & Hn & H). exists n, f, t. split; [lia|done]. Qed.
Lemma shrink_kept s s' : shrink s s' -> kept s -> kept s'.
Proof.
  intros (Ht & Hs & _) [Hd Hso]. split.
  - intros id r Hr. destruct (Hs id r Hr) as (r0 & Hr0 & <- & _). by eapply drawn_mono, Hd.
  - intros id r Hr Hl. destruct (Hs id r Hr) as (r0 & Hr0 & Hk & Hl0). destruct (Hl0 Hl) as [-> Ho].
    destruct (Hso id r0 Hr0 Hl) as (b & Hb & Hrest). exists b. split; [congruence|done].
Qed.
Lemma shrink_intact s s' : shrink s s' -> intact s -> intact s'.
Proof.
  intros Hsh [Hk Hon]. split; [by eapply shrink_kept|]. destruct Hsh as (_ & Hs & _).
  intros id id' r r' c Hr Hr' Hl Hl'. destruct (Hs id r Hr) as (r0 & Hr0 & _ & H0). destruct (Hs id' r' Hr') as (r0' & Hr0' & _ & H0').
  destruct (H0 Hl) as [-> _]. destruct (H0' Hl') as [-> _]. by eapply Hon.
Qed.

Lemma shrink_same s s' : (ms_tick s <= ms_tick s')%nat -> ms_rows s' = ms_rows s ->
  (forall k, (exists id r, ms_rows s !! id = Some r /\ md_key r = k) \/ K k -> object (ms_storage s') k = object (ms_storage s) k) -> shrink s s'.
Proof.
  intros Ht Hr Ho. split; [done|]. split; [|intros k Hk _; apply Ho; by right].
  intros id r. rewrite Hr. intros Hl. exists r. split_and!; [done..|]. intros _. split; [done|apply Ho; left; by exists id, r].
Qed.

Lemma keeping_select {A} (f : Server -> A) : keeping shrink (select me f).
Proof. intros s. unfold select, statement. destruct (me_fault me _); apply shrink_same; cbn; (done || lia). Qed.
Lemma keeping_draw : keeping shrink (draw : Db nat).
Proof. intros s. apply shrink_same; cbn; (done || lia). Qed.
Lemma keeping_emit t id actor extra : keeping shrink (emit me t id actor extra).
Proof. intros s. apply shrink_same; cbn; (done || lia). Qed.
Lemma keeping_store {A} (m : Comp S string A) : (forall st k, object (m st).2 k = object st k) -> keeping shrink (store m).
Proof.
  intros Hm s. unfold store, on. pose proof (Hm (ms_storage s)) as Ho. destruct (m (ms_storage s)) as [x st]. by apply shrink_same; cbn.
Qed.
#[local] Hint Resolve keeping_select keeping_draw keeping_emit : keeping.

Lemma presign_shrinks f t : keeping shrink (presign_upload me f t).
Proof. apply (keeping_bind shrink); [auto with keeping|]. intros n. apply (keeping_bind shrink); [apply (keeping_asks shrink)|intros st; apply (keeping_ret shrink)]. Qed.
Lemma read_shrinks id : keeping shrink (read me id).
Proof.
  apply (keeping_bind shrink); [apply keeping_select|]. intros [[[key ct] t]|]; [|apply (keeping_ret shrink)].
  apply (keeping_bind shrink); [apply keeping_store; intros; apply get_keeps|intros b; apply (keeping_ret shrink)].
Qed.

(** *** Deleting *)

Definition apart s (key : string) : Prop :=
  forall id r, ms_rows s !! id = Some r -> md_deleted r = None -> components key <> components (md_key r).
Lemma apart_shrink s s' key : shrink s s' -> apart s key -> apart s' key.
Proof. intros (_ & Hs & _) Ha id r Hr Hl. destruct (Hs id r Hr) as (r0 & Hr0 & Hk & H0). destruct (H0 Hl) as [-> _]. by eapply Ha. Qed.
(** A key of a row, or far from the keys of others *)
Definition mine s (key : string) : Prop :=
  (exists id r, ms_rows s !! id = Some r /\ md_key r = key) \/ forall k, K k -> components key <> components k.
Lemma erase_shrinks s key : apart s key -> mine s key -> shrink s (try (E := string) (store (st_delete key)) s).2.
Proof.
  intros Ha Hm. unfold try, store, on. pose proof (fun k' => delete_other key k' (ms_storage s)) as Ho.
  destruct (st_delete key (ms_storage s)) as [x st]. split; [done|]. cbn in *. split.
  - intros id r Hr. exists r. split_and!; [done..|]. intros Hl. split; [done|]. by eapply Ho, Ha.
  - intros k Hk Hc. apply Ho. destruct Hm as [(id & r & Hr & <-)|Hm]; [|by apply Hm]. intros E. by eapply Hc.
Qed.
Lemma erase_all_shrinks keys s : Forall (fun k => apart s k /\ exists id r, ms_rows s !! id = Some r /\ md_key r = k) keys ->
  shrink s (delete_objects keys s).2.
Proof.
  revert s. induction keys as [|k keys IH]; intros s Ha; [done|]. apply Forall_cons in Ha as [[Hk Hm] Hks]. cbn [delete_objects].
  unfold mbind at 1, Comp_bind. pose proof (erase_shrinks s k Hk (or_introl Hm)) as Hs.
  assert (ms_rows (try (E := string) (store (st_delete k)) s).2 = ms_rows s) as Hrows
    by (unfold try, store, on; by destruct (st_delete k (ms_storage s))).
  unfold try in *. destruct (store (st_delete k) s) as [x s1]. cbn in *. etrans; [done|]. apply IH.
  eapply Forall_impl; [done|]. intros k' [Ha' Hm']. rewrite Hrows. split; [by eapply apart_shrink|done].
Qed.

Lemma keys_apart s id id' r r' : kept s -> ms_rows s !! id = Some r -> ms_rows s !! id' = Some r' -> id <> id' ->
  components (md_key r) <> components (md_key r').
Proof.
  intros Hi Hr Hr' Hne. destruct (kp_drawn s Hi id r Hr) as (n & f & t & _ & Hn & ->).
  destruct (kp_drawn s Hi id' r' Hr') as (n' & f' & t' & _ & Hn' & ->). apply keys_differ; [subst; apply Hu..|done].
Qed.

Lemma delete_shrinks id actor s : kept s -> shrink s (soft_delete me id actor s).2.
Proof.
  intros Hi. unfold soft_delete. unfold mbind at 1, Comp_bind, statement. destruct (me_fault me (ms_tick s)) as [e|] eqn:Ef.
  { cbn. by apply shrink_same; cbn; [lia|..]. }
  destruct (live_row id (tick s)) as [r|] eqn:El; [|by apply shrink_same; cbn; [lia|..]].
  apply live_row_spec in El as [Hr Hl]. cbn in Hr. cbv beta iota.
  set (s1 := with_rows (<[id := mark_deleted (me_now me (ms_tick s)) r]> (ms_rows (tick s))) (tick s)).
  assert (shrink s s1) as H1.
  { split; [cbn; lia|]. split; [|done]. intros id' r'. cbn. rewrite lookup_insert_Some. intros [[<- <-]|[Hne Hr']].
    - exists r. done.
    - by exists r'. }
  assert (apart s1 (md_key r)) as Ha.
  { intros id' r'. cbn. rewrite lookup_insert_Some. intros [[<- <-]|[Hne Hr']]; [done|]. intros _. by eapply keys_apart. }
  assert (mine s1 (md_key r)) as Hm by (left; exists id, (mark_deleted (me_now me (ms_tick s)) r); cbn; by rewrite lookup_insert_eq).
  etrans; [exact H1|]. pose proof (erase_shrinks s1 _ Ha Hm) as H2. unfold mbind, Comp_bind, try in *.
  destruct (store (st_delete (md_key r)) s1) as [x s2]. cbn in H2 |- *. etrans; [exact H2|].
  exact (keeping_emit MDeleted id actor ∅ s2).
Qed.
Lemma purge_shrinks secs s : kept s -> shrink s (purge_deleted me secs s).2.
Proof.
  intros Hi. unfold purge_deleted. unfold mbind at 1, Comp_bind, statement at 1. destruct (me_fault me (ms_tick s)) as [e|] eqn:Ef.
  { cbn. by apply shrink_same; cbn; [lia|..]. }
  set (keys := _ <$> _).
  assert (Forall (fun k => apart (tick s) k /\ exists id r, ms_rows (tick s) !! id = Some r /\ md_key r = k) keys) as Ha.
  { apply Forall_fmap, Forall_forall. intros r ([id r0] & -> & [Hp Hin]%list_elem_of_filter)%list_elem_of_fmap.
    apply elem_of_hpairs in Hin. cbn in *. split; [|by exists id, r0]. intros id' r' Hr' Hl. eapply keys_apart; [done..|]. intros <-.
    cbn in Hr'. assert (r' = r0) as -> by congruence. unfold past in Hp. by rewrite Hl in Hp. }
  assert (shrink s (tick s)) as H0 by (apply shrink_same; cbn; [lia|done..]).
  pose proof (erase_all_shrinks keys (tick s) Ha) as H1. unfold mbind at 1, Comp_bind.
  destruct (delete_objects keys (tick s)) as [[u|e] s1]; cbn in H1; [|by etrans]. etrans; [exact H0|]. etrans; [exact H1|].
  unfold statement. destruct (me_fault me (ms_tick s1)); [by apply shrink_same; cbn; [lia|..]|].
  split; [cbn; lia|]. split; [|done]. intros id r'. cbn. intros [Hr' _]%map_lookup_filter_Some. by exists r'.
Qed.
End Shrink.
#[local] Existing Instances shrink_refl shrink_trans.
#[local] Hint Resolve keeping_select keeping_draw keeping_emit : keeping.
#[local] Abbreviation shrinks := (shrink (fun _ => False)).

(** *** Adding a row *)

(** Nothing alive has this content. *)
Definition unheld (tenant checksum : option string) s : Prop :=
  forall id r c, ms_rows s !! id = Some r -> md_deleted r = None -> checksum = Some c -> md_checksum r = Some c -> md_tenant r <> tenant.
Lemma same_content_none c t s : same_content c t s = None -> unheld t (Some c) s.
Proof.
  unfold same_content. intros Hh id r c' Hr Hl [= <-] Hc Ht. destruct (filter _ (hpairs _)) as [|[i r1] l] eqn:E; [|done].
  assert ((id, r) ∈ filter (fun p => md_checksum p.2 = Some c /\ md_tenant p.2 = t /\ md_deleted p.2 = None) (hpairs (ms_rows s))) as Hin.
  { apply list_elem_of_filter. split; [done|]. by apply elem_of_hpairs. }
  rewrite E in Hin. by apply not_elem_of_nil in Hin.
Qed.
Lemma same_content_some c t s id : same_content c t s = Some id ->
  exists r, live_row id s = Some r /\ md_checksum r = Some c /\ md_tenant r = t.
Proof.
  unfold same_content. intros (p & Hp & Hin)%head_Some_elem_of%list_elem_of_fmap. 
  apply list_elem_of_filter in Hin as [(Hc & Ht & Hl) Hin]. destruct p as [i r]. apply elem_of_hpairs in Hin. cbn in *. subst.
  exists r. split; [by apply live_row_spec|done].
Qed.

Lemma insert_row_kept s id r : kept s -> drawn s id (md_key r) -> sound (ms_storage s) r -> kept (insert_row me id r s).2.
Proof.
  intros Hi Hd Hso. assert (shrinks s (tick s)) as Ht by (apply shrink_same; cbn; [lia|done..]).
  unfold insert_row. destruct (me_fault me _); [by eapply (shrink_kept _ s)|].
  destruct (ms_rows s !! id) as [r0|] eqn:Eid; [by eapply (shrink_kept _ s)|]. destruct Hi as [Hd0 Hs0]. split; cbn.
  - intros id' r'. rewrite lookup_insert_Some. intros [[<- <-]|[_ Hr']]; (eapply (drawn_mono s); [cbn; lia|eauto]).
  - intros id' r'. rewrite lookup_insert_Some. intros [[<- <-]|[_ Hr']]; eauto.
Qed.
Lemma insert_intact s id r : intact s -> drawn s id (md_key r) -> unheld (md_tenant r) (md_checksum r) s ->
  sound (ms_storage s) r -> intact (insert_row me id r s).2.
Proof.
  intros Hi Hd Hun Hso. split; [apply insert_row_kept; [apply Hi|done..]|].
  assert (shrinks s (tick s)) as Ht by (apply shrink_same; cbn; [lia|done..]).
  unfold insert_row. destruct (me_fault me _); [eapply (it_once (tick s)), (shrink_intact _ s); done|].
  destruct (ms_rows s !! id) as [r0|] eqn:Eid; [eapply (it_once (tick s)), (shrink_intact _ s); done|].
  intros i i' r1 r2 c. cbn. rewrite !lookup_insert_Some.
  intros [[<- <-]|[_ Hr1]] [[<- <-]|[_ Hr2]] Hl1 Hl2 Hc1 Hc2 Ht12; [done|..|by eapply (it_once s)].
  - by destruct (Hun i' r2 c Hr2 Hl2 Hc1 Hc2).
  - by destruct (Hun i r1 c Hr1 Hl1 Hc2 Hc1).
Qed.

(** What an upload returns is alive, is the tenant's and has the content. *)
Definition held (bytes : string) (t : option string) (result : (string * string) + string) s : Prop :=
  match result with
  | inl (id, sum) => sum = me_sha256 me bytes /\
      exists r, live_row id s = Some r /\ md_tenant r = t /\ md_checksum r = Some sum
  | inr _ => True
  end.

Lemma insert_outcome id r s :
  (exists e, insert_row me id r s = (inr e, tick s)) \/ insert_row me id r s = (inl tt, with_rows (<[id := r]> (ms_rows s)) (tick s)).
Proof. unfold insert_row. destruct (me_fault me _); [by left; eexists|]. destruct (ms_rows s !! id); [by left; eexists|by right]. Qed.
Lemma tick_shrinks K s : shrink K s (tick s).
Proof. apply shrink_same; cbn; [lia|done..]. Qed.

(** A key just drawn denotes no row's object. *)
Lemma fresh_key s id' r f t : kept s -> ms_rows s !! id' = Some r ->
  components (storage_key (me_month me (ms_tick s)) (me_uuid me (ms_tick s)) f t) <> components (md_key r).
Proof.
  intros Hi Hr. destruct (kp_drawn s Hi id' r Hr) as (n' & f' & t' & Hn' & -> & ->).
  destruct Hu as [Hinj Hp]. apply keys_differ; [done..|]. intros E%(inj _). lia.
Qed.

(** The end of an upload: the row for an object that was just written *)
Lemma upload_end s id row b u extra : intact s -> drawn s id (md_key row) -> unheld (md_tenant row) (md_checksum row) s ->
  object (ms_storage s) (md_key row) = Some b -> md_size row = Z.of_nat (String.length b) ->
  md_checksum row = Some (me_sha256 me b) -> md_deleted row = None -> apart s (md_key row) ->
  let '(res, s') := (inserted ← try (insert_row me id row);
    match inserted with
    | inr e => _ ← try (store (st_delete (md_key row))) : Db (unit + string); throw e
    | inl _ => emit me MCreated id u extra ;; mret (id, me_sha256 me b)
    end) s in intact s' /\ held b (md_tenant row) res s'.
Proof.
  intros Hi Hd Hun Ho Hsz Hc Hl Ha. assert (intact (insert_row me id row s).2) as Hi'.
  { apply insert_intact; [done..|]. exists b. split; [done|]. split; [done|by right]. }
  destruct (insert_outcome id row s) as [[e E]|E]; unfold mbind at 1, Comp_bind, try at 1; rewrite E in *; cbn in Hi'.
  - pose proof (erase_shrinks (fun _ => False) (tick s) (md_key row) (apart_shrink _ _ _ _ (tick_shrinks (fun _ => False) s) Ha)
      ltac:(right; done)) as Her. unfold mbind, Comp_bind, try in *.
    destruct (store (st_delete (md_key row)) (tick s)) as [x s2]. split; [|done]. eapply (shrink_intact (fun _ => False)); [exact Her|exact Hi'].
  - split.
    + eapply (shrink_intact _ _ _ (keeping_emit (fun _ => False) MCreated id u extra _)), Hi'.
    + split; [done|]. exists row. cbn. unfold live_row. cbn. by rewrite lookup_insert_eq, decide_True.
Qed.

Lemma upload_holds f ct b u t s : intact s ->
  let '(res, s') := store_upload me f ct b u t s in intact s' /\ held b t res s'.
Proof.
  intros Hi. pose proof (tick_shrinks (fun _ => False) s) as Ht. unfold store_upload.
  unfold mbind at 1, Comp_bind, select, statement. destruct (me_fault me (ms_tick s)); [split; [by eapply (shrink_intact _ s)|done]|].
  destruct (same_content (me_sha256 me b) t (tick s)) as [id|] eqn:Esame.
  { split; [by eapply (shrink_intact _ s)|]. split; [done|]. by destruct (same_content_some _ _ _ _ Esame) as (r & Hr & Hc & Hrt); exists r. }
  assert (intact (tick s)) as Hi1 by by eapply (shrink_intact _ s). unfold mbind at 1, Comp_bind, draw.
  set (n := ms_tick (tick s)). set (id := me_uuid me n). set (key := storage_key (me_month me n) id f t).
  assert (intact (tick (tick s))) as Hi2 by (eapply (shrink_intact (fun _ => False) (tick s)), Hi1; apply tick_shrinks).
  unfold mbind at 1, Comp_bind, store at 1, on at 1. pose proof (fun k' => put_other key b k' (ms_storage (tick (tick s)))) as Hput.
  pose proof (put_stores key b (ms_storage (tick (tick s)))) as Hst. destruct (st_put key b (ms_storage (tick (tick s)))) as [res st] eqn:Ep.
  cbn [fst snd] in *. assert (intact (with_storage st (tick (tick s)))) as Hi3.
  { apply (shrink_intact (fun _ => False) (tick (tick s))); [|done]. apply shrink_same; [done..|].
    intros k [(id' & r & Hr & <-)|[]]. by eapply Hput, (fresh_key (tick s) id'); [apply Hi1|]. }
  destruct res as [[]|e]; [|done]. 
  apply (upload_end (with_storage st (tick (tick s))) id (mkMediaRow t f ct _ key (Some (me_sha256 me b)) u None) b); [done|..|done|done|done|].
  - exists n, f, t. split; [cbn; lia|done].
  - apply (same_content_none _ _ _ Esame).
  - by apply Hst.
  - intros id' r Hr _. by eapply (fresh_key (tick s)); [apply Hi1|].
Qed.

Definition held_content (sum t : option string) : Db (S := S) (option string) :=
  match sum with Some sum => select (S := S) me (same_content sum t) | None => mret None end.
Lemma content_unheld sum t s s' : held_content sum t s = (inl None, s') -> (forall K, shrink K s s') /\ ms_storage s' = ms_storage s /\ unheld t sum s'.
Proof.
  unfold held_content. destruct sum as [c|]; [|by intros [= <-]; split; [intros K; apply (shrink_refl K)|]]. unfold select, statement.
  destruct (me_fault me _); [done|]. destruct (same_content c t (tick s)) as [|] eqn:E; [done|]. intros [= <-].
  split; [intros K; apply tick_shrinks|]. split; [done|]. by apply same_content_none.
Qed.
Lemma held_content_shrinks K sum t : keeping (shrink K) (held_content sum t).
Proof. destruct sum; [apply keeping_select|apply (keeping_ret (shrink K))]. Qed.
(** What a commit leaves: the objects as they were, and at most a row more, for its key. *)
Definition row_added key s s' : Prop :=
  (kept s -> kept s') /\ (intact s -> intact s') /\ (ms_tick s <= ms_tick s')%nat /\
  (forall k, object (ms_storage s') k = object (ms_storage s) k) /\
  forall i r, ms_rows s' !! i = Some r -> ms_rows s !! i = Some r \/ md_key r = key.
Lemma commit_spec id key f ct sum u t s b : drawn s id key ->
  object (ms_storage s) key = Some b -> (forall c, sum = Some c -> c = me_sha256 me b) ->
  row_added key s (commit_upload me id key f ct sum u t s).2.
Proof.
  intros Hd Hb Hsum. unfold commit_upload. fold (held_content sum t).
  destruct (String.prefix _ key); [|by split_and!; eauto]. cbn [check].
  unfold mbind at 1, Comp_bind, mret, Comp_ret. unfold mbind at 1, Comp_bind, store, on.
  pose proof (fun n => size_measures key n b (ms_storage s)) as Hm. pose proof (fun k' => size_keeps key k' (ms_storage s)) as Hk.
  destruct (st_size key (ms_storage s)) as [res st]. cbn [fst snd] in *.
  fold (with_storage st s). set (s1 := with_storage st s).
  assert (shrinks s s1) as H1 by (apply shrink_same; [done..|]; intros; apply Hk).
  assert (forall s2, shrinks s1 s2 -> ms_storage s2 = ms_storage s1 -> ms_rows s2 = ms_rows s1 -> row_added key s s2) as Hstep.
  { intros s2 H2 E2 R2. pose proof (shrink_trans _ _ _ _ H1 H2) as H12. split_and!.
    - by eapply shrink_kept.
    - by eapply shrink_intact.
    - apply H12.
    - intros k. rewrite E2. apply Hk.
    - intros i r. rewrite R2. by left. }
  assert (shrinks s1 s1) as Hrefl by apply shrink_refl.
  destruct res as [[n|]|e]; [|by apply Hstep..]. rewrite (Hm n eq_refl Hb). cbn [of_option].
  unfold mbind at 1, Comp_bind, mret, Comp_ret. unfold mbind at 1, Comp_bind.
  pose proof (held_content_shrinks (fun _ => False) sum t s1) as Hs. pose proof (content_unheld sum t s1) as Hun.
  assert (ms_storage (held_content sum t s1).2 = ms_storage s1 /\ ms_rows (held_content sum t s1).2 = ms_rows s1) as [Es Er].
  { unfold held_content, select, statement. destruct sum; [|done]. by destruct (me_fault me _). }
  destruct (held_content sum t s1) as [[[known|]|e] s2]; cbn in Hs, Es, Er; try (by apply Hstep).
  destruct (Hun s2 eq_refl) as (_ & _ & Hunh). clear Hun. destruct (Hstep s2 Hs Es Er) as (Hk2 & Hi2 & Ht2 & Ho2 & Hr2).
  set (row := mkMediaRow t f ct (Z.of_nat (String.length b)) key sum u None).
  assert (drawn s2 id (md_key row)) as Hd2 by (eapply drawn_mono; [exact Ht2|exact Hd]).
  assert (sound (ms_storage s2) row) as Hso.
  { exists b. rewrite Ho2. split; [done|]. split; [done|]. cbn. destruct sum as [c|]; [right|by left]. f_equal. by apply Hsum. }
  assert (forall s', shrinks (insert_row me id row s2).2 s' -> (kept s -> kept s') /\ (intact s -> intact s')) as Hin.
  { intros s' Hsh. split; intros H.
    - eapply shrink_kept; [exact Hsh|]. apply insert_row_kept; auto.
    - eapply shrink_intact; [exact Hsh|]. apply insert_intact; auto. }
  unfold mbind at 1, Comp_bind. destruct (insert_outcome id row s2) as [[e E]|E]; rewrite E in *; cbn [snd] in Hin.
  - destruct (Hin (tick s2) (shrink_refl _ _)) as [HK HI].
    split; [exact HK|]. split; [exact HI|]. split; [cbn; lia|]. by split.
  - destruct (Hin _ (keeping_emit (fun _ => False) MCreated id u (created_data ct (Z.of_nat (String.length b))) _)) as [HK HI].
    split; [exact HK|]. split; [exact HI|]. unfold mbind, Comp_bind, emit. split; [cbn; lia|]. split; [exact Ho2|]. cbn. intros i r. rewrite lookup_insert_Some. intros [[_ <-]|[_ Hr]]; [by right|by apply Hr2].
Qed.

Lemma media_step_intact s s' : media_step s s' -> intact s -> intact s'.
Proof.
  intros [f ct b u t s0|f t s0|st s0 Hst|id key f ct sum u t s0 b Hd Hb Hsum|id s0|id actor s0|secs s0] Hi.
  - pose proof (upload_holds f ct b u t s0 Hi) as H. destruct (store_upload me f ct b u t s0). apply H.
  - eapply (shrink_intact _ _ _ (presign_shrinks (fun _ => False) f t s0)), Hi.
  - apply (shrink_intact (fun _ => False) s0); [|done]. apply shrink_same; [done..|]. intros k [(id & r & Hr & <-)|[]]. by eapply Hst.
  - by apply (commit_spec _ _ _ _ _ _ _ _ b).
  - eapply (shrink_intact _ _ _ (read_shrinks (fun _ => False) id s0)), Hi.
  - apply (shrink_intact (fun _ => False) s0); [apply delete_shrinks, Hi|done].
  - apply (shrink_intact (fun _ => False) s0); [apply purge_shrinks, Hi|done].
Qed.
Definition empty_media (st : S) : Server := mkMedia ∅ st [] 0.
Lemma reachable_intact st s : rtc media_step (empty_media st) s -> intact s.
Proof.
  intros H. assert (intact (empty_media st)) as Hi by (split; [split|]; cbn; intros; simplify_map_eq).
  revert Hi. induction H; [done|]. intros Hi. by eapply IHrtc, media_step_intact.
Qed.
Lemma read_inv id s b ct t s' : read me id s = (inl (Some (b, ct, t)), s') ->
  exists r, live_row id s = Some r /\ md_content_type r = ct /\ md_tenant r = t /\ object (ms_storage s) (md_key r) = Some b.
Proof.
  unfold read, media_lookup, mbind at 1, Comp_bind, select, statement. destruct (me_fault me _); [done|].
  change (live_row id (tick s)) with (live_row id s). destruct (live_row id s) as [r|]; [|done]. cbn [fmap option_fmap option_map].
  unfold mbind, Comp_bind, store, on. cbn [ms_storage tick]. pose proof (fun b => get_reads (md_key r) b (ms_storage s)) as Hg.
  destruct (st_get (md_key r) (ms_storage s)) as [[[b'|]|e] st]; try done. intros [= <- <- <- <-]. exists r. split_and!; [done..|]. by apply Hg.
Qed.

(** *** Uploads under way *)

(** A server with uploads under way, each between two of the things it waits for *)
Abbreviation Busy := (Server * gmap nat (Upload * Stage))%type.
(** The number an upload drew, while its object is not yet a row's or gone again *)
Definition number (g : Stage) : option nat := match g with Inserting n | Undoing n _ => Some n | _ => None end.
(** The keys of the uploads under way but that of [i] *)
Definition taken (i : option nat) (m : gmap nat (Upload * Stage)) (key : string) : Prop :=
  exists j q g n, Some j <> i /\ m !! j = Some (q, g) /\ number g = Some n /\ key = up_key me q n.

Inductive mixed_step : Busy -> Busy -> Prop :=
  | mixed_start i q s m : m !! i = None -> mixed_step (s, m) (s, <[i := (q, Looking)]> m)
  | mixed_phase i q g s m : m !! i = Some (q, g) ->
      mixed_step (s, m) ((upload_phase me q g s).2, <[i := (q, (upload_phase me q g s).1)]> m)
  | mixed_presign f t s m : mixed_step (s, m) ((presign_upload me f t s).2, m)
  (* A client writes to no object of a row or of an upload, and commits none's key. *)
  | mixed_put st s m : (forall k, ((exists id r, ms_rows s !! id = Some r /\ md_key r = k) \/ taken None m k) ->
      object st k = object (ms_storage s) k) -> mixed_step (s, m) (with_storage st s, m)
  | mixed_commit id key f ct sum u t s b m : drawn s id key -> object (ms_storage s) key = Some b ->
      (forall c, sum = Some c -> c = me_sha256 me b) -> (forall k, taken None m k -> components k <> components key) ->
      mixed_step (s, m) ((commit_upload me id key f ct sum u t s).2, m)
  | mixed_read id s m : mixed_step (s, m) ((read me id s).2, m)
  | mixed_delete id actor s m : mixed_step (s, m) ((soft_delete me id actor s).2, m)
  | mixed_purge secs s m : mixed_step (s, m) ((purge_deleted me secs s).2, m).

(** What an upload under way relies on *)
Definition on_way s (q : Upload) (g : Stage) : Prop :=
  match number g with
  | Some n => (n < ms_tick s)%nat /\ clear s (up_key me q n) /\
      match g with Inserting _ => object (ms_storage s) (up_key me q n) = Some (up_bytes q) | _ => True end
  | None => True
  end.
Record mixed_ok (w : Busy) : Prop := {
  mo_kept : kept w.1;
  mo_way i q g : w.2 !! i = Some (q, g) -> on_way w.1 q g;
  mo_apart i j q q' g g' n : w.2 !! i = Some (q, g) -> w.2 !! j = Some (q', g') -> number g = Some n -> number g' = Some n -> i = j
}.

(** Other uploads are not disturbed: new rows are far from their keys and their objects stay. *)
Definition steady (K : string -> Prop) s s' : Prop :=
  (ms_tick s <= ms_tick s')%nat /\
  (forall k, K k -> clear s k -> clear s' k) /\
  forall k, K k -> clear s k -> object (ms_storage s') k = object (ms_storage s) k.
Lemma shrink_steady K s s' : shrink K s s' -> steady K s s'.
Proof. intros H. split; [apply H|]. split; [intros k _; by eapply shrink_clear|apply H]. Qed.
Lemma way_steady i m s s' j q g : steady (taken i m) s s' -> Some j <> i -> m !! j = Some (q, g) -> on_way s q g -> on_way s' q g.
Proof.
  intros (Ht & Hc & Ho) Hj Hm. unfold on_way. destruct (number g) as [n|] eqn:En; [|done]. intros (Hn & Hcl & Hob).
  assert (taken i m (up_key me q n)) as Hk by (by exists j, q, g, n). split; [lia|]. split; [by apply Hc|].
  destruct g; try done. by rewrite Ho.
Qed.
Lemma mixed_others s s' m : mixed_ok (s, m) -> kept s' -> steady (taken None m) s s' -> mixed_ok (s', m).
Proof. intros [Hk Hw Ha] Hk' Hs. split; [done| |exact Ha]. intros i q g Hi. by eapply way_steady, Hw. Qed.
Lemma mixed_one i q g g' s s' m : mixed_ok (s, m) -> m !! i = Some (q, g) -> kept s' -> steady (taken (Some i) m) s s' -> on_way s' q g' ->
  (forall n, number g' = Some n -> number g = Some n \/ n = ms_tick s) -> mixed_ok (s', <[i := (q, g')]> m).
Proof.
  intros [Hk Hw Ha] Hi Hk' Hs Hw' Hn. split; [done|..]; cbn in *.
  - intros j q1 g1. rewrite lookup_insert_Some. intros [[<- [= <- <-]]|[Hne Hj]]; [done|].
    apply (way_steady (Some i) m s s' j q1 g1 Hs); [congruence|exact Hj|by eapply Hw].
  - assert (forall j q1 g1 n, i <> j -> m !! j = Some (q1, g1) -> number g1 = Some n -> number g' <> Some n) as Hd.
    { intros j q1 g1 n Hne Hj En En'. destruct (Hn n En') as [E| ->]; [by eapply Hne, (Ha i j)|].
      specialize (Hw j q1 g1 Hj). unfold on_way in Hw. rewrite En in Hw. lia. }
    intros j j' q1 q2 g1 g2 n. rewrite !lookup_insert_Some.
    intros [[<- [= <- <-]]|[Hne Hj]] [[<- [= <- <-]]|[Hne' Hj']] E1 E2; [done|..|by eapply Ha]; exfalso; by eapply Hd.
Qed.
(** The keys of two uploads differ. *)
Lemma taken_apart i q g n s m : mixed_ok (s, m) -> m !! i = Some (q, g) -> number g = Some n ->
  forall k, taken (Some i) m k -> components k <> components (up_key me q n).
Proof.
  intros [_ _ Ha] Hi En k (j & q' & g' & n' & Hj & Hm & En' & ->). destruct Hu as [Hinj Hp]. apply keys_differ; [done..|].
  intros ->%(inj _). apply Hj. f_equal. by eapply (Ha j i).
Qed.
Lemma taken_fresh i q s m : mixed_ok (s, m) -> forall k, taken i m k -> components k <> components (up_key me q (ms_tick s)).
Proof.
  intros [_ Hw _] k (j & q' & g' & n' & Hj & Hm & En' & ->). destruct Hu as [Hinj Hp]. apply keys_differ; [done..|].
  intros E%(inj _). specialize (Hw j q' g' Hm). unfold on_way in Hw. rewrite En' in Hw. cbn in Hw. lia.
Qed.

Lemma phase_ok i q g s m : mixed_ok (s, m) -> m !! i = Some (q, g) ->
  mixed_ok ((upload_phase me q g s).2, <[i := (q, (upload_phase me q g s).1)]> m).
Proof.
  intros Hok Hi. pose proof (mo_kept _ Hok) as Hk. cbn in Hk. pose proof (mo_way _ Hok i q g Hi) as Hway. cbn in Hway.
  destruct g as [| |n|n e|res]; cbn [upload_phase].
  - pose proof (keeping_select (taken (Some i) m) (same_content (me_sha256 me (up_bytes q)) (up_tenant q)) s) as Hs.
    destruct (select _ _ s) as [[[id|]|e] s1]; cbn in Hs |- *;
      by (eapply mixed_one; [done|done|by eapply shrink_kept|by apply shrink_steady|done|done]).
  - set (n := ms_tick s). unfold store, on. pose proof (fun k' => put_other (up_key me q n) (up_bytes q) k' (ms_storage (tick s))) as Hput.
    pose proof (put_stores (up_key me q n) (up_bytes q) (ms_storage (tick s))) as Hst.
    destruct (st_put _ _ _) as [res st]. cbn [fst snd] in *. fold (with_storage st (tick s)).
    assert (clear s (up_key me q n)) as Hcl by (intros id r Hr; by eapply fresh_key).
    assert (shrink (taken (Some i) m) s (with_storage st (tick s))) as Hs.
    { apply shrink_same; [cbn; lia|done|]. intros k [(id & r & Hr & <-)|Hk']; apply Hput; [by eapply Hcl|].
      intros E. by eapply (taken_fresh (Some i) q s m Hok k Hk'). }
    destruct res as [[]|e]; cbn; (eapply mixed_one; [done|done|by eapply shrink_kept|by apply shrink_steady| |]).
    + split; [cbn; lia|]. split; [done|]. by apply Hst.
    + intros n' [= <-]. by right.
    + done.
    + done.
  - cbn in Hway. destruct Hway as (Hn & Hcl & Hob).
    assert (drawn s (me_uuid me n) (md_key (up_row me q n))) as Hd by (exists n, (up_filename q), (up_tenant q); done).
    assert (sound (ms_storage s) (up_row me q n)) as Hso by (exists (up_bytes q); split; [done|]; split; [done|by right]).
    pose proof (insert_row_kept s _ _ Hk Hd Hso) as Hk'.
    destruct (insert_outcome (me_uuid me n) (up_row me q n) s) as [[e E]|E]; rewrite E in *; cbn.
    + eapply mixed_one; [done|done|done|apply shrink_steady, tick_shrinks|split; [cbn; lia|done]|intros n'; by left].
    + eapply mixed_one; [done|done|exact (shrink_kept _ _ _ (keeping_emit (fun _ => False) _ _ _ _ _) Hk')| |done|done].
      split; [cbn; lia|]. split; [|done]. intros k Hkk Hck id r. cbn. rewrite lookup_insert_Some.
      intros [[_ <-]|[_ Hr]]; [|by eapply Hck]. by eapply taken_apart.
  - cbn in Hway. destruct Hway as (Hn & Hcl & _).
    assert (shrink (taken (Some i) m) s (store (st_delete (up_key me q n)) s).2) as Hs.
    { pose proof (erase_shrinks (taken (Some i) m) s (up_key me q n)) as He. unfold try in He.
      destruct (store (st_delete _) s) as [x s1]. apply He; [intros id r Hr _; by eapply Hcl|]. right. intros k Hkk E.
      by eapply (taken_apart i q _ n s m Hok Hi eq_refl k Hkk). }
    eapply mixed_one; [done|done|by eapply shrink_kept|by apply shrink_steady|done|done].
  - eapply mixed_one; [done|done|done|by apply shrink_steady, shrink_refl|done|done].
Qed.

Lemma mixed_step_ok w w' : mixed_step w w' -> mixed_ok w -> mixed_ok w'.
Proof.
  intros [i q s m Hi|i q g s m Hi|f t s m|st s m Hst|id key f ct sum u t s b m Hd Hb Hsum Hfar|id s m|id actor s m|secs s m] Hok;
    pose proof (mo_kept _ Hok) as Hk; cbn [fst] in Hk.
  - destruct Hok as [_ Hw Ha]. split; [done|..]; cbn in *.
    + intros j q1 g1. rewrite lookup_insert_Some. intros [[<- [= <- <-]]|[_ Hj]]; [done|by eapply Hw].
    + intros j j' q1 q2 g1 g2 n. rewrite !lookup_insert_Some. intros [[<- [= <- <-]]|[_ Hj]] [[<- [= <- <-]]|[_ Hj']]; [done|done|done|by eapply Ha].
  - by apply phase_ok.
  - pose proof (presign_shrinks (taken None m) f t s) as H. eapply mixed_others; [exact Hok|by eapply shrink_kept|by apply shrink_steady].
  - assert (shrink (taken None m) s (with_storage st s)) as H by (by apply shrink_same).
    eapply mixed_others; [exact Hok|by eapply shrink_kept|by apply shrink_steady].
  - destruct (commit_spec id key f ct sum u t s b Hd Hb Hsum) as (Hk' & _ & Ht & Ho & Hr). eapply mixed_others; [exact Hok|by apply Hk'|].
    split; [done|]. split; [|intros; apply Ho]. intros k Hkk Hc i r Hi. destruct (Hr i r Hi) as [Hr0| ->]; [by eapply Hc|by apply Hfar].
  - pose proof (read_shrinks (taken None m) id s) as H. eapply mixed_others; [exact Hok|by eapply shrink_kept|by apply shrink_steady].
  - pose proof (delete_shrinks (taken None m) id actor s Hk) as H. eapply mixed_others; [exact Hok|by eapply shrink_kept|by apply shrink_steady].
  - pose proof (purge_shrinks (taken None m) secs s Hk) as H. eapply mixed_others; [exact Hok|by eapply shrink_kept|by apply shrink_steady].
Qed.
Lemma mixed_reachable_ok st w : rtc mixed_step (empty_media st, ∅) w -> mixed_ok w.
Proof.
  intros H. assert (mixed_ok (empty_media st, ∅)) as Hi by (split; [split|..]; cbn; intros; simplify_map_eq).
  revert Hi. induction H; [done|]. intros Hi. by eapply IHrtc, mixed_step_ok.
Qed.

(** What an upload that ends well answers *)
Lemma phase_holds q g s id sum s' : kept s -> on_way s q g -> (forall res, g <> Finished res) ->
  upload_phase me q g s = (Finished (inl (id, sum)), s') ->
  sum = me_sha256 me (up_bytes q) /\ exists r b, live_row id s' = Some r /\ md_tenant r = up_tenant q /\
    object (ms_storage s') (md_key r) = Some b /\ me_sha256 me b = sum.
Proof.
  intros Hk Hw Hg. destruct g as [| |n|n e|res]; cbn [upload_phase]; [| | |done|by destruct (Hg res)].
  - unfold select, statement. destruct (me_fault me _); [done|]. cbn. destruct (same_content _ _ (tick s)) as [i|] eqn:E; [|done].
    intros [= <- <- <-]. split; [done|]. destruct (same_content_some _ _ _ _ E) as (r & Hr & Hc & Ht).
    change (live_row i (tick s)) with (live_row i s) in *. pose proof Hr as [Hr1 Hl]%live_row_spec.
    destruct (kp_sound _ Hk i r Hr1 Hl) as (b & Hb & _ & Hsum). exists r, b. split_and!; [done..|]. destruct Hsum; congruence.
  - unfold store, on. destruct (st_put _ _ _) as [[[]|e] st]; done.
  - destruct Hw as (_ & _ & Hob).
    destruct (insert_outcome (me_uuid me n) (up_row me q n) s) as [[e E]|E]; rewrite E; [done|]. intros [= <- <- <-].
    split; [done|]. exists (up_row me q n), (up_bytes q). cbn. unfold live_row. cbn. by rewrite lookup_insert_eq, decide_True.
Qed.
(** An upload nobody interrupts is [store_upload]. *)
Lemma upload_alone_spec q s :
  upload_alone me 4 q Looking s =
    (Finished (store_upload me (up_filename q) (up_type q) (up_bytes q) (up_user q) (up_tenant q) s).1,
     (store_upload me (up_filename q) (up_type q) (up_bytes q) (up_user q) (up_tenant q) s).2).
Proof.
  unfold store_upload, mbind, Comp_bind, draw, try, throw, mret, Comp_ret. cbn [upload_alone upload_phase].
  destruct (select _ _ s) as [[[id|]|e] s1]; [done| |done]. cbn [upload_phase].
  fold (up_key me q (ms_tick s1)). destruct (store (st_put (up_key me q (ms_tick s1)) (up_bytes q)) (tick s1)) as [[[]|e] s2]; [|done].
  cbn [upload_phase]. fold (up_row me q (ms_tick s1)).
  destruct (insert_row me (me_uuid me (ms_tick s1)) (up_row me q (ms_tick s1)) s2) as [[[]|e] s3]; [done|]. cbn [upload_phase].
  by destruct (store (st_delete _) s3).
Qed.
End History.


(** ** Who may do what *)

(** The tenant a user may act for: the user's own, or any for an administrator of none *)
Definition may_act (u : AuthUser) (t : option string) : Prop :=
  t = au_tenant u \/ (au_tenant u = None /\ au_role u = Admin).
Lemma media_tenant_may u x t : media_tenant u x = inl t -> may_act u t.
Proof.
  unfold media_tenant, may_act. destruct x as [|[t'|] [|]]; try done; [intros [= <-]; by left|].
  destruct (_ || _); [done|]. destruct (au_tenant u) as [b|]; case_decide; try done; intros [= <-]; [left|right]; naive_solver.
Qed.
Definition owned (user : option AuthUser) (worker : option WorkerIdentity) (by_ : string) (t : option string) : Prop :=
  match user, worker with
  | Some u, _ => by_ = au_id u /\ may_act u t
  | None, Some w => by_ = "worker:" +:+ w_id w /\ t = None
  | None, None => False
  end.
Lemma owner_owned user worker x by_ t : owner user worker x = inl (by_, t) -> owned user worker by_ t.
Proof.
  unfold owner, owned. destruct user as [u|].
  - destruct (media_tenant u x) eqn:E; [|done]. intros [= <- <-]. split; [done|by eapply media_tenant_may].
  - destruct worker, x; try done; by intros [= <- <-].
Qed.

Section Guards.
Context {S : Type} {sb : StorageBackend S} (me : MediaEnv) {ho : HashOrder}.
Implicit Types s : MediaServer S.

(** What an accepted upload was *)
Definition acceptable (user : option AuthUser) (worker : option WorkerIdentity) (part : option Part) s (resp : Response) s' : Prop :=
  exists by_ t f ct b id sum,
    owned user worker by_ t /\ part = Some (mkPart f ct (Some b)) /\ Z.of_nat (String.length b) <= me_max_size me /\
    content_type_allowed (default "application/octet-stream" ct) = true /\
    content_matches (default "application/octet-stream" ct) b = true /\
    store_upload me (default "upload" f) (default "application/octet-stream" ct) b by_ t s = (inl (id, sum), s') /\
    rs_status resp = 200.
Lemma upload_cases user worker x part s r s' : upload me user worker x part s = (r, s') ->
  match r with
  | inl resp => acceptable user worker part s resp s'
  | inr resp => rs_status resp = 500 \/ (s' = s /\ rs_status resp ∈ [400; 401; 403; 413; 415])
  end.
Proof.
  intros E. unfold upload, mbind, Comp_bind, of_sum in E. destruct (owner user worker x) as [[by_ t]|resp] eqn:Eo.
  2: { injection E as <- <-. right. split; [done|]. unfold owner, media_tenant in Eo.
       repeat (case_match || case_decide); simplify_eq; cbn; set_solver. }
  destruct part as [[f ct [b|]]|]; cbn in E; try (injection E as <- <-; right; split; [done|cbn; set_solver]).
  case_decide as Hsz; [injection E as <- <-; right; split; [done|cbn; set_solver]|]. cbn in E.
  destruct (content_type_allowed _) eqn:Ect; [|injection E as <- <-; right; split; [done|cbn; set_solver]]. cbn in E.
  destruct (content_matches _ _) eqn:Em; [|injection E as <- <-; right; split; [done|cbn; set_solver]]. cbn in E.
  unfold with_error in E. destruct (store_upload _ _ _ _ _ _ s) as [[[id sum]|e] s1] eqn:Es; injection E as <- <-; [|by left].
  exists by_, t, f, ct, b, id, sum. split_and!; [by eapply owner_owned|done|lia|done..].
Qed.

Lemma metadata_cases user id x s resp s' : media_metadata me user id x s = (inl resp, s') -> rs_status resp = 200 ->
  exists u t r, user = Some u /\ may_act u (Some t) /\ live_row id s = Some r /\ md_tenant r = Some t.
Proof.
  unfold media_metadata. destruct user as [u|]; [|done]. cbn [of_option]. intros H.
  apply bind_inl in H as (u' & s1 & [= <- <-] & H).
  apply bind_inl in H as (t & s1 & Ht & H). destruct (media_tenant u x) as [[t'|]|] eqn:Et; try done. injection Ht as -> <-.
  apply bind_inl in H as (row & s1 & Hrow & H). injection H as <- <-. unfold with_error, select, statement in *.
  destruct (me_fault me _); [done|]. injection Hrow as <- <-. change (live_row id (tick s)) with (live_row id s).
  destruct (live_row id _) as [r|] eqn:El; [|done]. case_decide; [|done]. intros _. exists u, t, r.
  split_and!; [done|by eapply media_tenant_may|done..].
Qed.

Lemma serve_cases user inm range id s resp s' : me_private me = true ->
  serve_media me user inm range id s = (inl (Some resp), s') -> resp <> media_not_found ->
  exists u r, user = Some u /\ live_row id s = Some r /\ md_tenant r = au_tenant u.
Proof.
  intros Hp. unfold serve_media. rewrite Hp. intros H Hne. apply bind_inl in H as (found & s1 & Hl & H).
  apply bind_inl in H as (row & s2 & Hr & H). destruct found as [row'|]; [|done]. cbn in Hr. injection Hr as -> ->.
  destruct row as [[key ct] t]. apply bind_inl in H as (c & s3 & Hc & H). destruct user as [u|]; [|done].
  case_decide as Ht; [|done]. exists u. unfold or_500, with_error, media_lookup, select, statement in Hl.
  destruct (me_fault me _); [done|]. injection Hl as Hl _. change (live_row id (tick s)) with (live_row id s) in Hl.
  destruct (live_row id s) as [r|]; [|done]. injection Hl as _ _ Hl. exists r. split_and!; [done..|congruence].
Qed.

Lemma gc_cases user secs s : (gc me user secs s).2 <> s -> exists u, user = Some u /\ au_role u = Admin.
Proof.
  unfold gc, mbind, Comp_bind, needs_user. destruct user as [u|]; [|done]. cbn. case_decide; [|done]. by exists u.
Qed.
Lemma commit_guard user req s : (commit me user req s).2 <> s -> exists u, user = Some u /\
  content_type_allowed (default "application/octet-stream" (cm_content_type req)) = true /\
  String.prefix (default "public" (au_tenant u) +:+ "/") (cm_key req) = true.
Proof.
  unfold commit, mbind at 1, Comp_bind, needs_user. destruct user as [u|]; [|done]. cbn. intros H. exists u. split; [done|].
  unfold mbind at 1, Comp_bind in H. destruct (content_type_allowed _); [|done]. cbn in H. split; [done|].
  unfold mbind at 1, Comp_bind, with_error, commit_upload in H. unfold mbind at 1, Comp_bind in H.
  by destruct (String.prefix _ (cm_key req)).
Qed.
End Guards.


(** ** A directory of files *)

Module MediaExamples.
#[local] Existing Instance enum_order.
#[local] Instance disk : StorageBackend Files := LocalStorage (fun _ _ _ => None) (fun _ _ => None) (fun _ _ => None).
#[local] Instance disk_lawful : Lawful Files file_at := local_storage_lawful _ _ _.

Definition me : MediaEnv := mkMediaEnv DEFAULT_MAX_SIZE true (fun b => "sum of " +:+ b) (fun _ => None) Z.of_nat
  (fun n => "m" +:+ bits (Pos.of_succ_nat n)) (fun _ => "2026/06") (fun _ => "now").
Lemma bits_plain p : has_char slash (bits p) = false /\ has_char dot (bits p) = false.
Proof. induction p; done. Qed.
Lemma me_uuids : uuids me.
Proof.
  split.
  - intros m n. cbn. rewrite !str_app_cons, !str_app_nil. intros [= E%bits_inj]. lia.
  - intros n. cbn. rewrite str_app_cons, str_app_nil. split; [done|]. apply bits_plain.
Qed.

Definition ann : AuthUser := mkAuthUser "u1" "ann@x.io" Viewer "s1" (Some "acme").
Definition bob : AuthUser := mkAuthUser "u2" "bob@x.io" Viewer "s2" (Some "globex").
Definition text (b : string) : option Part := Some (mkPart (Some "a.txt") (Some "text/plain") (Some b)).
Definition start : MediaServer Files := empty_media ∅.
Definition id0 : string := me_uuid me 1.
Definition one : MediaServer Files := (store_upload me "a.txt" "text/plain" "hello" "u1" (Some "acme") start).2.
Definition status {A} (m : Comp A Response Response) (s : A) : Z := rs_status (match (m s).1 with inl r | inr r => r end).

(** Two uploads of the same bytes at once: neither sees the other's row. *)
Definition hello : Upload := mkUpload "a.txt" "text/plain" "hello" "u1" (Some "acme").
Abbreviation BusyServer := (MediaServer Files * gmap nat (Upload * Stage))%type.
Definition phase (i : nat) (w : BusyServer) : BusyServer :=
  match w.2 !! i with Some (q, g) => ((upload_phase me q g w.1).2, <[i := (q, (upload_phase me q g w.1).1)]> w.2) | None => w end.
Lemma phase_steps i w : rtc (mixed_step file_at me) w (phase i w).
Proof.
  destruct w as [s m]. unfold phase. cbn. destruct (m !! i) as [[q g]|] eqn:E; [|done].
  eapply rtc_l; [by apply mixed_phase|done].
Qed.
Definition begun : BusyServer := (start, <[1%nat := (hello, Looking)]> {[0%nat := (hello, Looking)]}).
Definition race : BusyServer := phase 1 (phase 1 (phase 0 (phase 0 (phase 1 (phase 0 begun))))).
Lemma race_reached : rtc (mixed_step file_at me) (start, ∅) race.
Proof.
  eapply rtc_l; [by apply (mixed_start file_at me 0 hello)|]. eapply rtc_l; [by apply (mixed_start file_at me 1 hello)|].
  do 6 (etrans; [|apply phase_steps]). done.
Qed.

(** Each then stores its own copy. *)
Example stored_twice :
  (md_checksum ∘ snd) <$> map_to_list (filter (fun p => md_deleted p.2 = None) (ms_rows race.1)) =
    [Some "sum of hello"; Some "sum of hello"].
Proof. vm_compute. done. Qed.


Example routes :
  status (upload me (Some ann) None [] (text "hello")) start = 200 /\
  status (upload me (Some ann) None [Some "globex"] (text "hello")) start = 403 /\
  status (upload me None None [] (text "hello")) start = 401 /\
  status (upload me (Some ann) None [] (Some (mkPart None (Some "image/png") (Some "<html>")))) start = 415 /\
  status (media_metadata me (Some ann) id0 []) one = 200 /\ status (media_metadata me (Some bob) id0 []) one = 404 /\
  size (ms_rows (upload me (Some ann) None [] (text "hello") one).2) = 1%nat.
Proof. vm_compute. done. Qed.

(** Deleting asks for a user, of any tenant. *)
Example anyone_deletes :
  status (delete_media me (Some bob) id0) one = 204 /\ live_row id0 (delete_media me (Some bob) id0 one).2 = None.
Proof. vm_compute. done. Qed.
(** The content type that is blocked is let in with a parameter. *)
Example svg_with_parameter :
  content_type_allowed "image/svg+xml" = false /\ content_type_allowed "image/svg+xml; charset=utf-8" = true /\
  content_matches "image/svg+xml; charset=utf-8" "<svg onload=...>" = true.
Proof. vm_compute. done. Qed.
(** A checksum told at commit is believed: a later upload of that content is answered with the other object. *)
Definition planted : MediaServer Files := with_storage {[["acme"; "2026"; "06"; "evil.txt"] := "evil"]} start.
Definition lie : CommitReq := mkCommit "x1" "acme/2026/06/evil.txt" None (Some "text/plain") (Some "sum of hello").
Definition poisoned : MediaServer Files := (commit me (Some ann) lie planted).2.
Example poisoned_content :
  (store_upload me "a.txt" "text/plain" "hello" "u1" (Some "acme") poisoned).1 = inl ("x1", "sum of hello") /\
  (read me "x1" poisoned).1 = inl (Some ("evil", "text/plain", Some "acme")).
Proof. vm_compute. done. Qed.
(** Two rows over one object: deleting one takes the bytes of the other. *)
Definition again : CommitReq := mkCommit "x2" "acme/2026/06/evil.txt" None (Some "text/plain") None.
Definition shared : MediaServer Files := (delete_media me (Some ann) "x1" (commit me (Some ann) again poisoned).2).2.
Example shared_object : (exists r, live_row "x2" shared = Some r) /\ (read me "x2" shared).1 = inl None.
Proof. vm_compute. eauto. Qed.
(** A committed type that is no header value makes serving fail. *)
Definition odd : CommitReq := mkCommit "x1" "acme/2026/06/evil.txt" None (Some ("text/plain" +:+ byte 10)) None.
Example unservable :
  status (commit me (Some ann) odd) planted = 200 /\
  (serve_media me (Some ann) None None "x1" (commit me (Some ann) odd planted).2).1 = inl None.
Proof. vm_compute. done. Qed.
End MediaExamples.
