(* ===== verification/PgStore.v ===== *)
(** * The PostgreSQL event store ([atomo_server/src/event_store/postgres.rs])

    The tables of events and of snapshots.  An append is a transaction of several
    statements: [append_events] runs one alone, [run_step] interleaves any number of them,
    over the same statements.  The columns hold what serde makes of an envelope and gives
    back; a time is kept in microseconds. *)

From S2P Require Import Prelude Json MemoryStore StateM.

(** ** The table of events *)

Record PgStore : Type := mkPg {
  pg_rows : list EventEnvelope;          (* what is committed, in the order it was *)
  pg_next : Z;                           (* the sequence behind [global_sequence] *)
  pg_tick : nat                          (* statements run so far *)
}.
Definition pg_empty : PgStore := mkPg [] 1 0.

(** [TIMESTAMPTZ]: microseconds from the year 2000, truncated *)
Definition epoch_2000 : Timestamp := 946684800 * 10 ^ 9.
Definition micros (t : Timestamp) : Timestamp := epoch_2000 + Z.quot (t - epoch_2000) 1000 * 1000.
(** The row of an envelope: the stream and the version are the envelope's own. *)
Definition row (sequence : Z) (e : EventEnvelope) : EventEnvelope :=
  mkEnvelope (event_id e) (stream_id e) (stream_version e) sequence (event_type e) (metadata e) (payload e) (micros (recorded_at e)).

(** The unique constraints of [event_id] and of [(stream_id, stream_version)] *)
Definition same_key (e r : EventEnvelope) : Prop :=
  event_id e = event_id r \/ (stream_id e = stream_id r /\ stream_version e = stream_version r).
#[export] Instance same_key_dec e r : Decision (same_key e r).
Proof. unfold same_key. apply _. Defined.
Definition clash (e : EventEnvelope) (rows : list EventEnvelope) : bool := existsb (fun r => bool_decide (same_key e r)) rows.

Definition of_stream (sid : StreamId) (rows : list EventEnvelope) : list EventEnvelope :=
  filter (fun e => stream_id e = sid) rows.
(** [SELECT .. ORDER BY .. DESC LIMIT 1] *)
Definition maximum (l : list Z) : option Z :=
  foldr (fun v acc => Some (match acc with Some m => Z.max v m | None => v end)) None l.

(** [count as i64] *)
Definition as_i64 (n : nat) : Z := (Z.of_nat n + 2 ^ 63) mod 2 ^ 64 - 2 ^ 63.

Definition key_le (key : EventEnvelope -> Z) (a b : EventEnvelope) : Prop := key a <= key b.
#[export] Instance key_le_dec key : RelDecision (key_le key).
Proof. intros a b. unfold key_le. apply _. Defined.

Section Store.
(** The database's faults: of a statement, and whether a commit that was not confirmed was made *)
Variable fault : nat -> option string.
Variable applied : nat -> bool.

Definition Op (A : Type) : Type := Comp PgStore AtomoError A.
Definition tick (s : PgStore) : PgStore := mkPg (pg_rows s) (pg_next s) (S (pg_tick s)).
Definition select {A} (f : list EventEnvelope -> A) : Op A := fun s =>
  match fault (pg_tick s) with
  | Some e => (inr (Database e), tick s)
  | None => (inl (f (pg_rows s)), tick s)
  end.

(** ** Appending *)

Definition duplicate_key : string := "duplicate key value violates unique constraint".
(** Begin, and compare the version of the stream with the one expected. *)
Definition check_version (sid : StreamId) (expected_version : option Z) : Op unit :=
  current ← select (fun rows => default 0 (maximum (stream_version <$> of_stream sid rows)));
  check (match expected_version with
         | Some expected => if decide (current <> expected) then Some (ConcurrencyConflict expected current) else None
         | None => None
         end).
(** One [INSERT]: the sequence moves on whatever comes of it. *)
Definition insert_one (e : EventEnvelope) (pending : list EventEnvelope) : Op (list EventEnvelope) := fun s =>
  let s' := mkPg (pg_rows s) (pg_next s + 1) (S (pg_tick s)) in
  match fault (pg_tick s) with
  | Some err => (inr (Database err), tick s)
  | None => if clash e (pg_rows s ++ pending) then (inr (Database duplicate_key), s')
            else (inl (pending ++ [row (pg_next s) e]), s')
  end.
Definition commit (pending : list EventEnvelope) : Op unit := fun s =>
  let made := mkPg (pg_rows s ++ pending) (pg_next s) (S (pg_tick s)) in
  match fault (pg_tick s) with
  | Some err => (inr (Database err), if applied (pg_tick s) then made else tick s)
  | None => (inl tt, made)
  end.

Fixpoint insert_all (es pending : list EventEnvelope) : Op (list EventEnvelope) :=
  match es with
  | [] => mret pending
  | e :: rest => pending ← insert_one e pending; insert_all rest pending
  end.
Definition append_events (sid : StreamId) (expected_version : option Z) (es : list EventEnvelope) : Op unit :=
  match es with
  | [] => mret tt
  | _ => check_version sid expected_version ;; pending ← insert_all es []; commit pending
  end.

(** ** Many appends at once *)

Record Append : Type := mkAppend { ap_stream : StreamId; ap_expected : option Z; ap_events : list EventEnvelope }.
Inductive Phase : Type :=
  | Starting
  | Inserting (todo pending : list EventEnvelope)
  | Finished (result : unit + AtomoError).

(** The next statement of a transaction; one that fails rolls it back. *)
Definition advance (a : Append) (ph : Phase) (s : PgStore) : Phase * PgStore :=
  match ph with
  | Starting =>
      match ap_events a with
      | [] => (Finished (inl tt), s)
      | es => match check_version (ap_stream a) (ap_expected a) s with
              | (inl _, s') => (Inserting es [], s')
              | (inr e, s') => (Finished (inr e), s')
              end
      end
  | Inserting [] pending => let '(r, s') := commit pending s in (Finished r, s')
  | Inserting (e :: rest) pending =>
      match insert_one e pending s with
      | (inl pending, s') => (Inserting rest pending, s')
      | (inr err, s') => (Finished (inr err), s')
      end
  | Finished _ => (ph, s)
  end.

Record World : Type := mkWorld { w_store : PgStore; w_txs : list (Append * Phase) }.
Definition pending_of (ph : Phase) : list EventEnvelope := match ph with Inserting _ p => p | _ => [] end.
Definition next_of (ph : Phase) : option EventEnvelope := match ph with Inserting (e :: _) _ => Some e | _ => None end.
Definition unfinished (ph : Phase) : Prop := match ph with Finished _ => False | _ => True end.
(** An insert waits for a transaction that has inserted the same key and not ended. *)
Definition waits (w : World) (i : nat) (ph : Phase) : Prop :=
  exists e j a' ph', next_of ph = Some e /\ j <> i /\ w_txs w !! j = Some (a', ph') /\ clash e (pending_of ph') = true.
Inductive run_step (i : nat) (w : World) : World -> Prop :=
  | run_advance a ph ph' s' : w_txs w !! i = Some (a, ph) -> unfinished ph -> ~ waits w i ph ->
      advance a ph (w_store w) = (ph', s') -> run_step i w (mkWorld s' (<[i := (a, ph')]> (w_txs w))).
(** Requests arrive at any time; a client may vanish and its transaction with it. *)
Inductive world_step (w : World) : World -> Prop :=
  | world_request a : world_step w (mkWorld (w_store w) (w_txs w ++ [(a, Starting)]))
  | world_run i w' : run_step i w w' -> world_step w w'
  | world_vanish i a ph err : w_txs w !! i = Some (a, ph) -> unfinished ph ->
      world_step w (mkWorld (w_store w) (<[i := (a, Finished (inr (Database err)))]> (w_txs w))).

(** ** Reading *)

(** Rows in the order of a key, equal ones in whatever order, at most so many *)
Context {ho : HashOrder}.
Definition order_by (key : EventEnvelope -> Z) (rows : list EventEnvelope) : list EventEnvelope :=
  merge_sort (key_le key) (horder rows).
Definition negative_limit : string := "LIMIT must not be negative".
Definition select_page (max_count : option nat) (f : list EventEnvelope -> list EventEnvelope) : Op (list EventEnvelope) :=
  let limit := as_i64 (default 1000%nat max_count) in
  page ← select (fun rows => take (Z.to_nat limit) (f rows));
  if decide (limit < 0) then throw (Database negative_limit) else mret page.

Definition read_stream (sid : StreamId) (from_version : option Z) (max_count : option nat) : Op (list EventEnvelope) :=
  select_page max_count (fun rows =>
    order_by stream_version (filter (fun e => stream_id e = sid /\ default 1 from_version <= stream_version e) rows)).
Definition read_events_by_type (t : EventType) (from_timestamp : option Timestamp) (max_count : option nat) : Op (list EventEnvelope) :=
  select_page max_count (fun rows =>
    order_by recorded_at (filter (fun e => event_type e = t /\ micros (default 0 from_timestamp) <= recorded_at e) rows)).
Definition read_aggregate_events (aggregate_id : EntityId) (from_version : option Z) : Op (list EventEnvelope) :=
  select (fun rows => order_by recorded_at
    (filter (fun e => md_user_id (metadata e) = Some aggregate_id /\ default 1 from_version <= stream_version e) rows)).
Definition read_events_from_sequence (from_sequence : Z) (max_count : option nat) : Op (list EventEnvelope) :=
  select_page max_count (fun rows => order_by global_sequence (filter (fun e => from_sequence <= global_sequence e) rows)).
Definition get_stream_version (sid : StreamId) : Op (option Z) :=
  select (fun rows => maximum (stream_version <$> of_stream sid rows)).
Definition get_latest_sequence : Op Z := select (fun rows => default 0 (maximum (global_sequence <$> rows))).
Definition stream_exists (sid : StreamId) : Op bool := select (fun rows => bool_decide (of_stream sid rows <> [])).
Definition delete_stream (sid : StreamId) : Op unit := fun s =>
  match fault (pg_tick s) with
  | Some e => (inr (Database e), tick s)
  | None => (inl tt, mkPg (filter (fun e => stream_id e <> sid) (pg_rows s)) (pg_next s) (S (pg_tick s)))
  end.
End Store.

(** ** The table of snapshots *)

(** By aggregate and version, which are unique together *)
Record PgSnapshots : Type := mkSnapshots { sn_rows : gmap (EntityId * Z) Value; sn_tick : nat }.
Definition snapshots_empty : PgSnapshots := mkSnapshots ∅ 0.

Section Snapshots.
Context `{Snapshot Snap} (fault : nat -> option string).
(** serde *)
Variable to_value : Snap -> Value + string.
Variable from_value : Value -> Snap + string.

Definition SOp (A : Type) : Type := Comp PgSnapshots AtomoError A.
Definition sn_statement {A} (f : gmap (EntityId * Z) Value -> A * gmap (EntityId * Z) Value) : SOp A := fun s =>
  match fault (sn_tick s) with
  | Some e => (inr (Database e), mkSnapshots (sn_rows s) (S (sn_tick s)))
  | None => let '(a, rows) := f (sn_rows s) in (inl a, mkSnapshots rows (S (sn_tick s)))
  end.
Definition serialized {A} (r : A + string) : SOp A :=
  match r with inl a => mret a | inr e => throw (Serialization e) end.

Definition versions (aggregate_id : EntityId) (rows : gmap (EntityId * Z) Value) : list Z :=
  omap (fun p => if decide (p.1.1 = aggregate_id) then Some p.1.2 else None) (map_to_list rows).
Definition newest (aggregate_id : EntityId) (ok : Z -> bool) (rows : gmap (EntityId * Z) Value) : option Value :=
  maximum (filter (fun v => ok v = true) (versions aggregate_id rows)) ≫= fun v => rows !! (aggregate_id, v).
(** The versions a cleanup keeps *)
Definition newest_versions (aggregate_id : EntityId) (n : nat) (rows : gmap (EntityId * Z) Value) : list Z :=
  take n (reverse (merge_sort Z.le (versions aggregate_id rows))).

Definition save_snapshot (snapshot : Snap) : SOp unit :=
  data ← serialized (to_value snapshot);
  sn_statement (fun rows => (tt, <[(sn_aggregate_id snapshot, sn_version snapshot) := data]> rows)).
Definition parse_found (found : option Value) : SOp (option Snap) :=
  match found with
  | Some data => s ← serialized (from_value data); mret (Some s)
  | None => mret None
  end.
Definition load_snapshot (aggregate_id : EntityId) : SOp (option Snap) :=
  found ← sn_statement (fun rows => (newest aggregate_id (fun _ => true) rows, rows)); parse_found found.
Definition load_snapshot_at_version (aggregate_id : EntityId) (version : Z) : SOp (option Snap) :=
  found ← sn_statement (fun rows => (newest aggregate_id (fun v => v <=? version) rows, rows)); parse_found found.
Definition cleanup_snapshots (aggregate_id : EntityId) (keep_count : nat) : SOp unit :=
  _ ← sn_statement (fun rows => (tt,
    if decide (as_i64 keep_count < 0) then rows
    else filter (fun p => p.1.1 = aggregate_id -> p.1.2 ∈ newest_versions aggregate_id (Z.to_nat (as_i64 keep_count)) rows) rows));
  if decide (as_i64 keep_count < 0) then throw (Database negative_limit) else mret tt.
End Snapshots.
