(* ===== verification/PgStoreSpec.v ===== *)
(** * Concurrent appends take effect one after another

    Any number of appends to the PostgreSQL store interleave statement by statement.  The
    version read at the start of a transaction and the unique key of the rows together make
    the optimistic concurrency control work; then reading, and the two stores of snapshots,
    which answer alike. *)

From S2P Require Import Prelude StateM Json MemoryStore PgStore.

(** ** Rows *)

Lemma clash_true e rows : clash e rows = true <-> exists r, r ∈ rows /\ same_key e r.
Proof.
  unfold clash. rewrite existsb_exists. split; intros (r & Hr & Hk); exists r.
  - split; [by apply list_elem_of_In|by apply bool_decide_eq_true in Hk].
  - split; [by apply list_elem_of_In|by apply bool_decide_eq_true].
Qed.
Lemma clash_false e rows : clash e rows = false <-> forall r, r ∈ rows -> ~ same_key e r.
Proof.
  rewrite <-not_true_iff_false, clash_true. naive_solver.
Qed.
Lemma same_key_sym e r : same_key e r -> same_key r e.
Proof. unfold same_key. intuition congruence. Qed.
Lemma same_key_row g e r : same_key (row g e) r <-> same_key e r.
Proof. done. Qed.

Definition apart (p rows : list EventEnvelope) : Prop := forall e r, e ∈ p -> r ∈ rows -> ~ same_key e r.
Lemma apart_sym p q : apart p q -> apart q p.
Proof. intros H e r He Hr Hk. by apply (H r e), same_key_sym. Qed.
Lemma apart_app p q1 q2 : apart p (q1 ++ q2) <-> apart p q1 /\ apart p q2.
Proof. unfold apart. split; [|intros [H1 H2] e r He [Hr|Hr]%elem_of_app; eauto]. intros H. split; intros e r He Hr; apply H; set_solver. Qed.
Lemma apart_nil q : apart [] q.
Proof. intros e r He. by apply not_elem_of_nil in He. Qed.
Lemma apart_snoc p e g q : apart p q -> clash e q = false -> apart (p ++ [row g e]) q.
Proof.
  rewrite clash_false. intros Hp He e' r [He'| ->%list_elem_of_singleton]%elem_of_app Hr; [by apply Hp|]. rewrite same_key_row. by apply He.
Qed.

Definition stored (e r : EventEnvelope) : Prop := exists g, r = row g e.

Lemma of_stream_app sid l l' : of_stream sid (l ++ l') = of_stream sid l ++ of_stream sid l'.
Proof. apply filter_app. Qed.
Lemma of_stream_all sid p : (forall e, e ∈ p -> stream_id e = sid) -> of_stream sid p = p.
Proof. apply filter_all. Qed.
Lemma of_stream_other sid sid' p : (forall e, e ∈ p -> stream_id e = sid') -> sid' <> sid -> of_stream sid p = [].
Proof.
  intros Hp Hne. unfold of_stream. induction p as [|e p IH]; [done|]. rewrite filter_cons, decide_False.
  - apply IH. set_solver.
  - rewrite (Hp e) by set_solver. done.
Qed.

(** Every stream has the versions 1, 2, ... in the order they were committed. *)
Definition contiguous (rows : list EventEnvelope) : Prop :=
  forall sid k e, of_stream sid rows !! k = Some e -> stream_version e = Z.of_nat k + 1.

Lemma maximum_spec l : match maximum l with Some m => m ∈ l /\ forall x, x ∈ l -> x <= m | None => l = [] end.
Proof.
  induction l as [|v l IH]; [done|]. cbn [maximum foldr]. unfold maximum in IH. destruct (foldr _ None l) as [m|].
  - destruct IH as [Hin Hle]. split; [destruct (Z.max_spec v m) as [[_ ->]|[_ ->]]; set_solver|].
    intros x [->|Hx]%elem_of_cons; [lia|]. specialize (Hle x Hx). lia.
  - subst. split; [set_solver|]. intros x [->|Hx]%elem_of_cons; [done|]. by apply not_elem_of_nil in Hx.
Qed.
Lemma current_is_length rows sid : contiguous rows ->
  default 0 (maximum (stream_version <$> of_stream sid rows)) = Z.of_nat (length (of_stream sid rows)).
Proof.
  intros Hc. pose proof (maximum_spec (stream_version <$> of_stream sid rows)) as Hm.
  destruct (maximum _) as [m|]; [|by apply fmap_nil_inv in Hm as ->]. destruct Hm as [Hin Hle]. cbn.
  apply list_elem_of_fmap in Hin as (e & -> & [k Hk]%list_elem_of_lookup). pose proof (lookup_lt_Some _ _ _ Hk) as Hlt.
  rewrite (Hc sid k e Hk) in *. destruct (lookup_lt_is_Some_2 (of_stream sid rows) (length (of_stream sid rows) - 1)) as [e' He']; [lia|].
  assert (stream_version e' <= Z.of_nat k + 1) as H1 by (apply Hle, list_elem_of_fmap; exists e'; split; [done|by eapply list_elem_of_lookup_2]).
  rewrite (Hc sid _ e' He') in H1. lia.
Qed.

(** ** The invariant *)

(** How a repository numbers its events: from the version it expects *)
Definition numbered (a : Append) : Prop :=
  exists base, ap_expected a = Some base /\
    forall k e, ap_events a !! k = Some e -> stream_id e = ap_stream a /\ stream_version e = base + Z.of_nat k + 1.

(** An append that succeeded has its events in the stream, right behind the version it expected. *)
Definition landed (a : Append) (rows : list EventEnvelope) : Prop :=
  ap_events a = [] \/ exists base, ap_expected a = Some (Z.of_nat base) /\
    forall k e, ap_events a !! k = Some e -> exists r, of_stream (ap_stream a) rows !! (base + k)%nat = Some r /\ stored e r.
Definition tx_ok (rows : list EventEnvelope) (a : Append) (ph : Phase) : Prop :=
  match ph with
  | Starting => True
  | Inserting todo p =>
      apart p rows /\ exists base, ap_expected a = Some (Z.of_nat base) /\ (base <= length (of_stream (ap_stream a) rows))%nat /\
        exists made, ap_events a = made ++ todo /\ Forall2 stored made p
  | Finished (inl _) => landed a rows
  | Finished (inr _) => True
  end.
Record sound (w : World) : Prop := {
  so_stream : contiguous (pg_rows (w_store w));
  so_tx i a ph : w_txs w !! i = Some (a, ph) -> tx_ok (pg_rows (w_store w)) a ph;
  so_apart i j a ph b ph' : i <> j -> w_txs w !! i = Some (a, ph) -> w_txs w !! j = Some (b, ph') ->
    apart (pending_of ph) (pending_of ph')
}.

Lemma landed_app a rows ext : landed a rows -> landed a (rows ++ ext).
Proof.
  intros [He|(base & Hb & Hl)]; [by left|right]. exists base. split; [done|]. intros k e Hk.
  destruct (Hl k e Hk) as (r & Hr & Hs). exists r. split; [|done]. rewrite of_stream_app. by apply lookup_app_l_Some.
Qed.
Lemma tx_ok_app rows ext a ph : tx_ok rows a ph -> apart (pending_of ph) ext -> tx_ok (rows ++ ext) a ph.
Proof.
  destruct ph as [|todo p|[]]; cbn; [done| |by intros; apply landed_app|done].
  intros (Hap & base & Hb & Hle & H) He. split; [by apply apart_app|]. exists base. split_and!; [done| |done].
  rewrite of_stream_app, length_app. lia.
Qed.

(** A transaction moves on, and adds [ext] to the table. *)
Lemma sound_set w i a ph ph' s' ext : sound w -> w_txs w !! i = Some (a, ph) ->
  pg_rows s' = pg_rows (w_store w) ++ ext -> contiguous (pg_rows s') ->
  (forall j b ph2, j <> i -> w_txs w !! j = Some (b, ph2) -> apart (pending_of ph2) ext) ->
  tx_ok (pg_rows s') a ph' ->
  (forall j b ph2, j <> i -> w_txs w !! j = Some (b, ph2) -> apart (pending_of ph') (pending_of ph2)) ->
  sound (mkWorld s' (<[i := (a, ph')]> (w_txs w))).
Proof.
  intros [Hs Ht Ha] Hi Hrows Hc Hext Hok Hap. split; cbn [w_store w_txs]; [done|..].
  - intros j b ph2. rewrite list_lookup_insert_Some. intros [(-> & [= <- <-] & _)|[Hne Hj]]; [done|]. rewrite Hrows.
    apply tx_ok_app; [by eapply Ht|by eapply Hext].
  - intros j j' b ph1 b' ph2 Hne. rewrite !list_lookup_insert_Some.
    intros [(-> & [= <- <-] & _)|[Hj Hl]] [(-> & [= <- <-] & _)|[Hj' Hl']]; [done|by eapply Hap|by eapply apart_sym, Hap|by eapply (Ha j j')].
Qed.
Lemma sound_keep w i a ph ph' s' : sound w -> w_txs w !! i = Some (a, ph) ->
  pg_rows s' = pg_rows (w_store w) -> tx_ok (pg_rows (w_store w)) a ph' ->
  (forall j b ph2, j <> i -> w_txs w !! j = Some (b, ph2) -> apart (pending_of ph') (pending_of ph2)) ->
  sound (mkWorld s' (<[i := (a, ph')]> (w_txs w))).
Proof.
  intros Hw Hi Hrows Hok Hap. eapply (sound_set w i a ph ph' s' []); [done|done|by rewrite app_nil_r|rewrite Hrows; apply Hw| |by rewrite Hrows|done].
  intros j b ph2 _ _. apply apart_sym, apart_nil.
Qed.

Section Steps.
Context (fault : nat -> option string) (applied : nat -> bool).

Lemma check_version_cases sid x s :
  (exists e s', check_version fault sid x s = (inr e, s') /\ pg_rows s' = pg_rows s) \/
  (exists s', check_version fault sid x s = (inl tt, s') /\ pg_rows s' = pg_rows s /\
    (x = None \/ x = Some (default 0 (maximum (stream_version <$> of_stream sid (pg_rows s)))))).
Proof.
  unfold check_version, mbind, Comp_bind, select. destruct (fault _) as [err|]; [left; by do 2 eexists|].
  destruct x as [x|]; [case_decide as Hx|]; cbn.
  - left. by do 2 eexists.
  - right. eexists. split; [done|]. split; [done|]. right. f_equal. destruct (decide (x = default 0 (maximum (stream_version <$> of_stream sid (pg_rows s))))); [done|]. by destruct Hx.
  - right. eexists. split; [done|]. split; [done|by left].
Qed.
Lemma insert_one_cases e p s :
  (exists err s', insert_one fault e p s = (inr err, s') /\ pg_rows s' = pg_rows s) \/
  (exists s' g, insert_one fault e p s = (inl (p ++ [row g e]), s') /\ pg_rows s' = pg_rows s /\ clash e (pg_rows s ++ p) = false).
Proof.
  unfold insert_one. destruct (fault _) as [err|]; [left; by do 2 eexists|].
  destruct (clash e (pg_rows s ++ p)) eqn:E; [left; by do 2 eexists|right]. by do 2 eexists.
Qed.
Lemma commit_cases p s :
  (exists err s', commit fault applied p s = (inr err, s') /\ pg_rows s' = pg_rows s) \/
  (exists r s', commit fault applied p s = (r, s') /\ pg_rows s' = pg_rows s ++ p).
Proof.
  unfold commit. destruct (fault _) as [err|]; [destruct (applied _)|]; [right|left|right]; by do 2 eexists.
Qed.

Lemma landing rows a base made p : contiguous rows -> numbered a -> ap_events a = made -> Forall2 stored made p ->
  ap_expected a = Some (Z.of_nat base) -> (base <= length (of_stream (ap_stream a) rows))%nat -> apart p rows ->
  contiguous (rows ++ p) /\ landed a (rows ++ p) /\ (p = [] \/ base = length (of_stream (ap_stream a) rows)).
Proof.
  intros Hc (b & Hb & Hn) Hm Hf He Hle Hap. rewrite He in Hb. injection Hb as <-.
  assert (Hp : forall k r, p !! k = Some r -> exists e, ap_events a !! k = Some e /\ stored e r /\
    stream_id r = ap_stream a /\ stream_version r = Z.of_nat base + Z.of_nat k + 1).
  { intros k r Hk. subst made. destruct (Forall2_lookup_r _ _ _ _ _ Hf Hk) as (e & Hek & g & ->). exists e.
    destruct (Hn k e Hek) as [Hs Hv]. split; [done|]. split; [by exists g|done]. }
  assert (Hall : of_stream (ap_stream a) p = p).
  { apply of_stream_all. intros r [k Hk]%list_elem_of_lookup. by destruct (Hp k r Hk) as (_ & _ & _ & ? & _). }
  assert (Hcase : p = [] \/ base = length (of_stream (ap_stream a) rows)).
  { destruct (decide (base = length (of_stream (ap_stream a) rows))); [by right|left]. destruct p as [|r p]; [done|]. exfalso.
    destruct (lookup_lt_is_Some_2 (of_stream (ap_stream a) rows) base) as [r0 Hr0]; [lia|].
    destruct (Hp 0%nat r eq_refl) as (_ & _ & _ & Hs & Hv). pose proof (Hc _ _ _ Hr0) as Hv0.
    assert (r0 ∈ of_stream (ap_stream a) rows) as [Hs0 Hin]%list_elem_of_filter by by eapply list_elem_of_lookup_2.
    apply (Hap r r0); [set_solver|done|]. right. split; [congruence|lia]. }
  split_and!; [| |done].
  - intros sid k r. rewrite of_stream_app. destruct (decide (sid = ap_stream a)) as [->|Hne].
    + rewrite Hall, lookup_app_Some. intros [Hk|[Hge Hk]]; [by apply (Hc (ap_stream a))|].
      destruct (Hp _ _ Hk) as (_ & _ & _ & _ & Hv). destruct Hcase as [->|Hb]; [done|]. lia.
    + rewrite (of_stream_other sid (ap_stream a) p), app_nil_r; [apply Hc| |done].
      intros r' [k' Hk']%list_elem_of_lookup. by destruct (Hp k' r' Hk') as (_ & _ & _ & ? & _).
  - destruct Hcase as [->|Hb]; [left; subst; by apply Forall2_nil_inv_r in Hf|]. right. exists base. split; [done|].
    intros k e Hk. subst made. destruct (Forall2_lookup_l _ _ _ _ _ Hf Hk) as (r & Hr & Hs). exists r. split; [|done].
    rewrite of_stream_app, Hall, lookup_app_r by lia. rewrite <-Hr. f_equal. lia.
Qed.

Lemma run_sound i w w' : sound w -> Forall numbered (w_txs w).*1 -> run_step fault applied i w w' -> sound w'.
Proof.
  intros Hw Hnum [a ph ph' s' Hi Hu Hwait Hadv]. destruct Hw as [Hs Ht Ha] eqn:Ew. clear Ew. pose proof (Ht i a ph Hi) as Hok.
  assert (numbered a) as Hna. { rewrite Forall_forall in Hnum. apply Hnum, list_elem_of_fmap. exists (a, ph). split; [done|by eapply list_elem_of_lookup_2]. }
  destruct ph as [|[|e todo] p|r]; cbn in Hadv; [| | |done].
  - destruct (ap_events a) as [|e es] eqn:Ees.
    { injection Hadv as <- <-. eapply sound_keep; [done..|by left|]. intros. apply apart_nil. }
    destruct (check_version_cases (ap_stream a) (ap_expected a) (w_store w)) as [(err & s1 & E & Hr)|(s1 & E & Hr & Hx)]; rewrite E in Hadv; injection Hadv as <- <-.
    + eapply sound_keep; [done..|]. intros. apply apart_nil.
    + eapply sound_keep; [done..| |intros; apply apart_nil]. split; [apply apart_nil|]. destruct Hna as (base & Hb & _).
      rewrite (current_is_length _ _ Hs) in Hx. destruct Hx as [Hx|Hx]; [congruence|].
      exists (length (of_stream (ap_stream a) (pg_rows (w_store w)))). split_and!; [done|lia|]. exists []. done.
  - destruct Hok as (Hap & base & Hb & Hle & made & He & Hf). rewrite app_nil_r in He.
    destruct (landing _ a base made p Hs Hna He Hf Hb Hle Hap) as (Hc & Hl & _).
    destruct (commit_cases p (w_store w)) as [(err & s1 & E & Hr)|(r & s1 & E & Hr)]; rewrite E in Hadv; injection Hadv as <- <-.
    + eapply sound_keep; [done..|]. intros. apply apart_nil.
    + eapply sound_set; [done|done|exact Hr|by rewrite Hr| | |intros; apply apart_nil].
      * intros j b ph2 Hne Hj. exact (Ha j i b ph2 a (Inserting [] p) Hne Hj Hi).
      * rewrite Hr. by destruct r as [[]|].
  - destruct Hok as (Hap & base & Hb & Hle & made & He & Hf).
    destruct (insert_one_cases e p (w_store w)) as [(err & s1 & E & Hr)|(s1 & g & E & Hr & Hcl)]; rewrite E in Hadv; injection Hadv as <- <-.
    + eapply sound_keep; [done..|]. intros. apply apart_nil.
    + assert (clash e (pg_rows (w_store w)) = false /\ clash e p = false) as [Hc1 Hc2].
      { unfold clash in *. rewrite existsb_app in Hcl. by apply orb_false_iff in Hcl. }
      eapply sound_keep; [done..| |].
      * split; [by apply apart_snoc|]. exists base. split_and!; [done..|]. exists (made ++ [e]). split; [by rewrite <-app_assoc|].
        apply Forall2_app; [done|]. constructor; [by exists g|constructor].
      * intros j b ph2 Hne Hj. apply apart_snoc; [exact (Ha i j a (Inserting (e :: todo) p) b ph2 (not_eq_sym Hne) Hi Hj)|]. apply not_true_iff_false. intros Hcw. apply Hwait.
        exists e, j, b, ph2. done.
Qed.

Lemma step_requests w w' : world_step fault applied w w' -> exists more, (w_txs w').*1 = (w_txs w).*1 ++ more.
Proof.
  assert (forall i a ph ph', w_txs w !! i = Some (a, ph) -> (<[i := (a, ph')]> (w_txs w)).*1 = (w_txs w).*1) as Hset.
  { intros i a ph ph' Hi. rewrite list_fmap_insert. apply list_insert_id. by rewrite list_lookup_fmap, Hi. }
  intros [a|i w2 [a ph ph' s' Hi]|i a ph err Hi]; [exists [a]; cbn; by rewrite fmap_app|exists []; cbn; rewrite app_nil_r; by eapply Hset..].
Qed.
Lemma step_sound w w' : world_step fault applied w w' -> Forall numbered (w_txs w').*1 -> sound w -> sound w'.
Proof.
  intros Hstep Hnum Hw. destruct (step_requests w w' Hstep) as [more Hm]. rewrite Hm in Hnum. apply Forall_app in Hnum as [Hnum _].
  destruct Hstep as [a|i w' Hrun|i a ph err Hi Hu]; [|by eapply run_sound|].
  - assert (forall i b ph, (w_txs w ++ [(a, Starting)]) !! i = Some (b, ph) -> w_txs w !! i = Some (b, ph) \/ ph = Starting) as Hl.
    { intros i b ph. rewrite lookup_snoc_Some. naive_solver. }
    destruct Hw as [Hs Ht Ha]. split; cbn [w_store w_txs]; [done|..].
    + intros i b ph [Hi| ->]%Hl; [by eapply Ht|done].
    + intros i j b ph b' ph' Hne [Hi| ->]%Hl [Hj| ->]%Hl; try apply apart_nil; [by eapply (Ha i j)|apply apart_sym, apart_nil].
  - eapply sound_keep; [done..|]. intros. apply apart_nil.
Qed.

Definition start : World := mkWorld pg_empty [].
Lemma start_sound : sound start.
Proof. split; [intros sid k e H|intros i a ph H|intros i j a ph b ph' _ H]; exfalso; [by destruct k|by destruct i..]. Qed.
Lemma reachable_sound w : rtc (world_step fault applied) start w -> Forall numbered (w_txs w).*1 -> sound w.
Proof.
  revert w. apply (rtc_ind_r (fun w => Forall numbered (w_txs w).*1 -> sound w)); [intros _; apply start_sound|].
  intros w w' _ Hstep IH Hnum. eapply step_sound; [done..|]. apply IH.
  destruct (step_requests w w' Hstep) as [more Hm]. rewrite Hm in Hnum. by apply Forall_app in Hnum as [? _].
Qed.

(** The one way the table changes *)
Definition whole_batch (w w' : World) : Prop :=
  exists i a p r, w_txs w !! i = Some (a, Inserting [] p) /\ w_txs w' !! i = Some (a, Finished r) /\
    pg_rows (w_store w') = pg_rows (w_store w) ++ p /\ Forall2 stored (ap_events a) p /\
    (p = [] \/ ap_expected a = Some (Z.of_nat (length (of_stream (ap_stream a) (pg_rows (w_store w)))))).
Lemma run_batch i w w' : sound w -> Forall numbered (w_txs w).*1 -> run_step fault applied i w w' ->
  pg_rows (w_store w') = pg_rows (w_store w) \/ whole_batch w w'.
Proof.
  intros Hw Hnum [a ph ph' s' Hi Hu Hwait Hadv]. cbn [w_store]. pose proof (so_tx w Hw i a ph Hi) as Hok.
  assert (numbered a) as Hna. { rewrite Forall_forall in Hnum. apply Hnum, list_elem_of_fmap. exists (a, ph). split; [done|by eapply list_elem_of_lookup_2]. }
  destruct ph as [|[|e todo] p|r]; cbn in Hadv; [| | |done].
  - left. destruct (ap_events a); [by injection Hadv as <- <-|].
    destruct (check_version_cases (ap_stream a) (ap_expected a) (w_store w)) as [(err & s1 & E & Hr)|(s1 & E & Hr & Hx)]; rewrite E in Hadv; by injection Hadv as <- <-.
  - destruct Hok as (Hap & base & Hb & Hle & made & He & Hf). rewrite app_nil_r in He.
    destruct (landing _ a base made p (so_stream w Hw) Hna He Hf Hb Hle Hap) as (_ & _ & Hcase).
    destruct (commit_cases p (w_store w)) as [(err & s1 & E & Hr)|(r & s1 & E & Hr)]; rewrite E in Hadv; injection Hadv as <- <-; [by left|right].
    exists i, a, p, r. split_and!; [done| |done|by rewrite He|].
    + cbn. by apply list_lookup_insert_eq, lookup_lt_is_Some; eexists.
    + destruct Hcase as [->| ->]; [by left|by right].
  - left. destruct (insert_one_cases e p (w_store w)) as [(err & s1 & E & Hr)|(s1 & g & E & Hr & Hcl)]; rewrite E in Hadv; by injection Hadv as <- <-.
Qed.

(** *** Nothing waits for ever *)

Definition left_of (a : Append) (ph : Phase) : nat :=
  match ph with
  | Starting => S (S (length (ap_events a)))
  | Inserting todo _ => S (length todo)
  | Finished _ => 0
  end.
Definition work (w : World) : nat := sum_list_with (fun p => left_of p.1 p.2) (w_txs w).
Definition move (w w' : World) : Prop := exists i, run_step fault applied i w w'.
Definition settled (w : World) : Prop := forall i a ph, w_txs w !! i = Some (a, ph) -> ~ unfinished ph.
(** No two requests bring the same event. *)
Definition distinct (l : list Append) : Prop :=
  forall i j a b e e', i <> j -> l !! i = Some a -> l !! j = Some b -> e ∈ ap_events a -> e' ∈ ap_events b -> event_id e <> event_id e'.

Lemma advance_less a ph s ph' s' : unfinished ph -> advance fault applied a ph s = (ph', s') -> (left_of a ph' < left_of a ph)%nat.
Proof.
  destruct ph as [|[|e todo] p|r]; cbn; intros Hu; [| | |done].
  - destruct (ap_events a) as [|e es]; [intros [= <- _]; cbn; lia|].
    destruct (check_version _ _ _ s) as [[|] s1]; intros [= <- _]; cbn; lia.
  - destruct (commit _ _ p s) as [r s1]. intros [= <- _]. cbn. lia.
  - destruct (insert_one _ e p s) as [[|] s1]; intros [= <- _]; cbn; lia.
Qed.
Lemma sum_insert (f : Append * Phase -> nat) l i x y : l !! i = Some x ->
  (sum_list_with f (<[i := y]> l) + f x = sum_list_with f l + f y)%nat.
Proof.
  revert i. induction l as [|z l IH]; intros [|i] Hi; try done; cbn [sum_list_with insert list_insert lookup list_lookup] in Hi |- *.
  - injection Hi as ->. lia.
  - specialize (IH i Hi). change (f z + sum_list_with f (<[i := y]> l) + f x = f z + sum_list_with f l + f y)%nat. lia.
Qed.
Lemma move_less w w' : move w w' -> (work w' < work w)%nat.
Proof.
  intros (i & [a ph ph' s' Hi Hu _ Hadv]). cbn. pose proof (advance_less _ _ _ _ _ Hu Hadv).
  unfold work. cbn. pose proof (sum_insert (fun p => left_of p.1 p.2) _ i (a, ph) (a, ph') Hi). cbn in *. lia.
Qed.

Definition waits_b (w : World) (i : nat) (ph : Phase) : bool :=
  match next_of ph with
  | Some e => existsb (fun j => negb (j =? i)%nat && match w_txs w !! j with Some (_, ph') => clash e (pending_of ph') | None => false end)
                (seq 0 (length (w_txs w)))
  | None => false
  end.
Lemma waits_spec w i ph : waits_b w i ph = true <-> waits w i ph.
Proof.
  unfold waits_b, waits. destruct (next_of ph) as [e|]; [|naive_solver]. rewrite existsb_exists. split.
  - intros (j & _ & [Hne Hc]%andb_true_iff). apply negb_true_iff, Nat.eqb_neq in Hne.
    destruct (w_txs w !! j) as [[b ph']|] eqn:Hj; [|done]. by exists e, j, b, ph'.
  - intros (e' & j & b & ph' & [= <-] & Hne & Hj & Hc). exists j. split.
    + apply in_seq. apply lookup_lt_Some in Hj. lia.
    + rewrite Hj. apply andb_true_iff. split; [by apply negb_true_iff, Nat.eqb_neq|done].
Qed.
Lemma free_moves w i a ph : w_txs w !! i = Some (a, ph) -> unfinished ph -> ~ waits w i ph -> exists w', move w w'.
Proof. intros Hi Hu Hw. destruct (advance fault applied a ph (w_store w)) as [ph' s'] eqn:E. eexists. exists i. by econstructor. Qed.

(** Who waits, waits for one that is further on in the stream. *)
Lemma waits_further w i a ph : sound w -> Forall numbered (w_txs w).*1 -> distinct (w_txs w).*1 ->
  w_txs w !! i = Some (a, ph) -> waits w i ph ->
  exists e j b ph', next_of ph = Some e /\ w_txs w !! j = Some (b, ph') /\ unfinished ph' /\
    forall e', next_of ph' = Some e' -> stream_version e < stream_version e'.
Proof.
  intros Hw Hnum Hd Hi (e & j & b & ph' & He & Hne & Hj & (r & Hr & Hk)%clash_true). exists e, j, b, ph'.
  destruct ph as [|[|e1 todo] p|]; try done. injection He as ->. destruct ph' as [|todo' p'|]; try (by apply not_elem_of_nil in Hr).
  cbn in Hr. split_and!; [done..|]. intros e' He'. destruct todo' as [|e2 todo']; [done|]. injection He' as ->.
  pose proof (so_tx w Hw i _ _ Hi) as (_ & base & Hb & _ & made & Ha & Hf).
  pose proof (so_tx w Hw j _ _ Hj) as (_ & base' & Hb' & _ & made' & Ha' & Hf').
  assert (forall k c phc, w_txs w !! k = Some (c, phc) -> numbered c) as Hn.
  { intros k c phc Hkk. rewrite Forall_forall in Hnum. apply Hnum, list_elem_of_fmap. exists (c, phc). split; [done|by eapply list_elem_of_lookup_2]. }
  destruct (Hn _ _ _ Hi) as (x & Hx & Hvi), (Hn _ _ _ Hj) as (x' & Hx' & Hvj). simplify_eq.
  apply list_elem_of_lookup in Hr as [k Hr]. destruct (Forall2_lookup_r _ _ _ _ _ Hf' Hr) as (e0 & He0 & g & ->).
  pose proof (lookup_lt_Some _ _ _ He0) as Hlt.
  destruct (Hvj k e0) as [_ H0]; [rewrite Ha'; by apply lookup_app_l_Some|].
  destruct (Hvj (length made') e') as [_ H1]; [rewrite Ha'; by apply list_lookup_middle|].
  destruct Hk as [Hid|[_ Hv]].
  - exfalso. apply (Hd i j a b e e0); [done|by rewrite list_lookup_fmap, Hi|by rewrite list_lookup_fmap, Hj| | |exact Hid].
    + rewrite Ha. set_solver.
    + rewrite Ha'. apply elem_of_app. left. by eapply list_elem_of_lookup_2.
  - cbn in Hv. lia.
Qed.

Lemma some_move w i a ph : sound w -> Forall numbered (w_txs w).*1 -> distinct (w_txs w).*1 ->
  w_txs w !! i = Some (a, ph) -> unfinished ph -> exists w', move w w'.
Proof.
  intros Hw Hnum Hd. set (top := foldr Z.max 0 (stream_version <$> mjoin (ap_events <$> (w_txs w).*1))).
  assert (Htop : forall j b ph' e, w_txs w !! j = Some (b, ph') -> next_of ph' = Some e -> stream_version e <= top).
  { intros j b ph' e Hj He. assert (stream_version e ∈ stream_version <$> mjoin (ap_events <$> (w_txs w).*1)) as Hin.
    { apply list_elem_of_fmap. exists e. split; [done|]. apply list_elem_of_join. exists (ap_events b). split.
      - destruct ph' as [|[|e1 todo] p|]; try done. injection He as ->. pose proof (so_tx w Hw j _ _ Hj) as (_ & ? & _ & _ & made & -> & _). set_solver.
      - apply list_elem_of_fmap. exists b. split; [done|]. apply list_elem_of_fmap. exists (b, ph'). split; [done|by eapply list_elem_of_lookup_2]. }
    subst top. revert Hin. generalize (stream_version <$> mjoin (ap_events <$> (w_txs w).*1)). intros l.
    induction l as [|v l IH]; [by intros ?%not_elem_of_nil|]. cbn. intros [->|Hin]%elem_of_cons; [lia|]. specialize (IH Hin). lia. }
  remember (match next_of ph with Some e => Z.to_nat (top - stream_version e) | None => 0%nat end) as n eqn:En.
  revert i a ph En. induction (lt_wf n) as [n _ IH]. intros i a ph -> Hi Hu.
  destruct (waits_b w i ph) eqn:Ew; [|eapply free_moves; [done..|]; rewrite <-waits_spec; by rewrite Ew].
  apply waits_spec in Ew. destruct (waits_further w i a ph Hw Hnum Hd Hi Ew) as (e & j & b & ph' & He & Hj & Hu' & Hfar).
  destruct (next_of ph') as [e'|] eqn:He'.
  - eapply (IH _ ltac:(rewrite He; specialize (Hfar e' eq_refl); pose proof (Htop _ _ _ _ Hj He'); instantiate (1 := Z.to_nat (top - stream_version e')); lia) j b ph'); [by rewrite He'|done..].
  - eapply free_moves; [exact Hj|done|]. intros (e1 & ? & ? & ? & He1 & _). congruence.
Qed.
End Steps.

(** A transaction that is alone does what [append_events] does. *)
Definition alone (fault : nat -> option string) (applied : nat -> bool) (a : Append) (n : nat) (s : PgStore) : Phase * PgStore :=
  Nat.iter n (fun p => advance fault applied a p.1 p.2) (Starting, s).
Lemma append_alone fault applied a s : exists n,
  alone fault applied a n s = (Finished (append_events fault applied (ap_stream a) (ap_expected a) (ap_events a) s).1,
                               (append_events fault applied (ap_stream a) (ap_expected a) (ap_events a) s).2).
Proof.
  unfold alone, append_events. set (f := fun p => advance fault applied a p.1 p.2).
  assert (Hall : forall es p s, exists n, Nat.iter n f (Inserting es p, s) =
    let '(r, s') := (pending ← insert_all fault es p; commit fault applied pending) s in (Finished r, s')).
  { intros es. induction es as [|e es IH]; intros p s0.
    - exists 1%nat. subst f. cbn. unfold mbind, Comp_bind, mret, Comp_ret. by destruct (commit fault applied p s0).
    - cbn [insert_all]. destruct (insert_one fault e p s0) as [[p'|err] s1] eqn:E.
      + destruct (IH p' s1) as [n Hn]. exists (n + 1)%nat. rewrite Nat.iter_add. 
        assert (Nat.iter 1 f (Inserting (e :: es) p, s0) = (Inserting es p', s1)) as -> by (subst f; cbn; by rewrite E).
        rewrite Hn. unfold mbind, Comp_bind. by rewrite E.
      + exists 1%nat. subst f. cbn. unfold mbind, Comp_bind. by rewrite E. }
  destruct (ap_events a) as [|e es] eqn:Ees.
  - exists 1%nat. subst f. cbn. by rewrite Ees.
  - destruct (check_version fault (ap_stream a) (ap_expected a) s) as [[[]|err] s1] eqn:E.
    + destruct (Hall (e :: es) [] s1) as [n Hn]. exists (n + 1)%nat. rewrite Nat.iter_add.
      assert (Nat.iter 1 f (Starting, s) = (Inserting (e :: es) [], s1)) as -> by (subst f; cbn; by rewrite Ees, E).
      assert (forall K : unit -> Op unit, (check_version fault (ap_stream a) (ap_expected a) ≫= K) s = K tt s1) as Hb
        by (intros K; unfold mbind, Comp_bind; by rewrite E).
      rewrite Hn, !Hb. by destruct ((insert_all fault (e :: es) [] ≫= _) s1).
    + exists 1%nat. subst f. cbn. rewrite Ees, E. unfold mbind, Comp_bind. by rewrite E.
Qed.

#[export] Instance unfinished_dec ph : Decision (unfinished ph).
Proof. destruct ph; unfold unfinished; apply _. Defined.

(** C27: Optimistic concurrency over PostgreSQL: whatever appends run at once, however their
    statements interleave, fail or lose their client, as long as each expects some version and
    numbers its events behind it without a gap (as a repository does; the store takes the
    numbers as they are, and checks nothing if no version is expected), every stream is at all times
    numbered 1, 2, ... without a gap; the table grows by whole batches only, each put
    directly behind the version it expected; an append that succeeded has its events there,
    in order, and they stay; an append alone is [append_events]. *)
Theorem appends_serialize (fault : nat -> option string) (applied : nat -> bool) (w : World) :
  rtc (world_step fault applied) start w -> Forall numbered (w_txs w).*1 ->
  contiguous (pg_rows (w_store w)) /\
  (forall i w', run_step fault applied i w w' -> pg_rows (w_store w') = pg_rows (w_store w) \/ whole_batch w w') /\
  (forall i a, w_txs w !! i = Some (a, Finished (inl tt)) -> landed a (pg_rows (w_store w))) /\
  (forall a s, exists n, alone fault applied a n s =
    let '(r, s') := append_events fault applied (ap_stream a) (ap_expected a) (ap_events a) s in (Finished r, s')).
Proof.
  intros Hr Hnum. pose proof (reachable_sound fault applied w Hr Hnum) as Hw. split_and!.
  - apply Hw.
  - intros i w'. by apply run_batch.
  - intros i a Hi. apply (so_tx w Hw i _ _ Hi).
  - intros a s. destruct (append_alone fault applied a s) as [n Hn]. exists n. rewrite Hn. by destruct (append_events _ _ _ _ _ s).
Qed.

(** No append waits for ever: where no two of them bring the same event, while one is
    unfinished some can move, and every move leaves less to do; so under any schedule,
    once requests stop arriving, as many moves as there are statements left settle all of them. *)
Theorem appends_complete (fault : nat -> option string) (applied : nat -> bool) (w : World) :
  rtc (world_step fault applied) start w -> Forall numbered (w_txs w).*1 -> distinct (w_txs w).*1 ->
  (forall n w', nsteps (move fault applied) n w w' ->
    (n + work w' <= work w)%nat /\ (settled w' \/ exists w'', move fault applied w' w'')) /\
  exists w', rtc (move fault applied) w w' /\ settled w'.
Proof.
  intros Hr Hnum Hd.
  assert (Hstep : forall n w1, nsteps (move fault applied) n w w1 ->
    (n + work w1 <= work w)%nat /\ rtc (world_step fault applied) start w1 /\ (w_txs w1).*1 = (w_txs w).*1).
  { intros n. induction n as [|n IH]; intros w1 H1; [inversion H1; subst; split_and!; [lia|done..]|].
    apply nsteps_inv_r in H1 as (w2 & H2 & [i Hi]). destruct (IH w2 H2) as (Hle & Hr2 & Hq).
    pose proof (move_less fault applied w2 w1 (ex_intro _ i Hi)). split; [lia|]. split.
    - eapply rtc_r; [exact Hr2|by apply (world_run _ _ _ i)].
    - rewrite <-Hq. destruct Hi as [a ph ph' s' Hl _ _ _]. cbn. rewrite list_fmap_insert. apply list_insert_id. by rewrite list_lookup_fmap, Hl. }
  assert (Hgo : forall n w1, nsteps (move fault applied) n w w1 -> settled w1 \/ exists w2, move fault applied w1 w2).
  { intros n w1 H1. destruct (Hstep n w1 H1) as (_ & Hr1 & Hq).
    assert (sound w1) as Hw1 by (eapply reachable_sound; [exact Hr1|by rewrite Hq]).
    destruct (decide (Forall (fun p => ~ unfinished p.2) (w_txs w1))) as [Hall|Hnot].
    - left. intros i a ph Hi. rewrite Forall_forall in Hall. exact (Hall _ (list_elem_of_lookup_2 _ _ _ Hi)).
    - right. apply not_Forall_Exists in Hnot; [|apply _]. apply Exists_exists in Hnot as ([a ph] & [i Hi]%list_elem_of_lookup & Hu).
      eapply (some_move fault applied w1 i a ph); [done|by rewrite Hq..|done|]. by apply dec_stable. }
  split; [intros n w' H'; split; [apply (Hstep n w' H')|by eapply Hgo]|].
  assert (forall k n w1, nsteps (move fault applied) n w w1 -> (work w1 <= k)%nat -> exists w', rtc (move fault applied) w1 w' /\ settled w') as Hend.
  { induction k as [|k IH]; intros n w1 H1 Hk; destruct (Hgo n w1 H1) as [Hs|[w2 H2]]; try (by exists w1).
    - pose proof (move_less _ _ _ _ H2). lia.
    - destruct (IH (S n) w2) as (w' & Hw' & Hs); [by eapply nsteps_r| |].
      + pose proof (move_less _ _ _ _ H2). lia.
      + exists w'. split; [by eapply rtc_l|done]. }
  by apply (Hend (work w) 0%nat w); [constructor|].
Qed.

(** ** Reading *)

Section Reads.
Context (fault : nat -> option string) {ho : HashOrder}.

Lemma strict_key key l x y : StronglySorted (fun a b : EventEnvelope => key a < key b) l -> x ∈ l -> y ∈ l -> key x = key y -> x = y.
Proof.
  induction 1 as [|z l Hs IH Hz]; [by intros ?%not_elem_of_nil|]. rewrite Forall_forall in Hz.
  intros [->|Hx]%elem_of_cons [->|Hy]%elem_of_cons E; [done|specialize (Hz _ Hy)|specialize (Hz _ Hx)|by apply IH]; lia.
Qed.
Lemma order_by_unique key l l' : l ≡ₚ l' -> StronglySorted (fun a b => key a < key b) l' -> order_by key l = l'.
Proof.
  intros Hp Hs. unfold order_by. apply (StronglySorted_unique_strong (key_le key)).
  - intros x y Hx Hy. rewrite merge_sort_Permutation, horder_perm, Hp in Hx. intros H1 H2.
    apply (strict_key key l'); [done..|]. unfold key_le in *. lia.
  - apply StronglySorted_merge_sort; [intros a b c; unfold key_le; lia|intros a b; unfold key_le; lia].
  - clear Hp. induction Hs as [|x l0 Hs IH Hx]; constructor; [done|]. eapply Forall_impl; [exact Hx|]. intros y. unfold key_le. cbn. lia.
  - by rewrite merge_sort_Permutation, horder_perm.
Qed.

Lemma versions_sorted (l : list EventEnvelope) z : (forall k e, l !! k = Some e -> stream_version e = z + Z.of_nat k) ->
  StronglySorted (fun a b => stream_version a < stream_version b) l.
Proof.
  revert z. induction l as [|e l IH]; intros z Hl; constructor.
  - apply (IH (z + 1)). intros k e' Hk. rewrite (Hl (S k) e' Hk). lia.
  - apply Forall_forall. intros e' [k Hk]%list_elem_of_lookup. rewrite (Hl 0%nat e eq_refl), (Hl (S k) e' Hk). lia.
Qed.
Lemma as_i64_small n : Z.of_nat n <= i64_max -> as_i64 n = Z.of_nat n.
Proof. unfold as_i64, i64_max. intros Hn. rewrite Z.mod_small by lia. lia. Qed.

Lemma select_page_ok max f s : fault (pg_tick s) = None -> Z.of_nat (default 1000%nat max) <= i64_max ->
  select_page fault max f s = (inl (take (default 1000%nat max) (f (pg_rows s))), tick s).
Proof.
  intros Hf Hm. unfold select_page, mbind, Comp_bind, select. rewrite Hf, as_i64_small by done.
  rewrite decide_False by lia. by rewrite Nat2Z.id.
Qed.
Lemma stream_page rows sid from : contiguous rows ->
  order_by stream_version (filter (fun e => stream_id e = sid /\ from <= stream_version e) rows) =
  drop (Z.to_nat (from - 1)) (of_stream sid rows).
Proof.
  intros Hc. assert (forall k e, of_stream sid rows !! k = Some e -> stream_version e = 1 + Z.of_nat k) as Hk.
  { intros k e H. rewrite (Hc sid k e H). lia. }
  apply order_by_unique.
  - assert (filter (fun e => stream_id e = sid /\ from <= stream_version e) rows =
      filter (fun e => from <= stream_version e) (of_stream sid rows)) as ->.
    { unfold of_stream. rewrite list_filter_filter. apply list_filter_iff. naive_solver. }
    by rewrite (filter_versions _ 1).
  - apply (versions_sorted _ (1 + Z.of_nat (Z.to_nat (from - 1)))). intros k e. rewrite lookup_drop. intros H. rewrite (Hk _ e H). lia.
Qed.
End Reads.

(** Reading a stream: over a table as concurrent appends leave it, a read returns a slice
    of the stream from the version asked for, at most as long as asked and never longer than
    a thousand when nothing is asked (so what lies behind is silently missing); the version
    of a stream is its length; and where all its events fit, the slice is what the store in
    memory returns from the same events. *)
Theorem stream_reads (fault : nat -> option string) {ho : HashOrder} (s : PgStore) (m : InMemoryEventStore) (sid : StreamId) :
  contiguous (pg_rows s) -> fault (pg_tick s) = None ->
  (forall from max, Z.of_nat (default 1000%nat max) <= i64_max -> (PgStore.read_stream fault sid from max s).1 =
    inl (take (default 1000%nat max) (drop (Z.to_nat (default 1 from - 1)) (of_stream sid (pg_rows s))))) /\
  (PgStore.get_stream_version fault sid s).1 =
    inl (match length (of_stream sid (pg_rows s)) with 0%nat => None | n => Some (Z.of_nat n) end) /\
  (memory_ok m -> MemoryStore.read sid None None m = of_stream sid (pg_rows s) -> forall from max,
    (length (of_stream sid (pg_rows s)) <= 1000)%nat -> Z.of_nat (default 1000%nat max) <= i64_max ->
    (PgStore.read_stream fault sid from max s).1 = inl (MemoryStore.read sid from max m)).
Proof.
  intros Hc Hf. assert (forall from max, Z.of_nat (default 1000%nat max) <= i64_max -> (PgStore.read_stream fault sid from max s).1 =
    inl (take (default 1000%nat max) (drop (Z.to_nat (default 1 from - 1)) (of_stream sid (pg_rows s))))) as Hread.
  { intros from max Hm. unfold PgStore.read_stream. rewrite select_page_ok by done. cbn [fst]. by rewrite stream_page. }
  split_and!; [exact Hread| |].
  - unfold PgStore.get_stream_version, select. rewrite Hf. cbn [fst]. f_equal. pose proof (current_is_length (pg_rows s) sid Hc) as Hl.
    pose proof (maximum_spec (stream_version <$> of_stream sid (pg_rows s))) as Hm.
    destruct (maximum _) as [v|]; [|by apply fmap_nil_inv in Hm as ->]. destruct Hm as [Hin _]. cbn in Hl. rewrite Hl.
    destruct (of_stream sid (pg_rows s)); [by apply not_elem_of_nil in Hin|done].
  - intros Hok Hsame from max Hlen Hm. rewrite Hread by done. rewrite MemoryStore.read_slice by done.
    rewrite MemoryStore.read_all in Hsame by done. rewrite Hsame. destruct max as [n|]; cbn; [done|]. f_equal. apply take_ge.
    rewrite length_drop. lia.
Qed.

(** ** Schedules *)

Section Drive.
Context (fault : nat -> option string) (applied : nat -> bool).
(** Transaction [i] moves, if it does not wait. *)
Definition drive (w : World) (i : nat) : World :=
  match w_txs w !! i with
  | Some (a, ph) =>
      if bool_decide (unfinished ph) && negb (waits_b w i ph)
      then let '(ph', s') := advance fault applied a ph (w_store w) in mkWorld s' (<[i := (a, ph')]> (w_txs w))
      else w
  | None => w
  end.
Definition request (w : World) (a : Append) : World := mkWorld (w_store w) (w_txs w ++ [(a, Starting)]).
Lemma drive_reachable w i : rtc (world_step fault applied) w (drive w i).
Proof.
  unfold drive. destruct (w_txs w !! i) as [[a ph]|] eqn:Hi; [|done]. destruct (_ && _) eqn:Hc; [|done].
  apply andb_true_iff in Hc as [Hu%bool_decide_eq_true Hw%negb_true_iff].
  destruct (advance fault applied a ph (w_store w)) as [ph' s'] eqn:E. apply rtc_once, (world_run _ _ _ i).
  econstructor; [done..| |done]. rewrite <-(waits_spec fault applied). by rewrite Hw.
Qed.
Lemma drives_reachable w l : rtc (world_step fault applied) w (foldl drive w l).
Proof. revert w. induction l as [|i l IH]; intros w; [done|]. etrans; [apply drive_reachable|apply IH]. Qed.
Lemma request_reachable w a : rtc (world_step fault applied) w (request w a).
Proof. apply rtc_once, world_request. Qed.
End Drive.

Module PgExamples.
#[local] Existing Instance enum_order.
Definition env (id sid version : Z) : EventEnvelope := mkEnvelope id sid version 0 Updated metadata_default VNull 0.
Definition none (_ : nat) : option string := None.
Definition never (_ : nat) : bool := false.
Definition ann : Append := mkAppend 7 (Some 0) [env 1 7 1; env 2 7 2].
Definition bob : Append := mkAppend 7 (Some 0) [env 3 7 1].
Definition cat : Append := mkAppend 8 (Some 0) [env 4 8 1].
Definition asked (l : list Append) : World := foldl request start l.
Definition go (l : list Append) (moves : list nat) : World := foldl (drive none never) (asked l) moves.
Definition results (w : World) : list (option (unit + AtomoError)) :=
  (fun p => match p.2 with Finished r => Some r | _ => None end) <$> w_txs w.
Lemma go_reachable l moves : rtc (world_step none never) start (go l moves).
Proof.
  etrans; [|apply drives_reachable]. unfold asked. generalize start. induction l as [|a l IH]; intros w; [done|].
  etrans; [apply request_reachable|apply IH].
Qed.
Lemma both_numbered w : (w_txs w).*1 = [ann; bob] -> Forall numbered (w_txs w).*1.
Proof.
  intros ->. repeat constructor; exists 0; (split; [done|]); intros [|[|k]] e; cbn; intros [= <-]; done.
Qed.
Lemma both_distinct w : (w_txs w).*1 = [ann; bob] -> distinct (w_txs w).*1.
Proof.
  intros -> i j a b e e' Hne Hi Hj He He'.
  destruct i as [|[|i]]; cbn in Hi; try done; destruct j as [|[|j]]; cbn in Hj; try done; injection Hi as <-; injection Hj as <-;
    cbn in He, He'; repeat (apply elem_of_cons in He as [->|He]); repeat (apply elem_of_cons in He' as [->|He']);
    try (by apply not_elem_of_nil in He); try (by apply not_elem_of_nil in He'); done.
Qed.

(** Both read version 0; bob waits for ann, and is refused when she has committed. *)
Definition race : World := go [ann; bob] [0; 1; 0; 1; 0; 1; 0; 1]%nat.
Lemma appends_serialize_witness :
  results race = [Some (inl tt); Some (inr (Database duplicate_key))] /\ landed ann (pg_rows (w_store race)).
Proof.
  split; [vm_compute; reflexivity|].
  destruct (appends_serialize none never race (go_reachable _ _)) as (_ & _ & H & _); [apply both_numbered; vm_compute; reflexivity|].
  apply (H 0%nat ann). vm_compute. reflexivity.
Defined.
Lemma appends_complete_witness : exists w, rtc (move none never) (asked [ann; bob]) w /\ settled w.
Proof.
  destruct (appends_complete none never (asked [ann; bob]) (go_reachable [ann; bob] [])) as [_ H];
    [apply both_numbered; vm_compute; reflexivity|apply both_distinct; vm_compute; reflexivity|exact H].
Defined.

(** An event is visible when its transaction commits, not in the order of its number: who
    reads on from the last number seen misses it. *)
Definition early : World := go [ann; cat] [0; 0; 1; 1; 1]%nat.
Definition late : World := foldl (drive none never) early [0; 0]%nat.
Definition from (n : Z) (w : World) : list Z :=
  match (read_events_from_sequence none n None (w_store w)).1 with inl l => global_sequence <$> l | inr _ => [] end.
Example sequence_gap :
  from 1 early = [2] /\ (get_latest_sequence none (w_store early)).1 = inl 2 /\ from 3 late = [3] /\ from 1 late = [1; 2; 3].
Proof. vm_compute. done. Qed.

(** What lies behind a thousand events is not read unless it is asked for. *)
Definition long : PgStore := mkPg ((fun k => row (Z.of_nat k) (env (Z.of_nat k) 7 (Z.of_nat k))) <$> seq 1 1003) 2000 0.
Example long_stream :
  (match (PgStore.read_stream none 7 None None long).1 with inl l => length l | inr _ => 0%nat end) = 1000%nat /\
  (PgStore.get_stream_version none 7 long).1 = inl (Some 1003).
Proof. vm_compute. done. Qed.

Lemma race_contiguous : contiguous (pg_rows (w_store race)).
Proof. apply (so_stream _ (reachable_sound none never race (go_reachable _ _) (both_numbered race ltac:(vm_compute; reflexivity)))). Qed.
Lemma stream_reads_witness :
  (PgStore.read_stream none 7 (Some 2) None (w_store race)).1 = inl (drop 1 (of_stream 7 (pg_rows (w_store race)))) /\
  length (of_stream 7 (pg_rows (w_store race))) = 2%nat.
Proof.
  split; [|vm_compute; reflexivity].
  destruct (stream_reads none (w_store race) store_new 7 race_contiguous eq_refl) as (H & _).
  rewrite (H (Some 2) None) by (unfold i64_max; cbn; lia). vm_compute. reflexivity.
Defined.
End PgExamples.

(** * The two snapshot stores agree

    Over snapshots taken as an aggregate moves on, the table in PostgreSQL answers what the
    store in memory answers, cleaned up or not. *)

#[local] Existing Instance MemoryStore.version_le_dec.

Section Agree.
Context `{Snapshot Snap} (to_value : Snap -> Value + string) (from_value : Value -> Snap + string).
(** What serde writes it reads. *)
Definition codec : Prop := forall s, exists data, to_value s = inl data /\ from_value data = inl s.

Inductive SnapOp : Type := Save (s : Snap) | Cleanup (aggregate_id : EntityId) (keep_count : nat).
Definition no_fault : nat -> option string := fun _ => None.
Definition pg_op (o : SnapOp) (t : PgSnapshots) : PgSnapshots :=
  match o with
  | Save s => (PgStore.save_snapshot no_fault to_value s t).2
  | Cleanup id n => (PgStore.cleanup_snapshots no_fault id n t).2
  end.
Definition mem_op (o : SnapOp) (ss : gmap EntityId (list Snap)) : gmap EntityId (list Snap) :=
  match o with
  | Save s => MemoryStore.save_snapshot s ss
  | Cleanup id n => MemoryStore.cleanup_snapshots id n ss
  end.
Definition run_pg (ops : list SnapOp) : PgSnapshots := foldl (flip pg_op) snapshots_empty ops.
Definition run_mem (ops : list SnapOp) : gmap EntityId (list Snap) := foldl (flip mem_op) snapshots_new ops.

(** Every snapshot is of a later version than those before it of its aggregate; a cleanup
    keeps at most what an [i64] can say. *)
Definition later (pre : list SnapOp) (o : SnapOp) : Prop :=
  match o with
  | Save s => forall s', Save s' ∈ pre -> sn_aggregate_id s' = sn_aggregate_id s -> sn_version s' < sn_version s
  | Cleanup _ n => Z.of_nat n <= i64_max
  end.
Definition ascending (ops : list SnapOp) : Prop := forall pre o post, ops = pre ++ o :: post -> later pre o.

Definition older (a b : Snap) : Prop := sn_version a < sn_version b.
Record agree (ss : gmap EntityId (list Snap)) (rows : gmap (EntityId * Z) Value) : Prop := {
  ag_sorted id l : ss !! id = Some l -> StronglySorted older l;
  ag_own id l s : ss !! id = Some l -> s ∈ l -> sn_aggregate_id s = id;
  ag_there id l s : ss !! id = Some l -> s ∈ l -> exists data, rows !! (id, sn_version s) = Some data /\ from_value data = inl s;
  ag_only id v : is_Some (rows !! (id, v)) -> exists l s, ss !! id = Some l /\ s ∈ l /\ sn_version s = v
}.

Lemma older_inj l x y : StronglySorted older l -> x ∈ l -> y ∈ l -> sn_version x = sn_version y -> x = y.
Proof.
  induction 1 as [|z l Hs IH Hz]; [by intros ?%not_elem_of_nil|]. rewrite Forall_forall in Hz. unfold older in Hz.
  intros [->|Hx]%elem_of_cons [->|Hy]%elem_of_cons E; [done|specialize (Hz _ Hy)|specialize (Hz _ Hx)|by apply IH]; lia.
Qed.

Lemma elem_of_versions id v rows : v ∈ versions id rows <-> is_Some (rows !! (id, v)).
Proof.
  unfold versions. rewrite list_elem_of_omap. split.
  - intros ([[i v'] data] & Hin & Hf). cbn in Hf. case_decide; [|done]. simplify_eq. apply elem_of_map_to_list in Hin. by eexists.
  - intros [data Hd]. exists ((id, v), data). split; [by apply elem_of_map_to_list|]. cbn. by rewrite decide_True.
Qed.
Lemma NoDup_versions id rows : NoDup (versions id rows).
Proof.
  unfold versions. pose proof (NoDup_fst_map_to_list rows) as Hn. induction (map_to_list rows) as [|[[i v] data] l IH]; [constructor|].
  cbn in Hn. apply NoDup_cons in Hn as [Hnin Hn]. cbn [omap list_omap]. case_decide as Hi; [|by apply IH]. cbn in Hi. subst i.
  apply NoDup_cons. split; [|by apply IH]. intros ([[i v'] data'] & Hin & Hf)%list_elem_of_omap. cbn in Hf.
  case_decide; [|done]. simplify_eq. apply Hnin, list_elem_of_fmap. by exists ((id, v), data').
Qed.

(** The newest of those that will do *)
Lemma newest_is ss rows id ok : agree ss rows ->
  match newest id ok rows with
  | Some data => exists l s, ss !! id = Some l /\ s ∈ l /\ from_value data = inl s /\ ok (sn_version s) = true /\
      forall s', s' ∈ l -> ok (sn_version s') = true -> sn_version s' <= sn_version s
  | None => forall l s, ss !! id = Some l -> s ∈ l -> ok (sn_version s) = false
  end.
Proof.
  intros Ha. unfold newest. pose proof (maximum_spec (filter (fun v => ok v = true) (versions id rows))) as Hm.
  destruct (maximum _) as [m|]; cbn.
  - destruct Hm as [[Hok Hin]%list_elem_of_filter Hmax]. apply elem_of_versions in Hin as Hin'.
    destruct (ag_only ss rows Ha id m Hin') as (l & s & Hl & Hs & <-). destruct (ag_there ss rows Ha id l s Hl Hs) as (data & Hd & Hf).
    rewrite Hd. exists l, s. split_and!; [done..|]. intros s' Hs' Hok'. apply Hmax, list_elem_of_filter. split; [done|].
    destruct (ag_there ss rows Ha id l s' Hl Hs') as (data' & Hd' & _). apply elem_of_versions. by eexists.
  - intros l s Hl Hs. apply not_true_iff_false. intros Hok. destruct (ag_there ss rows Ha id l s Hl Hs) as (data & Hd & _).
    assert (sn_version s ∈ filter (fun v => ok v = true) (versions id rows)) as Hin.
    { apply list_elem_of_filter. split; [done|]. apply elem_of_versions. by eexists. }
    rewrite Hm in Hin. by apply not_elem_of_nil in Hin.
Qed.
Lemma load_agrees ss t id : agree ss (sn_rows t) ->
  (PgStore.load_snapshot no_fault from_value id t).1 = inl (MemoryStore.load_snapshot id ss).
Proof.
  intros Ha. unfold PgStore.load_snapshot, MemoryStore.load_snapshot, mbind, Comp_bind, sn_statement. cbn.
  pose proof (newest_is ss (sn_rows t) id (fun _ => true) Ha) as Hn. destruct (newest _ _ _) as [data|]; cbn.
  - destruct Hn as (l & s & Hl & Hs & Hf & _ & Hmax). rewrite Hl. unfold mbind, Comp_bind. rewrite Hf. cbn. f_equal. f_equal.
    destruct (last l) as [s'|] eqn:El; [|apply last_None in El as ->; by apply not_elem_of_nil in Hs].
    f_equal. pose proof (ag_sorted ss _ Ha id l Hl) as Hsorted. apply last_Some in El as [l' ->].
    apply (older_inj _ s s' Hsorted); [done|set_solver|]. specialize (Hmax s' ltac:(set_solver) eq_refl).
    apply elem_of_app in Hs as [Hs|Hs]; [|set_solver]. pose proof (StronglySorted_app_1_elem_of older l' [s'] s s' Hsorted Hs ltac:(set_solver)) as Ho.
    unfold older in Ho. lia.
  - f_equal. destruct (ss !! id) as [l|] eqn:El; [|done]. destruct l as [|s l]; [done|]. by specialize (Hn _ s eq_refl ltac:(set_solver)).
Qed.
Lemma load_at_agrees ss t id v : agree ss (sn_rows t) ->
  (PgStore.load_snapshot_at_version no_fault from_value id v t).1 = inl (MemoryStore.load_snapshot_at_version id v ss).
Proof.
  intros Ha. unfold PgStore.load_snapshot_at_version, MemoryStore.load_snapshot_at_version, mbind, Comp_bind, sn_statement. cbn.
  pose proof (newest_is ss (sn_rows t) id (fun x => x <=? v) Ha) as Hn. destruct (newest _ _ _) as [data|]; cbn.
  - destruct Hn as (l & s & Hl & Hs & Hf & Hok & Hmax). rewrite Hl. unfold mbind, Comp_bind. rewrite Hf. cbn. f_equal.
    pose proof (max_step_spec (filter (fun s => sn_version s <= v) l) None) as Hm. apply Z.leb_le in Hok.
    assert (s ∈ filter (fun s => sn_version s <= v) l) as Hin by by apply list_elem_of_filter.
    destruct (foldl _ _ _) as [m|]; [|destruct Hm as [_ Hm]; rewrite Hm in Hin; by apply not_elem_of_nil in Hin].
    destruct Hm as ([?|[Hmv Hml]%list_elem_of_filter] & Hge & _); [done|]. f_equal.
    apply (older_inj l); [by eapply ag_sorted|done|done|]. specialize (Hge s Hin). specialize (Hmax m Hml ltac:(by apply Z.leb_le)). lia.
  - f_equal. destruct (ss !! id) as [l|] eqn:El; [|done].
    pose proof (max_step_spec (filter (fun s => sn_version s <= v) l) None) as Hm. destruct (foldl _ _ _) as [m|]; [|done].
    destruct Hm as ([?|[Hmv Hml]%list_elem_of_filter] & _); [done|]. specialize (Hn l m eq_refl Hml). apply Z.leb_gt in Hn. lia.
Qed.

Context (Hcodec : codec).

Lemma save_agrees ss t s : agree ss (sn_rows t) ->
  (forall l s', ss !! sn_aggregate_id s = Some l -> s' ∈ l -> sn_version s' < sn_version s) ->
  agree (MemoryStore.save_snapshot s ss) (sn_rows (pg_op (Save s) t)).
Proof.
  intros Ha Hlt. destruct (Hcodec s) as (data & Hto & Hfrom).
  assert (sn_rows (pg_op (Save s) t) = <[(sn_aggregate_id s, sn_version s) := data]> (sn_rows t)) as ->.
  { cbn. unfold PgStore.save_snapshot. rewrite Hto. done. }
  set (id := sn_aggregate_id s) in *. set (l0 := default [] (ss !! id)).
  assert (Hl0 : forall s', s' ∈ l0 -> exists l, ss !! id = Some l /\ l0 = l /\ s' ∈ l).
  { intros s' Hs'. unfold l0 in *. destruct (ss !! id) as [l|]; [by exists l|by apply not_elem_of_nil in Hs']. }
  assert (Hnew : forall id' l, MemoryStore.save_snapshot s ss !! id' = Some l -> (id' = id /\ l = l0 ++ [s]) \/ (id' <> id /\ ss !! id' = Some l)).
  { intros id' l. unfold MemoryStore.save_snapshot. rewrite lookup_insert_Some. naive_solver. }
  split.
  - intros id' l [[-> ->]|[_ Hl]]%Hnew; [|by eapply ag_sorted]. apply StronglySorted_app. split_and!.
    + intros x y Hx ->%list_elem_of_singleton. destruct (Hl0 x Hx) as (l & Hl & _ & Hin). by apply (Hlt l).
    + unfold l0. destruct (ss !! id) as [l|] eqn:E; [by eapply ag_sorted|constructor].
    + repeat constructor.
  - intros id' l s' [[-> ->]|[_ Hl]]%Hnew Hs'; [|by eapply ag_own]. apply elem_of_app in Hs' as [Hs'|Hs'].
    + destruct (Hl0 s' Hs') as (l & Hl & _ & Hin). by eapply ag_own.
    + by apply list_elem_of_singleton in Hs' as ->.
  - intros id' l s' [[-> ->]|[Hne Hl]]%Hnew Hs'.
    + apply elem_of_app in Hs' as [Hs'|Hs'].
      * destruct (Hl0 s' Hs') as (l & Hl & _ & Hin). rewrite lookup_insert_ne; [by eapply ag_there|].
        intros [= E]. specialize (Hlt l s' Hl Hin). lia.
      * apply list_elem_of_singleton in Hs' as ->. exists data. by rewrite lookup_insert_eq.
    + rewrite lookup_insert_ne; [by eapply ag_there|]. by intros [= E _].
  - intros id' v [d Hd]. apply lookup_insert_Some in Hd as [[[= <- <-] _]|[Hne Hd]].
    + exists (l0 ++ [s]), s. unfold MemoryStore.save_snapshot. fold id. rewrite lookup_insert_eq. split_and!; [done|set_solver|done].
    + destruct (ag_only _ _ Ha id' v) as (l & s' & Hl & Hs' & Hv); [by eexists|].
      unfold MemoryStore.save_snapshot. fold id. destruct (decide (id' = id)) as [->|Hid].
      * exists (l0 ++ [s]), s'. rewrite lookup_insert_eq. split_and!; [done| |done]. unfold l0. rewrite Hl. set_solver.
      * exists l, s'. by rewrite lookup_insert_ne.
Qed.

Lemma sorted_versions ss rows id l : agree ss rows -> ss !! id = Some l -> merge_sort Z.le (versions id rows) = sn_version <$> l.
Proof.
  intros Ha Hl. pose proof (ag_sorted _ _ Ha id l Hl) as Hs. assert (StronglySorted Z.lt (sn_version <$> l)) as Hs'.
  { eapply StronglySorted_fmap; [|exact Hs]. by intros x y. }
  apply (StronglySorted_unique Z.le).
  - apply StronglySorted_merge_sort; apply _.
  - clear -Hs'. induction Hs' as [|x k Hk IH Hx]; constructor; [done|]. eapply Forall_impl; [exact Hx|]. intros y. lia.
  - rewrite merge_sort_Permutation. apply NoDup_Permutation; [apply NoDup_versions| |].
    + clear -Hs'. induction Hs' as [|x k Hk IH Hx]; constructor; [|done]. rewrite Forall_forall in Hx. intros Hin%Hx. lia.
    + intros v. rewrite elem_of_versions, list_elem_of_fmap. split.
      * intros Hv. destruct (ag_only _ _ Ha id v Hv) as (l' & s & Hl' & Hs1 & <-). simplify_eq. by exists s.
      * intros (s & -> & Hin). destruct (ag_there _ _ Ha id l s Hl Hin) as (d & Hd & _). by eexists.
Qed.
Lemma sorted_same l : StronglySorted older l -> merge_sort version_le l = l.
Proof.
  intros Hs. apply (StronglySorted_unique_strong version_le).
  - intros x y Hx Hy H1 H2. rewrite merge_sort_Permutation in Hx. apply (older_inj l); [done..|]. unfold version_le in *. lia.
  - apply StronglySorted_merge_sort; intros ?; unfold version_le; lia.
  - clear -Hs. induction Hs as [|x k Hk IH Hx]; constructor; [done|]. eapply Forall_impl; [exact Hx|]. intros y. unfold older, version_le. lia.
  - apply merge_sort_Permutation.
Qed.
Lemma mem_cleanup ss id n l : ss !! id = Some l -> StronglySorted older l ->
  forall id', MemoryStore.cleanup_snapshots id n ss !! id' = if decide (id' = id) then Some (drop (length l - n) l) else ss !! id'.
Proof.
  intros Hl Hs id'. unfold MemoryStore.cleanup_snapshots. rewrite Hl, sorted_same by done. case_decide as Hn.
  - case_decide as Hid; [subst; by rewrite lookup_insert_eq|by rewrite lookup_insert_ne].
  - case_decide as Hid; [subst|done]. rewrite Hl. by replace (length l - n)%nat with 0%nat by lia.
Qed.
Lemma cleanup_agrees ss t id n : Z.of_nat n <= i64_max -> agree ss (sn_rows t) ->
  agree (MemoryStore.cleanup_snapshots id n ss) (sn_rows (pg_op (Cleanup id n) t)).
Proof.
  intros Hn Ha. assert (sn_rows (pg_op (Cleanup id n) t) =
    filter (fun p => p.1.1 = id -> p.1.2 ∈ newest_versions id n (sn_rows t)) (sn_rows t)) as ->.
  { cbn. unfold PgStore.cleanup_snapshots, mbind, Comp_bind, sn_statement. cbn. rewrite as_i64_small by done.
    rewrite !decide_False by lia. by rewrite Nat2Z.id. }
  destruct (ss !! id) as [l|] eqn:El.
  2: { unfold MemoryStore.cleanup_snapshots. rewrite El. destruct Ha as [H1 H2 H3 H4]. split; [done|done|..].
       - intros id' l s Hl Hs. destruct (H3 id' l s Hl Hs) as (d & Hd & Hf). exists d. split; [|done]. apply map_lookup_filter_Some.
         split; [done|]. cbn. intros ->. congruence.
       - intros id' v [d [Hd _]%map_lookup_filter_Some]. apply H4. by eexists. }
  pose proof (ag_sorted _ _ Ha id l El) as Hs. pose proof (mem_cleanup ss id n l El Hs) as Hmem.
  assert (Hnv : forall v, v ∈ newest_versions id n (sn_rows t) <-> exists s, s ∈ drop (length l - n) l /\ sn_version s = v).
  { intros v. unfold newest_versions. rewrite (sorted_versions ss _ id l) by done. rewrite take_reverse, elem_of_reverse, length_fmap, <-fmap_drop, list_elem_of_fmap. naive_solver. }
  assert (Hl2 : forall id' l', MemoryStore.cleanup_snapshots id n ss !! id' = Some l' ->
    (id' = id /\ l' = drop (length l - n) l) \/ (id' <> id /\ ss !! id' = Some l')).
  { intros id' l'. rewrite Hmem. case_decide; naive_solver. }
  assert (Hdrop : forall s, s ∈ drop (length l - n) l -> s ∈ l).
  { intros s Hin. rewrite <-(take_drop (length l - n) l). set_solver. }
  split.
  - intros id' l' [[-> ->]|[_ Hl]]%Hl2; [|by eapply ag_sorted]. rewrite <-(take_drop (length l - n) l) in Hs. by eapply StronglySorted_app_1_r.
  - intros id' l' s [[-> ->]|[_ Hl]]%Hl2 Hin; [|by eapply ag_own]. eapply ag_own; [exact Ha|exact El|by apply Hdrop].
  - intros id' l' s [[-> ->]|[Hne Hl]]%Hl2 Hin.
    + destruct (ag_there _ _ Ha id l s El (Hdrop s Hin)) as (d & Hd & Hf). exists d. split; [|done]. apply map_lookup_filter_Some.
      split; [done|]. intros _. apply Hnv. by exists s.
    + destruct (ag_there _ _ Ha id' l' s Hl Hin) as (d & Hd & Hf). exists d. split; [|done]. apply map_lookup_filter_Some. by split.
  - intros id' v [d [Hd Hk]%map_lookup_filter_Some]. cbn in Hk. rewrite Hmem. case_decide as Hid.
    + destruct (Hnv v) as [Hnv1 _]. destruct (Hnv1 (Hk Hid)) as (s & Hin & Hv). by exists (drop (length l - n) l), s.
    + destruct (ag_only _ _ Ha id' v) as (l' & s & Hl' & Hin & Hv); [by eexists|]. by exists l', s.
Qed.

Lemma mem_saved ops id l s : run_mem ops !! id = Some l -> s ∈ l -> Save s ∈ ops.
Proof.
  revert id l s. induction ops as [|o ops IH] using rev_ind; intros id l s; [by unfold run_mem, snapshots_new|].
  unfold run_mem. rewrite foldl_app. cbn. fold (run_mem ops). destruct o as [s0|id0 n]; cbn.
  - unfold MemoryStore.save_snapshot. rewrite lookup_insert_Some. intros [[<- <-]|[_ Hl]] Hs; [|apply elem_of_app; left; by eapply IH].
    apply elem_of_app in Hs as [Hs|Hs]; [|set_solver]. destruct (run_mem ops !! sn_aggregate_id s0) as [l0|] eqn:E; [|by apply not_elem_of_nil in Hs].
    apply elem_of_app. left. by eapply IH.
  - unfold MemoryStore.cleanup_snapshots. destruct (run_mem ops !! id0) as [l0|] eqn:E; [|intros; apply elem_of_app; left; by eapply IH].
    case_decide; [|intros; apply elem_of_app; left; by eapply IH]. rewrite lookup_insert_Some. intros [[<- <-]|[_ Hl]] Hs; apply elem_of_app; left; [|by eapply IH].
    eapply IH; [exact E|]. rewrite <-(merge_sort_Permutation version_le l0), <-(take_drop (length (merge_sort version_le l0) - n) (merge_sort version_le l0)). set_solver.
Qed.
Lemma run_agrees ops : ascending ops -> agree (run_mem ops) (sn_rows (run_pg ops)).
Proof.
  induction ops as [|o ops IH] using rev_ind; intros Hasc.
  { split; cbn; unfold run_mem, snapshots_new; cbn; intros; try by simplify_map_eq. }
  assert (ascending ops) as Hasc'. { intros pre o' post ->. apply (Hasc pre o' (post ++ [o])). by rewrite <-app_assoc. }
  pose proof (IH Hasc') as Ha. pose proof (Hasc ops o [] eq_refl) as Ho. unfold run_mem, run_pg. rewrite !foldl_app. cbn [foldl].
  fold (run_mem ops) (run_pg ops). destruct o as [s|id n]; [|by apply cleanup_agrees].
  apply save_agrees; [done|]. intros l s' Hl Hs'. apply Ho; [by eapply mem_saved|by eapply ag_own].
Qed.
End Agree.

(** C28: The snapshot stores are equivalent for snapshots taken as an aggregate moves on: after
    any history of saves, each of a later version than those before it of its aggregate,
    and of cleanups, a load, of the latest or at a version, answers from the table in
    PostgreSQL what it answers from memory. *)
Theorem snapshot_stores_agree `{Snapshot Snap} (to_value : Snap -> Value + string) (from_value : Value -> Snap + string)
    (ops : list SnapOp) (aggregate_id : EntityId) (v : Z) :
  codec to_value from_value -> ascending ops ->
  (PgStore.load_snapshot no_fault from_value aggregate_id (run_pg to_value ops)).1 =
    inl (MemoryStore.load_snapshot aggregate_id (run_mem ops)) /\
  (PgStore.load_snapshot_at_version no_fault from_value aggregate_id v (run_pg to_value ops)).1 =
    inl (MemoryStore.load_snapshot_at_version aggregate_id v (run_mem ops)).
Proof.
  intros Hc Hasc. pose proof (run_agrees to_value from_value Hc ops Hasc) as Ha.
  split; [by apply load_agrees|by apply load_at_agrees].
Qed.

Module SnapExamples.
(** A snapshot that is its version *)
#[local] Instance at_version : Snapshot nat := {| sn_aggregate_id _ := 1; sn_version n := Z.of_nat n |}.
Definition write (n : nat) : Value + string := inl (VArray (replicate n VNull)).
Definition read (v : Value) : nat + string := match v with VArray l => inl (length l) | _ => inr "not a snapshot"%string end.
Lemma reads_back : codec write read.
Proof. intros n. exists (VArray (replicate n VNull)). split; [done|]. cbn. by rewrite length_replicate. Qed.
Definition ops : list SnapOp := [Save 2%nat; Save 5%nat; Save 9%nat; Cleanup 1 2].
Lemma ops_ascending : ascending ops.
Proof.
  intros pre o post E. unfold ops in E. destruct pre as [|x1 [|x2 [|x3 [|x4 pre]]]]; simplify_eq/=.
  - intros s' Hs'. by apply not_elem_of_nil in Hs'.
  - intros s' Hs' _. repeat (apply elem_of_cons in Hs' as [Hs'|Hs']; [simplify_eq; cbn; lia|]). by apply not_elem_of_nil in Hs'.
  - intros s' Hs' _. repeat (apply elem_of_cons in Hs' as [Hs'|Hs']; [simplify_eq; cbn; lia|]). by apply not_elem_of_nil in Hs'.
  - cbn. unfold i64_max. lia.
  - by destruct pre.
Qed.
Lemma snapshot_stores_agree_witness :
  MemoryStore.load_snapshot_at_version 1 7 (run_mem ops) = Some 5%nat /\
  (PgStore.load_snapshot_at_version no_fault read 1 7 (run_pg write ops)).1 =
    inl (MemoryStore.load_snapshot_at_version 1 7 (run_mem ops)).
Proof.
  split; [vm_compute; reflexivity|].
  exact (proj2 (snapshot_stores_agree write read ops 1 7 reads_back ops_ascending)).
Defined.
(** An older snapshot saved late: memory answers the last one saved, PostgreSQL the newest. *)
Example late_snapshot :
  MemoryStore.load_snapshot 1 (run_mem [Save 5%nat; Save 3%nat]) = Some 3%nat /\
  (PgStore.load_snapshot no_fault read 1 (run_pg write [Save 5%nat; Save 3%nat])).1 = inl (Some 5%nat).
Proof. split; vm_compute; reflexivity. Qed.
End SnapExamples.
