(* ===== verification/InterfaceParser.v ===== *)
(** * The parser of interface schemas ([atomo_schema/src/typescript_parser.rs], [dsl_parser.rs])

    A schema is written as TypeScript interfaces, enums and one object [schema] that says of
    each model its table, access, validation, relationships and events; [defineModel] calls
    may add access rules and hooks.  Searches are regular expressions; the extent of a block
    is found by counting braces alone.  A loop over lines takes the lines that are left; its
    fuel is their number. *)

From stdpp Require Import pretty.
From S2P Require Import Prelude Json SchemaTypes Scan SchemaDsl.

#[local] Open Scope string_scope.

(** ** Outcomes with errors *)

Definition Parsed (A : Type) : Type := Outcome (A + string).
#[global] Instance parsed_ret : MRet Parsed := fun A a => Returns (inl a).
#[global] Instance parsed_bind : MBind Parsed := fun A B k m =>
  match m with Returns (inl a) => k a | Returns (inr e) => Returns (inr e) | Panics => Panics | Diverges => Diverges end.
Definition error {A} (e : string) : Parsed A := Returns (inr e).
(** What cannot fail, may panic *)
Definition lift {A} (m : Outcome A) : Parsed A :=
  match m with Returns a => Returns (inl a) | Panics => Panics | Diverges => Diverges end.

(** ** Text *)

Definition newline : Ascii.ascii := Ascii.ascii_of_nat 10.
Definition eol : string := String newline EmptyString.
Definition pipe_c : Ascii.ascii := Ascii.ascii_of_nat 124.
Definition semicolon : Ascii.ascii := Ascii.ascii_of_nat 59.

(** [s.find(c)] and [s.find(needle)] *)
Fixpoint find_char (c : Ascii.ascii) (s : string) : option nat :=
  match s with
  | EmptyString => None
  | String a r => if Ascii.eqb a c then Some 0%nat else S <$> find_char c r
  end.
Fixpoint find_str (needle s : string) : option nat :=
  if String.prefix needle s then Some 0%nat else
  match s with
  | EmptyString => None
  | String _ r => S <$> find_str needle r
  end.

(** [s.lines()] *)
Definition strip_return (s : string) : string :=
  match last_char s with
  | Some a => if Ascii.eqb a (Ascii.ascii_of_nat 13) then take_bytes (String.length s - 1) s else s
  | None => s
  end.
Fixpoint ended (pieces : list string) : list string :=
  match pieces with
  | [] => []
  | [last] => if bool_decide (last = EmptyString) then [] else [last]
  | p :: rest => strip_return p :: ended rest
  end.
Definition lines (s : string) : list string := ended (split_on newline s).

(** [line.splitn(2, sep)]: what precedes the separator and what follows it, if it is there *)
Definition split_two (sep line : string) : string * string :=
  match find_str sep line with
  | Some n => (take_bytes n line, drop_bytes (n + String.length sep) line)
  | None => (line, EmptyString)
  end.

(** ** Blocks *)

Section Parser.
Context {ho : HashOrder} {rx : Regex}.
(** [parse::<f64>] *)
Variable parse_f64 : string -> option F64.t.

(** The text from [start] to the byte before the index the count of brackets ends with *)
Definition counted (opening closing : Ascii.ascii) (content : string) (start : nat) : Outcome (string * nat) :=
  let '(j, _) := scan opening closing no_quotes Code 1 start (drop_bytes start content) in
  body ← or_panic (slice content start (j - 1));
  mret (body, j).

(** Keys are words, which escaping leaves as they are. *)
Definition sub_block (content key : string) : Outcome (option string) :=
  match captures (key +:+ "\s*:\s*\{") content with
  | None => mret None
  | Some m => '(body, _) ← counted brace_open brace_close content (c_end m); mret (Some body)
  end.
Definition sub_array (content key : string) : Outcome (option string) :=
  match captures (key +:+ "\s*:\s*\[") content with
  | None => mret None
  | Some m => '(body, _) ← counted bracket_open bracket_close content (c_end m); mret (Some body)
  end.

Definition top_level_entries (block : string) : Outcome (list (string * string)) :=
  mapM (fun c => '(body, _) ← counted brace_open brace_close block (c_end c); mret (cap 1 c, body))
    (filter (fun c => brace_depth (take_bytes (c_start c) block) = 0) (captures_iter "(\w+)\s*:\s*\{" block)).

Definition parse_string_array (content : string) : list string := string_items content.

(** ** Events and actions *)

Definition quoted_after (key text : string) : option string :=
  cap 1 <$> captures (key +:+ "\s*:\s*['\x22]([^'\x22]+)['\x22]") text.

(** [json!(x)]: a number that is none is null. *)
Definition json_float (x : F64.t) : Value :=
  match x with SpecFloat.S754_infinity _ | SpecFloat.S754_nan => VNull | _ => VNumber (Float x) end.
Definition equals_value (block : string) : option Value :=
  match quoted_after "value" block with
  | Some s => Some (VString s)
  | None =>
      match captures "value\s*:\s*(true|false)" block with
      | Some c => Some (VBool (bool_decide (cap 1 c = "true")))
      | None => captures "value\s*:\s*(-?\d+(?:\.\d+)?)" block ≫= fun c => json_float <$> parse_f64 (cap 1 c)
      end
  end.
Definition field_equals (block : string) : option ActionCondition :=
  field ← quoted_after "field" block; value ← equals_value block; Some (FieldEquals field value).
Definition parse_binding_condition (obj : string) : Outcome (option ActionCondition) :=
  cond ← sub_block obj "condition";
  match cond with
  | None => mret None
  | Some cond =>
      arr ← sub_array cond "changedAny";
      match parse_string_array <$> (arr : option string) with
      | Some (_ :: _ as fields) => mret (Some (ChangedAny fields))
      | _ => fe ← sub_block cond "fieldEquals"; mret ((fe : option string) ≫= field_equals)
      end
  end.
Definition parse_single_binding (obj : string) : Outcome (option EventActionBinding) :=
  match quoted_after "action" obj with
  | None => mret None
  | Some action => condition ← parse_binding_condition obj; mret (Some (mkBinding action condition))
  end.

(** From index [i] on; every step moves it. *)
Fixpoint event_bindings (fuel i : nat) (content : string) : Outcome (list EventActionBinding) :=
  match fuel with
  | O => Diverges
  | S fuel =>
      match byte_at content i with
      | None => mret []
      | Some a =>
          if Ascii.eqb a brace_open then
            '(obj, j) ← counted brace_open brace_close content (S i);
            b ← parse_single_binding obj;
            rest ← event_bindings fuel j content;
            mret (match (b : option EventActionBinding) with Some b => b :: rest | None => rest end)
          else event_bindings fuel (S i) content
      end
  end.
Definition parse_event_bindings (content : string) : Outcome (list EventActionBinding) :=
  event_bindings (S (String.length content)) 0 content.

Definition parse_action_input (block : string) : Outcome (option ActionInputDef) :=
  input ← sub_block block "input";
  match input with
  | None => mret None
  | Some input =>
      pick ← sub_block input "pick";
      match pick with
      | None => mret None
      | Some pick =>
          match quoted_after "model" pick with
          | None => mret None
          | Some model => fields ← sub_array pick "fields";
                          mret ((fun f => PickFields model (parse_string_array f)) <$> (fields : option string))
          end
      end
  end.
Definition source_of (input : ActionInputDef) : option string :=
  match input with PickFields model _ => Some model | InputObject _ => None end.
Definition parse_single_action (name block : string) : Outcome (option ActionDef) :=
  input ← parse_action_input block;
  mret ((fun i => mkAction name i None (source_of i)) <$> (input : option ActionInputDef)).
Definition parse_actions (content : string) : Outcome (gmap string ActionDef) :=
  block ← sub_block content "actions";
  match block with
  | None => mret ∅
  | Some block =>
      entries ← top_level_entries block;
      defs ← mapM (fun '(name, b) => def ← parse_single_action name b; mret (name, def)) entries;
      mret (foldl (fun m '(name, def) => match (def : option ActionDef) with Some d => <[name := d]> m | None => m end) ∅ defs)
  end.

(** ** What the schema object says of a model *)

Record ModelMetadata : Type := mkMeta {
  mt_table_name : option string;
  mt_validation : gmap string string;
  mt_access : option AccessControl;
  mt_relationships : gmap string Relationship;
  mt_events : ModelEvents;
  mt_ui : option UiConfig
}.
Definition no_access : AccessControl := mkAccess None None None None.

(** Pairs of a key and a quoted value, the last of a key *)
Definition quoted_pairs (pattern block : string) : gmap string string :=
  foldl (fun m c => <[cap 1 c := cap 2 c]> m) ∅ (captures_iter pattern block).
Definition access_rule (ac : AccessControl) (c : Captures) : AccessControl :=
  let rule := Some (RBoolean (cap 2 c)) in
  if decide (cap 1 c = "create") then mkAccess rule (ac_read ac) (ac_update ac) (ac_delete ac)
  else if decide (cap 1 c = "read") then mkAccess (ac_create ac) rule (ac_update ac) (ac_delete ac)
  else if decide (cap 1 c = "update") then mkAccess (ac_create ac) (ac_read ac) rule (ac_delete ac)
  else if decide (cap 1 c = "delete") then mkAccess (ac_create ac) (ac_read ac) (ac_update ac) rule
  else ac.
Definition metadata_access (block : string) : option AccessControl :=
  match captures_iter "(create|read|update|delete)\s*:\s*['\x22]([^'\x22]+)['\x22]" block with
  | [] => None
  | cs => Some (foldl access_rule no_access cs)
  end.
Definition relationship_of (rdef : string) : option Relationship :=
  kind ← quoted_after "type" rdef; model ← quoted_after "model" rdef;
  Some (mkRelationship kind model (quoted_after "foreignKey" rdef)).
Definition metadata_relationships (block : string) : Outcome (gmap string Relationship) :=
  entries ← top_level_entries block;
  mret (foldl (fun m '(name, rdef) => match relationship_of rdef with Some r => <[name := r]> m | None => m end) ∅ entries).
Definition bindings_of (block key : string) : Outcome (list EventActionBinding) :=
  arr ← sub_array block key;
  match (arr : option string) with Some a => parse_event_bindings a | None => mret [] end.
Definition metadata_events (block : string) : Outcome ModelEvents :=
  created ← bindings_of block "created"; updated ← bindings_of block "updated"; deleted ← bindings_of block "deleted";
  mret (mkEvents created updated deleted).
Definition metadata_ui (block : string) : Outcome (option UiConfig) :=
  arr ← sub_array block "listView";
  mret (match parse_string_array <$> (arr : option string) with
        | Some (_ :: _ as fields) => Some (mkUi (Some fields))
        | _ => None
        end).
(** The block of [key], if it is there, or what stands for none *)
Definition in_block {A} (block key : string) (none : A) (f : string -> Outcome A) : Outcome A :=
  b ← sub_block block key;
  match (b : option string) with Some b => f b | None => mret none end.

Definition model_metadata (block : string) : Outcome ModelMetadata :=
  validation ← in_block block "validation" ∅ (fun b => mret (quoted_pairs "(\w+)\s*:\s*['\x22]([^'\x22]*)['\x22]" b));
  access ← in_block block "access" None (fun b => mret (metadata_access b));
  relationships ← in_block block "relationships" ∅ metadata_relationships;
  events ← in_block block "events" events_default metadata_events;
  ui ← in_block block "ui" None metadata_ui;
  mret (mkMeta (quoted_after "tableName" block) validation access relationships events ui).
(** An entry that says nothing is left out. *)
Definition says_something (m : ModelMetadata) : bool :=
  bool_decide (is_Some (mt_table_name m)) || bool_decide (mt_validation m <> ∅) ||
  match mt_access m with Some _ => true | None => false end || bool_decide (dom (mt_relationships m) <> ∅) ||
  negb (events_is_empty (mt_events m)) || match mt_ui m with Some _ => true | None => false end.
Definition parse_model_metadata (content : string) : Outcome (gmap string ModelMetadata) :=
  in_block content "models" ∅ (fun models =>
    entries ← top_level_entries models;
    metas ← mapM (fun '(name, block) => m ← model_metadata block; mret (name, m)) entries;
    mret (foldl (fun map '(name, m) => if says_something m then <[name := m]> map else map) ∅ metas)).

(** ** Interfaces, enums and aliases *)

(** [@@unique([a, b])], [@@index([a, b])], with or without a predicate, and [@@check(expr)] *)
Definition list_constraint (c : Captures) : option ModelConstraint :=
  match filter (fun s => s <> EmptyString) (trim <$> split_on comma_c (cap 2 c)) with
  | [] => None
  | cols =>
      let predicate := match trim <$> group 3 c with Some EmptyString => None | p => p end in
      if decide (cap 1 c = "unique") then
        Some (match predicate with Some w => CUniqueWhere cols w | None => CUnique cols end)
      else if decide (cap 1 c = "index") then
        Some (match predicate with Some w => CIndexWhere cols w | None => CIndex cols end)
      else None
  end.
Definition parse_model_constraints (annotations : string) : list ModelConstraint :=
  if contains annotations "@@" then
    (omap list_constraint (captures_iter "@@(unique|index)\s*\(\s*\[([^\]]*)\]\s*\)(?:\s+WHERE\s+([^\n]+))?" annotations) ++
     match (fun c => trim (cap 1 c)) <$> captures "@@check\s*\((.+)\)" annotations with
     | None | Some EmptyString => []
     | Some expr => [CCheck expr]
     end)%list
  else [].

Definition parse_array_type (inner : string) : FieldType :=
  if decide (inner = "string") then FString
  else if decide (inner = "number") then FNumber
  else if decide (inner = "boolean") then FBoolean
  else FCustom inner.
Definition field_type_of (t : string) : FieldType :=
  if decide (t = "string") then FString
  else if decide (t = "number") then FNumber
  else if decide (t = "boolean") then FBoolean
  else if decide (t = "Date") then FDateTime
  else if decide (t = "File") then FFile
  else if decide (t = "File[]") then FArray FFile
  else if decide (t = "any") then FJson
  else if decide (t = "Block[]") then FBlocks
  else match strip_suffix "[]" t with Some inner => FArray (parse_array_type inner) | None => FCustom t end.
(** What the name suggests, and what the comment says *)
Definition named_attributes (name : string) : list FieldAttribute :=
  ((if bool_decide (name = "id") then [Primary] else []) ++
   (if bool_decide (name = "email") then [Unique] else []) ++
   (if ends_with "_id" name || ends_with "Id" name then [ForeignKey] else []) ++
   (if contains name "created" || contains name "updated" then [TimestampAttr] else []))%list.
Definition annotated (annotations mark : string) (a : FieldAttribute) (attrs : list FieldAttribute) : list FieldAttribute :=
  if contains annotations mark && bool_decide (a ∉ attrs) then (attrs ++ [a])%list else attrs.
Definition parse_field_definition (line annotations : string) : option Field :=
  c ← captures "(\w+)(\?)?:\s*([^;/]+)" line;
  let name := cap 1 c in
  Some (mkField name (field_type_of (trim (cap 3 c))) (bool_decide (is_Some (group 2 c)))
    (annotated annotations "@index" Index (annotated annotations "@unique" Unique (named_attributes name)))).

(** A member is skipped when it is a comment, a stray export or a union. *)
Definition skipped (seg : string) : bool :=
  bool_decide (seg = EmptyString) || String.prefix "/*" seg || String.prefix "*" seg || String.prefix "export " seg || has_char pipe_c seg.
Definition line_fields (line : string) : list Field :=
  let '(code, annotations) := split_two "//" line in
  omap (fun raw => let seg := trim raw in if skipped seg then None else parse_field_definition seg annotations) (split_on semicolon code).
Definition line_constraints (line : string) : list ModelConstraint := parse_model_constraints (split_two "//" line).2.

Fixpoint from_brace (ls : list string) : list string :=
  match ls with
  | [] => []
  | l :: rest => if has_char brace_open l then ls else from_brace rest
  end.
(** Up to the first closing brace; the lines behind it *)
Fixpoint until_brace (ls : list string) : string * list string :=
  match ls with
  | [] => (EmptyString, [])
  | l :: rest =>
      match find_char brace_close l with
      | Some n => (take_bytes n l, rest)
      | None => let '(body, left_) := until_brace rest in (l +:+ eol +:+ body, left_)
      end
  end.
Definition interface_body (ls : list string) : string * list string :=
  match from_brace ls with
  | [] => (EmptyString, [])
  | l :: rest => until_brace ((match find_char brace_open l with Some n => drop_bytes (S n) l | None => l end) :: rest)
  end.
Definition parse_interface (ls : list string) (name : string) : Model * list string :=
  let '(body, left_) := interface_body ls in
  (mkModel name (foldl (fun m f => <[f_name f := f]> m) ∅ (lines body ≫= line_fields)) None None ∅ None ∅
     (lines body ≫= line_constraints) events_default None, left_).

(** The values of an enum up to a line that is its brace *)
Fixpoint enum_values (ls : list string) : list string * list string :=
  match ls with
  | [] => ([], [])
  | l :: rest =>
      let l := trim l in
      if bool_decide (l = "}") then ([], rest)
      else let '(vs, left_) := enum_values rest in
           (match (if bool_decide (l = EmptyString) || String.prefix "//" l then None else cap 1 <$> captures "(\w+)" l) with
            | Some v => v :: vs
            | None => vs
            end, left_)
  end.
Definition parse_enum (line : string) (ls : list string) : Parsed (string * list string * list string) :=
  match cap 1 <$> captures "export\s+enum\s+(\w+)" line with
  | None => error ("Invalid enum declaration: " +:+ line)
  | Some name => let '(vs, left_) := enum_values (drop 1 (from_brace ls)) in mret (name, vs, left_)
  end.
Fixpoint after_semicolon (ls : list string) : list string :=
  match ls with
  | [] => []
  | l :: rest => if ends_with ";" (trim l) then rest else after_semicolon rest
  end.
Definition parse_type_alias (line : string) (ls : list string) : Parsed (string * string * list string) :=
  match cap 1 <$> captures "export\s+type\s+(\w+)\s*=" line with
  | None => error ("Invalid type declaration: " +:+ line)
  | Some name => mret (name, "any", after_semicolon ls)
  end.

Fixpoint collect_types (fuel : nat) (ls : list string) (enums : gmap string (list string)) (aliases : gmap string string)
    : Parsed (gmap string (list string) * gmap string string) :=
  match ls with
  | [] => mret (enums, aliases)
  | l :: rest =>
      match fuel with
      | O => Diverges
      | S fuel =>
          if String.prefix "export enum " (trim l) then
            '(name, values, left_) ← parse_enum (trim l) ls;
            collect_types fuel left_ (<[name := values]> enums) aliases
          else if String.prefix "export type " (trim l) then
            '(name, def, left_) ← parse_type_alias (trim l) ls;
            collect_types fuel left_ enums (<[name := def]> aliases)
          else collect_types fuel rest enums aliases
      end
  end.
Definition collect_type_definitions (content : string) : Parsed (gmap string (list string) * gmap string string) :=
  let ls := lines content in collect_types (length ls) ls ∅ ∅.

Definition extract_interface_name (line : string) : option string := cap 1 <$> captures "export\s+interface\s+(\w+)" line.

(** ** [defineModel] calls ([dsl_parser.rs]) *)

(** The text in the first brackets from [start] on, when they close *)
Definition bracketed (opening closing : Ascii.ascii) (content : string) (start : nat) : option string :=
  n ← find_char opening (drop_bytes start content);
  let after := drop_bytes (start + n + 1) content in
  let '(i, depth) := scan opening closing no_quotes Code 1 0 after in
  match depth with O => Some (take_bytes (i - 1) after) | _ => None end.
Definition named_block (key content : string) : option string :=
  start ← find_str key content;
  match bracketed brace_open brace_close content start with Some EmptyString => None | b => b end.

Definition operator_of (name : string) : option QueryOperator :=
  if decide (name = "equals") then Some QEquals
  else if decide (name = "notEquals") then Some QNotEquals
  else if decide (name = "in") then Some QIn
  else if decide (name = "notIn") then Some QNotIn
  else if decide (name = "greaterThan") then Some QGreaterThan
  else if decide (name = "lessThan") then Some QLessThan
  else if decide (name = "like") then Some QLike
  else None.
Definition parse_query_value (s : string) : QueryValue :=
  if String.prefix "user." s then QUserProperty s
  else if String.prefix "'" s || String.prefix dq_s s then QString (trim_quotes s)
  else if bool_decide (s = "true") || bool_decide (s = "false") then QBoolean (bool_decide (s = "true"))
  else match parse_f64 s with Some x => QNumber x | None => QString s end.
Definition parse_where_condition (content : string) : option AccessRule :=
  c ← captures "access\.where\s*\(\s*['\x22]([^'\x22]+)['\x22]\s*\)\.(\w+)\s*\(\s*([^)]+)\s*\)" content;
  op ← operator_of (cap 2 c);
  Some (RQuery (mkCondition (cap 1 c) op (parse_query_value (trim (cap 3 c))))).
Definition parse_or_condition (content : string) : option AccessRule :=
  c ← captures "access\.or\s*\(([^)]+)\)" content;
  Some (ROr (omap (fun condition => parse_where_condition (trim condition)) (split_on comma_c (cap 1 c)))).
Definition parse_access_rule (content operation : string) : option AccessRule :=
  c ← captures (operation +:+ ":\s*\(\{[^}]*user[^}]*\}\s*:\s*access\.Context<[^>]+>\)\s*=>\s*([^,}]+)") content;
  let rule := trim (cap 1 c) in
  if String.prefix "!!user" rule then Some (RBoolean "!!user")
  else if contains rule "access.or" then parse_or_condition rule
  else if contains rule "access.where" then parse_where_condition rule
  else Some (RBoolean rule).
Definition dsl_access_block (content : string) : option AccessControl :=
  block ← named_block "access:" content;
  Some (mkAccess (parse_access_rule block "create") (parse_access_rule block "read")
                 (parse_access_rule block "update") (parse_access_rule block "delete")).

Definition hook_text (content hook_type : string) : option string :=
  start ← find_str (hook_type +:+ ":") content;
  trim <$> bracketed bracket_open bracket_close content start.
Definition parse_hook_array (content hook_type : string) : option (list Hook) :=
  code ← hook_text content hook_type;
  match ((if contains code "hooks.create" then [mkHook "create" (Some OpCreate) code true] else []) ++
         (if contains code "hooks.read" then [mkHook "read" None code true] else []))%list with
  | [] => None
  | hooks => Some hooks
  end.
Definition parse_field_hook_array (content hook_type : string) : option (list FieldHook) :=
  code ← hook_text content hook_type;
  if contains code "hooks.change('status'" then Some [mkFieldHook "status" code true] else None.
Definition parse_hooks_block (content : string) : option HookDefinitions :=
  block ← named_block "hooks:" content;
  Some (mkHooks (parse_hook_array block "beforeOperation") (parse_hook_array block "afterOperation")
                (parse_field_hook_array block "beforeChange") (parse_hook_array block "afterRead")).

(** The lines from the one with the first brace on to the one where the braces balance *)
Fixpoint balanced_lines (count : Z) (found : bool) (ls : list string) : string :=
  match ls with
  | [] => EmptyString
  | l :: rest =>
      let count := (count + brace_depth l)%Z in
      let found := found || has_char brace_open l in
      (if found then l +:+ eol else EmptyString) +:+
      (if found && bool_decide (count = 0%Z) then EmptyString else balanced_lines count found rest)
  end.
Fixpoint from_call (model_name : string) (ls : list string) : option (list string) :=
  match ls with
  | [] => None
  | l :: rest => if contains (trim l) (model_name +:+ "Model") && contains (trim l) "defineModel" then Some ls
                 else from_call model_name rest
  end.
Definition parse_multiline_define_model (content model_name : string) : option AccessControl * option HookDefinitions :=
  match from_call model_name (lines content) with
  | None => (None, None)
  | Some ls => let body := balanced_lines 0 false ls in (dsl_access_block body, parse_hooks_block body)
  end.
Definition parse_model_definition (content model_name : string) : option AccessControl * option HookDefinitions :=
  match captures ("export\s+const\s+" +:+ model_name +:+ "Model\s*=\s*defineModel\s*\(\s*\{([^}]+)\}\s*\)") content with
  | Some c => (dsl_access_block (cap 1 c), parse_hooks_block (cap 1 c))
  | None => parse_multiline_define_model content model_name
  end.
Definition with_rules (m : Model) (rules : option AccessControl * option HookDefinitions) : Model :=
  mkModel (m_name m) (m_fields m) rules.1 rules.2 (m_validation m) (m_table_name m) (m_relationships m) (m_constraints m)
    (m_events m) (m_ui m).
Definition parse_define_model (content : string) : list Model :=
  (fun c => with_rules (bare_model (cap 1 c) ∅ None) (parse_model_definition content (cap 1 c)))
    <$> captures_iter "export\s+const\s+(\w+)Model\s*=\s*defineModel" content.

(** ** The models *)

Fixpoint interfaces (fuel : nat) (content : string) (ls : list string) : Outcome (list Model) :=
  match ls with
  | [] => mret []
  | l :: rest =>
      match fuel with
      | O => Diverges
      | S fuel =>
          match (if String.prefix "export interface " (trim l) then extract_interface_name (trim l) else None) with
          | Some name =>
              if ends_with "Command" name || ends_with "Input" name then interfaces fuel content rest
              else
                let '(model, left_) := parse_interface ls name in
                models ← interfaces fuel content left_;
                mret (with_rules model (parse_model_definition content name) :: models)
          | None => interfaces fuel content rest
          end
      end
  end.
Definition text_field (name : string) : Field := mkField name FString false [].
Definition enum_model (name : string) (values : list string) : Model :=
  bare_model name
    (foldl (fun m p => <["_enum_value_" +:+ pretty (N.of_nat p.1) := text_field p.2]> m) {["_enum_type" := text_field "_enum_type"]}
       (imap pair values)) None.
Definition no_interfaces : string := "No valid interfaces found in schema".
Definition parse_interfaces (enums : gmap string (list string)) (content : string) : Parsed (list Model) :=
  let ls := lines content in
  models ← lift (interfaces (length ls) content ls);
  match (models ++ ((fun p => enum_model p.1 p.2) <$> hpairs enums))%list with
  | [] => error no_interfaces
  | models => mret models
  end.

(** A field of an enum's type is text. *)
Definition resolve_enum (enums : gmap string (list string)) (f : Field) : Field :=
  match f_type f with
  | FCustom name => if bool_decide (is_Some (enums !! name)) then mkField (f_name f) FString (f_optional f) (f_attributes f) else f
  | _ => f
  end.
Definition resolve_enums (enums : gmap string (list string)) (m : Model) : Model :=
  mkModel (m_name m) (resolve_enum enums <$> m_fields m) (m_access m) (m_hooks m) (m_validation m) (m_table_name m)
    (m_relationships m) (m_constraints m) (m_events m) (m_ui m).
(** The first model of the name takes the rules, or the call's model is added. *)
Fixpoint merge_rules (d : Model) (models : list Model) : list Model :=
  match models with
  | [] => [d]
  | m :: rest => if bool_decide (m_name m = m_name d) then with_rules m (m_access d, m_hooks d) :: rest
                 else m :: merge_rules d rest
  end.
Definition with_metadata (m : Model) (t : ModelMetadata) : Model :=
  mkModel (m_name m) (m_fields m)
    match m_access m with None => mt_access t | a => a end
    (m_hooks m)
    (if decide (mt_validation t = ∅) then m_validation m else mt_validation t)
    match m_table_name m with None => mt_table_name t | n => n end
    (if decide (dom (mt_relationships t) = ∅) then m_relationships m else mt_relationships t)
    (m_constraints m)
    (if events_is_empty (mt_events t) then m_events m else mt_events t)
    match mt_ui t with None => m_ui m | u => u end.
(** Each entry serves the first model of its name. *)
Fixpoint merge_metadata (meta : gmap string ModelMetadata) (models : list Model) : list Model :=
  match models with
  | [] => []
  | m :: rest =>
      match meta !! m_name m with
      | Some t => with_metadata m t :: merge_metadata (base.delete (m_name m) meta) rest
      | None => m :: merge_metadata meta rest
      end
  end.
Definition parse (content : string) : Parsed (list Model) :=
  '(enums, _) ← collect_type_definitions content;
  models ← parse_interfaces enums content;
  let models := foldl (fun ms d => merge_rules d ms) (resolve_enums enums <$> models) (parse_define_model content) in
  meta ← lift (parse_model_metadata content);
  mret (merge_metadata meta models).

(** ** Diagnostics *)

Fixpoint spread_from (skip : nat) (depth : Z) (s : string) : bool :=
  match s with
  | EmptyString => false
  | String a r =>
      let inside := (depth + (if Ascii.eqb a brace_open then 1 else if Ascii.eqb a brace_close then -1 else 0))%Z in
      match skip with
      | S k => spread_from k inside r
      | O => if String.prefix "..." s then bool_decide (depth = 0%Z) || spread_from 2 inside r else spread_from 0 inside r
      end
  end.
(** [...] outside of braces *)
Definition has_toplevel_spread (block : string) : bool := spread_from 0 0 block.

Definition KNOWN_MODEL_KEYS : list string := ["tableName"; "validation"; "access"; "relationships"; "events"; "ui"].
Definition unknown_keys (known : list string) (block : string) : list string := filter (fun k => k ∉ known) (top_level_keys block).

Definition relationship_diagnostics (name rel rdef : string) : list string :=
  let has k := is_match (k +:+ "\s*:\s*['\x22]") rdef in
  ((if has "type" && has "model" then []
    else ["schema.models." +:+ name +:+ ".relationships." +:+ rel +:+ ": missing 'type'/'model' — ignored"]) ++
   ((fun key => "schema.models." +:+ name +:+ ".relationships." +:+ rel +:+ ": unrecognized key '" +:+ key +:+ "' ignored")
      <$> unknown_keys ["type"; "model"; "foreignKey"] rdef))%list.
Definition model_diagnostics (models : gmap string Model) (name block : string) : Outcome (list string) :=
  let own := (fun key => "schema.models." +:+ name +:+ ": unrecognized key '" +:+ key +:+ "' ignored (known: " +:+
                         String.concat ", " KNOWN_MODEL_KEYS +:+ ")") <$> unknown_keys KNOWN_MODEL_KEYS block in
  access ← in_block block "access" [] (fun b => mret
    ((fun key => "schema.models." +:+ name +:+ ".access: unrecognized key '" +:+ key +:+ "' ignored (known: create, read, update, delete)")
       <$> unknown_keys ["create"; "read"; "update"; "delete"] b));
  validation ← in_block block "validation" [] (fun b => mret
    (match models !! name with
     | Some m => (fun key => "schema.models." +:+ name +:+ ".validation: '" +:+ key +:+ "' is not a field of '" +:+ name +:+
                             "' — rules never applied") <$> filter (fun key => m_fields m !! key = None) (top_level_keys b)
     | None => []
     end));
  relationships ← in_block block "relationships" [] (fun b =>
    entries ← top_level_entries b; mret (entries ≫= fun '(rel, rdef) => relationship_diagnostics name rel rdef));
  mret (own ++ access ++ validation ++ relationships)%list.

Definition schema_object (content : string) : option string :=
  m ← captures "schema\s*=\s*\{" content;
  let '(j, depth) := scan brace_open brace_close no_quotes Code 1 (c_end m) (drop_bytes (c_end m) content) in
  match depth with O => slice content (c_end m) (j - 1) | _ => None end.
Definition spread_in_schema : string :=
  "spread expression in `export const schema` cannot be resolved statically — spread content is dropped".
Definition spread_in_models : string :=
  "spread expression in schema.models cannot be resolved statically — declare the model explicitly".
Definition model_block_diagnostics (content : string) (models : gmap string Model) : Outcome (list string) :=
  match schema_object content with
  | None => mret []
  | Some block =>
      let outer := if has_toplevel_spread block then [spread_in_schema] else [] in
      inner ← in_block block "models" [] (fun b =>
        entries ← top_level_entries b;
        ws ← mapM (fun '(name, e) => model_diagnostics models name e) entries;
        mret ((if has_toplevel_spread b then [spread_in_models] else []) ++ mjoin ws)%list);
      mret (outer ++ inner)%list
  end.

(** ** The schema *)

Definition builtin_extension (block : string) : Outcome BuiltinExtension :=
  columns ← in_block block "columns" ∅ (fun b => mret (quoted_pairs "(\w+)\s*:\s*['\x22]([^'\x22]+)['\x22]" b));
  arr ← sub_array block "constraints";
  mret (mkBuiltin columns match (arr : option string) with Some a => parse_string_array a ≫= parse_model_constraints | None => [] end).
Definition parse_builtins (content : string) : Outcome (gmap string BuiltinExtension) :=
  in_block content "builtins" ∅ (fun b =>
    entries ← top_level_entries b;
    exts ← mapM (fun '(table, e) => x ← builtin_extension e; mret (table, x)) entries;
    mret (foldl (fun m '(table, x) =>
            if bool_decide (bx_columns x = ∅) && match bx_constraints x with [] => true | _ => false end then m else <[table := x]> m) ∅ exts)).

(** The names declared in [models], whatever their entries say *)
Definition declared_models (content : string) : Outcome (gset string) :=
  in_block content "models" ∅ (fun b => entries ← top_level_entries b; mret (list_to_set entries.*1)).
Definition looks_like_a_model (m : Model) : bool :=
  bool_decide (is_Some (m_fields m !! "id")) && negb (bool_decide (is_Some (m_fields m !! "_enum_type"))).
Definition dropped (name : string) : string :=
  "interface '" +:+ name +:+ "' looks like a model but is not listed in schema.models — it was dropped".
Definition unmatched (key : string) : string := "schema.models entry '" +:+ key +:+ "' has no matching interface — it was ignored".

Definition parse_schema (content : string) : Parsed Schema :=
  models ← parse content;
  actions ← lift (parse_actions content);
  declared ← lift (declared_models content);
  let schema_models : gmap string Model :=
    foldl (fun map m => if bool_decide (m_name m ∈ declared) then <[m_name m := m]> map else map) ∅ models in
  let undeclared := omap (fun m => if negb (bool_decide (m_name m ∈ declared)) && looks_like_a_model m then Some (dropped (m_name m)) else None) models in
  let missing := unmatched <$> filter (fun key => schema_models !! key = None) (helements declared) in
  diagnostics ← lift (model_block_diagnostics content schema_models);
  builtins ← lift (parse_builtins content);
  mret (mkSchema schema_models actions builtins
          (undeclared ++ missing ++ diagnostics ++ reserved_identifier_warnings schema_models)%list).

(** [parse_typescript_schema]: either language *)
Definition parse_typescript_schema (content : string) : Parsed Schema :=
  if is_builder_dsl content then lift (parse_builder_dsl content) else parse_schema content.

(** [SchemaParser::validate_schema] ([parser.rs]) *)
Definition unknown_type (models : gmap string Model) (name : string) (p : string * Field) : option string :=
  match f_type p.2 with
  | FCustom t => if bool_decide (models !! t = None)
                 then Some ("Field '" +:+ name +:+ "." +:+ p.1 +:+ "' references unknown type '" +:+ t +:+ "'") else None
  | _ => None
  end.
Definition model_error (models : gmap string Model) (p : string * Model) : option string :=
  if bool_decide (dom (m_fields p.2) = ∅) then Some ("Model '" +:+ p.1 +:+ "' has no fields defined")
  else head (omap (unknown_type models p.1) (hpairs (m_fields p.2))).
Definition validate_schema (models : gmap string Model) : unit + string :=
  match omap (model_error models) (hpairs models) with [] => inl tt | e :: _ => inr e end.
Definition parse_file (read : string -> string + string) (file_path : string) : Parsed Schema :=
  match read file_path with
  | inr e => error ("Failed to read schema file '" +:+ file_path +:+ "': " +:+ e)
  | inl content => schema ← parse_schema content; match validate_schema (sc_models schema) with inl _ => mret schema | inr e => error e end
  end.
End Parser.
