(* ===== verification/InterfaceSpec.v ===== *)
(** * What the parser of interface schemas does

    Every text has an outcome; a text whose braces and brackets are nested never makes the
    parser panic; and no model is lost without a word: what the schema's object declares
    and what the interfaces define is either in the schema or named in a warning.  The
    examples run the parser and show where it reads less than is written. *)

From stdpp Require Import pretty.
From S2P Require Import Prelude Json SchemaTypes Scan SchemaDsl SchemaDslSpec InterfaceParser.

#[local] Open Scope string_scope.

(** ** Nested text *)

Definition is_bracket (a : Ascii.ascii) : bool :=
  Ascii.eqb a brace_open || Ascii.eqb a brace_close || Ascii.eqb a bracket_open || Ascii.eqb a bracket_close.
(** A character begins here. *)
Definition starts_char (s : string) : bool :=
  match s with EmptyString => true | String a _ => negb (is_continuation a) end.

Inductive Nested : string -> Prop :=
  | nested_nil : Nested EmptyString
  | nested_char a s : is_bracket a = false -> Nested s -> Nested (String a s)
  | nested_braces b s : starts_char b = true -> Nested b -> Nested s ->
      Nested (String brace_open (b +:+ String brace_close s))
  | nested_brackets b s : starts_char b = true -> Nested b -> Nested s ->
      Nested (String bracket_open (b +:+ String bracket_close s)).

(** The bracket that closes one *)
Inductive pair_of : Ascii.ascii -> Ascii.ascii -> Prop :=
  | pair_braces : pair_of brace_open brace_close
  | pair_brackets : pair_of bracket_open bracket_close.

Lemma app_split a b x y s r :
  x +:+ String a s = y +:+ String b r ->
  (exists t, y = x +:+ String a t /\ s = t +:+ String b r) \/ (x = y /\ a = b /\ s = r) \/
  (exists t, x = y +:+ String b t /\ r = t +:+ String a s).
Proof.
  revert y. induction x as [|c x IH]; intros [|d y]; rewrite ?str_app_nil, ?str_app_cons; intros Heq.
  - injection Heq as -> ->. right. left. by repeat split.
  - injection Heq as -> ->. left. by exists y.
  - injection Heq as -> <-. right. right. by exists x.
  - injection Heq as -> Heq.
    destruct (IH _ Heq) as [(t & -> & ->)|[(-> & -> & ->)|(t & -> & ->)]].
    + left. exists t. by rewrite str_app_cons.
    + right. left. done.
    + right. right. exists t. by rewrite str_app_cons.
Qed.

(** What opens in a nested text closes in it, around a nested text. *)
Lemma nested_opens op cl pre s :
  pair_of op cl -> Nested (pre +:+ String op s) ->
  exists b r, s = b +:+ String cl r /\ Nested b /\ starts_char b = true.
Proof.
  intros Hp Hn. remember (pre +:+ String op s) as text eqn:Ht. revert pre s Ht.
  assert (Hcase : forall o c b r pre s, pair_of o c ->
    String o (b +:+ String c r) = pre +:+ String op s -> Nested b -> starts_char b = true ->
    (forall pre s, b = pre +:+ String op s -> exists b r, s = b +:+ String cl r /\ Nested b /\ starts_char b = true) ->
    (forall pre s, r = pre +:+ String op s -> exists b r, s = b +:+ String cl r /\ Nested b /\ starts_char b = true) ->
    exists b r, s = b +:+ String cl r /\ Nested b /\ starts_char b = true).
  { intros o c b r [|x pre] s Ho Heq Hb Hs IHb IHr; rewrite ?str_app_nil, ?str_app_cons in Heq.
    - injection Heq as -> <-. exists b, r. destruct Hp; inversion Ho; subst; done.
    - injection Heq as -> Heq. apply app_split in Heq as [(t & -> & ->)|[(-> & Hc & ->)|(t & -> & ->)]].
      + by apply (IHr t).
      + destruct Hp; inversion Ho; subst; done.
      + destruct (IHb pre t eq_refl) as (b' & r' & -> & Hb' & Hs'). rewrite str_app_assoc, str_app_cons. eauto. }
  induction Hn as [|a t Ha Hn IH|b r Hs Hb IHb Hr IHr|b r Hs Hb IHb Hr IHr]; intros pre s Ht.
  - by destruct pre.
  - destruct pre as [|x pre]; rewrite ?str_app_nil, ?str_app_cons in Ht.
    + injection Ht as -> ->. by destruct Hp.
    + injection Ht as -> Ht. by apply (IH pre).
  - by apply (Hcase brace_open brace_close b r pre s pair_braces).
  - by apply (Hcase bracket_open bracket_close b r pre s pair_brackets).
Qed.

Lemma balanced_app op cl q b s : Balanced op cl q b -> Balanced op cl q s -> Balanced op cl q (b +:+ s).
Proof.
  intros Hb Hs. induction Hb as [|a t ? ? ? Ht IH|c b' t ? ? ? Hi Ht IH|b' t Hb' IHb Ht IH];
    rewrite ?str_app_nil, ?str_app_cons, ?str_app_assoc, ?str_app_cons; [done|by constructor..].
Qed.
(** Nested text is balanced for either pair. *)
Lemma nested_balanced op cl b : pair_of op cl -> Nested b -> Balanced op cl no_quotes b.
Proof.
  intros Hp Hn.
  induction Hn as [|a t Ha Hn IH|b r Hs Hb IHb Hr IHr|b r Hs Hb IHb Hr IHr]; [constructor| | |].
  - constructor; [| |done..]; intros ->; by destruct Hp.
  - destruct Hp; [by constructor|]. constructor; [done..|]. apply balanced_app; [done|by constructor].
  - destruct Hp; [|by constructor]. constructor; [done..|]. apply balanced_app; [done|by constructor].
Qed.

(** ** Outcomes *)

(** The computation returns what [P] holds of; it panics only where [ok] fails. *)
Definition goes {A} (ok : Prop) (P : A -> Prop) (m : Outcome A) : Prop :=
  match m with Returns a => P a | Panics => ~ ok | Diverges => False end.

Lemma goes_ret {A} ok (P : A -> Prop) a : P a -> goes ok P (mret a).
Proof. done. Qed.
Lemma goes_bind {A B} ok (P : A -> Prop) (Q : B -> Prop) m (k : A -> Outcome B) :
  goes ok P m -> (forall a, P a -> goes ok Q (k a)) -> goes ok Q (m ≫= k).
Proof. intros Hm Hk. by destruct m; [apply Hk| |]. Qed.
Lemma goes_weaken {A} ok (P Q : A -> Prop) m : (forall a, P a -> Q a) -> goes ok P m -> goes ok Q m.
Proof. intros HPQ. destruct m; [apply HPQ|done..]. Qed.
Lemma goes_mapM {A B} ok (P : A -> Prop) (Q : B -> Prop) (f : A -> Outcome B) l :
  Forall P l -> (forall a, P a -> goes ok Q (f a)) -> goes ok (Forall Q) (mapM f l).
Proof.
  intros Hl Hf. induction Hl as [|a l Ha Hl IH]; [constructor|]. cbn.
  eapply goes_bind; [by apply Hf|]. intros b Hb. eapply goes_bind; [exact IH|]. intros bs Hbs. by constructor.
Qed.
Lemma goes_lift {A} ok (P : A -> Prop) (m : Outcome A) :
  goes ok P m -> goes ok (fun r => match r with inl a => P a | inr _ => True end) (lift m).
Proof. by destruct m. Qed.
(** What may also fail with an error *)
Lemma goes_parsed {A B} ok (P : A -> Prop) (Q : B + string -> Prop) (m : Parsed A) (k : A -> Parsed B) :
  goes ok (fun r => match r with inl a => P a | inr _ => True end) m -> (forall e, Q (inr e)) ->
  (forall a, P a -> goes ok Q (k a)) -> goes ok Q (parsed_bind A B k m).
Proof. intros Hm He Hk. destruct m as [[a|e]| |]; [by apply Hk|apply He|done..]. Qed.

(** A block of a nested text *)
Definition block_of (ok : Prop) (o : option string) : Prop := match o with Some b => ok -> Nested b | None => True end.

(** ** What the searches for an opening bracket promise *)

Definition is_key (key : string) : Prop := Forall (fun a => Engine.is_word a = true) (String.list_ascii_of_string key).
(** The patterns of the parser that end in an opening bracket *)
Inductive opens : string -> Ascii.ascii -> Prop :=
  | opens_block key : is_key key -> opens (key +:+ "\s*:\s*\{") brace_open
  | opens_array key : is_key key -> opens (key +:+ "\s*:\s*\[") bracket_open
  | opens_entry : opens "(\w+)\s*:\s*\{" brace_open
  | opens_schema : opens "schema\s*=\s*\{" brace_open.
(** The byte before index [i] *)
Definition ends_with_at (s : string) (i : nat) (a : Ascii.ascii) : Prop :=
  exists pre rest, s = pre +:+ String a rest /\ i = S (String.length pre).

Class OpeningLaws `{Regex} : Prop := {
  captures_opens p a s c : opens p a -> captures p s = Some c -> ends_with_at s (c_end c) a;
  captures_iter_opens p a s c : opens p a -> c ∈ captures_iter p s -> ends_with_at s (c_end c) a
}.

Section Ends.
Context {ho : HashOrder} {rx : Regex} `{!OpeningLaws}.
Variable parse_f64 : string -> option F64.t.

Lemma scan_within op cl d i s : ((scan op cl no_quotes Code d i s).1 <= i + String.length s)%nat.
Proof.
  revert d i. induction s as [|a s IH]; intros d i; destruct d as [|d]; cbn; try lia.
  destruct (Ascii.eqb a op); [|destruct (Ascii.eqb a cl)].
  all: eapply Nat.le_trans; [apply IH|]; lia.
Qed.
Lemma goes_counted (ok : Prop) op cl content start :
  pair_of op cl -> (ok -> Nested content) -> ends_with_at content start op ->
  goes ok (fun p => (ok -> Nested p.1) /\ (start <= p.2 <= String.length content)%nat) (counted op cl content start).
Proof.
  intros Hp Hok (pre & rest & -> & ->). unfold counted.
  pose proof (scan_forward op cl no_quotes Code 1 (S (String.length pre))
    (drop_bytes (S (String.length pre)) (pre +:+ String op rest))) as Hf.
  pose proof (scan_within op cl 1 (S (String.length pre))
    (drop_bytes (S (String.length pre)) (pre +:+ String op rest))) as Hw.
  rewrite drop_bytes_length, str_length_app in Hw. cbn [String.length] in Hw.
  destruct (scan _ _ _ _ _ _ _) as [j d] eqn:Hs. cbn in Hf, Hw.
  assert (Hdrop : drop_bytes (S (String.length pre)) (pre +:+ String op rest) = rest).
  { clear. induction pre as [|a pre IH]; [done|]. rewrite str_app_cons. exact IH. }
  assert (Hin : ok -> exists b, slice (pre +:+ String op rest) (S (String.length pre)) (j - 1) = Some b /\ Nested b).
  { intros Hy. destruct (nested_opens op cl pre rest Hp (Hok Hy)) as (b & r & -> & Hb & Hst).
    exists b. split; [|done]. rewrite Hdrop in Hs.
    rewrite scan_balanced in Hs; [|by destruct Hp..|by apply nested_balanced].
    cbn [scan step] in Hs.
    rewrite (proj2 (Ascii.eqb_neq cl op)), Ascii.eqb_refl in Hs by (by destruct Hp). cbn [pred] in Hs.
    rewrite scan_zero in Hs. injection Hs as <- <-.
    replace (pre +:+ String op (b +:+ String cl r)) with ((pre +:+ String op EmptyString) +:+ b +:+ String cl r)
      by (by rewrite str_app_assoc, str_app_cons, str_app_nil).
    replace (S (String.length pre)) with (String.length (pre +:+ String op EmptyString))
      by (rewrite str_length_app; cbn; lia).
    replace (S (S _) - 1)%nat with (String.length (pre +:+ String op EmptyString) + String.length b)%nat
      by (rewrite str_length_app; cbn; lia).
    apply slice_middle; [|by destruct Hp]. unfold is_char_boundary.
    destruct b as [|x b]; rewrite ?str_app_nil, ?str_app_cons, byte_at_app; cbn in Hst; [by destruct Hp|done]. }
  destruct (slice _ _ _) as [b|].
  - cbn. split; [|rewrite str_length_app; cbn; lia]. intros Hy. destruct (Hin Hy) as (b' & [= ->] & Hb). done.
  - cbn. intros Hy. by destruct (Hin Hy) as (b' & ? & _).
Qed.

Lemma goes_sub_block (ok : Prop) content key :
  is_key key -> (ok -> Nested content) -> goes ok (block_of ok) (sub_block content key).
Proof.
  intros Hk Hok. unfold sub_block. destruct (captures _ _) as [c|] eqn:Hc; [|done].
  eapply goes_bind; [apply goes_counted; [constructor|done|]|intros [b j] [Hb _]; exact Hb].
  eapply captures_opens; [by apply opens_block|done].
Qed.
Lemma goes_sub_array (ok : Prop) content key :
  is_key key -> (ok -> Nested content) -> goes ok (block_of ok) (sub_array content key).
Proof.
  intros Hk Hok. unfold sub_array. destruct (captures _ _) as [c|] eqn:Hc; [|done].
  eapply goes_bind; [apply goes_counted; [constructor|done|]|intros [b j] [Hb _]; exact Hb].
  eapply captures_opens; [by apply opens_array|done].
Qed.
Lemma goes_entries (ok : Prop) block :
  (ok -> Nested block) -> goes ok (Forall (fun p => ok -> Nested p.2)) (top_level_entries block).
Proof.
  intros Hok. unfold top_level_entries.
  apply (goes_mapM ok (fun c => c ∈ captures_iter "(\w+)\s*:\s*\{" block)).
  - apply Forall_forall. intros c Hc. by apply list_elem_of_filter in Hc as [_ Hc].
  - intros c Hc. eapply goes_bind; [apply goes_counted; [constructor|done|]|intros [b j] [Hb _]; exact Hb].
    eapply captures_iter_opens; [apply opens_entry|done].
Qed.

(** Split a computation; blocks keep that they are nested. *)
Ltac keyed := by repeat constructor.
Ltac going := repeat first
  [ progress intros
  | progress cbv zeta
  | progress simplify_eq
  | apply goes_ret; by auto
  | by auto 2 with goes
  | eapply goes_bind; [by auto 2 with goes|]
  | case_match ].
Create HintDb goes discriminated.
#[local] Hint Extern 0 (is_key _) => keyed : goes.
#[local] Hint Resolve goes_sub_block goes_sub_array goes_entries : goes.
#[local] Hint Extern 0 (_ -> Nested _) => assumption : goes.
#[local] Hint Unfold block_of : goes.
Abbreviation fine ok := (goes ok (fun _ => True)).

Lemma goes_condition (ok : Prop) obj : (ok -> Nested obj) -> fine ok (parse_binding_condition parse_f64 obj).
Proof. intros Hok. unfold parse_binding_condition. going. Qed.
#[local] Hint Resolve goes_condition : goes.
Lemma goes_binding (ok : Prop) obj : (ok -> Nested obj) -> fine ok (parse_single_binding parse_f64 obj).
Proof. intros Hok. unfold parse_single_binding. going. Qed.
#[local] Hint Resolve goes_binding : goes.

Lemma byte_at_ends content i a : byte_at content i = Some a -> ends_with_at content (S i) a /\ (i < String.length content)%nat.
Proof.
  revert i. induction content as [|x content IH]; intros [|i]; cbn; [done..| |].
  - intros [= ->]. split; [by exists EmptyString, content|lia].
  - intros Hb. apply IH in Hb as [(pre & rest & -> & [= Hi]) Hl]. split; [|lia].
    exists (String x pre), rest. rewrite str_app_cons. cbn. by rewrite Hi.
Qed.
Lemma goes_bindings (ok : Prop) content fuel i :
  (ok -> Nested content) -> (i <= String.length content < fuel + i)%nat -> fine ok (event_bindings parse_f64 fuel i content).
Proof.
  intros Hok. revert i. induction fuel as [|fuel IH]; intros i Hf; cbn [event_bindings]; [lia|].
  destruct (byte_at content i) as [a|] eqn:Hb; [|done]. apply byte_at_ends in Hb as [Hb Hl].
  destruct (Ascii.eqb_spec a brace_open) as [->|]; [|apply IH; lia].
  eapply goes_bind; [by apply (goes_counted ok brace_open brace_close); [constructor|..]|].
  intros [obj j] [Hobj Hj]. cbn in Hj. eapply goes_bind; [by apply goes_binding|]. intros b _.
  eapply goes_bind; [apply IH; lia|done].
Qed.
Lemma goes_events (ok : Prop) content : (ok -> Nested content) -> fine ok (parse_event_bindings parse_f64 content).
Proof. intros Hok. apply goes_bindings; [done|lia]. Qed.
#[local] Hint Resolve goes_events : goes.
Lemma goes_action_input (ok : Prop) b : (ok -> Nested b) -> fine ok (parse_action_input b).
Proof. intros Hok. unfold parse_action_input. going. Qed.
#[local] Hint Resolve goes_action_input : goes.
Lemma goes_action (ok : Prop) name b : (ok -> Nested b) -> fine ok (parse_single_action name b).
Proof. intros Hok. unfold parse_single_action. going. Qed.
#[local] Hint Resolve goes_action : goes.

(** Entries one by one *)
Lemma goes_each {A} (ok : Prop) (f : string * string -> Outcome A) entries :
  Forall (fun p => ok -> Nested p.2) entries -> (forall n b, (ok -> Nested b) -> fine ok (f (n, b))) -> fine ok (mapM f entries).
Proof.
  intros He Hf. eapply goes_weaken; [done|]. eapply (goes_mapM ok _ (fun _ => True)); [exact He|]. intros [n b]. apply Hf.
Qed.
Lemma goes_in_block {A} (ok : Prop) content key (none : A) f :
  is_key key -> (ok -> Nested content) -> (forall b, (ok -> Nested b) -> fine ok (f b)) ->
  fine ok (in_block content key none f).
Proof.
  intros Hk Hok Hf. unfold in_block. eapply goes_bind; [by apply goes_sub_block|]. intros [b|] Hb; [by apply Hf|done].
Qed.
Ltac going_blocks := repeat first
  [ progress going
  | eapply goes_bind; [apply goes_in_block; [keyed|assumption|]|]
  | apply goes_in_block; [keyed|assumption|]
  | eapply goes_bind; [by apply goes_each; [eassumption|going]|]
  | done ].

Lemma goes_actions (ok : Prop) content : (ok -> Nested content) -> fine ok (parse_actions content).
Proof. intros Hok. unfold parse_actions. going_blocks. Qed.
Lemma goes_relationships (ok : Prop) b : (ok -> Nested b) -> fine ok (metadata_relationships b).
Proof. intros Hok. unfold metadata_relationships. going. Qed.
Lemma goes_bindings_of (ok : Prop) b key : is_key key -> (ok -> Nested b) -> fine ok (bindings_of parse_f64 b key).
Proof. intros Hk Hok. unfold bindings_of. going. Qed.
#[local] Hint Resolve goes_relationships goes_bindings_of : goes.
Lemma goes_metadata_events (ok : Prop) b : (ok -> Nested b) -> fine ok (metadata_events parse_f64 b).
Proof. intros Hok. unfold metadata_events. going. Qed.
Lemma goes_ui (ok : Prop) b : (ok -> Nested b) -> fine ok (metadata_ui b).
Proof. intros Hok. unfold metadata_ui. going. Qed.
#[local] Hint Resolve goes_metadata_events goes_ui : goes.
Lemma goes_model_metadata (ok : Prop) b : (ok -> Nested b) -> fine ok (model_metadata parse_f64 b).
Proof. intros Hok. unfold model_metadata. going_blocks. Qed.
#[local] Hint Resolve goes_model_metadata : goes.
Lemma goes_metadata (ok : Prop) content : (ok -> Nested content) -> fine ok (parse_model_metadata parse_f64 content).
Proof. intros Hok. unfold parse_model_metadata. going_blocks. Qed.
Lemma goes_extension (ok : Prop) b : (ok -> Nested b) -> fine ok (builtin_extension b).
Proof. intros Hok. unfold builtin_extension. going_blocks. Qed.
#[local] Hint Resolve goes_extension : goes.
Lemma goes_builtins (ok : Prop) content : (ok -> Nested content) -> fine ok (parse_builtins content).
Proof. intros Hok. unfold parse_builtins. going_blocks. Qed.
Lemma goes_declared (ok : Prop) content : (ok -> Nested content) -> fine ok (declared_models content).
Proof. intros Hok. unfold declared_models. going_blocks. Qed.
Lemma goes_model_diagnostics (ok : Prop) models name b : (ok -> Nested b) -> fine ok (model_diagnostics models name b).
Proof. intros Hok. unfold model_diagnostics. going_blocks. Qed.
Lemma goes_diagnostics (ok : Prop) content models : (ok -> Nested content) -> fine ok (model_block_diagnostics content models).
Proof.
  intros Hok. unfold model_block_diagnostics. destruct (schema_object content) as [b|] eqn:Hs; [|done].
  assert (Hb : ok -> Nested b).
  { unfold schema_object in Hs. destruct (captures _ _) as [c|] eqn:Hc; [|done]. cbn in Hs. intros Hy.
    pose proof (goes_counted ok brace_open brace_close content (c_end c) pair_braces Hok
      (captures_opens _ _ _ _ opens_schema Hc)) as Hg. unfold counted in Hg.
    destruct (scan _ _ _ _ _ _ _) as [j [|d]]; [|done]. rewrite Hs in Hg. by apply Hg. }
  eapply goes_bind; [|done]. apply (goes_in_block ok); [keyed|done|]. intros m Hm.
  eapply goes_bind; [by apply goes_entries|]. intros es He.
  eapply goes_bind; [apply goes_each; [exact He|]|done]. intros n e He'. by apply goes_model_diagnostics.
Qed.

(** ** The loops over lines end *)

Lemma suffix_tail {A} (x : A) l k : x :: l `suffix_of` k -> l `suffix_of` k.
Proof. intros [p ->]. exists (p ++ [x])%list. by rewrite <-(assoc_L _). Qed.
Lemma suffix_below {A} (x y : A) l k : x :: l `suffix_of` y :: k -> l `suffix_of` k.
Proof. intros [[|a p] [= Heq]]; subst; [done|]. apply (suffix_tail x). by exists p. Qed.

Lemma from_brace_suffix ls : from_brace ls `suffix_of` ls.
Proof. induction ls as [|l ls IH]; cbn; [done|]. case_match; [done|by apply suffix_cons_r]. Qed.
Lemma until_brace_suffix ls : (until_brace ls).2 `suffix_of` tail ls.
Proof.
  induction ls as [|l ls IH]; cbn; [done|]. case_match; cbn; [done|].
  destruct (until_brace ls) as [b left_]. cbn in *. destruct ls as [|l' ls]; [done|by apply suffix_cons_r].
Qed.
(** What is left when an interface is read lies behind its first line. *)
Lemma interface_rest l ls name : (parse_interface (l :: ls) name).2 `suffix_of` ls.
Proof.
  assert (Hb : (interface_body (l :: ls)).2 `suffix_of` ls).
  { unfold interface_body. pose proof (from_brace_suffix (l :: ls)) as Hf.
    destruct (from_brace (l :: ls)) as [|l' ls']; [apply suffix_nil|].
    etransitivity; [apply until_brace_suffix|]. by apply suffix_below in Hf. }
  unfold parse_interface. by destruct (interface_body _).
Qed.
Lemma enum_values_suffix ls : (enum_values ls).2 `suffix_of` ls.
Proof.
  induction ls as [|l ls IH]; cbn; [done|]. case_match; cbn; [by apply suffix_cons_r|].
  destruct (enum_values ls) as [vs left_]. cbn in *. by apply suffix_cons_r.
Qed.
Lemma enum_rest t l ls name values left_ :
  parse_enum t (l :: ls) = Returns (inl (name, values, left_)) ->
  left_ `suffix_of` ls /\ cap 1 <$> captures "export\s+enum\s+(\w+)" t = Some name.
Proof.
  unfold parse_enum. destruct (cap 1 <$> _) as [n|]; [|done].
  pose proof (enum_values_suffix (drop 1 (from_brace (l :: ls)))) as Hv. destruct (enum_values _) as [vs r].
  intros [= <- <- <-]. split; [|done]. etransitivity; [exact Hv|].
  pose proof (from_brace_suffix (l :: ls)) as Hf. destruct (from_brace (l :: ls)) as [|l' ls']; [apply suffix_nil|].
  by apply suffix_below in Hf.
Qed.
Lemma after_semicolon_suffix ls : after_semicolon ls `suffix_of` tail ls.
Proof.
  induction ls as [|l ls IH]; cbn; [done|]. case_match; [done|].
  etransitivity; [exact IH|]. destruct ls; [done|by apply suffix_cons_r].
Qed.
Lemma goes_interfaces ok fuel content ls : (length ls <= fuel)%nat -> fine ok (interfaces parse_f64 fuel content ls).
Proof.
  revert ls. induction fuel as [|fuel IH]; intros [|l ls] Hl; cbn [interfaces]; cbn in Hl; [done|lia|done|].
  destruct (if String.prefix _ _ then _ else _) as [name|]; [|apply IH; lia].
  destruct (_ || _); [apply IH; lia|]. pose proof (suffix_length _ _ (interface_rest l ls name)) as Hs.
  destruct (parse_interface (l :: ls) name) as [m left_]. eapply goes_bind; [apply IH; cbn in Hs; lia|done].
Qed.

Lemma goes_types ok fuel ls enums aliases : (length ls <= fuel)%nat -> fine ok (collect_types fuel ls enums aliases).
Proof.
  revert ls enums aliases. induction fuel as [|fuel IH]; intros [|l ls] enums aliases Hl; cbn [collect_types]; cbn in Hl;
    [done|lia|done|].
  case_match; [|case_match; [|apply IH; lia]].
  - destruct (parse_enum _ _) as [[[[name values] left_]|e]| |] eqn:He; [|done|unfold parse_enum in He; repeat case_match; done..].
    apply enum_rest in He as [He _]. apply suffix_length in He. cbn. apply IH. lia.
  - unfold parse_type_alias. case_match; [|done]. cbn. apply IH.
    pose proof (suffix_length _ _ (after_semicolon_suffix (l :: ls))) as Hs. cbn in *. lia.
Qed.

Lemma goes_parse (ok : Prop) content : (ok -> Nested content) -> fine ok (parse parse_f64 content).
Proof.
  intros Hok. unfold parse.
  apply (goes_parsed ok (fun _ => True)); [|done|intros [enums aliases] _].
  { eapply goes_weaken; [|apply (goes_types ok (length (lines content))); lia]. by intros []. }
  apply (goes_parsed ok (fun _ => True)); [|done|intros models _].
  { unfold parse_interfaces. apply (goes_parsed ok (fun _ => True)); [apply goes_lift, goes_interfaces; lia|done|].
    intros ms _. by case_match. }
  apply (goes_parsed ok (fun _ => True)); [by apply goes_lift, goes_metadata|done..].
Qed.

Lemma fine_returns {A} (ok : Prop) (m : Outcome A) : fine ok m -> ends m /\ (ok -> exists a, m = Returns a).
Proof. destruct m as [a| |]; cbn; [|done..]. intros _. split; [done|]. by exists a. Qed.

(** Parsing ends on every text, and a text whose braces and brackets are nested never
    makes the parser panic: it returns a schema or an error. *)
Theorem interface_parse_ends content :
  ends (parse_schema parse_f64 content) /\
  (Nested content -> exists r, parse_schema parse_f64 content = Returns r).
Proof.
  apply (fine_returns (Nested content)). unfold parse_schema.
  assert (Hok : Nested content -> Nested content) by done.
  apply (goes_parsed _ (fun _ => True)); [|done|intros models _].
  { eapply goes_weaken; [|by apply goes_parse]. by intros []. }
  repeat (apply (goes_parsed _ (fun _ => True)); [apply goes_lift; auto using goes_actions, goes_declared, goes_diagnostics, goes_builtins|done|intros ? _]).
  done.
Qed.
End Ends.

(** ** Which models there are *)

Section Models.
Context {ho : HashOrder} {rx : Regex}.
Variable parse_f64 : string -> option F64.t.

(** The text introduces the name: an interface, an enum or a [defineModel] call. *)
Definition introduces (content n : string) : Prop :=
  (exists l, l ∈ lines content /\ String.prefix "export interface " (trim l) = true /\ extract_interface_name (trim l) = Some n) \/
  (exists l, l ∈ lines content /\ String.prefix "export enum " (trim l) = true /\
     cap 1 <$> captures "export\s+enum\s+(\w+)" (trim l) = Some n) \/
  (exists c, c ∈ captures_iter "export\s+const\s+(\w+)Model\s*=\s*defineModel" content /\ cap 1 c = n).

Lemma interfaces_named fuel content ls ms m :
  interfaces parse_f64 fuel content ls = Returns ms -> m ∈ ms ->
  exists l, l ∈ ls /\ String.prefix "export interface " (trim l) = true /\ extract_interface_name (trim l) = Some (m_name m).
Proof.
  revert ls ms. induction fuel as [|fuel IH]; intros [|l ls] ms; cbn [interfaces]; try done.
  1, 2: intros [= <-] Hm; by apply not_elem_of_nil in Hm.
  assert (Hskip : interfaces parse_f64 fuel content ls = Returns ms -> m ∈ ms -> exists l', l' ∈ l :: ls /\
    String.prefix "export interface " (trim l') = true /\ extract_interface_name (trim l') = Some (m_name m)).
  { intros Hms Hm. destruct (IH _ _ Hms Hm) as (l' & Hl' & Hn). exists l'. split; [by right|done]. }
  destruct (String.prefix _ _) eqn:Hp; [|exact Hskip].
  destruct (extract_interface_name _) as [name|] eqn:Hn; [|exact Hskip].
  destruct (_ || _); [exact Hskip|]. clear Hskip.
  pose proof (interface_rest l ls name) as Hs. unfold parse_interface in *. destruct (interface_body _) as [body left_].
  intros Hms Hm. apply bind_returns in Hms as (ms' & Hms' & [= <-]). apply elem_of_cons in Hm as [->|Hm].
  - exists l. split; [left|]. by cbn.
  - destruct (IH _ _ Hms' Hm) as (l' & Hl' & Hn'). exists l'. split; [|done]. right.
    cbn in Hs. destruct Hs as [pre ->]. apply elem_of_app. by right.
Qed.

Lemma enums_named fuel ls enums aliases enums' aliases' n :
  collect_types fuel ls enums aliases = Returns (inl (enums', aliases')) -> is_Some (enums' !! n) ->
  is_Some (enums !! n) \/ exists l, l ∈ ls /\ String.prefix "export enum " (trim l) = true /\
    cap 1 <$> captures "export\s+enum\s+(\w+)" (trim l) = Some n.
Proof.
  revert ls enums aliases. induction fuel as [|fuel IH]; intros [|l ls] enums aliases; cbn [collect_types]; try done.
  1, 2: intros [= <- <-]; by left.
  assert (Hbehind : forall rest en al, rest `suffix_of` ls ->
    collect_types fuel rest en al = Returns (inl (enums', aliases')) -> is_Some (enums' !! n) ->
    is_Some (en !! n) \/ exists l', l' ∈ l :: ls /\ String.prefix "export enum " (trim l') = true /\
      cap 1 <$> captures "export\s+enum\s+(\w+)" (trim l') = Some n).
  { intros rest en al [pre ->] Hr Hn. destruct (IH _ _ _ Hr Hn) as [?|(l' & Hl' & H')]; [by left|right].
    exists l'. split; [|done]. right. apply elem_of_app. by right. }
  destruct (String.prefix "export enum " (trim l)) eqn:Hp; [|destruct (String.prefix "export type " (trim l))].
  - destruct (parse_enum _ _) as [[[[name values] left_]|e]| |] eqn:He; try done.
    apply enum_rest in He as [Hs Hname]. intros Hr Hn.
    destruct (Hbehind _ _ _ Hs Hr Hn) as [Hl|?]; [|by right].
    destruct (decide (name = n)) as [->|Hne]; [|rewrite lookup_insert_ne in Hl by done; by left].
    right. exists l. split; [left|done].
  - unfold parse_type_alias. destruct (cap 1 <$> _); [|done]. cbn. apply Hbehind.
    apply (after_semicolon_suffix (l :: ls)).
  - by apply Hbehind.
Qed.

Lemma merged_rules_named d ms m : m ∈ merge_rules d ms -> m_name m = m_name d \/ m_name m ∈ m_name <$> ms.
Proof.
  induction ms as [|m' ms IH]; cbn [merge_rules fmap list_fmap].
  - rewrite list_elem_of_singleton. intros ->. by left.
  - case_bool_decide; rewrite !elem_of_cons; [intros [->|Hm]|intros [->|Hm]].
    + right. by left.
    + right. right. by apply list_elem_of_fmap_2.
    + right. by left.
    + destruct (IH Hm); [by left|right; by right].
Qed.
Lemma merged_calls_named ds ms m :
  m ∈ foldl (fun ms d => merge_rules d ms) ms ds -> m_name m ∈ m_name <$> ds \/ m_name m ∈ m_name <$> ms.
Proof.
  revert ms. induction ds as [|d ds IH]; intros ms Hm; [right; by apply list_elem_of_fmap_2|]. cbn in *.
  rewrite elem_of_cons. destruct (IH _ Hm) as [?|Hn]; [by left; right|].
  apply list_elem_of_fmap in Hn as (m' & Hn & Hm'). rewrite Hn. destruct (merged_rules_named _ _ _ Hm') as [->|?]; auto.
Qed.
Lemma merged_metadata_names meta ms : m_name <$> merge_metadata meta ms = m_name <$> ms.
Proof.
  revert meta. induction ms as [|m ms IH]; intros meta; [done|]. cbn.
  destruct (meta !! m_name m); cbn; by rewrite IH.
Qed.

(** A model is introduced by the text. *)
Lemma parsed_named content ms m :
  parse parse_f64 content = Returns (inl ms) -> m ∈ ms -> introduces content (m_name m).
Proof.
  intros Hp Hm. unfold parse in Hp.
  destruct (collect_type_definitions content) as [[[enums aliases]|e]| |] eqn:Ht; try done. cbn in Hp.
  unfold parse_interfaces in Hp.
  destruct (interfaces _ _ _ _) as [is_| |] eqn:Hi; try done. cbn in Hp.
  destruct (is_ ++ _)%list as [|i0 rest] eqn:Happ; [done|]. cbn in Hp.
  destruct (parse_model_metadata _ _) as [meta| |]; try done. cbn in Hp. injection Hp as <-.
  apply (list_elem_of_fmap_2 m_name) in Hm. rewrite merged_metadata_names in Hm.
  apply list_elem_of_fmap in Hm as (m' & -> & Hm'). apply merged_calls_named in Hm' as [Hd|Hn].
  - right. right. unfold parse_define_model in Hd. rewrite <-list_fmap_compose in Hd.
    apply list_elem_of_fmap in Hd as (c & Hc & Hin). exists c. split; [done|]. by rewrite Hc.
  - assert (Hn' : m_name m' ∈ m_name <$> (is_ ++ ((fun p => enum_model p.1 p.2) <$> hpairs enums))%list).
    { rewrite Happ. clear -Hn. apply list_elem_of_fmap in Hn as (x & -> & Hx).
      apply (list_elem_of_fmap (resolve_enums enums) (i0 :: rest)) in Hx as (y & -> & Hy). by apply (list_elem_of_fmap_2 m_name) in Hy. }
    rewrite fmap_app in Hn'. apply elem_of_app in Hn' as [Hn'|Hn'].
    + apply list_elem_of_fmap in Hn' as (x & -> & Hx). left. by eapply interfaces_named.
    + apply list_elem_of_fmap in Hn' as (x & -> & Hx). apply list_elem_of_fmap in Hx as ([n vs] & -> & Hx).
      apply elem_of_hpairs in Hx. cbn. right. left.
      destruct (enums_named _ _ _ _ _ _ n Ht) as [Hnone|?]; [by eexists| |done].
      rewrite lookup_empty in Hnone. by destruct Hnone.
Qed.

(** The declared models of a list, the last of a name *)
Definition declared_only (declared : gset string) : gmap string Model -> list Model -> gmap string Model :=
  foldl (fun map m => if bool_decide (m_name m ∈ declared) then <[m_name m := m]> map else map).
Lemma declared_stays declared map models n : is_Some (map !! n) -> is_Some (declared_only declared map models !! n).
Proof.
  revert map. induction models as [|m models IH]; intros map Hn; [done|]. cbn. apply IH.
  case_bool_decide; [|done]. apply lookup_insert_is_Some'. by right.
Qed.
Lemma declared_kept declared map models m :
  m ∈ models -> m_name m ∈ declared -> is_Some (declared_only declared map models !! m_name m).
Proof.
  intros Hm Hd. revert map. induction models as [|m' models IH]; intros map; [by apply not_elem_of_nil in Hm|].
  apply elem_of_cons in Hm as [<-|Hm]; [|by apply IH]. cbn. apply declared_stays.
  rewrite bool_decide_eq_true_2, lookup_insert_eq by done. by eexists.
Qed.
Lemma declared_from declared map models n m :
  declared_only declared map models !! n = Some m ->
  map !! n = Some m \/ (m ∈ models /\ m_name m = n /\ n ∈ declared).
Proof.
  revert map. induction models as [|m' models IH]; intros map Hn; [by left|]. cbn in Hn.
  apply IH in Hn as [Hn|(Hm & Hname & Hd)]; [|right; split; [by right|done]].
  case_bool_decide; [|by left]. apply lookup_insert_Some in Hn as [[Hname <-]|[_ Hn]]; [right|by left].
  split; [left|]. by subst.
Qed.

(** C29: No model is lost silently.  Every model of the schema is declared in its [models] and
    introduced by the text, under its own name.  A declared name is a model of the schema or
    a warning names it; a parsed interface that looks like a model is in the schema or a
    warning says that it was dropped. *)
Theorem models_accounted content s :
  parse_schema parse_f64 content = Returns (inl s) ->
  exists models declared,
    parse parse_f64 content = Returns (inl models) /\ declared_models content = Returns declared /\
    (forall n m, sc_models s !! n = Some m ->
       n ∈ declared /\ m ∈ models /\ m_name m = n /\ introduces content n) /\
    (forall n, n ∈ declared -> is_Some (sc_models s !! n) \/ unmatched n ∈ sc_warnings s) /\
    (forall m, m ∈ models -> m_name m ∈ declared -> is_Some (sc_models s !! m_name m)) /\
    (forall m, m ∈ models -> looks_like_a_model m = true ->
       is_Some (sc_models s !! m_name m) \/ dropped (m_name m) ∈ sc_warnings s).
Proof.
  intros Hp. unfold parse_schema in Hp.
  destruct (parse parse_f64 content) as [[models|e]| |] eqn:Hm; try done. cbn in Hp.
  destruct (parse_actions content) as [actions| |]; try done. cbn in Hp.
  destruct (declared_models content) as [declared| |]; try done. cbn in Hp.
  destruct (model_block_diagnostics _ _) as [diagnostics| |]; try done. cbn in Hp.
  destruct (parse_builtins content) as [builtins| |]; try done. cbn in Hp. injection Hp as <-. cbn.
  exists models, declared. split; [done|]. split; [done|].
  assert (Hin : forall m, m ∈ models -> m_name m ∈ declared -> is_Some (declared_only declared ∅ models !! m_name m)).
  { intros m Hmem Hd. by apply declared_kept. }
  split_and!.
  - intros n m Hn. apply declared_from in Hn as [Hn|(Hmem & <- & Hd)]; [done|].
    split; [done|]. split; [done|]. split; [done|]. by eapply parsed_named.
  - intros n Hd. destruct (declared_only declared ∅ models !! n) as [m|] eqn:Hn; [left; by exists m|right].
    rewrite !elem_of_app. right. left. apply list_elem_of_fmap. exists n. split; [done|].
    apply list_elem_of_filter. split; [done|]. by apply elem_of_helements.
  - exact Hin.
  - intros m Hmem Hl. destruct (decide (m_name m ∈ declared)) as [Hd|Hd]; [left; by apply Hin|right].
    rewrite !elem_of_app. left. apply list_elem_of_omap. exists m. split; [done|].
    by rewrite (bool_decide_eq_false_2 _ Hd), Hl.
Qed.
End Models.

(** ** Examples *)

(** Nesting decided with the closing brackets that are open *)
Fixpoint nested_text (open : list Ascii.ascii) (s : string) : bool :=
  match s with
  | EmptyString => match open with [] => true | _ => false end
  | String a r =>
      if Ascii.eqb a brace_open then starts_char r && nested_text (brace_close :: open) r
      else if Ascii.eqb a bracket_open then starts_char r && nested_text (bracket_close :: open) r
      else if is_bracket a then match open with c :: open => Ascii.eqb a c && nested_text open r | [] => false end
      else nested_text open r
  end.
Fixpoint completes (open : list Ascii.ascii) (s : string) : Prop :=
  match open with
  | [] => Nested s
  | c :: open => exists b r, s = b +:+ String c r /\ Nested b /\ completes open r
  end.
Lemma completes_before (t : string -> string) open s :
  (forall b x, t (b +:+ x) = t b +:+ x) -> (forall b, Nested b -> Nested (t b)) -> completes open s -> completes open (t s).
Proof.
  intros Happ Ht. destruct open as [|c open]; [apply Ht|]. intros (b & r & -> & Hb & Hr).
  exists (t b), r. split; [by rewrite Happ|]. split; [by apply Ht|done].
Qed.
Lemma completes_block op cl b r open :
  pair_of op cl -> starts_char b = true -> Nested b -> completes open r ->
  completes open (String op (b +:+ String cl r)).
Proof.
  intros Hp Hs Hb. apply (completes_before (fun r => String op (b +:+ String cl r))).
  - intros b' x. by rewrite str_app_cons, str_app_assoc, str_app_cons.
  - intros b' Hb'. destruct Hp; by constructor.
Qed.
Lemma nested_text_sound open s : nested_text open s = true -> completes open s.
Proof.
  revert open. induction s as [|a s IH]; intros open; cbn [nested_text].
  { destruct open; [constructor|done]. }
  assert (Hblock : forall op cl, pair_of op cl -> starts_char s && nested_text (cl :: open) s = true -> completes open (String op s)).
  { intros op cl Hp [Hs Hn]%andb_true_iff. apply IH in Hn as (b & r & -> & Hb & Hr). apply completes_block; [done| |done..].
    by destruct b. }
  destruct (Ascii.eqb_spec a brace_open) as [->|]; [apply Hblock; constructor|].
  destruct (Ascii.eqb_spec a bracket_open) as [->|]; [apply Hblock; constructor|].
  destruct (is_bracket a) eqn:Ha; [destruct open as [|c open]; [done|]|].
  - intros [Hc Hn]%andb_true_iff. apply Ascii.eqb_eq in Hc as ->. exists EmptyString, s.
    split; [done|]. split; [constructor|by apply IH].
  - intros Hn. apply (completes_before (String a)); [done| |by apply IH]. intros b Hb. by constructor.
Qed.

Module InterfaceExamples.
#[local] Existing Instance enum_order.
Definition no_number (_ : string) : option F64.t := None.
Definition text (l : list string) : string := String.concat eol l.

(** The matcher, where a pattern that ends in a bracket must have found one *)
Definition found (p s : string) (c : Captures) : bool :=
  let before := byte_at s (pred (c_end c)) in
  (1 <=? c_end c)%nat &&
  (negb (ends_with "\{" p) || bool_decide (before = Some brace_open)) &&
  (negb (ends_with "\[" p) || bool_decide (before = Some bracket_open)).
Definition strict : Regex := {|
  captures_at := fun p s k => c ← captures_at (Regex := Engine.engine) p s k; if found p s c then Some c else None;
  captures_iter := fun p s => filter (fun c => found p s c = true) (captures_iter (Regex := Engine.engine) p s)
|}.
#[local] Existing Instance strict.

Lemma opens_suffix p a :
  opens p a -> ends_with "\{" p = true /\ a = brace_open \/ ends_with "\[" p = true /\ a = bracket_open.
Proof.
  intros [key _|key _| |]; [left|right|left; by vm_compute..]; split; try done.
  - apply (eq_trans (f_equal (ends_with _) (eq_sym (str_app_assoc key "\s*:\s*" "\{"))) (ends_with_app _ _)).
  - apply (eq_trans (f_equal (ends_with _) (eq_sym (str_app_assoc key "\s*:\s*" "\["))) (ends_with_app _ _)).
Qed.
Lemma found_opens p a s c : opens p a -> found p s c = true -> ends_with_at s (c_end c) a.
Proof.
  intros Hp. unfold found. rewrite !andb_true_iff, !orb_true_iff, !negb_true_iff, !bool_decide_eq_true, Nat.leb_le.
  intros [[Hl Hb] Ha].
  assert (Hat : byte_at s (pred (c_end c)) = Some a).
  { destruct (opens_suffix p a Hp) as [[He ->]|[He ->]]; [destruct Hb|destruct Ha]; congruence. }
  apply byte_at_ends in Hat as [Hat _]. by replace (S (pred (c_end c))) with (c_end c) in Hat by lia.
Qed.
#[local] Instance strict_laws : OpeningLaws.
Proof.
  split; intros p a s c Hp.
  - unfold captures. cbn. intros (c' & _ & Hc)%bind_Some. destruct (found p s c') eqn:Hf; [|done]. injection Hc as <-.
    by eapply found_opens.
  - cbn. intros [Hf _]%list_elem_of_filter. by eapply found_opens.
Qed.

Definition ts (l : list string) : Parsed Schema := parse_schema no_number (text l).
(** The fields of a model with their types, and the warnings *)
Definition fields_of (n : string) (l : list string) : option (list (string * FieldType)) :=
  match ts l with
  | Returns (inl s) => (fun m => (fun p => (p.1, f_type p.2)) <$> map_to_list (m_fields m)) <$> sc_models s !! n
  | _ => None
  end.
Definition warnings_of (l : list string) : option (list string) :=
  match ts l with Returns (inl s) => Some (sc_warnings s) | _ => None end.

Definition crm : list string :=
  ["export enum Stage {"; "  Open = 'open',"; "  Won,"; "}";
   "export interface Contact {"; "  id: string;"; "  stage: Stage;"; "  nick?: string; // @unique"; "  tags: string[]"; "}";
   "export interface Note {"; "  id: string;"; "}";
   "export const schema = {"; "  models: { Contact: { tableName: 'contacts', access: { read: 'public', create: 'sales|manager' } },";
   "            Deal: { tableName: 'deals' } }"; "};"].

Example crm_nested : nested_text [] (text crm) = true.
Proof. vm_compute. reflexivity. Qed.
Example crm_fields :
  fields_of "Contact" crm = Some [("stage", FString); ("id", FString); ("nick", FString); ("tags", FArray FString)].
Proof. vm_compute. reflexivity. Qed.
Example crm_warnings : warnings_of crm = Some [dropped "Note"; unmatched "Deal"].
Proof. vm_compute. reflexivity. Qed.

(** A text that ends where a block opens makes the parser panic. *)
Example open_end_panics : ts ["export interface A { id: string }"; "export const schema = { models: {"] = Panics.
Proof. vm_compute. reflexivity. Qed.
(** An enum on one line takes the lines behind it, the interface among them. *)
Example enum_on_a_line :
  fields_of "A" ["export enum E { X, Y }"; "export interface A {"; "id: string"; "}"; "schema = { models: { A: { tableName: 'a' } } }"] =
  Some [("id", FString)] /\
  (match collect_type_definitions (text ["export enum E { X, Y }"; "export interface A {"; "id: string"; "}"]) with
   | Returns (inl (enums, _)) => enums !! "E" | _ => None end) = Some ["export"; "id"].
Proof. split; vm_compute; reflexivity. Qed.
(** A member of union type is lost without a warning, and what follows a nested object. *)
Example union_lost :
  fields_of "A" ["export interface A {"; "id: string"; "state: 'on' | 'off'"; "}"; "schema = { models: { A: { tableName: 'a' } } }"] =
  Some [("id", FString)].
Proof. vm_compute. reflexivity. Qed.
Example nested_object_cuts :
  fields_of "A" ["export interface A {"; "id: string"; "place: { x: number }"; "name: string"; "}";
                 "schema = { models: { A: { tableName: 'a' } } }"] =
  Some [("id", FString); ("place", FCustom "{ x: number")].
Proof. vm_compute. reflexivity. Qed.

Definition access_of (n : string) (l : list string) : option (option AccessControl) :=
  match ts l with Returns (inl s) => m_access <$> sc_models s !! n | _ => None end.
(** The name of an operation is found inside of another key. *)
Example read_in_thread :
  access_of "A" ["export interface A {"; "id: string"; "}"; "schema = { models: { A: { access: { thread: 'public' } } } }"] =
  Some (Some (mkAccess None (Some (RBoolean "public")) None None)).
Proof. vm_compute. reflexivity. Qed.
(** An [access.or] of conditions is cut before its first condition ends: no condition is left. *)
Example or_is_empty :
  access_of "A" ["export interface A {"; "id: string"; "}"; "schema = { models: { A: { tableName: 'a' } } }";
    "export const AModel = defineModel({ access: { read: ({ user }: access.Context<A>) => access.or(access.where('a').equals(user.id), access.where('b').equals('x')) } })"] =
  Some (Some (mkAccess None (Some (ROr [])) None None)).
Proof. vm_compute. reflexivity. Qed.

(** The nested text of the sample is parsed, and every name of it is accounted for. *)
Theorem interface_parse_ends_witness : exists r, ts crm = Returns r.
Proof. exact (proj2 (interface_parse_ends no_number (text crm)) (nested_text_sound [] (text crm) crm_nested)). Defined.
Theorem models_accounted_witness :
  exists s, ts crm = Returns (inl s) /\ sc_models s !! "Deal" = None /\ unmatched "Deal" ∈ sc_warnings s.
Proof.
  destruct (ts crm) as [[s|e]| |] eqn:Hs.
  2-4: apply (f_equal (fun o => match o with Returns (inl _) => true | _ => false end)) in Hs; vm_compute in Hs; discriminate.
  exists s. split; [done|].
  assert (Hdeal : sc_models s !! "Deal" = None).
  { apply (f_equal (fun o => match o with Returns (inl s) => bool_decide (is_Some (sc_models s !! "Deal")) | _ => true end)) in Hs.
    cbv beta iota in Hs. apply eq_None_not_Some. apply (bool_decide_eq_false_1 _). rewrite <-Hs. vm_compute. reflexivity. }
  split; [done|].
  destruct (models_accounted no_number (text crm) s Hs) as (models & declared & _ & Hd & _ & Hwarn & _).
  destruct (Hwarn "Deal") as [[m Hm]|Hw]; [|congruence|done].
  apply (f_equal (fun o => match o with Returns d => bool_decide ("Deal" ∈ (d : gset string)) | _ => false end)) in Hd.
  cbv beta iota in Hd. apply (bool_decide_eq_true_1 _). rewrite <-Hd. vm_compute. reflexivity.
Defined.
End InterfaceExamples.
