(* ===== verification/CliMigrate.v ===== *)
(** * Migrations of the command line ([atomo_cli/src/commands/migrate.rs])

    [generate-migration] compares the models of a schema with the tables of the database and
    writes a file of SQL; [migrate] runs the files that were not run before, each in a
    transaction of its own, and records them with a checksum.  The SQL that is generated is a
    list of changes with their text.  The database runs a statement by the class [Postgres];
    the checksum is a parameter. *)

From S2P Require Import Prelude Json SchemaTypes SqlBuilder Scan SchemaDsl InterfaceParser.

#[local] Open Scope string_scope.

(** ** What is compared *)

Record DatabaseColumn : Type := mkDbColumn {
  dc_name : string;
  dc_data_type : string;
  dc_is_nullable : bool;
  dc_is_primary_key : bool
}.
Record DatabaseTable : Type := mkDbTable {
  dt_name : string;
  dt_columns : gmap string DatabaseColumn
}.
#[global] Instance DatabaseColumn_eq_dec : EqDecision DatabaseColumn.
Proof. solve_decision. Defined.

(** A row of the query on the catalog: a table with a column of it, and whether a key has it *)
Record CatalogRow : Type := mkCatalogRow {
  cr_table : string;
  cr_column : string;
  cr_data_type : string;
  cr_is_nullable : string;
  cr_in_key : bool
}.
Definition add_row (tables : gmap string DatabaseTable) (r : CatalogRow) : gmap string DatabaseTable :=
  let t := default (mkDbTable (cr_table r) ∅) (tables !! cr_table r) in
  let c := mkDbColumn (cr_column r) (cr_data_type r) (bool_decide (cr_is_nullable r = "YES")) (cr_in_key r) in
  <[cr_table r := mkDbTable (dt_name t) (<[cr_column r := c]> (dt_columns t))]> tables.
Definition get_current_database_schema (rows : list CatalogRow) : gmap string DatabaseTable := foldl add_row ∅ rows.

(** ** Names and types *)

Definition qi (ident : string) : string := dquote_s +:+ replace_dquote ident +:+ dquote_s.

(** [to_lowercase], [is_uppercase] on ASCII letters *)
Definition is_uppercase (a : Ascii.ascii) : bool :=
  let n := Ascii.nat_of_ascii a in ((65 <=? n) && (n <=? 90))%nat.
Fixpoint snake_from (started : bool) (s : string) : string :=
  match s with
  | EmptyString => EmptyString
  | String a r => (if is_uppercase a && started then "_" else "") +:+ String (ascii_lower a) (snake_from true r)
  end.
Definition camel_to_snake_case (input : string) : string := snake_from false input.
Definition table_of (m : Model) : string := to_ascii_lowercase (m_name m).

(** The type as the catalog names it *)
Definition expected_type (t : FieldType) : string :=
  match t with
  | FString | FFile | FCustom _ => "text"
  | FNumber => "numeric"
  | FBoolean => "boolean"
  | FDate => "date"
  | FDateTime => "timestamp with time zone"
  | FEntityId | FReference _ => "uuid"
  | FJson | FArray _ | FBlocks => "jsonb"
  end.
Definition pg_type_matches (t : FieldType) (db_type : string) : bool := bool_decide (db_type = expected_type t).
Definition field_type_to_pg (t : FieldType) : string :=
  match t with
  | FString | FFile | FCustom _ => "TEXT"
  | FNumber => "NUMERIC"
  | FBoolean => "BOOLEAN"
  | FDate => "DATE"
  | FDateTime => "TIMESTAMPTZ"
  | FEntityId | FReference _ => "UUID"
  | FJson | FArray _ | FBlocks => "JSONB"
  end.

(** ** Changes *)

Inductive NewColumn : Type :=
  | GeneratedId
  | OfField (field_name : string) (f : Field)
  | Stamp (name : string)
  | VersionColumn.

Inductive Change : Type :=
  | CreateTable (model table : string) (columns : list NewColumn)
  | CreateIndex (table column : string)
  | AlterType (table column : string) (t : FieldType)
  | SetNotNull (table column : string)
  | DropNotNull (table column : string)
  | AddColumn (table field_name : string) (f : Field)
  | MayDropColumn (table column : string)
  | MayDropTable (table : string)
  | BlankLine.

Definition generate_column_definition (field_name : string) (f : Field) : string :=
  qi (camel_to_snake_case field_name) +:+ " " +:+ field_type_to_pg (f_type f) +:+
  (if decide (field_name = "id") then " PRIMARY KEY DEFAULT gen_random_uuid()"
   else if f_optional f then "" else " NOT NULL").
Definition column_text (c : NewColumn) : string :=
  match c with
  | GeneratedId => "    " +:+ qi "id" +:+ " UUID PRIMARY KEY DEFAULT gen_random_uuid()"
  | OfField n f => "    " +:+ generate_column_definition n f
  | Stamp n => "    " +:+ qi n +:+ " TIMESTAMPTZ NOT NULL DEFAULT NOW()"
  | VersionColumn => "    " +:+ qi "version" +:+ " INTEGER NOT NULL DEFAULT 1"
  end.
(** Lines joined by a comma: each but the last ends in one. *)
Fixpoint comma_lines (l : list string) : list string :=
  match l with
  | [] | [_] => l
  | c :: rest => (c +:+ ",") :: comma_lines rest
  end.
Definition change_lines (c : Change) : list string :=
  match c with
  | CreateTable model t cols =>
      (["-- Create table for " +:+ model; "CREATE TABLE " +:+ qi t +:+ " ("] ++ comma_lines (column_text <$> cols) ++ [");"])%list
  | CreateIndex t col => ["CREATE INDEX " +:+ qi ("idx_" +:+ t +:+ "_" +:+ col) +:+ " ON " +:+ qi t +:+ " (" +:+ dquote_s +:+ col +:+ dquote_s +:+ ");"]
  | AlterType t col ty => ["ALTER TABLE " +:+ qi t +:+ " ALTER COLUMN " +:+ qi col +:+ " TYPE " +:+ field_type_to_pg ty +:+
                           " USING " +:+ qi col +:+ "::" +:+ field_type_to_pg ty +:+ ";"]
  | SetNotNull t col => ["ALTER TABLE " +:+ qi t +:+ " ALTER COLUMN " +:+ qi col +:+ " SET NOT NULL;"]
  | DropNotNull t col => ["ALTER TABLE " +:+ qi t +:+ " ALTER COLUMN " +:+ qi col +:+ " DROP NOT NULL;"]
  | AddColumn t n f => ["ALTER TABLE " +:+ qi t +:+ " ADD COLUMN " +:+ generate_column_definition n f +:+ ";"]
  | MayDropColumn t col => ["-- ALTER TABLE " +:+ qi t +:+ " DROP COLUMN " +:+ qi col +:+ "; -- Uncomment to drop"]
  | MayDropTable t => ["-- DROP TABLE IF EXISTS " +:+ t +:+ "; -- Uncomment to drop unused table"]
  | BlankLine => [""]
  end.

(** ** The comparison *)

Section Generate.
Context {ho : HashOrder}.

(** Fields the table has anyway *)
Definition standard_field (n : string) : bool :=
  bool_decide (n = "createdAt") || bool_decide (n = "updatedAt") || bool_decide (n = "version").
Definition new_columns (m : Model) : list NewColumn :=
  ((if decide (is_Some (m_fields m !! "id")) then [] else [GeneratedId]) ++
   ((fun p => OfField p.1 p.2) <$> filter (fun p => standard_field p.1 = false) (hpairs (m_fields m))) ++
   [Stamp "created_at"; Stamp "updated_at"; VersionColumn])%list.
Definition generate_create_table_sql (m : Model) : list Change :=
  [CreateTable (m_name m) (table_of m) (new_columns m);
   CreateIndex (table_of m) "created_at"; CreateIndex (table_of m) "updated_at"].

(** What a field changes of the column of its name *)
Definition column_changes (t col : string) (f : Field) (c : DatabaseColumn) : list Change :=
  ((if pg_type_matches (f_type f) (dc_data_type c) then [] else [AlterType t col (f_type f)]) ++
   (if negb (f_optional f) && dc_is_nullable c then [SetNotNull t col]
    else if f_optional f && negb (dc_is_nullable c) && negb (dc_is_primary_key c) then [DropNotNull t col] else []))%list.
Definition field_changes (t : string) (columns : gmap string DatabaseColumn) (p : string * Field) : list Change :=
  match columns !! camel_to_snake_case p.1 with
  | Some c => column_changes t (camel_to_snake_case p.1) p.2 c
  | None => [AddColumn t p.1 p.2]
  end.
Definition generate_table_alterations (m : Model) (existing : DatabaseTable) : list Change :=
  let columns := dt_columns existing in
  let matched : gset string := list_to_set ((fun p => camel_to_snake_case p.1) <$> hpairs (m_fields m)) in
  ((hpairs (m_fields m) ≫= field_changes (table_of m) columns) ++
   (MayDropColumn (table_of m) <$> filter (fun col => col ∉ matched) (hkeys columns)))%list.

Definition is_system_table (t : string) : bool := bool_decide (t = "audit_log") || bool_decide (t = "__atomo_migrations").
Definition model_changes (current : gmap string DatabaseTable) (m : Model) : list Change :=
  match current !! table_of m with
  | Some existing => match generate_table_alterations m existing with [] => [] | l => (l ++ [BlankLine])%list end
  | None => (generate_create_table_sql m ++ [BlankLine])%list
  end.
Definition unused_table (models : list Model) (t : string) : bool :=
  negb (existsb (fun m => bool_decide (table_of m = t)) models) && negb (is_system_table t).
Definition migration_changes (models : list Model) (current : gmap string DatabaseTable) : list Change :=
  ((models ≫= model_changes current) ++
   (MayDropTable <$> filter (fun t => unused_table models t = true) (hkeys current)))%list.
(** Every line with its end *)
Definition unlines (ls : list string) : string := String.concat "" ((fun l => l +:+ eol) <$> ls).
Definition header (now : string) : list string := ["-- Auto-generated migration"; "-- Generated at: " +:+ now; ""].
Definition generate_migration_sql (now : string) (models : list Model) (current : gmap string DatabaseTable) : string :=
  unlines (header now ++ (migration_changes models current ≫= change_lines))%list.

(** The models as the command reads them *)
Context {rx : Regex}.
Variable parse_f64 : string -> option F64.t.
Definition schema_models (content : string) : Parsed (list Model) :=
  if is_builder_dsl content then s ← lift (parse_builder_dsl content); mret (hvalues (sc_models s))
  else parse parse_f64 content.
(** The file to write, by name and content, unless there is nothing to do *)
Definition generate_migration_command (now stamp : string) (name : option string) (content : string)
    (current : gmap string DatabaseTable) : Parsed (option (string * string)) :=
  models ← schema_models content;
  let sql := generate_migration_sql now models current in
  mret (if bool_decide (trim sql = "") then None
        else Some (stamp +:+ "_" +:+ default "auto_generated" name +:+ ".sql", sql)).
End Generate.

(** ** The schema file *)

Inductive Node : Type :=
  | FileNode (content : string)
  | DirNode (entries : list (string * Node)).
(** [path.exists()], by components *)
Fixpoint node_at (path : list string) (n : Node) : option Node :=
  match path, n with
  | [], _ => Some n
  | p :: path, DirNode entries => e ← head (filter (fun e => e.1 = p) entries); node_at path e.2
  | _ :: _, FileNode _ => None
  end.
Definition candidates : list (list string) := [["schema.ts"]; ["atomo"; "schema.ts"]; ["src"; "schema.ts"]; ["atomo.config.ts"]].
Definition skipped_directory (n : string) : bool := bool_decide (n = "node_modules") || bool_decide (n = "target").
(** A directory that is read lists its entries in some order, here the order they are in. *)
Fixpoint find_schema_file (n : Node) : option (list string) :=
  match head (filter (fun c => is_Some (node_at c n)) candidates) with
  | Some c => Some c
  | None =>
      match n with
      | FileNode _ => None
      | DirNode entries =>
          (fix search (l : list (string * Node)) : option (list string) :=
             match l with
             | [] => None
             | (name, FileNode _) :: rest => search rest
             | (name, sub) :: rest =>
                 if skipped_directory name then search rest else
                 match find_schema_file sub with Some p => Some (name :: p) | None => search rest end
             end) entries
      end
  end.

(** ** The statements of a file *)

Section Statements.
Context {rx : Regex}.

Definition dollar_quote : string := "\$[A-Za-z0-9_]*\$".
(** The quote the text is in after the delimiters of a line from [start] on; every match
    moves [start]. *)
Fixpoint toggles (fuel : nat) (line : string) (start : nat) (in_dollar : option string) : Outcome (option string) :=
  match fuel with
  | O => Diverges
  | S fuel =>
      match captures_at dollar_quote line start with
      | None => mret in_dollar
      | Some m =>
          token ← or_panic (slice line (c_start m) (c_end m));
          toggles fuel line (c_end m)
            (match in_dollar with Some current => if decide (token = current) then None else Some current | None => Some token end)
      end
  end.
Definition comment_line (l : string) : bool := bool_decide (trim l = "") || String.prefix "--" (trim l).

(** The statements of the lines left, behind the text of one begun *)
Fixpoint statements_from (in_dollar : option string) (current : string) (ls : list string) : Outcome (list string) :=
  match ls with
  | [] => mret (if bool_decide (trim current = "") then [] else [trim current])
  | l :: rest =>
      if match in_dollar with None => comment_line l | Some _ => false end then statements_from in_dollar current rest else
      in_dollar ← toggles (S (S (String.length l))) l 0 in_dollar;
      let current := current +:+ l +:+ eol in
      if match in_dollar with None => ends_with ";" (trim l) | Some _ => false end then
        statements ← statements_from in_dollar "" rest;
        mret (if bool_decide (trim current = "") then statements else trim current :: statements)
      else statements_from in_dollar current rest
  end.
Definition parse_sql_statements (content : string) : Outcome (list string) := statements_from None "" (lines content).
End Statements.

(** ** Running migrations *)

Class Postgres (D E : Type) : Type := {
  pg_execute : string -> D -> D + E;          (* a statement of a transaction that goes on or fails *)
  pg_commit : D -> option E                   (* what the commit of such a transaction fails with *)
}.

Section Apply.
Context {rx : Regex} {D E : Type} {pg : Postgres D E}.
Variable md5 : string -> string.

(** The database and the table of migrations, oldest first *)
Record Store : Type := mkStore { st_db : D; st_applied : list (string * string) }.

Inductive MigrateError : Type :=
  | ListFailed | ReadFailed (filename : string) | Modified (filename : string)
  | ExecuteFailed (n : nat) (e : E) | RecordFailed | CommitFailed (e : E).

(** A file of the directory: its name and what reading it gives *)
Record MigrationFile : Type := mkMigrationFile { mf_name : string; mf_content : option string }.

Fixpoint execute_all (n : nat) (statements : list string) (d : D) : D + MigrateError :=
  match statements with
  | [] => inl d
  | s :: rest => match pg_execute s d with inl d => execute_all (S n) rest d | inr e => inr (ExecuteFailed n e) end
  end.
(** The file's statements and its row, in one transaction: names are unique in the table.  A
    commit that fails leaves nothing. *)
Definition run_file (f content : string) (s : Store) : Outcome (Store + MigrateError) :=
  statements ← parse_sql_statements content;
  mret match execute_all 1 statements (st_db s) with
       | inr e => inr e
       | inl d => if decide (f ∈ (st_applied s).*1) then inr RecordFailed
                  else match pg_commit d with
                       | Some e => inr (CommitFailed e)
                       | None => inl (mkStore d (st_applied s ++ [(f, md5 content)])%list)
                       end
       end.
(** [applied] was read at the start.  What is committed stays when a later file fails. *)
Fixpoint apply_files (applied : gmap string string) (files : list MigrationFile) (s : Store)
    : Outcome ((unit + MigrateError) * Store) :=
  match files with
  | [] => mret (inl tt, s)
  | f :: rest =>
      match mf_content f with
      | None => mret (inr (ReadFailed (mf_name f)), s)
      | Some content =>
          match applied !! mf_name f with
          | Some checksum =>
              if decide (checksum = md5 content) then apply_files applied rest s
              else mret (inr (Modified (mf_name f)), s)
          | None =>
              r ← run_file (mf_name f) content s;
              match r with
              | inl s => apply_files applied rest s
              | inr e => mret (inr e, s)
              end
          end
      end
  end.

Definition is_sql (f : MigrationFile) : bool :=
  ends_with ".sql" (mf_name f) && negb (bool_decide (mf_name f = ".sql")).
Definition name_before (a b : MigrationFile) : Prop := String.le (mf_name a) (mf_name b).
#[global] Instance name_before_dec a b : Decision (name_before a b).
Proof. unfold name_before. apply _. Defined.
(** The directory as it is listed; a directory that cannot be opened counts as empty, an
    entry that cannot be read fails. *)
Definition apply_migrations (directory : option (list (option MigrationFile))) (s : Store)
    : Outcome ((unit + MigrateError) * Store) :=
  match mapM (M := option) id (default [] directory) with
  | None => mret (inr ListFailed, s)
  | Some files => apply_files (list_to_map (reverse (st_applied s))) (merge_sort name_before (filter (fun f => is_sql f = true) files)) s
  end.
End Apply.
