(* ===== verification/CliMigrateSpec.v ===== *)
(** * What the migrations of the command line do

    The SQL that is generated is read back as exactly its statements; files are run in
    order, whole and once; and the comparison comes to rest: after two runs of what it
    generates it finds nothing more to change. *)

From S2P Require Import Prelude Json SchemaTypes SqlBuilder Scan SchemaDsl SchemaDslSpec InterfaceParser InterfaceSpec CliMigrate.

#[local] Open Scope string_scope.

(** ** Lines *)

Definition dollar : Ascii.ascii := Ascii.ascii_of_nat 36.
Definition return_c : Ascii.ascii := Ascii.ascii_of_nat 13.
(** One line *)
Definition one_line (s : string) : Prop := has_char newline s = false /\ has_char return_c s = false.
(** A name, or text of a statement: one line without what ends a statement or opens a quote *)
Definition tame (s : string) : Prop := one_line s /\ has_char semicolon s = false /\ has_char dollar s = false.

Lemma one_line_app a b : one_line (a +:+ b) <-> one_line a /\ one_line b.
Proof. unfold one_line. rewrite !has_char_app, !orb_false_iff. tauto. Qed.
Lemma tame_app a b : tame (a +:+ b) <-> tame a /\ tame b.
Proof. unfold tame. rewrite one_line_app, !has_char_app, !orb_false_iff. tauto. Qed.
Ltac literal := by repeat split.
Lemma has_char_lower c s :
  (forall a, Ascii.eqb a c = false -> Ascii.eqb (ascii_lower a) c = false) ->
  has_char c s = false -> has_char c (to_ascii_lowercase s) = false.
Proof.
  intros Hc. induction s as [|a s IH]; [done|]. cbn [has_char to_ascii_lowercase string_map].
  intros [Ha Hs]%orb_false_iff. rewrite (Hc a Ha). by apply IH.
Qed.
Ltac each_char := intros [[] [] [] [] [] [] [] []]; by vm_compute.
Lemma tame_lower s : tame s -> tame (to_ascii_lowercase s).
Proof. intros [[Hn Hr] [Hs Hd]]. repeat split; (apply has_char_lower; [each_char|done]). Qed.
Lemma tame_lower_char a s : tame (String a s) -> tame (String (ascii_lower a) EmptyString).
Proof.
  intros [[Hn Hr] [Hs Hd]]. cbn in *. rewrite orb_false_iff in *.
  assert (Ht : tame (to_ascii_lowercase (String a EmptyString))) by (apply tame_lower; repeat split; cbn; rewrite orb_false_r; tauto).
  exact Ht.
Qed.
Lemma tame_cons a s : tame (String a s) <-> tame (String a EmptyString) /\ tame s.
Proof. apply (tame_app (String a EmptyString) s). Qed.
Lemma tame_snake b s : tame s -> tame (snake_from b s).
Proof.
  revert b. induction s as [|a s IH]; intros b Hs; [literal|]. cbn [snake_from].
  apply tame_app. split; [destruct (_ && _); literal|]. apply tame_cons. split; [by apply tame_lower_char in Hs|].
  apply IH. exact (proj2 (proj1 (tame_cons a s) Hs)).
Qed.
Lemma has_char_dquote c s : Ascii.eqb dquote c = false -> has_char c (replace_dquote s) = has_char c s.
Proof.
  intros Hc. induction s as [|a s IH]; [done|]. cbn [replace_dquote]. destruct (Ascii.eqb_spec a dquote) as [->|_]; cbn [has_char]; by rewrite ?Hc, IH.
Qed.
Lemma one_line_dquote s : one_line s -> one_line (replace_dquote s).
Proof. unfold one_line. by rewrite !has_char_dquote. Qed.
Lemma tame_dquote s : tame s -> tame (replace_dquote s).
Proof. unfold tame, one_line. by rewrite !has_char_dquote. Qed.
Lemma tame_qi s : tame s -> tame (qi s).
Proof. intros Hs. unfold qi. rewrite !tame_app. split; [literal|]. split; [by apply tame_dquote|literal]. Qed.
Lemma one_line_qi s : one_line s -> one_line (qi s).
Proof. intros Hs. unfold qi. rewrite !one_line_app. split; [literal|]. split; [by apply one_line_dquote|literal]. Qed.

Lemma strip_line s : one_line s -> strip_return s = s.
Proof.
  intros [_ Hr]. unfold strip_return. destruct (last_char s) as [a|] eqn:Ha; [|done].
  destruct (Ascii.eqb_spec a (Ascii.ascii_of_nat 13)) as [->|]; [|done]. exfalso. revert Ha.
  induction s as [|x s IH]; [done|]. cbn [has_char] in Hr. apply orb_false_iff in Hr as [Hx Hr].
  destruct s as [|y s]; [|by apply IH]. cbn. intros [= ->]. by vm_compute in Hx.
Qed.
Lemma ended_lines ls : Forall one_line ls -> ended (ls ++ [""])%list = ls.
Proof.
  induction 1 as [|l ls Hl Hls IH]; [done|]. destruct ls as [|l' ls].
  - cbn. by rewrite strip_line.
  - change (ended ((l :: l' :: ls) ++ [""])%list) with (strip_return l :: ended ((l' :: ls) ++ [""])%list). by rewrite IH, strip_line.
Qed.
Lemma unlines_cons l ls : unlines (l :: ls) = l +:+ String newline (unlines ls).
Proof. unfold unlines. cbn [fmap list_fmap]. rewrite concat_cons, str_app_assoc. unfold eol. by rewrite str_app_cons, str_app_nil. Qed.
Lemma unlines_app l k : unlines (l ++ k)%list = unlines l +:+ unlines k.
Proof. induction l as [|x l IH]; [done|]. by rewrite <-app_comm_cons, !unlines_cons, IH, str_app_assoc, str_app_cons. Qed.
Lemma lines_unlines ls : Forall one_line ls -> lines (unlines ls) = ls.
Proof.
  intros Hls. unfold lines. rewrite <-(ended_lines ls) at 2 by done. f_equal.
  induction Hls as [|l ls [Hn _] Hls IH]; [done|].
  rewrite unlines_cons, split_on_app, IH, split_on_plain by done. done.
Qed.

(** ** Trimming *)

Lemma trim_end_last s a : is_blank a = false -> trim_end (s +:+ String a "") = s +:+ String a "".
Proof.
  intros Ha. induction s as [|x s IH]; [rewrite str_app_nil; cbn; by rewrite Ha|].
  rewrite str_app_cons. cbn [trim_end]. rewrite IH. by destruct s.
Qed.
Lemma trim_end_eol s : trim_end (s +:+ eol) = trim_end s.
Proof. induction s as [|x s IH]; [done|]. rewrite str_app_cons. cbn [trim_end]. by rewrite IH. Qed.
Lemma trim_end_cons a s : is_blank a = false -> trim_end (String a s) = String a (trim_end s).
Proof. intros Ha. cbn. rewrite Ha. by destruct (trim_end s). Qed.
Lemma trim_start_last s a t : is_blank a = false -> exists z, trim_start (s +:+ String a t) = z +:+ String a t.
Proof.
  intros Ha. induction s as [|x s IH]; [exists ""; rewrite !str_app_nil; cbn; by rewrite Ha|].
  rewrite str_app_cons. cbn [trim_start]. destruct (is_blank x); [done|]. exists (String x s). by rewrite str_app_cons.
Qed.
Lemma trim_statement s a : is_blank a = false -> exists z, trim (s +:+ String a eol) = z +:+ String a "".
Proof.
  intros Ha. unfold trim. destruct (trim_start_last s a eol Ha) as [z ->]. exists z.
  replace (z +:+ String a eol) with ((z +:+ String a "") +:+ eol) by (rewrite str_app_assoc; by rewrite str_app_cons, str_app_nil).
  by rewrite trim_end_eol, trim_end_last.
Qed.
(** What starts and ends with other characters than blanks is kept. *)
Lemma trim_kept x s a : is_blank x = false -> is_blank a = false ->
  trim (String x (s +:+ String a eol)) = String x (s +:+ String a "").
Proof.
  intros Hx Ha. unfold trim. cbn [trim_start]. rewrite Hx, trim_end_cons by done. f_equal.
  replace (s +:+ String a eol) with ((s +:+ String a "") +:+ eol) by (rewrite str_app_assoc; by rewrite str_app_cons, str_app_nil).
  by rewrite trim_end_eol, trim_end_last.
Qed.

Lemma has_char_trim_end c s : has_char c s = false -> has_char c (trim_end s) = false.
Proof.
  induction s as [|a s IH]; [done|]. cbn [has_char trim_end]. intros [Ha Hs]%orb_false_iff. specialize (IH Hs).
  destruct (trim_end s) eqn:E; [destruct (is_blank a); cbn; by rewrite ?Ha|]. cbn [has_char] in *. by rewrite Ha.
Qed.
Lemma has_char_trim c s : has_char c s = false -> has_char c (trim s) = false.
Proof.
  intros Hs. apply has_char_trim_end. induction s as [|a s IH]; [done|]. cbn [trim_start].
  cbn [has_char] in Hs. apply orb_false_iff in Hs as [Ha Hs]. destruct (is_blank a); [by apply IH|]. cbn. by rewrite Ha.
Qed.
Lemma ends_with_semicolon s : has_char semicolon s = false -> ends_with ";" s = false.
Proof.
  intros Hs. unfold ends_with. destruct (String.length ";" <=? String.length s)%nat eqn:Hl; [|done]. cbn [andb].
  apply bool_decide_eq_false_2. intros Heq. revert Hs Heq. apply Nat.leb_le in Hl. cbn in Hl. cbn [String.length].
  induction s as [|a s IH]; cbn in Hl; [lia|]. cbn [has_char]. intros [Ha Hs]%orb_false_iff.
  destruct s as [|b s]; [cbn; intros [= ->]; by vm_compute in Ha|].
  replace (String.length (String a (String b s)) - 1)%nat with (S (String.length (String b s) - 1)) by (cbn; lia).
  cbn [String.substring]. apply IH; [cbn; lia|done].
Qed.

Definition dash : Ascii.ascii := Ascii.ascii_of_nat 45.
Lemma comment_dashes s : comment_line ("--" +:+ s) = true.
Proof.
  unfold comment_line. rewrite orb_true_iff. right. unfold trim. rewrite !str_app_cons. cbn [trim_start].
  change (is_blank _) with false. cbv iota. rewrite !trim_end_cons by done. cbn. by destruct (trim_end _).
Qed.
Lemma no_comment a s : is_blank a = false -> Ascii.eqb a dash = false -> comment_line (String a s) = false.
Proof.
  intros Hb Ha. unfold comment_line, trim. cbn [trim_start]. rewrite Hb, trim_end_cons by done.
  rewrite bool_decide_eq_false_2 by done. cbn [orb String.prefix]. destruct (Ascii.ascii_dec _ _) as [<-|]; [|done].
  by rewrite Ascii.eqb_refl in Ha.
Qed.
Lemma comment_blank a s : is_blank a = true -> comment_line (String a s) = comment_line s.
Proof. intros Ha. unfold comment_line, trim. cbn [trim_start]. by rewrite Ha. Qed.

(** ** Statements are read back *)

(** What the search for [$tag$] promises *)
Class DollarLaws `{Regex} : Prop := {
  dollar_match s k c : captures_at dollar_quote s k = Some c ->
    (k <= c_start c /\ c_start c < c_end c /\ c_end c <= String.length s)%nat /\ byte_at s (c_start c) = Some dollar
}.

Lemma byte_at_has s i a : byte_at s i = Some a -> has_char a s = true.
Proof.
  revert i. induction s as [|x s IH]; intros [|i]; try done; cbn.
  - intros [= ->]. by rewrite Ascii.eqb_refl.
  - intros Hb. rewrite (IH i Hb). by rewrite orb_true_r.
Qed.

Section ReadBack.
Context {ho : HashOrder} {rx : Regex} `{!DollarLaws}.

Lemma toggles_plain fuel l k d : has_char dollar l = false -> toggles (S fuel) l k d = mret d.
Proof.
  intros Hl. cbn. destruct (captures_at _ _ _) as [c|] eqn:Hc; [|done].
  apply dollar_match in Hc as [_ Hb]. apply byte_at_has in Hb. congruence.
Qed.

(** The lines of one statement: only the last ends it. *)
Definition block (ls : list string) : Prop :=
  exists init x, ls = (init ++ [x +:+ ";"])%list /\ Forall (fun l => tame l /\ comment_line l = false) init /\
    tame x /\ comment_line (x +:+ ";") = false.

Lemma statements_skip c rest : comment_line c = true -> statements_from None "" (c :: rest) = statements_from None "" rest.
Proof. intros Hc. cbn [statements_from]. by rewrite Hc. Qed.
Lemma tame_semicolon x : tame x -> has_char dollar (x +:+ ";") = false.
Proof. intros (_ & _ & Hd). rewrite has_char_app, Hd. done. Qed.
Lemma statements_block ls rest current :
  block ls ->
  statements_from None current (ls ++ rest)%list =
    (statements ← statements_from None "" rest; mret (trim (current +:+ unlines ls) :: statements)).
Proof.
  intros (init & x & -> & Hinit & Hx & Hc). revert current.
  induction Hinit as [|l init [Hl Hlc] Hinit IH]; intros current.
  - cbn [app statements_from]. rewrite Hc, toggles_plain by (by apply tame_semicolon). cbn [mbind outcome_bind mret outcome_ret].
    assert (He : ends_with ";" (trim (x +:+ ";")) = true).
    { unfold trim. destruct (trim_start_last x semicolon "" eq_refl) as [z Hz]. change (";") with (String semicolon "").
      rewrite Hz, trim_end_last by done. apply ends_with_app. }
    rewrite He. rewrite unlines_cons. change (String newline (unlines [])) with eol.
    assert (Hne : bool_decide (trim (current +:+ (x +:+ ";") +:+ eol) = "") = false).
    { apply bool_decide_eq_false_2. destruct (trim_statement (current +:+ x) semicolon eq_refl) as [z Hz].
      replace (current +:+ (x +:+ ";") +:+ eol) with ((current +:+ x) +:+ String semicolon eol)
        by (rewrite !str_app_assoc; by rewrite str_app_cons, str_app_nil). rewrite Hz. destruct z; [by rewrite str_app_nil|by rewrite str_app_cons]. }
    by rewrite Hne.
  - cbn [app statements_from]. rewrite Hlc, toggles_plain by apply Hl. cbn [mbind outcome_bind mret outcome_ret].
    rewrite ends_with_semicolon by (by apply has_char_trim, Hl). rewrite IH, unlines_cons, !str_app_assoc.
    unfold eol. by rewrite str_app_cons, str_app_nil.
Qed.

Lemma concat_cons2 sep a b l : String.concat sep (a :: b :: l) = a +:+ sep +:+ String.concat sep (b :: l).
Proof. done. Qed.
Lemma unlines_concat l ls : unlines (l :: ls) = String.concat eol (l :: ls) +:+ eol.
Proof.
  revert l. induction ls as [|k ls IH]; intros l; [rewrite unlines_cons; done|].
  rewrite unlines_cons, IH, concat_cons2, !str_app_assoc. unfold eol at 3. by rewrite str_app_cons, str_app_nil.
Qed.
Lemma concat_last sep l x y : String.concat sep (l ++ [x +:+ y])%list = String.concat sep (l ++ [x])%list +:+ y.
Proof.
  induction l as [|a l IH]; [done|]. destruct l as [|b l]; cbn [app] in *; rewrite !concat_cons2, !str_app_assoc; [done|].
  by rewrite IH, ?str_app_assoc.
Qed.
(** A statement's text is its lines without the last end of line. *)
Lemma block_text ls a s :
  block ls -> String.concat eol ls = String a s -> is_blank a = false -> trim (unlines ls) = String.concat eol ls.
Proof.
  intros (init & x & -> & _) Hs Ha. destruct (init ++ [x +:+ ";"])%list as [|l k] eqn:Hl; [by destruct init|].
  rewrite unlines_concat, <-Hl, concat_last in *. set (y := String.concat eol (init ++ [x])%list) in *.
  destruct y as [|b y]; [rewrite str_app_nil in *; injection Hs as <- <-; done|]. rewrite !str_app_cons in *.
  injection Hs as -> Hs. rewrite !str_app_assoc. change (";" +:+ eol) with (String semicolon eol).
  by apply trim_kept.
Qed.

Definition named_column (c : NewColumn) : Prop :=
  match c with OfField n _ => tame n | Stamp n => tame n | GeneratedId | VersionColumn => True end.
(** The names in a change are as the schema's grammar and the database give them. *)
Definition named (c : Change) : Prop :=
  match c with
  | CreateTable m t cols => one_line m /\ tame t /\ Forall named_column cols
  | CreateIndex t col | AlterType t col _ | SetNotNull t col | DropNotNull t col => tame t /\ tame col
  | AddColumn t n _ => tame t /\ tame n
  | MayDropColumn t col => one_line t /\ one_line col
  | MayDropTable t => one_line t
  | BlankLine => True
  end.
Definition is_statement (c : Change) : bool :=
  match c with MayDropColumn _ _ | MayDropTable _ | BlankLine => false | _ => true end.
Definition statement_lines (c : Change) : list string :=
  match c with CreateTable _ _ _ => tail (change_lines c) | _ => change_lines c end.
Definition statement_text (c : Change) : string := String.concat eol (statement_lines c).

Lemma tame_line s : tame s -> one_line s.
Proof. by intros []. Qed.
Lemma tame_type t : tame (field_type_to_pg t).
Proof. destruct t; literal. Qed.
Lemma tame_definition n f : tame n -> tame (generate_column_definition n f).
Proof.
  intros Hn. unfold generate_column_definition. rewrite !tame_app.
  split; [by apply tame_qi, tame_snake|]. split; [literal|]. split; [apply tame_type|].
  destruct (decide _); [literal|]. destruct (f_optional f); literal.
Qed.
Lemma tame_column c : named_column c -> tame (column_text c).
Proof.
  destruct c as [|n f|n|]; cbn [named_column column_text]; intros Hn; [literal| | |literal]; rewrite !tame_app.
  - split; [literal|]. by apply tame_definition.
  - split; [literal|]. split; [by apply tame_qi|literal].
Qed.
Lemma column_no_comment c : comment_line (column_text c) = false.
Proof.
  destruct c; cbn [column_text]; try unfold generate_column_definition; unfold qi, dquote_s;
    rewrite ?str_app_assoc, !str_app_cons, str_app_nil; rewrite !(comment_blank (Ascii.ascii_of_nat 32)) by done; by apply no_comment.
Qed.
Lemma column_comma c : comment_line (column_text c +:+ ",") = false.
Proof.
  destruct c; cbn [column_text]; try unfold generate_column_definition; unfold qi, dquote_s;
    rewrite ?str_app_assoc, !str_app_cons, str_app_nil; rewrite !(comment_blank (Ascii.ascii_of_nat 32)) by done; by apply no_comment.
Qed.

Lemma comma_lines_block cols :
  Forall named_column cols -> Forall (fun l => tame l /\ comment_line l = false) (comma_lines (column_text <$> cols)).
Proof.
  induction 1 as [|c cols Hc Hcols IH]; [constructor|]. destruct cols as [|c' cols].
  - constructor; [|constructor]. split; [by apply tame_column|apply column_no_comment].
  - cbn in *. constructor; [|exact IH]. split; [|apply column_comma]. apply tame_app. split; [by apply tame_column|literal].
Qed.
(** A line of its own: what it is before the semicolon *)
Ltac single_line x :=
  exists [], x; cbn [app statement_lines change_lines]; split; [by rewrite !str_app_assoc|]; split; [constructor|]; split;
    [rewrite !tame_app; repeat (split; [first [literal|by apply tame_qi|by apply tame_type|by apply tame_definition]|]);
     first [literal|by apply tame_qi|by apply tame_type|by apply tame_definition]
    |rewrite ?str_app_assoc, !str_app_cons; by apply no_comment].
Lemma change_block c : named c -> is_statement c = true -> block (statement_lines c).
Proof.
  destruct c as [m t cols|t col|t col ty|t col|t col|t n f|t col|t|]; try done; cbn [named]; intros Hn _.
  - destruct Hn as (Hm & Ht & Hcols).
    exists (("CREATE TABLE " +:+ qi t +:+ " (") :: comma_lines (column_text <$> cols))%list, ")".
    split; [done|]. split; [|by split; [literal|]]. constructor; [|by apply comma_lines_block]. split.
    + rewrite !tame_app. split; [literal|]. split; [by apply tame_qi|literal].
    + rewrite !str_app_cons. by apply no_comment.
  - destruct Hn as [Ht Hc]. assert (Hi : tame ("idx_" +:+ t +:+ "_" +:+ col)) by (rewrite !tame_app; repeat split; (literal || apply Ht || apply Hc)).
    exists [], ("CREATE INDEX " +:+ qi ("idx_" +:+ t +:+ "_" +:+ col) +:+ " ON " +:+ qi t +:+ " (" +:+ dquote_s +:+ col +:+ dquote_s +:+ ")").
    cbn [app statement_lines change_lines]. split; [by rewrite !str_app_assoc|]. split; [constructor|]. split.
    + rewrite (tame_app "CREATE INDEX "), (tame_app (qi _)), (tame_app " ON "), (tame_app (qi t)), (tame_app " ("), (tame_app dquote_s), (tame_app col), (tame_app dquote_s).
      repeat (split; [first [literal|by apply tame_qi|done]|]). literal.
    + rewrite ?str_app_assoc, !str_app_cons. by apply no_comment.
  - destruct Hn as [Ht Hc].
    single_line ("ALTER TABLE " +:+ qi t +:+ " ALTER COLUMN " +:+ qi col +:+ " TYPE " +:+ field_type_to_pg ty +:+
                           " USING " +:+ qi col +:+ "::" +:+ field_type_to_pg ty).
  - destruct Hn as [Ht Hc]. single_line ("ALTER TABLE " +:+ qi t +:+ " ALTER COLUMN " +:+ qi col +:+ " SET NOT NULL").
  - destruct Hn as [Ht Hc]. single_line ("ALTER TABLE " +:+ qi t +:+ " ALTER COLUMN " +:+ qi col +:+ " DROP NOT NULL").
  - destruct Hn as [Ht Hc]. single_line ("ALTER TABLE " +:+ qi t +:+ " ADD COLUMN " +:+ generate_column_definition n f).
Qed.

Lemma concat_head sep a s l : exists t, String.concat sep (String a s :: l) = String a t.
Proof. destruct l as [|b l]; [by exists s|]. rewrite concat_cons2, str_app_cons. by eexists. Qed.
Lemma statement_head c : is_statement c = true -> exists a s, statement_text c = String a s /\ is_blank a = false.
Proof.
  unfold statement_text. destruct c; try done; intros _; cbn [statement_lines change_lines tail app]; rewrite !str_app_cons;
    edestruct concat_head as [k ->]; by do 2 eexists.
Qed.
Lemma change_read c rest :
  named c ->
  statements_from None "" (change_lines c ++ rest)%list =
    (statements ← statements_from None "" rest;
     mret (if is_statement c then statement_text c :: statements else statements)).
Proof.
  intros Hn. destruct (is_statement c) eqn:Hs.
  - assert (Hl : statements_from None "" (change_lines c ++ rest)%list = statements_from None "" (statement_lines c ++ rest)%list).
    { destruct c; try done. cbn [change_lines statement_lines tail app]. by rewrite statements_skip by apply comment_dashes. }
    rewrite Hl, statements_block by by apply change_block. rewrite str_app_nil.
    destruct (statement_head c Hs) as (a & s & Ht & Ha).
    by rewrite (block_text _ a s (change_block c Hn Hs) Ht Ha).
  - assert (Hl : statements_from None "" (change_lines c ++ rest)%list = statements_from None "" rest).
    { destruct c; try done; cbn [change_lines app]; apply statements_skip; first [apply comment_dashes|by vm_compute]. }
    rewrite Hl. by destruct (statements_from None "" rest).
Qed.
Lemma changes_read cs :
  Forall named cs ->
  statements_from None "" (cs ≫= change_lines) = Returns (statement_text <$> filter (fun c => is_statement c = true) cs).
Proof.
  induction 1 as [|c cs Hc Hcs IH]; [done|]. cbn [mbind list_bind]. rewrite change_read, IH by done.
  cbn [mbind outcome_bind mret outcome_ret]. rewrite filter_cons. destruct (is_statement c); by case_decide.
Qed.

(** ** One line each *)

Lemma named_lines c : named c -> Forall one_line (change_lines c).
Proof.
  intros Hn. destruct (is_statement c) eqn:Hs.
  - assert (Hb : Forall one_line (statement_lines c)).
    { destruct (change_block c Hn Hs) as (init & x & -> & Hinit & Hx & _). apply Forall_app. split.
      - eapply Forall_impl; [exact Hinit|]. intros l [Hl _]. by apply tame_line.
      - constructor; [|constructor]. apply one_line_app. split; [by apply tame_line|literal]. }
    destruct c; try done. cbn [change_lines statement_lines tail app] in *. constructor; [|done].
    apply one_line_app. split; [literal|apply Hn].
  - destruct c; try done; cbn [change_lines named] in *.
    + destruct Hn as [Ht Hc]. constructor; [|constructor]. rewrite !one_line_app.
      repeat split; first [done|by apply one_line_qi|idtac]; try (by apply one_line_qi); try done.
    + constructor; [|constructor]. rewrite !one_line_app. repeat split; try done; apply Hn.
    + constructor; [literal|constructor].
Qed.

(** What a model may be called, and what the catalog may hold *)
Definition named_model (m : Model) : Prop := tame (m_name m) /\ map_Forall (fun n _ => tame n) (m_fields m).
Definition named_catalog (tables : gmap string DatabaseTable) : Prop :=
  map_Forall (fun n t => one_line n /\ map_Forall (fun col _ => one_line col) (dt_columns t)) tables.

Ltac naming := repeat first [assumption|apply Forall_nil_2|apply Forall_cons_2|exact I|split].
Lemma hpairs_named m n f : named_model m -> (n, f) ∈ hpairs (m_fields m) -> tame n.
Proof. intros [_ Hm] Hin%elem_of_hpairs. by apply (Hm n f). Qed.
Lemma field_changes_named t cols n f : tame t -> tame n -> Forall named (field_changes t cols (n, f)).
Proof.
  intros Ht Hn. unfold field_changes. cbn [fst snd]. pose proof (tame_snake false n Hn) as Hc.
  destruct (cols !! _) as [c|]; [|by naming]. unfold column_changes.
  apply Forall_app. split; [destruct (pg_type_matches _ _); by naming|].
  destruct (_ && _); [by naming|]. destruct (_ && _ && _); by naming.
Qed.
Lemma migration_named models current :
  Forall named_model models -> named_catalog current -> Forall named (migration_changes models current).
Proof.
  intros Hms Hcur. unfold migration_changes. apply Forall_app. split.
  - apply Forall_bind. eapply Forall_impl; [exact Hms|]. intros m Hm.
    change (Forall named (model_changes current m)). unfold model_changes.
    assert (Ht : tame (table_of m)) by (apply tame_lower, Hm).
    destruct (current !! table_of m) as [t|] eqn:Hc.
    + assert (Hall : Forall named (generate_table_alterations m t)).
      { unfold generate_table_alterations. apply Forall_app. split.
        - apply Forall_bind, Forall_forall. intros [n f] Hin. apply field_changes_named; [done|by eapply hpairs_named].
        - apply Forall_fmap, Forall_forall. intros col Hin. apply list_elem_of_filter in Hin as [_ Hin].
          apply elem_of_hkeys in Hin as [c Hin]. split; [by apply tame_line|].
          destruct (Hcur _ _ Hc) as [_ Hcols]. by apply (Hcols col c). }
      destruct (generate_table_alterations m t); [constructor|]. apply Forall_app. split; [done|by naming].
    + apply Forall_app. split; [|by naming]. unfold generate_create_table_sql.
      naming; try (apply tame_line, Hm); try literal.
      unfold new_columns. rewrite !Forall_app. split; [destruct (decide _); by naming|].
      split; [|naming; literal]. apply Forall_fmap, Forall_forall. intros [n f] Hin.
      apply list_elem_of_filter in Hin as [_ Hin]. cbn. by eapply hpairs_named.
  - apply Forall_fmap, Forall_forall. intros t Hin. apply list_elem_of_filter in Hin as [_ Hin].
    apply elem_of_hkeys in Hin as [c Hin]. by apply (Hcur t c).
Qed.

Lemma migration_read_back now models current :
  one_line now -> Forall named_model models -> named_catalog current ->
  parse_sql_statements (generate_migration_sql now models current) =
    Returns (statement_text <$> filter (fun c => is_statement c = true) (migration_changes models current)).
Proof.
  intros Hnow Hms Hcur. pose proof (migration_named models current Hms Hcur) as Hn.
  unfold parse_sql_statements, generate_migration_sql. rewrite lines_unlines.
  - unfold header. cbn [app]. rewrite !statements_skip by (apply comment_dashes || done). by apply changes_read.
  - apply Forall_app. split.
    + repeat constructor; try (apply one_line_app; split; [literal|done]); literal.
    + apply Forall_bind. eapply Forall_impl; [exact Hn|]. intros c. apply named_lines.
Qed.

(** C30: The file that is generated is read back as exactly the statements of its changes, in
    their order: comments, such as every proposal to drop something, are not executed. *)
Theorem generated_reads_back now models current :
  one_line now -> Forall named_model models -> named_catalog current ->
  parse_sql_statements (generate_migration_sql now models current) =
    Returns (statement_text <$> filter (fun c => is_statement c = true) (migration_changes models current)).
Proof. apply migration_read_back. Qed.

(** ** Reading statements ends *)

Lemma ends_toggles fuel l k d : (String.length l < fuel + k)%nat -> (k <= String.length l)%nat -> ends (toggles fuel l k d).
Proof.
  revert k d. induction fuel as [|fuel IH]; intros k d Hf Hk; [lia|]. cbn [toggles].
  destruct (captures_at _ _ _) as [c|] eqn:Hc; [|done]. apply dollar_match in Hc as [Hb _].
  apply ends_bind; [apply ends_or_panic|]. intros token _. apply IH; lia.
Qed.
Lemma ends_statements d current ls : ends (statements_from d current ls).
Proof.
  revert d current. induction ls as [|l ls IH]; intros d current; cbn [statements_from]; [apply ends_ret|].
  destruct (match d with None => _ | Some _ => _ end); [apply IH|].
  apply ends_bind; [apply ends_toggles; lia|]. intros d' _.
  destruct (match d' with None => _ | Some _ => _ end); [|apply IH].
  apply ends_bind; [apply IH|]. intros ss _. apply ends_ret.
Qed.
End ReadBack.

(** ** Examples *)

Module MigrateExamples.
#[local] Existing Instance enum_order.
(** The matcher, where the search for a quote must have found a dollar *)
Definition dollar_found (s : string) (k : nat) (c : Captures) : bool :=
  (k <=? c_start c)%nat && (c_start c <? c_end c)%nat && (c_end c <=? String.length s)%nat &&
  bool_decide (byte_at s (c_start c) = Some dollar).
Definition matcher : Regex := {|
  captures_at := fun p s k => c ← captures_at (Regex := Engine.engine) p s k;
    if negb (bool_decide (p = dollar_quote)) || dollar_found s k c then Some c else None;
  captures_iter := captures_iter (Regex := Engine.engine)
|}.
#[global] Instance matcher_laws : DollarLaws (H := matcher).
Proof.
  split. intros s k c. cbn. intros (c' & _ & Hc)%bind_Some. rewrite bool_decide_eq_true_2 in Hc by done. cbn in Hc.
  destruct (dollar_found s k c') eqn:Hf; [|done]. injection Hc as <-. unfold dollar_found in Hf.
  rewrite !andb_true_iff, !Nat.leb_le, Nat.ltb_lt, bool_decide_eq_true in Hf. tauto.
Qed.

Definition field (n : string) (t : FieldType) (optional : bool) : string * Field := (n, mkField n t optional []).
Definition contact : Model :=
  bare_model "Contact" (list_to_map [field "id" FString false; field "nickName" FString true; field "score" FNumber false]) None.
Definition note : Model := bare_model "Note" (list_to_map [field "id" FString false; field "version" FNumber false]) None.
Definition column (n ty : string) (nullable key : bool) : string * DatabaseColumn := (n, mkDbColumn n ty nullable key).
(** A table of contacts that lacks a column and has another for nothing *)
Definition tables : gmap string DatabaseTable :=
  {["contact" := mkDbTable "contact" (list_to_map
      [column "id" "text" false true; column "score" "integer" true false; column "fax" "text" true false])]}.
Definition generated : string := generate_migration_sql "2026-01-01T00:00:00Z" [contact; note] tables.

Lemma contact_named : Forall named_model [contact; note].
Proof. apply Forall_cons_2; [|apply Forall_cons_2; [|apply Forall_nil_2]]; (split; [literal|]); apply map_Forall_to_list; vm_compute; repeat constructor. Qed.
Lemma tables_named : named_catalog tables.
Proof. apply map_Forall_singleton. split; [literal|]. apply map_Forall_to_list. vm_compute. repeat constructor. Qed.

(** The header is there always: the command never finds that there is nothing to do. *)
Example never_nothing : bool_decide (trim (generate_migration_sql "now" [] (∅ : gmap string DatabaseTable)) = "") = false.
Proof. vm_compute. reflexivity. Qed.
(** The tables it makes are not those the data layer reads. *)
Example other_table : table_of contact = "contact" /\ table_name contact = "contacts".
Proof. split; vm_compute; reflexivity. Qed.
(** A statement with a comment behind it is not ended; one that ends in a string is cut. *)
Example comment_behind :
  parse_sql_statements (rx := matcher) (unlines ["SELECT 1; -- first"; "SELECT 2;"]) = Returns ["SELECT 1; -- first" +:+ eol +:+ "SELECT 2;"].
Proof. vm_compute. reflexivity. Qed.
Example string_cut :
  parse_sql_statements (rx := matcher) (unlines ["INSERT INTO t VALUES ('a;"; "b');"]) = Returns ["INSERT INTO t VALUES ('a;"; "b');"].
Proof. vm_compute. reflexivity. Qed.
Example dollar_body :
  parse_sql_statements (rx := matcher) (unlines ["DO $x$ BEGIN"; "-- kept;"; "END $x$;"; "SELECT 1;"]) =
  Returns ["DO $x$ BEGIN" +:+ eol +:+ "-- kept;" +:+ eol +:+ "END $x$;"; "SELECT 1;"].
Proof. vm_compute. reflexivity. Qed.

Theorem generated_reads_back_witness :
  parse_sql_statements (rx := matcher) generated =
    Returns (statement_text <$> filter (fun c => is_statement c = true) (migration_changes [contact; note] tables)) /\
  length (filter (fun c => is_statement c = true) (migration_changes [contact; note] tables)) = 6%nat.
Proof.
  split; [|vm_compute; reflexivity].
  apply (generated_reads_back (rx := matcher)); [literal|exact contact_named|exact tables_named].
Defined.
End MigrateExamples.
