(* ===== verification/MigrateDdl.v ===== *)
(** * The statements of a migration, read

    What PostgreSQL reads in a statement that makes or alters a table, and what it documents
    about it: which columns there are afterwards and how the catalog describes them.  Every
    statement the comparison generates is read as the change it stands for. *)

From S2P Require Import Prelude Json SchemaTypes SqlBuilder SqlLex SqlSpec Scan SchemaDsl InterfaceParser CliMigrate CliMigrateSpec.

#[local] Open Scope string_scope.

(** ** Reading *)

Record ColumnDdl : Type := mkColumnDdl { cd_name : string; cd_type : string; cd_not_null : bool; cd_primary : bool }.
Inductive TableDdl : Type :=
  | DdlCreateTable (t : string) (cols : list ColumnDdl)
  | DdlCreateIndex (index t col : string)
  | DdlAlterType (t col type : string)
  | DdlSetNotNull (t col : string)
  | DdlDropNotNull (t col : string)
  | DdlAddColumn (t : string) (c : ColumnDdl).

(** The constraints behind a type: whether [NOT NULL] and [PRIMARY KEY] are among them *)
Fixpoint read_constraints (fuel : nat) (ts : list token) : bool * bool * list token :=
  match fuel with
  | O => (false, false, ts)
  | S fuel =>
      match ts with
      | TWord a :: TWord b :: rest =>
          if decide (a = "PRIMARY" /\ b = "KEY") then let '(n, _, rest) := read_constraints fuel rest in (n, true, rest)
          else if decide (a = "NOT" /\ b = "NULL") then let '(_, p, rest) := read_constraints fuel rest in (true, p, rest)
          else match rest with
               | o :: c :: rest =>
                   if decide (a = "DEFAULT" /\ o = sym "(" /\ c = sym ")") then read_constraints fuel rest else (false, false, ts)
               | _ => (false, false, ts)
               end
      | TWord a :: TNum _ :: rest => if decide (a = "DEFAULT") then read_constraints fuel rest else (false, false, ts)
      | _ => (false, false, ts)
      end
  end.
Definition read_column (ts : list token) : option (ColumnDdl * list token) :=
  match ts with
  | TIdent n :: TWord ty :: rest =>
      let '(not_null, primary, rest) := read_constraints (length rest) rest in Some (mkColumnDdl n ty not_null primary, rest)
  | _ => None
  end.
(** Columns up to the parenthesis that closes them and the statement *)
Fixpoint read_columns (fuel : nat) (ts : list token) : option (list ColumnDdl) :=
  match fuel with
  | O => None
  | S fuel =>
      '(c, rest) ← read_column ts;
      match rest with
      | t :: rest => if decide (t = sym ",") then cons c <$> read_columns fuel rest
                     else if decide (t :: rest = [sym ")"]) then Some [c] else None
      | [] => None
      end
  end.
(** A change of type casts the column as it is. *)
Definition read_alter (t : string) (ts : list token) : option TableDdl :=
  match ts with
  | TWord a :: TWord b :: TIdent col :: rest =>
      if decide (a = "ALTER" /\ b = "COLUMN") then
        if decide (rest = words ["SET"; "NOT"; "NULL"]) then Some (DdlSetNotNull t col)
        else if decide (rest = words ["DROP"; "NOT"; "NULL"]) then Some (DdlDropNotNull t col)
        else match rest with
             | TWord w :: TWord ty :: rest =>
                 if decide (w = "TYPE" /\ rest = [TWord "USING"; TIdent col; sym ":"; sym ":"; TWord ty]) then Some (DdlAlterType t col ty) else None
             | _ => None
             end
      else if decide (a = "ADD" /\ b = "COLUMN") then
        '(c, rest) ← read_column (TIdent col :: rest); if decide (rest = []) then Some (DdlAddColumn t c) else None
      else None
  | _ => None
  end.
Definition read_tokens (ts : list token) : option TableDdl :=
  match ts with
  | TWord a :: TWord b :: TIdent t :: rest =>
      if decide (a = "CREATE" /\ b = "TABLE") then
        match rest with
        | o :: rest => if decide (o = sym "(") then
                         if decide (rest = [sym ")"]) then Some (DdlCreateTable t [])
                         else DdlCreateTable t <$> read_columns (length rest) rest
                       else None
        | [] => None
        end
      else if decide (a = "CREATE" /\ b = "INDEX") then
        match rest with
        | TWord on :: TIdent tb :: o :: TIdent col :: rest =>
            if decide (on = "ON" /\ o = sym "(" /\ rest = [sym ")"]) then Some (DdlCreateIndex t tb col) else None
        | _ => None
        end
      else if decide (a = "ALTER" /\ b = "TABLE") then read_alter t rest
      else None
  | _ => None
  end.
Definition read_statement (s : string) : option TableDdl := t ← before_semicolon s; ts ← lex t; read_tokens ts.

(** ** What PostgreSQL documents *)

Abbreviation Tables := (gmap string DatabaseTable).

(** The catalog's name of a type *)
Definition documented_types : list (string * string) :=
  [("TEXT", "text"); ("VARCHAR", "character varying"); ("NUMERIC", "numeric"); ("INTEGER", "integer"); ("BIGINT", "bigint");
   ("BOOLEAN", "boolean"); ("DATE", "date"); ("TIMESTAMP", "timestamp without time zone");
   ("TIMESTAMPTZ", "timestamp with time zone"); ("UUID", "uuid"); ("JSON", "json"); ("JSONB", "jsonb"); ("BYTEA", "bytea")].
Definition documented_type (w : string) : option string := snd <$> head (filter (fun p => p.1 = w) documented_types).
(** A primary key admits no null. *)
Definition catalog_column (c : ColumnDdl) : option DatabaseColumn :=
  ty ← documented_type (cd_type c); Some (mkDbColumn (cd_name c) ty (negb (cd_not_null c || cd_primary c)) (cd_primary c)).

Definition put_column (n : string) (tb : DatabaseTable) (c : DatabaseColumn) (col : string) (t : Tables) : Tables :=
  <[n := mkDbTable (dt_name tb) (<[col := c]> (dt_columns tb))]> t.
Definition alter_column (n col : string) (f : DatabaseColumn -> DatabaseColumn) (t : Tables) : option Tables :=
  tb ← t !! n; c ← dt_columns tb !! col; Some (put_column n tb (f c) col t).
Definition set_type (ty : string) (c : DatabaseColumn) : DatabaseColumn := mkDbColumn (dc_name c) ty (dc_is_nullable c) (dc_is_primary_key c).
Definition set_nullable (b : bool) (c : DatabaseColumn) : DatabaseColumn := mkDbColumn (dc_name c) (dc_data_type c) b (dc_is_primary_key c).
Definition add_column (n : string) (c : DatabaseColumn) (t : Tables) : option Tables :=
  tb ← t !! n; if decide (dt_columns tb !! dc_name c = None) then Some (put_column n tb c (dc_name c) t) else None.
Definition create_table (n : string) (cols : list DatabaseColumn) (t : Tables) : option Tables :=
  if decide (t !! n = None /\ NoDup (dc_name <$> cols)) then
    Some (<[n := mkDbTable n (list_to_map ((fun c => (dc_name c, c)) <$> cols))]> t)
  else None.

(** The tables after a statement that succeeds *)
Definition ddl_effect (q : TableDdl) (t : Tables) : option Tables :=
  match q with
  | DdlCreateTable n cols => cols ← mapM catalog_column cols; create_table n cols t
  | DdlCreateIndex _ _ _ => Some t
  | DdlAlterType n col ty => ty ← documented_type ty; alter_column n col (set_type ty) t
  | DdlSetNotNull n col => alter_column n col (set_nullable false) t
  | DdlDropNotNull n col => alter_column n col (set_nullable true) t
  | DdlAddColumn n c => c ← catalog_column c; add_column n c t
  end.
(** The names it keeps: longer ones are cut. *)
Definition ddl_names (q : TableDdl) : list string :=
  match q with
  | DdlCreateTable n cols => n :: (cd_name <$> cols)
  | DdlCreateIndex _ n col | DdlAlterType n col _ | DdlSetNotNull n col | DdlDropNotNull n col => [n; col]
  | DdlAddColumn n c => [n; cd_name c]
  end.
Definition short (n : string) : Prop := (String.length n <= 63)%nat.

(** ** The change a statement stands for *)

(** The column of a definition: an [id] is the primary key *)
Definition defined_column (n : string) (f : Field) : DatabaseColumn :=
  mkDbColumn (camel_to_snake_case n) (expected_type (f_type f)) (if decide (n = "id") then false else f_optional f) (bool_decide (n = "id")).
Definition created_column (c : NewColumn) : DatabaseColumn :=
  match c with
  | GeneratedId => mkDbColumn "id" "uuid" false true
  | OfField n f => defined_column n f
  | Stamp n => mkDbColumn n "timestamp with time zone" false false
  | VersionColumn => mkDbColumn "version" "integer" false false
  end.
Definition enact (c : Change) (t : Tables) : option Tables :=
  match c with
  | CreateTable _ n cols => create_table n (created_column <$> cols) t
  | CreateIndex _ _ => Some t
  | AlterType n col ty => alter_column n col (set_type (expected_type ty)) t
  | SetNotNull n col => alter_column n col (set_nullable false) t
  | DropNotNull n col => alter_column n col (set_nullable true) t
  | AddColumn n fname f => add_column n (defined_column fname f) t
  | MayDropColumn _ _ | MayDropTable _ | BlankLine => Some t
  end.

(** The type the code compares with is the one the catalog gives to the type it writes. *)
Lemma type_documented t : documented_type (field_type_to_pg t) = Some (expected_type t).
Proof. by destruct t. Qed.
Lemma lexes_type t : lexes (field_type_to_pg t) [TWord (field_type_to_pg t)].
Proof. by destruct t. Qed.

Definition definition_tokens (n : string) (f : Field) : list token :=
  ([TIdent (camel_to_snake_case n); TWord (field_type_to_pg (f_type f))] ++
   (if decide (n = "id") then words ["PRIMARY"; "KEY"; "DEFAULT"; "gen_random_uuid"] ++ [sym "("; sym ")"]
    else if f_optional f then [] else words ["NOT"; "NULL"]))%list.
Definition column_tokens (c : NewColumn) : list token :=
  match c with
  | GeneratedId => ([TIdent "id"; TWord "UUID"] ++ words ["PRIMARY"; "KEY"; "DEFAULT"; "gen_random_uuid"] ++ [sym "("; sym ")"])%list
  | OfField n f => definition_tokens n f
  | Stamp n => ([TIdent n; TWord "TIMESTAMPTZ"] ++ words ["NOT"; "NULL"; "DEFAULT"; "NOW"] ++ [sym "("; sym ")"])%list
  | VersionColumn => ([TIdent "version"; TWord "INTEGER"] ++ words ["NOT"; "NULL"; "DEFAULT"] ++ [TNum "1"])%list
  end.
Lemma lexes_qi s : lexes (qi s) [TIdent s].
Proof. apply lexes_ident. Qed.
Lemma lexes_definition n f : lexes (generate_column_definition n f) (definition_tokens n f).
Proof.
  unfold generate_column_definition, definition_tokens. apply (lexes_app (qi _) _ [TIdent _]); [apply lexes_qi| |done].
  apply (lexes_after " " _ []); [done|].
  destruct (decide (n = "id")); [|destruct (f_optional f)]; (apply (lexes_app _ _ [TWord _]); [apply lexes_type|done|done]).
Qed.
Lemma lexes_column c : lexes (column_text c) (column_tokens c).
Proof.
  destruct c as [|n f|n|]; cbn [column_text column_tokens].
  - apply (lexes_after "    " _ []); [done|]. by apply (lexes_app (qi _) _ [TIdent _]); [apply lexes_qi|..].
  - apply (lexes_after "    " _ []); [done|]. apply lexes_definition.
  - apply (lexes_after "    " _ []); [done|]. by apply (lexes_app (qi _) _ [TIdent _]); [apply lexes_qi|..].
  - apply (lexes_after "    " _ []); [done|]. by apply (lexes_app (qi _) _ [TIdent _]); [apply lexes_qi|..].
Qed.

Definition definition_ddl (n : string) (f : Field) : ColumnDdl :=
  mkColumnDdl (camel_to_snake_case n) (field_type_to_pg (f_type f)) (if decide (n = "id") then false else negb (f_optional f)) (bool_decide (n = "id")).
Definition column_ddl (c : NewColumn) : ColumnDdl :=
  match c with
  | GeneratedId => mkColumnDdl "id" "UUID" false true
  | OfField n f => definition_ddl n f
  | Stamp n => mkColumnDdl n "TIMESTAMPTZ" true false
  | VersionColumn => mkColumnDdl "version" "INTEGER" true false
  end.
Lemma definition_catalog n f : catalog_column (definition_ddl n f) = Some (defined_column n f).
Proof.
  unfold catalog_column, definition_ddl, defined_column. cbn [cd_type cd_name cd_not_null cd_primary]. rewrite type_documented. cbn. f_equal.
  unfold bool_decide. destruct (decide_rel _ _ _), (decide (n = "id")); try done; by destruct (f_optional f).
Qed.
Lemma column_catalog c : catalog_column (column_ddl c) = Some (created_column c).
Proof. destruct c; [done|apply definition_catalog|done|done]. Qed.

(** What ends a column *)
Definition stops (rest : list token) : Prop := match rest with [] => True | TWord _ :: _ => False | _ => True end.
Lemma no_constraints fuel rest : stops rest -> read_constraints fuel rest = (false, false, rest).
Proof. destruct fuel, rest as [|[] rest]; done. Qed.
Lemma read_primary k rest : stops rest ->
  read_constraints (S (S k)) (words ["PRIMARY"; "KEY"; "DEFAULT"; "gen_random_uuid"] ++ sym "(" :: sym ")" :: rest)%list = (false, true, rest).
Proof.
  intros Hs. transitivity (let '(n, _, rest) := read_constraints k rest in (n, true, rest)); [reflexivity|]. by rewrite no_constraints.
Qed.
Lemma read_not_null k rest : stops rest -> read_constraints (S k) (words ["NOT"; "NULL"] ++ rest)%list = (true, false, rest).
Proof.
  intros Hs. transitivity (let '(_, p, rest) := read_constraints k rest in (true, p, rest)); [reflexivity|]. by rewrite no_constraints.
Qed.
Lemma read_definition n f rest : stops rest -> read_column (definition_tokens n f ++ rest)%list = Some (definition_ddl n f, rest).
Proof.
  intros Hs. unfold definition_tokens, definition_ddl.
  destruct (decide (n = "id")) as [E|E]; [|destruct (f_optional f)]; cbn [app read_column].
  - rewrite bool_decide_eq_true_2 by done. change (length _) with (S (S (S (S (S (S (length rest))))))).
    rewrite <-app_assoc. change ([sym "("; sym ")"] ++ rest)%list with (sym "(" :: sym ")" :: rest). by rewrite read_primary.
  - rewrite bool_decide_eq_false_2 by done. by rewrite no_constraints.
  - rewrite bool_decide_eq_false_2 by done. change (length _) with (S (S (length rest))). by rewrite read_not_null.
Qed.
Lemma read_column_tokens c rest : stops rest -> read_column (column_tokens c ++ rest)%list = Some (column_ddl c, rest).
Proof.
  intros Hs. destruct c as [|n f|n|].
  - cbn [column_tokens app read_column]. change (length _) with (S (S (S (S (S (S (length rest))))))).
    rewrite <-app_assoc. change ([sym "("; sym ")"] ++ rest)%list with (sym "(" :: sym ")" :: rest). by rewrite read_primary.
  - by apply read_definition.
  - transitivity ('(not_null, primary, rest) ← Some (let '(_, p, rest) := read_constraints (S (S (S (S (length rest))))) rest in (true, p, rest));
      Some (mkColumnDdl n "TIMESTAMPTZ" not_null primary, rest)); [reflexivity|]. by rewrite no_constraints.
  - transitivity ('(not_null, primary, rest) ← Some (let '(_, p, rest) := read_constraints (S (S (length rest))) rest in (true, p, rest));
      Some (mkColumnDdl "version" "INTEGER" not_null primary, rest)); [reflexivity|]. by rewrite no_constraints.
Qed.
Lemma column_tokens_first c : exists n ts, column_tokens c = TIdent n :: ts.
Proof. destruct c; by do 2 eexists. Qed.
Lemma read_columns_tokens cols fuel : cols <> [] -> (length cols <= fuel)%nat ->
  read_columns fuel (intersperse [sym ","] (column_tokens <$> cols) ++ [sym ")"])%list = Some (column_ddl <$> cols).
Proof.
  revert fuel. induction cols as [|c cols IH]; intros [|fuel] Hne Hf; try done; cbn in Hf; [lia|]. destruct cols as [|d cols].
  - cbn [fmap list_fmap intersperse read_columns]. by rewrite read_column_tokens.
  - change (intersperse [sym ","] (column_tokens <$> c :: d :: cols)) with
      (column_tokens c ++ [sym ","] ++ intersperse [sym ","] (column_tokens <$> d :: cols))%list.
    cbn [read_columns]. rewrite <-!app_assoc, read_column_tokens by done. cbn [mbind option_bind app].
    rewrite decide_True by done. rewrite (IH fuel); [done|done|cbn in *; lia].
Qed.

(** ** Statements *)

Lemma comma_concat l : String.concat eol (comma_lines l) = String.concat ("," +:+ eol) l.
Proof.
  induction l as [|a l IH]; [done|]. destruct l as [|b l]; [done|].
  change (comma_lines (a :: b :: l)) with ((a +:+ ",") :: comma_lines (b :: l)). rewrite (concat_cons2 _ a), <-IH.
  destruct (comma_lines (b :: l)) as [|x k] eqn:E; [by destruct l|]. by rewrite concat_cons2, !str_app_assoc.
Qed.
Lemma concat_join sep l k : l <> [] -> k <> [] -> String.concat sep (l ++ k)%list = String.concat sep l +:+ sep +:+ String.concat sep k.
Proof.
  intros Hl Hk. induction l as [|a l IH]; [done|]. destruct l as [|b l].
  - destruct k; [done|]. cbn [app]. by rewrite concat_cons2.
  - cbn [app] in *. rewrite !concat_cons2, IH by done. by rewrite !str_app_assoc.
Qed.
Lemma read_lexed s ts q : lexes s ts -> read_tokens ts = Some q -> read_statement (s +:+ ";") = Some q.
Proof. unfold read_statement, lexes. intros Hl Hr. change ";" with (String statement_end EmptyString). by rewrite before_semicolon_app; cbn; rewrite Hl. Qed.

(** What a statement reads as *)
Definition statement_ddl (c : Change) : option TableDdl :=
  match c with
  | CreateTable _ n cols => Some (DdlCreateTable n (column_ddl <$> cols))
  | CreateIndex n col => Some (DdlCreateIndex ("idx_" +:+ n +:+ "_" +:+ col) n col)
  | AlterType n col ty => Some (DdlAlterType n col (field_type_to_pg ty))
  | SetNotNull n col => Some (DdlSetNotNull n col)
  | DropNotNull n col => Some (DdlDropNotNull n col)
  | AddColumn n fname f => Some (DdlAddColumn n (definition_ddl fname f))
  | MayDropColumn _ _ | MayDropTable _ | BlankLine => None
  end.
Lemma statement_enacts c q t : statement_ddl c = Some q -> ddl_effect q t = enact c t.
Proof.
  assert (Hm : forall cols, mapM catalog_column (column_ddl <$> cols) = Some (created_column <$> cols)).
  { induction cols as [|x cols IH]; [done|]. cbn. by rewrite column_catalog; cbn; rewrite IH. }
  destruct c; cbn [statement_ddl]; intros [= <-]; cbn [ddl_effect enact]; try done.
  - by rewrite Hm.
  - by rewrite type_documented.
  - by rewrite definition_catalog.
Qed.

Lemma reads_create_table m n cols : cols <> [] ->
  read_statement (statement_text (CreateTable m n cols)) = Some (DdlCreateTable n (column_ddl <$> cols)).
Proof.
  intros Hne. unfold statement_text. cbn [statement_lines change_lines tail app].
  change (("CREATE TABLE " +:+ qi n +:+ " (") :: comma_lines (column_text <$> cols) ++ [");"])%list
    with ((("CREATE TABLE " +:+ qi n +:+ " (") :: comma_lines (column_text <$> cols)) ++ [")" +:+ ";"])%list.
  rewrite concat_last. eapply read_lexed.
  - change ((?a :: ?b) ++ [")"])%list with (a :: (b ++ [")"]))%list.
    assert (Hl : comma_lines (column_text <$> cols) <> []) by (destruct cols as [|? []]; done).
    replace (String.concat eol _) with (("CREATE TABLE " +:+ qi n +:+ " (") +:+ eol +:+ String.concat ("," +:+ eol) (column_text <$> cols) +:+ eol +:+ ")").
    + apply (lexes_app _ _ ([TWord "CREATE"; TWord "TABLE"] ++ [TIdent n] ++ [sym "("])); [| |done].
      * apply lexes_after; [done|]. by apply lexes_app; [apply lexes_qi|..].
      * apply (lexes_after eol _ []); [done|].
        apply (lexes_app _ _ (intersperse [sym ","] (column_tokens <$> cols))); [|apply (lexes_after eol _ []); done|done].
        apply lexes_join; [done|done|done|]. apply Forall2_fmap, Forall_Forall2_diag, Forall_forall. intros c _. apply lexes_column.
    + rewrite <-comma_concat, app_comm_cons, concat_join by done. cbn [String.concat]. destruct (comma_lines (column_text <$> cols)) as [|x l] eqn:E; [done|].
      by rewrite !str_app_assoc.
  - rewrite !app_nil_r. cbn [app read_tokens]. rewrite decide_True by done. rewrite decide_True by done. rewrite decide_False.
    + rewrite read_columns_tokens; [done|done|]. rewrite length_app. cbn [length].
      enough (length cols <= S (length (intersperse [sym ","] (column_tokens <$> cols))))%nat by lia.
      clear. induction cols as [|c cols IH]; [cbn; lia|]. destruct cols as [|d cols]; [cbn; lia|].
      change (intersperse [sym ","] (column_tokens <$> c :: d :: cols)) with
        (column_tokens c ++ [sym ","] ++ intersperse [sym ","] (column_tokens <$> d :: cols))%list. rewrite !length_app. cbn [length] in *. lia.
    + destruct cols as [|c cols]; [done|]. destruct (column_tokens_first c) as (i & ts & E). destruct cols as [|d cols];
        cbn [fmap list_fmap intersperse]; by rewrite E.
Qed.

(** An index is only made on a column whose name needs no quoting. *)
Definition plain_index (c : Change) : Prop :=
  match c with CreateIndex _ col => replace_dquote col = col | CreateTable _ _ cols => cols <> [] | _ => True end.
(** The pieces of a statement, one after the other *)
Ltac ddl_pieces :=
  first
    [ apply lexes_qi | apply lexes_type | apply lexes_definition
    | eapply lexes_app; [solve [ddl_pieces]|ddl_pieces|reflexivity]
    | eapply lexes_after; [reflexivity|ddl_pieces]
    | reflexivity ].
Ltac ddl_text ts :=
  rewrite <-!str_app_assoc; apply (read_lexed _ ts); [rewrite !str_app_assoc; eapply lexes_eq; [ddl_pieces|reflexivity]|].

Lemma reads_statement c : is_statement c = true -> plain_index c -> exists q, read_statement (statement_text c) = Some q /\ statement_ddl c = Some q.
Proof.
  intros Hs Hp. destruct c as [m n cols|n col|n col ty|n col|n col|n fname f|n col|n|]; try done; (eexists; split; [|reflexivity]);
    [by apply reads_create_table|unfold statement_text; cbn [statement_lines change_lines String.concat]..].
  - assert (dquote_s +:+ col +:+ dquote_s = qi col) as E by (unfold qi; cbn in Hp; by rewrite Hp).
    change ");" with (")" +:+ ";").
    replace (dquote_s +:+ col +:+ dquote_s +:+ ")" +:+ ";") with (qi col +:+ ")" +:+ ";") by (by rewrite <-E, !str_app_assoc).
    generalize ("idx_" +:+ n +:+ "_" +:+ col); intros index.
    ddl_text ([TWord "CREATE"; TWord "INDEX"; TIdent index; TWord "ON"; TIdent n; sym "("; TIdent col; sym ")"]). reflexivity.
  - ddl_text ([TWord "ALTER"; TWord "TABLE"; TIdent n; TWord "ALTER"; TWord "COLUMN"; TIdent col; TWord "TYPE"; TWord (field_type_to_pg ty);
               TWord "USING"; TIdent col; sym ":"; sym ":"; TWord (field_type_to_pg ty)]).
    cbn [read_tokens]. rewrite decide_False, decide_False, decide_True by (done || by intros []). cbn [read_alter].
    rewrite decide_True by done. rewrite decide_False, decide_False by done. by rewrite decide_True.
  - change " SET NOT NULL;" with (" SET NOT NULL" +:+ ";").
    ddl_text ([TWord "ALTER"; TWord "TABLE"; TIdent n; TWord "ALTER"; TWord "COLUMN"; TIdent col; TWord "SET"; TWord "NOT"; TWord "NULL"]).
    reflexivity.
  - change " DROP NOT NULL;" with (" DROP NOT NULL" +:+ ";").
    ddl_text ([TWord "ALTER"; TWord "TABLE"; TIdent n; TWord "ALTER"; TWord "COLUMN"; TIdent col; TWord "DROP"; TWord "NOT"; TWord "NULL"]).
    reflexivity.
  - ddl_text ([TWord "ALTER"; TWord "TABLE"; TIdent n; TWord "ADD"; TWord "COLUMN"] ++ definition_tokens fname f)%list.
    pose proof (read_definition fname f [] I) as Hd. rewrite app_nil_r in Hd. unfold definition_tokens in *.
    cbn [app read_tokens] in *. rewrite decide_False, decide_False, decide_True by (done || by intros []). cbn [read_alter].
    rewrite decide_False by (by intros []). rewrite decide_True by done. by rewrite Hd.
Qed.
