(* ===== verification/CliMigrateRuns.v ===== *)
(** * Runs of the migrations of the command line

    A run takes the files that were not run before, in the order of their names, each whole
    or not at all, and records them; run again it does nothing.  Over a database whose
    statements do what their documentation says, what is generated brings the comparison to
    rest. *)

From S2P Require Import Prelude Json SchemaTypes SqlBuilder Scan SchemaDsl SchemaDslSpec InterfaceParser InterfaceSpec CliMigrate CliMigrateSpec MigrateDdl.

#[local] Open Scope string_scope.

(** ** Files *)

Section Runs.
Context {rx : Regex} {D E : Type} {pg : Postgres D E}.
Variable md5 : string -> string.

Abbreviation Store := (Store (D := D)).
Abbreviation apply_files := (apply_files (E := E) md5).
Abbreviation apply_migrations := (apply_migrations (E := E) md5).

(** Files run one after the other, each of them whole and recorded *)
Inductive Ran : list (string * string) -> Store -> Store -> Prop :=
  | ran_none s : Ran [] s s
  | ran_file f content rest s ss d s' :
      parse_sql_statements content = Returns ss -> execute_all 1 ss (st_db s) = inl d -> f ∉ (st_applied s).*1 ->
      Ran rest (mkStore d (st_applied s ++ [(f, md5 content)])%list) s' ->
      Ran ((f, content) :: rest) s s'.

(** The files to run: those without a row *)
Definition pending (applied : gmap string string) (files : list MigrationFile) : list (string * string) :=
  omap (fun f => content ← mf_content f; match applied !! mf_name f with None => Some (mf_name f, content) | Some _ => None end) files.

Lemma run_file_ran f content s s' :
  run_file md5 f content s = Returns (inl s') ->
  exists ss d, parse_sql_statements content = Returns ss /\ execute_all (E := E) 1 ss (st_db s) = inl d /\
    (f ∉ (st_applied s).*1) /\ s' = mkStore d (st_applied s ++ [(f, md5 content)])%list.
Proof.
  unfold run_file. intros Hr. apply bind_returns in Hr as (ss & Hss & Hr).
  destruct (execute_all _ _ _) as [d|e] eqn:Hd; [|done]. destruct (decide _) as [|Hf]; [done|].
  destruct (pg_commit d); [done|]. injection Hr as <-. by exists ss, d.
Qed.

Lemma files_ran applied files s r s' :
  apply_files applied files s = Returns (r, s') ->
  exists ran, Ran ran s s' /\ ran `prefix_of` pending applied files /\
    (r = inl tt -> ran = pending applied files /\
       forall f, f ∈ files -> exists content, mf_content f = Some content /\
         (applied !! mf_name f = Some (md5 content) \/ (mf_name f, content) ∈ ran)).
Proof.
  revert s. induction files as [|f files IH]; intros s Ha; cbn in Ha.
  { injection Ha as <- <-. exists []. split; [constructor|]. split; [done|]. intros _. split; [done|]. intros f Hf. by apply not_elem_of_nil in Hf. }
  destruct (mf_content f) as [content|] eqn:Hc.
  2: { injection Ha as <- <-. exists []. split; [constructor|]. split; [apply prefix_nil|done]. }
  unfold pending. cbn [omap list_omap]. rewrite Hc. cbn [mbind option_bind].
  destruct (applied !! mf_name f) as [checksum|] eqn:Hl.
  - destruct (decide _) as [->|]; [|injection Ha as <- <-; exists []; split; [constructor|]; split; [apply prefix_nil|done]].
    destruct (IH s Ha) as (ran & Hran & Hpre & Hall). exists ran. split; [done|]. split; [done|]. intros Hr.
    destruct (Hall Hr) as [Hp Hf]. split; [done|]. intros g [->|Hg]%elem_of_cons; [|by apply Hf]. exists content. split; [done|by left].
  - apply bind_returns in Ha as ([s1|e] & Hrun & Ha); [|injection Ha as <- <-; exists []; split; [constructor|]; split; [apply prefix_nil|done]].
    apply run_file_ran in Hrun as (ss & d & Hss & Hd & Hnew & ->).
    destruct (IH _ Ha) as (ran & Hran & Hpre & Hall). exists ((mf_name f, content) :: ran).
    split; [by econstructor|]. split; [by apply prefix_cons|]. intros Hr. destruct (Hall Hr) as [-> Hf]. split; [done|].
    intros g [->|Hg]%elem_of_cons; [exists content; split; [done|right; left]|].
    destruct (Hf g Hg) as (c & Hgc & [?|?]); exists c; (split; [done|]); [by left|right; by right].
Qed.

Lemma ran_applied ran s s' :
  Ran ran s s' -> st_applied s' = (st_applied s ++ ((fun p => (p.1, md5 p.2)) <$> ran))%list.
Proof. induction 1 as [s|f c rest s ss d s' _ _ _ _ IH]; [by rewrite app_nil_r|]. rewrite IH. cbn. by rewrite <-app_assoc. Qed.
Lemma ran_unique ran s s' : Ran ran s s' -> NoDup (st_applied s).*1 -> NoDup (st_applied s').*1.
Proof.
  induction 1 as [s|f c rest s ss d s' _ _ Hf _ IH]; [done|]. intros Hs. apply IH. cbn. rewrite fmap_app.
  apply NoDup_app. split; [done|]. split; [|by apply NoDup_singleton].
  intros x Hx ->%list_elem_of_singleton. done.
Qed.
(** The table of migrations as the map it is read into *)
Definition applied_map (s : Store) : gmap string string := list_to_map (reverse (st_applied s)).
Lemma applied_lookup s f c : NoDup (st_applied s).*1 -> (f, c) ∈ st_applied s -> applied_map s !! f = Some c.
Proof.
  intros Hn Hin. apply elem_of_list_to_map_1; [|by apply elem_of_reverse_2].
  by rewrite fmap_reverse, reverse_Permutation.
Qed.
Lemma nothing_to_do applied files s :
  Forall (fun f => exists c, mf_content f = Some c /\ applied !! mf_name f = Some (md5 c)) files ->
  apply_files applied files s = Returns (inl tt, s).
Proof.
  induction 1 as [|f files (c & Hc & Hl) Hfs IH]; [done|]. cbn. rewrite Hc, Hl. by rewrite decide_True.
Qed.

Lemma pending_sorted applied files :
  StronglySorted name_before files -> StronglySorted String.le (pending applied files).*1.
Proof.
  induction 1 as [|f files Hs IH Hf]; [constructor|]. unfold pending. cbn [omap list_omap].
  destruct (mf_content f ≫= _) as [[n c]|] eqn:Hc; [|exact IH]. cbn. constructor; [exact IH|].
  assert (n = mf_name f) as ->. { destruct (mf_content f); cbn in Hc; [|done]. case_match; [done|]. by injection Hc as <- _. }
  apply Forall_fmap, Forall_forall. intros [n' c'] Hin. apply list_elem_of_omap in Hin as (g & Hg & Hgc).
  rewrite Forall_forall in Hf. cbn. destruct (mf_content g); cbn in Hgc; [|done]. case_match; [done|]. injection Hgc as <- _.
  by apply Hf.
Qed.
Lemma sorted_prefix (l k : list string) : l `prefix_of` k -> StronglySorted String.le k -> StronglySorted String.le l.
Proof.
  intros [r ->]. induction l as [|x l IH]; [constructor|]. cbn. intros Hs. inversion Hs as [|? ? Hl Hx]; subst.
  constructor; [by apply IH|]. by apply Forall_app in Hx as [Hx _].
Qed.
#[local] Instance name_before_trans : Transitive name_before.
Proof. intros a b c. unfold name_before. by transitivity (mf_name b). Qed.
#[local] Instance name_before_total : Total name_before.
Proof. intros a b. unfold name_before. apply (total String.le). Qed.

(** The SQL files of a directory, in the order of their names *)
Definition sql_files (files : list MigrationFile) : list MigrationFile :=
  merge_sort name_before (filter (fun f => is_sql f = true) files).

Lemma ends_apply `{!DollarLaws} applied files s : ends (apply_files applied files s).
Proof.
  revert s. induction files as [|f files IH]; intros s; cbn; [done|].
  destruct (mf_content f) as [content|]; [|done]. destruct (applied !! _); [destruct (decide _); [apply IH|done]|].
  apply ends_bind.
  - unfold run_file. apply ends_bind; [apply ends_statements|]. intros ss _. apply ends_ret.
  - intros [s1|e] _; [apply IH|done].
Qed.

(** C31: A run ends.  Whatever happens, it has run files that had no row, each whole and in
    the order of the names, and recorded each with its checksum; when it succeeds every SQL
    file has its row, and to run it again does nothing. *)
Theorem migrations_once `{!DollarLaws} files s r s' :
  NoDup (st_applied s).*1 ->
  ends (apply_migrations (Some (Some <$> files)) s) /\
  (apply_migrations (Some (Some <$> files)) s = Returns (r, s') ->
   exists ran, Ran ran s s' /\ StronglySorted String.le ran.*1 /\
     st_applied s' = (st_applied s ++ ((fun p => (p.1, md5 p.2)) <$> ran))%list /\ NoDup (st_applied s').*1 /\
     Forall (fun p => mkMigrationFile p.1 (Some p.2) ∈ files) ran /\
     (r = inl tt ->
        (forall f c, mkMigrationFile f (Some c) ∈ files -> is_sql (mkMigrationFile f (Some c)) = true -> (f, md5 c) ∈ st_applied s') /\
        apply_migrations (Some (Some <$> files)) s' = Returns (inl tt, s'))).
Proof.
  intros Hn. assert (Hid : mapM (M := option) id (Some <$> files) = Some files).
  { clear. induction files as [|f files IH]; [done|]. cbn in *. by rewrite IH. }
  unfold CliMigrate.apply_migrations. cbn [default]. unfold default, id in *. rewrite Hid. fold (sql_files files). split; [apply ends_apply|].
  intros Ha. apply files_ran in Ha as (ran & Hran & Hpre & Hall). exists ran.
  pose proof (ran_applied _ _ _ Hran) as Happ. pose proof (ran_unique _ _ _ Hran Hn) as Hn'.
  assert (Hfile : forall f, f ∈ sql_files files -> f ∈ files /\ is_sql f = true).
  { intros f Hf. unfold sql_files in Hf. rewrite merge_sort_Permutation in Hf. by apply list_elem_of_filter in Hf as [? ?]. }
  assert (Hfile' : forall f, f ∈ files -> is_sql f = true -> f ∈ sql_files files).
  { intros f Hf Hs. unfold sql_files. rewrite merge_sort_Permutation. by apply list_elem_of_filter. }
  split; [done|]. split; [|split; [done|split; [done|split]]].
  - eapply sorted_prefix; [destruct Hpre as [k Hk]; exists k.*1; by rewrite <-fmap_app, <-Hk|].
    apply pending_sorted, StronglySorted_merge_sort; apply _.
  - apply Forall_forall. intros [n c] Hin. destruct Hpre as [k Hk].
    assert (Hp : (n, c) ∈ pending (applied_map s) (sql_files files)) by (unfold applied_map; rewrite Hk; apply elem_of_app; by left).
    apply list_elem_of_omap in Hp as (g & Hg & Hgc). apply Hfile in Hg as [Hg _].
    destruct g as [gn [gc|]]; cbn in Hgc; [|done]. case_match; [done|]. by injection Hgc as <- <-.
  - intros Hr. destruct (Hall Hr) as [_ Hf].
    assert (Hrow : forall f, f ∈ sql_files files -> exists c, mf_content f = Some c /\ (mf_name f, md5 c) ∈ st_applied s').
    { intros f Hin. destruct (Hf f Hin) as (c & Hc & [Hl|Hl]); exists c; (split; [done|]); rewrite Happ; apply elem_of_app.
      - left. apply elem_of_reverse. by apply elem_of_list_to_map_2 in Hl.
      - right. by apply (list_elem_of_fmap_2 (fun p => (p.1, md5 p.2))) in Hl. }
    split.
    + intros f c Hin Hs. destruct (Hrow _ (Hfile' _ Hin Hs)) as (c' & Hc & Hrow'). cbn in *. by injection Hc as <-.
    + apply nothing_to_do, Forall_forall. intros f Hin. destruct (Hrow f Hin) as (c & Hc & Hrow').
      exists c. split; [done|]. by apply applied_lookup.
Qed.
End Runs.

(** ** What a change does to the catalog *)

Definition column_at (t : Tables) (n col : string) : option DatabaseColumn := tb ← t !! n; dt_columns tb !! col.
(** The tables after changes that succeed one after the other *)
Fixpoint enact_all (cs : list Change) (t : Tables) : option Tables :=
  match cs with [] => Some t | c :: cs => t ← enact c t; enact_all cs t end.
Lemma enact_all_app cs ks t : enact_all (cs ++ ks)%list t = (t ← enact_all cs t; enact_all ks t).
Proof. revert t. induction cs as [|c cs IH]; intros t; [done|]. cbn. destruct (enact c t); [apply IH|done]. Qed.

(** Where a change may change something *)
Definition at_column (c : Change) : option (string * string) :=
  match c with
  | AlterType n col _ | SetNotNull n col | DropNotNull n col => Some (n, col)
  | AddColumn n fname _ => Some (n, camel_to_snake_case fname)
  | _ => None
  end.

Lemma put_column_at n tb c col t n' col' :
  t !! n = Some tb ->
  column_at (put_column n tb c col t) n' col' = if decide (n = n' /\ col = col') then Some c else column_at t n' col'.
Proof.
  intros Ht. unfold column_at, put_column. destruct (decide (n = n')) as [<-|Hn].
  - rewrite lookup_insert_eq, Ht. cbn. destruct (decide (col = col')) as [<-|Hc].
    + rewrite lookup_insert_eq. by rewrite decide_True.
    + rewrite lookup_insert_ne by done. rewrite decide_False; [done|]. by intros [].
  - rewrite lookup_insert_ne by done. rewrite decide_False; [done|]. by intros [].
Qed.
Lemma alter_column_at n col f t t' n' col' :
  alter_column n col f t = Some t' ->
  column_at t' n' col' = if decide (n = n' /\ col = col') then f <$> column_at t n col else column_at t n' col'.
Proof.
  unfold alter_column. intros (tb & Htb & (c & Hc & [= <-])%bind_Some)%bind_Some. rewrite put_column_at by done.
  destruct (decide _) as [[<- <-]|]; [|done]. unfold column_at. rewrite Htb. cbn. by rewrite Hc.
Qed.
Lemma enact_keeps c t t' n : enact c t = Some t' -> is_Some (t !! n) -> is_Some (t' !! n).
Proof.
  intros Hc Hn.
  assert (Hput : forall n' tb col x, is_Some (put_column n' tb x col t !! n)).
  { intros n' tb col x. unfold put_column. destruct (decide (n' = n)) as [->|]; [rewrite lookup_insert_eq; by eexists|by rewrite lookup_insert_ne]. }
  destruct c; cbn in Hc; unfold alter_column, create_table, add_column in Hc; try (by injection Hc as <-).
  - destruct (decide _); [|done]. injection Hc as <-. apply lookup_insert_is_Some'. by right.
  - apply bind_Some in Hc as (tb & Htb & (x & Hx & [= <-])%bind_Some). apply Hput.
  - apply bind_Some in Hc as (tb & Htb & (x & Hx & [= <-])%bind_Some). apply Hput.
  - apply bind_Some in Hc as (tb & Htb & (x & Hx & [= <-])%bind_Some). apply Hput.
  - apply bind_Some in Hc as (tb & Htb & Hx). destruct (decide _); [|done]. injection Hx as <-. apply Hput.
Qed.
Lemma enact_elsewhere c p t t' n col :
  enact c t = Some t' -> at_column c = Some p -> p <> (n, col) -> column_at t' n col = column_at t n col.
Proof.
  intros Hc Hp Hne. destruct c; try done; cbn in Hc, Hp; injection Hp as <-.
  1-3: (erewrite alter_column_at by done; rewrite decide_False; [done|by intros [-> ->]]).
  unfold add_column in Hc. apply bind_Some in Hc as (tb & Htb & Hx). destruct (decide _); [|done]. injection Hx as <-.
  rewrite put_column_at by done. rewrite decide_False; [done|intros [Hn Hcol]; apply Hne; congruence].
Qed.
Lemma enact_all_elsewhere cs t t' n col :
  enact_all cs t = Some t' -> Forall (fun c => exists p, at_column c = Some p /\ p <> (n, col)) cs ->
  column_at t' n col = column_at t n col.
Proof.
  intros Ht Hcs. revert t Ht. induction Hcs as [|c cs (p & Hp & Hne) Hcs IH]; intros t Ht; [by injection Ht as ->|].
  cbn in Ht. apply bind_Some in Ht as (t1 & H1 & H2). rewrite (IH t1 H2). by eapply enact_elsewhere.
Qed.
Lemma enact_all_keeps cs t t' n : enact_all cs t = Some t' -> is_Some (t !! n) -> is_Some (t' !! n).
Proof.
  revert t. induction cs as [|c cs IH]; intros t Ht Hn; [by injection Ht as <-|].
  cbn in Ht. apply bind_Some in Ht as (t1 & H1 & H2). apply (IH t1 H2). by eapply enact_keeps.
Qed.

(** ** A field at rest *)

Definition settled (n : string) (t : Tables) (p : string * Field) : Prop :=
  exists c, column_at t n (camel_to_snake_case p.1) = Some c /\ column_changes n (camel_to_snake_case p.1) p.2 c = [].

Lemma field_changes_at n cols p c : c ∈ field_changes n cols p -> at_column c = Some (n, camel_to_snake_case p.1).
Proof.
  unfold field_changes, column_changes. destruct (cols !! _) as [x|]; [|by intros ->%list_elem_of_singleton].
  intros [Hc|Hc]%elem_of_app.
  - destruct (pg_type_matches _ _); [by apply not_elem_of_nil in Hc|]. by apply list_elem_of_singleton in Hc as ->.
  - destruct (negb _ && _); [by apply list_elem_of_singleton in Hc as ->|].
    destruct (_ && _); [by apply list_elem_of_singleton in Hc as ->|by apply not_elem_of_nil in Hc].
Qed.
Lemma field_settles n cols p t t' :
  column_at t n (camel_to_snake_case p.1) = cols !! camel_to_snake_case p.1 -> enact_all (field_changes n cols p) t = Some t' ->
  settled n t' p.
Proof.
  destruct p as [fname f]. cbn [fst snd]. set (col := camel_to_snake_case fname). unfold field_changes, settled. cbn [fst snd]. fold col.
  destruct (cols !! col) as [c|]; intros Hat Ht.
  - unfold column_changes in Ht. rewrite enact_all_app in Ht. apply bind_Some in Ht as (t1 & H1 & H2).
    assert (Ht1 : exists c1, column_at t1 n col = Some c1 /\ pg_type_matches (f_type f) (dc_data_type c1) = true /\
      dc_is_nullable c1 = dc_is_nullable c /\ dc_is_primary_key c1 = dc_is_primary_key c).
    { destruct (pg_type_matches (f_type f) (dc_data_type c)) eqn:Hty; [injection H1 as <-; by exists c|].
      cbn in H1. apply bind_Some in H1 as (t2 & H1 & [= ->]). rewrite (alter_column_at _ _ _ _ _ n col H1), decide_True, Hat by done.
      eexists. split; [done|]. cbn. split; [by apply bool_decide_eq_true_2|done]. }
    destruct Ht1 as (c1 & Hc1 & Hty & Hnull & Hkey).
    destruct (negb (f_optional f) && dc_is_nullable c) eqn:Hset; [|destruct (f_optional f && negb (dc_is_nullable c) && negb (dc_is_primary_key c)) eqn:Hdrop].
    + cbn in H2. apply bind_Some in H2 as (t2 & H2 & [= ->]). rewrite (alter_column_at _ _ _ _ _ n col H2), decide_True, Hc1 by done.
      eexists. split; [done|]. unfold column_changes. cbn. rewrite Hty. cbn. apply andb_true_iff in Hset as [Ho _].
      rewrite negb_true_iff in Ho. by rewrite Ho.
    + cbn in H2. apply bind_Some in H2 as (t2 & H2 & [= ->]). rewrite (alter_column_at _ _ _ _ _ n col H2), decide_True, Hc1 by done.
      eexists. split; [done|]. unfold column_changes. cbn. rewrite Hty. cbn. rewrite !andb_true_iff in Hdrop. destruct Hdrop as [[-> _] _]. done.
    + injection H2 as <-. exists c1. split; [done|]. unfold column_changes. by rewrite Hty, Hnull, Hkey, Hset, Hdrop.
  - cbn in Ht. apply bind_Some in Ht as (t1 & H1 & [= ->]). unfold add_column in H1.
    apply bind_Some in H1 as (tb & Htb & H1).
    destruct (decide _); [|done]. injection H1 as <-. cbn [dc_name defined_column]. fold col. rewrite put_column_at, decide_True by done. eexists. split; [done|].
    unfold column_changes, defined_column, pg_type_matches. cbn. rewrite (bool_decide_eq_true_2 (_ = expected_type _)) by done. cbn.
    by case_decide; case_bool_decide; destruct (f_optional f).
Qed.
Lemma settled_elsewhere n t t' p cs :
  enact_all cs t = Some t' -> Forall (fun c => exists q, at_column c = Some q /\ q <> (n, camel_to_snake_case p.1)) cs ->
  settled n t p -> settled n t' p.
Proof. intros Ht Hcs (c & Hc & Hs). exists c. split; [|done]. by rewrite (enact_all_elsewhere _ _ _ _ _ Ht Hcs). Qed.
Lemma settled_quiet n t tb p : t !! n = Some tb -> settled n t p -> field_changes n (dt_columns tb) p = [].
Proof. intros Ht (c & Hc & Hs). unfold field_changes. unfold column_at in Hc. rewrite Ht in Hc. cbn in Hc. by rewrite Hc. Qed.

Lemma fields_settle n cols ps t t' :
  NoDup ((fun p => camel_to_snake_case p.1) <$> ps : list string) ->
  (forall p, p ∈ ps -> column_at t n (camel_to_snake_case p.1) = cols !! camel_to_snake_case p.1) ->
  enact_all (ps ≫= field_changes n cols) t = Some t' -> forall p, p ∈ ps -> settled n t' p.
Proof.
  revert t. induction ps as [|q ps IH]; intros t Hn Hat Ht p Hp; [by apply not_elem_of_nil in Hp|].
  apply NoDup_cons in Hn as [Hq Hn]. cbn in Ht. rewrite enact_all_app in Ht. apply bind_Some in Ht as (t1 & H1 & H2).
  apply elem_of_cons in Hp as [->|Hp].
  - eapply settled_elsewhere; [exact H2| |eapply field_settles; [|exact H1]; apply Hat; left].
    apply Forall_forall. intros c Hc. apply list_elem_of_bind in Hc as (p & Hc & Hp). eexists. split; [by eapply field_changes_at|].
    intros [= Heq]. apply Hq. rewrite <-Heq. by apply (list_elem_of_fmap_2 (fun p => camel_to_snake_case p.1)).
  - apply (IH t1); try done. intros r Hr. rewrite <-Hat by (by right). eapply enact_all_elsewhere; [exact H1|].
    apply Forall_forall. intros c Hc. eexists. split; [by eapply field_changes_at|].
    intros [= Heq]. apply Hq. rewrite Heq. by apply (list_elem_of_fmap_2 (fun p => camel_to_snake_case p.1)).
Qed.

(** ** Models at rest *)

Section Settling.
Context {ho : HashOrder}.

Abbreviation statements := (filter (fun c => is_statement c = true)).
Definition model_statements (current : Tables) (m : Model) : list Change := statements (model_changes current m).
Definition distinct_columns (m : Model) : Prop := NoDup (camel_to_snake_case <$> (map_to_list (m_fields m)).*1).

Lemma no_statements {A} (f : A -> Change) l : (forall x, is_statement (f x) = false) -> statements (f <$> l) = [].
Proof. intros Hf. induction l as [|x l IH]; [done|]. cbn [fmap list_fmap]. by rewrite filter_cons, decide_False by (by rewrite Hf). Qed.
Lemma field_statements n cols ps : statements (ps ≫= field_changes n cols) = ps ≫= field_changes n cols.
Proof.
  apply filter_all. intros c Hc. apply list_elem_of_bind in Hc as (p & Hc & _).
  apply field_changes_at in Hc. by destruct c.
Qed.
Lemma known_statements current m tb :
  current !! table_of m = Some tb ->
  model_statements current m = hpairs (m_fields m) ≫= field_changes (table_of m) (dt_columns tb).
Proof.
  intros Ht. unfold model_statements, model_changes. rewrite Ht.
  assert (Ha : statements (generate_table_alterations m tb) = hpairs (m_fields m) ≫= field_changes (table_of m) (dt_columns tb)).
  { unfold generate_table_alterations. rewrite filter_app, field_statements.
    by rewrite (no_statements (MayDropColumn (table_of m))), app_nil_r. }
  destruct (generate_table_alterations m tb) as [|c l] eqn:Hg; [exact Ha|]. by rewrite filter_app, Ha, app_nil_r.
Qed.
Lemma new_statements current m : current !! table_of m = None -> model_statements current m = generate_create_table_sql m.
Proof. intros Ht. unfold model_statements, model_changes. rewrite Ht. reflexivity. Qed.
Lemma migration_statements models current :
  statements (migration_changes models current) = models ≫= model_statements current.
Proof.
  unfold migration_changes. rewrite filter_app.
  rewrite (no_statements MayDropTable), app_nil_r by done.
  induction models as [|m models IH]; [done|]. cbn [mbind list_bind]. by rewrite filter_app, IH.
Qed.
(** One run makes a table for every model. *)
Lemma creates_tables models current t :
  enact_all (models ≫= model_statements current) current = Some t -> forall m, m ∈ models -> is_Some (t !! table_of m).
Proof.
  intros Ht m Hm.
  assert (Hgo : forall ms t0, (forall n, is_Some (current !! n) -> is_Some (t0 !! n)) -> enact_all (ms ≫= model_statements current) t0 = Some t ->
    m ∈ ms -> is_Some (t !! table_of m)).
  { induction ms as [|k ms IH]; intros t0 H0 He Hin; [by apply not_elem_of_nil in Hin|].
    cbn in He. rewrite enact_all_app in He. apply bind_Some in He as (t1 & H1 & H2).
    apply elem_of_cons in Hin as [<-|Hin].
    - eapply enact_all_keeps; [exact H2|]. destruct (current !! table_of m) as [tb|] eqn:Hc.
      + eapply enact_all_keeps; [exact H1|]. apply H0. by eexists.
      + rewrite (new_statements _ _ Hc) in H1. cbn [generate_create_table_sql enact_all enact] in H1. unfold create_table in H1.
        destruct (decide _) as [Hd|]; [|done]. cbn in H1. injection H1 as <-. rewrite lookup_insert_eq. by eexists.
    - apply (IH t1); try done. intros n Hn. eapply enact_all_keeps; [exact H1|]. by apply H0. }
  by apply (Hgo models current).
Qed.

(** Where every model has its table, one run settles every field. *)
Lemma run_settles models current t :
  NoDup (table_of <$> models) -> Forall distinct_columns models -> (forall m, m ∈ models -> is_Some (current !! table_of m)) ->
  enact_all (models ≫= model_statements current) current = Some t ->
  forall m p, m ∈ models -> p ∈ hpairs (m_fields m) -> settled (table_of m) t p.
Proof.
  intros Hnd Hdc Hhas Ht m p Hm Hp.
  assert (Hgo : forall ms t0, NoDup (table_of <$> ms) -> (forall k, k ∈ ms -> k ∈ models) ->
    (forall k col, k ∈ ms -> column_at t0 (table_of k) col = column_at current (table_of k) col) ->
    enact_all (ms ≫= model_statements current) t0 = Some t -> m ∈ ms -> settled (table_of m) t p).
  { induction ms as [|k ms IH]; intros t0 Hn Hsub Hat He Hin; [by apply not_elem_of_nil in Hin|].
    apply NoDup_cons in Hn as [Hk Hn]. cbn in He. rewrite enact_all_app in He. apply bind_Some in He as (t1 & H1 & H2).
    destruct (Hhas k) as [tb Htb]; [apply Hsub; left|]. apply elem_of_cons in Hin as [->|Hin].
    - eapply settled_elsewhere; [exact H2| |].
      + apply Forall_forall. intros c Hc. apply list_elem_of_bind in Hc as (k' & Hc & Hk').
        destruct (Hhas k') as [tb' Htb']; [apply Hsub; by right|]. pose proof Hc as Hc'.
        rewrite (known_statements _ _ _ Htb') in Hc'. apply list_elem_of_bind in Hc' as (q & Hq & _). apply field_changes_at in Hq.
        eexists. split; [exact Hq|]. intros [= Heq _]. apply Hk. rewrite <-Heq. by apply list_elem_of_fmap_2.
      + rewrite (known_statements _ _ _ Htb) in H1. eapply fields_settle; [| |exact H1|exact Hp].
        * rewrite Forall_forall in Hdc. specialize (Hdc k (Hsub k ltac:(left))). unfold distinct_columns in Hdc.
          rewrite <-list_fmap_compose in Hdc. unfold hpairs. by rewrite horder_perm.
        * intros q Hq. rewrite Hat by left. unfold column_at. by rewrite Htb.
    - apply (IH t1); try done; [intros k' Hk'; apply Hsub; by right|].
      intros k' col Hk'. rewrite <-Hat by (by right). eapply enact_all_elsewhere; [exact H1|].
      apply Forall_forall. intros c Hc. rewrite (known_statements _ _ _ Htb) in Hc.
      apply list_elem_of_bind in Hc as (q & Hq & _). apply field_changes_at in Hq. eexists. split; [exact Hq|].
      intros [= Heq _]. apply Hk. rewrite Heq. by apply list_elem_of_fmap_2. }
  apply (Hgo models current); done.
Qed.
Lemma settled_nothing models t :
  (forall m, m ∈ models -> is_Some (t !! table_of m)) ->
  (forall m p, m ∈ models -> p ∈ hpairs (m_fields m) -> settled (table_of m) t p) ->
  models ≫= model_statements t = [].
Proof.
  intros Hhas Hs. assert (Hm : forall m, m ∈ models -> model_statements t m = []).
  { intros m Hm. destruct (Hhas m Hm) as [tb Htb]. rewrite (known_statements _ _ _ Htb).
    assert (Hp : forall p, p ∈ hpairs (m_fields m) -> field_changes (table_of m) (dt_columns tb) p = []).
    { intros p Hp. eapply settled_quiet; [exact Htb|by apply Hs]. }
    clear -Hp. induction (hpairs (m_fields m)) as [|p ps IH]; [done|]. cbn. rewrite Hp by left. apply IH. intros q Hq. apply Hp. by right. }
  clear -Hm. induction models as [|m models IH]; [done|]. cbn. rewrite Hm by left. apply IH. intros k Hk. apply Hm. by right.
Qed.

(** Names stay as they may be. *)
Lemma enact_named c t t' : named c -> enact c t = Some t' -> named_catalog t -> named_catalog t'.
Proof.
  intros Hc He Ht.
  assert (Hput : forall n tb x col, t !! n = Some tb -> one_line col -> named_catalog (put_column n tb x col t)).
  { intros n tb x col Hn Hcol. apply map_Forall_insert_2; [|done]. destruct (Ht n tb Hn) as [Hl Hcols]. split; [done|].
    by apply map_Forall_insert_2. }
  destruct c; cbn in He, Hc; unfold alter_column, create_table, add_column in He; try (by injection He as <-).
  - destruct (decide _); [|done]. injection He as <-. destruct Hc as (_ & Hn & Hcols). apply map_Forall_insert_2; [|done].
    split; [by apply tame_line|]. cbn. intros col x Hx. apply elem_of_list_to_map_2 in Hx.
    apply list_elem_of_fmap in Hx as (cc & [= -> _] & Hin). apply list_elem_of_fmap in Hin as (nc & -> & Hin). rewrite Forall_forall in Hcols. specialize (Hcols _ Hin).
    destruct nc; cbn in *; [literal|by apply tame_line, tame_snake|by apply tame_line|literal].
  - apply bind_Some in He as (tb & Htb & (x & Hx & [= <-])%bind_Some). apply Hput; [done|apply tame_line, Hc].
  - apply bind_Some in He as (tb & Htb & (x & Hx & [= <-])%bind_Some). apply Hput; [done|apply tame_line, Hc].
  - apply bind_Some in He as (tb & Htb & (x & Hx & [= <-])%bind_Some). apply Hput; [done|apply tame_line, Hc].
  - apply bind_Some in He as (tb & Htb & Hx). destruct (decide _); [|done]. injection Hx as <-. apply Hput; [done|apply tame_line, tame_snake, Hc].
Qed.
Lemma enact_all_named cs t t' : Forall named cs -> enact_all cs t = Some t' -> named_catalog t -> named_catalog t'.
Proof.
  intros Hcs. revert t. induction Hcs as [|c cs Hc Hcs IH]; intros t He Ht; [by injection He as <-|].
  cbn in He. apply bind_Some in He as (t1 & H1 & H2). apply (IH t1); [done|]. by eapply enact_named.
Qed.

Section Database.
Context {rx : Regex} `{!DollarLaws} {D E : Type} {pg : Postgres D E}.
Variable md5 : string -> string.
(** The tables of the database, as [get_current_database_schema] reads them *)
Variable catalog : D -> Tables.
Variable models : list Model.

(** A statement that succeeds does to the catalog what its text says, names being short enough
    to be kept. *)
Class Documented : Prop := {
  execute_documented s q d d' :
    read_statement s = Some q -> Forall short (ddl_names q) -> pg_execute s d = inl d' -> ddl_effect q (catalog d) = Some (catalog d')
}.
Definition short_model (m : Model) : Prop := short (table_of m) /\ map_Forall (fun n _ => short (camel_to_snake_case n)) (m_fields m).

(** The statements there are: of a new table, or of a field *)
Lemma statement_cases (current : Tables) c : c ∈ migration_changes models current -> is_statement c = true ->
  exists m, m ∈ models /\ (c ∈ generate_create_table_sql m \/ exists cols p, p ∈ hpairs (m_fields m) /\ c ∈ field_changes (table_of m) cols p).
Proof.
  intros Hc Hs. assert (c ∈ models ≫= model_statements current) as Hin by (rewrite <-migration_statements; by apply list_elem_of_filter).
  apply list_elem_of_bind in Hin as (m & Hin & Hm). exists m. split; [done|]. destruct (current !! table_of m) as [tb|] eqn:Ht.
  - right. rewrite (known_statements _ _ _ Ht) in Hin. apply list_elem_of_bind in Hin as (p & Hin & Hp). by exists (dt_columns tb), p.
  - left. by rewrite new_statements in Hin.
Qed.
Lemma field_change_short n cols p c q : short n -> short (camel_to_snake_case p.1) -> c ∈ field_changes n cols p ->
  statement_ddl c = Some q -> Forall short (ddl_names q).
Proof.
  intros Hn Hp. unfold field_changes, column_changes. destruct (cols !! _) as [x|].
  - intros [Hc|Hc]%elem_of_app; [destruct (pg_type_matches _ _)|destruct (_ && _); [|destruct (_ && _)]];
      try (by apply not_elem_of_nil in Hc); apply list_elem_of_singleton in Hc as ->; intros [= <-]; cbn;
      by repeat apply Forall_cons_2.
  - intros ->%list_elem_of_singleton [= <-]. cbn. by repeat apply Forall_cons_2.
Qed.
Lemma change_short current c q : Forall short_model models -> c ∈ migration_changes models current -> is_statement c = true ->
  statement_ddl c = Some q -> Forall short (ddl_names q).
Proof.
  intros Hsh Hc Hs. destruct (statement_cases current c Hc Hs) as (m & Hm & Hin). rewrite Forall_forall in Hsh. destruct (Hsh m Hm) as [Ht Hf].
  assert (Hp : forall p, p ∈ hpairs (m_fields m) -> short (camel_to_snake_case p.1)).
  { intros [n f] Hp%elem_of_hpairs. by apply (Hf n f). }
  destruct Hin as [Hin|(cols & p & Hpin & Hin)]; [|eapply field_change_short; [done|by apply Hp|done]].
  unfold generate_create_table_sql in Hin. rewrite !elem_of_cons in Hin.
  destruct Hin as [->|[->|[->|Hin]]]; [..|by apply not_elem_of_nil in Hin]; intros [= <-]; cbn [ddl_names]; constructor; try done;
    [|constructor; [by vm_compute; lia|constructor]..].
  apply Forall_forall. intros x Hx. apply list_elem_of_fmap in Hx as (cd & -> & Hx). apply list_elem_of_fmap in Hx as (nc & -> & Hx).
  unfold new_columns in Hx. rewrite !elem_of_app, list_elem_of_fmap in Hx.
  destruct Hx as [Hx|[(p & -> & Hx)|Hx]].
  - destruct (decide _); [by apply not_elem_of_nil in Hx|]. apply list_elem_of_singleton in Hx as ->. vm_compute. lia.
  - apply list_elem_of_filter in Hx as [_ Hx]. by apply Hp.
  - rewrite !elem_of_cons in Hx. destruct Hx as [->|[->|[->|Hx]]]; [vm_compute; lia..|by apply not_elem_of_nil in Hx].
Qed.
Lemma change_plain current c : c ∈ migration_changes models current -> is_statement c = true -> plain_index c.
Proof.
  intros Hc Hs. destruct (statement_cases current c Hc Hs) as (m & Hm & [Hin|(cols & p & Hpin & Hin)]).
  - unfold generate_create_table_sql in Hin. rewrite !elem_of_cons in Hin. destruct Hin as [->|[->|[->|Hin]]]; [|done|done|by apply not_elem_of_nil in Hin].
    cbn. unfold new_columns. intros Hnil. apply app_eq_nil in Hnil as [_ Hnil]. by apply app_eq_nil in Hnil as [_ Hnil].
  - apply field_changes_at in Hin. by destruct c.
Qed.

Lemma executes `{!Documented} n cs d d' : Forall short_model models ->
  Forall (fun c => is_statement c = true /\ exists current, c ∈ migration_changes models current) cs ->
  execute_all (E := E) n (statement_text <$> cs) d = inl d' -> enact_all cs (catalog d) = Some (catalog d').
Proof.
  intros Hsh Hcs. revert n d. induction Hcs as [|c cs [Hs [current Hc]] Hcs IH]; intros n d He; cbn in He; [by injection He as ->|].
  destruct (pg_execute _ d) as [d1|] eqn:Hd; [|done]. cbn.
  destruct (reads_statement c Hs (change_plain current c Hc Hs)) as (q & Hr & Hq).
  rewrite <-(statement_enacts c q) by done.
  rewrite (execute_documented _ q d d1 Hr (change_short current c q Hsh Hc Hs Hq) Hd). by apply (IH (S n)).
Qed.
(** Running the file that is generated enacts its statements. *)
Lemma generated_enacts `{!Documented} f now s s' :
  one_line now -> Forall named_model models -> Forall short_model models -> named_catalog (catalog (st_db s)) ->
  run_file (E := E) md5 f (generate_migration_sql now models (catalog (st_db s))) s = Returns (inl s') ->
  enact_all (models ≫= model_statements (catalog (st_db s))) (catalog (st_db s)) = Some (catalog (st_db s')) /\
  named_catalog (catalog (st_db s')).
Proof.
  intros Hnow Hm Hsh Hcat Hr. apply run_file_ran in Hr as (ss & d & Hss & Hd & _ & ->). cbn.
  rewrite migration_read_back in Hss by done. injection Hss as <-. rewrite <-migration_statements.
  assert (Hen : enact_all (statements (migration_changes models (catalog (st_db s)))) (catalog (st_db s)) = Some (catalog d)).
  { eapply executes; [done| |exact Hd]. apply Forall_forall. intros c Hc. apply list_elem_of_filter in Hc as [Hc Hin]. by split; [|eexists]. }
  split; [done|]. eapply enact_all_named; [|exact Hen|done]. apply Forall_forall. intros c Hc.
  apply list_elem_of_filter in Hc as [_ Hc]. pose proof (migration_named models _ Hm Hcat) as Hn. rewrite Forall_forall in Hn. by apply Hn.
Qed.

(** C32: The comparison comes to rest.  Over a database in which a statement that succeeds does
    to the catalog what its text says, types being named as PostgreSQL names them there, two
    migrations generated and run one after the other leave no statement for a third; where
    every model had its table, a single one is enough.  Names are no longer than PostgreSQL
    keeps them, tables differ and so do the columns of a model. *)
Theorem migrations_settle `{!Documented} f1 f2 now1 now2 s s1 s2 :
  Forall named_model models -> Forall short_model models -> NoDup (table_of <$> models) -> Forall distinct_columns models ->
  named_catalog (catalog (st_db s)) -> one_line now1 -> one_line now2 ->
  run_file (E := E) md5 f1 (generate_migration_sql now1 models (catalog (st_db s))) s = Returns (inl s1) ->
  run_file (E := E) md5 f2 (generate_migration_sql now2 models (catalog (st_db s1))) s1 = Returns (inl s2) ->
  filter (fun c => is_statement c = true) (migration_changes models (catalog (st_db s2))) = [] /\
  ((forall m, m ∈ models -> is_Some (catalog (st_db s) !! table_of m)) ->
   filter (fun c => is_statement c = true) (migration_changes models (catalog (st_db s1))) = []).
Proof.
  intros Hm Hsh Hnd Hdc Hcat Hn1 Hn2 H1 H2. rewrite !migration_statements.
  apply generated_enacts in H1 as [H1 Hcat1]; [|done..]. apply generated_enacts in H2 as [H2 _]; [|done..].
  pose proof (creates_tables _ _ _ H1) as Hhas1. pose proof (creates_tables _ _ _ H2) as Hhas2. split.
  - apply settled_nothing; [done|]. by apply (run_settles models (catalog (st_db s1))).
  - intros Hhas. apply settled_nothing; [done|]. by apply (run_settles models (catalog (st_db s))).
Qed.
End Database.
End Settling.

(** ** Examples *)

Module RunExamples.
Import MigrateExamples.
#[local] Existing Instances enum_order matcher.

(** *** A database that reads its statements *)

#[local] Instance pg : Postgres Tables unit := {|
  pg_execute := fun s t =>
    match read_statement s with
    | Some q => match ddl_effect q t with Some t' => inl t' | None => inr tt end
    | None => inr tt
    end;
  pg_commit := fun _ => None
|}.
#[local] Instance documented : Documented (pg := pg) (fun t => t).
Proof.
  split. intros s q d d' Hr _. cbn. rewrite Hr. destruct (ddl_effect q d); [|done]. by intros [= <-].
Qed.

(** *** Two migrations of two models *)

Definition sum (s : string) : string := s.
Definition start : Store (D := Tables) := mkStore tables [].
Definition next (f now : string) (s : Store (D := Tables)) : Outcome (Store (D := Tables) + MigrateError (E := unit)) :=
  run_file sum f (generate_migration_sql now [contact; note] (st_db s)) s.
Definition after_first : Store (D := Tables) := match next "1.sql" "t1" start with Returns (inl s) => s | _ => start end.
Definition after_second : Store (D := Tables) := match next "2.sql" "t2" after_first with Returns (inl s) => s | _ => start end.

(** A table that was just made is altered: the version it gets is no number of the schema. *)
Example created_then_altered :
  filter (fun c => is_statement c = true) (migration_changes [contact; note] (st_db after_first)) = [AlterType "note" "version" FNumber].
Proof. vm_compute. reflexivity. Qed.

Theorem migrations_settle_witness :
  filter (fun c => is_statement c = true) (migration_changes [contact; note] (st_db after_second)) = [].
Proof.
  refine (proj1 (migrations_settle sum (fun t => t) [contact; note] "1.sql" "2.sql" "t1" "t2" start after_first after_second
    contact_named _ _ _ tables_named _ _ _ _)).
  - apply Forall_cons_2; [|apply Forall_cons_2; [|apply Forall_nil_2]]; (split; [vm_compute; lia|]);
      apply map_Forall_to_list; vm_compute; repeat constructor.
  - apply (bool_decide_eq_true_1 _). vm_compute. reflexivity.
  - apply Forall_cons_2; [|apply Forall_cons_2; [|apply Forall_nil_2]]; apply (bool_decide_eq_true_1 _); vm_compute; reflexivity.
  - literal.
  - literal.
  - vm_compute. reflexivity.
  - vm_compute. reflexivity.
Defined.

(** Two files, one of them run before *)
Definition directory : list MigrationFile :=
  [mkMigrationFile "2.sql" (Some (generate_migration_sql "t1" [contact; note] tables)); mkMigrationFile "notes.txt" None;
   mkMigrationFile "1.sql" (Some "-- nothing")].
Definition begun : Store (D := Tables) := mkStore tables [("1.sql", sum "-- nothing")].
Theorem migrations_once_witness :
  exists s', apply_migrations sum (Some (Some <$> directory)) begun = Returns (inl tt, s') /\
    apply_migrations (E := unit) sum (Some (Some <$> directory)) s' = Returns (inl tt, s').
Proof.
  destruct (apply_migrations (E := unit) sum (Some (Some <$> directory)) begun) as [[r s']| |] eqn:Ha.
  2-3: apply (f_equal (fun o => match o with Returns _ => true | _ => false end)) in Ha; vm_compute in Ha; discriminate.
  destruct r as [[]|e].
  2: apply (f_equal (fun o => match o with Returns (inl _, _) => true | _ => false end)) in Ha; vm_compute in Ha; discriminate.
  exists s'. split; [done|].
  destruct (migrations_once (E := unit) sum directory begun (inl tt) s') as [_ Hrun].
  { apply (bool_decide_eq_true_1 _). vm_compute. reflexivity. }
  destruct (Hrun Ha) as (ran & _ & _ & _ & _ & _ & Hall). exact (proj2 (Hall eq_refl)).
Defined.
End RunExamples.
