(* ===== verification/AuditLog.v ===== *)
(** * The audit log ([atomo_core/src/audit.rs], [atomo_server/src/audit.rs])

    The table [audit_log], the service over it, the listener that records the data layer's
    events and the routes of [handlers.rs] that read the log.  Every statement draws a tick
    and may fail; identifiers, clocks, PostgreSQL's [jsonb] and row sizes are the
    environment's. *)

From S2P Require Import Prelude Json StateM SchemaTypes Auth History.
From S2P Require Retention.

(** ** Entries *)

Inductive AuditOperation : Type := AuditCreate | AuditUpdate | AuditDelete | AuditRead.
#[global] Instance AuditOperation_eq_dec : EqDecision AuditOperation.
Proof. solve_decision. Defined.

(** [operation as i16], and the match on the column *)
Definition op_code (o : AuditOperation) : Z :=
  match o with AuditCreate => 0 | AuditUpdate => 1 | AuditDelete => 2 | AuditRead => 3 end.
Definition op_of (n : Z) : option AuditOperation :=
  if decide (n = 0) then Some AuditCreate else if decide (n = 1) then Some AuditUpdate
  else if decide (n = 2) then Some AuditDelete else if decide (n = 3) then Some AuditRead else None.
Lemma op_of_code o : op_of (op_code o) = Some o.
Proof. by destruct o. Qed.
#[global] Instance AuditOperation_countable : Countable AuditOperation := inj_countable op_code op_of op_of_code.

Record AuditLogEntry : Type := mkEntry {
  ae_id : string;
  ae_type : string;
  ae_entity : string;              (* an [EntityId], printed *)
  ae_operation : AuditOperation;
  ae_details : string;
  ae_user : option string;
  ae_ip : option string;
  ae_agent : option string;
  ae_created : Z                   (* microseconds *)
}.

Definition entry_new (id : string) (now : Z) (entity_type entity_id : string) (op : AuditOperation)
    (details : string) (user : option string) : AuditLogEntry :=
  mkEntry id entity_type entity_id op details user None None now.

Definition with_request_metadata (ip agent : option string) (e : AuditLogEntry) : AuditLogEntry :=
  mkEntry (ae_id e) (ae_type e) (ae_entity e) (ae_operation e) (ae_details e) (ae_user e) ip agent (ae_created e).

Record AuditSearchFilters : Type := mkFilters {
  fl_type : option string;
  fl_entity : option string;
  fl_stream : option string;
  fl_operation : option AuditOperation;
  fl_user : option string;
  fl_start : option Z;
  fl_end : option Z;
  fl_limit : option Z;
  fl_offset : option Z
}.
Definition no_filters : AuditSearchFilters := mkFilters None None None None None None None None None.

Record UserAuditStats : Type := mkUserStats { us_user : string; us_count : Z; us_last : Z }.
Record AuditStats : Type := mkStats {
  st_total : Z;
  st_by_type : gmap AuditOperation Z;
  st_top : list UserAuditStats;
  st_range : option (Z * Z)
}.

(** ** The table *)

Record AuditRow : Type := mkRow {
  ar_id : string;
  ar_type : string;
  ar_entity : string;
  ar_operation : Z;
  ar_details : option string;      (* [operation_details::text] *)
  ar_user : option string;
  ar_ip : option string;
  ar_agent : option string;
  ar_created : Z
}.

#[global] Instance AuditRow_eq_dec : EqDecision AuditRow.
Proof. solve_decision. Defined.

Record AuditDb : Type := mkAuditDb {
  ad_rows : list AuditRow;
  ad_cursor : Z;                   (* [maintenance_cursor] *)
  ad_tick : nat
}.
Definition audit_db_new : AuditDb := mkAuditDb [] 0 0.

Class AuditEnv : Type := {
  av_fault : nat -> bool;
  av_now : nat -> Z;               (* the process's clock *)
  av_db_now : nat -> Z;            (* [NOW()] *)
  av_jsonb : string -> option string;   (* [$5::jsonb], and the text it reads back as *)
  av_doc_text : Doc -> string;     (* [serde_json::to_string] *)
  av_row_bytes : AuditRow -> Z;    (* [pg_column_size] *)
  av_rfc3339 : string -> option Z; (* [DateTime::parse_from_rfc3339] *)
  av_stream_id : string -> option string
}.

Inductive AuditFault : Type := AuditDbFault | AuditBadId.

(** [ORDER BY created_at], and with the key *)
Definition created_le (a b : AuditRow) : Prop := ar_created a <= ar_created b.
#[export] Instance created_le_dec : RelDecision created_le.
Proof. intros a b. unfold created_le. apply _. Defined.
Definition audit_le (a b : AuditRow) : Prop :=
  ar_created a < ar_created b \/ (ar_created a = ar_created b /\ String.le (ar_id a) (ar_id b)).
#[export] Instance audit_le_dec : RelDecision audit_le.
Proof. intros a b. unfold audit_le. apply _. Defined.

(** [ORDER BY count DESC] *)
Definition count_le (a b : UserAuditStats) : Prop := us_count a <= us_count b.
#[export] Instance count_le_dec : RelDecision count_le.
Proof. intros a b. unfold count_le. apply _. Defined.

Section Audit.
Context {ho : HashOrder} {env : AuthEnv} {av : AuditEnv} (config : AuditConfig).

Abbreviation AuditM A := (Comp AuditDb AuditFault A).

Definition audit_tick : AuditM nat := fun s =>
  (inl (ad_tick s), mkAuditDb (ad_rows s) (ad_cursor s) (S (ad_tick s))).
(** One statement: it fails, or runs on the rows. *)
Definition audit_sql {A} (f : nat -> list AuditRow -> (A + AuditFault) * list AuditRow) : AuditM A := fun s =>
  let n := ad_tick s in
  if av_fault n then (inr AuditDbFault, mkAuditDb (ad_rows s) (ad_cursor s) (S n))
  else let '(r, rows) := f n (ad_rows s) in (r, mkAuditDb rows (ad_cursor s) (S n)).
Definition audit_select {A} (f : list AuditRow -> A) : AuditM A :=
  audit_sql (fun _ rows => (inl (f rows), rows)).

(** ** Writing *)

(** What the policy of the entity's type lets be stored *)
Definition redacted (e : AuditLogEntry) : option AuditLogEntry :=
  match ap_mode (audit_policy config (ae_type e)) with
  | AuditOff => None
  | AuditMetadata => Some (mkEntry (ae_id e) (ae_type e) (ae_entity e) (ae_operation e) "{}" (ae_user e)
                             None None (ae_created e))
  | AuditFull => Some e
  end.

(** The key is unique and the details must be JSON. *)
Definition insert_entry (e : AuditLogEntry) (rows : list AuditRow) : (unit + AuditFault) * list AuditRow :=
  match av_jsonb (ae_details e) with
  | None => (inr AuditDbFault, rows)
  | Some text =>
      if decide (ae_id e ∈ ar_id <$> rows) then (inr AuditDbFault, rows)
      else (inl tt, rows ++ [mkRow (ae_id e) (ae_type e) (ae_entity e) (op_code (ae_operation e)) (Some text)
                               (ae_user e) (ae_ip e) (ae_agent e) (ae_created e)])
  end.

Definition log_audit_entry (e : AuditLogEntry) : AuditM unit :=
  match redacted e with
  | None => mret tt
  | Some e => audit_sql (fun _ => insert_entry e)
  end.

(** *** The listener *)

Definition operation_of (t : EventType) : AuditOperation :=
  match t with
  | MCreated => AuditCreate
  | MUpdated => AuditUpdate
  | MDeleted => AuditDelete
  | MRestored => AuditUpdate
  | MHardDeleted => AuditDelete
  | MCustom => AuditRead
  end.

(** The record's id, or a new one *)
Definition event_entity (n : nat) (e : ModelEvent) : string :=
  default (new_id n) ((ev_data e !! "id"%string ≫= value_as_str) ≫= parse_id).

Definition record_event (e : ModelEvent) : AuditM unit :=
  n ← audit_tick; m ← audit_tick;
  log_audit_entry (entry_new (new_id m) (av_now m) (ev_model e) (event_entity n e)
    (operation_of (ev_type e)) (av_doc_text (ev_data e)) (ev_actor e)).

(** The loop of [spawn_model_audit_listener], on what the channel yields: lag is skipped and
    so is an entry that cannot be written. *)
Fixpoint listen (rx : list Received) (s : AuditDb) : AuditDb :=
  match rx with
  | [] => s
  | RClosed :: _ => s
  | RLagged _ :: rest => listen rest s
  | REvent e :: rest => listen rest (record_event e s).2
  end.

(** ** Reading *)

(** [ORDER BY created_at DESC]; the order of equal instants is the database's. *)
Definition newest (rows : list AuditRow) : list AuditRow := reverse (merge_sort created_le (horder rows)).

(** The loop over the rows: unknown operations are skipped, an id that does not parse fails. *)
Fixpoint decode_rows (rows : list AuditRow) : list AuditLogEntry + AuditFault :=
  match rows with
  | [] => inl []
  | r :: rest =>
      match op_of (ar_operation r) with
      | None => decode_rows rest
      | Some op =>
          match parse_id (ar_entity r) with
          | None => inr AuditBadId
          | Some id =>
              match decode_rows rest with
              | inl es => inl (mkEntry (ar_id r) (ar_type r) id op (default EmptyString (ar_details r))
                                 (ar_user r) (ar_ip r) (ar_agent r) (ar_created r) :: es)
              | inr e => inr e
              end
          end
      end
  end.

Definition get_audit_logs_for_entity (entity_type entity_id : string) : AuditM (list AuditLogEntry) :=
  rows ← audit_select (fun rows => newest (filter (fun r => ar_type r = entity_type /\ ar_entity r = entity_id) rows));
  of_sum (decode_rows rows).

Definition get_audit_logs_for_user (user_id : string) : AuditM (list AuditLogEntry) :=
  rows ← audit_select (fun rows => newest (filter (fun r => ar_user r = Some user_id) rows));
  of_sum (decode_rows rows).

(** The text of the query is put together from the filters and not run; both arms of the
    match that follows run the same statement, the newest hundred rows. *)
Definition search_audit_logs (filters : AuditSearchFilters) : AuditM (list AuditLogEntry) :=
  let latest := audit_select (fun rows => take 100 (newest rows)) in
  rows ← match fl_type filters, fl_entity filters, fl_operation filters, fl_user filters,
               fl_start filters, fl_end filters with
         | None, None, None, None, None, None => latest
         | _, _, _, _, _, _ => latest
         end;
  of_sum (decode_rows rows).

(** *** Statistics *)

(** [SELECT operation, COUNT(STAR) .. GROUP BY operation] *)
Definition operation_counts (rows : list AuditRow) : list (Z * Z) :=
  (fun op => (op, Z.of_nat (length (filter (fun r => ar_operation r = op) rows))))
    <$> horder (remove_dups (ar_operation <$> rows)).
Definition by_type (counts : list (Z * Z)) : gmap AuditOperation Z :=
  foldl (fun m p => match op_of p.1 with Some op => <[op := p.2]> m | None => m end) ∅ counts.

Definition max_created (rows : list AuditRow) : option Z :=
  foldr (fun r acc => max_opt (Some (ar_created r)) acc) None rows.
Definition min_created (rows : list AuditRow) : option Z :=
  foldr (fun r acc => match acc with None => Some (ar_created r) | Some t => Some (Z.min (ar_created r) t) end)
    None rows.
Definition user_stats (rows : list AuditRow) : list UserAuditStats :=
  (fun u => let mine := filter (fun r => ar_user r = Some u) rows in
            mkUserStats u (Z.of_nat (length mine)) (default 0 (max_created mine)))
    <$> horder (remove_dups (omap ar_user rows)).
Definition top_users (rows : list AuditRow) : list UserAuditStats :=
  take 10 (reverse (merge_sort count_le (user_stats rows))).

(** Four statements, each on its own snapshot; the filters are not used. *)
Definition get_audit_stats (filters : AuditSearchFilters) : AuditM AuditStats :=
  total ← audit_select (fun rows => Z.of_nat (length rows));
  counts ← audit_select operation_counts;
  top ← audit_select top_users;
  range ← audit_select (fun rows => (min_created rows, max_created rows));
  mret (mkStats total (by_type counts) top
    (match range with (Some a, Some b) => Some (a, b) | _ => None end)).

(** Rows and their estimated bytes *)
Definition audit_diagnostics : AuditM (Z * Z) :=
  audit_select (fun rows => (Z.of_nat (length rows), foldr (fun r n => av_row_bytes r + n) 0 rows)).

(** ** Retention *)

Definition limited (p : AuditPolicy) : bool :=
  bool_decide (is_Some (ap_max_age_secs p)) || bool_decide (is_Some (ap_max_bytes p)).
Definition any_limited : bool :=
  limited (au_default config) || existsb (fun p => limited p.2) (map_to_list (au_models config)).

(** [SELECT DISTINCT entity_type .. ORDER BY entity_type] *)
Definition audited_types (rows : list AuditRow) : list string :=
  sort_strings (remove_dups (ar_type <$> rows)).

Definition of_type (model : string) (rows : list AuditRow) : list AuditRow :=
  filter (fun r => ar_type r = model) rows.
Definition audit_victims (p : AuditPolicy) (now limit : Z) (model : string) (rows : list AuditRow) : list AuditRow :=
  Retention.victims ar_created av_row_bytes audit_le (ap_max_age_secs p) (ap_max_bytes p) now limit
    (of_type model rows).

(** The deletion of one type's batch, and how many rows it took *)
Definition trim (remaining : Z) (model : string) : AuditM Z :=
  audit_sql (fun n rows =>
    let dead := ar_id <$> audit_victims (audit_policy config model) (av_db_now n) remaining model rows in
    (inl (Z.of_nat (length (filter (fun r => ar_id r ∈ dead) rows))), filter (fun r => ar_id r ∉ dead) rows)).

Fixpoint trim_types (models : list string) (remaining : Z) : AuditM Z :=
  match models with
  | [] => mret remaining
  | model :: rest =>
      if decide (remaining = 0) then mret remaining
      else if limited (audit_policy config model) then
        removed ← trim remaining model;
        trim_types rest (remaining - removed)
      else trim_types rest remaining
  end.

(** The cursor moves on with every pass that finds rows. *)
Definition next_start (models : list string) : AuditM nat := fun s =>
  match models with
  | [] => (inl 0%nat, s)
  | _ => (inl (Z.to_nat (ad_cursor s mod Z.of_nat (length models))),
          mkAuditDb (ad_rows s) (wrap_u64 (ad_cursor s + 1)) (ad_tick s))
  end.

Definition audit_maintain : AuditM Z :=
  if negb any_limited then mret 0
  else
    models ← audit_select audited_types;
    start ← next_start models;
    remaining ← trim_types (rotate_left start models) (au_batch_size config);
    mret (au_batch_size config - remaining).
End Audit.

(** [HttpAuditService::with_config] *)
Definition with_config {ho : HashOrder} (config : AuditConfig) : AuditConfig + ConfigFault :=
  match audit_validate config with Some f => inr f | None => inl config end.

(** ** The routes *)

Record AuditServer : Type := mkAuditServer { sv_auth : AuthDb; sv_audit : AuditDb }.
#[export] Instance audit_server_auth : HasAuth AuditServer := {|
  auth_of := sv_auth;
  with_auth a s := mkAuditServer a (sv_audit s)
|}.

Section Routes.
Context {ho : HashOrder} {env : AuthEnv} {av : AuditEnv}.

Abbreviation AuditH A := (Comp AuditServer Response A).

(** A failure of the service is a 500. *)
Definition service {A} (m : Comp AuditDb AuditFault A) : AuditH A :=
  on sv_audit (fun d s => mkAuditServer (sv_auth s) d) (with_error (fun _ => empty_response 500) m).

(** The user that [optional_auth_middleware] left in the request *)
Definition signed_in (now : Z) (authorization : option string) : AuditH AuthUser :=
  found ← user_optional now authorization; of_option found (empty_response 401).
Definition oversees (u : AuthUser) : bool :=
  match au_role u with Admin | Manager => true | _ => false end.
Definition overseer (now : Z) (authorization : option string) : AuditH AuthUser :=
  user ← signed_in now authorization;
  if oversees user then mret user else throw (empty_response 403).

Definition operation_param (s : string) : option AuditOperation :=
  if decide (s = "create"%string) then Some AuditCreate
  else if decide (s = "update"%string) then Some AuditUpdate
  else if decide (s = "delete"%string) then Some AuditDelete
  else if decide (s = "read"%string) then Some AuditRead else None.

Definition filters_of (params : gmap string string) : AuditSearchFilters :=
  mkFilters (params !! "entity_type"%string) (params !! "entity_id"%string ≫= parse_id)
    (params !! "stream_id"%string ≫= av_stream_id) (params !! "operation"%string ≫= operation_param)
    (params !! "user_id"%string) (params !! "start_date"%string ≫= av_rfc3339)
    (params !! "end_date"%string ≫= av_rfc3339)
    (params !! "limit"%string ≫= parse_u64) (params !! "offset"%string ≫= parse_u64).

Definition get_audit_logs (now : Z) (authorization : option string) (params : gmap string string)
    : AuditH (list AuditLogEntry) :=
  overseer now authorization ;; service (search_audit_logs (filters_of params)).

(** One's own, or anyone's for an overseer; the limit is read and dropped. *)
Definition get_user_activity (now : Z) (authorization : option string) (user_id : string)
    : AuditH (list AuditLogEntry) :=
  user ← signed_in now authorization;
  if bool_decide (au_id user <> user_id) && negb (oversees user) then throw (empty_response 403)
  else
    id ← of_option (parse_id user_id) (empty_response 400);
    service (get_audit_logs_for_user id).

Definition get_entity_audit (now : Z) (authorization : option string) (entity_type entity_id : string)
    : AuditH (list AuditLogEntry) :=
  overseer now authorization ;;
  id ← of_option (parse_id entity_id) (empty_response 400);
  service (get_audit_logs_for_entity entity_type id).

Definition get_audit_statistics (now : Z) (authorization : option string) (params : gmap string string)
    : AuditH AuditStats :=
  overseer now authorization ;;
  service (get_audit_stats (mkFilters None None None None None
    (params !! "start_date"%string ≫= av_rfc3339) (params !! "end_date"%string ≫= av_rfc3339) None None)).
End Routes.
