(* ===== verification/AuditSpec.v ===== *)
(** * What the audit log promises

    The listener's rows are events that happened, stripped as the policy asks, and without
    failures the log of an entity is exactly its audited events, newest first.  A
    maintenance pass deletes only rows past their type's limits, the oldest first and a
    batch at most, and passes reach the limits.  The routes show the log to overseers, and
    to everybody his own part. *)

From S2P Require Import Prelude Json StateM SchemaTypes Auth History AuditLog.
From S2P Require Retention AuthSpec.

Lemma Forall2_in_r {A B} (P : A -> B -> Prop) l k y :
  Forall2 P l k -> y ∈ k -> exists x, x ∈ l /\ P x y.
Proof.
  induction 1 as [|x z l k Hxz Hf IH]; [by intros ?%not_elem_of_nil|].
  intros [->|Hy]%elem_of_cons; [exists x; split; [left|done]|].
  destruct (IH Hy) as (w & Hw & Hwy). exists w. split; [by right|done].
Qed.
Lemma Forall2_compose {A B C} (P : A -> B -> Prop) (Q : B -> C -> Prop) l k m :
  Forall2 P l k -> Forall2 Q k m -> Forall2 (fun x z => exists y, y ∈ k /\ P x y /\ Q y z) l m.
Proof.
  intros Hf. revert m. induction Hf as [|x y l k Hxy Hf IH]; intros m Hm; inversion Hm; subst; constructor.
  - exists y. split; [left|done].
  - eapply Forall2_impl; [by apply IH|]. intros a c (b & Hb & ?). exists b. split; [by right|done].
Qed.

(** ** The listener *)

(** What the loop hears before the channel closes *)
Fixpoint heard (rx : list Received) : list ModelEvent :=
  match rx with
  | REvent e :: rest => e :: heard rest
  | RLagged _ :: rest => heard rest
  | _ => []
  end.

Section Trail.
Context {ho : HashOrder} {env : AuthEnv} {av : AuditEnv} (config : AuditConfig).

Definition mode_of (e : ModelEvent) : AuditMode := ap_mode (audit_policy config (ev_model e)).
Definition audits (e : ModelEvent) : bool := match mode_of e with AuditOff => false | _ => true end.
Definition audited (rx : list Received) : list ModelEvent := filter (fun e => audits e = true) (heard rx).

Definition data_id (e : ModelEvent) : option string :=
  (ev_data e !! "id"%string ≫= value_as_str) ≫= parse_id.
(** The text that is kept of an event's data *)
Definition kept_text (e : ModelEvent) : string :=
  match mode_of e with AuditFull => av_doc_text (ev_data e) | _ => "{}" end.

Record records (e : ModelEvent) (r : AuditRow) : Prop := {
  rec_type : ar_type r = ev_model e;
  rec_operation : ar_operation r = op_code (operation_of (ev_type e));
  rec_user : ar_user r = ev_actor e;
  rec_origin : ar_ip r = None /\ ar_agent r = None;
  rec_entity : forall id, data_id e = Some id -> ar_entity r = id;
  rec_anonymous : data_id e = None -> exists n, ar_entity r = new_id n;
  rec_details : ar_details r = av_jsonb (kept_text e)
}.

(** Nothing keeps an event from being written. *)
Record writable (s : AuditDb) : Prop := {
  wr_up : forall n, av_fault n = false;
  wr_json : forall e, is_Some (av_jsonb (kept_text e));
  wr_ids : forall n m, new_id n = new_id m -> n = m;
  wr_fresh : forall r n, r ∈ ad_rows s -> (ad_tick s <= n)%nat -> ar_id r <> new_id n
}.

(** What is stored of an event heard at a tick *)
Definition stored (n : nat) (e : ModelEvent) : AuditLogEntry :=
  mkEntry (new_id (S n)) (ev_model e) (event_entity n e) (operation_of (ev_type e)) (kept_text e)
    (ev_actor e) None None (av_now (S n)).
Definition row_of (n : nat) (e : ModelEvent) (text : string) : AuditRow :=
  mkRow (new_id (S n)) (ev_model e) (event_entity n e) (op_code (operation_of (ev_type e))) (Some text)
    (ev_actor e) None None (av_now (S n)).

Lemma record_event_eq e s :
  (record_event config e s).2 =
    let n := ad_tick s in
    if audits e then
      mkAuditDb (if av_fault (S (S n)) then ad_rows s else (insert_entry (stored n e) (ad_rows s)).2)
        (ad_cursor s) (S (S (S n)))
    else mkAuditDb (ad_rows s) (ad_cursor s) (S (S n)).
Proof.
  unfold record_event, log_audit_entry, redacted, audits, stored, kept_text, mode_of.
  cbn [mbind Comp_bind audit_tick ae_type entry_new ad_tick ad_rows ad_cursor].
  destruct (ap_mode _); [| |done]; unfold audit_sql, mbind, Comp_bind, audit_tick, entry_new;
    cbn [ae_id ae_type ae_entity ae_operation ae_user ae_created ad_tick ad_rows ad_cursor snd];
    (destruct (av_fault _); [done|]); by destruct (insert_entry _ _).
Qed.

Lemma records_row n e text : av_jsonb (kept_text e) = Some text -> records e (row_of n e text).
Proof.
  intros Hj. split; try done.
  - unfold row_of, event_entity, data_id. cbn. by intros id ->.
  - unfold row_of, event_entity, data_id. cbn. intros ->. by eexists.
Qed.

(** One event: nothing is stored, or its row. *)
Lemma record_event_spec e s :
  let s' := (record_event config e s).2 in
  (ad_tick s < ad_tick s')%nat /\
  (ad_rows s' = ad_rows s /\ (writable s -> audits e = false) \/
   audits e = true /\ exists text, av_jsonb (kept_text e) = Some text /\
     (S (ad_tick s) < ad_tick s')%nat /\ ad_rows s' = ad_rows s ++ [row_of (ad_tick s) e text]).
Proof.
  cbn zeta. rewrite record_event_eq. cbn zeta. destruct (audits e) eqn:Ha; cbn [ad_tick ad_rows].
  2:{ split; [lia|]. by left. }
  split; [lia|]. destruct (av_fault _) eqn:Hf.
  { left. split; [done|]. intros Hw. by rewrite (wr_up _ Hw) in Hf. }
  unfold insert_entry. cbn [ae_details stored ae_id]. destruct (av_jsonb (kept_text e)) as [text|] eqn:Hj.
  2:{ left. split; [done|]. intros Hw. destruct (wr_json _ Hw e). congruence. }
  case_decide as Hid.
  - left. split; [done|]. intros Hw. apply list_elem_of_fmap in Hid as (r & Hr & Hin).
    exfalso. eapply (wr_fresh _ Hw r (S (ad_tick s))); [done|lia|done].
  - right. split; [done|]. exists text. split_and!; [done|lia|done].
Qed.

Lemma writable_next e s : writable s -> writable (record_event config e s).2.
Proof.
  intros Hw. pose proof (record_event_spec e s) as [Ht Hr]. destruct Hw as [Hup Hj Hid Hfr].
  split; [done..|]. intros r n Hin Hn.
  destruct Hr as [[Heq _]|(_ & text & _ & Ht' & Heq)]; rewrite Heq in Hin.
  - apply Hfr; [done|lia].
  - apply elem_of_app in Hin as [Hin|Hin%list_elem_of_singleton]; [apply Hfr; [done|lia]|].
    subst r. cbn [row_of ar_id]. intros Hx%Hid. lia.
Qed.

(** The rows a listener adds record audited events in their order, all of them if they can
    be written. *)
Lemma listen_spec rx s :
  exists es new, ad_rows (listen config rx s) = ad_rows s ++ new /\
    es `sublist_of` audited rx /\ Forall2 records es new /\
    (writable s -> writable (listen config rx s) /\ es = audited rx).
Proof.
  assert (Hno : forall s, exists es new, ad_rows s = ad_rows s ++ new /\ es `sublist_of` [] /\
      Forall2 records es new /\ (writable s -> writable s /\ es = [])).
  { intros s0. exists [], []. split_and!; [by rewrite app_nil_r|done|constructor|done]. }
  revert s. induction rx as [|[e|n|] rx IH]; intros s; cbn [listen]; [apply Hno| |apply IH|apply Hno].
  destruct (IH (record_event config e s).2) as (es & new & Hrows & Hsub & Hrec & Hall).
  pose proof (record_event_spec e s) as [_ [[Heq Hoff]|(Ha & text & Hj & _ & Heq)]];
    unfold audited; cbn [heard].
  - exists es, new. rewrite Hrows, Heq. split_and!; [done| |done|].
    + rewrite filter_cons. case_decide; [by apply sublist_cons|exact Hsub].
    + intros Hw. rewrite filter_cons_False by (by rewrite (Hoff Hw)). apply Hall. by apply writable_next.
  - rewrite filter_cons_True by done. exists (e :: es), (row_of (ad_tick s) e text :: new).
    split_and!; [|by constructor|constructor; [by apply records_row|done]|].
    + by rewrite Hrows, Heq, <-app_assoc.
    + intros Hw. destruct (Hall (writable_next e s Hw)) as [? ->]. done.
Qed.

(** ** Reading an entity's log *)

(** How an entry shows a row *)
Record shows (r : AuditRow) (x : AuditLogEntry) : Prop := {
  sh_id : ae_id x = ar_id r;
  sh_type : ae_type x = ar_type r;
  sh_entity : parse_id (ar_entity r) = Some (ae_entity x);
  sh_operation : op_of (ar_operation r) = Some (ae_operation x);
  sh_details : ae_details x = default EmptyString (ar_details r);
  sh_user : ae_user x = ar_user r;
  sh_ip : ae_ip x = ar_ip r;
  sh_agent : ae_agent x = ar_agent r;
  sh_created : ae_created x = ar_created r
}.

Lemma decode_rows_shows rows xs :
  decode_rows rows = inl xs -> Forall2 shows (filter (fun r => is_Some (op_of (ar_operation r))) rows) xs.
Proof.
  revert xs. induction rows as [|r rows IH]; intros xs; cbn [decode_rows]; [intros [= <-]; constructor|].
  destruct (op_of (ar_operation r)) as [op|] eqn:Hop.
  - destruct (parse_id (ar_entity r)) as [id|] eqn:Hid; [|done].
    destruct (decode_rows rows) as [ys|] eqn:Hd; [|done]. intros [= <-].
    rewrite filter_cons_True by (by rewrite Hop). constructor; [done|by apply IH].
  - intros Hd. rewrite filter_cons_False; [by apply IH|]. rewrite Hop. by intros [? ?].
Qed.
Lemma decode_rows_total rows :
  (forall r, r ∈ rows -> is_Some (op_of (ar_operation r)) /\ is_Some (parse_id (ar_entity r))) ->
  exists xs, decode_rows rows = inl xs /\ Forall2 shows rows xs.
Proof.
  intros Hr. assert (Hd : exists xs, decode_rows rows = inl xs).
  { induction rows as [|r rows IH]; [by exists []|]. cbn [decode_rows].
    destruct (Hr r) as [[op ->] [id ->]]; [left|].
    destruct IH as [xs ->]; [|by eexists]. intros y Hy. apply Hr. by right. }
  destruct Hd as [xs Hd]. exists xs. split; [done|]. apply decode_rows_shows in Hd.
  rewrite filter_all in Hd; [done|]. intros r Hin. by apply Hr.
Qed.

Lemma newest_perm rows : newest rows ≡ₚ rows.
Proof. unfold newest. by rewrite reverse_Permutation, merge_sort_Permutation, horder_perm. Qed.
Lemma newest_sorted rows : StronglySorted (flip created_le) (newest rows).
Proof.
  apply Retention.sorted_reverse, StronglySorted_merge_sort; intros ?; unfold created_le; lia.
Qed.

(** How an entry reports an event *)
Record reports (e : ModelEvent) (x : AuditLogEntry) : Prop := {
  rp_type : ae_type x = ev_model e;
  rp_operation : ae_operation x = operation_of (ev_type e);
  rp_user : ae_user x = ev_actor e;
  rp_details : Some (ae_details x) = av_jsonb (kept_text e)
}.
Definition about (ty id : string) (e : ModelEvent) : Prop := ev_model e = ty /\ data_id e = Some id.

Lemma newest_entries rows xs :
  Forall2 shows (newest rows) xs -> StronglySorted (fun x y => ae_created y <= ae_created x) xs.
Proof.
  intros Hf. pose proof (newest_sorted rows) as Hs. revert Hs Hf. generalize (newest rows). intros l Hs.
  revert xs. induction Hs as [|r l Hs IH Hr]; intros xs Hf; inversion Hf as [|? x ? ys Hx Hys]; subst; constructor; [by apply IH|].
  rewrite List.Forall_forall in Hr |- *. intros y Hy%list_elem_of_In.
  destruct (Forall2_in_r _ _ _ _ Hys Hy) as (z & Hz & Hzy).
  rewrite (sh_created _ _ Hx), (sh_created _ _ Hzy). by apply Hr, list_elem_of_In.
Qed.

(** Over a log the listener wrote, the log of an entity is its events. *)
Lemma entity_trail rx s ty id :
  ad_rows s = [] -> writable s -> parse_id id = Some id -> (forall n, new_id n <> id) ->
  exists xs ys, (get_audit_logs_for_entity ty id (listen config rx s)).1 = inl xs /\
    StronglySorted (fun x y => ae_created y <= ae_created x) xs /\ xs ≡ₚ ys /\
    Forall2 (fun e x => reports e x /\ ae_entity x = id) (filter (about ty id) (audited rx)) ys.
Proof.
  intros Hnil Hw Hid Hnew. destruct (listen_spec rx s) as (es & new & Hrows & _ & Hrec & Hall).
  destruct (Hall Hw) as [Hw' ->]. rewrite Hnil in Hrows. cbn [app] in Hrows.
  set (mine := filter (fun r => ar_type r = ty /\ ar_entity r = id) new).
  assert (Hm : Forall2 records (filter (about ty id) (audited rx)) mine).
  { apply Forall2_filter; [|done]. intros e r Hr. unfold about. rewrite (rec_type _ _ Hr).
    destruct (data_id e) as [i|] eqn:Hi.
    - rewrite (rec_entity _ _ Hr i Hi). naive_solver.
    - destruct (rec_anonymous _ _ Hr Hi) as [n ->]. naive_solver. }
  destruct (decode_rows_total (newest mine)) as (xs & Hd & Hxs).
  { intros r. rewrite newest_perm. intros Hr. pose proof Hr as [[_ Hrid] _]%list_elem_of_filter.
    destruct (Forall2_in_r _ _ _ _ Hm Hr) as (e & _ & He).
    by rewrite (rec_operation _ _ He), op_of_code, Hrid, Hid. }
  destruct (Permutation_Forall2 (newest_perm mine) Hxs) as (ys & Hperm & Hys).
  exists xs, ys. split_and!; [|by eapply newest_entries|done|].
  - unfold get_audit_logs_for_entity, audit_select, audit_sql, mbind, Comp_bind.
    rewrite (wr_up _ Hw'). rewrite Hrows. fold mine. by rewrite Hd.
  - eapply Forall2_impl; [by eapply Forall2_compose|]. intros e x (r & Hr & He & Hx).
    apply list_elem_of_filter in Hr as [[_ Hrid] _].
    pose proof (sh_entity _ _ Hx) as Hex. rewrite Hrid, Hid in Hex. injection Hex as Hex.
    split; [|done]. pose proof (sh_operation _ _ Hx) as Hop.
    rewrite (rec_operation _ _ He), op_of_code in Hop. injection Hop as Hop.
    split; [by rewrite (sh_type _ _ Hx), (rec_type _ _ He)|done|by rewrite (sh_user _ _ Hx), (rec_user _ _ He)|].
    rewrite (sh_details _ _ Hx), (rec_details _ _ He). by destruct (wr_json _ Hw e) as [? ->].
Qed.
End Trail.

(** ** Retention *)

#[export] Instance audit_le_trans : Transitive audit_le.
Proof.
  intros a b c [?|[? ?]] [?|[? ?]]; unfold audit_le; [left; lia..|right].
  split; [lia|]. by etransitivity.
Qed.
#[export] Instance audit_le_total : Total audit_le.
Proof.
  intros a b. unfold audit_le. destruct (Z.lt_trichotomy (ar_created a) (ar_created b)) as [?|[?|?]]; [auto| |auto].
  destruct (total String.le (ar_id a) (ar_id b)); auto.
Qed.
Lemma audit_le_created a b : audit_le a b -> ar_created a <= ar_created b.
Proof. unfold audit_le. lia. Qed.

(** The table's key *)
Definition unique_ids (rows : list AuditRow) : Prop := NoDup (ar_id <$> rows).
Lemma unique_ids_eq rows a b : unique_ids rows -> a ∈ rows -> b ∈ rows -> ar_id a = ar_id b -> a = b.
Proof.
  unfold unique_ids. induction rows as [|x rows IH]; intros Hn; [by intros ?%not_elem_of_nil|].
  cbn in Hn. apply NoDup_cons in Hn as [Hx Hn].
  intros [->|Ha]%elem_of_cons [->|Hb]%elem_of_cons Hid; [done| | |by apply IH].
  - destruct Hx. rewrite Hid. by apply list_elem_of_fmap_2.
  - destruct Hx. rewrite <-Hid. by apply list_elem_of_fmap_2.
Qed.
Lemma unique_ids_sublist rows rest : rest `sublist_of` rows -> unique_ids rows -> unique_ids rest.
Proof. intros Hs Hn. eapply sublist_NoDup; [exact Hn|]. by apply fmap_sublist. Qed.
Lemma unique_ids_rows rows : unique_ids rows -> NoDup rows.
Proof. apply NoDup_fmap_1. Qed.
Lemma keyed_rows rows : unique_ids rows -> Retention.keyed audit_le rows.
Proof.
  intros Hn a b Ha Hb Hab Hba. apply (unique_ids_eq rows); try done.
  destruct Hab as [?|[? ?]], Hba as [?|[? ?]]; [lia..|]. by apply (anti_symm String.le).
Qed.

Section Trim.
Context {ho : HashOrder} {env : AuthEnv} {av : AuditEnv} (config : AuditConfig).
Hypothesis row_bytes_pos : forall r, 0 <= av_row_bytes r.

(** The rows of a type that are past its limits at an instant, from the oldest *)
Definition late (model : string) (now : Z) (rows : list AuditRow) : list AuditRow :=
  let p := audit_policy config model in
  Retention.overdue ar_created av_row_bytes audit_le (ap_max_age_secs p) (ap_max_bytes p) now (of_type model rows).
Definition past_limits (model : string) (now : Z) (rows : list AuditRow) (r : AuditRow) : Prop :=
  let p := audit_policy config model in
  Retention.past_limits ar_created av_row_bytes audit_le (ap_max_age_secs p) (ap_max_bytes p) now (of_type model rows) r.

Lemma unique_of_type model rows : unique_ids rows -> unique_ids (of_type model rows).
Proof. apply unique_ids_sublist, sublist_filter. Qed.
Lemma elem_of_late model now rows r :
  unique_ids rows -> r ∈ late model now rows <-> r ∈ of_type model rows /\ past_limits model now rows r.
Proof.
  intros Hn%(unique_of_type model). apply Retention.elem_of_overdue_iff; try apply _.
  - by apply keyed_rows.
  - by apply unique_ids_rows.
Qed.
Lemma late_unlimited model now rows : limited (audit_policy config model) = false -> late model now rows = [].
Proof.
  unfold limited, late. destruct (audit_policy config model) as [m [a|] [b|]]; cbn; try done.
  intros _. apply Retention.overdue_unlimited.
Qed.
Lemma late_sub model now rows r : r ∈ late model now rows -> r ∈ rows /\ ar_type r = model.
Proof. by intros [? ?]%Retention.elem_of_overdue%list_elem_of_filter. Qed.

(** How the rows of a type go: a number of those past the limits, from the oldest. *)
Definition trimmed (model : string) (now : Z) (n : nat) (rows rows' : list AuditRow) : Prop :=
  of_type model rows' ++ take n (late model now rows) ≡ₚ of_type model rows.

Lemma trimmed_late model now n rows rows' :
  unique_ids rows -> trimmed model now n rows rows' -> late model now rows' = drop n (late model now rows).
Proof.
  intros Hn Ht. apply Retention.overdue_rest; try apply _; try done.
  - apply audit_le_created.
  - by apply keyed_rows, unique_of_type.
Qed.
Lemma trimmed_none model now rows rows' : of_type model rows' = of_type model rows -> trimmed model now 0 rows rows'.
Proof. unfold trimmed. intros ->. by rewrite take_0, app_nil_r. Qed.

Lemma deleted_rows rows dead :
  unique_ids rows -> NoDup dead -> (forall r, r ∈ dead -> r ∈ rows) ->
  filter (fun r => ar_id r ∈ ar_id <$> dead) rows ≡ₚ dead.
Proof.
  intros Hu Hn Hsub. apply NoDup_Permutation; [|done|].
  - by apply NoDup_filter, unique_ids_rows.
  - intros r. rewrite list_elem_of_filter, list_elem_of_fmap. split.
    + intros [(d & Hid & Hd) Hr]. by rewrite (unique_ids_eq rows r d Hu Hr (Hsub d Hd) Hid).
    + intros Hr. split; [by exists r|by apply Hsub].
Qed.

(** One statement: a batch of its type's rows, or a failure that deletes nothing *)
Record trim_done (model : string) (now remaining n : Z) (rows rows' : list AuditRow) : Prop := {
  td_trimmed : trimmed model now (Z.to_nat n) rows rows';
  td_bound : 0 <= n <= remaining;
  td_count : Z.of_nat (length rows) = Z.of_nat (length rows') + n;
  td_sub : rows' `sublist_of` rows;
  td_other : forall m, m <> model -> of_type m rows' = of_type m rows;
  td_settled : n < remaining -> late model now rows' = []
}.

Lemma trim_spec remaining model s :
  unique_ids (ad_rows s) -> 0 <= remaining ->
  let '(r, s') := trim config remaining model s in
  ad_tick s' = S (ad_tick s) /\
  match r with
  | inl n => trim_done model (av_db_now (ad_tick s)) remaining n (ad_rows s) (ad_rows s')
  | inr _ => av_fault (ad_tick s) = true /\ ad_rows s' = ad_rows s
  end.
Proof.
  intros Hu Hrem. unfold trim, audit_sql. destruct (av_fault (ad_tick s)); [done|]. cbn [ad_tick ad_rows].
  split; [done|]. set (now := av_db_now _). set (rows := ad_rows s) in *.
  assert (Hdead : audit_victims (audit_policy config model) now remaining model rows
      = take (Z.to_nat remaining) (late model now rows)) by done.
  rewrite Hdead. clear Hdead. set (dead := take _ _).
  assert (Hdn : NoDup dead).
  { eapply sublist_NoDup; [|apply sublist_take].
    by apply Retention.NoDup_overdue, unique_ids_rows, unique_of_type. }
  assert (Hds : forall r, r ∈ dead -> r ∈ rows /\ ar_type r = model).
  { intros r Hr%subseteq_take. by eapply late_sub. }
  pose proof (deleted_rows rows dead Hu Hdn (fun r Hr => proj1 (Hds r Hr))) as Hdel.
  set (rows' := filter (fun r => ar_id r ∉ ar_id <$> dead) rows).
  assert (Hsplit : rows' ++ dead ≡ₚ rows).
  { rewrite <-Hdel, Permutation_app_comm. apply filter_app_complement. }
  rewrite (Permutation_length Hdel).
  assert (Ht : trimmed model now (length dead) rows rows').
  { unfold trimmed. replace (take (length dead) (late model now rows)) with dead.
    2:{ unfold dead. rewrite length_take, <-take_take. by rewrite (take_ge (late model now rows) (length _)). }
    unfold of_type. rewrite <-(filter_Permutation _ _ _ Hsplit), filter_app. f_equiv.
    rewrite filter_all; [done|]. intros r Hr. by apply Hds. }
  assert (Hlen : Z.of_nat (length dead) <= remaining).
  { unfold dead. rewrite length_take. lia. }
  split.
  - by rewrite Nat2Z.id.
  - lia.
  - rewrite <-(Permutation_length Hsplit), length_app. lia.
  - apply sublist_filter.
  - intros m Hm. unfold of_type, rows'. rewrite list_filter_filter.
    rewrite (list_filter_iff _ (fun r => (ar_id r ∉ ar_id <$> dead) /\ ar_type r = m)) by naive_solver.
    rewrite <-list_filter_filter. apply filter_all. intros r [Hr Hin]%list_elem_of_filter.
    intros (d & Hid & Hd)%list_elem_of_fmap. destruct (Hds d Hd) as [Hdr Hdm].
    apply Hm. by rewrite <-Hr, <-Hdm, (unique_ids_eq rows r d Hu Hin Hdr Hid).
  - intros Hlt. rewrite (trimmed_late _ _ _ _ _ Hu Ht). unfold dead in Hlt |- *. rewrite length_take in Hlt |- *.
    apply drop_ge. lia.
Qed.
(** Some statements, between two ticks, over some types *)
Record pass (t0 t1 : nat) (models : list string) (batch n : Z) (rows rows' : list AuditRow) : Prop := {
  ps_bound : 0 <= n <= batch;
  ps_count : Z.of_nat (length rows) = Z.of_nat (length rows') + n;
  ps_sub : rows' `sublist_of` rows;
  ps_other : forall m, m ∉ models -> of_type m rows' = of_type m rows;
  ps_trimmed : forall m, m ∈ models -> of_type m rows' = of_type m rows \/
    exists t k, (t0 <= t < t1)%nat /\ trimmed m (av_db_now t) k rows rows'
}.
Definition settled (t0 t1 : nat) (model : string) (rows : list AuditRow) : Prop :=
  exists t, (t0 <= t < t1)%nat /\ late model (av_db_now t) rows = [].

Lemma pass_nothing t models batch rows : 0 <= batch -> pass t t models batch 0 rows rows.
Proof. intros Hb. split; [lia|lia|done|done|by left]. Qed.

Lemma late_of_type model now rows rows' :
  of_type model rows' = of_type model rows -> late model now rows' = late model now rows.
Proof. unfold late. by intros ->. Qed.
Lemma trimmed_of_type model now k rows1 rows2 rows3 :
  of_type model rows1 = of_type model rows2 -> trimmed model now k rows1 rows3 -> trimmed model now k rows2 rows3.
Proof. intros Heq. unfold trimmed. by rewrite Heq, (late_of_type _ _ _ _ Heq). Qed.

(** A statement, then the rest of the pass *)
Lemma pass_cons t t1 model models batch n n' rows rows1 rows2 :
  model ∉ models -> trim_done model (av_db_now t) batch n rows rows1 ->
  pass (S t) t1 models (batch - n) n' rows1 rows2 -> (S t <= t1)%nat ->
  pass t t1 (model :: models) batch (n + n') rows rows2.
Proof.
  intros Hm [Ht Hb Hc Hs Ho _] [Hb' Hc' Hs' Ho' Ht'] Hle. split; [lia|lia|by etransitivity| |].
  - intros m [Hne Hmm]%not_elem_of_cons. by rewrite Ho', Ho.
  - intros m [->|Hmm]%elem_of_cons.
    + right. exists t, (Z.to_nat n). split; [lia|]. unfold trimmed. by rewrite (Ho' model Hm).
    + assert (Hne : m <> model) by (by intros ->).
      destruct (Ht' m Hmm) as [Heq|(u & k & Hu & Htr)]; [left; by rewrite Heq, Ho|right].
      exists u, k. split; [lia|]. eapply trimmed_of_type; [|done]. by apply Ho.
Qed.

Lemma trim_types_spec models remaining s :
  NoDup models -> unique_ids (ad_rows s) -> 0 <= remaining ->
  let '(r, s') := trim_types config models remaining s in
  (ad_tick s <= ad_tick s')%nat /\ exists n,
  pass (ad_tick s) (ad_tick s') models remaining n (ad_rows s) (ad_rows s') /\
  match r with
  | inl rest => rest = remaining - n /\
      (n < remaining -> forall m, m ∈ models -> limited (audit_policy config m) = true ->
         settled (ad_tick s) (ad_tick s') m (ad_rows s'))
  | inr _ => exists t, (ad_tick s <= t)%nat /\ av_fault t = true
  end.
Proof.
  revert remaining s. induction models as [|model models IH]; intros remaining s Hn Hu Hrem; cbn [trim_types].
  { cbn. split; [done|]. exists 0. split; [by apply pass_nothing|]. split; [lia|]. by intros _ m ?%not_elem_of_nil. }
  apply NoDup_cons in Hn as [Hm Hn]. case_decide as Hz.
  { cbn. split; [done|]. exists 0. split; [by apply pass_nothing|]. split; [lia|]. lia. }
  destruct (limited (audit_policy config model)) eqn:Hl.
  - pose proof (trim_spec remaining model s Hu Hrem) as Ht. unfold mbind, Comp_bind.
    destruct (trim config remaining model s) as [[n|e] s1]; destruct Ht as [Ht1 Ht].
    2:{ destruct Ht as [Hf ->]. split; [lia|]. exists 0. split; [|by eexists].
        split; [lia|lia|done|done|by left]. }
    pose proof (IH (remaining - n) s1 Hn (unique_ids_sublist _ _ (td_sub _ _ _ _ _ _ Ht) Hu)) as Hrest.
    destruct (trim_types config models (remaining - n) s1) as [r s2].
    destruct Hrest as [Hle (n' & Hp & Hr)]; [destruct (td_bound _ _ _ _ _ _ Ht); lia|]. rewrite Ht1 in Hle, Hp, Hr.
    split; [lia|]. exists (n + n'). split; [by eapply pass_cons|]. destruct r as [rest|e].
    + destruct Hr as [-> Hset]. split; [lia|]. intros Hlt m [->|Hmm]%elem_of_cons Hlm.
      * exists (ad_tick s). split; [lia|]. rewrite (late_of_type _ _ (ad_rows s1)) by (by apply (ps_other _ _ _ _ _ _ _ Hp)).
        apply (td_settled _ _ _ _ _ _ Ht). destruct (ps_bound _ _ _ _ _ _ _ Hp). lia.
      * destruct (Hset ltac:(lia) m Hmm Hlm) as (t & ? & ?). exists t. split; [lia|done].
    + destruct Hr as (t & ? & ?). exists t. split; [lia|done].
  - pose proof (IH remaining s Hn Hu Hrem) as Hrest. destruct (trim_types config models remaining s) as [r s2].
    destruct Hrest as [Hle (n & [Hb Hc Hs Ho Ht] & Hr)]. split; [done|]. exists n. split; [split; try done|].
    + intros m [_ Hmm]%not_elem_of_cons. by apply Ho.
    + intros m [->|Hmm]%elem_of_cons; [left; by apply Ho|by apply Ht].
    + destruct r as [rest|e]; [|done]. destruct Hr as [-> Hset]. split; [done|].
      intros Hlt m [->|Hmm]%elem_of_cons Hlm; [congruence|by apply Hset].
Qed.

(** What a pass may take, between two ticks *)
Record retained (t0 t1 : nat) (batch n : Z) (rows rows' : list AuditRow) : Prop := {
  rt_bound : 0 <= n <= batch;
  rt_count : Z.of_nat (length rows) = Z.of_nat (length rows') + n;
  rt_sub : rows' `sublist_of` rows;
  rt_removed : forall x, x ∈ rows -> x ∉ rows' ->
    exists t, (t0 <= t < t1)%nat /\ past_limits (ar_type x) (av_db_now t) rows x;
  rt_oldest : forall x y, x ∈ rows -> x ∉ rows' -> y ∈ rows' -> ar_type x = ar_type y -> audit_le x y
}.
(** At some tick of it no row of the type is past a limit. *)
Definition within (t0 t1 : nat) (model : string) (rows : list AuditRow) : Prop :=
  exists t, (t0 <= t < t1)%nat /\ forall r, r ∈ of_type model rows -> ~ past_limits model (av_db_now t) rows r.

Lemma settled_within t0 t1 model rows : unique_ids rows -> settled t0 t1 model rows -> within t0 t1 model rows.
Proof.
  intros Hu (t & Ht & Hl). exists t. split; [done|]. intros r Hr Hp.
  assert (Hin : r ∈ late model (av_db_now t) rows) by by apply elem_of_late.
  rewrite Hl in Hin. by apply not_elem_of_nil in Hin.
Qed.

Lemma trimmed_gone model now k rows rows' x :
  unique_ids rows -> trimmed model now k rows rows' -> x ∈ rows -> ar_type x = model ->
  x ∈ rows' <-> x ∉ take k (late model now rows).
Proof.
  intros Hu Ht Hx Hm. unfold trimmed in Ht.
  assert (Hn : NoDup (of_type model rows)) by by apply unique_ids_rows, unique_of_type.
  rewrite <-Ht in Hn. apply NoDup_app in Hn as (_ & Hdis & _).
  assert (Hin : x ∈ of_type model rows) by by apply list_elem_of_filter.
  rewrite <-Ht in Hin. apply elem_of_app in Hin as [Hin|Hin].
  - split; [|intros _; by apply list_elem_of_filter in Hin as [_ ?]]. intros _. by apply Hdis.
  - split; [|done]. intros Hr Hno. eapply Hdis; [|exact Hin]. by apply list_elem_of_filter.
Qed.

Lemma pass_retained t0 t1 models batch n rows rows' :
  unique_ids rows -> pass t0 t1 models batch n rows rows' -> retained t0 t1 batch n rows rows'.
Proof.
  intros Hu [Hb Hc Hs Ho Ht].
  assert (Hgone : forall x, x ∈ rows -> x ∉ rows' -> exists t k, (t0 <= t < t1)%nat /\
      trimmed (ar_type x) (av_db_now t) k rows rows' /\ x ∈ take k (late (ar_type x) (av_db_now t) rows)).
  { intros x Hx Hno. assert (Hneq : of_type (ar_type x) rows' <> of_type (ar_type x) rows).
    { intros Heq. apply Hno. assert (Hin : x ∈ of_type (ar_type x) rows) by by apply list_elem_of_filter.
      rewrite <-Heq in Hin. by apply list_elem_of_filter in Hin as [_ ?]. }
    destruct (decide (ar_type x ∈ models)) as [Hm|Hm]; [|by destruct Hneq; apply Ho].
    destruct (Ht _ Hm) as [?|(t & k & Hr & Htr)]; [done|]. exists t, k. split_and!; [lia..|done|].
    destruct (decide (x ∈ take k (late (ar_type x) (av_db_now t) rows))) as [|Hk]; [done|].
    destruct Hno. by apply (trimmed_gone _ _ _ _ _ x Hu Htr). }
  split; try done.
  - intros x Hx Hno. destruct (Hgone x Hx Hno) as (t & k & Hr & _ & Hk). exists t. split; [done|].
    apply subseteq_take in Hk. by apply elem_of_late.
  - intros x y Hx Hno Hy Hty. destruct (Hgone x Hx Hno) as (t & k & Hr & Htr & Hk).
    assert (Hyr : y ∈ rows) by by eapply sublist_subseteq.
    eapply (Retention.overdue_before ar_created av_row_bytes audit_le); try apply _; try done.
    + apply audit_le_created.
    + by apply keyed_rows, unique_of_type.
    + by apply list_elem_of_filter.
    + by apply (trimmed_gone _ _ _ _ _ y Hu Htr).
Qed.

Lemma any_limited_policy model : limited (audit_policy config model) = true -> any_limited config = true.
Proof.
  unfold audit_policy, any_limited. intros Hl. apply orb_true_iff.
  destruct (au_models config !! model) as [p|] eqn:Hp; [right|by left].
  apply existsb_exists. exists (model, p). split; [|done]. by apply list_elem_of_In, elem_of_map_to_list.
Qed.

Lemma maintain_spec s :
  unique_ids (ad_rows s) -> 0 <= au_batch_size config ->
  let '(r, s') := audit_maintain config s in
  exists n, retained (ad_tick s) (ad_tick s') (au_batch_size config) n (ad_rows s) (ad_rows s') /\
  match r with
  | inl a => a = n /\
      (n < au_batch_size config -> forall m, limited (audit_policy config m) = true ->
         within (ad_tick s) (ad_tick s') m (ad_rows s'))
  | inr _ => exists t, (ad_tick s <= t)%nat /\ av_fault t = true
  end.
Proof.
  intros Hu Hb. unfold audit_maintain. destruct (any_limited config) eqn:Hany; cbn [negb].
  2:{ exists 0. split; [by apply (pass_retained _ _ []), pass_nothing|]. split; [done|].
      intros _ m Hm%any_limited_policy. congruence. }
  unfold audit_select, audit_sql, mbind, Comp_bind. destruct (av_fault (ad_tick s)) eqn:Hf.
  { exists 0. split; [|by exists (ad_tick s)]. cbn [ad_rows ad_tick].
    apply (pass_retained _ _ []); [done|]. split; [lia|lia|done|done|by left]. }
  cbn [ad_rows ad_cursor ad_tick]. set (rows := ad_rows s) in *.
  set (models := audited_types rows). set (s1 := mkAuditDb _ _ _).
  assert (Hst : exists start s2, next_start models s1 = (inl start, s2) /\ ad_rows s2 = rows /\ ad_tick s2 = S (ad_tick s)).
  { unfold next_start. destruct models; eexists _, _; done. }
  destruct Hst as (start & s2 & -> & Hr2 & Ht2).
  assert (Hrot : rotate_left start models ≡ₚ models).
  { unfold rotate_left. rewrite Permutation_app_comm. by rewrite take_drop. }
  assert (Hnd : NoDup (rotate_left start models)).
  { rewrite Hrot. unfold models, audited_types, sort_strings. rewrite merge_sort_Permutation. apply NoDup_remove_dups. }
  pose proof (trim_types_spec (rotate_left start models) (au_batch_size config) s2 Hnd) as Htt.
  rewrite Hr2 in Htt. specialize (Htt Hu Hb).
  destruct (trim_types config _ _ s2) as [r s3]. destruct Htt as [Hle (n & Hp & Hr)]. rewrite Ht2 in Hle, Hp, Hr.
  assert (Hret : retained (ad_tick s) (ad_tick s3) (au_batch_size config) n rows (ad_rows s3)).
  { destruct (pass_retained _ _ _ _ _ _ _ Hu Hp) as [? ? ? Hrm ?]. split; try done.
    intros x Hx Hno. destruct (Hrm x Hx Hno) as (t & ? & ?). exists t. split; [lia|done]. }
  destruct r as [rest|e]; cbn [mret Comp_ret]; exists n; (split; [done|]).
  - destruct Hr as [-> Hset]. split; [lia|]. intros Hlt m Hm.
    assert (Hu' : unique_ids (ad_rows s3)) by (eapply unique_ids_sublist; [apply (rt_sub _ _ _ _ _ _ Hret)|done]).
    apply settled_within; [done|]. destruct (decide (m ∈ rotate_left start models)) as [Hin|Hno].
    + destruct (Hset Hlt m Hin Hm) as (t & ? & ?). exists t. split; [lia|done].
    + exists (ad_tick s). split; [lia|]. rewrite (late_of_type _ _ rows) by (by apply (ps_other _ _ _ _ _ _ _ Hp)).
      apply elem_of_nil_inv. intros x [Hx Hxm]%late_sub. apply Hno. rewrite Hrot.
      unfold models, audited_types. rewrite elem_of_sort_strings, elem_of_remove_dups, <-Hxm.
      by apply list_elem_of_fmap_2.
  - destruct Hr as (t & ? & ?). exists t. split; [lia|done].
Qed.

(** *** Passes *)

Fixpoint passes (k : nat) (s : AuditDb) : AuditDb :=
  match k with O => s | S k => (audit_maintain config (passes k s)).2 end.

Lemma passes_settle k s :
  unique_ids (ad_rows s) -> 1 <= au_batch_size config -> (forall n, av_fault n = false) ->
  Z.of_nat (length (ad_rows s)) < Z.of_nat k * au_batch_size config ->
  exists i, (i < k)%nat /\ forall m, limited (audit_policy config m) = true ->
    within (ad_tick (passes i s)) (ad_tick (passes (S i) s)) m (ad_rows (passes (S i) s)).
Proof.
  intros Hu Hb Hup Hk.
  assert (Hgo : unique_ids (ad_rows (passes k s)) /\
    ((exists i, (i < k)%nat /\ forall m, limited (audit_policy config m) = true ->
      within (ad_tick (passes i s)) (ad_tick (passes (S i) s)) m (ad_rows (passes (S i) s))) \/
    Z.of_nat (length (ad_rows (passes k s))) + Z.of_nat k * au_batch_size config
      <= Z.of_nat (length (ad_rows s)))).
  { clear Hk. induction k as [|k [Huk IH]]; [split; [done|right; cbn; lia]|]. cbn [passes].
    pose proof (maintain_spec (passes k s) Huk ltac:(lia)) as Hm. cbn [passes] in *.
    destruct (audit_maintain config (passes k s)) as [r s'] eqn:Hr. cbn [snd].
    destruct Hm as (n & Hret & Hres). split.
    { eapply unique_ids_sublist; [apply (rt_sub _ _ _ _ _ _ Hret)|done]. }
    destruct IH as [(i & Hi & Hw)|Hlen]; [left; exists i; split; [lia|done]|].
    destruct r as [a|e]; [|destruct Hres as (t & _ & Hf); by rewrite Hup in Hf].
    destruct Hres as [-> Hset]. destruct (decide (n < au_batch_size config)) as [Hlt|Hge].
    - left. exists k. split; [lia|]. rewrite Hr. cbn [snd]. by apply Hset.
    - right. destruct Hret. lia. }
  destruct Hgo as [_ [?|?]]; [done|lia].
Qed.
End Trim.

(** ** The routes *)

Section Gates.
Context {ho : HashOrder} {env : AuthEnv} {av : AuditEnv}.

Lemma user_keeps now authorization s :
  sv_audit (user_optional now authorization s).2 = sv_audit s.
Proof. unfold user_optional, reply, on. by destruct (with_error _ _ _). Qed.
Lemma signed_in_eq now authorization s :
  signed_in now authorization s =
    match user_optional now authorization s with
    | (inl (Some u), s1) => (inl u, s1)
    | (inl None, s1) => (inr (empty_response 401), s1)
    | (inr e, s1) => (inr e, s1)
    end.
Proof. unfold signed_in, mbind, Comp_bind. by destruct (user_optional _ _ _) as [[[u|]|e] s1]. Qed.

(** The user a request is signed in as *)
Definition known (now : Z) (authorization : option string) (s : AuditServer) (u : AuthUser) : Prop :=
  (user_optional now authorization s).1 = inl (Some u).

Lemma signed_in_inl now authorization s u s1 :
  signed_in now authorization s = (inl u, s1) -> known now authorization s u /\ sv_audit s1 = sv_audit s.
Proof.
  rewrite signed_in_eq. pose proof (user_keeps now authorization s) as Hk. unfold known.
  destruct (user_optional _ _ _) as [[[v|]|e] s2]; intros [=]; subst. done.
Qed.
Lemma overseer_inl now authorization s u s1 :
  overseer now authorization s = (inl u, s1) ->
  known now authorization s u /\ oversees u = true /\ sv_audit s1 = sv_audit s.
Proof.
  unfold overseer. intros (v & s2 & Hs & Hv)%bind_inl. apply signed_in_inl in Hs as [Hk Hs].
  destruct (oversees v) eqn:Ho; [|done]. injection Hv as -> ->. done.
Qed.

Lemma service_inl {A} (m : Comp AuditDb AuditFault A) s a s' :
  service m s = (inl a, s') -> exists d, m (sv_audit s) = (inl a, d).
Proof.
  unfold service, on, with_error. destruct (m (sv_audit s)) as [[b|e] d]; intros [=]; subst. by eexists.
Qed.
Lemma select_decoded f s xs d :
  (rows ← audit_select f; of_sum (decode_rows rows) : Comp AuditDb AuditFault (list AuditLogEntry)) s = (inl xs, d) ->
  forall x, x ∈ xs -> exists r, r ∈ f (ad_rows s) /\ shows r x.
Proof.
  unfold mbind, Comp_bind, audit_select, audit_sql. destruct (av_fault _); [done|].
  unfold of_sum. intros [= Hd _] x Hx. apply decode_rows_shows in Hd.
  destruct (Forall2_in_r _ _ _ _ Hd Hx) as (r & [_ Hr]%list_elem_of_filter & Hrx). by exists r.
Qed.

Lemma newest_of (P : AuditRow -> Prop) `{forall r, Decision (P r)} rows r :
  r ∈ newest (filter P rows) -> P r /\ r ∈ rows.
Proof. by rewrite newest_perm, list_elem_of_filter. Qed.
Lemma search_sub filters s xs d x :
  search_audit_logs filters s = (inl xs, d) -> x ∈ xs -> exists r, r ∈ ad_rows s /\ shows r x.
Proof.
  intros Hs Hx. assert (Hq : (rows ← audit_select (fun rows => take 100 (newest rows)); of_sum (decode_rows rows)) s = (inl xs, d)).
  { rewrite <-Hs. unfold search_audit_logs.
    by destruct (fl_type filters), (fl_entity filters), (fl_operation filters), (fl_user filters), (fl_start filters), (fl_end filters). }
  destruct (select_decoded _ _ _ _ Hq x Hx) as (r & Hr%subseteq_take & Hrx). rewrite newest_perm in Hr. by exists r.
Qed.

(** The filters decide nothing. *)
Lemma search_ignores_filters filters s : search_audit_logs filters s = search_audit_logs no_filters s.
Proof.
  unfold search_audit_logs.
  by destruct (fl_type filters), (fl_entity filters), (fl_operation filters), (fl_user filters), (fl_start filters), (fl_end filters).
Qed.
Lemma stats_ignore_filters filters s : get_audit_stats filters s = get_audit_stats no_filters s.
Proof. done. Qed.

(** The service's reads write nothing. *)
Definition reads {A} (m : Comp AuditDb AuditFault A) : Prop :=
  keeping (fun d d' => ad_rows d' = ad_rows d) m.
Lemma select_reads {A} (f : list AuditRow -> A) : reads (audit_select f).
Proof. intros s. unfold audit_select, audit_sql. by destruct (av_fault _). Qed.
End Gates.

(** ** What is promised *)

(** C33: The listener stores only events that happened, in their order, each as its type's
    policy asks: none of a type that is off, without its data where only metadata is kept;
    and where the log was empty and nothing keeps entries from being written, the log of an
    entity whose id is a ULID, and none that the service drew itself, is exactly its audited
    events, newest first. *)
Theorem audit_trail {ho : HashOrder} {env : AuthEnv} {av : AuditEnv} (config : AuditConfig)
    (rx : list Received) (s : AuditDb) :
  (exists es new, ad_rows (listen config rx s) = ad_rows s ++ new /\
     es `sublist_of` audited config rx /\ Forall2 (records config) es new) /\
  (forall ty id, ad_rows s = [] -> writable config s -> parse_id id = Some id -> (forall n, new_id n <> id) ->
     exists xs ys, (get_audit_logs_for_entity ty id (listen config rx s)).1 = inl xs /\
       StronglySorted (fun x y => ae_created y <= ae_created x) xs /\ xs ≡ₚ ys /\
       Forall2 (fun e x => reports config e x /\ ae_entity x = id) (filter (about ty id) (audited config rx)) ys).
Proof.
  split; [|intros ty id; apply entity_trail].
  destruct (listen_spec config rx s) as (es & new & ? & ? & ? & _). by exists es, new.
Qed.

(** C34: A maintenance pass, whether it fails or not, deletes a batch of rows at most, only rows
    past a limit of their type and the oldest of the type first; one that deletes less than
    a batch leaves no row past the limits. *)
Theorem retention_bounded {ho : HashOrder} {av : AuditEnv} (config : AuditConfig) (s : AuditDb) :
  (forall r, 0 <= av_row_bytes r) -> unique_ids (ad_rows s) -> 0 <= au_batch_size config ->
  let '(r, s') := audit_maintain config s in
  exists n, retained config (ad_tick s) (ad_tick s') (au_batch_size config) n (ad_rows s) (ad_rows s') /\
  match r with
  | inl a => a = n /\
      (n < au_batch_size config -> forall m, limited (audit_policy config m) = true ->
         within config (ad_tick s) (ad_tick s') m (ad_rows s'))
  | inr _ => exists t, (ad_tick s <= t)%nat /\ av_fault t = true
  end.
Proof. intros Hpos. by apply maintain_spec. Qed.

(** While nothing is written, passes that do not fail reach the limits: after as many as
    there are batches in the table, one has left no row past them. *)
Theorem retention_reached {ho : HashOrder} {av : AuditEnv} (config : AuditConfig) (k : nat) (s : AuditDb) :
  (forall r, 0 <= av_row_bytes r) -> unique_ids (ad_rows s) -> 1 <= au_batch_size config ->
  (forall n, av_fault n = false) ->
  Z.of_nat (length (ad_rows s)) < Z.of_nat k * au_batch_size config ->
  exists i, (i < k)%nat /\ forall m, limited (audit_policy config m) = true ->
    within config (ad_tick (passes config i s)) (ad_tick (passes config (S i) s)) m (ad_rows (passes config (S i) s)).
Proof. intros Hpos. by apply passes_settle. Qed.

(** The log is shown to administrators and managers, and to a user what he did himself;
    what is shown of a user or of an entity are rows about it. *)
Theorem audit_reads_confined {ho : HashOrder} {env : AuthEnv} {av : AuditEnv}
    (now : Z) (authorization : option string) (s : AuditServer) :
  let rows := ad_rows (sv_audit s) in
  (forall params xs s', get_audit_logs now authorization params s = (inl xs, s') ->
     (exists u, known now authorization s u /\ oversees u = true) /\
     forall x, x ∈ xs -> exists r, r ∈ rows /\ shows r x) /\
  (forall params st s', get_audit_statistics now authorization params s = (inl st, s') ->
     exists u, known now authorization s u /\ oversees u = true) /\
  (forall user_id xs s', get_user_activity now authorization user_id s = (inl xs, s') ->
     (exists u, known now authorization s u /\ (oversees u = true \/ au_id u = user_id)) /\
     exists id, parse_id user_id = Some id /\
     forall x, x ∈ xs -> exists r, r ∈ rows /\ shows r x /\ ar_user r = Some id) /\
  (forall ty entity xs s', get_entity_audit now authorization ty entity s = (inl xs, s') ->
     (exists u, known now authorization s u /\ oversees u = true) /\
     exists id, parse_id entity = Some id /\
     forall x, x ∈ xs -> exists r, r ∈ rows /\ shows r x /\ ar_type r = ty /\ ar_entity r = id).
Proof.
  cbn zeta. split_and!.
  - intros params xs s' (u & s1 & (Hk & Ho & Hs)%overseer_inl & (d & Hd)%service_inl)%bind_inl.
    split; [by exists u|]. intros x Hx. rewrite <-Hs. by eapply search_sub.
  - intros params st s' (u & s1 & (Hk & Ho & Hs)%overseer_inl & _)%bind_inl. by exists u.
  - intros user_id xs s' (u & s1 & (Hk & Hs)%signed_in_inl & Hg)%bind_inl.
    destruct (_ && _) eqn:Hgate; [done|]. destruct (parse_id user_id) as [id|] eqn:Hid; [|done].
    apply bind_inl in Hg as (? & s2 & [= <- <-] & (d & Hd)%service_inl).
    split; [exists u; split; [done|]|exists id; split; [done|]].
    + apply andb_false_iff in Hgate as [Hi%bool_decide_eq_false|Hi]; [right; by apply dec_stable|left].
      by apply negb_false_iff in Hi.
    + intros x Hx. destruct (select_decoded _ _ _ _ Hd x Hx) as (r & [Hu Hr]%newest_of & Hrx).
      exists r. by rewrite Hs in Hr.
  - intros ty entity xs s' (u & s1 & (Hk & Ho & Hs)%overseer_inl & Hg)%bind_inl.
    destruct (parse_id entity) as [id|] eqn:Hid; [|done].
    apply bind_inl in Hg as (? & s2 & [= <- <-] & (d & Hd)%service_inl).
    split; [by exists u|]. exists id. split; [done|].
    intros x Hx. destruct (select_decoded _ _ _ _ Hd x Hx) as (r & [[Ht He] Hr]%newest_of & Hrx).
    exists r. by rewrite Hs in Hr.
Qed.

(** ** A small log *)

Module AuditExamples.
#[local] Existing Instance enum_order.
#[local] Existing Instance AuthSpec.AuthExamples.env.

#[local] Instance av : AuditEnv := {|
  av_fault n := false;
  av_now n := 1000000 * Z.of_nat n;
  av_db_now n := 1000000 * Z.of_nat n;
  av_jsonb := Some;
  av_doc_text d := "data"%string;
  av_row_bytes r := 100;
  av_rfc3339 s := None;
  av_stream_id s := None
|}.
(** Notes keep metadata for 250 bytes, secrets are off. *)
Definition config : AuditConfig :=
  mkAuditConfig (mkAuditPolicy AuditFull None None)
    (<["Note"%string := mkAuditPolicy AuditMetadata None (Some 250)]>
      {["Secret"%string := mkAuditPolicy AuditOff None None]}) 60 1.
Definition change (t : EventType) (model id : string) : Received :=
  REvent (mkModelEvent t model {["id"%string := VString id]} None "" "" (Some "idann"%string) None).
Definition heard_of : list Received :=
  [change MCreated "Note" "idnote"; RLagged 3; change MCreated "Secret" "idnote"; change MUpdated "Note" "idnote";
   change MCreated "Note" "idother"; change MDeleted "Note" "idnote"; RClosed; change MCreated "Note" "idnote"].
Definition written : AuditDb := listen config heard_of audit_db_new.
Definition note_log : list AuditLogEntry :=
  match (get_audit_logs_for_entity "Note" "idnote" written).1 with inl xs => xs | inr _ => [] end.

Example note_log_is : ae_operation <$> note_log = [AuditDelete; AuditUpdate; AuditCreate].
Proof. vm_compute. reflexivity. Qed.

(** The id of a record that is no [EntityId] is lost: its entry names another one. *)
Example uuid_lost :
  (ar_entity <$> ad_rows (listen config [change MCreated "Note" "6f9619ff-8b86-d011-b42d-00cf4fc964ff"] audit_db_new)) = ["id"%string].
Proof. vm_compute. reflexivity. Qed.

Lemma id_fresh n t : t <> bits (unbits t) -> new_id n <> "id" +:+ t.
Proof.
  intros Ht E. change (new_id n) with ("id" +:+ bits (Pos.of_succ_nat n)) in E.
  rewrite !str_app_cons, !str_app_nil in E. injection E as E. apply Ht. by rewrite <-E, unbits_bits.
Qed.
Lemma init_writable : writable config audit_db_new.
Proof.
  split; cbn; [done|by eexists| |by intros ? ? ?%not_elem_of_nil].
  intros n m E. change ("id" +:+ bits (Pos.of_succ_nat n) = "id" +:+ bits (Pos.of_succ_nat m)) in E.
  rewrite !str_app_cons, !str_app_nil in E. injection E as E%bits_inj. lia.
Qed.

Lemma audit_trail_witness :
  exists xs, (get_audit_logs_for_entity "Note" "idnote" written).1 = inl xs /\ length xs = 3%nat.
Proof.
  destruct (audit_trail config heard_of audit_db_new) as [_ Ht].
  destruct (Ht "Note"%string "idnote"%string eq_refl init_writable eq_refl) as (xs & ys & Hg & _ & Hp & Hf).
  { intros n. by apply id_fresh. }
  exists xs. split; [exact Hg|]. rewrite Hp. apply Forall2_length in Hf. rewrite <-Hf. vm_compute. reflexivity.
Defined.

(** Four notes of a hundred bytes, and a budget for two *)
Lemma retention_bounded_witness :
  length (ad_rows written) = 4%nat /\ (audit_maintain config written).1 = inl 1 /\
  exists n, retained config (ad_tick written) (ad_tick (audit_maintain config written).2) 1 n
    (ad_rows written) (ad_rows (audit_maintain config written).2) /\ n = 1.
Proof.
  split; [vm_compute; reflexivity|]. split; [vm_compute; reflexivity|].
  pose proof (retention_bounded config written) as Hr.
  destruct (audit_maintain config written) as [r s'] eqn:Hm.
  destruct Hr as (n & Hret & Hres); [by intros|by apply (bool_decide_unpack _); vm_compute|by vm_compute|].
  exists n. split; [exact Hret|]. apply (f_equal fst) in Hm. vm_compute in Hm. subst r. by destruct Hres as [<- _].
Defined.

Lemma retention_reached_witness :
  exists i, (i < 5)%nat /\
    within config (ad_tick (passes config i written)) (ad_tick (passes config (S i) written)) "Note"
      (ad_rows (passes config (S i) written)).
Proof.
  destruct (retention_reached config 5 written) as (i & Hi & Hw).
  - by intros.
  - by apply (bool_decide_unpack _); vm_compute.
  - by vm_compute.
  - by intros.
  - by vm_compute.
  - exists i. split; [exact Hi|]. by apply Hw.
Defined.
Example two_notes_left : length (ad_rows (passes config 5 written)) = 2%nat.
Proof. vm_compute. reflexivity. Qed.

(** Ann, who may only look, reads what she did and not the log. *)
Definition ann_id : string := ui_id (lr_user AuthSpec.AuthExamples.response).
Definition ann_token : option string := Some ("Bearer " +:+ lr_token AuthSpec.AuthExamples.response).
Definition server : AuditServer :=
  mkAuditServer AuthSpec.AuthExamples.joined
    (listen config [REvent (mkModelEvent MCreated "Page" {["id"%string := VString "idp"]} None "" "" (Some ann_id) None);
                    change MCreated "Page" "idp"] audit_db_new).
Definition activity : list AuditLogEntry + Response := (get_user_activity 5 ann_token ann_id server).1.

Lemma audit_reads_confined_witness :
  (exists x, activity = inl [x] /\ exists r, r ∈ ad_rows (sv_audit server) /\ shows r x /\ ar_user r = Some ann_id) /\
  (get_audit_logs 5 ann_token ∅ server).1 = inr (empty_response 403).
Proof.
  split; [|vm_compute; reflexivity].
  destruct (get_user_activity 5 ann_token ann_id server) as [[xs|e] s'] eqn:Hg.
  2:{ exfalso. apply (f_equal (fun p => bool_decide (is_Some (match p.1 with inl _ => Some tt | inr _ => None end)))) in Hg.
      vm_compute in Hg. discriminate. }
  destruct (audit_reads_confined 5 ann_token server) as (_ & _ & Hown & _).
  destruct (Hown _ _ _ Hg) as (_ & id & Hid & Hx).
  assert (Hlen : length xs = 1%nat).
  { apply (f_equal (fun p => match p.1 with inl l => length l | inr _ => 0%nat end)) in Hg. vm_compute in Hg. by rewrite Hg. }
  destruct xs as [|x [|]]; [done| |done]. exists x. unfold activity. rewrite Hg. split; [reflexivity|].
  destruct (Hx x) as (r & Hr & Hs & Hu); [left|]. exists r. split; [exact Hr|]. split; [exact Hs|].
  rewrite Hu. rewrite <-Hid. vm_compute. reflexivity.
Defined.
End AuditExamples.
