(* ===== verification/PlatformGraphql.v ===== *)
(** * The platform's GraphQL resolvers ([atomo_server/src/platform_graphql.rs])

    Users, sessions and jobs for administration, merged into the served schema.  The
    statements run on the tables of [Auth]; the relations [platform_users] and [audit_logs]
    are not made by the program, what the database holds under those names is an argument.
    No resolver but [enqueue_job] looks at the context of the request, and the theorems say
    what that amounts to. *)

From S2P Require Import Prelude Json StateM Auth AuthSpec GraphQl.
From S2P Require Jobs.

Inductive PlatformFault : Type :=
  | PfDb (e : AuthError)            (* [sqlx::Error] *)
  | PfPanic                         (* an [unwrap], or a column that is not in the row *)
  | PfMessage (message : string).

(** [UserRole::from_str] *)
Definition role_parse (s : string) : option UserRole :=
  let l := to_ascii_lowercase s in
  if decide (l = "admin"%string) then Some Admin
  else if decide (l = "manager"%string) then Some Manager
  else if decide (l = "sales"%string) then Some Sales
  else if decide (l = "support"%string) then Some Support
  else if decide (l = "viewer"%string) then Some Viewer else None.
(** The match on the column in [get_users] *)
Definition role_column (s : string) : UserRole :=
  if decide (s = "admin"%string) then Admin else if decide (s = "manager"%string) then Manager
  else if decide (s = "sales"%string) then Sales else if decide (s = "support"%string) then Support else Viewer.

(** A row of the relation [audit_logs], the columns of the conditions and the order *)
Record LegacyLog : Type := mkLegacy {
  ll_user : option string; ll_resource_type : option string; ll_resource_id : option string; ll_timestamp : Z
}.
Record UserSession : Type := mkUserSession {
  se_id : string; se_user : string; se_token : string;    (* the token is skipped in GraphQL *)
  se_expires : Z; se_created : Z
}.

(** [LIMIT] and [OFFSET] as PostgreSQL takes them *)
Definition page {A} (limit offset : Z) (rows : list A) : option (list A) :=
  if (limit <? 0) || (offset <? 0) then None
  else Some (take (Z.to_nat limit) (drop (Z.to_nat offset) rows)).
Definition by_time {A} (time : A -> Z) (a b : A) : Prop := time a <= time b.
#[export] Instance by_time_dec {A} (time : A -> Z) : RelDecision (by_time time).
Proof. intros a b. unfold by_time. apply _. Defined.

Section Platform.
Context {ho : HashOrder} {env : AuthEnv}.
Variable platform_users : option (list User).
Variable audit_logs : option (list LegacyLog).

Definition Plat (A : Type) : Type := AuthDb -> (A + PlatformFault) * AuthDb.
#[global] Instance plat_ret : MRet Plat := fun A a s => (inl a, s).
#[global] Instance plat_bind : MBind Plat := fun A B k m s =>
  match m s with (inl a, s') => k a s' | (inr e, s') => (inr e, s') end.

Definition run_sql {A} (m : Op A) : Plat A := fun s =>
  match m s with (inl a, s') => (inl a, s') | (inr e, s') => (inr (PfDb e), s') end.
Definition fail_with {A} (e : PlatformFault) : Plat A := fun s => (inr e, s).
Definition unwrapped {A} (o : option A) : Plat A :=
  match o with Some a => mret a | None => fail_with PfPanic end.
(** A statement that the database refuses where [o] is none *)
Definition select_page {A} (f : AuthDb -> option A) : Plat A :=
  run_sql (sql (fun _ s => match f s with Some a => (inl a, s) | None => (inr (DbError false), s) end)).

(** [ORDER BY .. DESC] *)
Definition latest_first {A} (time : A -> Z) (rows : list A) : list A :=
  reverse (merge_sort (by_time time) (horder rows)).

Fixpoint decoded {A B} (f : A -> option B) (rows : list A) : Plat (list B) :=
  match rows with
  | [] => mret []
  | r :: rest => b ← unwrapped (f r); bs ← decoded f rest; mret (b :: bs)
  end.

(** ** Queries *)

Definition listed_user (u : User) : option PlatformUser :=
  (fun id => mkPlatform id (us_email u) (us_hash u) (Some (us_first u)) (Some (us_last u)) (role_column (us_role u))
               (us_active u) (us_last_login u) (us_created u) (us_updated u)) <$> parse_id (us_id u).
Definition get_users (limit offset : option Z) : Plat (list PlatformUser) :=
  rows ← select_page (fun _ => platform_users ≫= fun us =>
    page (default 20 limit) (default 0 offset) (latest_first us_created us));
  decoded listed_user rows.

Definition session_of (t : Session) : option UserSession :=
  id ← parse_id (ss_id t); user ← parse_id (ss_user t);
  Some (mkUserSession id user (ss_token t) (ss_expires t) (ss_created t)).
Definition get_user_sessions (user_id : option string) (limit offset : option Z) : Plat (list UserSession) :=
  rows ← select_page (fun s =>
    let mine t := match user_id with Some u => bool_decide (ss_user t = u) | None => true end in
    page (default 20 limit) (default 0 offset)
      (latest_first ss_created (filter (fun t => mine t = true) (hvalues (a_sessions s)))));
  decoded session_of rows.

(** The columns that are read are none of those selected: a row is a panic. *)
Definition get_audit_logs (entity_type entity_id user_id : option string) (limit offset : option Z)
    : Plat (list unit) :=
  let asked (o : option string) (column : option string) :=
    match o with Some x => bool_decide (column = Some x) | None => true end in
  rows ← select_page (fun _ => audit_logs ≫= fun ls =>
    page (default 20 limit) (default 0 offset)
      (latest_first ll_timestamp (filter (fun l =>
         asked entity_type (ll_resource_type l) && asked entity_id (ll_resource_id l) && asked user_id (ll_user l) = true) ls)));
  decoded (fun _ => None) rows.

(** ** Mutations *)

(** The row a statement returns *)
Definition returned (u : User) : option PlatformUser :=
  id ← parse_id (us_id u); role ← role_parse (us_role u);
  Some (mkPlatform id (us_email u) (us_hash u) (Some (us_first u)) (Some (us_last u)) role (us_active u)
          (us_last_login u) (us_created u) (us_updated u)).

(** Absent names are bound as [NULL], which the columns refuse. *)
Definition create_user (email : string) (first last : option string) (role : UserRole) : Plat PlatformUser :=
  n ← run_sql draw;
  u ← run_sql (sql (fun dbnow s =>
    match first, last with
    | Some first, Some last =>
        let u := mkUser (new_id n) email "temp_hash" first last (role_str role) true None None dbnow dbnow in
        if decide (is_Some (a_users s !! us_id u) \/ is_Some (user_by_email email s)) then (inr (DbError true), s)
        else (inl u, with_users (<[us_id u := u]> (a_users s)) s)
    | _, _ => (inr (DbError false), s)
    end));
  unwrapped (returned u).

(** [SET] of the fields that are given *)
Definition changed_user (email first last : option string) (role : option UserRole) (is_active : option bool)
    (dbnow : Z) (u : User) : User :=
  mkUser (us_id u) (default (us_email u) email) (us_hash u) (default (us_first u) first) (default (us_last u) last)
    (default (us_role u) (role_str <$> role)) (default (us_active u) is_active) (us_tenant u)
    (us_last_login u) (us_created u) dbnow.
Definition email_taken (id : string) (email : option string) (s : AuthDb) : bool :=
  match email with
  | Some e => existsb (fun v => bool_decide (us_email v = e) && negb (bool_decide (us_id v = id))) (hvalues (a_users s))
  | None => false
  end.
Definition update_user (user_id : string) (email first last : option string) (role : option UserRole)
    (is_active : option bool) : Plat PlatformUser :=
  match parse_id user_id with
  | None => fail_with (PfDb (DbError false))
  | Some id =>
      u ← run_sql (sql (fun dbnow s =>
        match a_users s !! id with
        | None => (inr (DbError false), s)              (* [RowNotFound] *)
        | Some u =>
            if email_taken id email s then (inr (DbError true), s)
            else let u := changed_user email first last role is_active dbnow u in
                 (inl u, with_users (<[id := u]> (a_users s)) s)
        end));
      unwrapped (returned u)
  end.

(** Not among the resolvers *)
Definition deactivate_user (user_id : string) : Plat bool :=
  match parse_id user_id with
  | None => fail_with (PfDb (DbError false))
  | Some id =>
      run_sql (sql (fun dbnow s =>
        match a_users s !! id with
        | None => (inl false, s)
        | Some u => (inl true, with_users
            (<[id := changed_user None None None None (Some false) dbnow u]> (a_users s)) s)
        end))
  end.
End Platform.

(** ** Resolvers *)

Section Resolvers.
Context {ho : HashOrder} {env : AuthEnv}.
Variable platform_users : option (list User).
Variable audit_logs : option (list LegacyLog).

Definition users_resolver (ctx : GqlCtx) (limit offset : option Z) : Plat (list PlatformUser) :=
  get_users platform_users limit offset.
Definition user_sessions_resolver (ctx : GqlCtx) (user_id : option string) (limit offset : option Z)
    : Plat (list UserSession) := get_user_sessions user_id limit offset.
Definition audit_logs_resolver (ctx : GqlCtx) (entity_type entity_id user_id : option string)
    (limit offset : option Z) : Plat (list unit) :=
  get_audit_logs audit_logs entity_type entity_id user_id limit offset.
Definition create_user_resolver (ctx : GqlCtx) (email : string) (first last : option string) (role : UserRole)
    : Plat PlatformUser := create_user email first last role.
Definition update_user_resolver (ctx : GqlCtx) (id : string) (email first last : option string)
    (role : option UserRole) (is_active : option bool) : Plat PlatformUser :=
  update_user id email first last role is_active.

(** The one resolver that asks for a user; the job is the request's tenant's. *)
Definition enqueue_job (now : Z) (uuid : string) (ctx : GqlCtx) (queue kind : string) (payload : option Value)
    (key : option string) (max_attempts priority : option Z) (st : Jobs.JobStore)
    : (string + PlatformFault) * Jobs.JobStore :=
  match cx_user ctx with
  | None => (inr (PfMessage "authentication required"), st)
  | Some _ =>
      if bool_decide (queue = EmptyString) || bool_decide (kind = EmptyString)
      then (inr (PfMessage "queue and kind are required"), st)
      else
        match Jobs.enqueue now uuid
                (Jobs.mkEnqueue queue kind (default (json_object []) payload) key
                   (clamp 1 1000 (default 5 max_attempts)) (default 0 priority) (cx_tenant ctx)) st with
        | Some (id, st') => (inl id, st')
        | None => (inr (PfDb (DbError true)), st)
        end
  end.
End Resolvers.

(** ** What the mutations do *)

Section Spec.
Context {ho : HashOrder} {env : AuthEnv}.

Lemma role_parse_str r : role_parse (role_str r) = Some r.
Proof. by destruct r. Qed.
Lemma role_parse_from s r : role_parse s = Some r -> role_from s = r.
Proof. unfold role_parse, role_from. repeat case_decide; congruence. Qed.

(** Where nothing is returned because of the database, nothing was done; otherwise the
    row of the account has the fields given and all others are as they were. *)
Lemma update_user_cases user_id email first last role active s :
  let '(r, s') := update_user user_id email first last role active s in
  (r = inr (PfDb (DbError false)) \/ r = inr (PfDb (DbError true))) /\
    a_users s' = a_users s /\ a_sessions s' = a_sessions s \/
  exists id u t, parse_id user_id = Some id /\ a_users s !! id = Some u /\ email_taken id email s = false /\
    let u' := changed_user email first last role active t u in
    a_users s' = <[id := u']> (a_users s) /\ a_sessions s' = a_sessions s /\
    r = match returned u' with Some p => inl p | None => inr PfPanic end.
Proof.
  unfold update_user. destruct (parse_id user_id) as [id|]; [|cbn; left; split; [by left|done]].
  unfold mbind, plat_bind, run_sql, sql. destruct (fault _); [cbn; left; split; [by left|done]|].
  change (a_users (mkAuth (a_users s) _ _ _)) with (a_users s).
  destruct (a_users s !! id) as [u|] eqn:Hu; [|cbn; left; split; [by left|done]].
  change (email_taken id email (mkAuth _ _ _ _)) with (email_taken id email s).
  destruct (email_taken id email s) eqn:He; [cbn; left; split; [by right|done]|].
  set (u' := changed_user _ _ _ _ _ _ _). unfold unwrapped. destruct (returned u') as [p|] eqn:Hp; cbn; right;
    exists id, u, (db_now (a_statements s)); fold u'; by rewrite Hp.
Qed.

(** A token verifies as the account's row says at that moment. *)
Lemma verified_row now token s u s' :
  Wf s -> verify_token now token s = (inl u, s') ->
  exists row, a_users s !! au_id u = Some row /\ au_role u = role_from (us_role row).
Proof.
  intros W. unfold verify_token, validate_session.
  intros (c & s1 & [Hd ->]%or_refuse_inl & H)%op_bind_inl. rewrite Hd in H.
  apply op_bind_inl in H as (found & s2 & Hv & H).
  destruct found as [p|]; [|done].
  apply op_bind_inl in Hv as (t & s3 & [-> ->]%query_inl & Hv). cbn [a_sessions counted] in Hv.
  destruct (match a_sessions s !! cl_jti c with Some t => _ | None => _ end) as [t|]; [|done].
  apply op_bind_inl in Hv as (id & s4 & [Hid ->]%or_refuse_inl & Hv).
  apply op_bind_inl in Hv as (row & s5 & [-> ->]%query_inl & Hv). cbn [a_users counted] in Hv.
  destruct (a_users s !! id) as [row|] eqn:Hrow; [|done].
  destruct (wf_user _ W _ _ Hrow) as [Hi Hp].
  apply op_bind_inl in Hv as (p' & s6 & Hpu & Hv). injection Hv as <- <-.
  apply platform_user_inl in Hpu as (-> & Hpi & _ & Hpr); [|congruence].
  apply op_bind_inl in H as (ten & s7 & _ & H). injection H as <- _. cbn [au_id au_role].
  exists row. by rewrite Hpi, Hi, Hpr.
Qed.

Lemma update_user_drawn user_id email first last role active s :
  a_drawn (update_user user_id email first last role active s).2 = a_drawn s.
Proof.
  unfold update_user. destruct (parse_id user_id); [|done]. unfold mbind, plat_bind, run_sql, sql.
  destruct (fault _); [done|]. cbn [a_users]. destruct (a_users s !! _); [|done]. destruct (email_taken _ _ _); [done|].
  unfold unwrapped. by destruct (returned _).
Qed.

Definition emails_unique (s : AuthDb) : Prop :=
  forall id1 id2 u1 u2, a_users s !! id1 = Some u1 -> a_users s !! id2 = Some u2 ->
    us_email u1 = us_email u2 -> id1 = id2.

Lemma changed_user_wf s s' id u u' :
  Wf s -> a_users s !! id = Some u -> us_id u' = us_id u ->
  a_users s' = <[id := u']> (a_users s) -> a_sessions s' = a_sessions s -> a_drawn s' = a_drawn s -> Wf s'.
Proof.
  intros [WU WS WT] Hu Hid Hus Hss Hdr. split; rewrite ?Hus, ?Hss, ?Hdr; [|done|done].
  intros id' v. rewrite lookup_insert_Some. intros [[<- <-]|[_ Hv]]; [|by apply WU].
  rewrite Hid. by apply WU.
Qed.
Lemma email_free id e s id' v :
  Wf s -> email_taken id (Some e) s = false -> a_users s !! id' = Some v -> us_email v = e -> id' = id.
Proof.
  intros W Ht Hv He. unfold email_taken in Ht. destruct (decide (id' = id)) as [|Hne]; [done|]. exfalso.
  assert (existsb (fun v => bool_decide (us_email v = e) && negb (bool_decide (us_id v = id))) (hvalues (a_users s)) = true); [|congruence].
  apply existsb_exists. exists v. split; [apply list_elem_of_In, elem_of_hvalues; by exists id'|].
  destruct (wf_user _ W _ _ Hv) as [-> _]. rewrite !bool_decide_true by done. by rewrite bool_decide_false.
Qed.
Lemma changed_emails id email first last role active t u s s' :
  Wf s -> emails_unique s -> a_users s !! id = Some u -> email_taken id email s = false ->
  a_users s' = <[id := changed_user email first last role active t u]> (a_users s) -> emails_unique s'.
Proof.
  intros W Hu Hid Ht Hus.
  assert (Hone : forall id' v, id' <> id -> a_users s !! id' = Some v -> us_email v <> default (us_email u) email).
  { intros id' v Hne Hv He. apply Hne. destruct email as [e|]; [by eapply email_free|by eapply Hu]. }
  intros id1 id2 u1 u2. rewrite Hus, !lookup_insert_Some.
  intros [[<- <-]|[? H1]] [[<- <-]|[? H2]] He; [done| | |by eapply Hu].
  - exfalso. by eapply (Hone id2).
  - exfalso. by eapply (Hone id1).
Qed.

Lemma returned_spec u p :
  returned u = Some p -> parse_id (us_id u) = Some (pu_id p) /\ role_parse (us_role u) = Some (pu_role p).
Proof.
  unfold returned. destruct (parse_id (us_id u)) as [id|]; [|done]. cbn.
  destruct (role_parse (us_role u)); [|done]. cbn. by intros [= <-].
Qed.
End Spec.

(** C35: An update through the API, whoever sends it, is refused by the database and does
    nothing, or changes of the account it names just the fields that are given, its role
    at once for every token of the account; accounts keep their ids and unique emails. *)
Theorem account_updates {ho : HashOrder} {env : AuthEnv} (ctx : GqlCtx) (user_id : string)
    (email first last : option string) (role : option UserRole) (active : option bool) (s : AuthDb) :
  Wf s -> emails_unique s ->
  let '(r, s') := update_user_resolver ctx user_id email first last role active s in
  Wf s' /\ emails_unique s' /\ a_sessions s' = a_sessions s /\
  ((r = inr (PfDb (DbError false)) \/ r = inr (PfDb (DbError true))) /\ a_users s' = a_users s \/
   exists id u t, parse_id user_id = Some id /\ a_users s !! id = Some u /\
     a_users s' = <[id := changed_user email first last role active t u]> (a_users s) /\
     forall wanted, role = Some wanted ->
       (exists p, r = inl p /\ pu_role p = wanted /\ pu_id p = id) /\
       forall now token v s2, verify_token now token s' = (inl v, s2) -> au_id v = id -> au_role v = wanted).
Proof.
  intros W Hu. unfold update_user_resolver.
  pose proof (update_user_cases user_id email first last role active s) as Hc.
  pose proof (update_user_drawn user_id email first last role active s) as Hdr.
  destruct (update_user _ _ _ _ _ _ s) as [r s']. cbn [snd] in Hdr.
  destruct Hc as [(Hr & Hus & Hss)|(id & u & t & Hid & Hlu & Hfree & Hus & Hss & Hr)].
  { assert (W' : Wf s') by (destruct W; split; rewrite ?Hus, ?Hss, ?Hdr; done).
    split; [done|]. split; [intros id1 id2 u1 u2; rewrite Hus; by apply Hu|]. split; [done|]. by left. }
  destruct (wf_user _ W _ _ Hlu) as [Hui Hpi].
  assert (W' : Wf s').
  { eapply changed_user_wf; [exact W|exact Hlu| |exact Hus|exact Hss|exact Hdr]; done. }
  split; [done|]. split; [eapply changed_emails; [exact W|exact Hu|exact Hlu|exact Hfree|exact Hus]|]. split; [done|]. right. exists id, u, t.
  split_and!; [done..|]. intros wanted ->. split.
  - unfold returned, changed_user in Hr. cbn in Hr. rewrite Hui, Hpi in Hr. cbn in Hr. rewrite role_parse_str in Hr.
    cbn in Hr. eexists. split; [exact Hr|]. done.
  - intros now token v s2 (row & Hrow & ->)%verified_row <-; [|done].
    rewrite Hus, lookup_insert_eq in Hrow. injection Hrow as <-. cbn. apply role_from_str.
Qed.

(** ** What does not work *)

(** An account without both names is never made. *)
Lemma names_needed {ho : HashOrder} {env : AuthEnv} email first last role s :
  first = None \/ last = None -> exists e, (create_user email first last role s).1 = inr (PfDb e).
Proof.
  intros Hn. unfold create_user, mbind, plat_bind, run_sql, sql. cbn [draw].
  destruct (fault _); [by eexists|]. destruct Hn as [-> | ->]; [by eexists|]. destruct first; by eexists.
Qed.

(** Users are listed from a relation that the program does not make. *)
Lemma users_unlisted {ho : HashOrder} {env : AuthEnv} ctx limit offset s :
  exists e, (users_resolver None ctx limit offset s).1 = inr (PfDb e).
Proof.
  unfold users_resolver, get_users, select_page, mbind, plat_bind, run_sql, sql. destruct (fault _); by eexists.
Qed.

Module PlatformExamples.
#[local] Existing Instance enum_order.
#[local] Existing Instance AuthExamples.env.
#[local] Existing Instance AuthExamples.env_laws.

(** Ann has just registered, and is a viewer. *)
Definition ann_id : string := ui_id (lr_user AuthExamples.response).
Definition ann_token : string := lr_token AuthExamples.response.
Definition viewer : GqlCtx := mkCtx (Some "Viewer"%string) (Some ann_id) None DataApi.no_scope.
Definition promoted : (PlatformUser + PlatformFault) * AuthDb :=
  update_user_resolver viewer ann_id None None None (Some Admin) None AuthExamples.joined.

(** She makes herself an administrator. *)
Example viewer_promotes_herself :
  match (verify_token 5 ann_token AuthExamples.joined).1, (verify_token 5 ann_token promoted.2).1 with
  | inl before, inl after => au_role before = Viewer /\ au_role after = Admin
  | _, _ => False
  end.
Proof. vm_compute. done. Qed.

Lemma joined_wf : Wf AuthExamples.joined.
Proof. apply (auth_run_good [AuthExamples.ann_joins]), wf_init. Qed.
Lemma joined_emails : emails_unique AuthExamples.joined.
Proof.
  assert (Hu : map_to_list (a_users AuthExamples.joined) =
    [(ann_id, default (mkUser "" "" "" "" "" "" true None None 0 0) (a_users AuthExamples.joined !! ann_id))])
    by (vm_compute; reflexivity).
  assert (Hone : forall id u, a_users AuthExamples.joined !! id = Some u -> id = ann_id).
  { intros id u Hid%elem_of_map_to_list. rewrite Hu in Hid. apply list_elem_of_singleton in Hid. by injection Hid as -> _. }
  intros id1 id2 u1 u2 H1 H2 _. by rewrite (Hone _ _ H1), (Hone _ _ H2).
Qed.

Lemma account_updates_witness :
  exists p, promoted.1 = inl p /\ pu_role p = Admin /\
  forall now token v s2, verify_token now token promoted.2 = (inl v, s2) -> au_id v = ann_id -> au_role v = Admin.
Proof.
  pose proof (account_updates viewer ann_id None None None (Some Admin) None AuthExamples.joined joined_wf joined_emails) as Hr.
  unfold promoted. destruct (update_user_resolver viewer ann_id None None None (Some Admin) None AuthExamples.joined) as [r s'] eqn:Hp.
  destruct Hr as (_ & _ & _ & [[Hr _]|(id & u & t & Hid & _ & _ & Hrole)]).
  - exfalso. apply (f_equal (fun x => bool_decide (is_Some (match x.1 with inl _ => Some tt | inr _ => None end)))) in Hp.
    vm_compute in Hp. destruct Hr as [-> | ->]; discriminate.
  - destruct (Hrole Admin eq_refl) as [(p & -> & Hpr & _) Hv]. exists p. split; [reflexivity|]. split; [exact Hpr|].
    intros now token v s2 Hver Hid2. apply (Hv now token v s2 Hver). rewrite Hid2.
    vm_compute in Hid. injection Hid as <-. vm_compute. reflexivity.
Defined.

(** The log is read from a relation under another name; where there is one, its first row
    is a panic. *)
Example audit_rows_panic :
  (audit_logs_resolver (Some [mkLegacy None (Some "Note"%string) None 0]) viewer None None None None None AuthExamples.joined).1
    = inr PfPanic.
Proof. vm_compute. reflexivity. Qed.
End PlatformExamples.
