(* ===== verification/OAuth.v ===== *)
(** * Signing in with another provider ([atomo_server/src/oauth.rs])

    The providers of the environment, the redirect to one, and the callback that exchanges
    the code, asks who the user is, finds or makes an account by email and signs a token.
    The provider's answers, the signature and the encoding of URLs are arguments. *)

From S2P Require Import Prelude Json StateM Auth AuthSpec PlatformGraphql.

Record OAuthProvider : Type := mkProvider {
  op_name : string; op_client_id : string; op_client_secret : string; op_auth_url : string;
  op_token_url : string; op_userinfo_url : string; op_redirect_uri : string; op_scopes : list string
}.
Record TokenResponse : Type := mkTokens {
  tr_access_token : string; tr_token_type : string; tr_expires_in : option Z; tr_id_token : option string
}.
Record OAuthUserInfo : Type := mkUserInfo {
  ou_sub : string; ou_email : option string; ou_name : option string; ou_picture : option string
}.

(** The manager; the pool is there or not. *)
Record OAuthManager : Type := mkManager {
  om_providers : gmap string OAuthProvider; om_pool : bool; om_jwt_secret : option string
}.

(** What is outside; requests are numbered. *)
Class OAuthEnv : Type := {
  oe_post_form : nat -> string -> list (string * string) -> option Value;
  oe_get_bearer : nat -> string -> string -> option Value;
  oe_sign : string -> Claims -> option string;       (* [jsonwebtoken::encode] under a secret *)
  oe_url_encode : string -> string
}.

Definition new : OAuthManager := mkManager ∅ false None.
Definition with_pool (m : OAuthManager) : OAuthManager := mkManager (om_providers m) true (om_jwt_secret m).
Definition register_provider (p : OAuthProvider) (m : OAuthManager) : OAuthManager :=
  mkManager (<[op_name p := p]> (om_providers m)) (om_pool m) (om_jwt_secret m).
Definition get_provider (m : OAuthManager) (name : string) : option OAuthProvider := om_providers m !! name.

(** *** The answers' fields; an absent option may also be [null]. *)

Definition text_field (k : string) (v : Value) : option string := obj_get k v ≫= value_as_str.
Definition optional {A} (f : Value -> option A) (k : string) (v : Value) : option (option A) :=
  match obj_get k v with
  | None | Some VNull => Some None
  | Some x => Some <$> f x
  end.
Definition u64_value (v : Value) : option Z := match v with VNumber (PosInt n) => Some n | _ => None end.
Definition token_response (v : Value) : option TokenResponse :=
  access ← text_field "access_token" v; type ← text_field "token_type" v;
  expires ← optional u64_value "expires_in" v; id ← optional value_as_str "id_token" v;
  Some (mkTokens access type expires id).
Definition user_info (v : Value) : option OAuthUserInfo :=
  sub ← text_field "sub" v; email ← optional value_as_str "email" v;
  name ← optional value_as_str "name" v; picture ← optional value_as_str "picture" v;
  Some (mkUserInfo sub email name picture).

Section OAuth.
Context {ho : HashOrder} {env : AuthEnv} {oe : OAuthEnv}.

Definition known_names : list string := ["google"; "github"; "microsoft"; "okta"]%string.

Definition provider_from_env (name : string) : option OAuthProvider :=
  let var suffix := env_var ("OAUTH_" +:+ to_ascii_uppercase name +:+ suffix) in
  client_id ← var "_CLIENT_ID"%string; secret ← var "_CLIENT_SECRET"%string;
  auth_url ← var "_AUTH_URL"%string; token_url ← var "_TOKEN_URL"%string;
  userinfo_url ← var "_USERINFO_URL"%string;
  Some (mkProvider name client_id secret auth_url token_url userinfo_url
    (default ("http://localhost:3000/auth/callback/" +:+ name) (var "_REDIRECT_URI"%string))
    ["openid"; "email"; "profile"]%string).

Definition from_env : OAuthManager :=
  foldl (fun m name => match provider_from_env name with
                       | Some p => mkManager (<[name := p]> (om_providers m)) (om_pool m) (om_jwt_secret m)
                       | None => m
                       end)
    (mkManager ∅ false (env_var "JWT_SECRET")) known_names.

Definition available_providers (m : OAuthManager) : list string := hkeys (om_providers m).

Definition authorize_url (p : OAuthProvider) (state : string) : string :=
  op_auth_url p +:+ "?client_id=" +:+ oe_url_encode (op_client_id p) +:+
  "&redirect_uri=" +:+ oe_url_encode (op_redirect_uri p) +:+ "&response_type=code&scope=" +:+
  oe_url_encode (String.concat " " (op_scopes p)) +:+ "&state=" +:+ oe_url_encode state.

(** A request and its answer, decoded *)
Definition asked {A} (request : nat -> option Value) (decode : Value -> option A) : Op A := fun s =>
  match request (a_statements s) ≫= decode with
  | Some a => (inl a, s)
  | None => (inr (Refused "request failed"), s)
  end.

Definition exchange_code (m : OAuthManager) (provider code : string) : Op TokenResponse :=
  p ← or_refuse (get_provider m provider) "Provider not configured";
  asked (fun n => oe_post_form n (op_token_url p)
    [("grant_type", "authorization_code"); ("code", code); ("client_id", op_client_id p);
     ("client_secret", op_client_secret p); ("redirect_uri", op_redirect_uri p)]%string) token_response.

Definition get_user_info (m : OAuthManager) (provider access_token : string) : Op OAuthUserInfo :=
  p ← or_refuse (get_provider m provider) "Provider not configured";
  asked (fun n => oe_get_bearer n (op_userinfo_url p) access_token) user_info.

Definition account_email (info : OAuthUserInfo) : string := default (ou_sub info +:+ "@oauth.local") (ou_email info).

(** The account of that email, or a new viewer: id, email and role *)
Definition find_or_create_user (m : OAuthManager) (info : OAuthUserInfo) : Op (string * string * string) :=
  if om_pool m then
    let email := account_email info in
    existing ← query (fun _ => user_by_email email);
    match existing with
    | Some u => mret (us_id u, us_email u, us_role u)
    | None =>
        n ← draw;
        let id := new_id n in
        insert_user (fun dbnow => mkUser id email EmptyString (default EmptyString (ou_name info)) EmptyString
                                    "viewer" true None None dbnow dbnow) ;;
        mret (id, email, "viewer"%string)
    end
  else refuse "No database pool configured".

Definition dev_secret : string := "dev-insecure-secret".
Definition issue_jwt (m : OAuthManager) (now : Z) (user_id email role : string) : Op string :=
  n ← draw;
  or_refuse (oe_sign (default dev_secret (om_jwt_secret m))
    (mkClaims user_id email role (timestamp (now + day)) (timestamp now) (new_uuid n))) "signing failed".

(** ** The routes *)

Definition oauth_authorize (m : OAuthManager) (provider : string) : Reply Response :=
  match get_provider m provider with
  | None => reject 404
  | Some p => then_or draw internal (fun n =>
      answer (mkResponse 307 [("location"%string, authorize_url p (new_uuid n))] NoBody))
  end.

Record LoggedIn : Type := mkLoggedIn { li_token : string; li_id : string; li_email : string; li_role : string }.
Definition logged_in_json (l : LoggedIn) : Value :=
  json_object [("access_token"%string, VString (li_token l));
    ("user"%string, json_object [("id"%string, VString (li_id l)); ("email"%string, VString (li_email l));
                                 ("role"%string, VString (li_role l))])].

(** The state that comes back is not looked at. *)
Definition oauth_callback (m : OAuthManager) (now : Z) (provider code : string) (state : option string)
    : Reply LoggedIn :=
  then_or (exchange_code m provider code) (fun _ => 502) (fun tokens =>
  then_or (get_user_info m provider (tr_access_token tokens)) (fun _ => 502) (fun info =>
  then_or (find_or_create_user m info) internal (fun '(id, email, role) =>
  then_or (issue_jwt m now id email role) internal (fun token =>
  answer (mkLoggedIn token id email role))))).

Definition oauth_providers (m : OAuthManager) : list string := available_providers m.
End OAuth.

(** ** What a sign-in leaves *)

Section Spec.
Context {ho : HashOrder} {env : AuthEnv} {oe : OAuthEnv} `{!AuthLaws env}.

(** What the provider of that name answers to the code: at its token endpoint, an access
    token, and for this at its user info endpoint, who the user is; [email] is the one it
    gives, or one made of the subject where it gives none. *)
Definition provider_says (m : OAuthManager) (provider code email : string) (n : nat) : Prop :=
  exists p granted access said,
    get_provider m provider = Some p /\
    oe_post_form n (op_token_url p)
      [("grant_type", "authorization_code"); ("code", code); ("client_id", op_client_id p);
       ("client_secret", op_client_secret p); ("redirect_uri", op_redirect_uri p)]%string = Some granted /\
    obj_get "access_token" granted = Some (VString access) /\
    oe_get_bearer n (op_userinfo_url p) access = Some said /\
    (obj_get "email" said = Some (VString email) \/
     (obj_get "email" said = None \/ obj_get "email" said = Some VNull) /\
     exists sub, obj_get "sub" said = Some (VString sub) /\ email = sub +:+ "@oauth.local").

Lemma text_field_some k v x : text_field k v = Some x -> obj_get k v = Some (VString x).
Proof. unfold text_field. destruct (obj_get k v) as [[]|]; cbn; try done. by intros [= ->]. Qed.
Lemma token_response_access v t : token_response v = Some t -> obj_get "access_token" v = Some (VString (tr_access_token t)).
Proof.
  unfold token_response. destruct (text_field "access_token" v) as [a|] eqn:Ha; [|done]. apply text_field_some in Ha. cbn.
  destruct (text_field _ v); [|done]. destruct (optional _ "expires_in" v); [|done]. destruct (optional _ _ v); [|done].
  cbn. by intros [= <-].
Qed.
Lemma user_info_email v i : user_info v = Some i ->
  obj_get "email" v = Some (VString (account_email i)) \/
  (obj_get "email" v = None \/ obj_get "email" v = Some VNull) /\
  exists sub, obj_get "sub" v = Some (VString sub) /\ account_email i = sub +:+ "@oauth.local".
Proof.
  unfold user_info. destruct (text_field "sub" v) as [sub|] eqn:Hs; [|done]. apply text_field_some in Hs. cbn.
  destruct (optional _ "email" v) as [e|] eqn:He; [|done]. destruct (optional _ "name" v); [|done].
  destruct (optional _ "picture" v); [|done]. cbn. intros [= <-]. unfold account_email, optional in *. cbn.
  destruct (obj_get "email" v) as [[]|]; cbn in He; try done; injection He as <-; cbn; eauto 6.
Qed.

(** The account a sign-in answers with: one that was there, or a new viewer's *)
Definition signed_in_as (id email role : string) (s s' : AuthDb) : Prop :=
  exists u, a_users s' !! id = Some u /\ us_email u = email /\ us_role u = role /\
  (a_users s' = a_users s \/
   a_users s !! id = None /\ (forall id' v, a_users s !! id' = Some v -> us_email v <> email) /\
   a_users s' = <[id := u]> (a_users s) /\ role = "viewer"%string /\ us_hash u = EmptyString /\
   us_active u = true /\ us_tenant u = None).

Lemma user_by_email_some email s u : user_by_email email s = Some u ->
  exists id, a_users s !! id = Some u /\ us_email u = email.
Proof.
  unfold user_by_email. intros Hh%head_Some_elem_of. apply list_elem_of_filter in Hh as [He Hin].
  apply elem_of_hvalues in Hin as [id Hid]. by exists id.
Qed.
Lemma user_by_email_none email s id u : user_by_email email s = None -> a_users s !! id = Some u -> us_email u <> email.
Proof.
  unfold user_by_email. intros Hn Hu He. destruct (filter _ _) as [|x l] eqn:Hf; [|done].
  assert (Hin : u ∈ filter (fun v => us_email v = email) (hvalues (a_users s))).
  { apply list_elem_of_filter. split; [done|]. apply elem_of_hvalues. by exists id. }
  rewrite Hf in Hin. by apply not_elem_of_nil in Hin.
Qed.

Lemma find_or_create_spec m info s id email role s' :
  Wf s -> emails_unique s -> find_or_create_user m info s = (inl (id, email, role), s') ->
  Wf s' /\ emails_unique s' /\ a_sessions s' = a_sessions s /\ email = account_email info /\ signed_in_as id email role s s'.
Proof.
  intros W Hu. unfold find_or_create_user. destruct (om_pool m); [|done].
  intros (found & s1 & [-> ->]%query_inl & H)%op_bind_inl.
  pose proof (proj1 (good_counted s W)) as W1.
  destruct (user_by_email _ (counted s)) as [u|] eqn:Hf.
  - injection H as <- <- <- <-. apply user_by_email_some in Hf as (id & Hid & He). cbn in Hid.
    destruct (wf_user _ W _ _ Hid) as [-> _]. split_and!; [done|exact Hu|done|done|].
    exists u. split_and!; [done..|by left].
  - apply op_bind_inl in H as (n & s2 & [-> ->]%draw_inl & H). cbn [a_drawn counted a_users a_sessions a_statements] in H.
    apply op_bind_inl in H as ([] & s3 & Hins & H). injection H as <- <- <- <-.
    apply sql_inl in Hins. cbn in Hins. destruct (decide _) as [|Hno]; [done|]. injection Hins as <-.
    assert (Hfree : a_users s !! new_id (a_drawn s) = None).
    { apply eq_None_not_Some. intros Hs. apply Hno. by left. }
    assert (Hne : forall id' v, a_users s !! id' = Some v -> us_email v <> account_email info).
    { intros id' v. by apply (user_by_email_none _ (counted s)). }
    set (u := mkUser _ _ _ _ _ _ _ _ _ _ _) in *.
    split_and!.
    + destruct W as [WU WS WT]. split; cbn; [| |done].
      * intros id' v. rewrite lookup_insert_Some. intros [[<- <-]|[_ Hv]]; [|by apply WU].
        split; [done|apply parse_id_new].
      * intros id' t Ht. destruct (WS _ _ Ht) as (? & ? & k & ? & ?). split_and!; [done..|]. exists k. split; [lia|done].
    + intros id1 id2 u1 u2. cbn. rewrite !lookup_insert_Some.
      intros [[<- <-]|[_ H1]] [[<- <-]|[_ H2]] He; [done| | |by eapply Hu]; cbn in He; exfalso;
        [by eapply Hne|by eapply Hne].
    + done.
    + done.
    + exists u. cbn. rewrite lookup_insert_eq. split_and!; [done..|]. right. split_and!; done.
Qed.

Lemma asked_inl {A} (request : nat -> option Value) (f : Value -> option A) s a s1 :
  asked request f s = (inl a, s1) -> exists v, request (a_statements s) = Some v /\ f v = Some a /\ s1 = s.
Proof.
  unfold asked. destruct (request _) as [v|]; cbn; [|done]. destruct (f v) as [x|] eqn:Hf; [|done].
  intros [= <- <-]. by exists v.
Qed.

Lemma foreign_token_refused now c token s :
  Wf s -> parse_id (cl_jti c) = None -> (forall c', decode now token = Some c' -> c' = c) ->
  refused (verify_token now token) s.
Proof.
  intros W Hj Hd. unfold refused, verify_token, validate_session, mbind, op_bind.
  destruct (decode now token) as [c'|] eqn:Hc; [|by eexists]. rewrite (Hd c' eq_refl). cbn [or_refuse mret op_ret].
  unfold query, sql. destruct (fault _); [by eexists|]. cbn [a_sessions].
  destruct (a_sessions s !! cl_jti c) as [t|] eqn:Ht; [|by eexists].
  destruct (wf_session _ W _ _ Ht) as (_ & Hp & _). congruence.
Qed.
End Spec.


(** ** A provider *)

Module OAuthExamples.
#[local] Existing Instance enum_order.

(** The server of the examples of [AuthSpec], with UUIDs of another length than its ids *)
#[local] Instance env : AuthEnv := AuthExamples.env.
#[local] Existing Instance AuthExamples.env_laws.
Definition google : OAuthProvider :=
  mkProvider "google" "cid" "secret" "https://idp/auth" "https://idp/token" "https://idp/me" "https://app/cb"
    ["openid"; "email"]%string.
(** It knows two codes, Ann's and that of somebody without an email. *)
#[local] Instance idp : OAuthEnv := {|
  oe_post_form n url form :=
    match form with
    | _ :: (_, code) :: _ => Some (json_object [("access_token", VString code); ("token_type", VString "Bearer")]%string)
    | _ => None
    end;
  oe_get_bearer n url token :=
    if decide (token = "ann"%string)
    then Some (json_object [("sub", VString "1"); ("email", VString "ann@x.io"); ("name", VNull)]%string)
    else Some (json_object [("sub", VString "2"); ("name", VString "Bob")]%string);
  oe_sign secret c := Some (encode c);
  oe_url_encode s := s
|}.
Definition manager : OAuthManager := with_pool (register_provider google new).
Definition callback (code : string) (s : AuthDb) : (LoggedIn + Z) * AuthDb :=
  oauth_callback manager 0 "google" code None s.

Example authorize_url_is :
  authorize_url google "s" =
    "https://idp/auth?client_id=cid&redirect_uri=https://app/cb&response_type=code&scope=openid email&state=s"%string.
Proof. vm_compute. reflexivity. Qed.

Lemma uuid_no_id n : parse_id (new_uuid n) = None.
Proof. change ((if String.prefix "id" (bits (Pos.of_succ_nat n)) then Some (bits (Pos.of_succ_nat n)) else None) = None).
  destruct (bits _) as [|a t] eqn:Hb; [done|]. destruct (Pos.of_succ_nat n); cbn in Hb; [| |done]; by injection Hb as <- _.
Qed.

Lemma decodes_itself now c c' : decode now (encode c) = Some c' -> c' = c.
Proof.
  cbn. rewrite unbits_bits. unfold AuthExamples.claims_of, AuthExamples.claims_code. rewrite countable.decode_encode.
  cbn. case_bool_decide; [|done]. intros [= <-]. by destruct c.
Qed.

Definition first_login : (LoggedIn + Z) * AuthDb := callback "bob" auth_init.

End OAuthExamples.
