(* ===== verification/Codegen.v ===== *)
(** * The generators of client code and of GraphQL documents

    [atomo_schema/src/codegen.rs] (the TypeScript client of a schema),
    [operation_definitions.rs] (the table of comparison and logical operators) and the
    GraphQL documents of [hasura_v2_type_generator.rs].  The generators produce text, so
    these definitions do: line by line, in the order of the code.  Hash maps are iterated
    in the order of [HashOrder]; only the TypeScript generator sorts what it visits. *)

From S2P Require Import Prelude Json SchemaTypes SqlBuilder InterfaceParser CliMigrate.

#[local] Open Scope string_scope.

(** [out.push_str] of one text after another; [v.join(sep)] is [String.concat]. *)
Definition each {A} (f : A -> string) (l : list A) : string := String.concat "" (f <$> l).

(** ** The TypeScript client *)

Section TypeScript.
Context {ho : HashOrder}.

Fixpoint ts_type (t : FieldType) : string :=
  match t with
  | FString | FEntityId | FFile => "string"
  | FNumber => "number"
  | FBoolean => "boolean"
  | FDate | FDateTime => "string"
  | FJson | FBlocks | FCustom _ => "unknown"
  | FReference _ => "string"
  | FArray inner => ts_type inner +:+ "[]"
  end.

(** The lower case of an ASCII letter *)
Definition lowercase_first (s : string) : string :=
  match s with EmptyString => EmptyString | String c r => String (ascii_lower c) r end.

Definition preamble : list string :=
  ["// Auto-generated by atomo codegen — do not edit.";
   "";
   "export interface CrudClient {";
   "  create(model: string, data: Record<string, unknown>): Promise<Record<string, unknown>>;";
   "  findById(model: string, id: string): Promise<Record<string, unknown> | null>;";
   "  update(model: string, id: string, data: Record<string, unknown>): Promise<Record<string, unknown>>;";
   "  delete(model: string, id: string): Promise<void>;";
   "  findMany(model: string, opts?: Record<string, unknown>): Promise<Record<string, unknown>[]>;";
   "}";
   ""].

Definition field_line (m : Model) (fname : string) : string :=
  match m_fields m !! fname with
  | Some field => "  " +:+ fname +:+ (if f_optional field then "?" else "") +:+ ": " +:+ ts_type (f_type field) +:+ ";" +:+ eol
  | None => ""
  end.
Definition model_interface (name : string) (m : Model) : string :=
  "export interface " +:+ name +:+ " {" +:+ eol +:+
  each (field_line m) (sort_strings (hkeys (m_fields m))) +:+
  "}" +:+ eol +:+ eol.

Definition quoted (s : string) : string := "'" +:+ s +:+ "'".

Definition input_line (f : ActionInputField) : string :=
  "  " +:+ if_name f +:+ (if if_required f then "" else "?") +:+ ": " +:+ if_field_type f +:+ ";" +:+ eol.
Definition action_input (aname : string) (a : ActionDef) : string :=
  match ad_input a with
  | PickFields model fields =>
      "export type " +:+ aname +:+ "Input = Pick<" +:+ model +:+ ", " +:+ String.concat " | " (quoted <$> fields) +:+ ">;" +:+ eol +:+ eol
  | InputObject fields =>
      "export interface " +:+ aname +:+ "Input {" +:+ eol +:+ each input_line fields +:+ "}" +:+ eol +:+ eol
  end.

Definition crud_interface (name : string) : string := unlines
  ["export interface " +:+ name +:+ "Crud {";
   "  create(data: Partial<" +:+ name +:+ ">): Promise<" +:+ name +:+ ">;";
   "  findById(id: string): Promise<" +:+ name +:+ " | null>;";
   "  update(id: string, data: Partial<" +:+ name +:+ ">): Promise<" +:+ name +:+ ">;";
   "  delete(id: string): Promise<void>;";
   "  findMany(opts?: Record<string, unknown>): Promise<" +:+ name +:+ "[]>;";
   "}";
   ""].

Definition client_property (name : string) : list string :=
  ["  " +:+ lowercase_first name +:+ ": " +:+ name +:+ "Crud = {";
   "    create: (data) => this.client.create('" +:+ name +:+ "', data as Record<string, unknown>) as Promise<" +:+ name +:+ ">,";
   "    findById: (id) => this.client.findById('" +:+ name +:+ "', id) as Promise<" +:+ name +:+ " | null>,";
   "    update: (id, data) => this.client.update('" +:+ name +:+ "', id, data as Record<string, unknown>) as Promise<" +:+ name +:+ ">,";
   "    delete: (id) => this.client.delete('" +:+ name +:+ "', id),";
   "    findMany: (opts) => this.client.findMany('" +:+ name +:+ "', opts) as Promise<" +:+ name +:+ "[]>,";
   "  };";
   ""].
Definition typed_client (names : list string) : string :=
  unlines ["export class TypedClient {"; "  constructor(private client: CrudClient) {}"; ""] +:+
  each (fun name => unlines (client_property name)) names +:+
  unlines ["}"; ""].

Definition event_line (name : string) (entry : string * list EventActionBinding) : string :=
  match entry.2 with
  | [] => ""
  | bindings => "  '" +:+ name +:+ "." +:+ entry.1 +:+ "': " +:+ String.concat " | " ((fun b => quoted (eb_action b)) <$> bindings) +:+ ";" +:+ eol
  end.
Definition model_events (name : string) (m : Model) : string :=
  each (event_line name)
    [("created", me_created (m_events m)); ("updated", me_updated (m_events m)); ("deleted", me_deleted (m_events m))].

Definition handler_line (aname : string) : string :=
  "  " +:+ aname +:+ ": { input: " +:+ aname +:+ "Input };" +:+ eol.
Definition job_context : list string :=
  ["export interface TypedJobContext<K extends keyof ActionHandlers> {";
   "  job: {";
   "    id: string;";
   "    queue: string;";
   "    kind: K;";
   "    payload: { input: ActionHandlers[K]['input']; [key: string]: unknown };";
   "    attempts: number;";
   "    maxAttempts: number;";
   "    leaseId: string;";
   "  };";
   "  signal: AbortSignal;";
   "  heartbeat(): Promise<void>;";
   "  progress(update: { percent?: number; message?: string; data?: unknown }): Promise<void>;";
   "  crud: TypedClient;";
   "}";
   ""].
Definition worker_interface : list string :=
  ["export interface TypedWorker {";
   "  on<K extends keyof ActionHandlers>(";
   "    kind: K,";
   "    handler: (ctx: TypedJobContext<K>) => Promise<unknown> | unknown,";
   "  ): TypedWorker;";
   "  start(): void;";
   "  stop(): Promise<void>;";
   "}"].
Definition typed_worker (action_names : list string) : string :=
  match action_names with
  | [] => ""
  | _ =>
      eol +:+ "export interface ActionHandlers {" +:+ eol +:+ each handler_line action_names +:+ "}" +:+ eol +:+ eol +:+
      unlines job_context +:+ unlines worker_interface
  end.

(** [schema.models[name]], for the names that are its keys *)
Definition with_model (s : Schema) (f : string -> Model -> string) (name : string) : string :=
  match sc_models s !! name with Some m => f name m | None => "" end.
Definition with_action (s : Schema) (f : string -> ActionDef -> string) (name : string) : string :=
  match sc_actions s !! name with Some a => f name a | None => "" end.

Definition generate_typescript_client (s : Schema) : string :=
  let model_names := sort_strings (hkeys (sc_models s)) in
  let action_names := sort_strings (hkeys (sc_actions s)) in
  unlines preamble +:+
  each (with_model s model_interface) model_names +:+
  each (with_action s action_input) action_names +:+
  each crud_interface model_names +:+
  typed_client model_names +:+
  unlines ["export interface ModelEventMap {"] +:+
  each (with_model s model_events) model_names +:+
  unlines ["}"] +:+
  typed_worker action_names.
End TypeScript.

(** ** The table of operators *)

Record ComparisonOp : Type := mkComparisonOp {
  co_name : string;
  co_sql_operator : string;
  co_applies_to : list FieldType;
  co_description : string
}.
Record LogicalOp : Type := mkLogicalOp {
  lo_name : string;
  lo_sql_keyword : string;
  lo_description : string
}.
Record OperationDefinitions : Type := mkOperations {
  comparison_ops : list ComparisonOp;
  logical_ops : list LogicalOp
}.

Definition comparable_types : list FieldType := [FString; FNumber; FBoolean; FDate; FDateTime; FEntityId].
Definition ordered_types : list FieldType := [FString; FNumber; FDate; FDateTime].
Definition listed_types : list FieldType := [FString; FNumber; FEntityId].
Definition hasura_v2_standard : OperationDefinitions :=
  mkOperations
    [mkComparisonOp "_eq" "=" comparable_types "Equal to";
     mkComparisonOp "_neq" "!=" comparable_types "Not equal to";
     mkComparisonOp "_gt" ">" ordered_types "Greater than";
     mkComparisonOp "_gte" ">=" ordered_types "Greater than or equal to";
     mkComparisonOp "_lt" "<" ordered_types "Less than";
     mkComparisonOp "_lte" "<=" ordered_types "Less than or equal to";
     mkComparisonOp "_like" "LIKE" [FString] "SQL LIKE pattern matching";
     mkComparisonOp "_ilike" "ILIKE" [FString] "Case-insensitive SQL LIKE pattern matching";
     mkComparisonOp "_in" "IN" listed_types "In array";
     mkComparisonOp "_nin" "NOT IN" listed_types "Not in array";
     mkComparisonOp "_is_null" "IS NULL" comparable_types "Is null or not null"]
    [mkLogicalOp "_and" "AND" "Logical AND";
     mkLogicalOp "_or" "OR" "Logical OR";
     mkLogicalOp "_not" "NOT" "Logical NOT"].

Definition get_comparison_ops_for_type (d : OperationDefinitions) (t : FieldType) : list ComparisonOp :=
  filter (fun op => t ∈ co_applies_to op) (comparison_ops d).
Definition get_comparison_op_by_name (d : OperationDefinitions) (name : string) : option ComparisonOp :=
  find (fun op => bool_decide (co_name op = name)) (comparison_ops d).

(** The names are put into a set one by one; the first that is there already is the error. *)
Fixpoint insert_names (what : string) (names : list string) (seen : gset string) : gset string + string :=
  match names with
  | [] => inl seen
  | n :: rest =>
      if decide (n ∈ seen) then inr ("Duplicate " +:+ what +:+ " operator name: " +:+ n)
      else insert_names what rest ({[ n ]} ∪ seen)
  end.
Definition required_ops : list string := ["_eq"; "_neq"; "_and"; "_or"; "_not"].
Definition validate_operations (d : OperationDefinitions) : unit + string :=
  match insert_names "comparison" (co_name <$> comparison_ops d) ∅ with
  | inr e => inr e
  | inl seen =>
      match insert_names "logical" (lo_name <$> logical_ops d) seen with
      | inr e => inr e
      | inl _ =>
          match find (fun r => negb (existsb (fun op => bool_decide (co_name op = r)) (comparison_ops d)) &&
                               negb (existsb (fun op => bool_decide (lo_name op = r)) (logical_ops d))) required_ops with
          | Some r => inr ("Required operator missing: " +:+ r)
          | None => inl tt
          end
      end
  end.

(** ** The GraphQL documents *)

Section Sdl.
Context {ho : HashOrder}.

Fixpoint map_field_to_graphql_type (t : FieldType) : string :=
  match t with
  | FString | FFile => "String"
  | FNumber => "Float"
  | FBoolean => "Boolean"
  | FDate | FDateTime => "DateTime"
  | FEntityId => "UUID"
  | FJson | FBlocks => "JSON"
  | FArray inner => "[" +:+ map_field_to_graphql_type inner +:+ "]"
  | FCustom name | FReference name => name
  end.
Definition get_field_comparison_type (t : FieldType) : string :=
  match t with
  | FString => "StringComparisonExp"
  | FNumber => "NumericComparisonExp"
  | FBoolean => "BooleanComparisonExp"
  | FDate | FDateTime => "DateTimeComparisonExp"
  | FEntityId => "UUIDComparisonExp"
  | _ => "GenericComparisonExp"
  end.

(** The values are not looked at *)
Definition generate_graphql_enum_definition (m : Model) : string :=
  "enum " +:+ m_name m +:+ " {" +:+ eol +:+
  each (fun value => "  " +:+ value +:+ eol) ["VALUE1"; "VALUE2"; "VALUE3"] +:+
  "}" +:+ eol +:+ eol.

Definition generate_graphql_object_definition (m : Model) : string :=
  "type " +:+ m_name m +:+ " {" +:+ eol +:+
  each (fun '(name, field) => "  " +:+ name +:+ ": " +:+ map_field_to_graphql_type (f_type field) +:+
    (if negb (f_optional field) then "!" else "") +:+ eol) (hpairs (m_fields m)) +:+
  "}" +:+ eol +:+ eol.

Definition generate_graphql_input_definition (m : Model) : string :=
  "input " +:+ m_name m +:+ "Input {" +:+ eol +:+
  each (fun '(name, field) => if decide (name = "id") then "" else
    "  " +:+ name +:+ ": " +:+ map_field_to_graphql_type (f_type field) +:+ eol) (hpairs (m_fields m)) +:+
  "}" +:+ eol +:+ eol.

Definition generate_graphql_bool_exp_definition (m : Model) : string :=
  "input " +:+ m_name m +:+ "BoolExp {" +:+ eol +:+
  "  _and: [" +:+ m_name m +:+ "BoolExp!]" +:+ eol +:+
  "  _or: [" +:+ m_name m +:+ "BoolExp!]" +:+ eol +:+
  "  _not: " +:+ m_name m +:+ "BoolExp" +:+ eol +:+
  each (fun '(name, field) => "  " +:+ name +:+ ": " +:+ get_field_comparison_type (f_type field) +:+ eol) (hpairs (m_fields m)) +:+
  "}" +:+ eol +:+ eol.

(** The enum is looked for in the text of this one model. *)
Definition generate_graphql_order_by_definition (m : Model) : string :=
  let result := "input " +:+ m_name m +:+ "OrderBy {" +:+ eol +:+
    each (fun name => "  " +:+ name +:+ ": OrderByDirection" +:+ eol) (hpairs (m_fields m)).*1 +:+
    "}" +:+ eol +:+ eol in
  result +:+
  (if contains result "enum OrderByDirection" then ""
   else unlines ["enum OrderByDirection {"; "  ASC"; "  DESC"; "}"; ""]).

Definition is_enum (m : Model) : bool := bool_decide (is_Some (m_fields m !! "_enum_type")).
Definition tables (models : list Model) : list Model := filter (fun m => is_enum m = false) models.

Definition generate_graphql_root_types (models : list Model) : string :=
  "type Query {" +:+ eol +:+
  each (fun m =>
    let lower := to_ascii_lowercase (m_name m) in
    "  " +:+ lower +:+ "s" +:+ "(where: " +:+ m_name m +:+ "BoolExp, orderBy: [" +:+ m_name m +:+ "OrderBy!]): [" +:+ m_name m +:+ "!]!" +:+ eol +:+
    "  " +:+ lower +:+ "ById(id: UUID!): " +:+ m_name m +:+ eol) (tables models) +:+
  "}" +:+ eol +:+ eol +:+
  "type Mutation {" +:+ eol +:+
  each (fun m =>
    "  insert" +:+ m_name m +:+ "(object: " +:+ m_name m +:+ "Input!): " +:+ m_name m +:+ "!" +:+ eol +:+
    "  update" +:+ m_name m +:+ "(id: UUID!, object: " +:+ m_name m +:+ "Input!): " +:+ m_name m +:+ "!" +:+ eol +:+
    "  delete" +:+ m_name m +:+ "(id: UUID!): Boolean!" +:+ eol) (tables models) +:+
  "}" +:+ eol.

Definition generate_comparison_types_definition : string := unlines
  ["# Comparison expression types (Hasura v2 compatible)"; "";
   "input StringComparisonExp {";
   "  _eq: String"; "  _neq: String"; "  _gt: String"; "  _gte: String"; "  _lt: String"; "  _lte: String";
   "  _like: String"; "  _ilike: String"; "  _similar: String"; "  _regex: String"; "  _iregex: String";
   "  _in: [String!]"; "  _nin: [String!]"; "  _is_null: Boolean"; "}"; "";
   "input NumericComparisonExp {";
   "  _eq: Float"; "  _neq: Float"; "  _gt: Float"; "  _gte: Float"; "  _lt: Float"; "  _lte: Float";
   "  _in: [Float!]"; "  _nin: [Float!]"; "  _is_null: Boolean"; "}"; "";
   "input DateTimeComparisonExp {";
   "  _eq: DateTime"; "  _neq: DateTime"; "  _gt: DateTime"; "  _gte: DateTime"; "  _lt: DateTime"; "  _lte: DateTime";
   "  _in: [DateTime!]"; "  _nin: [DateTime!]"; "  _is_null: Boolean"; "}"; "";
   "input BooleanComparisonExp {";
   "  _eq: Boolean"; "  _neq: Boolean"; "  _is_null: Boolean"; "}"; "";
   "input UUIDComparisonExp {";
   "  _eq: UUID"; "  _neq: UUID"; "  _in: [UUID!]"; "  _nin: [UUID!]"; "  _is_null: Boolean"; "}"; "";
   "input GenericComparisonExp {";
   "  _eq: String"; "  _neq: String"; "  _in: [String!]"; "  _nin: [String!]"; "  _is_null: Boolean"; "}"; ""].

Definition comparison_types : list (string * string * list FieldType) :=
  [("StringComparisonExp", "String", [FString]);
   ("NumericComparisonExp", "Float", [FNumber]);
   ("DateTimeComparisonExp", "DateTime", [FDate; FDateTime]);
   ("BooleanComparisonExp", "Boolean", [FBoolean]);
   ("UUIDComparisonExp", "UUID", [FEntityId]);
   ("GenericComparisonExp", "String", [])].
Definition op_applies (types : list FieldType) (op : ComparisonOp) : bool :=
  bool_decide (types = []) || existsb (fun t => bool_decide (t ∈ co_applies_to op)) types.
Definition operator_line (graphql_type : string) (op : ComparisonOp) : string :=
  if bool_decide (co_name op ∈ ["_in"; "_nin"]) then "  " +:+ co_name op +:+ ": [" +:+ graphql_type +:+ "!]" +:+ eol
  else if bool_decide (co_name op = "_is_null") then "  " +:+ co_name op +:+ ": Boolean" +:+ eol
  else "  " +:+ co_name op +:+ ": " +:+ graphql_type +:+ eol.
Definition generate_comparison_types_with_operations (d : OperationDefinitions) : string :=
  unlines ["# Comparison expression types (unified operation definitions)"; ""] +:+
  each (fun '(type_name, graphql_type, types) =>
    "input " +:+ type_name +:+ " {" +:+ eol +:+
    each (fun op => if op_applies types op then operator_line graphql_type op else "") (comparison_ops d) +:+
    "}" +:+ eol +:+ eol) comparison_types.

Definition scalars : string := unlines ["scalar DateTime"; "scalar UUID"; "scalar JSON"; ""].
Definition model_definitions (models : list Model) : string :=
  each generate_graphql_enum_definition (filter (fun m => is_enum m = true) models) +:+
  each (fun m =>
    generate_graphql_object_definition m +:+ generate_graphql_input_definition m +:+
    generate_graphql_bool_exp_definition m +:+ generate_graphql_order_by_definition m) (tables models) +:+
  generate_graphql_root_types models.

Definition generate_graphql_schema_definition (models : list Model) : string :=
  unlines ["# Auto-generated GraphQL Schema Definition"; "# This file is for IDE support and GraphQL tooling"; ""] +:+
  scalars +:+ generate_comparison_types_definition +:+ model_definitions models.
Definition generate_graphql_schema_with_operations (models : list Model) (d : OperationDefinitions) : string :=
  unlines ["# Auto-generated GraphQL Schema Definition (Schema-First)"; "# Generated with unified operation definitions for 100% consistency"; ""] +:+
  scalars +:+ generate_comparison_types_with_operations d +:+ model_definitions models.
End Sdl.
