(* ===== verification/CodegenSpec.v ===== *)
(** * What the generated text says

    A reader of the generated files, line by line, is the specification side: it finds the
    declarations of a TypeScript module or of a GraphQL document and the members of each.
    The text of every schema whose names are words reads back as exactly the declarations
    meant, in whatever order the hash maps are visited. *)

From S2P Require Import Prelude Json SchemaTypes SqlBuilder Scan SchemaDsl InterfaceParser CliMigrate CliMigrateSpec Codegen.

#[local] Open Scope string_scope.

(** ** The reader *)

(** A declaration is a line of its own, or a block: a header that ends in a brace and the
    lines up to a closing brace at the margin. *)
Inductive Item : Type :=
  | Single (line : string)
  | Block (header : string) (body : list string).

Fixpoint read_items (open : option (string * list string)) (ls : list string) : option (list Item) :=
  match ls with
  | [] => match open with None => Some [] | Some _ => None end
  | l :: rest =>
      match open with
      | Some (header, body) =>
          if bool_decide (l = "}") then cons (Block header (reverse body)) <$> read_items None rest
          else read_items (Some (header, l :: body)) rest
      | None =>
          if bool_decide (l = "") then read_items None rest
          else if ends_with "{" l then read_items (Some (l, [])) rest
          else cons (Single l) <$> read_items None rest
      end
  end.
Definition read_text (s : string) : option (list Item) := read_items None (lines s).

Definition strip_prefix (prefix s : string) : option string :=
  if String.prefix prefix s then Some (drop_bytes (String.length prefix) s) else None.

(** A member of a block: its name, whether it is optional, and what follows the colon.  The
    names of methods have a parenthesis; [mark] ends what is optional, [fin] the line. *)
Record Member : Type := mkMember { mb_name : string; mb_optional : bool; mb_type : string }.
Definition colon_c : Ascii.ascii := Ascii.ascii_of_nat 58.
Definition paren_c : Ascii.ascii := Ascii.ascii_of_nat 40.
Definition read_member (fin l : string) : option Member :=
  rest ← strip_prefix "  " l;
  '(key, text) ← split_once colon_c rest;
  if has_char paren_c key then None else
  text ← strip_prefix " " text;
  text ← strip_suffix fin text;
  Some match strip_suffix "?" key with
       | Some name => mkMember name true text
       | None => mkMember key false text
       end.

(** ** Lines and items *)

(** [ls] is whole items: whatever follows is read after them. *)
Definition chunk (ls : list string) (items : list Item) : Prop :=
  forall rest, read_items None (ls ++ rest)%list = app items <$> read_items None rest.

Lemma chunk_nil : chunk [] [].
Proof. intros rest. cbn. by destruct (read_items None rest). Qed.
Lemma chunk_app l1 l2 i1 i2 : chunk l1 i1 -> chunk l2 i2 -> chunk (l1 ++ l2)%list (i1 ++ i2)%list.
Proof.
  intros H1 H2 rest. rewrite <-app_assoc, H1, H2. destruct (read_items None rest); cbn; [|done]. by rewrite app_assoc.
Qed.
Lemma chunk_bind {A} (f : A -> list string) (g : A -> list Item) (l : list A) :
  (forall x, x ∈ l -> chunk (f x) (g x)) -> chunk (l ≫= f) (l ≫= g).
Proof.
  induction l as [|x l IH]; intros Hf; [apply chunk_nil|]. rewrite !bind_cons.
  apply chunk_app; [apply Hf; left|]. apply IH. intros y Hy. apply Hf. by right.
Qed.
Lemma chunk_blank : chunk [""] [].
Proof. intros rest. cbn. by destruct (read_items None rest). Qed.
Lemma chunk_single l : l <> "" -> ends_with "{" l = false -> chunk [l] [Single l].
Proof. intros Hl He rest. cbn [read_items app]. rewrite bool_decide_eq_false_2 by done. by rewrite He. Qed.
Lemma read_body header acc body rest :
  Forall (fun l => l <> "}") body ->
  read_items (Some (header, acc)) (body ++ "}" :: rest)%list =
  cons (Block header (reverse acc ++ body)%list) <$> read_items None rest.
Proof.
  intros Hb. revert acc. induction Hb as [|l body Hl Hb IH]; intros acc; cbn [read_items app].
  - rewrite bool_decide_eq_true_2 by done. by rewrite app_nil_r.
  - rewrite bool_decide_eq_false_2 by done. rewrite IH, reverse_cons. by rewrite <-app_assoc.
Qed.
Lemma chunk_block header body :
  header <> "" -> ends_with "{" header = true -> Forall (fun l => l <> "}") body ->
  chunk (header :: body ++ ["}"])%list [Block header body].
Proof.
  intros Hne He Hb rest. cbn [read_items app]. rewrite bool_decide_eq_false_2 by done. rewrite He.
  rewrite <-app_assoc. apply (read_body header [] body rest Hb).
Qed.
(** What reads as whole items is whole items. *)
Lemma read_open open ls items rest :
  read_items open ls = Some items -> read_items open (ls ++ rest)%list = app items <$> read_items None rest.
Proof.
  revert open items. induction ls as [|l ls IH]; intros open items; cbn [read_items app].
  - destruct open; [done|]. intros [= <-]. by destruct (read_items None rest).
  - destruct open as [[h b]|]; repeat case_match; try (by apply IH);
      destruct (read_items None ls) as [tl|] eqn:E; intros [= <-]; rewrite (IH _ _ E); by destruct (read_items None rest).
Qed.
Lemma read_chunk ls items : read_items None ls = Some items -> chunk ls items.
Proof. intros Hr rest. by apply read_open. Qed.
Lemma chunk_reads ls items : chunk ls items -> Forall one_line ls -> read_text (unlines ls) = Some items.
Proof.
  intros Hc Hl. unfold read_text. rewrite lines_unlines by done.
  rewrite <-(app_nil_r ls), Hc. cbn. by rewrite app_nil_r.
Qed.

(** Text made of whole lines *)
Lemma each_unlines {A} (f : A -> string) (g : A -> list string) (l : list A) :
  (forall x, x ∈ l -> f x = unlines (g x)) -> each f l = unlines (l ≫= g).
Proof.
  unfold each. induction l as [|x l IH]; intros Hf; [done|]. rewrite fmap_cons, concat_cons, bind_cons, unlines_app.
  rewrite (Hf x) by left. f_equal. apply IH. intros y Hy. apply Hf. by right.
Qed.
Lemma unlines_one l : unlines [l] = l +:+ eol.
Proof. by rewrite unlines_cons, <-(str_app_empty_r (l +:+ eol)), str_app_assoc. Qed.

(** ** Names *)

Definition name_char (a : Ascii.ascii) : bool :=
  let n := Ascii.nat_of_ascii a in
  ((48 <=? n) && (n <=? 57) || (65 <=? n) && (n <=? 90) || (97 <=? n) && (n <=? 122) || (n =? 95))%nat.
(** Letters, digits and underscores *)
Fixpoint identifier (s : string) : bool :=
  match s with EmptyString => true | String a r => name_char a && identifier r end.

Lemma identifier_free c s : name_char c = false -> identifier s = true -> has_char c s = false.
Proof.
  intros Hc. induction s as [|a s IH]; [done|]. cbn [identifier has_char]. intros [Ha Hs]%andb_prop.
  rewrite (IH Hs), orb_false_r. destruct (Ascii.eqb_spec a c) as [->|]; [congruence|done].
Qed.
Lemma identifier_line s : identifier s = true -> one_line s.
Proof. intros Hs. split; by apply identifier_free. Qed.
Lemma strip_prefix_app p s : strip_prefix p (p +:+ s) = Some s.
Proof.
  unfold strip_prefix. rewrite drop_bytes_app.
  replace (String.prefix p (p +:+ s)) with true; [done|]. symmetry.
  induction p as [|a p IH]; [by rewrite str_app_nil; destruct s|]. rewrite str_app_cons. cbn.
  by destruct (Ascii.ascii_dec a a).
Qed.
Lemma strip_suffix_app t s : strip_suffix t (s +:+ t) = Some s.
Proof. unfold strip_suffix. by rewrite ends_with_app, str_length_app, Nat.add_sub, take_bytes_app. Qed.
Lemma ends_with_char a b s :
  ends_with (String a "") (s +:+ String b "") = Ascii.eqb b a.
Proof.
  unfold ends_with. rewrite str_length_app. cbn [String.length]. rewrite Nat.add_sub.
  rewrite (proj2 (Nat.leb_le _ _)) by lia. cbn [andb].
  replace (String.substring (String.length s) 1 (s +:+ String b "")) with (String b "").
  - destruct (Ascii.eqb_spec b a) as [->|Hne]; [by apply bool_decide_eq_true_2|]. apply bool_decide_eq_false_2. congruence.
  - induction s as [|x s IH]; [done|]. rewrite str_app_cons. exact IH.
Qed.
Lemma ends_with_absent a s : has_char a s = false -> ends_with (String a "") s = false.
Proof.
  destruct (decide (s = "")) as [->|Hs]; [done|]. intros Ha.
  assert (exists t b, s = t +:+ String b "") as (t & b & ->).
  { clear Ha. induction s as [|x s IH]; [done|]. destruct s as [|y s]; [by exists "", x|].
    destruct IH as (t & b & Heq); [done|]. exists (String x t), b. by rewrite str_app_cons, Heq. }
  rewrite ends_with_char. rewrite has_char_app in Ha. apply orb_false_iff in Ha as [_ Ha].
  cbn in Ha. by rewrite orb_false_r in Ha.
Qed.
Lemma split_once_app c p r : has_char c p = false -> split_once c (p +:+ String c r) = Some (p, r).
Proof. intros Hp. by apply split_once_some. Qed.

(** What a key may be: without the characters that end it *)
Definition plain_key (s : string) : Prop :=
  has_char colon_c s = false /\ has_char paren_c s = false /\ has_char (Ascii.ascii_of_nat 63) s = false.
Lemma identifier_key s : identifier s = true -> plain_key s.
Proof. intros Hs. split_and!; by apply identifier_free. Qed.

(** The line of a member reads as that member. *)
Lemma read_member_line fin name (opt : bool) text :
  plain_key name ->
  read_member fin ("  " +:+ name +:+ (if opt then "?" else "") +:+ ": " +:+ text +:+ fin) = Some (mkMember name opt text).
Proof.
  intros (Hc & Hp & Hq). unfold read_member. rewrite strip_prefix_app. cbn [mbind option_bind].
  assert (Hsplit : split_once colon_c (name +:+ (if opt then "?" else "") +:+ ": " +:+ text +:+ fin) =
    Some (name +:+ (if opt then "?" else ""), " " +:+ text +:+ fin)).
  { rewrite <-str_app_assoc. apply split_once_app. rewrite has_char_app. apply orb_false_iff. split; [exact Hc|by destruct opt]. }
  rewrite Hsplit. cbn [mbind option_bind]. rewrite has_char_app, Hp.
  replace (false || has_char paren_c (if opt then "?" else "")) with false by (by destruct opt).
  rewrite strip_prefix_app. cbn [mbind option_bind].
  rewrite strip_suffix_app. cbn [mbind option_bind].
  destruct opt; [by rewrite strip_suffix_app|]. rewrite str_app_empty_r.
  unfold strip_suffix. by rewrite ends_with_absent.
Qed.

(** Text whose lines are members *)
Definition prints (fin text : string) (members : list Member) : Prop :=
  exists ls, text = unlines ls /\ Forall one_line ls /\ mapM (read_member fin) ls = Some members.
Lemma prints_nil fin : prints fin "" [].
Proof. exists []. by split_and!. Qed.
Lemma prints_app fin t1 t2 m1 m2 : prints fin t1 m1 -> prints fin t2 m2 -> prints fin (t1 +:+ t2) (m1 ++ m2)%list.
Proof.
  intros (l1 & -> & Hl1 & Hm1) (l2 & -> & Hl2 & Hm2). exists (l1 ++ l2)%list. rewrite unlines_app.
  split_and!; [done|by apply Forall_app|]. apply mapM_Some_2. apply Forall2_app; by apply mapM_Some_1.
Qed.
Lemma prints_each {A} fin (f : A -> string) (g : A -> list Member) (l : list A) :
  (forall x, x ∈ l -> prints fin (f x) (g x)) -> prints fin (each f l) (l ≫= g).
Proof.
  unfold each. induction l as [|x l IH]; intros Hf; [apply prints_nil|]. rewrite fmap_cons, concat_cons, bind_cons.
  apply prints_app; [apply Hf; left|]. apply IH. intros y Hy. apply Hf. by right.
Qed.
Lemma prints_member fin name (opt : bool) text :
  plain_key name -> one_line name -> one_line text -> one_line fin ->
  prints fin ("  " +:+ name +:+ (if opt then "?" else "") +:+ ": " +:+ text +:+ fin +:+ eol) [mkMember name opt text].
Proof.
  intros Hk Hn Ht Hf. exists ["  " +:+ name +:+ (if opt then "?" else "") +:+ ": " +:+ text +:+ fin].
  split_and!; [by rewrite unlines_one, !str_app_assoc| |].
  - constructor; [|constructor]. rewrite !one_line_app. split_and!; try done; by destruct opt.
  - cbn [mapM]. by rewrite read_member_line.
Qed.

Lemma prints_body fin text members : prints fin text members ->
  exists body, text = unlines body /\ Forall (fun x => one_line x /\ x <> "}") body /\ mapM (read_member fin) body = Some members.
Proof.
  intros (body & -> & Hb & Hm). exists body. split_and!; [done| |done].
  apply Forall_forall. intros l Hl. rewrite Forall_forall in Hb. split; [by apply Hb|]. intros ->. apply mapM_Some_1 in Hm.
  destruct (proj1 (list_elem_of_lookup _ _) Hl) as [i Hi].
  destruct (Forall2_lookup_l _ _ _ _ _ Hm Hi) as (x & _ & Hx). by vm_compute in Hx.
Qed.
Lemma prints_all {A} fin (f : A -> string) (g : A -> Member) (l : list A) :
  (forall x, x ∈ l -> prints fin (f x) [g x]) -> prints fin (each f l) (g <$> l).
Proof.
  intros Hf. replace (g <$> l) with (l ≫= (fun x => [g x])) by (clear; induction l as [|x l IH]; [done|]; by rewrite bind_cons, IH).
  by apply prints_each.
Qed.

(** ** Text and what it shows

    [kind] picks the declarations of interest among the items; [shows kind text l]: the text
    is whole items, and they declare [l]. *)

Definition shows {D} (kind : Item -> option D) (text : string) (l : list D) : Prop :=
  exists ls items, text = unlines ls /\ Forall one_line ls /\ chunk ls items /\ omap kind items = l.

Definition pick {D} (kind : Item -> option D) (r : option (list Item)) : option (list D) :=
  match r with Some items => Some (omap kind items) | None => None end.

Section Shows.
Context {D : Type} (kind : Item -> option D).

Lemma shows_nil : shows kind "" [].
Proof. exists [], []. split_and!; [done|constructor|apply chunk_nil|done]. Qed.
Lemma shows_app t1 t2 l1 l2 : shows kind t1 l1 -> shows kind t2 l2 -> shows kind (t1 +:+ t2) (l1 ++ l2)%list.
Proof.
  intros (ls1 & i1 & -> & Hl1 & Hc1 & <-) (ls2 & i2 & -> & Hl2 & Hc2 & <-).
  exists (ls1 ++ ls2)%list, (i1 ++ i2)%list. rewrite unlines_app, omap_app.
  split_and!; [done|by apply Forall_app|by apply chunk_app|done].
Qed.
Lemma shows_each {A} (f : A -> string) (g : A -> list D) (l : list A) :
  (forall x, x ∈ l -> shows kind (f x) (g x)) -> shows kind (each f l) (l ≫= g).
Proof.
  unfold each. induction l as [|x l IH]; intros Hf; [apply shows_nil|]. rewrite fmap_cons, concat_cons, bind_cons.
  apply shows_app; [apply Hf; left|]. apply IH. intros y Hy. apply Hf. by right.
Qed.
Lemma shows_nothing {A} (f : A -> string) (l : list A) : (forall x, x ∈ l -> shows kind (f x) []) -> shows kind (each f l) [].
Proof.
  intros Hf. replace (@nil D) with (l ≫= fun _ => @nil D) by (clear; by induction l). by apply shows_each.
Qed.
Lemma shows_text text l : shows kind text l -> pick kind (read_text text) = Some l.
Proof. intros (ls & items & -> & Hl & Hc & <-). by rewrite (chunk_reads _ _ Hc Hl). Qed.
(** Fixed text is read by computation. *)
Definition plain_lines (ls : list string) : bool := forallb (fun l => negb (has_char newline l) && negb (has_char return_c l)) ls.
Lemma shows_fixed ls l : plain_lines ls = true -> pick kind (read_items None ls) = Some l -> shows kind (unlines ls) l.
Proof.
  intros Hl Hr. destruct (read_items None ls) as [items|] eqn:Hi; [|done]. injection Hr as <-.
  exists ls, items. split_and!; [done| |by apply read_chunk|done]. apply Forall_forall. intros x Hin.
  unfold plain_lines in Hl. rewrite forallb_forall in Hl. specialize (Hl x (proj1 (list_elem_of_In _ _) Hin)).
  apply andb_prop in Hl as [H1%negb_true_iff H2%negb_true_iff]. by split.
Qed.
Lemma shows_blank : shows kind eol [].
Proof. exact (shows_fixed [""] [] eq_refl eq_refl). Qed.
Lemma shows_single line : one_line line -> line <> "" -> ends_with "{" line = false ->
  shows kind (line +:+ eol) (omap kind [Single line]).
Proof.
  intros Hl Hne He. exists [line], [Single line]. split_and!; [by rewrite unlines_one|by constructor|by apply chunk_single|done].
Qed.
(** A block of lines, none of which closes it *)
Lemma shows_block header body :
  one_line header -> header <> "" -> ends_with "{" header = true -> Forall (fun x => one_line x /\ x <> "}") body ->
  shows kind (header +:+ eol +:+ unlines body +:+ "}" +:+ eol) (omap kind [Block header body]).
Proof.
  intros Hh Hne He Hb. exists (header :: body ++ ["}"])%list, [Block header body]. split_and!; [| | |done].
  - by rewrite unlines_cons, unlines_app, unlines_one.
  - constructor; [done|]. rewrite Forall_app. split; [eapply Forall_impl; [exact Hb|by intros ? []]|]. by constructor.
  - apply chunk_block; [done..|]. eapply Forall_impl; [exact Hb|by intros ? []].
Qed.
(** The same, followed by a blank line *)
Lemma shows_spaced t l : shows kind t l -> shows kind (t +:+ eol) l.
Proof. intros Ht. rewrite <-(app_nil_r l). apply shows_app; [done|apply shows_blank]. Qed.
Lemma shows_template header body :
  one_line header -> header <> "" -> ends_with "{" header = true -> Forall (fun x => one_line x /\ x <> "}") body ->
  shows kind (unlines (header :: body ++ ["}"; ""])%list) (omap kind [Block header body]).
Proof.
  intros Hh Hne He Hb. pose proof (shows_spaced _ _ (shows_block header body Hh Hne He Hb)) as Hs.
  rewrite !str_app_assoc in Hs. rewrite unlines_cons, unlines_app. unfold eol in Hs |- *. rewrite str_app_cons, str_app_nil in Hs. exact Hs.
Qed.
(** A block of members *)
Lemma shows_members header fin text members :
  one_line header -> header <> "" -> ends_with "{" header = true -> prints fin text members ->
  exists body, shows kind (header +:+ eol +:+ text +:+ "}" +:+ eol) (omap kind [Block header body]) /\
    mapM (read_member fin) body = Some members.
Proof.
  intros Hh Hne He (body & -> & Hb & Hm)%prints_body. exists body. split; [by apply shows_block|done].
Qed.
End Shows.

(** The lines of a template: fixed but for some names *)
Ltac template := repeat (apply Forall_cons; split; [split; [rewrite ?one_line_app; split_and!; try literal; try assumption|done]|]); try apply Forall_nil_2.

(** ** The TypeScript module *)

(** The interfaces whose members are all fields, and the type aliases *)
Inductive Declaration : Type :=
  | Interface (name : string) (members : list Member)
  | Alias (text : string).
Definition declaration (it : Item) : option Declaration :=
  match it with
  | Block header body =>
      name ← strip_prefix "export interface " header ≫= strip_suffix " {";
      members ← mapM (read_member ";") body;
      Some (Interface name members)
  | Single l => Alias <$> (strip_prefix "export type " l ≫= strip_suffix ";")
  end.

(** What the module of a schema declares *)
Definition keys_of {V} (m : gmap string V) : list string := sort_strings (map_to_list m).*1.
Definition field_member (m : Model) (f : string) : list Member :=
  match m_fields m !! f with Some fd => [mkMember f (f_optional fd) (ts_type (f_type fd))] | None => [] end.
Definition input_member (f : ActionInputField) : Member :=
  mkMember (if_name f) (negb (if_required f)) (if_field_type f).
Definition event_members (name : string) (m : Model) : list (string * string) :=
  omap (fun '(event, bindings) => match bindings with
    | [] => None
    | _ => Some (quoted (name +:+ "." +:+ event), String.concat " | " ((fun b => quoted (eb_action b)) <$> bindings))
    end)
    [("created", me_created (m_events m)); ("updated", me_updated (m_events m)); ("deleted", me_deleted (m_events m))].
Definition model_declaration (n : string) (m : Model) : Declaration :=
  Interface n (keys_of (m_fields m) ≫= field_member m).
Definition input_declaration (n : string) (a : ActionDef) : Declaration :=
  match ad_input a with
  | InputObject fields => Interface (n +:+ "Input") (input_member <$> fields)
  | PickFields model fields => Alias (n +:+ "Input = Pick<" +:+ model +:+ ", " +:+ String.concat " | " (quoted <$> fields) +:+ ">")
  end.
Definition event_map (s : Schema) : list Member :=
  keys_of (sc_models s) ≫= fun n => match sc_models s !! n with
    | Some m => (fun '(e, t) => mkMember e false t) <$> event_members n m | None => [] end.
Definition handler_member (a : string) : Member := mkMember a false ("{ input: " +:+ a +:+ "Input }").
Definition handlers_declaration (names : list string) : list Declaration :=
  match names with [] => [] | _ => [Interface "ActionHandlers" (handler_member <$> names)] end.
Definition listed {V D} (m : gmap string V) (f : string -> V -> D) : list D :=
  keys_of m ≫= fun n => match m !! n with Some v => [f n v] | None => [] end.
Definition module_declarations (s : Schema) : list Declaration :=
  (listed (sc_models s) model_declaration ++ listed (sc_actions s) input_declaration ++
   [Interface "ModelEventMap" (event_map s)] ++ handlers_declaration (keys_of (sc_actions s)))%list.

(** Names are words, and the types of inputs are given on one line. *)
Record named_model (n : string) (m : Model) : Prop := {
  nm_name : identifier n = true;
  nm_fields : forall f, is_Some (m_fields m !! f) -> identifier f = true;
  nm_events : Forall (fun b => identifier (eb_action b) = true)
    (me_created (m_events m) ++ me_updated (m_events m) ++ me_deleted (m_events m))%list
}.
Definition named_input (i : ActionInputDef) : Prop :=
  match i with
  | PickFields model fields => identifier model = true /\ Forall (fun f => identifier f = true) fields
  | InputObject fields => Forall (fun f => identifier (if_name f) = true /\ one_line (if_field_type f)) fields
  end.
Record named_schema (s : Schema) : Prop := {
  ns_models : forall n m, sc_models s !! n = Some m -> named_model n m;
  ns_actions : forall n a, sc_actions s !! n = Some a -> identifier n = true /\ named_input (ad_input a)
}.

(** An interface, an alias *)
Lemma interface_line name : one_line name ->
  let header := "export interface " +:+ name +:+ " {" in
  one_line header /\ header <> "" /\ ends_with "{" header = true /\ (strip_prefix "export interface " header ≫= strip_suffix " {") = Some name.
Proof.
  intros Hn header. split_and!; [unfold header; rewrite !one_line_app; by split_and!|done| |].
  - replace header with (("export interface " +:+ name +:+ " ") +:+ "{") by (unfold header; by rewrite !str_app_assoc).
    apply ends_with_app.
  - unfold header. rewrite strip_prefix_app. apply strip_suffix_app.
Qed.
Lemma shows_closed name text members : one_line name -> prints ";" text members ->
  shows declaration ("export interface " +:+ name +:+ " {" +:+ eol +:+ text +:+ "}" +:+ eol) [Interface name members].
Proof.
  intros Hn Hp. destruct (interface_line name Hn) as (Hl & Hne & He & Hr).
  destruct (shows_members declaration _ _ _ _ Hl Hne He Hp) as (body & Hs & Hm).
  rewrite !str_app_assoc in Hs. cbn [omap list_omap declaration] in Hs. rewrite Hr in Hs. cbn [mbind option_bind] in Hs.
  rewrite Hm in Hs. exact Hs.
Qed.
Lemma shows_interface name text members : one_line name -> prints ";" text members ->
  shows declaration ("export interface " +:+ name +:+ " {" +:+ eol +:+ text +:+ "}" +:+ eol +:+ eol) [Interface name members].
Proof. intros Hn Hp. pose proof (shows_spaced _ _ _ (shows_closed _ _ _ Hn Hp)) as Hs. rewrite !str_app_assoc in Hs. exact Hs. Qed.
Lemma shows_alias text : one_line text -> shows declaration ("export type " +:+ text +:+ ";" +:+ eol +:+ eol) [Alias text].
Proof.
  intros Ht. set (l := "export type " +:+ text +:+ ";").
  assert (Hl : one_line l) by (unfold l; rewrite !one_line_app; by split_and!).
  assert (He : ends_with "{" l = false).
  { replace l with (("export type " +:+ text) +:+ ";") by (unfold l; by rewrite !str_app_assoc). by rewrite ends_with_char. }
  pose proof (shows_spaced _ _ _ (shows_single declaration l Hl ltac:(done) He)) as Hs.
  cbn [omap list_omap declaration] in Hs. unfold l in Hs. rewrite strip_prefix_app in Hs. cbn [mbind option_bind] in Hs.
  rewrite strip_suffix_app in Hs. rewrite !str_app_assoc in Hs. exact Hs.
Qed.

Lemma keys_sorted {ho : HashOrder} {V} (m : gmap string V) : sort_strings (hkeys m) = keys_of m.
Proof. apply sort_strings_perm, horder_perm. Qed.
Lemma elem_of_keys {V} (m : gmap string V) n : n ∈ keys_of m <-> is_Some (m !! n).
Proof. rewrite <-(keys_sorted (ho := enum_order)), elem_of_sort_strings. apply elem_of_hkeys. Qed.
Lemma ts_type_line t : one_line (ts_type t).
Proof. induction t; cbn [ts_type]; [literal..| | | |]; try literal. apply one_line_app. by split. Qed.
Lemma quoted_line s : one_line s -> one_line (quoted s).
Proof. intros Hs. unfold quoted. rewrite !one_line_app. by split_and!. Qed.
Lemma joined_line sep l : one_line sep -> Forall one_line l -> one_line (String.concat sep l).
Proof.
  intros Hs. induction 1 as [|x l Hx Hl IH]; [literal|]. destruct l as [|y l]; [done|].
  change (String.concat sep (x :: y :: l)) with (x +:+ sep +:+ String.concat sep (y :: l)).
  rewrite !one_line_app. by split_and!.
Qed.

Section Module.
Context {ho : HashOrder}.

Lemma shows_model n m : named_model n m -> shows declaration (model_interface n m) [model_declaration n m].
Proof.
  intros [Hn Hf _]. unfold model_interface. rewrite keys_sorted. apply shows_interface; [by apply identifier_line|].
  apply prints_each. intros f Hk%elem_of_keys. unfold field_line, field_member. destruct Hk as [fd Hfd]. rewrite Hfd.
  assert (Hid : identifier f = true) by (apply Hf; by rewrite Hfd).
  apply prints_member; [by apply identifier_key|by apply identifier_line|apply ts_type_line|literal].
Qed.
Lemma prints_inputs fields : Forall (fun f => identifier (if_name f) = true /\ one_line (if_field_type f)) fields ->
  prints ";" (each input_line fields) (input_member <$> fields).
Proof.
  intros Hf. apply prints_all. intros f Hin. rewrite Forall_forall in Hf. destruct (Hf f Hin) as [Hid Ht].
  unfold input_line, input_member.
  replace (if if_required f then "" else "?") with (if negb (if_required f) then "?" else "") by (by destruct (if_required f)).
  apply prints_member; [by apply identifier_key|by apply identifier_line|done|literal].
Qed.
Lemma shows_input n a : identifier n = true -> named_input (ad_input a) ->
  shows declaration (action_input n a) [input_declaration n a].
Proof.
  intros Hn. unfold action_input, input_declaration. destruct (ad_input a) as [model fields|fields]; cbn [named_input].
  - intros [Hm Hf].
    assert (Hl : one_line (n +:+ "Input = Pick<" +:+ model +:+ ", " +:+ String.concat " | " (quoted <$> fields) +:+ ">")).
    { rewrite !one_line_app. split_and!; try literal; try (by apply identifier_line). apply joined_line; [literal|].
      apply Forall_fmap. eapply Forall_impl; [exact Hf|]. intros f Hid. by apply quoted_line, identifier_line. }
    pose proof (shows_alias _ Hl) as Hr. rewrite !str_app_assoc in Hr. exact Hr.
  - intros Hf. assert (Hl : one_line (n +:+ "Input")) by (apply one_line_app; split; [by apply identifier_line|literal]).
    pose proof (shows_interface _ _ _ Hl (prints_inputs _ Hf)) as Hr. rewrite !str_app_assoc in Hr. exact Hr.
Qed.
Lemma shows_crud n : one_line n -> shows declaration (crud_interface n) [].
Proof.
  intros Hn. assert (Hl : one_line (n +:+ "Crud")) by (apply one_line_app; by split).
  destruct (interface_line _ Hl) as (Ho & Hne & He & Hr). rewrite str_app_assoc in Ho, Hne, He, Hr.
  unfold crud_interface. match goal with |- shows _ (unlines (_ :: ?b1 :: ?b2 :: ?b3 :: ?b4 :: ?b5 :: _)) _ =>
    pose proof (shows_template declaration _ [b1; b2; b3; b4; b5] Ho Hne He ltac:(template)) as Hs end.
  cbn [omap list_omap declaration] in Hs. rewrite Hr in Hs. exact Hs.
Qed.
Lemma lowercase_first_line n : one_line n -> one_line (lowercase_first n).
Proof.
  destruct n as [|c r]; [done|]. intros [Hn Hr]. cbn in Hn, Hr. apply orb_false_iff in Hn as [Hcn Hn], Hr as [Hcr Hr].
  split; cbn [lowercase_first has_char]; apply orb_false_iff; (split; [|done]).
  - destruct c as [[] [] [] [] [] [] [] []]; by vm_compute in Hcn |- *.
  - destruct c as [[] [] [] [] [] [] [] []]; by vm_compute in Hcr |- *.
Qed.
Lemma shows_typed_client names : Forall one_line names -> shows declaration (typed_client names) [].
Proof.
  intros Hn. unfold typed_client. rewrite (each_unlines _ client_property) by done. rewrite <-!unlines_app.
  apply (shows_template declaration "export class TypedClient {"
    (["  constructor(private client: CrudClient) {}"; ""] ++ (names ≫= client_property))%list); [literal|done|done|].
  apply Forall_app. split; [template|]. apply Forall_bind. eapply Forall_impl; [exact Hn|].
  intros n Hl. pose proof (lowercase_first_line n Hl). unfold client_property. template.
Qed.
Lemma prints_events n m : named_model n m ->
  prints ";" (model_events n m) ((fun '(e, t) => mkMember e false t) <$> event_members n m).
Proof.
  intros [Hn _ He]. unfold model_events, event_members.
  rewrite !Forall_app in He. destruct He as (Hc & Hu & Hd).
  replace ((fun '(e, t) => mkMember e false t) <$> omap _ _) with
    ([("created", me_created (m_events m)); ("updated", me_updated (m_events m)); ("deleted", me_deleted (m_events m))] ≫=
      fun '(event, bindings) => match bindings with
      | [] => []
      | _ => [mkMember (quoted (n +:+ "." +:+ event)) false (String.concat " | " ((fun b => quoted (eb_action b)) <$> bindings))] end)
    by (by destruct (me_created _), (me_updated _), (me_deleted _)).
  apply prints_each. intros [event bindings] Hin.
  assert (Hb : Forall (fun b => identifier (eb_action b) = true) bindings /\ identifier event = true).
  { rewrite !elem_of_cons, elem_of_nil in Hin. by destruct Hin as [[= -> ->]|[[= -> ->]|[[= -> ->]|[]]]]. }
  destruct Hb as [Hb Hev]. unfold event_line. cbn [fst snd]. destruct bindings as [|b bs]; [apply prints_nil|].
  set (text := String.concat _ _). assert (Ht : one_line text).
  { apply joined_line; [literal|]. apply Forall_fmap. eapply Forall_impl; [exact Hb|]. intros x Hx. by apply quoted_line, identifier_line. }
  assert (Hk : identifier n = true /\ identifier event = true) by done.
  assert (Hq : plain_key (quoted (n +:+ "." +:+ event)) /\ one_line (quoted (n +:+ "." +:+ event))).
  { unfold plain_key, one_line, quoted. rewrite !has_char_app. rewrite !(identifier_free _ n), !(identifier_free _ event) by done. done. }
  pose proof (prints_member ";" _ false _ (proj1 Hq) (proj2 Hq) Ht ltac:(literal)) as Hp.
  match type of Hp with prints _ ?t _ => replace (_ +:+ _) with t; [exact Hp|] end. unfold quoted. rewrite !str_app_assoc, str_app_nil. done.
Qed.
Lemma shows_worker names : Forall (fun a => identifier a = true) names ->
  shows declaration (typed_worker names) (handlers_declaration names).
Proof.
  intros Hn. destruct names as [|a0 names0]; [apply shows_nil|]. set (names := a0 :: names0) in *.
  assert (Hh : prints ";" (each handler_line names) (handler_member <$> names)).
  { apply prints_all. intros a Ha. rewrite Forall_forall in Hn. specialize (Hn a Ha).
    pose proof (prints_member ";" a false ("{ input: " +:+ a +:+ "Input }") (identifier_key _ Hn) (identifier_line _ Hn)) as Hp.
    rewrite !str_app_assoc in Hp. apply Hp; [|literal]. rewrite !one_line_app. split_and!; [literal|by apply identifier_line|literal]. }
  pose proof (shows_interface "ActionHandlers" _ _ ltac:(literal) Hh) as Hi.
  pose proof (shows_fixed declaration job_context [] eq_refl eq_refl) as Hj.
  pose proof (shows_fixed declaration worker_interface [] eq_refl eq_refl) as Hw.
  pose proof (shows_app _ _ _ _ _ (shows_blank _) (shows_app _ _ _ _ _ Hi (shows_app _ _ _ _ _ Hj Hw))) as Hr.
  rewrite !str_app_assoc in Hr. exact Hr.
Qed.

(** The whole module *)
Lemma shows_listed {V} (m : gmap string V) (text : string -> V -> string) (decl : string -> V -> Declaration) :
  (forall n v, m !! n = Some v -> shows declaration (text n v) [decl n v]) ->
  shows declaration (each (fun n => match m !! n with Some v => text n v | None => "" end) (keys_of m)) (listed m decl).
Proof. intros Ht. apply shows_each. intros n [v Hn]%elem_of_keys. rewrite Hn. by apply Ht. Qed.
Lemma prints_event_map s : named_schema s ->
  prints ";" (each (with_model s model_events) (keys_of (sc_models s))) (event_map s).
Proof.
  intros [Hm _]. apply prints_each. intros n [m Hn]%elem_of_keys. unfold with_model. rewrite Hn. apply prints_events; auto.
Qed.
Lemma shows_client s : named_schema s -> shows declaration (generate_typescript_client s) (module_declarations s).
Proof.
  intros Hs. pose proof Hs as [Hm Ha]. unfold generate_typescript_client, module_declarations. rewrite !keys_sorted.
  assert (Hns : Forall one_line (keys_of (sc_models s))).
  { apply Forall_forall. intros n [m Hn]%elem_of_keys. exact (identifier_line _ (nm_name _ _ (Hm n m Hn))). }
  assert (Has : Forall (fun n => identifier n = true) (keys_of (sc_actions s))).
  { apply Forall_forall. intros n [a Hn]%elem_of_keys. exact (proj1 (Ha n a Hn)). }
  apply (shows_app _ _ _ []); [by apply shows_fixed|].
  apply shows_app; [apply shows_listed; intros; apply shows_model; auto|].
  apply shows_app; [apply shows_listed; intros n a Hn; destruct (Ha n a Hn); by apply shows_input|].
  apply (shows_app _ _ _ []).
  { apply shows_nothing. intros n Hn. rewrite Forall_forall in Hns. by apply shows_crud, Hns. }
  apply (shows_app _ _ _ []); [by apply shows_typed_client|].
  pose proof (shows_app _ _ _ _ _ (shows_closed "ModelEventMap" _ _ ltac:(literal) (prints_event_map s Hs)) (shows_worker _ Has)) as Hr.
  rewrite !str_app_assoc in Hr. rewrite !unlines_one, !str_app_assoc. exact Hr.
Qed.
End Module.

(** C37: The TypeScript client of a schema whose names are words reads back as exactly its
    declarations, in the order of their names and whatever the order of the hash maps: an
    interface per model with its fields, the input of each action, the events that trigger
    actions, and the handlers of the typed worker. *)
Theorem typescript_client_reads {ho : HashOrder} (s : Schema) :
  named_schema s -> pick declaration (read_text (generate_typescript_client s)) = Some (module_declarations s).
Proof. intros Hs. by apply shows_text, shows_client. Qed.

Module CodegenExamples.
Definition post : Model :=
  mkModel "Post" {[ "title" := mkField "title" FString false []; "tags" := mkField "tags" (FArray FNumber) true [] ]}
    None None ∅ None ∅ [] (mkEvents [mkBinding "processPost" None] [] []) None.
Definition process : ActionDef := mkAction "processPost" (PickFields "Post" ["title"]) None (Some "Post").
Definition resize : ActionDef := mkAction "resize" (InputObject [mkInputField "width" "number" true]) (Some ReturnVoid) None.
Definition blog : Schema := mkSchema {[ "Post" := post ]} {[ "resize" := resize; "processPost" := process ]} ∅ [].
Lemma blog_named : named_schema blog.
Proof.
  split.
  - intros n m Hn. cbn in Hn. apply lookup_singleton_Some in Hn as [<- <-]. split; [done| |by repeat constructor].
    intros f Hf. cbn in Hf. rewrite lookup_insert_is_Some, lookup_singleton_is_Some in Hf. by destruct Hf as [<-|[_ <-]].
  - intros n a Hn. cbn in Hn.
    apply lookup_insert_Some in Hn as [[<- <-]|[_ [<- <-]%lookup_singleton_Some]]; by repeat constructor.
Qed.
Lemma typescript_client_reads_witness :
  pick declaration (read_text (generate_typescript_client (ho := rev_order) blog)) =
    Some [Interface "Post" [mkMember "tags" true "number[]"; mkMember "title" false "string"];
          Alias "processPostInput = Pick<Post, 'title'>"; Interface "resizeInput" [mkMember "width" false "number"];
          Interface "ModelEventMap" [mkMember "'Post.created'" false "'processPost'"];
          Interface "ActionHandlers" [mkMember "processPost" false "{ input: processPostInput }"; mkMember "resize" false "{ input: resizeInput }"]].
Proof. exact (typescript_client_reads (ho := rev_order) blog blog_named). Defined.
End CodegenExamples.
