(* ===== verification/SdlSpec.v ===== *)
(** * What the GraphQL documents say

    The reader of [CodegenSpec] finds the definitions of a generated GraphQL document:
    scalars, enums, types and inputs with their fields.  What the documents define is given
    exactly, and from it: which operators each field may be compared with, as against the
    operators' own table, and that the enum of orders is defined once per table. *)

From S2P Require Import Prelude Json SchemaTypes SqlBuilder Scan SchemaDsl InterfaceParser CliMigrate CliMigrateSpec Codegen CodegenSpec.

#[local] Open Scope string_scope.

(** ** The definitions of a document *)

Inductive Content : Type :=
  | Members (members : list Member)
  | Lines (lines : list string).
Record TypeDef : Type := mkTypeDef { td_kind : string; td_name : string; td_content : Content }.

Definition space_c : Ascii.ascii := Ascii.ascii_of_nat 32.
Definition content_of (body : list string) : Content :=
  match mapM (read_member "") body with Some ms => Members ms | None => Lines body end.
Definition type_definition (it : Item) : option TypeDef :=
  match it with
  | Block header body =>
      match split_on space_c header with
      | [kind; name; brace] => if bool_decide (brace = "{") then Some (mkTypeDef kind name (content_of body)) else None
      | _ => None
      end
  | Single l =>
      match split_on space_c l with
      | [kind; name] => if bool_decide (kind = "scalar") then Some (mkTypeDef kind name (Members [])) else None
      | _ => None
      end
  end.
Definition document (text : string) : option (list TypeDef) := pick type_definition (read_text text).

Section Documents.
Context {ho : HashOrder}.

(** What is defined for the models *)
Definition field_def (p : string * Field) : Member :=
  mkMember p.1 false (map_field_to_graphql_type (f_type p.2) +:+ if negb (f_optional p.2) then "!" else "").
Definition input_field_def (p : string * Field) : list Member :=
  if decide (p.1 = "id") then [] else [mkMember p.1 false (map_field_to_graphql_type (f_type p.2))].
Definition comparison_def (p : string * Field) : Member := mkMember p.1 false (get_field_comparison_type (f_type p.2)).
Definition logical_defs (name : string) : list Member :=
  [mkMember "_and" false ("[" +:+ name +:+ "BoolExp!]"); mkMember "_or" false ("[" +:+ name +:+ "BoolExp!]");
   mkMember "_not" false (name +:+ "BoolExp")].
Definition order_enum : TypeDef := mkTypeDef "enum" "OrderByDirection" (Lines ["  ASC"; "  DESC"]).
Definition table_defs (m : Model) : list TypeDef :=
  let fields := hpairs (m_fields m) in
  [mkTypeDef "type" (m_name m) (Members (field_def <$> fields));
   mkTypeDef "input" (m_name m +:+ "Input") (Members (fields ≫= input_field_def));
   mkTypeDef "input" (m_name m +:+ "BoolExp") (Members (logical_defs (m_name m) ++ (comparison_def <$> fields))%list);
   mkTypeDef "input" (m_name m +:+ "OrderBy") (Members ((fun p => mkMember p.1 false "OrderByDirection") <$> fields));
   order_enum].
Definition enum_def (m : Model) : TypeDef := mkTypeDef "enum" (m_name m) (Lines ["  VALUE1"; "  VALUE2"; "  VALUE3"]).
Definition query_lines (m : Model) : list string :=
  let lower := to_ascii_lowercase (m_name m) in
  ["  " +:+ lower +:+ "s" +:+ "(where: " +:+ m_name m +:+ "BoolExp, orderBy: [" +:+ m_name m +:+ "OrderBy!]): [" +:+ m_name m +:+ "!]!";
   "  " +:+ lower +:+ "ById(id: UUID!): " +:+ m_name m].
Definition mutation_lines (m : Model) : list string :=
  ["  insert" +:+ m_name m +:+ "(object: " +:+ m_name m +:+ "Input!): " +:+ m_name m +:+ "!";
   "  update" +:+ m_name m +:+ "(id: UUID!, object: " +:+ m_name m +:+ "Input!): " +:+ m_name m +:+ "!";
   "  delete" +:+ m_name m +:+ "(id: UUID!): Boolean!"].
Definition root_content (f : Model -> list string) (models : list Model) : Content :=
  match tables models with [] => Members [] | ts => Lines (ts ≫= f) end.
Definition model_defs (models : list Model) : list TypeDef :=
  ((enum_def <$> filter (fun m => is_enum m = true) models) ++ (tables models ≫= table_defs) ++
   [mkTypeDef "type" "Query" (root_content query_lines models); mkTypeDef "type" "Mutation" (root_content mutation_lines models)])%list.
Definition scalar_defs : list TypeDef := (fun n => mkTypeDef "scalar" n (Members [])) <$> ["DateTime"; "UUID"; "JSON"].

(** What is defined from the table of operators *)
Definition operator_member (graphql_type : string) (op : ComparisonOp) : Member :=
  mkMember (co_name op) false
    (if bool_decide (co_name op ∈ ["_in"; "_nin"]) then "[" +:+ graphql_type +:+ "!]"
     else if bool_decide (co_name op = "_is_null") then "Boolean" else graphql_type).
Definition comparison_input (d : OperationDefinitions) (t : string * string * list FieldType) : TypeDef :=
  let '(name, graphql_type, types) := t in
  mkTypeDef "input" name (Members (operator_member graphql_type <$> filter (fun op => op_applies types op = true) (comparison_ops d))).

(** Names of models, fields and types are words. *)
Fixpoint named_type (t : FieldType) : Prop :=
  match t with
  | FCustom n | FReference n => identifier n = true
  | FArray inner => named_type inner
  | _ => True
  end.
Definition named_table (m : Model) : Prop :=
  identifier (m_name m) = true /\
  forall f fd, m_fields m !! f = Some fd -> identifier f = true /\ named_type (f_type fd).

(** ** Reading the pieces *)

Lemma header_words kind name :
  has_char space_c kind = false -> has_char space_c name = false ->
  split_on space_c (kind +:+ " " +:+ name +:+ " {") = [kind; name; "{"].
Proof.
  intros Hk Hn. change (" " +:+ name +:+ " {") with (String space_c (name +:+ String space_c "{")).
  by rewrite split_on_app, split_on_plain, split_on_app, split_on_plain.
Qed.
Lemma shows_body kind name body :
  identifier kind = true -> identifier name = true -> Forall (fun x => one_line x /\ x <> "}") body ->
  shows type_definition (kind +:+ " " +:+ name +:+ " {" +:+ eol +:+ unlines body +:+ "}" +:+ eol)
    [mkTypeDef kind name (content_of body)].
Proof.
  intros Hk Hn Hb. set (header := kind +:+ " " +:+ name +:+ " {").
  assert (Hl : one_line header) by (unfold header; rewrite !one_line_app; split_and!; (literal || by apply identifier_line)).
  assert (Hne : header <> "") by (unfold header; by destruct kind).
  assert (He : ends_with "{" header = true).
  { replace header with ((kind +:+ " " +:+ name +:+ " ") +:+ "{") by (unfold header; by rewrite !str_app_assoc). apply ends_with_app. }
  pose proof (shows_block type_definition _ _ Hl Hne He Hb) as Hs.
  unfold header in Hs. rewrite !str_app_assoc in Hs. cbn [omap list_omap type_definition] in Hs.
  rewrite header_words in Hs by (by apply identifier_free). by rewrite bool_decide_eq_true_2 in Hs by done.
Qed.
Lemma shows_def kind name text members :
  identifier kind = true -> identifier name = true -> prints "" text members ->
  shows type_definition (kind +:+ " " +:+ name +:+ " {" +:+ eol +:+ text +:+ "}" +:+ eol +:+ eol)
    [mkTypeDef kind name (Members members)].
Proof.
  intros Hk Hn Hp. destruct (prints_body _ _ _ Hp) as (body & -> & Hb & Hm).
  pose proof (shows_spaced _ _ _ (shows_body _ _ _ Hk Hn Hb)) as Hs. unfold content_of in Hs. rewrite Hm in Hs.
  rewrite !str_app_assoc in Hs. exact Hs.
Qed.

Lemma graphql_type_line t : named_type t -> one_line (map_field_to_graphql_type t).
Proof.
  induction t; cbn [map_field_to_graphql_type named_type]; intros Ht; try literal; try (by apply identifier_line).
  rewrite !one_line_app. split_and!; [literal|by apply IHt|literal].
Qed.
Lemma comparison_type_line t : one_line (get_field_comparison_type t).
Proof. by destruct t. Qed.
Lemma prints_field name text : identifier name = true -> one_line text ->
  prints "" ("  " +:+ name +:+ ": " +:+ text +:+ eol) [mkMember name false text].
Proof.
  intros Hn Ht. exact (prints_member "" name false text (identifier_key _ Hn) (identifier_line _ Hn) Ht ltac:(literal)).
Qed.
Lemma one_line_bang t (b : bool) : one_line t -> one_line (t +:+ if b then "!" else "").
Proof. intros Ht. apply one_line_app. split; [done|by destruct b]. Qed.
Lemma identifier_app a b : identifier (a +:+ b) = identifier a && identifier b.
Proof. induction a as [|x a IH]; [done|]. rewrite str_app_cons. cbn [identifier]. by rewrite IH, andb_assoc. Qed.

(** The text of one model has no enum of orders: it would follow a word that ends in [m]. *)
Lemma prefix_split p s : String.prefix p s = true -> exists r, s = p +:+ r.
Proof.
  revert s. induction p as [|a p IH]; intros s; [by exists s|]. destruct s as [|b s]; [done|]. cbn.
  destruct (Ascii.ascii_dec a b) as [->|]; [|done]. intros [r ->]%IH. exists r. by rewrite str_app_cons.
Qed.
Lemma contains_weaker s : contains s "m O" = false -> contains s "enum OrderByDirection" = false.
Proof.
  induction s as [|a s IH]; [done|]. cbn [contains]. intros [Hp Hs]%orb_false_iff. rewrite (IH Hs), orb_false_r.
  apply not_true_iff_false. intros E. exfalso. apply prefix_split in E as [r Hr].
  assert (s = "num OrderByDirection" +:+ r) as -> by (by injection Hr). by vm_compute in Hs.
Qed.
(** A word before a text adds no [m O] unless the text starts with [O] after a blank. *)
Lemma contains_word word rest :
  identifier word = true -> String.prefix " O" rest = false -> contains rest "m O" = false -> contains (word +:+ rest) "m O" = false.
Proof.
  intros Hw Hr Hc. induction word as [|a w IH]; [done|]. cbn [identifier] in Hw. apply andb_prop in Hw as [Ha Hw].
  rewrite str_app_cons. cbn [contains]. rewrite (IH Hw), orb_false_r. cbn [String.prefix].
  destruct (Ascii.ascii_dec _ _); [|done]. destruct w as [|b w].
  - rewrite str_app_nil. exact Hr.
  - rewrite str_app_cons. cbn [String.prefix]. destruct (Ascii.ascii_dec (Ascii.Ascii false false false false false true false false) b) as [<-|]; [by vm_compute in Hw|done].
Qed.
Lemma no_order_lines (names : list string) :
  Forall (fun n => identifier n = true) names ->
  contains (each (fun name => "  " +:+ name +:+ ": OrderByDirection" +:+ eol) names +:+ "}" +:+ eol +:+ eol) "m O" = false.
Proof.
  unfold each. induction 1 as [|n l Hn Hl IH]; [done|]. rewrite fmap_cons, concat_cons, !str_app_assoc.
  set (rest := String.concat _ _ +:+ _) in *.
  change (contains (n +:+ (": OrderByDirection" +:+ eol +:+ rest)) "m O" = false).
  apply contains_word; [done|done|exact IH].
Qed.
Section Table.
Context (m : Model) (named : named_table m).

Lemma named_pair name fd : (name, fd) ∈ hpairs (m_fields m) -> identifier name = true /\ named_type (f_type fd).
Proof using named. intros Hin%elem_of_hpairs. by apply (proj2 named). Qed.
Lemma suffixed suffix : identifier suffix = true -> identifier (m_name m +:+ suffix) = true.
Proof using named. intros Hs. by rewrite identifier_app, (proj1 named), Hs. Qed.

Lemma shows_object : shows type_definition (generate_graphql_object_definition m)
  [mkTypeDef "type" (m_name m) (Members (field_def <$> hpairs (m_fields m)))].
Proof using named.
  apply (shows_def "type"); [done|apply (proj1 named)|]. apply prints_all. intros [name fd] Hin.
  destruct (named_pair _ _ Hin) as [Hid Ht]. unfold field_def. cbn [fst snd].
  pose proof (prints_field name _ Hid (one_line_bang _ (negb (f_optional fd)) (graphql_type_line _ Ht))) as Hp.
  rewrite !str_app_assoc in Hp. exact Hp.
Qed.
Lemma shows_suffixed suffix text members : identifier suffix = true -> prints "" text members ->
  shows type_definition ("input " +:+ m_name m +:+ suffix +:+ " {" +:+ eol +:+ text +:+ "}" +:+ eol +:+ eol)
    [mkTypeDef "input" (m_name m +:+ suffix) (Members members)].
Proof using named.
  intros Hs Hp. pose proof (shows_def "input" _ _ _ ltac:(done) (suffixed _ Hs) Hp) as Hd.
  rewrite !str_app_assoc in Hd. exact Hd.
Qed.
Lemma shows_input_definition : shows type_definition (generate_graphql_input_definition m)
  [mkTypeDef "input" (m_name m +:+ "Input") (Members (hpairs (m_fields m) ≫= input_field_def))].
Proof using named.
  apply (shows_suffixed "Input"); [done|]. apply prints_each. intros [name fd] Hin.
  destruct (named_pair _ _ Hin) as [Hid Ht]. unfold input_field_def. cbn [fst snd].
  destruct (decide (name = "id")); [apply prints_nil|]. apply prints_field; [done|by apply graphql_type_line].
Qed.
Lemma shows_bool_exp : shows type_definition (generate_graphql_bool_exp_definition m)
  [mkTypeDef "input" (m_name m +:+ "BoolExp") (Members (logical_defs (m_name m) ++ (comparison_def <$> hpairs (m_fields m)))%list)].
Proof using named.
  assert (Hl : one_line (m_name m)) by apply identifier_line, named.
  assert (Hf : prints "" (each (fun '(name, field) => "  " +:+ name +:+ ": " +:+ get_field_comparison_type (f_type field) +:+ eol) (hpairs (m_fields m)))
    (comparison_def <$> hpairs (m_fields m))).
  { apply prints_all. intros [name fd] Hin. apply prints_field; [by apply named_pair in Hin as []|apply comparison_type_line]. }
  assert (Hb : one_line ("[" +:+ m_name m +:+ "BoolExp!]")) by (rewrite !one_line_app; by split_and!).
  assert (Hn : one_line (m_name m +:+ "BoolExp")) by (rewrite !one_line_app; by split_and!).
  pose proof (prints_app _ _ _ _ _ (prints_field "_and" _ eq_refl Hb) (prints_app _ _ _ _ _ (prints_field "_or" _ eq_refl Hb)
    (prints_app _ _ _ _ _ (prints_field "_not" _ eq_refl Hn) Hf))) as Hp.
  pose proof (shows_suffixed "BoolExp" _ _ eq_refl Hp) as Hs. rewrite !str_app_assoc in Hs.
  unfold generate_graphql_bool_exp_definition. exact Hs.
Qed.
Lemma shows_order_by : shows type_definition (generate_graphql_order_by_definition m)
  [mkTypeDef "input" (m_name m +:+ "OrderBy") (Members ((fun p => mkMember p.1 false "OrderByDirection") <$> hpairs (m_fields m))); order_enum].
Proof using named.
  assert (Hf : Forall (fun n => identifier n = true) (hpairs (m_fields m)).*1).
  { apply Forall_fmap, Forall_forall. intros [n fd] Hin. by apply named_pair in Hin as []. }
  unfold generate_graphql_order_by_definition.
  rewrite contains_weaker.
  - apply (shows_app _ _ _ [_] [_]); [|by apply shows_fixed].
    apply (shows_suffixed "OrderBy"); [done|]. unfold each. rewrite <-list_fmap_compose. apply (prints_all "" _ _ (hpairs (m_fields m))).
    intros [n fd] Hin. apply prints_field; [by apply named_pair in Hin as []|literal].
  - change (contains (m_name m +:+ ("OrderBy {" +:+ eol +:+ (each (fun name => "  " +:+ name +:+ ": OrderByDirection" +:+ eol)
      (hpairs (m_fields m)).*1 +:+ "}" +:+ eol +:+ eol))) "m O" = false).
    apply contains_word; [apply named|done|]. by apply no_order_lines.
Qed.
Lemma shows_table : shows type_definition
  (generate_graphql_object_definition m +:+ generate_graphql_input_definition m +:+
   generate_graphql_bool_exp_definition m +:+ generate_graphql_order_by_definition m) (table_defs m).
Proof using named.
  apply (shows_app _ _ _ [_]); [apply shows_object|]. apply (shows_app _ _ _ [_]); [apply shows_input_definition|].
  apply (shows_app _ _ _ [_]); [apply shows_bool_exp|]. apply shows_order_by.
Qed.
Lemma shows_enum : shows type_definition (generate_graphql_enum_definition m) [enum_def m].
Proof using named.
  pose proof (shows_spaced _ _ _ (shows_body "enum" _ ["  VALUE1"; "  VALUE2"; "  VALUE3"] eq_refl (proj1 named) ltac:(template))) as Hs.
  rewrite !str_app_assoc in Hs. exact Hs.
Qed.
End Table.

Lemma read_method fin k1 k2 rest : has_char colon_c k1 = false -> has_char colon_c k2 = false ->
  read_member fin ("  " +:+ k1 +:+ "(" +:+ k2 +:+ ":" +:+ rest) = None.
Proof.
  intros H1 H2. unfold read_member. rewrite strip_prefix_app. cbn [mbind option_bind].
  assert (Hs : split_once colon_c (k1 +:+ "(" +:+ k2 +:+ ":" +:+ rest) = Some (k1 +:+ "(" +:+ k2, rest)).
  { replace (k1 +:+ "(" +:+ k2 +:+ ":" +:+ rest) with ((k1 +:+ "(" +:+ k2) +:+ String colon_c rest) by (by rewrite !str_app_assoc).
    apply split_once_app. rewrite !has_char_app, H1, H2. done. }
  rewrite Hs. cbn [mbind option_bind]. rewrite !has_char_app. cbn [has_char Ascii.eqb]. by rewrite orb_true_r.
Qed.
Lemma lower_free c s : (forall a, Ascii.eqb a c = false -> Ascii.eqb (ascii_lower a) c = false) ->
  name_char c = false -> identifier s = true -> has_char c (to_ascii_lowercase s) = false.
Proof. intros Hl Hc Hs. apply has_char_lower; [done|by apply identifier_free]. Qed.
Lemma lower_line s : identifier s = true -> one_line (to_ascii_lowercase s).
Proof. intros Hs. split; (apply lower_free; [each_char|done|done]). Qed.
Lemma unread_content f (m : Model) ts l :
  f m = l -> match l with [] => True | x :: _ => read_member "" x = None end -> l <> [] ->
  content_of ((m :: ts) ≫= f) = Lines ((m :: ts) ≫= f).
Proof.
  intros Hf Hr Hne. unfold content_of. rewrite bind_cons, Hf. destruct l as [|x l]; [done|].
  cbn [app mapM]. by rewrite Hr.
Qed.
Lemma shows_root name f (text : Model -> string) models :
  identifier name = true ->
  (forall m, m ∈ tables models -> text m = unlines (f m) /\ Forall (fun x => one_line x /\ x <> "}") (f m) /\
     match f m with [] => False | x :: _ => read_member "" x = None end) ->
  shows type_definition ("type " +:+ name +:+ " {" +:+ eol +:+ each text (tables models) +:+ "}" +:+ eol)
    [mkTypeDef "type" name (root_content f models)].
Proof.
  intros Hn Hf. rewrite (each_unlines text f) by (intros m Hm; by apply Hf).
  replace (root_content f models) with (content_of (tables models ≫= f)).
  - apply (shows_body "type"); [done|done|]. apply Forall_bind, Forall_forall. intros m Hm. by apply Hf.
  - unfold root_content. destruct (tables models) as [|m ts]; [done|].
    destruct (Hf m) as (_ & _ & Hr); [left|]. destruct (f m) as [|x l] eqn:E; [done|]. by apply (unread_content f m ts (x :: l)).
Qed.
Lemma shows_roots models : Forall named_table models ->
  shows type_definition (generate_graphql_root_types models)
    [mkTypeDef "type" "Query" (root_content query_lines models); mkTypeDef "type" "Mutation" (root_content mutation_lines models)].
Proof.
  intros Hm. assert (Hin : forall m, m ∈ tables models -> identifier (m_name m) = true).
  { intros m [_ H]%list_elem_of_filter. rewrite Forall_forall in Hm. by apply Hm. }
  unfold generate_graphql_root_types.
  set (q := fun m => _ +:+ _ +:+ _ +:+ _ +:+ _ +:+ _ +:+ _ +:+ _ +:+ _ +:+ _). set (mu := fun m => "  insert" +:+ _).
  assert (Hq : shows type_definition ("type Query {" +:+ eol +:+ each q (tables models) +:+ "}" +:+ eol)
    [mkTypeDef "type" "Query" (root_content query_lines models)]).
  { apply (shows_root "Query"); [done|]. intros m Hi. pose proof (Hin m Hi) as Hid.
    assert (one_line (m_name m)) by (by apply identifier_line). assert (one_line (to_ascii_lowercase (m_name m))) by (by apply lower_line).
    split_and!.
    - unfold q, query_lines. rewrite unlines_cons, unlines_one, !str_app_assoc. done.
    - unfold query_lines. template.
    - cbn [query_lines]. rewrite <-(str_app_assoc (to_ascii_lowercase (m_name m)) "s").
      apply (read_method "" _ "where"); [|done]. rewrite has_char_app, lower_free; [done|each_char|done|done]. }
  assert (Hmu : shows type_definition ("type Mutation {" +:+ eol +:+ each mu (tables models) +:+ "}" +:+ eol)
    [mkTypeDef "type" "Mutation" (root_content mutation_lines models)]).
  { apply (shows_root "Mutation"); [done|]. intros m Hi. pose proof (Hin m Hi) as Hid.
    assert (one_line (m_name m)) by (by apply identifier_line).
    split_and!.
    - unfold mu, mutation_lines. rewrite 2!unlines_cons, unlines_one, !str_app_assoc. done.
    - unfold mutation_lines. template.
    - apply (read_method "" ("insert" +:+ m_name m) "object"); [|done]. rewrite has_char_app, (identifier_free _ (m_name m)) by done. done. }
  pose proof (shows_app _ _ _ _ _ (shows_spaced _ _ _ Hq) Hmu) as Hs. rewrite !str_app_assoc in Hs. exact Hs.
Qed.

(** What is defined in every document that does not take a table of operators *)
Definition fixed_input (name graphql_type : string) (ops : list string) : TypeDef :=
  mkTypeDef "input" name (Members ((fun n => operator_member graphql_type (mkComparisonOp n "" [] "")) <$> ops)).
Definition fixed_inputs : list TypeDef :=
  [fixed_input "StringComparisonExp" "String" ["_eq"; "_neq"; "_gt"; "_gte"; "_lt"; "_lte"; "_like"; "_ilike"; "_similar"; "_regex"; "_iregex"; "_in"; "_nin"; "_is_null"];
   fixed_input "NumericComparisonExp" "Float" ["_eq"; "_neq"; "_gt"; "_gte"; "_lt"; "_lte"; "_in"; "_nin"; "_is_null"];
   fixed_input "DateTimeComparisonExp" "DateTime" ["_eq"; "_neq"; "_gt"; "_gte"; "_lt"; "_lte"; "_in"; "_nin"; "_is_null"];
   fixed_input "BooleanComparisonExp" "Boolean" ["_eq"; "_neq"; "_is_null"];
   fixed_input "UUIDComparisonExp" "UUID" ["_eq"; "_neq"; "_in"; "_nin"; "_is_null"];
   fixed_input "GenericComparisonExp" "String" ["_eq"; "_neq"; "_in"; "_nin"; "_is_null"]].
Lemma shows_fixed_inputs : shows type_definition generate_comparison_types_definition fixed_inputs.
Proof. by apply shows_fixed. Qed.
Definition named_operators (d : OperationDefinitions) : Prop := Forall (fun op => identifier (co_name op) = true) (comparison_ops d).
Lemma prints_operators d types graphql_type : named_operators d -> one_line graphql_type ->
  prints "" (each (fun op => if op_applies types op then operator_line graphql_type op else "") (comparison_ops d))
    (operator_member graphql_type <$> filter (fun op => op_applies types op = true) (comparison_ops d)).
Proof.
  intros Hd Ht. unfold named_operators in Hd. induction Hd as [|op ops Hop Hops IH]; [apply prints_nil|].
  unfold each in *. rewrite fmap_cons, concat_cons, filter_cons. destruct (op_applies types op) eqn:E.
  - rewrite decide_True by done. apply (prints_app _ _ _ [_]); [|done]. unfold operator_line, operator_member.
    destruct (bool_decide (co_name op ∈ _)); [|destruct (bool_decide _); apply prints_field; by try literal].
    assert (Hb : one_line ("[" +:+ graphql_type +:+ "!]")) by (rewrite !one_line_app; by split_and!).
    pose proof (prints_field _ _ Hop Hb) as Hp. rewrite !str_app_assoc in Hp. exact Hp.
  - rewrite decide_False by done. exact IH.
Qed.
Lemma shows_operators d : named_operators d ->
  shows type_definition (generate_comparison_types_with_operations d) (comparison_input d <$> comparison_types).
Proof.
  intros Hd. unfold generate_comparison_types_with_operations. apply (shows_app _ _ _ []); [by apply shows_fixed|].
  refine (shows_each _ _ (fun t => [comparison_input d t]) comparison_types _). intros [[name graphql_type] types] Hin.
  assert (Hn : identifier name = true /\ identifier graphql_type = true).
  { assert (Hall : Forall (fun t => identifier t.1.1 = true /\ identifier t.1.2 = true) comparison_types)
      by (unfold comparison_types; repeat (apply Forall_cons; split; [done|]); by apply Forall_nil_2).
    rewrite Forall_forall in Hall. exact (Hall _ Hin). }
  apply (shows_def "input"); [done|apply Hn|]. apply prints_operators; [done|apply identifier_line, Hn].
Qed.

Lemma shows_models models : Forall named_table models -> shows type_definition (model_definitions models) (model_defs models).
Proof.
  intros Hm. rewrite Forall_forall in Hm. unfold model_definitions, model_defs. apply shows_app.
  - replace (enum_def <$> _) with (filter (fun m => is_enum m = true) models ≫= (fun m => [enum_def m]))
      by (induction (filter _ _) as [|m l IH]; [done|]; by rewrite bind_cons, IH).
    apply shows_each. intros m [_ Hin]%list_elem_of_filter. by apply shows_enum, Hm.
  - apply shows_app; [|apply shows_roots; by apply Forall_forall].
    apply shows_each. intros m [_ Hin]%list_elem_of_filter. by apply shows_table, Hm.
Qed.
Lemma shows_scalars : shows type_definition scalars scalar_defs.
Proof. by apply shows_fixed. Qed.
Lemma shows_document models : Forall named_table models ->
  shows type_definition (generate_graphql_schema_definition models) (scalar_defs ++ fixed_inputs ++ model_defs models)%list.
Proof.
  intros Hm. apply (shows_app _ _ _ []); [by apply shows_fixed|]. apply (shows_app _ _ _ scalar_defs); [apply shows_scalars|].
  apply shows_app; [apply shows_fixed_inputs|by apply shows_models].
Qed.
Lemma shows_document_with models d : Forall named_table models -> named_operators d ->
  shows type_definition (generate_graphql_schema_with_operations models d)
    (scalar_defs ++ (comparison_input d <$> comparison_types) ++ model_defs models)%list.
Proof.
  intros Hm Hd. apply (shows_app _ _ _ []); [by apply shows_fixed|]. apply (shows_app _ _ _ scalar_defs); [apply shows_scalars|].
  apply shows_app; [by apply shows_operators|by apply shows_models].
Qed.
End Documents.

(** ** The documents *)

(** The fields of the input that a name denotes *)
Definition input_fields (name : string) (defs : list TypeDef) : option (list string) :=
  match find (fun t => bool_decide (td_kind t = "input" /\ td_name t = name)) defs with
  | Some (mkTypeDef _ _ (Members ms)) => Some (mb_name <$> ms)
  | _ => None
  end.
(** The operators of the fields of a type: those of the table, for dates those of either kind
    of date, and for what has no comparison of its own all that there are *)
Definition offered (d : OperationDefinitions) (t : FieldType) : list ComparisonOp :=
  match t with
  | FString | FNumber | FBoolean | FEntityId => get_comparison_ops_for_type d t
  | FDate | FDateTime => filter (fun op => FDate ∈ co_applies_to op \/ FDateTime ∈ co_applies_to op) (comparison_ops d)
  | _ => comparison_ops d
  end.
Lemma op_applies_iff types op :
  op_applies types op = true <-> types = [] \/ exists t, t ∈ types /\ t ∈ co_applies_to op.
Proof.
  unfold op_applies. rewrite orb_true_iff, bool_decide_eq_true, existsb_exists.
  assert (He : forall t, In t types /\ bool_decide (t ∈ co_applies_to op) = true <-> t ∈ types /\ t ∈ co_applies_to op)
    by (intros t; by rewrite bool_decide_eq_true, <-list_elem_of_In).
  split; (intros [Hn|[t Ht%He]]; [by left|right; by exists t]).
Qed.
Lemma op_applies_one t op : op_applies [t] op = true <-> t ∈ co_applies_to op.
Proof. rewrite op_applies_iff. split; [intros [[=]|(u & ->%list_elem_of_singleton & Hu)]; done|]. intros Ht. right. exists t. by split; [left|]. Qed.
Lemma op_applies_date op : op_applies [FDate; FDateTime] op = true <-> FDate ∈ co_applies_to op \/ FDateTime ∈ co_applies_to op.
Proof. rewrite op_applies_iff. set_solver. Qed.
Lemma filter_ext {A} (P Q : A -> Prop) `{forall x, Decision (P x), forall x, Decision (Q x)} (l : list A) :
  (forall x, P x <-> Q x) -> filter P l = filter Q l.
Proof.
  intros Hpq. induction l as [|x l IH]; [done|]. rewrite !filter_cons.
  destruct (decide (P x)), (decide (Q x)); [by f_equal|naive_solver..|done].
Qed.
Lemma offered_operators d t :
  offered d t = filter (fun op => op_applies match t with
    | FString | FNumber | FBoolean | FEntityId => [t] | FDate | FDateTime => [FDate; FDateTime] | _ => [] end op = true) (comparison_ops d).
Proof.
  destruct t; cbn [offered]; first
    [ symmetry; apply filter_ext; intros op; apply op_applies_one
    | symmetry; apply filter_ext; intros op; apply op_applies_date
    | symmetry; by apply filter_all ].
Qed.
Lemma find_input d name (g : string) (types : list FieldType) rest :
  (name, g, types) ∈ comparison_types ->
  find (fun t => bool_decide (td_kind t = "input" /\ td_name t = name)) (scalar_defs ++ (comparison_input d <$> comparison_types) ++ rest)%list =
  Some (comparison_input d (name, g, types)).
Proof.
  unfold comparison_types. rewrite !elem_of_cons, elem_of_nil.
  intros Hin. repeat (destruct Hin as [[= -> -> ->]|Hin]; [reflexivity|]). done.
Qed.
Lemma comparison_named d t ms (types : list FieldType) graphql_type rest :
  mb_name <$> (operator_member graphql_type <$> filter (fun op => op_applies types op = true) (comparison_ops d)) = ms ->
  (get_field_comparison_type t, graphql_type, types) ∈ comparison_types ->
  input_fields (get_field_comparison_type t) (scalar_defs ++ (comparison_input d <$> comparison_types) ++ rest)%list = Some ms.
Proof.
  intros <- Hin. unfold input_fields. rewrite find_input with (types := types) (g := graphql_type) by done. done.
Qed.
Lemma fields_offered d t rest :
  input_fields (get_field_comparison_type t) (scalar_defs ++ (comparison_input d <$> comparison_types) ++ rest)%list =
  Some (co_name <$> offered d t).
Proof.
  rewrite offered_operators. assert (Hn : forall g (l : list ComparisonOp), mb_name <$> (operator_member g <$> l) = co_name <$> l).
  { intros g l. by rewrite <-list_fmap_compose. }
  destruct t; (eapply comparison_named; [apply Hn|]); cbn; unfold comparison_types; repeat first [left|right].
Qed.

(** C38: Both GraphQL documents of models whose names are words read back as exactly the
    definitions meant: the scalars, the comparison inputs, an enum per enum, the five
    definitions of each table with its fields, and the two root types.  In the document made
    from a table of operators, a field may be compared with exactly the operators that the
    table gives to its type if that is text, a number, a truth value or an identifier; a date
    has those of dates and of times, and any other type (JSON, a list, a reference, a file)
    every operator, whatever the table says. *)
Theorem graphql_documents_read {ho : HashOrder} (models : list Model) (d : OperationDefinitions) :
  Forall named_table models -> named_operators d ->
  document (generate_graphql_schema_definition models) = Some (scalar_defs ++ fixed_inputs ++ model_defs models)%list /\
  exists defs, document (generate_graphql_schema_with_operations models d) = Some defs /\
    defs = (scalar_defs ++ (comparison_input d <$> comparison_types) ++ model_defs models)%list /\
    forall t, input_fields (get_field_comparison_type t) defs = Some (co_name <$> offered d t).
Proof.
  intros Hm Hd. split; [by apply shows_text, shows_document|]. eexists. split; [by apply shows_text, shows_document_with|].
  split; [done|]. intros t. apply fields_offered.
Qed.

(** ** What is wrong with them *)

#[export] Instance Member_eq_dec : EqDecision Member.
Proof. solve_decision. Defined.
#[export] Instance Content_eq_dec : EqDecision Content.
Proof. solve_decision. Defined.
#[export] Instance TypeDef_eq_dec : EqDecision TypeDef.
Proof. solve_decision. Defined.

(** The enum of orders is defined once per table, so a document of two tables is no valid schema. *)
Lemma order_enum_per_table {ho : HashOrder} (models : list Model) :
  length (filter (fun t => t = order_enum) (model_defs models)) = length (tables models).
Proof.
  unfold model_defs. rewrite !filter_app, !length_app.
  assert (He : filter (fun t => t = order_enum) (enum_def <$> filter (fun m => is_enum m = true) models) = []).
  { induction (filter _ models) as [|m l IH]; [done|]. rewrite fmap_cons, filter_cons, decide_False, IH by done. done. }
  rewrite He. cbn [length]. replace (length (filter _ [_; _])) with 0%nat by done. rewrite Nat.add_0_r. cbn [Nat.add].
  induction (tables models) as [|m l IH]; [done|]. rewrite bind_cons, filter_app, length_app, IH.
  unfold table_defs. rewrite !filter_cons. rewrite !decide_False by done. rewrite decide_True by done. done.
Qed.
(** The fixed document offers three comparisons of strings that no operator stands for, and
    leaves out of the table what the other document offers to lists and references. *)
Lemma fixed_document_diverges :
  input_fields "StringComparisonExp" (scalar_defs ++ fixed_inputs)%list =
    Some (["_eq"; "_neq"; "_gt"; "_gte"; "_lt"; "_lte"; "_like"; "_ilike"; "_similar"; "_regex"; "_iregex"; "_in"; "_nin"; "_is_null"]) /\
  get_comparison_op_by_name hasura_v2_standard "_similar" = None /\
  get_comparison_ops_for_type hasura_v2_standard FJson = [] /\
  length (offered hasura_v2_standard FJson) = 11%nat.
Proof. by vm_compute. Qed.

(** ** The table of operators is checked *)

Lemma insert_names_ok what names seen s :
  insert_names what names seen = inl s <->
  NoDup names /\ (forall n, n ∈ names -> n ∉ seen) /\ s = list_to_set names ∪ seen.
Proof.
  revert seen. induction names as [|n names IH]; intros seen; cbn [insert_names list_to_set].
  - split; [intros [= <-]; split_and!; [constructor|by intros n ?%elem_of_nil|set_solver]|intros (_ & _ & ->); f_equal; set_solver].
  - destruct (decide (n ∈ seen)) as [Hin|Hin].
    + split; [done|]. intros (_ & Hd & _). by destruct (Hd n); [left|].
    + rewrite IH, NoDup_cons. split.
      * intros (Hnd & Hd & ->). split_and!; [|done| |set_solver].
        -- intros Hn. specialize (Hd n Hn). set_solver.
        -- intros x [->|Hx]%elem_of_cons; [done|]. specialize (Hd x Hx). set_solver.
      * intros ([Hn Hnd] & Hd & ->). split_and!; [done| |set_solver].
        intros x Hx. specialize (Hd x). rewrite elem_of_cons in Hd. set_solver.
Qed.
Definition operator_names (d : OperationDefinitions) : list string :=
  ((co_name <$> comparison_ops d) ++ (lo_name <$> logical_ops d))%list.
Lemma find_none_iff {A} (f : A -> bool) (l : list A) : find f l = None <-> forall x, x ∈ l -> f x = false.
Proof.
  split; [intros Hf x Hx; exact (find_none _ _ Hf x (proj1 (list_elem_of_In _ _) Hx))|].
  intros Hf. destruct (find f l) as [x|] eqn:E; [|done]. apply find_some in E as [Hin Ht].
  rewrite Hf in Ht by (by apply list_elem_of_In). done.
Qed.
Lemma existsb_name {A} (name : A -> string) (l : list A) r :
  existsb (fun op => bool_decide (name op = r)) l = true <-> r ∈ name <$> l.
Proof.
  rewrite existsb_exists, list_elem_of_fmap.
  split; intros (x & Hx & Hr); exists x; rewrite ?bool_decide_eq_true, <-?list_elem_of_In in *; naive_solver.
Qed.
(** A table is accepted just when no name occurs twice and the operators that are always
    needed are there. *)
Lemma validate_operations_ok d :
  validate_operations d = inl tt <->
  NoDup (operator_names d) /\ forall r, r ∈ required_ops -> r ∈ operator_names d.
Proof.
  unfold validate_operations, operator_names. rewrite NoDup_app.
  destruct (insert_names _ (co_name <$> _) ∅) as [seen|] eqn:E1.
  - apply insert_names_ok in E1 as (Hc & _ & ->).
    destruct (insert_names _ (lo_name <$> _) _) as [seen2|] eqn:E2.
    + apply insert_names_ok in E2 as (Hl & Hd & _).
      destruct (find _ required_ops) as [r|] eqn:F.
      * split; [done|]. intros [_ Hr]. apply find_some in F as [Hin%list_elem_of_In Hf].
        apply andb_prop in Hf as [H1%negb_true_iff H2%negb_true_iff].
        specialize (Hr r Hin). apply elem_of_app in Hr as [Hr|Hr]; apply existsb_name in Hr; congruence.
      * split; [|done]. intros _. split; [split_and!; [done| |done]|].
        { intros x Hx Hx'. specialize (Hd x Hx'). set_solver. }
        intros r Hin. rewrite find_none_iff in F. specialize (F r Hin). rewrite <-negb_orb in F. apply negb_false_iff, orb_true_iff in F.
        rewrite elem_of_app. destruct F as [F%existsb_name|F%existsb_name]; auto.
    + split; [done|]. intros [(_ & Hd & Hl) _]. exfalso.
      rewrite (proj2 (insert_names_ok "logical" (lo_name <$> logical_ops d) _ (list_to_set (lo_name <$> logical_ops d) ∪ (list_to_set (co_name <$> comparison_ops d) ∪ ∅)))) in E2; [done|].
      split_and!; [done| |done]. intros n Hn Hs. apply (Hd n); set_solver.
  - split; [done|]. intros [(Hc & _) _]. exfalso.
    rewrite (proj2 (insert_names_ok "comparison" (co_name <$> comparison_ops d) _ (list_to_set (co_name <$> comparison_ops d) ∪ ∅))) in E1; [done|].
    split_and!; [done|set_solver|done].
Qed.
Lemma standard_operations_valid : validate_operations hasura_v2_standard = inl tt.
Proof. by vm_compute. Qed.

(** ** Concrete documents *)

Module SdlExamples.
Definition post_fields : gmap string Field :=
  {[ "id" := mkField "id" FEntityId false []; "title" := mkField "title" FString false [];
     "tags" := mkField "tags" (FArray (FCustom "Tag")) true [] ]}.
Definition post : Model := bare_model "Post" post_fields None.
Definition tag : Model := bare_model "Tag" {[ "_enum_type" := mkField "_enum_type" FString false [] ]} None.
Lemma blog_post_named : named_table post.
Proof.
  split; [done|]. intros f fd Hf. cbn in Hf. unfold post_fields in Hf.
  repeat (apply lookup_insert_Some in Hf as [[<- <-]|[_ Hf]]; [done|]). by apply lookup_singleton_Some in Hf as [<- <-].
Qed.
Lemma tag_named : named_table tag.
Proof. split; [done|]. intros f fd Hf. cbn in Hf. by apply lookup_singleton_Some in Hf as [<- <-]. Qed.

Lemma graphql_documents_read_witness :
  document (generate_graphql_schema_definition (ho := enum_order) [post; tag]) =
    Some (scalar_defs ++ fixed_inputs ++ model_defs (ho := enum_order) [post; tag])%list /\
  exists defs, document (generate_graphql_schema_with_operations (ho := enum_order) [post; tag] hasura_v2_standard) = Some defs /\
    defs = (scalar_defs ++ (comparison_input hasura_v2_standard <$> comparison_types) ++ model_defs (ho := enum_order) [post; tag])%list /\
    forall t, input_fields (get_field_comparison_type t) defs = Some (co_name <$> offered hasura_v2_standard t).
Proof.
  apply (graphql_documents_read (ho := enum_order) [post; tag] hasura_v2_standard).
  - apply Forall_cons. split; [apply blog_post_named|]. apply Forall_cons. split; [apply tag_named|]. apply Forall_nil_2.
  - by repeat (apply Forall_cons; split; [done|]).
Defined.
Example booleans_offered : co_name <$> offered hasura_v2_standard FBoolean = ["_eq"; "_neq"; "_is_null"].
Proof. by vm_compute. Qed.
(** Two tables: the enum of orders is there twice. *)
Example two_tables_two_enums :
  length (filter (fun t => t = order_enum) (model_defs (ho := enum_order) [post; bare_model "User" post_fields None])) = 2%nat.
Proof. by vm_compute. Qed.
End SdlExamples.
