(* ===== verification/TypeGen.v ===== *)
(** * The generator of Rust types

    [atomo_schema/src/hasura_v2_type_generator.rs], [generate_types]: the structures and enums
    of a GraphQL module, one family per model, as text.  Raw strings of the source are lists
    of lines here; what is interpolated into them is appended in its place.  Functions that no
    caller reaches (the platform models, the wrappers of blocks) are left out. *)

From S2P Require Import Prelude Json SchemaTypes SqlBuilder Scan InterfaceParser CliMigrate Codegen.

#[local] Open Scope string_scope.

(** ** Identifiers *)

Definition keywords : list string :=
  ["type"; "match"; "move"; "ref"; "self"; "super"; "crate"; "mod"; "fn"; "struct"; "enum"; "trait"; "impl"; "pub"; "use"; "let"; "mut"; "const";
   "static"; "loop"; "for"; "while"; "if"; "else"; "return"; "break"; "continue"; "as"; "in"; "where"; "async"; "await"; "dyn"; "abstract"; "become"; "box";
   "do"; "final"; "macro"; "override"; "priv"; "try"; "typeof"; "unsafe"; "unsized"; "virtual"; "yield"].
Definition safe_ident (name : string) : string := if decide (name ∈ keywords) then "r#" +:+ name else name.

(** A text in double quotes *)
Definition dq : string := String (Ascii.ascii_of_nat 34) EmptyString.
Definition q (s : string) : string := dq +:+ s +:+ dq.

(** ** The types of fields *)

Definition in_option (optional : bool) (base : string) : string := if optional then "Option<" +:+ base +:+ ">" else base.

Fixpoint convert_field_type (t : FieldType) (optional : bool) : string :=
  in_option optional
    match t with
    | FString | FFile => "String"
    | FNumber => "f64"
    | FBoolean => "bool"
    | FDate | FDateTime => "DateTime<Utc>"
    | FEntityId => "ID"
    | FJson => "serde_json::Value"
    | FBlocks => "Vec<ContentBlock>"
    | FArray inner =>
        match inner with
        | FCustom name =>
            if decide (name = "ContentBlock") then "Vec<ContentBlock>"
            else if contains name "Block" then "Vec<ContentBlock>"
            else "Vec<" +:+ convert_field_type inner false +:+ ">"
        | _ => "Vec<" +:+ convert_field_type inner false +:+ ">"
        end
    | FCustom name => name
    | FReference name => name
    end.

Fixpoint convert_field_type_for_input (t : FieldType) (optional : bool) : string :=
  in_option optional
    match t with
    | FString | FFile => "String"
    | FNumber => "f64"
    | FBoolean => "bool"
    | FDate | FDateTime => "DateTime<Utc>"
    | FEntityId => "ID"
    | FJson | FBlocks => "serde_json::Value"
    | FArray inner =>
        match inner with
        | FCustom name =>
            if decide (name = "ContentBlock") then "serde_json::Value"
            else if contains name "Block" then "serde_json::Value"
            else "Vec<" +:+ convert_field_type_for_input inner false +:+ ">"
        | _ => "Vec<" +:+ convert_field_type_for_input inner false +:+ ">"
        end
    | FCustom name =>
        if bool_decide (name = "ContentBlock") || contains name "Block" then "serde_json::Value" else name
    | FReference name => name
    end.

Definition convert_field_type_for_db (t : FieldType) (optional : bool) : string :=
  in_option optional
    match t with
    | FString | FFile => "String"
    | FNumber => "sqlx::types::BigDecimal"
    | FBoolean => "bool"
    | FDate | FDateTime => "DateTime<Utc>"
    | FEntityId => "String"
    | FJson | FBlocks | FArray _ => "serde_json::Value"
    | FCustom _ | FReference _ => "String"
    end.

(** ** Fixed parts *)

Definition generate_header : list string :=
  ["// Auto-generated Hasura v2 Style GraphQL types";
   "// DO NOT EDIT - This file is automatically generated";
   "";
   "use async_graphql::{SimpleObject, InputObject, Enum, Union, ID, Object};";
   "use chrono::{DateTime, Utc};";
   "use serde::{Deserialize, Serialize};";
   "use uuid::Uuid;";
   ""].

Definition generate_content_block_union : list string :=
  ["/// ContentBlock GraphQL Union Type";
   "#[derive(async_graphql::Union, Debug, Clone, Serialize, Deserialize)]";
   "#[serde(tag = " +:+ q "blockType" +:+ ")]";
   "pub enum ContentBlock {";
   "    #[serde(rename = " +:+ q "paragraph" +:+ ")]";
   "    Paragraph(ParagraphBlock),";
   "    #[serde(rename = " +:+ q "call_log" +:+ ")]";
   "    CallLog(CallLogBlock), ";
   "    #[serde(rename = " +:+ q "meeting_note" +:+ ")]";
   "    MeetingNote(MeetingNoteBlock),";
   "    #[serde(rename = " +:+ q "task" +:+ ")]";
   "    Task(TaskBlock),";
   "}";
   "";
   "/// Paragraph content block";
   "#[derive(Debug, Clone, Serialize, Deserialize, async_graphql::SimpleObject)]";
   "pub struct ParagraphBlock {";
   "    pub id: String,";
   "    pub content: String,";
   "    pub metadata: Option<serde_json::Value>,";
   "    pub order: i32,";
   "    pub is_visible: bool,";
   "}";
   "";
   "/// Call log content block";
   "#[derive(Debug, Clone, Serialize, Deserialize, async_graphql::SimpleObject)]";
   "pub struct CallLogBlock {";
   "    pub id: String,";
   "    pub caller: String,";
   "    pub duration: i32,";
   "    pub notes: Option<String>,";
   "    pub outcome: Option<String>,";
   "    pub recorded_at: DateTime<Utc>,";
   "    pub metadata: Option<serde_json::Value>,";
   "    pub order: i32,";
   "    pub is_visible: bool,";
   "}";
   "";
   "/// Meeting note content block";
   "#[derive(Debug, Clone, Serialize, Deserialize, async_graphql::SimpleObject)]";
   "pub struct MeetingNoteBlock {";
   "    pub id: String,";
   "    pub title: String,";
   "    pub agenda: Option<String>,";
   "    pub notes: String,";
   "    pub attendees: Vec<String>,";
   "    #[graphql(name = " +:+ q "actionItems" +:+ ")]";
   "    pub action_items: Vec<String>,";
   "    #[graphql(name = " +:+ q "meetingDate" +:+ ")]";
   "    pub meeting_time: DateTime<Utc>,";
   "    pub metadata: Option<serde_json::Value>,";
   "    pub order: i32,";
   "    pub is_visible: bool,";
   "}";
   "";
   "/// Task content block";
   "#[derive(Debug, Clone, Serialize, Deserialize, async_graphql::SimpleObject)]";
   "pub struct TaskBlock {";
   "    pub id: String,";
   "    pub title: String,";
   "    pub description: Option<String>,";
   "    #[graphql(name = " +:+ q "completed" +:+ ")]";
   "    pub is_completed: bool,";
   "    pub due_date: Option<DateTime<Utc>>,";
   "    pub assigned_to: Option<String>,";
   "    pub metadata: Option<serde_json::Value>,";
   "    pub order: i32,";
   "    pub is_visible: bool,";
   "}";
   "";
   "// Conversion from atomo_core::ContentBlock to GraphQL ContentBlock union";
   "impl ContentBlock {";
   "    pub fn from_core_block(core_block: &atomo_core::ContentBlock) -> Result<Self, Box<dyn std::error::Error>> {";
   "        let content: serde_json::Value = serde_json::from_str(&core_block.content)?;";
   "        ";
   "        // Use content metadata to determine the specific block type";
   "        let block_subtype = content.get(" +:+ q "blockType" +:+ ").and_then(|v| v.as_str()).unwrap_or(" +:+ q "text" +:+ ");";
   "        ";
   "        match block_subtype {";
   "            " +:+ q "paragraph" +:+ " => {";
   "                Ok(ContentBlock::Paragraph(ParagraphBlock {";
   "                    id: core_block.id.clone(),";
   "                    content: content.get(" +:+ q "content" +:+ ").and_then(|v| v.as_str()).unwrap_or(" +:+ dq +:+ dq +:+ ").to_string(),";
   "                    metadata: core_block.metadata.clone().map(|s| serde_json::from_str(&s).unwrap_or(serde_json::Value::Null)),";
   "                    order: core_block.order,";
   "                    is_visible: core_block.is_visible,";
   "                }))";
   "            },";
   "            " +:+ q "call_log" +:+ " => {";
   "                Ok(ContentBlock::CallLog(CallLogBlock {";
   "                    id: core_block.id.clone(),";
   "                    caller: content.get(" +:+ q "caller" +:+ ").and_then(|v| v.as_str()).unwrap_or(" +:+ dq +:+ dq +:+ ").to_string(),";
   "                    duration: content.get(" +:+ q "duration" +:+ ").and_then(|v| v.as_i64()).unwrap_or(0) as i32,";
   "                    notes: content.get(" +:+ q "notes" +:+ ").and_then(|v| v.as_str()).map(|s| s.to_string()),";
   "                    outcome: content.get(" +:+ q "outcome" +:+ ").and_then(|v| v.as_str()).map(|s| s.to_string()),";
   "                    recorded_at: chrono::Utc::now(), // TODO: Parse from content";
   "                    metadata: core_block.metadata.clone().map(|s| serde_json::from_str(&s).unwrap_or(serde_json::Value::Null)),";
   "                    order: core_block.order,";
   "                    is_visible: core_block.is_visible,";
   "                }))";
   "            },";
   "            " +:+ q "meeting_note" +:+ " => {";
   "                Ok(ContentBlock::MeetingNote(MeetingNoteBlock {";
   "                    id: core_block.id.clone(),";
   "                    title: content.get(" +:+ q "title" +:+ ").and_then(|v| v.as_str()).unwrap_or(" +:+ dq +:+ dq +:+ ").to_string(),";
   "                    agenda: content.get(" +:+ q "agenda" +:+ ").and_then(|v| v.as_str()).map(|s| s.to_string()),";
   "                    notes: content.get(" +:+ q "notes" +:+ ").and_then(|v| v.as_str()).unwrap_or(" +:+ dq +:+ dq +:+ ").to_string(),";
   "                    attendees: content.get(" +:+ q "attendees" +:+ ").and_then(|v| v.as_array())";
   "                        .map(|arr| arr.iter().filter_map(|v| v.as_str().map(|s| s.to_string())).collect())";
   "                        .unwrap_or_default(),";
   "                    action_items: content.get(" +:+ q "actionItems" +:+ ").and_then(|v| v.as_array())";
   "                        .map(|arr| arr.iter().filter_map(|v| v.as_str().map(|s| s.to_string())).collect())";
   "                        .unwrap_or_default(),";
   "                    meeting_time: chrono::Utc::now(), // TODO: Parse from content";
   "                    metadata: core_block.metadata.clone().map(|s| serde_json::from_str(&s).unwrap_or(serde_json::Value::Null)),";
   "                    order: core_block.order,";
   "                    is_visible: core_block.is_visible,";
   "                }))";
   "            },";
   "            " +:+ q "task" +:+ " => {";
   "                Ok(ContentBlock::Task(TaskBlock {";
   "                    id: core_block.id.clone(),";
   "                    title: content.get(" +:+ q "title" +:+ ").and_then(|v| v.as_str()).unwrap_or(" +:+ dq +:+ dq +:+ ").to_string(),";
   "                    description: content.get(" +:+ q "description" +:+ ").and_then(|v| v.as_str()).map(|s| s.to_string()),";
   "                    is_completed: content.get(" +:+ q "isCompleted" +:+ ").and_then(|v| v.as_bool()).unwrap_or(false),";
   "                    due_date: None, // TODO: Parse from content";
   "                    assigned_to: content.get(" +:+ q "assignedTo" +:+ ").and_then(|v| v.as_str()).map(|s| s.to_string()),";
   "                    metadata: core_block.metadata.clone().map(|s| serde_json::from_str(&s).unwrap_or(serde_json::Value::Null)),";
   "                    order: core_block.order,";
   "                    is_visible: core_block.is_visible,";
   "                }))";
   "            },";
   "            _ => {";
   "                // Default to paragraph for unknown types";
   "                Ok(ContentBlock::Paragraph(ParagraphBlock {";
   "                    id: core_block.id.clone(),";
   "                    content: content.get(" +:+ q "content" +:+ ").and_then(|v| v.as_str()).unwrap_or(" +:+ dq +:+ dq +:+ ").to_string(),";
   "                    metadata: core_block.metadata.clone().map(|s| serde_json::from_str(&s).unwrap_or(serde_json::Value::Null)),";
   "                    order: core_block.order,";
   "                    is_visible: core_block.is_visible,";
   "                }))";
   "            },";
   "        }";
   "    }";
   "    ";
   "    pub fn from_core_blocks(core_blocks: &[atomo_core::ContentBlock]) -> Result<Vec<Self>, Box<dyn std::error::Error>> {";
   "        core_blocks.iter().map(|block| Self::from_core_block(block)).collect()";
   "    }";
   "}";
   ""].

Definition generate_comparison_operators : list string :=
  ["/// Order by enum";
   "#[derive(Enum, Debug, Clone, Copy, PartialEq, Eq, Serialize, Deserialize)]";
   "pub enum OrderBy {";
   "    Asc,";
   "    AscNullsFirst,";
   "    AscNullsLast,";
   "    Desc,";
   "    DescNullsFirst,";
   "    DescNullsLast,";
   "}";
   "";
   "/// String comparison expression";
   "#[derive(InputObject, Debug, Clone, Serialize, Deserialize)]";
   "pub struct StringComparisonExp {";
   "    #[graphql(name = " +:+ q "_eq" +:+ ")]";
   "    pub _eq: Option<String>,";
   "    #[graphql(name = " +:+ q "_neq" +:+ ")]";
   "    pub _neq: Option<String>,";
   "    #[graphql(name = " +:+ q "_gt" +:+ ")]";
   "    pub _gt: Option<String>,";
   "    #[graphql(name = " +:+ q "_gte" +:+ ")]";
   "    pub _gte: Option<String>,";
   "    #[graphql(name = " +:+ q "_lt" +:+ ")]";
   "    pub _lt: Option<String>,";
   "    #[graphql(name = " +:+ q "_lte" +:+ ")]";
   "    pub _lte: Option<String>,";
   "    #[graphql(name = " +:+ q "_like" +:+ ")]";
   "    pub _like: Option<String>,";
   "    #[graphql(name = " +:+ q "_ilike" +:+ ")]";
   "    pub _ilike: Option<String>,";
   "    #[graphql(name = " +:+ q "_similar" +:+ ")]";
   "    pub _similar: Option<String>,";
   "    #[graphql(name = " +:+ q "_regex" +:+ ")]";
   "    pub _regex: Option<String>,";
   "    #[graphql(name = " +:+ q "_iregex" +:+ ")]";
   "    pub _iregex: Option<String>,";
   "    #[graphql(name = " +:+ q "_in" +:+ ")]";
   "    pub _in: Option<Vec<String>>,";
   "    #[graphql(name = " +:+ q "_nin" +:+ ")]";
   "    pub _nin: Option<Vec<String>>,";
   "    #[graphql(name = " +:+ q "_is_null" +:+ ")]";
   "    pub _is_null: Option<bool>,";
   "}";
   "";
   "/// Integer comparison expression";
   "#[derive(InputObject, Debug, Clone, Serialize, Deserialize)]";
   "pub struct IntComparisonExp {";
   "    #[graphql(name = " +:+ q "_eq" +:+ ")]";
   "    pub _eq: Option<i32>,";
   "    #[graphql(name = " +:+ q "_neq" +:+ ")]";
   "    pub _neq: Option<i32>,";
   "    #[graphql(name = " +:+ q "_gt" +:+ ")]";
   "    pub _gt: Option<i32>,";
   "    #[graphql(name = " +:+ q "_gte" +:+ ")]";
   "    pub _gte: Option<i32>,";
   "    #[graphql(name = " +:+ q "_lt" +:+ ")]";
   "    pub _lt: Option<i32>,";
   "    #[graphql(name = " +:+ q "_lte" +:+ ")]";
   "    pub _lte: Option<i32>,";
   "    #[graphql(name = " +:+ q "_in" +:+ ")]";
   "    pub _in: Option<Vec<i32>>,";
   "    #[graphql(name = " +:+ q "_nin" +:+ ")]";
   "    pub _nin: Option<Vec<i32>>,";
   "    #[graphql(name = " +:+ q "_is_null" +:+ ")]";
   "    pub _is_null: Option<bool>,";
   "}";
   "";
   "/// Float comparison expression";
   "#[derive(InputObject, Debug, Clone, Serialize, Deserialize)]";
   "pub struct FloatComparisonExp {";
   "    #[graphql(name = " +:+ q "_eq" +:+ ")]";
   "    pub _eq: Option<f64>,";
   "    #[graphql(name = " +:+ q "_neq" +:+ ")]";
   "    pub _neq: Option<f64>,";
   "    #[graphql(name = " +:+ q "_gt" +:+ ")]";
   "    pub _gt: Option<f64>,";
   "    #[graphql(name = " +:+ q "_gte" +:+ ")]";
   "    pub _gte: Option<f64>,";
   "    #[graphql(name = " +:+ q "_lt" +:+ ")]";
   "    pub _lt: Option<f64>,";
   "    #[graphql(name = " +:+ q "_lte" +:+ ")]";
   "    pub _lte: Option<f64>,";
   "    #[graphql(name = " +:+ q "_in" +:+ ")]";
   "    pub _in: Option<Vec<f64>>,";
   "    #[graphql(name = " +:+ q "_nin" +:+ ")]";
   "    pub _nin: Option<Vec<f64>>,";
   "    #[graphql(name = " +:+ q "_is_null" +:+ ")]";
   "    pub _is_null: Option<bool>,";
   "}";
   "";
   "/// Boolean comparison expression";
   "#[derive(InputObject, Debug, Clone, Serialize, Deserialize)]";
   "pub struct BooleanComparisonExp {";
   "    #[graphql(name = " +:+ q "_eq" +:+ ")]";
   "    pub _eq: Option<bool>,";
   "    #[graphql(name = " +:+ q "_neq" +:+ ")]";
   "    pub _neq: Option<bool>,";
   "    #[graphql(name = " +:+ q "_is_null" +:+ ")]";
   "    pub _is_null: Option<bool>,";
   "}";
   "";
   "/// DateTime comparison expression";
   "#[derive(InputObject, Debug, Clone, Serialize, Deserialize)]";
   "pub struct DateTimeComparisonExp {";
   "    #[graphql(name = " +:+ q "_eq" +:+ ")]";
   "    pub _eq: Option<DateTime<Utc>>,";
   "    #[graphql(name = " +:+ q "_neq" +:+ ")]";
   "    pub _neq: Option<DateTime<Utc>>,";
   "    #[graphql(name = " +:+ q "_gt" +:+ ")]";
   "    pub _gt: Option<DateTime<Utc>>,";
   "    #[graphql(name = " +:+ q "_gte" +:+ ")]";
   "    pub _gte: Option<DateTime<Utc>>,";
   "    #[graphql(name = " +:+ q "_lt" +:+ ")]";
   "    pub _lt: Option<DateTime<Utc>>,";
   "    #[graphql(name = " +:+ q "_lte" +:+ ")]";
   "    pub _lte: Option<DateTime<Utc>>,";
   "    #[graphql(name = " +:+ q "_in" +:+ ")]";
   "    pub _in: Option<Vec<DateTime<Utc>>>,";
   "    #[graphql(name = " +:+ q "_nin" +:+ ")]";
   "    pub _nin: Option<Vec<DateTime<Utc>>>,";
   "    #[graphql(name = " +:+ q "_is_null" +:+ ")]";
   "    pub _is_null: Option<bool>,";
   "}";
   "";
   "/// ID comparison expression";
   "#[derive(InputObject, Debug, Clone)]";
   "pub struct IdComparisonExp {";
   "    #[graphql(name = " +:+ q "_eq" +:+ ")]";
   "    pub _eq: Option<ID>,";
   "    #[graphql(name = " +:+ q "_neq" +:+ ")]";
   "    pub _neq: Option<ID>,";
   "    #[graphql(name = " +:+ q "_in" +:+ ")]";
   "    pub _in: Option<Vec<ID>>,";
   "    #[graphql(name = " +:+ q "_nin" +:+ ")]";
   "    pub _nin: Option<Vec<ID>>,";
   "    #[graphql(name = " +:+ q "_is_null" +:+ ")]";
   "    pub _is_null: Option<bool>,";
   "}";
   "";
   "/// Numeric comparison expression (unified for all numeric types)";
   "#[derive(InputObject, Debug, Clone, Serialize, Deserialize)]";
   "pub struct NumericComparisonExp {";
   "    #[graphql(name = " +:+ q "_eq" +:+ ")]";
   "    pub _eq: Option<f64>,";
   "    #[graphql(name = " +:+ q "_neq" +:+ ")]";
   "    pub _neq: Option<f64>,";
   "    #[graphql(name = " +:+ q "_gt" +:+ ")]";
   "    pub _gt: Option<f64>,";
   "    #[graphql(name = " +:+ q "_gte" +:+ ")]";
   "    pub _gte: Option<f64>,";
   "    #[graphql(name = " +:+ q "_lt" +:+ ")]";
   "    pub _lt: Option<f64>,";
   "    #[graphql(name = " +:+ q "_lte" +:+ ")]";
   "    pub _lte: Option<f64>,";
   "    #[graphql(name = " +:+ q "_in" +:+ ")]";
   "    pub _in: Option<Vec<f64>>,";
   "    #[graphql(name = " +:+ q "_nin" +:+ ")]";
   "    pub _nin: Option<Vec<f64>>,";
   "    #[graphql(name = " +:+ q "_is_null" +:+ ")]";
   "    pub _is_null: Option<bool>,";
   "}";
   "";
   "/// Generic comparison expression (for flexible types)";
   "#[derive(InputObject, Debug, Clone, Serialize, Deserialize)]";
   "pub struct GenericComparisonExp {";
   "    #[graphql(name = " +:+ q "_eq" +:+ ")]";
   "    pub _eq: Option<String>,";
   "    #[graphql(name = " +:+ q "_neq" +:+ ")]";
   "    pub _neq: Option<String>,";
   "    #[graphql(name = " +:+ q "_in" +:+ ")]";
   "    pub _in: Option<Vec<String>>,";
   "    #[graphql(name = " +:+ q "_nin" +:+ ")]";
   "    pub _nin: Option<Vec<String>>,";
   "    #[graphql(name = " +:+ q "_is_null" +:+ ")]";
   "    pub _is_null: Option<bool>,";
   "}";
   ""].

(** ** The types of one model *)

(** [fields.join] of lines *)
Definition joined (l : list string) : string := String.concat ("," +:+ eol) l.
(** The text around the fields: a comment, what is derived, and the declaration *)
Definition rust_item (comment derived header fields_str : string) : string :=
  unlines [comment; derived; header] +:+ fields_str +:+ "," +:+ eol +:+ "}" +:+ eol +:+ eol.
Definition pub_field (ident type : string) : string := "    pub " +:+ ident +:+ ": " +:+ type.
Definition placeholder : list string := ["    pub _placeholder: Option<String>"].

Section Model.
Context {ho : HashOrder}.

Definition enum_values (m : Model) : list string :=
  let values := (fun p => f_name p.2) <$> filter (fun p => String.prefix "_enum_value_" p.1 = true) (hpairs (m_fields m)) in
  match values with [] => ["VALUE1"; "VALUE2"; "VALUE3"] | _ => values end.
Definition variant_lines (values : list string) : list string :=
  match values with
  | [] => []
  | first :: rest => "    #[default]" :: ("    " +:+ first +:+ ",") :: ((fun v => "    " +:+ v +:+ ",") <$> rest)
  end.
Definition generate_enum_type (m : Model) : string :=
  let name := m_name m in
  let values := enum_values m in
  unlines
    ["/// " +:+ name +:+ " enumeration";
     "#[derive(Debug, Clone, PartialEq, Eq, Serialize, Deserialize, async_graphql::Enum, Copy, Default)]";
     "pub enum " +:+ name +:+ " {"] +:+
  unlines (variant_lines values) +:+ unlines ["}"; ""] +:+
  unlines
    ["impl std::fmt::Display for " +:+ name +:+ " {";
     "    fn fmt(&self, f: &mut std::fmt::Formatter<'_>) -> std::fmt::Result {";
     "        let s = match self {"] +:+
  unlines ((fun v => "            Self::" +:+ v +:+ " => " +:+ q v +:+ ",") <$> values) +:+
  unlines ["        };"; "        write!(f, " +:+ q "{}" +:+ ", s)"; "    }"; "}"; ""] +:+
  unlines
    ["impl std::str::FromStr for " +:+ name +:+ " {";
     "    type Err = String;";
     "    ";
     "    fn from_str(s: &str) -> Result<Self, Self::Err> {";
     "        match s {"] +:+
  unlines ((fun v => "            " +:+ q v +:+ " => Ok(Self::" +:+ v +:+ "),") <$> values) +:+
  unlines
    ["            _ => Err(format!(" +:+ q ("Invalid " +:+ name +:+ ": {}") +:+ ", s)),"; "        }"; "    }"; "}"; ""] +:+
  unlines
    ["impl sqlx::Type<sqlx::Postgres> for " +:+ name +:+ " {";
     "    fn type_info() -> sqlx::postgres::PgTypeInfo {";
     "        sqlx::postgres::PgTypeInfo::with_name(" +:+ q "text" +:+ ")";
     "    }"; "}"; ""] +:+
  unlines
    ["impl<'r> sqlx::Decode<'r, sqlx::Postgres> for " +:+ name +:+ " {";
     "    fn decode(value: sqlx::postgres::PgValueRef<'r>) -> Result<Self, sqlx::error::BoxDynError> {";
     "        let s = <&str as sqlx::Decode<sqlx::Postgres>>::decode(value)?;";
     "        s.parse().map_err(|e| Box::new(std::io::Error::new(std::io::ErrorKind::InvalidData, e)) as Box<dyn std::error::Error + Send + Sync>)";
     "    }"; "}"; ""] +:+
  unlines
    ["impl<'q> sqlx::Encode<'q, sqlx::Postgres> for " +:+ name +:+ " {";
     "    fn encode_by_ref(&self, buf: &mut sqlx::postgres::PgArgumentBuffer) -> sqlx::encode::IsNull {";
     "        <String as sqlx::Encode<'q, sqlx::Postgres>>::encode_by_ref(&self.to_string(), buf)";
     "    }"; "}"; ""].

Definition generate_model_type (m : Model) : string :=
  rust_item ("/// " +:+ m_name m +:+ " entity") "#[derive(SimpleObject, Debug, Clone)]" ("pub struct " +:+ m_name m +:+ " {")
    (joined ((fun '(name, field) => pub_field (safe_ident name) (convert_field_type (f_type field) (f_optional field))) <$> hpairs (m_fields m))).

(** How a column of a row becomes a field of a model *)
Inductive Conversion : Type :=
  | ParseNumber        (* [.to_string().parse::<f64>().unwrap_or(0.0)] *)
  | ParseNumbers       (* the same under [map] *)
  | FromJson           (* [serde_json::from_value(..).unwrap_or_default()] *)
  | FromJsons          (* the same, of what is there *)
  | ParseText          (* [.parse().unwrap_or_default()] *)
  | ParseTexts         (* the same under [map] *)
  | Moved.             (* as it is *)
Definition conversion (field : Field) : Conversion :=
  match f_type field with
  | FNumber => if f_optional field then ParseNumbers else ParseNumber
  | FBlocks | FArray _ => if f_optional field then FromJsons else FromJson
  | FCustom _ => if f_optional field then ParseTexts else ParseText
  | _ => Moved
  end.
Definition conversion_text (ident db_ident : string) (c : Conversion) : string :=
  "            " +:+ ident +:+ ": " +:+
  match c with
  | ParseNumbers => "row." +:+ db_ident +:+ ".map(|v| v.to_string().parse::<f64>().unwrap_or(0.0))"
  | ParseNumber => "row." +:+ db_ident +:+ ".to_string().parse::<f64>().unwrap_or(0.0)"
  | FromJsons => "row." +:+ db_ident +:+ ".as_ref().and_then(|v| serde_json::from_value(v.clone()).ok()).unwrap_or_default()"
  | FromJson => "serde_json::from_value(row." +:+ db_ident +:+ ").unwrap_or_default()"
  | ParseTexts => "row." +:+ db_ident +:+ ".map(|s| s.parse().unwrap_or_default())"
  | ParseText => "row." +:+ db_ident +:+ ".parse().unwrap_or_default()"
  | Moved => "row." +:+ db_ident
  end.
Definition generate_row_type (m : Model) : string :=
  let name := m_name m in
  rust_item ("/// Database row type for " +:+ name) "#[derive(sqlx::FromRow, Debug, Clone)]" ("pub struct " +:+ name +:+ "Row {")
    (joined ((fun '(n, field) =>
       pub_field (safe_ident (camel_to_snake_case n)) (convert_field_type_for_db (f_type field) (f_optional field))) <$> hpairs (m_fields m))) +:+
  unlines
    ["impl From<" +:+ name +:+ "Row> for " +:+ name +:+ " {";
     "    fn from(row: " +:+ name +:+ "Row) -> Self {";
     "        Self {"] +:+
  joined ((fun '(n, field) =>
    conversion_text (safe_ident n) (safe_ident (camel_to_snake_case n)) (conversion field)) <$> hpairs (m_fields m)) +:+ "," +:+ eol +:+
  unlines ["        }"; "    }"; "}"; ""].

(** Fields under their name in the database; the other name is given to GraphQL. *)
Definition renamed_field (name type : string) : string :=
  let snake := camel_to_snake_case name in
  (if decide (snake = name) then "" else "    #[graphql(name = " +:+ q name +:+ ")]" +:+ eol) +:+
  pub_field (safe_ident snake) ("Option<" +:+ type +:+ ">").
Definition generate_bool_exp_type (m : Model) : string :=
  let name := m_name m in
  rust_item ("/// Boolean expression for filtering " +:+ name) "#[derive(InputObject, Debug, Clone, Serialize, Deserialize)]" ("pub struct " +:+ name +:+ "BoolExp {")
    (joined
      (["    #[graphql(name = " +:+ q "_and" +:+ ")]" +:+ eol +:+ "    pub and: Option<Vec<" +:+ name +:+ "BoolExp>>";
        "    #[graphql(name = " +:+ q "_or" +:+ ")]" +:+ eol +:+ "    pub or: Option<Vec<" +:+ name +:+ "BoolExp>>";
        "    #[graphql(name = " +:+ q "_not" +:+ ")]" +:+ eol +:+ "    pub not: Option<Box<" +:+ name +:+ "BoolExp>>"] ++
       ((fun '(n, field) => renamed_field n (get_field_comparison_type (f_type field))) <$> hpairs (m_fields m)))%list).
Definition generate_order_by_type (m : Model) : string :=
  rust_item ("/// Order by input for " +:+ m_name m) "#[derive(InputObject, Debug, Clone, Serialize, Deserialize)]" ("pub struct " +:+ m_name m +:+ "OrderBy {")
    (joined ((fun n => renamed_field n "OrderBy") <$> (hpairs (m_fields m)).*1)).
Definition generate_select_column_type (m : Model) : string :=
  rust_item ("/// Select columns for " +:+ m_name m) "#[derive(Enum, Debug, Clone, Copy, PartialEq, Eq)]" ("pub enum " +:+ m_name m +:+ "SelectColumn {")
    ("    " +:+ String.concat ("," +:+ eol +:+ "    ") ((fun n => safe_ident (camel_to_snake_case n)) <$> (hpairs (m_fields m)).*1)).

(** The fields of an input: all but some that are filled in *)
Definition input_fields_without (skipped : list string) (m : Model) : list string :=
  (fun p => pub_field (safe_ident (camel_to_snake_case p.1)) ("Option<" +:+ convert_field_type_for_input (f_type p.2) false +:+ ">")) <$>
  filter (fun p => p.1 ∉ skipped) (hpairs (m_fields m)).
Definition generate_insert_input_type (m : Model) : string :=
  rust_item ("/// Insert input for " +:+ m_name m) "#[derive(InputObject, Debug, Clone)]" ("pub struct " +:+ m_name m +:+ "InsertInput {")
    (joined (input_fields_without ["id"; "createdAt"; "updatedAt"] m)).
Definition generate_set_input_type (m : Model) : string :=
  rust_item ("/// Set input for updating " +:+ m_name m) "#[derive(InputObject, Debug, Clone)]" ("pub struct " +:+ m_name m +:+ "SetInput {")
    (joined (input_fields_without ["id"; "createdAt"] m)).
Definition generate_inc_input_type (m : Model) : string :=
  let fields := (fun p => pub_field p.1 "Option<i32>") <$> filter (fun p => f_type p.2 = FNumber) (hpairs (m_fields m)) in
  rust_item ("/// Inc input for " +:+ m_name m) "#[derive(InputObject, Debug, Clone)]" ("pub struct " +:+ m_name m +:+ "IncInput {")
    (joined match fields with [] => placeholder | _ => fields end).

(** The types without fields of their own *)
Definition placeholder_input (what suffix : string) (m : Model) : string :=
  rust_item ("/// " +:+ what +:+ " input for " +:+ m_name m) "#[derive(InputObject, Debug, Clone)]" ("pub struct " +:+ m_name m +:+ suffix +:+ " {") (joined placeholder).
Definition generate_append_input_type : Model -> string := placeholder_input "Append" "AppendInput".
Definition generate_prepend_input_type : Model -> string := placeholder_input "Prepend" "PrependInput".
Definition generate_delete_key_input_type : Model -> string := placeholder_input "Delete key" "DeleteKeyInput".
Definition generate_delete_elem_input_type : Model -> string := placeholder_input "Delete elem" "DeleteElemInput".
Definition generate_delete_at_path_input_type : Model -> string := placeholder_input "Delete at path" "DeleteAtPathInput".
Definition generate_pk_columns_input_type (m : Model) : string :=
  rust_item ("/// Primary key columns input for " +:+ m_name m) "#[derive(InputObject, Debug, Clone)]" ("pub struct " +:+ m_name m +:+ "PkColumnsInput {")
    (pub_field "id" "ID").
Definition generate_on_conflict_type (m : Model) : string :=
  let name := m_name m in
  rust_item ("/// On conflict input for " +:+ name) "#[derive(InputObject, Debug, Clone)]" ("pub struct " +:+ name +:+ "OnConflict {")
    (joined [pub_field "constraint" (name +:+ "Constraint"); pub_field "update_columns" ("Vec<" +:+ name +:+ "UpdateColumn>");
             pub_field "where_" ("Option<" +:+ name +:+ "BoolExp>")]) +:+
  rust_item ("/// Constraint enum for " +:+ name) "#[derive(Enum, Debug, Clone, Copy, PartialEq, Eq)]" ("pub enum " +:+ name +:+ "Constraint {")
    ("    " +:+ name +:+ "Pkey") +:+
  rust_item ("/// Update column enum for " +:+ name) "#[derive(Enum, Debug, Clone, Copy, PartialEq, Eq)]" ("pub enum " +:+ name +:+ "UpdateColumn {")
    ("    // Add update columns based on fields" +:+ eol +:+ joined ["    Id"; "    CreatedAt"; "    UpdatedAt"]).
Definition generate_mutation_response_type (m : Model) : string :=
  rust_item ("/// Mutation response for " +:+ m_name m) "#[derive(SimpleObject, Debug, Clone)]" ("pub struct " +:+ m_name m +:+ "MutationResponse {")
    (joined [pub_field "affected_rows" "i32"; pub_field "returning" ("Vec<" +:+ m_name m +:+ ">")]).
Definition generate_aggregate_type (m : Model) : string :=
  rust_item ("/// " +:+ m_name m +:+ " aggregate type") "#[derive(SimpleObject, Clone, Debug)]" ("pub struct " +:+ m_name m +:+ "Aggregate {")
    (joined [pub_field "aggregate" ("Option<" +:+ m_name m +:+ "AggregateFields>"); pub_field "nodes" ("Vec<" +:+ m_name m +:+ ">")]).
Definition generate_aggregate_fields_type (m : Model) : string :=
  rust_item ("/// " +:+ m_name m +:+ " aggregate fields type") "#[derive(SimpleObject, Clone, Debug)]" ("pub struct " +:+ m_name m +:+ "AggregateFields {")
    (pub_field "count" "Option<i32>").

(** ** The module *)

(** Enums are there already, and blocks are taken from the core crate. *)
Definition skipped (m : Model) : bool := is_enum m || ends_with "Block" (m_name m).
Definition generate_family (m : Model) : string :=
  generate_model_type m +:+ generate_row_type m +:+ generate_bool_exp_type m +:+ generate_order_by_type m +:+
  generate_select_column_type m +:+ generate_aggregate_type m +:+ generate_aggregate_fields_type m +:+
  generate_insert_input_type m +:+ generate_set_input_type m +:+ generate_inc_input_type m +:+
  generate_append_input_type m +:+ generate_prepend_input_type m +:+ generate_delete_key_input_type m +:+
  generate_delete_elem_input_type m +:+ generate_delete_at_path_input_type m +:+ generate_pk_columns_input_type m +:+
  generate_on_conflict_type m +:+ generate_mutation_response_type m.
Definition generate_types (models : list Model) : string :=
  unlines generate_header +:+ unlines generate_content_block_union +:+
  each generate_enum_type (filter (fun m => is_enum m = true) models) +:+
  each generate_family (filter (fun m => skipped m = false) models) +:+
  unlines generate_comparison_operators.
End Model.
