(* ===== verification/TypeGenSpec.v ===== *)
(** * What the generated Rust types are

    The module reads back, with the reader of [CodegenSpec], as exactly the structures and
    enums meant for each model.  The conversion from a row is then checked against Rust's
    typing: which fields it can be compiled for. *)

From S2P Require Import Prelude Json SchemaTypes SqlBuilder Scan SchemaDsl InterfaceParser CliMigrate CliMigrateSpec Codegen CodegenSpec SdlSpec TypeGen.

#[local] Open Scope string_scope.

(** ** The declarations of a module *)

Inductive RustItem : Type :=
  | Struct (name : string) (fields : list (string * string))
  | Enumeration (name : string) (variants : list string).
Definition rust_field (l : string) : option (string * string) :=
  rest ← strip_prefix "    pub " l;
  '(ident, type) ← split_once colon_c rest;
  type ← strip_prefix " " type;
  type ← strip_suffix "," type;
  Some (ident, type).
Definition rust_variant (l : string) : option string := strip_prefix "    " (trim_end l) ≫= strip_suffix ",".
Definition rust_declaration (it : Item) : option RustItem :=
  match it with
  | Block header body =>
      match strip_prefix "pub struct " header with
      | Some rest => (fun name => Struct name (omap rust_field body)) <$> strip_suffix " {" rest
      | None => (fun name => Enumeration name (omap rust_variant body)) <$> (strip_prefix "pub enum " header ≫= strip_suffix " {")
      end
  | Single _ => None
  end.

(** ** Reading the items *)

(** A field with the attribute lines before it *)
Record Entry : Type := mkEntry { en_attributes : list string; en_line : string }.
Definition entry_text (e : Entry) : string := unlines (en_attributes e) +:+ en_line e.
Definition entry_lines (e : Entry) : list string := (en_attributes e ++ [en_line e +:+ ","])%list.
Definition entries_lines (es : list Entry) : list string := match es with [] => [","] | _ => es ≫= entry_lines end.

Lemma joined_lines es : joined (entry_text <$> es) +:+ "," +:+ eol = unlines (entries_lines es).
Proof.
  unfold joined. destruct es as [|e es]; [done|]. cbn [entries_lines]. revert e.
  induction es as [|e' es IH]; intros e.
  - cbn [fmap list_fmap String.concat mbind list_bind]. rewrite app_nil_r. unfold entry_text, entry_lines.
    by rewrite unlines_app, unlines_one, !str_app_assoc.
  - rewrite bind_cons, unlines_app, <-IH. cbn [fmap list_fmap].
    change (String.concat ("," +:+ eol) (entry_text e :: entry_text e' :: (entry_text <$> es))) with
      (entry_text e +:+ ("," +:+ eol) +:+ String.concat ("," +:+ eol) (entry_text e' :: (entry_text <$> es))).
    unfold entry_text at 1, entry_lines at 1. by rewrite unlines_app, unlines_one, !str_app_assoc.
Qed.

Lemma unlines_step l ls : unlines (l :: ls) = l +:+ eol +:+ unlines ls.
Proof. rewrite unlines_cons. unfold eol. by rewrite str_app_cons, str_app_nil. Qed.

(** A line inside a block *)
Definition inner_line (l : string) : Prop := one_line l /\ l <> "}".
Definition comment_text (l : string) : Prop := one_line l /\ l <> "" /\ ends_with "{" l = false.

Lemma shows_comment (l : string) : comment_text l -> shows rust_declaration (l +:+ eol) [].
Proof. intros (H1 & H2 & H3). exact (shows_single rust_declaration l H1 H2 H3). Qed.
Lemma shows_rust_block header body : one_line header -> header <> "" -> ends_with "{" header = true -> Forall inner_line body ->
  shows rust_declaration (header +:+ eol +:+ unlines body +:+ "}" +:+ eol +:+ eol) (omap rust_declaration [Block header body]).
Proof.
  intros H1 H2 H3 Hb. pose proof (shows_spaced _ _ _ (shows_block rust_declaration header body H1 H2 H3 Hb)) as Hs.
  rewrite !str_app_assoc in Hs. exact Hs.
Qed.
Lemma header_ok keyword name : one_line keyword -> one_line name -> keyword <> "" ->
  one_line (keyword +:+ name +:+ " {") /\ keyword +:+ name +:+ " {" <> "" /\ ends_with "{" (keyword +:+ name +:+ " {") = true.
Proof.
  intros Hk Hn Hne. split_and!; [rewrite !one_line_app; by split_and!|by destruct keyword|].
  replace (keyword +:+ name +:+ " {") with ((keyword +:+ name +:+ " ") +:+ "{") by (by rewrite !str_app_assoc). apply ends_with_app.
Qed.
Lemma shows_item comment derived keyword name body :
  comment_text comment -> comment_text derived -> one_line keyword -> one_line name -> keyword <> "" -> Forall inner_line body ->
  shows rust_declaration
    (unlines [comment; derived; keyword +:+ name +:+ " {"] +:+ unlines body +:+ "}" +:+ eol +:+ eol)
    (omap rust_declaration [Block (keyword +:+ name +:+ " {") body]).
Proof.
  intros Hc Hd Hk Hn Hne Hb. destruct (header_ok keyword name Hk Hn Hne) as (H1 & H2 & H3).
  pose proof (shows_app _ _ _ [] _ (shows_comment _ Hc) (shows_app _ _ _ [] _ (shows_comment _ Hd) (shows_rust_block _ _ H1 H2 H3 Hb))) as Hs.
  rewrite !str_app_assoc in Hs. rewrite 2!unlines_step, unlines_one, !str_app_assoc. exact Hs.
Qed.
Lemma shows_struct comment derived name fields_text body :
  comment_text comment -> comment_text derived -> one_line name -> Forall inner_line body ->
  fields_text +:+ "," +:+ eol = unlines body ->
  shows rust_declaration (rust_item comment derived ("pub struct " +:+ name +:+ " {") fields_text) [Struct name (omap rust_field body)].
Proof.
  intros Hc Hd Hn Hb Ht. pose proof (shows_item comment derived "pub struct " name body Hc Hd ltac:(literal) Hn ltac:(done) Hb) as Hs.
  cbn [omap list_omap rust_declaration] in Hs. rewrite strip_prefix_app, strip_suffix_app in Hs. cbn [fmap option_fmap option_map] in Hs.
  rewrite <-Ht, !str_app_assoc in Hs. exact Hs.
Qed.
Lemma shows_enumeration comment derived name fields_text body :
  comment_text comment -> comment_text derived -> one_line name -> Forall inner_line body ->
  fields_text +:+ "," +:+ eol = unlines body ->
  shows rust_declaration (rust_item comment derived ("pub enum " +:+ name +:+ " {") fields_text) [Enumeration name (omap rust_variant body)].
Proof.
  intros Hc Hd Hn Hb Ht. pose proof (shows_item comment derived "pub enum " name body Hc Hd ltac:(literal) Hn ltac:(done) Hb) as Hs.
  cbn [omap list_omap rust_declaration] in Hs. change (strip_prefix "pub struct " ("pub enum " +:+ name +:+ " {")) with (@None string) in Hs.
  cbn [fmap option_fmap option_map] in Hs.
  rewrite strip_prefix_app in Hs. cbn [mbind option_bind] in Hs. rewrite strip_suffix_app in Hs. cbn [fmap option_fmap option_map] in Hs.
  rewrite <-Ht, !str_app_assoc in Hs. exact Hs.
Qed.

(** A field: the attributes before it, its identifier and its type *)
Record Slot : Type := mkSlot { sl_attributes : list string; sl_ident : string; sl_type : string }.
Definition slot_text (s : Slot) : string := unlines (sl_attributes s) +:+ pub_field (sl_ident s) (sl_type s).
Definition slot_entry (s : Slot) : Entry := mkEntry (sl_attributes s) (pub_field (sl_ident s) (sl_type s)).
Definition good_slot (s : Slot) : Prop :=
  one_line (sl_ident s) /\ has_char colon_c (sl_ident s) = false /\ one_line (sl_type s) /\
  Forall (fun a => inner_line a /\ rust_field a = None) (sl_attributes s).

Lemma rust_field_line ident type : has_char colon_c ident = false -> rust_field (pub_field ident type +:+ ",") = Some (ident, type).
Proof.
  intros Hc. unfold rust_field, pub_field. rewrite !str_app_assoc, strip_prefix_app. cbn [mbind option_bind].
  change (": " +:+ type +:+ ",") with (String colon_c (" " +:+ type +:+ ",")). rewrite split_once_app by done.
  cbn [mbind option_bind]. rewrite strip_prefix_app. cbn [mbind option_bind]. by rewrite strip_suffix_app.
Qed.
Lemma omap_none {A B} (f : A -> option B) (l : list A) : Forall (fun x => f x = None) l -> omap f l = [].
Proof. induction 1 as [|x l Hx Hl IH]; [done|]. cbn. by rewrite Hx. Qed.
Lemma slots_read slots : Forall good_slot slots ->
  omap rust_field (entries_lines (slot_entry <$> slots)) = (fun s => (sl_ident s, sl_type s)) <$> slots /\
  Forall inner_line (entries_lines (slot_entry <$> slots)).
Proof.
  intros Hs. assert (Hb : omap rust_field ((slot_entry <$> slots) ≫= entry_lines) = (fun s => (sl_ident s, sl_type s)) <$> slots /\
    Forall inner_line ((slot_entry <$> slots) ≫= entry_lines)).
  { induction Hs as [|s slots (Hi & Hc & Ht & Ha) Hs [IH1 IH2]]; [done|]. rewrite !fmap_cons, !bind_cons. split.
    - rewrite omap_app. unfold entry_lines at 1. cbn [slot_entry en_attributes en_line]. rewrite omap_app, omap_none.
      + cbn [omap list_omap]. rewrite rust_field_line by done. cbn [app]. by rewrite IH1.
      + eapply Forall_impl; [exact Ha|by intros ? []].
    - apply Forall_app. split; [|done]. apply Forall_app. split; [eapply Forall_impl; [exact Ha|by intros ? []]|].
      apply Forall_cons. split; [|by apply Forall_nil_2]. cbn [slot_entry en_line]. unfold pub_field. split; [rewrite !one_line_app; by split_and!|done]. }
  destruct slots as [|s slots]; [split; [done|by repeat constructor]|exact Hb].
Qed.
Lemma shows_slots comment derived name slots :
  comment_text comment -> comment_text derived -> one_line name -> Forall good_slot slots ->
  shows rust_declaration (rust_item comment derived ("pub struct " +:+ name +:+ " {") (joined (slot_text <$> slots)))
    [Struct name ((fun s => (sl_ident s, sl_type s)) <$> slots)].
Proof.
  intros Hc Hd Hn Hs. destruct (slots_read slots Hs) as [<- Hl].
  apply shows_struct; [done..|]. rewrite <-joined_lines, <-list_fmap_compose. done.
Qed.
(** Variants *)
Lemma rust_variant_line v : rust_variant ("    " +:+ v +:+ ",") = Some v.
Proof.
  unfold rust_variant. replace (trim_end _) with ("    " +:+ v +:+ ","); [rewrite strip_prefix_app; apply strip_suffix_app|].
  rewrite <-str_app_assoc. symmetry. by apply trim_end_last.
Qed.
Lemma joined_plain (l : list string) x : joined (x :: l) +:+ "," +:+ eol = unlines ((fun s => s +:+ ",") <$> (x :: l)).
Proof.
  unfold joined. revert x. induction l as [|y l IH]; intros x.
  - cbn [fmap list_fmap String.concat]. by rewrite unlines_one, str_app_assoc.
  - rewrite fmap_cons, unlines_step, <-IH.
    change (String.concat ("," +:+ eol) (x :: y :: l)) with (x +:+ ("," +:+ eol) +:+ String.concat ("," +:+ eol) (y :: l)).
    by rewrite !str_app_assoc.
Qed.
Lemma variants_read (vs : list string) : omap rust_variant ((fun s => s +:+ ",") <$> ((fun x => "    " +:+ x) <$> vs)) = vs.
Proof.
  induction vs as [|x l IH]; [done|]. rewrite !fmap_cons. cbn [omap list_omap].
  rewrite str_app_assoc, rust_variant_line. by rewrite IH.
Qed.
Lemma shows_variants comment derived name v vs :
  comment_text comment -> comment_text derived -> one_line name -> Forall one_line (v :: vs) ->
  shows rust_declaration (rust_item comment derived ("pub enum " +:+ name +:+ " {") (joined ((fun x => "    " +:+ x) <$> (v :: vs))))
    [Enumeration name (v :: vs)].
Proof.
  intros Hc Hd Hn Hv.
  pose proof (variants_read (v :: vs)) as Hr.
  rewrite <-Hr at 2. apply shows_enumeration; [done..| |apply joined_plain].
  apply Forall_fmap, Forall_fmap. eapply Forall_impl; [exact Hv|]. intros x Hx. split; [|done]. cbn. rewrite !one_line_app. by split_and!.
Qed.

(** ** Names and types on one line *)

Lemma identifier_lower a : name_char a = true -> name_char (ascii_lower a) = true.
Proof. destruct a as [[] [] [] [] [] [] [] []]; by vm_compute. Qed.
Lemma identifier_snake b s : identifier s = true -> identifier (snake_from b s) = true.
Proof.
  revert b. induction s as [|a s IH]; intros b; [done|]. cbn [identifier snake_from]. intros [Ha Hs]%andb_prop.
  rewrite identifier_app. cbn [identifier]. rewrite identifier_lower, IH by done. by destruct (is_uppercase a && b).
Qed.
Definition rust_name (s : string) : Prop := one_line s /\ has_char colon_c s = false.
Lemma safe_ident_name s : identifier s = true -> rust_name (safe_ident s).
Proof.
  intros Hs. unfold safe_ident. destruct (decide _).
  - split; [apply one_line_app; split; [literal|by apply identifier_line]|].
    rewrite has_char_app. apply orb_false_iff. split; [done|by apply identifier_free].
  - split; [by apply identifier_line|by apply identifier_free].
Qed.
Lemma in_option_line b s : one_line s -> one_line (in_option b s).
Proof. intros Hs. destruct b; [|done]. unfold in_option. rewrite !one_line_app. by split_and!. Qed.
Lemma vec_line s : one_line s -> one_line ("Vec<" +:+ s +:+ ">").
Proof. intros Hs. rewrite !one_line_app. by split_and!. Qed.
Lemma field_type_line t o : named_type t -> one_line (convert_field_type t o).
Proof.
  revert o. induction t as [| | | | | | |n|t IH| | |n]; intros o Ht; cbn [convert_field_type]; apply in_option_line; try literal;
    try (by apply identifier_line).
  destruct t; try (apply vec_line, IH; exact Ht). repeat case_decide; try literal. case_match; [literal|]. apply vec_line, IH, Ht.
Qed.
Lemma input_type_line t o : named_type t -> one_line (convert_field_type_for_input t o).
Proof.
  revert o. induction t as [| | | | | | |n|t IH| | |n]; intros o Ht; cbn [convert_field_type_for_input]; apply in_option_line; try literal;
    try (by apply identifier_line).
  - destruct t; try (apply vec_line, IH; exact Ht). repeat case_decide; try literal. case_match; [literal|]. apply vec_line, IH, Ht.
  - case_match; [literal|]. by apply identifier_line.
Qed.
Lemma db_type_line t o : one_line (convert_field_type_for_db t o).
Proof. apply in_option_line. by destruct t. Qed.

(** ** The declarations of a model *)

Section Family.
Context {ho : HashOrder}.

Definition column (name : string) : string := safe_ident (camel_to_snake_case name).
Definition renamed_slot (name type : string) : Slot :=
  mkSlot (if decide (camel_to_snake_case name = name) then [] else ["    #[graphql(name = " +:+ q name +:+ ")]"]) (column name) ("Option<" +:+ type +:+ ">").
Definition logical_slots (name : string) : list Slot :=
  [mkSlot ["    #[graphql(name = " +:+ q "_and" +:+ ")]"] "and" ("Option<Vec<" +:+ name +:+ "BoolExp>>");
   mkSlot ["    #[graphql(name = " +:+ q "_or" +:+ ")]"] "or" ("Option<Vec<" +:+ name +:+ "BoolExp>>");
   mkSlot ["    #[graphql(name = " +:+ q "_not" +:+ ")]"] "not" ("Option<Box<" +:+ name +:+ "BoolExp>>")].
Definition model_slots (m : Model) : list Slot :=
  (fun p => mkSlot [] (safe_ident p.1) (convert_field_type (f_type p.2) (f_optional p.2))) <$> hpairs (m_fields m).
Definition row_slots (m : Model) : list Slot :=
  (fun p => mkSlot [] (column p.1) (convert_field_type_for_db (f_type p.2) (f_optional p.2))) <$> hpairs (m_fields m).
Definition bool_exp_slots (m : Model) : list Slot :=
  (logical_slots (m_name m) ++ ((fun p => renamed_slot p.1 (get_field_comparison_type (f_type p.2))) <$> hpairs (m_fields m)))%list.
Definition order_by_slots (m : Model) : list Slot := (fun p => renamed_slot p.1 "OrderBy") <$> hpairs (m_fields m).
Definition input_slots (skipped : list string) (m : Model) : list Slot :=
  (fun p => mkSlot [] (column p.1) ("Option<" +:+ convert_field_type_for_input (f_type p.2) false +:+ ">")) <$>
  filter (fun p => p.1 ∉ skipped) (hpairs (m_fields m)).
Definition inc_slots (m : Model) : list Slot :=
  match filter (fun p => f_type p.2 = FNumber) (hpairs (m_fields m)) with
  | [] => [mkSlot [] "_placeholder" "Option<String>"]
  | numbers => (fun p => mkSlot [] p.1 "Option<i32>") <$> numbers
  end.
(** The name of a column, without an identifier's escape, per field; a model without fields has one that is empty. *)
Definition select_variants (m : Model) : list string :=
  match hpairs (m_fields m) with [] => [""] | fields => (fun p => column p.1) <$> fields end.
Definition struct_of (name : string) (slots : list Slot) : RustItem := Struct name ((fun s => (sl_ident s, sl_type s)) <$> slots).
Definition family (m : Model) : list RustItem :=
  let name := m_name m in
  let empty := [mkSlot [] "_placeholder" "Option<String>"] in
  [struct_of name (model_slots m);
   struct_of (name +:+ "Row") (row_slots m);
   struct_of (name +:+ "BoolExp") (bool_exp_slots m);
   struct_of (name +:+ "OrderBy") (order_by_slots m);
   Enumeration (name +:+ "SelectColumn") (select_variants m);
   Struct (name +:+ "Aggregate") [("aggregate", "Option<" +:+ name +:+ "AggregateFields>"); ("nodes", "Vec<" +:+ name +:+ ">")];
   Struct (name +:+ "AggregateFields") [("count", "Option<i32>")];
   struct_of (name +:+ "InsertInput") (input_slots ["id"; "createdAt"; "updatedAt"] m);
   struct_of (name +:+ "SetInput") (input_slots ["id"; "createdAt"] m);
   struct_of (name +:+ "IncInput") (inc_slots m);
   struct_of (name +:+ "AppendInput") empty;
   struct_of (name +:+ "PrependInput") empty;
   struct_of (name +:+ "DeleteKeyInput") empty;
   struct_of (name +:+ "DeleteElemInput") empty;
   struct_of (name +:+ "DeleteAtPathInput") empty;
   Struct (name +:+ "PkColumnsInput") [("id", "ID")];
   Struct (name +:+ "OnConflict") [("constraint", name +:+ "Constraint"); ("update_columns", "Vec<" +:+ name +:+ "UpdateColumn>"); ("where_", "Option<" +:+ name +:+ "BoolExp>")];
   Enumeration (name +:+ "Constraint") [name +:+ "Pkey"];
   Enumeration (name +:+ "UpdateColumn") ["Id"; "CreatedAt"; "UpdatedAt"];
   Struct (name +:+ "MutationResponse") [("affected_rows", "i32"); ("returning", "Vec<" +:+ name +:+ ">")]].
Definition enum_item (m : Model) : RustItem := Enumeration (m_name m) (enum_values m).

Section OneModel.
Context (m : Model) (named : named_table m).

Lemma name_line : one_line (m_name m).
Proof using named. apply identifier_line, named. Qed.
Lemma good_pairs (f : string * Field -> Slot) :
  (forall p, identifier p.1 = true -> named_type (f_type p.2) -> good_slot (f p)) ->
  forall l, l ⊆ hpairs (m_fields m) -> Forall good_slot (f <$> l).
Proof using named.
  intros Hf l Hl. apply Forall_fmap, Forall_forall. intros [n fd] Hin. apply Hl in Hin.
  apply elem_of_hpairs in Hin. destruct named as [_ Hn]. destruct (Hn n fd Hin). by apply Hf.
Qed.
Lemma column_name n : identifier n = true -> rust_name (column n).
Proof. intros Hn. by apply safe_ident_name, identifier_snake. Qed.
Lemma good_plain ident type : rust_name ident -> one_line type -> good_slot (mkSlot [] ident type).
Proof. intros [H1 H2] H3. by split_and!. Qed.
Lemma q_line s : one_line s -> one_line (q s).
Proof. intros Hs. unfold q, dq. rewrite !one_line_app. by split_and!. Qed.
Lemma option_line s : one_line s -> one_line ("Option<" +:+ s +:+ ">").
Proof. intros Hs. rewrite !one_line_app. by split_and!. Qed.
Lemma attribute_ok n : one_line n ->
  inner_line ("    #[graphql(name = " +:+ q n +:+ ")]") /\ rust_field ("    #[graphql(name = " +:+ q n +:+ ")]") = None.
Proof. intros Hn. split; [|done]. split; [|done]. rewrite !one_line_app. split_and!; [literal|by apply q_line|literal]. Qed.
Lemma good_renamed n type : identifier n = true -> one_line type -> good_slot (renamed_slot n type).
Proof.
  intros Hn Ht. destruct (column_name n Hn). unfold renamed_slot. split_and!; [done|done|by apply option_line|].
  cbn [sl_attributes]. destruct (decide _); [by apply Forall_nil_2|]. apply Forall_cons. split; [|by apply Forall_nil_2].
  by apply attribute_ok, identifier_line.
Qed.
Lemma good_model : Forall good_slot (model_slots m).
Proof using named. apply good_pairs; [|done]. intros p Hp Ht. apply good_plain; [by apply safe_ident_name|by apply field_type_line]. Qed.
Lemma good_row : Forall good_slot (row_slots m).
Proof using named. apply good_pairs; [|done]. intros p Hp Ht. apply good_plain; [by apply column_name|apply db_type_line]. Qed.
Lemma good_order_by : Forall good_slot (order_by_slots m).
Proof using named. apply good_pairs; [|done]. intros p Hp Ht. by apply good_renamed. Qed.
Lemma good_bool_exp : Forall good_slot (bool_exp_slots m).
Proof using named.
  pose proof name_line as Hl. apply Forall_app. split.
  - assert (Hg : forall op ident type, one_line op -> rust_name ident -> one_line type ->
      good_slot (mkSlot ["    #[graphql(name = " +:+ q op +:+ ")]"] ident type)).
    { intros op ident type Ho [Hi1 Hi2] Ht. refine (conj Hi1 (conj Hi2 (conj Ht _))).
      apply Forall_cons. split; [by apply attribute_ok|by apply Forall_nil_2]. }
    unfold logical_slots.
    repeat (apply Forall_cons; split; [apply Hg; [literal|by split|rewrite !one_line_app; by split_and!]|]). by apply Forall_nil_2.
  - apply good_pairs; [|done]. intros p Hp Ht. apply good_renamed; [done|apply comparison_type_line].
Qed.
Lemma good_input skipped_ : Forall good_slot (input_slots skipped_ m).
Proof using named.
  apply good_pairs; [|intros p [_ Hp]%list_elem_of_filter; exact Hp].
  intros p Hp Ht. apply good_plain; [by apply column_name|by apply option_line, input_type_line].
Qed.
Lemma good_placeholder : Forall good_slot [mkSlot [] "_placeholder" "Option<String>"].
Proof. apply Forall_cons. split; [by apply good_plain|by apply Forall_nil_2]. Qed.
Lemma good_inc : Forall good_slot (inc_slots m).
Proof using named.
  unfold inc_slots. destruct (filter _ _) as [|p l] eqn:E; [apply good_placeholder|].
  apply (good_pairs (fun p => mkSlot [] p.1 "Option<i32>")).
  - intros p' Hp Ht. apply good_plain; [split; [by apply identifier_line|by apply identifier_free]|literal].
  - rewrite <-E. intros p' [_ Hp]%list_elem_of_filter. exact Hp.
Qed.

(** A comment that names the model *)
Lemma comment_free l : one_line l -> has_char (Ascii.ascii_of_nat 123) l = false -> l <> "" -> comment_text l.
Proof. intros H1 H2 H3. exact (conj H1 (conj H3 (ends_with_absent _ _ H2))). Qed.
Lemma comment_named pre post : one_line pre -> one_line post ->
  has_char (Ascii.ascii_of_nat 123) pre = false -> has_char (Ascii.ascii_of_nat 123) post = false -> pre <> "" ->
  comment_text (pre +:+ m_name m +:+ post).
Proof using named.
  intros Hp Hq Hbp Hbq Hne. pose proof name_line as Hl. apply comment_free.
  - rewrite !one_line_app. by split_and!.
  - rewrite !has_char_app, Hbp, Hbq, (identifier_free _ (m_name m)) by (done || apply named). done.
  - by destruct pre.
Qed.
Lemma comment_last pre : one_line pre -> has_char (Ascii.ascii_of_nat 123) pre = false -> pre <> "" -> comment_text (pre +:+ m_name m).
Proof using named. intros H1 H2 H3. rewrite <-(str_app_empty_r (m_name m)). by apply comment_named. Qed.
(** An item whose name is that of the model with a suffix *)
Lemma shows_model_slots comment derived suffix slots :
  comment_text comment -> comment_text derived -> one_line suffix -> Forall good_slot slots ->
  shows rust_declaration (rust_item comment derived ("pub struct " +:+ m_name m +:+ suffix +:+ " {") (joined (slot_text <$> slots)))
    [struct_of (m_name m +:+ suffix) slots].
Proof using named.
  intros Hc Hd Hx Hs. pose proof name_line as Hl.
  pose proof (shows_slots comment derived (m_name m +:+ suffix) slots Hc Hd ltac:(rewrite one_line_app; by split) Hs) as Hi.
  rewrite !str_app_assoc in Hi. exact Hi.
Qed.
Lemma shows_model_variants comment derived suffix v vs :
  comment_text comment -> comment_text derived -> one_line suffix -> Forall one_line (v :: vs) ->
  shows rust_declaration (rust_item comment derived ("pub enum " +:+ m_name m +:+ suffix +:+ " {") (joined ((fun x => "    " +:+ x) <$> (v :: vs))))
    [Enumeration (m_name m +:+ suffix) (v :: vs)].
Proof using named.
  intros Hc Hd Hx Hv. pose proof name_line as Hl.
  pose proof (shows_variants comment derived (m_name m +:+ suffix) v vs Hc Hd ltac:(rewrite one_line_app; by split) Hv) as Hi.
  rewrite !str_app_assoc in Hi. exact Hi.
Qed.
Lemma joined_slots {A} (f : A -> string) (g : A -> Slot) (l : list A) :
  (forall x, f x = slot_text (g x)) -> joined (f <$> l) = joined (slot_text <$> (g <$> l)).
Proof. intros Hf. rewrite <-list_fmap_compose. f_equal. by apply list_fmap_ext. Qed.

Ltac fixed_comment := by apply comment_free.
Ltac named_comment := first [by apply comment_last|by apply comment_named].

Lemma shows_model_type : shows rust_declaration (generate_model_type m) [struct_of (m_name m) (model_slots m)].
Proof using named.
  unfold generate_model_type. rewrite (joined_slots _ (fun p => mkSlot [] (safe_ident p.1) (convert_field_type (f_type p.2) (f_optional p.2)))) by (by intros []).
  apply shows_slots; [named_comment|fixed_comment|apply name_line|apply good_model].
Qed.

(** The conversion of a row *)
Definition conversion_entries : list Entry :=
  (fun p => mkEntry [] (conversion_text (safe_ident p.1) (column p.1) (conversion p.2))) <$> hpairs (m_fields m).
Lemma inner_conversions : Forall inner_line (entries_lines conversion_entries).
Proof using named.
  assert (He : Forall inner_line (conversion_entries ≫= entry_lines)).
  { apply Forall_bind, Forall_fmap, Forall_forall. intros [n fd] [Hin _]%elem_of_hpairs%(proj2 named).
    apply Forall_cons. split; [|by apply Forall_nil_2]. split; [|done]. cbn [en_line compose fst snd].
    destruct (safe_ident_name n Hin) as [H1 _], (column_name n Hin) as [H2 _]. unfold conversion_text.
    rewrite !one_line_app. split; [|literal]. split; [literal|]. split; [done|]. split; [literal|].
    destruct (conversion fd); rewrite ?one_line_app; split_and!; (literal || done). }
  destruct conversion_entries as [|e es]; [|exact He]. by apply Forall_cons; split; [|apply Forall_nil_2].
Qed.
Lemma shows_impl header (l1 : list string) text body (l2 : list string) :
  one_line header -> strip_prefix "impl" header <> None -> ends_with "{" header = true ->
  text = unlines body -> Forall inner_line (l1 ++ body ++ l2)%list ->
  shows rust_declaration (unlines (header :: l1) +:+ text +:+ unlines (l2 ++ ["}"; ""])%list) [].
Proof.
  intros Hh Hp He -> Hb.
  assert (Hn : omap rust_declaration [Block header (l1 ++ body ++ l2)%list] = []).
  { unfold strip_prefix in Hp. destruct (String.prefix "impl" header) eqn:E; [|done].
    apply prefix_split in E as [r ->]. done. }
  pose proof (shows_rust_block header (l1 ++ body ++ l2)%list Hh) as Hs. rewrite Hn in Hs.
  rewrite !unlines_app, !str_app_assoc in Hs. rewrite unlines_step, !unlines_app, !str_app_assoc.
  apply Hs; [by intros ->|done|done].
Qed.
Lemma shows_row_type : shows rust_declaration (generate_row_type m) [struct_of (m_name m +:+ "Row") (row_slots m)].
Proof using named.
  pose proof name_line as Hl. unfold generate_row_type. apply (shows_app _ _ _ [_] []).
  - rewrite (joined_slots _ (fun p => mkSlot [] (column p.1) (convert_field_type_for_db (f_type p.2) (f_optional p.2)))) by (by intros []).
    apply (shows_model_slots _ _ "Row"); [named_comment|fixed_comment|literal|apply good_row].
  - rewrite <-(str_app_assoc (joined _)), <-(str_app_assoc (joined _ +:+ _)).
    apply (shows_impl _ [_; _] _ (entries_lines conversion_entries) ["        }"; "    }"]).
    + rewrite !one_line_app. by split_and!.
    + done.
    + replace ("impl From<" +:+ m_name m +:+ "Row> for " +:+ m_name m +:+ " {") with
        (("impl From<" +:+ m_name m +:+ "Row> for " +:+ m_name m +:+ " ") +:+ "{") by (by rewrite !str_app_assoc). apply ends_with_app.
    + rewrite str_app_assoc, <-joined_lines. f_equal. unfold joined, conversion_entries. rewrite <-list_fmap_compose. f_equal.
      apply list_fmap_ext. by intros ? [n fd] ?.
    + apply Forall_app. split; [template|]. apply Forall_app. split; [apply inner_conversions|template].
Qed.

Lemma renamed_text n type : renamed_field n type = slot_text (renamed_slot n type).
Proof.
  unfold renamed_field, slot_text, renamed_slot. cbn [sl_attributes sl_ident sl_type]. destruct (decide _); [done|].
  by rewrite unlines_one, !str_app_assoc.
Qed.
Lemma shows_bool_exp_type : shows rust_declaration (generate_bool_exp_type m) [struct_of (m_name m +:+ "BoolExp") (bool_exp_slots m)].
Proof using named.
  unfold generate_bool_exp_type.
  replace (joined _) with (joined (slot_text <$> bool_exp_slots m)).
  - apply (shows_model_slots _ _ "BoolExp"); [named_comment|fixed_comment|literal|apply good_bool_exp].
  - f_equal. unfold bool_exp_slots. rewrite fmap_app, <-list_fmap_compose. f_equal.
    apply list_fmap_ext. intros ? [n fd] ?. symmetry. apply renamed_text.
Qed.
Lemma shows_order_by_type : shows rust_declaration (generate_order_by_type m) [struct_of (m_name m +:+ "OrderBy") (order_by_slots m)].
Proof using named.
  unfold generate_order_by_type. rewrite <-list_fmap_compose, (joined_slots _ (fun p => renamed_slot p.1 "OrderBy")) by (intros p; apply renamed_text).
  apply (shows_model_slots _ _ "OrderBy"); [named_comment|fixed_comment|literal|apply good_order_by].
Qed.
Lemma concat_variants v vs :
  "    " +:+ String.concat ("," +:+ eol +:+ "    ") (v :: vs) = joined ((fun x => "    " +:+ x) <$> (v :: vs)).
Proof.
  unfold joined. revert v. induction vs as [|w vs IH]; intros v; [done|].
  change (String.concat ("," +:+ eol +:+ "    ") (v :: w :: vs)) with (v +:+ ("," +:+ eol +:+ "    ") +:+ String.concat ("," +:+ eol +:+ "    ") (w :: vs)).
  rewrite fmap_cons. change (String.concat ("," +:+ eol) (?a :: ((fun x => "    " +:+ x) <$> w :: vs))) with
    (a +:+ ("," +:+ eol) +:+ String.concat ("," +:+ eol) ((fun x => "    " +:+ x) <$> w :: vs)).
  rewrite <-IH, !str_app_assoc. done.
Qed.
Lemma select_lines : Forall one_line (select_variants m).
Proof using named.
  unfold select_variants. destruct (hpairs (m_fields m)) as [|p l] eqn:E; [by apply Forall_cons; split; [|apply Forall_nil_2]|].
  apply Forall_fmap, Forall_forall. intros [n fd] Hin. rewrite <-E in Hin. apply elem_of_hpairs, (proj2 named) in Hin as [Hin _].
  apply (column_name n Hin).
Qed.
Lemma shows_select_column : shows rust_declaration (generate_select_column_type m) [Enumeration (m_name m +:+ "SelectColumn") (select_variants m)].
Proof using named.
  pose proof select_lines as Hl. unfold generate_select_column_type, select_variants in *. rewrite <-list_fmap_compose.
  destruct (hpairs (m_fields m)) as [|p l].
  - apply (shows_model_variants _ _ "SelectColumn" "" []); [named_comment|fixed_comment|literal|exact Hl].
  - rewrite fmap_cons in Hl |- *. rewrite (concat_variants (column p.1)).
    apply (shows_model_variants _ _ "SelectColumn"); [named_comment|fixed_comment|literal|exact Hl].
Qed.
Ltac slots := repeat (apply Forall_cons; split; [apply good_plain; [by split|rewrite ?one_line_app; by split_and!]|]); by apply Forall_nil_2.
Ltac model_struct suffix slots_ := apply (shows_model_slots _ _ suffix slots_); [named_comment|fixed_comment|literal|].

Lemma shows_aggregate_type : shows rust_declaration (generate_aggregate_type m)
  [Struct (m_name m +:+ "Aggregate") [("aggregate", "Option<" +:+ m_name m +:+ "AggregateFields>"); ("nodes", "Vec<" +:+ m_name m +:+ ">")]].
Proof using named.
  pose proof name_line as Hl.
  model_struct "Aggregate" [mkSlot [] "aggregate" ("Option<" +:+ m_name m +:+ "AggregateFields>"); mkSlot [] "nodes" ("Vec<" +:+ m_name m +:+ ">")]. slots.
Qed.
Lemma shows_aggregate_fields_type : shows rust_declaration (generate_aggregate_fields_type m)
  [Struct (m_name m +:+ "AggregateFields") [("count", "Option<i32>")]].
Proof using named. model_struct "AggregateFields" [mkSlot [] "count" "Option<i32>"]. slots. Qed.
Lemma input_text skipped_ :
  joined (input_fields_without skipped_ m) = joined (slot_text <$> input_slots skipped_ m).
Proof. by apply joined_slots. Qed.
Lemma shows_insert_input : shows rust_declaration (generate_insert_input_type m)
  [struct_of (m_name m +:+ "InsertInput") (input_slots ["id"; "createdAt"; "updatedAt"] m)].
Proof using named. unfold generate_insert_input_type. rewrite input_text. model_struct "InsertInput" (input_slots ["id"; "createdAt"; "updatedAt"] m). apply good_input. Qed.
Lemma shows_set_input : shows rust_declaration (generate_set_input_type m)
  [struct_of (m_name m +:+ "SetInput") (input_slots ["id"; "createdAt"] m)].
Proof using named. unfold generate_set_input_type. rewrite input_text. model_struct "SetInput" (input_slots ["id"; "createdAt"] m). apply good_input. Qed.
Lemma shows_inc_input : shows rust_declaration (generate_inc_input_type m) [struct_of (m_name m +:+ "IncInput") (inc_slots m)].
Proof using named.
  pose proof good_inc as Hg. unfold generate_inc_input_type, inc_slots in *.
  destruct (filter _ (hpairs (m_fields m))) as [|p l].
  - model_struct "IncInput" [mkSlot [] "_placeholder" "Option<String>"]. exact Hg.
  - pose proof (joined_slots (fun p : string * Field => pub_field p.1 "Option<i32>") (fun p => mkSlot [] p.1 "Option<i32>") (p :: l) ltac:(done)) as Hj.
    cbn [fmap list_fmap] in Hj |- *. rewrite Hj.
    apply (shows_model_slots _ _ "IncInput" (mkSlot [] p.1 "Option<i32>" :: _)); [named_comment|fixed_comment|literal|exact Hg].
Qed.
Lemma shows_placeholder what suffix : one_line what -> one_line suffix -> has_char (Ascii.ascii_of_nat 123) what = false ->
  shows rust_declaration (placeholder_input what suffix m) [struct_of (m_name m +:+ suffix) [mkSlot [] "_placeholder" "Option<String>"]].
Proof using named.
  intros Hw Hs Hb. unfold placeholder_input. apply (shows_model_slots _ _ suffix [mkSlot [] "_placeholder" "Option<String>"]); [|fixed_comment|done|apply good_placeholder].
  replace ("/// " +:+ what +:+ " input for " +:+ m_name m) with (("/// " +:+ what +:+ " input for ") +:+ m_name m) by (by rewrite !str_app_assoc).
  apply comment_last; [rewrite !one_line_app; by split_and!| |done]. rewrite !has_char_app, Hb. done.
Qed.
Lemma shows_pk_columns : shows rust_declaration (generate_pk_columns_input_type m) [Struct (m_name m +:+ "PkColumnsInput") [("id", "ID")]].
Proof using named. model_struct "PkColumnsInput" [mkSlot [] "id" "ID"]. slots. Qed.
Lemma shows_mutation_response : shows rust_declaration (generate_mutation_response_type m)
  [Struct (m_name m +:+ "MutationResponse") [("affected_rows", "i32"); ("returning", "Vec<" +:+ m_name m +:+ ">")]].
Proof using named.
  pose proof name_line as Hl.
  model_struct "MutationResponse" [mkSlot [] "affected_rows" "i32"; mkSlot [] "returning" ("Vec<" +:+ m_name m +:+ ">")]. slots.
Qed.
Lemma shows_on_conflict : shows rust_declaration (generate_on_conflict_type m)
  [Struct (m_name m +:+ "OnConflict") [("constraint", m_name m +:+ "Constraint"); ("update_columns", "Vec<" +:+ m_name m +:+ "UpdateColumn>"); ("where_", "Option<" +:+ m_name m +:+ "BoolExp>")];
   Enumeration (m_name m +:+ "Constraint") [m_name m +:+ "Pkey"];
   Enumeration (m_name m +:+ "UpdateColumn") ["Id"; "CreatedAt"; "UpdatedAt"]].
Proof using named.
  pose proof name_line as Hl. unfold generate_on_conflict_type. apply (shows_app _ _ _ [_] [_; _]); [|apply (shows_app _ _ _ [_] [_])].
  - model_struct "OnConflict" [mkSlot [] "constraint" (m_name m +:+ "Constraint"); mkSlot [] "update_columns" ("Vec<" +:+ m_name m +:+ "UpdateColumn>");
      mkSlot [] "where_" ("Option<" +:+ m_name m +:+ "BoolExp>")]. slots.
  - apply (shows_model_variants _ _ "Constraint" (m_name m +:+ "Pkey") []); [named_comment|fixed_comment|literal|].
    apply Forall_cons. split; [rewrite one_line_app; by split|by apply Forall_nil_2].
  - pose proof (shows_enumeration ("/// Update column enum for " +:+ m_name m) "#[derive(Enum, Debug, Clone, Copy, PartialEq, Eq)]"
      (m_name m +:+ "UpdateColumn") ("    // Add update columns based on fields" +:+ eol +:+ joined ["    Id"; "    CreatedAt"; "    UpdatedAt"])
      ["    // Add update columns based on fields"; "    Id,"; "    CreatedAt,"; "    UpdatedAt,"] ltac:(named_comment) ltac:(fixed_comment)
      ltac:(rewrite one_line_app; by split) ltac:(template) ltac:(done)) as Hs.
    rewrite !str_app_assoc in Hs. exact Hs.
Qed.
Lemma shows_family : shows rust_declaration (generate_family m) (family m).
Proof using named.
  unfold generate_family, family.
  apply (shows_app _ _ _ [_]); [apply shows_model_type|]. apply (shows_app _ _ _ [_]); [apply shows_row_type|].
  apply (shows_app _ _ _ [_]); [apply shows_bool_exp_type|]. apply (shows_app _ _ _ [_]); [apply shows_order_by_type|].
  apply (shows_app _ _ _ [_]); [apply shows_select_column|]. apply (shows_app _ _ _ [_]); [apply shows_aggregate_type|].
  apply (shows_app _ _ _ [_]); [apply shows_aggregate_fields_type|]. apply (shows_app _ _ _ [_]); [apply shows_insert_input|].
  apply (shows_app _ _ _ [_]); [apply shows_set_input|]. apply (shows_app _ _ _ [_]); [apply shows_inc_input|].
  do 5 (apply (shows_app _ _ _ [_]); [by apply shows_placeholder|]).
  apply (shows_app _ _ _ [_]); [apply shows_pk_columns|]. apply (shows_app _ _ _ [_; _; _]); [apply shows_on_conflict|].
  apply shows_mutation_response.
Qed.
End OneModel.

(** ** Enums and the module *)

(** The values of enums are words too. *)
Definition named_rust (m : Model) : Prop :=
  named_table m /\ forall f fd, m_fields m !! f = Some fd -> identifier (f_name fd) = true.
Lemma named_values m : named_rust m -> Forall (fun v => identifier v = true) (enum_values m).
Proof.
  intros [_ Hv]. unfold enum_values.
  destruct (filter _ (hpairs (m_fields m))) as [|p l] eqn:E; [by repeat (apply Forall_cons; split; [done|]); apply Forall_nil_2|].
  cbn [fmap list_fmap]. rewrite <-(fmap_cons (fun p => f_name p.2)). apply Forall_fmap, Forall_forall. rewrite <-E.
  intros [n fd] [_ Hin%elem_of_hpairs]%list_elem_of_filter. by apply (Hv n).
Qed.
Lemma variant_lines_read vs : omap rust_variant (variant_lines vs) = vs.
Proof.
  destruct vs as [|v vs]; [done|]. unfold variant_lines. cbn [omap list_omap].
  change (rust_variant "    #[default]") with (@None string). rewrite rust_variant_line. f_equal.
  induction vs as [|x vs IH]; [done|]. rewrite fmap_cons. cbn [omap list_omap]. rewrite rust_variant_line. by rewrite IH.
Qed.
Lemma inner_lines (f : string -> string) (vs : list string) :
  (forall v, identifier v = true -> inner_line (f v)) -> Forall (fun v => identifier v = true) vs -> Forall inner_line (f <$> vs).
Proof. intros Hf Hv. apply Forall_fmap. eapply Forall_impl; [exact Hv|]. exact Hf. Qed.
Lemma shows_enum_declaration m : named_rust m ->
  shows rust_declaration
    (unlines
      ["/// " +:+ m_name m +:+ " enumeration";
       "#[derive(Debug, Clone, PartialEq, Eq, Serialize, Deserialize, async_graphql::Enum, Copy, Default)]";
       "pub enum " +:+ m_name m +:+ " {"] +:+
     unlines (variant_lines (enum_values m)) +:+ unlines ["}"; ""]) [enum_item m].
Proof.
  intros Hm. pose proof (named_values m Hm) as Hv. destruct Hm as [Hn _].
  assert (Hb : Forall inner_line (variant_lines (enum_values m))).
  { unfold variant_lines. destruct (enum_values m) as [|v vs]; [by apply Forall_nil_2|]. apply Forall_cons in Hv as [Hv Hvs].
    pose proof (identifier_line v Hv) as Hl. do 2 (apply Forall_cons; split; [split; [rewrite ?one_line_app; by split_and!|done]|]).
    apply (inner_lines (fun v => "    " +:+ v +:+ ",")); [|done]. intros x Hx%identifier_line. split; [rewrite !one_line_app; by split_and!|done]. }
  pose proof (shows_item ("/// " +:+ m_name m +:+ " enumeration") "#[derive(Debug, Clone, PartialEq, Eq, Serialize, Deserialize, async_graphql::Enum, Copy, Default)]"
    "pub enum " (m_name m) _ ltac:(by apply comment_named) ltac:(by apply comment_free) ltac:(literal) (name_line m Hn) ltac:(done) Hb) as Hs.
  cbn [omap list_omap rust_declaration] in Hs. change (strip_prefix "pub struct " ("pub enum " +:+ m_name m +:+ " {")) with (@None string) in Hs.
  rewrite strip_prefix_app in Hs. cbn [mbind option_bind] in Hs. rewrite strip_suffix_app in Hs. cbn [fmap option_fmap option_map] in Hs.
  rewrite variant_lines_read in Hs. exact Hs.
Qed.
Lemma shows_named_impl pre name (l1 body l2 : list string) :
  one_line pre -> String.prefix "impl" pre = true -> one_line name -> Forall inner_line (l1 ++ body ++ l2)%list ->
  shows rust_declaration (unlines ((pre +:+ name +:+ " {") :: l1) +:+ unlines body +:+ unlines (l2 ++ ["}"; ""])%list) [].
Proof.
  intros Hp [r ->]%prefix_split Hn Hb. apply (shows_impl _ l1 _ body l2); [rewrite (one_line_app ("impl" +:+ r)), (one_line_app name); split; [exact Hp|by split]| | |done|done].
  - rewrite !str_app_assoc. by rewrite strip_prefix_app.
  - replace (("impl" +:+ r) +:+ name +:+ " {") with ((("impl" +:+ r) +:+ name +:+ " ") +:+ "{") by (by rewrite !str_app_assoc). apply ends_with_app.
Qed.
Lemma shows_plain_impl pre name (l : list string) :
  one_line pre -> String.prefix "impl" pre = true -> one_line name -> Forall inner_line l ->
  shows rust_declaration (unlines ((pre +:+ name +:+ " {") :: l ++ ["}"; ""])%list) [].
Proof.
  intros Hp Hi Hn Hb. pose proof (shows_named_impl pre name [] [] l Hp Hi Hn Hb) as Hs. cbn [app] in Hs.
  rewrite unlines_cons in Hs |- *. change (unlines []) with "" in Hs. rewrite !str_app_assoc, !str_app_nil in Hs.
  rewrite !str_app_assoc. rewrite !str_app_cons, !str_app_nil in *. exact Hs.
Qed.
Lemma shows_enum_type m : named_rust m -> shows rust_declaration (generate_enum_type m) [enum_item m].
Proof.
  intros Hm. pose proof (named_values m Hm) as Hv. pose proof (name_line m (proj1 Hm)) as Hl.
  unfold generate_enum_type.
  rewrite <-(str_app_assoc (unlines (variant_lines _))), <-(str_app_assoc (unlines [_; _; _])).
  apply (shows_app _ _ _ [_] []); [by apply shows_enum_declaration|].
  rewrite <-(str_app_assoc (unlines (_ <$> _))), <-(str_app_assoc (unlines [_; _; _])).
  apply (shows_app _ _ _ [] []).
  { apply (shows_named_impl "impl std::fmt::Display for " _ [_; _] _ [_; _; _]); [literal|done|done|].
    apply Forall_app. split; [template|]. apply Forall_app. split; [|template].
    apply inner_lines; [|done]. intros v Hid%identifier_line. pose proof (q_line v Hid). split; [rewrite !one_line_app; by split_and!|done]. }
  rewrite <-(str_app_assoc (unlines (_ <$> _))), <-(str_app_assoc (unlines [_; _; _; _; _])).
  apply (shows_app _ _ _ [] []).
  { apply (shows_named_impl "impl std::str::FromStr for " _ [_; _; _; _] _ [_; _; _]); [literal|done|done|].
    assert (one_line (q ("Invalid " +:+ m_name m +:+ ": {}"))) by (apply q_line; rewrite !one_line_app; by split_and!).
    apply Forall_app. split; [template|]. apply Forall_app. split; [|template].
    apply inner_lines; [|done]. intros v Hid%identifier_line. pose proof (q_line v Hid). split; [rewrite !one_line_app; by split_and!|done]. }
  apply (shows_app _ _ _ [] []); [apply (shows_plain_impl "impl sqlx::Type<sqlx::Postgres> for " _ [_; _; _]); [literal|done|done|template]|].
  apply (shows_app _ _ _ [] []).
  - apply (shows_plain_impl "impl<'r> sqlx::Decode<'r, sqlx::Postgres> for " _ [_; _; _; _]); [literal|done|done|template].
  - apply (shows_plain_impl "impl<'q> sqlx::Encode<'q, sqlx::Postgres> for " _ [_; _; _]); [literal|done|done|template].
Qed.

(** The fixed parts of the module, as they read *)
Definition ordering_field : list (string * string) := [("order", "i32"); ("is_visible", "bool")].
Definition block_items : list RustItem :=
  [Enumeration "ContentBlock" ["Paragraph(ParagraphBlock)"; "CallLog(CallLogBlock)"; "MeetingNote(MeetingNoteBlock)"; "Task(TaskBlock)"];
   Struct "ParagraphBlock" ([("id", "String"); ("content", "String"); ("metadata", "Option<serde_json::Value>")] ++ ordering_field)%list;
   Struct "CallLogBlock"
     ([("id", "String"); ("caller", "String"); ("duration", "i32"); ("notes", "Option<String>"); ("outcome", "Option<String>");
       ("recorded_at", "DateTime<Utc>"); ("metadata", "Option<serde_json::Value>")] ++ ordering_field)%list;
   Struct "MeetingNoteBlock"
     ([("id", "String"); ("title", "String"); ("agenda", "Option<String>"); ("notes", "String"); ("attendees", "Vec<String>");
       ("action_items", "Vec<String>"); ("meeting_time", "DateTime<Utc>"); ("metadata", "Option<serde_json::Value>")] ++ ordering_field)%list;
   Struct "TaskBlock"
     ([("id", "String"); ("title", "String"); ("description", "Option<String>"); ("is_completed", "bool"); ("due_date", "Option<DateTime<Utc>>");
       ("assigned_to", "Option<String>"); ("metadata", "Option<serde_json::Value>")] ++ ordering_field)%list].
(** The operators of a type: each takes a value, a list of them, or whether there is one. *)
Definition on_value (t : string) (ops : list string) : list (string * string) := (fun op => (op, "Option<" +:+ t +:+ ">")) <$> ops.
Definition equality (t : string) : list (string * string) := on_value t ["_eq"; "_neq"].
Definition comparison (t : string) : list (string * string) := on_value t ["_gt"; "_gte"; "_lt"; "_lte"].
Definition membership (t : string) : list (string * string) := on_value ("Vec<" +:+ t +:+ ">") ["_in"; "_nin"].
Definition nullness : list (string * string) := on_value "bool" ["_is_null"].
Definition ordered_operators (t : string) : list (string * string) := (equality t ++ comparison t ++ membership t ++ nullness)%list.
Definition operator_items : list RustItem :=
  [Enumeration "OrderBy" ["Asc"; "AscNullsFirst"; "AscNullsLast"; "Desc"; "DescNullsFirst"; "DescNullsLast"];
   Struct "StringComparisonExp" (equality "String" ++ comparison "String" ++
     on_value "String" ["_like"; "_ilike"; "_similar"; "_regex"; "_iregex"] ++ membership "String" ++ nullness)%list;
   Struct "IntComparisonExp" (ordered_operators "i32"); Struct "FloatComparisonExp" (ordered_operators "f64");
   Struct "BooleanComparisonExp" (equality "bool" ++ nullness)%list;
   Struct "DateTimeComparisonExp" (ordered_operators "DateTime<Utc>");
   Struct "IdComparisonExp" (equality "ID" ++ membership "ID" ++ nullness)%list;
   Struct "NumericComparisonExp" (ordered_operators "f64");
   Struct "GenericComparisonExp" (equality "String" ++ membership "String" ++ nullness)%list].

Definition module_items (models : list Model) : list RustItem :=
  (block_items ++ (enum_item <$> filter (fun m => is_enum m = true) models) ++
   (filter (fun m => skipped m = false) models ≫= family) ++ operator_items)%list.
Lemma shows_module models : Forall named_rust models -> shows rust_declaration (generate_types models) (module_items models).
Proof.
  intros Hm. rewrite Forall_forall in Hm. unfold generate_types, module_items.
  apply (shows_app _ _ _ []); [by apply shows_fixed|]. apply (shows_app _ _ _ block_items); [by apply shows_fixed|]. apply shows_app; [|apply shows_app; [|by apply shows_fixed]].
  - replace (enum_item <$> _) with (filter (fun m => is_enum m = true) models ≫= (fun m => [enum_item m]))
      by (induction (filter _ _) as [|m l IH]; [done|]; by rewrite bind_cons, IH).
    apply shows_each. intros m [_ Hin]%list_elem_of_filter. by apply shows_enum_type, Hm.
  - apply shows_each. intros m [_ Hin]%list_elem_of_filter. by apply shows_family, Hm.
Qed.
End Family.

(** The generated Rust module of models whose names are words reads back as exactly the
    types meant: those of content blocks, an enum per enum with its values, the twenty
    structures and enums of each other model with the types of their fields, and the
    comparison expressions. *)
Theorem rust_types_read {ho : HashOrder} (models : list Model) :
  Forall named_rust models -> pick rust_declaration (read_text (generate_types models)) = Some (module_items models).
Proof. intros Hm. by apply shows_text, shows_module. Qed.

(** ** What the generated code compiles for *)

(** The types of the module *)
Inductive RustType : Type :=
  | RString | RF64 | RBool | RDecimal | RDate | RId | RJson
  | RVec (t : RustType) | ROption (t : RustType) | RNamed (name : string).
#[export] Instance RustType_eq_dec : EqDecision RustType.
Proof. solve_decision. Defined.
Fixpoint show_type (t : RustType) : string :=
  match t with
  | RString => "String" | RF64 => "f64" | RBool => "bool" | RDecimal => "sqlx::types::BigDecimal" | RDate => "DateTime<Utc>"
  | RId => "ID" | RJson => "serde_json::Value"
  | RVec t => "Vec<" +:+ show_type t +:+ ">"
  | ROption t => "Option<" +:+ show_type t +:+ ">"
  | RNamed name => name
  end.
Definition optionally (optional : bool) (t : RustType) : RustType := if optional then ROption t else t.
Definition is_block (name : string) : bool := bool_decide (name = "ContentBlock") || contains name "Block".
Fixpoint plain_type (t : FieldType) : RustType :=
  match t with
  | FString | FFile => RString
  | FNumber => RF64
  | FBoolean => RBool
  | FDate | FDateTime => RDate
  | FEntityId => RId
  | FJson => RJson
  | FBlocks => RVec (RNamed "ContentBlock")
  | FArray inner =>
      match inner with
      | FCustom name => if is_block name then RVec (RNamed "ContentBlock") else RVec (plain_type inner)
      | _ => RVec (plain_type inner)
      end
  | FCustom name | FReference name => RNamed name
  end.
Definition model_type (f : Field) : RustType := optionally (f_optional f) (plain_type (f_type f)).
Definition row_type (f : Field) : RustType :=
  optionally (f_optional f)
    match f_type f with
    | FString | FFile | FEntityId | FCustom _ | FReference _ => RString
    | FNumber => RDecimal
    | FBoolean => RBool
    | FDate | FDateTime => RDate
    | FJson | FBlocks | FArray _ => RJson
    end.
Lemma show_optionally o t : show_type (optionally o t) = in_option o (show_type t).
Proof. by destruct o. Qed.
Lemma model_type_text f : convert_field_type (f_type f) (f_optional f) = show_type (model_type f).
Proof.
  unfold model_type. rewrite show_optionally. generalize (f_optional f) as o.
  induction (f_type f) as [| | | | | | |n|t IH| | |n]; intros o; try done. cbn [convert_field_type plain_type]. f_equal.
  destruct t; try (cbn [show_type]; by rewrite (IH false)). cbn [is_block show_type]. unfold is_block.
  destruct (decide (name = "ContentBlock")); [by rewrite bool_decide_eq_true_2|]. rewrite bool_decide_eq_false_2 by done. cbn [orb].
  by destruct (contains name "Block").
Qed.
Lemma row_type_text f : convert_field_type_for_db (f_type f) (f_optional f) = show_type (row_type f).
Proof. unfold row_type, convert_field_type_for_db. rewrite show_optionally. f_equal. by destruct (f_type f). Qed.

Section Typing.
(** The named types that can be read from JSON, and those that can be parsed and have a default *)
Context (derived parsed : gset string).

Fixpoint from_json (t : RustType) : bool :=
  match t with
  | RNamed n => bool_decide (n ∈ derived)
  | RVec t | ROption t => from_json t
  | _ => true
  end.
Definition has_default (t : RustType) : bool := match t with RNamed n => bool_decide (n ∈ parsed) | _ => true end.
Definition from_text (t : RustType) : bool :=
  match t with RNamed n => bool_decide (n ∈ parsed) | RString | RF64 | RBool => true | _ => false end.
Definition displayed (t : RustType) : bool := match t with RString | RF64 | RBool | RDecimal | RDate | RId | RJson => true | _ => false end.
(** Does the conversion of a column of one type give a field of the other? *)
Definition typed (c : Conversion) (row field : RustType) : bool :=
  match c with
  | Moved => bool_decide (row = field)
  | ParseNumber => displayed row && bool_decide (field = RF64)
  | ParseNumbers => match row with ROption d => displayed d && bool_decide (field = ROption RF64) | _ => false end
  | FromJson => bool_decide (row = RJson) && from_json field && has_default field
  | FromJsons => bool_decide (row = ROption RJson) && from_json field && has_default field
  | ParseText => bool_decide (row = RString) && from_text field
  | ParseTexts => match field with ROption t => bool_decide (row = ROption RString) && from_text t | _ => false end
  end.
(** The fields it is written for *)
Definition convertible (t : FieldType) : bool :=
  match t with
  | FEntityId | FReference _ => false
  | FCustom n => bool_decide (n ∈ parsed)
  | FBlocks | FArray _ => from_json (plain_type t)
  | _ => true
  end.
Lemma typed_field f : typed (conversion f) (row_type f) (model_type f) = convertible (f_type f).
Proof.
  destruct f as [n t o a]. unfold conversion, row_type, model_type. cbn [f_type f_optional].
  destruct t as [| | | | | | |m|inner| | |m], o; try done; cbn [optionally typed plain_type convertible from_json has_default from_text andb];
    rewrite ?bool_decide_eq_true_2 by done; cbn [andb]; try done; try (by apply bool_decide_eq_false_2); rewrite ?andb_true_r; try done.
  all: destruct inner; try done; rewrite ?andb_true_r; try done; by destruct (is_block _); rewrite ?andb_true_r.
Qed.
(** The conversion of a row of a model, as a whole *)
Definition conversion_compiles (m : Model) : bool :=
  bool_decide (map_Forall (fun _ f => typed (conversion f) (row_type f) (model_type f) = true) (m_fields m)).
End Typing.

(** C40: The columns of a row and the fields of a model are declared with the types that the
    code says, and the conversion from one to the other is well typed just when every field
    is one it is written for: no identifier and no reference, which are text in a row and are
    moved as they are; a custom type only if it can be parsed; a list only if its elements can
    be read from JSON. *)
Theorem row_conversion_typed (derived parsed : gset string) (m : Model) :
  (forall name f, m_fields m !! name = Some f ->
     convert_field_type_for_db (f_type f) (f_optional f) = show_type (row_type f) /\
     convert_field_type (f_type f) (f_optional f) = show_type (model_type f)) /\
  (conversion_compiles derived parsed m = true <->
   forall name f, m_fields m !! name = Some f -> convertible derived parsed (f_type f) = true).
Proof.
  split; [intros name f _; split; [apply row_type_text|apply model_type_text]|].
  unfold conversion_compiles. rewrite bool_decide_eq_true. unfold map_Forall.
  split; intros H name f Hf; specialize (H name f Hf); by rewrite typed_field in *.
Qed.

Definition item_name (i : RustItem) : string := match i with Struct n _ | Enumeration n _ => n end.
(** The comparison of identifiers is not among the types that the module declares. *)
Lemma comparisons_declared t :
  get_field_comparison_type t ∈ item_name <$> operator_items <-> t <> FEntityId.
Proof.
  rewrite <-(bool_decide_eq_true (_ ∈ _)).
  destruct t; (split; [intros H; by vm_compute in H|intros H; by vm_compute]).
Qed.
(** An input that skips every field of its model is a comma alone. *)
Lemma empty_input {ho : HashOrder} (m : Model) skipped_ :
  (forall p, p ∈ hpairs (m_fields m) -> p.1 ∈ skipped_) -> joined (input_fields_without skipped_ m) +:+ "," +:+ eol = unlines [","].
Proof.
  intros Hs. unfold input_fields_without. destruct (filter _ _) as [|p l] eqn:E; [done|]. exfalso.
  assert (Hp : p ∈ filter (fun p => p.1 ∉ skipped_) (hpairs (m_fields m))) by (rewrite E; left).
  apply list_elem_of_filter in Hp as [Hn Hp]. by apply Hn, Hs.
Qed.

Module TypeGenExamples.
Definition post_fields : gmap string Field :=
  {[ "id" := mkField "id" FEntityId false []; "title" := mkField "title" FString false []; "viewCount" := mkField "viewCount" FNumber true [] ]}.
Definition post : Model := bare_model "Post" post_fields None.
Definition untitled : Model := bare_model "Untitled" {[ "viewCount" := mkField "viewCount" FNumber true [] ]} None.
Definition color : Model :=
  bare_model "Color" {[ "_enum_type" := mkField "_enum_type" FString false []; "_enum_value_0" := mkField "RED" FString false [] ]} None.
Ltac by_fields := intros f fd Hf; cbn in Hf; unfold post_fields in Hf;
  repeat (apply lookup_insert_Some in Hf as [[<- <-]|[_ Hf]]; [done|]); by apply lookup_singleton_Some in Hf as [<- <-].
Lemma post_named : named_rust post.
Proof. split; [split; [done|]|]; by_fields. Qed.
Lemma color_named : named_rust color.
Proof. split; [split; [done|]|]; by_fields. Qed.
Lemma rust_types_read_witness :
  pick rust_declaration (read_text (generate_types (ho := rev_order) [post; color])) = Some (module_items (ho := rev_order) [post; color]).
Proof.
  apply (rust_types_read (ho := rev_order) [post; color]).
  apply Forall_cons. split; [apply post_named|]. apply Forall_cons. split; [apply color_named|apply Forall_nil_2].
Defined.
(** A model with an identifier does not convert; without one it does. *)
Example post_does_not_convert : conversion_compiles {[ "ContentBlock" ]} ∅ post = false /\ conversion_compiles {[ "ContentBlock" ]} ∅ untitled = true.
Proof. by vm_compute. Qed.
End TypeGenExamples.
