(* ===== verification/ResolverGen.v ===== *)
(** * The generator of resolvers

    [atomo_schema/src/hasura_v2_resolver_generator.rs] generates, for each model, the Rust of
    eleven resolvers.  The bodies are templates that depend on the model only by its name and
    its columns, so the definitions here are what a generated resolver does when it runs: the
    statement it builds, with the values it binds.  Where the code itself is computed from the
    fields (the insert of one record), the variables it defines and uses are modelled as text.
    The rows are PostgreSQL's; a table says which relation each operator of SQL and each
    comparison of a filter stands for, what the relations hold of is a parameter. *)

From S2P Require Import Prelude Json SchemaTypes SqlBuilder Scan InterfaceParser CliMigrate Codegen TypeGen.

#[local] Open Scope string_scope.

(** ** [sqlx::QueryBuilder] *)

(** What is bound: a JSON value of a filter or an input, a text, a number, the time.
    A JSON value is bound as the text, boolean, integer or float that it is. *)
Inductive Arg : Type :=
  | AValue (v : Value)
  | AText (s : string)
  | ATexts (l : list string)
  | AInt (n : Z)
  | ANow.
Record Query : Type := mkQuery { qr_sql : string; qr_args : list Arg }.
Definition new_query (sql : string) : Query := mkQuery sql [].
Definition push (s : string) (b : Query) : Query := mkQuery (qr_sql b +:+ s) (qr_args b).
Definition push_bind (a : Arg) (b : Query) : Query :=
  mkQuery (qr_sql b +:+ SqlBuilder.placeholder (S (length (qr_args b)))) (qr_args b ++ [a])%list.

(** ** The filter of a list *)

Definition table_of (m : Model) : string := to_ascii_lowercase (m_name m).
Definition operator_sql (op : string) : string :=
  if decide (op = "_contains") then " @> "
  else if decide (op = "_eq") then " = " else if decide (op = "_neq") then " != " else if decide (op = "_gt") then " > "
  else if decide (op = "_gte") then " >= " else if decide (op = "_lt") then " < " else if decide (op = "_lte") then " <= "
  else if decide (op = "_like") then " LIKE " else if decide (op = "_ilike") then " ILIKE "
  else "".

Definition open_condition (started : bool) (table db_field : string) (b : Query) : Query :=
  push db_field (push (table +:+ ".") (push (if started then " AND " else " WHERE ") b)).
Definition true_value (v : Value) : bool := match v with VBool b => b | _ => false end.
Definition comparison_step (table db_field : string) (st : bool * Query) (p : string * Value) : bool * Query :=
  let '(op, value) := p in
  if is_null value then st
  else if decide (operator_sql op = "") then
    if decide (op = "_is_null") then
      (true, push (if true_value value then " IS NULL" else " IS NOT NULL") (open_condition st.1 table db_field st.2))
    else st
  else (true, push_bind (AValue value) (push (operator_sql op) (open_condition st.1 table db_field st.2))).
Definition field_step (table : string) (st : bool * Query) (p : string * Value) : bool * Query :=
  let '(field, filter_exp) := p in
  if decide (field ∈ ["_and"; "_or"; "_not"]) then st
  else match filter_exp with
       | VObject comparison => foldl (comparison_step table (camel_to_snake_case field)) st comparison
       | _ => st
       end.
Definition where_clause (table : string) (where_json : option Value) (b : Query) : Query :=
  match where_json with
  | Some (VObject fields) => (foldl (field_step table) (false, b) fields).2
  | _ => b
  end.

(** ** Order and pages *)

Definition order_direction (direction : Value) : string :=
  match direction with
  | VString s =>
      let s := to_ascii_lowercase s in
      if decide (s = "desc") then "DESC"
      else if decide (s = "asc_nulls_first") then "ASC NULLS FIRST"
      else if decide (s = "asc_nulls_last") then "ASC NULLS LAST"
      else if decide (s = "desc_nulls_first") then "DESC NULLS FIRST"
      else if decide (s = "desc_nulls_last") then "DESC NULLS LAST"
      else "ASC"
  | _ => "ASC"
  end.

Section Lists.
Context {ho : HashOrder}.

Definition valid_columns (m : Model) : list string := camel_to_snake_case <$> hkeys (m_fields m).
Definition order_parts (m : Model) (order_by : list Value) : list string :=
  order_by ≫= fun item =>
    match item with
    | VObject fields => omap (fun '(field, direction) =>
        let db_field := camel_to_snake_case field in
        if is_null direction then None
        else if decide (db_field ∈ valid_columns m) then Some (table_of m +:+ "." +:+ db_field +:+ " " +:+ order_direction direction)
        else None) fields
    | _ => []
    end.
Definition order_clause (m : Model) (order_by : option (list Value)) (b : Query) : Query :=
  match order_by with
  | Some items =>
      match order_parts m items with
      | [] => push (" ORDER BY " +:+ table_of m +:+ ".id ASC") b
      | parts => push (String.concat ", " parts) (push " ORDER BY " b)
      end
  | None => push (" ORDER BY " +:+ table_of m +:+ ".id ASC") b
  end.
Definition page (limit offset : option Z) (b : Query) : Query :=
  let b := match limit with Some n => push_bind (AInt n) (push " LIMIT " b) | None => b end in
  match offset with Some n => push_bind (AInt n) (push " OFFSET " b) | None => b end.
(** [distinct_on] is an argument that nothing uses. *)
Definition list_query (m : Model) (where_json : option Value) (order_by : option (list Value)) (limit offset : option Z) : Query :=
  page limit offset (order_clause m order_by (where_clause (table_of m) where_json (new_query ("SELECT * FROM " +:+ table_of m)))).
(** The count; the nodes beside it are those of [list_query] for the same arguments. *)
Definition aggregate_query (m : Model) (where_json : option Value) : Query :=
  where_clause (table_of m) where_json (new_query ("SELECT COUNT(*) FROM " +:+ table_of m)).
Definition by_pk_query (m : Model) (id : string) : Query :=
  mkQuery ("SELECT * FROM " +:+ table_of m +:+ " WHERE id = $1") [AText id].
Definition delete_by_pk (m : Model) (id : string) : Query :=
  mkQuery ("DELETE FROM " +:+ table_of m +:+ " WHERE id = $1 RETURNING *") [AText id].

(** ** Inserts *)

(** The fields that are written: all but those that are filled in *)
Definition filled_in : list string := ["id"; "createdAt"; "updatedAt"; "version"].
Definition written_fields (m : Model) : list (string * Field) := filter (fun p => p.1 ∉ filled_in) (hpairs (m_fields m)).
Definition insert_columns (m : Model) : list string :=
  (["id"; "created_at"; "updated_at"] ++ ((fun p => camel_to_snake_case p.1) <$> written_fields m))%list.
Definition block_element (t : FieldType) : bool := match t with FCustom name => contains name "Block" | _ => false end.
(** The variable that the code binds for a field *)
Definition bind_variable (p : string * Field) : string :=
  match f_type p.2 with
  | FArray inner => if block_element inner then safe_ident p.1 else p.1 +:+ "_json"
  | _ => safe_ident p.1
  end.
(** The statements that define the variables of a field *)
Definition field_binding (p : string * Field) : string :=
  let ident := safe_ident p.1 in
  let struct_ident := safe_ident (camel_to_snake_case p.1) in
  let from default := "let " +:+ ident +:+ " = object." +:+ struct_ident +:+ default +:+ ";" in
  if f_optional p.2 then from ""
  else match f_type p.2 with
       | FString => from (".unwrap_or_else(|| " +:+ dq +:+ dq +:+ ".to_string())")
       | FArray inner =>
           if block_element inner then from ".unwrap_or_else(|| serde_json::Value::Array(Vec::new()))"
           else from ".unwrap_or_else(|| Vec::new())" +:+ eol +:+
                "        let " +:+ p.1 +:+ "_json = serde_json::to_value(&" +:+ ident +:+ ")?;"
       | FJson => from ".unwrap_or_else(|| serde_json::json!({}))"
       | _ => from ".unwrap_or_default()"
       end.
Definition binding_code (m : Model) : string := each (fun p => "        " +:+ field_binding p +:+ eol) (written_fields m).
Definition query_builder_code (m : Model) : string :=
  "        let mut query_builder = sqlx::QueryBuilder::<sqlx::Postgres>::new(" +:+
    q ("INSERT INTO " +:+ table_of m +:+ " (" +:+ String.concat ", " (insert_columns m) +:+ ")") +:+ ");" +:+ eol +:+
  "        query_builder.push_values([1], |mut b, _| {" +:+ eol +:+
  "            b.push_bind(&id)" +:+ eol +:+
  "             .push_bind(&now)" +:+ eol +:+
  "             .push_bind(&now)" +:+
  each (fun p => eol +:+ "             .push_bind(&" +:+ bind_variable p +:+ ")") (written_fields m) +:+
  ";" +:+ eol +:+ "        });" +:+ eol +:+
  "        query_builder.push(" +:+ q " RETURNING *" +:+ ");" +:+ eol.

(** [push_values] of one row or several, each as many values *)
Fixpoint push_separated (l : list Arg) (b : Query) : Query :=
  match l with
  | [] => b
  | [a] => push_bind a b
  | a :: rest => push_separated rest (push ", " (push_bind a b))
  end.
Fixpoint push_rows (rows : list (list Arg)) (b : Query) : Query :=
  match rows with
  | [] => b
  | [r] => push ")" (push_separated r (push "(" b))
  | r :: rest => push_rows rest (push "), " (push_separated r (push "(" b)))
  end.
Definition push_values (rows : list (list Arg)) (b : Query) : Query := push_rows rows (push "VALUES " b).
(** The batch, by the fresh identifiers of its objects: each gives its identifier and two
    times, and nothing of its own.  Without objects nothing runs. *)
Definition insert_many (m : Model) (ids : list string) : option Query :=
  if decide (ids = []) then None
  else Some (push " RETURNING *"
    (push_values ((fun id => [AText id; ANow; ANow]) <$> ids)
      (new_query ("INSERT INTO " +:+ table_of m +:+ " (" +:+ String.concat ", " (insert_columns m) +:+ ")")))).

(** ** Updates *)

(** A field of the input that is given is set, by its column. *)
Definition set_step (set_input : string -> option Value) (b : Query) (p : string * Field) : Query :=
  match set_input p.1 with
  | Some v => push_bind (AValue v) (push (", " +:+ camel_to_snake_case p.1 +:+ " = ") b)
  | None => b
  end.
Definition set_clauses (m : Model) (set_input : string -> option Value) : Query :=
  foldl (set_step set_input) (push_bind ANow (new_query ("UPDATE " +:+ table_of m +:+ " SET updated_at = "))) (written_fields m).
Definition update_by_pk (m : Model) (id : string) (set_input : option (string -> option Value)) : Query :=
  match set_input with
  | Some set_input => push " RETURNING *" (push_bind (AText id) (push " WHERE id = " (set_clauses m set_input)))
  | None => by_pk_query m id
  end.
(** The filter is an argument that nothing uses. *)
Definition update_many (m : Model) (where_ : Value) (set_input : option (string -> option Value)) : option Query :=
  match set_input with
  | Some set_input => Some (push " WHERE 1=1 RETURNING *" (set_clauses m set_input))
  | None => None
  end.

(** ** Deletes *)

Record IdFilter : Type := mkIdFilter { idf_in : option (list string); idf_eq : option string }.
Record TimeFilter : Type := mkTimeFilter { tf_gte : option Value; tf_lte : option Value }.
(** The fields of the filter that are looked at *)
Record DeleteFilter : Type := mkDeleteFilter { df_id : option IdFilter; df_created_at : option TimeFilter }.
Definition id_conditions (f : option IdFilter) (st : bool * Query) : bool * Query :=
  match f with
  | Some f =>
      match idf_in f with
      | Some ids => if decide (ids = []) then st else (true, push ")" (push_bind (ATexts ids) (push " WHERE id = ANY(" st.2)))
      | None => match idf_eq f with Some id => (true, push_bind (AText id) (push " WHERE id = " st.2)) | None => st end
      end
  | None => st
  end.
Definition time_condition (sql : string) (v : option Value) (st : bool * Query) : bool * Query :=
  match v with
  | Some v => (true, push_bind (AValue v) (push sql (push (if st.1 then " AND" else " WHERE") st.2)))
  | None => st
  end.
Definition time_conditions (m : Model) (f : option TimeFilter) (st : bool * Query) : bool * Query :=
  match m_fields m !! "createdAt", f with
  | Some _, Some f => time_condition " created_at <= " (tf_lte f) (time_condition " created_at >= " (tf_gte f) st)
  | _, _ => st
  end.
Definition delete_many (m : Model) (where_ : DeleteFilter) : Query + string :=
  let '(has_conditions, b) :=
    time_conditions m (df_created_at where_) (id_conditions (df_id where_) (false, new_query ("DELETE FROM " +:+ table_of m))) in
  if has_conditions then inl (push " RETURNING *" b)
  else inr "Delete operation requires at least one WHERE condition for safety".

(** ** Queries of the platform *)

(** The three fixed lists, their lines joined by blanks; a table that is not there is empty.
    No caller is asked for. *)
Definition platform_users_sql : string :=
  "SELECT id, email, first_name, last_name, role, is_active, last_login_at, created_at, updated_at FROM users ORDER BY created_at DESC LIMIT $1 OFFSET $2".
Definition user_sessions_sql : string :=
  "SELECT id, user_id, expires_at, ip_address, user_agent, created_at FROM sessions ORDER BY created_at DESC LIMIT $1 OFFSET $2".
Definition audit_log_entries_sql : string :=
  "SELECT id, entity_type, entity_id, operation, user_id, ip_address, user_agent, timestamp as created_at FROM audit_log_projections ORDER BY timestamp DESC LIMIT $1 OFFSET $2".
Definition platform_query (sql : string) (table_exists : bool) (limit offset : option Z) : option Query :=
  if table_exists then Some (mkQuery sql [AInt (default 100 limit); AInt (default 0 offset)]) else None.
End Lists.

(** ** The filter as a list of conditions *)

Inductive Cond : Type :=
  | Compare (column operator : string) (v : Value)
  | NullIs (column : string) (b : bool).
Definition comparison_conds (column : string) (p : string * Value) : list Cond :=
  if is_null p.2 then []
  else if decide (operator_sql p.1 = "") then if decide (p.1 = "_is_null") then [NullIs column (true_value p.2)] else []
  else [Compare column (operator_sql p.1) p.2].
Definition field_conds (p : string * Value) : list Cond :=
  if decide (p.1 ∈ ["_and"; "_or"; "_not"]) then []
  else match p.2 with VObject comparison => comparison ≫= comparison_conds (camel_to_snake_case p.1) | _ => [] end.
Definition conditions (where_json : option Value) : list Cond :=
  match where_json with Some (VObject fields) => fields ≫= field_conds | _ => [] end.
(** Conditions as they are written: the first after [WHERE], the others after [AND] *)
Definition push_cond (table : string) (c : Cond) (b : Query) : Query :=
  match c with
  | Compare column operator v => push_bind (AValue v) (push operator (push column (push (table +:+ ".") b)))
  | NullIs column is_ => push (if is_ then " IS NULL" else " IS NOT NULL") (push column (push (table +:+ ".") b))
  end.
Definition push_conds (table : string) (conds : list Cond) (b : Query) : Query :=
  match conds with
  | [] => b
  | c :: rest => foldl (fun b c => push_cond table c (push " AND " b)) (push_cond table c (push " WHERE " b)) rest
  end.

Definition cond_step (table : string) (st : bool * Query) (c : Cond) : bool * Query :=
  (true, push_cond table c (push (if st.1 then " AND " else " WHERE ") st.2)).
Lemma comparison_step_conds table column st p :
  comparison_step table column st p = foldl (cond_step table) st (comparison_conds column p).
Proof.
  destruct p as [op v]. unfold comparison_step, comparison_conds. cbn [fst snd]. destruct (is_null v); [done|].
  destruct (decide (operator_sql op = "")); [|done]. by destruct (decide (op = "_is_null")).
Qed.
Lemma foldl_bind {A B S} (f : S -> A -> S) (g : B -> list A) (h : S -> B -> S) (l : list B) (s : S) :
  (forall s x, h s x = foldl f s (g x)) -> foldl h s l = foldl f s (l ≫= g).
Proof. intros Hh. revert s. induction l as [|x l IH]; intros s; [done|]. cbn [foldl]. by rewrite bind_cons, foldl_app, Hh, IH. Qed.
Lemma field_step_conds table st p : field_step table st p = foldl (cond_step table) st (field_conds p).
Proof.
  destruct p as [field exp]. unfold field_step, field_conds. cbn [fst snd]. destruct (decide (field ∈ _)); [done|].
  destruct exp; try done. apply foldl_bind. intros s x. apply comparison_step_conds.
Qed.
Lemma where_clause_conds table where_json b : where_clause table where_json b = push_conds table (conditions where_json) b.
Proof.
  destruct where_json as [[]|]; try done. unfold where_clause, conditions.
  rewrite (foldl_bind (cond_step table) field_conds) by (intros; apply field_step_conds).
  destruct (l ≫= field_conds) as [|c rest]; [done|]. cbn [foldl push_conds]. unfold cond_step at 2. cbn [fst snd].
  generalize (push_cond table c (push " WHERE " b)). induction rest as [|d rest IH]; intros q; [done|]. cbn [foldl]. apply IH.
Qed.

(** ** What a filter means *)

Inductive BoolExp : Type :=
  mkBoolExp (ands ors : option (list BoolExp)) (nots : option BoolExp) (fields : list (string * option (list (string * Value)))).
Definition be_fields (e : BoolExp) : list (string * option (list (string * Value))) := match e with mkBoolExp _ _ _ fs => fs end.
(** As serde writes it: the fields of the structure under their names in Rust, an object
    sorted by its keys *)
Definition sorted_object (l : list (string * Value)) : Value := VObject (merge_sort key_le l).
Definition field_json (p : string * option (list (string * Value))) : string * Value :=
  (camel_to_snake_case p.1, match p.2 with Some ops => sorted_object ops | None => VNull end).
Fixpoint to_json (e : BoolExp) : Value :=
  match e with
  | mkBoolExp ands ors nots fields =>
      sorted_object
        (("and", match ands with Some l => VArray (map to_json l) | None => VNull end) ::
         ("or", match ors with Some l => VArray (map to_json l) | None => VNull end) ::
         ("not", match nots with Some e => to_json e | None => VNull end) :: map field_json fields)
  end.

(** What the comparisons of a filter are called, and what the operators of PostgreSQL say *)
Inductive Relation : Type := Equal | Unequal | Greater | GreaterOrEqual | Less | LessOrEqual | Like | ILike | Contains.
Fixpoint entry {A} (table : list (string * A)) (name : string) : option A :=
  match table with [] => None | (n, a) :: rest => if decide (name = n) then Some a else entry rest name end.
Definition documented : string -> option Relation :=
  entry [("_eq", Equal); ("_neq", Unequal); ("_gt", Greater); ("_gte", GreaterOrEqual); ("_lt", Less); ("_lte", LessOrEqual);
         ("_like", Like); ("_ilike", ILike); ("_contains", Contains)].
Definition sql_relation : string -> option Relation :=
  entry [(" = ", Equal); (" != ", Unequal); (" > ", Greater); (" >= ", GreaterOrEqual); (" < ", Less); (" <= ", LessOrEqual);
         (" LIKE ", Like); (" ILIKE ", ILike); (" @> ", Contains)].
Lemma operators_documented op :
  match documented op with
  | Some rel => operator_sql op <> "" /\ sql_relation (operator_sql op) = Some rel
  | None => operator_sql op = ""
  end.
Proof. unfold documented, operator_sql. cbn [entry]. repeat case_decide; subst; done. Qed.

Section Meaning.
(** The relations, and the operators of filters that the generated code does not know; a row
    gives the value of each column. *)
Context (holds : Relation -> Value -> Value -> bool) (other : string -> Value -> Value -> bool) (row : string -> Value).

Definition comparison_holds (column : string) (p : string * Value) : bool :=
  if is_null p.2 then true
  else match documented p.1 with
       | Some rel => holds rel (row column) p.2
       | None => if decide (p.1 = "_is_null") then Bool.eqb (is_null (row column)) (match p.2 with VBool true => true | _ => false end)
                 else other p.1 (row column) p.2
       end.
Definition field_holds (p : string * option (list (string * Value))) : bool :=
  match p.2 with Some ops => forallb (comparison_holds (camel_to_snake_case p.1)) ops | None => true end.
Fixpoint matches (e : BoolExp) : bool :=
  match e with
  | mkBoolExp ands ors nots fields =>
      match ands with Some l => forallb matches l | None => true end &&
      match ors with Some l => existsb matches l | None => true end &&
      match nots with Some e => negb (matches e) | None => true end &&
      forallb field_holds fields
  end.
Definition cond_holds (c : Cond) : bool :=
  match c with
  | Compare column operator v => match sql_relation operator with Some rel => holds rel (row column) v | None => false end
  | NullIs column b => Bool.eqb (is_null (row column)) b
  end.
End Meaning.

(** ** What a filter selects *)

(** Columns are not named like operators or connectives. *)
Definition column_ok (name : string) : Prop :=
  documented (camel_to_snake_case name) = None /\ camel_to_snake_case name ∉ ["_is_null"; "_and"; "_or"; "_not"].
Fixpoint columns_ok (e : BoolExp) : Prop :=
  match e with
  | mkBoolExp _ _ nots fields =>
      Forall (fun p => column_ok p.1) fields /\ match nots with Some e => columns_ok e | None => True end
  end.
(** A filter without connectives, of operators that the generated code knows *)
Definition known_operator (p : string * Value) : Prop := is_null p.2 = true \/ is_Some (documented p.1) \/ p.1 = "_is_null".
Definition simple (e : BoolExp) : Prop :=
  match e with
  | mkBoolExp None None None fields => Forall (fun p => match p.2 with Some ops => Forall known_operator ops | None => True end) fields
  | _ => False
  end.

Fixpoint lower_only (s : string) : bool := match s with EmptyString => true | String a r => negb (is_uppercase a) && lower_only r end.
Lemma lower_app a b : lower_only (a +:+ b) = lower_only a && lower_only b.
Proof. induction a as [|x a IH]; [done|]. rewrite str_app_cons. cbn [lower_only]. by rewrite IH, andb_assoc. Qed.
Lemma lower_char a : is_uppercase (ascii_lower a) = false.
Proof. destruct a as [[] [] [] [] [] [] [] []]; by vm_compute. Qed.
Lemma lower_same a : is_uppercase a = false -> ascii_lower a = a.
Proof. destruct a as [[] [] [] [] [] [] [] []]; by vm_compute. Qed.
Lemma snake_lower b s : lower_only (snake_from b s) = true.
Proof.
  revert b. induction s as [|a s IH]; intros b; [done|]. cbn [snake_from]. rewrite lower_app. cbn [lower_only].
  rewrite lower_char, IH. by destruct (is_uppercase a && b).
Qed.
Lemma snake_fixed b s : lower_only s = true -> snake_from b s = s.
Proof.
  revert b. induction s as [|a s IH]; intros b; [done|]. cbn [lower_only snake_from]. intros [Ha%negb_true_iff Hs]%andb_prop.
  rewrite Ha, IH, lower_same by done. done.
Qed.
Lemma snake_snake s : camel_to_snake_case (camel_to_snake_case s) = camel_to_snake_case s.
Proof. apply snake_fixed, snake_lower. Qed.

Definition own_conds (p : string * option (list (string * Value))) : list Cond :=
  match p.2 with Some ops => ops ≫= comparison_conds (camel_to_snake_case p.1) | None => [] end.
Lemma sorted_bind {A} (f : string * Value -> list A) l : merge_sort key_le l ≫= f ≡ₚ l ≫= f.
Proof. by rewrite merge_sort_Permutation. Qed.
Lemma field_conds_json p : column_ok p.1 -> field_conds (field_json p) ≡ₚ own_conds p.
Proof.
  intros [_ Hn]. unfold field_conds, field_json, own_conds, sorted_object. cbn [fst snd]. rewrite decide_False by set_solver.
  rewrite snake_snake. destruct p.2; [|done]. apply sorted_bind.
Qed.
(** A negated filter contributes nothing: its fields are no operators. *)
Lemma negated_conds e : columns_ok e -> field_conds ("not", to_json e) = [].
Proof.
  destruct e as [ands ors nots fields]. intros [Hf _]. unfold field_conds, sorted_object.
  rewrite decide_False by (by vm_compute; set_solver).
  cbn [snd to_json]. apply Permutation_nil. symmetry. unfold sorted_object. rewrite sorted_bind, !bind_cons. cbn [app].
  assert (Hn : forall n v, operator_sql n = "" -> n <> "_is_null" -> comparison_conds (camel_to_snake_case "not") (n, v) = []).
  { intros n v H1 H2. unfold comparison_conds. cbn [fst snd]. destruct (is_null v); [done|]. by rewrite decide_True, decide_False by done. }
  rewrite !Hn by done. cbn [app fst]. change ("not", _).1 with "not" in *.
  induction Hf as [|p l [H1 H2] Hl IH]; [done|]. cbn [map]. rewrite bind_cons, IH.
  unfold field_json. pose proof (operators_documented (camel_to_snake_case p.1)) as Ho. rewrite H1 in Ho.
  rewrite Hn; [done|done|set_solver].
Qed.
Lemma json_conditions e : columns_ok e -> conditions (Some (to_json e)) ≡ₚ be_fields e ≫= own_conds.
Proof.
  destruct e as [ands ors nots fields]. intros [Hf Hn]. cbn [to_json conditions be_fields]. unfold sorted_object.
  rewrite sorted_bind, !bind_cons.
  assert (Ha : field_conds ("and", match ands with Some l => VArray (map to_json l) | None => VNull end) = []) by (by destruct ands).
  assert (Ho : field_conds ("or", match ors with Some l => VArray (map to_json l) | None => VNull end) = []) by (by destruct ors).
  assert (Hnot : field_conds ("not", match nots with Some e => to_json e | None => VNull end) = [])
    by (destruct nots as [e|]; [by apply negated_conds|done]).
  rewrite Ha, Ho, Hnot. cbn [app]. clear -Hf.
  induction Hf as [|p l Hp Hl IH]; [done|]. cbn [map]. by rewrite !bind_cons, IH, field_conds_json.
Qed.

Section Selection.
Context (holds : Relation -> Value -> Value -> bool) (other : string -> Value -> Value -> bool) (row : string -> Value).

Lemma forallb_bind {A B} (f : B -> bool) (g : A -> list B) (l : list A) : forallb f (l ≫= g) = forallb (fun x => forallb f (g x)) l.
Proof. induction l as [|x l IH]; [done|]. rewrite bind_cons, forallb_app. cbn [forallb]. by rewrite IH. Qed.
Lemma comparison_selected column p :
  (comparison_holds holds other row column p = true -> forallb (cond_holds holds row) (comparison_conds column p) = true) /\
  (known_operator p -> forallb (cond_holds holds row) (comparison_conds column p) = comparison_holds holds other row column p).
Proof.
  destruct p as [op v]. unfold comparison_holds, comparison_conds, known_operator. cbn [fst snd].
  destruct (is_null v) eqn:Hv; [done|]. pose proof (operators_documented op) as Ho. destruct (documented op) as [rel|].
  - destruct Ho as [Ho1 Ho2]. rewrite decide_False by done. cbn [forallb cond_holds]. by rewrite Ho2, andb_true_r.
  - destruct (decide (operator_sql op = "")); [|done]. destruct (decide (op = "_is_null")); cbn [forallb cond_holds].
    + rewrite andb_true_r. destruct v as [|[]| | | |]; done.
    + split; [done|]. intros [Hnull|[[rel Hrel]|Hop]]; [congruence|discriminate|congruence].
Qed.
Lemma forallb_ext_in {A} (f g : A -> bool) (l : list A) : (forall x, x ∈ l -> f x = g x) -> forallb f l = forallb g l.
Proof.
  induction l as [|x l IH]; intros Hf; [done|]. cbn [forallb]. rewrite (Hf x) by left. f_equal. apply IH. intros y Hy. apply Hf. by right.
Qed.
Lemma forallb_weaken {A} (f g : A -> bool) (l : list A) : (forall x, f x = true -> g x = true) -> forallb f l = true -> forallb g l = true.
Proof. intros Hf. rewrite !forallb_forall. auto. Qed.
Lemma fields_selected e :
  (matches holds other row e = true -> forallb (cond_holds holds row) (be_fields e ≫= own_conds) = true) /\
  (simple e -> forallb (cond_holds holds row) (be_fields e ≫= own_conds) = matches holds other row e).
Proof.
  destruct e as [ands ors nots fields]. cbn [be_fields matches]. rewrite forallb_bind.
  split.
  - intros Hm. apply andb_prop in Hm as [_ Hm]. revert Hm. apply forallb_weaken. intros [f [ops|]]; [|done].
    unfold field_holds, own_conds. cbn [snd fst]. rewrite forallb_bind. apply forallb_weaken. intros p. apply comparison_selected.
  - cbn [simple]. destruct ands; [done|]. destruct ors; [done|]. destruct nots; [done|]. intros Hs. cbn [andb].
    apply forallb_ext_in. intros [f [ops|]] Hin; [|done]. unfold field_holds, own_conds. cbn [snd fst].
    rewrite forallb_bind. apply forallb_ext_in. intros p Hp. apply comparison_selected.
    rewrite Forall_forall in Hs. specialize (Hs _ Hin). cbn in Hs. rewrite Forall_forall in Hs. by apply Hs.
Qed.
Lemma forallb_perm {A} (f : A -> bool) (l l' : list A) : l ≡ₚ l' -> forallb f l = forallb f l'.
Proof. induction 1 as [|x l l' _ IH|x y l|l l2 l3 _ IH1 _ IH2]; cbn; [done|by rewrite IH| |by rewrite IH1]. by rewrite !andb_assoc, (andb_comm (f y)). Qed.
End Selection.


(** ** What is written *)

(** The assignments of an update: the given fields with their columns, numbered from [k] *)
Definition given {ho : HashOrder} (m : Model) (set_input : string -> option Value) : list (string * Value) :=
  omap (fun p => v ← set_input p.1; Some (camel_to_snake_case p.1, v)) (written_fields m).
Fixpoint assignments (k : nat) (l : list (string * Value)) : string :=
  match l with [] => "" | p :: rest => ", " +:+ p.1 +:+ " = " +:+ SqlBuilder.placeholder k +:+ assignments (S k) rest end.
(** The conditions of a delete: the text before the value, the value, the text after it *)
Definition delete_conds (m : Model) (f : DeleteFilter) : list (string * Arg * string) :=
  (match df_id f with
   | Some (mkIdFilter (Some ids) _) => if decide (ids = []) then [] else [(" id = ANY(", ATexts ids, ")")]
   | Some (mkIdFilter None (Some id)) => [(" id = ", AText id, "")]
   | _ => []
   end ++
   match m_fields m !! "createdAt", df_created_at f with
   | Some _, Some (mkTimeFilter gte lte) =>
       match gte with Some v => [(" created_at >= ", AValue v, "")] | None => [] end ++
       match lte with Some v => [(" created_at <= ", AValue v, "")] | None => [] end
   | _, _ => []
   end)%list.
Fixpoint condition_text (k : nat) (word : string) (l : list (string * Arg * string)) : string :=
  match l with
  | [] => ""
  | (before, _, after) :: rest => word +:+ before +:+ SqlBuilder.placeholder k +:+ after +:+ condition_text (S k) " AND" rest
  end.
(** Three values for each row, whatever the columns *)
Fixpoint three_values (k : nat) (rows : nat) : string :=
  match rows with
  | O => ""
  | S rest =>
      "(" +:+ SqlBuilder.placeholder (S k) +:+ ", " +:+ SqlBuilder.placeholder (S (S k)) +:+ ", " +:+ SqlBuilder.placeholder (S (S (S k))) +:+ ")" +:+
      match rest with O => "" | S _ => ", " +:+ three_values (k + 3) rest end
  end.

(** The code defines a variable; the one bound for a field is not defined. *)
Definition defines (variable code : string) : Prop := exists before after, code = before +:+ "let " +:+ variable +:+ " = " +:+ after.
Definition undefined_variable (p : string * Field) : bool :=
  f_optional p.2 && match f_type p.2 with FArray inner => negb (block_element inner) | _ => false end.
Lemma bound_defined p : undefined_variable p = false -> defines (bind_variable p) (field_binding p).
Proof.
  unfold undefined_variable, defines, bind_variable, field_binding. intros H.
  assert (Hlet : forall x y, exists before after, "let " +:+ x +:+ " = object." +:+ y = before +:+ "let " +:+ x +:+ " = " +:+ after)
    by (intros x y; exists "", ("object." +:+ y); by rewrite ?str_app_assoc).
  destruct (f_optional p.2).
  - destruct (f_type p.2); try apply Hlet. cbn in H. apply negb_false_iff in H. rewrite H. apply Hlet.
  - destruct (f_type p.2) as [| | | | | | | |inner| | |]; try apply Hlet. destruct (block_element inner); [apply Hlet|].
    exists ("let " +:+ safe_ident p.1 +:+ " = object." +:+ safe_ident (camel_to_snake_case p.1) +:+ ".unwrap_or_else(|| Vec::new());" +:+ eol +:+ "        "),
      ("serde_json::to_value(&" +:+ safe_ident p.1 +:+ ")?;").
    by rewrite !str_app_assoc.
Qed.

Section Writes.
Context {ho : HashOrder}.

Lemma set_steps s l sql args :
  foldl (set_step s) (mkQuery sql args) l =
  let g := omap (fun p : string * Field => v ← s p.1; Some (camel_to_snake_case p.1, v)) l in
  mkQuery (sql +:+ assignments (S (length args)) g) (args ++ (AValue <$> g.*2)).
Proof.
  revert sql args. induction l as [|p l IH]; intros sql args; cbn [foldl omap list_omap].
  - cbn. by rewrite str_app_empty_r, app_nil_r.
  - unfold set_step at 2. destruct (s p.1) as [v|] eqn:E; cbn [mbind option_bind]; rewrite ?E; cbn; [|apply IH].
    unfold push_bind, push. cbn. rewrite IH. cbn. rewrite length_app, Nat.add_1_r, <-!app_assoc, !str_app_assoc. done.
Qed.
Lemma set_clauses_text m s :
  set_clauses m s = mkQuery ("UPDATE " +:+ table_of m +:+ " SET updated_at = $1" +:+ assignments 2 (given m s)) (ANow :: (AValue <$> (given m s).*2)).
Proof.
  unfold set_clauses. unfold push_bind at 1, new_query. cbn [qr_sql qr_args app length]. rewrite set_steps. cbn [length].
  fold (given m s). change (SqlBuilder.placeholder 1) with "$1". by rewrite !str_app_assoc.
Qed.
Lemma delete_many_text m f :
  delete_many m f =
  match delete_conds m f with
  | [] => inr "Delete operation requires at least one WHERE condition for safety"
  | conds => inl (mkQuery ("DELETE FROM " +:+ table_of m +:+ condition_text 1 " WHERE" conds +:+ " RETURNING *") ((fun c => c.1.2) <$> conds))
  end.
Proof.
  destruct f as [ids times]. unfold delete_many, delete_conds, id_conditions, time_conditions, time_condition, push, push_bind, new_query.
  cbn [df_id df_created_at].
  destruct ids as [[[l|] [e|]]|]; cbn [idf_in idf_eq]; try destruct (decide (l = []));
    destruct (m_fields m !! "createdAt"); destruct times as [[[gte|] [lte|]]|]; cbn;
    rewrite ?str_app_assoc; done.
Qed.
Lemma row_values id b :
  push_separated [AText id; ANow; ANow] b =
  mkQuery (qr_sql b +:+ SqlBuilder.placeholder (S (length (qr_args b))) +:+ ", " +:+ SqlBuilder.placeholder (S (S (length (qr_args b)))) +:+
           ", " +:+ SqlBuilder.placeholder (S (S (S (length (qr_args b)))))) (qr_args b ++ [AText id; ANow; ANow])%list.
Proof.
  unfold push_separated, push_bind, push. cbn. rewrite !length_app, <-!app_assoc. cbn [length app].
  by rewrite !Nat.add_1_r, !str_app_assoc.
Qed.
Lemma rows_text ids b :
  push_rows ((fun id => [AText id; ANow; ANow]) <$> ids) b =
  mkQuery (qr_sql b +:+ three_values (length (qr_args b)) (length ids))
          (qr_args b ++ (ids ≫= fun id => [AText id; ANow; ANow]))%list.
Proof.
  revert b. induction ids as [|id ids IH]; intros b.
  - destruct b. cbn. by rewrite str_app_empty_r, app_nil_r.
  - destruct ids as [|id' ids].
    + cbn [fmap list_fmap push_rows]. rewrite row_values. unfold push. cbn. by rewrite ?str_app_assoc, ?str_app_empty_r.
    + change (push_rows _ b) with
        (push_rows ((fun id => [AText id; ANow; ANow]) <$> id' :: ids) (push "), " (push_separated [AText id; ANow; ANow] (push "(" b)))).
      rewrite IH, row_values. unfold push. cbn [qr_sql qr_args]. rewrite length_app, bind_cons, <-app_assoc. cbn [length three_values].
      by rewrite !str_app_assoc.
Qed.
End Writes.

(** The statements that the generated writes run, and what they bind.  A bulk delete runs
    just where it has a condition on the identifier or the creation time, under all of those;
    else it is an error.  An update sets the time and the given fields, by their columns; one
    by its key touches that row, and one by a filter touches every row, whatever the filter.
    A batch of inserts gives three values to each row, for three columns and one more for
    each written field.  The placeholders are numbered as the values are bound.  The code of
    a single insert defines the variable it binds for a field, but where that is an optional
    list that is no list of blocks. *)
Theorem generated_writes {ho : HashOrder} (m : Model) (filter_ : DeleteFilter) (where_ : Value) (s : string -> option Value) (id : string) (ids : list string) :
  delete_many m filter_ =
    match delete_conds m filter_ with
    | [] => inr "Delete operation requires at least one WHERE condition for safety"
    | conds => inl (mkQuery ("DELETE FROM " +:+ table_of m +:+ condition_text 1 " WHERE" conds +:+ " RETURNING *") ((fun c => c.1.2) <$> conds))
    end /\
  update_by_pk m id (Some s) =
    mkQuery ("UPDATE " +:+ table_of m +:+ " SET updated_at = $1" +:+ assignments 2 (given m s) +:+
             " WHERE id = " +:+ SqlBuilder.placeholder (2 + length (given m s)) +:+ " RETURNING *")
            (ANow :: (AValue <$> (given m s).*2) ++ [AText id])%list /\
  update_many m where_ (Some s) =
    Some (mkQuery ("UPDATE " +:+ table_of m +:+ " SET updated_at = $1" +:+ assignments 2 (given m s) +:+ " WHERE 1=1 RETURNING *")
                  (ANow :: (AValue <$> (given m s).*2))) /\
  insert_many m ids =
    (if decide (ids = []) then None else Some (mkQuery ("INSERT INTO " +:+ table_of m +:+ " (" +:+ String.concat ", " (insert_columns m) +:+ ")VALUES " +:+
             three_values 0 (length ids) +:+ " RETURNING *") (ids ≫= fun id => [AText id; ANow; ANow]))) /\
  length (insert_columns m) = (3 + length (written_fields m))%nat /\
  Forall (fun p => undefined_variable p = false -> defines (bind_variable p) (field_binding p)) (written_fields m).
Proof.
  split_and!.
  - apply delete_many_text.
  - unfold update_by_pk. rewrite set_clauses_text. unfold push, push_bind. cbn [qr_sql qr_args length]. rewrite !length_fmap.
    by rewrite !str_app_assoc.
  - unfold update_many. rewrite set_clauses_text. unfold push. cbn [qr_sql qr_args]. by rewrite !str_app_assoc.
  - unfold insert_many, push_values. destruct (decide (ids = [])); [done|]. rewrite rows_text. unfold push, new_query. cbn [qr_sql qr_args length app]. by rewrite !str_app_assoc.
  - unfold insert_columns. by rewrite length_app, length_fmap.
  - apply Forall_forall. intros p _. apply bound_defined.
Qed.

(** ** Examples *)

Module ResolverExamples.
Definition post : Model :=
  mkModel "Post" {[ "title" := mkField "title" FString false []; "viewCount" := mkField "viewCount" FNumber false [];
                    "tags" := mkField "tags" (FArray FString) true []; "createdAt" := mkField "createdAt" FDateTime false [] ]}
    None None ∅ None ∅ [] (mkEvents [] [] []) None.
#[local] Instance order : HashOrder := enum_order.
Definition titled : list (string * option (list (string * Value))) := [("viewCount", Some [("_gte", json_int 3)]); ("title", Some [("_eq", VString "x")])].
Definition filter_ : BoolExp := mkBoolExp None None None titled.


(** Connectives and the operators that the code does not know leave a list unfiltered. *)
Example negation_ignored :
  list_query post (Some (to_json (mkBoolExp None (Some [filter_]) (Some filter_) []))) None None None = list_query post None None None None.
Proof. by vm_compute. Qed.
Example membership_ignored :
  list_query post (Some (to_json (mkBoolExp None None None [("title", Some [("_in", VArray [VString "x"]); ("_regex", VString "y")])]))) None None None =
  list_query post None None None None.
Proof. by vm_compute. Qed.
(** The names of an enumeration have no underscores left: an order with nulls first falls to [ASC]. *)
Example nulls_first_ascend : order_direction (VString "DescNullsFirst") = "ASC" /\ order_direction (VString "Desc") = "DESC".
Proof. done. Qed.
(** An update of the posts of one title sets the title of every post. *)
Example update_touches_all :
  update_many post (to_json filter_) (Some (fun f => if decide (f = "title") then Some (VString "y") else None)) =
  Some (mkQuery "UPDATE post SET updated_at = $1, title = $2 WHERE 1=1 RETURNING *" [ANow; AValue (VString "y")]).
Proof. by vm_compute. Qed.
(** A batch of one: six columns, three values *)
Example batch_short :
  insert_many post ["a"] = Some (mkQuery "INSERT INTO post (id, created_at, updated_at, view_count, title, tags)VALUES ($1, $2, $3) RETURNING *" [AText "a"; ANow; ANow]) /\ length (insert_columns post) = 6%nat.
Proof. by vm_compute. Qed.
(** The code of a single insert binds [tags_json], which it does not define. *)
Example optional_list_undefined :
  (bind_variable <$> written_fields post) = ["viewCount"; "title"; "tags_json"] /\
  field_binding ("tags", mkField "tags" (FArray FString) true []) = "let tags = object.tags;".
Proof. by vm_compute. Qed.
Example delete_needs_condition :
  delete_many post (mkDeleteFilter (Some (mkIdFilter (Some []) (Some "a"))) None) = inr "Delete operation requires at least one WHERE condition for safety" /\
  delete_many post (mkDeleteFilter (Some (mkIdFilter None (Some "a"))) (Some (mkTimeFilter None (Some (VString "t"))))) =
    inl (mkQuery "DELETE FROM post WHERE id = $1 AND created_at <= $2 RETURNING *" [AText "a"; AValue (VString "t")]).
Proof. by vm_compute. Qed.
End ResolverExamples.
